(* ===== verification/_CoqProject ===== *)
-Q . S2P
Prelude.v
VfsTypes.v
Pack.v
ContentHash.v
PackCache.v
Manifest.v
PackIndex.v
PostgresIndex.v
Compaction.v
PackStore.v
NamespaceIndex.v
NamespaceWf.v
ObjectStorage.v
ObjectReads.v
ObjectBatchReads.v
ObjectWrites.v
ObjectCommit.v
ObjectSystem.v
MountTypes.v
WalTypes.v
WalReplay.v
Wal.v
WalLayout.v
WalRecovery.v
WalInvariant.v
WalSteps.v
WalMaint.v
WalOpen.v
WalSystem.v
WalCodec.v
WalWitness.v
SendOrder.v
PublishBatch.v
PublishPlan.v
PublishFold.v
Publication.v
PathLocks.v
Effects.v
Etcd.v
PartitionGate.v
ControlBus.v
BusSystem.v
BusSettle.v
BusExclusion.v
BusLocal.v
DeadLetters.v
ExecInput.v
SessionRoutes.v
RouteFences.v
RouteStore.v
Outbox.v
Reconcile.v
ReconcileFix.v
Placement.v
Retry.v
GuestExec.v
Pci.v
PciHost.v
PciBinding.v
PciLinux.v
PciLeases.v
PciMachines.v
PciRules.v
PciSafety.v
PayloadStore.v
PayloadSystem.v
PayloadOwners.v
PayloadIntact.v
PayloadReads.v
PayloadDurable.v
PayloadScenarios.v
LazyTable.v
LazyFill.v
LazySystem.v
LazyInvariant.v
LazyRules.v
LazyTasks.v
LazyPrograms.v
LazySafety.v
LazyScenarios.v
