(* ===== verification/Prelude.v ===== *)
(** * Chevalier: packed file storage, the mount-local view and the control plane

    Chevalier runs sandboxed machines on a cluster of hosts and gives them a
    shared file tree. Three of its subsystems carry the state that must not be
    lost, and this library models them, with the devices a host hands to machines.

    The storage crate ([src/vfs/src]) keeps a file tree as immutable pack objects
    in an object store plus an SQL index that says which slot of which pack holds
    the current version of each file. Writers build a pack, upload it and commit
    the index rows in one transaction; readers find the slot through the index
    and fetch it, through two caches; maintenance merges small packs and removes
    those nothing refers to.

    The mount daemon ([src/sandbox/vmd/src/fuse/local_view]) lets a machine write
    to its mount without waiting for the remote tree. Every mutation is prepared
    and committed in a write-ahead log; a publisher takes the committed prefix of
    the log in batches, drops and folds content that later entries supersede,
    plans requests that may run in parallel, sends them and acknowledges. The content
    a mutation carries is captured into payload files first, and a mount starts
    with placeholders: files whose bytes are fetched when they are first opened, or in
    the background.

    The control plane ([src/sandbox/crates/sandbox/src/distributed.rs],
    [reconciliation.rs], [src/sandbox/vmd/src/control_bus.rs] and their helpers)
    places sessions on hosts. Clients publish commands on a durable bus; each
    host consumes the ones addressed to it, deduplicates them, and touches a
    session only while it holds the fence recorded for it in an etcd store;
    session routes move between hosts by compare-and-swap, status updates that
    cannot be published wait in an outbox, and a reconciler brings the routes and
    what the hosts report back together.

    ** Files, and the sources they model

    - [Prelude.v]: results and loops with early return, saturating and wrapping
      machine integers ([Z] with the truncation written out), strings as UTF-8
      bytes, ordered maps and sets, the tactics and hints of the library.
    - [VfsTypes.v] ([vfs/src/lib.rs]): storage errors, modes, preconditions.
    - [Pack.v] ([pack.rs]), [ContentHash.v] ([hash/src/lib.rs]), [PackCache.v]
      ([pack_cache.rs]), [Manifest.v] ([manifest.rs]): the pack format at the
      level of bytes, content hashes, the cache of whole packs, and building a
      pack with the rows that locate each file.
    - [PackIndex.v], [PostgresIndex.v], [Compaction.v], [PackStore.v]
      ([index.rs], [postgres_index.rs], [compaction.rs]): the two interfaces of
      pack maintenance as classes with laws; the SQL-backed index as an instance
      of the first and an object store as an instance of the second; coalescing
      and sweeping proved against the laws only.
    - [NamespaceIndex.v], [NamespaceWf.v] ([postgres_index.rs], [index.rs]): the four tables of the namespace, every
      transaction that changes them, the invariant they keep and what each may
      bring in.
    - [ObjectStorage.v], [ObjectReads.v], [ObjectBatchReads.v], [ObjectWrites.v],
      [ObjectCommit.v], [ObjectSystem.v] ([object_storage.rs], the ranged read of
      [object_store.rs]): the storage client over the index, the store and its
      caches, its requests, and a system of many clients.
    - [MountTypes.v], [WalTypes.v] ([types.rs], the path helpers of [wal.rs]):
      mutations, dependency keys, events, records and checkpoints.
    - [WalReplay.v], [Wal.v] ([wal.rs]): opening a log and running one, over a
      byte-level disk whose system calls may fail. [WalLayout.v],
      [WalRecovery.v], [WalInvariant.v], [WalSteps.v], [WalMaint.v],
      [WalOpen.v], [WalSystem.v]: the log as a history of records, its
      invariant, and the transition system with restarts. [WalCodec.v],
      [WalWitness.v]: a codec that satisfies the assumed laws, and concrete runs.
    - [SendOrder.v], [PublishBatch.v] ([next_publish_batch] of [wal.rs]),
      [PublishPlan.v], [PublishFold.v], [Publication.v] ([plan_runs] of
      [publisher.rs]): the changes a publisher may make to the order and the
      contents of the log, as a rewriting relation, with their effect on a tree;
      the batch, the two passes of the plan, and both together.
    - [PayloadStore.v] ([payload.rs], the capture and the sync rounds of [wal.rs]):
      segments and payload files over a directory, with what of it is on the
      device. [PayloadSystem.v], [PayloadOwners.v], [PayloadIntact.v],
      [PayloadReads.v], [PayloadDurable.v]: captures, syncs, reclamation, guest
      writes and restarts interleaved; who owns which range, what it holds, what
      survives. [PayloadScenarios.v]: concrete runs.
    - [LazyTable.v] ([lazy.rs]): the table of placeholders and its invariant.
      [LazyFill.v] ([hydrate.rs], the operations of [mount.rs]): downloads, fills on
      demand and in the background, and the mount operations that wait for them.
      [LazySystem.v]: the tree, the gateway, restarts. [LazyInvariant.v],
      [LazyRules.v], [LazyTasks.v], [LazyPrograms.v], [LazySafety.v]: what each
      task knows, that every step keeps it, that every program asks for no more.
      [LazyScenarios.v]: concrete runs.
    - [PathLocks.v] ([mount.rs]): the table of shared and exclusive path locks.
    - [Effects.v], [Etcd.v]: effectful code as trees of calls, its semantics over
      a handler and what a handler keeps; the calls to the key-value store, the
      server that answers them, and its laws.
    - [PartitionGate.v] ([partition_gate.rs]): when a host that lost its store
      must stop serving.
    - [ControlBus.v] ([control_bus.rs]): command records, keys, fences, the
      handling of one delivery. [BusSystem.v], [BusSettle.v], [BusExclusion.v],
      [BusLocal.v]: many hosts interleaved over one store, settlement of commands, exclusion between and within hosts,
      concrete runs. [DeadLetters.v]: dead letters and their replay.
      [ExecInput.v]: ordered input to a running command.
    - [SessionRoutes.v], [RouteFences.v], [RouteStore.v] ([distributed.rs]):
      session routes and their fences. [Outbox.v]: the durable outbox.
      [Reconcile.v], [ReconcileFix.v] ([reconciliation.rs]):
      one pass of the reconciler, its fixpoint and its hard cases.
      [Placement.v]: choosing a host. [Retry.v]: the retry loop of requests.
    - [GuestExec.v] ([portproxy/src]: [child_tracker.rs], [exec_control.rs]):
      exit statuses of children and signals to a running command, inside a machine.
    - [Pci.v], [PciHost.v], [PciBinding.v], [PciLinux.v] ([pci.rs]): the policy
      for devices handed to machines, inspection, binding and rollback of drivers
      over sysfs, and what a Linux host makes of it. [PciLeases.v],
      [PciMachines.v], [PciRules.v], [PciSafety.v] ([state/manager.rs]): leases of
      devices, and the machines that take and give them up.

    A definition is a function on the state its source mutates: tables are finite
    maps, a fallible call returns a [result], an error keeps the state the call
    had reached, and calls to the world read their outcome from an oracle, so
    every theorem quantifies over which of them fail and whether a failed call
    took effect.

    ** What is proved

    - Storage. Batch writes are all or nothing, go through every hard-link alias
      and leave other files alone; any number of clients stay sound under any
      requests and failures; reads and batch reads return the current content,
      also right after a write by another client; range coalescing and the
      small-file cache are exact and bounded ([ObjectSystem.v],
      [ObjectBatchReads.v], [ObjectReads.v]).
    - Packs. What is packed is read back, slots tile the object, corruption is
      detected, manifests locate their files, streaming and one-shot hashes agree,
      the pack cache implements a least-recently-used list ([Pack.v],
      [Manifest.v], [ContentHash.v], [PackCache.v]).
    - Maintenance. Whatever calls fail, every file reads the bytes it read before
      and reference counts become exact; the SQL index satisfies the interface
      this is proved against ([Compaction.v], [PostgresIndex.v]).
    - The log. Within the scope below, a restart or a power loss at any byte
      recovers exactly the complete records; the index is the unacknowledged part of
      the history ([WalSystem.v]).
    - Publication. A batch, its plan and both together send the committed events in
      the order of the log, up to dropping contents that a later event supersedes and
      swapping events that touch unrelated names; the batch stays within the limits of
      the caller and makes progress ([PublishBatch.v], [Publication.v]). On a tree
      without hard links each of those changes leaves the same tree ([SendOrder.v]);
      with a second name of a file the swaps are not neutral.
    - Locks. Conflicting holders exclude each other, overlapping lock sets do not
      deadlock, the table is exact ([PathLocks.v]).
    - Payloads. The payload of a record reads back as the bytes its hash is of,
      whatever interleaves and fails, unless it is empty and in a shared segment, and
      what a sync round reported survives losing power when it has a file of its own
      ([PayloadReads.v], [PayloadDurable.v]).
    - Placeholders. In a tree without symbolic links, and while the follower deletes
      nothing: a file a guest has open is never a placeholder; its content is what the
      gateway served for a name a fill opened it by, as guests changed it since; every
      placeholder with a name stays tracked under the entry of its inode, also by the
      mark a restart looks for ([LazySafety.v]).
    - Devices. No device is with two machines; preparing one binds all its functions
      or restores their drivers; a release restores them; both as long as modprobe and
      the operator's hooks take no driver from a bound function ([PciSafety.v],
      [PciBinding.v]).
    - Control plane. At most one host at a time works on a session it fenced, and
      one task per session within a host; a settled command is not run again; a
      fence is handed over once; no update in the outbox is lost and a replay
      drains it; a reconciliation pass reaches a fixpoint; placement picks the
      best eligible host; input reaches a command in order, signals at most once and
      its exit status reaches whoever waits for it; retries end, in the result or in the
      panic of an overflow
      ([BusExclusion.v], [BusLocal.v], [BusSettle.v], [RouteFences.v], [Outbox.v],
      [ReconcileFix.v], [Placement.v], [ExecInput.v], [GuestExec.v], [Retry.v]).
    - Divergences. Concrete runs that show where failure handling in the log,
      version preconditions and subtree listings do not do what they are meant to
      ([WalWitness.v], [ObjectSystem.v]); where redelivery, dead-letter replay
      and reconciliation do not ([BusLocal.v], [DeadLetters.v],
      [ReconcileFix.v]); where rollback of devices, segments of payloads and opens
      through symbolic links do not ([PciSafety.v], [PciLinux.v],
      [PayloadScenarios.v], [LazyScenarios.v]).

    ** Parameters

    Third-party code is an argument with named laws: zstd and SHA-256
    ([PackDeps]), the streaming digests ([HashCrates]), JSON records
    ([RecordCodec], [ControlJson], [RouteJson], [OutboxJson], [ReconcileJson],
    [NodeJson], [DeadLetterJson]), hashing of routing keys ([StdHash]), the
    key-value store ([EtcdServer] with [EtcdLaws]: a transaction is atomic, a
    revision grows), the host's driver interface
    ([PciSystem] with [PciSystemLaws]) and the operator's hooks ([HooksKeepDrivers]).
    Each has a concrete instance
    that satisfies its laws, on which the theorems are run. UUIDs are functions
    that never repeat ([environment]); the iteration order of hash maps is an
    arbitrary permutation.

    ** Bounds and fuel

    Loops without a structural argument take fuel that their states bound: the
    eviction of the pack cache one turn per entry, the publish batch one turn per
    log entry ([batch_fuel]), the schedule of a plan one turn per item, the
    creation fold one pass per event, the trimming of strings one turn per
    character, the retry loop one turn per allowed retry and one more. The
    theorems about these loops are about their results, so
    running out of fuel would falsify them. Writing a range takes one turn per byte
    and a pass of ranged reads one per byte of the file, since each call that does
    not end the loop moves at least one. The passes of the background fill and its
    descent take fuel that the theorems quantify over: a task that stops early only
    does less. The log theorems assume what
    [WalSystem.in_scope] states: lengths and counters fit 64 bits, the failures
    are ones the append path handles, rotation starts from a healthy generation,
    and compaction works from the checkpoint on disk; [WalWitness.v] shows that
    the last two are needed.

    ** Not modelled

    A storage request and an index transaction run one at a time: the advisory
    locks and rechecks that make them so are not written out. Directory listing
    with its filters, the local-directory backend, the HTTP gateway and the
    object-store clients are file-system, database and network I/O. Of the mount,
    the walk that creates the first tree, sealing and draining, the change feed, the
    FUSE protocol and the exchange with the gateway are not modelled; in the model of
    placeholders the log, the locks and the dirty markers are calls that succeed or
    fail, since they are components of their own. Of the virtual-machine manager
    only machines and the leases of their devices are modelled. Processes, networking,
    the client libraries, model providers and language bindings are outside the
    library.

    ** What is left

    Interleaving of maintenance with storage clients on one index, the publisher's
    conflict repair, one theorem that joins the log, its payloads and the sealing of
    content, and capacity samples of hosts. *)

From Stdlib Require Import ZArith Lia Ascii String Strings.Byte.
From stdpp Require Export base list_numbers gmap sets list strings fin_maps pretty sorting.

(** ** Fallible code

    Rust's [Result<T, E>]: every fallible function of the sources returns a
    [result], and [?] is the monadic bind. *)

Inductive result (E A : Type) : Type :=
| Ok (a : A)
| Err (e : E).
Arguments Ok {E A} a.
Arguments Err {E A} e.

Global Instance result_ret {E} : MRet (result E) := fun A a => Ok a.
Global Instance result_bind {E} : MBind (result E) :=
  fun A B f m => match m with Ok a => f a | Err e => Err e end.
Global Instance result_eq_dec {E A} `{EqDecision E, EqDecision A} :
  EqDecision (result E A).
Proof. solve_decision. Defined.

(** [ok_or]: Rust's [Option::ok_or]. *)
Definition ok_or {E A} (o : option A) (e : E) : result E A :=
  match o with Some a => Ok a | None => Err e end.

(** [guard_err b e]: the early return [if b { return Err(e) }]. *)
Definition guard_err {E} (b : bool) (e : E) : result E unit :=
  if b then Err e else Ok tt.

(** A loop [for x in xs { acc = f(acc, x)? }]. *)
Fixpoint foldM {E A B} (f : B -> A -> result E B) (acc : B) (xs : list A) : result E B :=
  match xs with
  | [] => Ok acc
  | x :: xs => match f acc x with Ok acc' => foldM f acc' xs | Err e => Err e end
  end.

(** A loop [for x in xs { out.push(f(x)?) }]. *)
Fixpoint mapM_result {E A B} (f : A -> result E B) (xs : list A) : result E (list B) :=
  match xs with
  | [] => Ok []
  | x :: xs =>
      match f x with
      | Ok y => match mapM_result f xs with Ok ys => Ok (y :: ys) | Err e => Err e end
      | Err e => Err e
      end
  end.

(** ** Machine integers

    [u64]/[usize] (64-bit hosts), [u32], [u16], [i64] and [i32] are kept in [Z]
    with their bounds; the saturating, checked and truncating operations of the
    sources are written out. *)

Definition U16_MAX : Z := 2 ^ 16 - 1.
Definition U32_MAX : Z := 2 ^ 32 - 1.
Definition U64_MAX : Z := 2 ^ 64 - 1.
Definition I32_MAX : Z := 2 ^ 31 - 1.
Definition I64_MAX : Z := 2 ^ 63 - 1.
Definition I64_MIN : Z := - 2 ^ 63.

Definition is_u64 (z : Z) : Prop := (0 <= z <= U64_MAX)%Z.
Global Instance is_u64_dec z : Decision (is_u64 z).
Proof. unfold is_u64. apply _. Defined.

Definition sat_add (a b : Z) : Z := Z.min U64_MAX (a + b).
Definition sat_sub (a b : Z) : Z := Z.max 0 (a - b).
Definition checked_add (a b : Z) : option Z :=
  if (a + b <=? U64_MAX)%Z then Some (a + b)%Z else None.

(** [as u32] and [as u64]: truncation and the two's complement reading. *)
Definition as_u32 (z : Z) : Z := (z mod 2 ^ 32)%Z.
Definition as_u64 (z : Z) : Z := (z mod 2 ^ 64)%Z.
Definition as_i64 (z : Z) : Z :=
  let m := (z mod 2 ^ 64)%Z in if (m <? 2 ^ 63)%Z then m else (m - 2 ^ 64)%Z.

(** [u8] buffers. *)
Abbreviation byte := Init.Byte.byte.
Abbreviation bytes := (list Init.Byte.byte).

Global Instance byte_eq_dec : EqDecision byte := Stdlib.Strings.Byte.byte_eq_dec.

Definition zlen {A} (l : list A) : Z := Z.of_nat (length l).

(** ** File contents

    Writing [data] at a position: past the end of the file it leaves a hole of
    zeros. [slice] is the content of a range. *)

Definition write_at (content : bytes) (pos : nat) (data : bytes) : bytes :=
  take pos content ++ replicate (pos - length content) Byte.x00 ++ data
  ++ drop (pos + length data) content.

Definition slice (pos len : nat) (content : bytes) : bytes := take len (drop pos content).

(** ** Strings

    A Rust [str] is its UTF-8 bytes: a [string] of 8-bit characters. The
    sources only cut strings at ASCII separators, so byte offsets are always
    character boundaries. *)

Definition str_len (s : string) : Z := Z.of_nat (String.length s).

Definition is_empty_str (s : string) : bool :=
  match s with EmptyString => true | _ => false end.

(** [s.split(c)]. *)
Fixpoint split_on (c : ascii) (s : string) : list string :=
  match s with
  | EmptyString => [EmptyString]
  | String a s' =>
      if Ascii.eqb a c then EmptyString :: split_on c s'
      else match split_on c s' with
           | [] => [String a EmptyString]
           | p :: ps => String a p :: ps
           end
  end.

(** [s.starts_with(p)]. *)
Fixpoint starts_with (p s : string) : bool :=
  match p, s with
  | EmptyString, _ => true
  | String a p', String b s' => Ascii.eqb a b && starts_with p' s'
  | String _ _, EmptyString => false
  end.

(** [&s[n..]] and [&s[..n]]. *)
Fixpoint str_drop (n : nat) (s : string) : string :=
  match n, s with
  | O, _ => s
  | S n', String _ s' => str_drop n' s'
  | S _, EmptyString => EmptyString
  end.

Fixpoint str_take (n : nat) (s : string) : string :=
  match n, s with
  | O, _ => EmptyString
  | S n', String a s' => String a (str_take n' s')
  | S _, EmptyString => EmptyString
  end.

(** [s.rsplit_once(c)]: the text before and after the last [c]. *)
Fixpoint rsplit_once (c : ascii) (s : string) : option (string * string) :=
  match s with
  | EmptyString => None
  | String a s' =>
      match rsplit_once c s' with
      | Some (l, r) => Some (String a l, r)
      | None => if Ascii.eqb a c then Some (EmptyString, s') else None
      end
  end.

(** [s.trim_start_matches(c)], [s.trim_end_matches(c)], [s.trim_matches(c)]. *)
Fixpoint trim_start (c : ascii) (s : string) : string :=
  match s with
  | String a s' => if Ascii.eqb a c then trim_start c s' else s
  | EmptyString => EmptyString
  end.

Fixpoint trim_end (c : ascii) (s : string) : string :=
  match s with
  | EmptyString => EmptyString
  | String a s' =>
      match trim_end c s' with
      | EmptyString => if Ascii.eqb a c then EmptyString else String a EmptyString
      | t => String a t
      end
  end.

Definition trim_matches (c : ascii) (s : string) : string := trim_end c (trim_start c s).

(** Byte-lexicographic order of [str] (Rust's [Ord for str]). *)
Fixpoint str_leb (s t : string) : bool :=
  match s, t with
  | EmptyString, _ => true
  | String _ _, EmptyString => false
  | String a s', String b t' =>
      if N.ltb (N_of_ascii a) (N_of_ascii b) then true
      else if N.eqb (N_of_ascii a) (N_of_ascii b) then str_leb s' t' else false
  end.

Definition str_le (s t : string) : Prop := str_leb s t = true.
Global Instance str_le_dec : RelDecision str_le.
Proof. intros s t. unfold str_le. apply _. Defined.

(** Iteration order of a [BTreeSet<String>] and of a [BTreeSet<u64>]. *)
Definition sorted_strings (s : gset string) : list string :=
  merge_sort str_le (elements s).
Definition sorted_Z (s : gset Z) : list Z := merge_sort Z.le (elements s).

(** [BTreeMap<u64, V>]: iteration is by increasing key; [split_off] keeps the
    keys from [retain] on. *)
Definition btree_keys {A} (m : gmap Z A) : list Z := sorted_Z (dom m).
Definition btree_values {A} (m : gmap Z A) : list A := omap (fun k => m !! k) (btree_keys m).
Definition map_split_off {A} (m : gmap Z A) (retain : Z) : gmap Z A :=
  filter (fun kv => (retain <= kv.1)%Z) m.
Definition set_split_off (s : gset Z) (retain : Z) : gset Z := filter (fun k => (retain <= k)%Z) s.

(** [first..=last]. *)
Definition range_inclusive (first last : Z) : list Z :=
  seqZ first (last - first + 1).

Arguments Ascii.eqb : simpl never.
Arguments N_of_ascii : simpl never.

(** ** Tactics *)

(** Split the innermost [match]/[if] of a hypothesis, keeping the equation. *)
Ltac break_in H :=
  match type of H with
  | context [match ?x with _ => _ end] =>
      lazymatch x with
      | context [match _ with _ => _ end] => fail
      | _ => let E := fresh "E" in destruct x eqn:E
      end
  end.
Ltac break_all H := repeat (break_in H; try discriminate H); simplify_eq.

Ltac break_goal :=
  match goal with
  | |- context [match ?x with _ => _ end] =>
      lazymatch x with
      | context [match _ with _ => _ end] => fail
      | _ => let E := fresh "E" in destruct x eqn:E
      end
  end.

(** Turn boolean tests on [Z] into propositions. *)
Ltac bools :=
  repeat match goal with
  | H : (_ <? _)%Z = true |- _ => apply Z.ltb_lt in H
  | H : (_ <? _)%Z = false |- _ => apply Z.ltb_ge in H
  | H : (_ <=? _)%Z = true |- _ => apply Z.leb_le in H
  | H : (_ <=? _)%Z = false |- _ => apply Z.leb_gt in H
  | H : (_ =? _)%Z = true |- _ => apply Z.eqb_eq in H
  | H : (_ =? _)%Z = false |- _ => apply Z.eqb_neq in H
  | H : (_ =? _)%string = true |- _ => apply String.eqb_eq in H
  | H : (_ =? _)%string = false |- _ => apply String.eqb_neq in H
  | H : (_ && _)%bool = true |- _ => apply andb_true_iff in H; destruct H
  | H : (_ || _)%bool = false |- _ => apply orb_false_iff in H; destruct H
  | H : negb _ = true |- _ => apply negb_true_iff in H
  | H : negb _ = false |- _ => apply negb_false_iff in H
  | H : bool_decide _ = true |- _ => apply bool_decide_eq_true in H
  | H : bool_decide _ = false |- _ => apply bool_decide_eq_false in H
  end.

Create HintDb chevalier.
Create Rewrite HintDb chevalier.

(** ** Lemmas on results *)

Lemma bind_Ok {E A B} (m : result E A) (f : A -> result E B) b :
  (m ≫= f) = Ok b <-> exists a, m = Ok a /\ f a = Ok b.
Proof. destruct m as [a|e]; cbn; split; naive_solver. Qed.

Lemma ok_or_Ok {E A} (o : option A) (e : E) a : ok_or o e = Ok a <-> o = Some a.
Proof. destruct o; cbn; naive_solver. Qed.

Lemma guard_err_Ok {E} b (e : E) u : guard_err b e = Ok u <-> b = false.
Proof. destruct b, u; cbn; naive_solver. Qed.

(** Invert a successful chain of binds into its steps. *)
Ltac inv_ok H :=
  repeat match type of H with
  | (_ ≫= _) = Ok _ =>
      let x := fresh "x" in let Hx := fresh "Hx" in
      apply bind_Ok in H; destruct H as [x [Hx H]];
      try (apply guard_err_Ok in Hx); try (apply ok_or_Ok in Hx)
  end.

Lemma foldM_app {E A B} (f : B -> A -> result E B) acc xs ys :
  foldM f acc (xs ++ ys) =
  match foldM f acc xs with Ok acc' => foldM f acc' ys | Err e => Err e end.
Proof. revert acc; induction xs as [|x xs IH]; intros acc; cbn; [done|]. destruct (f acc x); auto. Qed.

Lemma mapM_result_Ok {E A B} (f : A -> result E B) xs ys :
  mapM_result f xs = Ok ys <-> Forall2 (fun x y => f x = Ok y) xs ys.
Proof.
  revert ys; induction xs as [|x xs IH]; intros ys; cbn.
  - split; [intros [= <-]; constructor | by inversion 1].
  - split.
    + intros H. break_all H. constructor; [done|]. by apply IH.
    + inversion 1; subst. rewrite H2. apply IH in H4. by rewrite H4.
Qed.

Lemma mapM_result_lookup {E A B} (f : A -> result E B) xs ys i x :
  mapM_result f xs = Ok ys -> xs !! i = Some x -> exists y, ys !! i = Some y /\ f x = Ok y.
Proof. rewrite mapM_result_Ok. intros H Hx. eapply Forall2_lookup_l in H as (y & ? & ?); eauto. Qed.

Lemma elem_of_List_filter {A} (f : A -> bool) l x :
  x ∈ List.filter f l <-> x ∈ l /\ f x = true.
Proof. by rewrite !list_elem_of_In, List.filter_In. Qed.

(** ** Lemmas on machine integers *)

Lemma sat_add_exact a b : (a + b <= U64_MAX)%Z -> sat_add a b = (a + b)%Z.
Proof. unfold sat_add. lia. Qed.

Lemma sat_sub_exact a b : (b <= a)%Z -> sat_sub a b = (a - b)%Z.
Proof. unfold sat_sub. lia. Qed.

Lemma checked_add_exact a b : (a + b <= U64_MAX)%Z -> checked_add a b = Some (a + b)%Z.
Proof. unfold checked_add. intros. by destruct (Z.leb_spec (a + b) U64_MAX); [|lia]. Qed.

Lemma sat_add_bound a b : (sat_add a b <= U64_MAX)%Z.
Proof. unfold sat_add. lia. Qed.

Lemma as_u64_small z : is_u64 z -> as_u64 z = z.
Proof. unfold is_u64, as_u64, U64_MAX. intros. apply Z.mod_small. lia. Qed.

Lemma zlen_app {A} (l k : list A) : zlen (l ++ k) = (zlen l + zlen k)%Z.
Proof. unfold zlen. rewrite length_app. lia. Qed.

Lemma zlen_nonneg {A} (l : list A) : (0 <= zlen l)%Z.
Proof. unfold zlen. lia. Qed.

#[export] Hint Resolve zlen_nonneg sat_add_bound : chevalier.
#[export] Hint Rewrite @zlen_app : chevalier.

(** ** Lemmas on strings *)

Lemma str_leb_refl s : str_leb s s = true.
Proof. induction s as [|a s IH]; cbn; [done|]. by rewrite N.ltb_irrefl, N.eqb_refl. Qed.

Lemma str_leb_total s t : str_leb s t = true \/ str_leb t s = true.
Proof.
  revert t; induction s as [|a s IH]; intros [|b t]; cbn; auto.
  destruct (N.ltb_spec (N_of_ascii a) (N_of_ascii b)); [auto|].
  destruct (N.ltb_spec (N_of_ascii b) (N_of_ascii a)); [auto|].
  assert (N_of_ascii a = N_of_ascii b) as -> by lia.
  rewrite N.eqb_refl. apply IH.
Qed.

Lemma N_of_ascii_inj a b : N_of_ascii a = N_of_ascii b -> a = b.
Proof. intros H. by rewrite <- (ascii_N_embedding a), <- (ascii_N_embedding b), H. Qed.

Lemma str_leb_antisym s t : str_leb s t = true -> str_leb t s = true -> s = t.
Proof.
  revert t; induction s as [|a s IH]; intros [|b t]; cbn; try done.
  destruct (N.ltb_spec (N_of_ascii a) (N_of_ascii b)), (N.ltb_spec (N_of_ascii b) (N_of_ascii a));
    destruct (N.eqb_spec (N_of_ascii a) (N_of_ascii b)), (N.eqb_spec (N_of_ascii b) (N_of_ascii a));
    try lia; try done.
  intros ? ?. f_equal; [by apply N_of_ascii_inj | by apply IH].
Qed.

Lemma str_leb_trans s t u : str_leb s t = true -> str_leb t u = true -> str_leb s u = true.
Proof.
  revert t u; induction s as [|a s IH]; intros [|b t] [|c u]; cbn; try done.
  destruct (N.ltb_spec (N_of_ascii a) (N_of_ascii b)), (N.ltb_spec (N_of_ascii b) (N_of_ascii c)),
    (N.ltb_spec (N_of_ascii a) (N_of_ascii c));
    destruct (N.eqb_spec (N_of_ascii a) (N_of_ascii b)), (N.eqb_spec (N_of_ascii b) (N_of_ascii c)),
      (N.eqb_spec (N_of_ascii a) (N_of_ascii c)); try lia; try done.
  apply IH.
Qed.

Global Instance str_le_preorder : PreOrder str_le.
Proof. split; [intros s; apply str_leb_refl | intros s t u; apply str_leb_trans]. Qed.
Global Instance str_le_total : Total str_le.
Proof. intros s t. apply str_leb_total. Qed.
Global Instance str_le_antisym : AntiSymm (=) str_le.
Proof. intros s t. apply str_leb_antisym. Qed.

Lemma elem_of_sorted_strings (s : gset string) x : x ∈ sorted_strings s <-> x ∈ s.
Proof. unfold sorted_strings. by rewrite merge_sort_Permutation, elem_of_elements. Qed.

Lemma elem_of_sorted_Z (s : gset Z) x : x ∈ sorted_Z s <-> x ∈ s.
Proof. unfold sorted_Z. by rewrite merge_sort_Permutation, elem_of_elements. Qed.

Lemma starts_with_app p s : starts_with p (p +:+ s) = true.
Proof.
  induction p as [|a p IH]; [done|].
  change (starts_with (String a p) (String a (p +:+ s)) = true).
  simpl. by rewrite Ascii.eqb_refl.
Qed.

Lemma starts_with_spec p s : starts_with p s = true <-> exists t, s = p +:+ t.
Proof.
  split.
  - revert s; induction p as [|a p IH]; intros [|b s]; cbn; try done; eauto.
    intros H. apply andb_true_iff in H as [He H]. apply Ascii.eqb_eq in He as ->.
    destruct (IH _ H) as [t ->]. by exists t.
  - intros [t ->]. apply starts_with_app.
Qed.

Lemma str_app_cons a (s t : string) : String a s +:+ t = String a (s +:+ t).
Proof. reflexivity. Qed.

Lemma str_app_nil_r (s : string) : s +:+ EmptyString = s.
Proof. induction s as [|a s IH]; [done|]. by rewrite str_app_cons, IH. Qed.

Lemma str_length_app (s t : string) :
  String.length (s +:+ t) = String.length s + String.length t.
Proof. induction s as [|a s IH]; [done|]. rewrite str_app_cons. simpl. by rewrite IH. Qed.

Lemma str_drop_app (s t : string) : str_drop (String.length s) (s +:+ t) = t.
Proof. induction s as [|a s IH]; [done|]. by rewrite str_app_cons. Qed.

Lemma str_app_assoc (s t u : string) : (s +:+ t) +:+ u = s +:+ (t +:+ u).
Proof. induction s as [|a s IH]; [done|]. by rewrite !str_app_cons, IH. Qed.

Lemma str_app_inj_r (s t u : string) : s +:+ t = s +:+ u -> t = u.
Proof. induction s as [|a s IH]; [done|]. rewrite !str_app_cons. intros [= H]; auto. Qed.

(** ** Lemmas on file contents *)

Lemma write_at_end content data : write_at content (length content) data = content ++ data.
Proof.
  unfold write_at. rewrite firstn_all, Nat.sub_diag. cbn.
  rewrite drop_ge by lia. by rewrite app_nil_r.
Qed.

Lemma slice_lookup pos len content i :
  slice pos len content !! i = if decide (i < len) then content !! (pos + i) else None.
Proof.
  unfold slice. case_decide.
  - by rewrite lookup_take_lt, lookup_drop.
  - by rewrite lookup_take_ge by lia.
Qed.

Lemma length_slice pos len content : length (slice pos len content) = Nat.min len (length content - pos).
Proof. unfold slice. by rewrite length_take, length_drop. Qed.

Lemma write_at_lookup_out content pos data i :
  i < length content -> i < pos \/ pos + length data <= i -> write_at content pos data !! i = content !! i.
Proof.
  intros Hi Ho. unfold write_at. destruct (decide (i < pos)) as [Hlt|Hge].
  - rewrite lookup_app_l by (rewrite length_take; lia). by apply lookup_take_lt.
  - assert (pos - length content = 0) as -> by lia. cbn.
    rewrite lookup_app_r by (rewrite length_take; lia). rewrite lookup_app_r by (rewrite length_take; lia).
    rewrite lookup_drop, length_take. f_equal. lia.
Qed.

Lemma slice_write_at content pos data : slice pos (length data) (write_at content pos data) = data.
Proof.
  unfold slice, write_at. rewrite app_assoc. rewrite drop_app_length'.
  - by rewrite take_app_length.
  - rewrite length_app, length_take, length_replicate. lia.
Qed.

(** A write elsewhere keeps a range that was there. *)
Lemma slice_write_at_out content pos data o n :
  o + n <= length content -> o + n <= pos \/ pos + length data <= o ->
  slice o n (write_at content pos data) = slice o n content.
Proof.
  intros Hlen Ho. apply list_eq. intros i. rewrite !slice_lookup. case_decide; [|done].
  apply write_at_lookup_out; lia.
Qed.

Lemma length_write_at content pos data :
  length (write_at content pos data) = Nat.max (length content) (pos + length data).
Proof. unfold write_at. rewrite !length_app, length_take, length_replicate, length_drop. lia. Qed.

(** ** Lemmas on ordered maps and sets *)

Lemma lookup_map_split_off {A} (m : gmap Z A) r k :
  map_split_off m r !! k = if decide (r <= k)%Z then m !! k else None.
Proof.
  unfold map_split_off. case_decide.
  - destruct (m !! k) as [a|] eqn:E.
    + by apply map_lookup_filter_Some.
    + apply map_lookup_filter_None. auto.
  - apply map_lookup_filter_None. right. intros a _. cbn. lia.
Qed.

Lemma elem_of_set_split_off s r k : k ∈ set_split_off s r <-> (r <= k)%Z /\ k ∈ s.
Proof. unfold set_split_off. by rewrite elem_of_filter. Qed.

Lemma elem_of_btree_keys {A} (m : gmap Z A) k : k ∈ btree_keys m <-> is_Some (m !! k).
Proof. unfold btree_keys. by rewrite elem_of_sorted_Z, elem_of_dom. Qed.

Lemma elem_of_range_inclusive a b k : k ∈ range_inclusive a b <-> (a <= k <= b)%Z.
Proof. unfold range_inclusive. rewrite elem_of_seqZ. lia. Qed.

Lemma sorted_Z_sorted s : StronglySorted Z.le (sorted_Z s).
Proof. apply StronglySorted_merge_sort; apply _. Qed.

Lemma NoDup_sorted_Z s : NoDup (sorted_Z s).
Proof. unfold sorted_Z. rewrite merge_sort_Permutation. apply NoDup_elements. Qed.

(** The first value of a map is the one of its smallest key. *)
Lemma btree_values_head {A} (m : gmap Z A) :
  match btree_values m with
  | [] => m = ∅
  | a :: _ => exists k, m !! k = Some a /\ forall k', is_Some (m !! k') -> (k <= k')%Z
  end.
Proof.
  unfold btree_values. pose proof (sorted_Z_sorted (dom m)) as Hs.
  assert (forall k, k ∈ btree_keys m <-> is_Some (m !! k)) as Hin by apply elem_of_btree_keys.
  fold (btree_keys m) in Hs. destruct (btree_keys m) as [|k ks] eqn:E; cbn.
  - apply map_empty. intros k. destruct (m !! k) as [a|] eqn:Ek; [|done].
    exfalso. apply (not_elem_of_nil k), Hin. eauto.
  - destruct (proj1 (Hin k)) as [a Ha]; [set_solver|]. rewrite Ha. exists k. split; [done|].
    intros k' Hk'. apply Hin in Hk'. apply StronglySorted_cons in Hs as [Hs _].
    rewrite Forall_forall in Hs. apply elem_of_cons in Hk' as [->|Hk']; [lia|auto].
Qed.
