(* ===== verification/VfsTypes.v ===== *)
(** * Shared vocabulary of the VFS storage crate

    [vfs/src/lib.rs]: the storage error type, POSIX mode masking, the content
    compare-and-swap predicate with its rolling-upgrade normalisation, and the
    conflicts an append can meet. *)

From S2P Require Import Prelude.
From Stdlib Require Import ZArith Lia.

Inductive VfsStorageError :=
| NotFound (msg : string)
| BadRequest (msg : string)
| Forbidden (msg : string)
| Conflict (msg : string)
| Internal (msg : string).

Global Instance VfsStorageError_eq_dec : EqDecision VfsStorageError.
Proof. solve_decision. Defined.

Abbreviation VfsStorageResult := (result VfsStorageError).

(** ** Modes *)

Definition VFS_POSIX_MODE_MASK : Z := 0xFFF. (* 0o7777 *)

Definition normalize_vfs_mode (mode : Z) : Z := Z.land mode VFS_POSIX_MODE_MASK.

(** ** Entry kinds *)

Inductive VfsStorageEntryKind := KFile | KDirectory | KSymlink | KSpecial.

Global Instance VfsStorageEntryKind_eq_dec : EqDecision VfsStorageEntryKind.
Proof. solve_decision. Defined.

Definition VfsStorageEntryKind_as_str (k : VfsStorageEntryKind) : string :=
  match k with
  | KFile => "file" | KDirectory => "directory" | KSymlink => "symlink" | KSpecial => "special"
  end.

(** ** Compare-and-swap predicates *)

Inductive VfsStorageCasPredicate :=
| Absent
| ContentFingerprint (fingerprint : string).

Global Instance VfsStorageCasPredicate_eq_dec : EqDecision VfsStorageCasPredicate.
Proof. solve_decision. Defined.

Record VfsStorageWritePrecondition := MkPrecondition {
  predicate : option VfsStorageCasPredicate;
  fingerprint : option string;
  secondary_fingerprint : option string;
  expected_file_id : option string;
  expected_current_version : option string;
}.

Global Instance VfsStorageWritePrecondition_eq_dec : EqDecision VfsStorageWritePrecondition.
Proof. solve_decision. Defined.

Definition default_precondition : VfsStorageWritePrecondition :=
  {| predicate := None; fingerprint := None; secondary_fingerprint := None;
     expected_file_id := None; expected_current_version := None |}.

Definition precondition_absent : VfsStorageWritePrecondition :=
  {| predicate := Some Absent; fingerprint := None; secondary_fingerprint := None;
     expected_file_id := None; expected_current_version := None |}.

Definition precondition_content_fingerprint (fp : string) : VfsStorageWritePrecondition :=
  {| predicate := Some (ContentFingerprint fp); fingerprint := None;
     secondary_fingerprint := None; expected_file_id := None;
     expected_current_version := None |}.

(** [Option::or]. *)
Definition opt_or {A} (a b : option A) : option A :=
  match a with Some _ => a | None => b end.

Definition effective_predicate (p : VfsStorageWritePrecondition) : option VfsStorageCasPredicate :=
  opt_or
    (opt_or p.(predicate)
       (match opt_or p.(fingerprint) p.(secondary_fingerprint) with
        | Some fp => Some (if String.eqb fp "absent" then Absent else ContentFingerprint fp)
        | None => None
        end))
    (match p.(expected_file_id) with None => Some Absent | Some _ => None end).

(** ** Append conflicts *)

Definition APPEND_BASE_MISMATCH : string := "append base mismatch".
Definition APPEND_CONTENT_HASH_MISMATCH : string := "append content hash mismatch".

Definition append_base_mismatch (path : string) (stored_size offset : Z) : VfsStorageError :=
  Conflict (APPEND_BASE_MISMATCH +:+ " for " +:+ path +:+ ": stored size "
            +:+ pretty stored_size +:+ " does not equal append offset " +:+ pretty offset).

Definition append_content_hash_mismatch (path : string) : VfsStorageError :=
  Conflict (APPEND_CONTENT_HASH_MISMATCH +:+ " for " +:+ path).

Definition append_base_fingerprint (path : string) (p : VfsStorageWritePrecondition)
  : VfsStorageResult string :=
  match effective_predicate p with
  | Some (ContentFingerprint fp) => Ok fp
  | _ => Err (BadRequest ("append to " +:+ path
      +:+ " requires a content_fingerprint precondition naming the base content hash"))
  end.

(** ** Lemmas *)

Lemma normalize_vfs_mode_bound mode :
  (0 <= mode)%Z -> (0 <= normalize_vfs_mode mode <= VFS_POSIX_MODE_MASK)%Z.
Proof.
  intros H. unfold normalize_vfs_mode, VFS_POSIX_MODE_MASK.
  change 0xFFF%Z with (Z.ones 12). rewrite Z.land_ones by lia.
  pose proof (Z.mod_pos_bound mode (2 ^ 12)). change (Z.ones 12) with 4095%Z. lia.
Qed.

Lemma normalize_vfs_mode_idem mode :
  normalize_vfs_mode (normalize_vfs_mode mode) = normalize_vfs_mode mode.
Proof. unfold normalize_vfs_mode. by rewrite <- Z.land_assoc, Z.land_diag. Qed.
