(* ===== verification/Pack.v ===== *)
(** * The binary pack format

    [vfs/src/pack.rs]: many file bodies concatenated into one immutable object,
    each slot readable on its own through a byte range. [PackBuilder] writes a
    pack, [parse_header] and [extract_slot] read one. SHA-256 and zstd are
    third-party crates: they are the fields of [PackDeps], and what the format
    relies on is [PackDepsLaws]. *)

From S2P Require Import Prelude VfsTypes.
From Stdlib Require Import ZArith Lia.
From coqutil Require Import Word.LittleEndianList.

(** [&l[a..b]]. *)
Definition slice {A} (l : list A) (a b : Z) : list A :=
  take (Z.to_nat (b - a)) (drop (Z.to_nat a) l).

(** [u16/u32/u64::to_le_bytes] and [from_le_bytes]. *)
Definition to_le_bytes (width : nat) (z : Z) : bytes := le_split width z.
Definition from_le_bytes (l : bytes) : Z := le_combine l.

(** ** Dependencies *)

Class PackDeps := {
  sha256_of : bytes -> bytes;
  zstd_encode_all : Z -> bytes -> result string bytes;
  zstd_decode_all : bytes -> result string bytes;
}.

(** SHA-256 digests are 32 bytes; decompressing what zstd compressed gives the
    input back. *)
Class PackDepsLaws (D : PackDeps) : Prop := {
  sha256_length : forall b, length (sha256_of b) = 32;
  zstd_roundtrip : forall level b c, zstd_encode_all level b = Ok c -> zstd_decode_all c = Ok b;
}.

(** ** Constants *)

Definition MAGIC : bytes :=
  [Byte.x4e; Byte.x59; Byte.x4d; Byte.x50; Byte.x41; Byte.x43; Byte.x4b; Byte.x00].
Definition CURRENT_FORMAT_VERSION : Z := 1.
Definition SLOT_HEADER_LEN_PREFIX_BYTES : Z := 2.
Definition MIN_SLOT_HEADER_PAYLOAD_BYTES : Z := 32 + 8 + 8 + 1.
Definition MIN_SLOT_HEADER_TOTAL_BYTES : Z :=
  SLOT_HEADER_LEN_PREFIX_BYTES + MIN_SLOT_HEADER_PAYLOAD_BYTES.
Definition FILE_HEADER_BYTES : Z := 8 + 2 + 4.
Definition COMPRESSION_RAW : byte := Byte.x00.
Definition COMPRESSION_ZSTD : byte := Byte.x01.
Definition DEFAULT_ZSTD_LEVEL : Z := 3.

(** ** Slot compression *)

Inductive SlotCompression := Raw | Zstd.

Global Instance SlotCompression_eq_dec : EqDecision SlotCompression.
Proof. solve_decision. Defined.

Definition algo_byte (c : SlotCompression) : byte :=
  match c with Raw => COMPRESSION_RAW | Zstd => COMPRESSION_ZSTD end.

Definition byte_val (b : byte) : Z := Z.of_N (Stdlib.Strings.Byte.to_N b).

Definition from_algo_byte (b : byte) : VfsStorageResult SlotCompression :=
  if decide (b = COMPRESSION_RAW) then Ok Raw
  else if decide (b = COMPRESSION_ZSTD) then Ok Zstd
  else Err (Internal ("unknown pack slot compression algo byte: " +:+ pretty (byte_val b))).

Definition as_db_smallint (c : SlotCompression) : Z := byte_val (algo_byte c).

Definition from_db_smallint (value : Z) : VfsStorageResult SlotCompression :=
  if (value <? 0)%Z || (255 <? value)%Z
  then Err (Internal ("pack slot compression db value out of range: " +:+ pretty value))
  else match Stdlib.Strings.Byte.of_N (Z.to_N value) with
       | Some b => from_algo_byte b
       | None => Err (Internal "unreachable")
       end.

(** ** Building *)

Record BuiltSlot := MkBuiltSlot {
  logical_path : string;
  content_hash : bytes;
  pack_slot_offset : Z;
  pack_slot_length : Z;
  uncompressed_length : Z;
  compression : SlotCompression;
}.

Record BuiltPack := MkBuiltPack {
  pack_bytes : bytes;
  slots : list BuiltSlot;
}.

Definition total_bytes (p : BuiltPack) : Z := zlen p.(pack_bytes).
Definition slot_count (p : BuiltPack) : Z := as_u32 (zlen p.(slots)).

Record PackBuilder := MkPackBuilder {
  buffer : bytes;
  b_slots : list BuiltSlot;
  zstd_level : Z;
  slot_count_finalized : bool;
}.

Definition PackBuilder_new : PackBuilder :=
  {| buffer := MAGIC ++ to_le_bytes 2 CURRENT_FORMAT_VERSION ++ to_le_bytes 4 0;
     b_slots := []; zstd_level := DEFAULT_ZSTD_LEVEL; slot_count_finalized := false |}.

Definition with_zstd_level (b : PackBuilder) (level : Z) : PackBuilder :=
  {| buffer := b.(buffer); b_slots := b.(b_slots); zstd_level := level;
     slot_count_finalized := b.(slot_count_finalized) |}.

Definition PackBuilder_is_empty (b : PackBuilder) : bool :=
  match b.(b_slots) with [] => true | _ => false end.

Record PackHeader := MkPackHeader { format_version : Z; h_slot_count : Z }.

Record ExtractedSlot := MkExtractedSlot { x_content_hash : bytes; x_bytes : bytes }.

Global Instance ExtractedSlot_eq_dec : EqDecision ExtractedSlot.
Proof. solve_decision. Defined.

Section WithDeps.
Context {D : PackDeps}.

Definition PackBuilder_add (b : PackBuilder) (path : string) (body : bytes)
    (c : SlotCompression) : VfsStorageResult PackBuilder :=
  _ ← guard_err b.(slot_count_finalized) (Internal "PackBuilder::add called after finish()");
  let hash := sha256_of body in
  let ulen := zlen body in
  payload ← match c with
            | Raw => Ok body
            | Zstd => match zstd_encode_all b.(zstd_level) body with
                      | Ok p => Ok p
                      | Err e => Err (Internal ("zstd encode failed: " +:+ e))
                      end
            end;
  let clen := zlen payload in
  let slot_header_length := (SLOT_HEADER_LEN_PREFIX_BYTES + MIN_SLOT_HEADER_PAYLOAD_BYTES)%Z in
  _ ← guard_err (U16_MAX <? slot_header_length)%Z (Internal "pack slot header exceeds u16::MAX");
  let offset := zlen b.(buffer) in
  let slot_total_len := (slot_header_length + clen)%Z in
  Ok {| buffer := b.(buffer) ++ to_le_bytes 2 slot_header_length ++ hash
                  ++ to_le_bytes 8 ulen ++ to_le_bytes 8 clen ++ [algo_byte c] ++ payload;
        b_slots := b.(b_slots) ++
          [{| logical_path := path; content_hash := hash; pack_slot_offset := offset;
              pack_slot_length := slot_total_len; uncompressed_length := ulen;
              compression := c |}];
        zstd_level := b.(zstd_level);
        slot_count_finalized := b.(slot_count_finalized) |}.

Definition PackBuilder_finish (b : PackBuilder) : VfsStorageResult BuiltPack :=
  _ ← guard_err b.(slot_count_finalized) (Internal "PackBuilder::finish called twice");
  _ ← guard_err (PackBuilder_is_empty b) (Internal "PackBuilder::finish called with no slots");
  let count := as_u32 (zlen b.(b_slots)) in
  let off := (zlen MAGIC + 2)%Z in
  Ok {| pack_bytes := slice b.(buffer) 0 off ++ to_le_bytes 4 count
                      ++ drop (Z.to_nat (off + 4)) b.(buffer);
        slots := b.(b_slots) |}.

(** ** Reading *)

Definition parse_header (bs : bytes) : VfsStorageResult PackHeader :=
  _ ← guard_err (zlen bs <? FILE_HEADER_BYTES)%Z
       (Internal ("pack bytes too short for file header: " +:+ pretty (zlen bs)
                  +:+ " < " +:+ pretty FILE_HEADER_BYTES));
  _ ← guard_err (negb (bool_decide (slice bs 0 (zlen MAGIC) = MAGIC)))
       (Internal "pack magic mismatch; not a nymfs pack");
  let version := from_le_bytes (slice bs 8 10) in
  _ ← guard_err (version =? 0)%Z (Internal "pack format_version=0 is invalid");
  Ok {| format_version := version; h_slot_count := from_le_bytes (slice bs 10 14) |}.

Definition extract_slot (bs : bytes) (slot_offset slot_length : Z)
    : VfsStorageResult ExtractedSlot :=
  slot_end ← ok_or (checked_add slot_offset slot_length) (Internal "slot offset/length overflow");
  _ ← guard_err (zlen bs <? slot_end)%Z
       (Internal ("pack slice too short for slot: need " +:+ pretty slot_end
                  +:+ " bytes, have " +:+ pretty (zlen bs)));
  let slot := slice bs slot_offset slot_end in
  _ ← guard_err (zlen slot <? MIN_SLOT_HEADER_TOTAL_BYTES)%Z
       (Internal ("slot too small: " +:+ pretty (zlen slot) +:+ " < "
                  +:+ pretty MIN_SLOT_HEADER_TOTAL_BYTES));
  let slot_header_length := from_le_bytes (slice slot 0 2) in
  _ ← guard_err (slot_header_length <? MIN_SLOT_HEADER_TOTAL_BYTES)%Z
       (Internal ("slot_header_length " +:+ pretty slot_header_length +:+ " < min "
                  +:+ pretty MIN_SLOT_HEADER_TOTAL_BYTES));
  _ ← guard_err (zlen slot <? slot_header_length)%Z
       (Internal "slot bytes shorter than declared header");
  let cursor := SLOT_HEADER_LEN_PREFIX_BYTES in
  let hash := slice slot cursor (cursor + 32) in
  let cursor := (cursor + 32)%Z in
  let ulen := from_le_bytes (slice slot cursor (cursor + 8)) in
  let cursor := (cursor + 8)%Z in
  let clen := from_le_bytes (slice slot cursor (cursor + 8)) in
  let cursor := (cursor + 8)%Z in
  c ← from_algo_byte (nth (Z.to_nat cursor) slot Byte.x00);
  let body_start := slot_header_length in
  body_end ← ok_or (checked_add body_start clen) (Internal "slot body length overflow");
  _ ← guard_err (zlen slot <? body_end)%Z
       (Internal ("slot truncated: need " +:+ pretty body_end +:+ " bytes, have "
                  +:+ pretty (zlen slot)));
  let body := slice slot body_start body_end in
  decompressed ← match c with
                 | Raw => Ok body
                 | Zstd => match zstd_decode_all body with
                           | Ok d => Ok d
                           | Err e => Err (Internal ("zstd decode failed: " +:+ e))
                           end
                 end;
  _ ← guard_err (negb (zlen decompressed =? ulen)%Z)
       (Internal ("decompressed length mismatch: expected " +:+ pretty ulen +:+ ", got "
                  +:+ pretty (zlen decompressed)));
  _ ← guard_err (negb (bool_decide (sha256_of decompressed = hash)))
       (Internal "slot content_hash mismatch after decompression");
  Ok {| x_content_hash := hash; x_bytes := decompressed |}.

(** The build loop the callers run: [add] every input in order, then [finish]. *)
Definition build_pack (files : list (string * bytes * SlotCompression)) : VfsStorageResult BuiltPack :=
  b ← foldM (fun b '(p, body, c) => PackBuilder_add b p body c) PackBuilder_new files;
  PackBuilder_finish b.

End WithDeps.

(** ** Lemmas: slices and little-endian fields *)

Lemma slice_field {A} (l pre mid post : list A) a b :
  l = pre ++ mid ++ post -> zlen pre = a -> zlen mid = (b - a)%Z -> slice l a b = mid.
Proof.
  unfold slice, zlen. intros -> Ha Hb.
  replace (Z.to_nat a) with (length pre) by lia. rewrite drop_app_length.
  replace (Z.to_nat (b - a)) with (length mid) by lia. by rewrite take_app_length.
Qed.

Lemma zlen_slice {A} (l : list A) a b :
  (0 <= a <= b)%Z -> (b <= zlen l)%Z -> zlen (slice l a b) = (b - a)%Z.
Proof. unfold slice, zlen. intros. rewrite length_take, length_drop. lia. Qed.

Lemma slice_all {A} (l : list A) n : zlen l = n -> slice l 0 n = l.
Proof. unfold slice, zlen. intros <-. rewrite drop_0, take_ge; [done|lia]. Qed.

Lemma slice_slice_prefix {A} (l : list A) a n :
  (0 <= n)%Z -> slice (slice l a (a + n)) 0 (0 + n) = slice l a (a + n).
Proof. intros. unfold slice. rewrite drop_0, take_take. f_equal. lia. Qed.

Lemma zlen_to_le_bytes n z : zlen (to_le_bytes n z) = Z.of_nat n.
Proof. unfold zlen, to_le_bytes. by rewrite length_le_split. Qed.

Lemma from_to_le_bytes n z :
  (0 <= z < 2 ^ (Z.of_nat n * 8))%Z -> from_le_bytes (to_le_bytes n z) = z.
Proof. intros. unfold from_le_bytes, to_le_bytes. rewrite le_combine_split. by apply Z.mod_small. Qed.

#[export] Hint Rewrite zlen_to_le_bytes : chevalier.

Lemma from_algo_algo_byte c : from_algo_byte (algo_byte c) = Ok c.
Proof. by destruct c. Qed.

(** The bytes [PackBuilder_add] writes for one slot. *)
Definition slot_image (hash : bytes) (ulen clen : Z) (c : SlotCompression) (payload : bytes) : bytes :=
  to_le_bytes 2 MIN_SLOT_HEADER_TOTAL_BYTES ++ hash ++ to_le_bytes 8 ulen
  ++ to_le_bytes 8 clen ++ [algo_byte c] ++ payload.

Section SlotImage.
Context (hash : bytes) (ulen clen : Z) (c : SlotCompression) (payload : bytes).
Hypothesis Hhash : zlen hash = 32%Z.
Let img := slot_image hash ulen clen c payload.

(** Locate a field of the image: the bytes before it, the field, the rest. *)
Ltac locate pre mid post :=
  apply (slice_field _ pre mid post);
  [ subst img; unfold slot_image; rewrite ?app_nil_r, <- ?app_assoc; reflexivity
  | autorewrite with chevalier; rewrite ?Hhash; reflexivity
  | autorewrite with chevalier; rewrite ?Hhash; reflexivity || lia ].

Lemma zlen_slot_image : zlen img = (MIN_SLOT_HEADER_TOTAL_BYTES + zlen payload)%Z.
Proof.
  subst img. unfold slot_image. autorewrite with chevalier. rewrite Hhash.
  change (zlen [algo_byte c]) with 1%Z.
  unfold MIN_SLOT_HEADER_TOTAL_BYTES, SLOT_HEADER_LEN_PREFIX_BYTES,
    MIN_SLOT_HEADER_PAYLOAD_BYTES. lia.
Qed.

Lemma image_header_length : slice img 0 2 = to_le_bytes 2 MIN_SLOT_HEADER_TOTAL_BYTES.
Proof. by apply (slice_field _ [] _ (hash ++ to_le_bytes 8 ulen ++ to_le_bytes 8 clen ++ [algo_byte c] ++ payload)). Qed.

Lemma image_hash : slice img 2 34 = hash.
Proof.
  locate (to_le_bytes 2 MIN_SLOT_HEADER_TOTAL_BYTES) hash
    (to_le_bytes 8 ulen ++ to_le_bytes 8 clen ++ [algo_byte c] ++ payload).
Qed.

Lemma image_ulen : slice img 34 42 = to_le_bytes 8 ulen.
Proof.
  locate (to_le_bytes 2 MIN_SLOT_HEADER_TOTAL_BYTES ++ hash) (to_le_bytes 8 ulen)
    (to_le_bytes 8 clen ++ [algo_byte c] ++ payload).
Qed.

Lemma image_clen : slice img 42 50 = to_le_bytes 8 clen.
Proof.
  locate (to_le_bytes 2 MIN_SLOT_HEADER_TOTAL_BYTES ++ hash ++ to_le_bytes 8 ulen)
    (to_le_bytes 8 clen) ([algo_byte c] ++ payload).
Qed.

Lemma image_algo : nth (Z.to_nat 50) img Byte.x00 = algo_byte c.
Proof.
  subst img. unfold slot_image.
  rewrite (app_assoc (to_le_bytes 8 ulen)), (app_assoc hash), (app_assoc (to_le_bytes 2 _)).
  assert (length (to_le_bytes 2 MIN_SLOT_HEADER_TOTAL_BYTES ++ hash ++ to_le_bytes 8 ulen
    ++ to_le_bytes 8 clen) = 50)%nat as Hl.
  { unfold zlen in Hhash. unfold to_le_bytes. rewrite !length_app, !length_le_split. lia. }
  rewrite app_nth2 by (rewrite Hl; lia). rewrite Hl. reflexivity.
Qed.

Lemma image_payload : zlen payload = clen -> slice img 51 (51 + clen) = payload.
Proof.
  intros Hc.
  locate (to_le_bytes 2 MIN_SLOT_HEADER_TOTAL_BYTES ++ hash ++ to_le_bytes 8 ulen
    ++ to_le_bytes 8 clen ++ [algo_byte c]) payload (@nil byte).
Qed.

End SlotImage.

Section Lemmas.
Context {D : PackDeps}.

(** What a slot's payload decodes to. *)
Definition decodes (c : SlotCompression) (payload body : bytes) : Prop :=
  match c with Raw => payload = body | Zstd => zstd_decode_all payload = Ok body end.

Lemma extract_slot_as_range bs off len :
  (0 <= off)%Z -> (0 <= len)%Z -> (off + len <= U64_MAX)%Z -> (off + len <= zlen bs)%Z ->
  extract_slot bs off len = extract_slot (slice bs off (off + len)) 0 len.
Proof.
  intros Ho Hl Hu Hb. unfold extract_slot, checked_add.
  assert ((off + len <=? U64_MAX)%Z = true) as -> by lia.
  assert ((0 + len <=? U64_MAX)%Z = true) as -> by lia.
  cbn [ok_or mbind result_bind].
  rewrite slice_slice_prefix by lia. rewrite zlen_slice by lia.
  assert ((zlen bs <? off + len)%Z = false) as -> by lia.
  assert ((off + len - off <? 0 + len)%Z = false) as -> by lia.
  reflexivity.
Qed.

(** Discharge a guard of the reader whose test is false (or true) by [lia]. *)
Ltac pass_guard :=
  match goal with
  | |- (guard_err ?t _ ≫= _) = _ =>
      first [ change t with false | replace t with false by lia ]; cbn [guard_err mbind result_bind]
  | |- (ok_or (checked_add ?a ?b) _ ≫= _) = _ =>
      rewrite (checked_add_exact a b) by (unfold U64_MAX; lia);
      cbn [ok_or mbind result_bind]
  end.

Lemma extract_slot_image hash ulen clen c payload body :
  zlen hash = 32%Z -> zlen payload = clen -> zlen body = ulen -> decodes c payload body ->
  sha256_of body = hash -> (ulen <= U64_MAX)%Z ->
  (MIN_SLOT_HEADER_TOTAL_BYTES + clen <= U64_MAX)%Z ->
  extract_slot (slot_image hash ulen clen c payload) 0 (MIN_SLOT_HEADER_TOTAL_BYTES + clen)
  = Ok {| x_content_hash := hash; x_bytes := body |}.
Proof.
  intros Hh Hc Hu Hd Hs Hub Hcb.
  pose proof (zlen_nonneg payload). pose proof (zlen_nonneg body).
  change MIN_SLOT_HEADER_TOTAL_BYTES with 51%Z in *. unfold U64_MAX in *.
  unfold extract_slot.
  pose proof (zlen_slot_image hash ulen clen c payload Hh) as Himg.
  change MIN_SLOT_HEADER_TOTAL_BYTES with 51%Z in Himg. rewrite Hc in Himg.
  change MIN_SLOT_HEADER_TOTAL_BYTES with 51%Z.
  pass_guard. rewrite Z.add_0_l, slice_all, Himg by done. do 2 pass_guard.
  rewrite image_header_length. change (from_le_bytes (to_le_bytes 2 _)) with 51%Z.
  do 2 pass_guard. change SLOT_HEADER_LEN_PREFIX_BYTES with 2%Z.
  change (slice _ (2 + 32) _) with (slice (slot_image hash ulen clen c payload) 34 42).
  change (slice _ (2 + 32 + 8) _) with (slice (slot_image hash ulen clen c payload) 42 50).
  change (Z.to_nat (2 + 32 + 8 + 8)) with (Z.to_nat 50).
  rewrite image_hash, image_ulen, image_clen, image_algo, from_algo_algo_byte by done.
  rewrite (from_to_le_bytes 8 ulen), (from_to_le_bytes 8 clen) by (cbn; lia).
  cbn [mbind result_bind]. do 2 pass_guard. rewrite image_payload by done.
  replace (match c with Raw => Ok payload | Zstd => _ end) with (@Ok VfsStorageError _ body)
    by (destruct c; cbn in Hd; [by subst | by rewrite Hd]).
  cbn [mbind result_bind]. rewrite Hu, Z.eqb_refl, bool_decide_eq_true_2 by done.
  reflexivity.
Qed.

(** ** The layout a builder produces *)

(** [laid_out off files ss imgs]: from byte [off] on, [imgs] are the slots of
    [files] and [ss] describes them. *)
Fixpoint laid_out (off : Z) (files : list (string * bytes * SlotCompression))
    (ss : list BuiltSlot) (imgs : list bytes) : Prop :=
  match files, ss, imgs with
  | [], [], [] => True
  | (p, body, c) :: files, s :: ss, im :: imgs =>
      (exists payload, decodes c payload body /\
        im = slot_image (sha256_of body) (zlen body) (zlen payload) c payload /\
        s = {| logical_path := p; content_hash := sha256_of body; pack_slot_offset := off;
               pack_slot_length := zlen im; uncompressed_length := zlen body; compression := c |})
      /\ laid_out (off + zlen im) files ss imgs
  | _, _, _ => False
  end.

Definition pack_header (count : Z) : bytes :=
  MAGIC ++ to_le_bytes 2 CURRENT_FORMAT_VERSION ++ to_le_bytes 4 count.

Lemma zlen_pack_header count : zlen (pack_header count) = FILE_HEADER_BYTES.
Proof. reflexivity. Qed.

Context {L : PackDepsLaws D}.

Lemma zlen_sha256 b : zlen (sha256_of b) = 32%Z.
Proof. unfold zlen. by rewrite sha256_length. Qed.

Lemma add_shape b p body c b' :
  PackBuilder_add b p body c = Ok b' ->
  exists im s, laid_out (zlen (buffer b)) [(p, body, c)] [s] [im] /\
    buffer b' = buffer b ++ im /\ b_slots b' = b_slots b ++ [s] /\
    slot_count_finalized b' = slot_count_finalized b.
Proof.
  unfold PackBuilder_add. intros H. inv_ok H. simplify_eq/=.
  exists (slot_image (sha256_of body) (zlen body) (zlen x0) c x0). eexists.
  split_and!; [|done..]. exists x0. split_and!; [|done|].
  - destruct c; cbn; [by simplify_eq/=|].
    destruct (zstd_encode_all _ body) as [pl|] eqn:E; simplify_eq/=. by eapply zstd_roundtrip.
  - by rewrite zlen_slot_image by apply zlen_sha256.
Qed.

Lemma add_all_shape files b b' :
  foldM (fun b '(p, body, c) => PackBuilder_add b p body c) b files = Ok b' ->
  exists ss imgs, laid_out (zlen (buffer b)) files ss imgs /\
    buffer b' = buffer b ++ concat imgs /\ b_slots b' = b_slots b ++ ss /\
    slot_count_finalized b' = slot_count_finalized b.
Proof.
  revert b; induction files as [|[[p body] c] files IH]; intros b H; cbn in H.
  - simplify_eq/=. exists [], []. by rewrite !app_nil_r.
  - destruct (PackBuilder_add b p body c) as [b1|] eqn:E; [|done].
    destruct (add_shape _ _ _ _ _ E) as (im & s & [Hs _] & Hb & Hss & Hf).
    destruct (IH _ H) as (ss & imgs & Hl & Hb' & Hss' & Hf').
    exists (s :: ss), (im :: imgs). split_and!.
    + cbn. split; [done|]. by rewrite Hb, zlen_app in Hl.
    + by rewrite Hb', Hb, <- app_assoc.
    + by rewrite Hss', Hss, <- app_assoc.
    + congruence.
Qed.

Lemma laid_out_length off files ss imgs :
  laid_out off files ss imgs -> length ss = length files /\ length imgs = length files.
Proof.
  revert off ss imgs; induction files as [|[[p body] c] files IH]; intros off [|s ss] [|im imgs];
    cbn; try done. intros [_ H]. destruct (IH _ _ _ H). auto.
Qed.

(** A finished pack is the header followed by the slots. *)
Lemma build_pack_shape files pack :
  build_pack files = Ok pack ->
  exists imgs, laid_out FILE_HEADER_BYTES files (slots pack) imgs /\
    pack_bytes pack = pack_header (as_u32 (zlen files)) ++ concat imgs.
Proof.
  unfold build_pack. intros H. inv_ok H.
  destruct (add_all_shape _ _ _ Hx) as (ss & imgs & Hl & Hb & Hss & Hf).
  unfold PackBuilder_finish in H. inv_ok H. injection H as <-. cbn in Hss |- *.
  exists imgs. rewrite Hss. cbn. split; [done|].
  destruct (laid_out_length _ _ _ _ Hl) as [Hn _].
  assert (zlen ss = zlen files) as -> by (unfold zlen; by rewrite Hn).
  rewrite Hb. unfold pack_header. rewrite <- !app_assoc. reflexivity.
Qed.

Lemma laid_out_lookup off files ss imgs i p body c :
  laid_out off files ss imgs -> files !! i = Some (p, body, c) ->
  exists payload, decodes c payload body /\
    let im := slot_image (sha256_of body) (zlen body) (zlen payload) c payload in
    imgs !! i = Some im /\
    ss !! i = Some {| logical_path := p; content_hash := sha256_of body;
      pack_slot_offset := (off + zlen (concat (take i imgs)))%Z; pack_slot_length := zlen im;
      uncompressed_length := zlen body; compression := c |}.
Proof.
  revert off ss imgs i; induction files as [|[[p' body'] c'] files IH];
    intros off [|s ss] [|im imgs] [|i]; cbn; try done; intros [(pl & Hd & -> & ->) Hl].
  - intros [= -> -> ->]. exists pl. split_and!; [done..|]. by rewrite Z.add_0_r.
  - intros Hi. destruct (IH _ _ _ _ Hl Hi) as (pl' & Hd' & Him & Hs).
    exists pl'. split_and!; [done..|]. etrans; [exact Hs|]. rewrite zlen_app. do 2 f_equal. lia.
Qed.

Lemma concat_split {A} (ls : list (list A)) i l :
  ls !! i = Some l -> concat ls = concat (take i ls) ++ l ++ concat (drop (S i) ls).
Proof.
  intros H. rewrite <- (take_drop_middle _ _ _ H) at 1.
  by rewrite concat_app, concat_cons.
Qed.

Definition sum_lengths (ss : list BuiltSlot) : Z := foldr (fun s n => (pack_slot_length s + n)%Z) 0%Z ss.

Lemma laid_out_extent off files ss imgs :
  laid_out off files ss imgs -> zlen (concat imgs) = sum_lengths ss.
Proof.
  revert off ss imgs; induction files as [|[[p body] c] files IH]; intros off [|s ss] [|im imgs];
    cbn; try done. intros [(pl & _ & -> & ->) Hl]. rewrite zlen_app. cbn. by rewrite (IH _ _ _ Hl).
Qed.

Lemma laid_out_take off files ss imgs i :
  laid_out off files ss imgs -> laid_out off (take i files) (take i ss) (take i imgs).
Proof.
  revert off ss imgs i; induction files as [|[[p body] c] files IH]; intros off [|s ss] [|im imgs] [|i];
    cbn; try done. intros [? Hl]. split; [done|by apply IH].
Qed.

End Lemmas.

(** ** Properties *)

Section Properties.
Context {D : PackDeps} {L : PackDepsLaws D}.

(** Slot [i] of a finished pack. *)
Lemma build_pack_slot files pack i p body c :
  build_pack files = Ok pack ->
  (total_bytes pack <= U64_MAX)%Z ->
  files !! i = Some (p, body, c) ->
  (zlen body <= U64_MAX)%Z ->
  exists slot, slots pack !! i = Some slot /\ logical_path slot = p /\
    extract_slot (pack_bytes pack) (pack_slot_offset slot) (pack_slot_length slot)
    = Ok {| x_content_hash := sha256_of body; x_bytes := body |}.
Proof.
  intros Hb Htot Hi Hbody. unfold total_bytes in Htot.
  destruct (build_pack_shape _ _ Hb) as (imgs & Hl & Hbytes).
  destruct (laid_out_lookup _ _ _ _ _ _ _ _ Hl Hi) as (pl & Hd & Him & Hs).
  eexists. split_and!; [exact Hs|done|]. cbn.
  rewrite Hbytes in *. rewrite (concat_split _ _ _ Him) in *.
  set (im := slot_image _ _ _ _ _) in *. set (pre := concat (take i imgs)) in *.
  rewrite !zlen_app, zlen_pack_header in Htot.
  pose proof (zlen_nonneg pre). pose proof (zlen_nonneg im).
  pose proof (zlen_nonneg (concat (drop (S i) imgs))).
  assert (zlen im = (MIN_SLOT_HEADER_TOTAL_BYTES + zlen pl)%Z) as Him'
    by (apply zlen_slot_image, zlen_sha256).
  change FILE_HEADER_BYTES with 14%Z in *.
  rewrite extract_slot_as_range by (rewrite ?zlen_app, ?zlen_pack_header; change FILE_HEADER_BYTES with 14%Z; lia).
  rewrite app_assoc.
  rewrite (slice_field _ (pack_header (as_u32 (zlen files)) ++ pre) im (concat (drop (S i) imgs)));
    [|done|by rewrite zlen_app|lia].
  rewrite Him'. apply extract_slot_image; auto using zlen_sha256. unfold MIN_SLOT_HEADER_TOTAL_BYTES in *. lia.
Qed.

(** C34: every file added to a pack is read back from its recorded coordinates:
    for any sequence of inputs the builder accepts, extracting slot [i] of the
    finished pack at its recorded offset and length returns exactly the bytes
    of input [i] and their SHA-256. *)
Theorem pack_build_extract files pack i p body c :
  build_pack files = Ok pack ->
  (total_bytes pack <= U64_MAX)%Z ->
  files !! i = Some (p, body, c) ->
  (zlen body <= U64_MAX)%Z ->
  exists slot, slots pack !! i = Some slot /\ logical_path slot = p /\
    extract_slot (pack_bytes pack) (pack_slot_offset slot) (pack_slot_length slot)
    = Ok {| x_content_hash := sha256_of body; x_bytes := body |}.
Proof. apply build_pack_slot. Qed.

(** The slots tile the pack after the 14-byte file header: slot [i] starts
    where slot [i-1] ends, the last one ends the object, there is one slot per
    input, and the header parses back to format version 1 and the slot count. *)
Theorem pack_slots_tile files pack :
  build_pack files = Ok pack ->
  (zlen files <= U32_MAX)%Z ->
  total_bytes pack = (FILE_HEADER_BYTES + sum_lengths (slots pack))%Z /\
  (forall i slot, slots pack !! i = Some slot ->
     pack_slot_offset slot = (FILE_HEADER_BYTES + sum_lengths (take i (slots pack)))%Z) /\
  parse_header (pack_bytes pack)
  = Ok {| format_version := CURRENT_FORMAT_VERSION; h_slot_count := zlen files |} /\
  zlen (slots pack) = zlen files.
Proof.
  intros Hb Hc. destruct (build_pack_shape _ _ Hb) as (imgs & Hl & Hbytes).
  destruct (laid_out_length _ _ _ _ Hl) as [Hn Hn']. split_and!.
  - unfold total_bytes. by rewrite Hbytes, zlen_app, (laid_out_extent _ _ _ _ Hl).
  - intros i slot Hi. destruct (lookup_lt_is_Some_2 files i) as [[[p body] c] Hf].
    { rewrite <- Hn. by eapply lookup_lt_Some. }
    destruct (laid_out_lookup _ _ _ _ _ _ _ _ Hl Hf) as (pl & _ & _ & Hs).
    rewrite Hs in Hi. simplify_eq/=. f_equal.
    eapply laid_out_extent. by apply laid_out_take.
  - rewrite Hbytes. unfold parse_header. rewrite zlen_app, zlen_pack_header.
    pose proof (zlen_nonneg (concat imgs)). change FILE_HEADER_BYTES with 14%Z.
    replace (14 + zlen (concat imgs) <? 14)%Z with false by lia. cbn [guard_err mbind result_bind].
    change (slice _ 0 (zlen MAGIC)) with MAGIC. rewrite bool_decide_eq_true_2 by done.
    cbn [negb guard_err mbind result_bind].
    change (slice _ 8 10) with (to_le_bytes 2 CURRENT_FORMAT_VERSION).
    change (slice _ 10 14) with (to_le_bytes 4 (as_u32 (zlen files))).
    rewrite !from_to_le_bytes; [|unfold as_u32; apply Z.mod_pos_bound; lia|done].
    unfold as_u32. rewrite Z.mod_small; [done|]. unfold U32_MAX in Hc.
    pose proof (zlen_nonneg files). lia.
  - unfold zlen. by rewrite Hn.
Qed.

(** No corrupted slot is ever returned: whatever the bytes, a successful
    extraction returns bytes whose SHA-256 is the hash stored in the slot
    header, so bytes that differ from the stored file are only returned on a
    SHA-256 collision; and a range that overflows, exceeds the fetched bytes or
    is shorter than a slot header is always an error. *)
Theorem extract_slot_integrity bs off len :
  (forall x, extract_slot bs off len = Ok x ->
     sha256_of (x_bytes x) = x_content_hash x /\
     x_content_hash x = slice (slice bs off (off + len)) 2 34 /\
     (off + len <= zlen bs)%Z /\ (off + len <= U64_MAX)%Z) /\
  (forall original x, extract_slot bs off len = Ok x -> x_content_hash x = sha256_of original ->
     x_bytes x <> original -> sha256_of (x_bytes x) = sha256_of original) /\
  ((U64_MAX < off + len \/ zlen bs < off + len \/ (0 <= off /\ 0 <= len < MIN_SLOT_HEADER_TOTAL_BYTES))%Z ->
     exists msg, extract_slot bs off len = Err (Internal msg)).
Proof.
  assert (forall x, extract_slot bs off len = Ok x ->
     sha256_of (x_bytes x) = x_content_hash x /\
     x_content_hash x = slice (slice bs off (off + len)) 2 34 /\
     (off + len <= zlen bs)%Z /\ (off + len <= U64_MAX)%Z) as Hok.
  { intros x H. unfold extract_slot in H. inv_ok H. injection H as <-. cbn.
    unfold checked_add in Hx. destruct (off + len <=? U64_MAX)%Z eqn:E; [|done].
    injection Hx as <-. bools. auto with lia. }
  split_and!; [done| |].
  - intros original x H Heq _. destruct (Hok _ H) as [-> _]. done.
  - intros Hbad. unfold extract_slot, checked_add.
    destruct (Z.leb_spec (off + len) U64_MAX); cbn [ok_or mbind result_bind]; [|eauto].
    destruct (Z.ltb_spec (zlen bs) (off + len)); cbn [guard_err mbind result_bind]; [eauto|].
    rewrite zlen_slice by lia.
    destruct (Z.ltb_spec (off + len - off) MIN_SLOT_HEADER_TOTAL_BYTES);
      cbn [guard_err mbind result_bind]; [eauto|lia].
Qed.

(** The database encoding of the compression byte is exact: a stored
    smallint decodes to a compression if and only if it is that compression's
    own encoding; every other value, negative and out of byte range included,
    is an error. *)
Theorem from_db_smallint_iff value c :
  from_db_smallint value = Ok c <-> value = as_db_smallint c.
Proof.
  unfold from_db_smallint. split.
  - destruct ((value <? 0)%Z || (255 <? value)%Z) eqn:E; [done|]. bools.
    destruct (Stdlib.Strings.Byte.of_N (Z.to_N value)) as [b|] eqn:Eb; [|done].
    apply Stdlib.Strings.Byte.to_of_N in Eb. unfold from_algo_byte.
    repeat case_decide; intros; simplify_eq; cbn in Eb; unfold as_db_smallint, byte_val; cbn; lia.
  - intros ->. by destruct c.
Qed.

End Properties.

(** ** Witnesses *)

(** A digest and a codec that satisfy the laws: the first 32 bytes of the
    zero-padded input, and reversal. *)
Definition toy_deps : PackDeps := {|
  sha256_of b := take 32 (b ++ replicate 32 Byte.x00);
  zstd_encode_all _ b := Ok (reverse b);
  zstd_decode_all b := Ok (reverse b);
|}.

Lemma toy_deps_laws : PackDepsLaws toy_deps.
Proof.
  split.
  - intros b. change (length (take 32 (b ++ replicate 32 Byte.x00)) = 32).
    rewrite length_take, length_app, length_replicate. lia.
  - intros level b c [= <-]. cbn. by rewrite reverse_involutive.
Qed.

Definition toy_files : list (string * bytes * SlotCompression) :=
  [("soul/soul.md", [Byte.x61; Byte.x62], Zstd); ("mind/now.md", [], Raw);
   ("note.md", [Byte.x63; Byte.x64; Byte.x65], Raw)].

Definition toy_pack : BuiltPack :=
  match @build_pack toy_deps toy_files with Ok p => p | Err _ => MkBuiltPack [] [] end.

Lemma pack_build_extract_witness :
  @build_pack toy_deps toy_files = Ok toy_pack /\
  exists slot, slots toy_pack !! 2 = Some slot /\ logical_path slot = "note.md" /\
    @extract_slot toy_deps (pack_bytes toy_pack) (pack_slot_offset slot) (pack_slot_length slot)
    = Ok {| x_content_hash := @sha256_of toy_deps [Byte.x63; Byte.x64; Byte.x65];
            x_bytes := [Byte.x63; Byte.x64; Byte.x65] |}.
Proof.
  split; [vm_compute; reflexivity|].
  apply (@pack_build_extract toy_deps toy_deps_laws toy_files toy_pack 2 "note.md" _ Raw);
    [vm_compute; reflexivity | vm_compute; discriminate | reflexivity | vm_compute; discriminate].
Defined.

Lemma pack_slots_tile_witness :
  total_bytes toy_pack = (FILE_HEADER_BYTES + sum_lengths (slots toy_pack))%Z /\
  zlen (slots toy_pack) = 3%Z.
Proof.
  destruct (@pack_slots_tile toy_deps toy_deps_laws toy_files toy_pack) as (H1 & _ & _ & H4);
    [vm_compute; reflexivity | vm_compute; discriminate | split; [exact H1 | exact H4]].
Defined.
