(* ===== verification/ContentHash.v ===== *)
(** * Content hashes

    [hash/src/lib.rs]: the digest algorithm a process hashes with, resolved once
    from the environment, the one-shot hash, the streaming hasher and the
    hexadecimal text of a digest. The digests themselves are the crates [sha2]
    and [blake3]: parameters, with the laws a streaming digest documents. *)

From S2P Require Import Prelude.
From Stdlib Require Import ZArith Lia Ascii.

(** ** Dependencies: incremental digests *)

Record Digest := MkDigest {
  d_state : Type;
  d_new : d_state;
  d_update : d_state -> bytes -> d_state;
  d_finalize : d_state -> bytes;
  d_oneshot : bytes -> bytes;
}.

Class HashCrates := { sha2 : Digest; blake3 : Digest }.

(** A digest is 32 bytes, absorbing two chunks gives the digest of absorbing
    their concatenation, and the one-shot form is one update of a new state. *)
Record DigestLaws (d : Digest) : Prop := {
  d_length : forall s, length (d_finalize d s) = 32;
  d_chunks : forall s a b,
    d_finalize d (d_update d (d_update d s a) b) = d_finalize d (d_update d s (a ++ b));
  d_empty : forall s, d_finalize d (d_update d s []) = d_finalize d s;
  d_once : forall b, d_oneshot d b = d_finalize d (d_update d (d_new d) b);
}.

Class HashLaws (H : HashCrates) : Prop := {
  sha2_laws : DigestLaws sha2;
  blake3_laws : DigestLaws blake3;
}.

(** ** [str::trim] and [to_ascii_lowercase]

    The UTF-8 encodings of the characters with the [White_Space] property. *)

Definition chr (n : N) : ascii := ascii_of_N n.
Definition utf8 (l : list N) : string := foldr (fun n s => String (chr n) s) EmptyString l.

Definition white_space : list string :=
  (utf8 ∘ (fun n => [n]) <$> [0x09; 0x0a; 0x0b; 0x0c; 0x0d; 0x20]%N)
  ++ (utf8 <$> [[0xc2; 0x85]; [0xc2; 0xa0]; [0xe1; 0x9a; 0x80]]%N)
  ++ ((fun n => utf8 [0xe2; 0x80; n]%N) <$>
        [0x80; 0x81; 0x82; 0x83; 0x84; 0x85; 0x86; 0x87; 0x88; 0x89; 0x8a; 0xa8; 0xa9; 0xaf]%N)
  ++ (utf8 <$> [[0xe2; 0x81; 0x9f]; [0xe3; 0x80; 0x80]]%N).

Fixpoint strip_first (ps : list string) (s : string) : option string :=
  match ps with
  | [] => None
  | p :: ps => if starts_with p s then Some (str_drop (String.length p) s) else strip_first ps s
  end.

Fixpoint trim_start_loop (fuel : nat) (ps : list string) (s : string) : string :=
  match fuel with
  | O => s
  | S fuel => match strip_first ps s with Some s' => trim_start_loop fuel ps s' | None => s end
  end.

Fixpoint str_rev (s : string) (acc : string) : string :=
  match s with EmptyString => acc | String a s => str_rev s (String a acc) end.

(** Trimming the end is trimming the start of the reversed bytes. *)
Definition trim (s : string) : string :=
  let s1 := trim_start_loop (String.length s) white_space s in
  let s2 := trim_start_loop (String.length s1) ((fun p => str_rev p EmptyString) <$> white_space)
              (str_rev s1 EmptyString) in
  str_rev s2 EmptyString.

Definition to_ascii_lower (a : ascii) : ascii :=
  let n := N_of_ascii a in if (65 <=? n)%N && (n <=? 90)%N then chr (n + 32) else a.

Fixpoint to_ascii_lowercase (s : string) : string :=
  match s with EmptyString => EmptyString | String a s => String (to_ascii_lower a) (to_ascii_lowercase s) end.

(** ** The algorithm *)

Inductive VfsHashAlgorithm := Sha256 | Blake3.

Global Instance VfsHashAlgorithm_eq_dec : EqDecision VfsHashAlgorithm.
Proof. solve_decision. Defined.

Definition algorithm_as_str (a : VfsHashAlgorithm) : string :=
  match a with Sha256 => "sha256" | Blake3 => "blake3" end.

Definition default_algorithm : VfsHashAlgorithm := Sha256.

(** The error carries the text its message quotes. *)
Definition algorithm_from_str (raw : string) : result string VfsHashAlgorithm :=
  let t := to_ascii_lowercase (trim raw) in
  if String.eqb t "sha256" || String.eqb t "sha-256" then Ok Sha256
  else if String.eqb t "blake3" then Ok Blake3
  else Err t.

(** [static ALGORITHM: OnceLock<..>]: empty, or set for the life of the process.
    A call reads the environment only when the cell is empty. *)
Abbreviation AlgorithmCell := (option VfsHashAlgorithm).

Definition resolve_algorithm (env : option string) : VfsHashAlgorithm :=
  match env with
  | Some raw =>
      if is_empty_str (trim raw) then default_algorithm
      else match algorithm_from_str raw with Ok a => a | Err _ => default_algorithm end
  | None => default_algorithm
  end.

Definition algorithm (cell : AlgorithmCell) (env : option string) : VfsHashAlgorithm * AlgorithmCell :=
  match cell with
  | Some a => (a, cell)
  | None => let a := resolve_algorithm env in (a, Some a)
  end.

Definition set_algorithm (cell : AlgorithmCell) (a : VfsHashAlgorithm) : bool * AlgorithmCell :=
  match cell with Some _ => (false, cell) | None => (true, Some a) end.

(** ** Hexadecimal text *)

Definition hex_digit (n : N) : ascii := if (n <? 10)%N then chr (48 + n) else chr (87 + n).

Fixpoint hex_encode (b : bytes) : string :=
  match b with
  | [] => EmptyString
  | x :: b =>
      let n := Stdlib.Strings.Byte.to_N x in
      String (hex_digit (N.shiftr n 4)) (String (hex_digit (N.land n 15)) (hex_encode b))
  end.

Section hashing.
Context {H : HashCrates}.

Definition hash_bytes (cell : AlgorithmCell) (env : option string) (b : bytes) : string * AlgorithmCell :=
  let '(a, cell) := algorithm cell env in
  (match a with
   | Sha256 => hex_encode (d_oneshot sha2 b)
   | Blake3 => hex_encode (d_oneshot blake3 b)
   end, cell).

(** ** The streaming hasher *)

Inductive ContentHasher :=
| HSha256 (s : d_state sha2)
| HBlake3 (s : d_state blake3).

Definition ContentHasher_new (cell : AlgorithmCell) (env : option string) : ContentHasher * AlgorithmCell :=
  let '(a, cell) := algorithm cell env in
  (match a with Sha256 => HSha256 (d_new sha2) | Blake3 => HBlake3 (d_new blake3) end, cell).

Definition hasher_update (h : ContentHasher) (chunk : bytes) : ContentHasher :=
  match h with
  | HSha256 s => HSha256 (d_update sha2 s chunk)
  | HBlake3 s => HBlake3 (d_update blake3 s chunk)
  end.

Definition hasher_finalize (h : ContentHasher) : string :=
  match h with
  | HSha256 s => hex_encode (d_finalize sha2 s)
  | HBlake3 s => hex_encode (d_finalize blake3 s)
  end.

(** ** What a process may do to the cell between two hashes *)

Inductive HashOp :=
| OpAlgorithm (env : option string)
| OpSetAlgorithm (a : VfsHashAlgorithm)
| OpHashBytes (env : option string) (b : bytes)
| OpNewHasher (env : option string).

Definition hash_op (cell : AlgorithmCell) (op : HashOp) : AlgorithmCell :=
  match op with
  | OpAlgorithm env => (algorithm cell env).2
  | OpSetAlgorithm a => (set_algorithm cell a).2
  | OpHashBytes env b => (hash_bytes cell env b).2
  | OpNewHasher env => (ContentHasher_new cell env).2
  end.

(** ** Lemmas *)

(** The bytes a digest is of, under an algorithm. *)
Definition digest_of (a : VfsHashAlgorithm) (b : bytes) : bytes :=
  match a with Sha256 => d_oneshot sha2 b | Blake3 => d_oneshot blake3 b end.

Lemma hash_bytes_fst cell env b :
  (hash_bytes cell env b).1 = hex_encode (digest_of (algorithm cell env).1 b).
Proof. unfold hash_bytes. by destruct cell as [[]|]; [..|destruct (algorithm _ _) as [[] ?]]. Qed.

Lemma hash_op_set a op : hash_op (Some a) op = Some a.
Proof. by destruct op. Qed.

Lemma hash_ops_set a ops : foldl hash_op (Some a) ops = Some a.
Proof. induction ops as [|op ops IH]; [done|]. cbn [foldl]. by rewrite hash_op_set. Qed.

Lemma algorithm_sets cell env : (algorithm cell env).2 = Some (algorithm cell env).1.
Proof. by destruct cell. Qed.

Lemma hex_digit_inj m n : (m < 16)%N -> (n < 16)%N -> hex_digit m = hex_digit n -> m = n.
Proof.
  intros Hm Hn. unfold hex_digit, chr.
  destruct (N.ltb_spec m 10), (N.ltb_spec n 10); intros E; apply (f_equal N_of_ascii) in E;
    rewrite !N_ascii_embedding in E by lia; lia.
Qed.

Lemma to_N_inj x y : Stdlib.Strings.Byte.to_N x = Stdlib.Strings.Byte.to_N y -> x = y.
Proof.
  intros E. apply (f_equal Stdlib.Strings.Byte.of_N) in E.
  rewrite !Stdlib.Strings.Byte.of_to_N in E. congruence.
Qed.

(** A byte is its two nibbles. *)
Lemma nibbles_inj m n :
  N.shiftr m 4 = N.shiftr n 4 -> N.land m 15 = N.land n 15 -> m = n.
Proof.
  change 15%N with (N.ones 4). rewrite !N.land_ones, !N.shiftr_div_pow2. intros Hd Hm.
  rewrite (N.div_mod m (2 ^ 4)), (N.div_mod n (2 ^ 4)) by lia. by rewrite Hd, Hm.
Qed.

Lemma nibble_bounds x : (N.shiftr (Stdlib.Strings.Byte.to_N x) 4 < 16)%N
  /\ (N.land (Stdlib.Strings.Byte.to_N x) 15 < 16)%N.
Proof. by destruct x. Qed.

Lemma hex_encode_inj b c : hex_encode b = hex_encode c -> b = c.
Proof.
  revert c; induction b as [|x b IH]; intros [|y c]; cbn; try done.
  intros [= Hh Hl E]. destruct (nibble_bounds x), (nibble_bounds y).
  f_equal; [|by apply IH]. by apply to_N_inj, nibbles_inj; apply hex_digit_inj.
Qed.

Lemma hex_encode_length b : String.length (hex_encode b) = 2 * length b.
Proof. induction b as [|x b IH]; [done|]. cbn. rewrite IH. lia. Qed.

Lemma d_update_chunks d chunks s :
  DigestLaws d ->
  d_finalize d (foldl (d_update d) s chunks) = d_finalize d (d_update d s (concat chunks)).
Proof.
  intros L. revert s; induction chunks as [|c chunks IH]; intros s; cbn; [by rewrite d_empty|].
  by rewrite IH, d_chunks.
Qed.

Lemma hasher_update_sha256 s chunks :
  foldl hasher_update (HSha256 s) chunks = HSha256 (foldl (d_update sha2) s chunks).
Proof. revert s; induction chunks as [|c chunks IH]; intros s; cbn; auto. Qed.

Lemma hasher_update_blake3 s chunks :
  foldl hasher_update (HBlake3 s) chunks = HBlake3 (foldl (d_update blake3) s chunks).
Proof. revert s; induction chunks as [|c chunks IH]; intros s; cbn; auto. Qed.

Context {L : HashLaws H}.

Lemma digest_of_length a b : length (digest_of a b) = 32.
Proof.
  destruct a; cbn; [rewrite (d_once _ sha2_laws)|rewrite (d_once _ blake3_laws)]; apply d_length;
    [apply sha2_laws | apply blake3_laws].
Qed.

Lemma hasher_chunks (a : VfsHashAlgorithm) chunks :
  hasher_finalize (foldl hasher_update
    (match a with Sha256 => HSha256 (d_new sha2) | Blake3 => HBlake3 (d_new blake3) end) chunks)
  = hex_encode (digest_of a (concat chunks)).
Proof.
  destruct a; [rewrite hasher_update_sha256 | rewrite hasher_update_blake3]; cbn;
    rewrite d_update_chunks by (apply sha2_laws || apply blake3_laws);
    by rewrite d_once by (apply sha2_laws || apply blake3_laws).
Qed.

(** ** Properties *)

(** Hashing a stream agrees with hashing the whole content: a hasher made at
    any point of a process, fed the content in any division into chunks, gives
    the text [hash_bytes] gives for the whole content at any later point,
    whatever the process has done in between and whatever the environment has
    become, [set_algorithm] included. *)
Theorem streaming_matches_one_shot cell env ops env' chunks :
  let made := ContentHasher_new cell env in
  hasher_finalize (foldl hasher_update made.1 chunks)
  = (hash_bytes (foldl hash_op made.2 ops) env' (concat chunks)).1.
Proof.
  cbn zeta. rewrite hash_bytes_fst. unfold ContentHasher_new.
  destruct (algorithm cell env) as [a cell'] eqn:E. cbn.
  pose proof (algorithm_sets cell env) as Hs. rewrite E in Hs. cbn in Hs. subst cell'.
  by rewrite hash_ops_set, hasher_chunks.
Qed.

(** A content hash is 64 characters and loses nothing of the digest: in one
    process, two contents have the same hash text exactly when they have the
    same digest under the algorithm the process resolved. *)
Theorem hash_text_faithful cell env env' b c :
  let first := hash_bytes cell env b in
  String.length first.1 = 64 /\
  (first.1 = (hash_bytes first.2 env' c).1 <->
   digest_of (algorithm cell env).1 b = digest_of (algorithm cell env).1 c).
Proof.
  cbn zeta. rewrite !hash_bytes_fst, hex_encode_length, digest_of_length. split; [done|].
  assert ((algorithm (hash_bytes cell env b).2 env').1 = (algorithm cell env).1) as ->.
  { unfold hash_bytes. destruct (algorithm cell env) as [a cell'] eqn:E. cbn.
    pose proof (algorithm_sets cell env) as Hs. rewrite E in Hs. cbn in Hs. by subst cell'. }
  split; [apply hex_encode_inj | by intros ->].
Qed.
End hashing.

(** ** Examples *)

Example algorithm_spellings :
  algorithm_from_str " BLAKE3 " = Ok Blake3 /\ algorithm_from_str "sha-256" = Ok Sha256
  /\ algorithm_from_str "md5" = Err "md5" /\ resolve_algorithm (Some "   ") = Sha256.
Proof. by vm_compute. Qed.

Example hex_of_bytes : hex_encode [Byte.xe3; Byte.xb0; Byte.x0f] = "e3b00f".
Proof. by vm_compute. Qed.

(** ** Witnesses *)

(** A digest with the laws: the state is what was absorbed, the digest its first
    32 bytes padded with a constant. *)
Definition toy_digest (pad : byte) : Digest := {|
  d_state := bytes; d_new := []; d_update s b := s ++ b;
  d_finalize s := take 32 (s ++ replicate 32 pad);
  d_oneshot b := take 32 (b ++ replicate 32 pad);
|}.

Lemma toy_digest_laws pad : DigestLaws (toy_digest pad).
Proof.
  split; cbn -[take replicate]; [|intros; by rewrite app_assoc|intros; by rewrite app_nil_r|done].
  intros s. rewrite length_take, length_app, length_replicate. lia.
Qed.

Definition toy_hashes : HashCrates := {| sha2 := toy_digest Byte.x00; blake3 := toy_digest Byte.xff |}.

Lemma toy_hashes_laws : HashLaws toy_hashes.
Proof. split; apply toy_digest_laws. Qed.

Lemma streaming_matches_one_shot_witness :
  @hasher_finalize toy_hashes
    (foldl hasher_update (@ContentHasher_new toy_hashes None (Some "blake3")).1
       [[Byte.x61]; []; [Byte.x62; Byte.x63]])
  = (@hash_bytes toy_hashes
      (foldl (@hash_op toy_hashes) (Some Blake3) [OpSetAlgorithm Sha256; OpAlgorithm None]) None
      [Byte.x61; Byte.x62; Byte.x63]).1.
Proof.
  exact (@streaming_matches_one_shot toy_hashes toy_hashes_laws None (Some "blake3")
    [OpSetAlgorithm Sha256; OpAlgorithm None] None [[Byte.x61]; []; [Byte.x62; Byte.x63]]).
Defined.

Lemma hash_text_faithful_witness :
  String.length (@hash_bytes toy_hashes None None [Byte.x61]).1 = 64.
Proof. exact (proj1 (@hash_text_faithful toy_hashes toy_hashes_laws None None None [Byte.x61] [])). Defined.
