(* ===== verification/PackCache.v ===== *)
(** * The pack cache

    [PackCache] of [vfs/src/pack_cache.rs]: a cache of immutable pack objects
    bounded by their total size, evicting the entry with the oldest touch stamp.
    It implements the reference cache [lru], which is a list of entries from the
    most to the least recently used. *)

From S2P Require Import Prelude.
From Stdlib Require Import ZArith Lia.

Record Entry := MkCacheEntry {
  entry_bytes : bytes;
  last_touched : Z;
  entry_size : Z;
}.

Record PackCache := MkCache {
  entries : gmap string Entry;
  cache_sequence : Z;
  cache_total_bytes : Z;
  max_total_bytes : Z;
}.

Definition PackCache_new (max : Z) : PackCache := MkCache ∅ 0 0 max.

Definition touch (stamp : Z) (e : Entry) : Entry := MkCacheEntry (entry_bytes e) stamp (entry_size e).

Definition cache_get (key : string) (c : PackCache) : option bytes * PackCache :=
  let seq := sat_add (cache_sequence c) 1 in
  match entries c !! key with
  | None => (None, MkCache (entries c) seq (cache_total_bytes c) (max_total_bytes c))
  | Some e =>
      (Some (entry_bytes e),
       MkCache (<[key := touch seq e]> (entries c)) seq (cache_total_bytes c) (max_total_bytes c))
  end.

(** [min_by_key] on the touch stamp: the first entry with the least one. *)
Fixpoint min_by_touch (l : list (string * Entry)) : option (string * Entry) :=
  match l with
  | [] => None
  | x :: l =>
      match min_by_touch l with
      | Some y => if (last_touched y.2 <? last_touched x.2)%Z then Some y else Some x
      | None => Some x
      end
  end.

(** The eviction loop; each turn removes an entry, so their number bounds it. *)
Fixpoint evict_loop (fuel : nat) (c : PackCache) : PackCache :=
  match fuel with
  | O => c
  | S fuel =>
      if (max_total_bytes c <? cache_total_bytes c)%Z && (1 <? size (entries c))%nat
      then
        match min_by_touch (map_to_list (entries c)) with
        | None => c
        | Some (key, victim) =>
            evict_loop fuel
              (MkCache (delete key (entries c)) (cache_sequence c)
                 (sat_sub (cache_total_bytes c) (entry_size victim)) (max_total_bytes c))
        end
      else c
  end.

Definition evict_if_needed (c : PackCache) : PackCache := evict_loop (size (entries c)) c.

Definition cache_remove (key : string) (c : PackCache) : PackCache :=
  match entries c !! key with
  | Some e =>
      MkCache (delete key (entries c)) (cache_sequence c)
        (sat_sub (cache_total_bytes c) (entry_size e)) (max_total_bytes c)
  | None => c
  end.

Definition cache_put (key : string) (b : bytes) (c : PackCache) : PackCache :=
  let size := zlen b in
  let seq := sat_add (cache_sequence c) 1 in
  let c := cache_remove key (MkCache (entries c) seq (cache_total_bytes c) (max_total_bytes c)) in
  evict_if_needed
    (MkCache (<[key := MkCacheEntry b seq size]> (entries c)) seq
       (sat_add (cache_total_bytes c) size) (max_total_bytes c)).

Definition cache_len (c : PackCache) : nat := size (entries c).

(** ** The reference cache *)

Abbreviation Lru := (list (string * bytes)).

Definition lru_lookup (key : string) (l : Lru) : option bytes :=
  snd <$> List.find (fun x => String.eqb x.1 key) l.
Definition lru_remove (key : string) (l : Lru) : Lru :=
  List.filter (fun x => negb (String.eqb x.1 key)) l.
Definition lru_get (key : string) (l : Lru) : option bytes * Lru :=
  match lru_lookup key l with
  | Some b => (Some b, (key, b) :: lru_remove key l)
  | None => (None, l)
  end.
Fixpoint lru_bytes (l : Lru) : Z :=
  match l with [] => 0%Z | x :: l => (zlen x.2 + lru_bytes l)%Z end.

(** Drop the least recently used while too large and more than one. *)
Fixpoint lru_trim (fuel : nat) (max : Z) (l : Lru) : Lru :=
  match fuel with
  | O => l
  | S fuel =>
      if (max <? lru_bytes l)%Z && (1 <? length l)%nat then lru_trim fuel max (removelast l) else l
  end.
Definition lru_put (max : Z) (key : string) (b : bytes) (l : Lru) : Lru :=
  let l := (key, b) :: lru_remove key l in lru_trim (length l) max l.

(** ** The correspondence *)

Definition by_recency (x y : string * Entry) : Prop := (last_touched y.2 < last_touched x.2)%Z.
Definition plain (x : string * Entry) : string * bytes := (x.1, entry_bytes x.2).

(** [es] lists the entries of [c] from the most recently used. *)
Record lists (c : PackCache) (es : list (string * Entry)) : Prop := {
  ls_entries : es ≡ₚ map_to_list (entries c);
  ls_order : StronglySorted by_recency es;
  ls_stamps : Forall (fun x => last_touched x.2 <= cache_sequence c)%Z es;
  ls_sizes : Forall (fun x => entry_size x.2 = zlen (entry_bytes x.2)) es;
  ls_total : cache_total_bytes c = lru_bytes (plain <$> es);
}.

Lemma lists_NoDup c es : lists c es -> NoDup (es.*1).
Proof. intros L. rewrite (ls_entries _ _ L). apply NoDup_fst_map_to_list. Qed.

Lemma lists_size c es : lists c es -> size (entries c) = length es.
Proof. intros L. rewrite (ls_entries _ _ L). by rewrite length_map_to_list. Qed.

Lemma lists_lookup c es k e : lists c es -> entries c !! k = Some e <-> (k, e) ∈ es.
Proof. intros L. rewrite (ls_entries _ _ L). by rewrite elem_of_map_to_list. Qed.

Lemma lru_bytes_app l k : lru_bytes (l ++ k) = (lru_bytes l + lru_bytes k)%Z.
Proof. induction l as [|x l IH]; cbn; [done|]. lia. Qed.

Lemma lru_bytes_nonneg l : (0 <= lru_bytes l)%Z.
Proof. induction l as [|x l IH]; cbn; [done|]. pose proof (zlen_nonneg x.2). lia. Qed.

Lemma lru_remove_app k l r : lru_remove k (l ++ r) = lru_remove k l ++ lru_remove k r.
Proof. apply List.filter_app. Qed.

Lemma lru_remove_id k es : k ∉ es.*1 -> lru_remove k (plain <$> es) = plain <$> es.
Proof.
  induction es as [|x es IH]; intros Hn; [done|]. rewrite fmap_cons in Hn. rewrite fmap_cons. cbn.
  apply not_elem_of_cons in Hn as [Hne Hn]. destruct (String.eqb_spec x.1 k); [congruence|]. cbn. f_equal. by apply IH.
Qed.

(** The split of the list at a cached key. *)
Lemma lists_split c es k e :
  lists c es -> entries c !! k = Some e ->
  exists before after, es = before ++ (k, e) :: after /\ k ∉ (before ++ after).*1
    /\ lru_remove k (plain <$> es) = plain <$> (before ++ after)
    /\ lru_lookup k (plain <$> es) = Some (entry_bytes e)
    /\ before ++ after ≡ₚ map_to_list (delete k (entries c)).
Proof.
  intros L Hk. pose proof (lists_NoDup _ _ L) as Hnd. pose proof (ls_entries _ _ L) as Hp.
  apply (lists_lookup _ _ _ _ L), list_elem_of_split in Hk as (before & after & ->). exists before, after.
  rewrite fmap_app, fmap_cons in Hnd. apply NoDup_app in Hnd as (Hb & Hx & Ha). apply NoDup_cons in Ha as [Hka Ha].
  assert (k ∉ before.*1) as Hkb by (intros H; apply (Hx _ H); set_solver).
  split_and!; [done| | | |].
  - rewrite fmap_app. set_solver.
  - rewrite !fmap_app, fmap_cons, lru_remove_app. cbn. rewrite String.eqb_refl. cbn.
    fold (lru_remove k (plain <$> after)). by rewrite !lru_remove_id.
  - unfold lru_lookup. rewrite fmap_app, fmap_cons. clear -Hkb. induction before as [|x b IH]; cbn.
    + by rewrite String.eqb_refl.
    + rewrite fmap_cons in Hkb. apply not_elem_of_cons in Hkb as [Hne Hkb].
      destruct (String.eqb_spec x.1 k); [congruence|]. by apply IH.
  - apply (Permutation_cons_inv (a := (k, e))). rewrite Permutation_middle, Hp. symmetry.
    apply map_to_list_delete. apply elem_of_map_to_list. rewrite <- Hp. set_solver.
Qed.

Lemma lists_absent c es k :
  lists c es -> entries c !! k = None ->
  k ∉ es.*1 /\ lru_lookup k (plain <$> es) = None /\ lru_remove k (plain <$> es) = plain <$> es.
Proof.
  intros L Hk. assert (k ∉ es.*1) as Hn.
  { intros H. apply list_elem_of_fmap in H as ([k' e] & -> & Hin). apply (lists_lookup _ _ _ _ L) in Hin.
    cbn in Hk. congruence. }
  split_and!; [done| |by apply lru_remove_id].
  unfold lru_lookup. clear -Hn. induction es as [|x es IH]; [done|]. rewrite fmap_cons in Hn. rewrite fmap_cons. cbn.
  apply not_elem_of_cons in Hn as [Hne Hn]. destruct (String.eqb_spec x.1 k); [congruence|]. by apply IH.
Qed.

(** ** Operations *)

Lemma sorted_remove {A} (R : A -> A -> Prop) l x k :
  StronglySorted R (l ++ x :: k) -> StronglySorted R (l ++ k).
Proof.
  induction l as [|y l IH]; cbn; intros Hs; apply StronglySorted_inv in Hs as [Hs Hy]; [done|].
  constructor; [by apply IH|]. apply Forall_app in Hy as [? Hy]. apply Forall_cons in Hy as [_ ?].
  by apply Forall_app.
Qed.

(** Dropping the entry of a key. *)
Lemma lists_drop c es k e before after :
  lists c es -> es = before ++ (k, e) :: after -> entries c !! k = Some e ->
  before ++ after ≡ₚ map_to_list (delete k (entries c)) ->
  StronglySorted by_recency (before ++ after)
  /\ Forall (fun x => last_touched x.2 <= cache_sequence c)%Z (before ++ after)
  /\ Forall (fun x => entry_size x.2 = zlen (entry_bytes x.2)) (before ++ after)
  /\ sat_sub (cache_total_bytes c) (entry_size e) = lru_bytes (plain <$> (before ++ after)).
Proof.
  intros L -> Hk Hp. destruct L as [_ Lo Ls Lz Lt]. apply Forall_app in Ls as [? [? ?]%Forall_cons].
  apply Forall_app in Lz as [? [Hz ?]%Forall_cons]. cbn in Hz. split_and!.
  - by eapply sorted_remove.
  - by apply Forall_app.
  - by apply Forall_app.
  - rewrite Lt, Hz, !fmap_app, fmap_cons, !lru_bytes_app. cbn.
    pose proof (lru_bytes_nonneg (plain <$> before)). pose proof (lru_bytes_nonneg (plain <$> after)).
    rewrite sat_sub_exact by lia. lia.
Qed.

(** A new or touched entry is the most recent one. *)
Lemma lists_front m seq total max k e es :
  es ≡ₚ map_to_list (delete k m) -> StronglySorted by_recency es ->
  Forall (fun x => last_touched x.2 <= seq - 1)%Z es -> Forall (fun x => entry_size x.2 = zlen (entry_bytes x.2)) es ->
  last_touched e = seq -> entry_size e = zlen (entry_bytes e) ->
  total = (zlen (entry_bytes e) + lru_bytes (plain <$> es))%Z ->
  lists (MkCache (<[k := e]> m) seq total max) ((k, e) :: es).
Proof.
  intros Hp Ho Hs Hz Ht He Htot. constructor; cbn [entries cache_sequence cache_total_bytes].
  - rewrite <- insert_delete_eq, map_to_list_insert, Hp by apply lookup_delete_eq. done.
  - constructor; [done|]. eapply Forall_impl; [exact Hs|]. intros x Hx. cbn beta in Hx. unfold by_recency. cbn. lia.
  - constructor; [cbn; lia|]. eapply Forall_impl; [exact Hs|]. intros x Hx. cbn in Hx |- *. lia.
  - by constructor.
  - done.
Qed.

Lemma cache_get_refines c es k :
  lists c es -> (cache_sequence c + 1 <= U64_MAX)%Z ->
  exists es', lists (snd (cache_get k c)) es'
    /\ lru_get k (plain <$> es) = (fst (cache_get k c), plain <$> es').
Proof.
  intros L Hseq. unfold cache_get, lru_get. rewrite sat_add_exact by done.
  destruct (entries c !! k) as [e|] eqn:Hk; cbn.
  - destruct (lists_split _ _ _ _ L Hk) as (before & after & He & Hn & Hr & Hl & Hp). rewrite Hl, Hr.
    destruct (lists_drop _ _ _ _ _ _ L He Hk Hp) as (D1 & D2 & D3 & D4).
    exists ((k, touch (cache_sequence c + 1) e) :: before ++ after). split; [|by rewrite fmap_cons].
    assert (entry_size e = zlen (entry_bytes e)) as Hz.
    { pose proof (ls_sizes _ _ L) as H. rewrite He in H. by apply Forall_app in H as [_ [H _]%Forall_cons]. }
    apply lists_front; try done.
    + eapply Forall_impl; [exact D2|]. intros x Hx. cbn in Hx |- *. lia.
    + pose proof (ls_total _ _ L) as Ht. rewrite Ht, He, !fmap_app, fmap_cons, !lru_bytes_app. cbn.
      lia.
  - destruct (lists_absent _ _ _ L Hk) as (_ & Hl & _). rewrite Hl. exists es. split; [|done].
    destruct L as [L1 L2 L3 L4 L5]. constructor; try done. eapply Forall_impl; [exact L3|]. intros x Hx. cbn in Hx |- *. lia.
Qed.

Lemma cache_remove_refines c es k :
  lists c es -> exists es', lists (cache_remove k c) es' /\ lru_remove k (plain <$> es) = plain <$> es'
    /\ k ∉ es'.*1 /\ es' ≡ₚ map_to_list (delete k (entries c)).
Proof.
  intros L. unfold cache_remove. destruct (entries c !! k) as [e|] eqn:Hk.
  - destruct (lists_split _ _ _ _ L Hk) as (before & after & He & Hn & Hr & Hl & Hp).
    destruct (lists_drop _ _ _ _ _ _ L He Hk Hp) as (D1 & D2 & D3 & D4).
    exists (before ++ after). split_and!; try done.
  - destruct (lists_absent _ _ _ L Hk) as (Hn & _ & Hr). exists es. split_and!; try done.
    rewrite delete_id by done. apply L.
Qed.

(** ** Eviction *)

Lemma min_by_touch_spec l :
  l <> [] -> exists x, min_by_touch l = Some x /\ x ∈ l
    /\ Forall (fun y => last_touched x.2 <= last_touched y.2)%Z l.
Proof.
  induction l as [|x l IH]; [done|]. intros _. cbn. destruct l as [|y l].
  - exists x. cbn. split_and!; [done|set_solver|]. repeat constructor. lia.
  - destruct IH as (z & -> & Hz & Hm); [done|]. destruct (Z.ltb_spec (last_touched z.2) (last_touched x.2)).
    + exists z. split_and!; [done|set_solver|]. constructor; [lia|done].
    + exists x. split_and!; [done|set_solver|]. constructor; [lia|]. eapply Forall_impl; [exact Hm|]. intros v Hv. cbn in Hv |- *. lia.
Qed.

(** The victim is the last of the list. *)
Lemma victim_last c es x :
  lists c (es ++ [x]) -> min_by_touch (map_to_list (entries c)) = Some x.
Proof.
  intros L. pose proof (ls_entries _ _ L) as Hp.
  destruct (min_by_touch_spec (map_to_list (entries c))) as (y & -> & Hy & Hm).
  { intros E. rewrite E in Hp. apply Permutation_nil_r in Hp. by destruct es. }
  rewrite <- Hp in Hy, Hm. f_equal. apply elem_of_app in Hy as [Hy|Hy]; [|by apply list_elem_of_singleton in Hy].
  exfalso. apply list_elem_of_split in Hy as (a & b & ->). pose proof (ls_order _ _ L) as Ho. rewrite <- app_assoc in Ho.
  assert (by_recency y x) as Hyx.
  { clear -Ho. induction a as [|z a IH]; cbn in Ho; apply StronglySorted_inv in Ho as [Ho Hf]; [|by apply IH].
    apply Forall_app in Hf as [_ Hf]. by apply Forall_cons in Hf as [? _]. }
  unfold by_recency in Hyx. rewrite !Forall_app, !Forall_cons in Hm. destruct Hm as [_ [Hm _]]. lia.
Qed.

Lemma removelast_snoc {A} (l : list A) x : removelast (l ++ [x]) = l.
Proof. by rewrite removelast_app, app_nil_r. Qed.

Lemma evict_refines fuel c es :
  lists c es ->
  exists es', lists (evict_loop fuel c) es'
    /\ lru_trim fuel (max_total_bytes c) (plain <$> es) = plain <$> es'.
Proof.
  revert c es; induction fuel as [|fuel IH]; intros c es L; cbn [evict_loop lru_trim]; [by exists es|].
  rewrite (lists_size _ _ L), <- (ls_total _ _ L), length_fmap.
  destruct ((max_total_bytes c <? cache_total_bytes c)%Z && (1 <? length es)%nat) eqn:Hc; [|by exists es].
  destruct (decide (es = [])) as [->|Hne]; [by rewrite andb_false_r in Hc|].
  destruct (exists_last Hne) as (es0 & [k e] & ->). rewrite (victim_last _ _ _ L).
  assert (entries c !! k = Some e) as Hk by (apply (lists_lookup _ _ _ _ L); set_solver).
  destruct (lists_split _ _ _ _ L Hk) as (before & after & He & Hn & Hr & Hl & Hp).
  assert (after = []) as ->.
  { pose proof (lists_NoDup _ _ L) as Hnd. destruct (decide (after = [])) as [|Ha]; [done|exfalso].
    destruct (exists_last Ha) as (a & y & ->). rewrite app_comm_cons, app_assoc in He.
    apply app_inj_tail in He as [He <-]. apply Hn. rewrite fmap_app, fmap_app. set_solver. }
  apply app_inj_tail in He as [-> _]. rewrite app_nil_r in *.
  destruct (lists_drop c (before ++ [(k, e)]) k e before [] L eq_refl Hk) as (D1 & D2 & D3 & D4);
    [by rewrite app_nil_r|]. rewrite app_nil_r in *.
  rewrite fmap_app. change (plain <$> [(k, e)]) with [plain (k, e)]. rewrite removelast_snoc.
  set (c' := MkCache _ _ _ _). assert (lists c' before) as L' by (by constructor).
  apply (IH c' before L').
Qed.

Lemma cache_put_refines c es k b :
  lists c es -> (cache_sequence c + 1 <= U64_MAX)%Z ->
  (cache_total_bytes c + zlen b <= U64_MAX)%Z ->
  exists es', lists (cache_put k b c) es' /\ lru_put (max_total_bytes c) k b (plain <$> es) = plain <$> es'.
Proof.
  intros L Hseq Htot. unfold cache_put. rewrite sat_add_exact by done.
  set (c1 := MkCache (entries c) (cache_sequence c + 1) (cache_total_bytes c) (max_total_bytes c)).
  assert (lists c1 es) as L1.
  { destruct L as [A1 A2 A3 A4 A5]. constructor; try done. eapply Forall_impl; [exact A3|]. intros x Hx. cbn in Hx |- *. lia. }
  destruct (cache_remove_refines c es k L) as (es1 & L2 & Hr & Hn & Hp).
  assert (entries (cache_remove k c1) = entries (cache_remove k c)
          /\ cache_total_bytes (cache_remove k c1) = cache_total_bytes (cache_remove k c)
          /\ max_total_bytes (cache_remove k c1) = max_total_bytes c) as (E1 & E2 & E3).
  { unfold cache_remove. cbn. by destruct (entries c !! k). }
  assert (cache_sequence (cache_remove k c) = cache_sequence c) as E4.
  { unfold cache_remove. by destruct (entries c !! k). }
  rewrite E1, E2, E3. set (c2 := cache_remove k c) in *.
  assert (delete k (entries c2) = delete k (entries c)) as E5.
  { unfold c2, cache_remove. destruct (entries c !! k); cbn; [by rewrite delete_delete_eq|done]. }
  assert (0 <= cache_total_bytes c2 <= cache_total_bytes c)%Z as Hle.
  { rewrite (ls_total _ _ L2). split; [apply lru_bytes_nonneg|]. rewrite <- Hr, (ls_total _ _ L).
    generalize (plain <$> es). clear. induction l as [|x l IH]; cbn; [done|]. fold (lru_remove k l).
    pose proof (zlen_nonneg x.2). destruct (negb _); cbn; lia. }
  rewrite sat_add_exact by lia.
  set (e := MkCacheEntry b (cache_sequence c + 1) (zlen b)).
  set (c3 := MkCache (<[k := e]> (entries c2)) (cache_sequence c + 1) (cache_total_bytes c2 + zlen b) (max_total_bytes c)).
  assert (lists c3 ((k, e) :: es1)) as L3.
  { apply lists_front; try done.
    - by rewrite E5.
    - apply L2.
    - eapply Forall_impl; [apply (ls_stamps _ _ L2)|]. intros x Hx. cbn in Hx |- *. rewrite E4 in Hx. lia.
    - apply L2.
    - cbn. rewrite (ls_total _ _ L2). lia. }
  unfold evict_if_needed. destruct (evict_refines (size (entries c3)) c3 _ L3) as (es' & L' & Ht).
  exists es'. split; [done|]. unfold lru_put. rewrite Hr. rewrite (lists_size _ _ L3) in Ht.
  change ((k, b) :: (plain <$> es1)) with (plain <$> ((k, e) :: es1)). rewrite length_fmap. exact Ht.
Qed.

(** ** The cache against the reference *)

Inductive CacheOp := Get (key : string) | Put (key : string) (b : bytes) | Remove (key : string).

Definition cache_op (op : CacheOp) (c : PackCache) : option bytes * PackCache :=
  match op with
  | Get k => cache_get k c
  | Put k b => (None, cache_put k b c)
  | Remove k => (None, cache_remove k c)
  end.

Definition lru_op (max : Z) (op : CacheOp) (l : Lru) : option bytes * Lru :=
  match op with
  | Get k => lru_get k l
  | Put k b => (None, lru_put max k b l)
  | Remove k => (None, lru_remove k l)
  end.

Fixpoint cache_run (ops : list CacheOp) (c : PackCache) : list (option bytes) * PackCache :=
  match ops with
  | [] => ([], c)
  | op :: ops => let '(r, c) := cache_op op c in let '(rs, c) := cache_run ops c in (r :: rs, c)
  end.
Fixpoint lru_run (max : Z) (ops : list CacheOp) (l : Lru) : list (option bytes) * Lru :=
  match ops with
  | [] => ([], l)
  | op :: ops => let '(r, l) := lru_op max op l in let '(rs, l) := lru_run max ops l in (r :: rs, l)
  end.

Definition put_bytes (op : CacheOp) : Z := match op with Put _ b => zlen b | _ => 0%Z end.
Fixpoint total_put (ops : list CacheOp) : Z :=
  match ops with [] => 0%Z | op :: ops => (put_bytes op + total_put ops)%Z end.

Lemma total_put_nonneg ops : (0 <= total_put ops)%Z.
Proof. induction ops as [|op ops IH]; cbn; [done|]. destruct op; cbn; try lia. pose proof (zlen_nonneg b). lia. Qed.

Lemma lru_bytes_remove k l : (lru_bytes (lru_remove k l) <= lru_bytes l)%Z.
Proof.
  induction l as [|x l IH]; cbn; [done|]. fold (lru_remove k l). pose proof (zlen_nonneg x.2).
  destruct (negb _); cbn; lia.
Qed.

Lemma lru_bytes_trim fuel max l : (lru_bytes (lru_trim fuel max l) <= lru_bytes l)%Z.
Proof.
  revert l; induction fuel as [|fuel IH]; intros l; cbn [lru_trim]; [done|].
  destruct (_ && _); [|done]. etransitivity; [apply IH|]. destruct (decide (l = [])) as [->|Hne]; [done|].
  destruct (exists_last Hne) as (l' & x & ->). rewrite removelast_snoc, lru_bytes_app.
  pose proof (lru_bytes_nonneg [x]). lia.
Qed.

(** One operation, with the growth of the two counters. *)
Lemma cache_op_refines op c es :
  lists c es -> (cache_sequence c + 1 <= U64_MAX)%Z -> (cache_total_bytes c + put_bytes op <= U64_MAX)%Z ->
  exists es', lists (snd (cache_op op c)) es'
    /\ lru_op (max_total_bytes c) op (plain <$> es) = (fst (cache_op op c), plain <$> es')
    /\ max_total_bytes (snd (cache_op op c)) = max_total_bytes c
    /\ (cache_sequence (snd (cache_op op c)) <= cache_sequence c + 1)%Z
    /\ (cache_total_bytes (snd (cache_op op c)) <= cache_total_bytes c + put_bytes op)%Z.
Proof.
  intros L Hs Ht. assert (forall fuel c, max_total_bytes (evict_loop fuel c) = max_total_bytes c
    /\ cache_sequence (evict_loop fuel c) = cache_sequence c) as Hev.
  { clear. induction fuel as [|fuel IH]; intros c; cbn [evict_loop]; [done|]. destruct (_ && _); [|done].
    destruct (min_by_touch _) as [[k v]|]; [|done]. destruct (IH (MkCache (delete k (entries c)) (cache_sequence c)
      (sat_sub (cache_total_bytes c) (entry_size v)) (max_total_bytes c))) as [-> ->]. done. }
  destruct op as [k|k b|k]; cbn [cache_op lru_op fst snd put_bytes] in *.
  - destruct (cache_get_refines c es k L Hs) as (es' & L' & E). exists es'. split_and!; try done;
      unfold cache_get; rewrite sat_add_exact by done; destruct (entries c !! k); cbn; lia.
  - destruct (cache_put_refines c es k b L Hs Ht) as (es' & L' & E). exists es'. split_and!; try done.
    + by rewrite E.
    + unfold cache_put, evict_if_needed. rewrite (proj1 (Hev _ _)). unfold cache_remove. cbn. by destruct (entries c !! k).
    + unfold cache_put, evict_if_needed. rewrite (proj2 (Hev _ _)). cbn. rewrite sat_add_exact by done. lia.
    + rewrite (ls_total _ _ L'), <- E, (ls_total _ _ L). unfold lru_put. etransitivity; [apply lru_bytes_trim|].
      cbn. pose proof (lru_bytes_remove k (plain <$> es)). lia.
  - destruct (cache_remove_refines c es k L) as (es' & L' & E & _). exists es'. split_and!; try done.
    + by rewrite E.
    + unfold cache_remove. by destruct (entries c !! k).
    + unfold cache_remove. destruct (entries c !! k); cbn; lia.
    + rewrite (ls_total _ _ L'), <- E, (ls_total _ _ L). pose proof (lru_bytes_remove k (plain <$> es)). lia.
Qed.

Lemma cache_run_refines ops c es :
  lists c es -> (cache_sequence c + Z.of_nat (length ops) <= U64_MAX)%Z ->
  (cache_total_bytes c + total_put ops <= U64_MAX)%Z ->
  exists es', lists (snd (cache_run ops c)) es'
    /\ lru_run (max_total_bytes c) ops (plain <$> es) = (fst (cache_run ops c), plain <$> es').
Proof.
  revert c es; induction ops as [|op ops IH]; intros c es L Hs Ht; cbn [cache_run lru_run]; [by exists es|].
  cbn [length total_put] in Hs, Ht. pose proof (total_put_nonneg ops).
  destruct (cache_op_refines op c es L) as (es1 & L1 & E1 & M1 & S1 & T1); [lia|lia|].
  rewrite E1. destruct (cache_op op c) as [r c1]. cbn [fst snd] in *.
  destruct (IH c1 es1 L1) as (es2 & L2 & E2); [lia|lia|]. rewrite M1 in E2. rewrite E2.
  destruct (cache_run ops c1) as [rs c2]. by exists es2.
Qed.

(** C33: the pack cache is a least-recently-used cache: whatever sequence of
    gets, puts and removals it serves, it answers every get as the reference
    list does, holds the same entries, and counts their bytes exactly. *)
Theorem cache_refines_lru max ops :
  (Z.of_nat (length ops) <= U64_MAX)%Z -> (total_put ops <= U64_MAX)%Z ->
  let '(answers, c) := cache_run ops (PackCache_new max) in
  let '(expected, l) := lru_run max ops [] in
  answers = expected
  /\ (forall k b, (exists e, entries c !! k = Some e /\ entry_bytes e = b) <-> (k, b) ∈ l)
  /\ cache_total_bytes c = lru_bytes l /\ cache_len c = length l.
Proof.
  intros Hs Ht. destruct (cache_run_refines ops (PackCache_new max) []) as (es & L & E).
  - constructor; try done. constructor.
  - cbn. lia.
  - cbn. lia.
  - change (max_total_bytes (PackCache_new max)) with max in E. cbn [fmap list_fmap] in E. rewrite E.
    destruct (cache_run ops (PackCache_new max)) as [answers c]. cbn [fst snd] in *. split_and!; [done| | |].
    + intros k b. rewrite list_elem_of_fmap. split.
      * intros (e & He & <-). exists (k, e). split; [done|]. by apply (lists_lookup _ _ _ _ L).
      * intros ([k' e] & [= -> ->] & Hin). exists e. split; [|done]. by apply (lists_lookup _ _ _ _ L).
    + apply L.
    + unfold cache_len. by rewrite (lists_size _ _ L), length_fmap.
Qed.

Lemma lru_trim_fits fuel max l :
  length l <= fuel -> (lru_bytes (lru_trim fuel max l) <= max)%Z \/ length (lru_trim fuel max l) <= 1.
Proof.
  revert l; induction fuel as [|fuel IH]; intros l Hf; cbn [lru_trim]; [right; lia|].
  destruct (Z.ltb_spec max (lru_bytes l)); [|by left].
  destruct (Nat.ltb_spec 1 (length l)); cbn; [|by right].
  apply IH. destruct (decide (l = [])) as [->|Hne]; [cbn in *; lia|].
  destruct (exists_last Hne) as (l' & x & ->). rewrite removelast_snoc. rewrite length_app in Hf. cbn in Hf. lia.
Qed.

Lemma lru_trim_head fuel max x l : exists l', lru_trim fuel max (x :: l) = x :: l'.
Proof.
  revert l; induction fuel as [|fuel IH]; intros l; cbn [lru_trim]; [eauto|].
  destruct (_ && _) eqn:E; [|eauto]. destruct l as [|y l]; [by rewrite andb_false_r in E|].
  change (removelast (x :: y :: l)) with (x :: removelast (y :: l)). apply IH.
Qed.

(** After a put the cache fits its bound or holds a single entry, and the
    entry just put is cached whatever its size. *)
Theorem cache_put_bounded max ops k b :
  (Z.of_nat (length ops) + 1 <= U64_MAX)%Z -> (total_put ops + zlen b <= U64_MAX)%Z ->
  let c := cache_put k b (snd (cache_run ops (PackCache_new max))) in
  ((cache_total_bytes c <= max)%Z \/ cache_len c = 1)
  /\ (exists e, entries c !! k = Some e /\ entry_bytes e = b).
Proof.
  intros Hs Ht. destruct (cache_run_refines (ops ++ [Put k b]) (PackCache_new max) []) as (es & L & E).
  - constructor; try done. constructor.
  - cbn. rewrite length_app. cbn. lia.
  - cbn. assert (total_put (ops ++ [Put k b]) = total_put ops + zlen b)%Z as ->; [|lia].
    clear. induction ops as [|op ops IH]; cbn; [lia|]. rewrite IH. lia.
  - assert (forall c, snd (cache_run (ops ++ [Put k b]) c) = cache_put k b (snd (cache_run ops c))) as Hrun.
    { clear. induction ops as [|op ops IH]; intros c; [done|]. cbn. destruct (cache_op op c) as [r c1].
      specialize (IH c1). destruct (cache_run (ops ++ [Put k b]) c1), (cache_run ops c1). cbn in *. done. }
    assert (forall l, snd (lru_run max (ops ++ [Put k b]) l) = lru_put max k b (snd (lru_run max ops l))) as Hlru.
    { clear. induction ops as [|op ops IH]; intros l; [done|]. cbn. destruct (lru_op max op l) as [r l1].
      specialize (IH l1). destruct (lru_run max (ops ++ [Put k b]) l1), (lru_run max ops l1). cbn in *. done. }
    rewrite Hrun in L. set (c := cache_put k b _) in *.
    change (max_total_bytes (PackCache_new max)) with max in E. apply (f_equal snd) in E. cbn [fmap list_fmap snd] in E.
    rewrite Hlru in E. cbn zeta. unfold lru_put in E. split.
    + rewrite (ls_total _ _ L), <- E. unfold cache_len. rewrite (lists_size _ _ L), <- (length_fmap plain), <- E.
      destruct (lru_trim_fits (length ((k, b) :: lru_remove k (snd (lru_run max ops [])))) max
        ((k, b) :: lru_remove k (snd (lru_run max ops [])))) as [H|H]; [lia|by left|right].
      destruct (lru_trim_head (length ((k, b) :: lru_remove k (snd (lru_run max ops [])))) max (k, b)
        (lru_remove k (snd (lru_run max ops [])))) as [l' Hl]. rewrite Hl in H |- *. cbn in *. lia.
    + destruct (lru_trim_head (length ((k, b) :: lru_remove k (snd (lru_run max ops [])))) max (k, b)
        (lru_remove k (snd (lru_run max ops [])))) as [l' Hl]. rewrite Hl in E.
      destruct es as [|[k' e] es]; [done|]. injection E as -> -> _. exists e. split; [|done].
      apply (lists_lookup _ _ _ _ L). set_solver.
Qed.

(** ** Examples *)

Definition blob (n : nat) : bytes := replicate n Byte.x00.

Definition trace0 : list CacheOp := [Put "a" (blob 20); Put "b" (blob 20); Get "a"; Put "c" (blob 20); Get "b"; Get "a"].

Lemma cache_refines_lru_witness :
  fst (cache_run trace0 (PackCache_new 50)) = fst (lru_run 50 trace0 [])
  /\ fst (cache_run trace0 (PackCache_new 50)) = [None; None; Some (blob 20); None; None; Some (blob 20)].
Proof.
  split; [|vm_compute; reflexivity].
  pose proof (cache_refines_lru 50 trace0) as H.
  destruct (cache_run trace0 (PackCache_new 50)), (lru_run 50 trace0 []).
  apply H; apply Z.leb_le; vm_compute; reflexivity.
Defined.

