(* ===== verification/Manifest.v ===== *)
(** * Manifests of packed files

    [vfs/src/manifest.rs]: building a pack together with the manifest rows that
    locate each file in it, and planning which candidate writes change a path.
    The algorithm of the content hash is resolved once per process
    ([ContentHash.algorithm]); [hex_hash] is the hash under the resolved one. *)

From S2P Require Import Prelude VfsTypes Pack ContentHash.
From Stdlib Require Import ZArith Lia.

Record VfsPackSlotRef := MkSlotRef {
  ref_pack_key : string;
  ref_slot_offset : Z;
  ref_slot_length : Z;
  ref_slot_compression : Z;
}.

Record VfsFileManifest := MkManifest {
  fm_logical_path : string;
  fm_content_hash : string;
  fm_logical_size_bytes : Z;
  fm_pack_slot : VfsPackSlotRef;
  fm_token_count : option Z;
}.

Record VfsObjectHead := MkObjectHead {
  oh_logical_path : string;
  oh_content_hash : option string;
  oh_size_bytes : Z;
  oh_pack_slot : VfsPackSlotRef;
}.

Record VfsPackRecord := MkPackRecord {
  pk_pack_key : string;
  pk_total_slot_count : Z;
  pk_reference_count : Z;
  pk_total_bytes : Z;
  pk_compacted_from : option (list string);
}.

Record VfsPackInput := MkPackInput {
  in_logical_path : string;
  in_bytes : bytes;
  in_compression : SlotCompression;
  in_token_count : option Z;
}.

Record VfsBuiltPackManifest := MkBuiltManifest {
  bm_pack : BuiltPack;
  bm_pack_record : VfsPackRecord;
  bm_file_manifests : list VfsFileManifest;
  bm_object_heads : list VfsObjectHead;
}.

Record VfsWriteCandidate := MkCandidate {
  wc_logical_path : string;
  wc_content_hash : string;
  wc_logical_size_bytes : Z;
}.

Record VfsChangedWritePlan := MkWritePlan {
  changed_paths : list string;
  unchanged_paths : list string;
}.

Definition checked_i64 (value : Z) (field : string) : VfsStorageResult Z :=
  if (value <=? I64_MAX)%Z then Ok value else Err (Internal (field +:+ " exceeds i64::MAX")).
Definition checked_i32 (value : Z) (field : string) : VfsStorageResult Z :=
  if (value <=? I32_MAX)%Z then Ok value else Err (Internal (field +:+ " exceeds i32::MAX")).

Section manifest.
Context {D : PackDeps} {H : HashCrates} (alg : VfsHashAlgorithm).

(** [pack::hex_hash]. *)
Definition hex_hash (b : bytes) : string := (hash_bytes (Some alg) None b).1.

(** One row of the two manifest lists. *)
Definition manifest_row (pack_key : string) (row : VfsPackInput * BuiltSlot * string)
  : VfsStorageResult (VfsFileManifest * VfsObjectHead) :=
  let '(input, slot, hash) := row in
  offset ← checked_i64 (pack_slot_offset slot) "pack_slot_offset";
  len ← checked_i64 (pack_slot_length slot) "pack_slot_length";
  let ref := MkSlotRef pack_key offset len (as_db_smallint (compression slot)) in
  size ← checked_i64 (zlen (in_bytes input)) "logical_size_bytes";
  let fm := MkManifest (in_logical_path input) hash size ref (in_token_count input) in
  size ← checked_i64 (zlen (in_bytes input)) "size_bytes";
  Ok (fm, MkObjectHead (in_logical_path input) (Some hash) size ref).

Definition as_pack_file (input : VfsPackInput) : string * bytes * SlotCompression :=
  (in_logical_path input, in_bytes input, in_compression input).

Definition build_pack_manifest (pack_key : string) (inputs : list VfsPackInput)
  : VfsStorageResult VfsBuiltPackManifest :=
  _ ← guard_err (bool_decide (length inputs = 0)) (BadRequest "cannot build vfs pack with no files");
  pack ← build_pack (as_pack_file <$> inputs);
  let hashes := (fun i => hex_hash (in_bytes i)) <$> inputs in
  rows ← mapM_result (manifest_row pack_key) (zip (zip inputs (slots pack)) hashes);
  count ← checked_i32 (slot_count pack) "total_slot_count";
  total ← checked_i64 (total_bytes pack) "total_bytes";
  Ok (MkBuiltManifest pack (MkPackRecord pack_key count count total None) rows.*1 rows.*2).

Definition candidate_for_bytes (path : string) (b : bytes) : VfsWriteCandidate :=
  MkCandidate path (hex_hash b) (as_i64 (zlen b)).

Fixpoint plan_loop (current : gmap string string) (candidates : list VfsWriteCandidate)
    (plan : VfsChangedWritePlan) : VfsChangedWritePlan :=
  match candidates with
  | [] => plan
  | c :: rest =>
      plan_loop current rest
        (if bool_decide (current !! wc_logical_path c = Some (wc_content_hash c))
         then MkWritePlan (changed_paths plan) (unchanged_paths plan ++ [wc_logical_path c])
         else MkWritePlan (changed_paths plan ++ [wc_logical_path c]) (unchanged_paths plan))
  end.

Definition plan_changed_writes (candidates : list VfsWriteCandidate) (current : gmap string string)
  : VfsChangedWritePlan := plan_loop current candidates (MkWritePlan [] []).

(** ** Lemmas *)

Lemma checked_i64_Ok v f z : checked_i64 v f = Ok z -> z = v /\ (v <= I64_MAX)%Z.
Proof. unfold checked_i64. destruct (Z.leb_spec v I64_MAX); [|done]. by intros [= <-]. Qed.

Lemma checked_i32_Ok v f z : checked_i32 v f = Ok z -> z = v /\ (v <= I32_MAX)%Z.
Proof. unfold checked_i32. destruct (Z.leb_spec v I32_MAX); [|done]. by intros [= <-]. Qed.

Lemma i64_u64 z : (z <= I64_MAX)%Z -> (z <= U64_MAX)%Z.
Proof. unfold I64_MAX, U64_MAX. lia. Qed.

Lemma manifest_row_Ok key input slot hash fm head :
  manifest_row key (input, slot, hash) = Ok (fm, head) ->
  fm = MkManifest (in_logical_path input) hash (zlen (in_bytes input))
         (MkSlotRef key (pack_slot_offset slot) (pack_slot_length slot) (as_db_smallint (compression slot)))
         (in_token_count input)
  /\ head = MkObjectHead (in_logical_path input) (Some hash) (zlen (in_bytes input)) (fm_pack_slot fm)
  /\ (zlen (in_bytes input) <= I64_MAX)%Z
  /\ (pack_slot_offset slot <= I64_MAX)%Z /\ (pack_slot_length slot <= I64_MAX)%Z.
Proof.
  unfold manifest_row. intros E. inv_ok E. injection E as <- <-.
  destruct (checked_i64_Ok _ _ _ Hx) as [-> ?], (checked_i64_Ok _ _ _ Hx0) as [-> ?],
    (checked_i64_Ok _ _ _ Hx1) as [-> ?], (checked_i64_Ok _ _ _ Hx2) as [-> _]. done.
Qed.

Lemma as_u64_i64_small z : (0 <= z <= I64_MAX)%Z -> as_u64 z = z.
Proof. intros. apply as_u64_small. unfold is_u64, I64_MAX, U64_MAX in *. lia. Qed.

(** The write plan is exact: a candidate is planned as changed exactly when
    the current hash of its path is not the hash of its content, every candidate
    is planned once, and both lists keep the order of the candidates. *)
Theorem plan_changed_writes_exact candidates current :
  let same c := bool_decide (current !! wc_logical_path c = Some (wc_content_hash c)) in
  plan_changed_writes candidates current
  = MkWritePlan (wc_logical_path <$> List.filter (fun c => negb (same c)) candidates)
                (wc_logical_path <$> List.filter same candidates).
Proof.
  cbn zeta. unfold plan_changed_writes.
  enough (forall plan, plan_loop current candidates plan = MkWritePlan
    (changed_paths plan ++ (wc_logical_path <$> List.filter (fun c => negb (bool_decide
       (current !! wc_logical_path c = Some (wc_content_hash c)))) candidates))
    (unchanged_paths plan ++ (wc_logical_path <$> List.filter (fun c => bool_decide
       (current !! wc_logical_path c = Some (wc_content_hash c))) candidates))) as E by apply E.
  induction candidates as [|c cs IH]; intros plan; cbn.
  - rewrite !app_nil_r. by destruct plan.
  - rewrite IH. case_bool_decide; cbn; by rewrite <- app_assoc.
Qed.

Context {L : PackDepsLaws D}.

(** The coordinates of a slot are never negative. *)
Lemma slot_nonneg files pack i slot :
  build_pack files = Ok pack -> slots pack !! i = Some slot ->
  (0 <= pack_slot_offset slot)%Z /\ (0 <= pack_slot_length slot)%Z.
Proof.
  intros Hb Hs. destruct (build_pack_shape _ _ Hb) as (imgs & Hl & _).
  destruct (laid_out_length _ _ _ _ Hl) as [Hlen _].
  destruct (lookup_lt_is_Some_2 files i) as [[[p body] c] Hf].
  { rewrite <- Hlen. by eapply lookup_lt_Some. }
  destruct (laid_out_lookup _ _ _ _ _ _ _ _ Hl Hf) as (pl & _ & _ & Hs').
  rewrite Hs in Hs'. injection Hs' as ->. cbn [pack_slot_offset pack_slot_length].
  change FILE_HEADER_BYTES with 14%Z. split; [|apply zlen_nonneg].
  pose proof (zlen_nonneg (concat (take i imgs))). lia.
Qed.

(** Every input of a built pack is found again through its manifest. *)
Lemma manifest_locates key inputs built i input :
  build_pack_manifest key inputs = Ok built -> inputs !! i = Some input ->
  exists fm head, bm_file_manifests built !! i = Some fm /\ bm_object_heads built !! i = Some head
    /\ fm_logical_path fm = in_logical_path input /\ fm_content_hash fm = hex_hash (in_bytes input)
    /\ fm_logical_size_bytes fm = zlen (in_bytes input) /\ fm_token_count fm = in_token_count input
    /\ oh_pack_slot head = fm_pack_slot fm /\ ref_pack_key (fm_pack_slot fm) = key
    /\ extract_slot (pack_bytes (bm_pack built)) (as_u64 (ref_slot_offset (fm_pack_slot fm)))
          (as_u64 (ref_slot_length (fm_pack_slot fm)))
        = Ok {| x_content_hash := sha256_of (in_bytes input); x_bytes := in_bytes input |}
    /\ pk_reference_count (bm_pack_record built) = pk_total_slot_count (bm_pack_record built)
    /\ pk_total_slot_count (bm_pack_record built) = as_u32 (zlen inputs)
    /\ (0 <= ref_slot_offset (fm_pack_slot fm) <= I64_MAX)%Z /\ (0 <= ref_slot_length (fm_pack_slot fm) <= I64_MAX)%Z
    /\ (zlen (pack_bytes (bm_pack built)) <= I64_MAX)%Z.
Proof.
  intros Hb Hi. unfold build_pack_manifest in Hb. inv_ok Hb. injection Hb as <-. cbn.
  rename x0 into pack, x1 into rows. destruct (checked_i64_Ok _ _ _ Hx3) as [-> Htot].
  assert ((as_pack_file <$> inputs) !! i = Some (in_logical_path input, in_bytes input, in_compression input)) as Hf
    by (by rewrite list_lookup_fmap, Hi).
  destruct (build_pack_shape _ _ Hx0) as (imgs & Hl & _). pose proof (laid_out_length _ _ _ _ Hl) as [Hlen _].
  rewrite length_fmap in Hlen.
  destruct (lookup_lt_is_Some_2 (slots pack) i) as [slot Hslot].
  { apply lookup_lt_Some in Hi. lia. }
  assert (zip (zip inputs (slots pack)) ((fun i => hex_hash (in_bytes i)) <$> inputs) !! i
    = Some (input, slot, hex_hash (in_bytes input))) as Hzip.
  { apply lookup_zip_Some. split; [by apply lookup_zip_Some|]. by rewrite list_lookup_fmap, Hi. }
  destruct (mapM_result_lookup _ _ _ _ _ Hx1 Hzip) as ([fm head] & Hrow & Hr).
  destruct (manifest_row_Ok _ _ _ _ _ _ Hr) as (Hfm & Hhead & Hsize & Hoff & Hln).
  destruct (build_pack_slot _ _ _ _ _ _ Hx0 (i64_u64 _ Htot) Hf (i64_u64 _ Hsize))
    as (slot' & Hs' & _ & Hex).
  rewrite Hslot in Hs'. injection Hs' as <-.
  destruct (slot_nonneg _ _ _ _ Hx0 Hslot) as [H0 H1].
  exists fm, head. rewrite !list_lookup_fmap, Hrow, Hhead. subst fm. cbn.
  rewrite !as_u64_i64_small by lia. split_and!; try done; try lia.
  destruct (checked_i32_Ok _ _ _ Hx2) as [-> _]. unfold slot_count. f_equal. unfold zlen. by rewrite Hlen.
Qed.

(** The manifest a pack is built with locates every file: row [i] carries the
    path, size, hash and token count of input [i], reading the pack object at
    the coordinates of the row returns exactly its bytes, and the object head
    agrees; the pack record counts one reference per slot. *)
Theorem manifest_locates_files key inputs built i input :
  build_pack_manifest key inputs = Ok built -> inputs !! i = Some input ->
  exists fm head, bm_file_manifests built !! i = Some fm /\ bm_object_heads built !! i = Some head
    /\ fm_logical_path fm = in_logical_path input /\ fm_content_hash fm = hex_hash (in_bytes input)
    /\ fm_logical_size_bytes fm = zlen (in_bytes input) /\ fm_token_count fm = in_token_count input
    /\ oh_pack_slot head = fm_pack_slot fm /\ ref_pack_key (fm_pack_slot fm) = key
    /\ extract_slot (pack_bytes (bm_pack built)) (as_u64 (ref_slot_offset (fm_pack_slot fm)))
          (as_u64 (ref_slot_length (fm_pack_slot fm)))
        = Ok {| x_content_hash := sha256_of (in_bytes input); x_bytes := in_bytes input |}
    /\ pk_reference_count (bm_pack_record built) = pk_total_slot_count (bm_pack_record built)
    /\ pk_total_slot_count (bm_pack_record built) = as_u32 (zlen inputs).
Proof. intros Hb Hi. destruct (manifest_locates key inputs built i input Hb Hi) as (fm & head & Hl). exists fm, head. tauto. Qed.
End manifest.

(** ** Witness *)

Definition toy_inputs : list VfsPackInput :=
  [MkPackInput "a.md" [Byte.x61; Byte.x62] Zstd (Some 1%Z); MkPackInput "b.md" [Byte.x63] Raw None].

Definition toy_manifest : VfsBuiltPackManifest :=
  Eval vm_compute in
  match @build_pack_manifest toy_deps toy_hashes Sha256 "packs/one" toy_inputs with
  | Ok b => b
  | Err _ => MkBuiltManifest (MkBuiltPack [] []) (MkPackRecord "" 0 0 0 None) [] []
  end.

Lemma manifest_locates_files_witness :
  exists fm head, bm_file_manifests toy_manifest !! 1 = Some fm
    /\ bm_object_heads toy_manifest !! 1 = Some head /\ fm_logical_path fm = "b.md".
Proof.
  destruct (@manifest_locates_files toy_deps toy_hashes Sha256 toy_deps_laws "packs/one" toy_inputs
    toy_manifest 1 (MkPackInput "b.md" [Byte.x63] Raw None)) as (fm & head & Hf & Hh & Hp & _);
    [vm_compute; reflexivity | reflexivity | exists fm, head; exact (conj Hf (conj Hh Hp))].
Defined.
