(* ===== verification/PackIndex.v ===== *)
(** * What pack maintenance relies on

    The two interfaces the pack compactor is written against:
    [VfsPackLifecycleIndex] of [vfs/src/index.rs] (the tables of packs and file
    manifests) and [VfsPackBlobStore] of [vfs/src/compaction.rs] (the stored
    pack objects). Each is a class of operations on an abstract state with a
    view of the rows it holds, and a class of laws that say what an
    implementation promises: what a listing contains, that a compaction is
    applied whole or not at all, and that a failed call may or may not have
    taken effect. [PostgresIndex.v] discharges the index laws for the
    SQL-backed implementation. *)

From S2P Require Import Prelude VfsTypes Pack ContentHash Manifest.
From Stdlib Require Import ZArith Lia.

(** [VfsIndexScope] is its key. *)
Abbreviation VfsIndexScope := string.

Record VfsFileManifestRecord := MkManifestRecord {
  mr_id : string;
  mr_scope : VfsIndexScope;
  mr_manifest : VfsFileManifest;
}.

Record VfsPackRecordWithScope := MkPackWithScope {
  ps_scope : VfsIndexScope;
  ps_pack : VfsPackRecord;
  ps_updated_at : Z; (* nanoseconds *)
}.

Record VfsManifestRepoint := MkRepoint {
  rp_manifest_id : string;
  rp_new_pack_key : string;
  rp_new_pack_slot_offset : Z;
  rp_new_pack_slot_length : Z;
  rp_new_pack_slot_compression : Z;
}.

Global Instance VfsPackSlotRef_eq_dec : EqDecision VfsPackSlotRef.
Proof. solve_decision. Defined.
Global Instance VfsFileManifest_eq_dec : EqDecision VfsFileManifest.
Proof. solve_decision. Defined.
Global Instance VfsPackRecord_eq_dec : EqDecision VfsPackRecord.
Proof. solve_decision. Defined.

(** Rows are identified by their scope and their id or pack key. *)
Abbreviation ManifestTable := (gmap (VfsIndexScope * string) VfsFileManifest).
Abbreviation PackTable := (gmap (VfsIndexScope * string) VfsPackRecord).

Definition pack_of (fm : VfsFileManifest) : string := ref_pack_key (fm_pack_slot fm).

(** ** The effect of applying a compaction *)

Definition repoint (r : VfsManifestRepoint) (fm : VfsFileManifest) : VfsFileManifest :=
  MkManifest (fm_logical_path fm) (fm_content_hash fm) (fm_logical_size_bytes fm)
    (MkSlotRef (rp_new_pack_key r) (rp_new_pack_slot_offset r) (rp_new_pack_slot_length r)
       (rp_new_pack_slot_compression r))
    (fm_token_count fm).

Definition repoint_all (scope : VfsIndexScope) (rs : list VfsManifestRepoint) (m : ManifestTable)
  : ManifestTable :=
  foldl (fun m r => alter (repoint r) (scope, rp_manifest_id r) m) m rs.

Definition bump (by_ : Z) (p : VfsPackRecord) : VfsPackRecord :=
  MkPackRecord (pk_pack_key p) (pk_total_slot_count p) (pk_reference_count p + by_)
    (pk_total_bytes p) (pk_compacted_from p).

Definition decrement_all (scope : VfsIndexScope) (ds : list (string * Z)) (t : PackTable) : PackTable :=
  foldl (fun t d => alter (bump (- d.2)) (scope, d.1) t) t ds.

(** How many manifest rows of a scope point into a pack. *)
Definition live_count (m : ManifestTable) (scope : VfsIndexScope) (key : string) : Z :=
  Z.of_nat (size (filter (fun x : (VfsIndexScope * string) * VfsFileManifest =>
    x.1.1 = scope /\ pack_of x.2 = key) m)).

(** [count as i32]. *)
Definition as_i32 (z : Z) : Z :=
  let m := (z mod 2 ^ 32)%Z in if (m <? 2 ^ 31)%Z then m else (m - 2 ^ 32)%Z.

Definition set_refs (n : Z) (p : VfsPackRecord) : VfsPackRecord :=
  MkPackRecord (pk_pack_key p) (pk_total_slot_count p) n (pk_total_bytes p) (pk_compacted_from p).

Definition correct_all (m : ManifestTable) (t : PackTable) : PackTable :=
  map_imap (fun k p => Some (set_refs (live_count m k.1 k.2) p)) t.

Definition remove_rows (ks : list (VfsIndexScope * string)) (t : PackTable) : PackTable :=
  foldl (fun t k => delete k t) t ks.

(** ** The lifecycle index *)

Class VfsPackLifecycleIndex (S : Type) := {
  manifests : S -> ManifestTable;
  packs : S -> PackTable;
  list_small_packs_for_scope : S -> VfsIndexScope -> Z -> Z -> Z -> VfsStorageResult (list VfsPackRecord);
  list_file_manifest_records_by_pack_keys :
    S -> VfsIndexScope -> list string -> VfsStorageResult (list VfsFileManifestRecord);
  apply_pack_compaction : S -> VfsIndexScope -> VfsPackRecord -> list VfsManifestRepoint ->
    list (string * Z) -> VfsStorageResult unit * S;
  correct_pack_refcount_drift : S -> VfsStorageResult Z * S;
  list_zero_reference_packs : S -> Z -> VfsStorageResult (list VfsPackRecordWithScope);
  recount_pack_reference_count : S -> VfsIndexScope -> string -> VfsStorageResult Z * S;
  delete_pack_records : S -> list (VfsIndexScope * string) -> VfsStorageResult unit * S;
}.

(** [settled r before after effect]: a call with result [r] that succeeds has
    taken [effect]; one that fails has taken it or has changed nothing. *)
Definition settled {A V} (r : VfsStorageResult A) (before after effect : V) : Prop :=
  match r with Ok _ => after = effect | Err _ => after = before \/ after = effect end.

Class PackIndexLaws (S : Type) {I : VfsPackLifecycleIndex S} : Prop := {
  small_packs_listed s scope mb ms l ps :
    list_small_packs_for_scope s scope mb ms l = Ok ps ->
    NoDup (pk_pack_key <$> ps) /\
    forall p, p ∈ ps -> packs s !! (scope, pk_pack_key p) = Some p
      /\ (pk_total_bytes p < mb)%Z /\ (pk_total_slot_count p < ms)%Z /\ (0 < pk_reference_count p)%Z;
  manifests_listed s scope keys rs :
    list_file_manifest_records_by_pack_keys s scope keys = Ok rs ->
    NoDup (mr_id <$> rs) /\
    (forall r, r ∈ rs -> manifests s !! (scope, mr_id r) = Some (mr_manifest r)
       /\ pack_of (mr_manifest r) ∈ keys) /\
    (forall id fm, manifests s !! (scope, id) = Some fm -> pack_of fm ∈ keys ->
       exists r, r ∈ rs /\ mr_id r = id /\ mr_manifest r = fm);
  compaction_applied s scope new rs ds :
    NoDup (rp_manifest_id <$> rs) -> NoDup ds.*1 ->
    let out := apply_pack_compaction s scope new rs ds in
    (packs s !! (scope, pk_pack_key new) <> None ->
       exists e, out.1 = Err e /\ manifests out.2 = manifests s /\ packs out.2 = packs s) /\
    settled out.1 (manifests s, packs s) (manifests out.2, packs out.2)
      (repoint_all scope rs (manifests s),
       decrement_all scope ds (<[(scope, pk_pack_key new) := new]> (packs s)));
  drift_keeps_manifests s : manifests (correct_pack_refcount_drift s).2 = manifests s;
  drift_corrected s :
    settled (correct_pack_refcount_drift s).1 (packs s) (packs (correct_pack_refcount_drift s).2)
      (correct_all (manifests s) (packs s));
  zero_packs_listed s l ps :
    list_zero_reference_packs s l = Ok ps ->
    forall p, p ∈ ps -> packs s !! (ps_scope p, pk_pack_key (ps_pack p)) = Some (ps_pack p)
      /\ (pk_reference_count (ps_pack p) <= 0)%Z;
  recount_keeps_manifests s scope key :
    manifests (recount_pack_reference_count s scope key).2 = manifests s;
  recount_counts s scope key :
    let out := recount_pack_reference_count s scope key in
    let live := as_i32 (live_count (manifests s) scope key) in
    (forall n, out.1 = Ok n -> n = live)
    /\ settled out.1 (packs s) (packs out.2) (alter (set_refs live) (scope, key) (packs s));
  delete_keeps_manifests s ks : manifests (delete_pack_records s ks).2 = manifests s;
  records_deleted s ks :
    settled (delete_pack_records s ks).1 (packs s) (packs (delete_pack_records s ks).2) (remove_rows ks (packs s));
}.

(** ** The blob store *)

Class VfsPackBlobStore (B : Type) := {
  blobs : B -> gmap string bytes;
  fetch_pack_bytes : B -> string -> VfsStorageResult (option bytes);
  put_pack_bytes : B -> string -> bytes -> VfsStorageResult unit * B;
  delete_pack : B -> string -> VfsStorageResult unit * B;
  build_pack_key : B -> VfsIndexScope -> string;
}.

(** Objects are immutable: a put of a key that exists changes nothing. *)
Class PackBlobLaws (B : Type) {W : VfsPackBlobStore B} : Prop := {
  fetched b key o : fetch_pack_bytes b key = Ok o -> o = blobs b !! key;
  put_effect b key bs :
    blobs b !! key = None ->
    settled (put_pack_bytes b key bs).1 (blobs b) (blobs (put_pack_bytes b key bs).2) (<[key := bs]> (blobs b));
  delete_effect b key :
    settled (delete_pack b key).1 (blobs b) (blobs (delete_pack b key).2) (delete key (blobs b));
}.

(** ** Lemmas *)

Lemma lookup_repoint_all_other scope rs m k :
  (forall r, r ∈ rs -> (scope, rp_manifest_id r) <> k) -> repoint_all scope rs m !! k = m !! k.
Proof.
  revert m; induction rs as [|r rs IH]; intros m Hk; [done|]. cbn.
  change (repoint_all scope rs (alter (repoint r) (scope, rp_manifest_id r) m) !! k = m !! k).
  rewrite IH by (intros; apply Hk; set_solver). apply lookup_alter_ne. apply Hk. set_solver.
Qed.

Lemma lookup_repoint_all scope rs m r :
  NoDup (rp_manifest_id <$> rs) -> r ∈ rs ->
  repoint_all scope rs m !! (scope, rp_manifest_id r) = repoint r <$> m !! (scope, rp_manifest_id r).
Proof.
  revert m; induction rs as [|r' rs IH]; intros m Hn Hr; [set_solver|].
  rewrite fmap_cons in Hn. apply NoDup_cons in Hn as [Hni Hn].
  change (repoint_all scope rs (alter (repoint r') (scope, rp_manifest_id r') m)
    !! (scope, rp_manifest_id r) = repoint r <$> m !! (scope, rp_manifest_id r)).
  apply elem_of_cons in Hr as [->|Hr].
  - rewrite lookup_repoint_all_other; [by rewrite lookup_alter_eq|].
    intros q Hq [= E]. apply Hni. rewrite <- E. by apply list_elem_of_fmap_2.
  - rewrite IH by done. rewrite lookup_alter_ne; [done|]. intros [= E]. apply Hni. rewrite E.
    by apply list_elem_of_fmap_2.
Qed.

Lemma alter_as_insert {A} (f : A -> A) (m : gmap (VfsIndexScope * string) A) k a :
  m !! k = Some a -> alter f k m = <[k := f a]> m.
Proof.
  intros Hk. apply map_eq. intros k'. destruct (decide (k = k')) as [<-|Hne].
  - by rewrite lookup_alter_eq, lookup_insert_eq, Hk.
  - by rewrite lookup_alter_ne, lookup_insert_ne by done.
Qed.

Lemma alter_none {A} (f : A -> A) (m : gmap (VfsIndexScope * string) A) k :
  m !! k = None -> alter f k m = m.
Proof.
  intros Hk. apply map_eq. intros k'. destruct (decide (k = k')) as [<-|Hne].
  - by rewrite lookup_alter_eq, Hk.
  - by rewrite lookup_alter_ne.
Qed.

(** Rewriting one row moves one reference from its pack to another. *)
Lemma live_count_insert m k fm scope key :
  m !! k = None ->
  live_count (<[k := fm]> m) scope key
  = (live_count m scope key + if decide (k.1 = scope /\ pack_of fm = key) then 1 else 0)%Z.
Proof.
  intros Hk. unfold live_count. case_decide as Hd.
  - rewrite map_filter_insert_True by done. rewrite map_size_insert_None; [lia|].
    apply map_lookup_filter_None. by left.
  - rewrite map_filter_insert_False by done. rewrite delete_id by done. lia.
Qed.

Lemma live_count_alter (m : ManifestTable) k fm fm' scope key :
  m !! k = Some fm ->
  live_count (<[k := fm']> m) scope key
  = (live_count m scope key
     - (if decide (k.1 = scope /\ pack_of fm = key) then 1 else 0)
     + (if decide (k.1 = scope /\ pack_of fm' = key) then 1 else 0))%Z.
Proof.
  intros Hk. rewrite <- (insert_delete_id m k fm) at 2 by done. rewrite <- insert_delete_eq.
  rewrite !live_count_insert by apply lookup_delete_eq. lia.
Qed.

Lemma live_count_nonneg m scope key : (0 <= live_count m scope key)%Z.
Proof. unfold live_count. lia. Qed.

Lemma live_count_size m scope key : (live_count m scope key <= Z.of_nat (size m))%Z.
Proof. unfold live_count. apply inj_le, map_subseteq_size, map_filter_subseteq. Qed.

Lemma live_count_zero m scope key :
  live_count m scope key = 0%Z -> forall id fm, m !! (scope, id) = Some fm -> pack_of fm <> key.
Proof.
  unfold live_count. intros H id fm Hm E.
  assert (filter (fun x : (VfsIndexScope * string) * VfsFileManifest =>
    x.1.1 = scope /\ pack_of x.2 = key) m = ∅) as He by (apply map_size_empty_inv; lia).
  assert (filter (fun x : (VfsIndexScope * string) * VfsFileManifest =>
    x.1.1 = scope /\ pack_of x.2 = key) m !! (scope, id) = Some fm) as Hf
    by (by apply map_lookup_filter_Some).
  rewrite He in Hf. set_solver.
Qed.

Lemma live_count_none m scope key :
  (forall id fm, m !! (scope, id) = Some fm -> pack_of fm <> key) -> live_count m scope key = 0%Z.
Proof.
  intros H. destruct (Z.eq_dec (live_count m scope key) 0) as [|Hne]; [done|]. exfalso. unfold live_count in Hne.
  destruct (map_choose (filter (fun x : (VfsIndexScope * string) * VfsFileManifest =>
    x.1.1 = scope /\ pack_of x.2 = key) m)) as ([sc id] & fm & Hk).
  { intros E. apply Hne. by rewrite E, map_size_empty. }
  apply map_lookup_filter_Some in Hk as [Hm [E Hp]]. cbn in E. subst sc. by eapply H.
Qed.

Lemma live_count_pos m scope key id fm :
  m !! (scope, id) = Some fm -> pack_of fm = key -> (0 < live_count m scope key)%Z.
Proof.
  intros Hm Hk. pose proof (live_count_nonneg m scope key).
  destruct (Z.eq_dec (live_count m scope key) 0) as [E|]; [|lia].
  by destruct (live_count_zero _ _ _ E _ _ Hm).
Qed.

Lemma as_i32_small z : (0 <= z <= I32_MAX)%Z -> as_i32 z = z.
Proof.
  unfold as_i32, I32_MAX. intros. rewrite Z.mod_small by lia.
  destruct (Z.ltb_spec z (2 ^ 31)); lia.
Qed.

Lemma lookup_remove_rows ks t k :
  remove_rows ks t !! k = if decide (k ∈ ks) then None else t !! k.
Proof.
  revert t; induction ks as [|k' ks IH]; intros t; [by rewrite decide_False by apply not_elem_of_nil|].
  change (remove_rows (k' :: ks) t) with (remove_rows ks (delete k' t)). rewrite IH.
  destruct (decide (k = k')) as [->|Hne].
  - rewrite lookup_delete_eq, (decide_True (P := k' ∈ k' :: ks)) by set_solver. by case_decide.
  - rewrite lookup_delete_ne by done. apply decide_ext. set_solver.
Qed.

Lemma lookup_correct_all m t k :
  correct_all m t !! k = set_refs (live_count m k.1 k.2) <$> t !! k.
Proof. unfold correct_all. rewrite map_lookup_imap. by destruct (t !! k). Qed.

Lemma lookup_decrement_all_other scope ds t k :
  (forall d, d ∈ ds -> (scope, d.1) <> k) -> decrement_all scope ds t !! k = t !! k.
Proof.
  revert t; induction ds as [|d ds IH]; intros t Hk; [done|].
  change (decrement_all scope ds (alter (bump (- d.2)) (scope, d.1) t) !! k = t !! k).
  rewrite IH by (intros; apply Hk; set_solver). apply lookup_alter_ne. apply Hk. set_solver.
Qed.

Lemma lookup_decrement_all scope ds t key n :
  NoDup ds.*1 -> (key, n) ∈ ds ->
  decrement_all scope ds t !! (scope, key) = bump (- n) <$> t !! (scope, key).
Proof.
  revert t; induction ds as [|d ds IH]; intros t Hn Hd; [set_solver|].
  rewrite fmap_cons in Hn. apply NoDup_cons in Hn as [Hni Hn].
  change (decrement_all scope ds (alter (bump (- d.2)) (scope, d.1) t) !! (scope, key)
    = bump (- n) <$> t !! (scope, key)).
  apply elem_of_cons in Hd as [<-|Hd].
  - rewrite lookup_decrement_all_other; [by rewrite lookup_alter_eq|].
    intros q Hq [= E]. apply Hni. cbn. rewrite <- E. by apply (list_elem_of_fmap_2 fst).
  - rewrite IH by done. rewrite lookup_alter_ne; [done|]. intros [= E]. apply Hni. rewrite E.
    by apply (list_elem_of_fmap_2 fst _ (key, n)).
Qed.

Lemma bump_0 p : bump 0 p = p.
Proof. unfold bump. destruct p; cbn. by rewrite Z.add_0_r. Qed.

(** Decrementing by the entries of a map is decrementing every row of the scope
    by its entry, absent entries counting zero. *)
Lemma lookup_decrement_map scope (m : gmap string Z) t sc key :
  decrement_all scope (map_to_list m) t !! (sc, key)
  = bump (- if decide (sc = scope) then default 0%Z (m !! key) else 0%Z) <$> t !! (sc, key).
Proof.
  destruct (decide (sc = scope)) as [->|Hne].
  - destruct (m !! key) as [n|] eqn:E; cbn.
    + apply lookup_decrement_all; [apply NoDup_fst_map_to_list|]. by apply elem_of_map_to_list.
    + rewrite lookup_decrement_all_other.
      * destruct (t !! (scope, key)); cbn; [|done]. by rewrite bump_0.
      * intros [k n] Hin%elem_of_map_to_list [= E']. cbn in E'. congruence.
  - rewrite lookup_decrement_all_other by (intros ? ? [=]; congruence).
    destruct (t !! (sc, key)); cbn; [|done]. by rewrite bump_0.
Qed.
