(* ===== verification/PostgresIndex.v ===== *)
(** * The SQL-backed pack index

    The [VfsPackLifecycleIndex] implementation of [vfs/src/postgres_index.rs]:
    the tables [chevalier_vfs_packs] and [chevalier_vfs_file_manifests] with the
    constraints of their schema, and the statements of each operation read as
    operations on the rows. A round trip may fail: the oracle [fault] says
    whether it does and, for a transaction whose commit is not acknowledged,
    whether it took effect. Rows equal under an [ORDER BY] come in the order of
    their keys. *)

From S2P Require Import Prelude VfsTypes Pack ContentHash Manifest PackIndex.
From Stdlib Require Import ZArith Lia.

(** A row of [chevalier_vfs_packs]; its key columns are the key of the map. *)
Record PackRow := MkPackRow {
  pr_total_slot_count : Z;
  pr_reference_count : Z;
  pr_total_bytes : Z;
  pr_compacted_from : option (list string);
  pr_created_at : Z;
  pr_updated_at : Z;
}.

Abbreviation PackRows := (gmap (VfsIndexScope * string) PackRow).

Record PgState := MkPg {
  pg_packs : PackRows;
  pg_manifests : ManifestTable;
  pg_tick : nat; (* statements that may write executed so far *)
}.

Inductive PgOp := QSmallPacks | QManifests | QApply | QDrift | QZeroPacks | QRecount | QDelete.

Definition record_of (key : string) (row : PackRow) : VfsPackRecord :=
  MkPackRecord key (pr_total_slot_count row) (pr_reference_count row) (pr_total_bytes row) (pr_compacted_from row).

Definition pack_view (t : PackRows) : PackTable :=
  map_imap (fun k row => Some (record_of k.2 row)) t.

(** [CHECK] constraints of a pack row. *)
Definition row_ok (row : PackRow) : bool :=
  ((0 <=? pr_total_slot_count row) && (0 <=? pr_reference_count row) && (pr_reference_count row <=? I32_MAX)
   && (0 <=? pr_total_bytes row))%Z.

Definition with_refs (n now : Z) (row : PackRow) : PackRow :=
  MkPackRow (pr_total_slot_count row) n (pr_total_bytes row) (pr_compacted_from row) (pr_created_at row) now.

Definition by_value {A} (f : A -> Z) (x y : A) : Prop := (f x <= f y)%Z.
Global Instance by_value_dec {A} (f : A -> Z) : RelDecision (by_value f).
Proof. intros x y. unfold by_value. apply _. Defined.

(** [ORDER BY f ASC LIMIT n]. *)
Definition order_limit {A} (f : A -> Z) (n : Z) (l : list A) : VfsStorageResult (list A) :=
  if (n <? 0)%Z then Err (Internal "LIMIT must not be negative")
  else Ok (take (Z.to_nat n) (merge_sort (by_value f) l)).

(** [Result::map]. *)
Definition map_ok {E A B} (f : A -> B) (r : result E A) : result E B :=
  match r with Ok a => Ok (f a) | Err e => Err e end.

Definition REPOINT_CHUNK_SIZE : nat := Z.to_nat 8000.

Fixpoint chunks {A} (fuel n : nat) (l : list A) : list (list A) :=
  match fuel, l with
  | _, [] => []
  | O, _ => [l]
  | S fuel, _ => take n l :: chunks fuel n (drop n l)
  end.

Section postgres.
Context (fault : nat -> PgOp -> option bool) (now : nat -> Z).

Definition lost : VfsStorageError := Internal "database error".
Definition violated : VfsStorageError := Internal "constraint violated".

(** A query that only reads. *)
Definition reading {A} (s : PgState) (op : PgOp) (r : VfsStorageResult A) : VfsStorageResult A :=
  match fault (pg_tick s) op with Some _ => Err lost | None => r end.

(** A statement or transaction that writes [t] when it succeeds. *)
Definition writing {A} (s : PgState) (op : PgOp) (a : A)
    (t : option (PackRows * ManifestTable)) : VfsStorageResult A * PgState :=
  let tick := S (pg_tick s) in
  let same := MkPg (pg_packs s) (pg_manifests s) tick in
  match t with
  | None => (Err violated, same)
  | Some (ps, ms) =>
      match fault (pg_tick s) op with
      | None => (Ok a, MkPg ps ms tick)
      | Some true => (Err lost, MkPg ps ms tick)
      | Some false => (Err lost, same)
      end
  end.

(** ** Listings *)

Definition is_small (scope : VfsIndexScope) (max_bytes max_slots : Z)
    (x : (VfsIndexScope * string) * PackRow) : bool :=
  bool_decide (x.1.1 = scope) && (pr_total_bytes x.2 <? max_bytes)%Z
  && (pr_total_slot_count x.2 <? max_slots)%Z && (0 <? pr_reference_count x.2)%Z.

Definition pg_list_small_packs_for_scope (s : PgState) (scope : VfsIndexScope) (max_bytes max_slots limit : Z)
  : VfsStorageResult (list VfsPackRecord) :=
  reading s QSmallPacks
    (map_ok (fmap (fun x : (VfsIndexScope * string) * PackRow => record_of x.1.2 x.2))
       (order_limit (fun x => pr_created_at x.2) limit
          (List.filter (is_small scope max_bytes max_slots) (map_to_list (pg_packs s))))).

Definition pg_list_file_manifest_records_by_pack_keys (s : PgState) (scope : VfsIndexScope) (keys : list string)
  : VfsStorageResult (list VfsFileManifestRecord) :=
  if bool_decide (keys = []) then Ok []
  else reading s QManifests
    (Ok ((fun x => MkManifestRecord x.1.2 x.1.1 x.2) <$>
       List.filter (fun x => bool_decide (x.1.1 = scope) && bool_decide (pack_of x.2 ∈ keys))
         (map_to_list (pg_manifests s)))).

Definition pg_list_zero_reference_packs (s : PgState) (limit : Z) : VfsStorageResult (list VfsPackRecordWithScope) :=
  reading s QZeroPacks
    (map_ok (fmap (fun x : (VfsIndexScope * string) * PackRow =>
                     MkPackWithScope x.1.1 (record_of x.1.2 x.2) (pr_updated_at x.2)))
       (order_limit (fun x => pr_updated_at x.2) limit
          (List.filter (fun x => (pr_reference_count x.2 <=? 0)%Z) (map_to_list (pg_packs s))))).

(** ** Applying a compaction: one transaction *)

Definition insert_pack_record_direct (at_ : Z) (scope : VfsIndexScope) (p : VfsPackRecord)
    (t : PackRows) : option (PackRows) :=
  let row := MkPackRow (pk_total_slot_count p) (pk_reference_count p) (pk_total_bytes p) (pk_compacted_from p) at_ at_ in
  match t !! (scope, pk_pack_key p) with
  | Some _ => None
  | None => if row_ok row then Some (<[(scope, pk_pack_key p) := row]> t) else None
  end.

(** The foreign key and the [CHECK]s of a repointed row. *)
Definition repoint_ok (scope : VfsIndexScope) (t : PackRows) (r : VfsManifestRepoint) : bool :=
  bool_decide (is_Some (t !! (scope, rp_new_pack_key r)))
  && (0 <=? rp_new_pack_slot_offset r)%Z && (0 <=? rp_new_pack_slot_length r)%Z.

Definition repoint_manifests_to_new_pack_batch (scope : VfsIndexScope) (t : PackRows)
    (rs : list VfsManifestRepoint) (m : ManifestTable) : option ManifestTable :=
  foldl (fun acc chunk =>
      m ← acc;
      if forallb (repoint_ok scope t) chunk then Some (repoint_all scope chunk m) else None)
    (Some m) (chunks (length rs) REPOINT_CHUNK_SIZE rs).

Definition bump_pack_reference_count (at_ : Z) (scope : VfsIndexScope) (key : string) (by_ : Z)
    (t : PackRows) : option (PackRows) :=
  match t !! (scope, key) with
  | None => Some t
  | Some row =>
      let row' := with_refs (pr_reference_count row + by_) at_ row in
      if row_ok row' then Some (<[(scope, key) := row']> t) else None
  end.

Definition pg_apply_pack_compaction (s : PgState) (scope : VfsIndexScope) (new_pack : VfsPackRecord)
    (repoints : list VfsManifestRepoint) (decrements : list (string * Z)) : VfsStorageResult unit * PgState :=
  let at_ := now (pg_tick s) in
  writing s QApply tt
    (t ← insert_pack_record_direct at_ scope new_pack (pg_packs s);
     m ← repoint_manifests_to_new_pack_batch scope t repoints (pg_manifests s);
     t ← foldl (fun acc d => t ← acc; bump_pack_reference_count at_ scope d.1 (- d.2) t) (Some t) decrements;
     Some (t, m)).

(** ** Reference counts *)

Definition drifted (m : ManifestTable) (x : (VfsIndexScope * string) * PackRow) : bool :=
  negb (pr_reference_count x.2 =? live_count m x.1.1 x.1.2)%Z.

Definition pg_correct_pack_refcount_drift (s : PgState) : VfsStorageResult Z * PgState :=
  let rows := List.filter (drifted (pg_manifests s)) (map_to_list (pg_packs s)) in
  writing s QDrift (zlen rows)
    (if forallb (fun x => (live_count (pg_manifests s) x.1.1 x.1.2 <=? I32_MAX)%Z) rows
     then Some (map_imap (fun k row => Some
                  (if drifted (pg_manifests s) (k, row)
                   then with_refs (live_count (pg_manifests s) k.1 k.2) (now (pg_tick s)) row else row))
                  (pg_packs s), pg_manifests s)
     else None).

Definition pg_recount_pack_reference_count (s : PgState) (scope : VfsIndexScope) (key : string)
  : VfsStorageResult Z * PgState :=
  let count := as_i32 (live_count (pg_manifests s) scope key) in
  writing s QRecount count
    (match pg_packs s !! (scope, key) with
     | None => Some (pg_packs s, pg_manifests s)
     | Some row =>
         if (0 <=? count)%Z then Some (<[(scope, key) := with_refs count (now (pg_tick s)) row]> (pg_packs s), pg_manifests s)
         else None
     end).

(** ** Deleting rows: the foreign key is [ON DELETE RESTRICT] *)

Definition pg_delete_pack_records (s : PgState) (ks : list (VfsIndexScope * string)) : VfsStorageResult unit * PgState :=
  if bool_decide (ks = []) then (Ok tt, s)
  else writing s QDelete tt
    (if forallb (fun k => (live_count (pg_manifests s) k.1 k.2 =? 0)%Z) ks
     then Some (foldl (fun t k => delete k t) (pg_packs s) ks, pg_manifests s)
     else None).

(** ** The implementation of the interface *)

#[global] Instance postgres_index : VfsPackLifecycleIndex PgState := {|
  manifests := pg_manifests;
  packs s := pack_view (pg_packs s);
  list_small_packs_for_scope := pg_list_small_packs_for_scope;
  list_file_manifest_records_by_pack_keys := pg_list_file_manifest_records_by_pack_keys;
  apply_pack_compaction := pg_apply_pack_compaction;
  correct_pack_refcount_drift := pg_correct_pack_refcount_drift;
  list_zero_reference_packs := pg_list_zero_reference_packs;
  recount_pack_reference_count := pg_recount_pack_reference_count;
  delete_pack_records := pg_delete_pack_records;
|}.

(** ** Lemmas *)

Lemma lookup_pack_view t k : pack_view t !! k = record_of k.2 <$> t !! k.
Proof. unfold pack_view. rewrite map_lookup_imap. by destruct (t !! k). Qed.

Lemma pack_view_insert t k row : pack_view (<[k := row]> t) = <[k := record_of k.2 row]> (pack_view t).
Proof.
  apply map_eq. intros k'. rewrite lookup_pack_view. destruct (decide (k = k')) as [<-|Hne].
  - by rewrite !lookup_insert_eq.
  - by rewrite !lookup_insert_ne, lookup_pack_view by done.
Qed.

Lemma order_limit_sub {A} (f : A -> Z) n l l' :
  order_limit f n l = Ok l' -> exists rest, l ≡ₚ l' ++ rest.
Proof.
  unfold order_limit. destruct (n <? 0)%Z; [done|]. intros [= <-].
  exists (drop (Z.to_nat n) (merge_sort (by_value f) l)).
  rewrite take_drop. by rewrite merge_sort_Permutation.
Qed.

(** Rows of one scope have different keys. *)
Lemma scope_rows_NoDup {A} (m : gmap (VfsIndexScope * string) A) scope p :
  (forall x, p x = true -> x.1.1 = scope) ->
  NoDup ((fun x => x.1.2) <$> List.filter p (map_to_list m)).
Proof.
  intros Hp. pose proof (NoDup_fst_map_to_list m) as Hn. revert Hn.
  generalize (map_to_list m) as l. intros l. induction l as [|x l IH]; cbn; [constructor|].
  intros [Hx Hl]%NoDup_cons. destruct (p x) eqn:E; cbn; [|auto]. apply NoDup_cons. split; [|auto].
  intros (y & Ey & Hy)%list_elem_of_fmap. apply elem_of_List_filter in Hy as [Hy Hpy].
  apply Hx. assert (x.1 = y.1) as -> by (destruct x as [[] ?], y as [[] ?]; cbn in *;
    apply Hp in E, Hpy; cbn in *; congruence). by apply list_elem_of_fmap_2.
Qed.

Lemma settled_writing {A V : Type} (s : PgState) (op : PgOp) (a : A) (t : option (PackRows * ManifestTable)) (f : PackRows * ManifestTable -> V) (e : V) :
  (forall x, t = Some x -> f x = e) ->
  settled (writing s op a t).1 (f (pg_packs s, pg_manifests s))
    (f (pg_packs (writing s op a t).2, pg_manifests (writing s op a t).2)) e.
Proof.
  intros H. unfold writing. destruct t as [[ps ms]|]; [|by left].
  destruct (fault (pg_tick s) op) as [[]|]; cbn; [right| |]; [by apply H|by left|by apply H].
Qed.

Lemma writing_manifests {A : Type} (s : PgState) (op : PgOp) (a : A) (t : option (PackRows * ManifestTable)) :
  (forall x, t = Some x -> x.2 = pg_manifests s) -> pg_manifests (writing s op a t).2 = pg_manifests s.
Proof.
  intros H. unfold writing. destruct t as [[ps ms]|]; [|done].
  destruct (fault (pg_tick s) op) as [[]|]; cbn; try done; by apply (H (ps, ms)).
Qed.

Lemma foldl_chunks {A B : Type} (f : A -> B -> A) fuel n l acc :
  foldl (fun a c => foldl f a c) acc (chunks fuel n l) = foldl f acc l.
Proof.
  revert l acc; induction fuel as [|fuel IH]; intros [|x l] acc; [done..|].
  cbn [chunks foldl]. rewrite IH, <- foldl_app, take_drop. done.
Qed.

(** Repointing chunk by chunk is repointing all. *)
Lemma repoint_batch_spec scope t rs m m' :
  repoint_manifests_to_new_pack_batch scope t rs m = Some m' -> m' = repoint_all scope rs m.
Proof.
  unfold repoint_manifests_to_new_pack_batch, repoint_all.
  rewrite <- (foldl_chunks _ (length rs) REPOINT_CHUNK_SIZE rs m).
  generalize (chunks (length rs) REPOINT_CHUNK_SIZE rs) as cs. intros cs. revert m.
  induction cs as [|c cs IH]; intros m; cbn; [congruence|]. destruct (forallb (repoint_ok scope t) c); [apply IH|].
  clear IH. intros H. exfalso. induction cs as [|c' cs IH]; cbn in H; [done|auto].
Qed.

Lemma bumps_spec at_ scope ds t t' :
  foldl (fun acc d => t ← acc; bump_pack_reference_count at_ scope d.1 (- d.2) t) (Some t) ds = Some t' ->
  pack_view t' = decrement_all scope ds (pack_view t).
Proof.
  revert t; induction ds as [|d ds IH]; intros t; cbn; [congruence|].
  unfold bump_pack_reference_count at 2.
  change (decrement_all scope (d :: ds) (pack_view t))
    with (decrement_all scope ds (alter (bump (- d.2)) (scope, d.1) (pack_view t))).
  assert (forall l, foldl (fun acc d => t ← acc; bump_pack_reference_count at_ scope d.1 (- d.2) t) None l = None) as Hnone
    by (intros l; induction l; auto).
  destruct (t !! (scope, d.1)) as [row|] eqn:E.
  - case_match; [|by rewrite Hnone]. intros Hf. apply IH in Hf. rewrite Hf.
    by rewrite pack_view_insert, (alter_as_insert _ (pack_view t) _ (record_of d.1 row))
      by (by rewrite lookup_pack_view, E).
  - intros Hf. apply IH in Hf. rewrite Hf, alter_none; [done|]. by rewrite lookup_pack_view, E.
Qed.

(** Correcting the drifted rows corrects every row. *)
Lemma corrected_rows (m : ManifestTable) (at_ : Z) (t : PackRows) :
  pack_view (map_imap (fun k row => Some
    (if drifted m (k, row) then with_refs (live_count m k.1 k.2) at_ row else row)) t)
  = correct_all m (pack_view t).
Proof.
  apply map_eq. intros k. rewrite lookup_correct_all, !lookup_pack_view, map_lookup_imap.
  destruct (t !! k) as [row|]; cbn; [|done]. f_equal. unfold drifted. cbn.
  destruct (Z.eqb_spec (pr_reference_count row) (live_count m k.1 k.2)) as [E|]; cbn; [|done].
  unfold record_of, set_refs. cbn. by rewrite <- E.
Qed.

Lemma recount_row (n at_ : Z) (t : PackRows) k row :
  t !! k = Some row -> pack_view (<[k := with_refs n at_ row]> t) = alter (set_refs n) k (pack_view t).
Proof.
  intros E. rewrite pack_view_insert. symmetry.
  apply (alter_as_insert (set_refs n) (pack_view t) k (record_of k.2 row)). by rewrite lookup_pack_view, E.
Qed.

Lemma removed_rows ks t : pack_view (foldl (fun t k => delete k t) t ks) = remove_rows ks (pack_view t).
Proof.
  revert t; induction ks as [|k ks IH]; intros t; [done|]. cbn [foldl].
  change (remove_rows (k :: ks) (pack_view t)) with (remove_rows ks (delete k (pack_view t))). rewrite IH. f_equal.
  apply map_eq. intros k'. rewrite lookup_pack_view. destruct (decide (k = k')) as [<-|Hne].
  - by rewrite !lookup_delete_eq.
  - by rewrite !lookup_delete_ne, lookup_pack_view by done.
Qed.

Lemma compaction_effect s scope new rs ds x :
  (t ← insert_pack_record_direct (now (pg_tick s)) scope new (pg_packs s);
   m ← repoint_manifests_to_new_pack_batch scope t rs (pg_manifests s);
   t ← foldl (fun acc d => t ← acc; bump_pack_reference_count (now (pg_tick s)) scope d.1 (- d.2) t) (Some t) ds;
   Some (t, m)) = Some x ->
  pg_packs s !! (scope, pk_pack_key new) = None
  /\ x.2 = repoint_all scope rs (pg_manifests s)
  /\ pack_view x.1 = decrement_all scope ds (<[(scope, pk_pack_key new) := new]> (pack_view (pg_packs s))).
Proof.
  intros (t & Ht & (m & Hm & (t' & Hb & [= <-])%bind_Some)%bind_Some)%bind_Some.
  unfold insert_pack_record_direct in Ht. destruct (pg_packs s !! _) eqn:E; [done|].
  destruct (row_ok _); [|done]. injection Ht as <-. split_and!; [done|by apply repoint_batch_spec in Hm|].
  apply bumps_spec in Hb. cbn. rewrite Hb, pack_view_insert. by destruct new.
Qed.

Lemma elem_of_rows {A} (m : gmap (VfsIndexScope * string) A) p x :
  x ∈ List.filter p (map_to_list m) <-> m !! x.1 = Some x.2 /\ p x = true.
Proof. rewrite elem_of_List_filter. destruct x as [k a]. by rewrite elem_of_map_to_list. Qed.

Lemma small_packs_rows s scope mb ms l ps :
  pg_list_small_packs_for_scope s scope mb ms l = Ok ps ->
  NoDup (pk_pack_key <$> ps) /\
  forall p, p ∈ ps -> pack_view (pg_packs s) !! (scope, pk_pack_key p) = Some p
    /\ (pk_total_bytes p < mb)%Z /\ (pk_total_slot_count p < ms)%Z /\ (0 < pk_reference_count p)%Z.
Proof.
  unfold pg_list_small_packs_for_scope, reading. destruct (fault _ _); [done|].
  destruct (order_limit _ _ _) as [rows|] eqn:E; [|done]. cbn. intros [= <-].
  destruct (order_limit_sub _ _ _ _ E) as [rest Hp].
  assert (forall x, is_small scope mb ms x = true -> x.1.1 = scope) as Hsc.
  { intros x Hx. unfold is_small in Hx. rewrite !andb_true_iff in Hx.
    by destruct Hx as [[[Hx%bool_decide_eq_true_1 _] _] _]. }
  split.
  - rewrite <- list_fmap_compose. pose proof (scope_rows_NoDup (pg_packs s) scope _ Hsc) as Hn.
    rewrite Hp, fmap_app in Hn. by apply NoDup_app in Hn as [Hn _].
  - intros p (x & -> & Hx)%list_elem_of_fmap.
    assert (x ∈ List.filter (is_small scope mb ms) (map_to_list (pg_packs s))) as Hin
      by (rewrite Hp; set_solver).
    apply elem_of_rows in Hin as [Hl Hs]. pose proof (Hsc _ Hs) as <-. destruct x as [[sc key] row]. cbn in *.
    rewrite lookup_pack_view. cbn. rewrite Hl. unfold is_small in Hs. cbn in Hs.
    rewrite !andb_true_iff, !Z.ltb_lt in Hs. naive_solver.
Qed.

Lemma manifest_rows s scope keys rs :
  pg_list_file_manifest_records_by_pack_keys s scope keys = Ok rs ->
  NoDup (mr_id <$> rs) /\
  (forall r, r ∈ rs -> pg_manifests s !! (scope, mr_id r) = Some (mr_manifest r)
     /\ pack_of (mr_manifest r) ∈ keys) /\
  (forall id fm, pg_manifests s !! (scope, id) = Some fm -> pack_of fm ∈ keys ->
     exists r, r ∈ rs /\ mr_id r = id /\ mr_manifest r = fm).
Proof.
  unfold pg_list_file_manifest_records_by_pack_keys, reading. case_bool_decide as Ek.
  { intros [= <-]. subst keys. split_and!; [constructor|set_solver|set_solver]. }
  destruct (fault _ _); [done|]. intros [= <-]. split_and!.
  - rewrite <- list_fmap_compose. apply (scope_rows_NoDup (pg_manifests s) scope).
    intros x [Hx%bool_decide_eq_true_1 _]%andb_true_iff. done.
  - intros r (x & -> & Hx)%list_elem_of_fmap. apply elem_of_rows in Hx as [Hl Hs].
    apply andb_true_iff in Hs as [Hsc%bool_decide_eq_true_1 Hk%bool_decide_eq_true_1]. cbn.
    split; [|done]. rewrite <- Hsc. by destruct x as [[] ?].
  - intros id fm Hm Hk. exists (MkManifestRecord id scope fm). split_and!; [|done..].
    apply list_elem_of_fmap. exists (scope, id, fm). split; [done|]. apply elem_of_rows. split; [done|].
    cbn. by rewrite !bool_decide_eq_true_2.
Qed.

Lemma zero_pack_rows s l ps :
  pg_list_zero_reference_packs s l = Ok ps ->
  forall p, p ∈ ps -> pack_view (pg_packs s) !! (ps_scope p, pk_pack_key (ps_pack p)) = Some (ps_pack p)
    /\ (pk_reference_count (ps_pack p) <= 0)%Z.
Proof.
  unfold pg_list_zero_reference_packs, reading. destruct (fault _ _); [done|].
  destruct (order_limit _ _ _) as [rows|] eqn:E; [|done]. cbn. intros [= <-] p (x & -> & Hx)%list_elem_of_fmap.
  destruct (order_limit_sub _ _ _ _ E) as [rest Hp].
  assert (x ∈ List.filter (fun x => (pr_reference_count x.2 <=? 0)%Z) (map_to_list (pg_packs s))) as Hin
    by (rewrite Hp; set_solver).
  apply elem_of_rows in Hin as [Hl Hs]. destruct x as [[sc key] row]. cbn in *.
  rewrite lookup_pack_view. cbn. rewrite Hl. split; [done|lia].
Qed.

Lemma postgres_laws : @PackIndexLaws PgState postgres_index.
Proof.
  split; cbn [manifests packs list_small_packs_for_scope list_file_manifest_records_by_pack_keys
    apply_pack_compaction correct_pack_refcount_drift list_zero_reference_packs
    recount_pack_reference_count delete_pack_records postgres_index].
  - apply small_packs_rows.
  - apply manifest_rows.
  - intros s scope new rs ds _ _. cbn zeta. unfold pg_apply_pack_compaction. set (t := mbind _ _). split.
    + intros Hex. destruct t as [x|] eqn:E.
      * exfalso. apply compaction_effect in E as [E _]. apply Hex. by rewrite lookup_pack_view, E.
      * exists violated. done.
    + apply (settled_writing s QApply tt t (fun x => (x.2, pack_view x.1))).
      intros x Hx. apply compaction_effect in Hx as (_ & -> & ->). done.
  - intros s. apply writing_manifests. intros x. case_match; [|done]. by intros [= <-].
  - intros s. unfold pg_correct_pack_refcount_drift.
    apply (settled_writing s _ _ _ (fun x => pack_view x.1)). intros x. case_match; [|done]. intros [= <-].
    apply corrected_rows.
  - apply zero_pack_rows.
  - intros s scope key. apply writing_manifests. intros x. repeat case_match; try done; by intros [= <-].
  - intros s scope key. cbn zeta. unfold pg_recount_pack_reference_count. split.
    + intros n. unfold writing. repeat case_match; try done; by intros [= <-].
    + apply (settled_writing s _ _ _ (fun x => pack_view x.1)). intros x.
      destruct (pg_packs s !! (scope, key)) as [row|] eqn:E.
      * case_match; [|done]. intros [= <-]. by apply recount_row.
      * intros [= <-]. cbn. symmetry. apply alter_none. by rewrite lookup_pack_view, E.
  - intros s ks. unfold pg_delete_pack_records. case_bool_decide; [done|].
    apply writing_manifests. intros x. case_match; [|done]. by intros [= <-].
  - intros s ks. unfold pg_delete_pack_records. case_bool_decide as E; [by subst ks|].
    apply (settled_writing s _ _ _ (fun x => pack_view x.1)). intros x. case_match; [|done]. intros [= <-].
    apply removed_rows.
Qed.

(** ** Properties *)

(** C30: the SQL-backed index keeps what pack maintenance relies on: listings
    return exactly the rows they describe, a compaction is applied whole or not
    at all and never over an existing pack, corrected and recounted reference
    counts are the number of manifests, and deleting rows removes those rows
    only; a failed call has taken its whole effect or none. *)
Theorem postgres_index_lawful : @PackIndexLaws PgState postgres_index.
Proof. exact postgres_laws. Qed.

End postgres.
