(* ===== verification/Compaction.v ===== *)
(** * Pack maintenance

    [vfs/src/compaction.rs]: merging the small packs of a scope into one
    ([coalesce_scope_batch]) and removing packs nothing refers to
    ([sweep_zero_reference_packs]), written against the interfaces of
    [PackIndex.v]. Every call of an interface may fail, with or without effect.
    The parallel fetches and deletions touch different packs and are modelled in
    listing order. *)

From S2P Require Import Prelude VfsTypes Pack ContentHash Manifest PackIndex.
From Stdlib Require Import ZArith Lia Ascii.

Definition PACK_TARGET_BYTES : Z := 16 * 1024 * 1024.
Definition PACK_TARGET_SLOTS : Z := 8192.
Definition MIN_SMALL_PACKS_TO_COALESCE : Z := 2.
Definition MAX_PACKS_PER_COALESCE_PASS : Z := 5000.

Record VfsPackCompactorConfig := MkCompactorConfig {
  pack_key_prefix : string;
  max_total_bytes : Z;
  max_total_slots : Z;
  min_small_packs : Z;
  max_packs_per_pass : Z;
  fetch_parallelism : Z;
  delete_parallelism : Z;
  orphan_sweeper_min_age_seconds : Z;
}.

Definition default_compactor_config : VfsPackCompactorConfig :=
  MkCompactorConfig "packs" PACK_TARGET_BYTES PACK_TARGET_SLOTS MIN_SMALL_PACKS_TO_COALESCE
    MAX_PACKS_PER_COALESCE_PASS 1024 256 300.

Record VfsPackCoalesceStats := MkCoalesceStats {
  packs_coalesced : Z;
  slots_migrated : Z;
  missing_source_slots : Z;
}.

Record VfsPackSweepStats := MkSweepStats {
  packs_deleted : Z;
  refcounts_corrected : Z;
  delete_failures : Z;
}.

Definition default_coalesce_stats : VfsPackCoalesceStats := MkCoalesceStats 0 0 0.

(** ** Keys of pack objects *)

Definition is_ascii_alphanumeric (c : ascii) : bool :=
  let n := N_of_ascii c in
  ((48 <=? n) && (n <=? 57) || (65 <=? n) && (n <=? 90) || (97 <=? n) && (n <=? 122))%N.

Definition keeps_char (c : ascii) : bool :=
  is_ascii_alphanumeric c || bool_decide (c ∈ ["-"; "_"; "."]%char).

(** The continuation bytes of a multi-byte character vanish with it: one
    underscore per character. *)
Definition is_continuation (c : ascii) : bool :=
  let n := N_of_ascii c in ((128 <=? n) && (n <? 192))%N.

Fixpoint sanitize_scope_for_key (scope : string) : string :=
  match scope with
  | EmptyString => EmptyString
  | String c rest =>
      if is_continuation c then sanitize_scope_for_key rest
      else String (if keeps_char c then c else "_"%char) (sanitize_scope_for_key rest)
  end.

Fixpoint trim_start_char (c : ascii) (s : string) : string :=
  match s with
  | String a s' => if Ascii.eqb a c then trim_start_char c s' else s
  | EmptyString => EmptyString
  end.

Definition trim_matches (c : ascii) (s : string) : string :=
  str_rev (trim_start_char c (str_rev (trim_start_char c s) EmptyString)) EmptyString.

(** [ObjectStorePackBlobStore::build_pack_key], with the UUID drawn for it. *)
Definition object_pack_key (prefix scope pack_id : string) : string :=
  let prefix := trim_matches "/" prefix in
  let scope := sanitize_scope_for_key scope in
  if is_empty_str prefix then scope +:+ "/" +:+ pack_id +:+ ".pack"
  else prefix +:+ "/" +:+ scope +:+ "/" +:+ pack_id +:+ ".pack".

(** ** Selection *)

(** [i64::saturating_add]. *)
Definition i64_sat_add (a b : Z) : Z := Z.max I64_MIN (Z.min I64_MAX (a + b)).

Fixpoint keep_loop (cfg : VfsPackCompactorConfig) (cumulative_bytes keep_count : Z)
    (small : list VfsPackRecord) : Z :=
  match small with
  | [] => keep_count
  | pack :: rest =>
      let next := i64_sat_add cumulative_bytes (pk_total_bytes pack) in
      if (as_u64 (min_small_packs cfg) <=? keep_count)%Z && (max_total_bytes cfg <? next)%Z
      then keep_count
      else keep_loop cfg next (keep_count + 1) rest
  end.

Definition truncated (cfg : VfsPackCompactorConfig) (small : list VfsPackRecord) : list VfsPackRecord :=
  take (Z.to_nat (keep_loop cfg 0 0 small)) small.

Section compactor.
Context {D : PackDeps}.
Context {S B : Type} {I : VfsPackLifecycleIndex S} {W : VfsPackBlobStore B}.

(** ** Gathering the slots to merge *)

Fixpoint fetch_all (b : B) (keys : list string) (acc : gmap string bytes)
  : VfsStorageResult (gmap string bytes) :=
  match keys with
  | [] => Ok acc
  | key :: rest =>
      match fetch_pack_bytes b key with
      | Err e => Err e
      | Ok (Some bs) => fetch_all b rest (<[key := bs]> acc)
      | Ok None => fetch_all b rest acc
      end
  end.

Fixpoint gather_slots (fetched : gmap string bytes) (missing : Z) (acc : list (VfsFileManifestRecord * bytes))
    (rs : list VfsFileManifestRecord) : VfsStorageResult (Z * list (VfsFileManifestRecord * bytes)) :=
  match rs with
  | [] => Ok (missing, acc)
  | r :: rest =>
      let slot := fm_pack_slot (mr_manifest r) in
      match fetched !! ref_pack_key slot with
      | None => gather_slots fetched (as_u32 (missing + 1)) acc rest
      | Some bs =>
          match extract_slot bs (as_u64 (ref_slot_offset slot)) (as_u64 (ref_slot_length slot)) with
          | Err e => Err e
          | Ok extracted => gather_slots fetched missing (acc ++ [(r, x_bytes extracted)]) rest
          end
      end
  end.

(** The pack is built on a worker: a buffer past [isize::MAX] bytes panics there
    and the join reports it. *)
Definition build_coalesced_pack (inputs : list (string * bytes)) : VfsStorageResult BuiltPack :=
  match build_pack ((fun i => (i.1, i.2, Zstd)) <$> inputs) with
  | Err e => Err e
  | Ok p =>
      if (total_bytes p <=? I64_MAX)%Z then Ok p
      else Err (Internal "vfs pack builder join failed: capacity overflow")
  end.

Definition repoint_of (new_key : string) (x : VfsFileManifestRecord * bytes * BuiltSlot) : VfsManifestRepoint :=
  let '(r, _, slot) := x in
  MkRepoint (mr_id r) new_key (as_i64 (pack_slot_offset slot)) (as_i64 (pack_slot_length slot))
    (as_db_smallint (compression slot)).

(** [*entry(key).or_insert(0) += 1]. *)
Definition count_key (m : gmap string Z) (key : string) : gmap string Z :=
  <[key := (default 0 (m !! key) + 1)%Z]> m.

Definition refcount_decrements (slots : list (VfsFileManifestRecord * bytes)) : gmap string Z :=
  foldl (fun m x => count_key m (pack_of (mr_manifest x.1))) ∅ slots.

(** ** Coalescing *)

Definition merge_slots (scope : VfsIndexScope) (old_pack_keys : list string) (missing : Z)
    (slots_ : list (VfsFileManifestRecord * bytes)) (s : S) (b : B)
  : VfsStorageResult VfsPackCoalesceStats * (S * B) :=
  match build_coalesced_pack ((fun x => (fm_logical_path (mr_manifest x.1), x.2)) <$> slots_) with
  | Err e => (Err e, (s, b))
  | Ok built =>
      let new_pack_key := build_pack_key b scope in
      let '(put, b') := put_pack_bytes b new_pack_key (pack_bytes built) in
      match put with
      | Err e => (Err e, (s, b'))
      | Ok _ =>
          let migrated_count := zlen slots_ in
          if (I32_MAX <? migrated_count)%Z
          then (Err (Internal "vfs compaction migrated slot count exceeds i32"), (s, b'))
          else
            let new_pack := MkPackRecord new_pack_key migrated_count migrated_count
                              (as_i64 (zlen (pack_bytes built))) (Some old_pack_keys) in
            let repoints := repoint_of new_pack_key <$> zip slots_ (slots built) in
            let decrements := map_to_list (refcount_decrements slots_) in
            let '(applied, s') := apply_pack_compaction s scope new_pack repoints decrements in
            match applied with
            | Err e => (Err e, (s', b'))
            | Ok _ => (Ok (MkCoalesceStats (as_u32 (zlen decrements)) (as_u32 migrated_count) missing), (s', b'))
            end
      end
  end.

Definition coalesce_scope_batch (cfg : VfsPackCompactorConfig) (scope : VfsIndexScope) (s : S) (b : B)
  : VfsStorageResult VfsPackCoalesceStats * (S * B) :=
  match list_small_packs_for_scope s scope (max_total_bytes cfg) (max_total_slots cfg) (max_packs_per_pass cfg) with
  | Err e => (Err e, (s, b))
  | Ok small_packs =>
      if (as_i64 (zlen small_packs) <? min_small_packs cfg)%Z then (Ok default_coalesce_stats, (s, b))
      else
        let old_pack_keys := pk_pack_key <$> truncated cfg small_packs in
        match list_file_manifest_records_by_pack_keys s scope old_pack_keys with
        | Err e => (Err e, (s, b))
        | Ok [] => (Ok default_coalesce_stats, (s, b))
        | Ok rs =>
            match fetch_all b (sorted_strings (list_to_set old_pack_keys)) ∅ with
            | Err e => (Err e, (s, b))
            | Ok fetched =>
                match gather_slots fetched 0 [] rs with
                | Err e => (Err e, (s, b))
                | Ok (_, []) => (Ok default_coalesce_stats, (s, b))
                | Ok (missing, slots_) => merge_slots scope old_pack_keys missing slots_ s b
                end
            end
        end
  end.

(** ** Sweeping *)

(** One task of the sweep: recount, then delete the object. *)
Definition sweep_one (pack : VfsPackRecordWithScope) (s : S) (b : B) : VfsStorageResult bool * (S * B) :=
  let '(counted, s') := recount_pack_reference_count s (ps_scope pack) (pk_pack_key (ps_pack pack)) in
  match counted with
  | Err e => (Err e, (s', b))
  | Ok live =>
      if (0 <? live)%Z then (Ok false, (s', b))
      else
        let '(deleted, b') := delete_pack b (pk_pack_key (ps_pack pack)) in
        match deleted with
        | Err e => (Err e, (s', b'))
        | Ok _ => (Ok true, (s', b'))
        end
  end.

Fixpoint sweep_all (ps : list VfsPackRecordWithScope) (s : S) (b : B)
  : list (VfsPackRecordWithScope * VfsStorageResult bool) * (S * B) :=
  match ps with
  | [] => ([], (s, b))
  | pack :: rest =>
      let '(r, (s1, b1)) := sweep_one pack s b in
      let '(rs, out) := sweep_all rest s1 b1 in
      ((pack, r) :: rs, out)
  end.

Definition tally (stats : VfsPackSweepStats) (x : VfsPackRecordWithScope * VfsStorageResult bool)
  : VfsPackSweepStats :=
  match x.2 with
  | Ok true => stats
  | Ok false => MkSweepStats (packs_deleted stats) (as_u32 (refcounts_corrected stats + 1)) (delete_failures stats)
  | Err _ => MkSweepStats (packs_deleted stats) (refcounts_corrected stats) (as_u32 (delete_failures stats + 1))
  end.

Definition deletable (rs : list (VfsPackRecordWithScope * VfsStorageResult bool))
  : list (VfsIndexScope * string) :=
  (fun x => (ps_scope x.1, pk_pack_key (ps_pack x.1))) <$>
    List.filter (fun x => match x.2 with Ok true => true | _ => false end) rs.

(** [(now - updated_at).num_seconds()]: whole seconds, toward zero. *)
Definition age_seconds (now : Z) (pack : VfsPackRecordWithScope) : Z :=
  Z.quot (now - ps_updated_at pack) (10 ^ 9).

Definition sweep_zero_reference_packs (cfg : VfsPackCompactorConfig) (now limit : Z) (s : S) (b : B)
  : VfsStorageResult VfsPackSweepStats * (S * B) :=
  let '(drift, s1) := correct_pack_refcount_drift s in
  match drift with
  | Err e => (Err e, (s1, b))
  | Ok n =>
      match list_zero_reference_packs s1 limit with
      | Err e => (Err e, (s1, b))
      | Ok listed =>
          let candidates :=
            List.filter (fun p => (orphan_sweeper_min_age_seconds cfg <=? age_seconds now p)%Z) listed in
          let '(rs, (s2, b2)) := sweep_all candidates s1 b in
          let stats := foldl tally (MkSweepStats 0 (as_u32 n) 0) rs in
          let '(deleted, s3) := delete_pack_records s2 (deletable rs) in
          match deleted with
          | Err e => (Err e, (s3, b2))
          | Ok _ =>
              (Ok (MkSweepStats (as_u32 (zlen (deletable rs))) (refcounts_corrected stats) (delete_failures stats)),
               (s3, b2))
          end
      end
  end.

(** ** What maintenance must keep *)

(** A stored manifest reads [body]: its pack is stored and the slot it names
    extracts to [body]. *)
Definition reads (store : gmap string bytes) (fm : VfsFileManifest) (body : bytes) : Prop :=
  exists bs x, store !! pack_of fm = Some bs
    /\ extract_slot bs (as_u64 (ref_slot_offset (fm_pack_slot fm))) (as_u64 (ref_slot_length (fm_pack_slot fm))) = Ok x
    /\ x_bytes x = body.

Definition same_file (fm fm' : VfsFileManifest) : Prop :=
  fm_logical_path fm = fm_logical_path fm' /\ fm_content_hash fm = fm_content_hash fm'
  /\ fm_logical_size_bytes fm = fm_logical_size_bytes fm' /\ fm_token_count fm = fm_token_count fm'.

(** Every manifest is still there, describes the same file, and reads what it read. *)
Definition keeps_files (s : S) (b : B) (s' : S) (b' : B) : Prop :=
  forall k, match manifests s !! k with
            | None => manifests s' !! k = None
            | Some fm => exists fm', manifests s' !! k = Some fm' /\ same_file fm fm'
                         /\ forall body, reads (blobs b) fm body -> reads (blobs b') fm' body
            end.

(** The key drawn for the next pack object is new: it names no object and no
    row of any scope. *)
Definition fresh_key (scope : VfsIndexScope) (s : S) (b : B) : Prop :=
  blobs b !! build_pack_key b scope = None
  /\ forall sc, packs s !! (sc, build_pack_key b scope) = None.

(** Every manifest points to a pack row of its scope, scopes do not share packs,
    and no pack has more manifests than an [i32] counts. *)
Record index_wf (s : S) : Prop := {
  wf_fk : forall k fm, manifests s !! k = Some fm -> is_Some (packs s !! (k.1, pack_of fm));
  wf_scoped : forall sc sc' key, is_Some (packs s !! (sc, key)) -> is_Some (packs s !! (sc', key)) -> sc = sc';
  wf_small : forall sc key, (live_count (manifests s) sc key <= I32_MAX)%Z;
}.

(** Reference counts are exact. *)
Definition refs_exact (s : S) : Prop :=
  forall k p, packs s !! k = Some p -> pk_reference_count p = live_count (manifests s) k.1 k.2.

(** ** Lemmas: slots and packs *)

Lemma as_i64_small z : (0 <= z <= I64_MAX)%Z -> as_i64 z = z.
Proof.
  unfold as_i64, I64_MAX. intros. rewrite Z.mod_small by lia.
  destruct (Z.ltb_spec z (2 ^ 63)); lia.
Qed.

(** The length field of a slot is eight bytes. *)
Lemma extract_slot_bounds bs off len x :
  extract_slot bs off len = Ok x -> (zlen (x_bytes x) <= U64_MAX)%Z /\ (off + len <= zlen bs)%Z.
Proof.
  unfold extract_slot. intros H. inv_ok H. injection H as <-. cbn [x_bytes].
  split.
  - match goal with
    | Hl : negb (zlen ?d =? from_le_bytes ?f)%Z = false |- (zlen ?d <= _)%Z =>
        apply negb_false_iff, Z.eqb_eq in Hl; rewrite Hl; unfold from_le_bytes;
        pose proof (coqutil.Word.LittleEndianList.le_combine_bound f) as Hb;
        assert (length f <= 8) by (unfold slice; rewrite length_take; lia)
    end.
    unfold U64_MAX. apply Z.lt_succ_r. rewrite Z.sub_1_r, Z.succ_pred.
    eapply Z.lt_le_trans; [apply Hb|]. apply Z.pow_le_mono_r; lia.
  - unfold checked_add in Hx. destruct (off + len <=? U64_MAX)%Z; [|done]. injection Hx as <-. lia.
Qed.

Lemma fetch_all_spec `{!PackBlobLaws B} b keys acc f :
  fetch_all b keys acc = Ok f -> acc ⊆ blobs b ->
  acc ⊆ f /\ f ⊆ blobs b /\ forall k, k ∈ keys -> f !! k = blobs b !! k.
Proof.
  revert acc f; induction keys as [|key keys IH]; intros acc f; cbn.
  { intros [= <-] Ha. split_and!; [done..|]. intros k Hk. by apply not_elem_of_nil in Hk. }
  destruct (fetch_pack_bytes b key) as [[bs|]|] eqn:E; [..|done]; apply fetched in E; intros H Ha.
  - destruct (IH _ _ H) as (Hacc & Hs & Hk); [by apply insert_subseteq_l|].
    assert (acc ⊆ f) as Haf.
    { etrans; [|exact Hacc]. intros k. destruct (decide (k = key)) as [->|Hne].
      - rewrite lookup_insert_eq. destruct (acc !! key) as [v|] eqn:Ev; [|done]. cbn.
        pose proof (lookup_weaken _ _ _ _ Ev Ha). congruence.
      - rewrite lookup_insert_ne by done. by destruct (acc !! k). }
    split_and!; [done..|]. intros k [->|Hk']%elem_of_cons; [|by apply Hk].
    rewrite <- E. eapply lookup_weaken; [apply lookup_insert_eq|done].
  - destruct (IH _ _ H Ha) as (Hacc & Hs & Hk). split_and!; [done..|].
    intros k [->|Hk']%elem_of_cons; [|by apply Hk]. rewrite <- E.
    destruct (f !! key) as [v|] eqn:Ev; [|done]. pose proof (lookup_weaken _ _ _ _ Ev Hs). congruence.
Qed.

Definition stored_in (m : gmap string bytes) (r : VfsFileManifestRecord) : bool :=
  match m !! pack_of (mr_manifest r) with Some _ => true | None => false end.

(** The slots gathered are those of the records whose pack was fetched, in order. *)
Lemma gather_slots_spec fetched_ missing acc rs missing' out :
  gather_slots fetched_ missing acc rs = Ok (missing', out) ->
  exists new, out = acc ++ new
    /\ new.*1 = List.filter (stored_in fetched_) rs
    /\ forall r body, (r, body) ∈ new -> reads fetched_ (mr_manifest r) body /\ (zlen body <= U64_MAX)%Z.
Proof.
  revert missing acc; induction rs as [|r rs IH]; intros missing acc; cbn.
  { intros [= <- <-]. exists []. rewrite app_nil_r. split_and!; [done..|]. intros. set_solver. }
  unfold stored_in at 1, pack_of at 1. destruct (fetched_ !! ref_pack_key (fm_pack_slot (mr_manifest r))) as [bs|] eqn:E.
  - destruct (extract_slot bs _ _) as [x|] eqn:Ex; [|done]. intros H.
    destruct (IH _ _ H) as (new & -> & Hn & Hr). exists ((r, x_bytes x) :: new).
    rewrite <- app_assoc. split_and!; [done|by cbn; rewrite Hn|].
    intros r' body [[= -> ->]|Hin]%elem_of_cons; [|by apply Hr].
    split; [by exists bs, x|]. by apply extract_slot_bounds in Ex as [? _].
  - intros H. destruct (IH _ _ H) as (new & -> & Hn & Hr). by exists new.
Qed.

Context {DL : PackDepsLaws D}.

(** A slot of the merged pack, at the coordinates the repoint stores, reads the
    bytes it was built from. *)
Lemma coalesced_slot inputs built i path body :
  build_coalesced_pack inputs = Ok built -> inputs !! i = Some (path, body) -> (zlen body <= U64_MAX)%Z ->
  exists slot x, slots built !! i = Some slot
    /\ extract_slot (pack_bytes built) (as_u64 (as_i64 (pack_slot_offset slot)))
         (as_u64 (as_i64 (pack_slot_length slot))) = Ok x /\ x_bytes x = body.
Proof.
  unfold build_coalesced_pack. intros Hb Hi Hl.
  destruct (build_pack _) as [p|] eqn:E; [|done].
  destruct (Z.leb_spec (total_bytes p) I64_MAX) as [Ht|]; [|done]. injection Hb as <-.
  destruct (build_pack_slot _ _ i path body Zstd E (i64_u64 _ Ht)) as (slot & Hs & _ & Hx);
    [by rewrite list_lookup_fmap, Hi | done |].
  destruct (slot_nonneg _ _ _ _ E Hs) as [H0 H1].
  destruct (extract_slot_bounds _ _ _ _ Hx) as [_ Hend]. unfold total_bytes in Ht.
  exists slot. eexists. split_and!; [done| |].
  - rewrite !as_i64_small, !as_u64_i64_small by lia. exact Hx.
  - done.
Qed.

Lemma coalesced_slots_length inputs built :
  build_coalesced_pack inputs = Ok built -> length (slots built) = length inputs.
Proof.
  unfold build_coalesced_pack. destruct (build_pack _) as [p|] eqn:E; [|done].
  destruct (total_bytes p <=? I64_MAX)%Z; [|done]. intros [= <-].
  destruct (build_pack_shape _ _ E) as (imgs & Hl & _).
  destruct (laid_out_length _ _ _ _ Hl) as [-> _]. by rewrite length_fmap.
Qed.

(** ** Lemmas: the cases of a coalescing pass *)

Context {IL : PackIndexLaws S} {WL : PackBlobLaws B}.

(** The slots a pass merges are slots of the scope's manifests, each read from
    the store. *)
Definition good_slots (scope : VfsIndexScope) (s : S) (b : B)
    (slots_ : list (VfsFileManifestRecord * bytes)) : Prop :=
  NoDup ((fun x => mr_id x.1) <$> slots_) /\
  forall r body, (r, body) ∈ slots_ ->
    manifests s !! (scope, mr_id r) = Some (mr_manifest r)
    /\ reads (blobs b) (mr_manifest r) body /\ (zlen body <= U64_MAX)%Z.

Lemma reads_weaken m m' fm body : m ⊆ m' -> reads m fm body -> reads m' fm body.
Proof. intros Hm (bs & x & Hb & Hx). exists bs, x. split; [by eapply lookup_weaken|done]. Qed.

Lemma coalesce_cases cfg scope s b r s' b' :
  coalesce_scope_batch cfg scope s b = (r, (s', b')) ->
  (s' = s /\ b' = b) \/
  exists keys missing slots_, good_slots scope s b slots_
    /\ (forall id fm, manifests s !! (scope, id) = Some fm -> pack_of fm ∈ keys ->
         is_Some (blobs b !! pack_of fm) -> exists x, x ∈ slots_ /\ mr_id x.1 = id)
    /\ merge_slots scope keys missing slots_ s b = (r, (s', b')).
Proof.
  unfold coalesce_scope_batch. intros H.
  destruct (list_small_packs_for_scope _ _ _ _ _) as [small|]; [|left; by simplify_eq].
  destruct (_ <? min_small_packs cfg)%Z; [left; by simplify_eq|].
  set (keys := pk_pack_key <$> truncated cfg small) in *.
  destruct (list_file_manifest_records_by_pack_keys _ _ _) as [[|r0 rs]|] eqn:El;
    [left; by simplify_eq | | left; by simplify_eq].
  destruct (manifests_listed _ _ _ _ El) as (Hnd & Hin & Hall). set (all := r0 :: rs) in *.
  destruct (fetch_all _ _ _) as [f|] eqn:Ef; [|left; by simplify_eq].
  destruct (fetch_all_spec _ _ _ _ Ef) as (_ & Hsub & Hfk); [apply map_empty_subseteq|].
  destruct (gather_slots _ _ _ _) as [[missing slots_]|] eqn:Eg; [|left; by simplify_eq].
  destruct (gather_slots_spec _ _ _ _ _ _ Eg) as (new & Hnew & Hfst & Hgood). cbn in Hnew. subst new.
  destruct slots_ as [|x0 xs]; [left; by simplify_eq|]. right.
  set (slots_ := x0 :: xs) in *. exists keys, missing, slots_. split_and!; [split| |exact H].
  - change (NoDup (mr_id ∘ fst <$> slots_)). rewrite list_fmap_compose, Hfst. clear -Hnd. revert Hnd.
    generalize all as l. intros l. induction l as [|r l IH]; cbn; [done|]. intros [Hr Hl]%NoDup_cons.
    destruct (stored_in f r); cbn; [|by apply IH]. apply NoDup_cons. split; [|by apply IH].
    intros (y & E & Hy)%list_elem_of_fmap. apply elem_of_List_filter in Hy as [Hy _].
    apply Hr. rewrite E. by apply list_elem_of_fmap_2.
  - intros r' body Hb. destruct (Hgood _ _ Hb) as [Hr Hz].
    assert (r' ∈ slots_.*1) as Hf by (by apply list_elem_of_fmap_2' with (r', body)).
    rewrite Hfst in Hf. apply elem_of_List_filter in Hf as [Hf _].
    destruct (Hin _ Hf) as [? _]. split_and!; [done| |done]. by eapply reads_weaken.
  - intros id fm Hm Hk Hb. destruct (Hall _ _ Hm Hk) as (r' & Hr & <- & <-).
    assert (r' ∈ slots_.*1) as Hf.
    { rewrite Hfst. apply elem_of_List_filter. split; [done|]. unfold stored_in.
      rewrite Hfk by (rewrite elem_of_sorted_strings; by apply elem_of_list_to_set).
      by destruct Hb as [? ->]. }
    apply list_elem_of_fmap in Hf as (x & -> & Hx). eauto.
Qed.

Definition repoints_of (key : string) (slots_ : list (VfsFileManifestRecord * bytes)) (built : BuiltPack)
  : list VfsManifestRepoint := repoint_of key <$> zip slots_ (slots built).

Definition paths_and_bytes (slots_ : list (VfsFileManifestRecord * bytes)) : list (string * bytes) :=
  (fun x => (fm_logical_path (mr_manifest x.1), x.2)) <$> slots_.

Lemma repoints_of_ids key slots_ built :
  length (slots built) = length slots_ ->
  rp_manifest_id <$> repoints_of key slots_ built = (fun x => mr_id x.1) <$> slots_.
Proof.
  unfold repoints_of. intros Hl. rewrite <- list_fmap_compose.
  transitivity ((fun x : VfsFileManifestRecord * bytes => mr_id x.1) <$> (zip slots_ (slots built)).*1).
  - rewrite <- list_fmap_compose. apply list_fmap_ext. by intros ? [[? ?] ?] _.
  - rewrite fst_zip by lia. done.
Qed.

Definition merged_pack (key : string) (keys : list string) (n : Z) (built : BuiltPack) : VfsPackRecord :=
  MkPackRecord key n n (as_i64 (zlen (pack_bytes built))) (Some keys).

(** A merge changes nothing but the new object, or is applied whole. *)
Lemma merge_cases scope keys missing slots_ s b r s' b' :
  let key := build_pack_key b scope in
  blobs b !! key = None -> NoDup ((fun x => mr_id x.1) <$> slots_) ->
  merge_slots scope keys missing slots_ s b = (r, (s', b')) ->
  (manifests s' = manifests s /\ packs s' = packs s /\ (exists e, r = Err e)
   /\ (blobs b' = blobs b \/ exists bs, blobs b' = <[key := bs]> (blobs b)))
  \/ exists built, build_coalesced_pack (paths_and_bytes slots_) = Ok built
     /\ blobs b' = <[key := pack_bytes built]> (blobs b)
     /\ packs s !! (scope, key) = None /\ (zlen slots_ <= I32_MAX)%Z
     /\ manifests s' = repoint_all scope (repoints_of key slots_ built) (manifests s)
     /\ packs s' = decrement_all scope (map_to_list (refcount_decrements slots_))
          (<[(scope, key) := merged_pack key keys (zlen slots_) built]> (packs s)).
Proof.
  cbn zeta. intros Hk Hnd H. unfold merge_slots in H. fold (paths_and_bytes slots_) in H.
  destruct (build_coalesced_pack _) as [built|e] eqn:Eb; [|left; simplify_eq; by eauto 10].
  pose proof (put_effect b (build_pack_key b scope) (pack_bytes built) Hk) as Hput.
  destruct (put_pack_bytes _ _ _) as [[[]|e] b1]; cbn in Hput;
    [|left; simplify_eq; destruct Hput as [Hp|Hp]; rewrite Hp; eauto 10].
  destruct (Z.ltb_spec I32_MAX (zlen slots_)) as [Hbig|Hsmall]; [left; simplify_eq; by eauto 10|].
  fold (repoints_of (build_pack_key b scope) slots_ built) in H.
  pose proof (coalesced_slots_length _ _ Eb) as Hlen. unfold paths_and_bytes in Hlen. rewrite length_fmap in Hlen.
  destruct (compaction_applied s scope (merged_pack (build_pack_key b scope) keys (zlen slots_) built)
    (repoints_of (build_pack_key b scope) slots_ built) (map_to_list (refcount_decrements slots_))) as [Hdup Hset];
    [by rewrite repoints_of_ids | apply NoDup_fst_map_to_list |].
  unfold merged_pack in Hdup, Hset.
  destruct (apply_pack_compaction _ _ _ _ _) as [res s1]. cbn in Hdup, Hset.
  assert (b' = b1 /\ s' = s1 /\ ((exists e, res = Err e) -> exists e, r = Err e)) as (-> & -> & Herr).
  { destruct res; simplify_eq; split_and!; try done; [by intros [? ?] | eauto]. }
  destruct (packs s !! (scope, build_pack_key b scope)) eqn:Ek.
  - destruct Hdup as (e & -> & Hm & Hp); [done|]. left. rewrite Hput. eauto 10.
  - destruct res as [[]|e]; cbn in Hset; [|destruct Hset as [Hset|Hset]]; injection Hset as Hm Hp.
    + right. exists built. by split_and!.
    + left. rewrite Hput. eauto 10.
    + right. exists built. by split_and!.
Qed.

(** The row a repointed record becomes reads the bytes of the record's slot. *)
Lemma repointed_reads scope s b slots_ built key r body :
  good_slots scope s b slots_ -> build_coalesced_pack (paths_and_bytes slots_) = Ok built ->
  (r, body) ∈ slots_ ->
  exists rp, rp ∈ repoints_of key slots_ built /\ rp_manifest_id rp = mr_id r
    /\ reads (<[key := pack_bytes built]> (blobs b)) (repoint rp (mr_manifest r)) body.
Proof.
  intros [_ Hg] Hb Hin. destruct (Hg _ _ Hin) as (_ & _ & Hz).
  apply list_elem_of_lookup in Hin as [i Hi].
  destruct (coalesced_slot _ _ i (fm_logical_path (mr_manifest r)) body Hb) as (slot & x & Hs & Hx & Hbody);
    [by unfold paths_and_bytes; rewrite list_lookup_fmap, Hi | done |].
  exists (repoint_of key (r, body, slot)). split_and!; [|done|].
  - unfold repoints_of. apply list_elem_of_fmap_2. apply list_elem_of_lookup. exists i.
    apply lookup_zip_Some. done.
  - exists (pack_bytes built), x. split_and!; [apply lookup_insert_eq | exact Hx | done].
Qed.

Lemma same_file_refl fm : same_file fm fm.
Proof. done. Qed.

Lemma reads_inj m fm body body' : reads m fm body -> reads m fm body' -> body = body'.
Proof. intros (bs & x & Hb & Hx & <-) (bs' & x' & Hb' & Hx' & <-). congruence. Qed.

(** The rows of an applied merge. *)
Lemma repointed_row scope s b slots_ built key k :
  good_slots scope s b slots_ -> build_coalesced_pack (paths_and_bytes slots_) = Ok built ->
  (k ∉ ((fun x => (scope, mr_id x.1)) <$> slots_) /\
   repoint_all scope (repoints_of key slots_ built) (manifests s) !! k = manifests s !! k)
  \/ exists r body fm', (r, body) ∈ slots_ /\ k = (scope, mr_id r)
      /\ manifests s !! k = Some (mr_manifest r)
      /\ repoint_all scope (repoints_of key slots_ built) (manifests s) !! k = Some fm'
      /\ same_file (mr_manifest r) fm' /\ pack_of fm' = key
      /\ reads (blobs b) (mr_manifest r) body
      /\ reads (<[key := pack_bytes built]> (blobs b)) fm' body.
Proof.
  intros Hg Hb. pose proof (coalesced_slots_length _ _ Hb) as Hlen.
  unfold paths_and_bytes in Hlen. rewrite length_fmap in Hlen.
  destruct (decide (k ∈ (fun x => (scope, mr_id x.1)) <$> slots_)) as [Hk|Hk].
  - right. apply list_elem_of_fmap in Hk as ([r body] & -> & Hin). cbn.
    destruct (proj2 Hg _ _ Hin) as (Hm & Hr & _).
    destruct (repointed_reads _ _ _ _ _ key _ _ Hg Hb Hin) as (rp & Hrp & Hid & Hnew).
    exists r, body, (repoint rp (mr_manifest r)).
    assert (NoDup (rp_manifest_id <$> repoints_of key slots_ built)) as Hnd
      by (rewrite repoints_of_ids by done; apply Hg).
    pose proof (lookup_repoint_all scope _ (manifests s) _ Hnd Hrp) as Hlk. rewrite Hid, Hm in Hlk.
    rewrite Hm, Hlk. split_and!; try done.
    apply list_elem_of_fmap in Hrp as ([[? ?] ?] & -> & _). done.
  - left. split; [done|]. apply lookup_repoint_all_other. intros rp Hrp <-. apply Hk.
    assert (rp_manifest_id rp ∈ (fun x => mr_id x.1) <$> slots_) as Hid
      by (rewrite <- (repoints_of_ids key _ _ Hlen); by apply list_elem_of_fmap_2).
    apply list_elem_of_fmap in Hid as (x & -> & Hx). by apply (list_elem_of_fmap_2 (fun x => (scope, mr_id x.1))).
Qed.

Lemma coalesce_keeps cfg scope s b r s' b' :
  fresh_key scope s b -> coalesce_scope_batch cfg scope s b = (r, (s', b')) -> keeps_files s b s' b'.
Proof.
  intros [Hf _] H. destruct (coalesce_cases _ _ _ _ _ _ _ H) as [[-> ->]|(keys & missing & slots_ & Hg & _ & Hm)].
  { intros k. destruct (manifests s !! k); [|done]. eauto using same_file_refl. }
  assert (forall bs fm body, reads (blobs b) fm body -> reads (<[build_pack_key b scope := bs]> (blobs b)) fm body)
    as Hmono by (intros bs fm body; apply reads_weaken; by apply insert_subseteq).
  destruct (merge_cases _ _ _ _ _ _ _ _ _ Hf (proj1 Hg) Hm)
    as [(Hms & _ & _ & Hb)|(built & Hb & Hbl & _ & _ & Hms & _)]; intros k; rewrite Hms.
  - destruct (manifests s !! k) as [fm|]; [|done]. exists fm. split_and!; [done..|].
    intros body. destruct Hb as [->|[bs ->]]; [done|apply Hmono].
  - rewrite Hbl. destruct (repointed_row _ _ _ _ _ (build_pack_key b scope) k Hg Hb)
      as [[_ ->]|(r0 & body & fm' & _ & _ & -> & -> & Hsame & _ & Hold & Hnew)].
    + destruct (manifests s !! k) as [fm|]; [|done]. eauto using same_file_refl.
    + exists fm'. split_and!; [done..|]. intros body' Hb'. by rewrite (reads_inj _ _ _ _ Hb' Hold).
Qed.

(** ** Lemmas: reference counts *)

Fixpoint occurrences (key : string) (rs : list VfsFileManifestRecord) : Z :=
  match rs with
  | [] => 0
  | r :: rs => ((if decide (pack_of (mr_manifest r) = key) then 1 else 0) + occurrences key rs)%Z
  end.

Lemma occurrences_nonneg key rs : (0 <= occurrences key rs)%Z.
Proof. induction rs; cbn; [lia|]. case_decide; lia. Qed.

Lemma refcount_decrements_spec slots_ key :
  default 0%Z (refcount_decrements slots_ !! key) = occurrences key slots_.*1.
Proof.
  unfold refcount_decrements.
  enough (forall m, default 0%Z (foldl (fun m x => count_key m (pack_of (mr_manifest x.1))) m slots_ !! key)
    = (default 0 (m !! key) + occurrences key slots_.*1)%Z) as E by (rewrite E; by rewrite lookup_empty).
  induction slots_ as [|x slots_ IH]; intros m; cbn; [lia|]. rewrite IH. unfold count_key.
  case_decide as E; [rewrite E, lookup_insert_eq | rewrite lookup_insert_ne by done]; cbn; lia.
Qed.

(** Moving rows to the new pack moves their references. *)
Lemma live_count_repoint_all (scope : VfsIndexScope) (key : string)
    (l : list (VfsFileManifestRecord * VfsManifestRepoint)) (m : ManifestTable) (sc : VfsIndexScope) (k : string) :
  NoDup ((fun x => mr_id x.1) <$> l) ->
  (forall x, x ∈ l -> rp_manifest_id x.2 = mr_id x.1 /\ rp_new_pack_key x.2 = key
     /\ m !! (scope, mr_id x.1) = Some (mr_manifest x.1)) ->
  live_count (repoint_all scope l.*2 m) sc k
  = (live_count m sc k - (if decide (sc = scope) then occurrences k l.*1 else 0)
     + (if decide (sc = scope /\ k = key) then zlen l else 0))%Z.
Proof.
  revert m; induction l as [|[r rp] l IH]; intros m Hn Hl.
  { change (repoint_all scope (@nil (VfsFileManifestRecord * VfsManifestRepoint)).*2 m) with m.
    unfold zlen. repeat case_decide; cbn -[live_count]; lia. }
  rewrite fmap_cons in Hn. apply NoDup_cons in Hn as [Hni Hn]. cbn in Hni.
  destruct (Hl (r, rp)) as (Hid & Hkey & Hm); [set_solver|]. cbn in Hid, Hkey, Hm.
  change (repoint_all scope ((r, rp) :: l).*2 m)
    with (repoint_all scope l.*2 (alter (repoint rp) (scope, rp_manifest_id rp) m)).
  rewrite Hid, (alter_as_insert _ _ _ (mr_manifest r)) by done. rewrite IH; [|done|].
  - rewrite (live_count_alter _ _ (mr_manifest r)) by done. cbn [fst].
    assert (pack_of (repoint rp (mr_manifest r)) = key) as -> by done.
    unfold zlen. cbn [length fmap list_fmap fst occurrences].
    repeat case_decide; naive_solver lia.
  - intros x Hx. destruct (Hl x) as (? & ? & ?); [set_solver|]. split_and!; [done..|].
    rewrite lookup_insert_ne; [done|]. intros [= E]. apply Hni. rewrite E.
    by apply (list_elem_of_fmap_2 (fun x => mr_id x.1)).
Qed.

Lemma live_count_merged scope s b slots_ built key sc k :
  good_slots scope s b slots_ -> build_coalesced_pack (paths_and_bytes slots_) = Ok built ->
  live_count (repoint_all scope (repoints_of key slots_ built) (manifests s)) sc k
  = (live_count (manifests s) sc k - (if decide (sc = scope) then occurrences k slots_.*1 else 0)
     + (if decide (sc = scope /\ k = key) then zlen slots_ else 0))%Z.
Proof.
  intros Hg Hb. pose proof (coalesced_slots_length _ _ Hb) as Hlen.
  unfold paths_and_bytes in Hlen. rewrite length_fmap in Hlen.
  set (rps := repoints_of key slots_ built).
  assert (length rps = length slots_) as Hl'
    by (unfold rps, repoints_of; rewrite length_fmap, length_zip; lia).
  assert ((zip slots_.*1 rps).*2 = rps) as E2 by (apply snd_zip; rewrite length_fmap; lia).
  assert ((zip slots_.*1 rps).*1 = slots_.*1) as E1 by (apply fst_zip; rewrite length_fmap; lia).
  rewrite <- E2, (live_count_repoint_all scope key).
  - rewrite E1. unfold zlen. rewrite length_zip, length_fmap. by replace (length slots_ `min` length rps) with (length slots_) by lia.
  - change (NoDup (mr_id ∘ fst <$> zip slots_.*1 rps)). rewrite list_fmap_compose, E1, <- list_fmap_compose. apply Hg.
  - intros [r rp] Hx. apply list_elem_of_lookup in Hx as [i Hi]. apply lookup_zip_Some in Hi as [H1 H2].
    unfold rps, repoints_of in H2. rewrite list_lookup_fmap in H1. rewrite list_lookup_fmap in H2.
    destruct (slots_ !! i) as [[r' body]|] eqn:Es; [|done]. injection H1 as ->.
    destruct (zip slots_ (slots built) !! i) as [[[r'' body''] slot]|] eqn:Ez; [|done]. injection H2 as <-.
    apply lookup_zip_Some in Ez as [Ez _]. rewrite Es in Ez. injection Ez as <- <-.
    split_and!; [done..|]. apply (proj2 Hg _ body). by eapply list_elem_of_lookup_2.
Qed.

Lemma occurrences_absent scope s b slots_ key :
  good_slots scope s b slots_ ->
  (forall id fm, manifests s !! (scope, id) = Some fm -> pack_of fm <> key) ->
  occurrences key slots_.*1 = 0%Z.
Proof.
  intros [_ Hg] Hk. assert (forall r, r ∈ slots_.*1 -> pack_of (mr_manifest r) <> key) as Hr.
  { intros r Hr. apply list_elem_of_fmap in Hr as ([r' body] & -> & Hx).
    destruct (Hg _ _ Hx) as [Hm _]. by eapply Hk. }
  clear Hg Hk. induction slots_.*1 as [|r rs IH]; [done|]. cbn.
  rewrite decide_False by (apply Hr; set_solver). rewrite IH; [done|]. intros; apply Hr; set_solver.
Qed.

Lemma fresh_unreferenced scope s b k fm :
  index_wf s -> fresh_key scope s b -> manifests s !! k = Some fm -> pack_of fm <> build_pack_key b scope.
Proof.
  intros Hwf [_ Hf] Hm E. destruct (wf_fk _ Hwf _ _ Hm) as [p Hp]. rewrite E, Hf in Hp. done.
Qed.

Lemma fresh_live_count scope s b sc :
  index_wf s -> fresh_key scope s b -> live_count (manifests s) sc (build_pack_key b scope) = 0%Z.
Proof.
  intros Hwf Hf. apply live_count_none. intros. by eapply fresh_unreferenced.
Qed.

(** An applied merge keeps the index well formed and its counts exact. *)
Lemma merged_index scope s b s' slots_ built keys :
  let key := build_pack_key b scope in
  index_wf s -> fresh_key scope s b -> good_slots scope s b slots_ ->
  build_coalesced_pack (paths_and_bytes slots_) = Ok built -> (zlen slots_ <= I32_MAX)%Z ->
  manifests s' = repoint_all scope (repoints_of key slots_ built) (manifests s) ->
  packs s' = decrement_all scope (map_to_list (refcount_decrements slots_))
     (<[(scope, key) := merged_pack key keys (zlen slots_) built]> (packs s)) ->
  index_wf s' /\ (refs_exact s -> refs_exact s').
Proof.
  cbn zeta. set (key := build_pack_key b scope). intros Hwf Hf Hg Hb Hn Hm Hp.
  assert (forall sc k, packs s' !! (sc, k)
    = bump (- if decide (sc = scope) then occurrences k slots_.*1 else 0%Z)
      <$> (<[(scope, key) := merged_pack key keys (zlen slots_) built]> (packs s)) !! (sc, k)) as Hrow
    by (intros; by rewrite Hp, lookup_decrement_map, refcount_decrements_spec).
  assert (forall sc k, live_count (manifests s') sc k
    = (live_count (manifests s) sc k - (if decide (sc = scope) then occurrences k slots_.*1 else 0)
     + (if decide (sc = scope /\ k = key) then zlen slots_ else 0))%Z) as Hlive
    by (intros; rewrite Hm; by eapply live_count_merged).
  assert (occurrences key slots_.*1 = 0%Z) as Hocc
    by (eapply occurrences_absent; [done|]; intros; by eapply fresh_unreferenced).
  assert (live_count (manifests s) scope key = 0%Z) as H0 by (by apply fresh_live_count).
  split; [split|].
  - intros k fm. rewrite Hm. destruct (repointed_row _ _ _ _ _ key k Hg Hb)
      as [[_ ->]|(r & body & fm' & _ & -> & _ & -> & _ & Hkey & _)].
    + intros Hfm. rewrite Hrow. apply fmap_is_Some. destruct (wf_fk _ Hwf _ _ Hfm) as [p Hpk].
      destruct (decide ((scope, key) = (k.1, pack_of fm))) as [<-|]; [by rewrite lookup_insert_eq|].
      rewrite lookup_insert_ne by done. by rewrite Hpk.
    + intros [= <-]. cbn. rewrite Hrow, Hkey, lookup_insert_eq. done.
  - intros sc sc' k. rewrite !Hrow, !fmap_is_Some, !lookup_insert_is_Some.
    intros H1 H2. destruct H1 as [E1|[_ [p1 H1]]], H2 as [E2|[_ [p2 H2]]].
    + by simplify_eq.
    + simplify_eq. exfalso. pose proof (proj2 Hf sc'). congruence.
    + simplify_eq. exfalso. pose proof (proj2 Hf sc). congruence.
    + eapply (wf_scoped _ Hwf); eauto.
  - intros sc k. rewrite Hlive. pose proof (wf_small _ Hwf sc k). pose proof (occurrences_nonneg k slots_.*1).
    case_decide as E1; case_decide as E2; destruct_and?; subst; lia.
  - intros Hex [sc k] p. cbn [fst snd]. rewrite Hrow, Hlive. intros H.
    destruct (decide ((scope, key) = (sc, k))) as [[= <- <-]|Hne].
    + rewrite lookup_insert_eq in H. cbn in H. injection H as <-. cbn.
      rewrite !decide_True by done. lia.
    + rewrite lookup_insert_ne in H by done. destruct (packs s !! (sc, k)) as [p0|] eqn:E; [|done].
      cbn in H. injection H as <-. cbn -[live_count]. rewrite (Hex _ _ E). cbn [fst snd].
      rewrite (decide_False (P := sc = scope /\ k = key)) by (intros [-> ->]; done). lia.
Qed.

Lemma coalesce_index cfg scope s b r s' b' :
  index_wf s -> fresh_key scope s b -> coalesce_scope_batch cfg scope s b = (r, (s', b')) ->
  index_wf s' /\ (refs_exact s -> refs_exact s').
Proof.
  intros Hwf Hf H. destruct (coalesce_cases _ _ _ _ _ _ _ H) as [[-> _]|(keys & missing & slots_ & Hg & _ & Hm)]; [done|].
  destruct (merge_cases _ _ _ _ _ _ _ _ _ (proj1 Hf) (proj1 Hg) Hm)
    as [(Hms & Hps & _)|(built & Hb & _ & _ & Hn & Hms & Hps)]; [|by eapply merged_index].
  split; [|unfold refs_exact; by rewrite Hms, Hps].
  destruct Hwf as [H1 H2 H3]. split; by rewrite ?Hms, ?Hps.
Qed.

(** ** Lemmas: sweeping *)

(** [calm s b s' b']: only objects of packs without manifests went away, and
    rows of packs were neither added nor removed. *)
Record calm (s : S) (b : B) (s' : S) (b' : B) : Prop := {
  calm_manifests : manifests s' = manifests s;
  calm_rows : forall k, is_Some (packs s' !! k) <-> is_Some (packs s !! k);
  calm_blobs : forall k fm, manifests s !! k = Some fm -> blobs b' !! pack_of fm = blobs b !! pack_of fm;
  calm_exact : refs_exact s -> refs_exact s';
}.

Lemma calm_refl s b : calm s b s b.
Proof. by split. Qed.

Lemma calm_trans s b s1 b1 s2 b2 : calm s b s1 b1 -> calm s1 b1 s2 b2 -> calm s b s2 b2.
Proof.
  intros [M1 R1 B1 E1] [M2 R2 B2 E2]. split; [congruence| | |auto].
  - intros k. by rewrite R2, R1.
  - intros k fm Hm. rewrite (B2 k), (B1 k); [done..|]. by rewrite M1.
Qed.

Lemma calm_wf s b s' b' : calm s b s' b' -> index_wf s -> index_wf s'.
Proof.
  intros [M R _ _] [W1 W2 W3]. split.
  - intros k fm. rewrite M, R. apply W1.
  - intros sc sc' key. rewrite !R. apply W2.
  - by rewrite M.
Qed.

Lemma calm_keeps s b s' b' : calm s b s' b' -> keeps_files s b s' b'.
Proof.
  intros [M _ Hb _] k. rewrite M. destruct (manifests s !! k) as [fm|] eqn:E; [|done].
  exists fm. split_and!; [done..|]. intros body (bs & x & H1 & H2). exists bs, x.
  by rewrite (Hb k fm) by done.
Qed.

(** Recounting a pack row leaves an exact index exact. *)
Lemma recount_exact s scope key :
  index_wf s -> refs_exact s -> refs_exact (recount_pack_reference_count s scope key).2.
Proof.
  intros Hwf Hex k p. rewrite recount_keeps_manifests.
  destruct (recount_counts s scope key) as [_ Hset]. destruct (recount_pack_reference_count s scope key) as [r s'].
  cbn in Hset |- *. rewrite as_i32_small in Hset by (split; [apply live_count_nonneg | apply Hwf]).
  assert (packs s' = packs s \/ packs s' = alter (set_refs (live_count (manifests s) scope key)) (scope, key) (packs s))
    as [-> | ->] by (destruct r; cbn in Hset; tauto); [apply Hex|].
  destruct (decide ((scope, key) = k)) as [<-|Hne]; [|rewrite lookup_alter_ne by done; apply Hex].
  rewrite lookup_alter_eq. destruct (packs s !! (scope, key)); cbn; [|done]. by intros [= <-].
Qed.

Lemma recount_rows s scope key k :
  is_Some (packs (recount_pack_reference_count s scope key).2 !! k) <-> is_Some (packs s !! k).
Proof.
  destruct (recount_counts s scope key) as [_ Hset]. destruct (recount_pack_reference_count s scope key) as [r s'].
  cbn in Hset |- *. set (f := set_refs _) in Hset.
  assert (packs s' = packs s \/ packs s' = alter f (scope, key) (packs s))
    as [-> | ->] by (destruct r; cbn in Hset; tauto); [done|].
  apply lookup_alter_is_Some.
Qed.

Lemma sweep_one_calm pack s b r s' b' :
  let key := pk_pack_key (ps_pack pack) in
  index_wf s -> is_Some (packs s !! (ps_scope pack, key)) -> sweep_one pack s b = (r, (s', b')) ->
  calm s b s' b' /\ (r = Ok true -> live_count (manifests s) (ps_scope pack) key = 0%Z).
Proof.
  cbn zeta. intros Hwf Hrow H. unfold sweep_one in H.
  pose proof (recount_keeps_manifests s (ps_scope pack) (pk_pack_key (ps_pack pack))) as Hm.
  pose proof (recount_rows s (ps_scope pack) (pk_pack_key (ps_pack pack))) as Hr.
  pose proof (recount_exact s (ps_scope pack) (pk_pack_key (ps_pack pack)) Hwf) as He.
  destruct (recount_counts s (ps_scope pack) (pk_pack_key (ps_pack pack))) as [Hn _].
  destruct (recount_pack_reference_count _ _ _) as [[live|e] s1]; cbn in Hm, Hr, He, Hn;
    [|simplify_eq; split; [by split|done]].
  specialize (Hn _ eq_refl). rewrite as_i32_small in Hn by (split; [apply live_count_nonneg | apply Hwf]).
  destruct (Z.ltb_spec 0 live); [simplify_eq; split; [by split|done]|].
  assert (live_count (manifests s) (ps_scope pack) (pk_pack_key (ps_pack pack)) = 0%Z) as Hz
    by (pose proof (live_count_nonneg (manifests s) (ps_scope pack) (pk_pack_key (ps_pack pack))); lia).
  assert (s' = s1 /\ b' = (delete_pack b (pk_pack_key (ps_pack pack))).2) as [-> ->]
    by (destruct (delete_pack _ _) as [[] ?]; by simplify_eq).
  split; [|done]. split; [done..| |done]. intros k fm Hk.
  assert (pack_of fm <> pk_pack_key (ps_pack pack)) as Hne.
  { intros E. pose proof (wf_fk _ Hwf _ _ Hk) as Hfk. rewrite E in Hfk.
    pose proof (wf_scoped _ Hwf _ _ _ Hfk Hrow) as Hsc.
    eapply (live_count_zero _ _ _ Hz k.2); [|exact E]. rewrite <- Hsc. by destruct k. }
  pose proof (delete_effect b (pk_pack_key (ps_pack pack))) as Hd.
  destruct (delete_pack _ _) as [r0 b1]. cbn in Hd |- *.
  assert (blobs b1 = blobs b \/ blobs b1 = delete (pk_pack_key (ps_pack pack)) (blobs b))
    as [-> | ->] by (destruct r0; cbn in Hd; tauto); [done|]. by rewrite lookup_delete_ne.
Qed.

Lemma sweep_all_calm ps s b rs s' b' :
  index_wf s ->
  (forall p, p ∈ ps -> is_Some (packs s !! (ps_scope p, pk_pack_key (ps_pack p)))) ->
  sweep_all ps s b = (rs, (s', b')) ->
  calm s b s' b' /\ forall k, k ∈ deletable rs -> live_count (manifests s) k.1 k.2 = 0%Z.
Proof.
  revert s b rs; induction ps as [|p ps IH]; intros s b rs Hwf Hrows H; cbn in H.
  { simplify_eq. split; [apply calm_refl|]. intros k Hk. by apply not_elem_of_nil in Hk. }
  destruct (sweep_one p s b) as [r [s1 b1]] eqn:E1.
  destruct (sweep_all ps s1 b1) as [rs1 [s2 b2]] eqn:E2. simplify_eq.
  destruct (sweep_one_calm _ _ _ _ _ _ Hwf (Hrows p ltac:(set_solver)) E1) as [Hc H0].
  destruct (IH s1 b1 rs1) as [Hc' Hdel]; [by eapply calm_wf| |done|].
  { intros q Hq. apply (calm_rows _ _ _ _ Hc). apply Hrows. set_solver. }
  split; [by eapply calm_trans|]. intros k Hk. unfold deletable in Hk. cbn in Hk.
  rewrite <- (calm_manifests _ _ _ _ Hc).
  destruct r as [[]|]; cbn in Hk; [|by apply Hdel..].
  apply elem_of_cons in Hk as [->|Hk]; [|by apply Hdel]. cbn.
  rewrite (calm_manifests _ _ _ _ Hc). by apply H0.
Qed.

Lemma drift_calm s b : calm s b (correct_pack_refcount_drift s).2 b.
Proof.
  assert (packs (correct_pack_refcount_drift s).2 = packs s
    \/ packs (correct_pack_refcount_drift s).2 = correct_all (manifests s) (packs s)) as H.
  { pose proof (drift_corrected s) as H. destruct (correct_pack_refcount_drift s) as [[] ?]; cbn in H |- *; tauto. }
  split; [apply drift_keeps_manifests| |done|].
  - intros k. destruct H as [-> | ->]; [done|]. rewrite lookup_correct_all. apply fmap_is_Some.
  - intros Hex k p. rewrite drift_keeps_manifests. destruct H as [-> | ->]; [apply Hex|].
    rewrite lookup_correct_all. destruct (packs s !! k); cbn; [|done]. by intros [= <-].
Qed.

(** Removing rows of packs without manifests. *)
Lemma delete_rows s ks :
  index_wf s -> (forall k, k ∈ ks -> live_count (manifests s) k.1 k.2 = 0%Z) ->
  index_wf (delete_pack_records s ks).2 /\ (refs_exact s -> refs_exact (delete_pack_records s ks).2).
Proof.
  intros Hwf H0.
  assert (packs (delete_pack_records s ks).2 = packs s
    \/ packs (delete_pack_records s ks).2 = remove_rows ks (packs s)) as H.
  { pose proof (records_deleted s ks) as H. destruct (delete_pack_records s ks) as [[] ?]; cbn in H |- *; tauto. }
  pose proof (delete_keeps_manifests s ks) as Hm. set (s' := (delete_pack_records s ks).2) in *.
  assert (forall k p, packs s' !! k = Some p -> packs s !! k = Some p) as Hsub.
  { intros k p. destruct H as [-> | ->]; [done|]. rewrite lookup_remove_rows. by case_decide. }
  destruct Hwf as [W1 W2 W3]. split; [split|].
  - intros k fm. rewrite Hm. intros Hk. destruct (W1 _ _ Hk) as [p Hp].
    destruct H as [-> | ->]; [eauto|]. rewrite lookup_remove_rows, decide_False; [eauto|].
    intros Hin. pose proof (H0 _ Hin) as Hz. cbn in Hz.
    eapply (live_count_zero _ _ _ Hz k.2); [|done]. by destruct k.
  - intros sc sc' key [p Hp] [p' Hp']. eapply W2; eauto.
  - by rewrite Hm.
  - intros Hex k p Hp. rewrite Hm. by apply Hex, Hsub.
Qed.

Lemma sweep_spec cfg now limit s b r s' b' :
  index_wf s -> sweep_zero_reference_packs cfg now limit s b = (r, (s', b')) ->
  index_wf s' /\ keeps_files s b s' b' /\ (refs_exact s -> refs_exact s')
  /\ ((exists st, r = Ok st) -> refs_exact s').
Proof.
  intros Hwf H. unfold sweep_zero_reference_packs in H.
  pose proof (drift_calm s b) as Hc. pose proof (drift_corrected s) as Hfix.
  destruct (correct_pack_refcount_drift s) as [[n|e] s1]; cbn in Hc, Hfix;
    [|simplify_eq; split_and!; [by eapply calm_wf|by apply calm_keeps|apply Hc|by intros [? ?]]].
  pose proof (calm_wf _ _ _ _ Hc Hwf) as Hwf1.
  assert (refs_exact s1) as Hex1.
  { intros k p. rewrite Hfix, lookup_correct_all, (calm_manifests _ _ _ _ Hc).
    destruct (packs s !! k); cbn; [|done]. by intros [= <-]. }
  destruct (list_zero_reference_packs s1 limit) as [listed|e] eqn:El;
    [|simplify_eq; split_and!; [done|by apply calm_keeps|done|by intros [? ?]]].
  set (cands := List.filter _ listed) in H.
  destruct (sweep_all cands s1 b) as [rs [s2 b2]] eqn:Es.
  assert (forall p, p ∈ cands -> is_Some (packs s1 !! (ps_scope p, pk_pack_key (ps_pack p)))) as Hc0.
  { intros p [Hp _]%elem_of_List_filter. destruct (zero_packs_listed _ _ _ El _ Hp) as [-> _]. eauto. }
  destruct (sweep_all_calm _ _ _ _ _ _ Hwf1 Hc0 Es) as [Hc2 Hdel].
  pose proof (calm_trans _ _ _ _ _ _ Hc Hc2) as Hc3.
  destruct (delete_rows s2 (deletable rs)) as [Hwf3 Hex3]; [by eapply calm_wf|by rewrite (calm_manifests _ _ _ _ Hc2)|].
  pose proof (delete_keeps_manifests s2 (deletable rs)) as Hm3.
  assert (s' = (delete_pack_records s2 (deletable rs)).2 /\ b' = b2) as [-> ->]
    by (destruct (delete_pack_records _ _) as [[] ?]; by simplify_eq).
  assert (refs_exact (delete_pack_records s2 (deletable rs)).2) as Hex by (apply Hex3, (calm_exact _ _ _ _ Hc2), Hex1).
  split_and!; [done| |done|done]. unfold keeps_files. rewrite Hm3. apply (calm_keeps _ _ _ _ Hc3).
Qed.

Lemma keeps_trans s b s1 b1 s2 b2 :
  keeps_files s b s1 b1 -> keeps_files s1 b1 s2 b2 -> keeps_files s b s2 b2.
Proof.
  intros H1 H2 k. specialize (H1 k). specialize (H2 k). destruct (manifests s !! k) as [fm|].
  - destruct H1 as (fm1 & E1 & S1 & R1). rewrite E1 in H2. destruct H2 as (fm2 & E2 & S2 & R2).
    exists fm2. split_and!; [done| |auto]. unfold same_file in *. intuition congruence.
  - by rewrite H1 in H2.
Qed.

(** ** Properties *)

(** A maintenance pass: coalescing a scope with a fresh key, or sweeping. *)
Inductive maintenance : S * B -> S * B -> Prop :=
| Coalesced cfg scope s b r s' b' :
    fresh_key scope s b -> coalesce_scope_batch cfg scope s b = (r, (s', b')) ->
    maintenance (s, b) (s', b')
| Swept cfg now limit s b r s' b' :
    sweep_zero_reference_packs cfg now limit s b = (r, (s', b')) -> maintenance (s, b) (s', b').

(** C13: maintenance never loses or changes a file: after any sequence of
    coalescing and sweeping passes, whatever calls of the index and of the
    object store fail in them and whether or not a failed call took effect,
    every manifest is still there, describes the same file and reads exactly the
    bytes it read before, and the index is still well formed. *)
Theorem maintenance_keeps_files s b s' b' :
  index_wf s -> rtc maintenance (s, b) (s', b') -> index_wf s' /\ keeps_files s b s' b'.
Proof.
  intros Hwf H. remember (s, b) as w eqn:Ew. remember (s', b') as w' eqn:Ew'.
  revert s b Hwf Ew. induction H as [w|w w1 w2 Hstep _ IH]; intros s b Hwf Ew; simplify_eq.
  { split; [done|]. apply calm_keeps, calm_refl. }
  destruct w1 as [s1 b1]. assert (index_wf s1 /\ keeps_files s b s1 b1) as [Hwf1 Hk1].
  { inversion Hstep; subst.
    - split; [by eapply coalesce_index | by eapply coalesce_keeps].
    - by edestruct sweep_spec as (? & ? & _). }
  destruct (IH eq_refl s1 b1 Hwf1 eq_refl) as [Hwf2 Hk2]. split; [done|]. by eapply keeps_trans.
Qed.

(** Reference counts stay exact: coalescing keeps exact counts exact, even
    when it fails half-way, and a sweep that succeeds makes them exact whatever
    drift there was. *)
Theorem maintenance_counts_exact cfg scope now limit s b r s' b' :
  index_wf s ->
  (fresh_key scope s b -> coalesce_scope_batch cfg scope s b = (r, (s', b')) -> refs_exact s -> refs_exact s')
  /\ (forall st, sweep_zero_reference_packs cfg now limit s b = (Ok st, (s', b')) -> refs_exact s').
Proof.
  intros Hwf. split.
  - intros Hf H. by eapply coalesce_index.
  - intros st H. destruct (sweep_spec _ _ _ _ _ _ _ _ Hwf H) as (_ & _ & _ & Hex). eauto.
Qed.

(** A successful coalescing pass drains its sources: it changes nothing, or
    it adds one pack that records the packs it merged, and no manifest of the
    scope points any more to a merged pack whose object is stored. *)
Theorem coalesce_drains_sources cfg scope s b st s' b' :
  fresh_key scope s b -> coalesce_scope_batch cfg scope s b = (Ok st, (s', b')) ->
  (s' = s /\ b' = b) \/
  exists keys bs, blobs b' = <[build_pack_key b scope := bs]> (blobs b)
    /\ (exists p, packs s' !! (scope, build_pack_key b scope) = Some p /\ pk_compacted_from p = Some keys)
    /\ forall key, key ∈ keys -> is_Some (blobs b !! key) -> live_count (manifests s') scope key = 0%Z.
Proof.
  intros Hf H. destruct (coalesce_cases _ _ _ _ _ _ _ H) as [?|(keys & missing & slots_ & Hg & Hall & Hm)]; [by left|].
  right. destruct (merge_cases _ _ _ _ _ _ _ _ _ (proj1 Hf) (proj1 Hg) Hm)
    as [(_ & _ & [e ?] & _)|(built & Hb & Hbl & _ & _ & Hms & Hps)]; [done|].
  exists keys, (pack_bytes built). split_and!; [done| |].
  - rewrite Hps, lookup_decrement_map, lookup_insert_eq. eexists. by split.
  - intros key Hkey Hst. apply live_count_none. intros id fm' Hrow Hp. rewrite Hms in Hrow.
    destruct (repointed_row _ _ _ _ _ (build_pack_key b scope) (scope, id) Hg Hb)
      as [[Hni E]|(r0 & body & fm0 & _ & _ & _ & E & _ & Hnew & _)]; rewrite E in Hrow.
    + destruct (Hall id fm' Hrow) as (x & Hx & Hid); [by rewrite Hp..|]. apply Hni. rewrite <- Hid.
      by apply (list_elem_of_fmap_2 (fun x => (scope, mr_id x.1))).
    + injection Hrow as ->. rewrite <- Hp, Hnew, (proj1 Hf) in Hst. by destruct Hst.
Qed.

End compactor.

Fixpoint sum_bytes (ps : list VfsPackRecord) : Z :=
  match ps with [] => 0 | p :: ps => (pk_total_bytes p + sum_bytes ps)%Z end.

Lemma sum_bytes_nonneg ps : Forall (fun p => (0 <= pk_total_bytes p)%Z) ps -> (0 <= sum_bytes ps)%Z.
Proof. induction 1; cbn; lia. Qed.

Lemma keep_loop_split cfg cum n small :
  (0 <= cum <= I64_MAX)%Z -> Forall (fun p => (0 <= pk_total_bytes p)%Z) small ->
  exists kept rest, small = kept ++ rest /\ keep_loop cfg cum n small = (n + zlen kept)%Z
    /\ (kept = [] \/ (n + zlen kept <= as_u64 (min_small_packs cfg))%Z
        \/ (Z.min I64_MAX (cum + sum_bytes kept) <= max_total_bytes cfg)%Z)
    /\ (forall p rest', rest = p :: rest' ->
         (as_u64 (min_small_packs cfg) <= n + zlen kept)%Z
         /\ (max_total_bytes cfg < Z.min I64_MAX (cum + sum_bytes kept + pk_total_bytes p))%Z).
Proof.
  intros Hc Hall. revert cum n Hc; induction small as [|p small IH]; intros cum n Hc.
  { exists [], []. cbn. split_and!; [done|unfold zlen; cbn; lia|by left|done]. }
  apply Forall_cons in Hall as [Hp Hall]. cbn [keep_loop].
  assert (i64_sat_add cum (pk_total_bytes p) = Z.min I64_MAX (cum + pk_total_bytes p)) as ->
    by (unfold i64_sat_add, I64_MIN, I64_MAX in *; lia).
  remember (Z.min I64_MAX (cum + pk_total_bytes p)) as next eqn:En.
  destruct (Z.leb_spec (as_u64 (min_small_packs cfg)) n), (Z.ltb_spec (max_total_bytes cfg) next); cbn [andb];
    [exists [], (p :: small); unfold zlen; cbn; split_and!; [done|lia|by left|intros ? ? [= <- _]; lia]|..].
  all: destruct (IH Hall next (n + 1)%Z) as (kept & rest & -> & -> & Hb & Hr); [unfold I64_MAX in *; lia|];
    apply Forall_app in Hall as [Hpos%sum_bytes_nonneg _];
    exists (p :: kept), rest; unfold zlen in *; cbn [length sum_bytes];
    split_and!; [done|lia| |intros q rest' Hq; destruct (Hr q rest' Hq); lia];
    right; destruct Hb as [-> |[?|?]]; cbn [length sum_bytes]; lia.
Qed.

(** What a pass selects: a prefix of the listed packs that is within the
    byte target unless it is no longer than the minimum number of packs, and
    that cannot be extended by the next listed pack. *)
Theorem coalesce_selection cfg small :
  (max_total_bytes cfg < I64_MAX)%Z -> Forall (fun p => (0 <= pk_total_bytes p)%Z) small ->
  exists rest, small = truncated cfg small ++ rest
    /\ (truncated cfg small = [] \/ (zlen (truncated cfg small) <= as_u64 (min_small_packs cfg))%Z
        \/ (sum_bytes (truncated cfg small) <= max_total_bytes cfg)%Z)
    /\ forall p rest', rest = p :: rest' ->
        (as_u64 (min_small_packs cfg) <= zlen (truncated cfg small))%Z
        /\ (max_total_bytes cfg < sum_bytes (truncated cfg small) + pk_total_bytes p)%Z.
Proof.
  intros Hm Hall. destruct (keep_loop_split cfg 0 0 small) as (kept & rest & E & Hk & Hb & Hr); [done|done|].
  assert (truncated cfg small = kept) as ->.
  { unfold truncated. rewrite Hk, E. unfold zlen. replace (Z.to_nat (0 + Z.of_nat (length kept))) with (length kept) by lia.
    apply take_app_length. }
  exists rest. split_and!; [done| |].
  - destruct Hb as [?|[?|?]]; [by left|right; left; lia|right; right; lia].
  - intros p rest' Hp. destruct (Hr p rest' Hp). lia.
Qed.
