(* ===== verification/PackStore.v ===== *)
(** * Packs in an object store

    [ObjectStorePackBlobStore] of [vfs/src/compaction.rs]: packs as objects of a
    store that keeps one value per key, written only when absent, under keys made
    of a prefix, the sanitised scope and a new UUID. A call may fail; the oracle
    [fault] says whether the effect took place. With the SQL-backed index of
    [PostgresIndex.v] this is a complete instance of pack maintenance, on which
    the properties of [Compaction.v] are exercised. *)

From S2P Require Import Prelude VfsTypes Pack ContentHash Manifest PackIndex PostgresIndex Compaction.
From Stdlib Require Import ZArith Lia.

Record ObjectStorePackBlobStore := MkObjects {
  os_objects : gmap string bytes;
  os_prefix : string;
  os_tick : nat; (* calls made so far *)
}.

Inductive ObjectOp := GetObject | PutObject | DeleteObject.

Section store.
Context (fault : nat -> ObjectOp -> option bool) (uuid : nat -> string).

Definition os_fault : VfsStorageError := Internal "object store error".

Definition os_fetch_pack_bytes (b : ObjectStorePackBlobStore) (key : string) : VfsStorageResult (option bytes) :=
  match fault (os_tick b) GetObject with Some _ => Err os_fault | None => Ok (os_objects b !! key) end.

(** A call that leaves [objects'] behind when it takes effect. *)
Definition os_write (b : ObjectStorePackBlobStore) (op : ObjectOp) (objects' : gmap string bytes)
  : VfsStorageResult unit * ObjectStorePackBlobStore :=
  let done_ := MkObjects objects' (os_prefix b) (S (os_tick b)) in
  match fault (os_tick b) op with
  | None => (Ok tt, done_)
  | Some true => (Err os_fault, done_)
  | Some false => (Err os_fault, MkObjects (os_objects b) (os_prefix b) (S (os_tick b)))
  end.

(** [if_absent]: an object that exists is left alone. *)
Definition os_put_pack_bytes (b : ObjectStorePackBlobStore) (key : string) (bs : bytes)
  : VfsStorageResult unit * ObjectStorePackBlobStore :=
  os_write b PutObject
    (match os_objects b !! key with Some _ => os_objects b | None => <[key := bs]> (os_objects b) end).

Definition os_delete_pack (b : ObjectStorePackBlobStore) (key : string)
  : VfsStorageResult unit * ObjectStorePackBlobStore :=
  os_write b DeleteObject (delete key (os_objects b)).

Definition os_build_pack_key (b : ObjectStorePackBlobStore) (scope : VfsIndexScope) : string :=
  object_pack_key (os_prefix b) scope (uuid (os_tick b)).

#[global] Instance object_store_blobs : VfsPackBlobStore ObjectStorePackBlobStore := {|
  blobs := os_objects;
  fetch_pack_bytes := os_fetch_pack_bytes;
  put_pack_bytes := os_put_pack_bytes;
  delete_pack := os_delete_pack;
  build_pack_key := os_build_pack_key;
|}.

Lemma os_write_settled b op m :
  settled (os_write b op m).1 (os_objects b) (os_objects (os_write b op m).2) m.
Proof. unfold os_write. destruct (fault _ _) as [[]|]; cbn; auto. Qed.

Lemma object_store_laws : @PackBlobLaws ObjectStorePackBlobStore object_store_blobs.
Proof.
  split; cbn [blobs fetch_pack_bytes put_pack_bytes delete_pack object_store_blobs].
  - intros b key o. unfold os_fetch_pack_bytes. destruct (fault _ _); [done|]. by intros [= <-].
  - intros b key bs Hk. unfold os_put_pack_bytes. rewrite Hk. apply os_write_settled.
  - intros b key. apply os_write_settled.
Qed.
End store.

(** ** A concrete index and store *)

Definition no_fault {A} (_ : nat) (_ : A) : option bool := None.

(** The first commit of the transaction is not acknowledged. *)
Definition lost_commit (n : nat) (op : PgOp) : option bool :=
  match n, op with O, QApply => Some true | _, _ => None end.

Definition no_manifest : VfsBuiltPackManifest :=
  MkBuiltManifest (MkBuiltPack [] []) (MkPackRecord "" 0 0 0 None) [] [].

Definition built_or_none (r : VfsStorageResult VfsBuiltPackManifest) : VfsBuiltPackManifest :=
  match r with Ok b => b | Err _ => no_manifest end.

Definition first_pack : VfsBuiltPackManifest := Eval vm_compute in
  built_or_none (@build_pack_manifest toy_deps toy_hashes Sha256 "packs/s/first.pack"
    [MkPackInput "a.md" [Byte.x61; Byte.x62] Zstd (Some 1%Z)]).

Definition second_pack : VfsBuiltPackManifest := Eval vm_compute in
  built_or_none (@build_pack_manifest toy_deps toy_hashes Sha256 "packs/s/second.pack"
    [MkPackInput "b.md" [Byte.x63] Zstd None; MkPackInput "c.md" [] Raw None]).

Definition row_of (at_ : Z) (p : VfsPackRecord) : PackRow :=
  MkPackRow (pk_total_slot_count p) (pk_reference_count p) (pk_total_bytes p) (pk_compacted_from p) at_ at_.

Definition manifests0 : ManifestTable := list_to_map
  (zip [("s", "m1"); ("s", "m2"); ("s", "m3")] (bm_file_manifests first_pack ++ bm_file_manifests second_pack)).

Definition index0 : PgState := MkPg
  (list_to_map [(("s", "packs/s/first.pack"), row_of 1 (bm_pack_record first_pack));
                (("s", "packs/s/second.pack"), row_of 2 (bm_pack_record second_pack))])
  manifests0 0.

Definition store0 : ObjectStorePackBlobStore := MkObjects
  (list_to_map [("packs/s/first.pack", pack_bytes (bm_pack first_pack));
                ("packs/s/second.pack", pack_bytes (bm_pack second_pack))]) "/packs/" 0.

Definition clock (n : nat) : Z := (10 ^ 9 * Z.of_nat (100 + n))%Z.
Definition uuids (n : nat) : string := "id" +:+ pretty n.

Section scenario.
Context (pg_fault : nat -> PgOp -> option bool).
Local Instance scenario_index : VfsPackLifecycleIndex PgState := postgres_index pg_fault clock.
Local Instance scenario_blobs : VfsPackBlobStore ObjectStorePackBlobStore := object_store_blobs no_fault uuids.
Local Instance scenario_deps : PackDeps := toy_deps.

Definition coalesced0 : VfsStorageResult VfsPackCoalesceStats * (PgState * ObjectStorePackBlobStore) :=
  coalesce_scope_batch default_compactor_config "s" index0 store0.

(** A sweep ten minutes later. *)
Definition swept0 : VfsStorageResult VfsPackSweepStats * (PgState * ObjectStorePackBlobStore) :=
  sweep_zero_reference_packs default_compactor_config (10 ^ 9 * 1000)%Z 10 coalesced0.2.1 coalesced0.2.2.
End scenario.

Example scenario_results :
  (coalesced0 no_fault).1 = Ok (MkCoalesceStats 2 3 0)
  /\ (swept0 no_fault).1 = Ok (MkSweepStats 2 0 0)
  /\ dom (os_objects (swept0 no_fault).2.2) = {["packs/s/id0.pack"]}
  /\ (exists e, (coalesced0 lost_commit).1 = Err e)
  /\ (swept0 lost_commit).1 = Ok (MkSweepStats 2 0 0).
Proof. split_and!; [vm_compute; reflexivity..| |vm_compute; reflexivity]. exists lost. vm_compute. reflexivity. Qed.

(** ** Witnesses *)

Definition well_linked (t : PackRows) (m : ManifestTable) : bool :=
  forallb (fun x => match t !! (x.1.1, pack_of x.2) with Some _ => true | None => false end) (map_to_list m)
  && forallb (fun x => forallb (fun y => negb (String.eqb x.1.2 y.1.2) || String.eqb x.1.1 y.1.1) (map_to_list t))
       (map_to_list t)
  && (Z.of_nat (size m) <=? I32_MAX)%Z.

Lemma well_linked_wf pg_fault s :
  well_linked (pg_packs s) (pg_manifests s) = true -> @index_wf _ (postgres_index pg_fault clock) s.
Proof.
  unfold well_linked. rewrite !andb_true_iff, !List.forallb_forall. intros [[H1 H2] H3].
  split; cbn [manifests packs postgres_index].
  - intros k fm Hk. specialize (H1 (k, fm)). cbn in H1. rewrite lookup_pack_view. cbn.
    assert (List.In (k, fm) (map_to_list (pg_manifests s))) as Hin
      by (apply list_elem_of_In; by apply elem_of_map_to_list).
    specialize (H1 Hin). by destruct (pg_packs s !! (k.1, pack_of fm)).
  - intros sc sc' key. rewrite !lookup_pack_view, !fmap_is_Some. intros [r1 Hr1] [r2 Hr2].
    apply elem_of_map_to_list, list_elem_of_In in Hr1, Hr2.
    specialize (H2 _ Hr1). rewrite List.forallb_forall in H2. specialize (H2 _ Hr2). cbn in H2.
    rewrite String.eqb_refl in H2. cbn in H2. by apply String.eqb_eq in H2.
  - intros sc key. pose proof (live_count_size (pg_manifests s) sc key). lia.
Qed.

(** [reads], computed. *)
Definition read_bytes `{PackDeps} (store : gmap string bytes) (fm : VfsFileManifest) : option bytes :=
  match store !! pack_of fm with
  | None => None
  | Some bs =>
      match extract_slot bs (as_u64 (ref_slot_offset (fm_pack_slot fm))) (as_u64 (ref_slot_length (fm_pack_slot fm))) with
      | Ok x => Some (x_bytes x)
      | Err _ => None
      end
  end.

Lemma read_bytes_reads `{PackDeps} store fm body : read_bytes store fm = Some body -> reads store fm body.
Proof.
  unfold read_bytes. destruct (store !! pack_of fm) as [bs|] eqn:E; [|done].
  destruct (extract_slot bs _ _) as [x|] eqn:Ex; [|done]. intros [= <-]. by exists bs, x.
Qed.

Lemma triple_eta {A B C : Type} (x : A * (B * C)) : x = (x.1, (x.2.1, x.2.2)).
Proof. by destruct x as [? [? ?]]. Qed.

Lemma index0_wf pg_fault : @index_wf _ (postgres_index pg_fault clock) index0.
Proof. apply well_linked_wf. vm_compute. reflexivity. Qed.

Lemma store0_fresh pg_fault :
  @fresh_key _ _ (postgres_index pg_fault clock) (object_store_blobs no_fault uuids) "s" index0 store0.
Proof.
  split; [vm_compute; reflexivity|]. intros sc. cbn [packs postgres_index]. rewrite lookup_pack_view.
  destruct (pg_packs index0 !! (sc, _)) as [row|] eqn:E; [|done]. exfalso.
  apply elem_of_map_to_list, list_elem_of_In in E. vm_compute in E. intuition congruence.
Qed.

Definition manifest_b : VfsFileManifest := Eval vm_compute in
  default (MkManifest "" "" 0 (MkSlotRef "" 0 0 0) None) (manifests0 !! ("s", "m2")).

(** A coalescing whose commit was not acknowledged, then a sweep that removes
    the two sources: the second file is still read. *)
Lemma maintenance_keeps_files_witness :
  exists fm, pg_manifests (swept0 lost_commit).2.1 !! ("s", "m2") = Some fm
    /\ @reads toy_deps (os_objects (swept0 lost_commit).2.2) fm [Byte.x63].
Proof.
  destruct (@maintenance_keeps_files toy_deps PgState ObjectStorePackBlobStore
    (postgres_index lost_commit clock) (object_store_blobs no_fault uuids)
    toy_deps_laws (postgres_laws lost_commit clock) (object_store_laws no_fault uuids)
    index0 store0 (swept0 lost_commit).2.1 (swept0 lost_commit).2.2) as [_ Hk].
  - apply index0_wf.
  - eapply rtc_l; [|eapply rtc_once].
    + apply (Coalesced default_compactor_config "s" _ _ (coalesced0 lost_commit).1
        (coalesced0 lost_commit).2.1 (coalesced0 lost_commit).2.2); [apply store0_fresh|].
      apply (triple_eta (coalesced0 lost_commit)).
    + apply (Swept default_compactor_config (10 ^ 9 * 1000)%Z 10 _ _ (swept0 lost_commit).1).
      apply (triple_eta (swept0 lost_commit)).
  - specialize (Hk ("s", "m2")).
    change (@manifests PgState (postgres_index lost_commit clock) index0 !! ("s", "m2")) with (manifests0 !! ("s", "m2")) in Hk.
    assert (manifests0 !! ("s", "m2") = Some manifest_b) as E by (vm_compute; reflexivity).
    rewrite E in Hk. destruct Hk as (fm & Hm & _ & Hr). exists fm. split; [exact Hm|]. apply Hr.
    apply read_bytes_reads. vm_compute. reflexivity.
Defined.

Lemma counted_exact pg_fault s :
  forallb (fun x => (pr_reference_count x.2 =? live_count (pg_manifests s) x.1.1 x.1.2)%Z) (map_to_list (pg_packs s)) = true ->
  @refs_exact _ (postgres_index pg_fault clock) s.
Proof.
  rewrite List.forallb_forall. intros H k p. cbn [packs manifests postgres_index]. rewrite lookup_pack_view.
  destruct (pg_packs s !! k) as [row|] eqn:E; [|done]. intros [= <-].
  apply elem_of_map_to_list, list_elem_of_In in E. specialize (H _ E). by apply Z.eqb_eq in H.
Qed.

Lemma index0_exact pg_fault : @refs_exact _ (postgres_index pg_fault clock) index0.
Proof. apply counted_exact. vm_compute. reflexivity. Qed.

Lemma maintenance_counts_exact_witness :
  @refs_exact _ (postgres_index no_fault clock) (coalesced0 no_fault).2.1.
Proof.
  destruct (@maintenance_counts_exact toy_deps PgState ObjectStorePackBlobStore
    (postgres_index no_fault clock) (object_store_blobs no_fault uuids)
    toy_deps_laws (postgres_laws no_fault clock) (object_store_laws no_fault uuids)
    default_compactor_config "s" 0%Z 0%Z index0 store0 (coalesced0 no_fault).1
    (coalesced0 no_fault).2.1 (coalesced0 no_fault).2.2) as [Hc _]; [apply index0_wf|].
  apply Hc; [apply store0_fresh | apply (triple_eta (coalesced0 no_fault)) | apply index0_exact].
Defined.

Lemma coalesce_drains_sources_witness :
  live_count (pg_manifests (coalesced0 no_fault).2.1) "s" "packs/s/first.pack" = 0%Z.
Proof.
  destruct (@coalesce_drains_sources toy_deps PgState ObjectStorePackBlobStore
    (postgres_index no_fault clock) (object_store_blobs no_fault uuids)
    toy_deps_laws (postgres_laws no_fault clock) (object_store_laws no_fault uuids)
    default_compactor_config "s" index0 store0 (MkCoalesceStats 2 3 0)
    (coalesced0 no_fault).2.1 (coalesced0 no_fault).2.2) as [[E _]|(keys & bs & _ & (p & Hp & Hc) & Hk)].
  - apply store0_fresh.
  - vm_compute. reflexivity.
  - apply (f_equal pg_tick) in E. vm_compute in E. discriminate.
  - apply Hk; [|vm_compute; eauto].
    assert (packs (S := PgState) (VfsPackLifecycleIndex := postgres_index no_fault clock) (coalesced0 no_fault).2.1
      !! ("s", "packs/s/id0.pack")
      = Some (MkPackRecord "packs/s/id0.pack" 3 3 170 (Some ["packs/s/first.pack"; "packs/s/second.pack"]))) as E
      by (vm_compute; reflexivity).
    assert (build_pack_key (VfsPackBlobStore := object_store_blobs no_fault uuids) store0 "s" = "packs/s/id0.pack") as Ek
      by (vm_compute; reflexivity).
    rewrite Ek, E in Hp. injection Hp as <-. cbn in Hc. injection Hc as <-. left.
Defined.

Definition five_packs : list VfsPackRecord :=
  (fun n => MkPackRecord (pretty n) 1 1 (Z.of_N n * 1000) None) <$> [4; 5; 6; 7; 8]%N.

Definition tight_config : VfsPackCompactorConfig := MkCompactorConfig "packs" 16000 10 2 100 1 1 300.

Lemma coalesce_selection_witness :
  exists rest, five_packs = truncated tight_config five_packs ++ rest /\ length (truncated tight_config five_packs) = 3.
Proof.
  destruct (coalesce_selection tight_config five_packs) as (rest & E & _).
  - vm_compute. reflexivity.
  - repeat constructor; vm_compute; discriminate.
  - exists rest. split; [exact E | vm_compute; reflexivity].
Defined.
