(* ===== verification/NamespaceIndex.v ===== *)
(** * The SQL-backed namespace index

    The [VfsManifestIndex] implementation of [vfs/src/postgres_index.rs]: the
    entries of the namespace with their stable identities, the versions of each
    file, the manifests and the packs they point to. Every operation is one
    transaction on the four tables; it either commits or, on any error, leaves
    them as they were. Transactions are serial, so the identity locks and the
    checks that a row did not change between a snapshot and the transaction
    never fire and are not written out. The paths of one commit are distinct, so
    its batches are row-by-row folds. *)

From S2P Require Import Prelude VfsTypes Pack ContentHash Manifest PackIndex PostgresIndex Compaction.
From Stdlib Require Import ZArith Lia Ascii.

(** A row of [chevalier_vfs_entries]; scope and path are its key. *)
Record EntryRow := MkEntryRow {
  er_id : string;
  er_parent_logical_path : string;
  er_entry_name : string;
  er_kind : VfsStorageEntryKind;
  er_file_id : option string;
  er_size_bytes : Z;
  er_content_hash : option string;
  er_current_version : option string;
  er_generation : Z;
  er_updated_at : Z;
}.

(** A row of [chevalier_vfs_file_versions], under its scope, path and version id. *)
Record VersionRow := MkVersionRow {
  vr_version_no : Z;
  vr_manifest_id : string;
  vr_content_hash : string;
  vr_logical_size_bytes : Z;
}.

Abbreviation PathKey := (VfsIndexScope * string)%type.
Abbreviation EntryTable := (gmap (VfsIndexScope * string) EntryRow).
Abbreviation VersionTable := (gmap (VfsIndexScope * string) (gmap string VersionRow)).

Record Db := MkDb {
  db_entries : EntryTable;
  db_versions : VersionTable;
  db_manifests : ManifestTable;
  db_packs : PackRows;
}.

Record VfsIndexEntry := MkIndexEntry {
  ie_logical_path : string;
  ie_parent_logical_path : string;
  ie_entry_name : string;
  ie_kind : VfsStorageEntryKind;
  ie_file_id : option string;
  ie_link_count : Z;
  ie_size_bytes : Z;
  ie_content_hash : option string;
  ie_current_version : option string;
  ie_updated_at : option Z;
}.

Record VfsIndexEntryWithManifest := MkEntryWithManifest {
  em_entry : VfsIndexEntry;
  em_manifest : option VfsFileManifest;
}.

Record VfsPackedFileCommit := MkFileCommit {
  fc_logical_path : string;
  fc_parent_logical_path : string;
  fc_entry_name : string;
  fc_manifest : VfsFileManifest;
  fc_mode : option Z;
  fc_file_id : option string;
  fc_expected_file_id : option string;
  fc_content_predicate : option VfsStorageCasPredicate;
  fc_expected_current_version : option string;
}.

Record VfsPackedCommit := MkPackedCommit {
  cm_pack : VfsPackRecord;
  cm_files : list VfsPackedFileCommit;
}.

(** What a transaction draws from outside: the time and new identifiers. *)
Record TxInputs := MkTx { tx_now : Z; tx_uuid : nat -> string }.

Abbreviation Tx := (fun A : Type => Db -> VfsStorageResult (A * Db)).

Definition is_file (e : EntryRow) : bool := bool_decide (er_kind e = KFile).

(** ** Queries *)

Definition version_of (db : Db) (scope : VfsIndexScope) (path vid : string) : option VersionRow :=
  db_versions db !! (scope, path) ≫= fun vs => vs !! vid.

(** The join of an entry with its current version and manifest. *)
Definition manifest_of (db : Db) (scope : VfsIndexScope) (path : string) (e : EntryRow) : option VfsFileManifest :=
  vid ← er_current_version e;
  v ← version_of db scope path vid;
  db_manifests db !! (scope, vr_manifest_id v).

Definition get_current_file_manifest (db : Db) (scope : VfsIndexScope) (path : string) : option VfsFileManifest :=
  e ← db_entries db !! (scope, path);
  if is_file e then manifest_of db scope path e else None.

Definition list_current_file_manifests_by_paths (db : Db) (scope : VfsIndexScope) (paths : list string)
  : list VfsFileManifest :=
  omap (get_current_file_manifest db scope) (sorted_strings (list_to_set paths)).

Definition alias_rows (db : Db) (scope : VfsIndexScope) (fid : string) : list string :=
  (fun x => x.1.2) <$> List.filter (fun x : (VfsIndexScope * string) * EntryRow =>
    bool_decide (x.1.1 = scope) && bool_decide (er_file_id x.2 = Some fid) && is_file x.2) (map_to_list (db_entries db)).

Definition list_file_alias_paths (db : Db) (scope : VfsIndexScope) (fid : string) : list string :=
  sorted_strings (list_to_set (alias_rows db scope fid)).

Definition link_count (db : Db) (scope : VfsIndexScope) (e : EntryRow) : Z :=
  match er_file_id e with None => 1 | Some fid => Z.max (zlen (alias_rows db scope fid)) 1 end.

Definition entry_with_manifest (db : Db) (scope : VfsIndexScope) (path : string) (e : EntryRow)
  : VfsIndexEntryWithManifest :=
  MkEntryWithManifest
    (MkIndexEntry path (er_parent_logical_path e) (er_entry_name e) (er_kind e) (er_file_id e) (link_count db scope e)
       (er_size_bytes e) (er_content_hash e) (er_current_version e) (Some (er_updated_at e)))
    (manifest_of db scope path e).

Definition get_entry_with_manifest (db : Db) (scope : VfsIndexScope) (path : string)
  : option VfsIndexEntryWithManifest :=
  entry_with_manifest db scope path <$> db_entries db !! (scope, path).

Definition list_entries_with_manifest_by_paths (db : Db) (scope : VfsIndexScope) (paths : list string)
  : list VfsIndexEntryWithManifest :=
  omap (get_entry_with_manifest db scope) (sorted_strings (list_to_set paths)).

(** SQL [LIKE]: percent stands for any text, underscore for one character, and
    a backslash takes the next character literally. *)
Fixpoint drop_continuation (s : string) : string :=
  match s with
  | String c s' => if is_continuation c then drop_continuation s' else s
  | EmptyString => EmptyString
  end.

Fixpoint sql_like (pattern s : string) : bool :=
  match pattern with
  | EmptyString => is_empty_str s
  | String p pattern' =>
      if Ascii.eqb p "%"%char then
        (fix any (s : string) : bool :=
           sql_like pattern' s || match s with String _ s' => any s' | EmptyString => false end) s
      else if Ascii.eqb p "_"%char then
        match s with String _ s' => sql_like pattern' (drop_continuation s') | EmptyString => false end
      else if Ascii.eqb p (chr 92) then
        match pattern', s with
        | String q pattern'', String c s' => Ascii.eqb q c && sql_like pattern'' s'
        | _, _ => false
        end
      else match s with String c s' => Ascii.eqb p c && sql_like pattern' s' | EmptyString => false end
  end.

Definition in_subtree (prefix path : string) : bool :=
  is_empty_str prefix || String.eqb path prefix || sql_like (prefix +:+ "/%") path.

(** [ORDER BY logical_path LIMIT limit]. *)
Definition sql_limit {A} (limit : option Z) (rows : list A) : list A :=
  let limit := default I64_MAX limit in
  if (zlen rows <=? limit)%Z then rows else take (Z.to_nat limit) rows.

Definition subtree_paths (db : Db) (scope : VfsIndexScope) (prefix : string) : list string :=
  sorted_strings (list_to_set ((fun x => x.1.2) <$>
    List.filter (fun x : (VfsIndexScope * string) * EntryRow =>
      bool_decide (x.1.1 = scope) && is_file x.2 && in_subtree prefix x.1.2) (map_to_list (db_entries db)))).

Definition list_current_file_manifests_in_subtree (db : Db) (scope : VfsIndexScope) (prefix : string) (limit : option Z)
  : list VfsFileManifest :=
  sql_limit limit (omap (get_current_file_manifest db scope) (subtree_paths db scope prefix)).

Definition list_entries_with_manifest_in_subtree (db : Db) (scope : VfsIndexScope) (prefix : string) (limit : option Z)
  : list VfsIndexEntryWithManifest :=
  list_entries_with_manifest_by_paths db scope (sql_limit limit (subtree_paths db scope prefix)).

(** ** Pack rows inside a transaction *)

Definition set_packs (t : PackRows) (db : Db) : Db :=
  MkDb (db_entries db) (db_versions db) (db_manifests db) t.
Definition set_entries (t : EntryTable) (db : Db) : Db :=
  MkDb t (db_versions db) (db_manifests db) (db_packs db).
Definition set_versions (t : VersionTable) (db : Db) : Db :=
  MkDb (db_entries db) t (db_manifests db) (db_packs db).
Definition set_manifests (t : ManifestTable) (db : Db) : Db :=
  MkDb (db_entries db) (db_versions db) t (db_packs db).

Definition update_pack_reference_count (now : Z) (scope : VfsIndexScope) (db : Db) (key : string)
  : VfsStorageResult Db :=
  let count := as_i32 (live_count (db_manifests db) scope key) in
  match db_packs db !! (scope, key) with
  | None => Ok db
  | Some row =>
      if (0 <=? count)%Z then Ok (set_packs (<[(scope, key) := with_refs count now row]> (db_packs db)) db)
      else Err violated
  end.

(** [ON CONFLICT DO NOTHING]. *)
Definition insert_pack_record (now : Z) (scope : VfsIndexScope) (p : VfsPackRecord) (db : Db) : VfsStorageResult Db :=
  match db_packs db !! (scope, pk_pack_key p) with
  | Some _ => Ok db
  | None =>
      match insert_pack_record_direct now scope p (db_packs db) with
      | Some t => Ok (set_packs t db)
      | None => Err violated
      end
  end.

(** ** Committing packed files *)

(** The alias set of every identity the commit names is exactly the paths it
    writes through it. *)
Definition expected_aliases (files : list VfsPackedFileCommit) (fid : string) : gset string :=
  list_to_set (fc_logical_path <$> List.filter (fun f => bool_decide (fc_file_id f = Some fid)) files).

Definition validate_file_alias_snapshot (db : Db) (scope : VfsIndexScope) (files : list VfsPackedFileCommit) : bool :=
  forallb (fun fid => bool_decide (list_to_set (alias_rows db scope fid) = expected_aliases files fid))
    (omap fc_file_id files).

Definition content_matches (current : option EntryRow) (p : option VfsStorageCasPredicate) : bool :=
  match p with
  | None => true
  | Some Absent => bool_decide (current = None)
  | Some (ContentFingerprint fp) => bool_decide (current ≫= er_content_hash = Some fp)
  end.

Global Instance EntryRow_eq_dec : EqDecision EntryRow.
Proof. solve_decision. Defined.

(** The version the promotion must find: the one of the row as it is now. *)
Definition resolve_precondition (db : Db) (scope : VfsIndexScope) (f : VfsPackedFileCommit)
  : VfsStorageResult (option string) :=
  let current := db_entries db !! (scope, fc_logical_path f) in
  _ ← guard_err (match current with Some e => negb (is_file e) | None => false end)
        (Conflict ("vfs write destination is not a file: " +:+ fc_logical_path f));
  _ ← guard_err (bool_decide (fc_expected_file_id f <> None)
                 && negb (bool_decide (current ≫= er_file_id = fc_expected_file_id f)))
        (Conflict ("vfs write identity precondition failed for " +:+ fc_logical_path f));
  _ ← guard_err (negb (content_matches current (fc_content_predicate f)))
        (Conflict ("vfs content precondition failed for " +:+ fc_logical_path f));
  Ok (current ≫= er_current_version).

Definition commit_conflict (path : string) : VfsStorageError :=
  Conflict ("vfs write precondition failed for " +:+ path).

(** [UNIQUE (scope_key, id)]. *)
Definition id_free (db : Db) (scope : VfsIndexScope) (id : string) : bool :=
  forallb (fun x => negb (bool_decide (x.1.1 = scope) && bool_decide (er_id x.2 = id))) (map_to_list (db_entries db)).

Definition fresh_entry (now : Z) (id fid : string) (f : VfsPackedFileCommit) : EntryRow :=
  MkEntryRow id (fc_parent_logical_path f) (fc_entry_name f) KFile (Some fid)
    (fm_logical_size_bytes (fc_manifest f)) (Some (fm_content_hash (fc_manifest f))) None 0 now.

Definition updated_entry (now : Z) (fid : option string) (f : VfsPackedFileCommit) (e : EntryRow) : EntryRow :=
  MkEntryRow (er_id e) (fc_parent_logical_path f) (fc_entry_name f) KFile fid
    (fm_logical_size_bytes (fc_manifest f)) (Some (fm_content_hash (fc_manifest f)))
    (er_current_version e) (er_generation e) now.

Definition insert_entry (scope : VfsIndexScope) (path : string) (e : EntryRow) (db : Db) : VfsStorageResult Db :=
  _ ← guard_err (negb (id_free db scope (er_id e))) violated;
  _ ← guard_err (er_size_bytes e <? 0)%Z violated;
  Ok (set_entries (<[(scope, path) := e]> (db_entries db)) db).

Definition replace_entry (scope : VfsIndexScope) (path : string) (e : EntryRow) (db : Db) : VfsStorageResult Db :=
  _ ← guard_err (er_size_bytes e <? 0)%Z violated;
  Ok (set_entries (<[(scope, path) := e]> (db_entries db)) db).

(** A row with a predicate or an expected identity updates the row that
    satisfies them, or is inserted when it asks for absence. *)
Definition upsert_guarded (now : Z) (id fid : string) (scope : VfsIndexScope) (f : VfsPackedFileCommit) (db : Db)
  : VfsStorageResult Db :=
  let path := fc_logical_path f in
  match db_entries db !! (scope, path) with
  | Some e =>
      if is_file e
         && (bool_decide (fc_expected_file_id f = None) || bool_decide (er_file_id e = fc_expected_file_id f))
         && match fc_content_predicate f with
            | None => true
            | Some (ContentFingerprint fp) => bool_decide (er_content_hash e = Some fp)
            | Some Absent => false
            end
      then replace_entry scope path (updated_entry now (er_file_id e) f e) db
      else Err (commit_conflict path)
  | None =>
      if bool_decide (fc_content_predicate f = Some Absent) && bool_decide (fc_expected_file_id f = None)
      then insert_entry scope path (fresh_entry now id fid f) db
      else Err (commit_conflict path)
  end.

Definition upsert_unguarded (now : Z) (id fid : string) (scope : VfsIndexScope) (f : VfsPackedFileCommit) (db : Db)
  : VfsStorageResult Db :=
  let path := fc_logical_path f in
  match db_entries db !! (scope, path) with
  | Some e => replace_entry scope path (updated_entry now (opt_or (er_file_id e) (Some fid)) f e) db
  | None => insert_entry scope path (fresh_entry now id fid f) db
  end.

Definition is_guarded (f : VfsPackedFileCommit) : bool :=
  bool_decide (fc_expected_file_id f <> None) || bool_decide (fc_content_predicate f <> None).

(** Four identifiers are drawn per file: entry, identity, manifest, version. *)
Definition entry_uuid (tx : TxInputs) (i : nat) : string := tx_uuid tx (4 * i).
Definition identity_uuid (tx : TxInputs) (i : nat) (f : VfsPackedFileCommit) : string :=
  default (tx_uuid tx (4 * i + 1)) (fc_file_id f).
Definition manifest_uuid (tx : TxInputs) (i : nat) : string := tx_uuid tx (4 * i + 2).
Definition version_uuid (tx : TxInputs) (i : nat) : string := tx_uuid tx (4 * i + 3).

Abbreviation Indexed := (nat * VfsPackedFileCommit)%type.

Definition upsert_entries_batch (tx : TxInputs) (scope : VfsIndexScope) (files : list Indexed) (db : Db)
  : VfsStorageResult Db :=
  let upsert g (db : Db) (x : Indexed) := g (tx_now tx) (entry_uuid tx x.1) (identity_uuid tx x.1 x.2) scope x.2 db in
  db ← foldM (upsert upsert_guarded) db (List.filter (fun x : Indexed => is_guarded x.2) files);
  foldM (upsert upsert_unguarded) db (List.filter (fun x : Indexed => negb (is_guarded x.2)) files).

(** Primary key, foreign key and [CHECK]s of a manifest row. *)
Definition insert_manifest (scope : VfsIndexScope) (id : string) (fm : VfsFileManifest) (db : Db) : VfsStorageResult Db :=
  let slot := fm_pack_slot fm in
  _ ← guard_err (bool_decide (db_manifests db !! (scope, id) <> None)) violated;
  _ ← guard_err (bool_decide (db_packs db !! (scope, ref_pack_key slot) = None)) violated;
  _ ← guard_err ((fm_logical_size_bytes fm <? 0) || (ref_slot_offset slot <? 0) || (ref_slot_length slot <? 0))%Z violated;
  Ok (set_manifests (<[(scope, id) := fm]> (db_manifests db)) db).

Definition insert_manifests_batch (tx : TxInputs) (scope : VfsIndexScope) (files : list Indexed) (db : Db)
  : VfsStorageResult Db :=
  foldM (fun db x => insert_manifest scope (manifest_uuid tx x.1) (fc_manifest x.2) db) db files.

Definition max_version_no (vs : gmap string VersionRow) : Z :=
  map_fold (fun _ v acc => Z.max (vr_version_no v) acc) 0%Z vs.

Definition insert_version (scope : VfsIndexScope) (path vid : string) (v : VersionRow) (db : Db) : VfsStorageResult Db :=
  let vs := default ∅ (db_versions db !! (scope, path)) in
  _ ← guard_err (bool_decide (vs !! vid <> None)) violated;
  _ ← guard_err (bool_decide (map_Exists (fun _ w => vr_version_no w = vr_version_no v) vs)) violated;
  _ ← guard_err (bool_decide (db_manifests db !! (scope, vr_manifest_id v) = None)) violated;
  Ok (set_versions (<[(scope, path) := <[vid := v]> vs]> (db_versions db)) db).

Definition promoted (now : Z) (vid : string) (e : EntryRow) : EntryRow :=
  MkEntryRow (er_id e) (er_parent_logical_path e) (er_entry_name e) (er_kind e) (er_file_id e) (er_size_bytes e)
    (er_content_hash e) (Some vid) (er_generation e + 1) now.

(** Insert the next version and make it current, if the current one is the
    expected one. *)
Definition promote_version (tx : TxInputs) (scope : VfsIndexScope) (x : Indexed) (expected : option string) (db : Db)
  : VfsStorageResult Db :=
  let path := fc_logical_path x.2 in
  let fm := fc_manifest x.2 in
  let vid := version_uuid tx x.1 in
  let no := (max_version_no (default ∅ (db_versions db !! (scope, path))) + 1)%Z in
  db ← insert_version scope path vid
         (MkVersionRow no (manifest_uuid tx x.1) (fm_content_hash fm) (fm_logical_size_bytes fm)) db;
  match db_entries db !! (scope, path) with
  | Some e =>
      if bool_decide (er_current_version e = expected)
      then Ok (set_entries (<[(scope, path) := promoted (tx_now tx) vid e]> (db_entries db)) db)
      else Err (commit_conflict path)
  | None => Err (commit_conflict path)
  end.

(** [expected_versions.get(path).and_then(Option::as_deref).or(file.expected_current_version)]. *)
Definition expected_version (resolved : option string) (f : VfsPackedFileCommit) : option string :=
  opt_or resolved (fc_expected_current_version f).

Definition batch_promote_manifest_versions (tx : TxInputs) (scope : VfsIndexScope)
    (files : list (Indexed * option string)) (db : Db) : VfsStorageResult Db :=
  foldM (fun db x => promote_version tx scope x.1 (expected_version x.2 x.1.2) db) db files.

Definition indexed (files : list VfsPackedFileCommit) : list Indexed := zip (seq 0 (length files)) files.

Definition commit_packed_files (tx : TxInputs) (scope : VfsIndexScope) (commit : VfsPackedCommit) (db : Db)
  : VfsStorageResult (list string * Db) :=
  match cm_files commit with
  | [] => Ok ([], db)
  | files =>
      _ ← guard_err (negb (validate_file_alias_snapshot db scope files))
            (Conflict "VFS hard-link alias set changed during write");
      resolved ← mapM_result (resolve_precondition db scope) files;
      db ← upsert_entries_batch tx scope (indexed files) db;
      db ← insert_pack_record (tx_now tx) scope (cm_pack commit) db;
      db ← insert_manifests_batch tx scope (indexed files) db;
      db ← batch_promote_manifest_versions tx scope (zip (indexed files) resolved) db;
      Ok (fc_logical_path <$> files, db)
  end.

(** ** Directories *)

Definition directory_entry (now : Z) (id parent name : string) : EntryRow :=
  MkEntryRow id parent name KDirectory None 0 None None 0 now.

Definition create_directory (tx : TxInputs) (scope : VfsIndexScope) (path parent name : string) (db : Db)
  : VfsStorageResult (unit * Db) :=
  match db_entries db !! (scope, path) with
  | None => db ← insert_entry scope path (directory_entry (tx_now tx) (tx_uuid tx 0) parent name) db; Ok (tt, db)
  | Some e =>
      if is_file e
      then Err (Conflict ("vfs file already exists at directory path: " +:+ path))
      else
        let e' := MkEntryRow (er_id e) parent name KDirectory (er_file_id e) 0 None None (er_generation e) (tx_now tx) in
        Ok (tt, set_entries (<[(scope, path) := e']> (db_entries db)) db)
  end.

Definition has_child (db : Db) (scope : VfsIndexScope) (path : string) : bool :=
  existsb (fun x => bool_decide (x.1.1 = scope) && String.eqb (er_parent_logical_path x.2) path) (map_to_list (db_entries db)).

Definition remove_empty_directory (scope : VfsIndexScope) (path : string) (db : Db) : VfsStorageResult (unit * Db) :=
  match db_entries db !! (scope, path) with
  | None => Ok (tt, db)
  | Some e =>
      if is_file e then Err (BadRequest ("vfs path " +:+ path +:+ " is not a directory"))
      else if has_child db scope path then Err (Conflict ("vfs directory " +:+ path +:+ " is not empty"))
      else Ok (tt, set_entries (delete (scope, path) (db_entries db)) db)
  end.

(** ** Deleting the rows of a path *)

(** No version points to a missing manifest: the foreign key after a deletion. *)
Definition versions_linked (scope : VfsIndexScope) (db : Db) : bool :=
  forallb (fun x => negb (bool_decide (x.1.1 = scope)) ||
    forallb (fun v => bool_decide (is_Some (db_manifests db !! (scope, vr_manifest_id v.2)))) (map_to_list x.2))
    (map_to_list (db_versions db)).

Definition owned_by (scope : VfsIndexScope) (path : string) (x : (VfsIndexScope * string) * VfsFileManifest) : Prop :=
  x.1.1 = scope /\ fm_logical_path x.2 = path.
Global Instance owned_by_dec scope path x : Decision (owned_by scope path x).
Proof. unfold owned_by. apply _. Defined.

Definition pack_keys_of (db : Db) (scope : VfsIndexScope) (path : string) : list string :=
  sorted_strings (list_to_set ((fun x => pack_of x.2) <$> map_to_list (filter (owned_by scope path) (db_manifests db)))).

Definition delete_path_rows (scope : VfsIndexScope) (path : string) (db : Db) : VfsStorageResult Db :=
  let db' := MkDb (delete (scope, path) (db_entries db)) (delete (scope, path) (db_versions db))
               (filter (fun x => ~ owned_by scope path x) (db_manifests db)) (db_packs db) in
  _ ← guard_err (negb (versions_linked scope db')) violated;
  Ok db'.

Definition not_a_file {A} (path : string) : VfsStorageResult A :=
  Err (BadRequest ("vfs path " +:+ path +:+ " is not a file")).

Definition delete_file_entry (tx : TxInputs) (scope : VfsIndexScope) (path : string) (expected : option string) (db : Db)
  : VfsStorageResult (option VfsIndexEntryWithManifest * Db) :=
  match db_entries db !! (scope, path) with
  | None => Ok (None, db)
  | Some e =>
      if negb (is_file e) then not_a_file path
      else
        _ ← guard_err (match expected with Some v => negb (bool_decide (er_current_version e = Some v)) | None => false end)
              (commit_conflict path);
        let keys := pack_keys_of db scope path in
        db' ← delete_path_rows scope path db;
        db' ← foldM (update_pack_reference_count (tx_now tx) scope) db' keys;
        Ok (Some (entry_with_manifest db scope path e), db')
  end.

(** ["none"] asks for an entry without a committed version. *)
Definition delete_file_entry_with_precondition (tx : TxInputs) (scope : VfsIndexScope) (path : string)
    (content_predicate : option VfsStorageCasPredicate) (expected_file_id expected_version : option string) (db : Db)
  : VfsStorageResult (option VfsIndexEntryWithManifest * Db) :=
  let current := db_entries db !! (scope, path) in
  _ ← guard_err (negb (content_matches current content_predicate))
        (Conflict ("vfs content precondition failed for " +:+ path));
  _ ← guard_err (match expected_version with
                 | None => false
                 | Some v => negb (bool_decide (current ≫= er_current_version = if String.eqb v "none" then None else Some v))
                 end) (Conflict ("vfs version precondition failed for " +:+ path));
  _ ← guard_err (bool_decide (expected_file_id <> None) && negb (bool_decide (current ≫= er_file_id = expected_file_id)))
        (Conflict ("vfs identity precondition failed for " +:+ path));
  match current with
  | None => Ok (None, db)
  | Some e => delete_file_entry tx scope path (er_current_version e) db
  end.

(** ** Renaming *)

Definition moved_entry (now : Z) (parent name : string) (e : EntryRow) : EntryRow :=
  MkEntryRow (er_id e) parent name (er_kind e) (er_file_id e) (er_size_bytes e) (er_content_hash e)
    (er_current_version e) (er_generation e + 1) now.

Definition set_manifest_path (path : string) (fm : VfsFileManifest) : VfsFileManifest :=
  MkManifest path (fm_content_hash fm) (fm_logical_size_bytes fm) (fm_pack_slot fm) (fm_token_count fm).

Definition move_manifests (scope : VfsIndexScope) (from to : string) (m : ManifestTable) : ManifestTable :=
  map_imap (fun k fm => Some (if decide (owned_by scope from (k, fm)) then set_manifest_path to fm else fm)) m.

Definition move_versions (scope : VfsIndexScope) (from to : string) (t : VersionTable) : VersionTable :=
  match t !! (scope, from) with
  | None => t
  | Some vs => <[(scope, to) := vs ∪ default ∅ (t !! (scope, to))]> (delete (scope, from) t)
  end.

(** Key and uniqueness of the version rows that move. *)
Definition versions_clash (vs ws : gmap string VersionRow) : bool :=
  existsb (fun x => bool_decide (is_Some (ws !! x.1))
    || existsb (fun y => Z.eqb (vr_version_no x.2) (vr_version_no y.2)) (map_to_list ws)) (map_to_list vs).

Definition move_path_rows (now : Z) (scope : VfsIndexScope) (from to parent name : string) (e : EntryRow) (db : Db)
  : VfsStorageResult Db :=
  let rows path := default ∅ (db_versions db !! (scope, path)) in
  _ ← guard_err (versions_clash (rows from) (rows to)) violated;
  Ok (MkDb (<[(scope, to) := moved_entry now parent name e]> (delete (scope, from) (db_entries db)))
    (move_versions scope from to (db_versions db)) (move_manifests scope from to (db_manifests db)) (db_packs db)).

Definition rename_file_entry (tx : TxInputs) (scope : VfsIndexScope) (from to to_parent to_name : string)
    (allow_replace : bool) (db : Db)
  : VfsStorageResult ((VfsIndexEntryWithManifest * VfsIndexEntryWithManifest) * Db) :=
  match db_entries db !! (scope, from) with
  | None => Err (NotFound from)
  | Some e =>
      let previous := entry_with_manifest db scope from e in
      if negb (is_file e) then not_a_file from
      else if String.eqb from to then Ok ((previous, previous), db)
      else
        let destination := db_entries db !! (scope, to) in
        _ ← guard_err (match destination with Some d => negb (is_file d) | None => false end)
              (Conflict ("vfs cannot replace non-file destination: " +:+ to));
        match destination with
        | Some d =>
            if bool_decide (er_file_id e <> None) && bool_decide (er_file_id d = er_file_id e)
            then Ok ((previous, entry_with_manifest db scope to d), db)
            else
              _ ← guard_err (negb allow_replace) (Conflict ("vfs destination already exists: " +:+ to));
              let keys := pack_keys_of db scope to in
              db ← delete_path_rows scope to db;
              db ← move_path_rows (tx_now tx) scope from to to_parent to_name e db;
              db ← foldM (update_pack_reference_count (tx_now tx) scope) db keys;
              current ← ok_or (get_entry_with_manifest db scope to)
                          (Internal ("renamed vfs entry missing after rename: " +:+ to));
              Ok ((previous, current), db)
        | None =>
            let keys := pack_keys_of db scope to in
            db ← move_path_rows (tx_now tx) scope from to to_parent to_name e db;
            db ← foldM (update_pack_reference_count (tx_now tx) scope) db keys;
            current ← ok_or (get_entry_with_manifest db scope to)
                        (Internal ("renamed vfs entry missing after rename: " +:+ to));
            Ok ((previous, current), db)
        end
  end.

(** ** Hard links *)

Definition with_file_id (fid : string) (e : EntryRow) : EntryRow :=
  MkEntryRow (er_id e) (er_parent_logical_path e) (er_entry_name e) (er_kind e) (Some fid) (er_size_bytes e)
    (er_content_hash e) (er_current_version e) (er_generation e) (er_updated_at e).

Definition link_entry (now : Z) (id vid fid parent name : string) (e : EntryRow) : EntryRow :=
  MkEntryRow id parent name KFile (Some fid) (er_size_bytes e) (er_content_hash e) (Some vid) (er_generation e) now.

(** The destination gets its own manifest and first version, copied from the
    source's current ones. *)
Definition create_hard_link_entry (tx : TxInputs) (scope : VfsIndexScope) (source destination parent name : string) (db : Db)
  : VfsStorageResult ((VfsIndexEntryWithManifest * VfsIndexEntryWithManifest) * Db) :=
  match db_entries db !! (scope, source) with
  | None => Err (NotFound source)
  | Some e =>
      if negb (is_file e) then Err (BadRequest ("vfs hard-link source " +:+ source +:+ " is not a file"))
      else
        let fid := default (er_id e) (er_file_id e) in
        let db := set_entries (<[(scope, source) := with_file_id fid e]> (db_entries db)) db in
        _ ← guard_err (bool_decide (db_entries db !! (scope, destination) <> None))
              (Conflict ("vfs hard-link destination already exists: " +:+ destination));
        fm ← ok_or (manifest_of db scope source e) lost;
        let vid := tx_uuid tx 2 in
        db ← insert_entry scope destination (link_entry (tx_now tx) (tx_uuid tx 0) vid fid parent name e) db;
        db ← insert_manifest scope (tx_uuid tx 1) (set_manifest_path destination fm) db;
        db ← insert_version scope destination vid
               (MkVersionRow 1 (tx_uuid tx 1) (fm_content_hash fm) (fm_logical_size_bytes fm)) db;
        db ← update_pack_reference_count (tx_now tx) scope db (pack_of fm);
        src ← ok_or (get_entry_with_manifest db scope source) (NotFound source);
        dst ← ok_or (get_entry_with_manifest db scope destination) (NotFound destination);
        Ok ((src, dst), db)
  end.

(** ** Lemmas: one row at a time *)

(** What an upsert of [f] makes of the row at its path. *)
Definition upserted (old : option EntryRow) (f : VfsPackedFileCommit) (fid : string) (e : EntryRow) : Prop :=
  er_kind e = KFile /\ er_content_hash e = Some (fm_content_hash (fc_manifest f))
  /\ er_size_bytes e = fm_logical_size_bytes (fc_manifest f)
  /\ er_current_version e = (old ≫= er_current_version)
  /\ ((is_Some old /\ er_file_id e = (old ≫= er_file_id)) \/ ((old ≫= er_file_id) = None /\ er_file_id e = Some fid)).

Definition upsert (g : bool) : Z -> string -> string -> VfsIndexScope -> VfsPackedFileCommit -> Db -> VfsStorageResult Db :=
  if g then upsert_guarded else upsert_unguarded.

Lemma insert_entry_Ok scope path e db db' :
  insert_entry scope path e db = Ok db' -> db' = set_entries (<[(scope, path) := e]> (db_entries db)) db.
Proof. unfold insert_entry. intros H. inv_ok H. by injection H as <-. Qed.

Lemma replace_entry_Ok scope path e db db' :
  replace_entry scope path e db = Ok db' -> db' = set_entries (<[(scope, path) := e]> (db_entries db)) db.
Proof. unfold replace_entry. intros H. inv_ok H. by injection H as <-. Qed.

Lemma upsert_Ok g now id fid scope f db db' :
  upsert g now id fid scope f db = Ok db' ->
  exists e, db' = set_entries (<[(scope, fc_logical_path f) := e]> (db_entries db)) db
    /\ upserted (db_entries db !! (scope, fc_logical_path f)) f fid e.
Proof.
  unfold upsert, upserted. destruct g; unfold upsert_guarded, upsert_unguarded;
    destruct (db_entries db !! (scope, fc_logical_path f)) as [e|]; cbn.
  - case_match; [|done]. intros ->%replace_entry_Ok. eexists. split; [done|]. cbn. by eauto 10.
  - case_match; [|done]. intros ->%insert_entry_Ok. eexists. split; [done|]. cbn. by eauto 10.
  - intros ->%replace_entry_Ok. eexists. split; [done|]. cbn. destruct (er_file_id e); by eauto 10.
  - intros ->%insert_entry_Ok. eexists. split; [done|]. cbn. by eauto 10.
Qed.

Lemma insert_manifest_Ok scope id fm db db' :
  insert_manifest scope id fm db = Ok db' ->
  db' = set_manifests (<[(scope, id) := fm]> (db_manifests db)) db
  /\ db_manifests db !! (scope, id) = None /\ is_Some (db_packs db !! (scope, pack_of fm)).
Proof.
  unfold insert_manifest. intros H. inv_ok H. injection H as <-. split_and!; [done| |].
  - apply bool_decide_eq_false_1 in Hx. by destruct (db_manifests db !! (scope, id)); [destruct Hx|].
  - apply bool_decide_eq_false_1 in Hx0. unfold pack_of.
    destruct (db_packs db !! (scope, ref_pack_key (fm_pack_slot fm))); [eauto|done].
Qed.

Lemma insert_version_Ok scope path vid v db db' :
  insert_version scope path vid v db = Ok db' ->
  let vs := default ∅ (db_versions db !! (scope, path)) in
  db' = set_versions (<[(scope, path) := <[vid := v]> vs]> (db_versions db)) db
  /\ vs !! vid = None /\ is_Some (db_manifests db !! (scope, vr_manifest_id v)).
Proof.
  unfold insert_version. cbn zeta. intros H. inv_ok H. injection H as <-. split_and!; [done| |].
  - apply bool_decide_eq_false_1 in Hx. by destruct (default ∅ (db_versions db !! (scope, path)) !! vid); [destruct Hx|].
  - apply bool_decide_eq_false_1 in Hx1. destruct (db_manifests db !! _); [eauto|done].
Qed.

(** ** Lemmas: the batches of a commit *)

Lemma upserts_spec g tx scope files db db' :
  foldM (fun db (x : Indexed) => upsert g (tx_now tx) (entry_uuid tx x.1) (identity_uuid tx x.1 x.2) scope x.2 db) db files
    = Ok db' ->
  NoDup (fc_logical_path ∘ snd <$> files) ->
  db_versions db' = db_versions db /\ db_manifests db' = db_manifests db /\ db_packs db' = db_packs db
  /\ (forall k, k ∉ ((fun x => (scope, fc_logical_path x.2)) <$> files) -> db_entries db' !! k = db_entries db !! k)
  /\ (forall x, x ∈ files -> exists e, db_entries db' !! (scope, fc_logical_path x.2) = Some e
       /\ upserted (db_entries db !! (scope, fc_logical_path x.2)) x.2 (identity_uuid tx x.1 x.2) e).
Proof.
  revert db; induction files as [|x files IH]; intros db H Hn; cbn in H.
  { injection H as <-. split_and!; [done..|]. intros ? Hx. by apply not_elem_of_nil in Hx. }
  destruct (upsert g _ _ _ _ _ _) as [db1|] eqn:E; [|done].
  destruct (upsert_Ok _ _ _ _ _ _ _ _ E) as (e & -> & He).
  rewrite fmap_cons in Hn. apply NoDup_cons in Hn as [Hx Hn]. cbn in Hx.
  destruct (IH _ H Hn) as (Hv & Hm & Hp & Ho & Hin).
  assert ((scope, fc_logical_path x.2) ∉ ((fun x : Indexed => (scope, fc_logical_path x.2)) <$> files)) as Hnx.
  { intros (y & [= E'] & Hy)%list_elem_of_fmap. apply Hx. rewrite E'. by apply (list_elem_of_fmap_2 (fc_logical_path ∘ snd)). }
  split_and!; [done..| |].
  - intros k Hk. rewrite fmap_cons in Hk. apply not_elem_of_cons in Hk as [Hk1 Hk2].
    rewrite Ho by done. cbn. by rewrite lookup_insert_ne.
  - intros y [->|Hy]%elem_of_cons.
    + exists e. rewrite Ho by done. cbn. by rewrite lookup_insert_eq.
    + destruct (Hin y Hy) as (e' & He' & Hu). exists e'. split; [done|]. cbn in Hu.
      rewrite lookup_insert_ne in Hu; [done|]. intros [= E']. apply Hnx. rewrite E'.
      by apply (list_elem_of_fmap_2 (fun x : Indexed => (scope, fc_logical_path x.2))).
Qed.

(** Two folds over the halves of a partition touch every row once. *)
Lemma upsert_entries_spec tx scope files db db' :
  upsert_entries_batch tx scope files db = Ok db' -> NoDup (fc_logical_path ∘ snd <$> files) ->
  db_versions db' = db_versions db /\ db_manifests db' = db_manifests db /\ db_packs db' = db_packs db
  /\ (forall k, k ∉ ((fun x => (scope, fc_logical_path x.2)) <$> files) -> db_entries db' !! k = db_entries db !! k)
  /\ (forall x, x ∈ files -> exists e, db_entries db' !! (scope, fc_logical_path x.2) = Some e
       /\ upserted (db_entries db !! (scope, fc_logical_path x.2)) x.2 (identity_uuid tx x.1 x.2) e).
Proof.
  unfold upsert_entries_batch. intros H Hn. apply bind_Ok in H as (db1 & H1 & H2).
  set (path := fun x : Indexed => (scope, fc_logical_path x.2)) in *.
  assert (forall p, NoDup (fc_logical_path ∘ snd <$> List.filter p files)) as Hnf.
  { intros p. clear -Hn. induction files as [|x l IH]; cbn; [done|]. rewrite fmap_cons in Hn.
    apply NoDup_cons in Hn as [Hx Hn]. destruct (p x); cbn; [|auto]. apply NoDup_cons. split; [|auto].
    intros (y & E & Hy)%list_elem_of_fmap. apply elem_of_List_filter in Hy as [Hy _].
    apply Hx, list_elem_of_fmap. by exists y. }
  assert (forall x y, x ∈ files -> y ∈ files -> path x = path y -> x = y) as Hinj.
  { clear -Hn. intros x y Hx Hy [= E]. apply list_elem_of_lookup in Hx as [i Hi], Hy as [j Hj].
    assert (i = j) as <- by (eapply (NoDup_lookup _ i j (fc_logical_path x.2) Hn);
      rewrite list_lookup_fmap; [rewrite Hi|rewrite Hj]; cbn; congruence). congruence. }
  destruct (upserts_spec true _ _ _ _ _ H1 (Hnf _)) as (Hv1 & Hm1 & Hp1 & Ho1 & Hi1).
  destruct (upserts_spec false _ _ _ _ _ H2 (Hnf _)) as (Hv2 & Hm2 & Hp2 & Ho2 & Hi2).
  assert (forall (p : Indexed -> bool) k, k ∉ (path <$> files) -> k ∉ (path <$> List.filter p files)) as Hsub.
  { intros p k Hk (y & -> & Hy)%list_elem_of_fmap. apply elem_of_List_filter in Hy as [Hy _].
    apply Hk. by apply list_elem_of_fmap_2. }
  split_and!; [congruence..| |].
  - intros k Hk. by rewrite Ho2, Ho1 by auto.
  - intros x Hx. destruct (is_guarded x.2) eqn:Eg.
    + destruct (Hi1 x) as (e & He & Hu); [by apply elem_of_List_filter|]. exists e. split; [|done].
      rewrite Ho2; [done|]. intros (y & E & Hy)%list_elem_of_fmap. apply elem_of_List_filter in Hy as [Hy Hg].
      rewrite (Hinj x y Hx Hy E) in Eg. by rewrite Eg in Hg.
    + destruct (Hi2 x) as (e & He & Hu); [apply elem_of_List_filter; by rewrite Eg|]. exists e. split; [done|].
      rewrite Ho1 in Hu; [done|]. intros (y & E & Hy)%list_elem_of_fmap. apply elem_of_List_filter in Hy as [Hy Hg].
      rewrite (Hinj x y Hx Hy E) in Eg. by rewrite Eg in Hg.
Qed.

Lemma insert_pack_record_Ok now scope p db db' :
  insert_pack_record now scope p db = Ok db' ->
  exists t, db' = set_packs t db /\ db_packs db ⊆ t /\ is_Some (t !! (scope, pk_pack_key p)).
Proof.
  unfold insert_pack_record. destruct (db_packs db !! _) as [row|] eqn:E.
  - intros [= <-]. exists (db_packs db). split_and!; [by destruct db|done|eauto].
  - unfold insert_pack_record_direct. rewrite E. destruct (row_ok _); [|done]. intros [= <-].
    eexists. split_and!; [done|by apply insert_subseteq|]. rewrite lookup_insert_eq. eauto.
Qed.

Lemma insert_manifests_spec tx scope files db db' :
  insert_manifests_batch tx scope files db = Ok db' ->
  db_entries db' = db_entries db /\ db_versions db' = db_versions db /\ db_packs db' = db_packs db
  /\ db_manifests db ⊆ db_manifests db'
  /\ (forall x, x ∈ files -> db_manifests db' !! (scope, manifest_uuid tx x.1) = Some (fc_manifest x.2)
       /\ is_Some (db_packs db !! (scope, pack_of (fc_manifest x.2))))
  /\ (forall k fm, db_manifests db' !! k = Some fm -> db_manifests db !! k = Some fm
       \/ exists x, x ∈ files /\ k = (scope, manifest_uuid tx x.1) /\ fm = fc_manifest x.2).
Proof.
  revert db; induction files as [|x files IH]; intros db H; cbn in H.
  { injection H as <-. split_and!; [done..| |by auto]. intros ? Hx. by apply not_elem_of_nil in Hx. }
  destruct (insert_manifest _ _ _ _) as [db1|] eqn:E; [|done].
  destruct (insert_manifest_Ok _ _ _ _ _ E) as (-> & Hnone & Hpk).
  destruct (IH _ H) as (He & Hv & Hp & Hsub & Hin & Hnew). cbn in *.
  split_and!; [done..| | |].
  - etrans; [|exact Hsub]. by apply insert_subseteq.
  - intros y [->|Hy]%elem_of_cons; [|by apply Hin]. split; [|done].
    eapply lookup_weaken; [apply lookup_insert_eq | done].
  - intros k fm Hk. destruct (Hnew k fm Hk) as [Hk'|(y & Hy & -> & ->)].
    + destruct (decide (k = (scope, manifest_uuid tx x.1))) as [->|Hne].
      * rewrite lookup_insert_eq in Hk'. injection Hk' as <-. right. exists x. split; [set_solver|done].
      * rewrite lookup_insert_ne in Hk' by done. by left.
    + right. exists y. split; [set_solver|done].
Qed.

(** What promoting [x] makes of its path. *)
Definition promoted_at (tx : TxInputs) (scope : VfsIndexScope) (x : Indexed) (db db' : Db) : Prop :=
  let path := fc_logical_path x.2 in
  let old := default ∅ (db_versions db !! (scope, path)) in
  (exists e, db_entries db !! (scope, path) = Some e
     /\ db_entries db' !! (scope, path) = Some (promoted (tx_now tx) (version_uuid tx x.1) e))
  /\ (exists no, db_versions db' !! (scope, path) = Some (<[version_uuid tx x.1 :=
       MkVersionRow no (manifest_uuid tx x.1) (fm_content_hash (fc_manifest x.2))
         (fm_logical_size_bytes (fc_manifest x.2))]> old))
  /\ old !! version_uuid tx x.1 = None.

Lemma promote_version_Ok tx scope x expected db db' :
  promote_version tx scope x expected db = Ok db' ->
  promoted_at tx scope x db db'
  /\ (db_entries db !! (scope, fc_logical_path x.2) ≫= er_current_version) = expected
  /\ db_manifests db' = db_manifests db /\ db_packs db' = db_packs db
  /\ forall k, k <> (scope, fc_logical_path x.2) ->
     db_entries db' !! k = db_entries db !! k /\ db_versions db' !! k = db_versions db !! k.
Proof.
  unfold promote_version. intros H. inv_ok H.
  destruct (insert_version_Ok _ _ _ _ _ _ Hx) as (-> & Hnone & _). cbn in H.
  destruct (db_entries db !! (scope, fc_logical_path x.2)) as [e|] eqn:E; [|done].
  case_bool_decide as Ev; [|done]. injection H as <-. cbn. split_and!.
  - unfold promoted_at. cbn. split_and!; [|rewrite lookup_insert_eq; eauto|done].
    exists e. by rewrite lookup_insert_eq.
  - done.
  - done.
  - done.
  - intros k Hk. by rewrite !lookup_insert_ne by done.
Qed.

Lemma promotes_spec tx scope (files : list (Indexed * option string)) db db' :
  batch_promote_manifest_versions tx scope files db = Ok db' ->
  NoDup (fc_logical_path ∘ snd ∘ fst <$> files) ->
  db_manifests db' = db_manifests db /\ db_packs db' = db_packs db
  /\ (forall k, k ∉ ((fun y => (scope, fc_logical_path y.1.2)) <$> files) ->
      db_entries db' !! k = db_entries db !! k /\ db_versions db' !! k = db_versions db !! k)
  /\ (forall y, y ∈ files -> promoted_at tx scope y.1 db db'
       /\ (db_entries db !! (scope, fc_logical_path y.1.2) ≫= er_current_version) = expected_version y.2 y.1.2).
Proof.
  unfold batch_promote_manifest_versions.
  revert db; induction files as [|y files IH]; intros db H Hn; cbn in H.
  { injection H as <-. split_and!; [done..|]. intros ? Hx. by apply not_elem_of_nil in Hx. }
  destruct (promote_version _ _ _ _ _) as [db1|] eqn:E; [|done].
  destruct (promote_version_Ok _ _ _ _ _ _ E) as (Hat & Hexp & Hm1 & Hp1 & Ho1).
  rewrite fmap_cons in Hn. apply NoDup_cons in Hn as [Hx Hn]. cbn in Hx.
  destruct (IH _ H Hn) as (Hm & Hp & Ho & Hin).
  assert ((scope, fc_logical_path y.1.2) ∉ ((fun y : Indexed * option string => (scope, fc_logical_path y.1.2)) <$> files)) as Hny.
  { intros (z & [= E'] & Hz)%list_elem_of_fmap. apply Hx. rewrite E'.
    by apply (list_elem_of_fmap_2 (fc_logical_path ∘ snd ∘ fst)). }
  split_and!; [congruence..| |].
  - intros k Hk. rewrite fmap_cons in Hk. apply not_elem_of_cons in Hk as [Hk1 Hk2].
    destruct (Ho k Hk2) as [-> ->]. by apply Ho1.
  - intros z [->|Hz]%elem_of_cons.
    + split; [|done]. destruct (Ho _ Hny) as [He Hv]. unfold promoted_at in *. by rewrite He, Hv.
    + assert ((scope, fc_logical_path z.1.2) <> (scope, fc_logical_path y.1.2)) as Hne.
      { intros [= E']. apply Hny. rewrite <- E'.
        by apply (list_elem_of_fmap_2 (fun y : Indexed * option string => (scope, fc_logical_path y.1.2))). }
      destruct (Ho1 _ Hne) as [He Hv]. destruct (Hin z Hz) as [Hz1 Hz2]. rewrite He in Hz2.
      unfold promoted_at in *. by rewrite He, Hv in Hz1.
Qed.

Lemma indexed_snd files : (indexed files).*2 = files.
Proof. unfold indexed. apply snd_zip. by rewrite length_seq. Qed.

Lemma indexed_paths files : fc_logical_path ∘ snd <$> indexed files = fc_logical_path <$> files.
Proof. by rewrite list_fmap_compose, indexed_snd. Qed.

Lemma indexed_elem files x : x ∈ indexed files -> x.2 ∈ files.
Proof. intros H. rewrite <- (indexed_snd files). by apply list_elem_of_fmap_2. Qed.

Lemma elem_indexed files f : f ∈ files -> exists x, x ∈ indexed files /\ x.2 = f.
Proof. rewrite <- (indexed_snd files) at 1. intros (x & -> & Hx)%list_elem_of_fmap. eauto. Qed.

(** What a commit makes of the path of [x]. *)
Record committed_at (tx : TxInputs) (scope : VfsIndexScope) (x : Indexed) (db db' : Db) : Prop := {
  ca_entry : exists e, db_entries db' !! (scope, fc_logical_path x.2) = Some e
    /\ er_kind e = KFile /\ er_current_version e = Some (version_uuid tx x.1)
    /\ er_content_hash e = Some (fm_content_hash (fc_manifest x.2))
    /\ er_size_bytes e = fm_logical_size_bytes (fc_manifest x.2)
    /\ let fid := db_entries db !! (scope, fc_logical_path x.2) ≫= er_file_id in
       (is_Some (db_entries db !! (scope, fc_logical_path x.2)) /\ er_file_id e = fid) \/ (fid = None /\ er_file_id e = Some (identity_uuid tx x.1 x.2));
  ca_old : forall e, db_entries db !! (scope, fc_logical_path x.2) = Some e -> is_file e = true;
  ca_versions : exists no, db_versions db' !! (scope, fc_logical_path x.2) = Some (<[version_uuid tx x.1 :=
       MkVersionRow no (manifest_uuid tx x.1) (fm_content_hash (fc_manifest x.2))
         (fm_logical_size_bytes (fc_manifest x.2))]> (default ∅ (db_versions db !! (scope, fc_logical_path x.2))));
  ca_manifest : db_manifests db' !! (scope, manifest_uuid tx x.1) = Some (fc_manifest x.2);
}.

Record commit_effect (tx : TxInputs) (scope : VfsIndexScope) (files : list VfsPackedFileCommit) (db db' : Db) : Prop := {
  ce_other : forall k, k ∉ ((fun f => (scope, fc_logical_path f)) <$> files) ->
    db_entries db' !! k = db_entries db !! k /\ db_versions db' !! k = db_versions db !! k;
  ce_manifests : db_manifests db ⊆ db_manifests db';
  ce_new : forall k fm, db_manifests db' !! k = Some fm -> db_manifests db !! k = Some fm
    \/ exists x, x ∈ indexed files /\ k = (scope, manifest_uuid tx x.1) /\ fm = fc_manifest x.2;
  ce_packs : db_packs db ⊆ db_packs db';
  ce_linked : forall f, f ∈ files -> is_Some (db_packs db' !! (scope, pack_of (fc_manifest f)));
  ce_files : forall x, x ∈ indexed files -> committed_at tx scope x db db';
}.

Lemma resolved_is_file db scope files resolved f e :
  mapM_result (resolve_precondition db scope) files = Ok resolved -> f ∈ files ->
  db_entries db !! (scope, fc_logical_path f) = Some e -> is_file e = true.
Proof.
  intros H%mapM_result_Ok Hf He. apply list_elem_of_lookup in Hf as [i Hi].
  destruct (Forall2_lookup_l _ _ _ _ _ H Hi) as (v & _ & Hv). unfold resolve_precondition in Hv.
  rewrite He in Hv. cbn in Hv. destruct (is_file e); [done|]. discriminate.
Qed.

Lemma commit_effect_intro tx scope commit db paths db' :
  commit_packed_files tx scope commit db = Ok (paths, db') ->
  NoDup (fc_logical_path <$> cm_files commit) ->
  paths = fc_logical_path <$> cm_files commit /\ commit_effect tx scope (cm_files commit) db db'
  /\ validate_file_alias_snapshot db scope (cm_files commit) = true
  /\ exists resolved, mapM_result (resolve_precondition db scope) (cm_files commit) = Ok resolved
     /\ forall f v, (f, v) ∈ zip (cm_files commit) resolved ->
          (db_entries db !! (scope, fc_logical_path f) ≫= er_current_version) = expected_version v f.
Proof.
  unfold commit_packed_files. intros H Hn. set (files := cm_files commit) in *.
  destruct files as [|f0 fs] eqn:Ef.
  { injection H as <- <-. split_and!; [done| |done|exists []; split; [done|set_solver]]. split; [done|done|by left|done|set_solver|].
    intros x Hx. by apply not_elem_of_nil in Hx. }
  rewrite <- Ef in *. inv_ok H. injection H as <- <-.
  rename x0 into resolved, x1 into db1, x2 into db2, x3 into db3, x4 into db4.
  apply negb_false_iff in Hx. clear x.
  assert (NoDup (fc_logical_path ∘ snd <$> indexed files)) as Hni by (by rewrite indexed_paths).
  destruct (upsert_entries_spec _ _ _ _ _ Hx1 Hni) as (Hv1 & Hm1 & Hp1 & Ho1 & Hi1).
  destruct (insert_pack_record_Ok _ _ _ _ _ Hx2) as (t & -> & Hpsub & _).
  destruct (insert_manifests_spec _ _ _ _ _ Hx3) as (He3 & Hv3 & Hp3 & Hsub3 & Hi3 & Hnew3). cbn in *.
  assert (length resolved = length files) as Hlen.
  { apply mapM_result_Ok in Hx0. by apply Forall2_length in Hx0. }
  assert ((zip (indexed files) resolved).*1 = indexed files) as Hfst.
  { apply fst_zip. unfold indexed. rewrite length_zip, length_seq. lia. }
  assert (NoDup (fc_logical_path ∘ snd ∘ fst <$> zip (indexed files) resolved)) as Hnz
    by (rewrite list_fmap_compose, Hfst; done).
  destruct (promotes_spec _ _ _ _ _ Hx4 Hnz) as (Hm4 & Hp4 & Ho4 & Hi4).
  assert (forall x, x ∈ indexed files -> exists v, (x, v) ∈ zip (indexed files) resolved) as Hzin.
  { intros x Hx'. rewrite <- Hfst in Hx'. apply list_elem_of_fmap in Hx' as ([? v] & -> & Hin). eauto. }
  assert (forall k, k ∉ ((fun f => (scope, fc_logical_path f)) <$> files) ->
    k ∉ ((fun x : Indexed => (scope, fc_logical_path x.2)) <$> indexed files)) as Hk1.
  { intros k Hk (x & -> & Hx')%list_elem_of_fmap. apply Hk.
    apply (list_elem_of_fmap_2 (fun f => (scope, fc_logical_path f))). by apply indexed_elem. }
  assert (forall k, k ∉ ((fun f => (scope, fc_logical_path f)) <$> files) ->
    k ∉ ((fun y : Indexed * option string => (scope, fc_logical_path y.1.2)) <$> zip (indexed files) resolved)) as Hk2.
  { intros k Hk (y & -> & Hy)%list_elem_of_fmap. apply Hk.
    apply (list_elem_of_fmap_2 (fun f => (scope, fc_logical_path f))). apply indexed_elem.
    rewrite <- Hfst. by apply list_elem_of_fmap_2. }
  split_and!; [done| |done|].
  - split.
    + intros k Hk. destruct (Ho4 k (Hk2 k Hk)) as [-> ->]. rewrite He3, Hv3, Hv1. split; [|done].
      by apply Ho1, Hk1.
    + rewrite Hm4, <- Hm1. done.
    + intros k fm. rewrite Hm4. intros Hk. destruct (Hnew3 k fm Hk) as [Hk'|?]; [|by right]. left. by rewrite <- Hm1.
    + rewrite Hp4, Hp3. by rewrite <- Hp1.
    + intros f Hf. destruct (elem_indexed _ _ Hf) as (x & Hx' & <-). rewrite Hp4, Hp3. apply Hi3. done.
    + intros x Hx'. destruct (Hzin x Hx') as [v Hv]. destruct (Hi4 _ Hv) as [(He & Hvs & _) _]. cbn in *.
      destruct (Hi1 x Hx') as (e1 & He1 & Hu1). destruct He as (e & Hee & Hee').
      assert (e = e1) as -> by congruence. destruct Hu1 as (U1 & U2 & U3 & U4 & U5).
      split; cbn.
      * exists (promoted (tx_now tx) (version_uuid tx x.1) e1). by split_and!.
      * intros e0 He0. by eapply resolved_is_file; [exact Hx0|by apply indexed_elem|].
      * rewrite Hv3, Hv1 in Hvs. done.
      * rewrite Hm4. by apply Hi3.
  - exists resolved. split; [done|]. intros f v Hfv. apply list_elem_of_lookup in Hfv as [i Hi].
    apply lookup_zip_Some in Hi as [Hf Hv].
    assert (zip (indexed files) resolved !! i = Some ((i, f), v)) as Hz.
    { apply lookup_zip_Some. split; [|done]. unfold indexed. apply lookup_zip_Some. split; [|done].
      apply lookup_seq. split; [done|]. apply lookup_lt_Some in Hf. done. }
    apply list_elem_of_lookup_2 in Hz. destruct (Hi4 _ Hz) as [(He & _) Hexp]. cbn in *.
    assert ((i, f) ∈ indexed files) as Hif by (rewrite <- Hfst; by apply (list_elem_of_fmap_2 fst _ (i, f, v))).
    destruct (Hi1 (i, f) Hif) as (e1 & He1 & (_ & _ & _ & U4 & _)). cbn in *.
    rewrite He3, He1 in Hexp. cbn in Hexp. congruence.
Qed.
