(* ===== verification/NamespaceWf.v ===== *)
(** * The invariant of the namespace index

    Every file has a current version whose manifest describes it, every version
    has its manifest and every manifest its pack, and all the paths of one file
    identity carry the same content. Every operation of [NamespaceIndex.v] keeps
    this. *)

From S2P Require Import Prelude VfsTypes Pack ContentHash Manifest PackIndex PostgresIndex NamespaceIndex Compaction.
From Stdlib Require Import ZArith Lia.

Record db_wf (db : Db) : Prop := {
  wf_directory : forall k e, db_entries db !! k = Some e -> is_file e = false ->
    er_current_version e = None /\ er_file_id e = None;
  wf_file : forall scope path e, db_entries db !! (scope, path) = Some e -> is_file e = true ->
    is_Some (er_file_id e) /\ exists vid v, er_current_version e = Some vid /\ version_of db scope path vid = Some v
      /\ er_content_hash e = Some (vr_content_hash v) /\ er_size_bytes e = vr_logical_size_bytes v;
  wf_version : forall scope path vid v, version_of db scope path vid = Some v ->
    exists fm, db_manifests db !! (scope, vr_manifest_id v) = Some fm /\ fm_logical_path fm = path
      /\ fm_content_hash fm = vr_content_hash v /\ fm_logical_size_bytes fm = vr_logical_size_bytes v;
  wf_pack : forall k fm, db_manifests db !! k = Some fm -> is_Some (db_packs db !! (k.1, pack_of fm));
}.

Definition aliases_agree (db : Db) : Prop :=
  forall scope p q e f fid,
    db_entries db !! (scope, p) = Some e -> db_entries db !! (scope, q) = Some f ->
    is_file e = true -> is_file f = true -> er_file_id e = Some fid -> er_file_id f = Some fid ->
    er_content_hash e = er_content_hash f.

(** ** Lemmas: what the invariant depends on *)

(** Only the keys of the pack table matter. *)
Definition same_pack_keys (t t' : PackRows) : Prop := forall k, is_Some (t !! k) -> is_Some (t' !! k).

Lemma db_wf_packs db t : db_wf db -> same_pack_keys (db_packs db) t -> db_wf (set_packs t db).
Proof. intros [W1 W2 W3 W4] Ht. split; cbn; [done..|]. intros k fm Hk. apply Ht. by eapply W4. Qed.

Lemma update_refs_spec now scope db key db' :
  update_pack_reference_count now scope db key = Ok db' ->
  exists t, db' = set_packs t db /\ same_pack_keys (db_packs db) t.
Proof.
  unfold update_pack_reference_count. destruct (db_packs db !! (scope, key)) as [row|] eqn:E.
  - case_match; [|done]. intros [= <-]. eexists. split; [done|]. intros k Hk.
    destruct (decide (k = (scope, key))) as [->|]; [rewrite lookup_insert_eq; eauto|by rewrite lookup_insert_ne].
  - intros [= <-]. exists (db_packs db). split; [by destruct db|by intros k].
Qed.

Lemma update_all_refs_spec now scope keys db db' :
  foldM (update_pack_reference_count now scope) db keys = Ok db' ->
  exists t, db' = set_packs t db /\ same_pack_keys (db_packs db) t.
Proof.
  revert db; induction keys as [|key keys IH]; intros db; cbn.
  { intros [= <-]. exists (db_packs db). split; [by destruct db|by intros k]. }
  destruct (update_pack_reference_count _ _ _ _) as [db1|] eqn:E; [|done]. intros H.
  destruct (update_refs_spec _ _ _ _ _ E) as (t1 & -> & H1). destruct (IH _ H) as (t2 & -> & H2).
  exists t2. split; [done|]. intros k Hk. by apply H2, H1.
Qed.

Lemma is_file_kind e : is_file e = true <-> er_kind e = KFile.
Proof. unfold is_file. apply bool_decide_eq_true. Qed.

(** ** Directories *)

Lemma set_directory_wf db scope path e :
  db_wf db -> is_file e = false -> er_current_version e = None -> er_file_id e = None ->
  (forall e0, db_entries db !! (scope, path) = Some e0 -> is_file e0 = false) ->
  db_wf (set_entries (<[(scope, path) := e]> (db_entries db)) db).
Proof.
  intros [W1 W2 W3 W4] Hk Hv Hi Hold. split; cbn; [| |done|done].
  - intros k e'. destruct (decide (k = (scope, path))) as [->|].
    + rewrite lookup_insert_eq. intros [= <-]. done.
    + rewrite lookup_insert_ne by done. apply W1.
  - intros sc p e'. destruct (decide ((sc, p) = (scope, path))) as [->|].
    + rewrite lookup_insert_eq. intros [= <-]. congruence.
    + rewrite lookup_insert_ne by done. apply W2.
Qed.

Lemma set_directory_agree db scope path e :
  aliases_agree db -> is_file e = false -> aliases_agree (set_entries (<[(scope, path) := e]> (db_entries db)) db).
Proof.
  intros Ha Hk sc p q e1 e2 fid. cbn. rewrite !lookup_insert_Some.
  intros [[_ <-]|[_ H1]] [[_ <-]|[_ H2]]; try congruence. by eapply Ha.
Qed.

Lemma create_directory_keeps tx scope path parent name db r db' :
  create_directory tx scope path parent name db = Ok (r, db') -> db_wf db /\ aliases_agree db ->
  db_wf db' /\ aliases_agree db'.
Proof.
  unfold create_directory. intros H [Hwf Ha]. destruct (db_entries db !! (scope, path)) as [e|] eqn:E.
  - destruct (is_file e) eqn:Ef; [done|]. injection H as <- <-.
    split; [apply set_directory_wf; try done; [exact (proj2 (wf_directory _ Hwf _ _ E Ef))|congruence] | by apply set_directory_agree].
  - inv_ok H. injection H as <- <-. apply insert_entry_Ok in Hx as ->.
    split; [apply set_directory_wf; try done; congruence | by apply set_directory_agree].
Qed.

Lemma delete_entry_agree db db' k :
  db_entries db' = delete k (db_entries db) -> aliases_agree db -> aliases_agree db'.
Proof.
  intros E Ha sc p q e1 e2 fid. rewrite !E, !lookup_delete_Some. intros [_ ?] [_ ?]. by eapply Ha.
Qed.

Lemma remove_empty_directory_keeps scope path db r db' :
  remove_empty_directory scope path db = Ok (r, db') -> db_wf db /\ aliases_agree db ->
  db_wf db' /\ aliases_agree db'.
Proof.
  unfold remove_empty_directory. intros H [Hwf Ha]. destruct (db_entries db !! (scope, path)) as [e|] eqn:E;
    [|by injection H as <- <-].
  destruct (is_file e) eqn:Ef; [done|]. destruct (has_child db scope path); [done|]. injection H as <- <-.
  split; [|by eapply delete_entry_agree]. destruct Hwf as [W1 W2 W3 W4]. split; cbn; [| |done|done].
  - intros k e' [_ He']%lookup_delete_Some. by apply (W1 k).
  - intros sc p e' [_ He']%lookup_delete_Some. by apply W2.
Qed.

(** ** Deleting a path *)

Lemma delete_path_rows_keeps scope path db db' :
  delete_path_rows scope path db = Ok db' -> db_wf db /\ aliases_agree db -> db_wf db' /\ aliases_agree db'.
Proof.
  unfold delete_path_rows. intros H [Hwf Ha]. inv_ok H. injection H as <-.
  split; [|by eapply delete_entry_agree]. destruct Hwf as [W1 W2 W3 W4].
  assert (forall sc p vid v, (sc, p) <> (scope, path) -> version_of db sc p vid = Some v ->
    exists fm, filter (fun x => ~ owned_by scope path x) (db_manifests db) !! (sc, vr_manifest_id v) = Some fm
      /\ db_manifests db !! (sc, vr_manifest_id v) = Some fm) as Hman.
  { intros sc p vid v Hne Hv. destruct (W3 _ _ _ _ Hv) as (fm & Hfm & Hp & _). exists fm. split; [|done].
    apply map_lookup_filter_Some. split; [done|]. intros [E1 E2]. cbn in *. congruence. }
  assert (forall sc p vid, (sc, p) <> (scope, path) -> version_of (MkDb (delete (scope, path) (db_entries db))
    (delete (scope, path) (db_versions db)) (filter (fun x => ~ owned_by scope path x) (db_manifests db)) (db_packs db)) sc p vid
    = version_of db sc p vid) as Hvo.
  { intros sc p vid Hne. unfold version_of. cbn. by rewrite lookup_delete_ne. }
  split; cbn.
  - intros k e [_ He]%lookup_delete_Some. by apply (W1 k).
  - intros sc p e [Hne He]%lookup_delete_Some Hf. destruct (W2 _ _ _ He Hf) as (Hid & vid & v & Hv & Hver & Hr).
    split; [done|]. exists vid, v. rewrite Hvo by congruence. done.
  - intros sc p vid v Hv. destruct (decide ((sc, p) = (scope, path))) as [E|Hne].
    { unfold version_of in Hv. cbn in Hv. by rewrite E, lookup_delete_eq in Hv. }
    rewrite Hvo in Hv by done. destruct (Hman _ _ _ _ Hne Hv) as (fm & Hf & Hm).
    destruct (W3 _ _ _ _ Hv) as (fm' & Hm' & Hr). exists fm. split; [done|]. congruence.
  - intros k fm [Hk _]%map_lookup_filter_Some. by apply (W4 k).
Qed.

Lemma aliases_agree_entries db db' : db_entries db' = db_entries db -> aliases_agree db -> aliases_agree db'.
Proof. intros E Ha sc p q e1 e2 fid. rewrite !E. apply Ha. Qed.

Lemma update_all_refs_keeps now scope keys db db' :
  foldM (update_pack_reference_count now scope) db keys = Ok db' -> db_wf db /\ aliases_agree db ->
  db_wf db' /\ aliases_agree db'.
Proof.
  intros H [Hwf Ha]. destruct (update_all_refs_spec _ _ _ _ _ H) as (t & -> & Ht).
  split; [by apply db_wf_packs | by eapply aliases_agree_entries].
Qed.

Lemma delete_file_entry_keeps tx scope path expected db r db' :
  delete_file_entry tx scope path expected db = Ok (r, db') -> db_wf db /\ aliases_agree db ->
  db_wf db' /\ aliases_agree db'.
Proof.
  unfold delete_file_entry. intros H Hk. destruct (db_entries db !! (scope, path)) as [e|] eqn:E;
    [|by injection H as <- <-].
  destruct (is_file e); [|done]. cbn in H. inv_ok H. injection H as <- <-.
  eapply update_all_refs_keeps; [done|]. by eapply delete_path_rows_keeps.
Qed.

Lemma delete_with_precondition_keeps tx scope path cp fid ver db r db' :
  delete_file_entry_with_precondition tx scope path cp fid ver db = Ok (r, db') -> db_wf db /\ aliases_agree db ->
  db_wf db' /\ aliases_agree db'.
Proof.
  unfold delete_file_entry_with_precondition. intros H Hk. inv_ok H.
  destruct (db_entries db !! (scope, path)); [|by injection H as <- <-]. by eapply delete_file_entry_keeps.
Qed.

(** ** Renaming *)

Lemma move_versions_of (t : VersionTable) (scope : VfsIndexScope) (from to : string) (sc : VfsIndexScope) (p : string) :
  from <> to ->
  default ∅ (move_versions scope from to t !! (sc, p)) =
    if decide ((sc, p) = (scope, to)) then default ∅ (t !! (scope, from)) ∪ default ∅ (t !! (scope, to))
    else if decide ((sc, p) = (scope, from)) then ∅ else default ∅ (t !! (sc, p)).
Proof.
  intros Hne. unfold move_versions. destruct (t !! (scope, from)) as [vs|] eqn:E; cbn.
  - case_decide as E1; [by rewrite E1, lookup_insert_eq|]. rewrite lookup_insert_ne by congruence.
    case_decide as E2; [by rewrite E2, lookup_delete_eq|]. by rewrite lookup_delete_ne by congruence.
  - case_decide as E1; [by rewrite E1, (left_id_L ∅ (∪))|]. case_decide as E2; [by rewrite E2, E|done].
Qed.

Lemma version_of_rows db scope path vid v :
  version_of db scope path vid = Some v <-> default ∅ (db_versions db !! (scope, path)) !! vid = Some v.
Proof. unfold version_of. by destruct (db_versions db !! (scope, path)). Qed.

Lemma move_manifests_lookup (scope : VfsIndexScope) (from to : string) (m : ManifestTable) (k : VfsIndexScope * string) :
  move_manifests scope from to m !! k =
    (fun fm => if decide (owned_by scope from (k, fm)) then set_manifest_path to fm else fm) <$> m !! k.
Proof. unfold move_manifests. rewrite map_lookup_imap. by destruct (m !! k). Qed.

Lemma moved_manifest_pack (scope : VfsIndexScope) (from to : string) (m : ManifestTable) (k : VfsIndexScope * string) fm :
  move_manifests scope from to m !! k = Some fm -> exists fm0, m !! k = Some fm0 /\ pack_of fm = pack_of fm0.
Proof.
  rewrite move_manifests_lookup. intros (fm0 & -> & ->)%fmap_Some. exists fm0. split; [done|]. by case_decide.
Qed.

Lemma move_path_rows_versions now scope from to parent name e db db' sc p vid v :
  move_path_rows now scope from to parent name e db = Ok db' -> db_wf db -> from <> to ->
  version_of db' sc p vid = Some v ->
  exists q fm, version_of db sc q vid = Some v /\ db_manifests db' !! (sc, vr_manifest_id v) = Some fm
    /\ fm_logical_path fm = p /\ fm_content_hash fm = vr_content_hash v
    /\ fm_logical_size_bytes fm = vr_logical_size_bytes v.
Proof.
  unfold move_path_rows. intros H Hwf Hne Hv. inv_ok H. injection H as <-. cbn.
  apply version_of_rows in Hv. cbn in Hv. rewrite move_versions_of in Hv by done.
  assert (exists q, version_of db sc q vid = Some v /\
    ((sc = scope /\ q = from /\ p = to) \/ (q = p /\ ~ (sc = scope /\ q = from)))) as (q & Hq & Hcase).
  { case_decide as E1; [injection E1 as -> ->|case_decide as E2; [by rewrite lookup_empty in Hv|]].
    - apply lookup_union_Some_raw in Hv as [Hv|[_ Hv]]; apply version_of_rows in Hv; eauto 6.
      exists to. split; [done|]. right. split; [done|]. intros [_ E]. congruence.
    - exists p. split; [by apply version_of_rows|]. right. split; [done|]. intros [-> ->]. done. }
  exists q. destruct (wf_version _ Hwf _ _ _ _ Hq) as (fm & Hm & Hp & Hh & Hs).
  rewrite move_manifests_lookup, Hm. cbn. eexists. split; [done|]. split; [done|].
  destruct Hcase as [(-> & -> & ->)|[-> Hn]].
  - by rewrite decide_True.
  - rewrite decide_False; [done|]. intros [E1 E2]. cbn in *. apply Hn. by rewrite <- Hp, E2.
Qed.

(** Every file of [db'] carries the identity and content of one of [db]. *)
Definition entries_from (db db' : Db) : Prop :=
  forall scope p e', db_entries db' !! (scope, p) = Some e' -> is_file e' = true ->
  exists q e, db_entries db !! (scope, q) = Some e /\ is_file e = true
    /\ er_file_id e = er_file_id e' /\ er_content_hash e = er_content_hash e'.

Lemma entries_from_agree db db' : entries_from db db' -> aliases_agree db -> aliases_agree db'.
Proof.
  intros Hfrom Ha sc p q e f fid Hp Hq He Hf E1 E2.
  destruct (Hfrom _ _ _ Hp He) as (p0 & e0 & H0 & K0 & I0 & C0).
  destruct (Hfrom _ _ _ Hq Hf) as (q0 & f0 & H1 & K1 & I1 & C1).
  rewrite <- C0, <- C1. apply (Ha sc p0 q0 e0 f0 fid); congruence.
Qed.

Lemma move_path_rows_keeps now scope from to parent name e db db' :
  move_path_rows now scope from to parent name e db = Ok db' -> from <> to ->
  db_entries db !! (scope, from) = Some e -> is_file e = true -> db_wf db /\ aliases_agree db ->
  db_wf db' /\ aliases_agree db'.
Proof.
  intros H Hne Hfrom Hf [Hwf Ha]. pose proof (fun sc p vid v =>
    move_path_rows_versions now scope from to parent name e db db' sc p vid v H Hwf Hne) as Hvs.
  unfold move_path_rows in H. inv_ok H. injection H as <-. clear Hx x. cbn in *. split.
  - split; cbn.
    + intros k e'. rewrite lookup_insert_Some, lookup_delete_Some. intros [[<- <-]|(_ & _ & He')] Hk; [|by eapply wf_directory].
      change (is_file e = false) in Hk. congruence.
    + intros sc p e'. rewrite lookup_insert_Some, lookup_delete_Some. setoid_rewrite version_of_rows. cbn.
      setoid_rewrite move_versions_of; [|done]. intros [[[= <- <-] <-]|(Hk & Hk' & He')] Hf'.
      * destruct (wf_file _ Hwf _ _ _ Hfrom Hf) as (Hid & vid & v & Hv & Hver & Hr). split; [done|].
        exists vid, v. split; [done|]. split; [|done]. rewrite decide_True by done.
        apply lookup_union_Some_raw. left. by apply version_of_rows.
      * destruct (wf_file _ Hwf _ _ _ He' Hf') as (Hid & vid & v & Hv & Hver & Hr). split; [done|].
        exists vid, v. split; [done|]. split; [|done]. rewrite !decide_False by congruence. by apply version_of_rows.
    + intros sc p vid v Hv. destruct (Hvs _ _ _ _ Hv) as (_ & fm & _ & Hm). by exists fm.
    + intros k fm (fm0 & Hm & ->)%moved_manifest_pack. by eapply wf_pack.
  - eapply entries_from_agree; [|done]. intros sc p e'. cbn. rewrite lookup_insert_Some, lookup_delete_Some.
    intros [[[= <- <-] <-]|(_ & _ & He')] Hf'; eauto 10.
Qed.

Lemma delete_path_rows_entries scope path db db' :
  delete_path_rows scope path db = Ok db' -> db_entries db' = delete (scope, path) (db_entries db).
Proof. unfold delete_path_rows. intros H. inv_ok H. by injection H as <-. Qed.

Lemma rename_file_entry_keeps tx scope from to parent name allow db r db' :
  rename_file_entry tx scope from to parent name allow db = Ok (r, db') -> db_wf db /\ aliases_agree db ->
  db_wf db' /\ aliases_agree db'.
Proof.
  unfold rename_file_entry. intros H Hk. destruct (db_entries db !! (scope, from)) as [e|] eqn:E; [|done].
  destruct (is_file e) eqn:Ef; [|done]. cbn in H.
  destruct (String.eqb_spec from to) as [|Hne]; [by injection H as <- <-|]. inv_ok H.
  destruct (db_entries db !! (scope, to)) as [d|] eqn:Ed.
  - case_match; [by injection H as <- <-|]. inv_ok H. injection H as <- <-.
    eapply update_all_refs_keeps; [done|]. eapply move_path_rows_keeps; [done|done| |done|].
    + rewrite (delete_path_rows_entries _ _ _ _ Hx1), lookup_delete_ne by congruence. done.
    + by eapply delete_path_rows_keeps.
  - inv_ok H. injection H as <- <-. eapply update_all_refs_keeps; [done|]. by eapply move_path_rows_keeps.
Qed.

(** ** Hard links *)

Lemma put_manifest_wf db scope id fm :
  db_wf db -> db_manifests db !! (scope, id) = None -> is_Some (db_packs db !! (scope, pack_of fm)) ->
  db_wf (set_manifests (<[(scope, id) := fm]> (db_manifests db)) db).
Proof.
  intros [W1 W2 W3 W4] Hid Hpk. split; cbn; [done|done| |].
  - intros sc p vid v Hv. destruct (W3 _ _ _ _ Hv) as (fm' & Hm & Hr). exists fm'. split; [|done].
    rewrite lookup_insert_ne by congruence. done.
  - intros k fm'. rewrite lookup_insert_Some. intros [[<- <-]|[_ Hm]]; [done|by apply (W4 k)].
Qed.

Lemma put_version_wf db scope path vid v fm :
  let vs := default ∅ (db_versions db !! (scope, path)) in
  db_wf db -> vs !! vid = None -> db_manifests db !! (scope, vr_manifest_id v) = Some fm ->
  fm_logical_path fm = path -> fm_content_hash fm = vr_content_hash v ->
  fm_logical_size_bytes fm = vr_logical_size_bytes v ->
  db_wf (set_versions (<[(scope, path) := <[vid := v]> vs]> (db_versions db)) db).
Proof.
  intros vs [W1 W2 W3 W4] Hvid Hm Hp Hh Hs. split; cbn; [done| | |done].
  - intros sc p e He Hf. destruct (W2 _ _ _ He Hf) as (Hid & w & u & Hw & Hu & Hr). split; [done|].
    exists w, u. split; [done|]. split; [|done]. apply version_of_rows in Hu. apply version_of_rows. cbn.
    destruct (decide ((sc, p) = (scope, path))) as [[= -> ->]|]; [|by rewrite lookup_insert_ne by congruence].
    rewrite lookup_insert_eq. cbn. fold vs in Hu. rewrite lookup_insert_ne by congruence. done.
  - intros sc p w u Hu. apply version_of_rows in Hu. cbn in Hu.
    destruct (decide ((sc, p) = (scope, path))) as [[= -> ->]|Hne].
    + rewrite lookup_insert_eq in Hu. cbn in Hu. apply lookup_insert_Some in Hu as [[<- <-]|[_ Hu]]; [by exists fm|].
      eapply W3. by apply version_of_rows.
    + rewrite lookup_insert_ne in Hu by congruence. eapply W3. by apply version_of_rows.
Qed.

Lemma put_file_wf db scope path e vid v :
  db_wf db -> is_file e = true -> is_Some (er_file_id e) -> er_current_version e = Some vid ->
  version_of db scope path vid = Some v -> er_content_hash e = Some (vr_content_hash v) ->
  er_size_bytes e = vr_logical_size_bytes v ->
  db_wf (set_entries (<[(scope, path) := e]> (db_entries db)) db).
Proof.
  intros [W1 W2 W3 W4] Hf Hid Hvid Hv Hh Hs. split; cbn; [| |done|done].
  - intros k e'. rewrite lookup_insert_Some. intros [[<- <-]|[_ He]]; [congruence|by eapply W1].
  - intros sc p e'. rewrite lookup_insert_Some. intros [[[= <- <-] <-]|[_ He]]; [by eauto 10|by apply W2].
Qed.

Lemma with_file_id_same e fid : er_file_id e = Some fid -> with_file_id (default (er_id e) (er_file_id e)) e = e.
Proof. intros E. destruct e; cbn in *. by subst. Qed.

Lemma set_entry_same db k e : db_entries db !! k = Some e -> set_entries (<[k := e]> (db_entries db)) db = db.
Proof. intros E. unfold set_entries. rewrite insert_id by done. by destruct db. Qed.

Lemma create_hard_link_keeps tx scope source destination parent name db r db' :
  create_hard_link_entry tx scope source destination parent name db = Ok (r, db') -> db_wf db /\ aliases_agree db ->
  db_wf db' /\ aliases_agree db'.
Proof.
  unfold create_hard_link_entry. intros H [Hwf Ha]. destruct (db_entries db !! (scope, source)) as [e|] eqn:E; [|done].
  destruct (is_file e) eqn:Ef; [|done]. cbn [negb] in H.
  destruct (wf_file _ Hwf _ _ _ E Ef) as ([fid Hid] & vid & v & Hvid & Hv & Hh & Hs).
  rewrite (with_file_id_same _ _ Hid), set_entry_same, Hid in H by done. inv_ok H. cbn [default] in *.
  injection H as <- <-. apply insert_entry_Ok in Hx1 as ->. apply insert_manifest_Ok in Hx2 as (-> & Hnone & Hpk).
  apply insert_version_Ok in Hx3 as (-> & Hvn & _). destruct (update_refs_spec _ _ _ _ _ Hx4) as (t & -> & Ht).
  unfold manifest_of in Hx0. rewrite Hvid in Hx0. cbn in *. rewrite Hv in Hx0. cbn in Hx0.
  destruct (wf_version _ Hwf _ _ _ _ Hv) as (fm & Hfm & Hp & Hmh & Hms). rewrite Hfm in Hx0. injection Hx0 as <-.
  split.
  - apply db_wf_packs; [|done]. pose proof (put_manifest_wf _ _ _ _ Hwf Hnone Hpk) as Hwf1.
    eapply (put_version_wf _ scope destination (tx_uuid tx 2)
      (MkVersionRow 1 (tx_uuid tx 1) (fm_content_hash fm) (fm_logical_size_bytes fm))) in Hwf1; [|exact Hvn|..]; cbn in Hwf1;
      [|apply lookup_insert_eq|done..].
    eapply (put_file_wf _ scope destination (link_entry _ _ _ _ _ _ _) (tx_uuid tx 2)
      (MkVersionRow 1 (tx_uuid tx 1) (fm_content_hash fm) (fm_logical_size_bytes fm))) in Hwf1; [exact Hwf1|try done..].
    + apply version_of_rows. cbn [set_versions set_manifests db_versions]. rewrite lookup_insert_eq. apply lookup_insert_eq.
    + cbn. congruence.
    + cbn. congruence.
  - eapply entries_from_agree; [|done]. intros sc p e'. cbn. rewrite lookup_insert_Some.
    intros [[[= <- <-] <-]|[_ He']] Hf'; [|by eauto 10]. exists source, e. cbn. by split_and!.
Qed.

(** ** Commits *)

(** New identifiers are new: they differ from each other and name no file. *)
Record tx_fresh (tx : TxInputs) (scope : VfsIndexScope) (db : Db) : Prop := {
  tf_inj : forall i j, tx_uuid tx i = tx_uuid tx j -> i = j;
  tf_new : forall path e i, db_entries db !! (scope, path) = Some e -> er_file_id e <> Some (tx_uuid tx i);
}.

(** What [write_many_atomic] makes sure of before it commits: each path once,
    under the identity it has now, and one content per identity. *)
Record commit_ready (scope : VfsIndexScope) (files : list VfsPackedFileCommit) (db : Db) : Prop := {
  cr_paths : NoDup (fc_logical_path <$> files);
  cr_manifest : forall f, f ∈ files -> fm_logical_path (fc_manifest f) = fc_logical_path f;
  cr_identity : forall f, f ∈ files -> fc_file_id f = (db_entries db !! (scope, fc_logical_path f) ≫= er_file_id);
  cr_content : forall f g fid, f ∈ files -> g ∈ files -> fc_file_id f = Some fid -> fc_file_id g = Some fid ->
    fm_content_hash (fc_manifest f) = fm_content_hash (fc_manifest g);
}.

Section commit.
Context (tx : TxInputs) (scope : VfsIndexScope) (files : list VfsPackedFileCommit) (db db' : Db).
Context (Heff : commit_effect tx scope files db db').
Context (Hready : commit_ready scope files db) (Hfresh : tx_fresh tx scope db).

Lemma indexed_at (x y : Indexed) : x ∈ indexed files -> y ∈ indexed files -> x.1 = y.1 -> x = y.
Proof.
  unfold indexed. intros Hx Hy E. apply list_elem_of_lookup in Hx as [i Hi], Hy as [j Hj].
  destruct x as [a f], y as [b g]. cbn in E. subst b.
  apply lookup_zip_Some in Hi as [Hi1 Hi2], Hj as [Hj1 Hj2].
  apply lookup_seq in Hi1 as [-> _], Hj1 as [E _]. assert (i = j) as -> by lia. congruence.
Qed.

(** A path is the path of one file of the commit, or keeps its rows. *)
Lemma commit_path sc p :
  (exists x, x ∈ indexed files /\ sc = scope /\ p = fc_logical_path x.2)
  \/ (db_entries db' !! (sc, p) = db_entries db !! (sc, p) /\ db_versions db' !! (sc, p) = db_versions db !! (sc, p)
      /\ (sc, p) ∉ ((fun f => (scope, fc_logical_path f)) <$> files)).
Proof.
  destruct (decide ((sc, p) ∈ ((fun f => (scope, fc_logical_path f)) <$> files))) as [Hin|Hn].
  - apply list_elem_of_fmap in Hin as (f & [= -> ->] & Hf). destruct (elem_indexed _ _ Hf) as (x & Hx & <-).
    left. by exists x.
  - right. destruct (ce_other _ _ _ _ _ Heff _ Hn). done.
Qed.

Lemma committed_identity x e :
  db_wf db -> x ∈ indexed files -> db_entries db' !! (scope, fc_logical_path x.2) = Some e ->
  is_Some (er_file_id e)
  /\ (er_file_id e = fc_file_id x.2 \/ (fc_file_id x.2 = None /\ er_file_id e = Some (tx_uuid tx (4 * x.1 + 1)))).
Proof.
  intros Hwf Hx He. pose proof (ce_files _ _ _ _ _ Heff x Hx) as Hx'.
  rewrite (cr_identity _ _ _ Hready _ (indexed_elem _ _ Hx)).
  destruct (ca_entry _ _ _ _ _ Hx') as (e' & He' & _ & _ & _ & _ & Hid). assert (e' = e) as -> by congruence.
  destruct Hid as [[[e0 He0] Hid]|[Hnone Hid]].
  - split; [|by left]. rewrite Hid, He0. cbn. eapply wf_file; [done..|]. by eapply ca_old.
  - split; [by eexists|]. right. split; [done|]. rewrite Hid. unfold identity_uuid.
    by rewrite (cr_identity _ _ _ Hready _ (indexed_elem _ _ Hx)), Hnone.
Qed.

Lemma commit_keeps_wf : db_wf db -> db_wf db'.
Proof.
  intros Hwf. split.
  - intros [sc p] e He Hf. destruct (commit_path sc p) as [(x & Hx & -> & ->)|(E & _)].
    + destruct (ca_entry _ _ _ _ _ (ce_files _ _ _ _ _ Heff x Hx)) as (e' & He' & Hk & _).
      assert (e = e') as -> by congruence. apply is_file_kind in Hk. congruence.
    + rewrite E in He. by eapply wf_directory.
  - intros sc p e He Hf. destruct (commit_path sc p) as [(x & Hx & -> & ->)|(E & Ev & _)].
    + pose proof (ce_files _ _ _ _ _ Heff x Hx) as Hx'.
      destruct (ca_entry _ _ _ _ _ Hx') as (e' & He' & Hk & Hv & Hh & Hs & _).
      assert (e = e') as -> by congruence. destruct (ca_versions _ _ _ _ _ Hx') as [no Hno].
      split; [by eapply committed_identity|]. eexists _, _. split; [done|].
      split; [apply version_of_rows; rewrite Hno; apply lookup_insert_eq|]. done.
    + rewrite E in He. destruct (wf_file _ Hwf _ _ _ He Hf) as (Hid & vid & v & Hvid & Hv & Hr). split; [done|].
      exists vid, v. unfold version_of. rewrite Ev. done.
  - intros sc p vid v Hv. assert (version_of db sc p vid = Some v -> exists fm,
      db_manifests db' !! (sc, vr_manifest_id v) = Some fm /\ fm_logical_path fm = p
      /\ fm_content_hash fm = vr_content_hash v /\ fm_logical_size_bytes fm = vr_logical_size_bytes v) as Hold.
    { intros Hv0. destruct (wf_version _ Hwf _ _ _ _ Hv0) as (fm & Hm & Hr). exists fm. split; [|done].
      eapply lookup_weaken; [done|]. by eapply ce_manifests. }
    destruct (commit_path sc p) as [(x & Hx & -> & ->)|(_ & Ev & _)].
    + pose proof (ce_files _ _ _ _ _ Heff x Hx) as Hx'. destruct (ca_versions _ _ _ _ _ Hx') as [no Hno].
      apply version_of_rows in Hv. rewrite Hno in Hv. cbn [default id from_option] in Hv.
      apply lookup_insert_Some in Hv as [[<- <-]|[_ Hv]]; [|by apply Hold, version_of_rows].
      exists (fc_manifest x.2). cbn. split; [by apply (ca_manifest _ _ _ _ _ Hx')|]. split; [|done].
      by apply (cr_manifest _ _ _ Hready), indexed_elem.
    + apply Hold. unfold version_of in *. by rewrite Ev in Hv.
  - intros k fm Hk. destruct (ce_new _ _ _ _ _ Heff k fm Hk) as [Hk'|(x & Hx & -> & ->)].
    + destruct (wf_pack _ Hwf _ _ Hk') as [row Hr]. exists row. eapply lookup_weaken; [done|]. by eapply ce_packs.
    + by eapply ce_linked, indexed_elem.
Qed.

(** The aliases of an identity the commit writes through are all written. *)
Lemma alias_committed p e f fid :
  validate_file_alias_snapshot db scope files = true -> f ∈ files -> fc_file_id f = Some fid ->
  db_entries db !! (scope, p) = Some e -> is_file e = true -> er_file_id e = Some fid ->
  (scope, p) ∈ ((fun f => (scope, fc_logical_path f)) <$> files).
Proof.
  unfold validate_file_alias_snapshot. intros Hval Hf Hid He Hfile Hfid.
  rewrite forallb_forall in Hval. specialize (Hval fid).
  rewrite bool_decide_eq_true in Hval. assert (p ∈ expected_aliases files fid) as Hp.
  { rewrite <- Hval.
    - apply elem_of_list_to_set. unfold alias_rows. apply list_elem_of_fmap. exists ((scope, p), e). split; [done|].
      apply elem_of_List_filter. split; [by apply elem_of_map_to_list|]. cbn.
      rewrite Hfile, !bool_decide_true by done. done.
    - apply list_elem_of_In, list_elem_of_omap. eauto. }
  unfold expected_aliases in Hp. apply elem_of_list_to_set, list_elem_of_fmap in Hp as (g & -> & Hg).
  apply elem_of_List_filter in Hg as [Hg _]. by apply (list_elem_of_fmap_2 (fun f => (scope, fc_logical_path f))).
Qed.

Lemma commit_alias_apart x p q e f fid :
  db_wf db -> validate_file_alias_snapshot db scope files = true ->
  x ∈ indexed files -> p = fc_logical_path x.2 -> (scope, q) ∉ ((fun f => (scope, fc_logical_path f)) <$> files) ->
  db_entries db' !! (scope, p) = Some e -> db_entries db !! (scope, q) = Some f -> is_file f = true ->
  er_file_id e = Some fid -> er_file_id f = Some fid -> False.
Proof.
  intros Hwf Hval Hx -> Hq He Hf Hff E1 E2.
  destruct (committed_identity x e Hwf Hx He) as [_ [Hid|[_ Hid]]].
  - apply Hq. eapply (alias_committed q f x.2 fid); try done; [by apply indexed_elem|congruence].
  - eapply (tf_new _ _ _ Hfresh q f); [done|]. by rewrite E2, <- Hid, E1.
Qed.

Lemma commit_keeps_agree :
  db_wf db -> validate_file_alias_snapshot db scope files = true -> aliases_agree db -> aliases_agree db'.
Proof.
  intros Hwf Hval Ha sc p q e f fid He Hf Hke Hkf E1 E2.
  destruct (commit_path sc p) as [(x & Hx & Es & Ep)|(Ep & _ & Hp)];
    destruct (commit_path sc q) as [(y & Hy & Es2 & Eq)|(Eq & _ & Hq)]; subst.
  - destruct (committed_identity x e Hwf Hx He) as [_ Hi]. destruct (committed_identity y f Hwf Hy Hf) as [_ Hj].
    destruct (ca_entry _ _ _ _ _ (ce_files _ _ _ _ _ Heff x Hx)) as (e' & He' & _ & _ & Hh & _).
    destruct (ca_entry _ _ _ _ _ (ce_files _ _ _ _ _ Heff y Hy)) as (f' & Hf' & _ & _ & Hg & _).
    assert (e' = e) as -> by congruence. assert (f' = f) as -> by congruence. rewrite Hh, Hg. f_equal.
    assert (forall z w i, z ∈ indexed files -> fc_file_id z.2 = Some w -> Some w = Some (tx_uuid tx i) -> False) as Hno.
    { intros z w i Hz Hw [= ->]. rewrite (cr_identity _ _ _ Hready _ (indexed_elem _ _ Hz)) in Hw.
      apply bind_Some in Hw as (e0 & He0 & Hw). by eapply tf_new. }
    destruct Hi as [Hi|[_ Hi]], Hj as [Hj|[_ Hj]].
    + eapply (cr_content _ _ _ Hready x.2 y.2 fid); try (by apply indexed_elem); congruence.
    + exfalso. apply (Hno x fid (4 * y.1 + 1)); [done|congruence|congruence].
    + exfalso. apply (Hno y fid (4 * x.1 + 1)); [done|congruence|congruence].
    + assert (4 * x.1 + 1 = 4 * y.1 + 1) as Ei by (apply (tf_inj _ _ _ Hfresh); congruence).
      rewrite (indexed_at x y Hx Hy) by lia. done.
  - exfalso. eapply (commit_alias_apart x _ q e f fid); try done. congruence.
  - exfalso. eapply (commit_alias_apart y _ p f e fid); try done. congruence.
  - rewrite Ep in He. rewrite Eq in Hf. by eapply Ha.
Qed.
End commit.

Lemma commit_packed_files_keeps tx scope commit db r db' :
  commit_packed_files tx scope commit db = Ok (r, db') ->
  commit_ready scope (cm_files commit) db -> tx_fresh tx scope db ->
  db_wf db /\ aliases_agree db -> db_wf db' /\ aliases_agree db'.
Proof.
  intros H Hr Hfresh [Hwf Ha].
  destruct (commit_effect_intro _ _ _ _ _ _ H (cr_paths _ _ _ Hr)) as (_ & Heff & Hval & _).
  split; [by eapply commit_keeps_wf | by eapply commit_keeps_agree].
Qed.

(** ** What the operations of the namespace index may bring in

    Apart from a commit, no operation makes up content or identities: every
    manifest afterwards names the slot and the hash of an earlier one, and every
    file identity is an earlier one or was drawn for the transaction. Creating
    directories leaves every file as it was. *)

Definition same_content (fm fm' : VfsFileManifest) : Prop :=
  fm_content_hash fm' = fm_content_hash fm /\ fm_pack_slot fm' = fm_pack_slot fm.

Definition manifests_from (db db' : Db) : Prop :=
  forall k fm', db_manifests db' !! k = Some fm' -> exists k0 fm, db_manifests db !! k0 = Some fm /\ same_content fm fm'.

Definition identity_in (db : Db) (fid : string) : Prop :=
  exists k e, db_entries db !! k = Some e /\ er_file_id e = Some fid.

Definition identities_from (tx : TxInputs) (db db' : Db) : Prop :=
  forall fid, identity_in db' fid -> identity_in db fid \/ exists i, fid = tx_uuid tx i.

(** The frame of one transaction. *)
Record frame (tx : TxInputs) (db db' : Db) : Prop := {
  fr_manifests : manifests_from db db';
  fr_identities : identities_from tx db db';
}.

Lemma frame_refl tx db : frame tx db db.
Proof. split; [|by left]. intros k fm Hk. exists k, fm. by split_and!. Qed.

Lemma frame_trans tx db1 db2 db3 : frame tx db1 db2 -> frame tx db2 db3 -> frame tx db1 db3.
Proof.
  intros [M1 I1] [M2 I2]. split.
  - intros k fm Hk. destruct (M2 _ _ Hk) as (k0 & fm0 & H0 & E1 & E2). destruct (M1 _ _ H0) as (k1 & fm1 & H1 & E3 & E4).
    exists k1, fm1. split; [done|]. split; congruence.
  - intros fid Hf. destruct (I2 _ Hf) as [Hf'|]; [by apply I1|by right].
Qed.

(** Only the entries and manifests count. *)
Lemma frame_same tx db db' :
  db_entries db' = db_entries db -> db_manifests db' = db_manifests db -> frame tx db db'.
Proof.
  intros E1 E2. split.
  - intros k fm. rewrite E2. intros Hk. exists k, fm. by split_and!.
  - intros fid (k & e & Hk & He). left. exists k, e. by rewrite <- E1.
Qed.

Lemma frame_insert tx db k e :
  (forall fid, er_file_id e = Some fid -> identity_in db fid \/ exists i, fid = tx_uuid tx i) ->
  frame tx db (set_entries (<[k := e]> (db_entries db)) db).
Proof.
  intros He. split; [intros k' fm Hk; exists k', fm; by split_and!|].
  intros fid (k' & e' & Hk & E). cbn in Hk. apply lookup_insert_Some in Hk as [[<- <-]|[_ Hk]]; [by apply He|]. left. by exists k', e'.
Qed.

Lemma frame_sub tx db db' :
  db_entries db' ⊆ db_entries db -> db_manifests db' ⊆ db_manifests db -> frame tx db db'.
Proof.
  intros E1 E2. split.
  - intros k fm Hk. exists k, fm. split; [by eapply lookup_weaken|done].
  - intros fid (k & e & Hk & He). left. exists k, e. split; [by eapply lookup_weaken|done].
Qed.

Lemma create_directory_frame tx scope path parent name db r db' :
  create_directory tx scope path parent name db = Ok (r, db') -> frame tx db db'.
Proof.
  unfold create_directory. destruct (db_entries db !! (scope, path)) as [e|] eqn:E.
  - destruct (is_file e); [done|]. intros [= <- <-]. apply frame_insert. cbn. intros fid Hf. left. by exists (scope, path), e.
  - intros H. inv_ok H. injection H as <- <-. apply insert_entry_Ok in Hx as ->. by apply frame_insert.
Qed.

Lemma remove_empty_directory_frame tx scope path db r db' :
  remove_empty_directory scope path db = Ok (r, db') -> frame tx db db'.
Proof.
  unfold remove_empty_directory. destruct (db_entries db !! (scope, path)); [|intros [= <- <-]; apply frame_refl].
  destruct (is_file _); [done|]. destruct (has_child db scope path); [done|]. intros [= <- <-].
  apply frame_sub; cbn; [apply delete_subseteq|done].
Qed.

Lemma delete_path_rows_frame tx scope path db db' : delete_path_rows scope path db = Ok db' -> frame tx db db'.
Proof.
  unfold delete_path_rows. intros H. inv_ok H. injection H as <-.
  apply frame_sub; cbn; [apply delete_subseteq|apply map_filter_subseteq].
Qed.

Lemma update_refs_frame tx now scope keys db db' :
  foldM (update_pack_reference_count now scope) db keys = Ok db' -> frame tx db db'.
Proof. intros H. destruct (update_all_refs_spec _ _ _ _ _ H) as (t & -> & _). by apply frame_same. Qed.

Lemma delete_with_precondition_frame tx scope path cp fid ver db r db' :
  delete_file_entry_with_precondition tx scope path cp fid ver db = Ok (r, db') -> frame tx db db'.
Proof.
  unfold delete_file_entry_with_precondition. intros H. inv_ok H.
  destruct (db_entries db !! (scope, path)) as [e|] eqn:E; [|injection H as <- <-; apply frame_refl].
  unfold delete_file_entry in H. rewrite E in H. destruct (is_file e); [|done]. cbn [negb] in H. inv_ok H.
  injection H as <- <-. eapply frame_trans; [by eapply delete_path_rows_frame|by eapply update_refs_frame].
Qed.

Lemma move_path_rows_frame tx now scope from to parent name e db db' :
  move_path_rows now scope from to parent name e db = Ok db' -> db_entries db !! (scope, from) = Some e -> frame tx db db'.
Proof.
  unfold move_path_rows. intros H He. inv_ok H. injection H as <-. split; cbn.
  - intros k fm. cbn. rewrite move_manifests_lookup. intros (fm0 & Hk & ->)%fmap_Some. exists k, fm0. split; [done|].
    by case_decide.
  - intros fid (k & e' & Hk & E). cbn in Hk. left. rewrite lookup_insert_Some, lookup_delete_Some in Hk.
    destruct Hk as [[<- <-]|(_ & _ & Hk)]; [by exists (scope, from), e|by exists k, e'].
Qed.

Lemma rename_file_entry_frame tx scope from to parent name allow db r db' :
  rename_file_entry tx scope from to parent name allow db = Ok (r, db') -> frame tx db db'.
Proof.
  unfold rename_file_entry. intros H. destruct (db_entries db !! (scope, from)) as [e|] eqn:E; [|done].
  destruct (is_file e); [|done]. cbn [negb] in H.
  destruct (String.eqb_spec from to) as [|Hne]; [injection H as <- <-; apply frame_refl|]. inv_ok H.
  destruct (db_entries db !! (scope, to)) as [d|] eqn:Ed.
  - case_match; [injection H as <- <-; apply frame_refl|]. inv_ok H. injection H as <- <-.
    eapply frame_trans; [by eapply delete_path_rows_frame|].
    eapply frame_trans; [eapply move_path_rows_frame; [done|]|by eapply update_refs_frame].
    by rewrite (delete_path_rows_entries _ _ _ _ Hx1), lookup_delete_ne by congruence.
  - inv_ok H. injection H as <- <-.
    eapply frame_trans; [by eapply move_path_rows_frame|by eapply update_refs_frame].
Qed.

Lemma create_hard_link_frame tx scope source destination parent name db r db' :
  create_hard_link_entry tx scope source destination parent name db = Ok (r, db') -> db_wf db -> frame tx db db'.
Proof.
  unfold create_hard_link_entry. intros H Hwf. destruct (db_entries db !! (scope, source)) as [e|] eqn:E; [|done].
  destruct (is_file e) eqn:Ef; [|done]. cbn [negb] in H.
  destruct (wf_file _ Hwf _ _ _ E Ef) as ([fid Hid] & _).
  rewrite (with_file_id_same _ _ Hid), set_entry_same, Hid in H by done. inv_ok H. injection H as <- <-.
  apply insert_entry_Ok in Hx1 as ->. apply insert_manifest_Ok in Hx2 as (-> & _ & _).
  apply insert_version_Ok in Hx3 as (-> & _). destruct (update_refs_spec _ _ _ _ _ Hx4) as (t & -> & _). split.
  - intros k fm'. cbn. intros [[<- <-]|[_ Hk]]%lookup_insert_Some; [|by exists k, fm'].
    unfold manifest_of in Hx0. apply bind_Some in Hx0 as (vid & _ & Hm). apply bind_Some in Hm as (v & _ & Hm).
    by exists (scope, vr_manifest_id v), x0.
  - intros f (k & e' & Hk & E'). cbn in Hk. apply lookup_insert_Some in Hk as [[<- <-]|[_ Hk]]; [|left; by exists k, e'].
    left. exists (scope, source), e. cbn in E'. injection E' as <-. done.
Qed.

(** ** Directories and files *)

(** The files, with everything a read or a write looks at. *)
Definition same_files (db db' : Db) : Prop :=
  db_versions db' = db_versions db /\ db_manifests db' = db_manifests db /\ db_packs db' = db_packs db
  /\ forall k e, is_file e = true -> db_entries db' !! k = Some e <-> db_entries db !! k = Some e.

Lemma same_files_refl db : same_files db db.
Proof. done. Qed.

Lemma same_files_trans db1 db2 db3 : same_files db1 db2 -> same_files db2 db3 -> same_files db1 db3.
Proof.
  intros (V1 & M1 & P1 & E1) (V2 & M2 & P2 & E2). split_and!; [congruence..|].
  intros k e He. rewrite E2, E1; done.
Qed.

Lemma create_directory_same tx scope path parent name db r db' :
  create_directory tx scope path parent name db = Ok (r, db') -> same_files db db'.
Proof.
  assert (forall k d, is_file d = false -> (forall e, db_entries db !! k = Some e -> is_file e = false) ->
    same_files db (set_entries (<[k := d]> (db_entries db)) db)) as Hput.
  { intros k d Hd Hold. split_and!; [done..|]. intros k' e He. cbn. rewrite lookup_insert_Some. split.
    - intros [[_ <-]|[_ ?]]; [congruence|done].
    - intros Hk. right. split; [|done]. intros <-. specialize (Hold _ Hk). congruence. }
  unfold create_directory. destruct (db_entries db !! (scope, path)) as [e|] eqn:E.
  - destruct (is_file e) eqn:Ef; [done|]. intros [= <- <-]. apply Hput; [done|]. congruence.
  - intros H. inv_ok H. injection H as <- <-. apply insert_entry_Ok in Hx as ->. apply Hput; [done|]. congruence.
Qed.

Lemma manifest_of_versions db db' scope path e :
  db_versions db' !! (scope, path) = db_versions db !! (scope, path) -> db_manifests db ⊆ db_manifests db' ->
  (forall vid v, version_of db scope path vid = Some v -> is_Some (db_manifests db !! (scope, vr_manifest_id v))) ->
  manifest_of db' scope path e = manifest_of db scope path e.
Proof.
  intros Ev Hm Hlinked. unfold manifest_of, version_of. rewrite Ev. destruct (er_current_version e) as [vid|]; [|done]. cbn.
  destruct (db_versions db !! (scope, path) ≫= fun vs => vs !! vid) as [v|] eqn:E; [|done]. cbn.
  destruct (Hlinked vid v E) as [fm Hfm]. rewrite Hfm. by eapply lookup_weaken.
Qed.

Lemma same_files_current db db' scope path :
  same_files db db' -> get_current_file_manifest db' scope path = get_current_file_manifest db scope path.
Proof.
  intros (V & M & P & E). unfold get_current_file_manifest, manifest_of, version_of. rewrite V, M.
  destruct (db_entries db !! (scope, path)) as [e|] eqn:Ee; cbn.
  - destruct (is_file e) eqn:Ef.
    + apply E in Ee as ->; [|done]. cbn. by rewrite Ef.
    + destruct (db_entries db' !! (scope, path)) as [e'|] eqn:Ee'; [|done]. cbn. destruct (is_file e') eqn:Ef'; [|done].
      apply E in Ee'; [|done]. congruence.
  - destruct (db_entries db' !! (scope, path)) as [e'|] eqn:Ee'; [|done]. cbn. destruct (is_file e') eqn:Ef'; [|done].
    apply E in Ee'; [|done]. congruence.
Qed.
