(* ===== verification/ObjectStorage.v ===== *)
(** * Object-backed storage

    [ObjectBackedVfsStorage] of [vfs/src/object_storage.rs]: files as slots of
    immutable pack objects, found through the namespace index, behind a cache of
    whole packs and a cache of small files. The index and the object store are
    shared by every client; the two caches belong to one. Calls to either may
    fail: a query without an answer, a transaction or an upload with or without
    its effect. The iteration order of a [HashMap] and the completion order of
    concurrent fetches are arbitrary: [hash_order] permutes a list. *)

From S2P Require Import Prelude VfsTypes Pack ContentHash PackCache Manifest PackIndex PostgresIndex Compaction PackStore NamespaceIndex.
From Stdlib Require Import ZArith Lia Ascii.

Definition DEFAULT_PACK_CACHE_MAX_BYTES : Z := 64 * 1024 * 1024.
Definition DEFAULT_SMALL_FILE_CACHE_MAX_BYTES : Z := 256 * 1024.
Definition MAX_SMALL_FILE_CACHE_ENTRIES : Z := 4096.
Definition MAX_SMALL_FILE_CACHE_TOTAL_BYTES : Z := 64 * 1024 * 1024.
Definition MAX_READ_RANGE_GAP : Z := 4 * 1024.

Record ObjectBackedVfsStorageConfig := MkStorageConfig {
  cfg_scope : VfsIndexScope;
  cfg_pack_key_prefix : string;
  cfg_pack_cache_max_bytes : Z;
  cfg_small_file_cache_max_bytes : Z;
}.

Definition default_storage_config (scope : VfsIndexScope) : ObjectBackedVfsStorageConfig :=
  MkStorageConfig scope "packs" DEFAULT_PACK_CACHE_MAX_BYTES DEFAULT_SMALL_FILE_CACHE_MAX_BYTES.

(** ** The small-file cache *)

Record CachedObjectFile := MkCachedFile {
  cf_content_hash : string;
  cf_bytes : bytes;
  cf_last_touched : Z;
}.

Record SmallFileCache := MkFiles {
  sf_entries : gmap string CachedObjectFile;
  sf_sequence : Z;
  sf_total_bytes : Z;
}.

Definition SmallFileCache_new : SmallFileCache := MkFiles ∅ 0 0.

Definition cached_file_bytes (path hash : string) (c : SmallFileCache) : option bytes * SmallFileCache :=
  let seq := sat_add (sf_sequence c) 1 in
  match sf_entries c !! path with
  | None => (None, MkFiles (sf_entries c) seq (sf_total_bytes c))
  | Some e =>
      if String.eqb (cf_content_hash e) hash
      then (Some (cf_bytes e),
            MkFiles (<[path := MkCachedFile (cf_content_hash e) (cf_bytes e) seq]> (sf_entries c)) seq (sf_total_bytes c))
      else (None, MkFiles (sf_entries c) seq (sf_total_bytes c))
  end.

Definition file_cache_remove (path : string) (c : SmallFileCache) : SmallFileCache :=
  match sf_entries c !! path with
  | Some e => MkFiles (delete path (sf_entries c)) (sf_sequence c) (sat_sub (sf_total_bytes c) (zlen (cf_bytes e)))
  | None => c
  end.

Definition invalidate_file_bytes (path : string) (c : SmallFileCache) : SmallFileCache := file_cache_remove path c.

Definition by_touch (x y : string * CachedObjectFile) : Prop := (cf_last_touched x.2 <= cf_last_touched y.2)%Z.
Global Instance by_touch_dec : RelDecision by_touch.
Proof. intros x y. unfold by_touch. apply _. Defined.

Definition cache_within (entries bytes : Z) (c : SmallFileCache) : bool :=
  ((Z.of_nat (size (sf_entries c)) <=? entries) && (sf_total_bytes c <=? bytes))%Z.

Definition TARGET_ENTRIES : Z := Z.min U64_MAX (MAX_SMALL_FILE_CACHE_ENTRIES * 3) / 4.
Definition TARGET_BYTES : Z := Z.min U64_MAX (MAX_SMALL_FILE_CACHE_TOTAL_BYTES * 3) / 4.

Fixpoint prune_loop (oldest : list string) (c : SmallFileCache) : SmallFileCache :=
  match oldest with
  | [] => c
  | path :: rest =>
      if cache_within TARGET_ENTRIES TARGET_BYTES c then c else prune_loop rest (file_cache_remove path c)
  end.

(** ** Paths *)

Definition slash : ascii := "/"%char.

Definition path_parts (path : string) : string * string :=
  let trimmed := Prelude.trim_matches slash path in
  match rsplit_once slash trimmed with
  | Some (parent, name) => (parent, name)
  | None => (EmptyString, trimmed)
  end.

(** The directories [create_dir_all_metadata] asks for: path, parent, name. *)
Definition push_segment (current segment : string) : string :=
  if is_empty_str current then segment else current +:+ "/" +:+ segment.

Fixpoint dir_chain (current : string) (segments : list string) : list (string * string * string) :=
  match segments with
  | [] => []
  | segment :: rest =>
      let next := push_segment current segment in
      let parent := match rsplit_once slash next with Some (p, _) => p | None => EmptyString end in
      (next, parent, segment) :: dir_chain next rest
  end.

Definition dirs_for (path : string) : list (string * string * string) :=
  let trimmed := Prelude.trim_matches slash path in
  if is_empty_str trimmed then [] else dir_chain EmptyString (split_on slash trimmed).

(** The ancestors of a write, outermost first, each with its own parent. *)
Fixpoint ancestors (current : string) (segments : list string) : list (string * (string * string)) :=
  match segments with
  | [] => []
  | segment :: rest =>
      let next := push_segment current segment in
      (next, (current, segment)) :: ancestors next rest
  end.

Definition non_empty_str (s : string) : bool := negb (is_empty_str s).

Definition write_ancestors (path : string) : list (string * (string * string)) :=
  ancestors EmptyString (List.filter non_empty_str (split_on slash (Prelude.trim_matches slash (path_parts path).1))).

Fixpoint count_char (c : ascii) (s : string) : nat :=
  match s with EmptyString => 0 | String a s' => (if Ascii.eqb a c then 1 else 0) + count_char c s' end.

(** By depth, then by name. *)
Definition dir_order (x y : string * (string * string)) : Prop :=
  count_char slash x.1 < count_char slash y.1 \/ (count_char slash x.1 = count_char slash y.1 /\ str_le x.1 y.1).
Global Instance dir_order_dec : RelDecision dir_order.
Proof. intros x y. unfold dir_order. apply _. Defined.

(** ** Reads of many slots of one pack *)

Record ReadSlot := MkReadSlot {
  rs_path : string;
  rs_content_hash : string;
  rs_offset : Z;
  rs_length : Z;
}.

Definition slot_order (x y : ReadSlot) : Prop := (rs_offset x <= rs_offset y)%Z.
Global Instance slot_order_dec : RelDecision slot_order.
Proof. intros x y. unfold slot_order. apply _. Defined.

(** [i64::saturating_sub]. *)
Definition i64_sat_sub (a b : Z) : Z := Z.max I64_MIN (Z.min I64_MAX (a - b)).

Definition slot_end (s : ReadSlot) : Z := as_i64 (rs_offset s + rs_length s).

Definition extends_range (range : list ReadSlot) (slot : ReadSlot) : bool :=
  match last range with
  | Some l => (i64_sat_sub (rs_offset slot) (slot_end l) <=? MAX_READ_RANGE_GAP)%Z
  | None => false
  end.

(** [ranges.last_mut()]: the ranges built so far, the open one last. *)
Definition push_slot (ranges : list (list ReadSlot)) (slot : ReadSlot) : list (list ReadSlot) :=
  match last ranges with
  | Some range =>
      if extends_range range slot then removelast ranges ++ [range ++ [slot]] else ranges ++ [[slot]]
  | None => ranges ++ [[slot]]
  end.

Definition coalesce_read_slots (slots : list ReadSlot) : list (list ReadSlot) :=
  foldl push_slot [] (merge_sort slot_order slots).

(** ** State *)

Record Shared := MkShared {
  sh_db : Db;
  sh_store : ObjectStorePackBlobStore;
  sh_tick : nat; (* index calls made so far *)
}.

Record ObjectBackedVfsStorage := MkStorage {
  st_shared : Shared;
  st_packs : PackCache;
  st_files : SmallFileCache;
}.

Definition st_db (st : ObjectBackedVfsStorage) : Db := sh_db (st_shared st).
Definition st_objects (st : ObjectBackedVfsStorage) : gmap string bytes := os_objects (sh_store (st_shared st)).

(** A fallible call on the state; an error keeps what was done before it. *)
Definition Op (A : Type) : Type := ObjectBackedVfsStorage -> VfsStorageResult A * ObjectBackedVfsStorage.

Global Instance op_ret : MRet Op := fun A a st => (Ok a, st).
Global Instance op_bind : MBind Op := fun A B f m st =>
  match m st with (Ok a, st') => f a st' | (Err e, st') => (Err e, st') end.

Definition lift {A} (r : VfsStorageResult A) : Op A := fun st => (r, st).

Definition with_files {A} (f : SmallFileCache -> A * SmallFileCache) : Op A := fun st =>
  let (a, c) := f (st_files st) in (Ok a, MkStorage (st_shared st) (st_packs st) c).

Definition with_packs {A} (f : PackCache -> A * PackCache) : Op A := fun st =>
  let (a, c) := f (st_packs st) in (Ok a, MkStorage (st_shared st) c (st_files st)).

Fixpoint for_each {A} (xs : list A) (f : A -> Op unit) : Op unit :=
  match xs with
  | [] => mret tt
  | x :: xs => f x ≫= fun _ => for_each xs f
  end.

Fixpoint map_op {A B} (f : A -> Op B) (xs : list A) : Op (list B) :=
  match xs with
  | [] => mret []
  | x :: xs => y ← f x; ys ← map_op f xs; mret (y :: ys)
  end.

Record VfsStorageWrite := MkWrite {
  w_path : string;
  w_bytes : bytes;
  w_token_count : option Z;
  w_precondition : option VfsStorageWritePrecondition;
  w_mode : option Z;
}.

Record VfsStorageWriteResult := MkWriteResult {
  wr_path : string;
  wr_content_hash : string;
  wr_previous_hash : option string;
  wr_changed : bool;
}.

Record VfsStorageReadIfChanged := MkReadIfChanged { ric_path : string; ric_known_content_hash : option string }.

Record VfsStorageReadIfChangedResult := MkReadIfChangedResult {
  rir_path : string;
  rir_content_hash : option string;
  rir_bytes : option bytes;
}.

Record VfsStorageReadRange := MkReadRange { rr_offset : Z; rr_length : Z }.

(** The fields an index-backed entry fills in; the others are constant. *)
Record VfsStorageMetadata := MkMetadata {
  md_path : string;
  md_kind : VfsStorageEntryKind;
  md_size_bytes : Z;
  md_file_id : option string;
  md_link_count : Z;
  md_content_hash : option string;
  md_token_count : option Z;
  md_version : option string;
  md_updated_at : option Z;
  md_object_state : option VfsPackSlotRef;
}.

Definition into_storage_metadata (e : VfsIndexEntryWithManifest) : VfsStorageMetadata :=
  let i := em_entry e in
  MkMetadata (ie_logical_path i) (ie_kind i) (Z.max (ie_size_bytes i) 0) (ie_file_id i) (Z.max (ie_link_count i) 1)
    (ie_content_hash i) (em_manifest e ≫= fm_token_count) (ie_current_version i) (ie_updated_at i)
    (fm_pack_slot <$> em_manifest e).

Definition assert_unique_write_paths (writes : list VfsStorageWrite) : VfsStorageResult unit :=
  match foldM (fun (seen : gset string) w =>
          if decide (w_path w ∈ seen) then Err (BadRequest ("duplicate vfs write path: " +:+ w_path w))
          else Ok ({[w_path w]} ∪ seen)) ∅ writes with
  | Ok _ => Ok tt
  | Err e => Err e
  end.

Section storage.
Context {D : PackDeps} {H : HashCrates} (alg : VfsHashAlgorithm) (cfg : ObjectBackedVfsStorageConfig).
Context (store_fault : nat -> ObjectOp -> option bool) (index_fault : nat -> option bool).
Context (tx_at : nat -> TxInputs) (pack_id : nat -> string) (hash_order : forall A : Type, list A -> list A).

(** ** Calls to the index and to the store *)

Definition set_shared (sh : Shared) (st : ObjectBackedVfsStorage) : ObjectBackedVfsStorage :=
  MkStorage sh (st_packs st) (st_files st).

Definition ask {A} (query : Db -> VfsIndexScope -> A) : Op A := fun st =>
  let sh := st_shared st in
  (match index_fault (sh_tick sh) with Some _ => Err lost | None => Ok (query (sh_db sh) (cfg_scope cfg)) end,
   set_shared (MkShared (sh_db sh) (sh_store sh) (S (sh_tick sh))) st).

(** A transaction whose commit may go unanswered. *)
Definition transact {A} (t : TxInputs -> VfsIndexScope -> Db -> VfsStorageResult (A * Db)) : Op A := fun st =>
  let sh := st_shared st in
  let after db := set_shared (MkShared db (sh_store sh) (S (sh_tick sh))) st in
  match t (tx_at (sh_tick sh)) (cfg_scope cfg) (sh_db sh) with
  | Err e => (Err e, after (sh_db sh))
  | Ok (a, db) =>
      match index_fault (sh_tick sh) with
      | None => (Ok a, after db)
      | Some true => (Err lost, after db)
      | Some false => (Err lost, after (sh_db sh))
      end
  end.

Definition get_object (key : string) : Op (option bytes) := fun st =>
  (os_fetch_pack_bytes store_fault (sh_store (st_shared st)) key, st).

Definition get_object_range (key : string) (offset len : Z) : Op (option bytes) :=
  o ← get_object key;
  match o with
  | None => mret None
  | Some bs =>
      let start := Z.min offset (zlen bs) in
      let end_ := Z.min (sat_add start len) (zlen bs) in
      mret (Some (slice bs start end_))
  end.

Definition put_object (key : string) (bs : bytes) : Op unit := fun st =>
  let sh := st_shared st in
  let (r, store) := os_put_pack_bytes store_fault (sh_store sh) key bs in
  (r, set_shared (MkShared (sh_db sh) store (sh_tick sh)) st).

Definition storage_pack_key : Op string := fun st =>
  (Ok (object_pack_key (cfg_pack_key_prefix cfg) (cfg_scope cfg) (pack_id (os_tick (sh_store (st_shared st))))), st).

(** ** The small-file cache under pressure *)

Definition prune_small_file_cache (c : SmallFileCache) : SmallFileCache :=
  if cache_within MAX_SMALL_FILE_CACHE_ENTRIES MAX_SMALL_FILE_CACHE_TOTAL_BYTES c then c
  else prune_loop (merge_sort by_touch (hash_order _ (map_to_list (sf_entries c)))).*1 c.

Definition put_file_bytes_cache (path hash : string) (bs : bytes) (c : SmallFileCache) : SmallFileCache :=
  let seq := sat_add (sf_sequence c) 1 in
  let c := file_cache_remove path (MkFiles (sf_entries c) seq (sf_total_bytes c)) in
  prune_small_file_cache
    (MkFiles (<[path := MkCachedFile hash bs seq]> (sf_entries c)) seq (sat_add (sf_total_bytes c) (zlen bs))).

Definition remember (path hash : string) (bs : bytes) : Op unit :=
  with_files (fun c => (tt, put_file_bytes_cache path hash bs c)).
Definition remember_small (path hash : string) (bs : bytes) : Op unit :=
  if (zlen bs <=? cfg_small_file_cache_max_bytes cfg)%Z then remember path hash bs else mret tt.
Definition forget (path : string) : Op unit := with_files (fun c => (tt, invalidate_file_bytes path c)).

(** ** Reading *)

Definition slot_offset (fm : VfsFileManifest) : Z := ref_slot_offset (fm_pack_slot fm).
Definition slot_length (fm : VfsFileManifest) : Z := ref_slot_length (fm_pack_slot fm).

Definition pack_not_found {A} (key : string) : Op A := lift (Err (NotFound ("vfs pack " +:+ key +:+ " not found"))).

Definition read_manifest_bytes (fm : VfsFileManifest) : Op bytes :=
  if (slot_length fm =? 0)%Z then mret []
  else
    cached ← with_packs (cache_get (pack_of fm));
    match cached with
    | Some bs =>
        x ← lift (extract_slot bs (as_u64 (slot_offset fm)) (as_u64 (slot_length fm)));
        mret (x_bytes x)
    | None =>
        o ← get_object_range (pack_of fm) (as_u64 (slot_offset fm)) (as_u64 (slot_length fm));
        match o with
        | None => pack_not_found (pack_of fm)
        | Some bs => x ← lift (extract_slot bs 0 (as_u64 (slot_length fm))); mret (x_bytes x)
        end
    end.

Definition read (path : string) : Op bytes :=
  m ← ask (fun db scope => get_current_file_manifest db scope path);
  match m with
  | None => lift (Err (NotFound path))
  | Some fm =>
      cached ← with_files (cached_file_bytes path (fm_content_hash fm));
      match cached with
      | Some bs => mret bs
      | None =>
          bs ← read_manifest_bytes fm;
          _ ← remember_small path (fm_content_hash fm) bs;
          mret bs
      end
  end.

Definition read_range (path : string) (range : VfsStorageReadRange) : Op bytes :=
  if (rr_length range =? 0)%Z then mret []
  else
    bs ← read path;
    let start := Z.min (rr_offset range) (zlen bs) in
    let end_ := Z.min (sat_add start (rr_length range)) (zlen bs) in
    mret (slice bs start end_).

Abbreviation Manifests := (gmap string VfsFileManifest).

Definition by_path (ms : list VfsFileManifest) : Manifests :=
  list_to_map (reverse ((fun fm => (fm_logical_path fm, fm)) <$> ms)).

(** The paths answered from the small-file cache, and the manifests left. *)
Fixpoint read_cached (paths : list string) (ms : Manifests) : Op (list (string * bytes) * Manifests) :=
  match paths with
  | [] => mret ([], ms)
  | path :: rest =>
      match ms !! path with
      | None => read_cached rest ms
      | Some fm =>
          cached ← with_files (cached_file_bytes path (fm_content_hash fm));
          match cached with
          | None => read_cached rest ms
          | Some bs => r ← read_cached rest (delete path ms); mret ((path, bs) :: r.1, r.2)
          end
      end
  end.

Definition is_empty_slot (x : string * VfsFileManifest) : bool := (slot_length x.2 =? 0)%Z.

(** The slots by pack; a pack's slots in the order the manifests come in. *)
Definition slot_of (x : string * VfsFileManifest) : ReadSlot :=
  MkReadSlot x.1 (fm_content_hash x.2) (slot_offset x.2) (slot_length x.2).
Definition add_to_pack (packs : gmap string (list ReadSlot)) (x : string * VfsFileManifest) : gmap string (list ReadSlot) :=
  <[pack_of x.2 := default [] (packs !! pack_of x.2) ++ [slot_of x]]> packs.
Definition group_by_pack (ms : list (string * VfsFileManifest)) : gmap string (list ReadSlot) :=
  foldl add_to_pack ∅ ms.

Definition min_or_zero (l : list Z) : Z := match l with [] => 0 | x :: l => foldl Z.min x l end.
Definition max_or_zero (l : list Z) : Z := match l with [] => 0 | x :: l => foldl Z.max x l end.

(** The bytes of one range, with the offset they start at. *)
Definition fetch_range (x : string * list ReadSlot) : Op (Z * list ReadSlot * bytes) :=
  cached ← with_packs (cache_get x.1);
  match cached with
  | Some bs => mret (0, x.2, bs)%Z
  | None =>
      let range_start := min_or_zero ((fun s => as_u64 (rs_offset s)) <$> x.2) in
      let range_end := max_or_zero ((fun s => as_u64 (slot_end s)) <$> x.2) in
      o ← get_object_range x.1 range_start (sat_sub range_end range_start);
      match o with
      | None => pack_not_found x.1
      | Some bs => mret (range_start, x.2, bs)
      end
  end.

Definition extract_read (start : Z) (bs : bytes) (s : ReadSlot) : Op (string * bytes) :=
  x ← lift (extract_slot bs (as_u64 (as_u64 (rs_offset s) - start)) (as_u64 (rs_length s)));
  _ ← remember_small (rs_path s) (rs_content_hash s) (x_bytes x);
  mret (rs_path s, x_bytes x).

Definition extract_range (r : Z * list ReadSlot * bytes) : Op (list (string * bytes)) :=
  map_op (extract_read r.1.1 r.2) r.1.2.

Definition plan_ranges (ms : Manifests) : list (string * list ReadSlot) :=
  x ← hash_order _ (map_to_list (group_by_pack (hash_order _ (map_to_list ms))));
  (fun slots => (x.1, slots)) <$> coalesce_read_slots x.2.

Definition read_many (paths : list string) : Op (list (string * bytes)) :=
  match paths with
  | [] => mret []
  | _ =>
      ms ← ask (fun db scope => list_current_file_manifests_by_paths db scope paths);
      r ← read_cached paths (by_path ms);
      let empties := List.filter is_empty_slot (hash_order _ (map_to_list r.2)) in
      _ ← for_each empties (fun x => remember x.1 (fm_content_hash x.2) []);
      let left := filter (fun x => ~ is_empty_slot x) r.2 in
      fetched ← map_op fetch_range (hash_order _ (plan_ranges left));
      extracted ← map_op extract_range fetched;
      mret (r.1 ++ ((fun x => (x.1, [])) <$> empties) ++ concat extracted)
  end.

Definition read_if_changed (ms : Manifests) (q : VfsStorageReadIfChanged) : Op VfsStorageReadIfChangedResult :=
  match ms !! ric_path q with
  | None => mret (MkReadIfChangedResult (ric_path q) None None)
  | Some fm =>
      if bool_decide (ric_known_content_hash q = Some (fm_content_hash fm))
      then mret (MkReadIfChangedResult (ric_path q) (Some (fm_content_hash fm)) None)
      else bs ← read (ric_path q); mret (MkReadIfChangedResult (ric_path q) (Some (fm_content_hash fm)) (Some bs))
  end.

Definition read_many_if_etag_mismatch (requests : list VfsStorageReadIfChanged) : Op (list VfsStorageReadIfChangedResult) :=
  ms ← ask (fun db scope => list_current_file_manifests_by_paths db scope (ric_path <$> requests));
  map_op (read_if_changed (by_path ms)) requests.

(** ** Metadata *)

Abbreviation Previous := (gmap string VfsIndexEntryWithManifest).

Definition by_entry_path (es : list VfsIndexEntryWithManifest) : Previous :=
  list_to_map (reverse ((fun e => (ie_logical_path (em_entry e), e)) <$> es)).

Definition ask_entries (paths : list string) : Op Previous :=
  es ← ask (fun db scope => list_entries_with_manifest_by_paths db scope paths);
  mret (by_entry_path es).

Definition stat (path : string) : Op (option VfsStorageMetadata) :=
  e ← ask (fun db scope => get_entry_with_manifest db scope path);
  mret (into_storage_metadata <$> e).

Definition metadata_many (paths : list string) : Op (list (option VfsStorageMetadata)) :=
  entries ← ask_entries paths;
  mret ((fun path => into_storage_metadata <$> entries !! path) <$> paths).

Definition list_subtree_file_metadata (prefix : string) (limit : option Z) : Op (list VfsStorageMetadata) :=
  es ← ask (fun db scope => list_entries_with_manifest_in_subtree db scope prefix limit);
  mret (into_storage_metadata <$> es).

(** ** Directories *)

Definition create_dir_all_metadata (path : string) : Op unit :=
  for_each (dirs_for path) (fun d => transact (fun tx scope => create_directory tx scope d.1.1 d.1.2 d.2)).

Definition parent_directories (paths : list string) : list (string * (string * string)) :=
  merge_sort dir_order (hash_order _ (map_to_list
    (list_to_map (concat (write_ancestors <$> paths)) : gmap string (string * string)))).

Definition create_parent_directories_for_writes (writes : list VfsStorageWrite) : Op unit :=
  for_each (parent_directories (w_path <$> writes))
    (fun d => transact (fun tx scope => create_directory tx scope d.1 d.2.1 d.2.2)).

Definition mkdir (path : string) : Op unit := create_dir_all_metadata path.

Definition rmdir (path : string) : Op unit := transact (fun _ scope => remove_empty_directory scope path).

(** ** Writing *)

Definition previous_id (previous : Previous) (path : string) : option string :=
  previous !! path ≫= fun e => ie_file_id (em_entry e).
Definition previous_hash (previous : Previous) (path : string) : option string :=
  previous !! path ≫= fun e => ie_content_hash (em_entry e).

Definition linked_identity (e : VfsIndexEntryWithManifest) : option (string * string) :=
  if (1 <? ie_link_count (em_entry e))%Z
  then (fun fid => (fid, ie_logical_path (em_entry e))) <$> ie_file_id (em_entry e)
  else None.

Definition explicit_by_identity (previous : Previous) : list (string * string) :=
  hash_order _ (map_to_list
    (list_to_map (reverse (omap linked_identity (hash_order _ (map_to_list previous).*2))) : gmap string string)).

Definition find_write (path : string) (writes : list VfsStorageWrite) : option VfsStorageWrite :=
  List.find (fun w => String.eqb (w_path w) path) writes.

Definition expected_ids (previous : Previous) (fid : string) (writes : list VfsStorageWrite) : gset string :=
  list_to_set (omap (fun w => w_precondition w ≫= expected_file_id)
    (List.filter (fun w => bool_decide (previous_id previous (w_path w) = Some fid)) writes)).

(** A write through one path of an inode, repeated for another. *)
Definition alias_write (representative : VfsStorageWrite) (expected : option string) (alias : string) : VfsStorageWrite :=
  MkWrite alias (w_bytes representative) (w_token_count representative)
    ((fun fid => MkPrecondition None None None (Some fid) None) <$> expected) (w_mode representative).

Definition add_alias (requested : gset string) (representative : VfsStorageWrite) (expected : option string)
    (writes : list VfsStorageWrite) (alias : string) : VfsStorageResult (list VfsStorageWrite) :=
  if bool_decide (alias ∈ requested) then
    explicit ← ok_or (find_write alias writes) (Internal "requested write exists");
    _ ← guard_err (negb (bool_decide (w_bytes explicit = w_bytes representative)))
          (Conflict ("one atomic batch writes different content through hard-link aliases "
             +:+ w_path representative +:+ " and " +:+ alias));
    Ok writes
  else Ok (writes ++ [alias_write representative expected alias]).

Definition expand_identity (requested : gset string) (previous : Previous) (writes : list VfsStorageWrite)
    (x : string * string) : Op (list VfsStorageWrite) :=
  let ids := expected_ids previous x.1 writes in
  _ ← lift (guard_err (1 <? size ids)%nat
        (Conflict ("one atomic batch carries conflicting expected identities for hard-link identity " +:+ x.1)));
  representative ← lift (ok_or (find_write x.2 writes) (Internal ("missing write for hard-link identity " +:+ x.1)));
  aliases ← ask (fun db scope => list_file_alias_paths db scope x.1);
  lift (foldM (add_alias requested representative (head (elements ids))) writes aliases).

Fixpoint expand_aliases (requested : gset string) (previous : Previous) (identities : list (string * string))
    (writes : list VfsStorageWrite) : Op (list VfsStorageWrite) :=
  match identities with
  | [] => mret writes
  | x :: rest => writes ← expand_identity requested previous writes x; expand_aliases requested previous rest writes
  end.

Definition identity_key (previous : Previous) (w : VfsStorageWrite) : string :=
  match previous_id previous (w_path w) with
  | Some fid => "inode:" +:+ fid
  | None => "path:" +:+ w_path w
  end.

Fixpoint first_by_identity (previous : Previous) (seen : gset string) (writes : list VfsStorageWrite)
  : list VfsStorageWrite :=
  match writes with
  | [] => []
  | w :: rest =>
      let key := identity_key previous w in
      if bool_decide (key ∈ seen) then first_by_identity previous seen rest
      else w :: first_by_identity previous ({[key]} ∪ seen) rest
  end.

Definition pack_input (w : VfsStorageWrite) : VfsPackInput := MkPackInput (w_path w) (w_bytes w) Zstd (w_token_count w).

Definition expand_manifest (manifest_by_identity : gmap string VfsFileManifest) (previous : Previous)
    (w : VfsStorageWrite) : VfsStorageResult VfsFileManifest :=
  fm ← ok_or (manifest_by_identity !! identity_key previous w)
         (Internal ("missing packed content for " +:+ w_path w));
  Ok (set_manifest_path (w_path w) fm).

Definition synthesized_predicate (previous : Previous) (w : VfsStorageWrite) : option VfsStorageCasPredicate :=
  if bool_decide (w_precondition w ≫= expected_current_version <> None) then None
  else Some (match previous_hash previous (w_path w) with
             | Some fp => ContentFingerprint fp
             | None => Absent
             end).

Definition file_commit (previous : Previous) (w : VfsStorageWrite) (fm : VfsFileManifest) : VfsPackedFileCommit :=
  let (parent, name) := path_parts (w_path w) in
  MkFileCommit (w_path w) parent name fm (w_mode w) (previous_id previous (w_path w))
    (w_precondition w ≫= expected_file_id)
    (opt_or (w_precondition w ≫= effective_predicate) (synthesized_predicate previous w))
    (w_precondition w ≫= expected_current_version).

Definition with_references (count : Z) (p : VfsPackRecord) : VfsPackRecord :=
  MkPackRecord (pk_pack_key p) (pk_total_slot_count p) count (pk_total_bytes p) (pk_compacted_from p).

(** The pack of a batch and the manifest of each write. *)
Definition build_batch (key : string) (previous : Previous) (writes : list VfsStorageWrite)
  : VfsStorageResult (BuiltPack * VfsPackRecord * list VfsFileManifest) :=
  let unique := first_by_identity previous ∅ writes in
  built ← build_pack_manifest alg key (pack_input <$> unique);
  let manifests : gmap string VfsFileManifest :=
    list_to_map (reverse (zip (identity_key previous <$> unique) (bm_file_manifests built))) in
  expanded ← mapM_result (expand_manifest manifests previous) writes;
  Ok (bm_pack built, with_references (as_i32 (zlen expanded)) (bm_pack_record built), expanded).

Definition write_result (previous : Previous) (x : VfsStorageWrite * VfsFileManifest) : VfsStorageWriteResult :=
  MkWriteResult (w_path x.1) (fm_content_hash x.2) (previous_hash previous (w_path x.1)) true.

(** The second half of [write_many_atomic], for the batch with its aliases. *)
Definition store_and_commit (requested : gset string) (writes : list VfsStorageWrite) : Op (list VfsStorageWriteResult) :=
  previous ← ask_entries (w_path <$> writes);
  key ← storage_pack_key;
  built ← lift (build_batch key previous writes);
  let '(pack, record, expanded) := built in
  _ ← put_object (pk_pack_key record) (pack_bytes pack);
  _ ← with_packs (fun c => (tt, cache_put (pk_pack_key record) (pack_bytes pack) c));
  _ ← transact (fun tx scope => commit_packed_files tx scope
        (MkPackedCommit record (zip_with (file_commit previous) writes expanded)));
  _ ← for_each writes (fun w => forget (w_path w));
  mret (List.filter (fun r => bool_decide (wr_path r ∈ requested)) (write_result previous <$> zip writes expanded)).

Definition write_many_atomic (writes : list VfsStorageWrite) : Op (list VfsStorageWriteResult) :=
  match writes with
  | [] => mret []
  | _ =>
      _ ← lift (assert_unique_write_paths writes);
      let requested : gset string := list_to_set (w_path <$> writes) in
      _ ← create_parent_directories_for_writes writes;
      requested_previous ← ask_entries (w_path <$> writes);
      writes ← expand_aliases requested requested_previous (explicit_by_identity requested_previous) writes;
      store_and_commit requested writes
  end.

Definition write (path : string) (bs : bytes) (precondition : option VfsStorageWritePrecondition)
  : Op VfsStorageWriteResult :=
  rs ← write_many_atomic [MkWrite path bs None precondition None];
  lift (ok_or (head rs) (Internal "write returned no result")).

Definition result_order (x y : VfsStorageWriteResult) : Prop := str_le (wr_path x) (wr_path y).
#[local] Instance result_order_dec : RelDecision result_order.
Proof. intros x y. unfold result_order. apply _. Defined.

Definition unchanged_write (current : Manifests) (w : VfsStorageWrite) : bool :=
  bool_decide (fm_content_hash <$> current !! w_path w = Some (hex_hash alg (w_bytes w))).

Definition write_many_if_changed_atomic (writes : list VfsStorageWrite) : Op (list VfsStorageWriteResult) :=
  match writes with
  | [] => mret []
  | _ =>
      _ ← lift (assert_unique_write_paths writes);
      ms ← ask (fun db scope => list_current_file_manifests_by_paths db scope (w_path <$> writes));
      let current := by_path ms in
      out ← write_many_atomic (List.filter (fun w => negb (unchanged_write current w)) writes);
      let same w := MkWriteResult (w_path w) (hex_hash alg (w_bytes w)) (fm_content_hash <$> current !! w_path w) false in
      mret (merge_sort result_order (out ++ (same <$> List.filter (unchanged_write current) writes)))
  end.

(** ** Deleting, renaming, linking *)

Definition delete_file_with_metadata (path : string) (precondition : option VfsStorageWritePrecondition)
  : Op (option VfsStorageMetadata) :=
  previous ← transact (fun tx scope => delete_file_entry_with_precondition tx scope path
    (precondition ≫= effective_predicate) (precondition ≫= expected_file_id) (precondition ≫= expected_current_version));
  _ ← forget path;
  mret (into_storage_metadata <$> previous).

Definition rename_with_metadata_with_policy (from to : string) (allow_replace : bool)
  : Op (VfsStorageMetadata * VfsStorageMetadata) :=
  source ← ask (fun db scope => get_entry_with_manifest db scope from);
  match source with
  | None => lift (Err (NotFound from))
  | Some e =>
      if negb (bool_decide (ie_kind (em_entry e) = KFile))
      then lift (not_a_file from)
      else
        let (parent, name) := path_parts to in
        _ ← create_dir_all_metadata parent;
        r ← transact (fun tx scope => rename_file_entry tx scope from to parent name allow_replace);
        _ ← forget from;
        _ ← forget to;
        mret (into_storage_metadata r.1, into_storage_metadata r.2)
  end.

Definition rename_with_metadata (from to : string) : Op (VfsStorageMetadata * VfsStorageMetadata) :=
  rename_with_metadata_with_policy from to true.

Definition create_hard_link (source destination : string) : Op (VfsStorageMetadata * VfsStorageMetadata) :=
  let (parent, name) := path_parts destination in
  _ ← create_dir_all_metadata parent;
  r ← transact (fun tx scope => create_hard_link_entry tx scope source destination parent name);
  _ ← forget source;
  _ ← forget destination;
  mret (into_storage_metadata r.1, into_storage_metadata r.2).

Definition find_hard_link_alias (fid excluding : string) : Op (option string) :=
  aliases ← ask (fun db scope => list_file_alias_paths db scope fid);
  mret (List.find (fun path => negb (String.eqb path excluding)) aliases).

(** ** Prefetching *)

Fixpoint first_occurrences (seen : gset string) (keys : list string) : list string :=
  match keys with
  | [] => []
  | k :: rest => if bool_decide (k ∈ seen) then first_occurrences seen rest else k :: first_occurrences ({[k]} ∪ seen) rest
  end.

Definition fetch_pack (key : string) : Op (string * option bytes) := o ← get_object key; mret (key, o).

Definition keep_pack (x : string * option bytes) : Op unit :=
  match x.2 with None => mret tt | Some bs => with_packs (fun c => (tt, cache_put x.1 bs c)) end.

Definition warm_file (fm : VfsFileManifest) : Op (list (string * bytes)) :=
  if (cfg_small_file_cache_max_bytes cfg <? as_u64 (fm_logical_size_bytes fm))%Z then mret []
  else
    cached ← with_packs (cache_get (pack_of fm));
    match cached with
    | None => mret []
    | Some bs =>
        x ← lift (extract_slot bs (as_u64 (slot_offset fm)) (as_u64 (slot_length fm)));
        _ ← remember (fm_logical_path fm) (fm_content_hash fm) (x_bytes x);
        mret [(fm_logical_path fm, x_bytes x)]
    end.

Definition prefetch_subtree (prefix : string) (max_entries : option Z) (include_small : bool) : Op (list (string * bytes)) :=
  ms ← ask (fun db scope => list_current_file_manifests_in_subtree db scope prefix max_entries);
  fetched ← map_op fetch_pack (hash_order _ (first_occurrences ∅ (pack_of <$> ms)));
  _ ← for_each fetched keep_pack;
  if negb include_small then mret [] else warmed ← map_op warm_file ms; mret (concat warmed).
End storage.
