(* ===== verification/ObjectReads.v ===== *)
(** * What object-backed reads return

    The state of a storage client is good when the index is well formed, every
    manifest of it is stored and reads bytes of its hash, and the caches hold
    what the store holds. Reads keep this, and answer with the content of the
    current version or with an error that a missing file or a failed call
    explains. *)

From S2P Require Import Prelude VfsTypes Pack ContentHash PackCache Manifest PackIndex PostgresIndex Compaction PackStore NamespaceIndex NamespaceWf ObjectStorage.
From Stdlib Require Import ZArith Lia Ascii.
From Stdlib Require Import ZArith Lia.

(** ** Reasoning about operations *)

Definition wp {A} (m : Op A) (Q : VfsStorageResult A -> ObjectBackedVfsStorage -> Prop) (st : ObjectBackedVfsStorage) : Prop :=
  Q (m st).1 (m st).2.

Lemma op_wp_bind {A B} (m : Op A) (f : A -> Op B) Q st :
  wp m (fun r st' => match r with Ok a => wp (f a) Q st' | Err e => Q (Err e) st' end) st -> wp (m ≫= f) Q st.
Proof. unfold wp, mbind, op_bind. by destruct (m st) as [[a|e] st']. Qed.

Lemma op_wp_ret {A} (a : A) (Q : VfsStorageResult A -> ObjectBackedVfsStorage -> Prop) st : Q (Ok a) st -> wp (mret a) Q st.
Proof. done. Qed.

Lemma op_wp_mono {A} (m : Op A) (Q Q' : VfsStorageResult A -> ObjectBackedVfsStorage -> Prop) st :
  wp m Q st -> (forall r st', Q r st' -> Q' r st') -> wp m Q' st.
Proof. unfold wp. auto. Qed.

Lemma wp_for_each {A} (I : ObjectBackedVfsStorage -> Prop) (xs : list A) f (E : Prop) :
  (forall x st, x ∈ xs -> I st -> wp (f x) (fun r st' => I st' /\ match r with Ok _ => True | Err _ => E end) st) ->
  forall st, I st -> wp (for_each xs f) (fun r st' => I st' /\ match r with Ok _ => True | Err _ => E end) st.
Proof.
  induction xs as [|x xs IH]; intros Hf st Hst; cbn; [by split|]. apply op_wp_bind.
  eapply op_wp_mono; [apply Hf; [set_solver|done]|]. intros [[]|e] st' [HI HE]; [|by split].
  apply IH; [|done]. intros. apply Hf; [set_solver|done].
Qed.

(** Every element gives a result related to it; an error is explained by [E]. *)
Lemma wp_map_op {A B} (I : ObjectBackedVfsStorage -> Prop) (R : A -> B -> Prop) (E : Prop) (xs : list A) (f : A -> Op B) :
  (forall x st, x ∈ xs -> I st ->
     wp (f x) (fun r st' => I st' /\ match r with Ok y => R x y | Err _ => E end) st) ->
  forall st, I st -> wp (map_op f xs) (fun r st' => I st' /\ match r with Ok ys => Forall2 R xs ys | Err _ => E end) st.
Proof.
  induction xs as [|x xs IH]; intros Hf st Hst; cbn; [by split; [|constructor]|]. apply op_wp_bind.
  eapply op_wp_mono; [apply Hf; [set_solver|done]|]. intros [y|e] st' [HI HE]; [|by split].
  apply op_wp_bind. eapply op_wp_mono; [apply IH; [|done]; intros; apply Hf; [set_solver|done]|].
  intros [ys|e] st2 [HI2 HE2]; [|by split]. split; [done|]. by constructor.
Qed.

(** ** Slots inside a fetched range *)

Lemma slice_slice {A} (l : list A) a b x y :
  (0 <= a)%Z -> (a <= x)%Z -> (x <= y)%Z -> (y <= b)%Z -> slice (slice l a b) (x - a) (y - a) = slice l x y.
Proof.
  unfold slice. intros. rewrite skipn_firstn_comm, drop_drop, take_take.
  f_equal; [|f_equal]; lia.
Qed.

Lemma extract_slot_extent `{PackDeps} bs off len x :
  (0 <= off)%Z -> (0 <= len)%Z -> extract_slot bs off len = Ok x ->
  (off + len <= zlen bs)%Z /\ (off + len <= U64_MAX)%Z /\ (0 < len)%Z.
Proof.
  intros Ho Hl Hx. unfold extract_slot, checked_add in Hx.
  destruct (Z.leb_spec (off + len) U64_MAX) as [Hu|]; [|done]. cbn [ok_or] in Hx. inv_ok Hx.
  injection Hx0 as <-. apply Z.ltb_ge in Hx1. split_and!; [done..|].
  destruct (decide (len = 0%Z)) as [->|]; [|lia]. exfalso.
  unfold slice, MIN_SLOT_HEADER_TOTAL_BYTES in Hx2. replace (off + 0 - off)%Z with 0%Z in Hx2 by lia. done.
Qed.

Lemma extract_slot_in_range `{PackDeps} bs a b off len :
  (0 <= a <= off)%Z -> (0 <= len)%Z -> (off + len <= b)%Z -> (b <= zlen bs)%Z -> (off + len <= U64_MAX)%Z ->
  extract_slot (slice bs a b) (off - a) len = extract_slot bs off len.
Proof.
  intros Ha Hl Hb Hz Hu. rewrite (extract_slot_as_range bs off len) by lia.
  rewrite (extract_slot_as_range (slice bs a b)) by (rewrite ?zlen_slice by lia; lia).
  f_equal. replace (off - a + len)%Z with (off + len - a)%Z by lia. apply slice_slice; lia.
Qed.

(** ** Good states *)

Section good.
Context {D : PackDeps} {H : HashCrates} (alg : VfsHashAlgorithm).

(** A manifest reads bytes of its hash, at coordinates the store holds. *)
Record stored (objects : gmap string bytes) (fm : VfsFileManifest) : Prop := {
  sd_reads : exists body, reads objects fm body /\ hex_hash alg body = fm_content_hash fm;
  sd_offset : (0 <= slot_offset fm)%Z;
  sd_length : (0 <= slot_length fm)%Z;
  sd_end : (slot_offset fm + slot_length fm <= I64_MAX)%Z;
}.

Definition db_stored (db : Db) (objects : gmap string bytes) : Prop :=
  forall k fm, db_manifests db !! k = Some fm -> stored objects fm.

Definition packs_coherent (objects : gmap string bytes) (c : PackCache) : Prop :=
  forall k e, entries c !! k = Some e -> objects !! k = Some (entry_bytes e).

Definition files_coherent (c : SmallFileCache) : Prop :=
  forall p e, sf_entries c !! p = Some e -> hex_hash alg (cf_bytes e) = cf_content_hash e.

Record good (st : ObjectBackedVfsStorage) : Prop := {
  gd_wf : db_wf (st_db st);
  gd_stored : db_stored (st_db st) (st_objects st);
  gd_packs : packs_coherent (st_objects st) (st_packs st);
  gd_files : files_coherent (st_files st);
}.

Lemma stored_weaken objects objects' fm : objects ⊆ objects' -> stored objects fm -> stored objects' fm.
Proof. intros Hs [(body & Hr & Hh) ? ? ?]. split; [|done..]. exists body. split; [by eapply reads_weaken|done]. Qed.

Lemma as_u64_fits z : (0 <= z <= I64_MAX)%Z -> as_u64 z = z.
Proof. apply as_u64_i64_small. Qed.

(** What the slot of a stored manifest holds, in the pack object. *)
Lemma stored_slot objects fm :
  stored objects fm -> exists bs x, objects !! pack_of fm = Some bs
    /\ extract_slot bs (slot_offset fm) (slot_length fm) = Ok x /\ reads objects fm (x_bytes x)
    /\ hex_hash alg (x_bytes x) = fm_content_hash fm
    /\ (slot_offset fm + slot_length fm <= zlen bs)%Z /\ (0 < slot_length fm)%Z.
Proof.
  intros [(body & (bs & x & Hbs & Hx & Hb) & Hh) Ho Hl He]. exists bs, x. fold (slot_offset fm) (slot_length fm) in Hx.
  assert (reads objects fm (x_bytes x)) as Hr by (by exists bs, x).
  rewrite !as_u64_fits in Hx by lia. destruct (extract_slot_extent _ _ _ _ Ho Hl Hx) as (? & ? & ?).
  subst body. by split_and!.
Qed.

(** ** The caches *)

Lemma evict_subset fuel c : entries (evict_loop fuel c) ⊆ entries c.
Proof.
  revert c; induction fuel as [|fuel IH]; intros c; cbn; [done|]. destruct (_ && _); [|done].
  destruct (min_by_touch _) as [[k v]|]; [|done]. etrans; [apply IH|]. cbn. apply delete_subseteq.
Qed.

Lemma cache_put_coherent objects c k bs :
  packs_coherent objects c -> objects !! k = Some bs -> packs_coherent objects (cache_put k bs c).
Proof.
  intros Hc Hk k' e He. unfold cache_put, evict_if_needed in He.
  eapply lookup_weaken in He; [|apply evict_subset]. cbn in He.
  apply lookup_insert_Some in He as [[<- <-]|[Hne He]]; [done|]. apply Hc.
  unfold cache_remove in He. cbn in He. destruct (entries c !! k); [|done].
  cbn in He. apply lookup_delete_Some in He. tauto.
Qed.

Lemma cache_get_coherent objects c k :
  packs_coherent objects c ->
  packs_coherent objects (cache_get k c).2 /\ forall bs, (cache_get k c).1 = Some bs -> objects !! k = Some bs.
Proof.
  intros Hc. unfold cache_get. destruct (entries c !! k) as [e|] eqn:E; cbn; [|done]. split.
  - intros k' e'. cbn. intros [[<- <-]|[_ He]]%lookup_insert_Some; cbn; by apply Hc.
  - intros bs [= <-]. by apply Hc.
Qed.

Lemma file_cache_remove_coherent p c : files_coherent c -> files_coherent (file_cache_remove p c).
Proof.
  intros Hc p' e. unfold file_cache_remove. destruct (sf_entries c !! p); [|apply Hc]. cbn.
  intros [_ He]%lookup_delete_Some. by eapply Hc.
Qed.

Lemma prune_loop_coherent oldest c : files_coherent c -> files_coherent (prune_loop oldest c).
Proof.
  revert c; induction oldest as [|p oldest IH]; intros c Hc; cbn; [done|].
  destruct (cache_within _ _ c); [done|]. by apply IH, file_cache_remove_coherent.
Qed.

Lemma put_file_bytes_coherent order path hash bs c :
  files_coherent c -> hex_hash alg bs = hash -> files_coherent (put_file_bytes_cache order path hash bs c).
Proof.
  intros Hc Hh. unfold put_file_bytes_cache, prune_small_file_cache.
  match goal with |- context [cache_within _ _ ?c'] => assert (files_coherent c') as Hc' end.
  { intros p e. cbn. intros [[<- <-]|[_ He]]%lookup_insert_Some; [done|].
    eapply (file_cache_remove_coherent path (MkFiles _ _ _)); [|exact He]. exact Hc. }
  destruct (cache_within _ _ _); [done|]. by apply prune_loop_coherent.
Qed.

Lemma cached_file_bytes_coherent path hash c :
  files_coherent c -> files_coherent (cached_file_bytes path hash c).2
  /\ forall bs, (cached_file_bytes path hash c).1 = Some bs -> hex_hash alg bs = hash /\ is_Some (sf_entries c !! path).
Proof.
  intros Hc. unfold cached_file_bytes. destruct (sf_entries c !! path) as [e|] eqn:E; cbn; [|done].
  destruct (String.eqb_spec (cf_content_hash e) hash) as [Eh|]; cbn; [|done]. split.
  - intros p e'. cbn. intros [[<- <-]|[_ He]]%lookup_insert_Some; cbn; by eapply Hc.
  - intros bs [= <-]. split; [|done]. rewrite <- Eh. by eapply Hc.
Qed.
End good.

(** ** Reading one file *)

Section reads.
Context {D : PackDeps} {H : HashCrates} (alg : VfsHashAlgorithm) (cfg : ObjectBackedVfsStorageConfig).
Context (store_fault : nat -> ObjectOp -> option bool) (index_fault : nat -> option bool).
Context (hash_order : forall A : Type, list A -> list A).

(** A read leaves the index and the store of [st0] alone. *)
Definition reading (st0 st : ObjectBackedVfsStorage) : Prop :=
  good alg st /\ st_db st = st_db st0 /\ sh_store (st_shared st) = sh_store (st_shared st0)
  /\ sh_tick (st_shared st0) <= sh_tick (st_shared st).

Definition index_fails (st : ObjectBackedVfsStorage) : Prop := index_fault (sh_tick (st_shared st)) <> None.
Definition get_fails (st : ObjectBackedVfsStorage) : Prop :=
  store_fault (os_tick (sh_store (st_shared st))) GetObject <> None.

Lemma reading_objects st0 st : reading st0 st -> st_objects st = st_objects st0.
Proof. intros (_ & _ & E & _). unfold st_objects. by rewrite E. Qed.

Lemma reading_refl st : good alg st -> reading st st.
Proof. done. Qed.

Lemma wp_ask {A} (query : Db -> VfsIndexScope -> A) st0 st :
  reading st0 st ->
  wp (ask cfg index_fault query) (fun r st' => reading st0 st' /\ st_files st' = st_files st
    /\ match r with Ok a => a = query (st_db st0) (cfg_scope cfg) | Err _ => index_fails st end) st.
Proof.
  intros ([G1 G2 G3 G4] & E1 & E2 & Ht). unfold wp, ask, index_fails. cbn. split; [split_and!; [by split|done..|cbn; lia]|]. split; [done|].
  destruct (index_fault _); [done|]. by rewrite <- E1.
Qed.

Lemma wp_cache_get k st0 st :
  reading st0 st ->
  wp (with_packs (cache_get k)) (fun r st' => reading st0 st' /\ st_files st' = st_files st
    /\ match r with Ok o => forall bs, o = Some bs -> st_objects st0 !! k = Some bs | Err _ => False end) st.
Proof.
  intros Hr. pose proof (reading_objects _ _ Hr) as Eo. destruct Hr as ([G1 G2 G3 G4] & E1 & E2 & Ht).
  destruct (cache_get_coherent _ _ k G3) as [Hc Hk]. unfold wp, with_packs.
  destruct (cache_get k (st_packs st)) as [o c]. cbn in *. split; [|split; [done|]].
  - split_and!; [by split|done..].
  - intros bs ->. rewrite <- Eo. by apply Hk.
Qed.

Lemma wp_get_object_range k off len st0 st :
  reading st0 st -> (0 <= off)%Z -> (0 <= len)%Z ->
  wp (get_object_range store_fault k off len) (fun r st' => st' = st /\
    match r with
    | Ok None => st_objects st0 !! k = None
    | Ok (Some bs) => exists all, st_objects st0 !! k = Some all
        /\ ((off + len <= zlen all)%Z -> (off + len <= U64_MAX)%Z -> bs = slice all off (off + len))
    | Err _ => get_fails st0
    end) st.
Proof.
  intros Hr Ho Hl. pose proof (reading_objects _ _ Hr) as Eo. destruct Hr as (_ & _ & E2 & _).
  unfold wp, get_object_range, mbind, op_bind, get_object, os_fetch_pack_bytes, get_fails. rewrite E2.
  destruct (store_fault _ GetObject); [by split|]. fold (st_objects st0).
  destruct (st_objects st0 !! k) as [all|]; cbn; [|done]. split; [done|]. exists all. split; [done|].
  intros Hb Hu. unfold sat_add. f_equal; lia.
Qed.

Lemma read_manifest_bytes_wp fm st0 st :
  reading st0 st -> stored alg (st_objects st0) fm ->
  wp (read_manifest_bytes store_fault fm) (fun r st' => reading st0 st' /\ st_files st' = st_files st
    /\ match r with
       | Ok b => reads (st_objects st0) fm b /\ hex_hash alg b = fm_content_hash fm
       | Err _ => get_fails st0
       end) st.
Proof.
  intros Hr Hs. destruct (stored_slot _ _ _ Hs) as (bs & x & Hbs & Hx & Hread & Hh & Hend & Hpos).
  destruct Hs as [_ Ho Hl He]. unfold read_manifest_bytes. rewrite (proj2 (Z.eqb_neq _ 0)) by lia.
  rewrite !as_u64_fits by lia. apply op_wp_bind. eapply op_wp_mono; [by apply wp_cache_get|].
  intros [[bs'|]|e] st1 (Hr1 & Ef & Hk); [| |done].
  - assert (bs' = bs) as -> by (specialize (Hk _ eq_refl); congruence).
    unfold wp, mbind, op_bind, lift. rewrite Hx. by split_and!.
  - apply op_wp_bind. eapply op_wp_mono; [by apply wp_get_object_range|].
    intros [[part|]|e] st2 [-> Hp]; [|by rewrite Hp in Hbs|by split_and!].
    destruct Hp as (all & Hall & Hp). assert (all = bs) as -> by congruence.
    rewrite Hp by (unfold I64_MAX, U64_MAX in *; lia). rewrite extract_slot_as_range in Hx by (unfold I64_MAX, U64_MAX in *; lia).
    unfold wp, mbind, op_bind, lift. rewrite Hx. by split_and!.
Qed.

Lemma wp_remember path hash bs st0 st :
  reading st0 st -> hex_hash alg bs = hash ->
  wp (remember hash_order path hash bs) (fun r st' => reading st0 st' /\ r = Ok tt) st.
Proof.
  intros ([G1 G2 G3 G4] & E1 & E2 & Ht) Hh. split; [|done]. split; [|done]. split; [done..|].
  by apply put_file_bytes_coherent.
Qed.

Lemma wp_remember_small path hash bs st0 st :
  reading st0 st -> hex_hash alg bs = hash ->
  wp (remember_small cfg hash_order path hash bs) (fun r st' => reading st0 st' /\ r = Ok tt) st.
Proof.
  intros Hr Hh. unfold remember_small. destruct (_ <=? _)%Z; [by apply wp_remember|]. by split.
Qed.

Lemma wp_cached_file path hash st0 st :
  reading st0 st ->
  wp (with_files (cached_file_bytes path hash)) (fun r st' => reading st0 st' /\
    match r with
    | Ok o => forall bs, o = Some bs -> hex_hash alg bs = hash /\ is_Some (sf_entries (st_files st) !! path)
    | Err _ => False
    end) st.
Proof.
  intros ([G1 G2 G3 G4] & E1 & E2 & Ht). destruct (cached_file_bytes_coherent _ path hash _ G4) as [Hc Hb].
  unfold wp, with_files. destruct (cached_file_bytes path hash (st_files st)) as [o c]. cbn in *. split; [|done]. split_and!; [by split|done..].
Qed.

Lemma current_stored st path fm :
  good alg st -> get_current_file_manifest (st_db st) (cfg_scope cfg) path = Some fm -> stored alg (st_objects st) fm.
Proof.
  intros G Hm. unfold get_current_file_manifest in Hm. apply bind_Some in Hm as (e & He & Hm).
  destruct (is_file e); [|done]. unfold manifest_of in Hm. apply bind_Some in Hm as (vid & Hvid & Hm).
  apply bind_Some in Hm as (v & Hv & Hm). by eapply gd_stored.
Qed.

(** What an answer to a read of [path] in [st] must be. *)
Definition reads_current (st : ObjectBackedVfsStorage) (path : string) (b : bytes) : Prop :=
  exists fm, get_current_file_manifest (st_db st) (cfg_scope cfg) path = Some fm
    /\ hex_hash alg b = fm_content_hash fm
    /\ (sf_entries (st_files st) !! path = None -> reads (st_objects st) fm b).

Lemma read_wp path st :
  good alg st ->
  wp (read cfg store_fault index_fault hash_order path) (fun r st' => reading st st' /\
    match r with
    | Ok b => reads_current st path b
    | Err e => (e = NotFound path /\ get_current_file_manifest (st_db st) (cfg_scope cfg) path = None)
               \/ index_fails st \/ get_fails st
    end) st.
Proof.
  intros G. unfold read. apply op_wp_bind. eapply op_wp_mono; [by apply (wp_ask _ st)|].
  intros [m|e] st1 (Hr & Ef & Hm); [|by auto]. subst m.
  destruct (get_current_file_manifest (st_db st) (cfg_scope cfg) path) as [fm|] eqn:E; [|by split; [|left]].
  apply op_wp_bind. eapply op_wp_mono; [by apply wp_cached_file|].
  intros [[b|]|e] st2 [Hr2 Hb]; [| |done].
  - destruct (Hb _ eq_refl) as [Hh Hc]. split; [done|]. exists fm. split_and!; [done..|].
    intros Hn. rewrite Ef, Hn in Hc. by destruct Hc.
  - apply op_wp_bind. pose proof (current_stored _ _ _ G E) as Hs.
    eapply op_wp_mono; [by apply (read_manifest_bytes_wp fm st)|].
    intros [b|e] st3 (Hr3 & _ & Hb3); [|by auto]. destruct Hb3 as [Hread Hh].
    apply op_wp_bind. eapply op_wp_mono; [by apply (wp_remember_small path (fm_content_hash fm) b st)|].
    intros r st4 [Hr4 ->]. split; [done|]. by exists fm.
Qed.
End reads.

(** ** The small-file cache stays small

    [cached_file_bytes], [put_file_bytes_cache], [invalidate_file_bytes] and
    [prune_small_file_cache] of [vfs/src/object_storage.rs], run in any order:
    the byte count the cache keeps is exact, and after every call the cache is
    within its limits. *)

Definition cached_total (m : gmap string CachedObjectFile) : Z :=
  map_fold (fun _ e acc => zlen (cf_bytes e) + acc)%Z 0%Z m.

Lemma cached_total_insert m p e : m !! p = None -> cached_total (<[p := e]> m) = (zlen (cf_bytes e) + cached_total m)%Z.
Proof. intros Hp. unfold cached_total. rewrite map_fold_insert_L; [done|intros; lia|done]. Qed.

Lemma cached_total_delete m p e : m !! p = Some e -> cached_total m = (zlen (cf_bytes e) + cached_total (delete p m))%Z.
Proof.
  intros Hp. rewrite <- (insert_delete_id m p e Hp) at 1. apply cached_total_insert, lookup_delete_eq.
Qed.

Lemma cached_total_nonneg m : (0 <= cached_total m)%Z.
Proof.
  induction m as [|p e m Hp IH] using map_ind; [done|]. rewrite cached_total_insert by done.
  pose proof (zlen_nonneg (cf_bytes e)). lia.
Qed.

Lemma cached_total_touch m p e seq :
  m !! p = Some e -> cached_total (<[p := MkCachedFile (cf_content_hash e) (cf_bytes e) seq]> m) = cached_total m.
Proof.
  intros Hp. rewrite (cached_total_delete m p e Hp), <- insert_delete_eq, cached_total_insert by apply lookup_delete_eq. done.
Qed.

(** The count is the bytes held. *)
Definition accounted (c : SmallFileCache) : Prop := sf_total_bytes c = cached_total (sf_entries c).

Lemma remove_accounted p c : accounted c -> accounted (file_cache_remove p c).
Proof.
  unfold accounted, file_cache_remove. intros Hc. destruct (sf_entries c !! p) as [e|] eqn:E; [|done]. cbn.
  rewrite Hc, (cached_total_delete _ _ _ E). unfold sat_sub. pose proof (cached_total_nonneg (delete p (sf_entries c))). lia.
Qed.

Lemma remove_smaller p c : accounted c -> (sf_total_bytes (file_cache_remove p c) <= sf_total_bytes c)%Z
  /\ size (sf_entries (file_cache_remove p c)) <= size (sf_entries c)
  /\ sf_entries (file_cache_remove p c) = delete p (sf_entries c).
Proof.
  intros Hc. pose proof (remove_accounted p c Hc) as Hc'. unfold accounted in *.
  unfold file_cache_remove in *. destruct (sf_entries c !! p) as [e|] eqn:E; cbn in *.
  - rewrite Hc', Hc, (cached_total_delete _ _ _ E). pose proof (zlen_nonneg (cf_bytes e)). split_and!; [lia| |done].
    rewrite map_size_delete, E. lia.
  - by rewrite delete_id.
Qed.

(** Pruning ends within its target: removing every entry would. *)
Lemma prune_loop_within oldest c :
  accounted c -> (forall p, is_Some (sf_entries c !! p) -> p ∈ oldest) ->
  accounted (prune_loop oldest c) /\ cache_within TARGET_ENTRIES TARGET_BYTES (prune_loop oldest c) = true.
Proof.
  revert c; induction oldest as [|p oldest IH]; intros c Hc Hin; cbn.
  - split; [done|]. assert (sf_entries c = ∅) as E.
    { apply map_empty. intros p. apply eq_None_not_Some. intros Hp. by apply Hin, not_elem_of_nil in Hp. }
    unfold cache_within, accounted in *. rewrite Hc, E, map_size_empty. reflexivity.
  - destruct (cache_within _ _ c) eqn:Ew; [done|]. apply IH; [by apply remove_accounted|].
    intros q. destruct (remove_smaller p c Hc) as (_ & _ & ->). intros [e [Hne Hq]%lookup_delete_Some].
    destruct (elem_of_cons oldest q p) as [Hcons _]. destruct Hcons as [->|?]; [apply Hin; by exists e|done..].
Qed.

Section ops.
Context (hash_order : forall A : Type, list A -> list A).

Inductive FileCacheOp :=
| Lookup (path hash : string)
| Remember (path hash : string) (bs : bytes)
| Invalidate (path : string).

Definition file_cache_op (c : SmallFileCache) (op : FileCacheOp) : SmallFileCache :=
  match op with
  | Lookup path hash => (cached_file_bytes path hash c).2
  | Remember path hash bs => put_file_bytes_cache hash_order path hash bs c
  | Invalidate path => invalidate_file_bytes path c
  end.

Definition op_bytes (op : FileCacheOp) : Z := match op with Remember _ _ bs => zlen bs | _ => 0%Z end.

Definition within_limits (c : SmallFileCache) : Prop :=
  accounted c /\ (Z.of_nat (size (sf_entries c)) <= MAX_SMALL_FILE_CACHE_ENTRIES)%Z
  /\ (sf_total_bytes c <= MAX_SMALL_FILE_CACHE_TOTAL_BYTES)%Z.

Context (Horder : forall A (l : list A), hash_order A l ≡ₚ l).

Lemma prune_within c : accounted c -> within_limits (prune_small_file_cache hash_order c).
Proof.
  intros Hc. unfold prune_small_file_cache. destruct (cache_within MAX_SMALL_FILE_CACHE_ENTRIES _ c) eqn:Ew.
  - unfold cache_within in Ew. apply andb_true_iff in Ew as [E1 E2]. split_and!; [done|lia|lia].
  - edestruct (prune_loop_within (merge_sort by_touch (hash_order _ (map_to_list (sf_entries c)))).*1 c) as [Ha Hw]; [done| |].
    + intros p [e He]. apply list_elem_of_fmap. exists (p, e). split; [done|].
      by rewrite merge_sort_Permutation, Horder, elem_of_map_to_list.
    + unfold cache_within in Hw. apply andb_true_iff in Hw as [E1 E2]. split_and!; [done|..].
      * change TARGET_ENTRIES with 3072%Z in E1. unfold MAX_SMALL_FILE_CACHE_ENTRIES. lia.
      * change TARGET_BYTES with 50331648%Z in E2. unfold MAX_SMALL_FILE_CACHE_TOTAL_BYTES. lia.
Qed.

Lemma file_cache_op_within c op :
  within_limits c -> (op_bytes op <= I64_MAX)%Z -> within_limits (file_cache_op c op).
Proof.
  intros (Ha & Hs & Ht) Hb. destruct op as [path hash|path hash bs|path]; cbn [file_cache_op].
  - unfold cached_file_bytes. destruct (sf_entries c !! path) as [e|] eqn:E; [|done].
    destruct (String.eqb _ hash); [|done]. unfold within_limits, accounted in *. cbn.
    rewrite cached_total_touch by done. split_and!; [done| |done]. by rewrite map_size_insert_Some.
  - apply prune_within. unfold accounted. cbn [sf_total_bytes sf_entries].
    set (c0 := MkFiles (sf_entries c) (sat_add (sf_sequence c) 1) (sf_total_bytes c)).
    assert (accounted c0) as Hc0 by done. destruct (remove_smaller path c0 Hc0) as (Hle & _ & Hdel).
    pose proof (remove_accounted path c0 Hc0) as Hr. unfold accounted in Hr. cbn in Hle, Hb.
    rewrite Hdel, cached_total_insert by apply lookup_delete_eq. rewrite Hdel in Hr. cbn [cf_bytes].
    rewrite sat_add_exact; [lia|]. unfold MAX_SMALL_FILE_CACHE_TOTAL_BYTES, I64_MAX, U64_MAX in *. lia.
  - unfold invalidate_file_bytes. destruct (remove_smaller path c Ha) as (Hle & Hsz & _).
    split_and!; [by apply remove_accounted|lia|lia].
Qed.

(** Whatever files the small-file cache is asked for, given or told to
    forget, in any order, its byte count is exactly the bytes it holds and it
    never keeps more than 4096 files or 64 MiB. *)
Theorem small_file_cache_bounded ops :
  Forall (fun op => op_bytes op <= I64_MAX)%Z ops -> within_limits (foldl file_cache_op SmallFileCache_new ops).
Proof.
  assert (within_limits SmallFileCache_new) as H0 by (by split_and!). revert H0. generalize SmallFileCache_new as c.
  induction ops as [|op ops IH]; intros c Hc Hall; cbn; [done|]. apply Forall_cons in Hall as [Hb Hall].
  apply IH; [|done]. by apply file_cache_op_within.
Qed.
End ops.

Definition cache_trace : list FileCacheOp :=
  [Remember "a" "h1" [Byte.x61]; Remember "b" "h2" [Byte.x62; Byte.x63]; Lookup "a" "h1"; Remember "a" "h3" []; Invalidate "b"].

Lemma small_file_cache_bounded_witness :
  within_limits (foldl (file_cache_op (fun A l => l)) SmallFileCache_new cache_trace).
Proof.
  apply (small_file_cache_bounded (fun A l => l)); [done|]. repeat (constructor; [vm_compute; discriminate|]). constructor.
Defined.
