(* ===== verification/ObjectBatchReads.v ===== *)
(** * Batch reads

    [read_many] answers every requested file that exists, once, with the content
    of its current version, whichever of the small-file cache, the pack cache and
    the coalesced ranged fetches each answer comes from. *)

From S2P Require Import Prelude VfsTypes Pack ContentHash PackCache Manifest PackIndex PostgresIndex Compaction PackStore NamespaceIndex NamespaceWf ObjectStorage ObjectReads.
From Stdlib Require Import ZArith Lia Ascii.

(** ** Coalescing *)

Lemma push_slot_concat ranges s : concat (push_slot ranges s) = concat ranges ++ [s].
Proof.
  unfold push_slot. destruct (last ranges) as [range|] eqn:E.
  - apply last_Some in E as [rs ->]. destruct (extends_range range s).
    + rewrite removelast_last, !concat_app. cbn. by rewrite !app_nil_r, app_assoc.
    + by rewrite (concat_app _ [[s]]).
  - by rewrite concat_app.
Qed.

Lemma coalesce_concat_from ranges slots : concat (foldl push_slot ranges slots) = concat ranges ++ slots.
Proof.
  revert ranges; induction slots as [|s slots IH]; intros ranges; cbn; [by rewrite app_nil_r|].
  rewrite IH, push_slot_concat, <- app_assoc. done.
Qed.

Lemma coalesce_concat slots : concat (coalesce_read_slots slots) = merge_sort slot_order slots.
Proof. apply (coalesce_concat_from []). Qed.

(** The open range is the last one and starts within the gap of its predecessor
    inside; between two ranges the gap is larger. *)
Definition near (x y : ReadSlot) : Prop := (i64_sat_sub (rs_offset y) (slot_end x) <= MAX_READ_RANGE_GAP)%Z.

Fixpoint chained (l : list ReadSlot) : Prop :=
  match l with
  | x :: (y :: _) as rest => near x y /\ chained rest
  | _ => True
  end.

Lemma chained_snoc l s : chained l -> (forall x, last l = Some x -> near x s) -> chained (l ++ [s]).
Proof.
  induction l as [|x l IH]; [done|]. destruct l as [|y l]; cbn.
  - intros _ Hl. split; [by apply Hl|done].
  - intros [Hxy Hc] Hl. split; [done|]. by apply IH.
Qed.

Fixpoint separated (ranges : list (list ReadSlot)) : Prop :=
  match ranges with
  | r :: (r' :: _) as rest =>
      (forall x y, last r = Some x -> head r' = Some y -> ~ near x y) /\ separated rest
  | _ => True
  end.

Record ranges_ok (ranges : list (list ReadSlot)) : Prop := {
  ro_nonempty : Forall (fun r => r <> []) ranges;
  ro_chained : Forall chained ranges;
  ro_separated : separated ranges;
}.

Lemma separated_replace_last rs r r' :
  separated (rs ++ [r]) -> head r' = head r -> separated (rs ++ [r']).
Proof.
  induction rs as [|a rs IH]; [done|]. destruct rs as [|b rs]; cbn.
  - intros [Hs _] E. split; [|done]. by rewrite E.
  - intros [Hs Hrest] E. split; [done|]. by apply IH.
Qed.

Lemma separated_snoc rs r s :
  separated (rs ++ [r]) -> (forall x, last r = Some x -> ~ near x s) -> separated ((rs ++ [r]) ++ [[s]]).
Proof.
  induction rs as [|a rs IH]; cbn.
  - intros _ Hn. split; [|done]. intros x y Hx [= <-]. by apply Hn.
  - destruct rs as [|b rs]; cbn.
    + intros [Hs _] Hn. split; [done|]. split; [|done]. intros x y Hx [= <-]. by apply Hn.
    + intros [Hs Hrest] Hn. split; [done|]. by apply IH.
Qed.

Lemma push_slot_ok ranges s : ranges_ok ranges -> ranges_ok (push_slot ranges s).
Proof.
  intros [Hn Hc Hs]. unfold push_slot. destruct (last ranges) as [r|] eqn:E.
  - apply last_Some in E as [rs ->]. apply Forall_app in Hn as [Hn1 Hn2], Hc as [Hc1 Hc2].
    rewrite Forall_singleton in Hn2. rewrite Forall_singleton in Hc2.
    unfold extends_range. destruct (last r) as [x|] eqn:El; [|by apply last_None in El].
    destruct (Z.leb_spec (i64_sat_sub (rs_offset s) (slot_end x)) MAX_READ_RANGE_GAP) as [Hle|Hgt].
    + rewrite removelast_last. split.
      * apply Forall_app. split; [done|]. apply Forall_singleton. by destruct r.
      * apply Forall_app. split; [done|]. apply Forall_singleton. apply chained_snoc; [done|].
        intros y Hy. by assert (y = x) as -> by congruence.
      * eapply separated_replace_last; [done|]. by destruct r.
    + split.
      * apply Forall_app. split; [by apply Forall_app; split; [|by apply Forall_singleton]|]. by apply Forall_singleton.
      * apply Forall_app. split; [by apply Forall_app; split; [|by apply Forall_singleton]|]. by apply Forall_singleton.
      * apply separated_snoc; [done|]. intros y Hy. assert (y = x) as -> by congruence. unfold near. lia.
  - apply last_None in E as ->. split; cbn; [by apply Forall_singleton..|done].
Qed.

Lemma coalesce_ok slots : ranges_ok (coalesce_read_slots slots).
Proof.
  unfold coalesce_read_slots. generalize (merge_sort slot_order slots). intros l.
  assert (ranges_ok []) as H0 by (by split). revert H0. generalize (@nil (list ReadSlot)) as rs.
  induction l as [|s l IH]; intros rs Hrs; cbn; [done|]. by apply IH, push_slot_ok.
Qed.

(** Coalescing slots into ranged fetches loses and repeats none: the ranges
    are exactly the slots in offset order, none is empty, each slot starts at
    most 4 KiB after the end of the one before it in its range, and a new range
    is opened only where the gap is larger. *)
Theorem coalesce_read_slots_exact slots :
  concat (coalesce_read_slots slots) ≡ₚ slots
  /\ Sorted slot_order (concat (coalesce_read_slots slots))
  /\ ranges_ok (coalesce_read_slots slots).
Proof.
  rewrite coalesce_concat. split; [apply merge_sort_Permutation|]. split; [|apply coalesce_ok].
  apply Sorted_merge_sort. intros x y. unfold slot_order. lia.
Qed.

(** ** Planning the ranges *)

Lemma add_to_pack_slots packs x :
  map_to_list (add_to_pack packs x) ≫= snd ≡ₚ (map_to_list packs ≫= snd) ++ [slot_of x].
Proof.
  unfold add_to_pack. destruct (packs !! pack_of x.2) as [v|] eqn:E; cbn.
  - rewrite <- insert_delete_eq, map_to_list_insert by apply lookup_delete_eq.
    rewrite <- (map_to_list_delete packs (pack_of x.2) v E). cbn.
    rewrite <- !app_assoc. f_equiv. apply Permutation_app_comm.
  - rewrite map_to_list_insert by done. cbn. apply Permutation_cons_append.
Qed.

Lemma group_slots_from packs ms :
  map_to_list (foldl add_to_pack packs ms) ≫= snd ≡ₚ (map_to_list packs ≫= snd) ++ (slot_of <$> ms).
Proof.
  revert packs; induction ms as [|x ms IH]; intros packs; cbn; [by rewrite app_nil_r|].
  rewrite IH, add_to_pack_slots, <- app_assoc. done.
Qed.

Definition slot_from (ms : list (string * VfsFileManifest)) (key : string) (s : ReadSlot) : Prop :=
  exists x, x ∈ ms /\ pack_of x.2 = key /\ s = slot_of x.

Lemma group_keys_from all packs ms :
  (forall x, x ∈ ms -> x ∈ all) ->
  (forall k slots s, packs !! k = Some slots -> s ∈ slots -> slot_from all k s) ->
  forall k slots s, foldl add_to_pack packs ms !! k = Some slots -> s ∈ slots -> slot_from all k s.
Proof.
  revert packs; induction ms as [|x ms IH]; intros packs Hms Hp; cbn; [done|].
  apply IH; [set_solver|]. intros k slots s. unfold add_to_pack.
  intros [[<- <-]|[_ Hk]]%lookup_insert_Some Hs; [|by eapply Hp].
  apply elem_of_app in Hs as [Hs| ->%list_elem_of_singleton].
  - destruct (packs !! pack_of x.2) as [v|] eqn:E; cbn in Hs; [by eapply Hp|by apply not_elem_of_nil in Hs].
  - exists x. split; [apply Hms; set_solver|done].
Qed.

Section plan.
Context (hash_order : forall A : Type, list A -> list A) (Horder : forall A (l : list A), hash_order A l ≡ₚ l).

Lemma plan_slots ms : plan_ranges hash_order ms ≫= snd ≡ₚ slot_of <$> map_to_list ms.
Proof.
  unfold plan_ranges. set (g := group_by_pack _).
  assert (forall l : list (string * list ReadSlot),
    (l ≫= fun x => (fun slots => (x.1, slots)) <$> coalesce_read_slots x.2) ≫= snd ≡ₚ l ≫= snd) as Hflat.
  { induction l as [|x l IH]; cbn; [done|]. rewrite bind_app, IH. f_equiv.
    transitivity (concat (coalesce_read_slots x.2)).
    - generalize (coalesce_read_slots x.2). induction l0 as [|r rs IHr]; cbn; [done|]. by rewrite IHr.
    - rewrite coalesce_concat. apply merge_sort_Permutation. }
  rewrite Hflat, Horder. unfold g, group_by_pack. rewrite group_slots_from. cbn. by rewrite Horder.
Qed.

Lemma plan_keys ms x : x ∈ plan_ranges hash_order ms ->
  x.2 <> [] /\ forall s, s ∈ x.2 -> slot_from (map_to_list ms) x.1 s.
Proof.
  unfold plan_ranges. intros (y & Hx & Hy)%list_elem_of_bind.
  apply list_elem_of_fmap in Hx as (slots & -> & Hslots). cbn. split.
  - pose proof (ro_nonempty _ (coalesce_ok y.2)) as Hn. rewrite Forall_forall in Hn. by apply Hn.
  - intros s Hs. rewrite Horder in Hy. destruct y as [k ys]. apply elem_of_map_to_list in Hy. cbn in *.
    eapply (group_keys_from (map_to_list ms) ∅ (hash_order _ (map_to_list ms))); [..|exact Hy|].
    + intros z. by rewrite Horder.
    + intros ? ? ? Hk. by rewrite lookup_empty in Hk.
    + rewrite <- (merge_sort_Permutation slot_order ys), <- coalesce_concat. apply list_elem_of_In, in_concat.
      exists slots. split; by apply list_elem_of_In.
Qed.
End plan.

(** ** Fetching and extracting *)

Lemma foldl_min_spec l x : (forall y, y ∈ x :: l -> foldl Z.min x l <= y)%Z /\ foldl Z.min x l ∈ x :: l.
Proof.
  revert x; induction l as [|z l IH]; intros x; cbn; [set_solver by lia|].
  destruct (IH (Z.min x z)) as [H1 H2]. split.
  - intros y Hy. pose proof (H1 (Z.min x z) ltac:(set_solver)).
    apply elem_of_cons in Hy as [-> |[-> |Hy]%elem_of_cons]; [lia|lia|]. apply H1. set_solver.
  - apply elem_of_cons in H2 as [->|H2]; [|set_solver]. destruct (Z.min_spec x z) as [[_ ->]|[_ ->]]; set_solver.
Qed.

Lemma foldl_max_spec l x : (forall y, y ∈ x :: l -> y <= foldl Z.max x l)%Z /\ foldl Z.max x l ∈ x :: l.
Proof.
  revert x; induction l as [|z l IH]; intros x; cbn; [set_solver by lia|].
  destruct (IH (Z.max x z)) as [H1 H2]. split.
  - intros y Hy. pose proof (H1 (Z.max x z) ltac:(set_solver)).
    apply elem_of_cons in Hy as [-> |[-> |Hy]%elem_of_cons]; [lia|lia|]. apply H1. set_solver.
  - apply elem_of_cons in H2 as [->|H2]; [|set_solver]. destruct (Z.max_spec x z) as [[_ ->]|[_ ->]]; set_solver.
Qed.

Lemma min_or_zero_spec (f : ReadSlot -> Z) slots : slots <> [] ->
  (forall s, s ∈ slots -> min_or_zero (f <$> slots) <= f s)%Z /\ exists s, s ∈ slots /\ min_or_zero (f <$> slots) = f s.
Proof.
  destruct slots as [|s0 slots]; [done|]. intros _. cbn. destruct (foldl_min_spec (f <$> slots) (f s0)) as [H1 H2]. split.
  - intros s Hs. apply H1. rewrite <- fmap_cons. by apply list_elem_of_fmap_2.
  - rewrite <- fmap_cons in H2. apply list_elem_of_fmap in H2 as (s & E & Hs). eauto.
Qed.

Lemma max_or_zero_spec (f : ReadSlot -> Z) slots : slots <> [] ->
  (forall s, s ∈ slots -> f s <= max_or_zero (f <$> slots))%Z /\ exists s, s ∈ slots /\ max_or_zero (f <$> slots) = f s.
Proof.
  destruct slots as [|s0 slots]; [done|]. intros _. cbn. destruct (foldl_max_spec (f <$> slots) (f s0)) as [H1 H2]. split.
  - intros s Hs. apply H1. rewrite <- fmap_cons. by apply list_elem_of_fmap_2.
  - rewrite <- fmap_cons in H2. apply list_elem_of_fmap in H2 as (s & E & Hs). eauto.
Qed.

Section batch.
Context {D : PackDeps} {H : HashCrates} (alg : VfsHashAlgorithm) (cfg : ObjectBackedVfsStorageConfig).
Context (store_fault : nat -> ObjectOp -> option bool) (index_fault : nat -> option bool).
Context (hash_order : forall A : Type, list A -> list A) (Horder : forall A (l : list A), hash_order A l ≡ₚ l).

Abbreviation reading := (reading alg).

(** The slot [s] of the pack [key] holds bytes of its hash. *)
Definition slot_stored (objects : gmap string bytes) (key : string) (s : ReadSlot) : Prop :=
  exists fm, pack_of fm = key /\ stored alg objects fm
    /\ rs_content_hash s = fm_content_hash fm /\ rs_offset s = slot_offset fm /\ rs_length s = slot_length fm.

Lemma slot_stored_facts objects key s :
  slot_stored objects key s -> exists bs x, objects !! key = Some bs
    /\ extract_slot bs (rs_offset s) (rs_length s) = Ok x /\ hex_hash alg (x_bytes x) = rs_content_hash s
    /\ (0 <= rs_offset s)%Z /\ (0 < rs_length s)%Z /\ (rs_offset s + rs_length s <= zlen bs)%Z
    /\ (rs_offset s + rs_length s <= I64_MAX)%Z.
Proof.
  intros (fm & <- & Hs & Eh & Eo & El). destruct (stored_slot _ _ _ Hs) as (bs & x & Hbs & Hx & _ & Hh & He & Hp).
  destruct Hs as [_ Ho Hl Hi]. exists bs, x. rewrite Eh, Eo, El. by split_and!.
Qed.

Lemma slot_end_small s : (0 <= rs_offset s)%Z -> (0 < rs_length s)%Z -> (rs_offset s + rs_length s <= I64_MAX)%Z ->
  slot_end s = (rs_offset s + rs_length s)%Z.
Proof.
  unfold slot_end, as_i64, I64_MAX. intros. rewrite Z.mod_small by lia.
  destruct (Z.ltb_spec (rs_offset s + rs_length s) (2 ^ 63)); lia.
Qed.

(** The bytes of a range give every slot of it. *)
Definition covers (r : Z * list ReadSlot * bytes) (slots : list ReadSlot) : Prop :=
  r.1.2 = slots /\ forall s, s ∈ slots -> exists x,
    extract_slot r.2 (as_u64 (as_u64 (rs_offset s) - r.1.1)) (as_u64 (rs_length s)) = Ok x
    /\ hex_hash alg (x_bytes x) = rs_content_hash s.

Lemma covers_whole objects key slots bs :
  (forall s, s ∈ slots -> slot_stored objects key s) -> objects !! key = Some bs -> covers (0%Z, slots, bs) slots.
Proof.
  intros Hs Hbs. split; [done|]. intros s Hin. destruct (slot_stored_facts _ _ _ (Hs s Hin)) as (bs' & x & Hb & Hx & Hh & Ho & Hl & _ & He).
  cbn. rewrite Z.sub_0_r, !(as_u64_fits (rs_offset s)), (as_u64_fits (rs_length s)) by lia. exists x. assert (bs' = bs) as -> by congruence. done.
Qed.

Lemma covers_part objects key slots bs a b :
  (forall s, s ∈ slots -> slot_stored objects key s) -> objects !! key = Some bs -> (0 <= a)%Z -> (b <= zlen bs)%Z ->
  (forall s, s ∈ slots -> a <= rs_offset s /\ rs_offset s + rs_length s <= b)%Z ->
  covers (a, slots, slice bs a b) slots.
Proof.
  intros Hs Hbs Ha Hb Hin. split; [done|]. intros s Hs'. destruct (Hin s Hs') as [H1 H2].
  destruct (slot_stored_facts _ _ _ (Hs s Hs')) as (bs' & x & Hbs' & Hx & Hh & Ho & Hl & Hz & He).
  assert (bs' = bs) as -> by congruence. exists x. split; [|done]. cbn.
  rewrite !(as_u64_fits (rs_offset s)), (as_u64_fits (rs_length s)), as_u64_fits by lia.
  rewrite extract_slot_in_range by (unfold I64_MAX, U64_MAX in *; lia). done.
Qed.

Lemma fetch_range_wp x st0 st :
  reading st0 st -> x.2 <> [] -> (forall s, s ∈ x.2 -> slot_stored (st_objects st0) x.1 s) ->
  wp (fetch_range store_fault x) (fun r st' => reading st0 st' /\
    match r with Ok y => covers y x.2 | Err _ => get_fails store_fault st0 end) st.
Proof.
  intros Hr Hne Hs. destruct x as [key slots]. cbn in *. unfold fetch_range. apply op_wp_bind.
  eapply op_wp_mono; [by apply wp_cache_get|]. intros [[bs|]|e] st1 (Hr1 & _ & Hk); [| |done].
  { split; [done|]. eapply covers_whole; [done|]. by apply Hk. }
  destruct (min_or_zero_spec (fun s => as_u64 (rs_offset s)) slots Hne) as [Hmin (s1 & Hs1 & Emin)].
  destruct (max_or_zero_spec (fun s => as_u64 (slot_end s)) slots Hne) as [Hmax (s2 & Hs2 & Emax)].
  assert (forall s, s ∈ slots -> as_u64 (rs_offset s) = rs_offset s /\ as_u64 (slot_end s) = (rs_offset s + rs_length s)%Z) as Hsm.
  { intros s Hin. destruct (slot_stored_facts _ _ _ (Hs s Hin)) as (? & ? & _ & _ & _ & ? & ? & _ & ?).
    rewrite slot_end_small, !as_u64_fits by lia. done. }
  cbn [fst snd]. set (a := min_or_zero _) in *. set (b := max_or_zero _) in *.
  destruct (slot_stored_facts _ _ _ (Hs s1 Hs1)) as (bs & _ & Hbs & _ & _ & Ho1 & _).
  destruct (slot_stored_facts _ _ _ (Hs s2 Hs2)) as (bs2 & _ & Hbs2 & _ & _ & Ho2 & Hl2 & Hz2 & He2).
  assert (bs2 = bs) as -> by congruence.
  assert (forall s, s ∈ slots -> a <= rs_offset s /\ rs_offset s + rs_length s <= b)%Z as Hin.
  { intros s Hin. destruct (Hsm s Hin) as [E1 E2]. rewrite <- E1 at 1. rewrite <- E2. split; [by apply Hmin|by apply Hmax]. }
  assert (0 <= a)%Z as Ha by (rewrite Emin, (proj1 (Hsm s1 Hs1)); done).
  assert (b = rs_offset s2 + rs_length s2)%Z as Eb by (rewrite Emax; by apply Hsm).
  assert (a <= b)%Z as Hab by (destruct (Hin s2 Hs2); lia).
  apply op_wp_bind. eapply op_wp_mono; [apply (wp_get_object_range alg store_fault key a (sat_sub b a) st0); [done..|unfold sat_sub; lia]|].
  intros [[part|]|e] st2 [-> Hp]; [|by rewrite Hp in Hbs|by split].
  destruct Hp as (all & Hall & Hp). assert (all = bs) as -> by congruence. split; [done|].
  replace (a + sat_sub b a)%Z with b in Hp by (unfold sat_sub; lia).
  rewrite Hp by (unfold I64_MAX, U64_MAX in *; lia). eapply covers_part; try done. lia.
Qed.

(** A result of a batch: a slot's path with bytes of its hash. *)
Definition answers (s : ReadSlot) (y : string * bytes) : Prop := y.1 = rs_path s /\ hex_hash alg y.2 = rs_content_hash s.

Lemma extract_range_wp r slots st0 st :
  reading st0 st -> covers r slots ->
  wp (extract_range cfg hash_order r) (fun o st' => reading st0 st' /\
    match o with Ok ys => Forall2 answers slots ys | Err _ => False end) st.
Proof.
  intros Hr [E Hc]. unfold extract_range. rewrite E. apply wp_map_op; [|done].
  intros s st1 Hin Hr1. destruct (Hc s Hin) as (x & Hx & Hh). unfold extract_read. apply op_wp_bind.
  unfold wp at 1, lift. rewrite Hx. cbn. apply op_wp_bind.
  eapply op_wp_mono; [by apply (wp_remember_small alg cfg hash_order (rs_path s) _ _ st0 st1)|].
  intros ? st2 [Hr2 ->]. by split.
Qed.

(** ** The manifests of a batch *)

Lemma wf_current_path db scope path fm :
  db_wf db -> get_current_file_manifest db scope path = Some fm -> fm_logical_path fm = path.
Proof.
  intros Hwf Hm. unfold get_current_file_manifest in Hm. apply bind_Some in Hm as (e & He & Hm).
  destruct (is_file e); [|done]. unfold manifest_of in Hm. apply bind_Some in Hm as (vid & Hvid & Hm).
  apply bind_Some in Hm as (v & Hv & Hm). destruct (wf_version _ Hwf _ _ _ _ Hv) as (fm' & Hfm' & Hp & _). congruence.
Qed.

Lemma NoDup_sorted_strings s : NoDup (sorted_strings s).
Proof. unfold sorted_strings. rewrite merge_sort_Permutation. apply NoDup_elements. Qed.

(** A lookup by path among rows selected by path. *)
Lemma by_key_lookup {A} (key : A -> string) (get : string -> option A) (paths : list string) p :
  (forall p a, get p = Some a -> key a = p) ->
  (list_to_map (reverse ((fun a => (key a, a)) <$> omap get (sorted_strings (list_to_set paths)))) : gmap string A) !! p
  = if decide (p ∈ paths) then get p else None.
Proof.
  intros Hkey. set (l := sorted_strings (list_to_set paths)).
  assert (NoDup l) as Hl by apply NoDup_sorted_strings.
  assert (forall l, NoDup l -> NoDup (key <$> omap get l)) as Hnd.
  { clear l Hl. induction l as [|q l IH]; intros Hn; cbn; [constructor|]. apply NoDup_cons in Hn as [Hq Hn].
    destruct (get q) as [a|] eqn:E; cbn; [|auto]. apply NoDup_cons. split; [|auto].
    intros (b & Eb & Hb)%list_elem_of_fmap. apply list_elem_of_omap in Hb as (q' & Hq' & E').
    apply Hkey in E, E'. congruence. }
  assert (forall a, list_to_map (M := gmap string A) (reverse ((fun a => (key a, a)) <$> omap get l)) !! p = Some a
    <-> p ∈ paths /\ get p = Some a) as Hiff.
  { intros a. rewrite <- elem_of_list_to_map.
    - rewrite elem_of_reverse, list_elem_of_fmap. setoid_rewrite list_elem_of_omap. unfold l.
      setoid_rewrite elem_of_sorted_strings. setoid_rewrite elem_of_list_to_set. split.
      + intros (b & [= -> ->] & q & Hq & E). by rewrite (Hkey _ _ E).
      + intros [Hp E]. exists a. rewrite (Hkey _ _ E). eauto.
    - rewrite fmap_reverse, reverse_Permutation, <- list_fmap_compose. by apply Hnd. }
  case_decide as Hp.
  - destruct (get p) as [a|] eqn:E; [by apply Hiff|]. apply eq_None_not_Some. intros [a [_ Ha]%Hiff]. congruence.
  - apply eq_None_not_Some. intros [a [Hin _]%Hiff]. done.
Qed.

Lemma by_path_lookup db scope paths p :
  db_wf db ->
  by_path (list_current_file_manifests_by_paths db scope paths) !! p
  = if decide (p ∈ paths) then get_current_file_manifest db scope p else None.
Proof. intros Hwf. apply by_key_lookup. intros q fm. by apply wf_current_path. Qed.

(** What the cache pass leaves of the manifests. *)
Record split_by_cache (ms : gmap string VfsFileManifest) (hits : list (string * bytes))
    (rest : gmap string VfsFileManifest) : Prop := {
  sc_nodup : NoDup hits.*1;
  sc_rest : forall p, rest !! p = if decide (p ∈ hits.*1) then None else ms !! p;
  sc_hits : forall p b, (p, b) ∈ hits -> exists fm, ms !! p = Some fm /\ hex_hash alg b = fm_content_hash fm;
}.

Lemma read_cached_wp paths ms st0 st :
  reading st0 st ->
  wp (read_cached paths ms) (fun r st' => reading st0 st' /\
    match r with Ok x => split_by_cache ms x.1 x.2 | Err _ => False end) st.
Proof.
  revert ms st; induction paths as [|path paths IH]; intros ms st Hr; cbn.
  { split; [done|]. split; cbn; [constructor|done|]. intros ? ? Hx. by apply not_elem_of_nil in Hx. }
  destruct (ms !! path) as [fm|] eqn:E; [|by apply IH]. apply op_wp_bind.
  eapply op_wp_mono; [by apply (wp_cached_file alg path (fm_content_hash fm) st0 st)|].
  intros [[b|]|e] st1 [Hr1 Hb]; [|by apply IH|done]. destruct (Hb _ eq_refl) as [Hh _].
  apply op_wp_bind. eapply op_wp_mono; [by apply (IH (delete path ms) st1)|].
  intros [[hits rest]|e] st2 [Hr2 Hs]; [|done]. split; [done|]. destruct Hs as [H1 H2 H3]. cbn in *.
  assert (path ∉ hits.*1) as Hn.
  { intros ([q c] & -> & Hq)%list_elem_of_fmap. destruct (H3 _ _ Hq) as (fm' & Hfm' & _). cbn in Hfm'.
    by rewrite lookup_delete_eq in Hfm'. }
  split; cbn.
  - apply NoDup_cons. done.
  - intros p. rewrite H2. destruct (decide (p = path)) as [->|Hne].
    + rewrite decide_False by done. rewrite decide_True by set_solver. apply lookup_delete_eq.
    + rewrite lookup_delete_ne by done. do 2 case_decide; set_solver.
  - intros p c [[= -> ->]|Hp]%elem_of_cons; [by exists fm|].
    destruct (H3 _ _ Hp) as (fm' & [_ Hfm']%lookup_delete_Some & Hh'). by exists fm'.
Qed.

Lemma answers_all slots ys :
  Forall2 answers slots ys ->
  ys.*1 = rs_path <$> slots /\ forall p b, (p, b) ∈ ys -> exists s, s ∈ slots /\ rs_path s = p /\ hex_hash alg b = rs_content_hash s.
Proof.
  induction 1 as [|s [q c] slots ys [E Eh] HF [IH1 IH2]]; cbn in *.
  { split; [done|]. intros ? ? Hx. by apply not_elem_of_nil in Hx. }
  split; [by rewrite E, IH1|]. intros p b [[= -> ->]|Hp]%elem_of_cons; [exists s; split; [set_solver|done]|].
  destruct (IH2 _ _ Hp) as (s' & Hs' & ?). exists s'. split; [set_solver|done].
Qed.

(** A batch answers all the manifests [ms], each once, with bytes of its hash. *)
Definition answers_map (ms : gmap string VfsFileManifest) (ys : list (string * bytes)) : Prop :=
  ys.*1 ≡ₚ (map_to_list ms).*1 /\ forall p b, (p, b) ∈ ys -> exists fm, ms !! p = Some fm /\ hex_hash alg b = fm_content_hash fm.

Lemma slot_of_paths ms : rs_path <$> (slot_of <$> map_to_list ms) = (map_to_list ms).*1.
Proof. by rewrite <- list_fmap_compose. Qed.

Lemma fetch_all_wp ms (front : list (string * bytes)) st0 st :
  reading st0 st -> (forall p fm, ms !! p = Some fm -> stored alg (st_objects st0) fm) ->
  wp (fetched ← map_op (fetch_range store_fault) (hash_order _ (plan_ranges hash_order ms));
      extracted ← map_op (extract_range cfg hash_order) fetched;
      mret (front ++ concat extracted))
    (fun r st' => reading st0 st' /\
       match r with
       | Ok ys => exists back, ys = front ++ back /\ answers_map ms back
       | Err _ => get_fails store_fault st0
       end) st.
Proof.
  intros Hr Hms. set (plan := hash_order _ (plan_ranges hash_order ms)).
  assert (forall x, x ∈ plan -> x.2 <> [] /\ forall s, s ∈ x.2 -> slot_stored (st_objects st0) x.1 s
    /\ exists fm, ms !! rs_path s = Some fm /\ rs_content_hash s = fm_content_hash fm) as Hplan.
  { intros x Hx. unfold plan in Hx. rewrite Horder in Hx. destruct (plan_keys _ Horder _ _ Hx) as [Hne Hs]. split; [done|].
    intros s Hin. destruct (Hs s Hin) as ([p fm] & Hp & Ek & ->). apply elem_of_map_to_list in Hp.
    split; [|by exists fm]. exists fm. split; [done|]. split; [by eapply Hms|done]. }
  apply op_wp_bind. eapply op_wp_mono.
  { apply (wp_map_op (reading st0) (fun x y => covers y x.2) (get_fails store_fault st0)); [|done].
    intros x st1 Hx Hr1. destruct (Hplan x Hx) as [Hne Hs]. apply fetch_range_wp; [done..|]. intros s Hin. by apply Hs. }
  intros [fetched|e] st1 [Hr1 Hf]; [|done]. apply op_wp_bind.
  eapply op_wp_mono; [apply (wp_map_op (reading st0) (fun r ys => Forall2 answers r.1.2 ys) False); [|done]|].
  { intros r st2 Hin Hr2. apply list_elem_of_lookup in Hin as [i Hi].
    destruct (Forall2_lookup_r _ _ _ _ _ Hf Hi) as (x & _ & Hc). destruct (Hc) as [E _].
    eapply op_wp_mono; [by apply (extract_range_wp r x.2 st0 st2)|]. intros [ys|?] st3 [? HF]; [|done]. by rewrite E. }
  intros [extracted|e] st2 [Hr2 He]; [|done]. split; [done|].
  assert (Forall2 answers (plan ≫= snd) (concat extracted)) as Hall.
  { clear -Hf He. revert extracted He. induction Hf as [|x r xs rs [E _] Hf IH]; intros extracted He.
    - inversion He; subst. constructor.
    - inversion He as [|? ys ? yss Hy Hys]; subst. cbn. apply Forall2_app; [by rewrite <- E|by apply IH]. }
  exists (concat extracted). split; [done|]. destruct (answers_all _ _ Hall) as [Hpaths Hans]. split.
  - rewrite Hpaths. unfold plan. rewrite Horder, plan_slots by done. by rewrite slot_of_paths.
  - intros p b Hp. destruct (Hans _ _ Hp) as (s & Hs & <- & Hh). apply list_elem_of_bind in Hs as (x & Hs & Hx).
    destruct (Hplan x Hx) as [_ Hx']. destruct (Hx' s Hs) as (_ & fm & Hfm & Eh). exists fm. by rewrite Hh.
Qed.

(** What a batch of reads in [st] must answer. *)
Definition reads_all (st : ObjectBackedVfsStorage) (paths : list string) (ys : list (string * bytes)) : Prop :=
  NoDup ys.*1
  /\ (forall p, p ∈ ys.*1 <-> p ∈ paths /\ is_Some (get_current_file_manifest (st_db st) (cfg_scope cfg) p))
  /\ forall p b, (p, b) ∈ ys -> exists fm,
       get_current_file_manifest (st_db st) (cfg_scope cfg) p = Some fm /\ hex_hash alg b = fm_content_hash fm.

Lemma hits_and_misses st paths ms hits rest back :
  (forall p, ms !! p = if decide (p ∈ paths) then get_current_file_manifest (st_db st) (cfg_scope cfg) p else None) ->
  split_by_cache ms hits rest -> answers_map rest back -> reads_all st paths (hits ++ back).
Proof.
  intros Hms [H1 H2 H3] [Hb1 Hb2].
  assert (forall p, p ∈ back.*1 <-> p ∉ hits.*1 /\ is_Some (ms !! p)) as Hback.
  { intros p. rewrite Hb1. split.
    - intros ([q fm] & -> & Hq%elem_of_map_to_list)%list_elem_of_fmap. cbn. rewrite H2 in Hq.
      case_decide; [done|]. by rewrite Hq.
    - intros [Hn [fm Hfm]]. apply list_elem_of_fmap. exists (p, fm). split; [done|]. apply elem_of_map_to_list.
      by rewrite H2, decide_False. }
  assert (forall p fm, ms !! p = Some fm -> p ∈ paths /\ get_current_file_manifest (st_db st) (cfg_scope cfg) p = Some fm) as Hcur.
  { intros p fm. rewrite Hms. by case_decide. }
  split_and!.
  - rewrite fmap_app. apply NoDup_app. split; [done|]. split; [|rewrite Hb1; apply NoDup_fst_map_to_list].
    intros p Hp Hp'. apply Hback in Hp' as [? _]. done.
  - intros p. rewrite fmap_app, elem_of_app, Hback. split.
    + intros [([q b] & -> & Hq)%list_elem_of_fmap|[_ [fm Hfm]]].
      * destruct (H3 _ _ Hq) as (fm & Hfm & _). cbn. destruct (Hcur _ _ Hfm) as [? ->]. done.
      * destruct (Hcur _ _ Hfm) as [? ->]. done.
    + intros [Hp Hs]. destruct (decide (p ∈ hits.*1)); [by left|right]. split; [done|]. by rewrite Hms, decide_True.
  - intros p b [Hp|Hp]%elem_of_app.
    + destruct (H3 _ _ Hp) as (fm & Hfm & Hh). exists fm. split; [by apply Hcur|done].
    + destruct (Hb2 _ _ Hp) as (fm & Hfm & Hh). exists fm. rewrite H2 in Hfm. case_decide; [done|].
      split; [by apply Hcur|done].
Qed.

Lemma no_empties (ms : gmap string VfsFileManifest) objects :
  (forall p fm, ms !! p = Some fm -> stored alg objects fm) ->
  List.filter is_empty_slot (hash_order _ (map_to_list ms)) = [] /\ filter (fun x => ~ is_empty_slot x) ms = ms.
Proof.
  intros Hms. assert (forall p fm, ms !! p = Some fm -> is_empty_slot (p, fm) = false) as Hne.
  { intros p fm Hfm. destruct (stored_slot _ _ _ (Hms _ _ Hfm)) as (_ & _ & _ & _ & _ & _ & _ & Hl).
    unfold is_empty_slot. cbn. lia. }
  split.
  - destruct (List.filter _ _) as [|[p fm] l] eqn:E; [done|].
    assert ((p, fm) ∈ List.filter is_empty_slot (hash_order _ (map_to_list ms))) as Hin by (rewrite E; set_solver).
    apply elem_of_List_filter in Hin as [Hin He]. rewrite Horder in Hin. apply elem_of_map_to_list in Hin.
    rewrite (Hne _ _ Hin) in He. done.
  - apply map_filter_id. intros p fm Hfm. rewrite (Hne _ _ Hfm). by intros [].
Qed.

Lemma read_many_wp paths st :
  good alg st ->
  wp (read_many cfg store_fault index_fault hash_order paths) (fun r st' => reading st st' /\
    match r with Ok ys => reads_all st paths ys | Err _ => index_fails index_fault st \/ get_fails store_fault st end) st.
Proof.
  intros G. unfold read_many. destruct paths as [|p0 ps] eqn:Ep.
  { split; [done|]. split; [constructor|]. split; [set_solver|]. intros ? ? Hx. by apply not_elem_of_nil in Hx. }
  rewrite <- Ep. clear p0 ps Ep. apply op_wp_bind. eapply op_wp_mono; [by apply (wp_ask alg cfg index_fault _ st)|].
  intros [l|e] st1 (Hr & _ & Hl); [|by auto]. subst l.
  set (ms := by_path _). assert (forall p, ms !! p = if decide (p ∈ paths)
    then get_current_file_manifest (st_db st) (cfg_scope cfg) p else None) as Hms by (intros p; apply by_path_lookup, gd_wf with alg; done).
  apply op_wp_bind. eapply op_wp_mono; [by apply (read_cached_wp paths ms st)|].
  intros [[hits rest]|e] st2 [Hr2 Hs]; [|done]. cbn [fst snd].
  assert (forall p fm, rest !! p = Some fm -> stored alg (st_objects st) fm) as Hst.
  { intros p fm Hfm. rewrite (sc_rest _ _ _ Hs), Hms in Hfm. repeat case_decide; try done. by eapply current_stored. }
  destruct (no_empties rest _ Hst) as [-> ->]. cbn [for_each]. apply op_wp_bind, op_wp_ret. cbn [fmap list_fmap app].
  eapply op_wp_mono; [by apply (fetch_all_wp rest hits st)|].
  intros [ys|e] st3 [Hr3 Hy]; [|by auto]. split; [done|]. destruct Hy as (back & -> & Hb). by eapply hits_and_misses.
Qed.
End batch.
