(* ===== verification/ObjectWrites.v ===== *)
(** * Sound states and the operations that change them

    A storage client is sound when it is good, the aliases of every identity
    carry one content, and the identifiers the next calls draw are new. This file
    has the pieces of [write_many_atomic] one by one: directories, the alias
    expansion, the pack of the batch and the upload. *)

From S2P Require Import Prelude VfsTypes Pack ContentHash PackCache Manifest PackIndex PostgresIndex Compaction PackStore NamespaceIndex NamespaceWf ObjectStorage ObjectReads ObjectBatchReads.
From Stdlib Require Import ZArith Lia Ascii.

(** ** Pack keys *)

Lemma str_app_cancel_l a b c : a +:+ b = a +:+ c -> b = c.
Proof. induction a as [|x a IH]; cbn; [done|]. intros [= E]. auto. Qed.

Lemma str_app_cancel_r a b c : a +:+ c = b +:+ c -> a = b.
Proof.
  revert b; induction a as [|x a IH]; intros [|y b] E; [done|..].
  - apply (f_equal String.length) in E. rewrite !str_length_app in E. cbn [String.length] in E. lia.
  - apply (f_equal String.length) in E. rewrite !str_length_app in E. cbn [String.length] in E. lia.
  - injection E as -> E. f_equal. auto.
Qed.

Lemma object_pack_key_inj prefix scope a b : object_pack_key prefix scope a = object_pack_key prefix scope b -> a = b.
Proof.
  unfold object_pack_key. destruct (is_empty_str _); intros E; repeat apply str_app_cancel_l in E; by apply str_app_cancel_r in E.
Qed.

Section writes.
Context {D : PackDeps} {H : HashCrates} (alg : VfsHashAlgorithm) (cfg : ObjectBackedVfsStorageConfig).
Context (store_fault : nat -> ObjectOp -> option bool) (index_fault : nat -> option bool).
Context (tx_at : nat -> TxInputs) (pack_id : nat -> string).
Context (hash_order : forall A : Type, list A -> list A).

(** [Uuid::new_v4] never repeats; a [HashMap] yields each entry once. *)
Record environment : Prop := {
  env_uuid : forall n i m j, tx_uuid (tx_at n) i = tx_uuid (tx_at m) j -> n = m /\ i = j;
  env_pack : forall n m, pack_id n = pack_id m -> n = m;
  env_order : forall A (l : list A), hash_order A l ≡ₚ l;
}.

Definition key_at (n : nat) : string := object_pack_key (cfg_pack_key_prefix cfg) (cfg_scope cfg) (pack_id n).

Record sound (st : ObjectBackedVfsStorage) : Prop := {
  so_good : good alg st;
  so_agree : aliases_agree (st_db st);
  so_ids : forall n i, sh_tick (st_shared st) <= n -> ~ identity_in (st_db st) (tx_uuid (tx_at n) i);
  so_keys : forall n, os_tick (sh_store (st_shared st)) <= n -> st_objects st !! key_at n = None;
}.

Context (Henv : environment).

Lemma sound_fresh st : sound st -> tx_fresh (tx_at (sh_tick (st_shared st))) (cfg_scope cfg) (st_db st).
Proof.
  intros [_ _ Hids _]. split.
  - intros i j E. by apply (env_uuid Henv) in E as [_ ?].
  - intros path e i He E. eapply (Hids _ i (Nat.le_refl _)). by exists (cfg_scope cfg, path), e.
Qed.

Lemma identities_fresh st db' :
  sound st -> identities_from (tx_at (sh_tick (st_shared st))) (st_db st) db' ->
  forall n i, S (sh_tick (st_shared st)) <= n -> ~ identity_in db' (tx_uuid (tx_at n) i).
Proof.
  intros [_ _ Hids _] Hid n i Hn Hin. destruct (Hid _ Hin) as [Hin'|[j Ej]].
  - eapply Hids; [|exact Hin']. lia.
  - apply (env_uuid Henv) in Ej as [? _]. lia.
Qed.

(** What an operation leaves of the client and of the store. *)
Definition untouched (st st' : ObjectBackedVfsStorage) : Prop :=
  sh_store (st_shared st') = sh_store (st_shared st) /\ st_packs st' = st_packs st /\ st_files st' = st_files st.

Lemma ask_sound {A} (query : Db -> VfsIndexScope -> A) st :
  sound st ->
  wp (ask cfg index_fault query) (fun r st' => sound st' /\ untouched st st' /\ st_db st' = st_db st
    /\ match r with Ok a => a = query (st_db st) (cfg_scope cfg) | Err _ => True end) st.
Proof.
  intros [[G1 G2 G3 G4] Ha Hi Hk]. unfold wp, ask. cbn. split_and!; [|done..|].
  - split; [done|done| |done]. intros n i Hn. apply Hi. cbn in Hn. lia.
  - by destruct (index_fault _).
Qed.

(** A transaction that keeps the index in order; its effect may be lost or kept
    when its commit goes unanswered. *)
Lemma transact_sound {A} (t : TxInputs -> VfsIndexScope -> Db -> VfsStorageResult (A * Db)) st :
  sound st ->
  (forall a db', t (tx_at (sh_tick (st_shared st))) (cfg_scope cfg) (st_db st) = Ok (a, db') ->
     (db_wf db' /\ aliases_agree db') /\ db_stored alg db' (st_objects st)
     /\ identities_from (tx_at (sh_tick (st_shared st))) (st_db st) db') ->
  wp (transact cfg index_fault tx_at t) (fun r st' => sound st' /\ untouched st st' /\
    match r with
    | Ok a => t (tx_at (sh_tick (st_shared st))) (cfg_scope cfg) (st_db st) = Ok (a, st_db st')
    | Err _ => st_db st' = st_db st \/
        ((exists a, t (tx_at (sh_tick (st_shared st))) (cfg_scope cfg) (st_db st) = Ok (a, st_db st'))
         /\ index_fault (sh_tick (st_shared st)) = Some true)
    end) st.
Proof.
  intros Hs Ht. pose proof Hs as [[G1 G2 G3 G4] Ha Hi Hk]. unfold wp, transact.
  change (sh_db (st_shared st)) with (st_db st).
  assert (forall db', db_wf db' -> aliases_agree db' -> db_stored alg db' (st_objects st) ->
    identities_from (tx_at (sh_tick (st_shared st))) (st_db st) db' ->
    sound (set_shared (MkShared db' (sh_store (st_shared st)) (S (sh_tick (st_shared st)))) st)) as Hmk.
  { intros db' W A' S' I'. split; [by split|done| |done]. by apply (identities_fresh st db'). }
  assert (sound (set_shared (MkShared (st_db st) (sh_store (st_shared st)) (S (sh_tick (st_shared st)))) st)) as Hsame.
  { apply Hmk; try done. by left. }
  destruct (t _ _ (st_db st)) as [[a db']|e] eqn:E; cbn [fst snd].
  - destruct (Ht a db' eq_refl) as ([W A'] & S' & I'). specialize (Hmk db' W A' S' I').
    destruct (index_fault _) as [[]|] eqn:Ef; cbn [fst snd]; split_and!; try done; [right|by left].
    split; [by exists a|done].
  - split_and!; try done. by left.
Qed.

Lemma stored_from db db' objects : manifests_from db db' -> db_stored alg db objects -> db_stored alg db' objects.
Proof.
  intros Hm Hs k fm' Hk. destruct (Hm _ _ Hk) as (k0 & fm & H0 & Eh & Es).
  destruct (Hs _ _ H0) as [(body & (bs & x & Hr) & Hh) Ho Hl He].
  unfold slot_offset, slot_length, reads, pack_of in *. split; unfold slot_offset, slot_length, reads, pack_of; rewrite Es.
  - exists body. rewrite Eh. split; [by exists bs, x|done].
  - done.
  - done.
  - done.
Qed.

(** A transaction that keeps the invariant and has a frame. *)
Lemma transact_framed {A} (t : TxInputs -> VfsIndexScope -> Db -> VfsStorageResult (A * Db)) st :
  sound st ->
  (forall a db', t (tx_at (sh_tick (st_shared st))) (cfg_scope cfg) (st_db st) = Ok (a, db') ->
     (db_wf db' /\ aliases_agree db') /\ frame (tx_at (sh_tick (st_shared st))) (st_db st) db') ->
  wp (transact cfg index_fault tx_at t) (fun r st' => sound st' /\ untouched st st' /\
    match r with
    | Ok a => t (tx_at (sh_tick (st_shared st))) (cfg_scope cfg) (st_db st) = Ok (a, st_db st')
    | Err _ => st_db st' = st_db st \/
        ((exists a, t (tx_at (sh_tick (st_shared st))) (cfg_scope cfg) (st_db st) = Ok (a, st_db st'))
         /\ index_fault (sh_tick (st_shared st)) = Some true)
    end) st.
Proof.
  intros Hs Ht. apply transact_sound; [done|]. intros a db' E. destruct (Ht a db' E) as [W [M I]].
  split; [done|]. split; [|done]. eapply stored_from; [done|]. by apply gd_stored, so_good.
Qed.

Lemma sound_inv st : sound st -> db_wf (st_db st) /\ aliases_agree (st_db st).
Proof. intros [[? _ _ _] ? _ _]. done. Qed.

(** ** Directories *)

(** A run of directory creations: the files stay as they were. *)
Definition making_dirs (st0 st : ObjectBackedVfsStorage) : Prop :=
  sound st /\ untouched st0 st /\ same_files (st_db st0) (st_db st).

Lemma make_dir_wp path parent name st0 st :
  making_dirs st0 st ->
  wp (transact cfg index_fault tx_at (fun tx scope => create_directory tx scope path parent name))
    (fun r st' => making_dirs st0 st' /\ match r with Ok _ => True | Err _ => True end) st.
Proof.
  intros (Hs & (U1 & U2 & U3) & Hf). eapply op_wp_mono.
  { apply transact_framed; [done|]. intros a db' E. split.
    - eapply create_directory_keeps; [done|]. by apply sound_inv.
    - by eapply create_directory_frame. }
  intros r st' (Hs' & (V1 & V2 & V3) & Hr).
  assert (same_files (st_db st) (st_db st')) as Hd.
  { destruct r as [a|e]; [by eapply create_directory_same|].
    destruct Hr as [->|[[a E] _]]; [done|by eapply create_directory_same]. }
  split; [|by destruct r]. split; [done|]. split; [split_and!; congruence|]. by eapply same_files_trans.
Qed.

Lemma making_dirs_refl st : sound st -> making_dirs st st.
Proof. done. Qed.

Lemma create_dir_all_wp path st0 st :
  making_dirs st0 st ->
  wp (create_dir_all_metadata cfg index_fault tx_at path)
    (fun r st' => making_dirs st0 st' /\ match r with Ok _ => True | Err _ => True end) st.
Proof. intros Hm. apply wp_for_each; [|done]. intros d st1 _ H1. by apply make_dir_wp. Qed.

Lemma create_parents_wp writes st0 st :
  making_dirs st0 st ->
  wp (create_parent_directories_for_writes cfg index_fault tx_at hash_order writes)
    (fun r st' => making_dirs st0 st' /\ match r with Ok _ => True | Err _ => True end) st.
Proof. intros Hm. apply wp_for_each; [|done]. intros d st1 _ H1. by apply make_dir_wp. Qed.
End writes.

(** ** The hard-link aliases of a batch

    A write through one path of an inode is a write through all of them:
    [write_many_atomic] adds the aliases its caller did not name and refuses a
    batch that gives two of them different bytes. *)

Lemma NoDup_fmap_inj {A B} (f : A -> B) (l : list A) x y :
  NoDup (f <$> l) -> x ∈ l -> y ∈ l -> f x = f y -> x = y.
Proof.
  intros Hn Hx Hy E. apply list_elem_of_lookup in Hx as [i Hi], Hy as [j Hj].
  assert (i = j) as <-; [|congruence]. eapply (NoDup_lookup _ i j (f x) Hn); rewrite list_lookup_fmap, ?Hi, ?Hj; cbn; congruence.
Qed.

Definition alias_of (db : Db) (scope : VfsIndexScope) (fid q : string) : Prop :=
  exists e, db_entries db !! (scope, q) = Some e /\ is_file e = true /\ er_file_id e = Some fid.

Lemma elem_of_alias_rows db scope fid q : q ∈ alias_rows db scope fid <-> alias_of db scope fid q.
Proof.
  unfold alias_rows, alias_of. rewrite list_elem_of_fmap. split.
  - intros ([[sc p] e] & -> & Hin). apply elem_of_List_filter in Hin as [Hin Hb]. apply elem_of_map_to_list in Hin.
    cbn in *. rewrite !andb_true_iff, !bool_decide_eq_true in Hb. destruct Hb as [[-> Hf] Hk]. by exists e.
  - intros (e & He & Hk & Hf). exists ((scope, q), e). split; [done|]. apply elem_of_List_filter.
    split; [by apply elem_of_map_to_list|]. cbn. by rewrite Hk, !bool_decide_true.
Qed.

Lemma elem_of_alias_paths db scope fid q : q ∈ list_file_alias_paths db scope fid <-> alias_of db scope fid q.
Proof. unfold list_file_alias_paths. by rewrite elem_of_sorted_strings, elem_of_list_to_set, elem_of_alias_rows. Qed.

Lemma alias_of_unique db scope f g q : alias_of db scope f q -> alias_of db scope g q -> f = g.
Proof. intros (e & He & _ & E) (e' & He' & _ & E'). congruence. Qed.

Lemma link_count_two db scope e fid p q :
  er_file_id e = Some fid -> alias_of db scope fid p -> alias_of db scope fid q -> p <> q -> (1 < link_count db scope e)%Z.
Proof.
  intros Hf Hp Hq Hne. unfold link_count. rewrite Hf. apply elem_of_alias_rows in Hp, Hq. unfold zlen.
  destruct (alias_rows db scope fid) as [|a [|b l]]; [set_solver| |cbn; lia].
  apply list_elem_of_singleton in Hp, Hq. congruence.
Qed.

(** ** Adding the aliases of one identity *)

Definition path_of_writes (ws : list VfsStorageWrite) : list string := w_path <$> ws.

Lemma find_write_elem p ws w : find_write p ws = Some w -> w ∈ ws /\ w_path w = p.
Proof.
  unfold find_write. intros Hf. apply List.find_some in Hf as [Hin He].
  split; [by apply list_elem_of_In|by apply String.eqb_eq].
Qed.

Record aliases_added (requested : gset string) (b : bytes) (ws ws' : list VfsStorageWrite) (aliases : list string) : Prop := {
  aa_extra : exists extra, ws' = ws ++ extra /\ (w_path <$> extra) = List.filter (fun a => negb (bool_decide (a ∈ requested))) aliases
    /\ forall w, w ∈ extra -> w_bytes w = b;
  aa_all : forall a, a ∈ aliases -> exists w, w ∈ ws' /\ w_path w = a /\ w_bytes w = b;
}.

Lemma add_aliases_spec requested r expected ws aliases ws' :
  foldM (add_alias requested r expected) ws aliases = Ok ws' -> aliases_added requested (w_bytes r) ws ws' aliases.
Proof.
  revert ws; induction aliases as [|a aliases IH]; intros ws E; cbn [foldM] in E.
  { injection E as <-. split; [exists []; rewrite app_nil_r; split_and!; [done..|set_solver]|set_solver]. }
  destruct (add_alias _ _ _ ws a) as [ws1|] eqn:E1; [|done].
  destruct (IH _ E) as [(extra & -> & Hp & Hb) Hall]. clear IH E. unfold add_alias in E1.
  destruct (bool_decide (a ∈ requested)) eqn:Er.
  - inv_ok E1. injection E1 as <-. apply negb_false_iff, bool_decide_eq_true in Hx0.
    apply find_write_elem in Hx as [Hin Hpath]. split.
    + exists extra. cbn. rewrite Er. done.
    + intros a' [-> |Ha]%elem_of_cons; [|by apply Hall]. exists x. split_and!; [set_solver|done..].
  - injection E1 as <-. split.
    + exists (alias_write r expected a :: extra). cbn. rewrite Er, <- app_assoc. cbn. rewrite Hp. split_and!; [done..|].
      intros w [-> |Hw]%elem_of_cons; [done|by apply Hb].
    + intros a' [-> |Ha]%elem_of_cons; [|by apply Hall]. exists (alias_write r expected a).
      split; [|done]. apply elem_of_app. left. apply elem_of_app. right. set_solver.
Qed.

(** ** Expanding a batch *)

Section expand.
Context (db : Db) (scope : VfsIndexScope) (writes : list VfsStorageWrite).

Abbreviation requested := (list_to_set (w_path <$> writes) : gset string).

(** [ws] is the batch with the aliases of the identities [done_] added. *)
Record expanded (done_ : list (string * string)) (ws : list VfsStorageWrite) : Prop := {
  ex_extra : exists extra, ws = writes ++ extra /\ forall w, w ∈ extra ->
    w_path w ∉ w_path <$> writes /\ exists x, x ∈ done_ /\ alias_of db scope x.1 (w_path w);
  ex_nodup : NoDup (w_path <$> ws);
  ex_done : forall x, x ∈ done_ -> exists b, forall q, alias_of db scope x.1 q -> exists w, w ∈ ws /\ w_path w = q /\ w_bytes w = b;
}.

Lemma expanded_step done_ ws x r expected ws' :
  expanded done_ ws -> x.1 ∉ done_.*1 ->
  foldM (add_alias requested r expected) ws (list_file_alias_paths db scope x.1) = Ok ws' -> expanded (done_ ++ [x]) ws'.
Proof.
  intros [(extra & -> & Hextra) Hnd Hdone] Hx E.
  destruct (add_aliases_spec _ _ _ _ _ _ E) as [(more & -> & Hp & Hb) Hall].
  assert (forall w, w ∈ more -> w_path w ∉ w_path <$> writes /\ alias_of db scope x.1 (w_path w)) as Hmore.
  { intros w Hw. assert (w_path w ∈ w_path <$> more) as Hin by (by apply list_elem_of_fmap_2).
    rewrite Hp in Hin. apply elem_of_List_filter in Hin as [Hin Hr]. split; [|by apply elem_of_alias_paths].
    apply negb_true_iff, bool_decide_eq_false in Hr. by rewrite elem_of_list_to_set in Hr. }
  split.
  - exists (extra ++ more). split; [by rewrite app_assoc|]. intros w [Hw|Hw]%elem_of_app.
    + destruct (Hextra w Hw) as (? & y & Hy & ?). split; [done|]. exists y. split; [set_solver|done].
    + destruct (Hmore w Hw) as [? ?]. split; [done|]. exists x. split; [set_solver|done].
  - rewrite fmap_app. apply NoDup_app. split; [done|]. split.
    + intros p Hp1 Hp2. apply list_elem_of_fmap in Hp2 as (w & -> & Hw). destruct (Hmore w Hw) as [Hn Ha].
      rewrite fmap_app, elem_of_app in Hp1. destruct Hp1 as [?|Hp1]; [done|].
      apply list_elem_of_fmap in Hp1 as (w' & Ew & Hw'). destruct (Hextra w' Hw') as (_ & y & Hy & Ha').
      rewrite <- Ew in Ha'. rewrite (alias_of_unique _ _ _ _ _ Ha Ha') in Hx. apply Hx. by apply list_elem_of_fmap_2.
    + rewrite Hp. apply NoDup_ListNoDup, List.NoDup_filter, NoDup_ListNoDup. apply NoDup_sorted_strings.
  - intros y [Hy| ->%list_elem_of_singleton]%elem_of_app.
    + destruct (Hdone y Hy) as [b Hq]. exists b. intros q Ha. destruct (Hq q Ha) as (w & Hw & ?). exists w. split; [set_solver|done].
    + exists (w_bytes r). intros q Ha. apply Hall. by apply elem_of_alias_paths.
Qed.
End expand.

(** ** The identities a batch must expand *)

Lemma entries_lookup db scope paths p :
  by_entry_path (list_entries_with_manifest_by_paths db scope paths) !! p
  = if decide (p ∈ paths) then get_entry_with_manifest db scope p else None.
Proof.
  apply (by_key_lookup (fun e => ie_logical_path (em_entry e))). intros q e. unfold get_entry_with_manifest.
  intros (r & _ & ->)%fmap_Some. done.
Qed.

Lemma previous_id_spec db scope paths p :
  previous_id (by_entry_path (list_entries_with_manifest_by_paths db scope paths)) p
  = if decide (p ∈ paths) then db_entries db !! (scope, p) ≫= er_file_id else None.
Proof.
  unfold previous_id. rewrite entries_lookup. case_decide; [|done]. unfold get_entry_with_manifest.
  by destruct (db_entries db !! (scope, p)).
Qed.

Lemma previous_hash_spec db scope paths p :
  previous_hash (by_entry_path (list_entries_with_manifest_by_paths db scope paths)) p
  = if decide (p ∈ paths) then db_entries db !! (scope, p) ≫= er_content_hash else None.
Proof.
  unfold previous_hash. rewrite entries_lookup. case_decide; [|done]. unfold get_entry_with_manifest.
  by destruct (db_entries db !! (scope, p)).
Qed.

Section identities.
Context (hash_order : forall A : Type, list A -> list A) (Horder : forall A (l : list A), hash_order A l ≡ₚ l).

Lemma explicit_keys previous : NoDup (explicit_by_identity hash_order previous).*1.
Proof. unfold explicit_by_identity. rewrite Horder. apply NoDup_fst_map_to_list. Qed.

(** Every identity with more than one link that the batch names is expanded. *)
Lemma explicit_complete (previous : gmap string VfsIndexEntryWithManifest) p e fid :
  previous !! p = Some e -> (1 < ie_link_count (em_entry e))%Z -> ie_file_id (em_entry e) = Some fid ->
  fid ∈ (explicit_by_identity hash_order previous).*1.
Proof.
  intros He Hl Hf. unfold explicit_by_identity. rewrite Horder.
  set (l := reverse (omap linked_identity (hash_order _ (map_to_list previous).*2))).
  assert (fid ∈ l.*1) as Hin.
  { unfold l. rewrite fmap_reverse, elem_of_reverse. apply list_elem_of_fmap. exists (fid, ie_logical_path (em_entry e)).
    split; [done|]. apply list_elem_of_omap. exists e. rewrite Horder. split.
    - apply list_elem_of_fmap. exists (p, e). split; [done|]. by apply elem_of_map_to_list.
    - unfold linked_identity. rewrite (proj2 (Z.ltb_lt _ _) Hl), Hf. done. }
  destruct (list_to_map (M := gmap string string) l !! fid) as [q|] eqn:E.
  - apply list_elem_of_fmap. exists (fid, q). split; [done|]. by apply elem_of_map_to_list.
  - by apply not_elem_of_list_to_map_2 in E.
Qed.

(** Only identities the batch names are expanded. *)
Lemma explicit_sound (previous : gmap string VfsIndexEntryWithManifest) fid :
  fid ∈ (explicit_by_identity hash_order previous).*1 ->
  exists p e, previous !! p = Some e /\ ie_file_id (em_entry e) = Some fid.
Proof.
  unfold explicit_by_identity. rewrite Horder. intros ([f q] & -> & Hx)%list_elem_of_fmap.
  apply elem_of_map_to_list, elem_of_list_to_map_2 in Hx. rewrite elem_of_reverse in Hx.
  apply list_elem_of_omap in Hx as (e & He & Hl). rewrite Horder in He.
  apply list_elem_of_fmap in He as ([p e'] & -> & Hp). apply elem_of_map_to_list in Hp.
  exists p, e'. split; [done|]. unfold linked_identity in Hl. cbn in Hl. destruct (1 <? _)%Z; [|done].
  apply fmap_Some in Hl as (f' & Hf & [= -> ->]). done.
Qed.
End identities.

(** ** The expansion, as the storage runs it *)

Section run.
Context {D : PackDeps} {H : HashCrates} (alg : VfsHashAlgorithm) (cfg : ObjectBackedVfsStorageConfig).
Context (index_fault : nat -> option bool) (tx_at : nat -> TxInputs) (pack_id : nat -> string).

Abbreviation sound := (sound alg cfg tx_at pack_id).

(** A run of queries. *)
Definition asking (st0 st : ObjectBackedVfsStorage) : Prop := sound st /\ untouched st0 st /\ st_db st = st_db st0.

Lemma ask_asking {A} (query : Db -> VfsIndexScope -> A) st0 st :
  asking st0 st ->
  wp (ask cfg index_fault query) (fun r st' => asking st0 st' /\
    match r with Ok a => a = query (st_db st0) (cfg_scope cfg) | Err _ => True end) st.
Proof.
  intros (Hs & (U1 & U2 & U3) & E). eapply op_wp_mono; [by apply ask_sound|].
  intros r st' (Hs' & (V1 & V2 & V3) & E' & Hr). split; [split_and!; [done|split_and!; congruence|congruence]|].
  rewrite <- E. done.
Qed.

Lemma ask_entries_asking paths st0 st :
  asking st0 st ->
  wp (ask_entries cfg index_fault paths) (fun r st' => asking st0 st' /\
    match r with
    | Ok m => m = by_entry_path (list_entries_with_manifest_by_paths (st_db st0) (cfg_scope cfg) paths)
    | Err _ => True
    end) st.
Proof.
  intros Ha. unfold ask_entries. apply op_wp_bind. eapply op_wp_mono; [by apply ask_asking|].
  intros [es|e] st' [Ha' Hr]; [|done]. subst es. done.
Qed.

Lemma expand_aliases_wp writes previous identities done_ ws st0 st :
  asking st0 st -> expanded (st_db st0) (cfg_scope cfg) writes done_ ws ->
  NoDup (done_ ++ identities).*1 ->
  wp (expand_aliases cfg index_fault (list_to_set (w_path <$> writes)) previous identities ws) (fun r st' => asking st0 st' /\
    match r with
    | Ok ws' => expanded (st_db st0) (cfg_scope cfg) writes (done_ ++ identities) ws'
    | Err _ => True
    end) st.
Proof.
  revert done_ ws st; induction identities as [|x identities IH]; intros done_ ws st Ha He Hn; cbn.
  { rewrite app_nil_r. done. }
  apply op_wp_bind. unfold expand_identity. apply op_wp_bind. unfold wp at 1, lift.
  destruct (guard_err _ _); [|done]. cbn [fst snd]. apply op_wp_bind. unfold wp at 1.
  destruct (ok_or _ _) as [r|]; [|done]. cbn [fst snd]. apply op_wp_bind. eapply op_wp_mono; [by apply ask_asking|].
  intros [aliases|e] st1 [Ha1 Hr]; [|done]. subst aliases. unfold wp at 1. cbn [fst snd].
  destruct (foldM _ ws _) as [ws1|] eqn:E; [|done].
  assert (x.1 ∉ done_.*1) as Hx.
  { rewrite fmap_app in Hn. apply NoDup_app in Hn as (_ & Hn & _). intros Hin. eapply Hn; [exact Hin|]. cbn. set_solver. }
  pose proof (expanded_step _ _ _ _ _ _ _ _ _ He Hx E) as He1.
  rewrite (cons_middle x done_ identities), app_assoc. apply IH; [done|done|]. by rewrite <- app_assoc.
Qed.

(** A whole expansion: no path twice, and one content per identity. *)
Record batch_of (db : Db) (writes ws : list VfsStorageWrite) : Prop := {
  bo_extra : exists extra, ws = writes ++ extra /\ forall w, w ∈ extra -> w_path w ∉ w_path <$> writes
    /\ exists fid v, alias_of db (cfg_scope cfg) fid (w_path w) /\ v ∈ writes /\ w_bytes v = w_bytes w
         /\ alias_of db (cfg_scope cfg) fid (w_path v);
  bo_nodup : NoDup (w_path <$> ws);
  bo_content : forall v w fid, v ∈ ws -> w ∈ ws -> alias_of db (cfg_scope cfg) fid (w_path v) ->
    alias_of db (cfg_scope cfg) fid (w_path w) -> w_bytes v = w_bytes w;
}.

Lemma file_of_identity db p fid :
  db_wf db -> (db_entries db !! (cfg_scope cfg, p) ≫= er_file_id) = Some fid <-> alias_of db (cfg_scope cfg) fid p.
Proof.
  intros Hwf. split.
  - intros (e & He & Hf)%bind_Some. exists e. split; [done|]. split; [|done].
    destruct (is_file e) eqn:Ef; [done|]. destruct (wf_directory _ Hwf _ _ He Ef) as [_ Hn]. congruence.
  - intros (e & -> & _ & Hf). done.
Qed.

Lemma expanded_batch (hash_order : forall A : Type, list A -> list A) (Horder : forall A (l : list A), hash_order A l ≡ₚ l)
    db writes ws :
  db_wf db -> NoDup (w_path <$> writes) ->
  expanded db (cfg_scope cfg) writes
    (explicit_by_identity hash_order (by_entry_path (list_entries_with_manifest_by_paths db (cfg_scope cfg) (w_path <$> writes)))) ws ->
  batch_of db writes ws.
Proof.
  intros Hwf Hnd [(extra & -> & Hextra) Hn Hdone]. set (previous := by_entry_path _) in *.
  assert (forall x, x ∈ explicit_by_identity hash_order previous -> exists b, forall w, w ∈ writes ++ extra ->
    alias_of db (cfg_scope cfg) x.1 (w_path w) -> w_bytes w = b) as Hone.
  { intros x Hx. destruct (Hdone x Hx) as [b Hb]. exists b. intros w Hw Ha. destruct (Hb _ Ha) as (w' & Hw' & Ep & <-).
    f_equal. by eapply (NoDup_fmap_inj w_path). }
  assert (forall x, x ∈ explicit_by_identity hash_order previous -> exists v, v ∈ writes /\ alias_of db (cfg_scope cfg) x.1 (w_path v)) as Hsome.
  { intros x Hx. destruct (explicit_sound hash_order Horder previous x.1) as (p & e & Hp & Hf); [by apply list_elem_of_fmap_2|].
    unfold previous in Hp. rewrite entries_lookup in Hp. case_decide as Hin; [|done].
    apply list_elem_of_fmap in Hin as (v & -> & Hv). exists v. split; [done|]. apply file_of_identity; [done|].
    unfold get_entry_with_manifest in Hp. apply fmap_Some in Hp as (r & -> & ->). done. }
  split; [|done|].
  - exists extra. split; [done|]. intros w Hw. destruct (Hextra w Hw) as (Hn' & x & Hx & Ha). split; [done|].
    destruct (Hsome x Hx) as (v & Hv & Hav). destruct (Hone x Hx) as [b Hb]. exists x.1, v. split_and!; [done|done| |done].
    rewrite (Hb v), (Hb w); set_solver.
  - intros v w fid Hv Hw Hav Haw. destruct (decide (w_path v = w_path w)) as [E|Hne].
    { f_equal. by eapply (NoDup_fmap_inj w_path). }
    assert (fid ∈ (explicit_by_identity hash_order previous).*1) as Hin.
    { assert (exists u, u ∈ writes /\ alias_of db (cfg_scope cfg) fid (w_path u)) as (u & Hu & Hau).
      { apply elem_of_app in Hv as [Hv|Hv]; [by exists v|]. destruct (Hextra v Hv) as (_ & x & Hx & Ha).
        destruct (Hsome x Hx) as (u & Hu & Hau). rewrite <- (alias_of_unique _ _ _ _ _ Hav Ha) in Hau. by exists u. }
      destruct Hau as (e & He & Hk & Hf).
      apply (explicit_complete hash_order Horder previous (w_path u) (entry_with_manifest db (cfg_scope cfg) (w_path u) e) fid).
      - unfold previous. rewrite entries_lookup, decide_True by (by apply list_elem_of_fmap_2).
        unfold get_entry_with_manifest. by rewrite He.
      - cbn. by eapply (link_count_two db _ e fid (w_path v) (w_path w)).
      - done. }
    apply list_elem_of_fmap in Hin as ([f q] & -> & Hx). destruct (Hone _ Hx) as [b Hb]. by rewrite (Hb v), (Hb w).
Qed.
End run.
