(* ===== verification/ObjectCommit.v ===== *)
(** * What [write_many_atomic] does

    A batch of writes packs each content once, uploads the pack, and commits the
    files through every hard-link alias. Either all of it is visible afterwards
    or none of it; the state stays sound in every case. *)

From S2P Require Import Prelude VfsTypes Pack ContentHash PackCache Manifest PackIndex PostgresIndex Compaction PackStore NamespaceIndex NamespaceWf ObjectStorage ObjectReads ObjectBatchReads ObjectWrites.
From Stdlib Require Import ZArith Lia Ascii.

(** ** The pack of a batch *)

Lemma first_by_identity_sub previous seen ws w : w ∈ first_by_identity previous seen ws -> w ∈ ws.
Proof.
  revert seen; induction ws as [|v ws IH]; intros seen; cbn; [done|].
  destruct (bool_decide _); [|rewrite elem_of_cons; intros [-> |Hw]; [set_solver|]]; intros; apply elem_of_cons; right; eauto.
Qed.

Lemma identity_key_eq previous u w :
  identity_key previous u = identity_key previous w ->
  (exists fid, previous_id previous (w_path u) = Some fid /\ previous_id previous (w_path w) = Some fid)
  \/ w_path u = w_path w.
Proof.
  unfold identity_key. destruct (previous_id previous (w_path u)) as [f|], (previous_id previous (w_path w)) as [g|]; intros E.
  - apply str_app_cancel_l in E as <-. left. eauto.
  - discriminate E.
  - discriminate E.
  - apply str_app_cancel_l in E. by right.
Qed.

Section batch.
Context {D : PackDeps} {L : PackDepsLaws D} {H : HashCrates} (alg : VfsHashAlgorithm).

(** The manifest [fm] of [w] describes the bytes [b] in the pack. *)
Record packed (key : string) (pack : bytes) (w : VfsStorageWrite) (fm : VfsFileManifest) (b : bytes) : Prop := {
  pa_path : fm_logical_path fm = w_path w;
  pa_key : pack_of fm = key;
  pa_hash : fm_content_hash fm = hex_hash alg b;
  pa_size : fm_logical_size_bytes fm = zlen b;
  pa_offset : (0 <= slot_offset fm <= I64_MAX)%Z;
  pa_length : (0 <= slot_length fm <= I64_MAX)%Z;
  pa_total : (zlen pack <= I64_MAX)%Z;
  pa_slot : exists x, extract_slot pack (as_u64 (slot_offset fm)) (as_u64 (slot_length fm)) = Ok x /\ x_bytes x = b;
}.

Lemma build_batch_spec key previous ws pack record manifests :
  build_batch alg key previous ws = Ok (pack, record, manifests) ->
  pk_pack_key record = key /\ Forall2 (fun w fm => exists u, u ∈ ws /\ identity_key previous u = identity_key previous w
    /\ packed key (pack_bytes pack) w fm (w_bytes u)) ws manifests.
Proof.
  unfold build_batch. intros E. inv_ok E. rename x into built, x0 into exp. injection E as <- <- <-. split.
  { unfold build_pack_manifest in Hx. inv_ok Hx. injection Hx as <-. done. }
  apply mapM_result_Ok in Hx0. eapply Forall2_impl; [exact Hx0|]. clear Hx0. intros w fm Hw.
  unfold expand_manifest in Hw. inv_ok Hw. injection Hw as <-. rename x into fm0.
  apply elem_of_list_to_map_2 in Hx0. rewrite elem_of_reverse in Hx0. apply list_elem_of_lookup in Hx0 as [i Hi].
  apply lookup_zip_Some in Hi as [Hk Hf]. rewrite list_lookup_fmap in Hk. apply fmap_Some in Hk as (u & Hu & Ek).
  assert ((pack_input <$> first_by_identity previous ∅ ws) !! i = Some (pack_input u)) as Hin by (by rewrite list_lookup_fmap, Hu).
  destruct (manifest_locates alg key _ built i _ Hx Hin) as (fm' & head & Hf' & _ & _ & Hh & Hsz & _ & _ & Hpk & Hex & _ & _ & Ho & Hl & Hz).
  assert (fm' = fm0) as -> by congruence. exists u. split; [|split; [done|]].
  - eapply first_by_identity_sub. by eapply list_elem_of_lookup_2.
  - split; try done. eexists. split; [exact Hex|done].
Qed.

Lemma packed_stored key pack w fm b (objects : gmap string bytes) :
  packed key pack w fm b -> objects !! key = Some pack -> stored alg objects fm /\ reads objects fm b.
Proof.
  intros [_ Hk Hh _ Ho Hl Hz (x & Hx & Hb)] Hobj.
  assert (reads objects fm b) as Hr by (exists pack, x; by rewrite Hk). split; [|done]. split; [by exists b|lia|lia|].
  rewrite !as_u64_fits in Hx by lia. destruct (extract_slot_extent _ _ _ _ (proj1 Ho) (proj1 Hl) Hx) as (? & _). lia.
Qed.

(** One content per identity: a write's manifest describes its own bytes. *)
Lemma batch_packed cfg db writes ws key pack record manifests :
  db_wf db -> batch_of cfg db writes ws ->
  build_batch alg key (by_entry_path (list_entries_with_manifest_by_paths db (cfg_scope cfg) (w_path <$> ws))) ws
    = Ok (pack, record, manifests) ->
  pk_pack_key record = key /\ Forall2 (fun w fm => packed key (pack_bytes pack) w fm (w_bytes w)) ws manifests.
Proof.
  intros Hwf Hb E. destruct (build_batch_spec _ _ _ _ _ _ E) as [Hk HF]. split; [done|].
  apply Forall2_same_length_lookup. split; [by eapply Forall2_length|]. intros i w fm Hw Hfm.
  destruct (Forall2_lookup_lr _ _ _ _ _ _ HF Hw Hfm) as (u & Hu & Ek & Hp).
  assert (w_bytes u = w_bytes w) as <-; [|done]. apply list_elem_of_lookup_2 in Hw.
  apply identity_key_eq in Ek as [(fid & E1 & E2)|Ep].
  - rewrite previous_id_spec, decide_True in E1 by (by apply list_elem_of_fmap_2).
    rewrite previous_id_spec, decide_True in E2 by (by apply list_elem_of_fmap_2).
    apply (bo_content _ _ _ _ Hb u w fid); try done; by apply file_of_identity.
  - f_equal. eapply (NoDup_fmap_inj w_path ws); try done. by eapply bo_nodup.
Qed.
End batch.

(** ** The commit of a batch *)

Lemma file_commit_fields previous w fm :
  fc_logical_path (file_commit previous w fm) = w_path w /\ fc_manifest (file_commit previous w fm) = fm
  /\ fc_file_id (file_commit previous w fm) = previous_id previous (w_path w).
Proof. unfold file_commit. by destruct (path_parts (w_path w)). Qed.

Lemma commit_paths previous ws fms :
  length ws = length fms -> fc_logical_path <$> zip_with (file_commit previous) ws fms = w_path <$> ws.
Proof.
  revert fms; induction ws as [|w ws IH]; intros [|fm fms] Hl; cbn in *; try done.
  rewrite (proj1 (file_commit_fields previous w fm)), IH by lia. done.
Qed.

Lemma elem_of_commit previous ws fms f :
  f ∈ zip_with (file_commit previous) ws fms -> exists i w fm, ws !! i = Some w /\ fms !! i = Some fm /\ f = file_commit previous w fm.
Proof. intros [i Hi]%list_elem_of_lookup. apply lookup_zip_with_Some in Hi as (w & fm & -> & Hw & Hf). eauto 10. Qed.

Lemma committed_current tx scope x db db' :
  committed_at tx scope x db db' -> get_current_file_manifest db' scope (fc_logical_path x.2) = Some (fc_manifest x.2).
Proof.
  intros [(e & He & Hk & Hv & _) _ [no Hno] Hm]. unfold get_current_file_manifest. rewrite He. cbn.
  rewrite (proj2 (is_file_kind e) Hk). unfold manifest_of. rewrite Hv. cbn.
  assert (version_of db' scope (fc_logical_path x.2) (version_uuid tx x.1) = Some (MkVersionRow no (manifest_uuid tx x.1)
    (fm_content_hash (fc_manifest x.2)) (fm_logical_size_bytes (fc_manifest x.2)))) as ->; [|done].
  apply version_of_rows. rewrite Hno. apply lookup_insert_eq.
Qed.

Lemma commit_other tx scope files db db' q :
  db_wf db -> commit_effect tx scope files db db' -> q ∉ fc_logical_path <$> files ->
  get_current_file_manifest db' scope q = get_current_file_manifest db scope q.
Proof.
  intros Hwf Heff Hq. destruct (ce_other _ _ _ _ _ Heff (scope, q)) as [E1 E2].
  { intros (f & [= ->] & Hf)%list_elem_of_fmap. apply Hq. by apply list_elem_of_fmap_2. }
  unfold get_current_file_manifest. rewrite E1. destruct (db_entries db !! (scope, q)) as [e|]; [|done]. cbn.
  destruct (is_file e); [|done]. apply manifest_of_versions; [done|by eapply ce_manifests|].
  intros vid v Hv. destruct (wf_version _ Hwf _ _ _ _ Hv) as (fm & -> & _). by eexists.
Qed.

Section commit.
Context {D : PackDeps} {L : PackDepsLaws D} {H : HashCrates} (alg : VfsHashAlgorithm) (cfg : ObjectBackedVfsStorageConfig).
Abbreviation current db q := (get_current_file_manifest db (cfg_scope cfg) q).

(** A write goes to its path and to every alias of the file there. *)
Definition reaches (db : Db) (w : VfsStorageWrite) (q : string) : Prop :=
  q = w_path w \/ exists fid, alias_of db (cfg_scope cfg) fid (w_path w) /\ alias_of db (cfg_scope cfg) fid q.

(** [db'] is [db] with the batch written, readable from [objects]. *)
Record written (objects : gmap string bytes) (db db' : Db) (writes : list VfsStorageWrite) : Prop := {
  wn_new : forall w q, w ∈ writes -> reaches db w q -> exists fm,
    current db' q = Some fm /\ fm_content_hash fm = hex_hash alg (w_bytes w) /\ reads objects fm (w_bytes w);
  wn_other : forall q, (forall w, w ∈ writes -> ~ reaches db w q) -> current db' q = current db q;
}.

Definition unchanged (db db' : Db) : Prop := forall q, current db' q = current db q.

Context (tx : TxInputs) (db : Db) (writes ws : list VfsStorageWrite) (key : string) (pack : BuiltPack).
Context (record : VfsPackRecord) (fms : list VfsFileManifest) (objects : gmap string bytes).
Let previous := by_entry_path (list_entries_with_manifest_by_paths db (cfg_scope cfg) (w_path <$> ws)).
Let files := zip_with (file_commit previous) ws fms.
Context (Hwf : db_wf db) (Hfresh : tx_fresh tx (cfg_scope cfg) db) (Hbatch : batch_of cfg db writes ws).
Context (Hpacked : Forall2 (fun w fm => packed alg key (pack_bytes pack) w fm (w_bytes w)) ws fms).
Context (Hobj : objects !! key = Some (pack_bytes pack)).

Lemma commit_file w : w ∈ ws -> exists f, f ∈ files /\ fc_logical_path f = w_path w
  /\ packed alg key (pack_bytes pack) w (fc_manifest f) (w_bytes w)
  /\ fc_file_id f = (db_entries db !! (cfg_scope cfg, w_path w) ≫= er_file_id).
Proof.
  intros Hw. pose proof Hw as Hin. apply list_elem_of_lookup in Hw as [i Hi].
  destruct (Forall2_lookup_l _ _ _ _ _ Hpacked Hi) as (fm & Hfm & Hp). exists (file_commit previous w fm).
  destruct (file_commit_fields previous w fm) as (E1 & E2 & E3). split_and!; [|done|by rewrite E2|].
  - eapply list_elem_of_lookup_2, lookup_zip_with_Some. eauto 10.
  - rewrite E3. unfold previous. rewrite previous_id_spec, decide_True; [done|]. by apply list_elem_of_fmap_2.
Qed.

Lemma file_write f : f ∈ files -> exists w, w ∈ ws /\ fc_logical_path f = w_path w
  /\ packed alg key (pack_bytes pack) w (fc_manifest f) (w_bytes w)
  /\ fc_file_id f = (db_entries db !! (cfg_scope cfg, w_path w) ≫= er_file_id).
Proof.
  intros (i & w & fm & Hw & Hfm & ->)%elem_of_commit. exists w. destruct (file_commit_fields previous w fm) as (E1 & E2 & E3).
  pose proof (Forall2_lookup_lr _ _ _ _ _ _ Hpacked Hw Hfm) as Hp. apply list_elem_of_lookup_2 in Hw.
  rewrite E2. split_and!; [done..|]. rewrite E3. unfold previous. rewrite previous_id_spec, decide_True; [done|].
  by apply list_elem_of_fmap_2.
Qed.

Lemma commit_is_ready : commit_ready (cfg_scope cfg) files db.
Proof.
  split.
  - unfold files. rewrite commit_paths by (by eapply Forall2_length). by eapply bo_nodup.
  - intros f (w & _ & -> & Hp & _)%file_write. by eapply pa_path.
  - intros f (w & _ & -> & _ & E)%file_write. done.
  - intros f g fid (w & Hw & _ & Hp & E)%file_write (v & Hv & _ & Hq & E')%file_write Hf Hg.
    rewrite (pa_hash _ _ _ _ _ _ Hp), (pa_hash _ _ _ _ _ _ Hq). do 1 f_equal.
    apply (bo_content _ _ _ _ Hbatch w v fid); try done; apply file_of_identity; congruence.
Qed.

Lemma commit_stored db' : db_stored alg db objects -> commit_effect tx (cfg_scope cfg) files db db' -> db_stored alg db' objects.
Proof.
  intros Hst Heff k fm Hk. destruct (ce_new _ _ _ _ _ Heff k fm Hk) as [Hk'|(x & Hx & -> & ->)]; [by eapply Hst|].
  destruct (file_write _ (indexed_elem _ _ Hx)) as (w & _ & _ & Hp & _). by eapply packed_stored.
Qed.

Lemma commit_identities db' : commit_effect tx (cfg_scope cfg) files db db' -> identities_from tx db db'.
Proof.
  intros Heff fid ([sc p] & e & He & Hf).
  destruct (commit_path tx (cfg_scope cfg) files db db' Heff sc p) as [(x & Hx & -> & ->)|(E & _)].
  - destruct (committed_identity _ _ _ _ _ Heff commit_is_ready x e Hwf Hx He) as [_ [Hid|[_ Hid]]]; [left|right].
    2: { rewrite Hf in Hid. injection Hid as ->. by eexists. }
    destruct (file_write _ (indexed_elem _ _ Hx)) as (w & _ & _ & _ & E). rewrite Hf, E in Hid.
    symmetry in Hid. apply bind_Some in Hid as (e0 & He0 & Hf0). by eexists _, _.
  - rewrite E in He. left. by eexists _, _.
Qed.

Lemma commit_written db' :
  commit_effect tx (cfg_scope cfg) files db db' -> validate_file_alias_snapshot db (cfg_scope cfg) files = true ->
  written objects db db' writes.
Proof.
  intros Heff Hval. destruct (bo_extra _ _ _ _ Hbatch) as (extra & Ews & Hextra).
  assert (forall w, w ∈ ws -> exists fm, current db' (w_path w) = Some fm
    /\ fm_content_hash fm = hex_hash alg (w_bytes w) /\ reads objects fm (w_bytes w)) as Hnew.
  { intros w Hw. destruct (commit_file w Hw) as (f & Hf & Ep & Hp & _). destruct (elem_indexed _ _ Hf) as (x & Hx & <-).
    exists (fc_manifest x.2). rewrite <- Ep. split; [by eapply committed_current, ce_files|].
    split; [by eapply pa_hash|]. by eapply packed_stored. }
  split.
  - intros w q Hw [-> |(fid & Ha & Hq)]; [apply Hnew; set_solver|].
    assert (w ∈ ws) as Hin by set_solver. destruct (commit_file w Hin) as (f & Hf & Ep & _ & Hid).
    apply file_of_identity in Ha as Ha'; [|done]. rewrite Ha' in Hid. destruct Hq as (e & He & Hk & Hfid).
    assert ((cfg_scope cfg, q) ∈ ((fun f => (cfg_scope cfg, fc_logical_path f)) <$> files)) as Hc
      by (by eapply (alias_committed (cfg_scope cfg) files db q e f fid)).
    apply list_elem_of_fmap in Hc as (g & [= ->] & Hg). destruct (file_write g Hg) as (v & Hv & Epv & _ & Hgid).
    destruct (Hnew v Hv) as (fm & Hcur & Hh & Hr). exists fm. rewrite Epv.
    assert (w_bytes w = w_bytes v) as ->; [|done].
    apply (bo_content _ _ _ _ Hbatch w v fid); try done. exists e. by rewrite <- Epv.
  - intros q Hq. eapply commit_other; [done..|]. unfold files. rewrite commit_paths by (by eapply Forall2_length).
    intros (w & -> & Hw)%list_elem_of_fmap. rewrite Ews in Hw. apply elem_of_app in Hw as [Hw|Hw].
    + apply (Hq w Hw). by left.
    + destruct (Hextra w Hw) as (_ & fid & v & Ha & Hv & _ & Hav). apply (Hq v Hv). right. by exists fid.
Qed.

(** A committed batch: the invariant, the store, the identities, the files. *)
Lemma commit_batch r db' :
  commit_packed_files tx (cfg_scope cfg) (MkPackedCommit record files) db = Ok (r, db') ->
  aliases_agree db -> db_stored alg db objects ->
  (db_wf db' /\ aliases_agree db') /\ db_stored alg db' objects /\ identities_from tx db db' /\ written objects db db' writes.
Proof.
  intros E Ha Hst. pose proof commit_is_ready as Hr.
  destruct (commit_effect_intro _ _ _ _ _ _ E (cr_paths _ _ _ Hr)) as (_ & Heff & Hval & _). cbn in *.
  split; [by eapply commit_packed_files_keeps|]. split_and!; [by apply commit_stored|by apply commit_identities|by apply commit_written].
Qed.
End commit.

(** ** [write_many_atomic] *)

Lemma assert_unique_Ok ws : assert_unique_write_paths ws = Ok tt -> NoDup (w_path <$> ws).
Proof.
  unfold assert_unique_write_paths. destruct (foldM _ _ _) as [s|] eqn:E; [|done]. intros _. revert E. generalize (∅ : gset string).
  assert (forall seen s, foldM (fun (seen : gset string) w => if decide (w_path w ∈ seen)
    then Err (BadRequest ("duplicate vfs write path: " +:+ w_path w)) else Ok ({[w_path w]} ∪ seen)) seen ws = Ok s ->
    NoDup (w_path <$> ws) /\ forall p, p ∈ w_path <$> ws -> p ∉ seen) as Hgen; [|intros seen E; by eapply Hgen].
  clear s. induction ws as [|w ws IH]; intros seen s E; cbn in *; [split; [constructor|set_solver]|].
  case_decide as Hin; [done|]. destruct (IH _ _ E) as [Hn Hd]. split; [constructor; [|done]|set_solver].
  intros Hw. apply (Hd _ Hw). set_solver.
Qed.

Lemma alias_of_same db db' scope fid q : same_files db db' -> alias_of db' scope fid q <-> alias_of db scope fid q.
Proof.
  intros (_ & _ & _ & E). split; intros (e & He & Hk & Hf); exists e; (split; [by apply E|done]).
Qed.

Section write.
Context {D : PackDeps} {L : PackDepsLaws D} {H : HashCrates} (alg : VfsHashAlgorithm) (cfg : ObjectBackedVfsStorageConfig).
Context (store_fault : nat -> ObjectOp -> option bool) (index_fault : nat -> option bool).
Context (tx_at : nat -> TxInputs) (pack_id : nat -> string) (hash_order : forall A : Type, list A -> list A).
Context (Henv : environment tx_at pack_id hash_order).
Abbreviation sound := (sound alg cfg tx_at pack_id).

Lemma written_same objects db0 db db' writes :
  same_files db0 db -> written alg cfg objects db db' writes -> written alg cfg objects db0 db' writes.
Proof.
  intros Hs [Hn Ho]. assert (forall w q, reaches cfg db0 w q <-> reaches cfg db w q) as Hr.
  { intros w q. unfold reaches. by setoid_rewrite (alias_of_same _ _ _ _ _ Hs). }
  split.
  - intros w q Hw Hq. apply Hn; [done|]. by apply Hr.
  - intros q Hq. rewrite Ho; [by apply same_files_current|]. intros w Hw Hx. apply (Hq w Hw). by apply Hr.
Qed.

Lemma written_weaken objects objects' db db' writes :
  objects ⊆ objects' -> written alg cfg objects db db' writes -> written alg cfg objects' db db' writes.
Proof.
  intros Hsub [Hn Ho]. split; [|done]. intros w q Hw Hq. destruct (Hn w q Hw Hq) as (fm & ? & ? & ?).
  exists fm. split_and!; [done..|]. by eapply reads_weaken.
Qed.

(** The upload: the pack under a key nothing used before. *)
Lemma put_object_wp key bs st :
  sound st -> key = key_at cfg pack_id (os_tick (sh_store (st_shared st))) ->
  wp (put_object store_fault key bs) (fun r st' => sound st' /\ st_db st' = st_db st /\ st_files st' = st_files st
    /\ sh_tick (st_shared st') = sh_tick (st_shared st) /\ st_objects st ⊆ st_objects st'
    /\ match r with Ok _ => st_objects st' !! key = Some bs | Err _ => True end) st.
Proof.
  intros Hs ->. pose proof (so_keys _ _ _ _ _ Hs _ (Nat.le_refl _)) as Hk.
  set (key := key_at cfg pack_id (os_tick (sh_store (st_shared st)))) in *.
  assert (forall objects', st_objects st ⊆ objects' -> (forall k b, objects' !! k = Some b -> st_objects st !! k = Some b \/ k = key) ->
    sound (MkStorage (MkShared (st_db st) (MkObjects objects' (os_prefix (sh_store (st_shared st)))
      (S (os_tick (sh_store (st_shared st))))) (sh_tick (st_shared st))) (st_packs st) (st_files st))) as Hmk.
  { destruct Hs as [[G1 G2 G3 G4] Ha Hi Hkeys]. intros objects' Hsub Hnew. split; cbn; [split; cbn; [done| | |done]|done|done|].
    - intros k fm Hfm. eapply stored_weaken; [done|]. by eapply G2.
    - intros k e He. eapply lookup_weaken; [by apply G3|done].
    - intros n Hn. unfold st_objects. cbn. destruct (objects' !! key_at cfg pack_id n) as [b|] eqn:E; [|done]. exfalso.
      destruct (Hnew _ _ E) as [E'|E']; [rewrite Hkeys in E' by lia; done|]. unfold key, key_at in E'.
      apply object_pack_key_inj, (env_pack _ _ _ Henv) in E'. lia. }
  unfold wp, put_object, os_put_pack_bytes. fold (st_objects st). rewrite Hk. unfold os_write.
  assert (st_objects st ⊆ <[key := bs]> (st_objects st)) as Hsub by (by apply insert_subseteq).
  assert (forall k b, <[key := bs]> (st_objects st) !! k = Some b -> st_objects st !! k = Some b \/ k = key) as Hnew.
  { intros k b [[<- _]|[_ ?]]%lookup_insert_Some; [by right|by left]. }
  destruct (store_fault _ PutObject) as [[]|]; cbn; split_and!; try done; try (by apply Hmk); try (by apply lookup_insert_eq).
  apply Hmk; [done|by left].
Qed.

Lemma keep_pack_wp key bs st :
  sound st -> st_objects st !! key = Some bs ->
  wp (with_packs (fun c => (tt, cache_put key bs c))) (fun r st' => sound st' /\ st_shared st' = st_shared st
    /\ st_files st' = st_files st /\ r = Ok tt) st.
Proof.
  intros [[G1 G2 G3 G4] Ha Hi Hk] Hkey. split_and!; try done. split; try done. split; try done. by apply cache_put_coherent.
Qed.

Lemma forget_wp path st0 st :
  sound st -> st_shared st = st_shared st0 ->
  wp (forget path) (fun r st' => (sound st' /\ st_shared st' = st_shared st0 /\ sf_entries (st_files st') ⊆ sf_entries (st_files st)
    /\ sf_entries (st_files st') !! path = None) /\ r = Ok tt) st.
Proof.
  intros [[G1 G2 G3 G4] Ha Hi Hk] E. unfold wp, forget, with_files, invalidate_file_bytes. cbn. split; [|done]. split_and!.
  - split; try done. split; try done. by apply file_cache_remove_coherent.
  - done.
  - unfold file_cache_remove. destruct (sf_entries (st_files st) !! path); cbn; [apply delete_subseteq|done].
  - unfold file_cache_remove. destruct (sf_entries (st_files st) !! path) eqn:Ep; cbn; [apply lookup_delete_eq|done].
Qed.

Lemma forget_all_wp ws st :
  sound st ->
  wp (for_each ws (fun w => forget (w_path w))) (fun r st' => sound st' /\ st_shared st' = st_shared st
    /\ sf_entries (st_files st') ⊆ sf_entries (st_files st)
    /\ (forall w, w ∈ ws -> sf_entries (st_files st') !! w_path w = None) /\ r = Ok tt) st.
Proof.
  revert st; induction ws as [|w ws IH]; intros st Hs; cbn; [split_and!; try done; set_solver|]. apply op_wp_bind.
  eapply op_wp_mono; [by apply (forget_wp (w_path w) st)|]. intros r st1 [(Hs1 & E1 & Hsub & Hnone) ->].
  eapply op_wp_mono; [by apply IH|]. intros r st2 (Hs2 & E2 & Hsub2 & Hall & ->). split_and!; [done|congruence|by etrans| |done].
  intros v [-> |Hv]%elem_of_cons; [|by apply Hall]. destruct (sf_entries (st_files st2) !! w_path w) eqn:E; [|done].
  eapply lookup_weaken in E; [|exact Hsub2]. congruence.
Qed.

(** ** The results *)

Lemma filter_all {A} (f : A -> bool) l : (forall x, x ∈ l -> f x = true) -> List.filter f l = l.
Proof.
  induction l as [|x l IH]; intros Hf; cbn; [done|]. rewrite (Hf x) by set_solver. f_equal. apply IH. set_solver.
Qed.

Lemma filter_none {A} (f : A -> bool) l : (forall x, x ∈ l -> f x = false) -> List.filter f l = [].
Proof.
  induction l as [|x l IH]; intros Hf; cbn; [done|]. rewrite (Hf x) by set_solver. apply IH. set_solver.
Qed.

Lemma requested_results key pack previous writes extra fms :
  Forall2 (fun w fm => packed alg key pack w fm (w_bytes w)) (writes ++ extra) fms ->
  (forall w, w ∈ extra -> w_path w ∉ w_path <$> writes) ->
  List.filter (fun r => bool_decide (wr_path r ∈ (list_to_set (w_path <$> writes) : gset string)))
    (write_result previous <$> zip (writes ++ extra) fms)
  = (fun w => MkWriteResult (w_path w) (hex_hash alg (w_bytes w)) (previous_hash previous (w_path w)) true) <$> writes.
Proof.
  intros HF Hex. apply Forall2_app_inv_l in HF as (f1 & f2 & H1 & H2 & ->).
  rewrite zip_with_app by (by eapply Forall2_length). rewrite fmap_app, List.filter_app.
  rewrite filter_all, filter_none, app_nil_r.
  - clear -H1. induction H1 as [|w fm ws fms Hp HF IH]; cbn; [done|]. rewrite IH. f_equal.
    unfold write_result. cbn. by rewrite (pa_hash _ _ _ _ _ _ Hp).
  - intros r ([w fm] & -> & Hin)%list_elem_of_fmap. apply elem_of_zip_l in Hin. cbn. apply bool_decide_eq_false.
    rewrite elem_of_list_to_set. by apply Hex.
  - intros r ([w fm] & -> & Hin)%list_elem_of_fmap. apply elem_of_zip_l in Hin. cbn. apply bool_decide_eq_true.
    rewrite elem_of_list_to_set. by apply list_elem_of_fmap_2.
Qed.

(** The hash a write replaces is the one of the file that was there. *)
Lemma replaced_hash db ws tx commit r db' w :
  db_wf db -> w ∈ ws -> w_path w ∈ fc_logical_path <$> cm_files commit -> NoDup (fc_logical_path <$> cm_files commit) ->
  commit_packed_files tx (cfg_scope cfg) commit db = Ok (r, db') ->
  previous_hash (by_entry_path (list_entries_with_manifest_by_paths db (cfg_scope cfg) (w_path <$> ws))) (w_path w)
  = fm_content_hash <$> get_current_file_manifest db (cfg_scope cfg) (w_path w).
Proof.
  intros Hwf Hw Hin Hn E. rewrite previous_hash_spec, decide_True by (by apply list_elem_of_fmap_2).
  unfold get_current_file_manifest. destruct (db_entries db !! (cfg_scope cfg, w_path w)) as [e|] eqn:Ee; [|done]. cbn.
  destruct (commit_effect_intro _ _ _ _ _ _ E Hn) as (_ & Heff & _).
  apply list_elem_of_fmap in Hin as (f & Ep & Hf). destruct (elem_indexed _ _ Hf) as (x & Hx & <-).
  rewrite Ep in Ee. pose proof (ca_old _ _ _ _ _ (ce_files _ _ _ _ _ Heff x Hx) e Ee) as Hk. rewrite Hk.
  destruct (wf_file _ Hwf _ _ _ Ee Hk) as (_ & vid & v & Hv & Hver & Hh & _).
  destruct (wf_version _ Hwf _ _ _ _ Hver) as (fm & Hm & _ & Hmh & _).
  unfold manifest_of. rewrite Hv, Ep. cbn. rewrite Hver. cbn. rewrite Hm. cbn. congruence.
Qed.

Definition write_outcome (st st' : ObjectBackedVfsStorage) (writes : list VfsStorageWrite)
    (r : VfsStorageResult (list VfsStorageWriteResult)) : Prop :=
  match r with
  | Ok rs =>
      written alg cfg (st_objects st') (st_db st) (st_db st') writes
      /\ rs = (fun w => MkWriteResult (w_path w) (hex_hash alg (w_bytes w))
           (fm_content_hash <$> get_current_file_manifest (st_db st) (cfg_scope cfg) (w_path w)) true) <$> writes
      /\ forall w, w ∈ writes -> sf_entries (st_files st') !! w_path w = None
  | Err _ =>
      unchanged cfg (st_db st) (st_db st')
      \/ (written alg cfg (st_objects st') (st_db st) (st_db st') writes /\ exists n, index_fault n = Some true)
  end.

Definition write_post (st : ObjectBackedVfsStorage) (writes : list VfsStorageWrite)
    (r : VfsStorageResult (list VfsStorageWriteResult)) (st' : ObjectBackedVfsStorage) : Prop :=
  sound st' /\ st_objects st ⊆ st_objects st' /\ write_outcome st st' writes r.

(** An error before the commit. *)
Lemma write_stopped st st' writes e :
  sound st' -> same_files (st_db st) (st_db st') -> st_objects st ⊆ st_objects st' -> write_post st writes (Err e) st'.
Proof. intros Hs' Hsame Hsub. split; [done|]. split; [done|]. left. intros q. by apply same_files_current. Qed.

Lemma write_post_same st st1 writes r st' :
  same_files (st_db st) (st_db st1) -> st_objects st1 = st_objects st -> write_post st1 writes r st' -> write_post st writes r st'.
Proof.
  intros F Eo (Hs & Hsub & Hout). split; [done|]. split; [by rewrite <- Eo|]. destruct r as [rs|e]; cbn in *.
  - destruct Hout as (Hw & -> & Hn). split_and!; [by eapply written_same| |done].
    apply list_fmap_ext. intros i w _. by rewrite (same_files_current _ _ _ _ F).
  - destruct Hout as [Hu|[Hw Hn]]; [left|right; split; [by eapply written_same|done]].
    intros q. by rewrite Hu, (same_files_current _ _ _ _ F).
Qed.

(** The results of a committed batch. *)
Lemma committed_results st writes ws key pack record fms tx a db' :
  db_wf (st_db st) -> batch_of cfg (st_db st) writes ws ->
  Forall2 (fun w fm => packed alg key pack w fm (w_bytes w)) ws fms ->
  let previous := by_entry_path (list_entries_with_manifest_by_paths (st_db st) (cfg_scope cfg) (w_path <$> ws)) in
  commit_packed_files tx (cfg_scope cfg) (MkPackedCommit record (zip_with (file_commit previous) ws fms)) (st_db st) = Ok (a, db') ->
  List.filter (fun r => bool_decide (wr_path r ∈ (list_to_set (w_path <$> writes) : gset string)))
    (write_result previous <$> zip ws fms)
  = (fun w => MkWriteResult (w_path w) (hex_hash alg (w_bytes w))
       (fm_content_hash <$> get_current_file_manifest (st_db st) (cfg_scope cfg) (w_path w)) true) <$> writes.
Proof.
  intros Hwf Hb HF previous E. destruct (bo_extra _ _ _ _ Hb) as (extra & Ews & Hextra).
  assert (forall w, w ∈ writes -> previous_hash previous (w_path w) = fm_content_hash <$>
    get_current_file_manifest (st_db st) (cfg_scope cfg) (w_path w)) as Hph.
  { intros w Hw. eapply replaced_hash; [done| | | |exact E]; cbn; rewrite ?commit_paths by (by eapply Forall2_length).
    - rewrite Ews. set_solver.
    - apply list_elem_of_fmap_2. rewrite Ews. set_solver.
    - by eapply bo_nodup. }
  rewrite Ews in HF |- *. rewrite (requested_results key pack); [|done|intros w Hw; by apply Hextra].
  apply list_fmap_ext. intros i w Hw. f_equal. apply Hph. by eapply list_elem_of_lookup_2.
Qed.

Lemma store_and_commit_wp writes ws st :
  sound st -> batch_of cfg (st_db st) writes ws ->
  wp (store_and_commit alg cfg store_fault index_fault tx_at pack_id (list_to_set (w_path <$> writes)) ws) (write_post st writes) st.
Proof.
  intros Hs Hb. pose proof (gd_wf _ _ (so_good _ _ _ _ _ Hs)) as Hwf. unfold store_and_commit. apply op_wp_bind.
  eapply op_wp_mono; [by apply (ask_entries_asking alg cfg index_fault tx_at pack_id (w_path <$> ws) st)|].
  intros [prev|e] st4 [(Hs4 & (U4 & _) & E4) Hprev]; [subst prev|apply write_stopped; [done|by rewrite E4|unfold st_objects; by rewrite U4]].
  set (previous := by_entry_path _). apply op_wp_bind. unfold wp at 1, storage_pack_key. cbn [fst snd].
  set (key := object_pack_key _ _ _). apply op_wp_bind. unfold wp at 1. cbn [fst snd lift].
  assert (st_objects st4 = st_objects st) as Eo4 by (unfold st_objects; by rewrite U4).
  destruct (build_batch alg key previous ws) as [[[pack record] fms]|e] eqn:Eb; [|apply write_stopped; [done|by rewrite E4|by rewrite Eo4]].
  destruct (batch_packed alg cfg (st_db st) writes ws key pack record fms Hwf Hb Eb) as [Hkey HF]. rewrite Hkey.
  apply op_wp_bind. eapply op_wp_mono; [by apply (put_object_wp key (pack_bytes pack) st4)|].
  intros r st5 (Hs5 & E5 & F5 & T5 & Hsub & Hr5). rewrite Eo4 in Hsub.
  destruct r as [[]|e]; [|apply write_stopped; [done|by rewrite E5, E4|done]].
  apply op_wp_bind. eapply op_wp_mono; [by apply (keep_pack_wp key (pack_bytes pack) st5)|].
  intros r st6 (Hs6 & E6 & F6 & ->). assert (st_db st6 = st_db st) as Edb by (rewrite <- E4, <- E5; unfold st_db; by rewrite E6).
  assert (st_objects st6 = st_objects st5) as Eobj by (unfold st_objects; by rewrite E6).
  pose proof (commit_batch alg cfg (tx_at (sh_tick (st_shared st6))) (st_db st) writes ws key pack record fms (st_objects st5)
    Hwf (eq_ind _ _ (sound_fresh _ _ _ _ _ Henv _ Hs6) _ Edb) Hb HF Hr5) as Hcommit. fold previous in Hcommit.
  assert (aliases_agree (st_db st) /\ db_stored alg (st_db st) (st_objects st5)) as [Hag Hst].
  { rewrite <- Edb, <- Eobj. split; [by eapply so_agree|by eapply gd_stored, so_good]. }
  apply op_wp_bind. eapply op_wp_mono; [apply (transact_sound alg cfg index_fault tx_at pack_id hash_order Henv); [done|]|].
  { intros a db' E. rewrite Edb in E |- *. rewrite Eobj. destruct (Hcommit _ _ E Hag Hst) as (W & S & I & _). done. }
  intros r st7 (Hs7 & (U7 & _) & Hr7). rewrite Edb in Hr7.
  assert (st_objects st7 = st_objects st5) as Eobj7 by (rewrite <- Eobj; unfold st_objects; by rewrite U7).
  destruct r as [a|e]; cycle 1.
  { destruct Hr7 as [Hr7|[[a E] Hf]]; [apply write_stopped; [done|by rewrite Hr7|by rewrite Eobj7]|].
    split; [done|]. split; [by rewrite Eobj7|]. right. split; [|by eexists]. rewrite Eobj7. by eapply Hcommit. }
  apply op_wp_bind. eapply op_wp_mono; [by apply (forget_all_wp ws st7)|].
  intros r st8 (Hs8 & E8 & _ & Hnone & ->). apply op_wp_ret.
  assert (st_db st8 = st_db st7 /\ st_objects st8 = st_objects st7) as [Edb8 Eobj8] by (unfold st_db, st_objects; by rewrite E8).
  split; [done|]. split; [by rewrite Eobj8, Eobj7|]. split_and!.
  - rewrite Eobj8, Eobj7, Edb8. by eapply Hcommit.
  - by eapply committed_results.
  - intros w Hw. apply Hnone. destruct (bo_extra _ _ _ _ Hb) as (extra & -> & _). set_solver.
Qed.

Lemma write_many_wp writes st :
  sound st -> wp (write_many_atomic alg cfg store_fault index_fault tx_at pack_id hash_order writes) (write_post st writes) st.
Proof.
  intros Hs. unfold write_many_atomic. destruct writes as [|w0 ws0] eqn:Ew.
  { split; [done|]. split; [done|]. split; [|split; [done|set_solver]]. split; [set_solver|done]. }
  rewrite <- Ew. clear w0 ws0 Ew.
  apply op_wp_bind. unfold wp at 1, lift. destruct (assert_unique_write_paths writes) as [[]|e] eqn:Eu; [|by apply write_stopped].
  apply assert_unique_Ok in Eu. cbn [fst snd]. apply op_wp_bind.
  eapply op_wp_mono; [by apply (create_parents_wp alg cfg index_fault tx_at pack_id hash_order Henv writes st)|].
  intros r st1 [(Hs1 & (U1 & _) & F1) _].
  assert (st_objects st1 = st_objects st) as Eo1 by (unfold st_objects; by rewrite U1).
  assert (forall st' e, asking alg cfg tx_at pack_id st1 st' -> write_post st writes (Err e) st') as Hstop.
  { intros st' e (Hs' & (V1 & _) & Ed). apply write_stopped; [done|by rewrite Ed|].
    rewrite <- Eo1. unfold st_objects. by rewrite V1. }
  destruct r as [[]|e]; [|by apply Hstop]. pose proof (gd_wf _ _ (so_good _ _ _ _ _ Hs1)) as Hwf.
  apply op_wp_bind. eapply op_wp_mono; [by apply (ask_entries_asking alg cfg index_fault tx_at pack_id (w_path <$> writes) st1)|].
  intros [prev|e] st2 [Ha2 Hp]; [subst prev|by apply Hstop].
  apply op_wp_bind. eapply op_wp_mono; [apply (expand_aliases_wp alg cfg index_fault tx_at pack_id writes _ _ [] writes st1); [done| |]|].
  { split; [exists []; rewrite app_nil_r; split; [done|set_solver]|done|set_solver]. }
  { cbn. apply explicit_keys. by apply (env_order _ _ _ Henv). }
  intros [ws|e] st3 [Ha3 Hexp]; [|by apply Hstop]. cbn [app] in Hexp. destruct Ha3 as (Hs3 & (U3 & _) & E3).
  eapply op_wp_mono; [apply (store_and_commit_wp writes ws st3); [done|]|].
  { rewrite E3. eapply (expanded_batch cfg hash_order); [by apply (env_order _ _ _ Henv)|done..]. }
  intros r st4 Hpost. eapply write_post_same; [|exact (eq_trans (f_equal os_objects U3) Eo1)|done]. by rewrite E3.
Qed.
End write.
