(* ===== verification/ObjectSystem.v ===== *)
(** * Clients of one store

    Any number of storage clients, each with its own caches, over one index and
    one object store. Every request of any of them keeps every client sound, so
    reads are right in every state the system can reach. *)

From S2P Require Import Prelude VfsTypes Pack ContentHash PackCache Manifest PackIndex PostgresIndex Compaction PackStore NamespaceIndex NamespaceWf ObjectStorage ObjectReads ObjectBatchReads ObjectWrites ObjectCommit.
From Stdlib Require Import ZArith Lia Ascii.

Inductive Request :=
| ReqStat (path : string)
| ReqMetadataMany (paths : list string)
| ReqListSubtree (prefix : string) (limit : option Z)
| ReqRead (path : string)
| ReqReadRange (path : string) (range : VfsStorageReadRange)
| ReqReadMany (paths : list string)
| ReqReadIfChanged (requests : list VfsStorageReadIfChanged)
| ReqPrefetch (prefix : string) (max_entries : option Z) (include_small : bool)
| ReqFindAlias (fid excluding : string)
| ReqWrite (path : string) (bs : bytes) (precondition : option VfsStorageWritePrecondition)
| ReqWriteMany (writes : list VfsStorageWrite)
| ReqWriteIfChanged (writes : list VfsStorageWrite)
| ReqMkdir (path : string)
| ReqRmdir (path : string)
| ReqDelete (path : string) (precondition : option VfsStorageWritePrecondition)
| ReqRename (from to : string) (allow_replace : bool)
| ReqHardLink (source destination : string).

Section system.
Context {D : PackDeps} {L : PackDepsLaws D} {H : HashCrates} (alg : VfsHashAlgorithm) (cfg : ObjectBackedVfsStorageConfig).
Context (store_fault : nat -> ObjectOp -> option bool) (index_fault : nat -> option bool).
Context (tx_at : nat -> TxInputs) (pack_id : nat -> string) (hash_order : forall A : Type, list A -> list A).

Definition ignore {A} (m : Op A) : Op unit := _ ← m; mret tt.

Definition serve (q : Request) : Op unit :=
  match q with
  | ReqStat path => ignore (stat cfg index_fault path)
  | ReqMetadataMany paths => ignore (metadata_many cfg index_fault paths)
  | ReqListSubtree prefix limit => ignore (list_subtree_file_metadata cfg index_fault prefix limit)
  | ReqRead path => ignore (read cfg store_fault index_fault hash_order path)
  | ReqReadRange path range => ignore (read_range cfg store_fault index_fault hash_order path range)
  | ReqReadMany paths => ignore (read_many cfg store_fault index_fault hash_order paths)
  | ReqReadIfChanged requests => ignore (read_many_if_etag_mismatch cfg store_fault index_fault hash_order requests)
  | ReqPrefetch prefix max small => ignore (prefetch_subtree cfg store_fault index_fault hash_order prefix max small)
  | ReqFindAlias fid excluding => ignore (find_hard_link_alias cfg index_fault fid excluding)
  | ReqWrite path bs p => ignore (write alg cfg store_fault index_fault tx_at pack_id hash_order path bs p)
  | ReqWriteMany writes => ignore (write_many_atomic alg cfg store_fault index_fault tx_at pack_id hash_order writes)
  | ReqWriteIfChanged writes =>
      ignore (write_many_if_changed_atomic alg cfg store_fault index_fault tx_at pack_id hash_order writes)
  | ReqMkdir path => mkdir cfg index_fault tx_at path
  | ReqRmdir path => rmdir cfg index_fault tx_at path
  | ReqDelete path p => ignore (delete_file_with_metadata cfg index_fault tx_at path p)
  | ReqRename from to allow => ignore (rename_with_metadata_with_policy cfg index_fault tx_at from to allow)
  | ReqHardLink source destination => ignore (create_hard_link cfg index_fault tx_at source destination)
  end.

Record System := MkSystem { sy_shared : Shared; sy_clients : list (PackCache * SmallFileCache) }.

Definition client (sh : Shared) (c : PackCache * SmallFileCache) : ObjectBackedVfsStorage := MkStorage sh c.1 c.2.

(** The empty index and store, with clients that have seen nothing. *)
Definition start (clients : nat) : System :=
  MkSystem (MkShared (MkDb ∅ ∅ ∅ ∅) (MkObjects ∅ (cfg_pack_key_prefix cfg) 0) 0)
    (replicate clients (PackCache_new (cfg_pack_cache_max_bytes cfg), SmallFileCache_new)).

(** One client serves one request. *)
Inductive sys_step : System -> System -> Prop :=
| StepServe sh clients i c q st :
    clients !! i = Some c -> st = (serve q (client sh c)).2 ->
    sys_step (MkSystem sh clients) (MkSystem (st_shared st) (<[i := (st_packs st, st_files st)]> clients)).

Inductive reachable (n : nat) : System -> Prop :=
| ReachStart : reachable n (start n)
| ReachStep s s' : reachable n s -> sys_step s s' -> reachable n s'.

(** The step relation, run on a schedule of clients and requests. *)
Definition serve_at (s : System) (x : nat * Request) : System :=
  match sy_clients s !! x.1 with
  | None => s
  | Some c =>
      let st := (serve x.2 (client (sy_shared s) c)).2 in
      MkSystem (st_shared st) (<[x.1 := (st_packs st, st_files st)]> (sy_clients s))
  end.

Definition run (schedule : list (nat * Request)) (s : System) : System := foldl serve_at s schedule.

Lemma run_reachable n schedule : reachable n (run schedule (start n)).
Proof.
  assert (forall s, reachable n s -> reachable n (run schedule s)) as Hrun; [|apply Hrun, ReachStart].
  induction schedule as [|[i q] schedule IH]; intros s Hs; cbn; [done|]. apply IH. unfold serve_at. cbn.
  destruct (sy_clients s !! i) as [c|] eqn:E; [|done]. eapply ReachStep; [exact Hs|]. destruct s as [sh clients]. by eapply StepServe.
Qed.

(** ** Every request keeps its client sound *)

Abbreviation sound := (sound alg cfg tx_at pack_id).
Context (Henv : environment tx_at pack_id hash_order).

Definition keeps {A} (m : Op A) : Prop :=
  forall st, sound st -> wp m (fun _ st' => sound st' /\ st_objects st ⊆ st_objects st') st.

Lemma keeps_bind {A B} (m : Op A) (f : A -> Op B) : keeps m -> (forall a, keeps (f a)) -> keeps (m ≫= f).
Proof.
  intros Hm Hf st Hs. apply op_wp_bind. eapply op_wp_mono; [by apply Hm|]. intros [a|e] st1 [Hs1 Hsub]; [|done].
  eapply op_wp_mono; [by apply Hf|]. intros r st2 [Hs2 Hsub2]. split; [done|]. by etrans.
Qed.

Lemma keeps_pure {A} (r : VfsStorageResult A) : keeps (lift r).
Proof. by intros st Hs. Qed.

Lemma keeps_ret {A} (a : A) : keeps (mret a).
Proof. by intros st Hs. Qed.

Lemma keeps_map {A B} (f : A -> Op B) xs : (forall x, keeps (f x)) -> keeps (map_op f xs).
Proof.
  intros Hf. induction xs as [|x xs IH]; cbn; [apply keeps_ret|].
  apply keeps_bind; [apply Hf|]. intros y. apply keeps_bind; [done|]. intros ys. apply keeps_ret.
Qed.

Lemma reading_sound st st' : sound st -> reading alg st st' -> sound st' /\ st_objects st ⊆ st_objects st'.
Proof.
  intros [G Ha Hi Hk] Hr. pose proof (reading_objects _ _ _ Hr) as Eo. destruct Hr as (G' & Ed & Es & Ht).
  split; [|by rewrite Eo]. split; [done|by rewrite Ed| |].
  - intros n i Hn. rewrite Ed. apply Hi. lia.
  - intros n Hn. rewrite Eo. apply Hk. by rewrite Es in Hn.
Qed.

Lemma keeps_ask {A} (query : Db -> VfsIndexScope -> A) : keeps (ask cfg index_fault query).
Proof.
  intros st Hs. eapply op_wp_mono; [apply (wp_ask alg cfg index_fault query st), (reading_refl _ _ (so_good _ _ _ _ _ Hs))|].
  intros r st' (Hr & _). by apply reading_sound.
Qed.

Lemma keeps_transact {A} (t : TxInputs -> VfsIndexScope -> Db -> VfsStorageResult (A * Db)) :
  (forall tx scope db a db', t tx scope db = Ok (a, db') -> db_wf db /\ aliases_agree db ->
     (db_wf db' /\ aliases_agree db') /\ frame tx db db') ->
  keeps (transact cfg index_fault tx_at t).
Proof.
  intros Ht st Hs. eapply op_wp_mono; [apply (transact_framed alg cfg index_fault tx_at pack_id hash_order Henv); [done|]|].
  - intros a db' E. eapply Ht; [done|]. by eapply sound_inv.
  - intros r st' (Hs' & (U & _) & _). split; [done|]. unfold st_objects. by rewrite U.
Qed.

Lemma keeps_forget path : keeps (forget path).
Proof.
  intros st Hs. eapply op_wp_mono; [by apply (forget_wp alg cfg tx_at pack_id path st st)|].
  intros r st' [(Hs' & E & _) _]. split; [done|]. unfold st_objects. by rewrite E.
Qed.

Lemma keeps_read path : keeps (read cfg store_fault index_fault hash_order path).
Proof.
  intros st Hs. eapply op_wp_mono; [apply (read_wp alg), so_good with cfg tx_at pack_id; done|].
  intros r st' [Hr _]. by apply reading_sound.
Qed.

Lemma keeps_read_many paths : keeps (read_many cfg store_fault index_fault hash_order paths).
Proof.
  intros st Hs. eapply op_wp_mono; [apply (read_many_wp alg); [by apply (env_order _ _ _ Henv)|by eapply so_good]|].
  intros r st' [Hr _]. by apply reading_sound.
Qed.

Lemma keeps_write_many writes : keeps (write_many_atomic alg cfg store_fault index_fault tx_at pack_id hash_order writes).
Proof.
  intros st Hs. eapply op_wp_mono; [by apply (write_many_wp alg cfg store_fault index_fault tx_at pack_id hash_order Henv)|].
  intros r st' (Hs' & Hsub & _). done.
Qed.

Lemma keeps_dirs path : keeps (create_dir_all_metadata cfg index_fault tx_at path).
Proof.
  intros st Hs. eapply op_wp_mono; [by apply (create_dir_all_wp alg cfg index_fault tx_at pack_id hash_order Henv path st)|].
  intros r st' [(Hs' & (U & _) & _) _]. split; [done|]. unfold st_objects. by rewrite U.
Qed.

Lemma keeps_ignore {A} (m : Op A) : keeps m -> keeps (ignore m).
Proof. intros Hm. apply keeps_bind; [done|]. intros _. apply keeps_ret. Qed.

(** ** Prefetching *)

Lemma fetch_pack_wp key st0 st :
  reading alg st0 st ->
  wp (fetch_pack store_fault key) (fun r st' => reading alg st0 st' /\
    match r with Ok x => forall bs, x.2 = Some bs -> st_objects st0 !! x.1 = Some bs | Err _ => True end) st.
Proof.
  intros Hr. pose proof (reading_objects _ _ _ Hr) as Eo. unfold fetch_pack. apply op_wp_bind.
  unfold wp, get_object, os_fetch_pack_bytes. destruct (store_fault _ GetObject); [done|]. cbn. split; [done|].
  intros bs Hb. by rewrite <- Eo.
Qed.

Lemma keep_fetched_wp (x : string * option bytes) st0 st :
  reading alg st0 st -> (forall bs, x.2 = Some bs -> st_objects st0 !! x.1 = Some bs) ->
  wp (keep_pack x) (fun r st' => reading alg st0 st' /\ match r with Ok _ => True | Err _ => True end) st.
Proof.
  intros Hr Hx. unfold keep_pack. destruct (x.2) as [bs|]; [|done].
  pose proof (reading_objects _ _ _ Hr) as Eo. destruct Hr as ([G1 G2 G3 G4] & Ed & Es & Ht). split; [|done].
  split_and!; [|done..]. split; [done..| |done]. apply cache_put_coherent; [done|].
  change (st_objects st !! x.1 = Some bs). rewrite Eo. by apply Hx.
Qed.

Lemma warm_file_wp fm st0 st :
  reading alg st0 st -> stored alg (st_objects st0) fm ->
  wp (warm_file cfg hash_order fm) (fun r st' => reading alg st0 st' /\ match r with Ok _ => True | Err _ => False end) st.
Proof.
  intros Hr Hst. unfold warm_file. destruct (_ <? _)%Z; [done|]. apply op_wp_bind.
  eapply op_wp_mono; [by apply wp_cache_get|]. intros [[bs|]|e] st1 (Hr1 & _ & Hk); [| |done]; [|done].
  destruct (stored_slot _ _ _ Hst) as (bs' & x & Hbs & Hx & _ & Hh & _). destruct Hst as [_ Ho Hl He].
  assert (bs' = bs) as -> by (specialize (Hk _ eq_refl); congruence). apply op_wp_bind. unfold wp at 1, lift.
  rewrite !as_u64_fits, Hx by lia. cbn [fst snd]. apply op_wp_bind.
  eapply op_wp_mono; [by apply (wp_remember alg hash_order (fm_logical_path fm) _ _ st0)|]. by intros r st2 [Hr2 ->].
Qed.

Lemma elem_of_sql_limit {A} limit (rows : list A) x : x ∈ sql_limit limit rows -> x ∈ rows.
Proof.
  unfold sql_limit. cbn zeta. destruct (_ <=? _)%Z; [done|]. intros (i & Hi & _)%elem_of_take. by eapply list_elem_of_lookup_2.
Qed.

Lemma keeps_prefetch prefix max small : keeps (prefetch_subtree cfg store_fault index_fault hash_order prefix max small).
Proof.
  intros st Hs. pose proof (so_good _ _ _ _ _ Hs) as G.
  assert (forall r st', reading alg st st' /\ match r : VfsStorageResult (list (string * bytes)) with Ok _ => True | Err _ => True end ->
    sound st' /\ st_objects st ⊆ st_objects st') as Hend by (intros r st' [Hr _]; by apply reading_sound).
  eapply op_wp_mono; [|exact Hend]. unfold prefetch_subtree. apply op_wp_bind.
  eapply op_wp_mono; [by apply (wp_ask alg cfg index_fault _ st)|]. intros [ms|e] st1 (Hr1 & _ & Hms); [|done]. subst ms.
  set (ms := list_current_file_manifests_in_subtree _ _ _ _).
  assert (forall fm, fm ∈ ms -> stored alg (st_objects st) fm) as Hst.
  { intros fm Hfm. unfold ms, list_current_file_manifests_in_subtree in Hfm. apply elem_of_sql_limit in Hfm.
    apply list_elem_of_omap in Hfm as (p & _ & Hp). by eapply current_stored. }
  apply op_wp_bind. eapply op_wp_mono; [apply (wp_map_op (reading alg st)
    (fun k x => forall bs, x.2 = Some bs -> st_objects st !! x.1 = Some bs) True); [|done]|].
  { intros k st2 _ Hr2. by apply fetch_pack_wp. }
  intros [fetched|e] st2 [Hr2 Hf]; [|done]. apply op_wp_bind.
  eapply op_wp_mono; [apply (wp_for_each (reading alg st) fetched keep_pack True); [|done]|].
  { intros x st3 Hx Hr3. apply keep_fetched_wp; [done|]. apply list_elem_of_lookup in Hx as [i Hi].
    by destruct (Forall2_lookup_r _ _ _ _ _ Hf Hi) as (k & _ & ?). }
  intros [[]|e] st3 [Hr3 _]; [|done]. destruct small; cbn [negb]; [|done]. apply op_wp_bind.
  eapply op_wp_mono; [apply (wp_map_op (reading alg st) (fun _ _ => True) False); [|done]|].
  { intros fm st4 Hfm Hr4. apply warm_file_wp; [done|by apply Hst]. }
  by intros [ys|e] st4 [Hr4 _].
Qed.

(** ** Every request *)

Create HintDb keeps.
Hint Resolve keeps_bind keeps_pure keeps_ret keeps_map keeps_ask keeps_forget keeps_read keeps_read_many keeps_write_many
  keeps_dirs keeps_prefetch : keeps.

Lemma keeps_entries paths : keeps (ask_entries cfg index_fault paths).
Proof. unfold ask_entries. auto with keeps. Qed.

Lemma keeps_read_if_changed ms q : keeps (read_if_changed cfg store_fault index_fault hash_order ms q).
Proof.
  unfold read_if_changed. destruct (ms !! ric_path q); [|auto with keeps]. case_bool_decide; auto with keeps.
Qed.

Lemma keeps_rmdir path : keeps (rmdir cfg index_fault tx_at path).
Proof.
  apply keeps_transact. intros tx scope db a db' E Hi. split; [by eapply remove_empty_directory_keeps|by eapply remove_empty_directory_frame].
Qed.

Lemma keeps_delete path p : keeps (delete_file_with_metadata cfg index_fault tx_at path p).
Proof.
  apply keeps_bind; [|auto with keeps]. apply keeps_transact. intros tx scope db a db' E Hi.
  split; [by eapply delete_with_precondition_keeps|by eapply delete_with_precondition_frame].
Qed.

Lemma keeps_rename from to allow : keeps (rename_with_metadata_with_policy cfg index_fault tx_at from to allow).
Proof.
  apply keeps_bind; [auto with keeps|]. intros [e|]; [|auto with keeps]. destruct (negb _); [auto with keeps|].
  destruct (path_parts to) as [parent name]. apply keeps_bind; [auto with keeps|]. intros _.
  apply keeps_bind; [|auto with keeps]. apply keeps_transact. intros tx scope db a db' E Hi.
  split; [by eapply rename_file_entry_keeps|by eapply rename_file_entry_frame].
Qed.

Lemma keeps_hard_link source destination : keeps (create_hard_link cfg index_fault tx_at source destination).
Proof.
  unfold create_hard_link. destruct (path_parts destination) as [parent name]. apply keeps_bind; [auto with keeps|]. intros _.
  apply keeps_bind; [|auto with keeps]. apply keeps_transact. intros tx scope db a db' E Hi.
  split; [by eapply create_hard_link_keeps|eapply create_hard_link_frame; [done|apply Hi]].
Qed.

Lemma keeps_serve q : keeps (serve q).
Proof.
  destruct q; cbn [serve]; try apply keeps_ignore; unfold stat, list_subtree_file_metadata, find_hard_link_alias, mkdir;
    try (by auto with keeps).
  - unfold metadata_many. apply keeps_bind; [apply keeps_entries|auto with keeps].
  - unfold read_range. case_match; auto with keeps.
  - unfold read_many_if_etag_mismatch. apply keeps_bind; [auto with keeps|]. intros ms. apply keeps_map. intros x. apply keeps_read_if_changed.
  - unfold write. auto with keeps.
  - unfold write_many_if_changed_atomic. destruct writes; auto 10 with keeps.
  - apply keeps_rmdir.
  - apply keeps_delete.
  - apply keeps_rename.
  - apply keeps_hard_link.
Qed.

(** ** The system *)

Definition all_sound (s : System) : Prop := forall c, c ∈ sy_clients s -> sound (client (sy_shared s) c).

Lemma other_client sh sh' c c' :
  sound (client sh c) -> sound (client sh' c') -> os_objects (sh_store sh) ⊆ os_objects (sh_store sh') -> sound (client sh' c).
Proof.
  intros [[G1 G2 G3 G4] Ha Hi Hk] [[G1' G2' G3' G4'] Ha' Hi' Hk'] Hsub. split; [|done..]. split; [done|done| |done].
  intros k e He. eapply lookup_weaken; [by apply G3|]. done.
Qed.

Lemma client_eta st : client (st_shared st) (st_packs st, st_files st) = st.
Proof. by destruct st. Qed.

Lemma step_sound s s' : sys_step s s' -> all_sound s -> all_sound s'.
Proof.
  intros [sh clients i c q st Hi ->] Ha. assert (c ∈ clients) as Hc by (by eapply list_elem_of_lookup_2).
  destruct (keeps_serve q _ (Ha c Hc)) as [Hs Hsub]. set (st := (serve q (client sh c)).2) in *.
  assert (sound (client (st_shared st) (st_packs st, st_files st))) as Hs' by (by rewrite client_eta).
  intros d Hd. cbn in *. apply list_elem_of_lookup in Hd as [j Hj]. destruct (decide (j = i)) as [->|Hne].
  - rewrite list_lookup_insert_eq in Hj by (by eapply lookup_lt_Some). by injection Hj as <-.
  - rewrite list_lookup_insert_ne in Hj by done. eapply other_client; [|exact Hs'|exact Hsub].
    apply Ha. by eapply list_elem_of_lookup_2.
Qed.

Lemma start_sound n : all_sound (start n).
Proof.
  intros c Hc. apply elem_of_replicate in Hc as [-> _]. split.
  - split; cbn.
    + split; cbn.
      * intros k e He. by rewrite lookup_empty in He.
      * intros sc p e He. by rewrite lookup_empty in He.
      * intros sc p vid v Hv. unfold version_of in Hv. cbn in Hv. by rewrite lookup_empty in Hv.
      * intros k fm Hk. by rewrite lookup_empty in Hk.
    + intros k fm Hk. cbn in Hk. by rewrite lookup_empty in Hk.
    + intros k e He. cbn in He. by rewrite lookup_empty in He.
    + intros p e He. cbn in He. by rewrite lookup_empty in He.
  - intros sc p q e f fid He. cbn in He. by rewrite lookup_empty in He.
  - intros m i _ (k & e & He & _). cbn in He. by rewrite lookup_empty in He.
  - intros m _. cbn. apply lookup_empty.
Qed.

Lemma reachable_sound n s : reachable n s -> all_sound s.
Proof. induction 1 as [|s s' _ IH Hstep]; [apply start_sound|]. by eapply step_sound. Qed.

(** ** What clients observe *)

(** C20: whatever requests the clients of one store serve, in whatever order and
    with whatever calls failing, every client stays sound: the index is well
    formed, every manifest is stored and reads bytes of its hash, the paths of one
    file carry one content, and both caches agree with the store. *)
Theorem storage_clients_sound n s c : reachable n s -> c ∈ sy_clients s -> sound (client (sy_shared s) c).
Proof. intros Hr. by apply reachable_sound with n. Qed.

(** A read by any client of a reachable system answers with bytes of the
    hash of the file's current version, exactly the stored bytes if its cache has
    nothing for the path, and fails only when the file does not exist or a call
    failed; it changes neither the index nor the store. *)
Theorem object_read_current n s c path :
  reachable n s -> c ∈ sy_clients s ->
  let st := client (sy_shared s) c in
  let (r, st') := read cfg store_fault index_fault hash_order path st in
  st_db st' = st_db st /\ st_objects st' = st_objects st /\
  match r with
  | Ok b => reads_current alg cfg st path b
  | Err e => (e = NotFound path /\ get_current_file_manifest (st_db st) (cfg_scope cfg) path = None)
             \/ index_fails index_fault st \/ get_fails store_fault st
  end.
Proof.
  intros Hr Hc st. pose proof (so_good _ _ _ _ _ (reachable_sound n s Hr c Hc)) as G.
  pose proof (read_wp alg cfg store_fault index_fault hash_order path st G) as Hw. unfold wp in Hw.
  destruct (read _ _ _ _ _ st) as [r st']. destruct Hw as [Hrd Hres]. split; [apply Hrd|]. split; [by eapply reading_objects|done].
Qed.

(** A batch read by any client answers every requested path that names a
    file, once, with bytes of the hash of its current version, and nothing else;
    it fails only when a call failed. *)
Theorem object_read_many_complete n s c paths :
  reachable n s -> c ∈ sy_clients s ->
  let st := client (sy_shared s) c in
  let (r, st') := read_many cfg store_fault index_fault hash_order paths st in
  st_db st' = st_db st /\ st_objects st' = st_objects st /\
  match r with
  | Ok ys => reads_all alg cfg st paths ys
  | Err _ => index_fails index_fault st \/ get_fails store_fault st
  end.
Proof.
  intros Hr Hc st. pose proof (so_good _ _ _ _ _ (reachable_sound n s Hr c Hc)) as G.
  pose proof (read_many_wp alg cfg store_fault index_fault hash_order (env_order _ _ _ Henv) paths st G) as Hw. unfold wp in Hw.
  destruct (read_many _ _ _ _ _ st) as [r st']. destruct Hw as [Hrd Hres]. split; [apply Hrd|]. split; [by eapply reading_objects|done].
Qed.

(** C3: a batch write is all or nothing. When it succeeds, every path it names
    and every hard-link alias of it reads the written bytes, all other files keep
    their manifests, and the results name the new and the replaced hashes. When
    it fails, every file keeps its manifest, or the commit took effect and only
    its acknowledgement was lost. *)
Theorem object_write_atomic n s c writes :
  reachable n s -> c ∈ sy_clients s ->
  let st := client (sy_shared s) c in
  let (r, st') := write_many_atomic alg cfg store_fault index_fault tx_at pack_id hash_order writes st in
  st_objects st ⊆ st_objects st' /\ write_outcome alg cfg index_fault st st' writes r.
Proof.
  intros Hr Hc st. pose proof (reachable_sound n s Hr c Hc) as Hs.
  pose proof (write_many_wp alg cfg store_fault index_fault tx_at pack_id hash_order Henv writes st Hs) as Hw. unfold wp in Hw.
  destruct (write_many_atomic _ _ _ _ _ _ _ _ st) as [r st']. by destruct Hw as (_ & ? & ?).
Qed.

(** C31: after a successful batch write, a read of a written path or of any of its
    aliases by any client, with no call failing, gives bytes of the written hash,
    and the written bytes themselves when that client has nothing cached for the
    path, as the writer has not for the paths it wrote. *)
Theorem object_read_your_writes n s c writes rs st1 w q d :
  reachable n s -> c ∈ sy_clients s ->
  write_many_atomic alg cfg store_fault index_fault tx_at pack_id hash_order writes (client (sy_shared s) c) = (Ok rs, st1) ->
  w ∈ writes -> reaches cfg (sh_db (sy_shared s)) w q ->
  (d = (st_packs st1, st_files st1) \/ d ∈ sy_clients s) ->
  index_fault (sh_tick (st_shared st1)) = None -> store_fault (os_tick (sh_store (st_shared st1))) GetObject = None ->
  exists b, (read cfg store_fault index_fault hash_order q (client (st_shared st1) d)).1 = Ok b
    /\ hex_hash alg b = hex_hash alg (w_bytes w)
    /\ ((d = (st_packs st1, st_files st1) /\ q = w_path w) \/ sf_entries d.2 !! q = None -> b = w_bytes w).
Proof.
  intros Hr Hc Hwr Hw Hq Hd Hif Hsf. pose proof (reachable_sound n s Hr) as Ha. set (st := client (sy_shared s) c) in *.
  pose proof (write_many_wp alg cfg store_fault index_fault tx_at pack_id hash_order Henv writes st (Ha c Hc)) as Hpost.
  unfold wp in Hpost. rewrite Hwr in Hpost. destruct Hpost as (Hs1 & Hsub & Hout). cbn in Hs1, Hsub, Hout.
  destruct Hout as ([Hnew _] & _ & Hnone). destruct (Hnew w q Hw Hq) as (fm & Hcur & Hh & Hread).
  assert (sound (client (st_shared st1) d)) as Hs2.
  { destruct Hd as [-> |Hd]; [by rewrite client_eta|]. eapply (other_client (sy_shared s) _ d (st_packs st1, st_files st1));
      [by apply Ha|by rewrite client_eta|done]. }
  pose proof (read_wp alg cfg store_fault index_fault hash_order q _ (so_good _ _ _ _ _ Hs2)) as Hrd. unfold wp in Hrd.
  destruct (read _ _ _ _ _ _) as [[b|e] st2]; destruct Hrd as [_ Hrd]; cbn [fst snd] in Hrd.
  - destruct Hrd as (fm' & Hcur' & Hh' & Hread'). change (get_current_file_manifest (st_db st1) (cfg_scope cfg) q = Some fm') in Hcur'.
    assert (fm' = fm) as -> by congruence. exists b. split_and!; [done|congruence|]. intros Hcase.
    eapply reads_inj; [|exact Hread]. apply Hread'. cbn. destruct Hcase as [[-> ->]|Hn]; [by apply Hnone|done].
  - exfalso. destruct Hrd as [[_ Hn]|[Hn|Hn]]; [|by apply Hn|by apply Hn].
    change (get_current_file_manifest (st_db st1) (cfg_scope cfg) q = None) in Hn. congruence.
Qed.
End system.

(** ** A run of object-backed storage

    Two clients of one empty store: one writes two files and links one of them,
    the other overwrites the link, and both read. The scenario discharges the
    hypotheses of the theorems on clients, and shows where a precondition and a
    listing do not do what their callers expect. *)

Definition uuid_at (n i : nat) : string := pretty (encode (n, i)).
Definition txs (n : nat) : TxInputs := MkTx (Z.of_nat n) (uuid_at n).
Definition packs_at (n : nat) : string := pretty n.
Definition in_order (A : Type) (l : list A) : list A := l.
Definition no_index_fault (_ : nat) : option bool := None.
Definition storage_cfg : ObjectBackedVfsStorageConfig := default_storage_config "s".

Lemma scenario_environment : environment txs packs_at in_order.
Proof.
  split.
  - intros n i m j E. cbn in E. unfold uuid_at in E. apply (inj pretty), (inj encode) in E. by injection E.
  - intros n m E. by apply (inj pretty) in E.
  - done.
Qed.

Definition plain_write (path : string) (b : bytes) : VfsStorageWrite := MkWrite path b None None None.

Definition joining : list (nat * Request) :=
  [(0, ReqWriteMany [plain_write "docs/a.md" [Byte.x61; Byte.x62]; plain_write "b.md" [Byte.x63]]);
   (1, ReqReadMany ["b.md"; "docs/a.md"]);
   (0, ReqHardLink "docs/a.md" "link/a.md")].

Section scenario.
Local Instance storage_deps : PackDeps := toy_deps.
Local Instance storage_laws : PackDepsLaws toy_deps := toy_deps_laws.
Local Instance storage_hashes : HashCrates := toy_hashes.

Definition joined : System :=
  run Sha256 storage_cfg no_fault no_index_fault txs packs_at in_order joining (start storage_cfg 2).

Definition client_at (i : nat) : PackCache * SmallFileCache :=
  default (PackCache_new 0, SmallFileCache_new) (sy_clients joined !! i).

Definition overwrite : list VfsStorageWrite := [plain_write "link/a.md" [Byte.x7a]].

Definition overwritten : VfsStorageResult (list VfsStorageWriteResult) * ObjectBackedVfsStorage :=
  write_many_atomic Sha256 storage_cfg no_fault no_index_fault txs packs_at in_order overwrite (client (sy_shared joined) (client_at 1)).
End scenario.

Lemma joined_reachable :
  @reachable toy_deps toy_hashes Sha256 storage_cfg no_fault no_index_fault txs packs_at in_order 2 joined.
Proof. apply run_reachable. Qed.

Lemma client_0_in : client_at 0 ∈ sy_clients joined.
Proof. apply list_elem_of_lookup. exists 0. vm_compute. reflexivity. Qed.

Lemma client_1_in : client_at 1 ∈ sy_clients joined.
Proof. apply list_elem_of_lookup. exists 1. vm_compute. reflexivity. Qed.

(** ** Witnesses *)

Lemma storage_clients_sound_witness :
  client_at 1 ∈ sy_clients joined
  /\ @sound toy_deps toy_hashes Sha256 storage_cfg txs packs_at (client (sy_shared joined) (client_at 1)).
Proof.
  split; [exact client_1_in|].
  apply (@storage_clients_sound toy_deps toy_deps_laws toy_hashes Sha256 storage_cfg no_fault no_index_fault txs packs_at in_order
    scenario_environment 2); [exact joined_reachable|exact client_1_in].
Defined.

Lemma object_read_current_witness :
  @reads_current toy_deps toy_hashes Sha256 storage_cfg (client (sy_shared joined) (client_at 1)) "link/a.md" [Byte.x61; Byte.x62].
Proof.
  pose proof (@object_read_current toy_deps toy_deps_laws toy_hashes Sha256 storage_cfg no_fault no_index_fault txs packs_at in_order
    scenario_environment 2 joined (client_at 1) "link/a.md" joined_reachable client_1_in) as Hr.
  cbv zeta in Hr. destruct (read _ _ _ _ _ _) as [r st'] eqn:E. apply (f_equal fst) in E. vm_compute in E. subst r.
  exact (proj2 (proj2 Hr)).
Defined.

Definition batch_paths : list string := ["link/a.md"; "absent"; "docs/a.md"; "b.md"; "link/a.md"].

Lemma object_read_many_complete_witness :
  @reads_all toy_hashes Sha256 storage_cfg (client (sy_shared joined) (client_at 0)) batch_paths
    [("docs/a.md", [Byte.x61; Byte.x62]); ("link/a.md", [Byte.x61; Byte.x62]); ("b.md", [Byte.x63])].
Proof.
  pose proof (@object_read_many_complete toy_deps toy_deps_laws toy_hashes Sha256 storage_cfg no_fault no_index_fault txs packs_at in_order
    scenario_environment 2 joined (client_at 0) batch_paths joined_reachable client_0_in) as Hr.
  cbv zeta in Hr. destruct (read_many _ _ _ _ _ _) as [r st'] eqn:E. apply (f_equal fst) in E. vm_compute in E. subst r.
  exact (proj2 (proj2 Hr)).
Defined.

Definition overwritten_results : list VfsStorageWriteResult :=
  match overwritten.1 with Ok rs => rs | Err _ => [] end.

Lemma pair_fst {A B} (x : A * B) a : x.1 = a -> x = (a, x.2).
Proof. by destruct x as [? ?]; intros <-. Qed.

Lemma overwritten_Ok : overwritten = (Ok overwritten_results, overwritten.2).
Proof. apply pair_fst. vm_compute. reflexivity. Qed.

Lemma object_write_atomic_witness :
  exists rs, overwritten.1 = Ok rs
    /\ @written toy_deps toy_hashes Sha256 storage_cfg (st_objects overwritten.2) (sh_db (sy_shared joined)) (st_db overwritten.2) overwrite.
Proof.
  pose proof (@object_write_atomic toy_deps toy_deps_laws toy_hashes Sha256 storage_cfg no_fault no_index_fault txs packs_at in_order
    scenario_environment 2 joined (client_at 1) overwrite joined_reachable client_1_in) as Hr.
  cbv zeta in Hr. change (write_many_atomic _ _ _ _ _ _ _ _ _) with overwritten in Hr.
  rewrite overwritten_Ok in Hr. exists overwritten_results. split; [by rewrite overwritten_Ok|exact (proj1 (proj2 Hr))].
Defined.

Lemma docs_alias : reaches storage_cfg (sh_db (sy_shared joined)) (plain_write "link/a.md" [Byte.x7a]) "docs/a.md".
Proof.
  right. exists "24". split.
  - eexists. split; [vm_compute; reflexivity|]. split; vm_compute; reflexivity.
  - eexists. split; [vm_compute; reflexivity|]. split; vm_compute; reflexivity.
Qed.

(** The other client reads the new bytes through the other name. *)
Lemma object_read_your_writes_witness :
  exists b, (@read toy_deps storage_cfg no_fault no_index_fault in_order "docs/a.md" (client (st_shared overwritten.2) (client_at 0))).1 = Ok b
    /\ b = [Byte.x7a].
Proof.
  destruct (@object_read_your_writes toy_deps toy_deps_laws toy_hashes Sha256 storage_cfg no_fault no_index_fault txs packs_at in_order
    scenario_environment 2 joined (client_at 1) overwrite overwritten_results overwritten.2 (plain_write "link/a.md" [Byte.x7a]) "docs/a.md"
    (client_at 0) joined_reachable client_1_in overwritten_Ok) as (b & Hb & _ & Heq); [set_solver|exact docs_alias|right; exact client_0_in|done|done|].
  exists b. split; [exact Hb|]. apply Heq. right. vm_compute. reflexivity.
Defined.

(** ** Version preconditions and subtree listings *)

Definition write_as (precondition : VfsStorageWritePrecondition) : VfsStorageResult VfsStorageWriteResult * ObjectBackedVfsStorage :=
  @write toy_deps toy_hashes Sha256 storage_cfg no_fault no_index_fault txs packs_at in_order "b.md" [Byte.x21] (Some precondition)
    (client (sy_shared joined) (client_at 0)).

Definition entry_of (path : string) : EntryRow :=
  default (directory_entry 0 "" "" "") (db_entries (sh_db (sy_shared joined)) !! ("s", path)).

(** A version that was never current, with the right identity. *)
Definition stale_version : VfsStorageWritePrecondition :=
  MkPrecondition None None None (er_file_id (entry_of "b.md")) (Some "stale").

(** The version that is current, alone. *)
Definition current_version_only : VfsStorageWritePrecondition :=
  MkPrecondition None None None None (er_current_version (entry_of "b.md")).

(** A version precondition does not do its work. A write that expects the
    right identity and a version that is not current goes through and replaces the
    file; a write that expects exactly the current version and nothing else is
    refused as a content conflict. *)
Theorem version_precondition_unenforced :
  match (write_as stale_version).1 with Ok r => wr_changed r = true | Err _ => False end
  /\ er_current_version (entry_of "b.md") <> Some "stale"
  /\ (@read toy_deps storage_cfg no_fault no_index_fault in_order "b.md" (write_as stale_version).2).1 = Ok [Byte.x21]
  /\ (write_as current_version_only).1 = Err (Conflict "vfs content precondition failed for b.md").
Proof.
  split; [vm_compute; reflexivity|]. split; [vm_compute; discriminate|]. split; vm_compute; reflexivity.
Qed.

Definition siblings : System :=
  @run toy_deps toy_hashes Sha256 storage_cfg no_fault no_index_fault txs packs_at in_order
    [(0, ReqWriteMany [plain_write "my_dir/x" [Byte.x61]; plain_write "my-dir/y" [Byte.x62]])] (start storage_cfg 1).

(** Listing or prefetching a subtree whose name has an underscore also
    returns the files of sibling directories that differ in that character. *)
Theorem subtree_listing_crosses_siblings :
  fm_logical_path <$> list_current_file_manifests_in_subtree (sh_db (sy_shared siblings)) "s" "my_dir" None = ["my-dir/y"; "my_dir/x"].
Proof. vm_compute. reflexivity. Qed.
