(* ===== verification/MountTypes.v ===== *)
(** * Vocabulary of the mount-local view

    [sandbox/vmd/src/fuse/local_view/types.rs]: the mutations a mount accepts,
    their validation, the dependency keys that order them, payload references,
    pre-image witnesses, log events and records, and the checkpoint. [anyhow]
    errors are the constructors of [MountError], one per [bail!] site. *)

From S2P Require Import Prelude.
From Stdlib Require Import ZArith Lia Ascii.

(** The build target: the macOS build keeps the volume-metadata directories of
    the guest local, every other build publishes every content path. *)
Class Platform := { target_macos : bool }.

Inductive MountError :=
| EmptyPath
| NotNormalized (path : string)
| InvalidPayloadName (name : string)
| UnsupportedRenameFlags (flags : Z)
| AppendNotExtending (path : string) (base_size size : Z)
| AppendMissingHashes (path : string)
| PayloadMismatch (required supplied : bool)
| AppendPayloadLength (path : string) (carried expected : Z)
| UnsupportedCheckpointFormat (version : Z)
| CheckpointWithoutEpoch
| ReplayGenerationNotActive (generation : Z)
| PrunedPastAcknowledged (first_unpruned acknowledged : Z)
(* write-ahead log *)
| WalPoisoned (generation : Z)
| RecordTooLarge (len : Z)
| AppendFailed
| UnknownPrepared (sequence : Z)
| PreparedMismatch (sequence : Z)
| AlreadyAborted (sequence : Z)
| AlreadyCommitted (sequence : Z)
| SequenceExhausted
| BatchWithoutEvents
| ZeroStreamThreshold
| BatchOutOfOrder (first second : Z)
| BatchBehindItsEvents (through last : Z)
| AcknowledgementRegressed (from to : Z)
| RevisionRegressed (from to : Z)
| UnresolvedAcknowledged (sequence : Z)
| UnknownRecovered (sequence : Z)
| AlreadyResolved (sequence : Z)
| MissingPayload (sequence : Z)
| UnsupportedHeaderFormat (version : Z)
| UnsupportedEventFormat (version : Z)
| HeaderGenerationMismatch (generation recorded : Z)
| DuplicatePrepare (sequence : Z)
| CommitsAborted (sequence : Z)
| DuplicateCommit (sequence : Z)
| AbortsCommitted (sequence : Z)
| DuplicateAbort (sequence : Z)
| ScannedAcknowledgementRegressed
| MultipleEpochs
| TerminalWithoutPrepare (sequence : Z)
| CheckpointEpochMismatch
| CallerEpochMismatch
| ReplayOffsetPastEnd (offset : Z)
| UndecodableRecord (offset : Z)
| TornInteriorRecord (generation : Z)
| MissingGeneration (generation : Z)
(* publication *)
| NotIncreasing (first second : Z)
| ThroughBehindLast (through last : Z)
| IoError (msg : string).

Global Instance MountError_eq_dec : EqDecision MountError.
Proof. solve_decision. Defined.

Abbreviation MResult := (result MountError).

Record LocalTimestamp := MkTimestamp { secs : Z; nanos : Z }.
Global Instance LocalTimestamp_eq_dec : EqDecision LocalTimestamp.
Proof. solve_decision. Defined.

Inductive LocalKind := LFile | LDirectory | LSymlink.
Global Instance LocalKind_eq_dec : EqDecision LocalKind.
Proof. solve_decision. Defined.

Definition as_wire_kind (k : LocalKind) : string :=
  match k with LFile => "file" | LDirectory => "directory" | LSymlink => "symlink" end.

Definition from_wire_kind (kind : string) : option LocalKind :=
  if String.eqb kind "file" then Some LFile
  else if String.eqb kind "directory" || String.eqb kind "dir" then Some LDirectory
  else if String.eqb kind "symlink" || String.eqb kind "link" then Some LSymlink
  else None.

(** ** Paths *)

Definition slash : ascii := "/".
Definition non_empty (s : string) : bool := negb (is_empty_str s).

(** The non-empty pieces of a path, the iterator [ancestors_of] walks. *)
Definition path_parts (path : string) : list string :=
  List.filter non_empty (split_on slash path).

Fixpoint ancestors_loop (current : string) (parts : list string) : list string :=
  match parts with
  | [] => []
  | part :: rest =>
      match rest with
      | [] => []
      | _ =>
          let current' := if is_empty_str current then part else current +:+ "/" +:+ part in
          current' :: ancestors_loop current' rest
      end
  end.

Definition ancestors_of (path : string) : list string :=
  EmptyString :: ancestors_loop EmptyString (path_parts path).

Definition parent_of (path : string) : string :=
  match rsplit_once slash path with Some (l, _) => l | None => EmptyString end.

(** [std::path::Path::components] on Unix: a leading separator is the root,
    repeated separators are skipped, and a dot component is kept only at the
    start of a relative path. *)
Inductive Component := RootDir | CurDir | ParentDir | Normal (name : string).

Definition component_of (first : bool) (piece : string) : list Component :=
  if is_empty_str piece then []
  else if String.eqb piece "." then (if first then [CurDir] else [])
  else if String.eqb piece ".." then [ParentDir]
  else [Normal piece].

Definition path_components (path : string) : list Component :=
  match split_on slash path with
  | [] => []
  | p :: ps =>
      (if starts_with "/" path then [RootDir] else component_of true p)
      ++ flat_map (component_of false) ps
  end.

Definition is_normal (c : Component) : bool :=
  match c with Normal _ => true | _ => false end.

(** [Path::is_absolute] on Unix. *)
Definition is_absolute (path : string) : bool := starts_with "/" path.

Definition validate_mount_path (path : string) : MResult unit :=
  _ ← guard_err (is_empty_str path) EmptyPath;
  guard_err (is_absolute path || existsb (fun c => negb (is_normal c)) (path_components path))
    (NotNormalized path).

Definition validate_payload_name (name : string) : MResult unit :=
  guard_err
    (is_empty_str name || negb (Nat.eqb (length (path_components name)) 1)
     || negb (match path_components name with c :: _ => is_normal c | [] => false end))
    (InvalidPayloadName name).

Definition is_local_only_content_path {P : Platform} (path : string) : bool :=
  if target_macos then
    let root := match split_on slash path with r :: _ => r | [] => path end in
    existsb (String.eqb root)
      [".fseventsd"; ".Spotlight-V100"; ".Trashes"; ".DocumentRevisions-V100"; ".TemporaryItems"]
  else false.

Definition RENAME_NOREPLACE : Z := 1.
Definition RENAME_EXCHANGE : Z := 2.
Definition RENAME_WHITEOUT : Z := 4.

(** ** Mutations *)

Inductive MountMutation :=
| CreateDirectory (path : string) (mode : Z)
| CreateFile (path : string) (mode : Z)
| ReplaceFile (path : string) (mode : Z) (expected_file_id base_content_hash : option string)
| AppendFile (path : string) (mode base_size : Z) (base_content_hash : string) (size : Z)
    (content_hash : string)
| CreateSymlink (path target : string)
| CreateHardLink (existing_path new_path : string)
| Rename (old_path new_path : string) (flags : Z)
| RemoveFile (path : string) (expected_file_id : option string)
| RemoveDirectory (path : string)
| SetMode (path : string) (mode : Z)
| SetTimes (path : string) (atime mtime : option LocalTimestamp)
| SetOwner (path : string) (uid gid : option Z).

Global Instance MountMutation_eq_dec : EqDecision MountMutation.
Proof. solve_decision. Defined.

Definition affected_paths (m : MountMutation) : list string :=
  match m with
  | CreateDirectory p _ | CreateFile p _ | ReplaceFile p _ _ _ | AppendFile p _ _ _ _ _
  | CreateSymlink p _ | RemoveFile p _ | RemoveDirectory p | SetMode p _ | SetTimes p _ _
  | SetOwner p _ _ => [p]
  | CreateHardLink existing new => [existing; new]
  | Rename old new _ => [old; new]
  end.

Definition primary_path (m : MountMutation) : string :=
  match m with
  | CreateDirectory p _ | CreateFile p _ | ReplaceFile p _ _ _ | AppendFile p _ _ _ _ _
  | CreateSymlink p _ | RemoveFile p _ | RemoveDirectory p | SetMode p _ | SetTimes p _ _
  | SetOwner p _ _ => p
  | CreateHardLink _ new => new
  | Rename _ new _ => new
  end.

Definition is_content (m : MountMutation) : bool :=
  match m with ReplaceFile _ _ _ _ | AppendFile _ _ _ _ _ _ => true | _ => false end.

Definition requires_payload (m : MountMutation) : bool := is_content m.

Definition is_local_only {P : Platform} (m : MountMutation) : bool :=
  match m with
  | SetTimes _ _ _ | SetOwner _ _ _ => true
  | _ => if target_macos then forallb is_local_only_content_path (affected_paths m) else false
  end.

Definition validate (m : MountMutation) : MResult unit :=
  _ ← foldM (fun _ path => validate_mount_path path) tt (affected_paths m);
  _ ← match m with
      | Rename _ _ flags =>
          guard_err (negb (Z.land flags (U32_MAX - RENAME_NOREPLACE) =? 0)%Z)
            (UnsupportedRenameFlags flags)
      | _ => Ok tt
      end;
  match m with
  | AppendFile path _ base_size base_hash size hash =>
      _ ← guard_err ((base_size =? 0)%Z || (size <=? base_size)%Z)
            (AppendNotExtending path base_size size);
      guard_err (is_empty_str base_hash || is_empty_str hash) (AppendMissingHashes path)
  | _ => Ok tt
  end.

(** ** Payload references *)

Inductive PayloadStorage :=
| Segment (file : string) (offset : Z)
| DedicatedFile (file : string).

Definition storage_file (s : PayloadStorage) : string :=
  match s with Segment f _ => f | DedicatedFile f => f end.
Definition storage_offset (s : PayloadStorage) : Z :=
  match s with Segment _ o => o | DedicatedFile _ => 0%Z end.
Definition is_dedicated (s : PayloadStorage) : bool :=
  match s with DedicatedFile _ => true | _ => false end.

Record PayloadRef := MkPayloadRef {
  storage : PayloadStorage;
  length_ : Z;
  hash_algorithm : string;
  payload_hash : string;
}.

Global Instance PayloadStorage_eq_dec : EqDecision PayloadStorage.
Proof. solve_decision. Defined.
Global Instance PayloadRef_eq_dec : EqDecision PayloadRef.
Proof. solve_decision. Defined.

Definition validate_payload (m : MountMutation) (payload : option PayloadRef) : MResult unit :=
  let supplied := match payload with Some _ => true | None => false end in
  _ ← guard_err (negb (Bool.eqb (requires_payload m) supplied))
        (PayloadMismatch (requires_payload m) supplied);
  match m, payload with
  | AppendFile path _ base_size _ size _, Some p =>
      guard_err (negb (length_ p =? sat_sub size base_size)%Z)
        (AppendPayloadLength path (length_ p) (sat_sub size base_size))
  | _, _ => Ok tt
  end.

(** ** Dependency keys *)

Record DependencyKey := MkKey { key_path : string; exclusive : bool }.
Global Instance DependencyKey_eq_dec : EqDecision DependencyKey.
Proof. solve_decision. Defined.

Definition conflicts_with (a b : DependencyKey) : bool :=
  String.eqb (key_path a) (key_path b) && (exclusive a || exclusive b).

Definition dependency_sets_conflict (left right : list DependencyKey) : bool :=
  existsb (fun key => existsb (conflicts_with key) right) left.

(** The derived order: by path, then shared before exclusive. *)
Definition key_le (a b : DependencyKey) : Prop :=
  if decide (key_path a = key_path b) then (exclusive a = true -> exclusive b = true)
  else str_le (key_path a) (key_path b).
Global Instance key_le_dec : RelDecision key_le.
Proof. intros a b. unfold key_le. destruct (decide (key_path a = key_path b)); apply _. Defined.

(** The merging loop, with the output accumulated last-first. *)
Fixpoint merge_loop (merged : list DependencyKey) (keys : list DependencyKey) : list DependencyKey :=
  match keys with
  | [] => reverse merged
  | key :: keys =>
      match merged with
      | last :: rest =>
          if String.eqb (key_path last) (key_path key)
          then merge_loop (MkKey (key_path last) (exclusive last || exclusive key) :: rest) keys
          else merge_loop (key :: merged) keys
      | [] => merge_loop [key] keys
      end
  end.

Definition merge_dependency_keys (keys : list DependencyKey) : list DependencyKey :=
  merge_loop [] (merge_sort key_le keys).

(** The keys one affected path contributes: shared on its proper ancestors,
    then the path itself. *)
Definition push_keys (path : string) (excl : bool) : list DependencyKey :=
  map (fun a => MkKey a false) (ancestors_of path) ++ [MkKey path excl].

Definition raw_dependency_keys (m : MountMutation) : list DependencyKey :=
  match m with
  | CreateHardLink existing new => push_keys existing false ++ push_keys new true
  | other => flat_map (fun p => push_keys p true) (affected_paths other)
  end.

Definition dependency_keys (m : MountMutation) : list DependencyKey :=
  merge_dependency_keys (raw_dependency_keys m).

(** ** Pre-image witnesses *)

Inductive PreImageState :=
| PreAbsent
| PrePresent (kind : LocalKind) (mode : Z) (local_identity : string) (size_bytes link_count : Z)
    (link_target : option string).
Global Instance PreImageState_eq_dec : EqDecision PreImageState.
Proof. solve_decision. Defined.

Definition pre_is_absent (s : PreImageState) : bool :=
  match s with PreAbsent => true | _ => false end.
Definition pre_local_identity (s : PreImageState) : option string :=
  match s with PreAbsent => None | PrePresent _ _ i _ _ _ => Some i end.
Definition pre_kind (s : PreImageState) : option LocalKind :=
  match s with PreAbsent => None | PrePresent k _ _ _ _ _ => Some k end.
Definition pre_mode (s : PreImageState) : option Z :=
  match s with PreAbsent => None | PrePresent _ m _ _ _ _ => Some m end.

Record PreImageEntry := MkPreImageEntry { pre_path : string; pre_state : PreImageState }.
Global Instance PreImageEntry_eq_dec : EqDecision PreImageEntry.
Proof. solve_decision. Defined.

Abbreviation MountPreImage := (list PreImageEntry).

Definition state_of (pre : MountPreImage) (path : string) : option PreImageState :=
  pre_state <$> List.find (fun e => String.eqb (pre_path e) path) pre.

Inductive ApplyState := NotApplied | Applied | Ambiguous.
Inductive RecoveryResolution := RAbort | RCommit.

(** ** Events *)

Inductive MountEvent := MkEvent
  (ev_format_version : Z) (ev_epoch : string) (ev_sequence : Z) (ev_idempotency_key : string)
  (ev_mutation : MountMutation) (ev_payload : option PayloadRef) (ev_pre_image : MountPreImage)
  (ev_local_identity : option string) (ev_folded_appends : list MountEvent).

Definition event_format_version '(MkEvent v _ _ _ _ _ _ _ _) := v.
Definition event_epoch '(MkEvent _ e _ _ _ _ _ _ _) := e.
Definition sequence '(MkEvent _ _ s _ _ _ _ _ _) := s.
Definition idempotency_key '(MkEvent _ _ _ k _ _ _ _ _) := k.
Definition mutation '(MkEvent _ _ _ _ m _ _ _ _) := m.
Definition payload '(MkEvent _ _ _ _ _ p _ _ _) := p.
Definition pre_image '(MkEvent _ _ _ _ _ _ i _ _) := i.
Definition local_identity '(MkEvent _ _ _ _ _ _ _ l _) := l.
Definition folded_appends '(MkEvent _ _ _ _ _ _ _ _ f) := f.

Definition set_local_identity (id : option string) '(MkEvent v e s k m p i _ f) : MountEvent :=
  MkEvent v e s k m p i id f.
Definition set_mutation (m : MountMutation) '(MkEvent v e s k _ p i l f) : MountEvent :=
  MkEvent v e s k m p i l f.
Definition push_folded (a : MountEvent) '(MkEvent v e s k m p i l f) : MountEvent :=
  MkEvent v e s k m p i l (f ++ [a]).

Fixpoint MountEvent_eq_dec (x y : MountEvent) : Decision (x = y).
Proof.
  destruct x as [v e s k m p i l f], y as [v' e' s' k' m' p' i' l' f'].
  destruct (decide ((v, e, s, k, m, p, i, l) = (v', e', s', k', m', p', i', l'))) as [H|H].
  - destruct (@list_eq_dec _ MountEvent_eq_dec f f') as [Hf|Hf].
    + left. by injection H as -> -> -> -> -> -> -> ->; subst.
    + right. congruence.
  - right. congruence.
Defined.
Global Instance MountEvent_EqDecision : EqDecision MountEvent := MountEvent_eq_dec.

Definition payload_length (e : MountEvent) : Z :=
  match payload e with Some p => length_ p | None => 0%Z end.

Definition event_dependency_keys (e : MountEvent) : list DependencyKey :=
  dependency_keys (mutation e).

Definition payload_chain (e : MountEvent) : list PayloadRef :=
  option_list (payload e) ++ omap payload (folded_appends e).

Definition wire_payload_length (e : MountEvent) : Z :=
  foldl sat_add 0%Z (length_ <$> payload_chain e).

Definition last_sequence (e : MountEvent) : Z :=
  match last (folded_appends e) with Some f => sequence f | None => sequence e end.

Definition published_content (e : MountEvent) : option (Z * string) :=
  let l := default e (last (folded_appends e)) in
  match mutation l with
  | AppendFile _ _ _ _ size hash => Some (size, hash)
  | ReplaceFile _ _ _ _ => (fun p => (length_ p, payload_hash p)) <$> payload l
  | _ => None
  end.

(** ** Lemmas: dependency keys *)

Definition mentions (keys : list DependencyKey) (p : string) : Prop :=
  exists k, k ∈ keys /\ key_path k = p.
Definition claims (keys : list DependencyKey) (p : string) : Prop :=
  exists k, k ∈ keys /\ key_path k = p /\ exclusive k = true.

Lemma conflict_iff left right :
  dependency_sets_conflict left right = true <->
  exists p, (claims left p /\ mentions right p) \/ (mentions left p /\ claims right p).
Proof.
  unfold dependency_sets_conflict. rewrite existsb_exists. split.
  - intros (k & Hk & H). apply existsb_exists in H as (k' & Hk' & H).
    unfold conflicts_with in H. bools. apply list_elem_of_In in Hk, Hk'.
    exists (key_path k). apply orb_true_iff in H0 as [H0|H0]; [left|right]; split; eexists; eauto.
  - intros (p & [[(k & Hk & Hp & He) (k' & Hk' & Hp')] | [(k & Hk & Hp) (k' & Hk' & Hp' & He)]]);
      exists k; (split; [by apply list_elem_of_In|]); apply existsb_exists; exists k';
      (split; [by apply list_elem_of_In|]); unfold conflicts_with;
      rewrite Hp, Hp', String.eqb_refl, He; [done|by rewrite orb_true_r].
Qed.

Lemma conflict_sym left right :
  dependency_sets_conflict left right = dependency_sets_conflict right left.
Proof.
  apply eq_true_iff_eq. rewrite !conflict_iff. split; intros (p & H); exists p; tauto.
Qed.

Lemma mentions_nil p : ~ mentions [] p.
Proof. intros (k & Hk & _). by apply elem_of_nil in Hk. Qed.

Lemma claims_nil p : ~ claims [] p.
Proof. intros (k & Hk & _). by apply elem_of_nil in Hk. Qed.

Lemma mentions_cons k keys p : mentions (k :: keys) p <-> key_path k = p \/ mentions keys p.
Proof. unfold mentions. setoid_rewrite elem_of_cons. naive_solver. Qed.

Lemma claims_cons k keys p :
  claims (k :: keys) p <-> (key_path k = p /\ exclusive k = true) \/ claims keys p.
Proof. unfold claims. setoid_rewrite elem_of_cons. naive_solver. Qed.

Lemma mentions_app ks ls p : mentions (ks ++ ls) p <-> mentions ks p \/ mentions ls p.
Proof. unfold mentions. setoid_rewrite elem_of_app. naive_solver. Qed.

Lemma claims_app ks ls p : claims (ks ++ ls) p <-> claims ks p \/ claims ls p.
Proof. unfold claims. setoid_rewrite elem_of_app. naive_solver. Qed.

Lemma merge_loop_mentions merged keys p :
  mentions (merge_loop merged keys) p <-> mentions merged p \/ mentions keys p.
Proof.
  revert merged; induction keys as [|k keys IH]; intros merged; cbn.
  - unfold mentions at 1. setoid_rewrite elem_of_reverse. pose proof (mentions_nil p). tauto.
  - rewrite mentions_cons. destruct merged as [|l rest].
    + rewrite IH, mentions_cons. pose proof (mentions_nil p). tauto.
    + destruct (String.eqb_spec (key_path l) (key_path k)) as [E|E]; rewrite IH, !mentions_cons;
        cbn; rewrite ?E; tauto.
Qed.

Lemma merge_loop_claims merged keys p :
  claims (merge_loop merged keys) p <-> claims merged p \/ claims keys p.
Proof.
  revert merged; induction keys as [|k keys IH]; intros merged; cbn.
  - unfold claims at 1. setoid_rewrite elem_of_reverse. pose proof (claims_nil p). tauto.
  - rewrite claims_cons. destruct merged as [|l rest].
    + rewrite IH, claims_cons. pose proof (claims_nil p). tauto.
    + destruct (String.eqb_spec (key_path l) (key_path k)) as [E|E]; rewrite IH, !claims_cons;
        cbn; rewrite ?orb_true_iff, ?E; tauto.
Qed.

Lemma merge_mentions keys p : mentions (merge_dependency_keys keys) p <-> mentions keys p.
Proof.
  unfold merge_dependency_keys. rewrite merge_loop_mentions.
  unfold mentions. setoid_rewrite (merge_sort_Permutation key_le keys).
  split; [intros [(k & Hk & _)|H]; [by apply elem_of_nil in Hk|done]|auto].
Qed.

Lemma merge_claims keys p : claims (merge_dependency_keys keys) p <-> claims keys p.
Proof.
  unfold merge_dependency_keys. rewrite merge_loop_claims.
  unfold claims. setoid_rewrite (merge_sort_Permutation key_le keys).
  split; [intros [(k & Hk & _)|H]; [by apply elem_of_nil in Hk|done]|auto].
Qed.

Lemma merge_conflict left right :
  dependency_sets_conflict (merge_dependency_keys left) (merge_dependency_keys right)
  = dependency_sets_conflict left right.
Proof.
  apply eq_true_iff_eq. rewrite !conflict_iff.
  by setoid_rewrite merge_mentions; setoid_rewrite merge_claims.
Qed.

Global Instance key_le_total : Total key_le.
Proof.
  intros [p e] [q f]. unfold key_le; cbn. destruct (decide (p = q)) as [->|Hne].
  - rewrite decide_True by done. destruct e, f; auto.
  - rewrite decide_False by done. apply (total str_le).
Qed.

Global Instance key_le_trans : Transitive key_le.
Proof.
  intros [p e] [q f] [r g]. unfold key_le; cbn.
  destruct (decide (p = q)) as [->|H1], (decide (q = r)) as [->|H2]; try destruct (decide (p = r)) as [->|H3];
    try done; eauto.
  - intros Ha Hb. exfalso. apply H1. by apply (anti_symm str_le).
  - intros Ha Hb. by etrans.
Qed.

Definition path_lt (a b : DependencyKey) : Prop :=
  str_le (key_path a) (key_path b) /\ key_path a <> key_path b.

Lemma key_le_path a b : key_le a b -> key_path a = key_path b \/ path_lt a b.
Proof. unfold key_le, path_lt. case_decide; auto. Qed.

Lemma path_lt_trans a b c : path_lt a b -> path_lt b c -> path_lt a c.
Proof.
  intros [H1 N1] [H2 N2]. split; [by etrans|]. intros E. apply N1.
  apply (anti_symm str_le); [done|]. by rewrite E.
Qed.

(** The accumulator of the loop: strictly decreasing paths, all of them at most
    the paths still to come. *)
Lemma merge_loop_sorted merged keys :
  StronglySorted (fun a b => path_lt b a) merged ->
  (match merged with [] => True | l :: _ => Forall (fun k => key_path l = key_path k \/ path_lt l k) keys end) ->
  StronglySorted key_le keys ->
  StronglySorted path_lt (merge_loop merged keys).
Proof.
  revert merged; induction keys as [|k keys IH]; intros merged Hm Hl Hk; cbn.
  - clear Hl Hk. induction Hm as [|a l Hs IHs Ha]; [constructor|].
    rewrite reverse_cons. apply StronglySorted_app_2; [|done|repeat constructor].
    intros x y Hx Hy. apply list_elem_of_singleton in Hy as ->.
    rewrite elem_of_reverse in Hx. rewrite Forall_forall in Ha. auto.
  - apply StronglySorted_cons in Hk as [Hks Hkk].
    assert (Forall (fun k' => key_path k = key_path k' \/ path_lt k k') keys) as Hnext.
    { eapply Forall_impl; [exact Hks|]. intros. by apply key_le_path. }
    destruct merged as [|l rest].
    + apply IH; [repeat constructor|done|done].
    + apply Forall_cons in Hl as [Hlk Hl]. apply StronglySorted_cons in Hm as [Hlr Hr].
      destruct (String.eqb_spec (key_path l) (key_path k)) as [E|E]; apply IH; try done.
      * constructor; [done|]. eapply Forall_impl; [exact Hlr|]. done.
      * destruct Hlk as [Hlk|Hlk]; [done|]. constructor; [constructor; done|].
        constructor; [done|]. eapply Forall_impl; [exact Hlr|].
        intros x Hx. exact (path_lt_trans _ _ _ Hx Hlk).
Qed.

Lemma merge_sorted keys : StronglySorted path_lt (merge_dependency_keys keys).
Proof.
  apply merge_loop_sorted; [constructor|done|].
  apply StronglySorted_merge_sort; apply _.
Qed.

(** ** What conflicts *)

(** The paths a mutation claims, and those whose existence it needs. *)
Definition exclusive_paths (m : MountMutation) : list string :=
  match m with CreateHardLink _ new => [new] | _ => affected_paths m end.
Definition reached_paths (m : MountMutation) : list string :=
  flat_map (fun p => p :: ancestors_of p) (affected_paths m).

Lemma push_keys_mentions path excl p : mentions (push_keys path excl) p <-> p ∈ path :: ancestors_of path.
Proof.
  unfold mentions, push_keys. setoid_rewrite elem_of_app. setoid_rewrite list_elem_of_singleton.
  setoid_rewrite list_elem_of_fmap. rewrite elem_of_cons. split.
  - intros (k & [(a & -> & Ha)| ->] & <-); cbn; auto.
  - intros [->|Ha]; [exists (MkKey path excl)|exists (MkKey p false)]; eauto.
Qed.

Lemma push_keys_claims path excl p : claims (push_keys path excl) p <-> excl = true /\ p = path.
Proof.
  unfold claims, push_keys. setoid_rewrite elem_of_app. setoid_rewrite list_elem_of_singleton.
  setoid_rewrite list_elem_of_fmap. split.
  - intros (k & [(a & -> & Ha)| ->] & <- & He); cbn in *; [done|auto].
  - intros [-> ->]. exists (MkKey path true). auto.
Qed.

Lemma flat_push_mentions paths p :
  mentions (flat_map (fun q => push_keys q true) paths) p <-> p ∈ flat_map (fun q => q :: ancestors_of q) paths.
Proof.
  induction paths as [|q paths IH]; cbn [flat_map].
  - split; [intros H; by apply mentions_nil in H|intros H; by apply elem_of_nil in H].
  - by rewrite mentions_app, push_keys_mentions, IH, elem_of_app.
Qed.

Lemma flat_push_claims paths p :
  claims (flat_map (fun q => push_keys q true) paths) p <-> p ∈ paths.
Proof.
  induction paths as [|q paths IH]; cbn [flat_map].
  - split; [intros H; by apply claims_nil in H|intros H; by apply elem_of_nil in H].
  - rewrite claims_app, push_keys_claims, IH, elem_of_cons. naive_solver.
Qed.

Lemma raw_mentions m p : mentions (raw_dependency_keys m) p <-> p ∈ reached_paths m.
Proof.
  unfold reached_paths. destruct m; cbn [raw_dependency_keys]; try apply flat_push_mentions.
  cbn [affected_paths flat_map]. by rewrite app_nil_r, elem_of_app, mentions_app, !push_keys_mentions.
Qed.

Lemma raw_claims m p : claims (raw_dependency_keys m) p <-> p ∈ exclusive_paths m.
Proof.
  destruct m; cbn [raw_dependency_keys exclusive_paths]; try apply flat_push_claims.
  rewrite claims_app, !push_keys_claims, list_elem_of_singleton. naive_solver.
Qed.

(** The dependency keys of two mutations conflict exactly when one of them
    claims a path that the other claims or that is on the way to a path the
    other touches; a hard link claims only its new name. The keys are sorted
    with one entry per path, as the locking order needs. *)
Theorem dependency_conflict_iff a b :
  (dependency_sets_conflict (dependency_keys a) (dependency_keys b) = true <->
   exists p, (p ∈ exclusive_paths a /\ p ∈ reached_paths b) \/ (p ∈ reached_paths a /\ p ∈ exclusive_paths b))
  /\ StronglySorted path_lt (dependency_keys a).
Proof.
  split; [|apply merge_sorted]. unfold dependency_keys. rewrite merge_conflict, conflict_iff.
  by setoid_rewrite raw_mentions; setoid_rewrite raw_claims.
Qed.

(** Paths with empty or dot components pass the normalization check. *)
Example unnormalized_paths_are_accepted :
  validate_mount_path "a//b" = Ok tt /\ validate_mount_path "a/./b" = Ok tt /\ validate_mount_path "a/" = Ok tt.
Proof. repeat split; reflexivity. Qed.
