(* ===== verification/WalTypes.v ===== *)
(** * Records, checkpoints and dirty-set effects of the mount log

    The durable vocabulary of [sandbox/vmd/src/fuse/local_view/types.rs]
    ([WalRecord], [MountCheckpoint] and the values the log exchanges with the
    publisher and the mount), the format constants of [local_view/mod.rs], and
    the path-set helpers at the end of [local_view/wal.rs] that both the commit
    path and replay use. [serde_json] is third-party: the record codec is the
    class [RecordCodec], and what the log relies on is [RecordCodecLaws]. *)

From S2P Require Import Prelude MountTypes.
From Stdlib Require Import ZArith Lia Ascii.

Definition WAL_FORMAT_VERSION : Z := 3.
Definition MIN_READABLE_WAL_FORMAT_VERSION : Z := 2.
Definition MAX_RECORD_BYTES : Z := 1024 * 1024.
Definition LOG_TARGET_BYTES : Z := 64 * 1024 * 1024.
Definition WAL_SOFT_LIMIT_BYTES : Z := 4 * 1024 * 1024 * 1024.

Definition readable_wal_format (version : Z) : bool :=
  (MIN_READABLE_WAL_FORMAT_VERSION <=? version)%Z && (version <=? WAL_FORMAT_VERSION)%Z.

Inductive WalRecord :=
| LogHeader (format_version : Z) (epoch : string) (generation first_sequence : Z)
| Prepared (event : MountEvent)
| Committed (epoch : string) (sequence : Z) (local_identity : option string)
| Aborted (epoch : string) (sequence : Z) (reason : string)
| ContentDirty (epoch path : string)
| RemoteAcknowledged (epoch : string) (through_sequence remote_revision : Z)
| Checkpointed (epoch : string) (through_sequence tree_generation : Z).

Global Instance WalRecord_eq_dec : EqDecision WalRecord.
Proof. solve_decision. Defined.

(** What a record is once it has been through the log: [folded_appends] is
    never serialized. *)
Definition strip_folded '(MkEvent v e s k m p i l _) : MountEvent :=
  MkEvent v e s k m p i l [].
Definition persisted (r : WalRecord) : WalRecord :=
  match r with Prepared event => Prepared (strip_folded event) | r => r end.

(** The line terminator of the log. *)
Definition newline : byte := Byte.x0a.

(** [serde_json::to_vec] and [serde_json::from_slice] on [WalRecord]. *)
Class RecordCodec := {
  to_vec : WalRecord -> bytes;
  from_slice : bytes -> option WalRecord;
}.

(** A JSON text of [to_vec] holds no raw line break, and parsing it, with the
    line break that ends it, gives the serialized record. *)
Class RecordCodecLaws (C : RecordCodec) : Prop := {
  to_vec_one_line : forall r, newline ∉ to_vec r;
  from_slice_to_vec : forall r, from_slice (to_vec r ++ [newline]) = Some (persisted r);
}.

Record MountCheckpoint := MkCheckpoint {
  ck_format_version : Z;
  ck_epoch : string;
  ck_checkpoint_id : Z;
  ck_acknowledged_sequence : Z;
  ck_remote_revision : Z;
  ck_tree_generation : Z;
  ck_first_unpruned_sequence : Z;
  ck_replay_log_generation : Z;
  ck_replay_log_offset : Z;
  ck_active_log_generations : list Z;
  ck_active_segments : list string;
  ck_dirty_content_paths : list string;
}.

Global Instance MountCheckpoint_eq_dec : EqDecision MountCheckpoint.
Proof. solve_decision. Defined.

Definition MountCheckpoint_validate (c : MountCheckpoint) : MResult unit :=
  _ ← guard_err (negb (readable_wal_format c.(ck_format_version)))
        (UnsupportedCheckpointFormat c.(ck_format_version));
  _ ← guard_err (is_empty_str c.(ck_epoch)) CheckpointWithoutEpoch;
  _ ← guard_err (negb (bool_decide (c.(ck_replay_log_generation) ∈ c.(ck_active_log_generations))))
        (ReplayGenerationNotActive c.(ck_replay_log_generation));
  guard_err (sat_add c.(ck_acknowledged_sequence) 1 <? c.(ck_first_unpruned_sequence))%Z
    (PrunedPastAcknowledged c.(ck_first_unpruned_sequence) c.(ck_acknowledged_sequence)).

Record PublishBatch := MkBatch { batch_events : list MountEvent; batch_through_sequence : Z }.

Inductive PublishRun :=
| Namespace (events : list MountEvent) (through_sequence : Z)
| Content (events : list MountEvent) (through_sequence : Z)
| Cursor (through_sequence : Z).

Record RecoveryState := MkRecoveryState {
  rs_epoch : string;
  rs_acknowledged_sequence : Z;
  rs_remote_revision : Z;
  rs_tree_generation : Z;
  rs_committed_unacknowledged : list MountEvent;
  rs_unresolved_prepares : list MountEvent;
  rs_dirty_content_paths : list string;
}.

Record CompactionOutcome := MkOutcome {
  removed_log_generations : Z;
  removed_payload_files : Z;
  reclaimed_bytes : Z;
}.

Inductive StoragePressure := PressureNone | PressureSoft | PressureHard.

Definition blocks_content (p : StoragePressure) : bool :=
  match p with PressureHard => true | _ => false end.

Definition encode_pressure (level : StoragePressure) : Z :=
  match level with PressureNone => 0 | PressureSoft => 1 | PressureHard => 2 end.

Definition decode_pressure (level : Z) : StoragePressure :=
  if (level =? 1)%Z then PressureSoft else if (level =? 2)%Z then PressureHard else PressureNone.

(** ** Path sets *)

Definition is_at_or_below (path prefix : string) : bool :=
  String.eqb path prefix
  || (Nat.ltb (String.length prefix) (String.length path)
      && starts_with prefix path
      && (match String.get (String.length prefix) path with
          | Some c => Ascii.eqb c slash
          | None => false
          end)).

(** The matched paths, in the order of the set, then one removal each. *)
Definition matched_below (dirty : gset string) (prefix : string) : list string :=
  List.filter (fun path => is_at_or_below path prefix) (sorted_strings dirty).

Definition remove_subtree (dirty : gset string) (prefix : string) : gset string :=
  foldl (fun d path => d ∖ {[path]}) dirty (matched_below dirty prefix).

Definition retarget_subtree (dirty : gset string) (old_prefix new_prefix : string) : gset string :=
  foldl
    (fun d path =>
       (d ∖ {[path]}) ∪ {[new_prefix +:+ str_drop (String.length old_prefix) path]})
    dirty (matched_below dirty old_prefix).

Definition apply_committed_dirty_effect (dirty : gset string) (m : MountMutation) : gset string :=
  match m with
  | ReplaceFile path _ _ _ | AppendFile path _ _ _ _ _ | RemoveFile path _ => dirty ∖ {[path]}
  | RemoveDirectory path => remove_subtree dirty path
  | Rename old_path new_path _ => retarget_subtree dirty old_path new_path
  | _ => dirty
  end.

Definition mutation_removes_path (m : MountMutation) (path : string) : bool :=
  match m with
  | RemoveFile removed _ => String.eqb path removed
  | RemoveDirectory removed => is_at_or_below path removed
  | Rename old_path _ _ => is_at_or_below path old_path
  | _ => false
  end.

(** ** Lemmas: path sets *)

Lemma get_length_app (s t : string) : String.get (String.length s) (s +:+ t) = String.get 0 t.
Proof. induction s as [|a s IH]; [done|]. by rewrite str_app_cons. Qed.

(** At or below is prefixing by whole components. *)
Lemma is_at_or_below_spec path prefix :
  is_at_or_below path prefix = true <->
  path = prefix \/ exists rest, path = prefix +:+ "/" +:+ rest.
Proof.
  unfold is_at_or_below. rewrite orb_true_iff, String.eqb_eq, !andb_true_iff.
  split; [intros [H|[[H1 H2] H3]]|intros [H|[rest ->]]]; auto.
  - right. apply starts_with_spec in H2 as [t ->]. rewrite get_length_app in H3.
    destruct t as [|c t]; [done|]. cbn in H3. apply Ascii.eqb_eq in H3 as ->. by exists t.
  - right. rewrite get_length_app, str_length_app. cbn. rewrite !str_app_cons. cbn.
    split; [split|].
    + apply Nat.ltb_lt. lia.
    + apply starts_with_spec. eauto.
    + reflexivity.
Qed.

Lemma is_at_or_below_refl p : is_at_or_below p p = true.
Proof. apply is_at_or_below_spec. auto. Qed.

Lemma is_at_or_below_trans a b c :
  is_at_or_below a b = true -> is_at_or_below b c = true -> is_at_or_below a c = true.
Proof.
  rewrite !is_at_or_below_spec. intros [->|[r ->]] [->|[s ->]]; eauto.
  right. exists (s +:+ "/" +:+ r). by rewrite !str_app_assoc.
Qed.

Lemma elem_of_matched_below dirty prefix p :
  p ∈ matched_below dirty prefix <-> p ∈ dirty /\ is_at_or_below p prefix = true.
Proof.
  unfold matched_below. by rewrite elem_of_List_filter, elem_of_sorted_strings.
Qed.

Lemma elem_of_foldl_remove l (dirty : gset string) p :
  p ∈ foldl (fun d path => d ∖ {[path]}) dirty l <-> p ∈ dirty /\ p ∉ l.
Proof.
  revert dirty; induction l as [|x l IH]; intros dirty; cbn; [set_solver|].
  rewrite IH. set_solver.
Qed.

Lemma elem_of_remove_subtree dirty prefix p :
  p ∈ remove_subtree dirty prefix <-> p ∈ dirty /\ is_at_or_below p prefix = false.
Proof.
  unfold remove_subtree. rewrite elem_of_foldl_remove, elem_of_matched_below.
  destruct (is_at_or_below p prefix); naive_solver.
Qed.

Lemma elem_of_retarget dirty old new p :
  p ∈ retarget_subtree dirty old new ->
  p ∈ dirty \/ exists q, q ∈ dirty /\ is_at_or_below q old = true
                         /\ p = new +:+ str_drop (String.length old) q.
Proof.
  unfold retarget_subtree.
  assert (forall q, q ∈ matched_below dirty old -> q ∈ dirty /\ is_at_or_below q old = true) as Hm
    by (intros q; apply elem_of_matched_below).
  assert (forall (l : list string) (d : gset string),
    (forall q, q ∈ l -> q ∈ dirty /\ is_at_or_below q old = true) ->
    p ∈ foldl (fun d path => (d ∖ {[path]}) ∪ {[new +:+ str_drop (String.length old) path]}) d l ->
    p ∈ d \/ exists q, q ∈ dirty /\ is_at_or_below q old = true
                       /\ p = new +:+ str_drop (String.length old) q) as Hfold; [|eauto].
  induction l as [|x l IH]; intros d Hl Hp; cbn in Hp; [by left|].
  destruct (IH _ ltac:(set_solver) Hp) as [H|?]; [|by right].
  apply elem_of_union in H as [H|H]; [left; set_solver|right].
  apply elem_of_singleton in H as ->. exists x. destruct (Hl x); set_solver.
Qed.

(** Renaming a subtree away: under a new name outside it, the paths below the
    old name are exactly the ones that move. *)
Lemma elem_of_retarget_iff dirty old new p :
  (forall rest, is_at_or_below (new +:+ rest) old = false) ->
  p ∈ retarget_subtree dirty old new <->
  (p ∈ dirty /\ is_at_or_below p old = false)
  \/ exists q, q ∈ dirty /\ is_at_or_below q old = true
               /\ p = new +:+ str_drop (String.length old) q.
Proof.
  intros Hnew. unfold retarget_subtree.
  assert (forall (l : list string) (d : gset string),
    (forall q, q ∈ l -> is_at_or_below q old = true) ->
    p ∈ foldl (fun d path => (d ∖ {[path]}) ∪ {[new +:+ str_drop (String.length old) path]}) d l <->
    (p ∈ d /\ p ∉ l) \/ exists q, q ∈ l /\ p = new +:+ str_drop (String.length old) q) as Hfold.
  { induction l as [|x l IH]; intros d Hl; cbn; [set_solver|].
    rewrite IH by set_solver. rewrite elem_of_union, elem_of_singleton, elem_of_difference.
    assert (p = new +:+ str_drop (String.length old) x -> p ∉ l /\ p <> x) as Hn.
    { intros ->. split; [intros Hin; specialize (Hl _ (list_elem_of_further _ _ _ Hin))
                         |intros E; specialize (Hl x ltac:(set_solver)); rewrite <- E in Hl];
        by rewrite Hnew in Hl. }
    setoid_rewrite elem_of_cons. split.
    - intros [[[[? ?]|E] ?]|(q & ? & E)]; [set_solver|right; eauto|right; eauto].
    - intros [[? ?]|(q & [E|?] & E2)]; [set_solver| |right; eauto].
      subst q. left. split; [by right|]. by apply Hn. }
  rewrite Hfold by (intros q Hq; apply elem_of_matched_below in Hq; tauto).
  setoid_rewrite elem_of_matched_below. destruct (is_at_or_below p old) eqn:E; naive_solver.
Qed.

(** ** Lemmas: valid mount paths *)

Lemma split_on_app c a b :
  split_on c (a +:+ String c b) = split_on c a ++ split_on c b.
Proof.
  induction a as [|x a IH].
  - change (EmptyString +:+ String c b) with (String c b). cbn. by rewrite Ascii.eqb_refl.
  - rewrite str_app_cons. cbn. destruct (Ascii.eqb x c); [by rewrite IH|]. rewrite IH.
    destruct (split_on c a) as [|p ps] eqn:E; [|done].
    exfalso. destruct a as [|y a]; cbn in E; [done|]. destruct (Ascii.eqb y c); [done|].
    by destruct (split_on c a).
Qed.

Lemma split_on_nonempty c a : split_on c a <> [].
Proof.
  destruct a as [|y a]; cbn; [done|]. destruct (Ascii.eqb y c); [done|]. by destruct (split_on c a).
Qed.

Definition good_first (p : string) : Prop := p <> "" /\ p <> "." /\ p <> "..".

Lemma starts_with_slash_split p first rest :
  split_on slash p = first :: rest -> p <> "" ->
  starts_with "/" p = true <-> first = "".
Proof.
  intros Hs Hp. destruct p as [|a p]; [done|]. cbn in Hs |- *. rewrite andb_true_r.
  destruct (Ascii.eqb_spec a slash) as [->|Hne].
  - injection Hs as <- <-. split; [done|]. intros _. apply Ascii.eqb_refl.
  - destruct (split_on slash p); injection Hs as <- <-; split; try done; intros H;
      apply Ascii.eqb_eq in H; by subst.
Qed.

Lemma existsb_rest rest :
  existsb (fun c => negb (is_normal c)) (flat_map (component_of false) rest) = false <->
  Forall (fun q => q <> "..") rest.
Proof.
  induction rest as [|q rest IH]; cbn; [split; [constructor|done]|].
  rewrite existsb_app, orb_false_iff, IH, Forall_cons.
  assert (existsb (fun c => negb (is_normal c)) (component_of false q) = false <-> q <> "..") as ->; [|done].
  unfold component_of. destruct (is_empty_str q) eqn:E; [by destruct q|].
  destruct (String.eqb_spec q "."); [by subst|]. destruct (String.eqb_spec q ".."); [by subst|]. done.
Qed.

(** A valid mount path starts with an ordinary component and never climbs. *)
Lemma validate_mount_path_iff p :
  validate_mount_path p = Ok tt <->
  exists first rest, split_on slash p = first :: rest /\ good_first first
                     /\ Forall (fun q => q <> "..") rest.
Proof.
  unfold validate_mount_path. destruct p as [|a p].
  { cbn. split; [done|]. intros (f & r & Hs & [Hf _] & _). by simplify_eq. }
  destruct (split_on slash (String a p)) as [|first rest] eqn:Hs; [by apply split_on_nonempty in Hs|].
  assert (starts_with "/" (String a p) = true <-> first = "") as Hab
    by (by apply (starts_with_slash_split _ _ rest)).
  change (is_empty_str (String a p)) with false. cbn [guard_err mbind result_bind].
  unfold is_absolute, path_components. rewrite Hs.
  rewrite guard_err_Ok, orb_false_iff.
  destruct (starts_with "/" (String a p)).
  - split; [intros [? _]; done|]. intros (f & r & E & [Hf _] & _). simplify_eq.
    by rewrite (proj1 Hab eq_refl) in Hf.
  - rewrite existsb_app, orb_false_iff, existsb_rest.
    assert (first <> "") as Hne by (intros E; by apply Hab in E).
    split.
    + intros (_ & H1 & H2). exists first, rest. split; [done|]. split; [|done].
      split; [done|]. split; intros E; rewrite E in H1; done.
    + intros (f & r & E & (H1 & H2 & H3) & H4). simplify_eq. split_and!; try done.
      unfold component_of. destruct (is_empty_str f) eqn:E; [by destruct f|].
      destruct (String.eqb_spec f "."); [done|]. by destruct (String.eqb_spec f "..").
Qed.

(** Moving a valid path below a new valid name keeps it valid. *)
Lemma retarget_valid p old new :
  validate_mount_path p = Ok tt -> validate_mount_path new = Ok tt ->
  is_at_or_below p old = true ->
  validate_mount_path (new +:+ str_drop (String.length old) p) = Ok tt.
Proof.
  intros Hp Hn Hb. apply is_at_or_below_spec in Hb as [->|[rest ->]].
  - rewrite <- (str_app_nil_r old) at 2. by rewrite str_drop_app, str_app_nil_r.
  - rewrite str_drop_app. apply validate_mount_path_iff in Hp as (f & r & Hs & Hf & Hr).
    apply validate_mount_path_iff in Hn as (f' & r' & Hs' & Hf' & Hr').
    apply validate_mount_path_iff.
    change ("/" +:+ rest) with (String slash rest) in *. rewrite split_on_app in Hs |- *.
    rewrite Hs'. exists f', (r' ++ split_on slash rest). split_and!; [done|done|].
    apply Forall_app. split; [done|].
    destruct (split_on slash old) as [|o os] eqn:E; [by apply split_on_nonempty in E|].
    cbn in Hs. injection Hs as _ <-. by apply Forall_app in Hr as [_ Hr].
Qed.

(** A committed mutation keeps a set of valid dirty paths valid. *)
Lemma dirty_effect_valid dirty m :
  validate m = Ok tt -> (forall p, p ∈ dirty -> validate_mount_path p = Ok tt) ->
  forall p, p ∈ apply_committed_dirty_effect dirty m -> validate_mount_path p = Ok tt.
Proof.
  intros Hv Hd p. destruct m; cbn; try (intros; apply Hd; set_solver).
  - intros Hp. apply elem_of_retarget in Hp as [Hp|(q & Hq & Hb & ->)]; [auto|].
    apply retarget_valid; [auto| |done].
    unfold validate in Hv. inv_ok Hv. cbn in Hx.
    destruct (validate_mount_path old_path); [|done].
    destruct (validate_mount_path new_path) as [[]|]; [done|done].
  - intros Hp. apply elem_of_remove_subtree in Hp as [? _]. auto.
Qed.

(** What a committed mutation does to the set of paths to re-seal, exactly:
    a content generation or a file removal takes the path out, removing a
    directory takes its whole subtree out, a rename moves the subtree to the new
    name and leaves every other path alone, and nothing else changes the set. *)
Theorem dirty_effect_exact dirty m p :
  (forall old new flags, m = Rename old new flags -> forall rest, is_at_or_below (new +:+ rest) old = false) ->
  p ∈ apply_committed_dirty_effect dirty m <->
  match m with
  | ReplaceFile path _ _ _ | AppendFile path _ _ _ _ _ | RemoveFile path _ => p ∈ dirty /\ p <> path
  | RemoveDirectory path => p ∈ dirty /\ ~ (p = path \/ exists rest, p = path +:+ "/" +:+ rest)
  | Rename old new _ =>
      (p ∈ dirty /\ ~ (p = old \/ exists rest, p = old +:+ "/" +:+ rest))
      \/ (p = new /\ old ∈ dirty)
      \/ exists rest, p = new +:+ "/" +:+ rest /\ old +:+ "/" +:+ rest ∈ dirty
  | _ => p ∈ dirty
  end.
Proof.
  intros Hn. destruct m; cbn [apply_committed_dirty_effect]; try set_solver.
  - rewrite elem_of_retarget_iff by eauto. rewrite <- is_at_or_below_spec, not_true_iff_false.
    apply or_iff_compat_l. split.
    + intros (q & Hq & Hb & ->). apply is_at_or_below_spec in Hb as [->|[rest ->]].
      * left. rewrite <- (str_app_nil_r old_path) at 2. by rewrite str_drop_app, str_app_nil_r.
      * right. exists rest. by rewrite str_drop_app.
    + intros [[-> Hd]|(rest & -> & Hd)].
      * exists old_path. split_and!; [done|apply is_at_or_below_spec; by left|].
        rewrite <- (str_app_nil_r old_path) at 2. by rewrite str_drop_app, str_app_nil_r.
      * eexists. split_and!; [done|apply is_at_or_below_spec; right; eauto|]. by rewrite str_drop_app.
  - by rewrite elem_of_remove_subtree, <- is_at_or_below_spec, not_true_iff_false.
Qed.

Lemma dirty_effect_exact_witness :
  "c/x" ∈ apply_committed_dirty_effect {["a/x"; "ab"]} (Rename "a" "c" 0)
  /\ "ab" ∈ apply_committed_dirty_effect {["a/x"; "ab"]} (Rename "a" "c" 0).
Proof.
  split; apply (dirty_effect_exact {["a/x"; "ab"]} (Rename "a" "c" 0)).
  1,3: intros old new flags [= <- <- <-] rest; unfold is_at_or_below; cbn; by rewrite andb_false_r.
  - right. right. exists "x". split; [reflexivity|]. set_solver.
  - left. split; [set_solver|]. intros [[=]|[rest [=]]].
Defined.
