(* ===== verification/WalReplay.v ===== *)
(** * Replay of the mount log

    The recovery half of [sandbox/vmd/src/fuse/local_view/wal.rs]: scanning the
    bytes of one log generation, applying a scanned record, validating the
    result, planning which generations to read, reconciling the ownership epoch
    and rebuilding the in-memory index. *)

From S2P Require Import Prelude MountTypes WalTypes.
From Stdlib Require Import ZArith Lia.

Record PreparedRecord := MkPrepared {
  pr_event : MountEvent;
  pr_generation : Z;
  pr_offset : Z;
}.
Global Instance PreparedRecord_eq_dec : EqDecision PreparedRecord.
Proof. solve_decision. Defined.

Definition set_record_identity (id : option string) (r : PreparedRecord) : PreparedRecord :=
  MkPrepared (set_local_identity id r.(pr_event)) r.(pr_generation) r.(pr_offset).

Record ScanState := MkScan {
  sc_epoch : option string;
  sc_prepared : gmap Z PreparedRecord;
  sc_committed : gset Z;
  sc_aborted : gset Z;
  sc_acknowledged_sequence : Z;
  sc_remote_revision : Z;
  sc_dirty_content : gset string;
  sc_first_unpruned_sequence : Z;
}.

(** [ScanState::default()] with its first unpruned sequence and seeded dirty set. *)
Definition scan_seed (first_unpruned : Z) (dirty : gset string) : ScanState :=
  MkScan None ∅ ∅ ∅ 0 0 dirty first_unpruned.

Definition observe_epoch (current : option string) (epoch : string) : MResult (option string) :=
  match current with
  | Some c => if String.eqb c epoch then Ok current else Err MultipleEpochs
  | None => Ok (Some epoch)
  end.

Section replay.
Context {P : Platform} {C : RecordCodec}.

Definition apply_scanned_record (sc : ScanState) (record : WalRecord) (generation offset : Z)
  : MResult ScanState :=
  let '(MkScan ep prep com ab ack rev dirty fu) := sc in
  match record with
  | LogHeader format_version epoch recorded _ =>
      _ ← guard_err (negb (readable_wal_format format_version))
            (UnsupportedHeaderFormat format_version);
      ep ← observe_epoch ep epoch;
      _ ← guard_err (negb (recorded =? generation)%Z) (HeaderGenerationMismatch generation recorded);
      Ok (MkScan ep prep com ab ack rev dirty fu)
  | Prepared event =>
      _ ← guard_err (negb (readable_wal_format (event_format_version event)))
            (UnsupportedEventFormat (event_format_version event));
      _ ← validate (mutation event);
      _ ← validate_payload (mutation event) (payload event);
      ep ← observe_epoch ep (event_epoch event);
      if (fu <=? sequence event)%Z
      then
        _ ← guard_err (bool_decide (is_Some (prep !! sequence event)))
              (DuplicatePrepare (sequence event));
        Ok (MkScan ep (<[sequence event := MkPrepared event generation offset]> prep)
              com ab ack rev dirty fu)
      else Ok (MkScan ep prep com ab ack rev dirty fu)
  | Committed epoch seq id =>
      ep ← observe_epoch ep epoch;
      if (fu <=? seq)%Z
      then
        _ ← guard_err (bool_decide (seq ∈ ab)) (CommitsAborted seq);
        _ ← guard_err (bool_decide (seq ∈ com)) (DuplicateCommit seq);
        match prep !! seq with
        | Some r =>
            Ok (MkScan ep (<[seq := set_record_identity id r]> prep) ({[seq]} ∪ com) ab ack rev
                  (apply_committed_dirty_effect dirty (mutation r.(pr_event))) fu)
        | None => Ok (MkScan ep prep ({[seq]} ∪ com) ab ack rev dirty fu)
        end
      else Ok (MkScan ep prep com ab ack rev dirty fu)
  | Aborted epoch seq _ =>
      ep ← observe_epoch ep epoch;
      if (fu <=? seq)%Z
      then
        _ ← guard_err (bool_decide (seq ∈ com)) (AbortsCommitted seq);
        _ ← guard_err (bool_decide (seq ∈ ab)) (DuplicateAbort seq);
        Ok (MkScan ep prep com ({[seq]} ∪ ab) ack rev dirty fu)
      else Ok (MkScan ep prep com ab ack rev dirty fu)
  | ContentDirty epoch path =>
      ep ← observe_epoch ep epoch;
      _ ← validate_mount_path path;
      Ok (MkScan ep prep com ab ack rev
            (if is_local_only_content_path path then dirty else {[path]} ∪ dirty) fu)
  | RemoteAcknowledged epoch through_sequence remote_revision =>
      ep ← observe_epoch ep epoch;
      _ ← guard_err ((through_sequence <? ack)%Z || (remote_revision <? rev)%Z)
            ScannedAcknowledgementRegressed;
      Ok (MkScan ep prep com ab through_sequence remote_revision dirty fu)
  | Checkpointed epoch _ _ =>
      ep ← observe_epoch ep epoch;
      Ok (MkScan ep prep com ab ack rev dirty fu)
  end.

(** The reading loop: [buffer] holds the bytes read since the last line break,
    [offset] the end of the last complete record. *)
Fixpoint scan_loop (sc : ScanState) (generation offset : Z) (buffer input : bytes)
  : MResult (ScanState * Z) :=
  match input with
  | [] => Ok (sc, offset)
  | b :: rest =>
      let buffer := buffer ++ [b] in
      if decide (b = newline)
      then
        _ ← guard_err (MAX_RECORD_BYTES <? zlen buffer)%Z (RecordTooLarge (zlen buffer));
        record ← ok_or (from_slice buffer) (UndecodableRecord offset);
        sc ← apply_scanned_record sc record generation offset;
        scan_loop sc generation (sat_add offset (zlen buffer)) [] rest
      else scan_loop sc generation offset buffer rest
  end.

(** The scan and the end of the last complete record. *)
Definition scan_generation (sc : ScanState) (file : bytes) (generation start_offset : Z)
  : MResult (ScanState * Z) :=
  _ ← guard_err (zlen file <? start_offset)%Z (ReplayOffsetPastEnd start_offset);
  scan_loop sc generation start_offset [] (drop (Z.to_nat start_offset) file).

Definition validate_scan (sc : ScanState) : MResult unit :=
  _ ← foldM (fun _ seq => guard_err (bool_decide (sc.(sc_prepared) !! seq = None))
                            (TerminalWithoutPrepare seq))
        tt (sorted_Z sc.(sc_committed) ++ sorted_Z sc.(sc_aborted));
  foldM (fun _ seq =>
           guard_err (negb (bool_decide (seq ∈ sc.(sc_committed)) || bool_decide (seq ∈ sc.(sc_aborted))))
             (UnresolvedAcknowledged seq))
    tt (range_inclusive (Z.max sc.(sc_first_unpruned_sequence) 1) sc.(sc_acknowledged_sequence)).

(** [fresh] is what [Uuid::now_v7] would mint. *)
Definition reconcile_epoch (scanned : option string) (checkpoint : option MountCheckpoint)
    (expected : option string) (fresh : string) : MResult string :=
  durable ← match scanned, ck_epoch <$> checkpoint with
            | Some s, Some r => if String.eqb s r then Ok (Some s) else Err CheckpointEpochMismatch
            | Some s, None => Ok (Some s)
            | None, Some r => Ok (Some r)
            | None, None => Ok None
            end;
  match durable, expected with
  | Some d, Some e => if String.eqb d e then Ok d else Err CallerEpochMismatch
  | Some d, None => Ok d
  | None, Some e => if is_empty_str e then Ok fresh else Ok e
  | None, None => Ok fresh
  end.

(** [sort_unstable] followed by [dedup]. *)
Definition sort_dedup (l : list Z) : list Z := sorted_Z (list_to_set l).

Definition replay_plan (checkpoint : option MountCheckpoint) (on_disk : list Z) : MResult (list Z) :=
  match checkpoint with
  | Some ck =>
      let declared := sort_dedup
        (List.filter (fun g => ck.(ck_replay_log_generation) <=? g)%Z ck.(ck_active_log_generations)) in
      _ ← foldM (fun _ g => guard_err (negb (bool_decide (g ∈ on_disk))) (MissingGeneration g))
            tt declared;
      let highest := default ck.(ck_replay_log_generation) (last declared) in
      Ok (sort_dedup (declared ++ List.filter (fun g => highest <? g)%Z on_disk))
  | None => Ok (sort_dedup on_disk)
  end.

(** The durable state directory: the log generations, the two checkpoint
    files and the payload files with their lengths. *)
Inductive JsonFile := FileAbsent | FileUnreadable | FileJson (c : MountCheckpoint).

Record Disk := MkDisk {
  logs : gmap Z bytes;
  checkpoint_file : JsonFile;
  previous_checkpoint_file : JsonFile;
  payload_files : gmap string Z;
}.

Definition read_json (f : JsonFile) : MResult (option MountCheckpoint) :=
  match f with
  | FileAbsent => Ok None
  | FileUnreadable => Err (IoError "decode mount state file")
  | FileJson c => Ok (Some c)
  end.

Definition load_checkpoint (d : Disk) : MResult (option MountCheckpoint) :=
  let current := match read_json d.(checkpoint_file) with Ok c => c | Err _ => None end in
  checkpoint ← match current with
               | Some c => Ok (Some c)
               | None => read_json d.(previous_checkpoint_file)
               end;
  _ ← match checkpoint with Some c => MountCheckpoint_validate c | None => Ok tt end;
  Ok checkpoint.

Definition log_generations (d : Disk) : list Z := btree_keys d.(logs).

(** Scan every planned generation; a torn tail is cut off in the last one and
    refused in any other. *)
Fixpoint replay_generations (sc : ScanState) (files : gmap Z bytes) (replay_generation replay_offset : Z)
    (plan : list Z) : MResult (ScanState * gmap Z bytes) :=
  match plan with
  | [] => Ok (sc, files)
  | g :: rest =>
      file ← ok_or (files !! g) (MissingGeneration g);
      scanned ← scan_generation sc file g (if (g =? replay_generation)%Z then replay_offset else 0%Z);
      let '(sc, complete) := scanned in
      if (complete <? zlen file)%Z
      then match rest with
           | [] => Ok (sc, <[g := take (Z.to_nat complete) file]> files)
           | _ => Err (TornInteriorRecord g)
           end
      else replay_generations sc files replay_generation replay_offset rest
  end.

Definition seed_dirty (checkpoint : option MountCheckpoint) : MResult (gset string) :=
  match checkpoint with
  | Some ck =>
      foldM (fun dirty path =>
               _ ← validate_mount_path path;
               Ok (if is_local_only_content_path path then dirty else {[path]} ∪ dirty))
        ∅ ck.(ck_dirty_content_paths)
  | None => Ok ∅
  end.

(** The acknowledgement cursor and remote revision, from the scan and the
    checkpoint. *)
Definition merge_cursor (checkpoint : option MountCheckpoint) (sc : ScanState) : Z * Z :=
  match checkpoint with
  | Some ck =>
      if (sc.(sc_acknowledged_sequence) <? ck.(ck_acknowledged_sequence))%Z
      then (ck.(ck_acknowledged_sequence), ck.(ck_remote_revision))
      else if (ck.(ck_acknowledged_sequence) =? sc.(sc_acknowledged_sequence))%Z
      then (sc.(sc_acknowledged_sequence), Z.max sc.(sc_remote_revision) ck.(ck_remote_revision))
      else (sc.(sc_acknowledged_sequence), sc.(sc_remote_revision))
  | None => (sc.(sc_acknowledged_sequence), sc.(sc_remote_revision))
  end.

Definition set_cursor (cursor : Z * Z) (sc : ScanState) : ScanState :=
  let '(MkScan ep prep com ab _ _ dirty fu) := sc in MkScan ep prep com ab cursor.1 cursor.2 dirty fu.

(** Keep the unacknowledged backlog only. *)
Definition retain_backlog (sc : ScanState) : ScanState :=
  let '(MkScan ep prep com ab ack rev dirty fu) := sc in
  let retain := sat_add ack 1 in
  if (fu <? retain)%Z
  then MkScan ep (map_split_off prep retain) (set_split_off com retain) (set_split_off ab retain)
         ack rev dirty retain
  else sc.

(** Committed payload bytes, in sequence order. *)
Definition sum_pending (prepared : gmap Z PreparedRecord) (committed : gset Z) : Z :=
  foldl (fun acc seq =>
           match prepared !! seq with
           | Some r =>
               if decide (seq ∈ committed) then
                 match payload r.(pr_event) with Some p => sat_add acc (length_ p) | None => acc end
               else acc
           | None => acc
           end) 0%Z (btree_keys prepared).

Definition referenced_payloads (prepared : gmap Z PreparedRecord) : gset string :=
  list_to_set (omap (fun r => (fun p => storage_file (storage p)) <$> payload r.(pr_event))
                 (btree_values prepared)).

(** [prepared.keys().next_back()], else the cursor, then one more. *)
Definition recovered_next_sequence (sc : ScanState) : MResult Z :=
  let top := default sc.(sc_acknowledged_sequence) (last (btree_keys sc.(sc_prepared))) in
  ok_or (checked_add (Z.max top sc.(sc_acknowledged_sequence)) 1) SequenceExhausted.

(** What [open] knows once replay is finished: the checkpoint, the plan, the
    epoch, the files after truncation and the rebuilt index. *)
Record Replayed := MkReplayed {
  rp_checkpoint : option MountCheckpoint;
  rp_plan : list Z;
  rp_epoch : string;
  rp_files : gmap Z bytes;
  rp_scan : ScanState;
  rp_next_sequence : Z;
}.

Definition replay (d : Disk) (expected_epoch : option string) (fresh : string) : MResult Replayed :=
  checkpoint ← load_checkpoint d;
  let on_disk := log_generations d in
  let first_unpruned :=
    match checkpoint with Some ck => Z.max ck.(ck_first_unpruned_sequence) 1 | None => 1%Z end in
  dirty ← seed_dirty checkpoint;
  plan ← replay_plan checkpoint on_disk;
  let replay_generation :=
    match checkpoint with
    | Some ck => ck.(ck_replay_log_generation)
    | None => default 0%Z (head plan)
    end in
  let replay_offset :=
    match checkpoint with Some ck => ck.(ck_replay_log_offset) | None => 0%Z end in
  scanned ← replay_generations (scan_seed first_unpruned dirty) d.(logs)
              replay_generation replay_offset plan;
  let '(sc, files) := scanned in
  epoch ← reconcile_epoch sc.(sc_epoch) checkpoint expected_epoch fresh;
  let sc := set_cursor (merge_cursor checkpoint sc) sc in
  _ ← validate_scan sc;
  let sc := retain_backlog sc in
  next ← recovered_next_sequence sc;
  Ok (MkReplayed checkpoint plan epoch files sc next).

End replay.
