(* ===== verification/Wal.v ===== *)
(** * The write-ahead log of a mount

    [MountWal] of [sandbox/vmd/src/fuse/local_view/wal.rs]: the append critical
    section, the prepare/commit/abort protocol, the dirty set, group sync,
    cursors, acknowledgement, recovery resolution, checkpoints, rotation and
    compaction. Every operation is a function on [Wal], the in-memory state with
    the state directory it writes; errors keep the state the operation had
    reached. The outcomes of the system calls are read from the stream [io]. *)

From S2P Require Import Prelude MountTypes WalTypes WalReplay.
From Stdlib Require Import ZArith Lia.

(** ** State *)

(** The open log file: the generation it is, whether it was opened with
    [O_APPEND] ([open_append]) or without ([create_new]), and its position. *)
Record LogFile := MkLogFile { lf_generation : Z; lf_append : bool; lf_cursor : Z }.

(** [AppendState], in three groups: the active log file, the index, and what
    checkpoints and compaction keep. *)
Record LogPart := MkLog {
  file : LogFile;
  pending_sync : list Z;
  generation : Z;
  generation_len : Z;
  appended_bytes : Z;
  poisoned : option string;
}.

Record IndexPart := MkIndex {
  next_sequence : Z;
  prepared : gmap Z PreparedRecord;
  committed : gset Z;
  aborted : gset Z;
  acknowledged_sequence : Z;
  remote_revision : Z;
  first_unpruned_sequence : Z;
  dirty_content : gset string;
  pending_payload_bytes : Z;
}.

Record MaintPart := MkMaint {
  tree_generation : Z;
  checkpoint_id : Z;
  active_generations : gset Z;
  events_since_checkpoint : Z;
  last_checkpoint : option MountCheckpoint;
  reclaim_candidates : gset string;
  compaction_pending : bool;
}.

Record AppendState := MkAppendState { log : LogPart; index : IndexPart; maint : MaintPart }.

Record SyncState := MkSync {
  durable_sequence : Z;
  durable_bytes : Z;
  round : Z;
  in_flight : bool;
}.

(** How a system call ends. A failed append may have landed a prefix of its
    bytes; the file length may then be unreadable, and cutting the file back may
    fail in either of its two calls. *)
Inductive Rollback := RolledBack | SetLenFailed | RollbackSyncFailed.
Inductive IoOutcome :=
| IoOk
| IoStatFailed
| IoFailed (landed : nat) (stat_ok : bool) (rollback : Rollback).

Record Wal := MkWal {
  w_epoch : string;
  w_state : AppendState;
  w_sync : SyncState;
  w_disk : Disk;
  (** payload files the payload store still writes to *)
  w_pinned : gset string;
  (** bytes of each generation proven on the device *)
  w_durable : gmap Z Z;
  w_io : list IoOutcome;
}.

(** ** The state and error monad *)

Definition M (A : Type) : Type := Wal -> Wal * MResult A.
Global Instance M_ret : MRet M := fun A a w => (w, Ok a).
Global Instance M_bind : MBind M :=
  fun A B f m w => match m w with (w', Ok a) => f a w' | (w', Err e) => (w', Err e) end.

Definition lift {A} (r : MResult A) : M A := fun w => (w, r).
Definition fail {A} (e : MountError) : M A := fun w => (w, Err e).
Definition bail_if (b : bool) (e : MountError) : M unit := lift (guard_err b e).
Definition gets {A} (f : Wal -> A) : M A := fun w => (w, Ok (f w)).
Definition modify (f : Wal -> Wal) : M unit := fun w => (f w, Ok tt).

(** Field updates. *)
Definition with_state (f : AppendState -> AppendState) (w : Wal) : Wal :=
  MkWal w.(w_epoch) (f w.(w_state)) w.(w_sync) w.(w_disk) w.(w_pinned) w.(w_durable) w.(w_io).
Definition with_sync (f : SyncState -> SyncState) (w : Wal) : Wal :=
  MkWal w.(w_epoch) w.(w_state) (f w.(w_sync)) w.(w_disk) w.(w_pinned) w.(w_durable) w.(w_io).
Definition with_disk (f : Disk -> Disk) (w : Wal) : Wal :=
  MkWal w.(w_epoch) w.(w_state) w.(w_sync) (f w.(w_disk)) w.(w_pinned) w.(w_durable) w.(w_io).
Definition with_durable (f : gmap Z Z -> gmap Z Z) (w : Wal) : Wal :=
  MkWal w.(w_epoch) w.(w_state) w.(w_sync) w.(w_disk) w.(w_pinned) (f w.(w_durable)) w.(w_io).
Definition with_io (io : list IoOutcome) (w : Wal) : Wal :=
  MkWal w.(w_epoch) w.(w_state) w.(w_sync) w.(w_disk) w.(w_pinned) w.(w_durable) io.
Definition with_log (f : LogPart -> LogPart) : Wal -> Wal :=
  with_state (fun s => MkAppendState (f s.(log)) s.(index) s.(maint)).
Definition with_index (f : IndexPart -> IndexPart) : Wal -> Wal :=
  with_state (fun s => MkAppendState s.(log) (f s.(index)) s.(maint)).
Definition with_maint (f : MaintPart -> MaintPart) : Wal -> Wal :=
  with_state (fun s => MkAppendState s.(log) s.(index) (f s.(maint))).

Definition w_log (w : Wal) : LogPart := w.(w_state).(log).
Definition w_index (w : Wal) : IndexPart := w.(w_state).(index).
Definition w_maint (w : Wal) : MaintPart := w.(w_state).(maint).
Definition log_bytes_of (w : Wal) (g : Z) : bytes := default [] (w.(w_disk).(logs) !! g).

Definition set_logs (f : gmap Z bytes -> gmap Z bytes) (d : Disk) : Disk :=
  MkDisk (f d.(logs)) d.(checkpoint_file) d.(previous_checkpoint_file) d.(payload_files).

(** The next system call outcome; the stream is padded with success. *)
Definition next_io : M IoOutcome :=
  fun w => match w.(w_io) with
           | [] => (w, Ok IoOk)
           | o :: rest => (with_io rest w, Ok o)
           end.

(** A call that only succeeds or fails. *)
Definition io_step (what : string) : M unit :=
  o ← next_io; match o with IoOk => mret tt | _ => fail (IoError what) end.

(** ** Files *)

(** [write_all] writes at the end of the file when it is append-only, at the
    position otherwise. *)
Definition write_position (f : LogFile) (content : bytes) : nat :=
  if f.(lf_append) then length content else Z.to_nat f.(lf_cursor).

(** Write [data] through the active file, moving its position. *)
Definition file_write (data : bytes) : M unit :=
  fun w =>
    let f := (w_log w).(file) in
    let content := log_bytes_of w f.(lf_generation) in
    let pos := write_position f content in
    (with_log (fun l => MkLog (MkLogFile f.(lf_generation) f.(lf_append) (Z.of_nat (pos + length data)))
                          l.(pending_sync) l.(generation) l.(generation_len) l.(appended_bytes) l.(poisoned))
       (with_disk (set_logs <[f.(lf_generation) := write_at content pos data]>) w), Ok tt).

(** [write_all] only fails with some of its bytes unwritten. *)
Definition partial_write (landed : nat) (buffer : bytes) : bytes :=
  take (Nat.min landed (length buffer - 1)) buffer.

Definition file_len (w : Wal) : Z := zlen (log_bytes_of w (w_log w).(file).(lf_generation)).

(** [set_len]: cut the active file; its position does not move. *)
Definition set_len (len : Z) : M unit :=
  modify (fun w =>
    let g := (w_log w).(file).(lf_generation) in
    with_disk (set_logs <[g := take (Z.to_nat len) (log_bytes_of w g)]>) w).

Definition set_generation_len (len : Z) : M unit :=
  modify (with_log (fun l => MkLog l.(file) l.(pending_sync) l.(generation) len l.(appended_bytes)
                               l.(poisoned))).

Definition poison (reason : string) : M unit :=
  modify (with_log (fun l => MkLog l.(file) l.(pending_sync) l.(generation) l.(generation_len)
                               l.(appended_bytes) (Some reason))).

(** [PayloadSource] with the outcome of its capture by the payload store. *)
Abbreviation PayloadSource := (option (MResult PayloadRef)).

Section wal.
Context {P : Platform} {C : RecordCodec}.

(** ** Appending *)

(** The buffer [append_record] writes. *)
Definition framed (record : WalRecord) : bytes := to_vec record ++ [newline].

(** The error branch of [append_framed]. *)
Definition append_error {A} (offset : Z) (error : MountError) (stat_ok : bool) (rb : Rollback) : M A :=
  written ← gets (fun w => if stat_ok then file_len w else offset);
  if (written <=? offset)%Z then fail error
  else match rb with
       | RolledBack => set_len offset ;; set_generation_len offset ;; fail error
       | SetLenFailed => poison "partial record could not be rolled back" ;; fail error
       | RollbackSyncFailed =>
           set_len offset ;; poison "partial record could not be rolled back" ;; fail error
       end.

Definition append_framed (record : WalRecord) : M Z :=
  l ← gets w_log;
  bail_if (bool_decide (is_Some l.(poisoned))) (WalPoisoned l.(generation)) ;;
  let offset := l.(generation_len) in
  let buffer := framed record in
  o ← next_io;
  if (MAX_RECORD_BYTES <? zlen buffer)%Z
  then match o with
       | IoFailed _ stat_ok rb => append_error offset (RecordTooLarge (zlen buffer)) stat_ok rb
       | _ => append_error offset (RecordTooLarge (zlen buffer)) true RolledBack
       end
  else match o with
       | IoOk =>
           file_write buffer ;;
           length ← gets file_len;
           modify (with_log (fun l =>
             MkLog l.(file) l.(pending_sync) l.(generation) length
               (sat_add l.(appended_bytes) (sat_sub length offset)) l.(poisoned))) ;;
           mret offset
       | IoStatFailed => file_write buffer ;; fail (IoError "stat mount WAL generation")
       | IoFailed landed stat_ok rb =>
           file_write (partial_write landed buffer) ;; append_error offset AppendFailed stat_ok rb
       end.

(** ** The mutation protocol *)

Definition colon_key (epoch : string) (seq : Z) : string := epoch +:+ ":" +:+ pretty seq.

Definition prepare (m : MountMutation) (source : PayloadSource) (pre : MountPreImage) : M MountEvent :=
  lift (validate m) ;;
  let supplied := bool_decide (is_Some source) in
  bail_if (negb (Bool.eqb (requires_payload m) supplied)) (PayloadMismatch (requires_payload m) supplied) ;;
  captured ← match source with
             | None => mret None
             | Some r => lift (p ← r; Ok (Some p))
             end;
  lift (validate_payload m captured) ;;
  epoch ← gets w_epoch;
  seq ← gets (fun w => (w_index w).(next_sequence));
  let event := MkEvent WAL_FORMAT_VERSION epoch seq (colon_key epoch seq) m captured pre None [] in
  offset ← append_framed (Prepared event);
  g ← gets (fun w => (w_log w).(generation));
  modify (with_index (fun i =>
    MkIndex i.(next_sequence) (<[seq := MkPrepared event g offset]> i.(prepared)) i.(committed)
      i.(aborted) i.(acknowledged_sequence) i.(remote_revision) i.(first_unpruned_sequence)
      i.(dirty_content) i.(pending_payload_bytes))) ;;
  next ← lift (ok_or (checked_add seq 1) SequenceExhausted);
  modify (with_index (fun i =>
    MkIndex next i.(prepared) i.(committed)
      i.(aborted) i.(acknowledged_sequence) i.(remote_revision) i.(first_unpruned_sequence)
      i.(dirty_content) i.(pending_payload_bytes))) ;;
  mret event.

Definition bump_events : M unit :=
  modify (with_maint (fun m =>
    MkMaint m.(tree_generation) m.(checkpoint_id) m.(active_generations)
      (sat_add m.(events_since_checkpoint) 1) m.(last_checkpoint) m.(reclaim_candidates)
      m.(compaction_pending))).

(** The index after a commit record of [seq] landed. *)
Definition index_commit (seq : Z) (id : option string) (event : MountEvent) (set_id : bool)
    (i : IndexPart) : IndexPart :=
  MkIndex i.(next_sequence)
    (if set_id then alter (set_record_identity id) seq i.(prepared) else i.(prepared))
    ({[seq]} ∪ i.(committed)) i.(aborted)
    i.(acknowledged_sequence) i.(remote_revision) i.(first_unpruned_sequence)
    (apply_committed_dirty_effect i.(dirty_content) (mutation event))
    (sat_add i.(pending_payload_bytes) (payload_length event)).

Definition index_abort (seq : Z) (i : IndexPart) : IndexPart :=
  MkIndex i.(next_sequence) i.(prepared) i.(committed) ({[seq]} ∪ i.(aborted))
    i.(acknowledged_sequence) i.(remote_revision) i.(first_unpruned_sequence)
    i.(dirty_content) i.(pending_payload_bytes).

Definition commit (token : MountEvent) (id : option string) : M unit :=
  i ← gets w_index;
  let seq := sequence token in
  stored ← lift (ok_or (i.(prepared) !! seq) (UnknownPrepared seq));
  bail_if (negb (bool_decide (stored.(pr_event) = token))) (PreparedMismatch seq) ;;
  bail_if (bool_decide (seq ∈ i.(aborted))) (AlreadyAborted seq) ;;
  if bool_decide (seq ∈ i.(committed)) then mret tt
  else
    epoch ← gets w_epoch;
    append_framed (Committed epoch seq id) ;;
    bump_events ;;
    modify (with_index (index_commit seq id token true)).

Definition abort (token : MountEvent) (reason : string) : M unit :=
  i ← gets w_index;
  let seq := sequence token in
  stored ← lift (ok_or (i.(prepared) !! seq) (UnknownPrepared seq));
  bail_if (negb (bool_decide (stored.(pr_event) = token))) (PreparedMismatch seq) ;;
  bail_if (bool_decide (seq ∈ i.(committed))) (AlreadyCommitted seq) ;;
  if bool_decide (seq ∈ i.(aborted)) then mret tt
  else
    epoch ← gets w_epoch;
    append_framed (Aborted epoch seq reason) ;;
    modify (with_index (index_abort seq)) ;;
    bump_events.

(** ** The dirty set *)

Definition set_dirty (f : gset string -> gset string) : M unit :=
  modify (with_index (fun i =>
    MkIndex i.(next_sequence) i.(prepared) i.(committed) i.(aborted) i.(acknowledged_sequence)
      i.(remote_revision) i.(first_unpruned_sequence) (f i.(dirty_content)) i.(pending_payload_bytes))).

Definition record_content_dirty (path : string) : M bool :=
  lift (validate_mount_path path) ;;
  if is_local_only_content_path path then mret false
  else
    i ← gets w_index;
    if bool_decide (path ∈ i.(dirty_content)) then mret false
    else
      epoch ← gets w_epoch;
      append_framed (ContentDirty epoch path) ;;
      set_dirty (fun d => {[path]} ∪ d) ;;
      mret true.

Definition clear_content_dirty (path : string) : M unit := set_dirty (fun d => d ∖ {[path]}).

Definition rename_content_dirty (old_path new_path : string) : M unit :=
  lift (validate_mount_path old_path) ;;
  lift (validate_mount_path new_path) ;;
  set_dirty (fun d => retarget_subtree d old_path new_path).

Definition dirty_content_paths (w : Wal) : list string := sorted_strings (w_index w).(dirty_content).

(** ** Cursors *)

Definition last_appended_sequence (w : Wal) : Z := sat_sub (w_index w).(next_sequence) 1.
Definition last_committed_sequence (w : Wal) : Z :=
  default (w_index w).(acknowledged_sequence) (last (sorted_Z (w_index w).(committed))).
Definition pending_publication_depth (w : Wal) : Z := Z.of_nat (size (w_index w).(committed)).

(** The walk over the committed suffix, shared shape of the two successor
    queries: [next_sequence - sequence] bounds the iterations. *)
Fixpoint removes_loop (i : IndexPart) (keys : list DependencyKey) (path : string)
    (fuel : nat) (seq : Z) : bool :=
  match fuel with
  | O => false
  | S fuel =>
      if (seq <? i.(next_sequence))%Z
      then
        if bool_decide (seq ∈ i.(aborted)) then removes_loop i keys path fuel (sat_add seq 1)
        else match i.(prepared) !! seq with
             | None => false
             | Some r =>
                 if negb (bool_decide (seq ∈ i.(committed))) then false
                 else if is_local_only (mutation r.(pr_event))
                         || negb (dependency_sets_conflict keys (event_dependency_keys r.(pr_event)))
                 then removes_loop i keys path fuel (sat_add seq 1)
                 else mutation_removes_path (mutation r.(pr_event)) path
             end
      else false
  end.

Definition committed_successor_removes_primary_path (i : IndexPart) (event : MountEvent) : bool :=
  let first := sat_add (sequence event) 1 in
  removes_loop i (event_dependency_keys event) (primary_path (mutation event))
    (Z.to_nat (i.(next_sequence) - first)) first.

Inductive ContentSuccessor := At (path : string) | Superseded (aliased : bool).

(** One committed event of the walk: [None] ends it as superseded. *)
Definition successor_step (current : string) (aliased : bool) (m : MountMutation)
  : option (string * bool) :=
  match m with
  | ReplaceFile path _ _ _ | RemoveFile path _ =>
      if String.eqb path current then None else Some (current, aliased)
  | RemoveDirectory path => if is_at_or_below current path then None else Some (current, aliased)
  | Rename old_path new_path _ =>
      if is_at_or_below current old_path
      then Some (new_path +:+ str_drop (String.length old_path) current, aliased)
      else if is_at_or_below current new_path then None else Some (current, aliased)
  | CreateHardLink existing_path _ => Some (current, aliased || String.eqb existing_path current)
  | _ => Some (current, aliased)
  end.

Fixpoint successor_loop (i : IndexPart) (current : string) (aliased : bool) (fuel : nat) (seq : Z)
  : ContentSuccessor :=
  match fuel with
  | O => At current
  | S fuel =>
      if (seq <? i.(next_sequence))%Z
      then
        if bool_decide (seq ∈ i.(aborted)) then successor_loop i current aliased fuel (sat_add seq 1)
        else match i.(prepared) !! seq with
             | None => At current
             | Some r =>
                 if negb (bool_decide (seq ∈ i.(committed))) then At current
                 else match successor_step current aliased (mutation r.(pr_event)) with
                      | None => Superseded aliased
                      | Some (current, aliased) =>
                          successor_loop i current aliased fuel (sat_add seq 1)
                      end
             end
      else At current
  end.

Definition content_successor (i : IndexPart) (path : string) (after_sequence : Z) : ContentSuccessor :=
  let first := sat_add after_sequence 1 in
  successor_loop i path false (Z.to_nat (i.(next_sequence) - first)) first.

(** ** Group sync *)

(** Sync the handles in order; the ones from the first failure on are returned. *)
Fixpoint sync_handles (handles : list Z) : M (list Z) :=
  match handles with
  | [] => mret []
  | g :: rest =>
      o ← next_io;
      match o with
      | IoOk =>
          modify (fun w => with_durable <[g := zlen (log_bytes_of w g)]> w) ;;
          sync_handles rest
      | _ => mret (g :: rest)
      end
  end.

Definition set_pending_sync (f : list Z -> list Z) : M unit :=
  modify (with_log (fun l => MkLog l.(file) (f l.(pending_sync)) l.(generation) l.(generation_len)
                               l.(appended_bytes) l.(poisoned))).

(** The last handle is the active generation, which the state already owns. *)
Definition restore_pending_sync (handles : list Z) : M unit :=
  set_pending_sync (fun pending => removelast handles ++ pending).

Definition run_sync_round : M (Z * Z) :=
  l ← gets w_log;
  set_pending_sync (fun _ => []) ;;
  let handles := l.(pending_sync) ++ [l.(file).(lf_generation)] in
  seq ← gets last_appended_sequence;
  payloads ← next_io;
  match payloads with
  | IoOk =>
      unsynced ← sync_handles handles;
      match unsynced with
      | [] => mret (seq, l.(appended_bytes))
      | _ => restore_pending_sync unsynced ;; fail (IoError "sync mount WAL generation")
      end
  | _ => restore_pending_sync handles ;; fail (IoError "sync mount payloads")
  end.

(** One caller's path through the group commit when no round is in flight. *)
Definition sync_watermark (seq bytes_ : Z) : M Z :=
  s ← gets w_sync;
  if (seq <=? s.(durable_sequence))%Z && (bytes_ <=? s.(durable_bytes))%Z
  then mret s.(durable_sequence)
  else
    fun w =>
      let '(w, outcome) := run_sync_round w in
      match outcome with
      | Ok (ds, db) =>
          let s := w.(w_sync) in
          let ds := Z.max s.(durable_sequence) ds in
          (with_sync (fun s => MkSync ds (Z.max s.(durable_bytes) db) (as_u64 (s.(round) + 1)) false) w,
           Ok ds)
      | Err e =>
          (with_sync (fun s => MkSync s.(durable_sequence) s.(durable_bytes)
                                 (as_u64 (s.(round) + 1)) false) w, Err e)
      end.

Definition sync_through (seq : Z) : M Z := sync_watermark seq 0.

Definition sync_local : M Z :=
  seq ← gets last_appended_sequence;
  bytes_ ← gets (fun w => (w_log w).(appended_bytes));
  sync_watermark seq bytes_.

(** ** Checkpoints *)

(** The checkpoint document of the current state. *)
Definition build_checkpoint (w : Wal) (tree_gen : Z) : MountCheckpoint :=
  let i := w_index w in
  let m := w_maint w in
  let l := w_log w in
  let point := match btree_values i.(prepared) with
               | r :: _ => (r.(pr_generation), r.(pr_offset))
               | [] => (l.(generation), l.(generation_len))
               end in
  let active := {[point.1]} ∪ ({[l.(generation)]}
                  ∪ filter (fun g => (point.1 <= g)%Z) m.(active_generations)) in
  MkCheckpoint WAL_FORMAT_VERSION w.(w_epoch) (sat_add m.(checkpoint_id) 1)
    i.(acknowledged_sequence) i.(remote_revision) tree_gen
    (Z.max i.(first_unpruned_sequence) 1) point.1 point.2
    (sorted_Z active) (sorted_strings (referenced_payloads i.(prepared)))
    (sorted_strings i.(dirty_content)).

(** Segments the previous checkpoint named and this one does not. *)
Definition stale_segments (previous : option MountCheckpoint) (ck : MountCheckpoint) : gset string :=
  match previous with
  | Some p => list_to_set (List.filter (fun n => negb (bool_decide (n ∈ ck.(ck_active_segments))))
                             p.(ck_active_segments))
  | None => ∅
  end.

Definition set_checkpoint_ids (tree_gen id : Z) : M unit :=
  modify (with_maint (fun m =>
    MkMaint tree_gen id m.(active_generations) m.(events_since_checkpoint) m.(last_checkpoint)
      m.(reclaim_candidates) m.(compaction_pending))).

Definition install_checkpoint (ck : MountCheckpoint) : M unit :=
  modify (with_maint (fun m =>
    MkMaint m.(tree_generation) m.(checkpoint_id)
      (list_to_set ck.(ck_active_log_generations)) 0 (Some ck)
      (m.(reclaim_candidates) ∪ stale_segments m.(last_checkpoint) ck) m.(compaction_pending))).

(** [write_json_atomic]: anything that fails up to the rename leaves the target as it
    was; the rename replaces it, and the sync of the directory after it may fail. *)
Definition write_json_atomic (replace : Disk -> Disk) : M unit :=
  io_step "publish mount state file" ;;
  modify (with_disk replace) ;;
  io_step "sync mount state directory".

Definition write_checkpoint_file (ck : MountCheckpoint) : M unit :=
  write_json_atomic (fun d => MkDisk d.(logs) (FileJson ck) d.(previous_checkpoint_file) d.(payload_files)).

Definition write_previous_checkpoint_file (ck : MountCheckpoint) : M unit :=
  write_json_atomic (fun d => MkDisk d.(logs) d.(checkpoint_file) (FileJson ck) d.(payload_files)).

Definition checkpoint_locked (tree_gen : Z) : M unit :=
  sync_local ;;
  io_step "seal payload segment" ;;
  ck ← gets (fun w => build_checkpoint w tree_gen);
  set_checkpoint_ids tree_gen ck.(ck_checkpoint_id) ;;
  lift (MountCheckpoint_validate ck) ;;
  previous ← gets (fun w => (w_maint w).(last_checkpoint));
  install_checkpoint ck ;;
  match previous with
  | Some p => write_previous_checkpoint_file p
  | None => mret tt
  end ;;
  write_checkpoint_file ck ;;
  append_framed (Checkpointed ck.(ck_epoch) ck.(ck_acknowledged_sequence) tree_gen) ;;
  mret tt.

Definition checkpoint (tree_gen : Z) : M unit := checkpoint_locked tree_gen.

(** ** Acknowledgement *)

Definition prune_index (through : Z) (i : IndexPart) : IndexPart :=
  let retain := sat_add through 1 in
  let gone := List.filter (fun s => (s <? retain)%Z) (sorted_Z i.(committed)) in
  MkIndex i.(next_sequence) (map_split_off i.(prepared) retain) (set_split_off i.(committed) retain)
    (set_split_off i.(aborted) retain) i.(acknowledged_sequence) i.(remote_revision) retain
    i.(dirty_content)
    (foldl (fun acc s =>
              match i.(prepared) !! s with
              | Some r => sat_sub acc (payload_length r.(pr_event))
              | None => acc
              end) i.(pending_payload_bytes) gone).

(** The payload files of the prepares that were dropped. *)
Definition pruned_payloads (through : Z) (i : IndexPart) : gset string :=
  referenced_payloads (filter (fun kv => (kv.1 < sat_add through 1)%Z) i.(prepared)).

Definition set_index_cursor (through revision : Z) : IndexPart -> IndexPart :=
  fun i => MkIndex i.(next_sequence) i.(prepared) i.(committed) i.(aborted) through revision
             i.(first_unpruned_sequence) i.(dirty_content) i.(pending_payload_bytes).

Definition prune_resolved (through : Z) : M (gset string) :=
  gone ← gets (fun w => pruned_payloads through (w_index w));
  modify (with_index (prune_index through)) ;;
  mret gone.

Definition resolved (i : IndexPart) (seq : Z) : bool :=
  bool_decide (seq ∈ i.(committed)) || bool_decide (seq ∈ i.(aborted)).

(** The first critical section: the record, the cursor and the pruning.
    [None] is the early return of an acknowledgement that changes nothing. *)
Definition acknowledge_append (through revision : Z) : M (option (gset string)) :=
  i ← gets w_index;
  bail_if (through <? i.(acknowledged_sequence))%Z
    (AcknowledgementRegressed i.(acknowledged_sequence) through) ;;
  bail_if (revision <? i.(remote_revision))%Z (RevisionRegressed i.(remote_revision) revision) ;;
  if (through =? i.(acknowledged_sequence))%Z && (revision =? i.(remote_revision))%Z then mret None
  else
    lift (foldM (fun _ seq => guard_err (negb (resolved i seq)) (UnresolvedAcknowledged seq)) tt
            (range_inclusive (sat_add i.(acknowledged_sequence) 1) through)) ;;
    epoch ← gets w_epoch;
    append_framed (RemoteAcknowledged epoch through revision) ;;
    modify (with_index (set_index_cursor through revision)) ;;
    gone ← prune_resolved through;
    mret (Some gone).

Definition acknowledge (through revision tree_gen : Z) : M unit :=
  gone ← acknowledge_append through revision;
  match gone with
  | None => mret tt
  | Some gone =>
      sync_local ;;
      checkpoint tree_gen ;;
      modify (with_maint (fun m =>
        MkMaint m.(tree_generation) m.(checkpoint_id) m.(active_generations)
          m.(events_since_checkpoint) m.(last_checkpoint) (m.(reclaim_candidates) ∪ gone) true))
  end.

(** ** Recovery *)

Definition recovery_state (w : Wal) : RecoveryState :=
  let i := w_index w in
  let tail := omap (fun k => (fun r => (k, r.(pr_event))) <$> i.(prepared) !! k)
                (List.filter (fun k => sat_add i.(acknowledged_sequence) 1 <=? k)%Z
                   (btree_keys i.(prepared))) in
  MkRecoveryState w.(w_epoch) i.(acknowledged_sequence) i.(remote_revision)
    (w_maint w).(tree_generation)
    (map snd (List.filter (fun ke => bool_decide (ke.1 ∈ i.(committed))) tail))
    (map snd (List.filter (fun ke => negb (bool_decide (ke.1 ∈ i.(committed)))
                                     && negb (bool_decide (ke.1 ∈ i.(aborted)))) tail))
    (sorted_strings i.(dirty_content)).

Definition resolve_recovered (seq : Z) (resolution : RecoveryResolution) : M unit :=
  i ← gets w_index;
  r ← lift (ok_or (i.(prepared) !! seq) (UnknownRecovered seq));
  bail_if (resolved i seq) (AlreadyResolved seq) ;;
  epoch ← gets w_epoch;
  match resolution with
  | RCommit =>
      append_framed (Committed epoch seq None) ;;
      modify (with_index (index_commit seq None r.(pr_event) false))
  | RAbort =>
      append_framed (Aborted epoch seq "recovery proved the mutation was never applied") ;;
      modify (with_index (index_abort seq))
  end ;;
  bump_events.

(** ** Rotation *)

Definition log_header (epoch : string) (g first_sequence : Z) : WalRecord :=
  LogHeader WAL_FORMAT_VERSION epoch g first_sequence.

Definition set_log_file (g : Z) (content : bytes) : M unit :=
  modify (with_disk (set_logs <[g := content]>)).

(** [create_new], the header, and the syncs, with no append lock held. *)
Definition create_generation (g : Z) (header : WalRecord) : M unit :=
  exists_ ← gets (fun w => bool_decide (is_Some (w.(w_disk).(logs) !! g)));
  bail_if exists_ (IoError "create") ;;
  io_step "create" ;;
  set_log_file g [] ;;
  let buffer := framed header in
  bail_if (MAX_RECORD_BYTES <? zlen buffer)%Z (RecordTooLarge (zlen buffer)) ;;
  o ← next_io;
  match o with
  | IoFailed landed _ _ => set_log_file g (partial_write landed buffer) ;; fail AppendFailed
  | _ => set_log_file g buffer
  end ;;
  io_step "sync mount WAL" ;;
  modify (with_durable <[g := zlen buffer]>) ;;
  io_step "stat mount WAL" ;;
  io_step "sync directory" ;;
  io_step "duplicate mount WAL handle".

Definition swap_generation (g : Z) (len : Z) : M unit :=
  modify (with_log (fun l =>
    MkLog (MkLogFile g false len) (l.(pending_sync) ++ [l.(file).(lf_generation)]) g len
      l.(appended_bytes) None)) ;;
  modify (with_maint (fun m =>
    MkMaint m.(tree_generation) m.(checkpoint_id) ({[g]} ∪ m.(active_generations))
      m.(events_since_checkpoint) m.(last_checkpoint) m.(reclaim_candidates) true)).

(** With the maintenance lock held no other rotation intervenes, so the
    re-check of the active generation always passes. *)
Definition rotate_if_needed : M bool :=
  l ← gets w_log;
  if (l.(generation_len) <? LOG_TARGET_BYTES)%Z then mret false
  else
    first_sequence ← gets (fun w => (w_index w).(next_sequence));
    next ← lift (ok_or (checked_add l.(generation) 1) (IoError "mount WAL log generation exhausted"));
    epoch ← gets w_epoch;
    let header := log_header epoch next first_sequence in
    create_generation next header ;;
    swap_generation next (zlen (framed header)) ;;
    tree_gen ← gets (fun w => (w_maint w).(tree_generation));
    checkpoint_locked tree_gen ;;
    mret true.

(** ** Compaction *)

Fixpoint remove_generations (floor : Z) (gens : list Z) (out : CompactionOutcome) : M CompactionOutcome :=
  match gens with
  | [] => mret out
  | g :: rest =>
      if (floor <=? g)%Z then remove_generations floor rest out
      else
        len ← gets (fun w => zlen (log_bytes_of w g));
        io_step "remove reclaimed mount WAL" ;;
        modify (with_disk (set_logs (delete g))) ;;
        remove_generations floor rest
          (MkOutcome (sat_add out.(removed_log_generations) 1) out.(removed_payload_files)
             (sat_add out.(reclaimed_bytes) len))
  end.

(** [PayloadStore::reclaim]: delete the named files the store does not use. *)
Fixpoint reclaim_loop (names : list string) (removed reclaimed : Z) : M (Z * Z) :=
  match names with
  | [] => mret (removed, reclaimed)
  | name :: rest =>
      lift (validate_payload_name name) ;;
      pinned ← gets (fun w => bool_decide (name ∈ w.(w_pinned)));
      file_ ← gets (fun w => w.(w_disk).(payload_files) !! name);
      match pinned, file_ with
      | false, Some len =>
          io_step "reclaim mount payload" ;;
          modify (with_disk (fun d =>
            MkDisk d.(logs) d.(checkpoint_file) d.(previous_checkpoint_file)
              (delete name d.(payload_files)))) ;;
          reclaim_loop rest (sat_add removed 1) (sat_add reclaimed len)
      | _, _ => reclaim_loop rest removed reclaimed
      end
  end.

Definition reclaim (names : gset string) : M (Z * Z) :=
  out ← reclaim_loop (sorted_strings names) 0 0;
  (if (0 <? out.1)%Z then io_step "sync directory" else mret tt) ;;
  mret out.

Definition protected_segments (m : MaintPart) : gset string :=
  match m.(last_checkpoint) with Some ck => list_to_set ck.(ck_active_segments) | None => ∅ end.

Definition compaction_floor (w : Wal) : Z :=
  match (w_maint w).(last_checkpoint) with
  | Some ck => ck.(ck_replay_log_generation)
  | None => (w_log w).(generation)
  end.

Definition compact : M CompactionOutcome :=
  m ← gets w_maint;
  if negb m.(compaction_pending) && bool_decide (m.(reclaim_candidates) = ∅)
  then mret (MkOutcome 0 0 0)
  else
    floor ← gets compaction_floor;
    referenced ← gets (fun w => referenced_payloads (w_index w).(prepared));
    modify (with_maint (fun m =>
      MkMaint m.(tree_generation) m.(checkpoint_id) m.(active_generations)
        m.(events_since_checkpoint) m.(last_checkpoint) ∅ false)) ;;
    gens ← gets (fun w => log_generations w.(w_disk));
    out ← remove_generations floor gens (MkOutcome 0 0 0);
    (if (0 <? out.(removed_log_generations))%Z then
       io_step "sync directory" ;;
       modify (with_maint (fun m =>
         MkMaint m.(tree_generation) m.(checkpoint_id)
           (filter (fun g => (floor <= g)%Z) m.(active_generations))
           m.(events_since_checkpoint) m.(last_checkpoint) m.(reclaim_candidates)
           m.(compaction_pending)))
     else mret tt) ;;
    let kept := referenced ∪ protected_segments m in
    let deferred := m.(reclaim_candidates) ∩ kept in
    let reclaimable := m.(reclaim_candidates) ∖ kept in
    modify (with_maint (fun m =>
      MkMaint m.(tree_generation) m.(checkpoint_id) m.(active_generations)
        m.(events_since_checkpoint) m.(last_checkpoint) (m.(reclaim_candidates) ∪ deferred)
        m.(compaction_pending))) ;;
    if bool_decide (reclaimable = ∅) then mret out
    else
      r ← reclaim reclaimable;
      mret (MkOutcome out.(removed_log_generations) r.1 (sat_add out.(reclaimed_bytes) r.2)).

(** [seal]: sync, seal the payload segment, publish a last checkpoint. *)
Definition seal (tree_gen : Z) : M unit :=
  sync_local ;;
  io_step "seal payload segment" ;;
  checkpoint tree_gen.

(** ** Opening *)

(** The state [open] builds from a finished replay, before its checkpoint.
    [durable] is how much of each generation the device holds; a truncated or
    freshly created generation has just been synced. *)
Definition opened (d : Disk) (rp : Replayed) (durable : gmap Z Z) (io : list IoOutcome) : Wal :=
  let sc := rp.(rp_scan) in
  let active := default 0%Z (last rp.(rp_plan)) in
  let files := match rp.(rp_files) !! active with
               | Some _ => rp.(rp_files)
               | None => <[active := framed (log_header rp.(rp_epoch) active rp.(rp_next_sequence))]>
                           rp.(rp_files)
               end in
  let len := zlen (default [] (files !! active)) in
  let candidates := dom d.(payload_files) ∖ referenced_payloads sc.(sc_prepared) in
  let ck := rp.(rp_checkpoint) in
  MkWal rp.(rp_epoch)
    (MkAppendState
       (MkLog (MkLogFile active true 0) [] active len 0 None)
       (MkIndex rp.(rp_next_sequence) sc.(sc_prepared) sc.(sc_committed) sc.(sc_aborted)
          sc.(sc_acknowledged_sequence) sc.(sc_remote_revision)
          (Z.max sc.(sc_first_unpruned_sequence) 1) sc.(sc_dirty_content)
          (sum_pending sc.(sc_prepared) sc.(sc_committed)))
       (MkMaint (match ck with Some c => c.(ck_tree_generation) | None => 0%Z end)
          (match ck with Some c => c.(ck_checkpoint_id) | None => 0%Z end)
          ({[active]} ∪ list_to_set rp.(rp_plan)) 0 ck candidates
          (negb (bool_decide (candidates = ∅)))))
    (MkSync (sat_sub rp.(rp_next_sequence) 1) 0 0 false)
    (MkDisk files d.(checkpoint_file) d.(previous_checkpoint_file) d.(payload_files))
    ∅ (if decide (files !! active = d.(logs) !! active) then durable else <[active := len]> durable) io.

(** Opening a state directory whose system calls follow [io]; the calls before
    the checkpoint are taken to succeed. *)
Definition open (d : Disk) (expected_epoch : option string) (fresh : string) (durable : gmap Z Z)
    (io : list IoOutcome) : MResult Wal :=
  rp ← replay d expected_epoch fresh;
  let active := default 0%Z (last rp.(rp_plan)) in
  let header := log_header rp.(rp_epoch) active rp.(rp_next_sequence) in
  _ ← guard_err (bool_decide (rp.(rp_files) !! active = None) && (MAX_RECORD_BYTES <? zlen (framed header))%Z)
        (RecordTooLarge (zlen (framed header)));
  let w := opened d rp durable io in
  match checkpoint (w_maint w).(tree_generation) w with
  | (w, Ok _) => Ok w
  | (_, Err e) => Err e
  end.

End wal.
