(* ===== verification/WalLayout.v ===== *)
(** * The log as a history of records

    The bytes of the log generations are the framed records of one history, in
    order. Scanning them is folding [apply_scanned_record] over the history:
    this file relates the two, for the loop over one generation, for the plan
    over several, and for a tail that a crash tore. *)

From S2P Require Import Prelude MountTypes WalTypes WalReplay Wal.
From Stdlib Require Import ZArith Lia.

Record Entry := MkEntry { e_generation : Z; e_offset : Z; e_record : WalRecord }.

Section layout.
Context {P : Platform} {C : RecordCodec} {CL : RecordCodecLaws C}.

Definition image (E : list Entry) : bytes := concat (map (fun e => framed e.(e_record)) E).

Definition of_generation (g : Z) (E : list Entry) : list Entry :=
  List.filter (fun e => e.(e_generation) =? g)%Z E.

(** Entries of generation [g] laid out one after the other from [off] on. *)
Fixpoint consecutive (g off : Z) (E : list Entry) : Prop :=
  match E with
  | [] => True
  | e :: E =>
      e.(e_generation) = g /\ e.(e_offset) = off
      /\ (zlen (framed e.(e_record)) <= MAX_RECORD_BYTES)%Z
      /\ (off + zlen (framed e.(e_record)) <= U64_MAX)%Z
      /\ consecutive g (off + zlen (framed e.(e_record))) E
  end.

Definition scan_entry (sc : ScanState) (e : Entry) : MResult ScanState :=
  apply_scanned_record sc (persisted e.(e_record)) e.(e_generation) e.(e_offset).

Lemma framed_pos r : (0 < zlen (framed r))%Z.
Proof. unfold framed. rewrite zlen_app. pose proof (zlen_nonneg (to_vec r)). unfold zlen at 2. cbn. lia. Qed.

Lemma image_app E F : image (E ++ F) = image E ++ image F.
Proof. unfold image. by rewrite map_app, concat_app. Qed.

Lemma of_generation_app g E F : of_generation g (E ++ F) = of_generation g E ++ of_generation g F.
Proof. apply List.filter_app. Qed.

(** Bytes without a line break are only buffered. *)
Lemma scan_loop_no_newline sc g off buf l rest :
  newline ∉ l -> scan_loop sc g off buf (l ++ rest) = scan_loop sc g off (buf ++ l) rest.
Proof.
  revert buf; induction l as [|b l IH]; intros buf H; cbn; [by rewrite app_nil_r|].
  apply not_elem_of_cons in H as [Hb Hl]. rewrite decide_False by congruence.
  rewrite IH by done. by rewrite <- app_assoc.
Qed.

(** Reading one framed record is applying it. *)
Lemma scan_loop_record sc g off r rest :
  (zlen (framed r) <= MAX_RECORD_BYTES)%Z -> (off + zlen (framed r) <= U64_MAX)%Z ->
  scan_loop sc g off [] (framed r ++ rest) =
  (sc ← apply_scanned_record sc (persisted r) g off;
   scan_loop sc g (off + zlen (framed r)) [] rest).
Proof.
  intros Hmax Hoff. unfold framed at 1. rewrite <- app_assoc.
  rewrite scan_loop_no_newline by apply to_vec_one_line. cbn.
  rewrite from_slice_to_vec. fold (framed r). cbn.
  destruct (Z.ltb_spec MAX_RECORD_BYTES (zlen (framed r))); [lia|]. cbn.
  by rewrite sat_add_exact.
Qed.

(** Reading a run of records and a torn tail applies the records and stops at
    the end of the last complete one. *)
Lemma scan_loop_image sc g off E torn :
  consecutive g off E -> newline ∉ torn ->
  scan_loop sc g off [] (image E ++ torn) =
  (sc ← foldM scan_entry sc E; Ok (sc, off + zlen (image E))%Z).
Proof.
  revert sc off; induction E as [|e E IH]; intros sc off HE Ht.
  - cbn. rewrite <- (app_nil_r torn), scan_loop_no_newline by done. cbn. by rewrite Z.add_0_r.
  - destruct HE as (<- & Ho & Hm & Hu & HE). subst off.
    change (image (e :: E)) with (framed (e_record e) ++ image E).
    rewrite <- app_assoc, scan_loop_record by done. cbn [foldM]. unfold scan_entry at 1.
    destruct (apply_scanned_record sc _ _ _) as [sc'|err]; [|done].
    cbn [mbind result_bind]. rewrite IH by done.
    destruct (foldM scan_entry sc' E); cbn; [|done].
    by rewrite zlen_app, Z.add_assoc.
Qed.

Lemma consecutive_app g off E F :
  consecutive g off (E ++ F) <->
  consecutive g off E /\ consecutive g (off + zlen (image E)) F.
Proof.
  revert off; induction E as [|e E IH]; intros off; cbn.
  - rewrite Z.add_0_r. tauto.
  - rewrite IH. change (image (e :: E)) with (framed (e_record e) ++ image E).
    rewrite zlen_app, Z.add_assoc. tauto.
Qed.

Lemma consecutive_generation g off E : consecutive g off E -> Forall (fun e => e_generation e = g) E.
Proof. revert off; induction E as [|e E IH]; intros off; cbn; [constructor|]. intros (? & ? & ? & ? & ?). eauto. Qed.

(** A whole history: the entries of each generation are consecutive from zero,
    and generations only grow. *)
Record placed (H : list Entry) : Prop := {
  placed_consecutive : forall g, consecutive g 0 (of_generation g H);
  placed_monotone : StronglySorted (fun a b => e_generation a <= e_generation b)%Z H;
}.

Lemma placed_prefix H K : placed (H ++ K) -> placed H.
Proof.
  intros [Hc Hm]. split.
  - intros g. specialize (Hc g). rewrite of_generation_app, consecutive_app in Hc. tauto.
  - by eapply StronglySorted_app_1_l in Hm.
Qed.

Lemma of_generation_Forall g E :
  Forall (fun e => e_generation e = g) E -> of_generation g E = E.
Proof.
  induction 1 as [|e E He _ IH]; cbn; [done|]. rewrite He, Z.eqb_refl. by f_equal.
Qed.

Lemma of_generation_other g E :
  Forall (fun e => e_generation e <> g) E -> of_generation g E = [].
Proof.
  induction 1 as [|e E He _ IH]; cbn; [done|]. by destruct (Z.eqb_spec (e_generation e) g).
Qed.

Lemma elem_of_of_generation e g E : e ∈ of_generation g E <-> e ∈ E /\ e_generation e = g.
Proof.
  unfold of_generation. by rewrite elem_of_List_filter, Z.eqb_eq.
Qed.

(** Appending a record at the end of the newest generation. *)
Lemma placed_snoc H g r :
  placed H -> (forall e, e ∈ H -> (e_generation e <= g)%Z) ->
  (zlen (framed r) <= MAX_RECORD_BYTES)%Z ->
  (zlen (image (of_generation g H)) + zlen (framed r) <= U64_MAX)%Z ->
  placed (H ++ [MkEntry g (zlen (image (of_generation g H))) r]).
Proof.
  intros [Hc Hm] Hg Hr Hu. split.
  - intros g'. rewrite of_generation_app, consecutive_app. split; [done|]. cbn.
    destruct (Z.eqb_spec g g') as [->|Hne]; cbn; auto.
  - apply StronglySorted_app_2; [|done|repeat constructor].
    intros x y Hx Hy. apply list_elem_of_singleton in Hy as ->. by apply Hg.
Qed.

(** A tail of the history in the newest generation may be cut anywhere: what is
    left is a prefix of the records and a torn one. *)
Lemma framed_split r n :
  n < length (framed r) -> newline ∉ take n (framed r).
Proof.
  intros Hn. unfold framed in *. rewrite length_app in Hn. cbn in Hn.
  rewrite take_app_le by lia. intros Hin. apply (to_vec_one_line r).
  by eapply elem_of_take in Hin as (i & Hi & _); apply list_elem_of_lookup_2 in Hi.
Qed.

Lemma take_image E n :
  exists k torn, take n (image E) = image (take k E) ++ torn /\ newline ∉ torn
    /\ (n <= length (image E) -> length (image (take k E)) <= n)
    /\ (forall j, length (image (take j E)) <= n -> j <= length E -> j <= k).
Proof.
  revert n; induction E as [|e E IH]; intros n.
  - exists 0, []. split_and!; cbn; [by rewrite take_nil|apply not_elem_of_nil|lia|].
    intros j _ Hj. cbn in Hj. lia.
  - change (image (e :: E)) with (framed (e_record e) ++ image E).
    destruct (decide (n < length (framed (e_record e)))) as [Hn|Hn].
    + exists 0, (take n (framed (e_record e))). split_and!.
      * cbn. by rewrite take_app_le by lia.
      * by apply framed_split.
      * cbn. lia.
      * intros [|j] Hj _; [lia|]. exfalso. cbn [take] in Hj.
        change (image (e :: take j E)) with (framed (e_record e) ++ image (take j E)) in Hj.
        rewrite length_app in Hj. lia.
    + destruct (IH (n - length (framed (e_record e)))) as (k & torn & Ht & Hnl & Hle & Hmax).
      exists (S k), torn. cbn [take].
      change (image (e :: take k E)) with (framed (e_record e) ++ image (take k E)).
      split_and!.
      * rewrite take_app_ge by lia. rewrite Ht. by rewrite <- app_assoc.
      * done.
      * rewrite !length_app. lia.
      * intros [|j] Hj Hl; [lia|]. cbn [take] in Hj.
        change (image (e :: take j E)) with (framed (e_record e) ++ image (take j E)) in Hj.
        rewrite length_app in Hj. cbn in Hl.
        enough (j <= k) by lia. apply Hmax; lia.
Qed.

(** ** Several generations *)

Lemma split_first_generation T g :
  StronglySorted (fun a b => e_generation a <= e_generation b)%Z T ->
  Forall (fun e => g <= e_generation e)%Z T ->
  exists U, T = of_generation g T ++ U /\ Forall (fun e => g < e_generation e)%Z U
    /\ StronglySorted (fun a b => e_generation a <= e_generation b)%Z U.
Proof.
  induction 1 as [|e T Hs IH Hle]; intros Hg; [by exists []; repeat constructor|].
  apply Forall_cons in Hg as [Hge Hg]. cbn. destruct (Z.eqb_spec (e_generation e) g) as [He|Hne].
  - destruct (IH Hg) as (U & HT & HU & HsU). exists U. split_and!; [|done|done].
    cbn. f_equal. exact HT.
  - exists (e :: T). assert (Forall (fun x => g < e_generation x)%Z (e :: T)) as Hall.
    { constructor; [lia|]. eapply Forall_impl; [exact Hle|]. cbn. lia. }
    split_and!; [|done|by constructor].
    fold (of_generation g T). rewrite of_generation_other; [done|].
    apply Forall_cons in Hall as [_ Hall].
    eapply Forall_impl; [exact Hall|]. cbn. lia.
Qed.

(** A history whose generations the plan lists is read generation by generation. *)
Lemma split_by_generation T plan :
  StronglySorted (fun a b => e_generation a <= e_generation b)%Z T ->
  StronglySorted Z.lt plan -> Forall (fun e => e_generation e ∈ plan) T ->
  T = concat (map (fun g => of_generation g T) plan).
Proof.
  intros HT Hp. revert T HT; induction Hp as [|g plan Hs IH Hlt]; intros T HT Hin.
  - destruct T as [|e T]; [done|]. apply Forall_cons in Hin as [Hin _]. by apply elem_of_nil in Hin.
  - destruct (split_first_generation T g HT) as (U & HTU & HU & HsU).
    { eapply Forall_impl; [exact Hin|]. intros e He. apply elem_of_cons in He as [->|He]; [lia|].
      rewrite Forall_forall in Hlt. specialize (Hlt _ He). lia. }
    cbn. rewrite HTU at 1. f_equal.
    rewrite (IH U) at 1; [|done|].
    + f_equal. apply map_ext_in. intros g' Hg'. apply list_elem_of_In in Hg'.
      rewrite Forall_forall in Hlt. specialize (Hlt _ Hg'). rewrite HTU, of_generation_app.
      rewrite (of_generation_other g' (of_generation g T)); [done|].
      apply Forall_forall. intros e He. apply elem_of_of_generation in He as [_ ->]. lia.
    + rewrite HTU in Hin. apply Forall_app in Hin as [_ Hin].
      eapply Forall_impl; [exact (proj2 (Forall_and _ _) (conj Hin HU))|]. intros e [He Hlt'].
      apply elem_of_cons in He as [He|He]; [lia|done].
Qed.

(** Where replay starts in generation [g]. *)
Definition start_of (rg ro g : Z) : Z := if (g =? rg)%Z then ro else 0%Z.

(** The file of [g]: bytes before the replay point, then the entries of [T],
    then (in the last generation only) a torn record. *)
Definition file_holds (files : gmap Z bytes) (rg ro : Z) (T : list Entry) (g : Z) (torn : bytes) : Prop :=
  exists pre, files !! g = Some (pre ++ image (of_generation g T) ++ torn)
    /\ zlen pre = start_of rg ro g
    /\ consecutive g (start_of rg ro g) (of_generation g T).

Lemma scan_generation_holds files sc rg ro T g torn :
  file_holds files rg ro T g torn -> newline ∉ torn ->
  exists file, files !! g = Some file /\
  scan_generation sc file g (start_of rg ro g) =
    (sc ← foldM scan_entry sc (of_generation g T); Ok (sc, zlen file - zlen torn)%Z).
Proof.
  intros (pre & Hf & Hpre & Hc) Ht. eexists; split; [done|]. unfold scan_generation.
  rewrite !zlen_app. pose proof (zlen_nonneg (image (of_generation g T))).
  pose proof (zlen_nonneg torn).
  destruct (Z.ltb_spec (zlen pre + (zlen (image (of_generation g T)) + zlen torn)) (start_of rg ro g)); [lia|].
  cbn. replace (Z.to_nat (start_of rg ro g)) with (length pre) by (rewrite <- Hpre; unfold zlen; lia).
  rewrite drop_app_length.
  rewrite scan_loop_image by done.
  destruct (foldM scan_entry sc (of_generation g T)); cbn; [|done].
  do 2 f_equal. lia.
Qed.

(** Replaying the plan folds the records of the whole suffix, and leaves the
    last generation without its torn tail. *)
Lemma replay_generations_holds files sc rg ro T plan torn g :
  (forall g', g' ∈ plan -> file_holds files rg ro T g' []) ->
  file_holds files rg ro T g torn -> newline ∉ torn ->
  replay_generations sc files rg ro (plan ++ [g]) =
    (sc ← foldM scan_entry sc (concat (map (fun g => of_generation g T) (plan ++ [g])));
     Ok (sc, match torn with
             | [] => files
             | _ => <[g := take (Z.to_nat (zlen (default [] (files !! g)) - zlen torn))
                             (default [] (files !! g))]> files
             end)).
Proof.
  intros Hplan Hlast Ht. revert sc Hplan; induction plan as [|g' plan IH]; intros sc Hplan; cbn.
  - destruct (scan_generation_holds files sc rg ro T g torn) as (file & Hf & Hs); [done..|].
    rewrite Hf. cbn. fold (start_of rg ro g). rewrite Hs, app_nil_r.
    destruct (foldM scan_entry sc (of_generation g T)) as [sc'|]; cbn; [|done].
    destruct torn as [|b torn].
    + change (zlen (@nil byte)) with 0%Z. by rewrite Z.sub_0_r, Z.ltb_irrefl.
    + destruct (Z.ltb_spec (zlen file - zlen (b :: torn)) (zlen file)) as [|Hge]; [done|].
      assert (0 < zlen (b :: torn))%Z by (unfold zlen; cbn; lia). lia.
  - destruct (scan_generation_holds files sc rg ro T g' []) as (file & Hf & Hs);
      [apply Hplan; set_solver|apply not_elem_of_nil|].
    rewrite Hf. cbn. fold (start_of rg ro g'). rewrite Hs, foldM_app.
    destruct (foldM scan_entry sc (of_generation g' T)) as [sc'|]; cbn; [|done].
    change (zlen (@nil byte)) with 0%Z. rewrite Z.sub_0_r, Z.ltb_irrefl.
    rewrite IH by set_solver. done.
Qed.

End layout.
