(* ===== verification/WalRecovery.v ===== *)
(** * What recovery rebuilds

    Replaying the suffix of a history from a checkpoint's replay point gives the
    same index as replaying the whole history, and that index is the one the
    running log holds in memory ([tracks]). *)

From S2P Require Import Prelude MountTypes WalTypes WalReplay Wal WalLayout.
From Stdlib Require Import ZArith Lia.

Section recovery.
Context {P : Platform} {C : RecordCodec} {CL : RecordCodecLaws C}.

(** The scan of a whole history, from the first record of the mount. *)
Definition history_scan (H : list Entry) : MResult ScanState := foldM scan_entry (scan_seed 1 ∅) H.

(** ** Scanning a suffix *)

(** [Ss], scanned from somewhere in the middle with first unpruned sequence
    [fu], sees what [Sf] sees from [fu] on. [a0] and [r0] are the cursor of the
    full scan where the suffix starts. *)
Record restricts (fu a0 r0 : Z) (Sf Ss : ScanState) : Prop := {
  rs_epoch_ok : sc_epoch Ss = None \/ sc_epoch Ss = sc_epoch Sf;
  rs_prepared : sc_prepared Ss = map_split_off (sc_prepared Sf) fu;
  rs_committed : sc_committed Ss = set_split_off (sc_committed Sf) fu;
  rs_aborted : sc_aborted Ss = set_split_off (sc_aborted Sf) fu;
  rs_fu : sc_first_unpruned_sequence Ss = fu;
  rs_full : sc_first_unpruned_sequence Sf = 1%Z;
  rs_cursor :
    (sc_acknowledged_sequence Ss = sc_acknowledged_sequence Sf
     /\ sc_remote_revision Ss = sc_remote_revision Sf)
    \/ (sc_acknowledged_sequence Ss = 0%Z /\ sc_remote_revision Ss = 0%Z
        /\ sc_acknowledged_sequence Sf = a0 /\ sc_remote_revision Sf = r0);
  rs_nonneg : (0 <= sc_acknowledged_sequence Sf)%Z /\ (0 <= sc_remote_revision Sf)%Z;
}.

Lemma observe_epoch_restrict es ef epoch ef' :
  es = None \/ es = ef -> observe_epoch ef epoch = Ok ef' ->
  exists es', observe_epoch es epoch = Ok es' /\ es' = ef'.
Proof.
  intros [-> | ->] H; [|by eexists].
  destruct ef as [c|]; cbn in *; [|by eexists].
  destruct (String.eqb_spec c epoch) as [->|]; simplify_eq; by eexists.
Qed.

Lemma map_split_off_insert {A} (m : gmap Z A) r k a :
  (r <= k)%Z -> map_split_off (<[k := a]> m) r = <[k := a]> (map_split_off m r).
Proof.
  intros H. apply map_eq. intros j. rewrite lookup_map_split_off.
  destruct (decide (j = k)) as [->|Hne].
  - by rewrite decide_True, !lookup_insert_eq by done.
  - by rewrite !lookup_insert_ne, lookup_map_split_off by done.
Qed.

Lemma map_split_off_insert_lt {A} (m : gmap Z A) r k a :
  (k < r)%Z -> map_split_off (<[k := a]> m) r = map_split_off m r.
Proof.
  intros H. apply map_eq. intros j. rewrite !lookup_map_split_off.
  case_decide; [|done]. by rewrite lookup_insert_ne by lia.
Qed.

Lemma set_split_off_union (s : gset Z) r k :
  (r <= k)%Z -> set_split_off ({[k]} ∪ s) r = {[k]} ∪ set_split_off s r.
Proof. intros H. apply set_eq. intros j. rewrite elem_of_union, !elem_of_set_split_off. set_solver by lia. Qed.

Lemma set_split_off_union_lt (s : gset Z) r k :
  (k < r)%Z -> set_split_off ({[k]} ∪ s) r = set_split_off s r.
Proof.
  intros H. apply set_eq. intros j. rewrite !elem_of_set_split_off, elem_of_union, elem_of_singleton.
  intuition lia.
Qed.

Lemma map_split_off_twice {A} (m : gmap Z A) a b :
  map_split_off (map_split_off m a) b = map_split_off m (Z.max a b).
Proof.
  apply map_eq. intros k. rewrite !lookup_map_split_off. repeat case_decide; try lia; done.
Qed.

Lemma set_split_off_twice (s : gset Z) a b :
  set_split_off (set_split_off s a) b = set_split_off s (Z.max a b).
Proof. apply set_eq. intros k. rewrite !elem_of_set_split_off. intuition lia. Qed.

Lemma restricts_step fu a0 r0 Sf Ss e Sf' :
  (1 <= fu)%Z -> restricts fu a0 r0 Sf Ss -> scan_entry Sf e = Ok Sf' ->
  exists Ss', scan_entry Ss e = Ok Ss' /\ restricts fu a0 r0 Sf' Ss'.
Proof.
  intros Hfu R Hf. destruct R as [Rep Rp Rc Ra Rfu Rfull Rcur Rnn].
  destruct Sf as [ef pf cf af kf vf df ff], Ss as [es ps cs as_ ks vs ds fs].
  cbn in Rep, Rp, Rc, Ra, Rfu, Rfull, Rcur, Rnn. subst ps cs as_ fs ff.
  unfold scan_entry in *. destruct e as [g off r]; cbn [e_record e_generation e_offset] in *.
  destruct r as [v ep g' fs|ev|ep s id|ep s why|ep p|ep t rv|ep t tg]; cbn [persisted apply_scanned_record] in Hf |- *;
    inv_ok Hf; repeat match goal with Hx : guard_err _ _ = Ok _ |- _ => apply guard_err_Ok in Hx end.
  (* header *)
  - destruct (observe_epoch_restrict _ _ _ _ Rep Hx0) as (es' & He & ->).
    rewrite Hx. cbn. rewrite He. cbn. rewrite Hx1. cbn. injection Hf as <-.
    eexists; split; [done|]. by constructor; auto.
  (* prepared *)
  - destruct (observe_epoch_restrict _ _ _ _ Rep Hx2) as (es' & He & ->).
    rewrite Hx. cbn. rewrite Hx0. cbn. rewrite Hx1. cbn. rewrite He. cbn.
    set (ev' := strip_folded ev) in *.
    destruct (Z.leb_spec 1 (sequence ev')) as [H1|H1].
    + inv_ok Hf. apply bool_decide_eq_false in Hx3. injection Hf as <-.
      destruct (Z.leb_spec fu (sequence ev')) as [H2|H2].
      * rewrite lookup_map_split_off, decide_True by done.
        rewrite bool_decide_false by done. cbn. eexists; split; [done|].
        constructor; cbn; auto using map_split_off_insert. by rewrite map_split_off_insert.
      * eexists; split; [done|]. constructor; cbn; auto. by rewrite map_split_off_insert_lt.
    + injection Hf as <-. destruct (Z.leb_spec fu (sequence ev')) as [H2|H2]; [lia|].
      eexists; split; [done|]. by constructor; auto.
  (* committed *)
  - destruct (observe_epoch_restrict _ _ _ _ Rep Hx) as (es' & He & ->). rewrite He. cbn.
    destruct (Z.leb_spec 1 s) as [H1|H1].
    + inv_ok Hf. bools. destruct (Z.leb_spec fu s) as [H2|H2].
      * rewrite lookup_map_split_off, decide_True by done.
        rewrite !bool_decide_false by (rewrite elem_of_set_split_off; tauto). cbn.
        destruct (pf !! s) as [r|]; injection Hf as <-; (eexists; split; [done|]);
          constructor; cbn; auto; by rewrite ?map_split_off_insert, ?set_split_off_union by done.
      * destruct (pf !! s) as [r|]; injection Hf as <-; (eexists; split; [done|]);
          constructor; cbn; auto; by rewrite ?map_split_off_insert_lt, ?set_split_off_union_lt by done.
    + injection Hf as <-. destruct (Z.leb_spec fu s) as [H2|H2]; [lia|].
      eexists; split; [done|]. by constructor; auto.
  (* aborted *)
  - destruct (observe_epoch_restrict _ _ _ _ Rep Hx) as (es' & He & ->). rewrite He. cbn.
    destruct (Z.leb_spec 1 s) as [H1|H1].
    + inv_ok Hf. bools. injection Hf as <-. destruct (Z.leb_spec fu s) as [H2|H2].
      * rewrite !bool_decide_false by (rewrite elem_of_set_split_off; tauto). cbn.
        eexists; split; [done|]. constructor; cbn; auto; by rewrite set_split_off_union.
      * eexists; split; [done|]. constructor; cbn; auto; by rewrite set_split_off_union_lt.
    + injection Hf as <-. destruct (Z.leb_spec fu s) as [H2|H2]; [lia|].
      eexists; split; [done|]. by constructor; auto.
  (* content dirty *)
  - destruct (observe_epoch_restrict _ _ _ _ Rep Hx) as (es' & He & ->). rewrite He. cbn.
    rewrite Hx0. cbn. injection Hf as <-. eexists; split; [done|]. by constructor; auto.
  (* acknowledged *)
  - destruct (observe_epoch_restrict _ _ _ _ Rep Hx) as (es' & He & ->). rewrite He. cbn.
    bools. assert (((t <? ks)%Z || (rv <? vs)%Z) = false) as ->.
    { apply orb_false_iff. rewrite !Z.ltb_ge. destruct Rcur as [[-> ->]|(-> & -> & _)]; lia. }
    cbn. injection Hf as <-. eexists; split; [done|]. constructor; cbn; auto. lia.
  (* checkpointed *)
  - destruct (observe_epoch_restrict _ _ _ _ Rep Hx) as (es' & He & ->). rewrite He. cbn.
    injection Hf as <-. eexists; split; [done|]. by constructor; auto.
Qed.

Lemma restricts_fold fu a0 r0 T Sf Ss Sf' :
  (1 <= fu)%Z -> restricts fu a0 r0 Sf Ss -> foldM scan_entry Sf T = Ok Sf' ->
  exists Ss', foldM scan_entry Ss T = Ok Ss' /\ restricts fu a0 r0 Sf' Ss'.
Proof.
  intros Hfu. revert Sf Ss; induction T as [|e T IH]; intros Sf Ss R Hf; cbn in *.
  - injection Hf as <-. by eexists.
  - destruct (scan_entry Sf e) as [Sf1|] eqn:E1; [|done].
    destruct (restricts_step _ _ _ _ _ _ _ Hfu R E1) as (Ss1 & -> & R1). eauto.
Qed.

(** ** Facts of a successful scan *)

(** Cursors only move forward. *)
Lemma scan_cursor_mono T S S' :
  foldM scan_entry S T = Ok S' ->
  (sc_acknowledged_sequence S <= sc_acknowledged_sequence S')%Z
  /\ (sc_remote_revision S <= sc_remote_revision S')%Z.
Proof.
  revert S; induction T as [|e T IH]; intros S Hf; cbn in Hf.
  - injection Hf as <-. lia.
  - destruct (scan_entry S e) as [S1|] eqn:E1; [|done]. specialize (IH _ Hf).
    enough (sc_acknowledged_sequence S <= sc_acknowledged_sequence S1
            /\ sc_remote_revision S <= sc_remote_revision S1)%Z by lia.
    clear IH Hf. unfold scan_entry in E1. destruct S as [ep p c a k v d f].
    destruct (persisted (e_record e)); cbn in E1; inv_ok E1; bools; break_all E1; cbn; try lia.
    all: inv_ok E1; simplify_eq; cbn; lia.
Qed.

(** ** The index of a history *)

(** [i], the index of the running log, is what [S], the scan of its whole
    history, leaves unacknowledged. *)
Record tracks (epoch : string) (S : ScanState) (i : IndexPart) : Prop := {
  tr_fu : sc_first_unpruned_sequence S = 1%Z;
  tr_epoch : sc_epoch S = None \/ sc_epoch S = Some epoch;
  tr_prepared_dom : forall s, is_Some (sc_prepared S !! s) <-> (1 <= s < i.(next_sequence))%Z;
  tr_terminal : forall s, s ∈ sc_committed S \/ s ∈ sc_aborted S -> is_Some (sc_prepared S !! s);
  tr_disjoint : forall s, s ∈ sc_committed S -> s ∈ sc_aborted S -> False;
  tr_resolved : forall s, (1 <= s <= sc_acknowledged_sequence S)%Z ->
    s ∈ sc_committed S \/ s ∈ sc_aborted S;
  tr_identity : forall s r, sc_prepared S !! s = Some r -> s ∉ sc_committed S ->
    local_identity r.(pr_event) = None;
  tr_ack_range : (0 <= sc_acknowledged_sequence S < i.(next_sequence))%Z;
  tr_next_range : (i.(next_sequence) <= U64_MAX)%Z;
  tr_rev : (0 <= sc_remote_revision S)%Z;
  tr_ack : i.(acknowledged_sequence) = sc_acknowledged_sequence S;
  tr_revision : i.(remote_revision) = sc_remote_revision S;
  tr_first : i.(first_unpruned_sequence) = (sc_acknowledged_sequence S + 1)%Z;
  tr_prepared : i.(prepared) = map_split_off (sc_prepared S) (sc_acknowledged_sequence S + 1);
  tr_committed : i.(committed) = set_split_off (sc_committed S) (sc_acknowledged_sequence S + 1);
  tr_aborted : i.(aborted) = set_split_off (sc_aborted S) (sc_acknowledged_sequence S + 1);
}.

Lemma validate_scan_Ok sc :
  (forall s, s ∈ sc_committed sc \/ s ∈ sc_aborted sc -> is_Some (sc_prepared sc !! s)) ->
  (forall s, (Z.max (sc_first_unpruned_sequence sc) 1 <= s <= sc_acknowledged_sequence sc)%Z ->
     s ∈ sc_committed sc \/ s ∈ sc_aborted sc) ->
  validate_scan sc = Ok tt.
Proof.
  intros Ht Hr. unfold validate_scan.
  assert (forall l, (forall s, s ∈ l -> is_Some (sc_prepared sc !! s)) ->
    foldM (fun _ seq => guard_err (bool_decide (sc_prepared sc !! seq = None)) (TerminalWithoutPrepare seq)) tt l
    = Ok tt) as H1.
  { induction l as [|s l IH]; intros Hl; cbn; [done|].
    rewrite bool_decide_false; [cbn; apply IH; set_solver|].
    destruct (Hl s) as [x ->]; [set_solver|done]. }
  rewrite H1.
  2: { intros s Hs. rewrite elem_of_app, !elem_of_sorted_Z in Hs. by apply Ht. }
  cbn. clear H1.
  assert (forall l, (forall s, s ∈ l -> s ∈ sc_committed sc \/ s ∈ sc_aborted sc) ->
    foldM (fun _ seq => guard_err (negb (bool_decide (seq ∈ sc_committed sc)
       || bool_decide (seq ∈ sc_aborted sc))) (UnresolvedAcknowledged seq)) tt l = Ok tt) as H2.
  { induction l as [|s l IH]; intros Hl; cbn; [done|].
    replace (negb _) with false; [cbn; apply IH; set_solver|].
    destruct (Hl s); [set_solver|by rewrite bool_decide_true|].
    rewrite (bool_decide_true (s ∈ sc_aborted sc)) by done. by rewrite orb_true_r. }
  apply H2. intros s Hs. apply elem_of_range_inclusive in Hs. auto.
Qed.

(** The largest key of a map whose keys are an interval. *)
Lemma last_interval_key {A} (m : gmap Z A) lo hi :
  (forall k, is_Some (m !! k) <-> (lo <= k < hi)%Z) ->
  last (btree_keys m) = if (lo <? hi)%Z then Some (hi - 1)%Z else None.
Proof.
  intros Hk. pose proof (sorted_Z_sorted (dom m)) as Hs. fold (btree_keys m) in Hs.
  assert (forall k, k ∈ btree_keys m <-> (lo <= k < hi)%Z) as Hin.
  { intros k. by rewrite elem_of_btree_keys. }
  clear Hk. destruct (Z.ltb_spec lo hi) as [Hlt|Hge].
  - destruct (last (btree_keys m)) as [x|] eqn:E.
    + apply last_Some in E as [l E]. rewrite E in Hs, Hin.
      f_equal. assert (lo <= x < hi)%Z as Hx by (apply Hin; set_solver).
      assert (hi - 1 ∈ l ++ [x])%Z as Hh by (apply Hin; lia).
      apply elem_of_app in Hh as [Hh|Hh]; [|apply list_elem_of_singleton in Hh; done].
      eapply StronglySorted_app_1_elem_of in Hs; [|done|by apply list_elem_of_singleton]. lia.
    + apply last_None in E. assert (lo ∈ btree_keys m) as Hl by (apply Hin; lia).
      rewrite E in Hl. by apply elem_of_nil in Hl.
  - apply last_None. destruct (btree_keys m) as [|x l] eqn:E; [done|].
    assert (lo <= x < hi)%Z by (apply Hin; set_solver). lia.
Qed.

Lemma merge_cursor_restrict ck fu a0 r0 Sf Ss :
  restricts fu a0 r0 Sf Ss ->
  (a0 <= ck_acknowledged_sequence ck <= sc_acknowledged_sequence Sf)%Z ->
  (r0 <= ck_remote_revision ck <= sc_remote_revision Sf)%Z ->
  (0 <= a0)%Z -> (0 <= r0)%Z ->
  merge_cursor (Some ck) Ss = (sc_acknowledged_sequence Sf, sc_remote_revision Sf).
Proof.
  intros R Ha Hr Ha0 Hr0. unfold merge_cursor. destruct (rs_cursor _ _ _ _ _ R) as [[-> ->]|(-> & -> & Ea & Er)].
  - destruct (Z.ltb_spec (sc_acknowledged_sequence Sf) (ck_acknowledged_sequence ck)); [lia|].
    destruct (Z.eqb_spec (ck_acknowledged_sequence ck) (sc_acknowledged_sequence Sf)); [|done].
    f_equal. lia.
  - destruct (Z.ltb_spec 0 (ck_acknowledged_sequence ck)); [f_equal; lia|].
    destruct (Z.eqb_spec (ck_acknowledged_sequence ck) 0); [f_equal; lia|lia].
Qed.

(** The part of recovery after the scan, on a restricted scan: it validates,
    and rebuilds the tracked index. *)
Lemma recovered_index epoch fu a0 r0 Sf Ss i :
  tracks epoch Sf i -> restricts fu a0 r0 Sf Ss ->
  (1 <= fu <= sc_acknowledged_sequence Sf + 1)%Z ->
  let sc := set_cursor (sc_acknowledged_sequence Sf, sc_remote_revision Sf) Ss in
  validate_scan sc = Ok tt
  /\ let sc' := retain_backlog sc in
     sc_prepared sc' = i.(prepared) /\ sc_committed sc' = i.(committed)
     /\ sc_aborted sc' = i.(aborted)
     /\ sc_acknowledged_sequence sc' = i.(acknowledged_sequence)
     /\ sc_remote_revision sc' = i.(remote_revision)
     /\ sc_first_unpruned_sequence sc' = i.(first_unpruned_sequence)
     /\ recovered_next_sequence sc' = Ok i.(next_sequence).
Proof.
  intros T R Hfu. destruct T as [? ? Tdom Tterm Tdis Tres Tid Tack Tnext Trev ? ? ? Tp Tc Ta].
  destruct R as [_ Rp Rc Ra Rf _ _ _].
  destruct Ss as [es ps cs as_ ks vs ds fs]. cbn in *. subst ps cs as_ fs.
  set (ak := sc_acknowledged_sequence Sf) in *.
  split.
  - apply validate_scan_Ok; cbn.
    + intros s. rewrite lookup_map_split_off, !elem_of_set_split_off. intros Hs.
      rewrite decide_True by tauto. apply Tterm. tauto.
    + intros s Hs. rewrite !elem_of_set_split_off. destruct (Tres s); [lia|left|right]; split; done || lia.
  - assert (sat_add ak 1 = ak + 1)%Z as -> by (apply sat_add_exact; lia).
    assert (forall sc', sc_prepared sc' = i.(prepared) -> sc_acknowledged_sequence sc' = ak ->
              recovered_next_sequence sc' = Ok i.(next_sequence)) as Hnext.
    { intros sc' Hp Hk. unfold recovered_next_sequence. rewrite Hp, Hk, Tp.
      rewrite (last_interval_key _ (ak + 1) i.(next_sequence)).
      2: { intros k. rewrite lookup_map_split_off. case_decide as Hd.
           - rewrite Tdom. lia.
           - split; [intros [? ?]; done|lia]. }
      destruct (Z.ltb_spec (ak + 1) (next_sequence i)); cbn.
      - rewrite Z.max_l by lia. rewrite checked_add_exact by lia. cbn. f_equal. lia.
      - rewrite Z.max_id, checked_add_exact by lia. cbn. f_equal. lia. }
    destruct (Z.ltb_spec fu (ak + 1)) as [Hlt|Hge].
    + cbn. rewrite map_split_off_twice, !set_split_off_twice, Z.max_r by lia. rewrite Tp, Tc, Ta.
      split_and!; try done. apply Hnext; cbn; by rewrite ?Tp.
    + assert (fu = ak + 1)%Z as -> by lia. cbn. rewrite Tp, Tc, Ta.
      split_and!; try done. apply Hnext; cbn; by rewrite ?Tp.
Qed.

(** ** Where a prepared record comes from *)

Lemma sequence_strip ev : sequence (strip_folded ev) = sequence ev.
Proof. by destruct ev. Qed.

(** How one record changes the prepared map. *)
Lemma scan_entry_change S e S' :
  scan_entry S e = Ok S' ->
  sc_prepared S' = sc_prepared S
  \/ (exists ev, e_record e = Prepared ev
      /\ sc_prepared S' = <[sequence ev := MkPrepared (strip_folded ev) e.(e_generation) e.(e_offset)]>
                            (sc_prepared S))
  \/ (exists seq id r, sc_prepared S !! seq = Some r
      /\ sc_prepared S' = <[seq := set_record_identity id r]> (sc_prepared S)).
Proof.
  unfold scan_entry. destruct S as [ep p c a k v d f], e as [g off rec]. cbn [e_record e_generation e_offset].
  destruct rec as [| ev | ? seq id | | | |]; cbn; intros H; inv_ok H; try (left; by simplify_eq).
  - rewrite sequence_strip in H. destruct (f <=? sequence ev)%Z; [|left; by simplify_eq].
    inv_ok H. simplify_eq. right; left. by exists ev.
  - destruct (f <=? seq)%Z; [|left; by simplify_eq]. inv_ok H.
    destruct (p !! seq) as [r|] eqn:E; simplify_eq; [|by left]. right; right. by exists seq, id, r.
  - destruct (f <=? _)%Z; [|left; by simplify_eq]. inv_ok H. left. by simplify_eq.
Qed.

Lemma scan_entry_prepared S e S' s :
  scan_entry S e = Ok S' -> is_Some (sc_prepared S' !! s) ->
  is_Some (sc_prepared S !! s) \/ exists ev, e_record e = Prepared ev /\ sequence ev = s.
Proof.
  intros H Hs. destruct (scan_entry_change _ _ _ H) as [E|[(ev & He & E)|(seq & id & r & Hr & E)]];
    rewrite E in Hs; [by left| |].
  - destruct (decide (sequence ev = s)); [right; eauto|]. rewrite lookup_insert_ne in Hs by done. by left.
  - left. destruct (decide (seq = s)) as [<-|]; [eauto|]. by rewrite lookup_insert_ne in Hs.
Qed.

Lemma scan_prepared_from K S s :
  history_scan K = Ok S -> is_Some (sc_prepared S !! s) ->
  exists e ev, e ∈ K /\ e_record e = Prepared ev /\ sequence ev = s.
Proof.
  revert S; induction K as [|e K IH] using rev_ind; intros S; unfold history_scan.
  - cbn. intros [= <-] [? Hs]. cbn in Hs. by rewrite lookup_empty in Hs.
  - rewrite foldM_app. destruct (foldM scan_entry (scan_seed 1 ∅) K) as [S1|] eqn:E1; [|done].
    cbn. destruct (scan_entry S1 e) as [S2|] eqn:E2; [|done]. intros [= <-] Hs.
    destruct (scan_entry_prepared _ _ _ _ E2 Hs) as [H|(ev & He & Hev)].
    + destruct (IH _ E1 H) as (e' & ev & Hin & ?). exists e', ev. set_solver.
    + exists e, ev. set_solver.
Qed.

(** The scan of a whole history misses no prepare. *)
Lemma scan_entry_monotone S e S' s :
  scan_entry S e = Ok S' -> is_Some (sc_prepared S !! s) -> is_Some (sc_prepared S' !! s).
Proof.
  intros H Hs. destruct (scan_entry_change _ _ _ H) as [E|[(ev & He & E)|(seq & id & r & Hr & E)]];
    rewrite E; [done| |]; by apply lookup_insert_is_Some'; right.
Qed.

Lemma scan_first_unpruned T S S' :
  foldM scan_entry S T = Ok S' -> sc_first_unpruned_sequence S' = sc_first_unpruned_sequence S.
Proof.
  revert S; induction T as [|e T IH]; intros S Hf; cbn in Hf; [by simplify_eq|].
  destruct (scan_entry S e) as [S1|] eqn:E1; [|done]. rewrite (IH _ Hf). clear IH Hf.
  unfold scan_entry in E1. destruct S as [ep p c a k v d f].
  destruct (persisted (e_record e)); cbn in E1; inv_ok E1; break_all E1; try (inv_ok E1); by simplify_eq.
Qed.

Lemma scan_present K S e ev :
  history_scan K = Ok S -> e ∈ K -> e_record e = Prepared ev -> (1 <= sequence ev)%Z ->
  is_Some (sc_prepared S !! sequence ev).
Proof.
  intros HS He Hev Hpos. revert S HS.
  induction K as [|x K IH] using rev_ind; intros S; [by apply elem_of_nil in He|].
  unfold history_scan. rewrite foldM_app.
  destruct (foldM scan_entry (scan_seed 1 ∅) K) as [S1|] eqn:E1; [|done]. cbn.
  destruct (scan_entry S1 x) as [S2|] eqn:E2; [|done]. intros [= <-].
  apply elem_of_app in He as [He|He]; [eapply scan_entry_monotone; eauto|].
  apply list_elem_of_singleton in He as <-. apply scan_first_unpruned in E1. cbn in E1.
  unfold scan_entry in E2. rewrite Hev in E2. destruct S1 as [ep p c a k v d f]. cbn in *. subst f.
  inv_ok E2. rewrite sequence_strip in E2. destruct (Z.leb_spec 1 (sequence ev)); [|lia].
  inv_ok E2. simplify_eq. cbn. rewrite lookup_insert_eq. eauto.
Qed.

(** Where a record says it is, its prepare is. *)
Lemma scan_located K S s r :
  history_scan K = Ok S -> sc_prepared S !! s = Some r ->
  exists A ev B, K = A ++ MkEntry r.(pr_generation) r.(pr_offset) (Prepared ev) :: B
    /\ sequence ev = s.
Proof.
  revert S r; induction K as [|e K IH] using rev_ind; intros S r; unfold history_scan.
  - cbn. intros [= <-] Hs. cbn in Hs. by rewrite lookup_empty in Hs.
  - rewrite foldM_app. destruct (foldM scan_entry (scan_seed 1 ∅) K) as [S1|] eqn:E1; [|done].
    cbn. destruct (scan_entry S1 e) as [S2|] eqn:E2; [|done]. intros [= <-] Hs.
    assert ((exists r1, sc_prepared S1 !! s = Some r1 /\ pr_generation r1 = pr_generation r
                        /\ pr_offset r1 = pr_offset r)
            \/ exists ev, e = MkEntry (pr_generation r) (pr_offset r) (Prepared ev) /\ sequence ev = s)
      as [(r1 & Hr1 & <- & <-)|(ev & -> & Hev)].
    { destruct (scan_entry_change _ _ _ E2) as [E|[(ev & He & E)|(seq & id & r' & Hr & E)]];
        rewrite E in Hs.
      - left. eauto.
      - destruct (decide (sequence ev = s)) as [Hev|Hne].
        + rewrite Hev, lookup_insert_eq in Hs. simplify_eq. right. exists ev. by destruct e; cbn in *; subst.
        + rewrite lookup_insert_ne in Hs by done. left. eauto.
      - left. destruct (decide (seq = s)) as [->|Hne].
        + rewrite lookup_insert_eq in Hs. simplify_eq. eauto.
        + rewrite lookup_insert_ne in Hs by done. eauto. }
    + destruct (IH _ _ E1 Hr1) as (A & ev & B & -> & ?).
      exists A, ev, (B ++ [e]). by rewrite <- app_assoc.
    + exists K, ev, []. done.
Qed.

(** The events of a scan were validated by it. *)
Lemma scan_valid K S s r :
  history_scan K = Ok S -> sc_prepared S !! s = Some r -> validate (mutation r.(pr_event)) = Ok tt.
Proof.
  revert S r; induction K as [|e K IH] using rev_ind; intros S r; unfold history_scan.
  - cbn. intros [= <-] Hs. cbn in Hs. by rewrite lookup_empty in Hs.
  - rewrite foldM_app. destruct (foldM scan_entry (scan_seed 1 ∅) K) as [S1|] eqn:E1; [|done].
    cbn. destruct (scan_entry S1 e) as [S2|] eqn:E2; [|done]. intros [= <-] Hs.
    destruct (scan_entry_change _ _ _ E2) as [E|[(ev & He & E)|(seq & id & r' & Hr & E)]];
      rewrite E in Hs; [by eapply IH| |].
    + destruct (decide (sequence ev = s)) as [Hev|Hne].
      * rewrite Hev, lookup_insert_eq in Hs. injection Hs as <-. unfold scan_entry in E2.
        rewrite He in E2. destruct S1. cbn in E2. inv_ok E2. by destruct x0.
      * rewrite lookup_insert_ne in Hs by done. by eapply IH.
    + destruct (decide (seq = s)) as [->|Hne].
      * rewrite lookup_insert_eq in Hs. injection Hs as <-. specialize (IH _ _ E1 Hr).
        by destruct r' as [[] ? ?].
      * rewrite lookup_insert_ne in Hs by done. by eapply IH.
Qed.

(** ** Replaying a described history *)

(** [ck] describes the history [H] as it was after [c] entries: it carries the
    cursor of that moment, and its replay point is before entry [k], below which
    every prepare was acknowledged. *)
Record describes (epoch : string) (H : list Entry) (ck : MountCheckpoint) (c k : nat) (S0 : ScanState)
  : Prop := {
  ds_c : c <= length H;
  ds_k : k <= c;
  ds_scan : history_scan (take c H) = Ok S0;
  ds_ack : ck_acknowledged_sequence ck = sc_acknowledged_sequence S0;
  ds_rev : ck_remote_revision ck = sc_remote_revision S0;
  ds_first : ck_first_unpruned_sequence ck = (sc_acknowledged_sequence S0 + 1)%Z;
  ds_epoch : ck_epoch ck = epoch;
  ds_epoch_nonempty : is_empty_str epoch = false;
  ds_version : readable_wal_format (ck_format_version ck) = true;
  ds_low : forall e ev, e ∈ take k H -> e_record e = Prepared ev ->
    (sequence ev <= sc_acknowledged_sequence S0)%Z;
  ds_below : forall e, e ∈ take k H -> (e_generation e <= ck_replay_log_generation ck)%Z;
  ds_above : forall e, e ∈ drop k H -> (ck_replay_log_generation ck <= e_generation e)%Z;
  ds_offset : ck_replay_log_offset ck
    = zlen (image (of_generation (ck_replay_log_generation ck) (take k H)));
  ds_active_in : ck_replay_log_generation ck ∈ ck_active_log_generations ck;
  ds_active : forall e, e ∈ take c H -> (ck_replay_log_generation ck <= e_generation e)%Z ->
    e_generation e ∈ ck_active_log_generations ck;
  ds_later : forall g e, g ∈ ck_active_log_generations ck -> (ck_replay_log_generation ck <= g)%Z ->
    e ∈ drop c H -> (g <= e_generation e)%Z;
  ds_dirty : Forall (fun p => validate_mount_path p = Ok tt) (ck_dirty_content_paths ck);
}.

(** Every prefix of the history is tracked by some index. *)
Definition tracked (epoch : string) (H : list Entry) : Prop :=
  forall j, j <= length H -> exists S i, history_scan (take j H) = Ok S /\ tracks epoch S i.

(** The files of a state directory hold the history [K], up to a torn tail in
    the newest generation [G]. *)
Record holds_history (d : Disk) (ck : MountCheckpoint) (K : list Entry) (G : Z) (torn : bytes) : Prop := {
  hh_torn : newline ∉ torn;
  hh_newest : forall g, is_Some (logs d !! g) -> (g <= G)%Z;
  hh_last : logs d !! G = Some (image (of_generation G K) ++ torn);
  hh_other : forall g, (ck_replay_log_generation ck <= g < G)%Z -> is_Some (logs d !! g) ->
    logs d !! g = Some (image (of_generation g K));
  hh_entries : forall e, e ∈ K -> (ck_replay_log_generation ck <= e_generation e)%Z ->
    is_Some (logs d !! e_generation e);
  hh_active : forall g, g ∈ ck_active_log_generations ck -> (ck_replay_log_generation ck <= g)%Z ->
    is_Some (logs d !! g);
}.

Lemma elem_of_sort_dedup l g : g ∈ sort_dedup l <-> g ∈ l.
Proof. unfold sort_dedup. by rewrite elem_of_sorted_Z, elem_of_list_to_set. Qed.

Lemma sort_dedup_sorted l : StronglySorted Z.lt (sort_dedup l).
Proof.
  unfold sort_dedup. pose proof (sorted_Z_sorted (list_to_set l)) as Hs.
  pose proof (NoDup_sorted_Z (list_to_set l)) as Hn. revert Hs Hn.
  generalize (sorted_Z (list_to_set l)). induction 1 as [|x k Hk IH Hx]; intros Hn; constructor.
  - apply IH. by inversion Hn.
  - apply NoDup_cons in Hn as [Hnin _]. rewrite Forall_forall in Hx |- *. intros y Hy.
    specialize (Hx y Hy). assert (x <> y) by (intros ->; done). lia.
Qed.

Lemma sorted_last_max plan G :
  StronglySorted Z.lt plan -> G ∈ plan -> (forall g, g ∈ plan -> (g <= G)%Z) ->
  exists plan', plan = plan' ++ [G] /\ (forall g, g ∈ plan' -> (g < G)%Z).
Proof.
  intros Hs Hin Hmax. destruct plan as [|x plan _] using rev_ind; [by apply elem_of_nil in Hin|].
  assert (forall g, g ∈ plan -> (g < x)%Z) as Hlt.
  { intros g Hg. eapply StronglySorted_app_1_elem_of in Hs; [done|done|by apply list_elem_of_singleton]. }
  assert (x = G) as ->.
  { specialize (Hmax x ltac:(set_solver)). apply elem_of_app in Hin as [Hin|Hin].
    - specialize (Hlt _ Hin). lia.
    - by apply list_elem_of_singleton in Hin. }
  eauto.
Qed.

Lemma guards_pass {A} (f : A -> bool) (err : A -> MountError) l :
  (forall x, x ∈ l -> f x = false) ->
  foldM (fun _ x => guard_err (f x) (err x)) tt l = Ok tt.
Proof.
  induction l as [|x l IH]; intros H; cbn; [done|]. rewrite H by set_solver. cbn. apply IH. set_solver.
Qed.

(** The plan lists the newest generation last, and every generation of the suffix. *)
Lemma replay_plan_spec epoch d ck K c k S0 G torn :
  describes epoch K ck c k S0 -> holds_history d ck K G torn ->
  exists plan, replay_plan (Some ck) (log_generations d) = Ok (plan ++ [G])
    /\ StronglySorted Z.lt (plan ++ [G])
    /\ (forall g, g ∈ plan -> (ck_replay_log_generation ck <= g < G)%Z /\ is_Some (logs d !! g))
    /\ Forall (fun e => e_generation e ∈ plan ++ [G]) (drop k K)
    /\ ck_replay_log_generation ck ∈ plan ++ [G].
Proof.
  intros D Hh. unfold replay_plan.
  set (rg := ck_replay_log_generation ck) in *.
  set (declared := sort_dedup (List.filter (fun g => rg <=? g)%Z (ck_active_log_generations ck))).
  assert (forall g, g ∈ declared <-> (rg <= g)%Z /\ g ∈ ck_active_log_generations ck) as Hdecl.
  { intros g. unfold declared. rewrite elem_of_sort_dedup, elem_of_List_filter, Z.leb_le. tauto. }
  assert (rg ∈ declared) as Hrg by (apply Hdecl; split; [lia|apply D]).
  assert (forall g, g ∈ log_generations d <-> is_Some (logs d !! g)) as Hdisk.
  { intros g. apply elem_of_btree_keys. }
  rewrite guards_pass.
  2: { intros g Hg. apply negb_false_iff, bool_decide_eq_true, Hdisk.
       apply Hdecl in Hg as [? ?]. by apply (hh_active _ _ _ _ _ Hh). }
  cbn [mbind result_bind]. destruct (last declared) as [hi|] eqn:Ehi.
  2: { apply last_None in Ehi. rewrite Ehi in Hrg. by apply elem_of_nil in Hrg. }
  change (default rg (Some hi)) with hi.
  assert (hi ∈ declared) as Hhi by (by apply last_Some_elem_of).
  assert (forall g, g ∈ declared -> (g <= hi)%Z) as Hmax.
  { intros g Hg. apply last_Some in Ehi as [l Ehi].
    pose proof (sort_dedup_sorted (List.filter (fun g => rg <=? g)%Z (ck_active_log_generations ck))) as Hs.
    fold declared in Hs. rewrite Ehi in Hs, Hg. apply elem_of_app in Hg as [Hg|Hg].
    - eapply StronglySorted_app_1_elem_of in Hs; [|done|by apply list_elem_of_singleton]. lia.
    - apply list_elem_of_singleton in Hg. lia. }
  set (full := sort_dedup (declared ++ _)).
  assert (forall g, g ∈ full <-> g ∈ declared \/ ((hi < g)%Z /\ is_Some (logs d !! g))) as Hfull.
  { intros g. unfold full. rewrite elem_of_sort_dedup, elem_of_app, elem_of_List_filter, Z.ltb_lt, Hdisk. tauto. }
  assert (forall g, g ∈ declared -> is_Some (logs d !! g)) as Hdd.
  { intros g Hg. apply Hdecl in Hg as [? ?]. by apply (hh_active _ _ _ _ _ Hh). }
  assert (is_Some (logs d !! G)) as HG by (rewrite (hh_last _ _ _ _ _ Hh); eauto).
  destruct (sorted_last_max full G (sort_dedup_sorted _)) as (plan & Hplan & Hlt).
  { apply Hfull. destruct (decide (hi < G)%Z); [by right|]. left.
    assert (hi = G) as <-; [|done].
    pose proof (hh_newest _ _ _ _ _ Hh hi (Hdd _ Hhi)). lia. }
  { intros g Hg. apply Hfull in Hg as [Hg|[_ Hg]]; apply (hh_newest _ _ _ _ _ Hh); auto. }
  assert (forall g, g ∈ full -> (rg <= g)%Z /\ is_Some (logs d !! g)) as Hge.
  { intros g Hg. apply Hfull in Hg as [Hg|[Hg ?]]; [split; [by apply Hdecl|auto]|].
    split; [|done]. specialize (Hmax _ Hrg). lia. }
  exists plan. rewrite Hplan. split_and!; [done| | | |].
  - rewrite <- Hplan. apply sort_dedup_sorted.
  - intros g Hg. destruct (Hge g) as [? ?]; [rewrite Hplan; set_solver|]. auto.
  - rewrite <- Hplan. apply Forall_forall. intros e He. apply Hfull.
    pose proof (ds_above _ _ _ _ _ _ D _ He) as Hab. fold rg in Hab.
    assert (e ∈ K) as HeK by (rewrite <- (take_drop k K); set_solver).
    rewrite <- (take_drop c K) in HeK. apply elem_of_app in HeK as [Hc|Hc].
    + left. apply Hdecl. split; [done|]. by apply (ds_active _ _ _ _ _ _ D).
    + pose proof (ds_later _ _ _ _ _ _ D hi e) as Hl.
      assert (hi <= e_generation e)%Z as Hle. { apply Hl; [by apply Hdecl..|done]. }
      destruct (decide (e_generation e = hi)) as [->|]; [by left|right].
      split; [lia|]. apply (hh_entries _ _ _ _ _ Hh); [|done]. rewrite <- (take_drop c K). set_solver.
  - rewrite <- Hplan. apply Hfull. by left.
Qed.

Lemma files_hold epoch d ck K c k S0 G torn g t :
  placed K -> describes epoch K ck c k S0 -> holds_history d ck K G torn ->
  (ck_replay_log_generation ck <= g)%Z ->
  logs d !! g = Some (image (of_generation g K) ++ t) ->
  file_holds (logs d) (ck_replay_log_generation ck) (ck_replay_log_offset ck) (drop k K) g t.
Proof.
  intros Hp D Hh Hge Hf. set (rg := ck_replay_log_generation ck) in *.
  assert (of_generation g K = of_generation g (take k K) ++ of_generation g (drop k K)) as Hs.
  { by rewrite <- of_generation_app, take_drop. }
  exists (image (of_generation g (take k K))).
  assert (zlen (image (of_generation g (take k K))) = start_of rg (ck_replay_log_offset ck) g) as Hlen.
  { unfold start_of. destruct (Z.eqb_spec g rg) as [->|Hne].
    - by rewrite (ds_offset _ _ _ _ _ _ D).
    - rewrite of_generation_other; [done|]. apply Forall_forall. intros e He.
      pose proof (ds_below _ _ _ _ _ _ D _ He). fold rg in H. lia. }
  split_and!.
  - rewrite Hf, Hs, image_app. by rewrite <- app_assoc.
  - done.
  - rewrite <- Hlen. pose proof (placed_consecutive _ Hp g) as Hc. rewrite Hs in Hc.
    apply consecutive_app in Hc as [_ Hc]. by rewrite Z.add_0_l in Hc.
Qed.

Lemma restricts_start epoch K ck c k S0 Sk dirty :
  describes epoch K ck c k S0 -> tracked epoch K -> history_scan (take k K) = Ok Sk ->
  restricts (ck_first_unpruned_sequence ck) (sc_acknowledged_sequence Sk) (sc_remote_revision Sk)
    Sk (scan_seed (ck_first_unpruned_sequence ck) dirty).
Proof.
  intros D Ht Hk. pose proof (ds_c _ _ _ _ _ _ D). pose proof (ds_k _ _ _ _ _ _ D).
  destruct (Ht k ltac:(lia)) as (Sk' & ik & Hk' & T). rewrite Hk in Hk'. simplify_eq.
  set (fu := ck_first_unpruned_sequence ck).
  assert (forall s, is_Some (sc_prepared Sk' !! s) -> (s < fu)%Z) as Hlow.
  { intros s Hs. destruct (scan_prepared_from _ _ _ Hk Hs) as (e & ev & Hin & He & <-).
    pose proof (ds_low _ _ _ _ _ _ D _ _ Hin He). unfold fu. rewrite (ds_first _ _ _ _ _ _ D). lia. }
  constructor; cbn; auto.
  - symmetry. apply map_eq. intros s. rewrite lookup_map_split_off, lookup_empty.
    case_decide; [|done]. destruct (sc_prepared Sk' !! s) eqn:E; [|done].
    specialize (Hlow s ltac:(eauto)). lia.
  - symmetry. apply set_eq. intros s. rewrite elem_of_set_split_off. split; [|set_solver].
    intros [Hge Hs]. specialize (Hlow s (tr_terminal _ _ _ T _ (or_introl Hs))). lia.
  - symmetry. apply set_eq. intros s. rewrite elem_of_set_split_off. split; [|set_solver].
    intros [Hge Hs]. specialize (Hlow s (tr_terminal _ _ _ T _ (or_intror Hs))). lia.
  - apply T.
  - pose proof (tr_ack_range _ _ _ T). pose proof (tr_rev _ _ _ T). lia.
Qed.

(** A set of paths that recovery may seal. *)
Definition valid_paths (d : gset string) : Prop := forall p, p ∈ d -> validate_mount_path p = Ok tt.

Lemma seed_dirty_Ok ck :
  Forall (fun p => validate_mount_path p = Ok tt) (ck_dirty_content_paths ck) ->
  exists dirty, seed_dirty (Some ck) = Ok dirty /\ valid_paths dirty.
Proof.
  cbn. assert (valid_paths ∅) as Hd by (intros p Hp; set_solver). revert Hd.
  generalize (ck_dirty_content_paths ck) as l, (∅ : gset string) as d.
  induction l as [|p l IH]; intros d Hd Hf; cbn; [eauto|].
  apply Forall_cons in Hf as [Hp Hf]. rewrite Hp. cbn. apply IH; [|done].
  destruct (is_local_only_content_path p); [done|]. intros q Hq.
  apply elem_of_union in Hq as [Hq|Hq]; [|auto]. by apply elem_of_singleton in Hq as ->.
Qed.

(** Scanning keeps the dirty set and the prepared mutations valid. *)
Definition scan_sane (S : ScanState) : Prop :=
  valid_paths (sc_dirty_content S)
  /\ forall s r, sc_prepared S !! s = Some r -> validate (mutation r.(pr_event)) = Ok tt.

Lemma scan_entry_sane S e S' : scan_sane S -> scan_entry S e = Ok S' -> scan_sane S'.
Proof.
  intros [Hd Hp] He. unfold scan_entry in He. destruct S as [ep p c a k v d f], e as [g off rec].
  cbn [e_record e_generation e_offset sc_dirty_content sc_prepared] in *.
  destruct rec as [| ev | ? seq id | | ? path | |]; cbn in He; inv_ok He; try (by simplify_eq).
  - destruct (f <=? _)%Z; [|by simplify_eq]. inv_ok He. simplify_eq. split; [done|]. cbn. intros s r.
    destruct (decide (sequence (strip_folded ev) = s)) as [->|Hne].
    + rewrite lookup_insert_eq. intros [= <-]. by destruct x0.
    + rewrite lookup_insert_ne by done. apply Hp.
  - destruct (f <=? _)%Z; [|by simplify_eq]. inv_ok He.
    destruct (p !! seq) as [r|] eqn:E; simplify_eq; [|done]. split; cbn.
    + intros q. apply dirty_effect_valid; eauto.
    + intros s r'. destruct (decide (seq = s)) as [->|Hne].
      * rewrite lookup_insert_eq. intros [= <-]. specialize (Hp _ _ E). by destruct r as [[] ? ?].
      * rewrite lookup_insert_ne by done. apply Hp.
  - destruct (f <=? _)%Z; [|by simplify_eq]. inv_ok He. by simplify_eq.
  - simplify_eq. split; [|done]. cbn. destruct (is_local_only_content_path path); [done|].
    intros q Hq. apply elem_of_union in Hq as [Hq|Hq]; [|auto]. apply elem_of_singleton in Hq as ->.
    by destruct x0.
Qed.

Lemma scan_fold_sane T S S' : scan_sane S -> foldM scan_entry S T = Ok S' -> scan_sane S'.
Proof.
  revert S; induction T as [|e T IH]; intros S HS Hf; cbn in Hf; [by simplify_eq|].
  destruct (scan_entry S e) eqn:E; [|done]. eauto using scan_entry_sane.
Qed.

(** The index of the recovered scan [sc] and next sequence [next] is the one of [i]. *)
Definition same_index (sc : ScanState) (next : Z) (i : IndexPart) : Prop :=
  sc_prepared sc = i.(prepared) /\ sc_committed sc = i.(committed) /\ sc_aborted sc = i.(aborted)
  /\ sc_acknowledged_sequence sc = i.(acknowledged_sequence)
  /\ sc_remote_revision sc = i.(remote_revision)
  /\ sc_first_unpruned_sequence sc = i.(first_unpruned_sequence)
  /\ next = i.(next_sequence).

Lemma load_described epoch d ck K c k S0 :
  describes epoch K ck c k S0 -> tracked epoch K -> checkpoint_file d = FileJson ck ->
  load_checkpoint d = Ok (Some ck).
Proof.
  intros D Ht Hf. unfold load_checkpoint. rewrite Hf. cbn. unfold MountCheckpoint_validate.
  rewrite (ds_version _ _ _ _ _ _ D), (ds_epoch _ _ _ _ _ _ D), (ds_epoch_nonempty _ _ _ _ _ _ D). cbn.
  rewrite bool_decide_true by apply D. cbn.
  rewrite (ds_first _ _ _ _ _ _ D), (ds_ack _ _ _ _ _ _ D).
  destruct (Ht c (ds_c _ _ _ _ _ _ D)) as (S0' & i0 & Hs & T). rewrite (ds_scan _ _ _ _ _ _ D) in Hs.
  simplify_eq. pose proof (tr_ack_range _ _ _ T). pose proof (tr_next_range _ _ _ T).
  rewrite sat_add_exact by lia. by rewrite Z.ltb_irrefl.
Qed.

(** Opening a state directory that holds a described history rebuilds the index
    that tracks it. *)
Lemma replay_described epoch d ck K c k S0 G torn S i expected fresh :
  placed K -> tracked epoch K -> describes epoch K ck c k S0 -> holds_history d ck K G torn ->
  checkpoint_file d = FileJson ck -> history_scan K = Ok S -> tracks epoch S i ->
  expected = None \/ expected = Some epoch ->
  exists rp, replay d expected fresh = Ok rp
    /\ same_index (rp_scan rp) (rp_next_sequence rp) i /\ rp_epoch rp = epoch
    /\ rp_checkpoint rp = Some ck
    /\ last (rp_plan rp) = Some G
    /\ (forall g, g ∈ rp_plan rp -> is_Some (logs d !! g))
    /\ (forall e, e ∈ K -> (ck_replay_log_generation ck <= e_generation e)%Z ->
         e_generation e ∈ rp_plan rp)
    /\ rp_files rp = <[G := image (of_generation G K)]> (logs d)
    /\ valid_paths (sc_dirty_content (rp_scan rp)).
Proof.
  intros Hp Ht D Hh Hck HS T Hexp. unfold replay.
  rewrite (load_described _ _ _ _ _ _ _ D Ht Hck). cbn [mbind result_bind].
  destruct (seed_dirty_Ok ck (ds_dirty _ _ _ _ _ _ D)) as (dirty & Hdirty & Hvalid).
  rewrite Hdirty. cbn [mbind result_bind].
  destruct (replay_plan_spec _ _ _ _ _ _ _ _ _ D Hh) as (plan & -> & Hsort & Hin & Hcov & HG).
  assert (ck_replay_log_generation ck <= G)%Z as HrgG.
  { apply elem_of_app in HG as [HG|HG]; [apply Hin in HG; lia|]. apply list_elem_of_singleton in HG. lia. }
  cbn [mbind result_bind].
  rewrite (replay_generations_holds (logs d) _ _ _ (drop k K) plan torn G).
  2: { intros g Hg. destruct (Hin g Hg) as [? ?].
       eapply files_hold; [done..|lia|]. rewrite app_nil_r. by apply (hh_other _ _ _ _ _ Hh). }
  2: { eapply files_hold; [done..|apply Hh]. }
  2: apply Hh.
  rewrite <- (split_by_generation (drop k K) (plan ++ [G])); [|..|done|done].
  2: { pose proof (placed_monotone _ Hp) as Hm. rewrite <- (take_drop k K) in Hm.
       by apply StronglySorted_app_1_r in Hm. }
  destruct (Ht k) as (Sk & ik & Hk & Tk).
  { pose proof (ds_c _ _ _ _ _ _ D). pose proof (ds_k _ _ _ _ _ _ D). lia. }
  assert (history_scan (take c K) = Ok S0) as HS0 by apply D.
  assert (foldM scan_entry Sk (drop k K) = Ok S) as Hsuf.
  { unfold history_scan in HS, Hk. rewrite <- (take_drop k K), foldM_app, Hk in HS. done. }
  assert (1 <= ck_first_unpruned_sequence ck)%Z as Hfu.
  { destruct (Ht c (ds_c _ _ _ _ _ _ D)) as (S0' & i0 & Hs & T0). rewrite HS0 in Hs. simplify_eq.
    rewrite (ds_first _ _ _ _ _ _ D). pose proof (tr_ack_range _ _ _ T0). lia. }
  rewrite (Z.max_l (ck_first_unpruned_sequence ck)) by lia.
  destruct (restricts_fold _ _ _ _ _ _ _ Hfu (restricts_start _ _ _ _ _ _ _ dirty D Ht Hk) Hsuf)
    as (Ss & HSs & R).
  assert (valid_paths (sc_dirty_content Ss)) as Hdv.
  { assert (scan_sane (scan_seed (ck_first_unpruned_sequence ck) dirty)) as Hs0.
    { split; [done|]. intros s r. cbn. by rewrite lookup_empty. }
    by apply (scan_fold_sane _ _ _ Hs0 HSs). }
  rewrite HSs. cbn [mbind result_bind].
  assert (reconcile_epoch (sc_epoch Ss) (Some ck) expected fresh = Ok epoch) as ->.
  { unfold reconcile_epoch. cbn. rewrite (ds_epoch _ _ _ _ _ _ D).
    destruct (rs_epoch_ok _ _ _ _ _ R) as [-> | ->];
      [|destruct (tr_epoch _ _ _ T) as [-> | ->]]; cbn; rewrite ?String.eqb_refl; cbn;
      destruct Hexp as [-> | ->]; by rewrite ?String.eqb_refl. }
  cbn [mbind result_bind].
  assert (sc_acknowledged_sequence Sk <= ck_acknowledged_sequence ck <= sc_acknowledged_sequence S
          /\ sc_remote_revision Sk <= ck_remote_revision ck <= sc_remote_revision S)%Z as [Ha Hr].
  { rewrite (ds_ack _ _ _ _ _ _ D), (ds_rev _ _ _ _ _ _ D).
    assert (foldM scan_entry S0 (drop c K) = Ok S) as H1.
    { unfold history_scan in HS, HS0. rewrite <- (take_drop c K), foldM_app, HS0 in HS. done. }
    assert (foldM scan_entry Sk (drop k (take c K)) = Ok S0) as H2.
    { unfold history_scan in HS0, Hk. rewrite <- (take_drop k (take c K)), foldM_app in HS0.
      rewrite take_take, Nat.min_l in HS0 by apply D. rewrite Hk in HS0. done. }
    apply scan_cursor_mono in H1, H2. lia. }
  rewrite (merge_cursor_restrict _ _ _ _ _ _ R Ha Hr)
    by (pose proof (tr_ack_range _ _ _ Tk); pose proof (tr_rev _ _ _ Tk); lia).
  destruct (recovered_index _ _ _ _ _ _ _ T R) as [-> Hidx].
  { split; [done|]. rewrite (ds_first _ _ _ _ _ _ D), <- (ds_ack _ _ _ _ _ _ D). lia. }
  cbn [mbind result_bind]. cbv zeta in Hidx. destruct Hidx as (H1 & H2 & H3 & H4 & H5 & H6 & H7).
  rewrite H7. cbn [mbind result_bind]. eexists; split; [done|].
  cbn [rp_scan rp_next_sequence rp_epoch rp_checkpoint rp_plan rp_files].
  split_and!; try done.
  - apply last_snoc.
  - intros g Hg. apply elem_of_app in Hg as [Hg|Hg]; [by apply Hin|].
    apply list_elem_of_singleton in Hg as ->. rewrite (hh_last _ _ _ _ _ Hh). eauto.
  - intros e He Hge. rewrite <- (take_drop k K) in He. apply elem_of_app in He as [He|He].
    + assert (e_generation e = ck_replay_log_generation ck) as ->; [|done].
      pose proof (ds_below _ _ _ _ _ _ D _ He). lia.
    + rewrite Forall_forall in Hcov. by apply Hcov.
  - rewrite (hh_last _ _ _ _ _ Hh). destruct torn as [|b torn].
    + symmetry. apply insert_id. by rewrite (hh_last _ _ _ _ _ Hh), app_nil_r.
    + cbn [default from_option]. unfold id. rewrite zlen_app, Z.add_simpl_r. unfold zlen.
      by rewrite Nat2Z.id, take_app_length.
  - destruct Ss as [es ps cs as_ ks vs ds fs]. cbn in Hdv |- *. destruct (fs <? _)%Z; done.
Qed.

End recovery.
