(* ===== verification/WalInvariant.v ===== *)
(** * The invariant of the running log

    [Good H w]: the state directory of [w] holds the history [H], the durable
    checkpoint describes a point of it, and the in-memory index is what the
    history leaves unacknowledged. Every operation preserves it. *)

From S2P Require Import Prelude MountTypes WalTypes WalReplay Wal WalLayout WalRecovery.
From Stdlib Require Import ZArith Lia.

Section invariant.
Context {P : Platform} {C : RecordCodec} {CL : RecordCodecLaws C}.

(** ** One record at a time *)

Lemma observe_epoch_same epoch o :
  o = None \/ o = Some epoch -> observe_epoch o epoch = Ok (Some epoch).
Proof. intros [-> | ->]; cbn; [done|]. by rewrite String.eqb_refl. Qed.

Definition index_prepare (ev : MountEvent) (g off : Z) (i : IndexPart) : IndexPart :=
  MkIndex (i.(next_sequence) + 1) (<[i.(next_sequence) := MkPrepared ev g off]> i.(prepared)) i.(committed)
    i.(aborted) i.(acknowledged_sequence) i.(remote_revision) i.(first_unpruned_sequence)
    i.(dirty_content) i.(pending_payload_bytes).

(** An event as [prepare] builds it. *)
Record event_ok (epoch : string) (seq : Z) (ev : MountEvent) : Prop := {
  eo_version : readable_wal_format (event_format_version ev) = true;
  eo_epoch : event_epoch ev = epoch;
  eo_sequence : sequence ev = seq;
  eo_validate : validate (mutation ev) = Ok tt;
  eo_payload : validate_payload (mutation ev) (payload ev) = Ok tt;
  eo_identity : local_identity ev = None;
  eo_folded : strip_folded ev = ev;
}.

Lemma tracks_prepare epoch S i ev g off :
  tracks epoch S i -> event_ok epoch i.(next_sequence) ev -> (i.(next_sequence) + 1 <= U64_MAX)%Z ->
  exists S', scan_entry S (MkEntry g off (Prepared ev)) = Ok S'
    /\ sc_prepared S' = <[i.(next_sequence) := MkPrepared ev g off]> (sc_prepared S)
    /\ tracks epoch S' (index_prepare ev g off i).
Proof.
  intros T [Hv He Hs Hval Hp Hid Hfold] Hu.
  destruct T as [Tfu Tep Tdom Tterm Tdis Tres Tid Tack Tnext Trev Ta Tr Tf Tp Tc Tab].
  destruct S as [se sp sc sa sk sv sd sf]. cbn in *.
  unfold scan_entry; cbn. rewrite Hfold, Hv, Hval. cbn. rewrite Hp, He. cbn.
  rewrite observe_epoch_same by done. cbn. rewrite Hs, Tfu.
  destruct (Z.leb_spec 1 (next_sequence i)); [|lia].
  rewrite bool_decide_false by (rewrite Tdom; lia). cbn.
  eexists; split; [done|]. split; [done|]. constructor; cbn; auto.
  - intros s. destruct (decide (s = next_sequence i)) as [->|Hne].
    + rewrite lookup_insert_eq. split; [lia|by eexists].
    + rewrite lookup_insert_ne by done. rewrite Tdom. lia.
  - intros s Hst. specialize (Tterm _ Hst). destruct (decide (s = next_sequence i)) as [->|Hne].
    + rewrite lookup_insert_eq. by eexists.
    + by rewrite lookup_insert_ne.
  - intros s r. destruct (decide (s = next_sequence i)) as [->|Hne].
    + rewrite lookup_insert_eq. intros [= <-] _. done.
    + rewrite lookup_insert_ne by done. apply Tid.
  - lia.
  - rewrite Tp. by rewrite map_split_off_insert by lia.
Qed.

Lemma tracks_commit epoch S i seq id g off ev set_id :
  tracks epoch S i -> is_Some (i.(prepared) !! seq) -> resolved i seq = false ->
  (set_id = true \/ id = None) ->
  exists S', scan_entry S (MkEntry g off (Committed epoch seq id)) = Ok S'
    /\ sc_prepared S' = alter (set_record_identity id) seq (sc_prepared S)
    /\ tracks epoch S' (index_commit seq id ev set_id i).
Proof.
  intros T [r0 Hr] Hun Hset.
  destruct T as [Tfu Tep Tdom Tterm Tdis Tres Tid Tack Tnext Trev Ta Tr Tf Tp Tc Tab].
  destruct S as [se sp sc sa sk sv sd sf]. cbn in *.
  unfold resolved in Hun. bools.
  rewrite Tp, lookup_map_split_off in Hr. case_decide as Hge; [|done].
  rewrite Tc, elem_of_set_split_off in H. rewrite Tab, elem_of_set_split_off in H0.
  unfold scan_entry; cbn. rewrite observe_epoch_same by done. cbn. rewrite Tfu.
  destruct (Z.leb_spec 1 seq); [|lia].
  rewrite (bool_decide_false (seq ∈ sa)) by tauto. cbn.
  rewrite (bool_decide_false (seq ∈ sc)) by tauto. cbn. rewrite Hr.
  assert (<[seq := set_record_identity id r0]> sp = alter (set_record_identity id) seq sp) as Halter.
  { apply map_eq. intros k. destruct (decide (k = seq)) as [->|Hne].
    - by rewrite lookup_insert_eq, lookup_alter_eq, Hr.
    - by rewrite lookup_insert_ne, lookup_alter_ne. }
  eexists; split; [done|]. split; [done|]. constructor; cbn; auto.
  - intros s. rewrite Halter, lookup_alter_is_Some. apply Tdom.
  - intros s Hs. rewrite Halter, lookup_alter_is_Some. rewrite elem_of_union, elem_of_singleton in Hs.
    destruct Hs as [[->|Hs]|Hs]; eauto.
  - intros s. rewrite elem_of_union, elem_of_singleton. intros [->|Hs]; [tauto|]. eauto.
  - intros s Hs. specialize (Tres s Hs). rewrite elem_of_union. tauto.
  - intros s r Hs. rewrite elem_of_union, elem_of_singleton. intros Hn.
    rewrite lookup_insert_ne in Hs by (intros ->; tauto). apply (Tid s); tauto.
  - rewrite Halter. apply map_eq. intros k. rewrite lookup_map_split_off.
    destruct set_id.
    + rewrite Tp. destruct (decide (k = seq)) as [->|Hne].
      * by rewrite decide_True, !lookup_alter_eq, lookup_map_split_off, decide_True by done.
      * by rewrite !lookup_alter_ne, lookup_map_split_off by done.
    + destruct Hset as [|Hset]; [done|]. subst id. rewrite Tp, lookup_map_split_off.
      case_decide; [|done]. destruct (decide (k = seq)) as [->|Hne]; [|by rewrite lookup_alter_ne].
      rewrite lookup_alter_eq, Hr. cbn. specialize (Tid _ _ Hr ltac:(tauto)).
      destruct r0 as [[? ? ? ? ? ? ? ? ?] ? ?]; cbn in *. by rewrite Tid.
  - rewrite Tc. by rewrite set_split_off_union.
Qed.

Lemma tracks_abort epoch S i seq why g off :
  tracks epoch S i -> is_Some (i.(prepared) !! seq) -> resolved i seq = false ->
  exists S', scan_entry S (MkEntry g off (Aborted epoch seq why)) = Ok S'
    /\ sc_prepared S' = sc_prepared S
    /\ tracks epoch S' (index_abort seq i).
Proof.
  intros T [r0 Hr] Hun.
  destruct T as [Tfu Tep Tdom Tterm Tdis Tres Tid Tack Tnext Trev Ta Tr Tf Tp Tc Tab].
  destruct S as [se sp sc sa sk sv sd sf]. cbn in *.
  unfold resolved in Hun. bools.
  rewrite Tp, lookup_map_split_off in Hr. case_decide as Hge; [|done].
  rewrite Tc, elem_of_set_split_off in H. rewrite Tab, elem_of_set_split_off in H0.
  unfold scan_entry; cbn. rewrite observe_epoch_same by done. cbn. rewrite Tfu.
  destruct (Z.leb_spec 1 seq); [|lia].
  rewrite (bool_decide_false (seq ∈ sc)) by tauto. cbn.
  rewrite (bool_decide_false (seq ∈ sa)) by tauto. cbn.
  eexists; split; [done|]. split; [done|]. constructor; cbn; auto.
  - intros s Hs. rewrite elem_of_union, elem_of_singleton in Hs.
    destruct Hs as [Hs|[->|Hs]]; eauto.
  - intros s. rewrite elem_of_union, elem_of_singleton. intros Hs [->|Hs']; [tauto|]. eauto.
  - intros s Hs. specialize (Tres s Hs). rewrite elem_of_union. tauto.
  - rewrite Tab. by rewrite set_split_off_union.
Qed.

(** Records that leave the index alone. *)
Lemma tracks_dirty epoch S i path g off f :
  tracks epoch S i -> validate_mount_path path = Ok tt ->
  exists S', scan_entry S (MkEntry g off (ContentDirty epoch path)) = Ok S'
    /\ sc_prepared S' = sc_prepared S
    /\ tracks epoch S' (MkIndex i.(next_sequence) i.(prepared) i.(committed) i.(aborted)
         i.(acknowledged_sequence) i.(remote_revision) i.(first_unpruned_sequence)
         (f i.(dirty_content)) i.(pending_payload_bytes)).
Proof.
  intros T Hv. destruct S as [se sp sc sa sk sv sd sf]. unfold scan_entry; cbn.
  rewrite observe_epoch_same by apply T. cbn. rewrite Hv. cbn. eexists; split; [done|]. split; [done|].
  destruct T; constructor; auto.
Qed.

Lemma tracks_set_dirty epoch S i d :
  tracks epoch S i ->
  tracks epoch S (MkIndex i.(next_sequence) i.(prepared) i.(committed) i.(aborted)
         i.(acknowledged_sequence) i.(remote_revision) i.(first_unpruned_sequence)
         d i.(pending_payload_bytes)).
Proof. intros T. destruct T; constructor; auto. Qed.

Lemma tracks_marker epoch S i t tg g off :
  tracks epoch S i ->
  exists S', scan_entry S (MkEntry g off (Checkpointed epoch t tg)) = Ok S'
    /\ sc_prepared S' = sc_prepared S /\ tracks epoch S' i.
Proof.
  intros T. destruct S as [se sp sc sa sk sv sd sf]. unfold scan_entry; cbn.
  rewrite observe_epoch_same by apply T. cbn. eexists; split; [done|]. split; [done|].
  destruct T; constructor; auto.
Qed.

Lemma tracks_header epoch S i n g off :
  tracks epoch S i ->
  exists S', scan_entry S (MkEntry g off (log_header epoch g n)) = Ok S'
    /\ sc_prepared S' = sc_prepared S /\ tracks epoch S' i.
Proof.
  intros T. destruct S as [se sp sc sa sk sv sd sf]. unfold scan_entry; cbn.
  rewrite observe_epoch_same by apply T. cbn. rewrite Z.eqb_refl. cbn.
  eexists; split; [done|]. split; [done|]. destruct T; constructor; auto.
Qed.

(** Acknowledging a resolved range and pruning it. *)
Lemma tracks_acknowledge epoch S i through rv g off :
  tracks epoch S i -> (i.(acknowledged_sequence) <= through)%Z -> (i.(remote_revision) <= rv)%Z ->
  (forall s, (i.(acknowledged_sequence) + 1 <= s <= through)%Z -> resolved i s = true) ->
  (through < i.(next_sequence))%Z ->
  exists S', scan_entry S (MkEntry g off (RemoteAcknowledged epoch through rv)) = Ok S'
    /\ sc_prepared S' = sc_prepared S
    /\ tracks epoch S' (prune_index through (set_index_cursor through rv i)).
Proof.
  intros T Ht Hv Hres Hlt.
  destruct T as [Tfu Tep Tdom Tterm Tdis Tres Tid Tack Tnext Trev Ta Tr Tf Tp Tc Tab].
  destruct S as [se sp sc sa sk sv sd sf]. cbn in *.
  unfold scan_entry; cbn. rewrite observe_epoch_same by done. cbn.
  assert ((through <? sk)%Z || (rv <? sv)%Z = false) as ->.
  { apply orb_false_iff. rewrite !Z.ltb_ge. lia. }
  cbn. eexists; split; [done|]. split; [done|].
  assert (sat_add through 1 = through + 1)%Z as Hsat by (apply sat_add_exact; lia).
  constructor; cbn; auto; rewrite ?Hsat; try lia.
  - intros s Hs. destruct (decide (s <= sk)%Z) as [Hle|Hgt]; [apply Tres; lia|].
    specialize (Hres s ltac:(lia)). unfold resolved in Hres. apply orb_true_iff in Hres.
    rewrite !bool_decide_eq_true, Tc, Tab, !elem_of_set_split_off in Hres. tauto.
  - rewrite Tp, map_split_off_twice. f_equal. lia.
  - rewrite Tc, set_split_off_twice. f_equal. lia.
  - rewrite Tab, set_split_off_twice. f_equal. lia.
Qed.

(** ** The invariant *)

(** The log files hold the history; the active one may end in a torn record
    once it is poisoned. *)
Record Stored (H : list Entry) (l : LogPart) (files : gmap Z bytes) : Prop := {
  st_placed : placed H;
  st_gens : forall e, e ∈ H -> (e_generation e <= l.(generation))%Z;
  st_file : lf_generation l.(file) = l.(generation);
  st_cursor : l.(poisoned) = None -> lf_append l.(file) = true \/ lf_cursor l.(file) = l.(generation_len);
  st_len : l.(generation_len) = zlen (image (of_generation l.(generation) H));
  st_last : exists torn, files !! l.(generation) = Some (image (of_generation l.(generation) H) ++ torn)
    /\ newline ∉ torn /\ (l.(poisoned) = None -> torn = []);
  st_newest : forall g, is_Some (files !! g) -> (g <= l.(generation))%Z;
  st_other : forall g, (g < l.(generation))%Z -> is_Some (files !! g) ->
    files !! g = Some (image (of_generation g H));
}.

(** Prepares are appended in sequence order. *)
Definition ordered (H : list Entry) : Prop :=
  forall A e B ev e' ev', H = A ++ e :: B -> e_record e = Prepared ev ->
    e' ∈ A -> e_record e' = Prepared ev' -> (sequence ev' < sequence ev)%Z.

(** The replay point a checkpoint of the index would record, or the end. *)
Definition replay_floor (i : IndexPart) (l : LogPart) : Z :=
  match btree_values i.(prepared) with r :: _ => r.(pr_generation) | [] => l.(generation) end.

(** The in-memory state follows the history. *)
Record Live (epoch : string) (H : list Entry) (i : IndexPart) (l : LogPart) (active : gset Z)
    (files : gmap Z bytes) : Prop := {
  lv_epoch : is_empty_str epoch = false;
  lv_tracked : tracked epoch H;
  lv_scan : exists S, history_scan H = Ok S /\ tracks epoch S i;
  lv_ordered : ordered H;
  lv_below_next : forall e ev, e ∈ H -> e_record e = Prepared ev ->
    (1 <= sequence ev < i.(next_sequence))%Z;
  lv_dirty : forall p, p ∈ i.(dirty_content) -> validate_mount_path p = Ok tt;
  lv_active : forall g, g ∈ active -> (replay_floor i l <= g)%Z -> is_Some (files !! g);
  lv_generation : l.(generation) ∈ active;
  lv_cover : forall e, e ∈ H -> (replay_floor i l <= e_generation e)%Z -> e_generation e ∈ active;
}.

(** The durable checkpoint describes the history and its generations exist. *)
Definition Anchored (epoch : string) (H : list Entry) (files : gmap Z bytes) (f : JsonFile) : Prop :=
  exists ck c k S0, f = FileJson ck /\ describes epoch H ck c k S0
    /\ (forall e, e ∈ H -> (ck_replay_log_generation ck <= e_generation e)%Z ->
         is_Some (files !! e_generation e))
    /\ (forall g, g ∈ ck_active_log_generations ck -> (ck_replay_log_generation ck <= g)%Z ->
         is_Some (files !! g)).

Definition Running (H : list Entry) (w : Wal) : Prop :=
  Stored H (w_log w) (logs (w_disk w))
  /\ Live (w_epoch w) H (w_index w) (w_log w) (active_generations (w_maint w)) (logs (w_disk w)).

Definition Good (H : list Entry) (w : Wal) : Prop :=
  Running H w /\ Anchored (w_epoch w) H (logs (w_disk w)) (checkpoint_file (w_disk w)).

(** ** Extending the history by one record *)

Lemma describes_snoc epoch H ck c k S0 e :
  describes epoch H ck c k S0 ->
  (forall g, g ∈ ck_active_log_generations ck -> (ck_replay_log_generation ck <= g)%Z ->
    (g <= e_generation e)%Z) ->
  describes epoch (H ++ [e]) ck c k S0.
Proof.
  intros D Hg. destruct D as [Dc Dk ? ? ? ? ? ? ? Dlow Dbelow Dabove Doff Din Dact Dlat ?].
  constructor; rewrite ?take_app_le, ?drop_app_le by lia; auto.
  - rewrite length_app. lia.
  - intros x Hx. apply elem_of_app in Hx as [Hx|Hx]; [auto|]. apply list_elem_of_singleton in Hx as ->.
    apply Hg; [done|lia].
  - intros g x Hin Hge Hx. apply elem_of_app in Hx as [Hx|Hx]; [eauto|].
    apply list_elem_of_singleton in Hx as ->. auto.
Qed.

Lemma Anchored_snoc epoch H files files' f e :
  Anchored epoch H files f ->
  (forall g, is_Some (files !! g) -> is_Some (files' !! g)) ->
  (forall g, is_Some (files !! g) -> (g <= e_generation e)%Z) ->
  is_Some (files' !! e_generation e) ->
  Anchored epoch (H ++ [e]) files' f.
Proof.
  intros (ck & c & k & S0 & -> & D & He & Ha) Hf Hmax Hin.
  exists ck, c, k, S0. split_and!; [done| | |].
  - apply describes_snoc; [done|]. intros g Hg Hge. auto.
  - intros x Hx Hge. apply elem_of_app in Hx as [Hx|Hx]; [by apply Hf, He|].
    by apply list_elem_of_singleton in Hx as ->.
  - intros g Hg Hge. auto.
Qed.

Lemma tracked_snoc epoch H e S S' i' :
  tracked epoch H -> history_scan H = Ok S -> scan_entry S e = Ok S' -> tracks epoch S' i' ->
  history_scan (H ++ [e]) = Ok S' /\ tracked epoch (H ++ [e]).
Proof.
  intros Ht HS He T.
  assert (history_scan (H ++ [e]) = Ok S') as HS'.
  { unfold history_scan in *. rewrite foldM_app, HS. cbn. by rewrite He. }
  split; [done|]. intros j Hj. rewrite length_app in Hj. cbn in Hj.
  destruct (decide (j <= length H)) as [Hle|Hgt].
  - rewrite take_app_le by done. auto.
  - rewrite take_ge by (rewrite length_app; cbn; lia). eauto.
Qed.

Lemma take_image_torn (content torn : bytes) n :
  Z.of_nat n = zlen content -> take n (content ++ torn) = content.
Proof. unfold zlen. intros H. assert (n = length content) as -> by lia. by rewrite take_app_length. Qed.

(** ** Reasoning about the monad *)

Definition wp {A} (m : M A) (Q : Wal -> MResult A -> Prop) (w : Wal) : Prop :=
  Q (m w).1 (m w).2.

Lemma wp_bind {A B} (m : M A) (f : A -> M B) Q w :
  wp m (fun w' r => match r with Ok a => wp (f a) Q w' | Err e => Q w' (Err e) end) w ->
  wp (m ≫= f) Q w.
Proof. unfold wp, mbind, M_bind. by destruct (m w) as [w' [a|e]]. Qed.

Lemma wp_mono {A} (m : M A) (Q R : Wal -> MResult A -> Prop) w :
  wp m Q w -> (forall w' r, Q w' r -> R w' r) -> wp m R w.
Proof. unfold wp. auto. Qed.

Lemma wp_lift {A} (r : MResult A) Q w : Q w r -> wp (lift r) Q w.
Proof. done. Qed.

Lemma wp_bail_if b e Q w :
  (b = true -> Q w (Err e)) -> (b = false -> Q w (Ok tt)) -> wp (bail_if b e) Q w.
Proof. unfold bail_if, wp. destruct b; cbn; auto. Qed.

(** Outcomes the log is built for: the length of the file can be read, and a
    partial record is only rolled back in a file opened for appending. *)
Definition tame (append : bool) (o : IoOutcome) : Prop :=
  match o with
  | IoOk => True
  | IoStatFailed => False
  | IoFailed O _ _ => True
  | IoFailed (S _) stat_ok rb => stat_ok = true /\ (rb = RolledBack -> append = true)
  end.

Definition tame_io (w : Wal) : Prop := Forall (tame (lf_append (file (w_log w)))) (w_io w).

Lemma wp_next_io Q w :
  tame_io w ->
  (forall o io, tame (lf_append (file (w_log w))) o -> Forall (tame (lf_append (file (w_log w)))) io ->
     Q (with_io io w) (Ok o)) -> wp next_io Q w.
Proof.
  unfold wp, next_io, tame_io. intros Ht HQ. destruct (w_io w) as [|o io] eqn:E.
  - specialize (HQ IoOk [] I (Forall_nil_2 _)). destruct w; cbn in *. by subst.
  - apply Forall_cons in Ht as [Ho Hio]. by apply HQ.
Qed.

(** Operations that touch neither index nor maintenance state. *)
Record same_rest (w w' : Wal) : Prop := {
  sr_epoch : w_epoch w' = w_epoch w;
  sr_index : w_index w' = w_index w;
  sr_maint : w_maint w' = w_maint w;
  sr_generation : generation (w_log w') = generation (w_log w);
  sr_ck : checkpoint_file (w_disk w') = checkpoint_file (w_disk w);
  sr_files : forall g, is_Some (logs (w_disk w') !! g) <-> is_Some (logs (w_disk w) !! g);
  sr_tame : tame_io w -> tame_io w';
}.

Lemma same_rest_io w io :
  Forall (tame (lf_append (file (w_log w)))) io -> same_rest w (with_io io w) /\ tame_io (with_io io w).
Proof. intros H. split; [|done]. by constructor. Qed.

Lemma same_rest_trans w1 w2 w3 : same_rest w1 w2 -> same_rest w2 w3 -> same_rest w1 w3.
Proof.
  intros [A1 A2 A3 A4 A5 A6 A7] [B1 B2 B3 B4 B5 B6 B7]. constructor; try congruence; auto.
  intros g. rewrite B6. apply A6.
Qed.

Lemma Stored_content H w :
  Stored H (w_log w) (logs (w_disk w)) -> poisoned (w_log w) = None ->
  log_bytes_of w (lf_generation (file (w_log w))) = image (of_generation (generation (w_log w)) H).
Proof.
  intros St Hp. unfold log_bytes_of. rewrite (st_file _ _ _ St).
  destruct (st_last _ _ _ St) as (torn & -> & _ & Ht). rewrite (Ht Hp). cbn. by rewrite app_nil_r.
Qed.

(** Writing through the file of a log that is not poisoned appends. *)
Lemma file_write_appends H w data :
  Stored H (w_log w) (logs (w_disk w)) -> poisoned (w_log w) = None ->
  let g := generation (w_log w) in
  exists w1, file_write data w = (w1, Ok tt) /\ same_rest w w1 /\ (tame_io w -> tame_io w1)
    /\ w_log w1 = MkLog (MkLogFile g (lf_append (file (w_log w)))
                           (generation_len (w_log w) + zlen data)) (pending_sync (w_log w)) g
                    (generation_len (w_log w)) (appended_bytes (w_log w)) None
    /\ logs (w_disk w1) = <[g := image (of_generation g H) ++ data]> (logs (w_disk w)).
Proof.
  intros St Hp g. unfold file_write. rewrite (Stored_content _ _ St Hp). fold g.
  assert (write_position (file (w_log w)) (image (of_generation g H)) = length (image (of_generation g H)))
    as ->.
  { unfold write_position. destruct (st_cursor _ _ _ St Hp) as [-> | Hc]; [done|].
    destruct (lf_append _); [done|]. rewrite Hc, (st_len _ _ _ St). unfold zlen. by rewrite Nat2Z.id. }
  rewrite write_at_end, (st_file _ _ _ St). eexists; split; [done|]. cbn.
  assert (Z.of_nat (length (image (of_generation g H)) + length data)
          = (generation_len (w_log w) + zlen data)%Z) as ->.
  { rewrite (st_len _ _ _ St). unfold zlen, g. lia. }
  split_and!; [|done| |done].
  - constructor; cbn; try done. intros g'. destruct (decide (g' = g)) as [->|Hne].
    + rewrite lookup_insert_eq. destruct (st_last _ _ _ St) as (torn & Hl & _). fold g in Hl.
      rewrite Hl. split; eauto.
    + by rewrite lookup_insert_ne.
  - unfold w_log in *. cbn. by rewrite Hp.
Qed.

(** The log with its active file cut or extended past the complete records. *)
Lemma Stored_tail H l files l' torn :
  Stored H l files -> file l' = MkLogFile (generation l) (lf_append (file l)) (lf_cursor (file l')) ->
  generation l' = generation l -> generation_len l' = generation_len l ->
  newline ∉ torn -> (poisoned l' = None -> torn = [] /\ (lf_append (file l) = true \/ lf_cursor (file l') = generation_len l)) ->
  Stored H l' (<[generation l := image (of_generation (generation l) H) ++ torn]> files).
Proof.
  intros St Hf Hg Hl Ht Hp. destruct St as [S1 S2 S3 S4 S5 (t0 & S6 & _) S7 S8].
  constructor; rewrite ?Hg, ?Hl; auto.
  - by rewrite Hf.
  - intros Hn. destruct (Hp Hn) as [_ Hc]. by rewrite Hf.
  - exists torn. rewrite lookup_insert_eq. split_and!; [done|done|]. intros Hn. by destruct (Hp Hn).
  - intros g. destruct (decide (g = generation l)) as [->|Hne]; [intros; lia|].
    rewrite lookup_insert_ne by done. apply S7.
  - intros g Hlt. rewrite lookup_insert_ne by lia. by apply S8.
Qed.

Lemma Stored_snoc H l files l' r :
  Stored H l files -> (zlen (framed r) <= MAX_RECORD_BYTES)%Z ->
  (generation_len l + MAX_RECORD_BYTES <= U64_MAX)%Z ->
  file l' = MkLogFile (generation l) (lf_append (file l)) (lf_cursor (file l')) ->
  (lf_append (file l) = true \/ lf_cursor (file l') = (generation_len l + zlen (framed r))%Z) ->
  generation l' = generation l -> generation_len l' = (generation_len l + zlen (framed r))%Z ->
  Stored (H ++ [MkEntry (generation l) (generation_len l) r]) l'
    (<[generation l := image (of_generation (generation l) H) ++ framed r]> files).
Proof.
  intros St Hr Hu Hf Hcur Hg Hl. destruct St as [S1 S2 S3 S4 S5 (t0 & S6 & _) S7 S8].
  set (e := MkEntry (generation l) (generation_len l) r).
  assert (of_generation (generation l) (H ++ [e]) = of_generation (generation l) H ++ [e]) as Hof.
  { rewrite of_generation_app. cbn. by rewrite Z.eqb_refl. }
  assert (image (of_generation (generation l) (H ++ [e]))
          = image (of_generation (generation l) H) ++ framed r) as Him.
  { rewrite Hof, image_app. f_equal. cbn. by rewrite app_nil_r. }
  constructor; rewrite ?Hg, ?Hl; auto.
  - unfold e. rewrite S5. apply placed_snoc; auto. lia.
  - intros x Hx. apply elem_of_app in Hx as [Hx|Hx]; [auto|]. by apply list_elem_of_singleton in Hx as ->.
  - by rewrite Hf.
  - intros _. rewrite Hf. cbn. done.
  - rewrite Him, zlen_app. lia.
  - exists []. rewrite lookup_insert_eq, Him, app_nil_r. split_and!; [done|apply not_elem_of_nil|done].
  - intros g. destruct (decide (g = generation l)) as [->|Hne]; [intros; lia|].
    rewrite lookup_insert_ne by done. apply S7.
  - intros g Hlt Hs. rewrite lookup_insert_ne in Hs |- * by lia. rewrite (S8 g Hlt Hs), of_generation_app.
    cbn. destruct (Z.eqb_spec (generation l) g); [lia|]. by rewrite app_nil_r.
Qed.

Lemma newline_partial landed r : newline ∉ partial_write landed (framed r).
Proof.
  unfold partial_write. apply framed_split.
  pose proof (framed_pos r). unfold zlen in H. lia.
Qed.

Lemma wp_gets {A} (f : Wal -> A) Q w : Q w (Ok (f w)) -> wp (gets f) Q w.
Proof. done. Qed.

Lemma wp_modify f Q w : Q (f w) (Ok tt) -> wp (modify f) Q w.
Proof. done. Qed.

Lemma wp_fail {A} e (Q : Wal -> MResult A -> Prop) w : Q w (Err e) -> wp (fail e) Q w.
Proof. done. Qed.

Lemma wp_ret {A} (a : A) Q w : Q w (Ok a) -> wp (mret a) Q w.
Proof. done. Qed.

(** The file of [w1] is the history and a torn tail, as after a write through
    the file of [w]. *)
Record written (H : list Entry) (w w1 : Wal) (torn : bytes) : Prop := {
  wr_rest : same_rest w w1;
  wr_tame : tame_io w1;
  wr_log : exists ap cur, w_log w1 = MkLog (MkLogFile (generation (w_log w)) (lf_append (file (w_log w))) cur)
      (pending_sync (w_log w)) (generation (w_log w)) (generation_len (w_log w)) ap None
    /\ (lf_append (file (w_log w)) = true \/ cur = (generation_len (w_log w) + zlen torn)%Z);
  wr_files : logs (w_disk w1) =
    <[generation (w_log w) := image (of_generation (generation (w_log w)) H) ++ torn]> (logs (w_disk w));
}.

Lemma written_len H w w1 torn :
  Stored H (w_log w) (logs (w_disk w)) -> written H w w1 torn ->
  file_len w1 = (generation_len (w_log w) + zlen torn)%Z.
Proof.
  intros St [_ _ (ap & cur & Hl & _) Hf]. unfold file_len, log_bytes_of. rewrite Hf, Hl. cbn.
  rewrite lookup_insert_eq. cbn. rewrite zlen_app, (st_len _ _ _ St). done.
Qed.

Lemma wp_append_error {A} H w w1 torn offset error stat_ok rb (Q : Wal -> MResult A -> Prop) :
  Stored H (w_log w) (logs (w_disk w)) -> written H w w1 torn -> offset = generation_len (w_log w) ->
  newline ∉ torn -> (torn = [] \/ (stat_ok = true /\ (rb = RolledBack -> lf_append (file (w_log w)) = true))) ->
  (forall w' e, same_rest w w' -> tame_io w' -> Stored H (w_log w') (logs (w_disk w')) -> Q w' (Err e)) ->
  wp (append_error offset error stat_ok rb) Q w1.
Proof.
  intros St W -> Hnl Htorn HQ. pose proof (written_len _ _ _ _ St W) as Hlen.
  destruct W as [SR Tm (ap & cur & Hl & Hcur) Hf]. unfold append_error. apply wp_bind, wp_gets.
  set (g := generation (w_log w)) in *. set (len := generation_len (w_log w)) in *.
  assert (log_bytes_of w1 g = image (of_generation g H) ++ torn) as Hc.
  { unfold log_bytes_of. rewrite Hf, lookup_insert_eq. done. }
  assert (Hcut : forall l', file l' = MkLogFile g (lf_append (file (w_log w))) cur ->
    generation l' = g -> generation_len l' = len ->
    (poisoned l' = None -> torn = [] \/ lf_append (file (w_log w)) = true) ->
    Stored H l' (<[g := image (of_generation g H)]> (logs (w_disk w)))).
  { intros l' H1 H2 H3 H4. rewrite <- (app_nil_r (image (of_generation g H))).
    apply (Stored_tail _ (w_log w)); try done; [by rewrite H1|apply not_elem_of_nil|].
    intros Hp. split; [done|]. rewrite H1. cbn. fold len.
    destruct (H4 Hp) as [Hn|Hn]; subst; [|by left].
    destruct Hcur as [| ->]; [by left|right]. change (zlen (@nil byte)) with 0%Z. lia. }
  assert (Hset : forall w2, w_log w2 = w_log w1 -> w_disk w2 = w_disk w1 ->
    logs (set_logs <[g := take (Z.to_nat len) (log_bytes_of w2 g)]> (w_disk w2))
    = <[g := image (of_generation g H)]> (logs (w_disk w))).
  { intros w2 _ H2. unfold log_bytes_of in *. rewrite H2, Hc. cbn. rewrite Hf, insert_insert_eq.
    rewrite take_image_torn; [done|]. unfold len. rewrite (st_len _ _ _ St). unfold zlen, g. lia. }
  destruct (Z.leb_spec (if stat_ok then file_len w1 else len) len) as [Hle|Hgt].
  - apply wp_fail, HQ; [done|done|].
    assert (torn = []) as ->.
    { destruct Htorn as [|[-> _]]; [done|]. rewrite Hlen in Hle.
      destruct torn; [done|]. unfold zlen in Hle. cbn in Hle. lia. }
    rewrite Hf, app_nil_r. apply Hcut; rewrite Hl; auto.
  - assert (torn <> []) as Hne.
    { intros ->. rewrite Hlen in Hgt. change (zlen (@nil byte)) with 0%Z in Hgt. destruct stat_ok; lia. }
    destruct Htorn as [|[-> Hrb]]; [done|].
    assert (forall w', w_epoch w' = w_epoch w1 -> w_index w' = w_index w1 -> w_maint w' = w_maint w1 ->
      generation (w_log w') = g -> checkpoint_file (w_disk w') = checkpoint_file (w_disk w1) ->
      (exists b, logs (w_disk w') = <[g := b]> (logs (w_disk w))) ->
      w_io w' = w_io w1 -> lf_append (file (w_log w')) = lf_append (file (w_log w)) ->
      same_rest w w' /\ tame_io w') as Hsr.
    { intros w' E1 E2 E3 E4 E5 [b E6] E7 E8.
      assert (tame_io w') as Tm'. { unfold tame_io in *. rewrite E7, E8. rewrite Hl in Tm. done. }
      split; [|done]. destruct SR as [B1 B2 B3 B4 B5 B6 B7].
      constructor; try congruence; try done. intros g'. rewrite E6.
      destruct (decide (g' = g)) as [->|]; [|by rewrite lookup_insert_ne].
      rewrite lookup_insert_eq. destruct (st_last _ _ _ St) as (t & Ht & _). fold g in Ht. rewrite Ht.
      split; eauto. }
    destruct rb.
    + apply wp_bind, wp_modify, wp_bind, wp_modify, wp_fail.
      assert (lf_generation (file (w_log w1)) = g) as -> by (by rewrite Hl).
      match goal with |- Q ?w2 _ => destruct (Hsr w2) as [? ?] end;
        try done; try (unfold w_log in Hl |- *; cbn; rewrite Hl; done).
      { eexists. exact (Hset w1 eq_refl eq_refl). }
      apply HQ; [done|done|].
      refine (eq_ind_r (fun f => Stored H _ f) _ (Hset w1 eq_refl eq_refl)). apply Hcut; unfold w_log in Hl |- *; cbn; rewrite ?Hl; auto.
    + apply wp_bind, wp_modify, wp_fail.
      match goal with |- Q ?w2 _ => destruct (Hsr w2) as [? ?] end;
        try done; try (unfold w_log in Hl |- *; cbn; rewrite Hl; done).
      { cbn. rewrite Hf. eauto. }
      apply HQ; [done|done|]. cbn. rewrite Hf.
      apply (Stored_tail _ (w_log w)); unfold w_log in Hl |- *; cbn; rewrite ?Hl; try done.
    + apply wp_bind, wp_modify, wp_bind, wp_modify, wp_fail.
      assert (lf_generation (file (w_log w1)) = g) as -> by (by rewrite Hl).
      match goal with |- Q ?w2 _ => destruct (Hsr w2) as [? ?] end;
        try done; try (unfold w_log in Hl |- *; cbn; rewrite Hl; done).
      { eexists. exact (Hset w1 eq_refl eq_refl). }
      apply HQ; [done|done|].
      refine (eq_ind_r (fun f => Stored H _ f) _ (Hset w1 eq_refl eq_refl)). apply Hcut; unfold w_log in Hl |- *; cbn; rewrite ?Hl; done.
Qed.

(** Appending a record extends the history by it or leaves the history alone. *)
Lemma wp_append_framed r w H Q :
  Stored H (w_log w) (logs (w_disk w)) -> tame_io w ->
  (generation_len (w_log w) + MAX_RECORD_BYTES <= U64_MAX)%Z ->
  (forall w', same_rest w w' -> tame_io w' ->
     Stored (H ++ [MkEntry (generation (w_log w)) (generation_len (w_log w)) r]) (w_log w') (logs (w_disk w')) ->
     Q w' (Ok (generation_len (w_log w)))) ->
  (forall w' e, same_rest w w' -> tame_io w' -> Stored H (w_log w') (logs (w_disk w')) -> Q w' (Err e)) ->
  wp (append_framed r) Q w.
Proof.
  intros St Ht Hu HOk HErr. unfold append_framed. apply wp_bind, wp_gets, wp_bind, wp_bail_if.
  { intros _. apply HErr; [by constructor|done|done]. }
  intros Hp. apply bool_decide_eq_false in Hp.
  assert (poisoned (w_log w) = None) as Hpois by (destruct (poisoned (w_log w)); [exfalso; eauto|done]).
  apply wp_bind, wp_next_io; [done|]. intros o io Ho Hio.
  destruct (same_rest_io w io Hio) as [SR Tm]. set (w0 := with_io io w) in *.
  assert (Stored H (w_log w0) (logs (w_disk w0))) as St0 by done.
  assert (forall data, exists w1, file_write data w0 = (w1, Ok tt) /\ written H w w1 data) as Hwrite.
  { intros data. destruct (file_write_appends H w0 data St0 Hpois) as (w1 & E & S1 & T1 & L1 & F1).
    exists w1. split; [done|]. constructor; [by eapply same_rest_trans|by apply T1|by eauto 6|done]. }
  destruct (Z.ltb_spec MAX_RECORD_BYTES (zlen (framed r))) as [Hbig|Hfit].
  - assert (written H w w0 []) as W0.
    { constructor; [done|done| |].
      - exists (appended_bytes (w_log w)), (lf_cursor (file (w_log w))).
        pose proof (st_cursor _ _ _ St Hpois) as Hcur. pose proof (st_file _ _ _ St) as Hfile.
        change (w_log w0) with (w_log w). change (zlen (@nil byte)) with 0%Z. rewrite Z.add_0_r.
        split; [|done]. destruct (w_log w) as [[? ? ?] ? ? ? ? ?]. cbn in *. by subst.
      - cbn. destruct (st_last _ _ _ St) as (torn & Hl & _ & Hn). rewrite (Hn Hpois) in Hl.
        by rewrite insert_id. }
    destruct o; (eapply wp_append_error; [exact St|exact W0|done|apply not_elem_of_nil|by left|exact HErr]).
  - destruct o as [| |landed stat_ok rb].
    + destruct (Hwrite (framed r)) as (w1 & E & W). apply wp_bind.
      unfold wp at 1. rewrite E. cbn [fst snd]. apply wp_bind, wp_gets, wp_bind, wp_modify, wp_ret.
      rewrite (written_len _ _ _ _ St W).
      destruct W as [S1 T1 (ap & cur & L1 & Hcur) F1].
      apply HOk.
      * destruct S1. constructor; auto.
      * done.
      * refine (eq_ind_r (fun f => Stored _ _ f) _ F1).
        apply Stored_snoc; unfold w_log in *; cbn; rewrite ?L1; done.
    + done.
    + destruct (Hwrite (partial_write landed (framed r))) as (w1 & E & W).
      apply wp_bind. unfold wp at 1. rewrite E. cbn.
      eapply wp_append_error; [exact St|exact W|done|apply newline_partial| |exact HErr].
      destruct landed as [|n]; [left; done|]. right. apply Ho.
Qed.

End invariant.
