(* ===== verification/WalSteps.v ===== *)
(** * Every operation of the log keeps its invariant

    Each operation of [Wal] that appends to the log takes a [Good] state to a
    [Good] state over a history extended by the records it wrote, whether it
    succeeds or fails part way. *)

From S2P Require Import Prelude MountTypes WalTypes WalReplay Wal WalLayout WalRecovery.
From S2P Require Import WalInvariant.
From Stdlib Require Import ZArith Lia.

Section steps.
Context {P : Platform} {C : RecordCodec} {CL : RecordCodecLaws C}.

(** There is room for one more record in the active generation. *)
Definition room (w : Wal) : Prop := (generation_len (w_log w) + MAX_RECORD_BYTES <= U64_MAX)%Z.

(** ** The replay floor *)

(** Later prepares live in the same or later generations. *)
Lemma located_monotone H A e B A' e' B' ev ev' :
  placed H -> ordered H -> H = A ++ e :: B -> H = A' ++ e' :: B' ->
  e_record e = Prepared ev -> e_record e' = Prepared ev' -> (sequence ev <= sequence ev')%Z ->
  (e_generation e <= e_generation e')%Z.
Proof.
  intros Hp Ho H1 H2 He He' Hle.
  assert (e' ∈ A ++ e :: B) as Hin by (rewrite <- H1, H2; set_solver).
  apply elem_of_app in Hin as [Hin|Hin].
  - pose proof (Ho A e B ev e' ev' H1 He Hin He'). lia.
  - apply elem_of_cons in Hin as [->|Hin]; [lia|].
    pose proof (placed_monotone _ Hp) as Hm. rewrite H1 in Hm.
    apply StronglySorted_app_1_r in Hm. apply StronglySorted_cons in Hm as [Hm _].
    rewrite Forall_forall in Hm. auto.
Qed.

Lemma prepared_located H epoch i l active files s r :
  Live epoch H i l active files -> i.(prepared) !! s = Some r ->
  exists A ev B, H = A ++ MkEntry r.(pr_generation) r.(pr_offset) (Prepared ev) :: B /\ sequence ev = s.
Proof.
  intros L Hs. destruct (lv_scan _ _ _ _ _ _ L) as (S & HS & T).
  rewrite (tr_prepared _ _ _ T), lookup_map_split_off in Hs. case_decide; [|done].
  by eapply scan_located.
Qed.

Lemma floor_lower H epoch i l active files s r :
  Stored H l files -> Live epoch H i l active files -> i.(prepared) !! s = Some r ->
  (replay_floor i l <= r.(pr_generation))%Z.
Proof.
  intros St L Hs. unfold replay_floor. pose proof (btree_values_head i.(prepared)) as Hh.
  destruct (btree_values i.(prepared)) as [|r0 rs].
  - rewrite Hh, lookup_empty in Hs. done.
  - destruct Hh as (s0 & Hs0 & Hmin). specialize (Hmin s ltac:(eauto)).
    destruct (prepared_located _ _ _ _ _ _ _ _ L Hs) as (A & ev & B & HA & Hev).
    destruct (prepared_located _ _ _ _ _ _ _ _ L Hs0) as (A0 & ev0 & B0 & HA0 & Hev0).
    apply (located_monotone H _ _ _ _ _ _ _ _ (st_placed _ _ _ St) (lv_ordered _ _ _ _ _ _ L) HA0 HA
             eq_refl eq_refl). lia.
Qed.

Lemma floor_generation H epoch i l active files :
  Stored H l files -> Live epoch H i l active files -> (replay_floor i l <= l.(generation))%Z.
Proof.
  intros St L. unfold replay_floor. pose proof (btree_values_head i.(prepared)) as Hh.
  destruct (btree_values i.(prepared)) as [|r rs]; [lia|]. destruct Hh as (s & Hs & _).
  destruct (prepared_located _ _ _ _ _ _ _ _ L Hs) as (A & ev & B & HA & _).
  apply (st_gens _ _ _ St (MkEntry (pr_generation r) (pr_offset r) (Prepared ev))). rewrite HA. set_solver.
Qed.

Lemma floor_grows i' l' bound :
  (bound <= l'.(generation))%Z ->
  (forall s r, i'.(prepared) !! s = Some r -> (bound <= r.(pr_generation))%Z) ->
  (bound <= replay_floor i' l')%Z.
Proof.
  intros Hg Hp. unfold replay_floor. pose proof (btree_values_head i'.(prepared)) as Hh.
  destruct (btree_values i'.(prepared)); [done|]. destruct Hh as (s & Hs & _). eauto.
Qed.

(** ** The generic step *)

Lemma ordered_snoc H e n :
  ordered H -> (forall x ev, x ∈ H -> e_record x = Prepared ev -> (sequence ev < n)%Z) ->
  (forall ev, e_record e = Prepared ev -> sequence ev = n) -> ordered (H ++ [e]).
Proof.
  intros Ho Hb He A x B ev x' ev' HA Hx Hx' Hev'.
  destruct B as [|y B _] using rev_ind.
  - apply app_inj_tail in HA as [-> ->]. rewrite (He _ Hx). eauto.
  - rewrite app_comm_cons, app_assoc in HA. apply app_inj_tail in HA as [-> ->].
    by eapply (Ho A x B).
Qed.

(** What a step does to the index, besides being tracked. *)
Record index_step (bound : Z) (r : WalRecord) (i i' : IndexPart) : Prop := {
  is_prepared : forall ev, r = Prepared ev -> sequence ev = i.(next_sequence)
    /\ (i.(next_sequence) < i'.(next_sequence))%Z;
  is_next : (i.(next_sequence) <= i'.(next_sequence))%Z;
  is_dirty : (forall p, p ∈ i.(dirty_content) -> validate_mount_path p = Ok tt) ->
    forall p, p ∈ i'.(dirty_content) -> validate_mount_path p = Ok tt;
  is_floor : forall s r, i'.(prepared) !! s = Some r -> (bound <= r.(pr_generation))%Z;
}.

Lemma Good_snoc H w w1 w2 r S S' :
  Good H w -> same_rest w w1 ->
  let e := MkEntry (generation (w_log w)) (generation_len (w_log w)) r in
  Stored (H ++ [e]) (w_log w1) (logs (w_disk w1)) ->
  history_scan H = Ok S -> scan_entry S e = Ok S' -> tracks (w_epoch w) S' (w_index w2) ->
  w_epoch w2 = w_epoch w -> w_log w2 = w_log w1 -> w_disk w2 = w_disk w1 ->
  active_generations (w_maint w2) = active_generations (w_maint w) ->
  index_step (replay_floor (w_index w) (w_log w)) r (w_index w) (w_index w2) ->
  Good (H ++ [e]) w2.
Proof.
  intros [[St L] An] SR e St1 HS He T E1 E2 E3 E4 IS.
  destruct SR as [R1 R2 R3 R4 R5 R6 R7].
  destruct (tracked_snoc _ _ _ _ _ _ (lv_tracked _ _ _ _ _ _ L) HS He T) as [HS' Ht'].
  assert (forall g, is_Some (logs (w_disk w1) !! g) -> (g <= e_generation e)%Z) as Hmax.
  { intros g Hg. cbn. rewrite <- R4. by apply (st_newest _ _ _ St1). }
  pose proof (floor_generation _ _ _ _ _ _ St L) as Hfg.
  assert (replay_floor (w_index w) (w_log w) <= replay_floor (w_index w2) (w_log w1))%Z as Hgrow.
  { apply floor_grows; [by rewrite R4|apply IS]. }
  unfold Good, Running. rewrite E1, E2, E3, E4.
  split; [split; [done|]|].
  - destruct L as [L1 L2 L3 L4 L5 L6 L7 L8 L9]. constructor; auto.
    + by exists S'.
    + apply (ordered_snoc _ _ (next_sequence (w_index w))); auto.
      { intros x ev Hx Hev. by apply (L5 x). }
      intros ev Hev. by apply (is_prepared _ _ _ _ IS).
    + intros x ev Hx Hev. apply elem_of_app in Hx as [Hx|Hx].
      * pose proof (L5 _ _ Hx Hev). pose proof (is_next _ _ _ _ IS). lia.
      * apply list_elem_of_singleton in Hx as ->. destruct (is_prepared _ _ _ _ IS ev Hev).
        destruct L3 as (S3 & _ & T3). pose proof (tr_ack_range _ _ _ T3). lia.
    + by apply (is_dirty _ _ _ _ IS).
    + intros g Hg Hfl. apply R6, L7; [done|]. by etrans.
    + by rewrite R4.
    + intros x Hx Hfl. apply elem_of_app in Hx as [Hx|Hx].
      * apply L9; [done|]. by etrans.
      * apply list_elem_of_singleton in Hx as ->. done.
  - rewrite R5. eapply Anchored_snoc; [done|intros g; apply R6| |].
    + intros g Hg. apply Hmax, R6, Hg.
    + apply R6. cbn. destruct (st_last _ _ _ St) as (torn & -> & _). eauto.
Qed.

(** A failed append leaves the history. *)
Lemma Good_same H w w1 :
  Good H w -> same_rest w w1 -> Stored H (w_log w1) (logs (w_disk w1)) -> Good H w1.
Proof.
  intros [[St L] An] [R1 R2 R3 R4 R5 R6 R7] St1. unfold Good, Running. rewrite R1, R2, R3, R5.
  split; [split; [done|]|].
  - destruct L as [L1 L2 L3 L4 L5 L6 L7 L8 L9]. constructor; auto.
    + intros g Hg Hfl. apply R6, L7; [done|]. unfold replay_floor in *. by rewrite R4 in Hfl.
    + by rewrite R4.
    + intros x Hx Hfl. apply L9; [done|]. unfold replay_floor in *. by rewrite R4 in Hfl.
  - destruct An as (ck & c & k & S0 & Hf & D & He & Ha). exists ck, c, k, S0.
    split_and!; [done|done| |]; intros; apply R6; auto.
Qed.

(** What every operation establishes: the invariant over a longer history, and
    a stream of outcomes that is still tame. *)
Definition keeps {A} (H : list Entry) (w : Wal) (_ : MResult A) : Prop :=
  (exists K, Good (H ++ K) w) /\ tame_io w.

Lemma keeps_same {A} H w (r : MResult A) : Good H w -> tame_io w -> keeps H w r.
Proof. intros G T. split; [exists []; by rewrite app_nil_r|done]. Qed.

Lemma keeps_snoc {A} H e w (r : MResult A) : Good (H ++ [e]) w -> tame_io w -> keeps H w r.
Proof. intros G T. split; [by exists [e]|done]. Qed.

Lemma keeps_app {A} H K w (r : MResult A) : keeps (H ++ K) w r -> keeps H w r.
Proof. intros [[L G] T]. split; [|done]. exists (K ++ L). by rewrite app_assoc. Qed.

Lemma Good_tracks H w : Good H w -> exists S, history_scan H = Ok S /\ tracks (w_epoch w) S (w_index w).
Proof. intros [[_ L] _]. apply L. Qed.

Lemma Good_floor H w s r :
  Good H w -> prepared (w_index w) !! s = Some r ->
  (replay_floor (w_index w) (w_log w) <= r.(pr_generation))%Z.
Proof. intros [[St L] _]. by eapply floor_lower. Qed.

Lemma Good_floor_generation H w :
  Good H w -> (replay_floor (w_index w) (w_log w) <= generation (w_log w))%Z.
Proof. intros [[St L] _]. by eapply floor_generation. Qed.

Lemma prepared_valid H w s r :
  Good H w -> prepared (w_index w) !! s = Some r -> validate (mutation r.(pr_event)) = Ok tt.
Proof.
  intros G Hs. destruct (Good_tracks _ _ G) as (S & HS & T).
  rewrite (tr_prepared _ _ _ T), lookup_map_split_off in Hs. case_decide; [|done]. by eapply scan_valid.
Qed.

(** Append [r], then update the index so that it tracks the longer history. *)
Lemma wp_append_step {A} H w r (f : Z -> M A) (Q : Wal -> MResult A -> Prop) :
  Good H w -> tame_io w -> room w ->
  (forall w1 e, e = MkEntry (generation (w_log w)) (generation_len (w_log w)) r ->
     same_rest w w1 -> tame_io w1 -> Stored (H ++ [e]) (w_log w1) (logs (w_disk w1)) ->
     wp (f (generation_len (w_log w))) Q w1) ->
  (forall w1 er, same_rest w w1 -> Good H w1 -> tame_io w1 -> Q w1 (Err er)) ->
  wp (append_framed r ≫= f) Q w.
Proof.
  intros G Tm Rm HOk HErr. apply wp_bind.
  apply (wp_append_framed r w H); [apply G|done|done| |].
  - intros w1 SR T1 St1. by eapply HOk.
  - intros w1 er SR T1 St1. apply HErr; [done| |done]. by eapply Good_same.
Qed.

(** ** Prepare *)

Lemma prepare_keeps H w m source pre :
  Good H w -> tame_io w -> room w -> (next_sequence (w_index w) + 1 <= U64_MAX)%Z ->
  wp (prepare m source pre) (keeps H) w.
Proof.
  intros G Tm Rm Hn. unfold prepare.
  apply wp_bind, wp_lift. destruct (validate m) as [[]|er] eqn:Hv; [|by apply keeps_same].
  apply wp_bind, wp_bail_if; [intros _; by apply keeps_same|]. intros _.
  assert (exists c : MResult (option PayloadRef), match source with
     | None => mret None
     | Some r => lift (p ← r; Ok (Some p)) end = lift c) as [c Hc].
  { destruct source; eexists; [done|]. exact (eq_refl (lift (Ok None))). }
  apply wp_bind. rewrite Hc. apply wp_lift. destruct c as [captured|er]; [|by apply keeps_same].
  apply wp_bind, wp_lift.
  destruct (validate_payload m captured) as [[]|er] eqn:Hp; [|by apply keeps_same].
  apply wp_bind, wp_gets, wp_bind, wp_gets.
  set (seq := next_sequence (w_index w)). set (event := MkEvent _ _ _ _ _ _ _ _ _).
  apply (wp_append_step H); [done..| |intros; by apply keeps_same].
  intros w1 e -> SR T1 St1.
  apply wp_bind, wp_gets, wp_bind, wp_modify, wp_bind, wp_lift.
  rewrite checked_add_exact by done. cbn [ok_or].
  apply wp_bind, wp_modify, wp_ret.
  destruct (Good_tracks _ _ G) as (S & HS & T).
  set (off := generation_len (w_log w)) in *.
  destruct (tracks_prepare _ S (w_index w) event (generation (w_log w)) off T) as (S' & Hs' & _ & T');
    [by constructor|done|].
  eapply keeps_snoc; [|done].
  eapply (Good_snoc H w w1 _ (Prepared event) S S'); try done.
  - match goal with |- tracks _ _ (w_index ?w2) =>
      replace (w_index w2) with (index_prepare event (generation (w_log w)) off (w_index w)); [done|] end.
    destruct SR as [R1 R2 R3 R4 R5 R6 R7]. unfold w_index in *. cbn. by rewrite R2, R4.
  - apply SR.
  - apply (f_equal active_generations (sr_maint _ _ SR)).
  - match goal with |- index_step _ _ _ (w_index ?w2) =>
      replace (w_index w2) with (index_prepare event (generation (w_log w)) off (w_index w)) end.
    2: { destruct SR as [R1 R2 R3 R4 R5 R6 R7]. unfold w_index in *. cbn. by rewrite R2, R4. }
    constructor; cbn; [|lia|auto|].
    + intros ev [= <-]. cbn. unfold seq. lia.
    + intros s r. destruct (decide (s = next_sequence (w_index w))) as [->|Hne].
      * rewrite lookup_insert_eq. intros [= <-]. by apply (Good_floor_generation H).
      * rewrite lookup_insert_ne by done. by apply (Good_floor H).
Qed.

(** ** Commit, abort and recovery *)

(** The state after the record of a step and an index update [f] (and any
    change of the maintenance state that keeps the active generations). *)
Lemma Good_update H w w1 w2 r S S' f :
  Good H w -> same_rest w w1 ->
  let e := MkEntry (generation (w_log w)) (generation_len (w_log w)) r in
  Stored (H ++ [e]) (w_log w1) (logs (w_disk w1)) ->
  history_scan H = Ok S -> scan_entry S e = Ok S' -> tracks (w_epoch w) S' (f (w_index w)) ->
  w_index w2 = f (w_index w1) ->
  w_epoch w2 = w_epoch w1 -> w_log w2 = w_log w1 -> w_disk w2 = w_disk w1 ->
  active_generations (w_maint w2) = active_generations (w_maint w1) ->
  index_step (replay_floor (w_index w) (w_log w)) r (w_index w) (f (w_index w)) ->
  Good (H ++ [e]) w2.
Proof.
  intros G SR e St HS He T Hi E1 E2 E3 E4 IS.
  destruct SR as [R1 R2 R3 R4 R5 R6 R7] eqn:ESR. clear ESR.
  eapply (Good_snoc H w w1 w2 r S S'); try done; try congruence; rewrite Hi, R2; done.
Qed.

Lemma commit_index_step H w seq id ev set_id r epoch :
  Good H w -> prepared (w_index w) !! seq = Some r -> mutation ev = mutation r.(pr_event) ->
  index_step (replay_floor (w_index w) (w_log w)) (Committed epoch seq id) (w_index w)
    (index_commit seq id ev set_id (w_index w)).
Proof.
  intros G Hr Hm. constructor; cbn; [done|lia| |].
  - intros Hd. rewrite Hm. apply dirty_effect_valid; [|done]. by eapply prepared_valid.
  - intros s r'. destruct set_id; [|by apply (Good_floor H)].
    destruct (decide (s = seq)) as [->|Hne].
    + rewrite lookup_alter_eq, Hr. intros [= <-]. cbn. by apply (Good_floor H _ seq).
    + rewrite lookup_alter_ne by done. by apply (Good_floor H).
Qed.

Lemma commit_keeps H w token id :
  Good H w -> tame_io w -> room w -> wp (commit token id) (keeps H) w.
Proof.
  intros G Tm Rm. unfold commit. apply wp_bind, wp_gets, wp_bind, wp_lift.
  destruct (prepared (w_index w) !! sequence token) as [r|] eqn:Hr; cbn [ok_or]; [|by apply keeps_same].
  apply wp_bind, wp_bail_if; [intros _; by apply keeps_same|]. intros Heq. bools. rename Heq into Hev.
  apply wp_bind, wp_bail_if; [intros _; by apply keeps_same|]. intros Hab.
  destruct (bool_decide (sequence token ∈ committed (w_index w))) eqn:Hc; [by apply keeps_same|].
  apply wp_bind, wp_gets.
  apply (wp_append_step H); [done..| |intros; by apply keeps_same].
  intros w1 e -> SR T1 St1. apply wp_bind, wp_modify, wp_modify.
  destruct (Good_tracks _ _ G) as (S & HS & T).
  destruct (tracks_commit _ S (w_index w) (sequence token) id (generation (w_log w))
              (generation_len (w_log w)) token true T) as (S' & Hs' & _ & T'); [eauto| |by left|].
  { unfold resolved. by rewrite Hc, Hab. }
  eapply keeps_snoc; [|done].
  eapply (Good_update H w w1 _ _ S S' (index_commit (sequence token) id token true)); try done.
  eapply commit_index_step; [done|done|]. by rewrite Hev.
Qed.

Lemma abort_index_step H w seq bound r :
  Good H w -> bound = replay_floor (w_index w) (w_log w) -> (forall ev, r <> Prepared ev) ->
  index_step bound r (w_index w) (index_abort seq (w_index w)).
Proof.
  intros G -> Hr. constructor; cbn; [|lia|auto|].
  - intros ev Hev. by apply Hr in Hev.
  - intros s r'. by apply (Good_floor H).
Qed.

Lemma abort_keeps H w token reason :
  Good H w -> tame_io w -> room w -> wp (abort token reason) (keeps H) w.
Proof.
  intros G Tm Rm. unfold abort. apply wp_bind, wp_gets, wp_bind, wp_lift.
  destruct (prepared (w_index w) !! sequence token) as [r|] eqn:Hr; cbn [ok_or]; [|by apply keeps_same].
  apply wp_bind, wp_bail_if; [intros _; by apply keeps_same|]. intros _.
  apply wp_bind, wp_bail_if; [intros _; by apply keeps_same|]. intros Hc.
  destruct (bool_decide (sequence token ∈ aborted (w_index w))) eqn:Ha; [by apply keeps_same|].
  apply wp_bind, wp_gets.
  apply (wp_append_step H); [done..| |intros; by apply keeps_same].
  intros w1 e -> SR T1 St1. apply wp_bind, wp_modify, wp_modify.
  destruct (Good_tracks _ _ G) as (S & HS & T).
  destruct (tracks_abort _ S (w_index w) (sequence token) reason (generation (w_log w))
              (generation_len (w_log w)) T) as (S' & Hs' & _ & T'); [eauto| |].
  { unfold resolved. by rewrite Hc, Ha. }
  eapply keeps_snoc; [|done].
  eapply (Good_update H w w1 _ _ S S' (index_abort (sequence token))); try done.
  by apply (abort_index_step H).
Qed.

Lemma resolve_recovered_keeps H w seq resolution :
  Good H w -> tame_io w -> room w -> wp (resolve_recovered seq resolution) (keeps H) w.
Proof.
  intros G Tm Rm. unfold resolve_recovered. apply wp_bind, wp_gets, wp_bind, wp_lift.
  destruct (prepared (w_index w) !! seq) as [r|] eqn:Hr; cbn [ok_or]; [|by apply keeps_same].
  apply wp_bind, wp_bail_if; [intros _; by apply keeps_same|]. intros Hres.
  apply wp_bind, wp_gets, wp_bind. destruct (Good_tracks _ _ G) as (S & HS & T).
  destruct resolution.
  - apply (wp_append_step H); [done..| |intros; by apply keeps_same].
    intros w1 e -> SR T1 St1. do 2 apply wp_modify.
    destruct (tracks_abort _ S (w_index w) seq "recovery proved the mutation was never applied"
                (generation (w_log w)) (generation_len (w_log w)) T) as (S' & Hs' & _ & T'); [eauto|done|].
    eapply keeps_snoc; [|done].
    eapply (Good_update H w w1 _ _ S S' (index_abort seq)); try done.
    by apply (abort_index_step H).
  - apply (wp_append_step H); [done..| |intros; by apply keeps_same].
    intros w1 e -> SR T1 St1. do 2 apply wp_modify.
    destruct (tracks_commit _ S (w_index w) seq None (generation (w_log w))
              (generation_len (w_log w)) (pr_event r) false T) as (S' & Hs' & _ & T'); [eauto|done|by right|].
    eapply keeps_snoc; [|done].
    eapply (Good_update H w w1 _ _ S S' (index_commit seq None (pr_event r) false)); try done.
    by eapply commit_index_step.
Qed.

(** ** The dirty set *)

Definition index_dirty (f : gset string -> gset string) (i : IndexPart) : IndexPart :=
  MkIndex i.(next_sequence) i.(prepared) i.(committed) i.(aborted) i.(acknowledged_sequence)
    i.(remote_revision) i.(first_unpruned_sequence) (f i.(dirty_content)) i.(pending_payload_bytes).

Lemma record_content_dirty_keeps H w path :
  Good H w -> tame_io w -> room w -> wp (record_content_dirty path) (keeps H) w.
Proof.
  intros G Tm Rm. unfold record_content_dirty. apply wp_bind, wp_lift.
  destruct (validate_mount_path path) as [[]|er] eqn:Hv; [|by apply keeps_same].
  destruct (is_local_only_content_path path); [by apply keeps_same|].
  apply wp_bind, wp_gets.
  destruct (bool_decide (path ∈ dirty_content (w_index w))); [by apply keeps_same|].
  apply wp_bind, wp_gets.
  apply (wp_append_step H); [done..| |intros; by apply keeps_same].
  intros w1 e -> SR T1 St1. apply wp_bind, wp_modify, wp_ret.
  destruct (Good_tracks _ _ G) as (S & HS & T).
  destruct (tracks_dirty _ S (w_index w) path (generation (w_log w)) (generation_len (w_log w))
              (fun d => {[path]} ∪ d) T Hv) as (S' & Hs' & _ & T').
  eapply keeps_snoc; [|done].
  eapply (Good_update H w w1 _ _ S S' (index_dirty (fun d => {[path]} ∪ d))); try done.
  constructor; cbn; [done|lia| |intros s r'; by apply (Good_floor H)].
  intros Hd p Hp. apply elem_of_union in Hp as [Hp|Hp]; [|auto]. by apply elem_of_singleton in Hp as ->.
Qed.

Lemma set_dirty_keeps H w f :
  Good H w -> tame_io w ->
  ((forall p, p ∈ dirty_content (w_index w) -> validate_mount_path p = Ok tt) ->
   forall p, p ∈ f (dirty_content (w_index w)) -> validate_mount_path p = Ok tt) ->
  wp (set_dirty f) (keeps H) w.
Proof.
  intros G Tm Hf. unfold set_dirty. apply wp_modify, keeps_same; [|done].
  destruct G as [[St L] An]. split; [split; [done|]|done].
  destruct L as [L1 L2 (S & HS & T) L4 L5 L6 L7 L8 L9]. constructor; auto.
  - exists S. split; [done|]. by apply tracks_set_dirty.
Qed.

Lemma clear_content_dirty_keeps H w path :
  Good H w -> tame_io w -> wp (clear_content_dirty path) (keeps H) w.
Proof. intros G Tm. apply set_dirty_keeps; [done..|]. intros Hd p Hp. apply Hd. set_solver. Qed.

Lemma rename_content_dirty_keeps H w old new :
  Good H w -> tame_io w -> wp (rename_content_dirty old new) (keeps H) w.
Proof.
  intros G Tm. unfold rename_content_dirty. apply wp_bind, wp_lift.
  destruct (validate_mount_path old) as [[]|]; [|by apply keeps_same].
  apply wp_bind, wp_lift. destruct (validate_mount_path new) as [[]|] eqn:Hn; [|by apply keeps_same].
  apply set_dirty_keeps; [done..|]. intros Hd p Hp.
  apply elem_of_retarget in Hp as [Hp|(q & Hq & Hb & ->)]; [auto|]. apply retarget_valid; auto.
Qed.

End steps.
