(* ===== verification/WalMaint.v ===== *)
(** * Sync, checkpoints, acknowledgement, rotation and compaction

    The maintenance operations of the log keep its invariant too: a checkpoint
    always describes the history it was taken from, and compaction deletes no
    generation a durable checkpoint can still replay. *)

From S2P Require Import Prelude MountTypes WalTypes WalReplay Wal WalLayout WalRecovery.
From S2P Require Import WalInvariant WalSteps.
From Stdlib Require Import ZArith Lia.

Section maint.
Context {P : Platform} {C : RecordCodec} {CL : RecordCodecLaws C}.

(** ** Sync *)

(** What a sync leaves alone. *)
Record quiet (w w' : Wal) : Prop := {
  q_epoch : w_epoch w' = w_epoch w;
  q_index : w_index w' = w_index w;
  q_maint : w_maint w' = w_maint w;
  q_disk : w_disk w' = w_disk w;
  q_file : file (w_log w') = file (w_log w);
  q_generation : generation (w_log w') = generation (w_log w);
  q_len : generation_len (w_log w') = generation_len (w_log w);
  q_poisoned : poisoned (w_log w') = poisoned (w_log w);
  q_tame : tame_io w -> tame_io w';
}.

Lemma quiet_refl w : quiet w w.
Proof. by constructor. Qed.

Lemma quiet_trans w1 w2 w3 : quiet w1 w2 -> quiet w2 w3 -> quiet w1 w3.
Proof. intros [] []. constructor; try congruence. auto. Qed.

Lemma Running_quiet H w w' : Running H w -> quiet w w' -> Running H w'.
Proof.
  intros [St L] [Q1 Q2 Q3 Q4 Q5 Q6 Q7 Q8 Q9]. unfold Running. rewrite Q1, Q2, Q3, Q4. split.
  - destruct St. constructor; rewrite ?Q5, ?Q6, ?Q7, ?Q8; auto.
  - destruct L. constructor; unfold replay_floor in *; rewrite ?Q6; auto.
Qed.

Lemma Good_quiet H w w' : Good H w -> quiet w w' -> Good H w'.
Proof.
  intros [R An] Q. split; [by eapply Running_quiet|]. destruct Q as [-> _ _ -> _ _ _ _ _]. done.
Qed.

Lemma room_quiet w w' : room w -> quiet w w' -> room w'.
Proof. unfold room. by intros ? [_ _ _ _ _ _ -> _ _]. Qed.

Lemma wp_next_quiet (Q : Wal -> MResult IoOutcome -> Prop) w :
  tame_io w -> (forall w' o, quiet w w' -> tame_io w' -> Q w' (Ok o)) -> wp next_io Q w.
Proof.
  intros Tm HQ. apply wp_next_io; [done|]. intros o io _ Hio. apply HQ; [|done]. by constructor.
Qed.

Lemma wp_io_step what (Q : Wal -> MResult unit -> Prop) w :
  tame_io w -> (forall w' r, quiet w w' -> tame_io w' -> Q w' r) -> wp (io_step what) Q w.
Proof.
  intros Tm HQ. unfold io_step. apply wp_bind, wp_next_quiet; [done|].
  intros w' o Hq T'. destruct o; by apply HQ.
Qed.

Lemma quiet_pending w f :
  quiet w (with_log (fun l => MkLog l.(file) (f l.(pending_sync)) l.(generation) l.(generation_len)
                               l.(appended_bytes) l.(poisoned)) w).
Proof. by constructor. Qed.

Lemma sync_handles_quiet hs w :
  tame_io w -> wp (sync_handles hs) (fun w' _ => quiet w w' /\ tame_io w') w.
Proof.
  revert w; induction hs as [|g hs IH]; intros w Tm; cbn.
  - apply wp_ret. split; [apply quiet_refl|done].
  - apply wp_bind, wp_next_quiet; [done|]. intros w1 o Q1 T1.
    destruct o; [|by apply wp_ret..]. apply wp_bind, wp_modify.
    set (w2 := with_durable _ w1). assert (quiet w1 w2) as Q2 by (by constructor).
    eapply wp_mono; [apply (IH w2); done|]. cbn. intros w' r [Q3 T3].
    split; [|done]. eapply quiet_trans; [|done]. by eapply quiet_trans.
Qed.

Lemma run_sync_round_quiet w :
  tame_io w -> wp run_sync_round (fun w' _ => quiet w w' /\ tame_io w') w.
Proof.
  intros Tm. unfold run_sync_round. apply wp_bind, wp_gets, wp_bind, wp_modify, wp_bind, wp_gets.
  set (w0 := with_log _ w). assert (quiet w w0) as Q0 by exact (quiet_pending w (fun _ => [])).
  apply wp_bind, wp_next_quiet; [done|]. intros w1 o Q1 T1.
  assert (quiet w w1) as Q01 by (by eapply quiet_trans).
  assert (forall hs (A : Type) (e : MountError) w', quiet w w' -> tame_io w' ->
    wp (restore_pending_sync hs ;; @fail A e) (fun w' _ => quiet w w' /\ tame_io w') w') as Hrestore.
  { intros hs A e w' Q' T'. apply wp_bind, wp_modify, wp_fail. split; [|done].
    eapply quiet_trans; [done|].
    exact (quiet_pending w' (fun pending => removelast hs ++ pending)). }
  destruct o; [|by apply Hrestore..]. apply wp_bind.
  eapply wp_mono; [by apply sync_handles_quiet|]. cbn. intros w' r [Q2 T2].
  assert (quiet w w') by (by eapply quiet_trans).
  destruct r as [[|g l]|e]; [by apply wp_ret|by apply Hrestore|done].
Qed.

Lemma sync_watermark_quiet seq b w :
  tame_io w -> wp (sync_watermark seq b) (fun w' _ => quiet w w' /\ tame_io w') w.
Proof.
  intros Tm. unfold sync_watermark. apply wp_bind, wp_gets.
  destruct (_ && _); [apply wp_ret; split; [apply quiet_refl|done]|].
  pose proof (run_sync_round_quiet w Tm) as Hr. unfold wp in *.
  destruct (run_sync_round w) as [w' [[ds db]|e]]; cbn in *; destruct Hr as [Q T];
    (split; [|done]); destruct Q; by constructor.
Qed.

Lemma sync_local_quiet w :
  tame_io w -> wp sync_local (fun w' _ => quiet w w' /\ tame_io w') w.
Proof. intros Tm. unfold sync_local. apply wp_bind, wp_gets, wp_bind, wp_gets. by apply sync_watermark_quiet. Qed.

(** ** Checkpoints *)

(** A retained prepare is the first one in the log above the cursor. *)
Lemma low_prepares H w S e ev :
  Running H w -> history_scan H = Ok S -> tracks (w_epoch w) S (w_index w) ->
  e ∈ H -> e_record e = Prepared ev ->
  (forall s, is_Some (prepared (w_index w) !! s) -> (sequence ev < s)%Z) ->
  (sequence ev <= sc_acknowledged_sequence S)%Z.
Proof.
  intros [St L] HS T He Hev Hlow. destruct (decide (sequence ev <= sc_acknowledged_sequence S)%Z); [done|].
  pose proof (lv_below_next _ _ _ _ _ _ L _ _ He Hev). pose proof (tr_ack_range _ _ _ T).
  specialize (Hlow (sequence ev)). rewrite (tr_prepared _ _ _ T), lookup_map_split_off, decide_True in Hlow by lia.
  rewrite (tr_prepared_dom _ _ _ T) in Hlow. lia.
Qed.

(** The replay point of a checkpoint of [w] cuts the history at entry [k]. *)
Record cut (H : list Entry) (w : Wal) (rg ro : Z) (k : nat) : Prop := {
  cut_le : k <= length H;
  cut_low : forall S e ev, history_scan H = Ok S -> tracks (w_epoch w) S (w_index w) ->
    e ∈ take k H -> e_record e = Prepared ev -> (sequence ev <= sc_acknowledged_sequence S)%Z;
  cut_below : forall e, e ∈ take k H -> (e_generation e <= rg)%Z;
  cut_above : forall e, e ∈ drop k H -> (rg <= e_generation e)%Z;
  cut_offset : ro = zlen (image (of_generation rg (take k H)));
  cut_floor : rg = replay_floor (w_index w) (w_log w);
}.

Lemma checkpoint_cut H w tg :
  Running H w -> exists k, cut H w (ck_replay_log_generation (build_checkpoint w tg))
                              (ck_replay_log_offset (build_checkpoint w tg)) k.
Proof.
  intros R. pose proof R as [St L]. unfold build_checkpoint. cbn.
  pose proof (btree_values_head (prepared (w_index w))) as Hh.
  destruct (btree_values (prepared (w_index w))) as [|r rs] eqn:Ev; cbn.
  - exists (length H). split; rewrite ?firstn_all, ?drop_all.
    + done.
    + intros S e ev HS T He Hev. eapply low_prepares; try done. rewrite Hh. intros s [? Hs].
      by rewrite lookup_empty in Hs.
    + apply (st_gens _ _ _ St).
    + intros e He. by apply elem_of_nil in He.
    + apply (st_len _ _ _ St).
    + unfold replay_floor. by rewrite Ev.
  - destruct Hh as (s & Hs & Hmin).
    destruct (prepared_located _ _ _ _ _ _ _ _ L Hs) as (A & ev & B & HA & Hev).
    set (e := MkEntry _ _ _) in HA. exists (length A).
    assert (take (length A) H = A) as Ht by (rewrite HA; apply take_app_length).
    assert (drop (length A) H = e :: B) as Hd by (rewrite HA; apply drop_app_length).
    pose proof (placed_monotone _ (st_placed _ _ _ St)) as Hm. rewrite HA in Hm.
    split; rewrite ?Ht, ?Hd.
    + rewrite HA, length_app. lia.
    + intros S x evx HS T Hx Hevx. eapply low_prepares; try done; [rewrite HA; set_solver|].
      intros s' Hs'. specialize (Hmin _ Hs').
      pose proof (lv_ordered _ _ _ _ _ _ L A e B ev x evx HA eq_refl Hx Hevx). lia.
    + intros x Hx. apply (StronglySorted_app_1_elem_of _ _ _ x e Hm Hx). set_solver.
    + intros x Hx. apply StronglySorted_app_1_r, StronglySorted_cons in Hm as [Hm _].
      rewrite Forall_forall in Hm. apply elem_of_cons in Hx as [->|Hx]; [cbn; lia|apply (Hm _ Hx)].
    + pose proof (placed_consecutive _ (st_placed _ _ _ St) (pr_generation r)) as Hc.
      rewrite HA, of_generation_app in Hc. cbn in Hc. rewrite Z.eqb_refl in Hc.
      apply consecutive_app in Hc as [_ Hc]. cbn in Hc. lia.
    + unfold replay_floor. by rewrite Ev.
Qed.

Lemma elem_of_built_active w tg g :
  g ∈ ck_active_log_generations (build_checkpoint w tg) <->
  g = ck_replay_log_generation (build_checkpoint w tg) \/ g = generation (w_log w)
  \/ ((ck_replay_log_generation (build_checkpoint w tg) <= g)%Z /\ g ∈ active_generations (w_maint w)).
Proof. unfold build_checkpoint. cbn. rewrite elem_of_sorted_Z. set_solver. Qed.

(** The generations a checkpoint declares exist. *)
Lemma built_active_exist H w tg g :
  Running H w -> g ∈ ck_active_log_generations (build_checkpoint w tg) -> is_Some (logs (w_disk w) !! g).
Proof.
  intros R Hg. pose proof R as [St L]. destruct (checkpoint_cut H w tg R) as [k [_ _ _ _ _ Hfl]].
  apply elem_of_built_active in Hg as [->|[->|[Hge Hg]]].
  - unfold build_checkpoint. cbn. pose proof (btree_values_head (prepared (w_index w))) as Hh.
    destruct (btree_values (prepared (w_index w))) as [|r rs] eqn:Ev; cbn.
    + destruct (st_last _ _ _ St) as (t & -> & _). eauto.
    + destruct Hh as (s & Hs & _). destruct (prepared_located _ _ _ _ _ _ _ _ L Hs) as (A & ev & B & HA & _).
      assert (replay_floor (w_index w) (w_log w) <= pr_generation r)%Z
        by (unfold replay_floor; rewrite Ev; lia).
      apply (lv_active _ _ _ _ _ _ L); [|done].
      apply (lv_cover _ _ _ _ _ _ L (MkEntry (pr_generation r) (pr_offset r) (Prepared ev)));
        [rewrite HA; set_solver|done].
  - destruct (st_last _ _ _ St) as (t & -> & _). eauto.
  - apply (lv_active _ _ _ _ _ _ L); [done|]. by rewrite <- Hfl.
Qed.

Lemma build_describes H w tg :
  Running H w -> exists k S, describes (w_epoch w) H (build_checkpoint w tg) (length H) k S.
Proof.
  intros R. destruct (checkpoint_cut H w tg R) as [k [C1 C2 C3 C4 C5 C6]]. pose proof R as [St L].
  destruct (lv_scan _ _ _ _ _ _ L) as (S & HS & T).
  assert (forall g, g ∈ ck_active_log_generations (build_checkpoint w tg) -> is_Some (logs (w_disk w) !! g)) as Hex
    by (intros g; by apply (built_active_exist H)).
  exists k, S. constructor; rewrite ?firstn_all, ?drop_all; auto.
  - apply T.
  - apply T.
  - cbn. rewrite (tr_first _ _ _ T). pose proof (tr_ack_range _ _ _ T). lia.
  - apply L.
  - intros e ev. by apply C2.
  - apply elem_of_built_active. by left.
  - intros e He Hge. apply elem_of_built_active. right; right. split; [done|].
    apply (lv_cover _ _ _ _ _ _ L); [done|]. by rewrite <- C6.
  - intros g e _ _ He. by apply elem_of_nil in He.
  - apply Forall_forall. intros p Hp. cbn in Hp. apply elem_of_sorted_strings in Hp.
    by apply (lv_dirty _ _ _ _ _ _ L).
Qed.

Lemma build_valid H w tg : Running H w -> MountCheckpoint_validate (build_checkpoint w tg) = Ok tt.
Proof.
  intros R. destruct (build_describes H w tg R) as (k & S & D).
  assert (load_checkpoint (MkDisk ∅ (FileJson (build_checkpoint w tg)) FileAbsent ∅)
          = Ok (Some (build_checkpoint w tg))) as Hl.
  { eapply load_described; [exact D|apply R|done]. }
  unfold load_checkpoint in Hl. cbn [read_json checkpoint_file mbind result_bind] in Hl.
  destruct (MountCheckpoint_validate (build_checkpoint w tg)) as [[]|e]; [done|done].
Qed.

(** The live state once the checkpoint of [w] is installed. *)
Lemma Running_install H w w' tg :
  Running H w -> w_epoch w' = w_epoch w -> w_index w' = w_index w -> w_log w' = w_log w ->
  logs (w_disk w') = logs (w_disk w) ->
  active_generations (w_maint w') = list_to_set (ck_active_log_generations (build_checkpoint w tg)) ->
  Running H w'.
Proof.
  intros R E1 E2 E3 E4 E5. pose proof R as [St L]. unfold Running. rewrite E1, E2, E3, E4, E5.
  split; [done|]. destruct (checkpoint_cut H w tg R) as [k [_ _ _ _ _ Hfl]].
  destruct L as [L1 L2 L3 L4 L5 L6 L7 L8 L9]. constructor; auto.
  - intros g Hg _. apply elem_of_list_to_set in Hg. by apply (built_active_exist H w tg).
  - apply elem_of_list_to_set, elem_of_built_active. auto.
  - intros e He Hge. apply elem_of_list_to_set, elem_of_built_active. right; right.
    split; [by rewrite Hfl|auto].
Qed.

(** What a checkpoint establishes, whatever fails on the way: the history may
    have grown, and a success anchors it. *)
Definition anchors {A} (H : list Entry) (w w' : Wal) (r : MResult A) : Prop :=
  tame_io w' /\ w_epoch w' = w_epoch w /\ w_index w' = w_index w
  /\ exists K, Running (H ++ K) w'
     /\ ((exists a, r = Ok a) \/ Anchored (w_epoch w) H (logs (w_disk w)) (checkpoint_file (w_disk w)) ->
         Good (H ++ K) w').

Lemma anchors_failed {A} H w w' (e : MountError) :
  Running H w' -> tame_io w' -> w_epoch w' = w_epoch w -> w_index w' = w_index w ->
  w_disk w' = w_disk w -> @anchors A H w w' (Err e).
Proof.
  intros R T E1 Ei E2. split_and!; [done|done|done|]. exists []. rewrite app_nil_r. split; [done|].
  intros [[a Ha]|An]; [done|]. split; [done|]. by rewrite E1, E2.
Qed.

Lemma checkpoint_anchors H w tg :
  Running H w -> tame_io w -> room w -> wp (checkpoint_locked tg) (anchors H w) w.
Proof.
  intros R Tm Rm. unfold checkpoint_locked.
  apply wp_bind. eapply wp_mono; [by apply sync_local_quiet|]. cbn. intros w1 r1 [Q1 T1].
  assert (Running H w1) as R1 by (by eapply Running_quiet).
  destruct r1; [|apply anchors_failed; try done; apply Q1].
  apply wp_bind, wp_io_step; [done|]. intros w2 r2 Q2 T2.
  assert (quiet w w2) as Q12 by (by eapply quiet_trans).
  assert (Running H w2) as R2 by (by eapply Running_quiet).
  destruct r2; [|apply anchors_failed; try done; apply Q12].
  apply wp_bind, wp_gets, wp_bind, wp_modify, wp_bind, wp_lift.
  set (ck := build_checkpoint w2 tg). rewrite (build_valid H w2 tg R2 : MountCheckpoint_validate ck = _).
  apply wp_bind, wp_gets, wp_bind, wp_modify.
  set (w3 := with_maint _ (with_maint _ w2)).
  assert (Running H w3) as R3 by (by apply (Running_install H w2 w3 tg)).
  assert (w_epoch w3 = w_epoch w) as E3 by apply Q12.
  assert (w_index w3 = w_index w) as I3 by apply Q12.
  assert (w_disk w3 = w_disk w) as D3 by apply Q12.
  apply wp_bind. match goal with |- wp ?m ?Q w3 =>
    assert (wp m (fun w4 _ => Running H w4 /\ tame_io w4 /\ room w4 /\ w_epoch w4 = w_epoch w /\ w_index w4 = w_index w
      /\ logs (w_disk w4) = logs (w_disk w) /\ checkpoint_file (w_disk w4) = checkpoint_file (w_disk w)) w3) as Hprev end.
  { assert (room w3) as Rm3 by exact (room_quiet w w2 Rm Q12).
    destruct (last_checkpoint _); [|apply wp_ret; by rewrite D3].
    apply wp_bind, wp_io_step; [done|]. intros w4 r4 Q4 T4.
    assert (Running H w4) by (by eapply Running_quiet).
    assert (room w4) by (by eapply room_quiet).
    assert (w_epoch w4 = w_epoch w) by (rewrite <- E3; apply Q4).
    assert (w_index w4 = w_index w) by (rewrite <- I3; apply Q4).
    destruct r4; [|split_and!; try done; cbn; by rewrite (q_disk _ _ Q4), D3].
    apply wp_bind, wp_modify. apply wp_io_step; [done|]. intros w5 r5 Q5 T5.
    assert (w_disk w4 = w_disk w) as D4 by (by rewrite (q_disk _ _ Q4)).
    split_and!; try done; rewrite ?(q_epoch _ _ Q5), ?(q_index _ _ Q5), ?(q_disk _ _ Q5); cbn; rewrite ?D4; try done.
    - eapply Running_quiet; [|exact Q5]. done.
    - eapply room_quiet; [|exact Q5]. done. }
  eapply wp_mono; [exact Hprev|]. cbn. intros w4 r4 (R4 & T4 & Rm4 & E4 & I4 & D4 & F4).
  assert (forall e, anchors H w w4 (Err (A := unit) e)) as Hfail4.
  { intros e. split_and!; [done|done|done|]. exists []. rewrite app_nil_r. split; [done|].
    intros [[? ?]|An]; [done|]. split; [done|]. by rewrite E4, D4, F4. }
  destruct r4; [|apply Hfail4].
  apply wp_bind, wp_bind, wp_io_step; [done|]. intros w5 r5 Q5 T5.
  assert (Running H w5) as R5 by (by eapply Running_quiet).
  destruct r5; [|].
  2: { split_and!; [done|by rewrite (q_epoch _ _ Q5)|by rewrite (q_index _ _ Q5)|]. exists []. rewrite app_nil_r. split; [done|].
       intros [[? ?]|An]; [done|]. split; [done|].
       by rewrite (q_epoch _ _ Q5), (q_disk _ _ Q5), E4, D4, F4. }
  apply wp_bind, wp_modify. set (w6' := with_disk _ w5).
  apply wp_io_step; [done|]. intros w6 r6 Q6 T6.
  assert (Good H w6') as G6'.
  { split; [done|]. destruct (build_describes H w2 tg R2) as (k & S & D).
    assert (logs (w_disk w6') = logs (w_disk w2)) as Hlogs.
    { cbn. rewrite (q_disk _ _ Q5), D4. symmetry. apply (f_equal logs). apply Q12. }
    exists ck, (length H), k, S. split_and!.
    - done.
    - assert (w_epoch w2 = w_epoch w6') as <-; [|done].
      transitivity (w_epoch w); [apply Q12|]. cbn. by rewrite (q_epoch _ _ Q5), E4.
    - intros e He Hge. rewrite Hlogs. apply (built_active_exist H w2 tg _ R2).
      eapply (ds_active _ _ _ _ _ _ D); [by rewrite firstn_all|done].
    - intros g Hg _. rewrite Hlogs. by apply (built_active_exist H w2 tg _ R2). }
  assert (Good H w6) as G6 by (by eapply Good_quiet).
  assert (w_epoch w6 = w_epoch w) as E6 by (rewrite (q_epoch _ _ Q6); cbn; by rewrite (q_epoch _ _ Q5), E4).
  assert (w_index w6 = w_index w) as I6 by (rewrite (q_index _ _ Q6), <- I4; apply (q_index _ _ Q5)).
  assert (room w6) as Rm6 by (eapply (room_quiet w6'); [exact (room_quiet w4 w5 Rm4 Q5)|done]).
  destruct r6; [|split_and!; [done..|]; exists []; rewrite app_nil_r; split; [apply G6|done]].
  change (ck_epoch ck) with (w_epoch w2).
  assert (w_epoch w2 = w_epoch w6) as Hep by (rewrite E6; apply Q12).
  rewrite Hep. set (t := ck_acknowledged_sequence ck).
  apply (wp_append_step H); [done|done|done| |].
  - intros w7 e -> SR T7 St7. apply wp_ret.
    destruct (Good_tracks _ _ G6) as (S & HS & T).
    destruct (tracks_marker _ S (w_index w6) t tg (generation (w_log w6))
                (generation_len (w_log w6)) T) as (S' & Hs' & _ & T').
    assert (w_index w7 = w_index w) as I7.
    { by rewrite (sr_index _ _ SR). }
    split_and!; [done|by rewrite (sr_epoch _ _ SR)|done|]. eexists.
    assert (Good (H ++ [MkEntry (generation (w_log w6)) (generation_len (w_log w6))
       (Checkpointed (w_epoch w6) t tg)]) w7) as G7.
    { eapply (Good_update H w6 w7 w7 _ S S' id); try done.
      constructor; cbn; [done|lia|auto|]. intros s r'. by apply (Good_floor H). }
    split; [apply G7|done].
  - intros w7 er SR G7 T7. split_and!; [done|by rewrite (sr_epoch _ _ SR)| |].
    { by rewrite (sr_index _ _ SR). }
    exists []. rewrite app_nil_r.
    split; [apply G7|done].
Qed.

Lemma checkpoint_keeps H w tg :
  Good H w -> tame_io w -> room w -> wp (checkpoint tg) (keeps H) w.
Proof.
  intros G Tm Rm. eapply wp_mono; [by apply (checkpoint_anchors H); [apply G|..]|].
  cbn. intros w' r (T' & _ & _ & K & _ & HK). split; [|done]. exists K. apply HK. right. apply G.
Qed.

(** ** Acknowledgement *)

Lemma guards_passed {A} (f : A -> bool) (err : A -> MountError) l u :
  foldM (fun _ x => guard_err (f x) (err x)) tt l = Ok u -> forall x, x ∈ l -> f x = false.
Proof.
  induction l as [|y l IH]; cbn; intros Hf x Hx; [by apply elem_of_nil in Hx|].
  destruct (f y) eqn:E; [done|]. cbn in Hf. apply elem_of_cons in Hx as [->|Hx]; auto.
Qed.

Lemma acknowledge_append_keeps H w through rv :
  Good H w -> tame_io w -> room w ->
  wp (acknowledge_append through rv)
     (fun w' r => keeps H w' r /\ (is_Some (match r with Ok o => o | Err _ => None end) ->
        generation_len (w_log w') <= generation_len (w_log w) + MAX_RECORD_BYTES)%Z) w.
Proof.
  intros G Tm Rm. unfold acknowledge_append. apply wp_bind, wp_gets.
  apply wp_bind, wp_bail_if; [intros _; split; [by apply keeps_same|by intros [? ?]]|]. intros Ht.
  apply wp_bind, wp_bail_if; [intros _; split; [by apply keeps_same|by intros [? ?]]|]. intros Hv.
  destruct (_ && _); [split; [by apply keeps_same|by intros [? ?]]|].
  apply wp_bind, wp_lift.
  destruct (foldM _ tt _) as [u|er] eqn:Hres; [|split; [by apply keeps_same|by intros [? ?]]].
  apply wp_bind, wp_gets. bools. destruct (Good_tracks _ _ G) as (S & HS & T).
  pose proof (tr_ack_range _ _ _ T) as Hack. pose proof (tr_next_range _ _ _ T).
  assert (sat_add (acknowledged_sequence (w_index w)) 1 = acknowledged_sequence (w_index w) + 1)%Z as Hsat.
  { apply sat_add_exact. rewrite (tr_ack _ _ _ T). lia. }
  assert (forall s, (acknowledged_sequence (w_index w) + 1 <= s <= through)%Z -> resolved (w_index w) s = true) as Hall.
  { intros s Hs. rewrite Hsat in Hres.
    pose proof (guards_passed (fun s => negb (resolved (w_index w) s)) _ _ _ Hres s) as Hg.
    rewrite elem_of_range_inclusive in Hg. specialize (Hg Hs). by apply negb_false_iff in Hg. }
  assert (through < next_sequence (w_index w))%Z as Hlt.
  { destruct (decide (through = acknowledged_sequence (w_index w))) as [->|Hne].
    - rewrite (tr_ack _ _ _ T). lia.
    - specialize (Hall through ltac:(lia)). unfold resolved in Hall. apply orb_true_iff in Hall.
      rewrite !bool_decide_eq_true, (tr_committed _ _ _ T), (tr_aborted _ _ _ T), !elem_of_set_split_off in Hall.
      assert (is_Some (sc_prepared S !! through)) as Hp by (apply (tr_terminal _ _ _ T); tauto).
      apply (tr_prepared_dom _ _ _ T) in Hp. lia. }
  apply (wp_append_step H); [done..| |].
  2: { intros; split; [by apply keeps_same|by intros [? ?]]. }
  intros w1 e -> SR T1 St1. apply wp_bind, wp_modify, wp_bind, wp_bind, wp_gets, wp_bind, wp_modify, wp_ret, wp_ret.
  destruct (tracks_acknowledge _ S (w_index w) through rv (generation (w_log w))
              (generation_len (w_log w)) T) as (S' & Hs' & _ & T'); [lia|lia|done|done|].
  split.
  - eapply keeps_snoc; [|done].
    eapply (Good_update H w w1 _ _ S S' (fun i => prune_index through (set_index_cursor through rv i))); try done.
    constructor; cbn; [done|lia|auto|]. intros s r'. rewrite lookup_map_split_off. case_decide; [|done].
    by apply (Good_floor H).
  - intros _. change (generation_len (w_log w1) <= generation_len (w_log w) + MAX_RECORD_BYTES)%Z.
    pose proof (st_placed _ _ _ St1) as Hp. pose proof (placed_consecutive _ Hp (generation (w_log w))) as Hc.
    rewrite of_generation_app in Hc. apply consecutive_app in Hc as [_ Hc]. cbn in Hc. rewrite Z.eqb_refl in Hc.
    destruct Hc as (_ & _ & Hm & _). cbn in Hm.
    rewrite (st_len _ _ _ St1), (sr_generation _ _ SR), of_generation_app, image_app. cbn.
    rewrite Z.eqb_refl. cbn. rewrite app_nil_r, zlen_app, <- (st_len _ _ _ (proj1 (proj1 G))). lia.
Qed.

Lemma Good_maint H w f :
  Good H w -> (forall m, active_generations (f m) = active_generations m) -> Good H (with_maint f w).
Proof.
  intros [[St L] An] Hf. split; [|done]. split; [done|]. unfold with_maint, w_maint. cbn. by rewrite Hf.
Qed.

(** The acknowledgement and its checkpoint each append one record. *)
Lemma acknowledge_keeps H w through rv tg :
  Good H w -> tame_io w -> (generation_len (w_log w) + 2 * MAX_RECORD_BYTES <= U64_MAX)%Z ->
  wp (acknowledge through rv tg) (keeps H) w.
Proof.
  intros G Tm Rm. unfold acknowledge. apply wp_bind.
  assert (0 < MAX_RECORD_BYTES)%Z by done.
  eapply wp_mono; [apply (acknowledge_append_keeps H); [done|done|unfold room; lia]|].
  cbn. intros w1 r [[[K G1] T1] Hlen]. destruct r as [[gone|]|er].
  - apply wp_bind. eapply wp_mono; [by apply sync_local_quiet|]. cbn. intros w2 r2 [Q2 T2].
    assert (Good (H ++ K) w2) as G2 by (by eapply Good_quiet).
    destruct r2; [|split; [by exists K|done]].
    apply wp_bind. eapply wp_mono; [apply (checkpoint_keeps (H ++ K)); [done|done|]|].
    { unfold room. rewrite (q_len _ _ Q2). specialize (Hlen ltac:(eauto)). lia. }
    cbn. intros w3 r3 [[L G3] T3]. rewrite <- app_assoc in G3.
    destruct r3; [|split; [by eexists|done]]. apply wp_modify. split; [|done].
    exists (K ++ L). by apply Good_maint.
  - split; [by exists K|done].
  - split; [by exists K|done].
Qed.

Lemma seal_keeps H w tg :
  Good H w -> tame_io w -> room w -> wp (seal tg) (keeps H) w.
Proof.
  intros G Tm Rm. unfold seal. apply wp_bind. eapply wp_mono; [by apply sync_local_quiet|].
  cbn. intros w1 r1 [Q1 T1]. assert (Good H w1) by (by eapply Good_quiet).
  destruct r1; [|by apply keeps_same]. apply wp_bind, wp_io_step; [done|]. intros w2 r2 Q2 T2.
  assert (Good H w2) by (by eapply Good_quiet). destruct r2; [|by apply keeps_same].
  apply checkpoint_keeps; [done|done|]. eapply room_quiet; [|done]. by eapply room_quiet.
Qed.

(** ** Compaction *)

(** The checkpoint in memory is the durable one. *)
Definition checkpoint_durable (w : Wal) (ck : MountCheckpoint) : Prop :=
  checkpoint_file (w_disk w) = FileJson ck /\ last_checkpoint (w_maint w) = Some ck.

(** Log generations below [floor] may be gone; nothing else the invariant
    speaks of has changed. *)
Record pruned (floor : Z) (w w' : Wal) : Prop := {
  pn_epoch : w_epoch w' = w_epoch w;
  pn_index : w_index w' = w_index w;
  pn_log : w_log w' = w_log w;
  pn_ck : checkpoint_file (w_disk w') = checkpoint_file (w_disk w);
  pn_files : forall g, logs (w_disk w') !! g = logs (w_disk w) !! g
    \/ (logs (w_disk w') !! g = None /\ (g < floor)%Z);
  pn_active : forall g, g ∈ active_generations (w_maint w') -> g ∈ active_generations (w_maint w);
  pn_kept : forall g, (floor <= g)%Z -> g ∈ active_generations (w_maint w) ->
    g ∈ active_generations (w_maint w');
}.

Lemma pruned_trans floor w1 w2 w3 : pruned floor w1 w2 -> pruned floor w2 w3 -> pruned floor w1 w3.
Proof.
  intros [A1 A2 A3 A4 A5 A6 A7] [B1 B2 B3 B4 B5 B6 B7]. constructor; try congruence; auto.
  intros g. destruct (B5 g) as [->|?]; [apply A5|by right].
Qed.

Lemma pruned_quiet floor w w' : quiet w w' -> w_log w' = w_log w -> pruned floor w w'.
Proof. intros [Q1 Q2 Q3 Q4 _ _ _ _ _] Hl. constructor; rewrite ?Q3, ?Q4; auto. Qed.

(** The durable replay point is at or below everything still needed. *)
Lemma anchor_below_floor H w ck c k S0 :
  Good H w -> describes (w_epoch w) H ck c k S0 ->
  is_Some (logs (w_disk w) !! ck_replay_log_generation ck) ->
  (ck_replay_log_generation ck <= replay_floor (w_index w) (w_log w))%Z.
Proof.
  intros G D Hex. destruct G as [[St L] _]. destruct (lv_scan _ _ _ _ _ _ L) as (S & HS & T).
  apply floor_grows; [by apply (st_newest _ _ _ St)|]. intros s r Hs.
  destruct (prepared_located _ _ _ _ _ _ _ _ L Hs) as (A & ev & B & HA & Hev).
  set (e := MkEntry (pr_generation r) (pr_offset r) (Prepared ev)) in *.
  change (ck_replay_log_generation ck <= e_generation e)%Z.
  rewrite (tr_prepared _ _ _ T), lookup_map_split_off in Hs. case_decide as Hgt; [|done].
  assert (e ∈ H) as He by (rewrite HA; set_solver). rewrite <- (take_drop k H) in He.
  apply elem_of_app in He as [He|He]; [|by apply (ds_above _ _ _ _ _ _ D)].
  exfalso. pose proof (ds_low _ _ _ _ _ _ D _ _ He eq_refl) as Hlow.
  assert (foldM scan_entry S0 (drop c H) = Ok S) as Hf.
  { pose proof (ds_scan _ _ _ _ _ _ D) as HS0. unfold history_scan in HS, HS0.
    rewrite <- (take_drop c H), foldM_app, HS0 in HS. done. }
  apply scan_cursor_mono in Hf. lia.
Qed.

Lemma Good_pruned H w w' ck :
  Good H w -> checkpoint_file (w_disk w) = FileJson ck ->
  pruned (ck_replay_log_generation ck) w w' -> Good H w'.
Proof.
  intros G Hck [N1 N2 N3 N4 N5 N6 N7]. pose proof G as [[St L] (ck' & c & k & S0 & E & D & He & Ha)].
  rewrite Hck in E. injection E as <-. set (rg := ck_replay_log_generation ck) in *.
  assert (is_Some (logs (w_disk w) !! rg)) as Hrg by (apply Ha; [apply D|unfold rg; lia]).
  assert (rg <= replay_floor (w_index w) (w_log w))%Z as Hfl by (by eapply anchor_below_floor).
  pose proof (Good_floor_generation _ _ G) as Hgen.
  assert (forall g, (rg <= g)%Z -> logs (w_disk w') !! g = logs (w_disk w) !! g) as Hkeep.
  { intros g Hge. destruct (N5 g) as [|[_ ?]]; [done|lia]. }
  assert (forall g, is_Some (logs (w_disk w') !! g) -> logs (w_disk w') !! g = logs (w_disk w) !! g) as Hsub.
  { intros g [b Hb]. destruct (N5 g) as [|[Hn _]]; [done|]. by rewrite Hn in Hb. }
  unfold Good, Running. rewrite N1, N2, N3, N4. split; [split|].
  - destruct St as [S1 S2 S3 S4 S5 S6 S7 S8]. constructor; auto.
    + rewrite Hkeep by lia. done.
    + intros g Hg. apply S7. by rewrite <- Hsub.
    + intros g Hlt Hg. rewrite (Hsub g Hg). apply S8; [done|]. by rewrite <- (Hsub g Hg).
  - destruct L as [L1 L2 L3 L4 L5 L6 L7 L8 L9]. constructor; auto.
    + intros g Hg Hge. rewrite Hkeep by lia. auto.
    + apply N7; [lia|done].
    + intros e Hin Hge. apply N7; [lia|auto].
  - exists ck, c, k, S0. split_and!; [done|done| |].
    + intros e Hin Hge. rewrite Hkeep by done. auto.
    + intros g Hin Hge. rewrite Hkeep by done. auto.
Qed.

Lemma wp_next_log (Q : Wal -> MResult IoOutcome -> Prop) w :
  tame_io w -> (forall w' o, quiet w w' -> w_log w' = w_log w -> tame_io w' -> Q w' (Ok o)) -> wp next_io Q w.
Proof.
  intros Tm HQ. apply wp_next_io; [done|]. intros o io _ Hio. apply HQ; [by constructor|done|done].
Qed.

Lemma wp_io_pruned floor what (Q : Wal -> MResult unit -> Prop) w :
  tame_io w -> (forall w' r, pruned floor w w' -> tame_io w' -> Q w' r) -> wp (io_step what) Q w.
Proof.
  intros Tm HQ. unfold io_step. apply wp_bind, wp_next_log; [done|].
  intros w' o Hq Hl T'. destruct o; apply HQ; try done; by apply pruned_quiet.
Qed.

Lemma remove_generations_pruned floor gens out w :
  tame_io w -> wp (remove_generations floor gens out) (fun w' _ => pruned floor w w' /\ tame_io w') w.
Proof.
  revert out w; induction gens as [|g gens IH]; intros out w Tm; cbn.
  - apply wp_ret. split; [|done]. by constructor; auto.
  - destruct (Z.leb_spec floor g); [auto|]. apply wp_bind, wp_gets, wp_bind, (wp_io_pruned floor); [done|].
    intros w1 r1 N1 T1. destruct r1; [|done]. apply wp_bind, wp_modify. set (w2 := with_disk _ w1).
    assert (pruned floor w1 w2) as N2.
    { constructor; auto. intros g'. cbn. destruct (decide (g' = g)) as [->|Hne].
      - right. by rewrite lookup_delete_eq.
      - left. by rewrite lookup_delete_ne. }
    eapply wp_mono; [by apply (IH _ w2)|]. cbn. intros w' r [N3 T3]. split; [|done].
    eapply pruned_trans; [|done]. by eapply pruned_trans.
Qed.

Lemma reclaim_loop_pruned floor names a b w :
  tame_io w -> wp (reclaim_loop names a b) (fun w' _ => pruned floor w w' /\ tame_io w') w.
Proof.
  revert a b w; induction names as [|n names IH]; intros a b w Tm; cbn.
  - apply wp_ret. split; [|done]. by constructor; auto.
  - apply wp_bind, wp_lift. destruct (validate_payload_name n); [|split; [by constructor; auto|done]].
    apply wp_bind, wp_gets, wp_bind, wp_gets.
    destruct (bool_decide _); [auto|]. destruct (payload_files (w_disk w) !! n); [|auto].
    apply wp_bind, (wp_io_pruned floor); [done|]. intros w1 r1 N1 T1. destruct r1; [|done].
    apply wp_bind, wp_modify. set (w2 := with_disk _ w1).
    assert (pruned floor w1 w2) as N2 by (constructor; auto).
    eapply wp_mono; [by apply (IH _ _ w2)|]. cbn. intros w' r [N3 T3]. split; [|done].
    eapply pruned_trans; [|done]. by eapply pruned_trans.
Qed.

Lemma pruned_maint floor w f :
  (forall m g, g ∈ active_generations (f m) -> g ∈ active_generations m) ->
  (forall m g, (floor <= g)%Z -> g ∈ active_generations m -> g ∈ active_generations (f m)) ->
  pruned floor w (with_maint f w).
Proof. intros H1 H2. constructor; auto; intros g; first [apply (H1 (w_maint w))|apply (H2 (w_maint w))]. Qed.

(** Compaction only deletes generations below the durable replay point. *)
Lemma compact_pruned w ck :
  last_checkpoint (w_maint w) = Some ck -> tame_io w ->
  wp compact (fun w' _ => pruned (ck_replay_log_generation ck) w w' /\ tame_io w') w.
Proof.
  intros Hck Tm. set (floor := ck_replay_log_generation ck). unfold compact.
  apply wp_bind, wp_gets. destruct (_ && _); [apply wp_ret; split; [by constructor; auto|done]|].
  apply wp_bind, wp_gets, wp_bind, wp_gets, wp_bind, wp_modify.
  assert (compaction_floor w = floor) as -> by (unfold compaction_floor; by rewrite Hck).
  set (w1 := with_maint _ w). assert (pruned floor w w1) as N1 by (by apply pruned_maint).
  apply wp_bind, wp_gets, wp_bind. eapply wp_mono; [by apply (remove_generations_pruned floor)|].
  cbn. intros w2 r2 [N2 T2]. assert (pruned floor w w2) as N12 by (by eapply pruned_trans).
  destruct r2 as [out|]; [|done]. apply wp_bind.
  match goal with |- wp ?m _ w2 =>
    assert (wp m (fun w3 _ => pruned floor w w3 /\ tame_io w3) w2) as Hsync end.
  { destruct (0 <? _)%Z; [|by apply wp_ret]. apply wp_bind, (wp_io_pruned floor); [done|].
    intros w3 r3 N3 T3. assert (pruned floor w w3) by (by eapply pruned_trans).
    destruct r3; [|done]. apply wp_modify. split; [|done]. eapply pruned_trans; [done|].
    apply pruned_maint; cbn; set_solver. }
  eapply wp_mono; [exact Hsync|]. cbn. intros w3 r3 [N3 T3]. destruct r3; [|done].
  apply wp_bind, wp_modify. set (w4 := with_maint _ w3).
  assert (pruned floor w w4) as N4 by (eapply pruned_trans; [done|]; by apply pruned_maint).
  destruct (bool_decide _); [by apply wp_ret|]. unfold reclaim. apply wp_bind, wp_bind.
  eapply wp_mono; [by apply (reclaim_loop_pruned floor)|]. cbn. intros w5 r5 [N5 T5].
  assert (pruned floor w w5) by (by eapply pruned_trans). destruct r5 as [out'|]; [|done].
  apply wp_bind. destruct (0 <? out'.1)%Z.
  - apply (wp_io_pruned floor); [done|]. intros w6 r6 N6 T6.
    assert (pruned floor w w6) by (by eapply pruned_trans). by destruct r6.
  - by apply wp_ret.
Qed.

Lemma compact_keeps H w ck :
  Good H w -> tame_io w -> checkpoint_durable w ck -> wp compact (keeps H) w.
Proof.
  intros G Tm [Hf Hl]. eapply wp_mono; [by apply (compact_pruned w ck)|]. cbn. intros w' r [N T'].
  apply keeps_same; [|done]. by eapply Good_pruned.
Qed.

(** ** Rotation *)

Lemma io_step_nil what w : w_io w = [] -> io_step what w = (w, Ok tt).
Proof. intros E. unfold io_step, mbind, M_bind, next_io. by rewrite E. Qed.

(** Creating a generation when every call succeeds. *)
Lemma create_generation_ok g header w :
  w_io w = [] -> logs (w_disk w) !! g = None -> (zlen (framed header) <= MAX_RECORD_BYTES)%Z ->
  exists w1, create_generation g header w = (w1, Ok tt)
    /\ w_epoch w1 = w_epoch w /\ w_state w1 = w_state w /\ w_io w1 = []
    /\ checkpoint_file (w_disk w1) = checkpoint_file (w_disk w)
    /\ logs (w_disk w1) = <[g := framed header]> (logs (w_disk w)).
Proof.
  intros Hio Hg Hfit. unfold create_generation, mbind, M_bind. cbn [gets].
  rewrite Hg, bool_decide_false by (intros [? ?]; done). cbn [bail_if guard_err lift].
  rewrite io_step_nil by done. unfold set_log_file, modify.
  destruct (Z.ltb_spec MAX_RECORD_BYTES (zlen (framed header))); [lia|].
  cbn [bail_if guard_err lift]. unfold next_io at 1. cbn [w_io with_disk]. rewrite Hio.
  rewrite io_step_nil by done. rewrite !io_step_nil by done.
  eexists; split; [done|]. split_and!; try done. cbn. by rewrite insert_insert_eq.
Qed.

Lemma rotated_good H w w2 header g len :
  Good H w -> poisoned (w_log w) = None -> g = (generation (w_log w) + 1)%Z ->
  header = log_header (w_epoch w) g (next_sequence (w_index w)) ->
  (zlen (framed header) <= MAX_RECORD_BYTES)%Z -> len = zlen (framed header) ->
  w_epoch w2 = w_epoch w -> w_index w2 = w_index w ->
  file (w_log w2) = MkLogFile g false len -> generation (w_log w2) = g -> generation_len (w_log w2) = len ->
  active_generations (w_maint w2) = {[g]} ∪ active_generations (w_maint w) ->
  checkpoint_file (w_disk w2) = checkpoint_file (w_disk w) ->
  logs (w_disk w2) = <[g := framed header]> (logs (w_disk w)) ->
  Good (H ++ [MkEntry g 0 header]) w2.
Proof.
  intros G Hp Hg -> Hfit -> E1 E2 E3 E4 E5 E6 E7 E8. pose proof G as [[St L] An].
  set (header := log_header _ _ _) in *. set (e := MkEntry g 0 header).
  destruct (Good_tracks _ _ G) as (S & HS & T).
  destruct (tracks_header _ S (w_index w) (next_sequence (w_index w)) g 0 T) as (S' & Hs' & _ & T').
  destruct (tracked_snoc _ _ e _ _ _ (lv_tracked _ _ _ _ _ _ L) HS Hs' T') as [HS' Ht'].
  assert (of_generation g H = []) as Hnone.
  { apply of_generation_other, Forall_forall. intros x Hx. pose proof (st_gens _ _ _ St x Hx). lia. }
  assert (of_generation g (H ++ [e]) = [e]) as Hone.
  { rewrite of_generation_app, Hnone. cbn. by rewrite Z.eqb_refl. }
  assert (image [e] = framed header) as Him by (cbn; by rewrite app_nil_r).
  pose proof (Good_floor_generation _ _ G) as Hfg.
  unfold Good, Running. rewrite E1, E2, E6, E7, E8. split; [split|].
  - destruct St as [S1 S2 S3 S4 S5 S6 S7 S8]. constructor; rewrite ?E3, ?E4, ?E5, ?Hone, ?Him; auto.
    + replace e with (MkEntry g (zlen (image (of_generation g H))) header) by (by rewrite Hnone).
      apply placed_snoc; [done| |done|rewrite Hnone; change (zlen (image [])) with 0%Z; unfold MAX_RECORD_BYTES, U64_MAX in *; lia].
      intros x Hx. specialize (S2 x Hx). lia.
    + intros x Hx. apply elem_of_app in Hx as [Hx|Hx]; [specialize (S2 x Hx); lia|].
      apply list_elem_of_singleton in Hx as ->. cbn. lia.
    + exists []. rewrite lookup_insert_eq, app_nil_r. split_and!; [done|apply not_elem_of_nil|done].
    + intros g'. destruct (decide (g' = g)) as [->|Hne]; [lia|]. rewrite lookup_insert_ne by done.
      intros Hx. specialize (S7 _ Hx). lia.
    + intros g' Hlt Hx. rewrite lookup_insert_ne in Hx |- * by lia. rewrite of_generation_app. cbn.
      destruct (Z.eqb_spec g g'); [lia|]. rewrite app_nil_r.
      destruct (decide (g' = generation (w_log w))) as [->|Hne]; [|apply S8; [lia|done]].
      destruct S6 as (torn & -> & _ & Ht). by rewrite (Ht Hp), app_nil_r.
  - assert (replay_floor (w_index w) (w_log w) <= replay_floor (w_index w) (w_log w2))%Z as Hgrow.
    { apply floor_grows; [rewrite E4; lia|]. intros s r. by apply (Good_floor H). }
    destruct L as [L1 L2 L3 L4 L5 L6 L7 L8 L9]. constructor; auto.
    + by exists S'.
    + apply (ordered_snoc _ _ (next_sequence (w_index w))); [done| |done].
      intros x ev Hx Hev. by apply (L5 x).
    + intros x ev Hx Hev. apply elem_of_app in Hx as [Hx|Hx]; [eauto|].
      by apply list_elem_of_singleton in Hx as ->.
    + intros g' Hg' Hge. destruct (decide (g' = g)) as [->|Hne]; [rewrite lookup_insert_eq; eauto|].
      rewrite lookup_insert_ne by done. apply L7; [set_solver|lia].
    + rewrite E4. set_solver.
    + intros x Hx Hge. apply elem_of_app in Hx as [Hx|Hx].
      * apply elem_of_union_r, L9; [done|lia].
      * apply list_elem_of_singleton in Hx as ->. cbn. set_solver.
  - eapply Anchored_snoc; [done| | |].
    + intros g' Hx. destruct (decide (g' = g)) as [->|Hne]; [rewrite lookup_insert_eq; eauto|].
      by rewrite lookup_insert_ne.
    + intros g' Hx. pose proof (st_newest _ _ _ St _ Hx). cbn. lia.
    + cbn. rewrite lookup_insert_eq. eauto.
Qed.

Lemma rotate_keeps H w :
  Good H w -> w_io w = [] -> poisoned (w_log w) = None ->
  (generation (w_log w) + 1 <= U64_MAX)%Z ->
  (zlen (framed (log_header (w_epoch w) (generation (w_log w) + 1) (next_sequence (w_index w))))
   <= MAX_RECORD_BYTES)%Z ->
  wp rotate_if_needed (keeps H) w.
Proof.
  intros G Hio Hp Hg Hfit. unfold rotate_if_needed. apply wp_bind, wp_gets.
  assert (tame_io w) as Tm by (unfold tame_io; rewrite Hio; constructor).
  destruct (_ <? _)%Z; [by apply keeps_same|].
  apply wp_bind, wp_gets, wp_bind, wp_lift. rewrite checked_add_exact by done. cbn [ok_or].
  apply wp_bind, wp_gets, wp_bind. set (header := log_header _ _ _) in *.
  destruct (create_generation_ok (generation (w_log w) + 1) header w) as (w1 & Ec & E1 & E2 & E3 & E4 & E5);
    [done| |done|].
  { destruct (logs (w_disk w) !! (generation (w_log w) + 1)%Z) eqn:E; [|done].
    pose proof (st_newest _ _ _ (proj1 (proj1 G)) _ (ex_intro _ _ E)). lia. }
  unfold wp at 1. rewrite Ec. cbn [fst snd]. apply wp_bind, wp_bind, wp_modify, wp_modify, wp_bind, wp_gets.
  set (w2 := with_maint _ _).
  assert (Good (H ++ [MkEntry (generation (w_log w) + 1) 0 header]) w2) as G2.
  { eapply (rotated_good H w w2 header _ (zlen (framed header))); try done.
    - unfold w_index. cbn. by rewrite E2.
    - unfold w_maint. cbn. by rewrite E2. }
  apply wp_bind. eapply wp_mono; [apply (checkpoint_keeps _ w2 _ G2)|].
  { unfold tame_io. cbn. rewrite E3. constructor. }
  { unfold room. cbn. unfold MAX_RECORD_BYTES, U64_MAX in *. lia. }
  cbn. intros w3 r [[K G3] T3]. rewrite <- app_assoc in G3.
  destruct r; (split; [by eexists|done]).
Qed.

End maint.
