(* ===== verification/WalOpen.v ===== *)
(** * Crash and reopen

    A crash cuts the active generation at any byte past the durable checkpoint.
    Opening what is left succeeds, finds exactly the records that were complete,
    rebuilds the index that tracks them, and leaves a state that satisfies the
    invariant again. *)

From S2P Require Import Prelude MountTypes WalTypes WalReplay Wal WalLayout WalRecovery.
From S2P Require Import WalInvariant WalSteps WalMaint.
From Stdlib Require Import ZArith Lia.

Section open.
Context {P : Platform} {C : RecordCodec} {CL : RecordCodecLaws C}.

(** The state directory after the active generation lost everything past its
    first [n] bytes. *)
Definition crash_disk (w : Wal) (n : nat) : Disk :=
  let g := generation (w_log w) in
  set_logs <[g := take n (log_bytes_of w g)]> (w_disk w).

(** Bytes of generation [g] that the first [j] records of the history take. *)
Definition log_size (g : Z) (H : list Entry) (j : nat) : nat := length (image (of_generation g (take j H))).

(** [j] is the number of records of [H] that are complete in the first [n]
    bytes of generation [g]. *)
Definition survives (g : Z) (H : list Entry) (n j : nat) : Prop :=
  j <= length H /\ (n < log_size g H (length H) -> log_size g H j <= n)
  /\ forall j', j' <= length H -> log_size g H j' <= n -> j' <= j.

Lemma split_active H g :
  placed H -> (forall e, e ∈ H -> (e_generation e <= g)%Z) ->
  exists H0, H = H0 ++ of_generation g H /\ Forall (fun e => e_generation e <> g) H0.
Proof.
  intros [_ Hm]. induction Hm as [|e H Hs IH Hle]; intros Hg; [by exists []|].
  destruct (decide (e_generation e = g)) as [He|Hne].
  - exists []. split; [|done]. cbn. rewrite He, Z.eqb_refl. f_equal. symmetry.
    apply of_generation_Forall, Forall_forall. intros x Hx. rewrite Forall_forall in Hle.
    specialize (Hle x Hx). specialize (Hg x ltac:(set_solver)). lia.
  - destruct (IH ltac:(set_solver)) as (H0 & HH & Hne0). exists (e :: H0).
    split; [|by constructor]. cbn. destruct (Z.eqb_spec (e_generation e) g); [done|].
    cbn. f_equal. exact HH.
Qed.

Lemma describes_prefix epoch H ck c k S0 j :
  describes epoch H ck c k S0 -> c <= j <= length H -> describes epoch (take j H) ck c k S0.
Proof.
  intros [D1 D2 D3 D4 D5 D6 D7 D8 D9 D10 D11 D12 D13 D14 D15 D16 D17] Hj.
  assert (take c (take j H) = take c H) as Tc by (rewrite take_take; f_equal; lia).
  assert (take k (take j H) = take k H) as Tk by (rewrite take_take; f_equal; lia).
  assert (forall m e, e ∈ drop m (take j H) -> e ∈ drop m H) as Hd.
  { intros m e He. rewrite <- (take_drop j H), drop_app. set_solver. }
  constructor; rewrite ?Tc, ?Tk; eauto. rewrite length_take. lia.
Qed.

(** The records of the active generation left by a crash. *)
Lemma crash_prefix H g torn0 n :
  placed H -> (forall e, e ∈ H -> (e_generation e <= g)%Z) -> newline ∉ torn0 ->
  exists j torn, survives g H n j /\ newline ∉ torn
    /\ take n (image (of_generation g H) ++ torn0) = image (of_generation g (take j H)) ++ torn
    /\ (forall g', g' <> g -> of_generation g' (take j H) = of_generation g' H).
Proof.
  intros Hp Hg Ht0. destruct (split_active H g Hp Hg) as (H0 & HH & Hne).
  set (E := of_generation g H) in *.
  assert (forall m, of_generation g (take (length H0 + m) H) = take m E) as Hcut.
  { intros m. rewrite HH, take_app_add. rewrite of_generation_app, of_generation_other by done.
    apply of_generation_Forall, Forall_take. unfold E. apply Forall_forall. intros x Hx.
    apply elem_of_of_generation in Hx; tauto. }
  assert (forall m, m <= length H0 -> of_generation g (take m H) = []) as Hlow.
  { intros m Hm. rewrite HH, take_app_le by lia. apply of_generation_other. by apply Forall_take. }
  assert (length H = length H0 + length E) as Hlen by (rewrite HH at 1; by rewrite length_app).
  destruct (take_image E n) as (k & torn & Htake & Hnl & Hle & Hmax).
  assert (exists k' torn', k' <= length E /\ newline ∉ torn'
     /\ take n (image E ++ torn0) = image (take k' E) ++ torn'
     /\ (n < length (image E) -> length (image (take k' E)) <= n)
     /\ (forall j, length (image (take j E)) <= n -> j <= length E -> j <= k')) as (k' & t' & B1 & B2 & B3 & B4 & B5).
  { destruct (decide (n <= length (image E))) as [Hn|Hn].
    - exists (Nat.min k (length E)), torn. rewrite take_app_le by done. rewrite Htake.
      assert (take (Nat.min k (length E)) E = take k E) as ->.
      { destruct (decide (k <= length E)); [f_equal; lia|]. rewrite Nat.min_r by lia.
        by rewrite firstn_all, take_ge by lia. }
      split_and!; [lia|done|done|intros _; by apply Hle|]. intros j Hj1 Hj2. specialize (Hmax j Hj1 Hj2). lia.
    - exists (length E), (take (n - length (image E)) torn0). rewrite firstn_all, take_app_ge by lia.
      split_and!; [done| |done|lia|done]. intros Hx. apply Ht0.
      apply elem_of_take in Hx as (i & Hi & _). by apply list_elem_of_lookup_2 in Hi. }
  exists (length H0 + k'), t'. rewrite Hcut. unfold survives, log_size.
  split_and!; [lia| | |done|done|].
  - rewrite Hcut, Hlen, (Hcut (length E)), firstn_all. done.
  - intros j Hj Hsz. destruct (decide (j <= length H0)) as [|Hgt]; [lia|].
    assert (j = length H0 + (j - length H0)) as Hj' by lia. rewrite Hj', Hcut in Hsz.
    specialize (B5 _ Hsz ltac:(lia)). lia.
  - intros g' Hg'. rewrite HH, take_app_add, !of_generation_app.
    rewrite (of_generation_other g' (take k' E)), (of_generation_other g' E); [done|..];
      apply Forall_forall; intros x Hx; [|apply elem_of_take in Hx as (i & Hx & _); apply list_elem_of_lookup_2 in Hx];
      apply elem_of_of_generation in Hx; lia.
Qed.

Lemma crash_holds H w ck c k S0 n :
  Good H w -> checkpoint_file (w_disk w) = FileJson ck -> describes (w_epoch w) H ck c k S0 ->
  log_size (generation (w_log w)) H c <= n ->
  exists j torn, survives (generation (w_log w)) H n j /\ c <= j
    /\ describes (w_epoch w) (take j H) ck c k S0
    /\ (forall g, (g < generation (w_log w))%Z -> is_Some (logs (crash_disk w n) !! g) ->
         logs (crash_disk w n) !! g = Some (image (of_generation g (take j H))))
    /\ holds_history (crash_disk w n) ck (take j H) (generation (w_log w)) torn.
Proof.
  intros [[St L] (ck' & ? & ? & ? & Hck' & _ & He & Ha)] Hck D Hn.
  assert (ck' = ck) as -> by congruence. set (g := generation (w_log w)) in *.
  destruct (st_last _ _ _ St) as (torn0 & Hf & Ht0 & _). fold g in Hf.
  destruct (crash_prefix H g torn0 n (st_placed _ _ _ St) (st_gens _ _ _ St) Ht0)
    as (j & torn & Hsv & Hnl & Htake & Hoth).
  pose proof Hsv as (Hj & _ & Hmax). assert (c <= j) as Hcj by (apply Hmax; [apply D|done]).
  assert (logs (crash_disk w n) = <[g := image (of_generation g (take j H)) ++ torn]> (logs (w_disk w))) as Hlogs.
  { unfold crash_disk. fold g. unfold log_bytes_of. cbn. rewrite Hf. cbn. by rewrite Htake. }
  assert (forall g', is_Some (logs (crash_disk w n) !! g') <-> is_Some (logs (w_disk w) !! g')) as Hdom.
  { intros g'. rewrite Hlogs. destruct (decide (g' = g)) as [->|Hne].
    - rewrite lookup_insert_eq, Hf. split; eauto.
    - by rewrite lookup_insert_ne. }
  assert (forall g', (g' < g)%Z -> is_Some (logs (crash_disk w n) !! g') ->
    logs (crash_disk w n) !! g' = Some (image (of_generation g' (take j H)))) as Hother.
  { intros g' Hlt Hs. apply Hdom in Hs. rewrite Hlogs, lookup_insert_ne by lia.
    rewrite (Hoth g') by lia. by apply (st_other _ _ _ St). }
  exists j, torn. split_and!; [done|done|by apply describes_prefix|done|].
  constructor; auto.
  - intros g' Hs. apply Hdom in Hs. by apply (st_newest _ _ _ St).
  - by rewrite Hlogs, lookup_insert_eq.
  - intros g' [_ Hlt]. by apply Hother.
  - intros e Hin Hge. apply Hdom, He; [|done]. by eapply elem_of_take in Hin as (i & Hi & _);
      apply list_elem_of_lookup_2 in Hi.
  - intros g' Hin Hge. apply Hdom. auto.
Qed.

Lemma tracked_prefix epoch H j : tracked epoch H -> tracked epoch (take j H).
Proof.
  intros Ht m Hm. rewrite length_take in Hm. destruct (Ht m ltac:(lia)) as (S & i & HS & T).
  exists S, i. split; [|done]. rewrite take_take. by rewrite Nat.min_l by lia.
Qed.

(** ** The opened state *)

Lemma elem_of_prefix (H : list Entry) j e : e ∈ take j H -> e ∈ H.
Proof. intros Hin. rewrite <- (take_drop j H). set_solver. Qed.

Lemma ordered_prefix H j : ordered H -> ordered (take j H).
Proof.
  intros Ho A e B ev e' ev' HA. intros. eapply (Ho A e (B ++ drop j H)); eauto.
  rewrite <- (take_drop j H) at 1. rewrite HA. by rewrite <- app_assoc.
Qed.

(** What [opened] builds from the replay of a directory that holds [K]. *)
Lemma opened_running epoch d ck K c k S0 G torn S i expected fresh durable io :
  placed K -> tracked epoch K -> describes epoch K ck c k S0 -> holds_history d ck K G torn ->
  (forall e, e ∈ K -> (e_generation e <= G)%Z) ->
  (forall g, (g < G)%Z -> is_Some (logs d !! g) -> logs d !! g = Some (image (of_generation g K))) ->
  ordered K -> (forall e ev, e ∈ K -> e_record e = Prepared ev -> (1 <= sequence ev)%Z) ->
  checkpoint_file d = FileJson ck -> history_scan K = Ok S -> tracks epoch S i ->
  expected = None \/ expected = Some epoch ->
  exists rp, replay d expected fresh = Ok rp
    /\ let w := opened d rp durable io in
       Running K w /\ w_epoch w = epoch /\ w_io w = io /\ poisoned (w_log w) = None
       /\ lf_append (file (w_log w)) = true
       /\ same_index (rp_scan rp) (rp_next_sequence rp) i
       /\ same_index (rp_scan rp) (rp_next_sequence rp) (w_index w)
       /\ generation (w_log w) = G
       /\ bool_decide (rp_files rp !! default 0%Z (last (rp_plan rp)) = None) = false
       /\ tree_generation (w_maint w) = ck_tree_generation ck.
Proof.
  intros Hp Ht D Hh Hgens Hother Hord Hpos Hck HS T Hexp.
  destruct (replay_described epoch d ck K c k S0 G torn S i expected fresh Hp Ht D Hh Hck HS T Hexp)
    as (rp & Hrp & Hidx & Hep & Hrck & Hlast & Hplan & Hcov & Hfiles & Hdirty).
  exists rp. split; [done|]. cbv zeta.
  assert (rp_files rp !! G = Some (image (of_generation G K))) as HG by (by rewrite Hfiles, lookup_insert_eq).
  destruct Hidx as (I1 & I2 & I3 & I4 & I5 & I6 & I7).
  pose proof (tr_first _ _ _ T) as Hfirst. pose proof (tr_ack_range _ _ _ T) as Hack.
  set (w := opened d rp durable io).
  assert (w_log w = MkLog (MkLogFile G true 0) [] G (zlen (image (of_generation G K))) 0 None) as Hlog.
  { unfold w, opened, w_log. cbn. rewrite Hlast. cbn. rewrite HG, HG. done. }
  assert (logs (w_disk w) = <[G := image (of_generation G K)]> (logs d)) as Hlogs.
  { unfold w, opened. cbn. rewrite Hlast. cbn. by rewrite HG. }
  assert (tracks epoch S (w_index w)) as Tw.
  { unfold w, opened, w_index. cbn. rewrite I1, I2, I3, I4, I5, I6, I7.
    destruct T. constructor; cbn; auto. lia. }
  assert (forall g, is_Some (logs (w_disk w) !! g) <-> is_Some (logs d !! g)) as Hdom.
  { intros g. rewrite Hlogs. destruct (decide (g = G)) as [->|Hne]; [|by rewrite lookup_insert_ne].
    rewrite lookup_insert_eq, (hh_last _ _ _ _ _ Hh). split; eauto. }
  assert (w_epoch w = epoch) as Hwe by (unfold w, opened; cbn; done).
  assert (active_generations (w_maint w) = {[G]} ∪ list_to_set (rp_plan rp)) as Hact.
  { unfold w, opened, w_maint. cbn. by rewrite Hlast. }
  assert (ck_replay_log_generation ck <= G)%Z as HrgG.
  { apply (hh_newest _ _ _ _ _ Hh), (hh_active _ _ _ _ _ Hh); [apply D|lia]. }
  split_and!; try done; try (by rewrite Hlog).
  - split.
    + rewrite Hlog, Hlogs. constructor; cbn; auto.
      * exists []. rewrite lookup_insert_eq, app_nil_r. split_and!; [done|apply not_elem_of_nil|done].
      * intros g Hg. apply (hh_newest _ _ _ _ _ Hh), Hdom. by rewrite Hlogs.
      * intros g Hlt Hg. rewrite lookup_insert_ne in Hg |- * by lia. auto.
    + rewrite Hwe. constructor; auto.
      * rewrite <- (ds_epoch _ _ _ _ _ _ D). rewrite (ds_epoch _ _ _ _ _ _ D). apply D.
      * by exists S.
      * intros e ev He Hev. pose proof (Hpos _ _ He Hev).
        pose proof (scan_present _ _ _ _ HS He Hev ltac:(done)) as Hs.
        by apply (tr_prepared_dom _ _ _ Tw) in Hs.
      * intros g Hg _. apply Hdom. rewrite Hact in Hg. apply elem_of_union in Hg as [Hg|Hg].
        -- apply elem_of_singleton in Hg as ->. rewrite (hh_last _ _ _ _ _ Hh). eauto.
        -- apply elem_of_list_to_set in Hg. auto.
      * rewrite Hlog, Hact. cbn. set_solver.
      * intros e He Hge. rewrite Hact. apply elem_of_union_r, elem_of_list_to_set, Hcov; [done|].
        etrans; [|exact Hge]. apply floor_grows; [by rewrite Hlog|]. intros s r Hr.
        rewrite (tr_prepared _ _ _ Tw), lookup_map_split_off in Hr. case_decide as Hgt; [|done].
        destruct (scan_located _ _ _ _ HS Hr) as (A & ev & B & HA & Hev).
        set (x := MkEntry (pr_generation r) (pr_offset r) (Prepared ev)) in *.
        change (ck_replay_log_generation ck <= e_generation x)%Z.
        assert (x ∈ K) as Hx by (rewrite HA; set_solver). rewrite <- (take_drop k K) in Hx.
        apply elem_of_app in Hx as [Hx|Hx]; [|by apply (ds_above _ _ _ _ _ _ D)].
        exfalso. pose proof (ds_low _ _ _ _ _ _ D _ _ Hx eq_refl) as Hlow.
        assert (foldM scan_entry S0 (drop c K) = Ok S) as Hf.
        { pose proof (ds_scan _ _ _ _ _ _ D) as HS0. unfold history_scan in HS, HS0.
          rewrite <- (take_drop c K), foldM_app, HS0 in HS. done. }
        apply scan_cursor_mono in Hf. lia.
  - unfold same_index, w, opened, w_index. cbn. rewrite I6, Hfirst. split_and!; try done. lia.
  - rewrite Hlast. cbn. by rewrite HG.
  - unfold w, opened, w_maint. cbn. by rewrite Hrck.
Qed.

(** ** Success when every system call succeeds *)

Lemma wp_conj {A} (m : M A) (Q R : Wal -> MResult A -> Prop) w :
  wp m Q w -> wp m R w -> wp m (fun w' r => Q w' r /\ R w' r) w.
Proof. by split. Qed.

(** No failure is scheduled and the log accepts appends. *)
Definition calm (w : Wal) : Prop := w_io w = [] /\ poisoned (w_log w) = None.

Lemma calm_tame w : calm w -> tame_io w.
Proof. intros [E _]. unfold tame_io. rewrite E. constructor. Qed.

Lemma sync_handles_calm hs w :
  calm w -> wp (sync_handles hs) (fun w' r => calm w' /\ r = Ok []) w.
Proof.
  revert w; induction hs as [|g hs IH]; intros w Hc; cbn; [by apply wp_ret|].
  apply wp_bind. unfold wp at 1, next_io. destruct Hc as [E Hp]. rewrite E. cbn [fst snd].
  apply wp_bind, wp_modify, IH. done.
Qed.

Lemma sync_local_calm w : calm w -> wp sync_local (fun w' r => calm w' /\ exists z, r = Ok z) w.
Proof.
  intros Hc. unfold sync_local. apply wp_bind, wp_gets, wp_bind, wp_gets.
  unfold sync_watermark. apply wp_bind, wp_gets.
  destruct (_ && _); [apply wp_ret; eauto|].
  assert (wp run_sync_round (fun w' r => calm w' /\ exists z, r = Ok z) w) as Hr.
  { unfold run_sync_round. apply wp_bind, wp_gets, wp_bind, wp_modify, wp_bind, wp_gets, wp_bind.
    unfold wp at 1, next_io. cbn [w_io with_log with_state]. rewrite (proj1 Hc). cbn [fst snd].
    apply wp_bind. eapply wp_mono; [by apply sync_handles_calm|]. cbn. intros w' r [Hc' ->].
    apply wp_ret. eauto. }
  unfold wp in *. destruct (run_sync_round w) as [w' r]. cbn in Hr. destruct Hr as [Hc' [[a b] ->]].
  cbn. eauto.
Qed.

Lemma append_framed_calm r w :
  calm w -> (zlen (framed r) <= MAX_RECORD_BYTES)%Z ->
  wp (append_framed r) (fun w' res => calm w' /\ exists off, res = Ok off) w.
Proof.
  intros [E Hp] Hfit. unfold append_framed. apply wp_bind, wp_gets. rewrite Hp.
  apply wp_bind, wp_bail_if; [done|]. intros _. apply wp_bind. unfold wp at 1, next_io. rewrite E.
  cbn [fst snd]. destruct (Z.ltb_spec MAX_RECORD_BYTES (zlen (framed r))); [lia|].
  apply wp_bind. unfold wp at 1, file_write. cbn [fst snd].
  apply wp_bind, wp_gets, wp_bind, wp_modify, wp_ret. split; [|by eexists]. split; [done|].
  unfold w_log in *. cbn. done.
Qed.

Lemma checkpoint_calm H w tg :
  Running H w -> calm w ->
  (zlen (framed (Checkpointed (w_epoch w) (acknowledged_sequence (w_index w)) tg)) <= MAX_RECORD_BYTES)%Z ->
  wp (checkpoint tg) (fun w' r => calm w' /\ r = Ok tt) w.
Proof.
  intros R Hc Hfit. unfold checkpoint, checkpoint_locked. apply wp_bind.
  eapply wp_mono; [apply wp_conj; [by apply sync_local_calm|by apply sync_local_quiet, calm_tame]|].
  cbn. intros w1 r1 [[Hc1 [z ->]] [Q1 _]]. assert (Running H w1) as R1 by (by eapply Running_quiet).
  apply wp_bind. unfold wp at 1. rewrite io_step_nil by apply Hc1. cbn [fst snd].
  apply wp_bind, wp_gets, wp_bind, wp_modify, wp_bind, wp_lift.
  rewrite (build_valid H w1 tg R1). apply wp_bind, wp_gets, wp_bind, wp_modify.
  set (w2 := with_maint _ (with_maint _ w1)). assert (calm w2) as Hc2 by done.
  apply wp_bind. match goal with |- wp ?m _ w2 =>
    assert (wp m (fun w3 r => calm w3 /\ r = Ok tt) w2) as Hprev end.
  { destruct (last_checkpoint _); [|by apply wp_ret]. apply wp_bind. unfold wp at 1.
    rewrite io_step_nil by apply Hc2. cbn [fst snd]. apply wp_bind, wp_modify. unfold wp. by rewrite io_step_nil by apply Hc2. }
  eapply wp_mono; [exact Hprev|]. cbn. intros w3 r3 [Hc3 ->].
  apply wp_bind, wp_bind. unfold wp at 1. rewrite io_step_nil by apply Hc3. cbn [fst snd].
  apply wp_bind, wp_modify. set (w4 := with_disk _ w3). assert (calm w4) as Hc4 by done.
  unfold wp at 1. rewrite io_step_nil by apply Hc4. cbn [fst snd].
  apply wp_bind. eapply wp_mono; [apply append_framed_calm; [done|]|].
  { change (zlen (framed (Checkpointed (w_epoch w1) (acknowledged_sequence (w_index w1)) tg)) <= MAX_RECORD_BYTES)%Z.
    by rewrite (q_epoch _ _ Q1), (q_index _ _ Q1). }
  cbn. intros w5 r5 [Hc5 [off ->]]. by apply wp_ret.
Qed.

(** ** Opening what a crash left *)

(** The parts of the index that recovery must rebuild. *)
Definition same_backlog (i i' : IndexPart) : Prop :=
  i.(prepared) = i'.(prepared) /\ i.(committed) = i'.(committed) /\ i.(aborted) = i'.(aborted)
  /\ i.(acknowledged_sequence) = i'.(acknowledged_sequence)
  /\ i.(remote_revision) = i'.(remote_revision)
  /\ i.(first_unpruned_sequence) = i'.(first_unpruned_sequence)
  /\ i.(next_sequence) = i'.(next_sequence).

Lemma tracks_unique epoch S i i' : tracks epoch S i -> tracks epoch S i' -> same_backlog i i'.
Proof.
  intros T T'. pose proof (tr_prepared_dom _ _ _ T) as D. pose proof (tr_prepared_dom _ _ _ T') as D'.
  pose proof (tr_ack_range _ _ _ T). pose proof (tr_ack_range _ _ _ T').
  assert (next_sequence i = next_sequence i') as Hn.
  { assert (forall s, (1 <= s < next_sequence i)%Z <-> (1 <= s < next_sequence i')%Z) as E
      by (intros s; by rewrite <- D, <- D').
    destruct (Z.lt_trichotomy (next_sequence i) (next_sequence i')) as [Hl|[?|Hl]]; [|done|].
    - specialize (E (next_sequence i)). lia.
    - specialize (E (next_sequence i')). lia. }
  unfold same_backlog.
  rewrite (tr_prepared _ _ _ T), (tr_prepared _ _ _ T'), (tr_committed _ _ _ T), (tr_committed _ _ _ T'),
    (tr_aborted _ _ _ T), (tr_aborted _ _ _ T'), (tr_ack _ _ _ T), (tr_ack _ _ _ T'),
    (tr_revision _ _ _ T), (tr_revision _ _ _ T'), (tr_first _ _ _ T), (tr_first _ _ _ T'). done.
Qed.

Lemma same_index_backlog sc next i i' :
  same_index sc next i -> same_index sc next i' -> same_backlog i' i.
Proof.
  intros (A1 & A2 & A3 & A4 & A5 & A6 & A7) (B1 & B2 & B3 & B4 & B5 & B6 & B7).
  unfold same_backlog. split_and!; congruence.
Qed.

Lemma same_backlog_trans i1 i2 i3 : same_backlog i1 i2 -> same_backlog i2 i3 -> same_backlog i1 i3.
Proof.
  intros (A1 & A2 & A3 & A4 & A5 & A6 & A7) (B1 & B2 & B3 & B4 & B5 & B6 & B7).
  unfold same_backlog. split_and!; congruence.
Qed.

Lemma Running_positive H w e ev :
  Running H w -> e ∈ H -> e_record e = Prepared ev -> (1 <= sequence ev)%Z.
Proof. intros [_ L] He Hev. pose proof (lv_below_next _ _ _ _ _ _ L _ _ He Hev). lia. Qed.

(** From a running state, a successful checkpoint is all [open] still needs. *)
Lemma open_of_replay d rp fresh durable expected :
  replay d expected fresh = Ok rp ->
  bool_decide (rp_files rp !! default 0%Z (last (rp_plan rp)) = None) = false ->
  open d expected fresh durable [] =
    match checkpoint (tree_generation (w_maint (opened d rp durable []))) (opened d rp durable []) with
    | (w, Ok _) => Ok w
    | (_, Err e) => Err e
    end.
Proof. intros Hrp Hnew. unfold open. rewrite Hrp. cbn [mbind result_bind]. by rewrite Hnew. Qed.

Lemma checkpoint_from_running K w0 tg w u :
  Running K w0 -> calm w0 -> room w0 -> checkpoint tg w0 = (w, Ok u) ->
  exists K', Good (K ++ K') w /\ w_index w = w_index w0 /\ w_epoch w = w_epoch w0.
Proof.
  intros R Hc Rm Ec. pose proof (checkpoint_anchors K w0 tg R (calm_tame _ Hc) Rm) as Ha.
  unfold wp in Ha. unfold checkpoint in Ec. rewrite Ec in Ha. cbn in Ha.
  destruct Ha as (_ & He & Hi & K' & _ & HK). exists K'. split; [|done]. apply HK. left. eauto.
Qed.

(** A directory that holds a prefix [take j H] of the history of [w]. *)
Lemma open_prefix H w d ck c k S0 j torn durable fresh :
  Good H w -> j <= length H -> describes (w_epoch w) (take j H) ck c k S0 ->
  holds_history d ck (take j H) (generation (w_log w)) torn ->
  (forall g, (g < generation (w_log w))%Z -> is_Some (logs d !! g) ->
     logs d !! g = Some (image (of_generation g (take j H)))) ->
  checkpoint_file d = FileJson ck ->
  (zlen (image (of_generation (generation (w_log w)) H)) + MAX_RECORD_BYTES <= U64_MAX)%Z ->
  exists S i, history_scan (take j H) = Ok S /\ tracks (w_epoch w) S i
    /\ (forall w', open d None fresh durable [] = Ok w' ->
         exists K, Good (take j H ++ K) w' /\ w_epoch w' = w_epoch w /\ same_backlog (w_index w') i)
    /\ ((zlen (framed (Checkpointed (w_epoch w) (sc_acknowledged_sequence S) (ck_tree_generation ck)))
          <= MAX_RECORD_BYTES)%Z -> exists w', open d None fresh durable [] = Ok w').
Proof.
  intros G Hj D Hh Hother Hck Hroom. pose proof G as [[St L] An].
  destruct (lv_tracked _ _ _ _ _ _ L j Hj) as (S & i & HS & T).
  destruct (opened_running (w_epoch w) d ck (take j H) c k S0 (generation (w_log w)) torn S i None fresh durable [])
    as (rp & Hrp & R & Ew & Eio & Epo & Eap & Hidx & Hidx' & Egen & Enew & Etg); try done.
  { apply (placed_prefix _ (drop j H)). rewrite take_drop. apply St. }
  { apply tracked_prefix, L. }
  { intros e He. apply (st_gens _ _ _ St). by eapply elem_of_prefix. }
  { apply ordered_prefix, L. }
  { intros e ev He. eapply Running_positive; [by split|]. by eapply elem_of_prefix. }
  { by left. }
  set (w0 := opened d rp durable []) in *. assert (calm w0) as Hc by done.
  assert (room w0) as Rm.
  { unfold room. rewrite (st_len _ _ _ (proj1 R)), Egen. etrans; [|exact Hroom].
    rewrite <- (take_drop j H) at 2. rewrite of_generation_app, image_app, zlen_app.
    pose proof (zlen_nonneg (image (of_generation (generation (w_log w)) (drop j H)))). lia. }
  exists S, i. split_and!; [done|done| |].
  - intros w'. rewrite (open_of_replay _ rp) by done. fold w0.
    destruct (checkpoint (tree_generation (w_maint w0)) w0) as [w1 [u|]] eqn:Ec; [|done]. intros [= <-].
    destruct (checkpoint_from_running _ _ _ _ _ R Hc Rm Ec) as (K & GK & Hi & He).
    exists K. split; [done|]. split; [congruence|]. rewrite Hi. by eapply same_index_backlog.
  - intros Hfit. rewrite (open_of_replay _ rp) by done. fold w0.
    assert (wp (checkpoint (tree_generation (w_maint w0))) (fun w' r => calm w' /\ r = Ok tt) w0) as Hwp.
    { apply (checkpoint_calm (take j H)); [done|done|]. rewrite Ew, Etg.
      destruct Hidx' as (_ & _ & _ & <- & _). destruct Hidx as (_ & _ & _ & -> & _).
      by rewrite (tr_ack _ _ _ T). }
    unfold wp in Hwp. destruct (checkpoint (tree_generation (w_maint w0)) w0) as [w1 r].
    cbn in Hwp. destruct Hwp as [_ ->]. eauto.
Qed.

End open.
