(* ===== verification/WalSystem.v ===== *)
(** * The log as a system

    The operations of the log as one step relation, with restarts, and what
    holds in every reachable state. *)

From S2P Require Import Prelude MountTypes WalTypes WalReplay Wal WalLayout WalRecovery.
From S2P Require Import WalInvariant WalSteps WalMaint WalOpen.
From Stdlib Require Import ZArith Lia.

Section system.
Context {P : Platform} {C : RecordCodec} {CL : RecordCodecLaws C}.

(** ** A fresh state directory *)

Definition empty_disk : Disk := MkDisk ∅ FileAbsent FileAbsent ∅.

Definition header_fits (epoch : string) : Prop :=
  (zlen (framed (log_header epoch 0 1)) <= MAX_RECORD_BYTES)%Z.

Definition fresh_replayed (epoch : string) : Replayed :=
  MkReplayed None [] epoch ∅ (scan_seed 1 ∅) 1.

Lemma replay_empty epoch : replay empty_disk None epoch = Ok (fresh_replayed epoch).
Proof. unfold replay, load_checkpoint. cbn. reflexivity. Qed.

Lemma fresh_running epoch :
  is_empty_str epoch = false -> header_fits epoch ->
  Running [MkEntry 0 0 (log_header epoch 0 1)] (opened empty_disk (fresh_replayed epoch) ∅ []).
Proof.
  intros Hne Hfit. set (e := MkEntry 0 0 (log_header epoch 0 1)).
  set (w := opened empty_disk (fresh_replayed epoch) ∅ []).
  assert (tracks epoch (scan_seed 1 ∅) (w_index w)) as T0.
  { constructor; cbn; auto; try (by intros; set_solver); try (unfold U64_MAX; lia).
    intros s. rewrite lookup_empty. split; [by intros [? ?]|lia]. }
  destruct (tracks_header epoch (scan_seed 1 ∅) (w_index w) 1 0 0 T0) as (S & Hs & _ & T).
  fold e in Hs.
  assert (tracked epoch [e]) as Ht.
  { intros [|[|j]] Hj; cbn in Hj; [exists (scan_seed 1 ∅); eauto|exists S|lia].
    exists (w_index w). split; [|done]. unfold history_scan. cbn [take foldM]. by rewrite Hs. }
  assert (logs (w_disk w) = <[0%Z := framed (log_header epoch 0 1)]> ∅) as Hlogs by done.
  assert (w_log w = MkLog (MkLogFile 0 true 0) [] 0 (zlen (framed (log_header epoch 0 1))) 0 None) as Hlog.
  { unfold w, opened, w_log. cbn. done. }
  assert (image (of_generation 0 [e]) = framed (log_header epoch 0 1)) as Him.
  { cbn. by rewrite app_nil_r. }
  split.
  - rewrite Hlog, Hlogs. constructor; cbn [generation generation_len file lf_generation lf_append poisoned]; auto.
    + split; [|repeat constructor]. intros g. unfold of_generation. cbn [List.filter].
      change (e_generation e) with 0%Z. destruct (Z.eqb_spec 0 g) as [<-|]; [|done].
      cbn. split_and!; [done|done|apply Hfit| |done]. unfold header_fits, MAX_RECORD_BYTES, U64_MAX in *. cbn in *. lia.
    + intros x Hx. apply list_elem_of_singleton in Hx as ->. cbn. lia.
    + by rewrite Him.
    + exists []. rewrite Him, app_nil_r, lookup_insert_eq. split_and!; [done|apply not_elem_of_nil|done].
    + intros g Hg. destruct (decide (g = 0%Z)) as [->|]; [lia|]. rewrite lookup_insert_ne, lookup_empty in Hg by done.
      by destruct Hg.
    + intros g Hlt Hg. rewrite lookup_insert_ne, lookup_empty in Hg by lia. by destruct Hg.
  - change (w_epoch w) with epoch. rewrite Hlogs. constructor; auto.
    + exists S. split; [|done]. unfold history_scan. cbn [foldM]. by rewrite Hs.
    + intros A x B ev x' ev' HA. destruct A as [|y A]; [intros _ Hx'; by apply elem_of_nil in Hx'|].
      injection HA as <- HA. by destruct A.
    + intros x ev Hx. apply list_elem_of_singleton in Hx as ->. done.
    + intros p Hp. cbn in Hp. set_solver.
    + intros g Hg _. cbn in Hg. assert (g = 0%Z) as -> by set_solver. rewrite lookup_insert_eq. eauto.
    + rewrite Hlog. cbn. set_solver.
    + intros x Hx _. apply list_elem_of_singleton in Hx as ->. cbn. set_solver.
Qed.

Lemma open_fresh epoch w :
  is_empty_str epoch = false -> open empty_disk None epoch ∅ [] = Ok w ->
  exists H, Good H w /\ w_epoch w = epoch /\ H <> [].
Proof.
  intros Hne Ho. unfold open in Ho. rewrite replay_empty in Ho. cbn [mbind result_bind] in Ho.
  inv_ok Ho. assert (header_fits epoch) as Hfit.
  { apply andb_false_iff in Hx as [Hx|Hx]; [|by apply Z.ltb_ge in Hx].
    cbn in Hx. apply bool_decide_eq_false in Hx. by destruct Hx. }
  set (w0 := opened _ _ _ _) in Ho. pose proof (fresh_running epoch Hne Hfit) as R. fold w0 in R.
  assert (calm w0) as Hc by done. set (e := MkEntry _ _ _) in R.
  assert (room w0) as Rm.
  { unfold room. rewrite (st_len _ _ _ (proj1 R)). cbn. rewrite app_nil_r.
    unfold header_fits, MAX_RECORD_BYTES, U64_MAX in *. cbn in *. lia. }
  destruct (checkpoint (tree_generation (w_maint w0)) w0) as [w1 [u|]] eqn:Ec; [|done]. injection Ho as <-.
  destruct (checkpoint_from_running _ _ _ _ _ R Hc Rm Ec) as (K & GK & _ & He). by exists ([e] ++ K).
Qed.

(** ** Steps *)

Inductive WalOp :=
| OpPrepare (m : MountMutation) (source : PayloadSource) (pre : MountPreImage)
| OpCommit (token : MountEvent) (id : option string)
| OpAbort (token : MountEvent) (reason : string)
| OpRecordDirty (path : string)
| OpClearDirty (path : string)
| OpRenameDirty (old new : string)
| OpSyncThrough (seq : Z)
| OpAcknowledge (through revision tree_gen : Z)
| OpResolve (seq : Z) (resolution : RecoveryResolution)
| OpCheckpoint (tree_gen : Z)
| OpSeal (tree_gen : Z)
| OpRotate
| OpCompact.

Definition ignore {A} (m : M A) : M unit := m ;; mret tt.

Definition run_op (op : WalOp) : M unit :=
  match op with
  | OpPrepare m source pre => ignore (prepare m source pre)
  | OpCommit token id => commit token id
  | OpAbort token reason => abort token reason
  | OpRecordDirty path => ignore (record_content_dirty path)
  | OpClearDirty path => clear_content_dirty path
  | OpRenameDirty old new => rename_content_dirty old new
  | OpSyncThrough seq => ignore (sync_through seq)
  | OpAcknowledge through revision tree_gen => acknowledge through revision tree_gen
  | OpResolve seq resolution => resolve_recovered seq resolution
  | OpCheckpoint tree_gen => checkpoint tree_gen
  | OpSeal tree_gen => seal tree_gen
  | OpRotate => ignore rotate_if_needed
  | OpCompact => ignore compact
  end.

(** When an operation is in the scope of the invariant: sequences and offsets
    fit their 64 bits, the outcomes are ones the append path handles, rotation
    starts from a healthy generation and sees no failure, and compaction works
    from the checkpoint that is on disk. *)
Definition in_scope (op : WalOp) (w : Wal) : Prop :=
  tame_io w
  /\ (generation_len (w_log w) + 2 * MAX_RECORD_BYTES <= U64_MAX)%Z
  /\ (next_sequence (w_index w) + 1 <= U64_MAX)%Z
  /\ match op with
     | OpRotate => calm w /\ (generation (w_log w) + 1 <= U64_MAX)%Z
         /\ (zlen (framed (log_header (w_epoch w) (generation (w_log w) + 1) (next_sequence (w_index w))))
             <= MAX_RECORD_BYTES)%Z
     | OpCompact => exists ck, checkpoint_durable w ck
     | _ => True
     end.

Lemma ignore_keeps {A} H w (m : M A) : wp m (keeps H) w -> wp (ignore m) (keeps H) w.
Proof.
  intros Hm. apply wp_bind. eapply wp_mono; [exact Hm|]. cbn. intros w' [a|e] HK; [apply wp_ret|];
    exact HK.
Qed.

Lemma run_op_keeps H w op :
  Good H w -> in_scope op w -> wp (run_op op) (keeps H) w.
Proof.
  intros G (Tm & Hr & Hn & Hop).
  assert (room w) as Rm by (unfold room; unfold MAX_RECORD_BYTES in *; lia).
  destruct op; cbn [run_op].
  - by apply ignore_keeps, prepare_keeps.
  - by apply commit_keeps.
  - by apply abort_keeps.
  - by apply ignore_keeps, record_content_dirty_keeps.
  - by apply clear_content_dirty_keeps.
  - by apply rename_content_dirty_keeps.
  - apply ignore_keeps. eapply wp_mono; [by apply sync_watermark_quiet|]. cbn. intros w' r [Q T].
    apply keeps_same; [by eapply Good_quiet|done].
  - by apply acknowledge_keeps.
  - by apply resolve_recovered_keeps.
  - by apply checkpoint_keeps.
  - by apply seal_keeps.
  - destruct Hop as ([Hio Hp] & Hg & Hfit). by apply ignore_keeps, rotate_keeps.
  - destruct Hop as [ck Hck]. by apply ignore_keeps, (compact_keeps H w ck).
Qed.

(** A process that dies leaves its files, and possibly a torn record. *)
Definition killed_disk (w : Wal) (torn : bytes) : Disk :=
  let g := generation (w_log w) in
  set_logs <[g := log_bytes_of w g ++ torn]> (w_disk w).

Inductive reachable (epoch : string) : Wal -> Prop :=
| reach_fresh w : open empty_disk None epoch ∅ [] = Ok w -> reachable epoch w
| reach_op w op io :
    reachable epoch w -> in_scope op (with_io io w) ->
    reachable epoch (fst (run_op op (with_io io w)))
| reach_restart w torn durable fresh w' :
    reachable epoch w -> newline ∉ torn ->
    (generation_len (w_log w) + MAX_RECORD_BYTES <= U64_MAX)%Z ->
    open (killed_disk w torn) None fresh durable [] = Ok w' -> reachable epoch w'.

Lemma killed_holds H w torn :
  Good H w -> newline ∉ torn ->
  exists ck c k S0 t, checkpoint_file (w_disk w) = FileJson ck /\ describes (w_epoch w) (take (length H) H) ck c k S0
    /\ holds_history (killed_disk w torn) ck (take (length H) H) (generation (w_log w)) t
    /\ (forall g, (g < generation (w_log w))%Z -> is_Some (logs (killed_disk w torn) !! g) ->
         logs (killed_disk w torn) !! g = Some (image (of_generation g (take (length H) H)))).
Proof.
  intros [[St L] (ck & c & k & S0 & Hck & D & He & Ha)] Hnl. set (g := generation (w_log w)).
  destruct (st_last _ _ _ St) as (t0 & Hf & Ht0 & _). fold g in Hf.
  assert (logs (killed_disk w torn) = <[g := image (of_generation g H) ++ (t0 ++ torn)]> (logs (w_disk w))) as Hlogs.
  { unfold killed_disk. fold g. unfold log_bytes_of. cbn. rewrite Hf. cbn. by rewrite <- app_assoc. }
  assert (forall g', is_Some (logs (killed_disk w torn) !! g') <-> is_Some (logs (w_disk w) !! g')) as Hdom.
  { intros g'. rewrite Hlogs. destruct (decide (g' = g)) as [->|Hne]; [|by rewrite lookup_insert_ne].
    rewrite lookup_insert_eq, Hf. split; eauto. }
  assert (forall g', (g' < g)%Z -> is_Some (logs (killed_disk w torn) !! g') ->
    logs (killed_disk w torn) !! g' = Some (image (of_generation g' H))) as Hother.
  { intros g' Hlt Hs. apply Hdom in Hs. rewrite Hlogs, lookup_insert_ne by lia. by apply (st_other _ _ _ St). }
  exists ck, c, k, S0, (t0 ++ torn). rewrite firstn_all. split_and!; [done|done| |done].
  constructor; auto.
  - set_solver.
  - intros g' Hs. apply Hdom in Hs. by apply (st_newest _ _ _ St).
  - by rewrite Hlogs, lookup_insert_eq.
  - intros g' [_ Hlt]. by apply Hother.
  - intros e Hin Hge. apply Hdom. auto.
  - intros g' Hin Hge. apply Hdom. auto.
Qed.

(** A history fixes the epoch of the log that wrote it. *)
Lemma scan_epoch T S S' :
  foldM scan_entry S T = Ok S' -> (T <> [] \/ is_Some (sc_epoch S)) ->
  exists e, sc_epoch S' = Some e /\ (sc_epoch S = None \/ sc_epoch S = Some e).
Proof.
  revert S; induction T as [|x T IH]; intros S Hf Hor; cbn in Hf.
  - injection Hf as <-. destruct Hor as [?|[e He]]; [done|]. eauto.
  - destruct (scan_entry S x) as [S1|] eqn:E1; [|done].
    assert (exists e, sc_epoch S1 = Some e /\ (sc_epoch S = None \/ sc_epoch S = Some e)) as (e & He & Hor').
    { clear IH Hf Hor. unfold scan_entry in E1. destruct S as [ep p c a k v d f].
      assert (forall o s o', observe_epoch o s = Ok o' -> exists e, o' = Some e /\ (o = None \/ o = Some e)) as Ho.
      { intros [o|] s o'; cbn; [destruct (String.eqb_spec o s)|]; intros; simplify_eq; eauto. }
      destruct (persisted (e_record x)); cbn in E1; inv_ok E1; break_all E1; try (inv_ok E1); simplify_eq;
        eapply Ho; eassumption. }
    destruct (IH _ Hf) as (e' & He' & Hor2); [right; eauto|]. exists e'. split; [done|].
    destruct Hor2 as [Hn|Hn]; [congruence|]. assert (e = e') by congruence. by subst.
Qed.

Lemma Good_same_epoch H K w w' :
  H <> [] -> Good H w -> Good (H ++ K) w' -> w_epoch w' = w_epoch w.
Proof.
  intros Hne G G'. destruct (Good_tracks _ _ G) as (S & HS & T).
  destruct (Good_tracks _ _ G') as (S' & HS' & T').
  destruct (scan_epoch _ _ _ HS) as (e & He & _); [by left|].
  unfold history_scan in HS, HS'. rewrite foldM_app, HS in HS'.
  destruct (scan_epoch _ _ _ HS') as (e' & He' & Hor); [right; eauto|].
  destruct (tr_epoch _ _ _ T) as [?|E]; [congruence|]. destruct (tr_epoch _ _ _ T') as [?|E']; [congruence|].
  destruct Hor as [?|?]; congruence.
Qed.

(** ** Every reachable state *)

Lemma restart_good H w torn durable fresh w' :
  Good H w -> H <> [] -> newline ∉ torn -> room w ->
  open (killed_disk w torn) None fresh durable [] = Ok w' ->
  exists K, Good (H ++ K) w' /\ w_epoch w' = w_epoch w /\ same_backlog (w_index w') (w_index w).
Proof.
  intros G Hn Ht Hr Ho. destruct (killed_holds H w torn G Ht) as (ck & c & k & S0 & t & Hck & D & Hh & Hother).
  destruct (open_prefix H w (killed_disk w torn) ck c k S0 (length H) t durable fresh)
    as (S & i & HS & T & Hgood & _); try done.
  { by rewrite <- (st_len _ _ _ (proj1 (proj1 G))). }
  destruct (Hgood w' Ho) as (K & GK & He & Hb). rewrite firstn_all in GK, HS. exists K. split; [done|].
  split; [done|]. eapply same_backlog_trans; [done|].
  destruct (Good_tracks _ _ G) as (S' & HS' & T'). rewrite HS in HS'. injection HS' as <-.
  by eapply tracks_unique.
Qed.

Lemma reachable_good epoch w :
  is_empty_str epoch = false -> reachable epoch w ->
  exists H, Good H w /\ w_epoch w = epoch /\ H <> [].
Proof.
  intros Hne. induction 1 as [w Ho|w op io _ (H & G & He & Hn) Hs|w torn durable fresh w' _ (H & G & He & Hn) Ht Hr Ho].
  - by apply open_fresh.
  - assert (Good H (with_io io w)) as G0 by done.
    pose proof (run_op_keeps H (with_io io w) op G0 Hs) as Hk.
    unfold wp in Hk. destruct Hk as [[K GK] _]. exists (H ++ K).
    split; [done|]. split; [|destruct H; done].
    by rewrite (Good_same_epoch H K w _ Hn G GK).
  - destruct (restart_good H w torn durable fresh w' G Hn Ht Hr Ho) as (K & GK & He' & _).
    exists (H ++ K). split; [done|]. split; [congruence|]. by destruct H.
Qed.

(** The marker a reopened log appends for the cursor [t] fits a record. *)
Definition marker_fits (w : Wal) (t : Z) : Prop :=
  forall ck, checkpoint_file (w_disk w) = FileJson ck ->
    (zlen (framed (Checkpointed (w_epoch w) t (ck_tree_generation ck))) <= MAX_RECORD_BYTES)%Z.

(** C1: whatever prepares, commits, aborts, dirty marks, acknowledgements,
    checkpoints, rotations, compactions and earlier restarts a mount log went
    through, each in the scope of [in_scope], and whatever part of an unfinished
    record a dying process left at its end, reopening the state directory
    succeeds and rebuilds exactly the backlog that was in memory: the same
    prepared, committed and aborted sequences with the same events, the same
    acknowledgement cursor and remote revision, and the same next sequence.

    The scope: any operation may see its calls fail in the ways the append path
    handles ([tame_io]: a partial record is rolled back, or the log is poisoned,
    in a generation opened for appending); a rotation starts from a healthy
    generation and sees no failure; a compaction works from the checkpoint that
    is on disk; sequences and offsets fit 64 bits. Outside it the log of the code
    can be left in a state that does not open: [WalWitness] has the runs. *)
Theorem wal_restart_recovers epoch w torn durable fresh :
  is_empty_str epoch = false -> reachable epoch w -> newline ∉ torn -> room w ->
  marker_fits w (acknowledged_sequence (w_index w)) ->
  exists w', open (killed_disk w torn) None fresh durable [] = Ok w'
    /\ same_backlog (w_index w') (w_index w).
Proof.
  intros Hne Hr Ht Hroom Hm. destruct (reachable_good epoch w Hne Hr) as (H & G & _ & Hn).
  destruct (killed_holds H w torn G Ht) as (ck & c & k & S0 & t & Hck & D & Hh & Hother).
  destruct (open_prefix H w (killed_disk w torn) ck c k S0 (length H) t durable fresh)
    as (S & i & HS & T & Hgood & Hlive); try done.
  { by rewrite <- (st_len _ _ _ (proj1 (proj1 G))). }
  destruct Hlive as [w' Ho].
  { destruct (Good_tracks _ _ G) as (S' & HS' & T'). rewrite firstn_all, HS' in HS. injection HS as <-.
    rewrite <- (tr_ack _ _ _ T'). by apply Hm. }
  exists w'. split; [done|].
  by destruct (restart_good H w torn durable fresh w' G Hn Ht Hroom Ho) as (_ & _ & _ & Hb).
Qed.

(** C12: a power loss may cut the active log generation anywhere beyond the
    records that the checkpoint on disk describes. Let [H] be the history of the
    log, whose records the generation holds, and [c] any number of its first
    records that the checkpoint describes ([describes]: it carries their
    acknowledgement cursor, and its replay point leaves out only records they
    acknowledge), as it does the records that were there when it was taken. Cut at
    any byte after those [c] records, in the middle of a record or not, the
    directory opens and finds exactly the records that are complete in the bytes
    left, in order: the backlog it rebuilds is the one of that prefix of the
    history. The history of [w] is one of operations in scope ([in_scope]). *)
Theorem wal_power_loss epoch w :
  is_empty_str epoch = false -> reachable epoch w -> room w ->
  (forall t, (0 <= t <= acknowledged_sequence (w_index w))%Z -> marker_fits w t) ->
  exists H S ck torn, history_scan H = Ok S /\ tracks epoch S (w_index w)
    /\ logs (w_disk w) !! generation (w_log w) = Some (image (of_generation (generation (w_log w)) H) ++ torn)
    /\ newline ∉ torn
    /\ checkpoint_file (w_disk w) = FileJson ck /\ (exists c k S0, describes epoch H ck c k S0)
    /\ forall c k S0, describes epoch H ck c k S0 ->
       forall n durable fresh, log_size (generation (w_log w)) H c <= n ->
         exists j Sj i w', survives (generation (w_log w)) H n j /\ c <= j
           /\ history_scan (take j H) = Ok Sj /\ tracks epoch Sj i
           /\ open (crash_disk w n) None fresh durable [] = Ok w'
           /\ same_backlog (w_index w') i.
Proof.
  intros Hne Hr Hroom Hm. destruct (reachable_good epoch w Hne Hr) as (H & G & <- & _).
  destruct (Good_tracks _ _ G) as (S & HS & T).
  destruct (st_last _ _ _ (proj1 (proj1 G))) as (torn0 & Hf & Ht0 & _).
  pose proof (proj2 G) as (ck & c0 & k0 & S1 & Hck & D0 & _).
  exists H, S, ck, torn0. split_and!; [done..|by exists c0, k0, S1|].
  intros c k S0 D n durable fresh Hn.
  destruct (crash_holds H w ck c k S0 n G Hck D Hn) as (j & torn & Hsv & Hcj & Dj & Hother & Hhist).
  pose proof Hsv as [Hj _].
  destruct (open_prefix H w (crash_disk w n) ck c k S0 j torn durable fresh)
    as (Sj & i & HSj & Tj & Hgood & Hlive); try done.
  { by rewrite <- (st_len _ _ _ (proj1 (proj1 G))). }
  assert (sc_acknowledged_sequence Sj <= sc_acknowledged_sequence S)%Z.
  { unfold history_scan in HS, HSj. rewrite <- (take_drop j H), foldM_app, HSj in HS.
    apply scan_cursor_mono in HS. lia. }
  destruct Hlive as [w' Ho].
  { apply Hm; [|done]. rewrite (tr_ack _ _ _ T). pose proof (tr_ack_range _ _ _ Tj). lia. }
  destruct (Hgood w' Ho) as (K & _ & _ & Hb). exists j, Sj, i, w'. split_and!; try done; apply Hsv.
Qed.

(** The index of a log that tracks its history. *)
Lemma tracks_index epoch S i :
  tracks epoch S i ->
  (forall s, is_Some (i.(prepared) !! s) <-> (i.(acknowledged_sequence) < s < i.(next_sequence))%Z)
  /\ (0 <= i.(acknowledged_sequence) < i.(next_sequence))%Z
  /\ i.(first_unpruned_sequence) = (i.(acknowledged_sequence) + 1)%Z
  /\ i.(committed) ## i.(aborted)
  /\ i.(committed) ∪ i.(aborted) ⊆ dom i.(prepared).
Proof.
  intros T.
  assert (forall s, is_Some (prepared i !! s) <-> (acknowledged_sequence i < s < next_sequence i)%Z) as Hdom.
  { intros s. rewrite (tr_prepared _ _ _ T), lookup_map_split_off, (tr_ack _ _ _ T).
    pose proof (tr_ack_range _ _ _ T). case_decide; [rewrite (tr_prepared_dom _ _ _ T); lia|].
    split; [by intros [? ?]|lia]. }
  pose proof (tr_ack_range _ _ _ T) as Hrange. rewrite <- (tr_ack _ _ _ T) in Hrange.
  split_and!; [done|lia|lia|..].
  - rewrite (tr_first _ _ _ T), (tr_ack _ _ _ T). done.
  - intros s. rewrite (tr_committed _ _ _ T), (tr_aborted _ _ _ T), !elem_of_set_split_off.
    intros [_ H1] [_ H2]. by eapply (tr_disjoint _ _ _ T).
  - intros s Hs. apply elem_of_dom. rewrite (tr_prepared _ _ _ T), lookup_map_split_off.
    rewrite elem_of_union, (tr_committed _ _ _ T), (tr_aborted _ _ _ T), !elem_of_set_split_off in Hs.
    rewrite decide_True by tauto. apply (tr_terminal _ _ _ T). tauto.
Qed.

(** C21: in every reachable state the index is exactly the unacknowledged suffix
    of the sequence: it holds a prepare for each sequence after the cursor and
    none at or below it, the cursor is behind the next sequence, pruning has
    caught up with the cursor, and a sequence is resolved at most one way and
    only if it was prepared. *)
Theorem wal_index_invariant epoch w :
  is_empty_str epoch = false -> reachable epoch w ->
  let i := w_index w in
  (forall s, is_Some (i.(prepared) !! s) <-> (i.(acknowledged_sequence) < s < i.(next_sequence))%Z)
  /\ (0 <= i.(acknowledged_sequence) < i.(next_sequence))%Z
  /\ i.(first_unpruned_sequence) = (i.(acknowledged_sequence) + 1)%Z
  /\ i.(committed) ## i.(aborted)
  /\ i.(committed) ∪ i.(aborted) ⊆ dom i.(prepared)
  /\ (forall p, p ∈ i.(dirty_content) -> validate_mount_path p = Ok tt).
Proof.
  intros Hne Hr i. destruct (reachable_good epoch w Hne Hr) as (H & G & _ & _).
  destruct (Good_tracks _ _ G) as (S & HS & T). fold i in T.
  destruct (tracks_index _ _ _ T) as (? & ? & ? & ? & ?). split_and!; try done.
  - lia.
  - lia.
  - apply (lv_dirty _ _ _ _ _ _ (proj2 (proj1 G))).
Qed.

End system.
