(* ===== verification/WalCodec.v ===== *)
(** * A record codec

    The log's theorems hold for every codec that satisfies [RecordCodecLaws].
    This file builds one, so that the theorems can be applied to concrete logs:
    a record is flattened to nested sums and products and written bit by bit,
    one digit character per bit. *)

From S2P Require Import Prelude MountTypes WalTypes.
From Stdlib Require Import ZArith Lia Ascii.

Class BitCodec (A : Type) := {
  enc : A -> list bool;
  dec : nat -> list bool -> option (A * list bool);
  dec_enc : forall a rest fuel, length (enc a) <= fuel -> dec fuel (enc a ++ rest) = Some (a, rest);
}.

Global Instance bool_codec : BitCodec bool.
Proof.
  refine {| enc b := [b]; dec _ l := match l with b :: r => Some (b, r) | [] => None end |}.
  intros a rest fuel _. reflexivity.
Defined.

Global Instance unit_codec : BitCodec unit.
Proof. refine {| enc _ := []; dec _ l := Some (tt, l) |}. intros [] rest fuel _. reflexivity. Defined.

Global Instance prod_codec {A B} `{BitCodec A} `{BitCodec B} : BitCodec (A * B).
Proof.
  refine {| enc p := enc p.1 ++ enc p.2;
            dec fuel l := match dec fuel l with
                          | Some (a, r) => match dec fuel r with Some (b, r') => Some ((a, b), r') | None => None end
                          | None => None
                          end |}.
  intros [a b] rest fuel Hf. cbn in *. rewrite length_app in Hf.
  rewrite <- app_assoc, dec_enc by lia. by rewrite dec_enc by lia.
Defined.

Global Instance sum_codec {A B} `{BitCodec A} `{BitCodec B} : BitCodec (A + B).
Proof.
  refine {| enc p := match p with inl a => false :: enc a | inr b => true :: enc b end;
            dec fuel l := match l with
                          | false :: r => match dec fuel r with Some (a, r') => Some (inl a, r') | None => None end
                          | true :: r => match dec fuel r with Some (b, r') => Some (inr b, r') | None => None end
                          | [] => None
                          end |}.
  intros [a|b] rest fuel Hf; cbn in *; by rewrite dec_enc by lia.
Defined.

(** Transport along a section with its retraction. *)
Definition iso_codec {A B} `{BitCodec B} (f : A -> B) (g : B -> A) (gf : forall a, g (f a) = a) : BitCodec A.
Proof.
  refine {| enc a := enc (f a);
            dec fuel l := match dec fuel l with Some (b, r) => Some (g b, r) | None => None end |}.
  intros a rest fuel Hf. rewrite dec_enc by done. by rewrite gf.
Defined.

Global Instance option_codec {A} `{BitCodec A} : BitCodec (option A).
Proof.
  refine (iso_codec (B := unit + A) (fun o => match o with None => inl tt | Some a => inr a end)
            (fun s => match s with inl _ => None | inr a => Some a end) _).
  by intros [a|].
Defined.

Fixpoint dec_list {A} `{BitCodec A} (fuel : nat) (l : list bool) : option (list A * list bool) :=
  match fuel, l with
  | S fuel', true :: r =>
      match dec fuel' r with
      | Some (a, r') => match dec_list fuel' r' with Some (b, r'') => Some (a :: b, r'') | None => None end
      | None => None
      end
  | _, false :: r => Some ([], r)
  | _, _ => None
  end.

Fixpoint enc_list {A} `{BitCodec A} (l : list A) : list bool :=
  match l with [] => [false] | a :: l => true :: enc a ++ enc_list l end.

Global Instance list_codec {A} `{BitCodec A} : BitCodec (list A).
Proof.
  refine {| enc := enc_list; dec := dec_list |}.
  induction a as [|a l IH]; intros rest fuel Hf; cbn in *; [by destruct fuel|].
  rewrite length_app in Hf. destruct fuel as [|fuel]; [lia|]. cbn.
  rewrite <- app_assoc, dec_enc by lia. by rewrite IH by lia.
Defined.

Fixpoint pos_bits (p : positive) : list bool :=
  match p with xH => [] | xO p => false :: pos_bits p | xI p => true :: pos_bits p end.
Fixpoint bits_pos (l : list bool) : positive :=
  match l with [] => xH | false :: l => xO (bits_pos l) | true :: l => xI (bits_pos l) end.

Global Instance pos_codec : BitCodec positive.
Proof.
  refine (iso_codec pos_bits bits_pos _). induction a as [p IH|p IH|]; cbn; congruence.
Defined.

Global Instance Z_codec : BitCodec Z.
Proof.
  refine (iso_codec (B := unit + positive + positive)
    (fun z => match z with Z0 => inl (inl tt) | Zpos p => inl (inr p) | Zneg p => inr p end)
    (fun s => match s with inl (inl _) => Z0 | inl (inr p) => Zpos p | inr p => Zneg p end) _).
  by intros [].
Defined.

Global Instance ascii_codec : BitCodec ascii.
Proof.
  refine (iso_codec (B := bool * bool * bool * bool * bool * bool * bool * bool)
    (fun a => match a with Ascii a b c d e f g h => (a, b, c, d, e, f, g, h) end)
    (fun t => let '(a, b, c, d, e, f, g, h) := t in Ascii a b c d e f g h) _).
  by intros [].
Defined.

Global Instance string_codec : BitCodec string.
Proof.
  refine (iso_codec String.list_ascii_of_string String.string_of_list_ascii _).
  apply String.string_of_list_ascii_of_string.
Defined.

(** ** Records *)

Abbreviation str := string (only parsing).
Abbreviation mutation_shape :=
  ((str * Z) + (str * Z) + (str * Z * option str * option str) + (str * Z * Z * str * Z * str)
   + (str * str) + (str * str) + (str * str * Z) + (str * option str) + str + (str * Z)
   + (str * option (Z * Z) * option (Z * Z)) + (str * option Z * option Z))%type.

Definition time_pair (t : LocalTimestamp) : Z * Z := (secs t, nanos t).
Definition pair_time (p : Z * Z) : LocalTimestamp := MkTimestamp p.1 p.2.

Definition mutation_to (m : MountMutation) : mutation_shape :=
  match m with
  | CreateDirectory p m => inl (inl (inl (inl (inl (inl (inl (inl (inl (inl (inl (p, m)))))))))))
  | CreateFile p m => inl (inl (inl (inl (inl (inl (inl (inl (inl (inl (inr (p, m)))))))))))
  | ReplaceFile p m f h => inl (inl (inl (inl (inl (inl (inl (inl (inl (inr (p, m, f, h))))))))))
  | AppendFile p m b bh s h => inl (inl (inl (inl (inl (inl (inl (inl (inr (p, m, b, bh, s, h)))))))))
  | CreateSymlink p t => inl (inl (inl (inl (inl (inl (inl (inr (p, t))))))))
  | CreateHardLink e n => inl (inl (inl (inl (inl (inl (inr (e, n)))))))
  | Rename o n f => inl (inl (inl (inl (inl (inr (o, n, f))))))
  | RemoveFile p f => inl (inl (inl (inl (inr (p, f)))))
  | RemoveDirectory p => inl (inl (inl (inr p)))
  | SetMode p m => inl (inl (inr (p, m)))
  | SetTimes p a m => inl (inr (p, time_pair <$> a, time_pair <$> m))
  | SetOwner p u g => inr (p, u, g)
  end.

Definition mutation_of (s : mutation_shape) : MountMutation :=
  match s with
  | inl (inl (inl (inl (inl (inl (inl (inl (inl (inl (inl (p, m))))))))))) => CreateDirectory p m
  | inl (inl (inl (inl (inl (inl (inl (inl (inl (inl (inr (p, m))))))))))) => CreateFile p m
  | inl (inl (inl (inl (inl (inl (inl (inl (inl (inr (p, m, f, h)))))))))) => ReplaceFile p m f h
  | inl (inl (inl (inl (inl (inl (inl (inl (inr (p, m, b, bh, s, h))))))))) => AppendFile p m b bh s h
  | inl (inl (inl (inl (inl (inl (inl (inr (p, t)))))))) => CreateSymlink p t
  | inl (inl (inl (inl (inl (inl (inr (e, n))))))) => CreateHardLink e n
  | inl (inl (inl (inl (inl (inr (o, n, f)))))) => Rename o n f
  | inl (inl (inl (inl (inr (p, f))))) => RemoveFile p f
  | inl (inl (inl (inr p))) => RemoveDirectory p
  | inl (inl (inr (p, m))) => SetMode p m
  | inl (inr (p, a, m)) => SetTimes p (pair_time <$> a) (pair_time <$> m)
  | inr (p, u, g) => SetOwner p u g
  end.

Lemma pair_time_pair (o : option LocalTimestamp) : pair_time <$> (time_pair <$> o) = o.
Proof. by destruct o as [[]|]. Qed.

Global Instance mutation_codec : BitCodec MountMutation.
Proof.
  refine (iso_codec mutation_to mutation_of _). intros []; cbn; try done. by rewrite !pair_time_pair.
Defined.

Global Instance storage_codec : BitCodec PayloadStorage.
Proof.
  refine (iso_codec (fun s => match s with Segment f o => inl (f, o) | DedicatedFile f => inr f end)
            (fun s => match s with inl (f, o) => Segment f o | inr f => DedicatedFile f end) _).
  by intros [].
Defined.

Global Instance payload_codec : BitCodec PayloadRef.
Proof.
  refine (iso_codec (fun p => (storage p, length_ p, hash_algorithm p, payload_hash p))
            (fun t => let '(s, l, a, h) := t in MkPayloadRef s l a h) _).
  by intros [].
Defined.

Global Instance kind_codec : BitCodec LocalKind.
Proof.
  refine (iso_codec (fun k => match k with LFile => (false, false) | LDirectory => (false, true) | LSymlink => (true, false) end)
            (fun p => match p with (false, false) => LFile | (false, true) => LDirectory | _ => LSymlink end) _).
  by intros [].
Defined.

Global Instance pre_state_codec : BitCodec PreImageState.
Proof.
  refine (iso_codec (fun s => match s with PreAbsent => None | PrePresent k m i z l t => Some (k, m, i, z, l, t) end)
            (fun o => match o with None => PreAbsent | Some (k, m, i, z, l, t) => PrePresent k m i z l t end) _).
  by intros [].
Defined.

Global Instance pre_entry_codec : BitCodec PreImageEntry.
Proof. refine (iso_codec (fun e => (pre_path e, pre_state e)) (fun p => MkPreImageEntry p.1 p.2) _). by intros []. Defined.

Abbreviation event_shape :=
  (Z * str * Z * str * MountMutation * option PayloadRef * list PreImageEntry * option str)%type.

Abbreviation record_shape :=
  ((Z * str * Z * Z) + event_shape + (str * Z * option str) + (str * Z * str) + (str * str)
   + (str * Z * Z) + (str * Z * Z))%type.

Definition record_to (r : WalRecord) : record_shape :=
  match r with
  | LogHeader v e g f => inl (inl (inl (inl (inl (inl (v, e, g, f))))))
  | Prepared (MkEvent v e s k m p i l _) => inl (inl (inl (inl (inl (inr (v, e, s, k, m, p, i, l))))))
  | Committed e s l => inl (inl (inl (inl (inr (e, s, l)))))
  | Aborted e s w => inl (inl (inl (inr (e, s, w))))
  | ContentDirty e p => inl (inl (inr (e, p)))
  | RemoteAcknowledged e t r => inl (inr (e, t, r))
  | Checkpointed e t g => inr (e, t, g)
  end.

Definition record_of (s : record_shape) : WalRecord :=
  match s with
  | inl (inl (inl (inl (inl (inl (v, e, g, f)))))) => LogHeader v e g f
  | inl (inl (inl (inl (inl (inr (v, e, s, k, m, p, i, l)))))) => Prepared (MkEvent v e s k m p i l [])
  | inl (inl (inl (inl (inr (e, s, l))))) => Committed e s l
  | inl (inl (inl (inr (e, s, w)))) => Aborted e s w
  | inl (inl (inr (e, p))) => ContentDirty e p
  | inl (inr (e, t, r)) => RemoteAcknowledged e t r
  | inr (e, t, g) => Checkpointed e t g
  end.

Lemma record_of_to r : record_of (record_to r) = persisted r.
Proof. by destruct r as [|[]| | | | |]. Qed.

Definition bit_byte (b : bool) : byte := if b then Byte.x31 else Byte.x30.
Definition byte_bit (b : byte) : bool := if decide (b = Byte.x31) then true else false.

Global Instance digit_codec : RecordCodec :=
  {| to_vec r := map bit_byte (enc (record_to r));
     from_slice l :=
       let bits := map byte_bit (removelast l) in
       match dec (length bits) bits with
       | Some (s, []) => Some (record_of s)
       | _ => None
       end |}.

Lemma byte_bits l : map byte_bit (map bit_byte l) = l.
Proof. induction l as [|[] l IH]; cbn; [done|by rewrite IH..]. Qed.

Global Instance digit_codec_laws : RecordCodecLaws digit_codec.
Proof.
  split.
  - intros r Hin. cbn in Hin. apply list_elem_of_In, in_map_iff in Hin as ([] & Hb & _); discriminate.
  - intros r. cbn [from_slice to_vec digit_codec]. rewrite removelast_last, byte_bits.
    rewrite <- (app_nil_r (enc (record_to r))) at 2. rewrite dec_enc by done.
    by rewrite record_of_to.
Qed.
