(* ===== verification/WalWitness.v ===== *)
(** * Concrete logs

    The theorems on the log applied to a run that creates a file, seals two
    generations of its content, aborts a third, acknowledges the first and
    rotates; and runs that show where the code's handling of failures and of
    the dirty set falls short of what its comments promise. *)

From S2P Require Import Prelude MountTypes WalTypes WalReplay Wal WalLayout WalRecovery.
From S2P Require Import WalInvariant WalSteps WalMaint WalOpen WalSystem WalCodec.
From Stdlib Require Import ZArith Lia.

#[local] Instance linux : Platform := {| target_macos := false |}.

Definition epoch0 : string := "018f".
Definition unopened : Wal := opened empty_disk (fresh_replayed epoch0) ∅ [].
Definition opened_or (r : MResult Wal) : Wal := match r with Ok w => w | Err _ => unopened end.

(** Run operations one after the other, each under its own outcomes. *)
Definition script (w : Wal) (ops : list (WalOp * list IoOutcome)) : Wal :=
  foldl (fun w p => fst (run_op p.1 (with_io p.2 w))) w ops.

Definition calmly (ops : list WalOp) : list (WalOp * list IoOutcome) := map (fun op => (op, [])) ops.

(** The token [prepare] returned for the prepare of [seq]. *)
Definition token_of (w : Wal) (seq : Z) : MountEvent :=
  match (w_index w).(prepared) !! seq with
  | Some r => r.(pr_event)
  | None => MkEvent 0 "" 0 "" (RemoveDirectory "") None [] None []
  end.

Definition payload0 : PayloadRef := MkPayloadRef (DedicatedFile "p-1") 3 "sha256" "h1".

Definition start : Wal := opened_or (open empty_disk None epoch0 ∅ []).
Definition prepared1 : Wal :=
  script start (calmly [OpPrepare (CreateFile "a" 420) None [];
                        OpPrepare (ReplaceFile "a" 420 None None) (Some (Ok payload0)) [];
                        OpPrepare (RemoveFile "b" None) None []]).
Definition resolved1 : Wal :=
  script prepared1 (calmly [OpCommit (token_of prepared1 1) (Some "1:7"); OpCommit (token_of prepared1 2) None;
                            OpAbort (token_of prepared1 3) "enoent"; OpRecordDirty "a"]).
Definition running : Wal := script resolved1 (calmly [OpAcknowledge 1 5 9]).

Lemma start_reachable : reachable epoch0 start.
Proof. apply reach_fresh. vm_compute. reflexivity. Qed.

Lemma in_scope_calm op w :
  w_io w = [] -> (generation_len (w_log w) + 2 * MAX_RECORD_BYTES <= U64_MAX)%Z ->
  (next_sequence (w_index w) + 1 <= U64_MAX)%Z ->
  match op with OpRotate | OpCompact => False | _ => True end -> in_scope op w.
Proof.
  intros Hio H1 H2 H3. split_and!; try done; [unfold tame_io; rewrite Hio; constructor|]. by destruct op.
Qed.

(** Side conditions of a scripted run. *)
Definition op_ok (w : Wal) (op : WalOp) : bool :=
  (generation_len (w_log w) + 2 * MAX_RECORD_BYTES <=? U64_MAX)%Z
  && (next_sequence (w_index w) + 1 <=? U64_MAX)%Z
  && match op with OpRotate | OpCompact => false | _ => true end.

Fixpoint script_ok (w : Wal) (ops : list WalOp) : bool :=
  match ops with
  | [] => true
  | op :: ops => op_ok w op && script_ok (fst (run_op op (with_io [] w))) ops
  end.

Lemma script_reachable ops w :
  reachable epoch0 w -> script_ok w ops = true -> reachable epoch0 (script w (calmly ops)).
Proof.
  revert w; induction ops as [|op ops IH]; intros w Hr Hok; [done|].
  cbn in Hok. apply andb_true_iff in Hok as [Hop Hok]. unfold op_ok in Hop. bools.
  change (script w (calmly (op :: ops))) with (script (fst (run_op op (with_io [] w))) (calmly ops)).
  apply IH; [|exact Hok]. apply reach_op; [exact Hr|].
  apply in_scope_calm; [reflexivity|assumption|assumption|]. by destruct op.
Qed.

Lemma running_reachable : reachable epoch0 running.
Proof.
  apply script_reachable; [|vm_compute; reflexivity].
  apply script_reachable; [|vm_compute; reflexivity].
  apply script_reachable; [apply start_reachable|vm_compute; reflexivity].
Qed.

Lemma marker_small w t tg :
  (exists ck, checkpoint_file (w_disk w) = FileJson ck /\ ck_tree_generation ck = tg) ->
  (zlen (framed (Checkpointed (w_epoch w) t tg)) <=? MAX_RECORD_BYTES)%Z = true -> marker_fits w t.
Proof. intros (ck & E & <-) H ck' E'. rewrite E in E'. injection E' as <-. by apply Z.leb_le. Qed.

Definition torn0 : bytes := [Byte.x31; Byte.x30].

Lemma wal_restart_recovers_witness :
  (exists w', open (killed_disk running torn0) None "" ∅ [] = Ok w'
    /\ same_backlog (w_index w') (w_index running))
  /\ acknowledged_sequence (w_index running) = 1%Z
  /\ committed (w_index running) = {[2%Z]} /\ aborted (w_index running) = {[3%Z]}.
Proof.
  split.
  - apply (wal_restart_recovers epoch0).
    + reflexivity.
    + apply running_reachable.
    + apply (bool_decide_unpack _). vm_compute. exact I.
    + apply Z.leb_le. vm_compute. reflexivity.
    + apply (marker_small _ _ 9); [|vm_compute; reflexivity].
      eexists. split; vm_compute; reflexivity.
  - split_and!; vm_compute; reflexivity.
Defined.

(** The checkpoint on disk is the one the first [open] took: the cut through
    the last of three prepares leaves the other two. *)
Lemma wal_power_loss_witness :
  (exists H S ck torn, history_scan H = Ok S /\ tracks epoch0 S (w_index prepared1)
    /\ logs (w_disk prepared1) !! generation (w_log prepared1)
       = Some (image (of_generation (generation (w_log prepared1)) H) ++ torn)
    /\ newline ∉ torn
    /\ checkpoint_file (w_disk prepared1) = FileJson ck /\ (exists c k S0, describes epoch0 H ck c k S0)
    /\ forall c k S0, describes epoch0 H ck c k S0 ->
       forall n durable fresh, log_size (generation (w_log prepared1)) H c <= n ->
         exists j Sj i w', survives (generation (w_log prepared1)) H n j /\ c <= j
           /\ history_scan (take j H) = Ok Sj /\ tracks epoch0 Sj i
           /\ open (crash_disk prepared1 n) None fresh durable [] = Ok w'
           /\ same_backlog (w_index w') i)
  /\ next_sequence (w_index prepared1) = 4%Z
  /\ match open (crash_disk prepared1 (Z.to_nat (generation_len (w_log prepared1)) - 5)) None "" ∅ [] with
     | Ok w' => next_sequence (w_index w') = 3%Z
     | Err _ => False
     end.
Proof.
  split; [|split; vm_compute; reflexivity]. apply wal_power_loss.
  - reflexivity.
  - apply script_reachable; [apply start_reachable|vm_compute; reflexivity].
  - apply Z.leb_le. vm_compute. reflexivity.
  - intros t Ht. assert (t = 0)%Z as ->.
    { assert (acknowledged_sequence (w_index prepared1) = 0%Z) as E by (vm_compute; reflexivity). lia. }
    apply (marker_small _ _ 0); [eexists; split; vm_compute; reflexivity|vm_compute; reflexivity].
Defined.

Lemma wal_index_invariant_witness :
  let i := w_index running in
  (forall s, is_Some (i.(prepared) !! s) <-> (i.(acknowledged_sequence) < s < i.(next_sequence))%Z)
  /\ (0 <= i.(acknowledged_sequence) < i.(next_sequence))%Z
  /\ i.(first_unpruned_sequence) = (i.(acknowledged_sequence) + 1)%Z
  /\ i.(committed) ## i.(aborted)
  /\ i.(committed) ∪ i.(aborted) ⊆ dom i.(prepared)
  /\ (forall p, p ∈ i.(dirty_content) -> validate_mount_path p = Ok tt).
Proof. apply (wal_index_invariant epoch0); [reflexivity|apply running_reachable]. Defined.

(** ** Runs that fall short *)

Definition run {A} (m : M A) (w : Wal) : Wal := fst (m (with_io [] w)).
Definition reopen (w : Wal) : MResult unit :=
  match open (w_disk w) None "" ∅ [] with Ok _ => Ok tt | Err e => Err e end.

(** The part of [rotate_if_needed] past its size test. *)
Definition rotate_now : M unit :=
  l ← gets w_log;
  first_sequence ← gets (fun w => (w_index w).(next_sequence));
  epoch ← gets w_epoch;
  let next := (l.(generation) + 1)%Z in
  let header := log_header epoch next first_sequence in
  create_generation next header ;;
  swap_generation next (zlen (framed header)) ;;
  tree_gen ← gets (fun w => (w_maint w).(tree_generation));
  checkpoint_locked tree_gen.

(** A path marked dirty and then renamed over a name that was removed: the
    running log knows the new name is dirty, the checkpoint records it, and
    replay forgets it. *)
Definition renamed_dirty : Wal :=
  let w := script start (calmly [OpRecordDirty "a"; OpPrepare (RemoveFile "b" None) None []]) in
  let w := script w (calmly [OpCommit (token_of w 1) None; OpPrepare (Rename "a" "b" 0) None []]) in
  script w (calmly [OpCommit (token_of w 2) None; OpCheckpoint 0]).

(** A restart can forget a path that must be re-sealed: a dirty path renamed
    over a name whose removal is still in the log is in the dirty set and in the
    checkpoint, and replaying the older removal takes it out again. *)
Lemma dirty_path_lost_on_restart :
  reachable epoch0 renamed_dirty
  /\ dirty_content_paths renamed_dirty = ["b"]
  /\ (match checkpoint_file (w_disk renamed_dirty) with
      | FileJson ck => ck_dirty_content_paths ck = ["b"] | _ => False end)
  /\ (match open (w_disk renamed_dirty) None "" ∅ [] with
      | Ok w => dirty_content_paths w = [] | Err _ => False end).
Proof.
  split; [|split; [|split]]; [|vm_compute; reflexivity..].
  unfold renamed_dirty. cbv zeta.
  apply script_reachable; [|vm_compute; reflexivity].
  apply script_reachable; [|vm_compute; reflexivity].
  apply script_reachable; [apply start_reachable|vm_compute; reflexivity].
Qed.

(** Rolling a partial record back in a generation that rotation created (which
    is not opened for appending) leaves the position past the end: the next
    record lands behind a hole and the log can never be opened again. *)
Definition rolled_back_after_rotation : Wal :=
  script (run rotate_now prepared1)
    [(OpRecordDirty "x", [IoFailed 4 true RolledBack]); (OpRecordDirty "y", [])].

(** After a partial record is rolled back in a generation that rotation
    created, the next append succeeds and the log can no longer be opened. *)
Lemma rollback_leaves_a_hole :
  reopen (run rotate_now prepared1) = Ok tt
  /\ snd (record_content_dirty "y" (with_io [] (script (run rotate_now prepared1)
       [(OpRecordDirty "x", [IoFailed 4 true RolledBack])]))) = Ok true
  /\ match reopen rolled_back_after_rotation with Err (UndecodableRecord _) => True | _ => False end.
Proof. split; [|split]; vm_compute; first [reflexivity | exact I]. Qed.

(** Rotating away from a poisoned generation clears the poison but leaves the
    torn record in a generation that is no longer the last: the log cannot be
    opened again. *)
Definition poisoned_then_rotated : Wal :=
  run rotate_now (script prepared1 [(OpRecordDirty "x", [IoFailed 4 true SetLenFailed])]).

(** Rotation clears the poison that a torn record left, and the log can no
    longer be opened. *)
Lemma rotation_hides_a_torn_record :
  poisoned (w_log poisoned_then_rotated) = None
  /\ reopen poisoned_then_rotated = Err (TornInteriorRecord 0).
Proof. split; vm_compute; reflexivity. Qed.

(** A crash right after rotation created its new generation, before the old one
    was synced: the old generation may end in a torn record, and the directory
    cannot be opened again. *)
Definition created_next_generation : Wal :=
  run (create_generation 1 (log_header epoch0 1 4)) prepared1.

Lemma crash_during_rotation_is_fatal :
  let cut := set_logs (alter (fun b => removelast b) 0%Z) (w_disk created_next_generation) in
  match open cut None "" ∅ [] with Err e => e = TornInteriorRecord 0 | Ok _ => False end.
Proof. vm_compute. reflexivity. Qed.

(** When publishing a checkpoint fails, the in-memory checkpoint is already the
    new one: compaction then deletes the generation the durable checkpoint
    replays from. *)
Definition compacted_after_failed_checkpoint : Wal :=
  let w := run rotate_now resolved1 in
  let w := script w [(OpAcknowledge 3 5 9, [IoOk; IoOk; IoOk; IoOk; IoFailed 0 true RolledBack])] in
  script w [(OpCompact, [])].

(** Compaction after a checkpoint that failed to reach its file deletes a
    generation the checkpoint on disk replays from, and the log can no longer be
    opened. *)
Lemma failed_checkpoint_then_compaction_is_fatal :
  reopen (run rotate_now resolved1) = Ok tt
  /\ reopen compacted_after_failed_checkpoint = Err (MissingGeneration 0).
Proof. split; vm_compute; reflexivity. Qed.

(** A record whose length cannot be read back is reported as failed but stays:
    the retry reuses its sequence, and the log cannot be opened again. *)
Definition stat_failed_then_retried : Wal :=
  script start [(OpPrepare (CreateFile "a" 420) None [], [IoStatFailed]);
                (OpPrepare (CreateFile "a" 420) None [], [])].

(** An append reported as failed because the file length could not be read
    leaves its record; the retried prepare reuses the sequence and the log can no
    longer be opened. *)
Lemma unreadable_length_duplicates_a_prepare :
  reopen stat_failed_then_retried = Err (DuplicatePrepare 1).
Proof. vm_compute. reflexivity. Qed.

(** A process that died before its group sync, reopened: [open] publishes a
    checkpoint whose replay offset lies beyond what the device holds of the log,
    having taken everything it replayed for durable. *)
Lemma reopen_anchors_past_the_durable_log :
  match open (w_disk prepared1) None "" {[0%Z := 0%Z]} [] with
  | Ok w => match checkpoint_file (w_disk w) with
            | FileJson ck => (default 0 (w_durable w !! ck_replay_log_generation ck) < ck_replay_log_offset ck)%Z
            | _ => False
            end
            /\ durable_sequence (w_sync w) = 3%Z
  | Err _ => False
  end.
Proof. vm_compute. auto. Qed.

(** A commit that recorded an identity cannot be repeated: the stored event has
    changed, so the retry is a mismatch and not the idempotent success. *)
Lemma commit_with_identity_is_not_idempotent :
  snd (commit (token_of prepared1 1) (Some "1:7") (with_io [] resolved1)) = Err (PreparedMismatch 1)
  /\ snd (commit (token_of prepared1 2) None (with_io [] resolved1)) = Ok tt.
Proof. split; vm_compute; reflexivity. Qed.
