(* ===== verification/SendOrder.v ===== *)
(** * The order in which a log may be sent

    What a publisher may do to the events of the log before they reach the
    gateway, as a rewriting relation on lists of events: [sends log sent]. The
    rules are the only changes the planner of [local_view/publisher.rs] and the
    batch builder of [local_view/wal.rs] mean to make. Nothing is assumed of the
    gateway: the theorems on batches and plans say that what is sent comes from
    the log by these rules, so that events whose dependency keys conflict keep
    their order and every other change is one of the named folds. The constants
    and identity tests of the publisher that the rules mention are here too. *)

From S2P Require Import Prelude MountTypes WalTypes.
From Stdlib Require Import ZArith Lia Ascii.

Definition ABSENT_PRECONDITION : string := "absent".

Definition is_ascii_digit (c : ascii) : bool :=
  (48 <=? N_of_ascii c)%N && (N_of_ascii c <=? 57)%N.

Fixpoint all_digits (s : string) : bool :=
  match s with
  | EmptyString => true
  | String c s => is_ascii_digit c && all_digits s
  end.

(** [split_once]: the text before and after the first [sep]. *)
Fixpoint split_once (sep : ascii) (s : string) : option (string * string) :=
  match s with
  | EmptyString => None
  | String c s =>
      if Ascii.eqb c sep then Some (EmptyString, s)
      else match split_once sep s with
           | Some (a, b) => Some (String c a, b)
           | None => None
           end
  end.

Definition is_local_identity (value : string) : bool :=
  match split_once ":"%char value with
  | Some (device, inode) =>
      negb (is_empty_str device) && negb (is_empty_str inode)
      && all_digits device && all_digits inode
  | None => false
  end.

Definition remote_file_id (candidate : option string) : option string :=
  match candidate with
  | Some value => if is_local_identity value then None else Some value
  | None => None
  end.

Definition content_path (m : MountMutation) : option string :=
  match m with
  | ReplaceFile path _ _ _ | AppendFile path _ _ _ _ _ => Some path
  | _ => None
  end.

(** The keys a content event of [path] holds. *)
Definition content_keys_of (path : string) : list DependencyKey :=
  dependency_keys (ReplaceFile path 0 None None).

(** A write the mount records: it demands nothing of the remote content. *)
Definition unconditioned (e : MountEvent) : Prop :=
  forall path m f h, mutation e = ReplaceFile path m f h -> h <> Some ABSENT_PRECONDITION.

(** ** The rules *)

Definition independent (a b : MountEvent) : Prop :=
  dependency_sets_conflict (event_dependency_keys a) (event_dependency_keys b) = false.

(** Neighbours that may change places: local-only events are never sent. *)
Definition exchangeable {P : Platform} (a b : MountEvent) : Prop :=
  is_local_only (mutation a) = true \/ is_local_only (mutation b) = true \/ independent a b.

(** One change at one place of the list.
    - Local-only events are not sent.
    - Neighbours change places when their dependency keys do not conflict, or
      one of them is not sent.
    - A content generation that a whole-file write of its path directly follows
      is dropped. The write carries all of the content; a write that demands
      nothing keeps the mode of the file it finds, and the mount writes files it
      has created or found.
    - An append that continues exactly what the content event before it
      publishes is folded onto that event.
    - A mode change just after a creation of its path is the mode of the
      creation; a creation just before a whole-file write of its path becomes
      the demand of that write that the path be absent; a mode change just after
      such a write is the mode it creates the file with. *)
Inductive rewrites {P : Platform} : list MountEvent -> list MountEvent -> Prop :=
| rw_local e : is_local_only (mutation e) = true -> rewrites [e] []
| rw_swap a b : exchangeable a b -> rewrites [a; b] [b; a]
| rw_supersede e c path m f h :
    content_path (mutation e) = Some path -> mutation c = ReplaceFile path m f h ->
    unconditioned e -> unconditioned c -> rewrites [e; c] [c]
| rw_append e c path m bs bh sz h :
    content_path (mutation e) = Some path -> mutation c = AppendFile path m bs bh sz h ->
    folded_appends c = [] -> published_content e = Some (bs, bh) ->
    rewrites [e; c] [push_folded c e]
| rw_create_mode a b path m m' :
    mutation a = CreateFile path m -> mutation b = SetMode path m' ->
    rewrites [a; b] [set_mutation (CreateFile path m') a]
| rw_create_write a b path m m' f h :
    mutation a = CreateFile path m -> mutation b = ReplaceFile path m' f h -> unconditioned b ->
    remote_file_id f = None ->
    rewrites [a; b] [set_mutation (ReplaceFile path m f (Some ABSENT_PRECONDITION)) b]
| rw_absent_mode a b path m f m' :
    mutation a = ReplaceFile path m f (Some ABSENT_PRECONDITION) -> mutation b = SetMode path m' ->
    rewrites [a; b] [set_mutation (ReplaceFile path m' f (Some ABSENT_PRECONDITION)) a].

Inductive send_step {P : Platform} : list MountEvent -> list MountEvent -> Prop :=
| send_at before l k after : rewrites l k -> send_step (before ++ l ++ after) (before ++ k ++ after).

(** [sends log sent]: the events of the log may be sent as [sent]. *)
Definition sends {P : Platform} : list MountEvent -> list MountEvent -> Prop := rtc send_step.

(** ** Keys *)

Section keys.
Context {P : Platform}.

Lemma event_keys_push_folded a e : event_dependency_keys (push_folded a e) = event_dependency_keys e.
Proof. by destruct e. Qed.

Lemma event_keys_set_mutation m e : event_dependency_keys (set_mutation m e) = dependency_keys m.
Proof. by destruct e. Qed.

Lemma mutation_set_mutation m e : mutation (set_mutation m e) = m.
Proof. by destruct e. Qed.

Lemma mutation_push_folded a e : mutation (push_folded a e) = mutation e.
Proof. by destruct e. Qed.

(** Content events of one path have the same dependency keys. *)
Lemma content_keys m path : content_path m = Some path -> dependency_keys m = content_keys_of path.
Proof. intros H. destruct m; try done; cbn in *; simplify_eq; reflexivity. Qed.

Lemma is_content_path m : is_content m = true <-> content_path m = Some (primary_path m).
Proof. destruct m; cbn; split; congruence. Qed.

Lemma content_local_only m m' path :
  content_path m = Some path -> content_path m' = Some path -> is_local_only m = is_local_only m'.
Proof. intros H H'. destruct m; try done; destruct m'; try done; cbn in *; by simplify_eq. Qed.

Lemma independent_sym a b : independent a b -> independent b a.
Proof. unfold independent. by rewrite conflict_sym. Qed.

Lemma exchangeable_sym a b : exchangeable a b -> exchangeable b a.
Proof. unfold exchangeable. pose proof (independent_sym a b). tauto. Qed.

(** Events an event with these keys is moved across. *)
Definition passes (keys : list DependencyKey) (e : MountEvent) : Prop :=
  is_local_only (mutation e) = true
  \/ dependency_sets_conflict keys (event_dependency_keys e) = false.

Lemma passes_exchangeable e l :
  Forall (passes (event_dependency_keys e)) l -> Forall (exchangeable e) l.
Proof. intros Hf. eapply Forall_impl; [exact Hf|]. intros x [H|H]; unfold exchangeable, independent; auto. Qed.

(** ** Sending *)

#[export] Instance sends_preorder : PreOrder sends.
Proof. split; [intros l; apply rtc_refl|by intros l k m ? ?; trans k]. Qed.

Lemma sends_in_context before l k after : sends l k -> sends (before ++ l ++ after) (before ++ k ++ after).
Proof.
  induction 1 as [|l l1 k Hs _ IH]; [done|]. etrans; [|exact IH]. apply rtc_once. destruct Hs as [b x y a Hr].
  rewrite <- !app_assoc, !(app_assoc before b). by constructor.
Qed.

#[export] Instance sends_app : Proper (sends ==> sends ==> sends) (++).
Proof.
  intros l l' Hl k k' Hk. trans (l' ++ k).
  - by apply (sends_in_context [] l l' k).
  - rewrite <- (app_nil_r k), <- (app_nil_r k'). by apply sends_in_context.
Qed.

#[export] Instance sends_cons e : Proper (sends ==> sends) (cons e).
Proof. intros l k H. by apply (sends_app [e] [e] (reflexivity _)). Qed.

Lemma sends_rule l k : rewrites l k -> sends l k.
Proof. intros H. apply rtc_once. rewrite <- (app_nil_r l), <- (app_nil_r k). by apply (send_at [] l k []). Qed.

(** A rule at the head of a list. *)
Lemma sends_head l k after : rewrites l k -> sends (l ++ after) (k ++ after).
Proof. intros H. by rewrite (sends_rule _ _ H). Qed.

Lemma sends_drop e l : is_local_only (mutation e) = true -> sends (e :: l) l.
Proof. intros H. by apply (sends_head [e] [] l), rw_local. Qed.

Lemma sends_swap a b l : exchangeable a b -> sends (a :: b :: l) (b :: a :: l).
Proof. intros H. by apply (sends_head [a; b] [b; a] l), rw_swap. Qed.

(** An event moves across events it may change places with, in both directions. *)
Lemma sends_later e l : Forall (exchangeable e) l -> sends (e :: l) (l ++ [e]).
Proof. induction 1 as [|x l Hx _ IH]; [done|]. cbn. by rewrite (sends_swap e x), IH. Qed.

Lemma sends_earlier e l : Forall (exchangeable e) l -> sends (l ++ [e]) (e :: l).
Proof.
  induction 1 as [|x l Hx _ IH]; [done|]. cbn. rewrite IH. by apply sends_swap, exchangeable_sym.
Qed.

End keys.

(** ** Paths on the way to a path *)

(** [under a q]: [a] is [q] or on the way to it. *)
Definition under (a q : string) : Prop := a ∈ q :: ancestors_of q.

#[export] Instance under_dec a q : Decision (under a q).
Proof. unfold under. apply _. Defined.

Definition slash_separated (current : string) (parts : list string) : string :=
  foldl (fun c part => if is_empty_str c then part else c +:+ "/" +:+ part) current parts.

Lemma ancestors_loop_take a current parts :
  a ∈ ancestors_loop current parts <->
  exists i, 0 < i < length parts /\ a = slash_separated current (take i parts).
Proof.
  revert current; induction parts as [|part rest IH]; intros current.
  { split; [by intros ?%elem_of_nil|]. intros (i & Hi & _). cbn in Hi. lia. }
  cbn [ancestors_loop]. destruct rest as [|part' rest].
  { split; [by intros ?%elem_of_nil|]. intros (i & Hi & _). cbn in Hi. lia. }
  rewrite elem_of_cons, IH. split.
  - intros [->|(i & Hi & ->)]; [exists 1; cbn; split; [lia|done]|]. exists (S i). cbn in *. split; [lia|done].
  - intros (i & Hi & ->). destruct i as [|[|i]]; [lia|by left|]. right. exists (S i). cbn in *. split; [lia|done].
Qed.

Definition piece (s : string) : Prop := s <> EmptyString /\ split_on slash s = [s].

Lemma split_on_pieces s : Forall (fun p => split_on slash p = [p]) (split_on slash s).
Proof.
  induction s as [|a s IH]; cbn; [by repeat constructor|].
  destruct (Ascii.eqb a slash) eqn:E; [by constructor|].
  destruct (split_on slash s) as [|p ps] eqn:Es; [by destruct (split_on_nonempty slash s)|].
  apply Forall_cons in IH as [Hp Hps]. constructor; [|done]. cbn. by rewrite E, Hp.
Qed.

Lemma path_parts_pieces s : Forall piece (path_parts s).
Proof.
  unfold path_parts. apply List.Forall_forall. intros p [Hp Hn]%List.filter_In.
  pose proof (split_on_pieces s) as Hf. rewrite List.Forall_forall in Hf.
  split; [by destruct p|by apply Hf].
Qed.

Lemma split_on_separated current parts :
  current <> EmptyString -> Forall piece parts ->
  split_on slash (slash_separated current parts) = split_on slash current ++ parts.
Proof.
  intros Hc Hp. revert current Hc; induction Hp as [|p parts [Hn Hs] _ IH]; intros current Hc; [by rewrite app_nil_r|].
  unfold slash_separated in *. cbn [foldl].
  replace (is_empty_str current) with false by (by destruct current).
  rewrite IH by (by destruct current).
  change (current +:+ "/" +:+ p) with (current +:+ String slash p).
  rewrite split_on_app, Hs, <- app_assoc. done.
Qed.

Lemma filter_pieces parts : Forall piece parts -> List.filter non_empty parts = parts.
Proof.
  induction 1 as [|p parts [Hn _] _ IH]; [done|]. cbn. rewrite IH. by destruct p.
Qed.

Lemma path_parts_separated parts : Forall piece parts -> path_parts (slash_separated EmptyString parts) = parts.
Proof.
  intros Hp. unfold path_parts. destruct Hp as [|p parts [Hn Hs] Hp]; [done|].
  unfold slash_separated. cbn [foldl]. change (foldl _ _ parts) with (slash_separated p parts).
  rewrite split_on_separated, Hs by done. cbn [app]. apply filter_pieces. by constructor.
Qed.

Lemma ancestors_of_take a q :
  a ∈ ancestors_of q <->
  exists i, (i = 0 \/ i < length (path_parts q)) /\ a = slash_separated EmptyString (take i (path_parts q)).
Proof.
  unfold ancestors_of. rewrite elem_of_cons, ancestors_loop_take. split.
  - intros [->|(i & Hi & ->)]; [exists 0; by split; [left|]|]. exists i. split; [lia|done].
  - intros (i & Hi & ->). destruct i as [|i]; [by left|]. right. exists (S i). split; [lia|done].
Qed.

(** Two paths on the way to a third are on the way to each other. *)
Lemma under_chain a b q : under a q -> under b q -> under a b \/ under b a.
Proof.
  unfold under. intros [->|Ha]%elem_of_cons Hb; [by right|]. apply elem_of_cons in Hb as [->|Hb]; [by left; right|].
  rewrite ancestors_of_take in Ha. rewrite ancestors_of_take in Hb.
  destruct Ha as (i & Hi & ->), Hb as (j & Hj & ->).
  assert (forall x, Forall piece (take x (path_parts q))) as Hp.
  { intros x. apply Forall_take, path_parts_pieces. }
  assert (forall x y, (x = 0 \/ x < length (path_parts q)) -> (y = 0 \/ y < length (path_parts q)) -> x < y ->
    under (slash_separated EmptyString (take x (path_parts q))) (slash_separated EmptyString (take y (path_parts q)))) as H.
  { intros x y Hx Hy Hxy. unfold under. right. apply ancestors_of_take. exists x.
    rewrite path_parts_separated by done. rewrite length_take, take_take. split; [lia|]. do 2 f_equal. lia. }
  destruct (Nat.lt_trichotomy i j) as [Hlt|[->|Hlt]]; [left; by apply H|by left; left|right; by apply H].
Qed.

(** ** The rules on a tree

    What an event means on a tree of named nodes in which no file has two names:
    a function of the tree before it. *)

Inductive Node := NodeFile (mode : Z) (hash : string) | NodeDirectory (mode : Z) | NodeSymlink (target : string).

Definition Tree : Type := string -> option Node.

Definition content_of (e : MountEvent) : string :=
  match published_content e with Some (_, hash) => hash | None => EmptyString end.

(** An overwrite keeps the mode of the file it finds. *)
Definition overwrite (mode : Z) (hash : string) (old : option Node) : option Node :=
  match old with
  | None => Some (NodeFile mode hash)
  | Some (NodeFile m _) => Some (NodeFile m hash)
  | Some n => Some n
  end.

Definition change_mode (mode : Z) (old : option Node) : option Node :=
  match old with
  | Some (NodeFile _ hash) => Some (NodeFile mode hash)
  | Some (NodeDirectory _) => Some (NodeDirectory mode)
  | n => n
  end.

(** The one path an event that is not a rename or a link changes, and how. *)
Definition node_effect (e : MountEvent) : option (string * (option Node -> option Node)) :=
  match mutation e with
  | CreateDirectory p mode => Some (p, fun _ => Some (NodeDirectory mode))
  | CreateFile p mode => Some (p, fun _ => Some (NodeFile mode EmptyString))
  | ReplaceFile p mode _ base =>
      Some (p, if bool_decide (base = Some ABSENT_PRECONDITION) then (fun _ => Some (NodeFile mode (content_of e)))
               else overwrite mode (content_of e))
  | AppendFile p mode _ _ _ _ => Some (p, overwrite mode (content_of e))
  | CreateSymlink p target => Some (p, fun _ => Some (NodeSymlink target))
  | RemoveFile p _ | RemoveDirectory p => Some (p, fun _ => None)
  | SetMode p mode => Some (p, change_mode mode)
  | _ => None
  end.

(** [q], read as a path below [new], as the path below [old] it was moved from. *)
Definition moved_from (old new q : string) : string := old +:+ str_drop (String.length new) q.

(** A rename moves what is at [old] and below it, over what is at [new]. *)
Definition move (old new : string) (t : Tree) : Tree := fun q =>
  if decide (under new q) then
    (if decide (under old (moved_from old new q)) then t (moved_from old new q) else None)
  else if decide (under old q) then None
  else t q.

Definition apply_event {P : Platform} (t : Tree) (e : MountEvent) : Tree := fun q =>
  if is_local_only (mutation e) then t q
  else match mutation e with
       | Rename old new _ => move old new t q
       | _ => match node_effect e with
              | Some (p, f) => if decide (q = p) then f (t q) else t q
              | None => t q
              end
       end.

Definition apply_all {P : Platform} : Tree -> list MountEvent -> Tree := foldl apply_event.

Definition links (m : MountMutation) : bool := match m with CreateHardLink _ _ => true | _ => false end.

(** Trees with the same nodes. *)
Definition same_tree (t t' : Tree) : Prop := forall q, t q = t' q.

Section tree.
Context {P : Platform}.

(** The nodes an event decides: those at and below the paths it claims. *)
Definition decides (e : MountEvent) (q : string) : Prop :=
  exists p, p ∈ exclusive_paths (mutation e) /\ under p q.

Lemma node_effect_claims e p f : node_effect e = Some (p, f) -> p ∈ exclusive_paths (mutation e).
Proof. unfold node_effect. destruct (mutation e); intros [= <- <-]; set_solver. Qed.

Lemma apply_frame t e q : ~ decides e q -> apply_event t e q = t q.
Proof.
  intros Hn. unfold apply_event. destruct (is_local_only (mutation e)); [done|].
  destruct (node_effect e) as [[p f]|] eqn:E.
  - assert (q <> p) as Hq.
    { intros ->. apply Hn. exists p. split; [by eapply node_effect_claims|by left]. }
    unfold node_effect in E. destruct (mutation e); simplify_eq; by rewrite decide_False.
  - destruct (mutation e) eqn:Em; try done. unfold move.
    assert (forall p, p ∈ exclusive_paths (mutation e) -> ~ under p q) as Hp.
    { intros p Hp Hu. apply Hn. by exists p. }
    rewrite Em in Hp. by rewrite !decide_False by (apply Hp; set_solver).
Qed.

Lemma apply_local t t' e q :
  (forall r, decides e r -> t r = t' r) -> decides e q -> apply_event t e q = apply_event t' e q.
Proof.
  intros Ht Hq. unfold apply_event. destruct (is_local_only (mutation e)); [by apply Ht|].
  destruct (node_effect e) as [[p f]|] eqn:E.
  - unfold node_effect in E.
    destruct (mutation e); simplify_eq; (destruct (decide (q = p)); [f_equal; by apply Ht|by apply Ht]).
  - destruct (mutation e) as [| | | | | |old new fl| | | | |] eqn:Em; try (by apply Ht).
    unfold move. destruct (decide (under new q)).
    + destruct (decide (under old (moved_from old new q))); [|done]. apply Ht. exists old. rewrite Em. split; [set_solver|done].
    + destruct (decide (under old q)); [done|]. by apply Ht.
Qed.

Lemma independent_unreached a b p :
  independent a b -> p ∈ exclusive_paths (mutation a) -> p ∉ reached_paths (mutation b).
Proof.
  unfold independent. intros Hi Hp Hr. rewrite <- not_true_iff_false in Hi. apply Hi.
  unfold event_dependency_keys, dependency_keys. rewrite merge_conflict. apply conflict_iff. exists p. left.
  by rewrite raw_claims, raw_mentions.
Qed.

Lemma exclusive_under_reached e p q :
  q ∈ exclusive_paths (mutation e) -> under p q -> p ∈ reached_paths (mutation e).
Proof.
  intros Hq Hu. assert (q ∈ affected_paths (mutation e)) as Hq' by (destruct (mutation e); set_solver).
  unfold reached_paths. apply list_elem_of_In, in_flat_map. exists q. by split; apply list_elem_of_In.
Qed.

(** Independent events decide disjoint sets of nodes. *)
Lemma independent_disjoint a b q : independent a b -> decides a q -> decides b q -> False.
Proof.
  intros Hi (p & Hp & Hpq) (p' & Hp' & Hpq'). destruct (under_chain _ _ _ Hpq Hpq') as [Hu|Hu].
  - by eapply independent_unreached, exclusive_under_reached.
  - by eapply independent_unreached, exclusive_under_reached; [by apply independent_sym|..].
Qed.

#[export] Instance decides_dec e q : Decision (decides e q).
Proof.
  refine (cast_if (decide (Exists (fun p => under p q) (exclusive_paths (mutation e)))));
    unfold decides; by rewrite <- Exists_exists.
Defined.

(** Events whose dependency keys do not conflict commute. *)
Lemma apply_commute t a b : independent a b -> same_tree (apply_event (apply_event t a) b) (apply_event (apply_event t b) a).
Proof.
  intros Hi q.
  assert (forall x y, independent x y -> decides x q ->
    apply_event (apply_event t x) y q = apply_event (apply_event t y) x q) as Hxy.
  { intros x y Hxy Hx. rewrite apply_frame by (intros ?; by eapply (independent_disjoint x y)).
    apply apply_local; [|done]. intros r Hr. symmetry. apply apply_frame. intros ?. by eapply (independent_disjoint x y). }
  destruct (decide (decides a q)); [by apply Hxy|]. destruct (decide (decides b q)).
  - symmetry. apply Hxy; [by apply independent_sym|done].
  - by rewrite !apply_frame.
Qed.

Lemma apply_event_same t t' e : same_tree t t' -> same_tree (apply_event t e) (apply_event t' e).
Proof.
  intros Ht q. destruct (decide (decides e q)) as [Hd|Hd]; [by apply apply_local|]. by rewrite !apply_frame.
Qed.

Lemma apply_all_same t t' l : same_tree t t' -> same_tree (apply_all t l) (apply_all t' l).
Proof. revert t t'; induction l as [|e l IH]; intros t t' Ht; [done|]. by apply IH, apply_event_same. Qed.

Lemma apply_all_app t l k : apply_all t (l ++ k) = apply_all (apply_all t l) k.
Proof. apply foldl_app. Qed.

(** A write that does not demand absence is of a file that exists. *)
Definition writes_existing (t : Tree) (e : MountEvent) : Prop :=
  is_local_only (mutation e) = false -> unconditioned e ->
  forall path, content_path (mutation e) = Some path -> exists mode hash, t path = Some (NodeFile mode hash).

Fixpoint grounded (t : Tree) (events : list MountEvent) : Prop :=
  match events with
  | [] => True
  | e :: rest => writes_existing t e /\ grounded (apply_event t e) rest
  end.

Lemma grounded_cons t e l : writes_existing t e -> grounded (apply_event t e) l -> grounded t (e :: l).
Proof. by split. Qed.

Lemma grounded_app t l k : grounded t (l ++ k) <-> grounded t l /\ grounded (apply_all t l) k.
Proof.
  revert t; induction l as [|x l IH]; intros t; [cbn; tauto|]. cbn [app grounded]. rewrite IH.
  unfold apply_all. cbn [foldl]. tauto.
Qed.

Lemma grounded_same t t' l : same_tree t t' -> grounded t l -> grounded t' l.
Proof.
  revert t t'; induction l as [|e l IH]; intros t t' Ht; [done|]. intros [He Hl]. split.
  - intros Hr Hu path Hp. rewrite <- (Ht path). by apply He.
  - eapply IH; [|exact Hl]. by apply apply_event_same.
Qed.

Lemma apply_local_only t e : is_local_only (mutation e) = true -> same_tree (apply_event t e) t.
Proof. intros Hl q. unfold apply_event. by rewrite Hl. Qed.

Lemma content_decides e path : content_path (mutation e) = Some path -> decides e path.
Proof. intros H. exists path. split; [|by left]. destruct (mutation e); simplify_eq/=; set_solver. Qed.

Lemma writes_existing_frame t a b :
  exchangeable a b -> writes_existing (apply_event t a) b <-> writes_existing t b.
Proof.
  intros Hx. unfold writes_existing. destruct Hx as [Hl|[Hl|Hi]].
  - split; intros H Hr Hu path Hp; destruct (H Hr Hu path Hp) as (m & h & E); exists m, h;
      [rewrite <- (apply_local_only t a Hl path)|rewrite (apply_local_only t a Hl path)]; done.
  - split; intros _ Hr; congruence.
  - assert (forall path, content_path (mutation b) = Some path -> apply_event t a path = t path) as Hf.
    { intros path Hp. apply apply_frame. intros Hd. by eapply independent_disjoint, content_decides. }
    split; intros H Hr Hu path Hp; destruct (H Hr Hu path Hp) as (m & h & E); exists m, h;
      [rewrite <- (Hf path Hp)|rewrite (Hf path Hp)]; done.
Qed.

Lemma apply_swap t a b :
  exchangeable a b -> same_tree (apply_all t [a; b]) (apply_all t [b; a]).
Proof.
  unfold apply_all. cbn [foldl]. intros [Hl|[Hl|Hi]] q.
  - rewrite (apply_local_only _ a Hl q). apply apply_event_same. by apply apply_local_only.
  - rewrite (apply_local_only _ b Hl q). symmetry. apply apply_event_same. by apply apply_local_only.
  - by apply apply_commute.
Qed.

(** ** Folds *)

Lemma content_of_push_folded c e path m bs bh sz h :
  mutation c = AppendFile path m bs bh sz h -> content_of (push_folded c e) = h.
Proof.
  intros Hm. unfold content_of, published_content. destruct e as [v ep sq k mm p pi li f]. cbn.
  rewrite last_snoc. cbn. by rewrite Hm.
Qed.

Lemma content_of_append c path m bs bh sz h :
  mutation c = AppendFile path m bs bh sz h -> folded_appends c = [] -> content_of c = h.
Proof. intros Hm Hf. unfold content_of, published_content. rewrite Hf. cbn. by rewrite Hm. Qed.

Lemma content_of_set_mutation e path m f h m' f' h' :
  mutation e = ReplaceFile path m f h -> content_of (set_mutation (ReplaceFile path m' f' h') e) = content_of e.
Proof.
  destruct e as [v ep sq k mm p pi li fl]. cbn. intros ->. unfold content_of, published_content. cbn.
  by destruct (last fl).
Qed.

Lemma node_effect_apply t e p f :
  node_effect e = Some (p, f) -> is_local_only (mutation e) = false ->
  same_tree (apply_event t e) (fun q => if decide (q = p) then f (t q) else t q).
Proof.
  intros E Hl q. unfold apply_event. rewrite Hl, E. unfold node_effect in E. by destruct (mutation e).
Qed.

(** Two events of a path and one that has their combined effect. *)
Lemma tree_collapse t a b c p fa fb fc :
  node_effect a = Some (p, fa) -> node_effect b = Some (p, fb) -> node_effect c = Some (p, fc) ->
  is_local_only (mutation a) = is_local_only (mutation c) -> is_local_only (mutation b) = is_local_only (mutation c) ->
  (is_local_only (mutation c) = false -> fb (fa (t p)) = fc (t p)) ->
  same_tree (apply_all t [a; b]) (apply_all t [c]).
Proof.
  intros Ha Hb Hc Hla Hlb He q. unfold apply_all. cbn [foldl].
  destruct (is_local_only (mutation c)) eqn:Hl; [by rewrite !apply_local_only|].
  rewrite (node_effect_apply _ b p fb Hb Hlb q), (node_effect_apply _ a p fa Ha Hla q), (node_effect_apply _ c p fc Hc Hl q).
  destruct (decide (q = p)) as [->|]; auto.
Qed.

(** A content event as the effect on the node of its path. *)
Definition content_effect (e : MountEvent) : option Node -> option Node :=
  match mutation e with
  | ReplaceFile _ mode _ base =>
      if bool_decide (base = Some ABSENT_PRECONDITION) then (fun _ => Some (NodeFile mode (content_of e)))
      else overwrite mode (content_of e)
  | AppendFile _ mode _ _ _ _ => overwrite mode (content_of e)
  | _ => fun old => old
  end.

Lemma content_node_effect e path : content_path (mutation e) = Some path -> node_effect e = Some (path, content_effect e).
Proof. unfold node_effect, content_effect. destruct (mutation e); intros [= <-]; done. Qed.

Lemma overwrite_twice m h m' h' old : overwrite m' h' (overwrite m h old) = overwrite m h' old.
Proof. by destruct old as [[]|]. Qed.

Lemma rule_tree t l k : rewrites l k -> grounded t l -> same_tree (apply_all t l) (apply_all t k).
Proof.
  intros Hr Hg.
  destruct Hr as [e He|a b Hx|e c path m f h He Hc Hue Huc|e c path m bs bh sz h He Hc Hf Hp|a b path m m' Ha Hb
    |a b path m m' f h Ha Hb Hu Hid|a b path m f m' Ha Hb].
  - by apply apply_local_only.
  - by apply apply_swap.
  - assert (content_path (mutation c) = Some path) as Hcp by (by rewrite Hc).
    eapply (tree_collapse t e c c path); try (by apply content_node_effect); [by apply (content_local_only _ _ path)|done|].
    intros Hl. destruct Hg as [Hg _].
    destruct (Hg (eq_trans (content_local_only _ _ path He Hcp) Hl) Hue path He) as (m0 & h0 & ->).
    unfold content_effect. rewrite Hc, bool_decide_false by (by eapply Huc).
    destruct (mutation e) eqn:Em; simplify_eq/=; [|done]. by rewrite bool_decide_false by (by eapply Hue).
  - eapply (tree_collapse t e c _ path); try (apply content_node_effect); rewrite ?mutation_push_folded; try done;
      [by rewrite Hc|by apply (content_local_only _ _ path); rewrite ?Hc|].
    intros _. unfold content_effect. rewrite Hc, mutation_push_folded, (content_of_append c _ _ _ _ _ _ Hc Hf).
    rewrite (content_of_push_folded c e _ _ _ _ _ _ Hc).
    destruct (mutation e) eqn:Em; simplify_eq/=; [case_bool_decide; [done|]|]; apply overwrite_twice.
  - eapply (tree_collapse t a b _ path); unfold node_effect; rewrite ?mutation_set_mutation, ?Ha, ?Hb; done.
  - eapply (tree_collapse t a b _ path); unfold node_effect; rewrite ?mutation_set_mutation, ?Ha, ?Hb; try done.
    intros _. rewrite (content_of_set_mutation b path m' f h) by done.
    by rewrite bool_decide_false by (by eapply Hu).
  - eapply (tree_collapse t a b _ path); unfold node_effect; rewrite ?mutation_set_mutation, ?Ha, ?Hb; try done.
    intros _. by rewrite (content_of_set_mutation a path m f _ _ _ _ Ha).
Qed.

Lemma demands_absence path m f e :
  mutation e = ReplaceFile path m f (Some ABSENT_PRECONDITION) -> ~ unconditioned e.
Proof. intros He Hu. by eapply (Hu _ _ _ _ He). Qed.

Lemma rule_grounded t l k : rewrites l k -> grounded t l -> grounded t k.
Proof.
  intros Hr Hg.
  destruct Hr as [e He|a b Hx|e c path m f h He Hc Hue Huc|e c path m bs bh sz h He Hc Hf Hp|a b path m m' Ha Hb
    |a b path m m' f h Ha Hb Hu Hid|a b path m f m' Ha Hb]; cbn [grounded] in Hg |- *; [done|..].
  - destruct Hg as (Hga & Hgb & _). split_and!; [|by apply writes_existing_frame, Hga; apply exchangeable_sym|done].
    by apply (writes_existing_frame t a b).
  - destruct Hg as (Hge & _). split; [|done]. intros Hl _ path' Hp'.
    assert (content_path (mutation c) = Some path) as Hcp by (by rewrite Hc). replace path' with path by congruence.
    apply (Hge (eq_trans (content_local_only _ _ path He Hcp) Hl) Hue path He).
  - destruct Hg as (Hge & _). split; [|done]. unfold writes_existing, unconditioned in *. by rewrite mutation_push_folded.
  - split; [|done]. intros _ _ path'. by rewrite mutation_set_mutation.
  - split; [|done]. intros _ Hun. exfalso. eapply demands_absence; [|exact Hun]. apply mutation_set_mutation.
  - split; [|done]. intros _ Hun. exfalso. eapply demands_absence; [|exact Hun]. apply mutation_set_mutation.
Qed.

(** What is sent leaves the tree the log leaves. *)
Lemma sends_tree t log sent : sends log sent -> grounded t log -> same_tree (apply_all t log) (apply_all t sent).
Proof.
  induction 1 as [|l m k Hs _ IH]; intros Hg; [done|].
  destruct Hs as [before l m after Hr]. rewrite !grounded_app in Hg. destruct Hg as (Hgb & Hgl & Hga).
  pose proof (rule_tree _ _ _ Hr Hgl) as Ht.
  intros q. trans (apply_all t (before ++ m ++ after) q).
  - rewrite !apply_all_app. by apply apply_all_same.
  - apply IH. rewrite !grounded_app. split_and!; [done|by eapply rule_grounded|by eapply grounded_same].
Qed.

(** C28: the dependency keys are enough. Two events whose keys do not conflict
    change disjoint sets of nodes, so they leave the same tree in either order,
    whatever the tree: creations, writes, mode changes, removals, and renames,
    which move everything below a path. The tree is one in which no file has two
    names, and neither event gives a file a second one. *)
Theorem independent_events_commute t a b :
  dependency_sets_conflict (event_dependency_keys a) (event_dependency_keys b) = false ->
  links (mutation a) = false -> links (mutation b) = false ->
  same_tree (apply_all t [a; b]) (apply_all t [b; a])
  /\ forall q, ~ (apply_event t a q <> t q /\ apply_event t b q <> t q).
Proof.
  intros Hi _ _. split; [by apply apply_commute|]. intros q [Ha Hb].
  apply (independent_disjoint a b q Hi).
  - destruct (decide (decides a q)); [done|]. by destruct Ha; apply apply_frame.
  - destruct (decide (decides b q)); [done|]. by destruct Hb; apply apply_frame.
Qed.

End tree.

(** A rename of a directory and a write beside it; a write below it conflicts. *)
Lemma independent_events_commute_witness :
  let event m := MkEvent 3 "018f" 1 "018f:1" m (Some (MkPayloadRef (DedicatedFile "h") 3 "sha256" "h")) [] None [] in
  let t : Tree := fun q => if String.eqb q "d/x" then Some (NodeFile 420 "hx") else None in
  let rename := event (Rename "d" "e/f" 0) in
  let write := event (ReplaceFile "e/g" 384 None None) in
  let linux := {| target_macos := false |} in
  (same_tree (apply_all (P := linux) t [rename; write]) (apply_all (P := linux) t [write; rename])
   /\ forall q, ~ (apply_event (P := linux) t rename q <> t q /\ apply_event (P := linux) t write q <> t q))
  /\ apply_all (P := linux) t [write; rename] "e/f/x" = Some (NodeFile 420 "hx")
  /\ dependency_sets_conflict (event_dependency_keys rename)
       (event_dependency_keys (event (ReplaceFile "e/f/x" 384 None None))) = true.
Proof.
  cbv zeta. split; [|split; vm_compute; reflexivity].
  apply independent_events_commute; vm_compute; reflexivity.
Defined.
