(* ===== verification/PublishBatch.v ===== *)
(** * Building a publish batch

    [place_content_generation], [batched_payload_bytes] and
    [MountWal::next_publish_batch] of [local_view/wal.rs]: the next committed
    prefix of the log, with superseded content generations dropped and appends
    folded onto the generation they extend. The events of the batch are a way to
    send the whole prefix ([SendOrder.sends]). *)

From S2P Require Import Prelude MountTypes WalTypes WalReplay Wal WalLayout WalRecovery.
From S2P Require Import WalInvariant WalSteps WalSystem SendOrder.
From Stdlib Require Import ZArith Lia.

Inductive ContentPlacement := Push | Supersede (index : nat) | Fold (index : nat).

Global Instance ContentPlacement_eq_dec : EqDecision ContentPlacement.
Proof. solve_decision. Defined.

Section batch.
Context {P : Platform}.

(** What an earlier conflicting event decides. *)
Definition place_against (event candidate : MountEvent) (path : string) (index : nat) : ContentPlacement :=
  if is_content (mutation event) && String.eqb (primary_path (mutation event)) path
  then match mutation candidate with
       | ReplaceFile _ _ _ _ => Supersede index
       | AppendFile _ _ base_size base_content_hash _ _ =>
           if bool_decide (published_content event = Some (base_size, base_content_hash))
           then Fold index else Push
       | _ => Push
       end
  else Push.

(** The backward walk; [events] is reversed, its head is at [length - 1]. *)
Fixpoint place_loop (candidate : MountEvent) (path : string) (keys : list DependencyKey)
    (reversed : list MountEvent) : ContentPlacement :=
  match reversed with
  | [] => Push
  | event :: earlier =>
      if is_local_only (mutation event) || negb (dependency_sets_conflict keys (event_dependency_keys event))
      then place_loop candidate path keys earlier
      else place_against event candidate path (length earlier)
  end.

Definition place_content_generation (events : list MountEvent) (candidate : MountEvent) : ContentPlacement :=
  match content_path (mutation candidate) with
  | Some path => place_loop candidate path (event_dependency_keys candidate) (reverse events)
  | None => Push
  end.

Definition batched_payload_bytes (event : MountEvent) (folding stream_threshold_bytes : Z) : Z :=
  match mutation event with
  | AppendFile _ _ _ _ _ _ => 0%Z
  | _ =>
      let length := sat_add (wire_payload_length event) folding in
      if (stream_threshold_bytes <=? length)%Z then 0%Z else length
  end.

(** The bytes an accepted placement removes from and adds to the request. *)
Definition placement_bytes (events : list MountEvent) (event : MountEvent) (threshold : Z)
    (placement : ContentPlacement) : Z * Z :=
  match placement with
  | Push => (0%Z, batched_payload_bytes event 0 threshold)
  | Supersede index =>
      (match events !! index with Some e => batched_payload_bytes e 0 threshold | None => 0%Z end,
       batched_payload_bytes event 0 threshold)
  | Fold index =>
      match events !! index with
      | Some e => (batched_payload_bytes e 0 threshold,
                   batched_payload_bytes e (payload_length event) threshold)
      | None => (0%Z, 0%Z)
      end
  end.

Definition place (events : list MountEvent) (event : MountEvent) (placement : ContentPlacement)
  : list MountEvent :=
  match placement with
  | Push => events ++ [event]
  | Supersede index => delete index events ++ [event]
  | Fold index => alter (push_folded event) index events
  end.

Record BatchState := MkBatchState {
  bs_sequence : Z;
  bs_through : Z;
  bs_payload_bytes : Z;
  bs_scanned : Z;
  bs_events : list MountEvent;
}.

(** One iteration of the loop, [None] where it breaks. *)
Definition batch_step (i : IndexPart) (max_events max_payload_bytes threshold : Z) (b : BatchState)
  : option BatchState :=
  let seq := b.(bs_sequence) in
  if bool_decide (seq ∈ i.(aborted))
  then Some (MkBatchState (sat_add seq 1) seq b.(bs_payload_bytes) b.(bs_scanned) b.(bs_events))
  else
    match i.(prepared) !! seq with
    | None => None
    | Some record =>
        if negb (bool_decide (seq ∈ i.(committed))) then None
        else if (max_events <=? b.(bs_scanned))%Z then None
        else
          let event := record.(pr_event) in
          let placement := place_content_generation b.(bs_events) event in
          let '(removed, added) := placement_bytes b.(bs_events) event threshold placement in
          let next := sat_add (sat_sub b.(bs_payload_bytes) removed) added in
          if negb (bool_decide (b.(bs_events) = [])) && (max_payload_bytes <? next)%Z then None
          else Some (MkBatchState (sat_add seq 1) seq next (b.(bs_scanned) + 1)%Z
                       (place b.(bs_events) event placement))
    end.

(** The loop; each iteration consumes one sequence, so the number of prepared
    and aborted sequences bounds it. *)
Fixpoint batch_loop (i : IndexPart) (max_events max_payload_bytes threshold : Z) (fuel : nat)
    (b : BatchState) : BatchState :=
  match fuel with
  | O => b
  | S fuel =>
      match batch_step i max_events max_payload_bytes threshold b with
      | None => b
      | Some b => batch_loop i max_events max_payload_bytes threshold fuel b
      end
  end.

Definition batch_fuel (i : IndexPart) : nat := size i.(aborted) + size (dom i.(prepared)) + 1.

Definition batch_start (i : IndexPart) : BatchState :=
  MkBatchState (sat_add i.(acknowledged_sequence) 1) i.(acknowledged_sequence) 0 0 [].

Definition next_publish_batch (i : IndexPart) (max_events max_payload_bytes stream_threshold_bytes : Z)
  : MResult (option PublishBatch) :=
  _ ← guard_err (max_events =? 0)%Z BatchWithoutEvents;
  _ ← guard_err (stream_threshold_bytes =? 0)%Z ZeroStreamThreshold;
  let b := batch_loop i max_events max_payload_bytes stream_threshold_bytes (batch_fuel i) (batch_start i) in
  if (b.(bs_through) =? i.(acknowledged_sequence))%Z then Ok None
  else Ok (Some (MkBatch b.(bs_events) b.(bs_through))).

(** ** Placement *)

Lemma place_loop_spec c path keys rev_events p :
  place_loop c path keys rev_events = p -> p <> Push ->
  exists after e before, rev_events = after ++ e :: before /\ Forall (passes keys) after
    /\ place_against e c path (length before) = p
    /\ is_local_only (mutation e) = false.
Proof.
  revert p; induction rev_events as [|x l IH]; intros p Hp Hn; cbn in Hp; [by subst|].
  destruct (is_local_only (mutation x)) eqn:Hl; cbn in Hp.
  - destruct (IH p Hp Hn) as (after & e & before & -> & Hf & He & Hle). exists (x :: after), e, before.
    split_and!; try done. constructor; [by left|done].
  - destruct (dependency_sets_conflict keys (event_dependency_keys x)) eqn:Hc; cbn in Hp.
    + exists [], x, l. split_and!; done.
    + destruct (IH p Hp Hn) as (after & e & before & -> & Hf & He & Hle). exists (x :: after), e, before.
      split_and!; try done. constructor; [by right|done].
Qed.

(** What the walk found: the chosen event is content of the same path, every
    event after it is local-only or independent of the candidate. *)
Record placed_on (events : list MountEvent) (c : MountEvent) (before : list MountEvent) (e : MountEvent)
    (after : list MountEvent) (path : string) : Prop := {
  po_split : events = before ++ e :: after;
  po_candidate : content_path (mutation c) = Some path;
  po_content : content_path (mutation e) = Some path;
  po_after : Forall (passes (content_keys_of path)) after;
  po_remote : is_local_only (mutation c) = false;
}.

Lemma place_spec events c :
  place_content_generation events c <> Push ->
  exists before e after path, placed_on events c before e after path
    /\ ((place_content_generation events c = Supersede (length before)
         /\ exists m f h, mutation c = ReplaceFile path m f h)
        \/ (place_content_generation events c = Fold (length before)
            /\ exists m bs bh sz h, mutation c = AppendFile path m bs bh sz h
               /\ published_content e = Some (bs, bh))).
Proof.
  unfold place_content_generation. destruct (content_path (mutation c)) as [path|] eqn:Hpath; [|done].
  intros Hn. destruct (place_loop_spec _ _ _ _ _ eq_refl Hn) as (ra & e & rb & Hev & Hf & He & Hl).
  rewrite <- He in Hn |- *.
  assert (events = reverse rb ++ e :: reverse ra) as Hsplit.
  { rewrite <- (reverse_involutive events), Hev, reverse_app, reverse_cons, <- app_assoc. done. }
  exists (reverse rb), e, (reverse ra), path. rewrite length_reverse.
  unfold place_against in *.
  destruct (is_content (mutation e)) eqn:Hc; cbn in *; [|done].
  destruct (String.eqb_spec (primary_path (mutation e)) path) as [Hpp|]; [|done].
  apply is_content_path in Hc. rewrite Hpp in Hc. split.
  - constructor; try done.
    + rewrite <- (content_keys _ _ Hpath). by apply Forall_reverse.
    + by rewrite <- (content_local_only _ _ _ Hc Hpath).
  - destruct (mutation c) as [| | cp cm cf ch | cp cm cbs cbh csz ch | | | | | | | |] eqn:Hm;
      cbn in Hpath; simplify_eq; [left|right].
    + split; [done|]. by exists cm, cf, ch.
    + case_bool_decide; [|done]. split; [done|]. by exists cm, cbs, cbh, csz, ch.
Qed.

Lemma alter_middle {A} (f : A -> A) before e after :
  alter f (length before) (before ++ e :: after) = before ++ f e :: after.
Proof. induction before as [|x before IH]; cbn; [done|]. by f_equal. Qed.

(** The three shapes of the batch after an accepted event. *)
Lemma place_cases events c :
  (place events c (place_content_generation events c) = events ++ [c])
  \/ exists before e after path, placed_on events c before e after path
    /\ ((place events c (place_content_generation events c) = before ++ after ++ [c]
          /\ exists m f h, mutation c = ReplaceFile path m f h)
        \/ (place events c (place_content_generation events c) = before ++ push_folded c e :: after
            /\ exists m bs bh sz h, mutation c = AppendFile path m bs bh sz h
               /\ published_content e = Some (bs, bh))).
Proof.
  destruct (decide (place_content_generation events c = Push)) as [->|E]; [by left|right].
  destruct (place_spec _ _ E) as (before & e & after & path & Hpo & Hor).
  exists before, e, after, path. split; [done|].
  destruct Hor as [[-> H]|[-> H]]; [left|right]; (split; [|done]); cbn; rewrite (po_split _ _ _ _ _ _ Hpo).
  - by rewrite delete_middle, <- app_assoc.
  - apply alter_middle.
Qed.

(** ** What a placement sends *)

(** A placed event may be sent where it is placed. *)
Lemma place_sends events c :
  Forall unconditioned events -> unconditioned c -> folded_appends c = [] ->
  sends (events ++ [c]) (place events c (place_content_generation events c)).
Proof.
  intros Hu Huc Hc. destruct (place_cases events c) as [->|(before & e & after & path & Hpo & Hor)]; [done|].
  destruct Hpo as [-> Hcp Hep Hf Hl]. apply Forall_app in Hu as [_ Hu]. apply Forall_cons in Hu as [Hu _].
  assert (Forall (exchangeable c) after) as Hfc.
  { apply passes_exchangeable. unfold event_dependency_keys. by rewrite (content_keys _ _ Hcp). }
  rewrite <- app_assoc. cbn [app]. rewrite (sends_earlier c after) by done.
  destruct Hor as [[-> (m & f & h & Hm)]|[-> (m & bs & bh & sz & h & Hm & Hp)]]; apply sends_app; try done.
  - etrans; [apply (sends_head [e; c] [c] after); by eapply rw_supersede|]. by apply sends_later.
  - apply (sends_head [e; c] [push_folded c e] after). by eapply rw_append.
Qed.

Lemma place_unconditioned events c :
  Forall unconditioned events -> unconditioned c ->
  Forall unconditioned (place events c (place_content_generation events c)).
Proof.
  intros Hu Hc. destruct (place_cases events c) as [->|(before & e & after & path & Hpo & Hor)].
  - rewrite Forall_app, Forall_singleton. auto.
  - rewrite (po_split _ _ _ _ _ _ Hpo) in Hu. apply Forall_app in Hu as [? Hu]. apply Forall_cons in Hu as [? ?].
    destruct Hor as [[-> _]|[-> _]]; rewrite !Forall_app.
    + rewrite Forall_singleton. auto.
    + split; [done|]. apply Forall_cons. split; [|done].
      intros path' m f h. rewrite mutation_push_folded. eauto.
Qed.

(** ** The index the batch is cut from *)

Record batchable (i : IndexPart) : Prop := {
  bi_ack : (0 <= i.(acknowledged_sequence) < i.(next_sequence))%Z;
  bi_next : (i.(next_sequence) <= U64_MAX)%Z;
  bi_prepared : forall s, is_Some (i.(prepared) !! s) <-> (i.(acknowledged_sequence) < s < i.(next_sequence))%Z;
  bi_event : forall s r, i.(prepared) !! s = Some r ->
    sequence r.(pr_event) = s /\ folded_appends r.(pr_event) = [];
  bi_disjoint : i.(committed) ## i.(aborted);
  bi_resolved : i.(committed) ∪ i.(aborted) ⊆ dom i.(prepared);
}.

(** The committed events of a range of sequences, in order. *)
Definition committed_event (i : IndexPart) (s : Z) : option MountEvent :=
  if bool_decide (s ∈ i.(committed)) then pr_event <$> i.(prepared) !! s else None.
Definition committed_events (i : IndexPart) (first last : Z) : list MountEvent :=
  omap (committed_event i) (range_inclusive first last).

Lemma committed_events_snoc i first last :
  (first <= last)%Z ->
  committed_events i first last = committed_events i first (last - 1) ++ option_list (committed_event i last).
Proof.
  intros Hle. unfold committed_events, range_inclusive.
  replace (last - first + 1)%Z with ((last - 1 - first + 1) + 1)%Z by lia.
  rewrite seqZ_app, omap_app by lia. f_equal. rewrite seqZ_cons by lia.
  replace (first + (last - 1 - first + 1))%Z with last by lia. cbn.
  destruct (committed_event i last); done.
Qed.

Lemma committed_events_empty i first last : (last < first)%Z -> committed_events i first last = [].
Proof. intros. unfold committed_events, range_inclusive. rewrite seqZ_nil by lia. done. Qed.

(** ** The loop *)

Section loop.
Context (i : IndexPart) (max_events max_payload_bytes threshold : Z) (Hi : batchable i).
Let step := batch_step i max_events max_payload_bytes threshold.
Let ack := i.(acknowledged_sequence).

(** The two kinds of iteration. *)
Lemma batch_step_cases b b' :
  step b = Some b' ->
  let s := b.(bs_sequence) in
  (ack < s < i.(next_sequence))%Z /\ bs_sequence b' = (s + 1)%Z /\ bs_through b' = s
  /\ ((s ∈ i.(aborted) /\ committed_event i s = None /\ bs_events b' = bs_events b
        /\ bs_payload_bytes b' = bs_payload_bytes b /\ bs_scanned b' = bs_scanned b)
      \/ (s ∈ i.(committed) /\ exists c, committed_event i s = Some c
          /\ sequence c = s /\ folded_appends c = []
          /\ (bs_scanned b < max_events)%Z /\ bs_scanned b' = (bs_scanned b + 1)%Z
          /\ let p := place_content_generation (bs_events b) c in
             let '(removed, added) := placement_bytes (bs_events b) c threshold p in
             bs_events b' = place (bs_events b) c p
             /\ bs_payload_bytes b' = sat_add (sat_sub (bs_payload_bytes b) removed) added
             /\ (bs_events b = [] \/ (bs_payload_bytes b' <= max_payload_bytes)%Z))).
Proof.
  destruct Hi as [Ha Hn Hp He Hd Hr]. unfold step, batch_step. cbn zeta.
  set (s := bs_sequence b). case_bool_decide as Hab.
  - intros [= <-]. assert (ack < s < next_sequence i)%Z.
    { apply Hp, elem_of_dom, Hr. set_solver. }
    cbn. rewrite sat_add_exact by lia. split_and!; try done; try lia. left. split_and!; try done.
    unfold committed_event. rewrite bool_decide_false; [done|]. set_solver.
  - destruct (prepared i !! s) as [r|] eqn:E; [|done]. case_bool_decide as Hc; [|done]. cbn [negb].
    destruct (Z.leb_spec max_events (bs_scanned b)) as [|Hscan]; [done|].
    destruct (placement_bytes _ _ _ _) as [removed added] eqn:Epb.
    destruct (negb _ && _) eqn:Eb; [done|]. intros [= <-]. cbn.
    assert (ack < s < next_sequence i)%Z by (apply Hp; eauto).
    rewrite sat_add_exact by lia. split_and!; try done; try lia. right. split; [done|].
    exists (pr_event r). destruct (He _ _ E). split_and!; try done.
    + unfold committed_event. by rewrite bool_decide_true, E.
    + rewrite Epb. split_and!; try done. apply andb_false_iff in Eb as [Eb|Eb]; [left|right].
      * apply negb_false_iff, bool_decide_eq_true in Eb. done.
      * by apply Z.ltb_ge in Eb.
Qed.

Lemma batch_loop_inv (I : BatchState -> Prop) fuel b :
  (forall b b', I b -> step b = Some b' -> I b') -> I b ->
  I (batch_loop i max_events max_payload_bytes threshold fuel b).
Proof.
  intros Hstep. revert b; induction fuel as [|fuel IH]; intros b Hb; cbn; [done|].
  destruct (batch_step _ _ _ _ b) as [b'|] eqn:E; [|done]. apply IH. by eapply Hstep.
Qed.

(** The loop stops before its fuel does. *)
Lemma batch_loop_halts fuel b :
  (i.(next_sequence) - b.(bs_sequence) < Z.of_nat fuel)%Z ->
  step (batch_loop i max_events max_payload_bytes threshold fuel b) = None.
Proof.
  revert b; induction fuel as [|fuel IH]; intros b Hf; cbn.
  - destruct (step b) as [b'|] eqn:E; [|done].
    destruct (batch_step_cases _ _ E) as (? & _). lia.
  - fold step. destruct (step b) as [b'|] eqn:E; [|done]. apply IH.
    destruct (batch_step_cases _ _ E) as (_ & -> & _). lia.
Qed.

Lemma batch_fuel_enough : (i.(next_sequence) - (ack + 1) < Z.of_nat (batch_fuel i))%Z.
Proof.
  destruct Hi as [Ha Hn Hp He Hd Hr]. unfold batch_fuel.
  assert (size (list_to_set (C:=gset Z) (range_inclusive (ack + 1) (next_sequence i - 1)))
          <= size (dom (prepared i))) as Hs.
  { apply subseteq_size. intros s. rewrite elem_of_list_to_set, elem_of_range_inclusive, elem_of_dom, Hp. lia. }
  rewrite size_list_to_set in Hs by apply NoDup_seqZ.
  unfold range_inclusive in Hs. rewrite length_seqZ in Hs. unfold ack in *. lia.
Qed.

Definition batch_result : BatchState :=
  batch_loop i max_events max_payload_bytes threshold (batch_fuel i) (batch_start i).

Lemma batch_result_halted : step batch_result = None.
Proof.
  apply batch_loop_halts. unfold batch_start. cbn. fold ack.
  pose proof batch_fuel_enough. pose proof (bi_ack _ Hi). pose proof (bi_next _ Hi).
  rewrite sat_add_exact by (unfold ack; lia). lia.
Qed.

(** Every sequence the batch covers is resolved. *)
Definition covers (b : BatchState) : Prop :=
  (ack <= b.(bs_through))%Z /\ b.(bs_sequence) = (b.(bs_through) + 1)%Z
  /\ forall s, (ack < s <= b.(bs_through))%Z -> s ∈ i.(committed) \/ s ∈ i.(aborted).

Lemma batch_start_covers : covers (batch_start i).
Proof.
  pose proof (bi_ack _ Hi). pose proof (bi_next _ Hi). unfold covers, batch_start. cbn.
  rewrite sat_add_exact by (unfold ack; lia). split_and!; [done|done|]. unfold ack. lia.
Qed.

Lemma step_covers b b' : covers b -> step b = Some b' -> covers b'.
Proof.
  intros (H1 & H2 & H3) Hs. destruct (batch_step_cases _ _ Hs) as (Hr & Hq & Ht & Hor).
  unfold covers. rewrite Hq, Ht. split_and!; [lia|done|]. intros s Hs'.
  destruct (decide (s = bs_sequence b)) as [->|]; [|apply H3; lia]. tauto.
Qed.

Lemma batch_result_covers : covers batch_result.
Proof. apply (batch_loop_inv covers); [exact step_covers|exact batch_start_covers]. Qed.

(** The batch ends only at an unresolved sequence or at a limit. *)
Lemma batch_result_stops :
  let s := (bs_through batch_result + 1)%Z in
  (s ∈ i.(committed) -> (max_events <= bs_scanned batch_result)%Z \/ bs_events batch_result <> [])
  /\ s ∉ i.(aborted).
Proof.
  intros s. pose proof batch_result_halted as Hh. pose proof batch_result_covers as (_ & Hq & _).
  unfold step, batch_step in Hh. rewrite Hq in Hh. fold s in Hh.
  case_bool_decide as Hab; [done|]. split; [|done]. intros Hc.
  destruct (prepared i !! s) as [r|] eqn:E.
  - rewrite bool_decide_true in Hh by done. cbn [negb] in Hh.
    destruct (Z.leb_spec max_events (bs_scanned batch_result)); [by left|right].
    destruct (placement_bytes _ _ _ _) as [rm ad]. destruct (bs_events batch_result); [|done].
    by rewrite bool_decide_true in Hh by done.
  - assert (s ∈ dom (prepared i)) as Hd by (apply (bi_resolved _ Hi); set_solver).
    apply elem_of_dom in Hd. rewrite E in Hd. by destruct Hd.
Qed.

(** A batch that covers nothing scanned nothing. *)
Lemma batch_idle :
  bs_through batch_result = ack -> bs_scanned batch_result = 0%Z /\ bs_events batch_result = [].
Proof.
  apply (batch_loop_inv (fun b => covers b /\ (bs_through b = ack -> bs_scanned b = 0%Z /\ bs_events b = []))).
  - intros b b' [Hc _] Hs. split; [by eapply step_covers|].
    destruct (batch_step_cases _ _ Hs) as (Hr & _ & Ht & _). lia.
  - split; [apply batch_start_covers|done].
Qed.

(** Events are queued in sequence order and within the covered range. *)
Definition in_order (b : BatchState) : Prop :=
  StronglySorted Z.lt (sequence <$> b.(bs_events))
  /\ Forall (fun e => (ack < sequence e <= b.(bs_through))%Z) b.(bs_events).

Lemma sorted_snoc (l : list Z) x :
  StronglySorted Z.lt l -> Forall (fun y => (y < x)%Z) l -> StronglySorted Z.lt (l ++ [x]).
Proof.
  induction l as [|y l IH]; intros Hs Hf; cbn; [repeat constructor|].
  apply StronglySorted_inv in Hs as [Hs Hy]. apply Forall_cons in Hf as [Hyx Hf].
  constructor; [by apply IH|]. apply Forall_app. split; [done|]. by constructor.
Qed.

Lemma sorted_drop (l : list Z) x k :
  StronglySorted Z.lt (l ++ x :: k) -> StronglySorted Z.lt (l ++ k).
Proof.
  induction l as [|y l IH]; cbn; intros Hs; apply StronglySorted_inv in Hs as [Hs Hy]; [done|].
  constructor; [by apply IH|]. apply Forall_app in Hy as [? Hy]. apply Forall_cons in Hy as [_ ?].
  by apply Forall_app.
Qed.

Lemma sequence_push_folded a e : sequence (push_folded a e) = sequence e.
Proof. by destruct e. Qed.

Lemma place_in_order (b : BatchState) c through :
  in_order b -> (b.(bs_through) < sequence c <= through)%Z -> (ack <= b.(bs_through))%Z ->
  let events := place b.(bs_events) c (place_content_generation b.(bs_events) c) in
  StronglySorted Z.lt (sequence <$> events)
  /\ Forall (fun e => (ack < sequence e <= through)%Z) events.
Proof.
  intros [Hs Hf] Hc Ha events.
  assert (Forall (fun e => (ack < sequence e <= through)%Z) (bs_events b)) as Hw.
  { eapply Forall_impl; [exact Hf|]. cbn. lia. }
  assert (Forall (fun y => (y < sequence c)%Z) (sequence <$> bs_events b)) as Hlt.
  { apply Forall_fmap. eapply Forall_impl; [exact Hf|]. cbn. lia. }
  subst events. destruct (place_cases (bs_events b) c) as [->|(before & e & after & path & Hpo & Hor)].
  - rewrite fmap_app. split; [by apply sorted_snoc|]. apply Forall_app. split; [done|].
    repeat constructor; lia.
  - rewrite (po_split _ _ _ _ _ _ Hpo), fmap_app, fmap_cons in Hs, Hlt. rewrite (po_split _ _ _ _ _ _ Hpo) in Hw.
    apply Forall_app in Hw as [Hw1 Hw2]. apply Forall_cons in Hw2 as [Hw2 Hw3].
    destruct Hor as [[-> _]|[-> _]]; rewrite !fmap_app.
    + rewrite app_assoc. split.
      * apply sorted_snoc; [by eapply sorted_drop|]. apply Forall_app in Hlt as [? Hlt].
        apply Forall_cons in Hlt as [_ ?]. by apply Forall_app.
      * rewrite !Forall_app. split_and!; try done. repeat constructor; lia.
    + rewrite fmap_cons, sequence_push_folded. split; [done|]. apply Forall_app. split; [done|].
      apply Forall_cons. by rewrite sequence_push_folded.
Qed.

Lemma batch_result_in_order : in_order batch_result.
Proof.
  apply (batch_loop_inv (fun b => covers b /\ in_order b)).
  - intros b b' [Hcv Ho] Hs. split; [by eapply step_covers|].
    destruct Hcv as (Ha & Hq & _). destruct (batch_step_cases _ _ Hs) as (Hr & Hq' & Ht & Hor).
    unfold in_order. rewrite Ht. destruct Hor as [(_ & _ & -> & _)|(_ & c & _ & Hc & _ & _ & _ & Hp)].
    + destruct Ho as [? Hf]. split; [done|]. eapply Forall_impl; [exact Hf|]. cbn. lia.
    + cbn zeta in Hp. destruct (placement_bytes _ _ _ _). destruct Hp as (-> & _).
      apply place_in_order; [done|lia|lia].
  - split; [apply batch_start_covers|]. repeat constructor.
Qed.

(** The batch may be sent for the prefix it covers. *)
Definition prefix (b : BatchState) : list MountEvent := committed_events i (ack + 1) b.(bs_through).

Definition sent_for (b : BatchState) : Prop := sends (prefix b) b.(bs_events) /\ Forall unconditioned b.(bs_events).

Lemma step_sent b b' :
  covers b -> sent_for b -> step b = Some b' -> Forall unconditioned (prefix b') -> sent_for b'.
Proof.
  intros (Ha & Hq & _) (He & Hu) Hs. destruct (batch_step_cases _ _ Hs) as (Hr & Hq' & Ht & Hor).
  assert (prefix b' = prefix b ++ option_list (committed_event i (bs_sequence b))) as Hpre.
  { unfold prefix. rewrite Ht, committed_events_snoc by lia. do 2 f_equal. lia. }
  unfold sent_for. rewrite Hpre. destruct Hor as [(_ & Hn & -> & _)|(_ & c & Hc & Hsq & Hfc & _ & _ & Hp)].
  - rewrite Hn. cbn. rewrite app_nil_r. auto.
  - rewrite Hc. change (option_list (Some c)) with [c].
    rewrite Forall_app, Forall_singleton. intros [_ Huc]. cbn zeta in Hp.
    destruct (placement_bytes _ _ _ _). destruct Hp as (-> & _).
    split; [rewrite He; by apply place_sends|by apply place_unconditioned].
Qed.

(** The prefixes of the intermediate states are prefixes of the final one. *)
Lemma loop_prefix fuel b :
  covers b -> exists k, prefix (batch_loop i max_events max_payload_bytes threshold fuel b) = prefix b ++ k.
Proof.
  revert b; induction fuel as [|fuel IH]; intros b Hcv; cbn; [exists []; by rewrite app_nil_r|].
  destruct (batch_step _ _ _ _ b) as [b'|] eqn:Hs; [|exists []; by rewrite app_nil_r].
  destruct (IH b') as [k Hk]; [by eapply step_covers|]. rewrite Hk.
  destruct (batch_step_cases _ _ Hs) as (Hr & _ & Ht & _). destruct Hcv as (Ha & Hq & _).
  exists (option_list (committed_event i (bs_sequence b)) ++ k). rewrite app_assoc. f_equal.
  unfold prefix. rewrite Ht, committed_events_snoc by lia. do 2 f_equal. lia.
Qed.

Lemma loop_sent fuel b :
  let final := batch_loop i max_events max_payload_bytes threshold fuel b in
  covers b -> sent_for b -> Forall unconditioned (prefix final) -> sent_for final.
Proof.
  revert b; induction fuel as [|fuel IH]; intros b; cbn; intros Hcv Hse Hu; [done|].
  destruct (batch_step _ _ _ _ b) as [b'|] eqn:Hs; [|done].
  assert (covers b') as Hcv' by (by eapply step_covers).
  apply IH; try done. destruct (loop_prefix fuel b' Hcv') as [k Hk]. rewrite Hk in Hu.
  apply Forall_app in Hu as [? _]. eapply step_sent; [exact Hcv|exact Hse|exact Hs|done].
Qed.

Lemma batch_result_sent : Forall unconditioned (prefix batch_result) -> sent_for batch_result.
Proof.
  intros Hu. apply (loop_sent (batch_fuel i) (batch_start i)); try done.
  - apply batch_start_covers.
  - unfold sent_for, prefix, batch_start. cbn. rewrite committed_events_empty by (unfold ack; lia). done.
Qed.

(** ** The limits *)

Definition sized (e : MountEvent) : Prop := Forall (fun p => 0 <= length_ p)%Z (payload_chain e).

Fixpoint request_bytes (events : list MountEvent) : Z :=
  match events with
  | [] => 0%Z
  | e :: rest => (batched_payload_bytes e 0 threshold + request_bytes rest)%Z
  end.

Lemma request_bytes_app l k : request_bytes (l ++ k) = (request_bytes l + request_bytes k)%Z.
Proof. induction l as [|e l IH]; cbn; [done|]. rewrite IH. lia. Qed.

Lemma foldl_sat_nonneg l acc :
  Forall (fun n => 0 <= n)%Z l -> (0 <= acc <= U64_MAX)%Z -> (0 <= foldl sat_add acc l <= U64_MAX)%Z.
Proof.
  revert acc; induction l as [|x l IH]; intros acc Hf Ha; cbn; [done|].
  apply Forall_cons in Hf as [Hx Hf]. apply IH; [done|]. unfold sat_add. unfold U64_MAX in *. lia.
Qed.

Lemma wire_length_range e : sized e -> (0 <= wire_payload_length e <= U64_MAX)%Z.
Proof. intros Hs. apply foldl_sat_nonneg; [by apply Forall_fmap|]. unfold U64_MAX. lia. Qed.

Lemma batched_nonneg e : sized e -> (0 <= batched_payload_bytes e 0 threshold)%Z.
Proof.
  intros Hs. pose proof (wire_length_range e Hs). unfold batched_payload_bytes.
  assert (0 <= (if (threshold <=? sat_add (wire_payload_length e) 0)%Z then 0
                else sat_add (wire_payload_length e) 0))%Z as Hn.
  { rewrite sat_add_exact by lia. destruct (threshold <=? _)%Z; lia. }
  destruct (mutation e); done.
Qed.

Lemma payload_chain_fold c e :
  payload_chain (push_folded c e) = payload_chain e ++ option_list (payload c).
Proof.
  unfold payload_chain. destruct e as [v ep sq k m p pi li f]. cbn [folded_appends push_folded payload].
  rewrite omap_app, app_assoc. f_equal.
Qed.

Lemma fold_bytes c e :
  sized e -> folded_appends c = [] ->
  batched_payload_bytes e (payload_length c) threshold = batched_payload_bytes (push_folded c e) 0 threshold.
Proof.
  intros Hs Hc. unfold batched_payload_bytes. rewrite mutation_push_folded.
  assert (wire_payload_length (push_folded c e) = sat_add (wire_payload_length e) (payload_length c)) as ->.
  { unfold wire_payload_length. rewrite payload_chain_fold. rewrite fmap_app, foldl_app.
    unfold payload_length. destruct (payload c); cbn; [done|]. symmetry.
    pose proof (wire_length_range e Hs). unfold wire_payload_length in *. rewrite sat_add_exact; lia. }
  rewrite (sat_add_exact (sat_add _ _) 0), Z.add_0_r; [done|]. pose proof (sat_add_bound (wire_payload_length e) (payload_length c)). lia.
Qed.

Lemma sized_fold c e : sized e -> sized c -> folded_appends c = [] -> sized (push_folded c e).
Proof.
  unfold sized. intros He Hc Hf. rewrite payload_chain_fold. apply Forall_app. split; [done|].
  unfold payload_chain in Hc. rewrite Hf in Hc. by apply Forall_app in Hc as [? _].
Qed.

Lemma request_bytes_nonneg l : Forall sized l -> (0 <= request_bytes l)%Z.
Proof. induction 1 as [|e l He Hl IH]; cbn; [done|]. pose proof (batched_nonneg e He). lia. Qed.

(** What an accepted placement does to the request. *)
Lemma place_bytes events c :
  Forall sized events -> sized c -> folded_appends c = [] ->
  let p := place_content_generation events c in
  let '(removed, added) := placement_bytes events c threshold p in
  Forall sized (place events c p) /\ (0 <= removed <= request_bytes events)%Z /\ (0 <= added)%Z
  /\ request_bytes (place events c p) = (request_bytes events - removed + added)%Z
  /\ (events = [] -> removed = 0 /\ added = batched_payload_bytes c 0 threshold)%Z
  /\ length (place events c p) <= length events + 1.
Proof.
  intros Hs Hc Hf p.
  pose proof (request_bytes_nonneg _ Hs) as Hnn. pose proof (batched_nonneg c Hc) as Hcn.
  destruct (decide (p = Push)) as [Ep|Ep].
  { rewrite Ep. cbn. rewrite Forall_app, Forall_singleton, request_bytes_app, length_app. cbn.
    split_and!; try done; lia. }
  destruct (place_spec events c Ep) as (before & e & after & path & Hpo & Hor). fold p in Hor.
  rewrite (po_split _ _ _ _ _ _ Hpo) in Hs, Hnn |- *. apply Forall_app in Hs as [Hb Hs]. apply Forall_cons in Hs as [He Ha].
  pose proof (request_bytes_nonneg _ Hb). pose proof (request_bytes_nonneg _ Ha). pose proof (batched_nonneg e He).
  destruct Hor as [[-> _]|[-> _]]; cbn [placement_bytes place]; rewrite list_lookup_middle by done.
  - rewrite delete_middle. split_and!.
    + rewrite !Forall_app, Forall_singleton. auto.
    + lia.
    + rewrite request_bytes_app. cbn. lia.
    + lia.
    + rewrite !request_bytes_app. cbn. lia.
    + intros E. by destruct before.
    + rewrite !length_app. cbn. lia.
  - rewrite alter_middle, fold_bytes by done. pose proof (batched_nonneg _ (sized_fold c e He Hc Hf)). split_and!.
    + rewrite Forall_app, Forall_cons. auto using sized_fold.
    + lia.
    + rewrite request_bytes_app. cbn. lia.
    + lia.
    + rewrite !request_bytes_app. cbn. lia.
    + intros E. by destruct before.
    + rewrite !length_app. cbn. lia.
Qed.

Definition within_limits (b : BatchState) : Prop :=
  Forall sized b.(bs_events) /\ b.(bs_payload_bytes) = request_bytes b.(bs_events)
  /\ (request_bytes b.(bs_events) <= max_payload_bytes \/ exists e, b.(bs_events) = [e])%Z
  /\ (Z.of_nat (length b.(bs_events)) <= b.(bs_scanned) <= max_events)%Z.

Lemma batched_below e : (0 < threshold)%Z -> (batched_payload_bytes e 0 threshold < threshold)%Z.
Proof.
  intros. unfold batched_payload_bytes.
  destruct (Z.leb_spec threshold (sat_add (wire_payload_length e) 0)); destruct (mutation e); lia.
Qed.

Lemma step_within b b' :
  (0 < threshold <= U64_MAX)%Z -> (0 <= max_payload_bytes < U64_MAX)%Z ->
  (forall s r, i.(prepared) !! s = Some r -> sized r.(pr_event)) ->
  within_limits b -> step b = Some b' -> within_limits b'.
Proof.
  intros Ht Hm Hsz (Hs & Hb & Hl & Hn) Hst.
  destruct (batch_step_cases _ _ Hst) as (_ & _ & _ & [(_ & _ & He & Hp & Hsc)|(_ & c & Hc & _ & Hf & Hlt & Hsc & Hp)]).
  { unfold within_limits. rewrite He, Hp, Hsc. auto. }
  assert (sized c) as Hcs.
  { unfold committed_event in Hc. case_bool_decide; [|done]. destruct (prepared i !! _) eqn:E; [|done].
    cbn in Hc. simplify_eq. eauto. }
  pose proof (place_bytes _ _ Hs Hcs Hf) as Hpl. cbn zeta in Hp, Hpl.
  pose proof (batched_below c (proj1 Ht)).
  destruct (placement_bytes _ _ _ _) as [rm ad]. destruct Hpl as (Hs' & Hrm & Had & Hrb & Hem & Hlen).
  destruct Hp as (He & Hp & Hor). rewrite <- He in *. rewrite Hb, sat_sub_exact in Hp by lia.
  assert (request_bytes (bs_events b) - rm + ad <= U64_MAX)%Z as Hfit.
  { destruct Hor as [E|Hor]; [destruct (Hem E) as [-> ->]; rewrite E; cbn; lia|].
    rewrite Hp in Hor. unfold sat_add in Hor. lia. }
  rewrite sat_add_exact in Hp by done. unfold within_limits. rewrite Hsc.
  split_and!; [done|congruence| |lia|lia].
  destruct Hor as [E|Hor]; [right|left; lia].
  rewrite He, E. unfold place_content_generation. cbn. destruct (content_path _); cbn; eauto.
Qed.

End loop.

(** ** Reachable logs *)

Context {C : RecordCodec} {CL : RecordCodecLaws C}.

Definition shaped (p : gmap Z PreparedRecord) : Prop :=
  forall s r, p !! s = Some r -> sequence r.(pr_event) = s /\ folded_appends r.(pr_event) = [].

Lemma scan_entry_shaped S e S' : scan_entry S e = Ok S' -> shaped (sc_prepared S) -> shaped (sc_prepared S').
Proof.
  intros H Hs s r. destruct (scan_entry_change _ _ _ H) as [->|[(ev & He & ->)|(seq & id & r0 & Hr & ->)]];
    [apply Hs|..].
  - destruct (decide (sequence ev = s)) as [<-|Hne]; [|rewrite lookup_insert_ne by done; apply Hs].
    rewrite lookup_insert_eq. intros [= <-]. cbn. by destruct ev.
  - destruct (decide (seq = s)) as [<-|Hne]; [|rewrite lookup_insert_ne by done; apply Hs].
    rewrite lookup_insert_eq. intros [= <-]. destruct (Hs _ _ Hr) as [<- Hf]. destruct r0 as [[] ? ?]. done.
Qed.

Lemma scan_shaped T S S' : foldM scan_entry S T = Ok S' -> shaped (sc_prepared S) -> shaped (sc_prepared S').
Proof.
  revert S; induction T as [|x T IH]; intros S H Hs; cbn in H; [by simplify_eq|].
  destruct (scan_entry S x) as [S1|] eqn:E; [|done]. eapply IH; [exact H|]. by eapply scan_entry_shaped.
Qed.

Lemma reachable_batchable epoch w :
  is_empty_str epoch = false -> reachable epoch w -> batchable (w_index w).
Proof.
  intros Hne Hr. destruct (reachable_good epoch w Hne Hr) as (H & G & _ & _).
  destruct (Good_tracks _ _ G) as (S & HS & T). destruct (tracks_index _ _ _ T) as (Hdom & Hrange & _ & Hdis & Hres).
  constructor; try done.
  - apply T.
  - intros s r Hs. rewrite (tr_prepared _ _ _ T), lookup_map_split_off in Hs. case_decide; [|done].
    eapply (scan_shaped H); [exact HS| |exact Hs]. intros s' r'. cbn. by rewrite lookup_empty.
Qed.

Lemma batch_accepted i max_events max_bytes threshold batch :
  batchable i -> next_publish_batch i max_events max_bytes threshold = Ok (Some batch) ->
  StronglySorted Z.lt (sequence <$> batch_events batch)
  /\ Forall (fun e => (acknowledged_sequence i < sequence e <= batch_through_sequence batch)%Z) (batch_events batch)
  /\ let prefix := committed_events i (acknowledged_sequence i + 1) (batch_through_sequence batch) in
     Forall unconditioned prefix ->
     sends prefix (batch_events batch) /\ Forall unconditioned (batch_events batch).
Proof.
  intros Hi Hb. unfold next_publish_batch in Hb. inv_ok Hb. break_in Hb; [done|]. injection Hb as <-.
  destruct (batch_result_in_order i max_events max_bytes threshold Hi). split_and!; [done|done|].
  intros prefix Hu. by apply (batch_result_sent _ max_events max_bytes threshold Hi).
Qed.


(** C22: publication makes progress and never runs ahead of the log: a batch is
    offered exactly when the first unacknowledged sequence is resolved, however
    large its payload; it moves the cursor forward, every sequence it covers is
    committed or aborted, and its events are in log order within that range. *)
Theorem publish_batch_progress epoch w max_events max_bytes threshold :
  is_empty_str epoch = false -> reachable epoch w -> (0 < max_events)%Z -> (0 < threshold)%Z ->
  let i := w_index w in
  let ack := acknowledged_sequence i in
  match next_publish_batch i max_events max_bytes threshold with
  | Err _ => False
  | Ok None => (ack + 1)%Z ∉ committed i ∪ aborted i
  | Ok (Some batch) =>
      (ack < batch_through_sequence batch < next_sequence i)%Z
      /\ (forall s, (ack < s <= batch_through_sequence batch)%Z -> s ∈ committed i ∪ aborted i)
      /\ StronglySorted Z.lt (sequence <$> batch_events batch)
      /\ Forall (fun e => (ack < sequence e <= batch_through_sequence batch)%Z) (batch_events batch)
  end.
Proof.
  intros Hne Hr Hm Ht i ack. pose proof (reachable_batchable _ _ Hne Hr) as Hi. fold i in Hi.
  unfold next_publish_batch. rewrite (proj2 (Z.eqb_neq max_events 0)), (proj2 (Z.eqb_neq threshold 0)) by lia.
  cbn [guard_err mbind result_bind]. fold (batch_result i max_events max_bytes threshold).
  pose proof (batch_result_covers i max_events max_bytes threshold Hi) as (Ha & Hq & Hc).
  set (b := batch_result i max_events max_bytes threshold) in *.
  destruct (Z.eqb_spec (bs_through b) (acknowledged_sequence i)) as [E|E].
  - pose proof (batch_result_stops i max_events max_bytes threshold Hi) as [Hs1 Hs2]. fold b in Hs1, Hs2.
    rewrite E in Hs1, Hs2. intros [Hin|Hin]%elem_of_union; [|done].
    destruct (batch_idle i max_events max_bytes threshold Hi E) as [Hb1 Hb2]. fold b in Hb1, Hb2.
    destruct (Hs1 Hin); [lia|done].
  - cbn [batch_through_sequence batch_events]. destruct (batch_result_in_order i max_events max_bytes threshold Hi).
    split_and!; [lia| | |done|done].
    + destruct (Hc (bs_through b)) as [Hin|Hin]; [lia| |]; apply (bi_prepared _ Hi), elem_of_dom, (bi_resolved _ Hi); set_solver.
    + intros s Hs. apply elem_of_union. auto.
Qed.

(** C29: a batch respects the caller limits. It never holds more than
    [max_events] events, and the bytes it keeps in memory, counted with the
    appends folded onto each event and leaving out streamed payloads, stay
    within [max_payload_bytes] unless the batch is a single event. *)
Theorem publish_batch_limits epoch w max_events max_bytes threshold batch :
  is_empty_str epoch = false -> reachable epoch w ->
  (0 < threshold <= U64_MAX)%Z -> (0 <= max_bytes < U64_MAX)%Z -> (0 <= max_events)%Z ->
  (forall s r, prepared (w_index w) !! s = Some r -> sized r.(pr_event)) ->
  next_publish_batch (w_index w) max_events max_bytes threshold = Ok (Some batch) ->
  (Z.of_nat (length (batch_events batch)) <= max_events)%Z
  /\ (request_bytes threshold (batch_events batch) <= max_bytes \/ exists e, batch_events batch = [e])%Z.
Proof.
  intros Hne Hr Ht Hm Hme Hsz Hb. pose proof (reachable_batchable _ _ Hne Hr) as Hi.
  unfold next_publish_batch in Hb. inv_ok Hb. break_in Hb; [done|]. injection Hb as <-.
  cbn [batch_events].
  destruct (batch_loop_inv (w_index w) max_events max_bytes threshold
    (within_limits max_events max_bytes threshold) (batch_fuel (w_index w)) (batch_start (w_index w)))
    as (_ & _ & H1 & H2).
  - intros b b' Hw Hs. by eapply (step_within (w_index w)).
  - unfold within_limits, batch_start. cbn. split_and!; try done. left. lia.
  - split; [lia|done].
Qed.

End batch.
