(* ===== verification/PublishPlan.v ===== *)
(** * Planning the wire requests of a batch

    The two passes of [plan_runs] of [local_view/publisher.rs], with
    [creation_folds_into_write]: the creation fold, then the dependency
    schedule. The parallel vectors the
    code indexes together ([events]/[planned]/[folded], and
    [publishable]/[classes]/[keys]/[remaining]/[selected]) are lists of one
    record each. The order in which the scheduled runs deliver their events, with
    the uploads of a content run in any order, is one the events may be sent in
    ([SendOrder.sends]). *)

From S2P Require Import Prelude MountTypes WalTypes SendOrder.
From Stdlib Require Import ZArith Lia.

Inductive RunClass := NamespaceClass | ContentClass.

Global Instance RunClass_eq_dec : EqDecision RunClass.
Proof. solve_decision. Defined.

Section plan.
Context {P : Platform}.

(** ** The creation fold *)

(** [events[i]], [planned[i]] and [folded[i]]. *)
Record Slot := MkSlot {
  sl_event : MountEvent;
  sl_planned : MountEvent;
  sl_folded : bool;
}.

Definition set_mode_of (path : string) (e : MountEvent) : option Z :=
  match mutation e with
  | SetMode changed mode => if String.eqb changed path then Some mode else None
  | _ => None
  end.

Definition creation_folds_into_write (create write : MountEvent) (between : list MountEvent) : bool :=
  match mutation create, mutation write with
  | CreateFile created _, ReplaceFile written _ expected_file_id _ =>
      if negb (String.eqb created written) || (sequence write <=? sequence create)%Z then false
      else if bool_decide (is_Some (remote_file_id expected_file_id)) then false
      else
        let keys := event_dependency_keys create in
        negb (existsb (fun event =>
                if is_local_only (mutation event) || bool_decide (is_Some (set_mode_of created event))
                then false
                else dependency_sets_conflict keys (event_dependency_keys event)) between)
  | _, _ => false
  end.

(** The first later whole-file write of [path], with what is around it. *)
Fixpoint split_at_write (path : string) (rest : list Slot) : option (list Slot * Slot * list Slot) :=
  match rest with
  | [] => None
  | s :: rest =>
      if match mutation (sl_event s) with
         | ReplaceFile written _ _ _ => String.eqb written path
         | _ => false
         end
      then Some ([], s, rest)
      else match split_at_write path rest with
           | Some (between, target, after) => Some (s :: between, target, after)
           | None => None
           end
  end.

Definition fold_slot (s : Slot) : Slot := MkSlot (sl_event s) (sl_planned s) true.

(** The mode changes between the creation and the write. *)
Fixpoint absorb_between (path : string) (final_mode : Z) (slots : list Slot) : Z * list Slot :=
  match slots with
  | [] => (final_mode, [])
  | s :: slots =>
      match set_mode_of path (sl_event s) with
      | Some mode =>
          let '(m, slots) := absorb_between path mode slots in (m, fold_slot s :: slots)
      | None =>
          let '(m, slots) := absorb_between path final_mode slots in (m, s :: slots)
      end
  end.

(** The mode changes after the write, up to the first conflict. *)
Fixpoint absorb_after (path : string) (creation_keys : list DependencyKey) (final_mode : Z)
    (slots : list Slot) : Z * list Slot :=
  match slots with
  | [] => (final_mode, [])
  | s :: rest =>
      match set_mode_of path (sl_event s) with
      | Some mode =>
          let '(m, rest) := absorb_after path creation_keys mode rest in (m, fold_slot s :: rest)
      | None =>
          if is_local_only (mutation (sl_event s))
          then let '(m, rest) := absorb_after path creation_keys final_mode rest in (m, s :: rest)
          else if dependency_sets_conflict creation_keys (event_dependency_keys (sl_event s))
          then (final_mode, s :: rest)
          else let '(m, rest) := absorb_after path creation_keys final_mode rest in (m, s :: rest)
      end
  end.

Definition demand_absent (final_mode : Z) (s : Slot) : Slot :=
  match mutation (sl_planned s) with
  | ReplaceFile path _ id _ =>
      MkSlot (sl_event s)
        (set_mutation (ReplaceFile path final_mode id (Some ABSENT_PRECONDITION)) (sl_planned s))
        (sl_folded s)
  | _ => s
  end.

(** One iteration of the first pass, at a slot and the slots after it. *)
Definition fold_creation (s : Slot) (rest : list Slot) : Slot * list Slot :=
  match mutation (sl_event s) with
  | CreateFile path created_mode =>
      match split_at_write path rest with
      | None => (s, rest)
      | Some (between, target, after) =>
          if creation_folds_into_write (sl_event s) (sl_event target) (sl_event <$> between)
          then
            let '(mode1, between) := absorb_between path created_mode between in
            let '(mode2, after) := absorb_after path (event_dependency_keys (sl_event s)) mode1 after in
            (fold_slot s, between ++ demand_absent mode2 target :: after)
          else (s, rest)
      end
  | _ => (s, rest)
  end.

(** The iterations only touch the current slot and later ones. *)
Fixpoint creation_pass (n : nat) (slots : list Slot) : list Slot :=
  match n, slots with
  | S n, s :: rest => let '(s, rest) := fold_creation s rest in s :: creation_pass n rest
  | _, _ => slots
  end.

Definition initial_slots (events : list MountEvent) : list Slot := (fun e => MkSlot e e false) <$> events.

Definition publishable_of (s : Slot) : option MountEvent :=
  if negb (sl_folded s) && negb (is_local_only (mutation (sl_planned s))) then Some (sl_planned s) else None.

Definition publishable (events : list MountEvent) : list MountEvent :=
  omap publishable_of (creation_pass (length events) (initial_slots events)).

(** ** The dependency schedule *)

(** [publishable[i]], [classes[i]], [keys[i]], [remaining[i]], [selected[i]]. *)
Record Item := MkItem {
  it_event : MountEvent;
  it_class : RunClass;
  it_keys : list DependencyKey;
  it_remaining : bool;
  it_selected : bool;
}.

Definition class_of (e : MountEvent) : RunClass :=
  if is_content (mutation e) then ContentClass else NamespaceClass.

Definition initial_item (e : MountEvent) : Item :=
  MkItem e (class_of e) (event_dependency_keys e) true false.

Definition unselect (t : Item) : Item := MkItem (it_event t) (it_class t) (it_keys t) (it_remaining t) false.
Definition choose (t : Item) : Item := MkItem (it_event t) (it_class t) (it_keys t) (it_remaining t) true.
Definition settle (t : Item) : Item :=
  MkItem (it_event t) (it_class t) (it_keys t) (it_remaining t && negb (it_selected t)) (it_selected t).

Definition blocks (class : RunClass) (candidate predecessor : Item) : bool :=
  it_remaining predecessor
  && (negb (it_selected predecessor) || bool_decide (class = ContentClass))
  && dependency_sets_conflict (it_keys predecessor) (it_keys candidate).

(** The selection loop: [before] are the items already passed. *)
Fixpoint select_loop (class : RunClass) (before rest : list Item) : list Item :=
  match rest with
  | [] => before
  | t :: rest =>
      let t := if negb (it_remaining t) || negb (bool_decide (it_class t = class)) then t
               else if existsb (blocks class t) before then t else choose t in
      select_loop class (before ++ [t]) rest
  end.

Definition max_sequence (events : list MountEvent) (or : Z) : Z :=
  match events with
  | [] => or
  | e :: rest => foldl Z.max (sequence e) (sequence <$> rest)
  end.

Definition make_run (class : RunClass) (events : list MountEvent) (through : Z) : PublishRun :=
  match class with
  | NamespaceClass => Namespace events through
  | ContentClass => Content events through
  end.

Definition chosen (items : list Item) : list MountEvent :=
  it_event <$> List.filter it_selected items.

(** The scheduling loop; every round settles at least its first item, so the
    number of items bounds it. *)
Fixpoint schedule (fuel : nat) (batch_through : Z) (items : list Item) : list PublishRun :=
  match fuel with
  | O => []
  | S fuel =>
      match list_find (fun t => it_remaining t = true) items with
      | None => []
      | Some (first, t) =>
          let class := it_class t in
          let items := unselect <$> items in
          let items := select_loop class (take first items) (drop first items) in
          let events := chosen items in
          make_run class events (max_sequence events batch_through)
            :: schedule fuel batch_through (settle <$> items)
      end
  end.

(** ** Executing a plan *)

Definition run_events (r : PublishRun) : list MountEvent :=
  match r with Namespace events _ | Content events _ => events | Cursor _ => [] end.

(** The order in which the events of a plan reach the gateway: a namespace run
    is one ordered request, the uploads of a content run land in some order. *)
Inductive delivers : list PublishRun -> list MountEvent -> Prop :=
| deliver_nothing : delivers [] []
| deliver_namespace events t runs sent :
    delivers runs sent -> delivers (Namespace events t :: runs) (events ++ sent)
| deliver_content events order t runs sent :
    order ≡ₚ events -> delivers runs sent -> delivers (Content events t :: runs) (order ++ sent)
| deliver_cursor t runs sent : delivers runs sent -> delivers (Cursor t :: runs) sent.

(** ** The schedule *)

Definition pending (items : list Item) : list MountEvent :=
  it_event <$> List.filter it_remaining items.

Lemma pending_app l k : pending (l ++ k) = pending l ++ pending k.
Proof. unfold pending. by rewrite List.filter_app, fmap_app. Qed.

Lemma pending_cons t l : pending (t :: l) = (if it_remaining t then [it_event t] else []) ++ pending l.
Proof. unfold pending. cbn. by destruct (it_remaining t). Qed.

Lemma chosen_cons t l : chosen (t :: l) = (if it_selected t then [it_event t] else []) ++ chosen l.
Proof. unfold chosen. cbn. by destruct (it_selected t). Qed.

Lemma pending_unselect l : pending (unselect <$> l) = pending l.
Proof. induction l as [|t l IH]; [done|]. rewrite fmap_cons, !pending_cons, IH. done. Qed.

Definition keyed (t : Item) : Prop :=
  it_keys t = event_dependency_keys (it_event t) /\ it_class t = class_of (it_event t).

Lemma keyed_unselect l : Forall keyed (unselect <$> l) <-> Forall keyed l.
Proof. by rewrite Forall_fmap. Qed.

(** The selection only chooses. *)
Lemma select_loop_unselect class before rest :
  unselect <$> select_loop class before rest = unselect <$> (before ++ rest).
Proof.
  revert before; induction rest as [|t rest IH]; intros before; cbn; [by rewrite app_nil_r|].
  rewrite IH, <- app_assoc, !fmap_app. f_equal. cbn.
  by destruct (negb _ || negb _); [|destruct (existsb _ _)].
Qed.

(** A chosen item is of the class, was remaining, and no earlier item blocks it. *)
Definition justified (class : RunClass) (items : list Item) : Prop :=
  forall before t after, items = before ++ t :: after -> it_selected t = true ->
    it_remaining t = true /\ it_class t = class /\ Forall (fun x => blocks class t x = false) before.

Lemma justified_snoc class items t :
  justified class items ->
  (it_selected t = true ->
    it_remaining t = true /\ it_class t = class /\ Forall (fun x => blocks class t x = false) items) ->
  justified class (items ++ [t]).
Proof.
  intros Hj Ht before x after E Hx. destruct (decide (after = [])) as [->|Hne].
  - apply app_inj_tail in E as [-> ->]. auto.
  - destruct (exists_last Hne) as (after' & y & ->). rewrite app_comm_cons, app_assoc in E.
    apply app_inj_tail in E as [-> _]. by eapply Hj.
Qed.

Lemma justified_unselected class items : Forall (fun t => it_selected t = false) items -> justified class items.
Proof.
  intros Hf before t after -> Ht. apply Forall_app in Hf as [_ Hf]. apply Forall_cons in Hf as [Hf _]. congruence.
Qed.

Lemma select_loop_justified class before rest :
  justified class before -> Forall (fun t => it_selected t = false) rest ->
  justified class (select_loop class before rest).
Proof.
  revert before; induction rest as [|t rest IH]; intros before Hj Hf; cbn; [done|].
  apply Forall_cons in Hf as [Ht Hf]. apply IH; [|done]. apply justified_snoc; [done|].
  destruct (it_remaining t) eqn:Hr; cbn [negb orb]; [|congruence].
  case_bool_decide as Hc; cbn [negb]; [|congruence].
  destruct (existsb (blocks class t) before) eqn:Hb; [congruence|]. intros _. split_and!; try done.
  apply List.Forall_forall. intros x Hx. destruct (blocks class (choose t) x) eqn:E; [|done].
  rewrite <- not_true_iff_false, existsb_exists in Hb. destruct Hb. by exists x.
Qed.

Lemma justified_tail class t items : justified class (t :: items) -> justified class items.
Proof.
  intros Hj before x after -> Hx. destruct (Hj (t :: before) x after eq_refl Hx) as (? & ? & Hf).
  apply Forall_cons in Hf as [_ ?]. auto.
Qed.

(** The first remaining item is chosen. *)
Lemma select_loop_progress t before rest :
  Forall (fun x => it_remaining x = false) before -> it_remaining t = true ->
  exists k, select_loop (it_class t) before (t :: rest) = before ++ choose t :: k.
Proof.
  intros Hb Ht. cbn. rewrite Ht, bool_decide_true by done. cbn [negb orb].
  assert (existsb (blocks (it_class t) t) before = false) as ->.
  { apply not_true_iff_false. rewrite existsb_exists. intros (x & Hx & E).
    rewrite List.Forall_forall in Hb. unfold blocks in E. by rewrite (Hb x Hx) in E. }
  assert (forall class rest before, exists k, select_loop class before rest = before ++ k) as Hpre.
  { clear. induction rest as [|t rest IH]; intros before; cbn; [exists []; by rewrite app_nil_r|].
    destruct (IH (before ++ [if negb (it_remaining t) || negb (bool_decide (it_class t = class)) then t
               else if existsb (blocks class t) before then t else choose t])) as [k ->].
    rewrite <- app_assoc. eauto. }
  destruct (Hpre (it_class t) rest (before ++ [choose t])) as [k ->]. exists k. by rewrite <- app_assoc.
Qed.

Lemma blocks_independent class t x :
  keyed t -> keyed x -> blocks class t x = false -> it_remaining x = true ->
  it_selected x = false \/ class = ContentClass -> independent (it_event x) (it_event t).
Proof.
  unfold keyed, blocks, independent. intros [-> _] [-> _] Hb Hr Hor. rewrite Hr in Hb. cbn in Hb.
  apply andb_false_iff in Hb as [Hb|Hb]; [|done]. apply orb_false_iff in Hb as [H1 H2].
  apply bool_decide_eq_false in H2. apply negb_false_iff in H1. destruct Hor; congruence.
Qed.

Lemma settle_pending items :
  length (pending (settle <$> items)) + length (List.filter (fun t => it_remaining t && it_selected t) items)
  = length (pending items).
Proof.
  induction items as [|t items IH]; [done|]. rewrite fmap_cons, !pending_cons. cbn.
  rewrite !length_app. destruct (it_remaining t), (it_selected t); cbn; lia.
Qed.

(** The chosen events may be sent first. *)
Lemma pull_out items class :
  Forall keyed items -> justified class items ->
  sends (pending items) (chosen items ++ pending (settle <$> items)).
Proof.
  induction items as [|t items IH]; intros Hk Hj; [done|].
  apply Forall_cons in Hk as [Ht Hk].
  assert (justified class items) as Hj' by (by eapply justified_tail).
  rewrite fmap_cons, !pending_cons, chosen_cons. cbn [settle it_remaining it_event it_selected].
  destruct (it_selected t) eqn:Hs.
  - destruct (Hj [] t items eq_refl Hs) as (Hr & _). rewrite Hr. cbn. by rewrite IH.
  - rewrite andb_true_r. destruct (it_remaining t) eqn:Hr; cbn; [|by apply IH].
    rewrite IH by done. rewrite app_comm_cons, sends_later; [by rewrite <- app_assoc|].
    unfold chosen. apply Forall_fmap, List.Forall_forall. intros x Hx. right. right.
    apply List.filter_In in Hx as [Hx Hxs]. apply list_elem_of_In, list_elem_of_split in Hx as (b & a & ->).
    destruct (Hj (t :: b) x a eq_refl Hxs) as (_ & _ & Hf). apply Forall_cons in Hf as [Hf _].
    rewrite Forall_app, Forall_cons in Hk. by apply (blocks_independent class x t); [apply Hk|..|left].
Qed.

(** The uploads of a content run are independent of each other. *)
Lemma chosen_independent items :
  Forall keyed items -> justified ContentClass items -> ForallOrdPairs independent (chosen items).
Proof.
  induction items as [|t items IH]; intros Hk Hj; [constructor|].
  apply Forall_cons in Hk as [Ht Hk]. rewrite chosen_cons.
  assert (justified ContentClass items) as Hj' by (by eapply justified_tail).
  destruct (it_selected t) eqn:Hs; cbn; [|auto]. constructor; [|auto].
  unfold chosen. apply Forall_fmap, List.Forall_forall. intros x Hx.
  apply List.filter_In in Hx as [Hx Hxs]. apply list_elem_of_In, list_elem_of_split in Hx as (b & a & ->).
  destruct (Hj (t :: b) x a eq_refl Hxs) as (_ & _ & Hf). apply Forall_cons in Hf as [Hf _].
  destruct (Hj [] t _ eq_refl Hs) as (Hr & _).
  rewrite Forall_app, Forall_cons in Hk. apply (blocks_independent ContentClass x t); auto; apply Hk.
Qed.

Lemma sends_any_order l k : ForallOrdPairs independent l -> k ≡ₚ l -> sends l k.
Proof.
  intros Hl. revert k; induction Hl as [|x l Hx Hl IH]; intros k Hk; [by apply Permutation_nil_r in Hk as ->|].
  destruct (Permutation_vs_cons_inv Hk) as (k1 & k2 & ->).
  assert (k1 ++ k2 ≡ₚ l) as Hk'.
  { apply (Permutation_cons_inv (a := x)). by rewrite <- Hk, Permutation_middle. }
  rewrite (IH _ Hk'), app_comm_cons, sends_later; [by rewrite <- app_assoc|].
  apply Forall_forall. intros y Hy. right. right. rewrite Forall_forall in Hx. apply Hx.
  rewrite <- Hk'. set_solver.
Qed.

Lemma delivers_run class events through runs sent :
  delivers (make_run class events through :: runs) sent ->
  (class = ContentClass -> ForallOrdPairs independent events) ->
  exists order rest, sent = order ++ rest /\ delivers runs rest /\ sends events order.
Proof.
  intros He Hi. destruct class; inversion He as [|? ? ? k Hd|? order ? ? k Hp Hd|]; subst.
  - by exists events, k.
  - exists order, k. split_and!; [done..|]. apply sends_any_order; auto.
Qed.

(** One round of the schedule. *)
Lemma round_spec items first t :
  Forall keyed items -> list_find (fun t => it_remaining t = true) items = Some (first, t) ->
  let fresh := unselect <$> items in
  let items' := select_loop (it_class t) (take first fresh) (drop first fresh) in
  Forall keyed items' /\ justified (it_class t) items' /\ pending items' = pending items
  /\ length (pending (settle <$> items')) < length (pending items) /\ chosen items' <> [].
Proof.
  intros Hk Hfind fresh items'.
  assert (unselect <$> items' = unselect <$> fresh) as Hu.
  { unfold items'. rewrite select_loop_unselect. by rewrite take_drop. }
  apply list_find_Some in Hfind as (Hl & Hr & Hlt).
  assert (pending items' = pending items) as Hp.
  { rewrite <- (pending_unselect items'), Hu. unfold fresh. by rewrite !pending_unselect. }
  assert (Forall (fun t => it_selected t = false) fresh) as Hf by (by apply Forall_fmap, Forall_true).
  rewrite <- (take_drop first fresh), Forall_app in Hf. destruct Hf as [Hf1 Hf2].
  assert (drop first fresh = unselect t :: drop (S first) fresh) as Hd.
  { apply drop_S. unfold fresh. by rewrite list_lookup_fmap, Hl. }
  destruct (select_loop_progress (unselect t) (take first fresh) (drop (S first) fresh)) as [k Hsel]; [|done|].
  { unfold fresh. rewrite <- fmap_take. apply Forall_fmap, Forall_lookup. intros j x Hx.
    apply lookup_take_Some in Hx as [Hx Hj]. destruct (it_remaining x) eqn:E; [|cbn; congruence].
    by destruct (Hlt j x Hx Hj). }
  rewrite <- Hd in Hsel. change (it_class (unselect t)) with (it_class t) in Hsel. fold items' in Hsel.
  split_and!.
  - rewrite <- keyed_unselect, Hu. unfold fresh. by rewrite !keyed_unselect.
  - apply select_loop_justified; [by apply justified_unselected|done].
  - done.
  - rewrite <- Hp. pose proof (settle_pending items').
    assert (0 < length (List.filter (fun t => it_remaining t && it_selected t) items')); [|lia].
    rewrite Hsel, List.filter_app, length_app. cbn. rewrite Hr. cbn. lia.
  - rewrite Hsel. unfold chosen. rewrite List.filter_app, fmap_app. cbn. intros E.
    by apply app_nil in E as [_ E].
Qed.

Lemma keyed_settle items : Forall keyed (settle <$> items) <-> Forall keyed items.
Proof. by rewrite Forall_fmap. Qed.

Lemma pending_nil items :
  list_find (fun t => it_remaining t = true) items = None -> pending items = [].
Proof.
  intros Hf. apply list_find_None in Hf. induction Hf as [|t items Ht Hf IH]; [done|].
  rewrite pending_cons, IH. by destruct (it_remaining t).
Qed.

Lemma schedule_sends fuel through items sent :
  length (pending items) <= fuel -> Forall keyed items ->
  delivers (schedule fuel through items) sent -> sends (pending items) sent.
Proof.
  revert items sent; induction fuel as [|fuel IH]; intros items sent Hf Hk He; cbn in He.
  - destruct (pending items); [|cbn in Hf; lia]. by inversion He.
  - destruct (list_find _ items) as [[first t]|] eqn:Hfind.
    2: { rewrite (pending_nil _ Hfind). by inversion He. }
    destruct (round_spec _ _ _ Hk Hfind) as (Hk' & Hj & Hp & Hlt & _).
    set (items' := select_loop _ _ _) in *.
    apply delivers_run in He as (order & rest & -> & Hrest & Ho).
    2: { intros Hc. rewrite Hc in Hj. by apply chosen_independent. }
    apply IH in Hrest; [|lia|by apply keyed_settle].
    rewrite <- Hp, (pull_out items' (it_class t)) by done. by rewrite Ho, Hrest.
Qed.

Lemma chosen_pending class items :
  justified class items -> chosen items ++ pending (settle <$> items) ≡ₚ pending items.
Proof.
  induction items as [|t items IH]; intros Hj; [done|].
  assert (justified class items) as Hj' by (by eapply justified_tail).
  rewrite fmap_cons, !pending_cons, chosen_cons. cbn [settle it_remaining it_event it_selected].
  destruct (it_selected t) eqn:Hs.
  - destruct (Hj [] t items eq_refl Hs) as (Hr & _). rewrite Hr. cbn. by rewrite IH.
  - rewrite andb_true_r. destruct (it_remaining t); cbn; [|by apply IH].
    rewrite <- Permutation_middle. by rewrite IH.
Qed.

(** Every item is in exactly one run, and each run is of one class. *)
Definition run_ok (r : PublishRun) : Prop :=
  match r with
  | Namespace events _ => events <> [] /\ Forall (fun e => class_of e = NamespaceClass) events
  | Content events _ =>
      events <> [] /\ Forall (fun e => class_of e = ContentClass) events /\ ForallOrdPairs independent events
  | Cursor _ => False
  end.

Lemma chosen_class class items :
  Forall keyed items -> justified class items -> Forall (fun e => class_of e = class) (chosen items).
Proof.
  intros Hk Hj. unfold chosen. apply Forall_fmap, List.Forall_forall. intros x Hx.
  apply List.filter_In in Hx as [Hx Hxs]. apply list_elem_of_In, list_elem_of_split in Hx as (b & a & ->).
  destruct (Hj b x a eq_refl Hxs) as (_ & <- & _). rewrite Forall_app, Forall_cons in Hk.
  destruct Hk as (_ & [_ Hc] & _). by rewrite Hc.
Qed.

Lemma schedule_runs fuel through items :
  length (pending items) <= fuel -> Forall keyed items ->
  Forall run_ok (schedule fuel through items)
  /\ concat (run_events <$> schedule fuel through items) ≡ₚ pending items.
Proof.
  revert items; induction fuel as [|fuel IH]; intros items Hf Hk; cbn.
  - destruct (pending items); [|cbn in Hf; lia]. by split.
  - destruct (list_find _ items) as [[first t]|] eqn:Hfind.
    2: { rewrite (pending_nil _ Hfind). by split. }
    destruct (round_spec _ _ _ Hk Hfind) as (Hk' & Hj & Hp & Hlt & Hne).
    set (items' := select_loop _ _ _) in *.
    destruct (IH (settle <$> items')) as [IH1 IH2]; [lia|by apply keyed_settle|]. split.
    + constructor; [|done]. pose proof (chosen_class _ _ Hk' Hj) as Hc.
      destruct (it_class t); cbn; [done|]. split_and!; try done. by apply chosen_independent.
    + rewrite fmap_cons. cbn. rewrite IH2. rewrite <- Hp.
      destruct (it_class t) eqn:Hc; cbn; by eapply chosen_pending.
Qed.

Lemma pending_initial events : pending (initial_item <$> events) = events.
Proof. induction events as [|e l IH]; [done|]. rewrite fmap_cons, pending_cons. cbn. by rewrite IH. Qed.

Lemma keyed_initial events : Forall keyed (initial_item <$> events).
Proof. apply Forall_fmap, Forall_true. done. Qed.

End plan.
