(* ===== verification/PublishFold.v ===== *)
(** * The creation fold as a way to send a batch

    Lemmas about the first pass of [plan_runs]: folding a creation, and the mode
    changes around it, into the first whole-file write of the path. *)

From S2P Require Import Prelude MountTypes WalTypes SendOrder PublishPlan.
From Stdlib Require Import ZArith Lia.

Section fold.
Context {P : Platform}.

Definition wire (slots : list Slot) : list MountEvent := omap publishable_of slots.

Lemma wire_cons s slots : wire (s :: slots) = option_list (publishable_of s) ++ wire slots.
Proof. unfold wire. cbn. by destruct (publishable_of s). Qed.

Lemma wire_some s x slots : publishable_of s = Some x -> wire (s :: slots) = x :: wire slots.
Proof. intros E. by rewrite wire_cons, E. Qed.

Lemma wire_app l k : wire (l ++ k) = wire l ++ wire k.
Proof. apply omap_app. Qed.

(** ** Slots *)

(** A planned event is the event, or the write with the precondition installed. *)
Definition slot_ok (s : Slot) : Prop :=
  sl_planned s = sl_event s
  \/ exists path m f h m', mutation (sl_event s) = ReplaceFile path m f h
      /\ sl_planned s = set_mutation (ReplaceFile path m' f (Some ABSENT_PRECONDITION)) (sl_event s).

Definition untouched (s : Slot) : Prop := sl_planned s = sl_event s /\ sl_folded s = false.

Lemma set_mutation_twice m m' e : set_mutation m (set_mutation m' e) = set_mutation m e.
Proof. by destruct e. Qed.

Lemma slot_keys s : slot_ok s -> event_dependency_keys (sl_planned s) = event_dependency_keys (sl_event s).
Proof.
  intros [->|(path & m & f & h & m' & E & ->)]; [done|].
  rewrite event_keys_set_mutation. unfold event_dependency_keys. by rewrite E.
Qed.

Lemma slot_local s : slot_ok s -> is_local_only (mutation (sl_planned s)) = is_local_only (mutation (sl_event s)).
Proof.
  intros [->|(path & m & f & h & m' & E & ->)]; [done|]. by rewrite mutation_set_mutation, E.
Qed.

Lemma set_mode_of_Some path e m : set_mode_of path e = Some m <-> mutation e = SetMode path m.
Proof.
  unfold set_mode_of. destruct (mutation e); try (split; congruence).
  destruct (String.eqb_spec path0 path) as [->|]; split; congruence.
Qed.

(** Mutations of the single path that the fold of its creation involves. *)
Definition involves (path : string) (m : MountMutation) : Prop :=
  (exists mode, m = SetMode path mode) \/ (exists mode f h, m = ReplaceFile path mode f h).

Definition local_path (path : string) : bool := is_local_only (SetMode path 0).

Lemma involves_local path m : involves path m -> is_local_only m = local_path path.
Proof. intros [[? ->]|(? & ? & ? & ->)]; reflexivity. Qed.

Lemma create_local path m : is_local_only (CreateFile path m) = local_path path.
Proof. reflexivity. Qed.

Lemma create_keys path m m' : dependency_keys (CreateFile path m) = dependency_keys (CreateFile path m').
Proof. reflexivity. Qed.

Lemma write_keys path m m' f h : dependency_keys (ReplaceFile path m f h) = dependency_keys (CreateFile path m').
Proof. reflexivity. Qed.

Lemma create_conflicts path m m' :
  dependency_sets_conflict (dependency_keys (CreateFile path m)) (dependency_keys (CreateFile path m')) = true.
Proof.
  apply conflict_iff. exists path.
  assert (claims (dependency_keys (CreateFile path m)) path) as Hc.
  { apply merge_claims. exists (MkKey path true). split; [|done]. cbn. unfold push_keys. set_solver. }
  left. split; [done|]. destruct Hc as (k & Hk & Hp & _). by exists k.
Qed.

(** ** What the fold changes *)

Definition changed (path : string) (t t' : Slot) : Prop :=
  t' = t \/ (sl_event t' = sl_event t /\ involves path (mutation (sl_event t))).

Definition creates_only_local (path : string) (t : Slot) : Prop :=
  forall m, mutation (sl_event t) = CreateFile path m -> local_path path = true.

Lemma split_at_write_spec path rest between target after :
  split_at_write path rest = Some (between, target, after) ->
  rest = between ++ target :: after
  /\ exists m f h, mutation (sl_event target) = ReplaceFile path m f h.
Proof.
  revert between; induction rest as [|s rest IH]; intros between; cbn; [done|].
  destruct (match mutation (sl_event s) with ReplaceFile _ _ _ _ => _ | _ => false end) eqn:E.
  - intros [= <- <- <-]. split; [done|]. destruct (mutation (sl_event s)); try done.
    apply String.eqb_eq in E as ->. eauto.
  - destruct (split_at_write path rest) as [[[b t] a]|] eqn:Hs; [|done]. intros [= <- <- <-].
    destruct (IH b eq_refl) as [-> ?]. done.
Qed.

Lemma fold_condition create write between path m :
  mutation create = CreateFile path m -> creation_folds_into_write create write between = true ->
  (exists m' f h, mutation write = ReplaceFile path m' f h /\ remote_file_id f = None)
  /\ Forall (fun e => is_local_only (mutation e) = true \/ is_Some (set_mode_of path e)
                      \/ dependency_sets_conflict (event_dependency_keys create) (event_dependency_keys e) = false)
       between.
Proof.
  intros Hc. unfold creation_folds_into_write. rewrite Hc. destruct (mutation write) eqn:Hw; try done.
  destruct (String.eqb_spec path path0) as [<-|]; [|done]. cbn [negb orb].
  destruct (_ <=? _)%Z; [done|]. case_bool_decide as Hid; [done|].
  intros Hb. split.
  - do 3 eexists. split; [done|]. destruct (remote_file_id expected_file_id) eqn:E; [|done].
    destruct Hid. by eexists.
  - apply negb_true_iff in Hb. apply List.Forall_forall. intros e He.
    rewrite <- not_true_iff_false, existsb_exists in Hb.
    destruct (is_local_only (mutation e)) eqn:El; [by left|right].
    destruct (decide (is_Some (set_mode_of path e))) as [|Hn]; [by left|right].
    apply not_true_iff_false. intros Hcf. apply Hb. exists e. split; [done|].
    by rewrite El, bool_decide_false.
Qed.

Lemma absorb_between_changed path mode slots m slots' :
  absorb_between path mode slots = (m, slots') -> Forall2 (changed path) slots slots'.
Proof.
  revert mode slots'; induction slots as [|s slots IH]; intros mode slots'; cbn; [by intros [= <- <-]|].
  destruct (set_mode_of path (sl_event s)) as [m1|] eqn:E;
    destruct (absorb_between path _ slots) as [m2 l2] eqn:E2; intros [= <- <-];
    (constructor; [|by eapply IH]).
  - right. split; [done|]. left. exists m1. by apply set_mode_of_Some.
  - by left.
Qed.

(** The absorption stops at a creation of the path. *)
Lemma absorb_after_changed path keys cm mode slots m slots' :
  keys = dependency_keys (CreateFile path cm) -> absorb_after path keys mode slots = (m, slots') ->
  exists pre pre' tail, slots = pre ++ tail /\ slots' = pre' ++ tail
    /\ Forall2 (changed path) pre pre' /\ Forall (creates_only_local path) pre.
Proof.
  intros Hk. revert mode slots'; induction slots as [|s slots IH]; intros mode slots'; cbn.
  { intros [= <- <-]. by exists [], [], []. }
  destruct (set_mode_of path (sl_event s)) as [m1|] eqn:E.
  { destruct (absorb_after path keys m1 slots) as [m2 l2] eqn:E2. intros [= <- <-].
    apply set_mode_of_Some in E.
    destruct (IH _ _ E2) as (pre & pre' & tail & -> & -> & H1 & H2). exists (s :: pre), (fold_slot s :: pre'), tail.
    split_and!; try done; constructor; try done.
    - right. split; [done|]. left. eauto.
    - intros m'. congruence. }
  destruct (is_local_only (mutation (sl_event s))) eqn:El;
    [|destruct (dependency_sets_conflict keys (event_dependency_keys (sl_event s))) eqn:Ec].
  2: { intros [= <- <-]. by exists [], [], (s :: slots). }
  all: destruct (absorb_after path keys mode slots) as [m2 l2] eqn:E2; intros [= <- <-];
    destruct (IH _ _ E2) as (pre & pre' & tail & -> & -> & H1 & H2); exists (s :: pre), (s :: pre'), tail;
    split_and!; try done; constructor; try done; try (by left); intros m' Hm.
  - by rewrite <- (create_local path m'), <- Hm.
  - unfold event_dependency_keys in Ec. by rewrite Hk, Hm, create_conflicts in Ec.
Qed.

Lemma demand_absent_changed path m t :
  (exists m f h, mutation (sl_event t) = ReplaceFile path m f h) -> changed path t (demand_absent m t).
Proof.
  intros Hm. right. split; [|by right]. unfold demand_absent. by destruct (mutation (sl_planned t)).
Qed.

Lemma fold_creation_shape s rest s' rest' :
  fold_creation s rest = (s', rest') ->
  exists path mid mid' tail, rest = mid ++ tail /\ rest' = mid' ++ tail
    /\ Forall2 (changed path) mid mid' /\ Forall (creates_only_local path) mid.
Proof.
  unfold fold_creation. destruct (mutation (sl_event s)) eqn:Hm;
    try (intros [= <- <-]; by exists EmptyString, [], [], rest).
  destruct (split_at_write path rest) as [[[between target] after]|] eqn:Hs;
    [|intros [= <- <-]; by exists EmptyString, [], [], rest].
  destruct (creation_folds_into_write _ _ _) eqn:Hc; [|intros [= <- <-]; by exists EmptyString, [], [], rest].
  destruct (absorb_between path mode between) as [m1 b'] eqn:Eb.
  destruct (absorb_after path _ m1 after) as [m2 a'] eqn:Ea. intros [= <- <-].
  destruct (split_at_write_spec _ _ _ _ _ Hs) as (-> & Hw).
  destruct (fold_condition _ _ _ _ _ Hm Hc) as [_ Hbt].
  destruct (absorb_after_changed path (event_dependency_keys (sl_event s)) mode m1 after m2 a') as (pre & pre' & tail & -> & -> & H1 & H2);
    [unfold event_dependency_keys; by rewrite Hm|done|].
  exists path, (between ++ target :: pre), (b' ++ demand_absent m2 target :: pre'), tail.
  split_and!.
  - by rewrite <- app_assoc.
  - by rewrite <- app_assoc.
  - apply Forall2_app; [by eapply absorb_between_changed|]. constructor; [by apply demand_absent_changed|done].
  - apply Forall_app. split; [|constructor; [|done]].
    + rewrite Forall_fmap in Hbt. eapply Forall_impl; [exact Hbt|]. cbn. intros t Ht m' Hm'.
      destruct Ht as [Ht|[[m3 Ht]|Ht]].
      * by rewrite <- (create_local path m'), <- Hm'.
      * apply set_mode_of_Some in Ht. congruence.
      * unfold event_dependency_keys in Ht. by rewrite Hm, Hm', create_conflicts in Ht.
    + intros m'. destruct Hw as (? & ? & ? & ->). done.
Qed.

(** ** Clean slots *)

(** What the fold of a creation still to come will touch is untouched. *)
Definition clean (slots : list Slot) : Prop :=
  forall before s after path m, slots = before ++ s :: after ->
    mutation (sl_event s) = CreateFile path m -> local_path path = false ->
    untouched s /\ forall t, t ∈ after -> involves path (mutation (sl_event t)) -> untouched t.

Lemma clean_suffix l k : clean (l ++ k) -> clean k.
Proof. intros Hc before s after path m ->. apply (Hc (l ++ before)). by rewrite app_assoc. Qed.

Lemma involves_same path path' m : involves path m -> involves path' m -> path = path'.
Proof. intros [[? ->]|(? & ? & ? & ->)] [[? ?]|(? & ? & ? & ?)]; congruence. Qed.

Lemma changed_create path t t' path' m :
  changed path t t' -> mutation (sl_event t') = CreateFile path' m -> t' = t.
Proof.
  intros [->|[He Hi]] Hm; [done|]. rewrite He in Hm. rewrite Hm in Hi.
  by destruct Hi as [[? ?]|(? & ? & ? & ?)].
Qed.

Lemma clean_changed path mid mid' tail :
  clean (mid ++ tail) -> Forall2 (changed path) mid mid' -> Forall (creates_only_local path) mid ->
  clean (mid' ++ tail).
Proof.
  intros Hc Hch Hloc before s after p m E Hm Hl.
  apply app_eq_inv in E as [(k & -> & E)|(k & -> & E)].
  - (* in the tail, or at its head *)
    destruct k as [|s0 k]; cbn in E.
    + rewrite app_nil_r in *. apply clean_suffix in Hc. by apply (Hc [] s after p m).
    + injection E as <- ->. apply Forall2_app_inv_r in Hch as (l1 & l2 & Hl1 & Hl2 & ->).
      apply Forall2_cons_inv_r in Hl2 as (s1 & l3 & Hs1 & Hl3 & ->).
      pose proof (changed_create _ _ _ _ _ Hs1 Hm) as <-.
      apply Forall_app in Hloc as [_ Hloc]. apply Forall_cons in Hloc as [Hloc _].
      assert (p <> path) as Hne by (intros ->; specialize (Hloc _ Hm); congruence).
      rewrite <- app_assoc in Hc. destruct (Hc l1 s (l3 ++ tail) p m eq_refl Hm Hl) as [Hu Hrest]. split; [done|].
      intros t Ht Hi. apply elem_of_app in Ht as [Ht|Ht]; [|apply Hrest; [set_solver|done]].
      apply list_elem_of_lookup in Ht as [j Hj]. destruct (Forall2_lookup_r _ _ _ _ _ Hl3 Hj) as (t0 & Hj0 & Hch).
      destruct Hch as [->|[He Hi']].
      * apply Hrest; [|done]. apply elem_of_app. left. by apply list_elem_of_lookup_2 in Hj0.
      * rewrite He in Hi. destruct Hne. by eapply involves_same.
  - apply clean_suffix in Hc. by apply (Hc k s after p m).
Qed.

Lemma clean_fold s rest s' rest' : fold_creation s rest = (s', rest') -> clean (s :: rest) -> clean rest'.
Proof.
  intros Hf Hc. destruct (fold_creation_shape _ _ _ _ Hf) as (path & mid & mid' & tail & -> & -> & H1 & H2).
  eapply clean_changed; [|done|done]. by apply (clean_suffix [s]).
Qed.

(** ** Slots stay well formed *)

Lemma slot_ok_fold t : slot_ok (fold_slot t) <-> slot_ok t.
Proof. done. Qed.

Lemma slot_ok_demand m t : slot_ok t -> slot_ok (demand_absent m t).
Proof.
  intros Hs. unfold demand_absent. destruct (mutation (sl_planned t)) eqn:E; try done. right. cbn.
  destruct Hs as [Hs|(p & m0 & f & h & m' & Hm & Hs)].
  - rewrite Hs in E |- *. eauto 10.
  - rewrite Hs, mutation_set_mutation in E. injection E as <- <- <- <-.
    exists p, m0, f, h, m. split; [done|]. by rewrite Hs, set_mutation_twice.
Qed.

Lemma absorb_between_ok path mode slots :
  Forall slot_ok slots -> Forall slot_ok (snd (absorb_between path mode slots)).
Proof.
  revert mode; induction slots as [|s slots IH]; intros mode Hf; [done|]. apply Forall_cons in Hf as [? ?]. cbn.
  destruct (set_mode_of path (sl_event s)) as [m|].
  - specialize (IH m). destruct (absorb_between path m slots). cbn in *. constructor; auto.
  - specialize (IH mode). destruct (absorb_between path mode slots). cbn in *. constructor; auto.
Qed.

Lemma absorb_after_ok path keys mode slots :
  Forall slot_ok slots -> Forall slot_ok (snd (absorb_after path keys mode slots)).
Proof.
  revert mode; induction slots as [|s slots IH]; intros mode Hf; [done|].
  pose proof Hf as [? ?]%Forall_cons. cbn.
  destruct (set_mode_of path (sl_event s)) as [m|].
  { specialize (IH m). destruct (absorb_after path keys m slots). cbn in *. constructor; auto. }
  specialize (IH mode). destruct (absorb_after path keys mode slots). cbn in *.
  destruct (is_local_only _); [constructor; auto|]. destruct (dependency_sets_conflict _ _); [done|].
  constructor; auto.
Qed.

Lemma fold_creation_ok s rest s' rest' :
  fold_creation s rest = (s', rest') -> Forall slot_ok (s :: rest) -> Forall slot_ok (s' :: rest').
Proof.
  unfold fold_creation. intros Hf [Hs Hr]%Forall_cons.
  destruct (mutation (sl_event s)); try (injection Hf as <- <-; by constructor).
  destruct (split_at_write path rest) as [[[between target] after]|] eqn:Hw; [|injection Hf as <- <-; by constructor].
  destruct (creation_folds_into_write _ _ _); [|injection Hf as <- <-; by constructor].
  destruct (split_at_write_spec _ _ _ _ _ Hw) as (-> & _). apply Forall_app in Hr as [Hb [Ht Ha]%Forall_cons].
  pose proof (absorb_between_ok path mode between Hb) as Hb'. destruct (absorb_between path mode between) as [m1 b'].
  pose proof (absorb_after_ok path (event_dependency_keys (sl_event s)) m1 after Ha) as Ha'.
  destruct (absorb_after path _ m1 after) as [m2 a']. injection Hf as <- <-.
  constructor; [done|]. apply Forall_app. split; [done|]. constructor; [by apply slot_ok_demand|done].
Qed.

(** ** Folding a local path changes nothing that is sent *)

Lemma publishable_local t : slot_ok t -> is_local_only (mutation (sl_event t)) = true -> publishable_of t = None.
Proof. intros Hs Hl. unfold publishable_of. rewrite slot_local, Hl by done. by rewrite andb_false_r. Qed.

Lemma wire_changed_local path l l' :
  local_path path = true -> Forall2 (changed path) l l' -> Forall slot_ok l -> Forall slot_ok l' -> wire l' = wire l.
Proof.
  intros Hl. induction 1 as [|t t' l l' Ht H IH]; intros Hs Hs'; [done|].
  apply Forall_cons in Hs as [? ?], Hs' as [? ?]. rewrite !wire_cons, IH by done. f_equal.
  destruct Ht as [->|[He Hi]]; [done|]. pose proof (involves_local _ _ Hi) as Hil.
  rewrite !publishable_local; try done; congruence.
Qed.

(** ** Folding a published path *)

Section published.
Context (path : string) (Hpath : local_path path = false).

(** The swaps of the creation, or of the write that replaces it, with an event
    the fold leaves alone. *)
Lemma passes_keys e x :
  event_dependency_keys e = dependency_keys (CreateFile path 0) ->
  passes (dependency_keys (CreateFile path 0)) x -> exchangeable e x.
Proof. intros He [Hx|Hx]; unfold exchangeable, independent; rewrite ?He; auto. Qed.

(** An event passes an exchangeable one while the rest changes behind it. *)
Lemma sends_around e e' x l l' :
  exchangeable e x -> exchangeable e' x -> sends (e :: l) (e' :: l') -> sends (e :: x :: l) (e' :: x :: l').
Proof.
  intros H H' Hs. rewrite (sends_swap e x) by done. rewrite Hs. by apply sends_swap, exchangeable_sym.
Qed.

(** Mode changes before the write, pulled into the creation. *)
Lemma absorb_between_sends slots mode create m' slots' :
  mutation create = CreateFile path mode -> Forall slot_ok slots ->
  Forall (fun t => involves path (mutation (sl_event t)) -> untouched t) slots ->
  Forall (fun e => is_local_only (mutation e) = true \/ is_Some (set_mode_of path e)
    \/ dependency_sets_conflict (dependency_keys (CreateFile path 0)) (event_dependency_keys e) = false)
    (sl_event <$> slots) ->
  absorb_between path mode slots = (m', slots') ->
  sends (create :: wire slots) (set_mutation (CreateFile path m') create :: wire slots')
  /\ Forall (passes (dependency_keys (CreateFile path 0))) (wire slots').
Proof.
  revert mode create slots'; induction slots as [|t slots IH]; intros mode create slots' Hm Hok Hun Hf.
  { intros [= <- <-]. split; [|done]. by rewrite <- Hm; destruct create. }
  apply Forall_cons in Hok as [Hto Hok], Hun as [Htu Hun]. rewrite fmap_cons in Hf.
  apply Forall_cons in Hf as [Htf Hf]. cbn [absorb_between].
  destruct (set_mode_of path (sl_event t)) as [m1|] eqn:E.
  - destruct (absorb_between path m1 slots) as [m2 l2] eqn:E2. intros [= <- <-].
    apply set_mode_of_Some in E. destruct Htu as [Hp Hfo]; [left; eauto|].
    assert (publishable_of t = Some (sl_event t)) as Ht.
    { unfold publishable_of. rewrite Hfo, Hp, E. by rewrite (Hpath : is_local_only (SetMode path m1) = false). }
    rewrite !wire_cons, Ht. cbn [option_list]. change (publishable_of (fold_slot t)) with (@None MountEvent). cbn.
    destruct (IH m1 (set_mutation (CreateFile path m1) create) l2) as [IH1 IH2]; auto using mutation_set_mutation.
    rewrite set_mutation_twice in IH1. split; [|done]. rewrite <- IH1.
    apply (sends_head [create; sl_event t] [_] (wire slots)). by eapply rw_create_mode.
  - destruct (absorb_between path mode slots) as [m2 l2] eqn:E2. intros [= <- <-]. rewrite !wire_cons.
    destruct (IH mode create l2) as [IH1 IH2]; auto.
    destruct (publishable_of t) as [x|] eqn:Ht; [|done].
    assert (passes (dependency_keys (CreateFile path 0)) x) as Hx.
    { unfold publishable_of in Ht. destruct (_ && _); [|done]. injection Ht as <-. unfold passes.
      rewrite slot_local, slot_keys by done. destruct Htf as [?|[[? ?]|?]]; [by left|congruence|by right]. }
    cbn. split; [|by constructor]. apply sends_around; [..|done]; apply passes_keys; try done.
    + unfold event_dependency_keys. by rewrite Hm.
    + by rewrite event_keys_set_mutation.
Qed.

(** Mode changes after the write, pulled into it. *)
Lemma absorb_after_sends slots mode write f m' slots' :
  mutation write = ReplaceFile path mode f (Some ABSENT_PRECONDITION) -> Forall slot_ok slots ->
  Forall (fun t => involves path (mutation (sl_event t)) -> untouched t) slots ->
  absorb_after path (dependency_keys (CreateFile path 0)) mode slots = (m', slots') ->
  sends (write :: wire slots)
    (set_mutation (ReplaceFile path m' f (Some ABSENT_PRECONDITION)) write :: wire slots').
Proof.
  revert mode write m' slots'; induction slots as [|t slots IH]; intros mode write m' slots' Hm Hok Hun.
  { intros [= <- <-]. by rewrite <- Hm; destruct write. }
  apply Forall_cons in Hok as [Hto Hok], Hun as [Htu Hun]. cbn [absorb_after].
  destruct (set_mode_of path (sl_event t)) as [m1|] eqn:E.
  { destruct (absorb_after path _ m1 slots) as [m2 l2] eqn:E2. intros [= <- <-].
    apply set_mode_of_Some in E. destruct Htu as [Hp Hfo]; [left; eauto|].
    assert (publishable_of t = Some (sl_event t)) as Ht.
    { unfold publishable_of. rewrite Hfo, Hp, E. by rewrite (Hpath : is_local_only (SetMode path m1) = false). }
    rewrite !wire_cons, Ht. cbn [option_list]. change (publishable_of (fold_slot t)) with (@None MountEvent). cbn.
    etrans; [|rewrite <- (set_mutation_twice _ (ReplaceFile path m1 f (Some ABSENT_PRECONDITION)));
      apply (IH m1 _ m2 l2); auto using mutation_set_mutation].
    apply (sends_head [write; sl_event t] [_] (wire slots)). by eapply rw_absent_mode. }
  assert (forall l2 m2, absorb_after path (dependency_keys (CreateFile path 0)) mode slots = (m2, l2) ->
    passes (dependency_keys (CreateFile path 0)) (sl_event t) ->
    sends (write :: wire (t :: slots))
      (set_mutation (ReplaceFile path m2 f (Some ABSENT_PRECONDITION)) write :: wire (t :: l2))) as Hpass.
  { intros l2 m2 E2 Hp. rewrite !wire_cons. destruct (publishable_of t) as [x|] eqn:Ht; [|by apply (IH mode)].
    assert (passes (dependency_keys (CreateFile path 0)) x) as Hx.
    { unfold publishable_of in Ht. destruct (_ && _); [|done]. injection Ht as <-. unfold passes.
      by rewrite slot_local, slot_keys. }
    cbn. apply sends_around; [..|by apply (IH mode)]; apply passes_keys; try done.
    - unfold event_dependency_keys. by rewrite Hm.
    - by rewrite event_keys_set_mutation. }
  destruct (is_local_only (mutation (sl_event t))) eqn:El;
    [|destruct (dependency_sets_conflict _ (event_dependency_keys (sl_event t))) eqn:Ec].
  - destruct (absorb_after path _ mode slots) as [m2 l2] eqn:E2. intros [= <- <-]. apply Hpass; [done|by left].
  - intros [= <- <-]. by rewrite <- Hm; destruct write.
  - destruct (absorb_after path _ mode slots) as [m2 l2] eqn:E2. intros [= <- <-]. apply Hpass; [done|by right].
Qed.

(** One fold. *)
Lemma fold_sends between target after create mode f h m0 m1 between' m2 after' :
  mutation create = CreateFile path mode ->
  mutation (sl_event target) = ReplaceFile path m0 f h -> unconditioned (sl_event target) ->
  remote_file_id f = None -> Forall slot_ok (between ++ target :: after) ->
  Forall (fun t => involves path (mutation (sl_event t)) -> untouched t) (between ++ target :: after) ->
  Forall (fun e => is_local_only (mutation e) = true \/ is_Some (set_mode_of path e)
    \/ dependency_sets_conflict (dependency_keys (CreateFile path 0)) (event_dependency_keys e) = false)
    (sl_event <$> between) ->
  absorb_between path mode between = (m1, between') ->
  absorb_after path (dependency_keys (CreateFile path 0)) m1 after = (m2, after') ->
  sends (create :: wire (between ++ target :: after)) (wire (between' ++ demand_absent m2 target :: after')).
Proof.
  intros Hc Hw Huc Hid Hok Hun Hf Eb Ea.
  apply Forall_app in Hok as [Hokb [Hokt Hoka]%Forall_cons]. apply Forall_app in Hun as [Hub [Hut Hua]%Forall_cons].
  destruct Hut as [Hp Hfo]; [right; eauto|].
  destruct (absorb_between_sends between mode create m1 between' Hc Hokb Hub Hf Eb) as [H1 H2].
  assert (is_local_only (ReplaceFile path m0 f h) = false) as Hl by exact Hpath.
  set (w m := set_mutation (ReplaceFile path m f (Some ABSENT_PRECONDITION)) (sl_event target)).
  assert (publishable_of target = Some (sl_event target)) as Ht.
  { unfold publishable_of. by rewrite Hfo, Hp, Hw, Hl. }
  assert (publishable_of (demand_absent m2 target) = Some (w m2)) as Ht'.
  { unfold publishable_of, demand_absent. rewrite Hp, Hw. cbn. rewrite Hfo, mutation_set_mutation.
    by rewrite (Hpath : is_local_only (ReplaceFile path m2 f (Some ABSENT_PRECONDITION)) = false). }
  rewrite !wire_app, (wire_some _ _ _ Ht), (wire_some _ _ _ Ht'), app_comm_cons, H1.
  rewrite sends_later.
  2: { apply passes_exchangeable. by rewrite event_keys_set_mutation. }
  rewrite <- app_assoc. apply sends_app; [done|]. trans (w m1 :: wire after).
  - apply (sends_head [_; _] [w m1] (wire after)).
    by eapply (rw_create_write _ (sl_event target) path m1 m0 f h); [apply mutation_set_mutation|..].
  - etrans; [apply (absorb_after_sends after m1 (w m1) f m2 after'); try done; apply mutation_set_mutation|].
    unfold w. by rewrite set_mutation_twice.
Qed.

End published.

Lemma fold_creation_sends s rest s' rest' :
  fold_creation s rest = (s', rest') -> Forall slot_ok (s :: rest) -> clean (s :: rest) ->
  Forall (fun t => unconditioned (sl_event t)) rest ->
  sends (wire (s :: rest)) (wire (s' :: rest')).
Proof.
  intros Hf Hok Hcl Hunc. pose proof (fold_creation_ok _ _ _ _ Hf Hok) as Hok'.
  unfold fold_creation in Hf. destruct (mutation (sl_event s)) eqn:Hm; try (by injection Hf as <- <-).
  destruct (split_at_write path rest) as [[[between target] after]|] eqn:Hs; [|by injection Hf as <- <-].
  destruct (creation_folds_into_write _ _ _) eqn:Hc; [|by injection Hf as <- <-].
  destruct (absorb_between path mode between) as [m1 b'] eqn:Eb.
  destruct (absorb_after path _ m1 after) as [m2 a'] eqn:Ea. injection Hf as <- <-.
  destruct (split_at_write_spec _ _ _ _ _ Hs) as (-> & Hw).
  destruct (fold_condition _ _ _ _ _ Hm Hc) as [(m' & f & h & Hw' & Hid) Hbt].
  assert (event_dependency_keys (sl_event s) = dependency_keys (CreateFile path 0)) as Hkeys.
  { unfold event_dependency_keys. by rewrite Hm. }
  rewrite Hkeys in Hbt, Ea. destruct (local_path path) eqn:Hl.
  - assert (wire (fold_slot s :: b' ++ demand_absent m2 target :: a') = wire (s :: between ++ target :: after)) as ->;
      [|done].
    rewrite !wire_cons. apply Forall_cons in Hok as [Hs0 Hok], Hok' as [Hs0' Hok'].
    rewrite !publishable_local; try done; [|cbn; by rewrite Hm..]. cbn.
    destruct (absorb_after_changed _ _ _ _ _ _ _ (create_keys path 0 0) Ea) as (pre & pre' & tail & -> & -> & H1 & _).
    apply (wire_changed_local path); try done. apply Forall2_app; [by eapply absorb_between_changed|].
    constructor; [by apply demand_absent_changed|]. apply Forall2_app; [done|].
    apply Forall_Forall2_diag, Forall_true. by left.
  - rewrite (wire_cons (fold_slot s)). change (publishable_of (fold_slot s)) with (@None MountEvent).
    destruct (Hcl [] s (between ++ target :: after) path mode eq_refl Hm Hl) as [[Hp Hfo] Hun].
    rewrite (wire_some s (sl_event s)).
    2: { unfold publishable_of. rewrite Hfo, Hp, Hm. by rewrite (Hl : is_local_only (CreateFile path mode) = false). }
    apply Forall_cons in Hok as [_ Hok]. apply Forall_app in Hunc as [_ [Hunc _]%Forall_cons].
    eapply fold_sends; try done. by apply Forall_forall.
Qed.

Lemma fold_creation_events s rest s' rest' :
  fold_creation s rest = (s', rest') -> sl_event <$> rest' = sl_event <$> rest.
Proof.
  intros Hf. destruct (fold_creation_shape _ _ _ _ Hf) as (path & mid & mid' & tail & -> & -> & Hch & _).
  rewrite !fmap_app. apply (f_equal (fun l => l ++ _)). clear Hf. induction Hch as [|t t' l l' Hc _ IH]; [done|]. rewrite !fmap_cons, IH.
  destruct Hc as [->|[-> _]]; done.
Qed.

Lemma creation_pass_sends n slots :
  Forall slot_ok slots -> clean slots -> Forall unconditioned (sl_event <$> slots) ->
  sends (wire slots) (wire (creation_pass n slots)).
Proof.
  revert slots; induction n as [|n IH]; intros slots Hok Hcl Hunc; [done|].
  destruct slots as [|s rest]; [done|]. rewrite fmap_cons in Hunc. apply Forall_cons in Hunc as [_ Hunc]. cbn [creation_pass].
  destruct (fold_creation s rest) as [s' rest'] eqn:Hf.
  rewrite (fold_creation_sends s rest s' rest' Hf Hok Hcl) by (exact (proj1 (Forall_fmap _ _ _) Hunc)).
  pose proof (fold_creation_ok _ _ _ _ Hf Hok) as [_ Hok']%Forall_cons.
  rewrite !wire_cons. apply sends_app; [done|]. apply IH; [done|by eapply clean_fold|].
  by rewrite (fold_creation_events _ _ _ _ Hf).
Qed.

Lemma wire_initial events : sends events (wire (initial_slots events)).
Proof.
  induction events as [|e events IH]; [done|].
  unfold initial_slots. rewrite fmap_cons, wire_cons. fold (initial_slots events). unfold publishable_of. cbn.
  destruct (is_local_only (mutation e)) eqn:E; cbn; [|by apply sends_cons].
  etrans; [by apply sends_drop|exact IH].
Qed.

Lemma publishable_sends events :
  Forall unconditioned events -> sends events (publishable events).
Proof.
  intros Hunc. unfold publishable. fold (wire (creation_pass (length events) (initial_slots events))).
  etrans; [apply wire_initial|]. apply creation_pass_sends.
  - apply Forall_fmap, Forall_true. by left.
  - assert (forall t, t ∈ initial_slots events -> untouched t) as Hu.
    { intros t Ht. apply list_elem_of_fmap in Ht as (e & -> & _). done. }
    intros before s after path m E _ _. rewrite E in Hu. split; [apply Hu; set_solver|]. intros. apply Hu. set_solver.
  - unfold initial_slots. rewrite <- list_fmap_compose. by rewrite list_fmap_id.
Qed.

End fold.
