(* ===== verification/Publication.v ===== *)
(** * Publication end to end

    [plan_runs], built from the two passes of [PublishPlan]; what
    [next_publish_batch] and [plan_runs] do together to the order and the
    contents of the log; and the theorems applied to a log with creations,
    superseded and appended generations, a mode change, a rename and an abort. *)

From S2P Require Import Prelude MountTypes WalTypes WalReplay Wal WalSystem WalCodec WalWitness.
From S2P Require Import SendOrder PublishBatch PublishPlan PublishFold.
From Stdlib Require Import ZArith Lia.

Section publication.
Context {P : Platform}.

(** ** The plan *)

Fixpoint check_increasing (events : list MountEvent) : MResult unit :=
  match events with
  | a :: (b :: _) as rest =>
      _ ← guard_err (sequence b <=? sequence a)%Z (BatchOutOfOrder (sequence a) (sequence b));
      check_increasing rest
  | _ => Ok tt
  end.

Definition plan_runs (batch : PublishBatch) : MResult (list PublishRun) :=
  let events := batch_events batch in
  let through := batch_through_sequence batch in
  _ ← check_increasing events;
  _ ← match last events with
      | Some e => guard_err (through <? sequence e)%Z (BatchBehindItsEvents through (sequence e))
      | None => Ok tt
      end;
  let pub := publishable events in
  if bool_decide (pub = [])
  then Ok (if (0 <? through)%Z then [Cursor through] else [])
  else Ok (schedule (length pub) through (initial_item <$> pub)).

Lemma check_increasing_Ok events :
  StronglySorted Z.lt (sequence <$> events) -> check_increasing events = Ok tt.
Proof.
  induction events as [|a [|b rest] IH]; intros Hs; [done..|].
  rewrite fmap_cons in Hs. apply StronglySorted_inv in Hs as [Hs Hf]. rewrite fmap_cons in Hf.
  apply Forall_cons in Hf as [Hab _]. cbn [check_increasing].
  rewrite (proj2 (Z.leb_gt _ _)) by lia. cbn [guard_err mbind result_bind]. by apply IH.
Qed.

Lemma plan_runs_cases batch runs :
  plan_runs batch = Ok runs ->
  let pub := publishable (batch_events batch) in
  (pub = [] /\ runs = if (0 <? batch_through_sequence batch)%Z then [Cursor (batch_through_sequence batch)] else [])
  \/ (pub <> [] /\ runs = schedule (length pub) (batch_through_sequence batch) (initial_item <$> pub)).
Proof.
  unfold plan_runs. intros H. inv_ok H. case_bool_decide; simplify_eq; auto.
Qed.

Lemma plan_sends batch runs sent :
  plan_runs batch = Ok runs -> Forall unconditioned (batch_events batch) ->
  delivers runs sent -> sends (batch_events batch) sent.
Proof.
  intros Hp Hu He. rewrite (publishable_sends _ Hu).
  destruct (plan_runs_cases _ _ Hp) as [[Hn ->]|[_ ->]].
  - rewrite Hn. destruct (0 <? _)%Z; inversion He as [| | |? ? ? Hrest]; subst; [by inversion Hrest|done].
  - apply schedule_sends in He; rewrite ?pending_initial in *; [done|lia|apply keyed_initial].
Qed.


(** A plan is complete and well formed: every event to be sent is in exactly
    one run, no run is empty, a namespace run holds only namespace mutations and
    a content run only content generations that are pairwise independent, so its
    uploads may run concurrently. *)
Theorem plan_runs_partition batch runs :
  plan_runs batch = Ok runs ->
  concat (run_events <$> runs) ≡ₚ publishable (batch_events batch)
  /\ (publishable (batch_events batch) <> [] -> Forall run_ok runs).
Proof.
  intros Hp. destruct (plan_runs_cases _ _ Hp) as [[Hn ->]|[Hn ->]].
  - rewrite Hn. split; [by destruct (0 <? _)%Z|done].
  - destruct (schedule_runs (length (publishable (batch_events batch))) (batch_through_sequence batch)
      (initial_item <$> publishable (batch_events batch))) as [H1 H2].
    + by rewrite pending_initial.
    + apply keyed_initial.
    + rewrite pending_initial in H2. auto.
Qed.

Context {C : RecordCodec} {CL : RecordCodecLaws C}.

(** C2: publication end to end. Whatever the mount log went through, the batch
    it offers is one the planner accepts, and in whatever order the uploads of
    its content runs land, what reaches the gateway comes from the committed
    mutations after the cursor, up to the cursor the batch will acknowledge, by
    the rules of [sends]: conflicting mutations keep the order the guest made
    them in, and nothing is left out but what a fold carries on. In particular it
    leaves the tree the mutations themselves leave, one by one, when no file has
    two names and writes are of files that exist. *)
Theorem publication_keeps_log epoch w max_events max_bytes threshold batch :
  is_empty_str epoch = false -> reachable epoch w ->
  next_publish_batch (w_index w) max_events max_bytes threshold = Ok (Some batch) ->
  let prefix := committed_events (w_index w) (acknowledged_sequence (w_index w) + 1)
                  (batch_through_sequence batch) in
  Forall unconditioned prefix ->
  exists runs, plan_runs batch = Ok runs
    /\ forall sent, delivers runs sent ->
         sends prefix sent
         /\ forall t, Forall (fun e => links (mutation e) = false) prefix -> grounded t prefix ->
              same_tree (apply_all t prefix) (apply_all t sent).
Proof.
  intros Hne Hr Hb prefix Hu. pose proof (reachable_batchable _ _ Hne Hr) as Hi.
  destruct (batch_accepted _ _ _ _ _ Hi Hb) as (Hsort & Hle & Heff). destruct (Heff Hu) as [Hpre Hub].
  assert (exists runs, plan_runs batch = Ok runs) as [runs Hruns].
  { unfold plan_runs. rewrite check_increasing_Ok by done. cbn [mbind result_bind].
    destruct (last (batch_events batch)) as [e|] eqn:E.
    - apply last_Some_elem_of in E. rewrite Forall_forall in Hle. specialize (Hle _ E). cbn in Hle.
      rewrite (proj2 (Z.ltb_ge (batch_through_sequence batch) (sequence e))) by lia. cbn. case_bool_decide; eauto.
    - cbn. case_bool_decide; eauto. }
  exists runs. split; [done|]. intros sent Hd.
  assert (sends prefix sent) as Hs by (etrans; [exact Hpre|by eapply plan_sends]).
  split; [done|]. intros t _. by apply sends_tree.
Qed.

End publication.

(** ** The theorems at a concrete log *)

#[local] Existing Instance linux.

Definition sealed (hash : string) (len : Z) : PayloadSource :=
  Some (Ok (MkPayloadRef (DedicatedFile hash) len "sha256" hash)).

Definition edited : Wal :=
  script start (calmly
    [OpPrepare (CreateFile "a" 420) None [];
     OpPrepare (ReplaceFile "a" 416 None None) (sealed "h1" 3) [];
     OpPrepare (SetMode "a" 384) None [];
     OpPrepare (ReplaceFile "a" 384 None None) (sealed "h2" 3) [];
     OpPrepare (AppendFile "a" 384 3 "h2" 5 "h3") (sealed "h3" 2) [];
     OpPrepare (RemoveFile "c" None) None [];
     OpPrepare (ReplaceFile "d" 420 None None) (sealed "h4" 4) [];
     OpPrepare (CreateFile "b" 420) None [];
     OpPrepare (ReplaceFile "d" 420 None None) (sealed "h5" 4) [];
     OpPrepare (Rename "e" "f" 0) None [];
     OpPrepare (RemoveFile "b" None) None []]).
Definition busy : Wal :=
  script edited (calmly
    (map (fun seq => OpCommit (token_of edited seq) None) [1; 2; 3; 4; 5; 7; 8; 9; 10]%Z
     ++ [OpAbort (token_of edited 6) "enoent"])).

Lemma busy_reachable : reachable epoch0 busy.
Proof.
  apply script_reachable; [|vm_compute; reflexivity].
  apply script_reachable; [apply start_reachable|vm_compute; reflexivity].
Qed.

(** A file, and a directory with a file in it. *)
Definition tree0 : Tree := fun q =>
  if String.eqb q "d" then Some (NodeFile 420 "h0")
  else if String.eqb q "e" then Some (NodeDirectory 493)
  else if String.eqb q "e/x" then Some (NodeFile 420 "hx")
  else None.

Definition offered : PublishBatch :=
  match next_publish_batch (w_index busy) 100 1000 64 with
  | Ok (Some batch) => batch
  | _ => MkBatch [] 0
  end.

Lemma busy_offers : next_publish_batch (w_index busy) 100 1000 64 = Ok (Some offered).
Proof. vm_compute. reflexivity. Qed.

Definition busy_prefix : list MountEvent :=
  Eval vm_compute in committed_events (w_index busy) 1 10.

Lemma busy_prefix_eq :
  committed_events (w_index busy) (acknowledged_sequence (w_index busy) + 1) (batch_through_sequence offered)
  = busy_prefix.
Proof. vm_compute. reflexivity. Qed.

Lemma busy_grounded : grounded tree0 busy_prefix.
Proof.
  unfold busy_prefix. repeat (apply grounded_cons; [try done; intros _ _ path [= <-]; vm_compute; by repeat eexists|]). done.
Qed.

Lemma busy_unconditioned : Forall unconditioned busy_prefix.
Proof. repeat constructor; intros path m f h [=]; subst; discriminate. Qed.


Lemma publish_batch_progress_witness :
  (acknowledged_sequence (w_index busy) < batch_through_sequence offered < next_sequence (w_index busy))%Z
  /\ (forall s, (acknowledged_sequence (w_index busy) < s <= batch_through_sequence offered)%Z ->
       s ∈ committed (w_index busy) ∪ aborted (w_index busy))
  /\ StronglySorted Z.lt (sequence <$> batch_events offered)
  /\ Forall (fun e => (acknowledged_sequence (w_index busy) < sequence e <= batch_through_sequence offered)%Z)
       (batch_events offered).
Proof.
  pose proof (publish_batch_progress epoch0 busy 100 1000 64 eq_refl busy_reachable eq_refl eq_refl) as H.
  cbv zeta in H. rewrite busy_offers in H. exact H.
Defined.

Lemma busy_sized s r : prepared (w_index busy) !! s = Some r -> sized (pr_event r).
Proof.
  revert s r. apply (map_Forall_to_list (fun _ r => sized (pr_event r))).
  vm_compute. repeat constructor; discriminate.
Qed.

Lemma publish_batch_limits_witness :
  (Z.of_nat (length (batch_events offered)) <= 100)%Z
  /\ (request_bytes 64 (batch_events offered) <= 1000 \/ exists e, batch_events offered = [e])%Z.
Proof.
  apply (publish_batch_limits epoch0 busy 100 1000 64 offered).
  - reflexivity.
  - apply busy_reachable.
  - split; [reflexivity|discriminate].
  - split; [discriminate|reflexivity].
  - discriminate.
  - apply busy_sized.
  - apply busy_offers.
Defined.

Definition planned_runs : list PublishRun :=
  match plan_runs offered with Ok runs => runs | Err _ => [] end.

Lemma busy_plan : plan_runs offered = Ok planned_runs.
Proof. vm_compute. reflexivity. Qed.

(** Uploads that land in the opposite order. *)
Definition opposite (runs : list PublishRun) : list MountEvent :=
  concat ((fun r => match r with Content events _ => reverse events | _ => run_events r end) <$> runs).

Lemma delivers_opposite (runs : list PublishRun) : delivers runs (opposite runs).
Proof.
  induction runs as [|r runs IH]; [constructor|]. destruct r; cbn; constructor; try done. apply reverse_Permutation.
Qed.

Definition offered_events : list MountEvent := Eval vm_compute in batch_events offered.

Lemma offered_unconditioned : Forall unconditioned (batch_events offered).
Proof.
  assert (batch_events offered = offered_events) as -> by (vm_compute; reflexivity).
  repeat constructor; intros path m f h [=]; subst; discriminate.
Qed.


(** The keys are by path: two names of one file do not conflict, and the writes
    through them are uploads of one content run, in either order. *)
Lemma writes_through_two_names_are_unordered :
  let write seq path hash :=
    MkEvent 3 "018f" seq "018f" (ReplaceFile path 420 None None) (Some (MkPayloadRef (DedicatedFile hash) 3 "sha256" hash))
      [] None [] in
  let first := write 5%Z "a" "h1" in
  let second := write 6%Z "b" "h2" in
  plan_runs (MkBatch [first; second] 6) = Ok [Content [first; second] 6]
  /\ delivers [Content [first; second] 6] [first; second] /\ delivers [Content [first; second] 6] [second; first].
Proof.
  cbv zeta. split; [vm_compute; reflexivity|]. split.
  - by apply (deliver_content _ [_; _] 6 [] []); [|constructor].
  - apply (deliver_content _ [_; _] 6 [] []); [by constructor|constructor].
Qed.

Lemma plan_runs_partition_witness :
  concat (run_events <$> planned_runs) ≡ₚ publishable (batch_events offered)
  /\ (publishable (batch_events offered) <> [] -> Forall run_ok planned_runs).
Proof. apply (plan_runs_partition offered planned_runs). apply busy_plan. Defined.

Lemma Ok_inj {E A} (a b : A) : @Ok E A a = Ok b -> a = b.
Proof. congruence. Qed.

Lemma publication_keeps_log_witness :
  same_tree (apply_all tree0 busy_prefix) (apply_all tree0 (opposite planned_runs))
  /\ apply_all tree0 (opposite planned_runs) "a" = Some (NodeFile 384 "h3")
  /\ apply_all tree0 (opposite planned_runs) "d" = Some (NodeFile 420 "h5")
  /\ apply_all tree0 (opposite planned_runs) "f/x" = Some (NodeFile 420 "hx").
Proof.
  split; [|split_and!; vm_compute; reflexivity].
  destruct (publication_keeps_log epoch0 busy 100 1000 64 offered eq_refl busy_reachable busy_offers)
    as (runs & Hruns & H); rewrite busy_prefix_eq in *; [apply busy_unconditioned|].
  rewrite <- (Ok_inj _ _ (eq_trans (eq_sym busy_plan) Hruns)) in H.
  apply (H _ (delivers_opposite _)); [|apply busy_grounded]. repeat constructor.
Defined.
