(* ===== verification/PathLocks.v ===== *)
(** * The keyed lock table of the mount

    [PathLocks] of [local_view/mount.rs]: shared and exclusive locks on
    dependency keys, a table of counted entries under one mutex and a condition
    variable. Threads are explicit: each critical section of the table is one
    step, a parked thread resumes only after a [notify_all] (or spuriously), and
    the notification is a step of its own after the mutex is released. *)

From S2P Require Import Prelude MountTypes.
From Stdlib Require Import ZArith Lia.

(** ** The table *)

Record PathLockEntry := MkLockEntry {
  le_shared : nat;
  le_exclusive : bool;
  le_waiters : nat;
}.

Definition idle (e : PathLockEntry) : bool :=
  (le_shared e =? 0) && negb (le_exclusive e) && (le_waiters e =? 0).

Abbreviation LockTable := (gmap string PathLockEntry).

Definition or_default (t : LockTable) (p : string) : PathLockEntry :=
  default (MkLockEntry 0 false 0) (t !! p).

Definition available (key : DependencyKey) (e : PathLockEntry) : bool :=
  if exclusive key then (le_shared e =? 0) && negb (le_exclusive e) else negb (le_exclusive e).

Definition take_lock (key : DependencyKey) (e : PathLockEntry) : PathLockEntry :=
  if exclusive key then MkLockEntry (le_shared e) true (le_waiters e)
  else MkLockEntry (S (le_shared e)) (le_exclusive e) (le_waiters e).

(** One turn of the loop of [acquire_key]: the lock is taken, or the thread is
    counted as a waiter and parks. *)
Definition acquire_turn (key : DependencyKey) (t : LockTable) : bool * LockTable :=
  let e := or_default t (key_path key) in
  if available key e then (true, <[key_path key := take_lock key e]> t)
  else (false, <[key_path key := MkLockEntry (le_shared e) (le_exclusive e) (S (le_waiters e))]> t).

(** Store an entry, or drop it when it is idle. *)
Definition store (p : string) (e : PathLockEntry) (t : LockTable) : LockTable :=
  if idle e then delete p t else <[p := e]> t.

(** What a woken thread does before its next turn. *)
Definition after_wait (key : DependencyKey) (t : LockTable) : LockTable :=
  match t !! key_path key with
  | Some e => store (key_path key) (MkLockEntry (le_shared e) (le_exclusive e) (le_waiters e - 1)) t
  | None => t
  end.

Definition release_key (key : DependencyKey) (t : LockTable) : LockTable :=
  match t !! key_path key with
  | Some e =>
      store (key_path key)
        (if exclusive key then MkLockEntry (le_shared e) false (le_waiters e)
         else MkLockEntry (le_shared e - 1) (le_exclusive e) (le_waiters e)) t
  | None => t
  end.

(** ** Threads *)

(** [held] is the guard, last key first; [todo] are the keys not yet taken. *)
Inductive Phase :=
| Acquiring (held todo : list DependencyKey)
| Parked (held : list DependencyKey) (key : DependencyKey) (todo : list DependencyKey) (woken : bool)
| Holding (held : list DependencyKey)
| Releasing (held : list DependencyKey)
| Notifying (held : list DependencyKey)
| Finished.

Definition after_turn (held : list DependencyKey) (key : DependencyKey) (todo : list DependencyKey)
    (turn : bool * LockTable) : LockTable * Phase :=
  match turn with
  | (true, t) => (t, Acquiring (key :: held) todo)
  | (false, t) => (t, Parked held key todo false)
  end.

(** The next step of a thread; the flag is a [notify_all]. *)
Definition thread_step (t : LockTable) (ph : Phase) : option (LockTable * Phase * bool) :=
  match ph with
  | Acquiring held [] => Some (t, Holding held, false)
  | Acquiring held (key :: todo) => Some (after_turn held key todo (acquire_turn key t), false)
  | Parked held key todo true => Some (after_turn held key todo (acquire_turn key (after_wait key t)), false)
  | Parked _ _ _ false => None
  | Holding held => Some (t, Releasing held, false)
  | Releasing (key :: held) => Some (release_key key t, Notifying held, false)
  | Releasing [] => Some (t, Finished, false)
  | Notifying held => Some (t, Releasing held, true)
  | Finished => None
  end.

Definition wake (ph : Phase) : Phase :=
  match ph with Parked held key todo _ => Parked held key todo true | ph => ph end.

Record LockState := MkLocks { lock_table : LockTable; threads : gmap nat Phase }.

Inductive lock_step : LockState -> LockState -> Prop :=
| step_thread s i ph t ph' n :
    threads s !! i = Some ph -> thread_step (lock_table s) ph = Some (t, ph', n) ->
    lock_step s (MkLocks t ((if n : bool then wake else id) <$> <[i := ph']> (threads s)))
| step_spurious s i ph :
    threads s !! i = Some ph -> lock_step s (MkLocks (lock_table s) (<[i := wake ph]> (threads s)))
| step_spawn s i keys :
    threads s !! i = None -> StronglySorted path_lt keys ->
    lock_step s (MkLocks (lock_table s) (<[i := Acquiring [] keys]> (threads s))).

Definition no_locks : LockState := MkLocks ∅ ∅.

Inductive lock_reachable : LockState -> Prop :=
| locks_new : lock_reachable no_locks
| locks_step s s' : lock_reachable s -> lock_step s s' -> lock_reachable s'.

(** ** Counting *)

Definition held_of (ph : Phase) : list DependencyKey :=
  match ph with
  | Acquiring held _ | Parked held _ _ _ | Holding held | Releasing held | Notifying held => held
  | Finished => []
  end.
Definition todo_of (ph : Phase) : list DependencyKey :=
  match ph with
  | Acquiring _ todo => todo
  | Parked _ key todo _ => key :: todo
  | _ => []
  end.

Definition b2n (b : bool) : nat := if b then 1 else 0.

Definition has (excl : bool) (p : string) (keys : list DependencyKey) : bool :=
  existsb (fun k => String.eqb (key_path k) p && Bool.eqb (exclusive k) excl) keys.
Definition holds (excl : bool) (p : string) (ph : Phase) : bool := has excl p (held_of ph).
Definition parked_on (p : string) (ph : Phase) : bool :=
  match ph with Parked _ key _ _ => String.eqb (key_path key) p | _ => false end.

Definition count (f : Phase -> bool) (m : gmap nat Phase) : nat :=
  map_fold (fun _ ph n => b2n (f ph) + n) 0 m.

Lemma count_insert f m i ph : m !! i = None -> count f (<[i := ph]> m) = b2n (f ph) + count f m.
Proof. intros Hi. unfold count. rewrite map_fold_insert_L; [done|intros; lia|done]. Qed.

Lemma count_update f m i ph ph' :
  m !! i = Some ph -> count f (<[i := ph']> m) + b2n (f ph) = count f m + b2n (f ph').
Proof.
  intros Hi. pose proof (count_insert f (delete i m) i ph (lookup_delete_eq _ _)) as H1.
  pose proof (count_insert f (delete i m) i ph' (lookup_delete_eq _ _)) as H2.
  rewrite insert_delete_id in H1 by done. rewrite insert_delete_eq in H2. lia.
Qed.

Lemma count_wake f m : (forall ph, f (wake ph) = f ph) -> count f (wake <$> m) = count f m.
Proof.
  intros Hf. induction m as [|i ph m Hi IH] using map_ind; [done|].
  rewrite fmap_insert, !count_insert, IH, Hf by (rewrite ?lookup_fmap, ?Hi; done). done.
Qed.

Lemma count_pos f m i ph : m !! i = Some ph -> f ph = true -> 1 <= count f m.
Proof.
  intros Hi Hf. rewrite <- (insert_delete_id m i ph) by done. rewrite count_insert by apply lookup_delete_eq.
  rewrite Hf. cbn. lia.
Qed.

Lemma count_two f m i j ph ph' :
  i <> j -> m !! i = Some ph -> m !! j = Some ph' -> f ph = true -> f ph' = true -> 2 <= count f m.
Proof.
  intros Hne Hi Hj Hf Hf'. rewrite <- (insert_delete_id m i ph) by done. rewrite count_insert by apply lookup_delete_eq.
  rewrite Hf. cbn. assert (1 <= count f (delete i m)); [|lia].
  apply (count_pos _ _ j ph'); [|done]. by rewrite lookup_delete_ne.
Qed.

Lemma count_witness f m : 1 <= count f m -> exists i ph, m !! i = Some ph /\ f ph = true.
Proof.
  induction m as [|i ph m Hi IH] using map_ind; [unfold count; rewrite map_fold_empty; lia|].
  rewrite count_insert by done.
  destruct (f ph) eqn:Hf; cbn; intros H; [exists i, ph; by rewrite lookup_insert_eq|].
  destruct (IH H) as (j & ph' & Hj & Hf'). exists j, ph'. rewrite lookup_insert_ne; [done|congruence].
Qed.

(** ** The invariant *)

(** The entry of [p] counts the threads that hold or wait for it. *)
Record entry_ok (t : LockTable) (ths : gmap nat Phase) (p : string) : Prop := {
  eo_shared : le_shared (or_default t p) = count (holds false p) ths;
  eo_exclusive : b2n (le_exclusive (or_default t p)) = count (holds true p) ths;
  eo_waiters : le_waiters (or_default t p) = count (parked_on p) ths;
  eo_alone : le_exclusive (or_default t p) = true -> le_shared (or_default t p) = 0;
  eo_busy : forall e, t !! p = Some e -> idle e = false;
}.

Definition ordered_keys (ph : Phase) : Prop := StronglySorted path_lt (reverse (held_of ph) ++ todo_of ph).

(** A parked thread that no notification has reached is really blocked. *)
Definition blocked_or_notified (t : LockTable) (ths : gmap nat Phase) : Prop :=
  forall i held key todo, ths !! i = Some (Parked held key todo false) ->
    available key (or_default t (key_path key)) = false
    \/ exists j held', ths !! j = Some (Notifying held').

Record lock_inv (s : LockState) : Prop := {
  li_entries : forall p, entry_ok (lock_table s) (threads s) p;
  li_ordered : forall i ph, threads s !! i = Some ph -> ordered_keys ph;
  li_blocked : blocked_or_notified (lock_table s) (threads s);
}.

(** ** Table operations *)

Lemma or_default_insert_eq t p e : or_default (<[p := e]> t) p = e.
Proof. unfold or_default. by rewrite lookup_insert_eq. Qed.
Lemma or_default_insert_ne t p q e : p <> q -> or_default (<[p := e]> t) q = or_default t q.
Proof. intros. unfold or_default. by rewrite lookup_insert_ne. Qed.

Lemma idle_spec e : idle e = true <-> e = MkLockEntry 0 false 0.
Proof.
  destruct e as [s x w]. unfold idle. cbn. rewrite !andb_true_iff, !Nat.eqb_eq, negb_true_iff. naive_solver.
Qed.

Lemma or_default_store_eq t p e : or_default (store p e t) p = e.
Proof.
  unfold store. destruct (idle e) eqn:E; [|apply or_default_insert_eq].
  apply idle_spec in E as ->. unfold or_default. by rewrite lookup_delete_eq.
Qed.
Lemma or_default_store_ne t p q e : p <> q -> or_default (store p e t) q = or_default t q.
Proof.
  intros. unfold store. destruct (idle e); [|by apply or_default_insert_ne].
  unfold or_default. by rewrite lookup_delete_ne.
Qed.
Lemma store_busy t p e q e' : store p e t !! q = Some e' -> (p = q /\ idle e' = false) \/ (p <> q /\ t !! q = Some e').
Proof.
  unfold store. destruct (idle e) eqn:E; destruct (decide (p = q)) as [<-|Hne]; intros H.
  - by rewrite lookup_delete_eq in H.
  - rewrite lookup_delete_ne in H by done. auto.
  - rewrite lookup_insert_eq in H. injection H as <-. auto.
  - rewrite lookup_insert_ne in H by done. auto.
Qed.

(** A change of one entry that matches the change of one thread. *)
Lemma entry_update t t' ths i ph ph' p :
  (forall q, entry_ok t ths q) -> ths !! i = Some ph ->
  (forall q, q <> p -> or_default t' q = or_default t q) ->
  (forall q e, t' !! q = Some e -> (p = q /\ idle e = false) \/ (p <> q /\ t !! q = Some e)) ->
  (forall q x, q <> p -> holds x q ph' = holds x q ph) -> (forall q, q <> p -> parked_on q ph' = parked_on q ph) ->
  le_shared (or_default t' p) + b2n (holds false p ph) = le_shared (or_default t p) + b2n (holds false p ph') ->
  b2n (le_exclusive (or_default t' p)) + b2n (holds true p ph)
    = b2n (le_exclusive (or_default t p)) + b2n (holds true p ph') ->
  le_waiters (or_default t' p) + b2n (parked_on p ph) = le_waiters (or_default t p) + b2n (parked_on p ph') ->
  (le_exclusive (or_default t' p) = true -> le_shared (or_default t' p) = 0) ->
  forall q, entry_ok t' (<[i := ph']> ths) q.
Proof.
  intros Hok Hi Hne Hbusy Hh Hp H1 H2 H3 H4 q. pose proof (Hok q) as [E1 E2 E3 E4 E5].
  pose proof (count_update (holds false q) ths i ph ph' Hi) as C1.
  pose proof (count_update (holds true q) ths i ph ph' Hi) as C2.
  pose proof (count_update (parked_on q) ths i ph ph' Hi) as C3.
  destruct (decide (q = p)) as [->|Hq].
  - constructor; [lia|lia|lia|done|]. intros e He. destruct (Hbusy _ _ He) as [[_ ?]|[? _]]; done.
  - rewrite (Hh q false Hq) in C1. rewrite (Hh q true Hq) in C2. rewrite (Hp q Hq) in C3.
    constructor; rewrite ?(Hne q Hq); [lia|lia|lia|done|].
    intros e He. destruct (Hbusy _ _ He) as [[-> _]|[_ He']]; [done|]. by eapply E5.
Qed.

(** ** Keys of one thread *)

Lemma has_cons x p k keys :
  has x p (k :: keys) = (String.eqb (key_path k) p && Bool.eqb (exclusive k) x) || has x p keys.
Proof. reflexivity. Qed.

Lemma has_ne x p k keys : key_path k <> p -> has x p (k :: keys) = has x p keys.
Proof. intros Hne. rewrite has_cons. by rewrite (proj2 (String.eqb_neq _ _) Hne). Qed.

Lemma has_eq x p k keys : key_path k = p -> has x p keys = false -> has x p (k :: keys) = Bool.eqb (exclusive k) x.
Proof. intros <- H. rewrite has_cons, H, String.eqb_refl. by rewrite orb_false_r. Qed.

Lemma ordered_fresh held k todo x :
  StronglySorted path_lt (reverse held ++ k :: todo) ->
  has x (key_path k) held = false.
Proof.
  intros Hs. unfold has. apply not_true_iff_false. rewrite existsb_exists. intros (k' & Hin & Hk).
  apply andb_true_iff in Hk as [Hk _]. apply String.eqb_eq in Hk.
  assert (k' ∈ reverse held) as Hin' by (apply elem_of_reverse; by apply list_elem_of_In).
  apply list_elem_of_split in Hin' as (a & b & E). rewrite E in Hs.
  assert (path_lt k' k) as [_ Hlt]; [|done].
  clear E. induction a as [|y a IH]; cbn in Hs; apply StronglySorted_inv in Hs as [Hs Hf]; [|by apply IH].
  rewrite Forall_app, Forall_cons in Hf. tauto.
Qed.

(** ** Steps keep the invariant *)

Lemma take_available key e :
  available key e = true -> (le_exclusive e = true -> le_shared e = 0) ->
  let e' := take_lock key e in
  le_shared e' = le_shared e + b2n (Bool.eqb (exclusive key) false)
  /\ b2n (le_exclusive e') = b2n (le_exclusive e) + b2n (Bool.eqb (exclusive key) true)
  /\ le_waiters e' = le_waiters e /\ (le_exclusive e' = true -> le_shared e' = 0) /\ idle e' = false.
Proof.
  destruct e as [s x w]. unfold available, take_lock, idle. destruct (exclusive key); cbn.
  - rewrite andb_true_iff, Nat.eqb_eq, negb_true_iff. intros [-> ->] _. split_and!; cbn; auto.
  - rewrite negb_true_iff. intros -> _. split_and!; cbn; auto; try done. lia.
Qed.

Lemma available_take k key e : available k e = false -> available k (take_lock key e) = false.
Proof.
  destruct e as [s x w]. unfold available, take_lock.
  destruct (exclusive k), (exclusive key); cbn; rewrite ?andb_false_r, ?andb_false_iff; intuition.
Qed.

(** One turn of a thread that is not parked. *)
Lemma turn_entries i ph held key todo t ths :
  (forall q, entry_ok t ths q) -> ths !! i = Some ph -> held_of ph = held -> (forall q, parked_on q ph = false) ->
  StronglySorted path_lt (reverse held ++ key :: todo) ->
  let '(t', ph') := after_turn held key todo (acquire_turn key t) in
  (forall q, entry_ok t' (<[i := ph']> ths) q)
  /\ ordered_keys ph'
  /\ (forall w, ph' = Parked held key todo w -> available key (or_default t' (key_path key)) = false)
  /\ (forall k q, available k (or_default t q) = false -> available k (or_default t' q) = false).
Proof.
  intros Hok Hi Hh Hnp Hs. unfold acquire_turn. set (p := key_path key). set (e := or_default t p).
  pose proof (eo_alone _ _ _ (Hok p)) as Halone. fold e in Halone.
  assert (forall x, has x p held = false) as Hfresh by (intros x; by apply (ordered_fresh held key todo)).
  assert (forall x, holds x p ph = false) as Hfresh' by (intros x; unfold holds; by rewrite Hh).
  assert (forall e', idle e' = false -> forall q e0, <[p := e']> t !! q = Some e0 ->
    (p = q /\ idle e0 = false) \/ (p <> q /\ t !! q = Some e0)) as Hbusy.
  { intros e' He' q e0 H0. destruct (decide (p = q)) as [<-|Hne]; [left|right; by rewrite lookup_insert_ne in H0].
    rewrite lookup_insert_eq in H0. by injection H0 as <-. }
  destruct (available key e) eqn:Ha; cbn [after_turn].
  - destruct (take_available key e Ha Halone) as (T1 & T2 & T3 & T4 & T5). split_and!.
    + apply (entry_update t _ ths i ph _ p); try done; rewrite ?or_default_insert_eq, ?Hfresh', ?Hnp.
      * intros q Hq. by apply or_default_insert_ne.
      * by apply Hbusy.
      * intros q x Hq. unfold holds. cbn [held_of]. rewrite Hh. by apply has_ne.
      * unfold holds. cbn [held_of]. rewrite has_eq by done. fold e. rewrite T1. cbn. lia.
      * unfold holds. cbn [held_of]. rewrite has_eq by done. fold e. rewrite T2. cbn. lia.
      * fold e. rewrite T3. done.
      * exact T4.
    + unfold ordered_keys. cbn [held_of todo_of]. rewrite reverse_cons, <- app_assoc. done.
    + done.
    + intros k q. destruct (decide (p = q)) as [<-|Hne]; [|by rewrite or_default_insert_ne].
      rewrite or_default_insert_eq. apply available_take.
  - set (e' := MkLockEntry (le_shared e) (le_exclusive e) (S (le_waiters e))).
    assert (forall k, available k e' = available k e) as Hsame by done. split_and!.
    + apply (entry_update t _ ths i ph _ p); try done; rewrite ?or_default_insert_eq, ?Hfresh', ?Hnp.
      * intros q Hq. by apply or_default_insert_ne.
      * apply Hbusy. unfold idle. cbn. by rewrite andb_false_r.
      * intros q x Hq. unfold holds. cbn [held_of]. by rewrite Hh.
      * intros q Hq. rewrite Hnp. cbn. apply String.eqb_neq. fold p. congruence.
      * unfold holds. cbn [held_of]. by rewrite Hfresh.
      * unfold holds. cbn [held_of]. by rewrite Hfresh.
      * cbn. rewrite String.eqb_refl. cbn. fold e. lia.
      * exact Halone.
    + done.
    + intros w _. by rewrite or_default_insert_eq, Hsame.
    + intros k q. destruct (decide (p = q)) as [<-|Hne]; [|by rewrite or_default_insert_ne].
      by rewrite or_default_insert_eq, Hsame.
Qed.

(** A woken thread leaves the waiters. *)
Lemma after_wait_entries i held key todo w t ths :
  (forall q, entry_ok t ths q) -> ths !! i = Some (Parked held key todo w) ->
  (forall q, entry_ok (after_wait key t) (<[i := Acquiring held (key :: todo)]> ths) q)
  /\ (forall k q, available k (or_default (after_wait key t) q) = available k (or_default t q)).
Proof.
  intros Hok Hi. set (p := key_path key). pose proof (Hok p) as [E1 E2 E3 E4 E5].
  assert (1 <= count (parked_on p) ths) as Hw.
  { apply (count_pos _ _ i _ Hi). cbn. by apply String.eqb_eq. }
  unfold after_wait. fold p. destruct (t !! p) as [e|] eqn:He.
  2: { unfold or_default in E3. rewrite He in E3. cbn in E3. lia. }
  assert (or_default t p = e) as Hd by (unfold or_default; by rewrite He). rewrite Hd in *.
  set (e' := MkLockEntry (le_shared e) (le_exclusive e) (le_waiters e - 1)). split.
  - apply (entry_update t _ ths i _ _ p Hok Hi); try done; rewrite ?or_default_store_eq, ?Hd.
    + intros q Hq. by apply or_default_store_ne.
    + apply store_busy.
    + intros q Hq. cbn. symmetry. apply String.eqb_neq. fold p. congruence.
    + done.
    + done.
    + cbn. fold p. rewrite String.eqb_refl. cbn. lia.
    + done.
  - intros k q. destruct (decide (p = q)) as [<-|Hne]; [|by rewrite or_default_store_ne].
    by rewrite or_default_store_eq, Hd.
Qed.

(** Releasing the last key taken. *)
Lemma release_entries i key held t ths :
  (forall q, entry_ok t ths q) -> ths !! i = Some (Releasing (key :: held)) ->
  ordered_keys (Releasing (key :: held)) ->
  forall q, entry_ok (release_key key t) (<[i := Notifying held]> ths) q.
Proof.
  intros Hok Hi Hs. set (p := key_path key). pose proof (Hok p) as [E1 E2 E3 E4 E5].
  assert (forall x, has x p held = false) as Hfresh.
  { intros x. apply (ordered_fresh held key []). unfold ordered_keys in Hs. cbn [held_of todo_of] in Hs.
    by rewrite reverse_cons, app_nil_r in Hs. }
  assert (forall x, has x p (key :: held) = Bool.eqb (exclusive key) x) as Hhas by (intros; by apply has_eq).
  assert (1 <= count (holds (exclusive key) p) ths) as Hc.
  { apply (count_pos _ _ i _ Hi). unfold holds. cbn [held_of]. rewrite Hhas. by destruct (exclusive key). }
  unfold release_key. fold p. destruct (t !! p) as [e|] eqn:He.
  2: { unfold or_default in E1, E2. rewrite He in E1, E2. cbn [default le_shared le_exclusive b2n] in E1, E2.
    revert Hc. destruct (exclusive key); lia. }
  assert (or_default t p = e) as Hd by (unfold or_default; by rewrite He). rewrite Hd in *.
  apply (entry_update t _ ths i _ _ p Hok Hi); rewrite ?or_default_store_eq, ?Hd; unfold holds; cbn [held_of];
    rewrite ?Hhas, ?Hfresh; try done.
  - intros q Hq. by apply or_default_store_ne.
  - apply store_busy.
  - intros q x Hq. symmetry. by apply has_ne.
  - revert Hc. destruct (exclusive key); cbn; lia.
  - revert Hc. destruct (exclusive key); cbn; [|lia]. destruct (le_exclusive e); cbn in *; lia.
  - by destruct (exclusive key).
  - destruct (exclusive key); cbn; [done|]. intros Hx. specialize (E4 Hx). lia.
Qed.

Lemma same_keys_entries i ph ph' t ths :
  (forall q, entry_ok t ths q) -> ths !! i = Some ph -> held_of ph' = held_of ph ->
  (forall q, parked_on q ph' = parked_on q ph) ->
  forall q, entry_ok t (<[i := ph']> ths) q.
Proof.
  intros Hok Hi Hh Hp q. destruct (Hok q) as [E1 E2 E3 E4 E5].
  pose proof (count_update (holds false q) ths i ph ph' Hi) as C1.
  pose proof (count_update (holds true q) ths i ph ph' Hi) as C2.
  pose proof (count_update (parked_on q) ths i ph ph' Hi) as C3.
  assert (forall x, holds x q ph' = holds x q ph) as Hx by (intros x; unfold holds; by rewrite Hh).
  rewrite Hx in C1, C2. rewrite Hp in C3. constructor; try done; lia.
Qed.

Lemma wake_entries t ths : (forall q, entry_ok t ths q) -> forall q, entry_ok t (wake <$> ths) q.
Proof.
  intros Hok q. destruct (Hok q) as [E1 E2 E3 E4 E5].
  constructor; try done; rewrite count_wake; try done; by intros [].
Qed.

Lemma ordered_popped key held : ordered_keys (Releasing (key :: held)) -> ordered_keys (Notifying held).
Proof.
  unfold ordered_keys. cbn [held_of todo_of]. rewrite reverse_cons, !app_nil_r.
  generalize (reverse held). induction l as [|x l IH]; intros Hs; [constructor|].
  cbn in Hs. apply StronglySorted_inv in Hs as [Hs Hf]. constructor; [by apply IH|].
  by apply Forall_app in Hf as [? _].
Qed.

(** Updating one thread keeps parked threads blocked if locks are only taken. *)
Lemma blocked_update t t' ths i ph ph' :
  blocked_or_notified t ths -> ths !! i = Some ph -> (forall held, ph <> Notifying held) ->
  (forall k q, available k (or_default t q) = false -> available k (or_default t' q) = false) ->
  (forall held key todo, ph' = Parked held key todo false ->
     available key (or_default t' (key_path key)) = false) ->
  blocked_or_notified t' (<[i := ph']> ths).
Proof.
  intros Hb Hi Hn Hmono Hph j held key todo Hj. destruct (decide (i = j)) as [<-|Hne].
  - rewrite lookup_insert_eq in Hj. injection Hj as ->. left. by eapply Hph.
  - rewrite lookup_insert_ne in Hj by done. destruct (Hb _ _ _ _ Hj) as [?|(h & held' & Hh)]; [left; auto|right].
    exists h, held'. rewrite lookup_insert_ne; [done|]. intros <-. rewrite Hi in Hh. injection Hh as ->. by eapply Hn.
Qed.

Lemma ordered_update i ph' (ths : gmap nat Phase) :
  (forall i ph, ths !! i = Some ph -> ordered_keys ph) -> ordered_keys ph' ->
  forall j ph, <[i := ph']> ths !! j = Some ph -> ordered_keys ph.
Proof.
  intros Hall Hph j ph. destruct (decide (i = j)) as [<-|Hne]; [rewrite lookup_insert_eq; by intros [= <-]|].
  rewrite lookup_insert_ne by done. apply Hall.
Qed.

Lemma thread_step_inv s i ph t ph' n :
  lock_inv s -> threads s !! i = Some ph -> thread_step (lock_table s) ph = Some (t, ph', n) ->
  lock_inv (MkLocks t ((if n : bool then wake else id) <$> <[i := ph']> (threads s))).
Proof.
  intros [He Ho Hb] Hi Hs. destruct s as [t0 ths]. cbn [lock_table threads] in *. pose proof (Ho _ _ Hi) as Hord.
  destruct ph as [held [|key todo]|held key todo [|]|held|[|key held]|held|]; cbn [thread_step] in Hs; try done.
  - injection Hs as <- <- <-. rewrite map_fmap_id. constructor; cbn.
    + by eapply same_keys_entries.
    + by apply ordered_update.
    + by eapply blocked_update.
  - pose proof (turn_entries i _ held key todo t0 ths He Hi eq_refl (fun _ => eq_refl) Hord) as Ht.
    destruct (after_turn _ _ _ _) as [t' ph''] eqn:Ea. injection Hs as <- <- <-.
    destruct Ht as (T1 & T2 & T3 & T4). rewrite map_fmap_id. constructor; cbn; [done|by apply ordered_update|].
    eapply blocked_update; try done. intros held0 key0 todo0 ->.
    unfold after_turn in Ea. destruct (acquire_turn key t0) as [[|] ?]; simplify_eq. by eapply T3.
  - destruct (after_wait_entries i held key todo true t0 ths He Hi) as [W1 W2].
    pose proof (turn_entries i _ held key todo _ _ W1 (lookup_insert_eq _ _ _) eq_refl (fun _ => eq_refl) Hord) as Ht.
    destruct (after_turn _ _ _ _) as [t' ph''] eqn:Ea. injection Hs as <- <- <-.
    rewrite insert_insert_eq in Ht.
    destruct Ht as (T1 & T2 & T3 & T4). rewrite map_fmap_id. constructor; cbn; [done|by apply ordered_update|].
    eapply blocked_update; try done; [intros k q Hk; apply T4; by rewrite W2|]. intros held0 key0 todo0 ->.
    unfold after_turn in Ea. destruct (acquire_turn key _) as [[|] ?]; simplify_eq. by eapply T3.
  - injection Hs as <- <- <-. rewrite map_fmap_id. constructor; cbn.
    + by eapply same_keys_entries.
    + by apply ordered_update.
    + by eapply blocked_update.
  - injection Hs as <- <- <-. rewrite map_fmap_id. constructor; cbn.
    + by eapply same_keys_entries.
    + by apply ordered_update.
    + by eapply blocked_update.
  - injection Hs as <- <- <-. rewrite map_fmap_id. constructor; cbn.
    + by apply release_entries.
    + apply ordered_update; [done|]. by eapply ordered_popped.
    + intros j held0 key0 todo0 _. right. exists i, held. by rewrite lookup_insert_eq.
  - injection Hs as <- <- <-. constructor; cbn.
    + apply wake_entries. by eapply same_keys_entries.
    + intros j ph Hj. rewrite lookup_fmap in Hj. destruct (<[i:=_]> ths !! j) as [ph0|] eqn:E; [|done].
      injection Hj as <-. assert (ordered_keys ph0) as Hp by (by eapply ordered_update; [exact Ho| |exact E]).
      by destruct ph0.
    + intros j held0 key0 todo0 Hj. rewrite lookup_fmap in Hj. destruct (<[i:=_]> ths !! j) as [ph0|] eqn:E; [|done].
      by destruct ph0.
Qed.

Lemma lock_step_inv s s' : lock_inv s -> lock_step s s' -> lock_inv s'.
Proof.
  intros Hinv Hs. destruct Hs as [s i ph t ph' n Hi Ht|s i ph Hi|s i keys Hi Hk].
  - by eapply thread_step_inv.
  - destruct Hinv as [He Ho Hb]. destruct s as [t ths]. cbn in *. constructor; cbn.
    + eapply same_keys_entries; [done|done|by destruct ph|by destruct ph].
    + apply ordered_update; [done|]. specialize (Ho _ _ Hi). by destruct ph.
    + intros j held key todo Hj. destruct (decide (i = j)) as [<-|Hne].
      * rewrite lookup_insert_eq in Hj. by destruct ph.
      * rewrite lookup_insert_ne in Hj by done. destruct (Hb _ _ _ _ Hj) as [?|(h & held' & Hh)]; [by left|right].
        exists h, held'. destruct (decide (i = h)) as [<-|]; [|by rewrite lookup_insert_ne].
        rewrite lookup_insert_eq. rewrite Hi in Hh. by injection Hh as ->.
  - destruct Hinv as [He Ho Hb]. destruct s as [t ths]. cbn in *. constructor; cbn.
    + intros q. destruct (He q) as [E1 E2 E3 E4 E5]. constructor; rewrite ?count_insert by done; done.
    + by apply ordered_update.
    + intros j held key todo Hj. destruct (decide (i = j)) as [<-|Hne]; [by rewrite lookup_insert_eq in Hj|].
      rewrite lookup_insert_ne in Hj by done. destruct (Hb _ _ _ _ Hj) as [?|(h & held' & Hh)]; [by left|right].
      exists h, held'. rewrite lookup_insert_ne; [done|congruence].
Qed.

Lemma lock_reachable_inv s : lock_reachable s -> lock_inv s.
Proof.
  induction 1 as [|s s' _ IH Hs]; [|by eapply lock_step_inv]. constructor; cbn.
  - intros p. constructor; cbn; try done. 
  - done.
  - done.
Qed.

(** ** What the locks promise *)

(** C32: two threads never hold conflicting dependency keys at the same time,
    under every interleaving of acquisitions, waits, spurious wakeups and
    releases; in particular two conflicting mutations are never applied at
    once. *)
Theorem path_locks_exclude s i j ph ph' :
  lock_reachable s -> i <> j -> threads s !! i = Some ph -> threads s !! j = Some ph' ->
  dependency_sets_conflict (held_of ph) (held_of ph') = false.
Proof.
  intros Hr Hne Hi Hj. pose proof (li_entries _ (lock_reachable_inv _ Hr)) as He.
  apply not_true_iff_false. unfold dependency_sets_conflict. rewrite existsb_exists. intros (k & Hk & H).
  apply existsb_exists in H as (k' & Hk' & H). unfold conflicts_with in H. apply andb_true_iff in H as [Hp Hx].
  apply String.eqb_eq in Hp. destruct (He (key_path k)) as [E1 E2 E3 E4 E5].
  assert (forall ph k, In k (held_of ph) -> holds (exclusive k) (key_path k) ph = true) as Hh.
  { clear. intros ph k Hin. unfold holds, has. apply existsb_exists. exists k. split; [done|].
    by rewrite String.eqb_refl, eqb_reflx. }
  pose proof (Hh _ _ Hk) as H1. pose proof (Hh _ _ Hk') as H2. rewrite <- Hp in H2.
  destruct (exclusive k) eqn:X1, (exclusive k') eqn:X2; try done.
  - pose proof (count_two _ _ _ _ _ _ Hne Hi Hj H1 H2). destruct (le_exclusive _); cbn in E2; lia.
  - pose proof (count_pos _ _ _ _ Hi H1). pose proof (count_pos _ _ _ _ Hj H2).
    destruct (le_exclusive _) eqn:Ex; cbn in E2; [|lia]. specialize (E4 eq_refl). lia.
  - pose proof (count_pos _ _ _ _ Hi H1). pose proof (count_pos _ _ _ _ Hj H2).
    destruct (le_exclusive _) eqn:Ex; cbn in E2; [|lia]. specialize (E4 eq_refl). lia.
Qed.

(** The lock table is exact and does not grow with the tree: a path has an
    entry exactly while some thread holds it or waits for it, and the entry
    counts the shared holders, the exclusive holder and the waiters. *)
Theorem path_locks_table_exact s p :
  lock_reachable s ->
  (is_Some (lock_table s !! p) <->
   exists i ph, threads s !! i = Some ph /\ (holds true p ph || holds false p ph || parked_on p ph) = true)
  /\ le_shared (or_default (lock_table s) p) = count (holds false p) (threads s)
  /\ b2n (le_exclusive (or_default (lock_table s) p)) = count (holds true p) (threads s)
  /\ le_waiters (or_default (lock_table s) p) = count (parked_on p) (threads s).
Proof.
  intros Hr. destruct (li_entries _ (lock_reachable_inv _ Hr) p) as [E1 E2 E3 E4 E5].
  split; [|done]. split.
  - intros [e He]. specialize (E5 _ He). unfold or_default in *. rewrite He in *. cbn in *.
    destruct (decide (1 <= count (holds true p) (threads s))) as [H|H1].
    { destruct (count_witness _ _ H) as (i & ph & Hi & Hf). exists i, ph. by rewrite Hf. }
    destruct (decide (1 <= count (holds false p) (threads s))) as [H|H2].
    { destruct (count_witness _ _ H) as (i & ph & Hi & Hf). exists i, ph. by rewrite Hf, orb_true_r. }
    destruct (decide (1 <= count (parked_on p) (threads s))) as [H|H3].
    { destruct (count_witness _ _ H) as (i & ph & Hi & Hf). exists i, ph. by rewrite Hf, orb_true_r. }
    exfalso. assert (idle e = true); [|congruence]. apply idle_spec. destruct e as [a b c]. cbn in *.
    destruct b; cbn in *; [lia|]. f_equal; lia.
  - intros (i & ph & Hi & H). destruct (lock_table s !! p) eqn:E; [eauto|]. exfalso.
    unfold or_default in *. rewrite E in *. cbn in *. apply orb_true_iff in H as [H|H]; [apply orb_true_iff in H as [H|H]|];
      pose proof (count_pos _ _ _ _ Hi H); lia.
Qed.

Lemma max_path (l : list DependencyKey) : l <> [] -> exists k, k ∈ l /\ forall k', k' ∈ l -> str_le (key_path k') (key_path k).
Proof.
  induction l as [|x l IH]; [done|]. intros _. destruct l as [|y l].
  - exists x. split; [set_solver|]. intros k' Hk. apply list_elem_of_singleton in Hk as ->. apply str_leb_refl.
  - destruct IH as (k & Hk & Hmax); [done|]. destruct (str_leb_total (key_path k) (key_path x)) as [H|H].
    + exists x. split; [set_solver|]. intros k' Hk'. apply elem_of_cons in Hk' as [->|Hk']; [apply str_leb_refl|].
      eapply str_leb_trans; [by apply Hmax|done].
    + exists k. split; [set_solver|]. intros k' Hk'. apply elem_of_cons in Hk' as [->|Hk']; [done|]. by apply Hmax.
Qed.

Lemma held_before held key todo k :
  ordered_keys (Parked held key todo false) -> k ∈ held -> path_lt k key.
Proof.
  unfold ordered_keys. cbn [held_of todo_of]. intros Hs Hk.
  apply elem_of_reverse, list_elem_of_split in Hk as (a & b & E). rewrite E in Hs. clear E.
  induction a as [|y a IH]; cbn in Hs; apply StronglySorted_inv in Hs as [Hs Hf]; [|by apply IH].
  rewrite Forall_app, Forall_cons in Hf. tauto.
Qed.

(** Someone holds the path a blocked key waits for. *)
Lemma blocked_holder t ths p key :
  entry_ok t ths p -> available key (or_default t p) = false ->
  exists i ph k, ths !! i = Some ph /\ k ∈ held_of ph /\ key_path k = p.
Proof.
  intros [E1 E2 _ _ _] Ha.
  assert (exists x, 1 <= count (holds x p) ths) as [x Hx].
  { unfold available in Ha. destruct (le_exclusive (or_default t p)); cbn in E2; [exists true; lia|].
    destruct (exclusive key); cbn in Ha; [|done]. rewrite andb_true_r in Ha. apply Nat.eqb_neq in Ha. exists false. lia. }
  destruct (count_witness _ _ Hx) as (i & ph & Hi & Hf). unfold holds, has in Hf.
  apply existsb_exists in Hf as (k & Hk & Hp). apply andb_true_iff in Hp as [Hp _]. apply String.eqb_eq in Hp.
  exists i, ph, k. split_and!; [done|by apply list_elem_of_In|done].
Qed.

(** Overlapping mutations cannot deadlock: as long as some thread is not
    finished, some thread can take a step of its own, whatever keys the threads
    ask for, because every thread takes its keys in sorted order and a release
    never loses a wakeup. *)
Theorem path_locks_deadlock_free s :
  lock_reachable s -> (exists i ph, threads s !! i = Some ph /\ ph <> Finished) ->
  exists i ph t ph' n, threads s !! i = Some ph /\ thread_step (lock_table s) ph = Some (t, ph', n).
Proof.
  intros Hr (i0 & ph0 & Hi0 & Hnf). destruct (lock_reachable_inv _ Hr) as [He Ho Hb]. destruct s as [t ths]. cbn in *.
  destruct (decide (map_Forall (fun _ ph => thread_step t ph = None) ths)) as [Hall|Hsome].
  2: { apply map_not_Forall in Hsome as (i & ph & Hi & Hs); [|apply _].
       destruct (thread_step t ph) as [[[t' ph'] n]|] eqn:E; [|done]. eauto 10. }
  exfalso.
  assert (forall i ph, ths !! i = Some ph -> ph <> Finished -> exists held key todo, ph = Parked held key todo false) as Hpark.
  { intros i ph Hi Hn. specialize (Hall _ _ Hi). cbn in Hall.
    destruct ph as [held [|? ?]|held key todo [|]|held|[|? ?]|held|]; try done. eauto. }
  set (waiting := omap (fun ph => match ph with Parked _ key _ _ => Some key | _ => None end) (map_to_list ths).*2).
  assert (forall k, k ∈ waiting <-> exists i held todo w, ths !! i = Some (Parked held k todo w)) as Hw.
  { intros k. unfold waiting. rewrite list_elem_of_omap. split.
    - intros (ph & Hph & Hk). apply list_elem_of_fmap in Hph as ([i ph'] & -> & Hin). apply elem_of_map_to_list in Hin.
      cbn in Hk. destruct ph'; try done. injection Hk as ->. eauto.
    - intros (i & held & todo & w & Hi). exists (Parked held k todo w). split; [|done].
      apply list_elem_of_fmap. exists (i, Parked held k todo w). split; [done|]. by apply elem_of_map_to_list. }
  destruct (Hpark _ _ Hi0 Hnf) as (h0 & k0 & t0 & ->).
  destruct (max_path waiting) as (k & Hk & Hmax).
  { intros E. assert (k0 ∈ waiting) as Hin by (apply Hw; eauto). rewrite E in Hin. by apply elem_of_nil in Hin. }
  apply Hw in Hk as (i & held & todo & w & Hi). destruct (Hpark _ _ Hi) as (? & ? & ? & [= <- <- <- ->]); [done|].
  destruct (Hb _ _ _ _ Hi) as [Ha|(j & held' & Hj)].
  - destruct (blocked_holder _ _ _ _ (He (key_path k)) Ha) as (j & ph & k' & Hj & Hk' & Hp).
    destruct (Hpark _ _ Hj) as (held' & key' & todo' & ->).
    { intros ->. cbn in Hk'. by apply elem_of_nil in Hk'. }
    cbn in Hk'.
    destruct (held_before held' key' todo' k') as [Hle Hneq]; [by eapply Ho|done|].
    rewrite Hp in Hle, Hneq. apply Hneq, str_leb_antisym; [done|]. apply Hmax, Hw. eauto.
  - by destruct (Hpark _ _ Hj) as (? & ? & ? & ?).
Qed.

(** ** Two conflicting mutations and a reader *)

Definition run_thread (s : LockState) (i : nat) : LockState :=
  match threads s !! i with
  | Some ph =>
      match thread_step (lock_table s) ph with
      | Some (t, ph', n) => MkLocks t ((if n : bool then wake else id) <$> <[i := ph']> (threads s))
      | None => s
      end
  | None => s
  end.

Lemma run_thread_reachable s i : lock_reachable s -> lock_reachable (run_thread s i).
Proof.
  intros Hr. unfold run_thread. destruct (threads s !! i) as [ph|] eqn:Hi; [|done].
  destruct (thread_step (lock_table s) ph) as [[[t ph'] n]|] eqn:Hs; [|done].
  eapply locks_step; [exact Hr|]. by eapply step_thread.
Qed.

Lemma run_threads_reachable s l : lock_reachable s -> lock_reachable (foldl run_thread s l).
Proof. revert s; induction l as [|i l IH]; intros s Hr; [done|]. by apply IH, run_thread_reachable. Qed.

Definition spawn (s : LockState) (i : nat) (m : MountMutation) : LockState :=
  MkLocks (lock_table s) (<[i := Acquiring [] (dependency_keys m)]> (threads s)).

Lemma spawn_reachable s i m : lock_reachable s -> threads s !! i = None -> lock_reachable (spawn s i m).
Proof. intros Hr Hi. eapply locks_step; [exact Hr|]. apply step_spawn; [done|apply merge_sorted]. Qed.

Definition two_writers : LockState :=
  spawn (spawn no_locks 1 (CreateFile "a/b" 420)) 2 (RemoveDirectory "a").

Lemma two_writers_reachable : lock_reachable two_writers.
Proof. apply spawn_reachable; [apply spawn_reachable; [apply locks_new|]|]; reflexivity. Qed.

(** The writer below [a] holds its keys, the remover of [a] is parked. *)
Definition contended : LockState := foldl run_thread two_writers [1; 1; 1; 1; 2; 2].

Lemma contended_reachable : lock_reachable contended.
Proof. apply run_threads_reachable, two_writers_reachable. Qed.

Definition writer_phase : Phase := Eval vm_compute in default Finished (threads contended !! 1).
Definition remover_phase : Phase := Eval vm_compute in default Finished (threads contended !! 2).

Lemma path_locks_exclude_witness :
  dependency_sets_conflict (held_of writer_phase) (held_of remover_phase) = false
  /\ length (held_of writer_phase) = 3 /\ parked_on "a" remover_phase = true.
Proof.
  split; [|split; reflexivity].
  apply (path_locks_exclude contended 1 2 writer_phase remover_phase).
  - apply contended_reachable.
  - discriminate.
  - vm_compute. reflexivity.
  - vm_compute. reflexivity.
Defined.

Lemma path_locks_table_exact_witness :
  le_waiters (or_default (lock_table contended) "a") = count (parked_on "a") (threads contended)
  /\ le_waiters (or_default (lock_table contended) "a") = 1.
Proof.
  split; [|vm_compute; reflexivity]. apply (path_locks_table_exact contended "a"). apply contended_reachable.
Defined.

Lemma path_locks_deadlock_free_witness :
  exists i ph t ph' n, threads contended !! i = Some ph /\ thread_step (lock_table contended) ph = Some (t, ph', n).
Proof.
  apply path_locks_deadlock_free; [apply contended_reachable|].
  exists 2, remover_phase. split; [vm_compute; reflexivity|discriminate].
Defined.
