(* ===== verification/Effects.v ===== *)
(** * Programs with effects, and systems of them

    The control plane runs many asynchronous tasks at once. A task is a program
    over the operations it may perform: each remote call and each critical section
    under a mutex is one operation, answered by the world, and everything between
    two operations is a pure function. A system interleaves the operations of its
    tasks in any order. *)

From S2P Require Import Prelude.

(** ** Programs *)

Inductive prog (E : Type -> Type) (R : Type) : Type :=
| Ret (r : R)
| Do {A : Type} (e : E A) (k : A -> prog E R).
Arguments Ret {E R} r.
Arguments Do {E R A} e k.

Fixpoint prog_bind {E A B} (f : A -> prog E B) (m : prog E A) : prog E B :=
  match m with
  | Ret a => f a
  | Do e k => Do e (fun x => prog_bind f (k x))
  end.

Global Instance prog_ret {E} : MRet (prog E) := fun A a => Ret a.
Global Instance prog_mbind {E} : MBind (prog E) := fun A B f m => prog_bind f m.

Definition perform {E A} (e : E A) : prog E A := Do e Ret.

(** [call?]: the rest runs only on success. *)
Definition try_bind {E X A B} (m : prog E (result X A)) (f : A -> prog E (result X B)) :
    prog E (result X B) :=
  r ← m; match r with Ok a => f a | Err x => Ret (Err x) end.

Notation "x ←? m ; k" := (try_bind m (fun x => k))
  (at level 20, m at level 100, k at level 200, only parsing) : stdpp_scope.

(** [for x in xs { body(x).await }] *)
Fixpoint for_each {E A} (xs : list A) (body : A -> prog E unit) : prog E unit :=
  match xs with
  | [] => Ret tt
  | x :: xs => _ ← body x; for_each xs body
  end.

(** [for x in xs { body(x).await? }] *)
Fixpoint try_each {E X A} (xs : list A) (body : A -> prog E (result X unit)) : prog E (result X unit) :=
  match xs with
  | [] => Ret (Ok tt)
  | x :: xs => try_bind (body x) (fun _ => try_each xs body)
  end.

(** Two programs at once: the scheduler [pick]s which one moves. *)
Section Par.
Context {E : Type -> Type} (pick : E bool).

Fixpoint par {A B} (p : prog E A) : prog E B -> prog E (A * B) :=
  match p with
  | Ret a => fun q => b ← q; Ret (a, b)
  | Do e k =>
      fix inner q :=
        match q with
        | Ret b => Do e (fun x => par (k x) (Ret b))
        | Do e' k' =>
            Do pick (fun left : bool =>
              if left then Do e (fun x => par (k x) (Do e' k')) else Do e' (fun x => inner (k' x)))
        end
  end.

(** All of them at once; the results keep the order of the programs. *)
Fixpoint par_all {A} (ps : list (prog E A)) : prog E (list A) :=
  match ps with
  | [] => Ret []
  | p :: ps => '(a, rs) ← par p (par_all ps); Ret (a :: rs)
  end.
End Par.

(** ** Running one program alone

    [handle] answers an operation; the choice [C] is what the world decides (a
    failing call, the outcome of a request). *)

Section Run.
Context {E : Type -> Type} {W C R : Type} (handle : forall A, E A -> W -> C -> option (A * W)).

Definition prog_step (p : prog E R) (w : W) (c : C) : option (prog E R * W) :=
  match p with
  | Ret _ => None
  | Do e k => match handle _ e w c with Some (a, w') => Some (k a, w') | None => None end
  end.

(** The run that takes the given choices in turn, to its end. *)
Fixpoint prog_run (p : prog E R) (w : W) (cs : list C) : option (R * W) :=
  match p with
  | Ret r => match cs with [] => Some (r, w) | _ :: _ => None end
  | Do e k =>
      match cs with
      | [] => None
      | c :: cs => match handle _ e w c with Some (a, w') => prog_run (k a) w' cs | None => None end
      end
  end.

(** Every run from [w] that ends does so in [Q]. *)
Fixpoint wp_prog (p : prog E R) (Q : R -> W -> Prop) (w : W) : Prop :=
  match p with
  | Ret r => Q r w
  | Do e k => forall c a w', handle _ e w c = Some (a, w') -> wp_prog (k a) Q w'
  end.
End Run.

Lemma wp_prog_run {E W C R} (handle : forall A, E A -> W -> C -> option (A * W)) (p : prog E R) Q w cs r w' :
  wp_prog handle p Q w -> prog_run handle p w cs = Some (r, w') -> Q r w'.
Proof.
  revert w cs; induction p as [r0|A e k IH]; intros w [|c cs]; cbn; try done; [naive_solver|].
  destruct (handle A e w c) as [[a w1]|] eqn:Eh; [|done]. intros H. apply IH. by eapply H.
Qed.

Lemma wp_prog_mono {E W C R} (handle : forall A, E A -> W -> C -> option (A * W)) (p : prog E R)
    (Q Q' : R -> W -> Prop) w :
  (forall r w, Q r w -> Q' r w) -> wp_prog handle p Q w -> wp_prog handle p Q' w.
Proof. intros HQ. revert w; induction p as [r|A e k IH]; intros w; cbn; eauto. Qed.

Lemma wp_prog_bind {E W C A B} (handle : forall A, E A -> W -> C -> option (A * W))
    (m : prog E A) (f : A -> prog E B) Q w :
  wp_prog handle (m ≫= f) Q w <-> wp_prog handle m (fun a w => wp_prog handle (f a) Q w) w.
Proof.
  unfold mbind, prog_mbind. revert w; induction m as [a|X e k IH]; intros w; cbn; [done|].
  split; intros H c a w' Hc; apply IH; eauto.
Qed.

Lemma wp_try_bind {E W C X A B} (handle : forall A, E A -> W -> C -> option (A * W))
    (m : prog E (result X A)) (f : A -> prog E (result X B)) Q w :
  wp_prog handle (try_bind m f) Q w <->
  wp_prog handle m (fun r w => match r with Ok a => wp_prog handle (f a) Q w | Err x => Q (Err x) w end) w.
Proof.
  unfold try_bind. rewrite wp_prog_bind. split; apply wp_prog_mono; intros [a|x] w'; done.
Qed.

(** Where every operation is answered, the run exists. *)
Lemma wp_prog_total {E W C R} (handle : forall A, E A -> W -> C -> option (A * W)) (p : prog E R) Q w c :
  wp_prog handle p Q w -> (forall A (e : E A) w, is_Some (handle A e w c)) ->
  exists n r w', prog_run handle p w (replicate n c) = Some (r, w') /\ Q r w'.
Proof.
  intros Hwp Hall. revert w Hwp; induction p as [r|A e k IH]; intros w Hwp; [by exists 0, r, w|].
  destruct (Hall A e w) as [[a w1] Hh]. destruct (IH a w1) as (n & r & w' & Hrun & HQ); [by eapply Hwp|].
  exists (S n), r, w'. cbn. by rewrite Hh.
Qed.

(** A run of a sequence is a run of its first part followed by one of the rest. *)
Lemma prog_run_seq {E W C A B} (handle : forall A, E A -> W -> C -> option (A * W))
    (m : prog E A) (f : A -> prog E B) w cs1 cs2 a w1 :
  prog_run handle m w cs1 = Some (a, w1) ->
  prog_run handle (m ≫= f) w (cs1 ++ cs2) = prog_run handle (f a) w1 cs2.
Proof.
  unfold mbind, prog_mbind. revert w cs1; induction m as [a0|X e k IH]; intros w [|c cs1]; cbn; try done.
  - by intros [= -> ->].
  - destruct (handle X e w c) as [[x w2]|]; [|done]. apply IH.
Qed.

(** ** Systems *)

Section System.
Context {E : Type -> Type} {W C T R : Type} (handle : forall A, E A -> W -> C -> option (A * W)).

(** A task carries the tag of the process it runs in. *)
Record System := MkSystem { world : W; tasks : gmap nat (T * prog E R) }.

(** What may start, what the rest of the world does, what a crash of a process
    loses. *)
Context `{EqDecision T} (starts : T -> prog E R -> W -> Prop) (env : W -> W -> Prop) (crash : T -> W -> W).

Inductive system_step : System -> System -> Prop :=
| step_task s i t p c p' w' :
    tasks s !! i = Some (t, p) -> prog_step handle p (world s) c = Some (p', w') ->
    system_step s (MkSystem w' (<[i := (t, p')]> (tasks s)))
| step_start s i t p :
    tasks s !! i = None -> starts t p (world s) ->
    system_step s (MkSystem (world s) (<[i := (t, p)]> (tasks s)))
| step_env s w' : env (world s) w' -> system_step s (MkSystem w' (tasks s))
| step_crash s t :
    system_step s (MkSystem (crash t (world s)) (filter (fun kv => kv.2.1 ≠ t) (tasks s))).

Inductive system_reachable (init : W -> Prop) : System -> Prop :=
| reach_init w : init w -> system_reachable init (MkSystem w ∅)
| reach_step s s' : system_reachable init s -> system_step s s' -> system_reachable init s'.

(** *** Invariants

    Each task keeps a ghost [G]: what it owns of the world at its current
    operation. [pre] is what an operation needs of it and [upd] what it has
    afterwards; [ok] checks a program once and for all, along every answer. *)

Context {G : Type} (pre : forall A, G -> E A -> Prop) (upd : forall A, G -> E A -> A -> G)
  (post : G -> R -> Prop).

Fixpoint prog_ok (g : G) (p : prog E R) : Prop :=
  match p with
  | Ret r => post g r
  | Do e k => pre _ g e /\ forall a, prog_ok (upd _ g e a) (k a)
  end.

Context (Inv : W -> gmap nat (T * G) -> Prop) (init : W -> Prop).

Record InvariantRules : Prop := {
  rule_init : forall w, init w -> Inv w ∅;
  rule_task : forall w γ i t g A (e : E A) c a w',
    Inv w γ -> γ !! i = Some (t, g) -> pre _ g e -> handle _ e w c = Some (a, w') ->
    Inv w' (<[i := (t, upd _ g e a)]> γ);
  rule_start : forall w γ i t p,
    Inv w γ -> γ !! i = None -> starts t p w -> exists g, prog_ok g p /\ Inv w (<[i := (t, g)]> γ);
  rule_env : forall w γ w', Inv w γ -> env w w' -> Inv w' γ;
  rule_crash : forall w γ t, Inv w γ -> Inv (crash t w) (filter (fun kv => kv.2.1 ≠ t) γ);
}.

Definition ghost_of (ts : gmap nat (T * prog E R)) (γ : gmap nat (T * G)) : Prop :=
  forall i, match ts !! i, γ !! i with
            | Some (t, p), Some (t', g) => t = t' /\ prog_ok g p
            | None, None => True
            | _, _ => False
            end.

Lemma ghost_of_insert ts γ i t p g :
  ghost_of ts γ -> prog_ok g p -> ghost_of (<[i := (t, p)]> ts) (<[i := (t, g)]> γ).
Proof. intros H Hok j. destruct (decide (j = i)) as [->|]; simplify_map_eq; [done|apply H]. Qed.

Lemma ghost_of_crash ts γ t :
  ghost_of ts γ -> ghost_of (filter (fun kv => kv.2.1 ≠ t) ts) (filter (fun kv => kv.2.1 ≠ t) γ).
Proof.
  intros H i. specialize (H i). rewrite !map_lookup_filter.
  destruct (ts !! i) as [[t1 p]|], (γ !! i) as [[t2 g]|]; cbn; try done.
  destruct H as [<- H]. by case_guard.
Qed.

Theorem system_invariant s :
  InvariantRules -> system_reachable init s -> exists γ, Inv (world s) γ /\ ghost_of (tasks s) γ.
Proof.
  intros [Hi Ht Hs He Hc]. induction 1 as [w Hw|s s' _ (γ & HI & Hg) Hstep].
  - exists ∅. split; [by apply Hi|]. intros i. by rewrite !lookup_empty.
  - destruct Hstep as [s i t p c p' w' Hp Hst|s i t p Hp Hst|s w' Hst|s t]; cbn in *.
    + pose proof (Hg i) as Hgi. rewrite Hp in Hgi.
      destruct (γ !! i) as [[t' g]|] eqn:Eg; [|done]. destruct Hgi as [<- Hok].
      destruct p as [r|A e k]; [done|]. cbn in Hst, Hok.
      destruct (handle A e (world s) c) as [[a w1]|] eqn:Eh; [|done]. simplify_eq.
      destruct Hok as [Hpre Hok]. eexists. split; [by eapply Ht|]. by apply ghost_of_insert.
    + pose proof (Hg i) as Hgi. rewrite Hp in Hgi. destruct (γ !! i) as [[]|] eqn:Eg; [done|].
      destruct (Hs _ _ _ _ _ HI Eg Hst) as (g & Hok & HI'). eexists. split; [done|].
      by apply ghost_of_insert.
    + exists γ. eauto.
    + eexists. split; [by apply Hc|]. by apply ghost_of_crash.
Qed.

(** ** Schedules

    A schedule names the task that moves and the choice of the world, so a
    concrete interleaving can be evaluated. *)

Fixpoint run_schedule (s : System) (sched : list (nat * C)) : option System :=
  match sched with
  | [] => Some s
  | (i, c) :: sched =>
      match tasks s !! i with
      | Some (t, p) =>
          match prog_step handle p (world s) c with
          | Some (p', w') => run_schedule (MkSystem w' (<[i := (t, p')]> (tasks s))) sched
          | None => None
          end
      | None => None
      end
  end.

Lemma run_schedule_reachable s sched s' :
  system_reachable init s -> run_schedule s sched = Some s' -> system_reachable init s'.
Proof.
  revert s; induction sched as [|[i c] sched IH]; intros s Hr; cbn; [by intros [= <-]|].
  destruct (tasks s !! i) as [[t p]|] eqn:Et; [|done].
  destruct (prog_step handle p (world s) c) as [[p' w']|] eqn:Ep; [|done].
  intros H. eapply IH; [|done]. eapply reach_step; [done|]. by eapply step_task.
Qed.
End System.

Arguments MkSystem {E W T R} _ _.
Arguments world {E W T R} _.
Arguments tasks {E W T R} _.

(** ** Checking programs piece by piece *)

Lemma prog_ok_mono {E G R} (pre : forall A, G -> E A -> Prop) (upd : forall A, G -> E A -> A -> G)
    (P Q : G -> R -> Prop) (p : prog E R) g :
  (forall g r, P g r -> Q g r) -> prog_ok pre upd P g p -> prog_ok pre upd Q g p.
Proof.
  intros HPQ. revert g; induction p as [r|A e k IH]; intros g; cbn; [apply HPQ|].
  intros [Hp Hk]. split; [done|]. intros a. by apply IH.
Qed.

Lemma prog_ok_bind {E G A B} (pre : forall A, G -> E A -> Prop) (upd : forall A, G -> E A -> A -> G)
    (Q : G -> B -> Prop) (m : prog E A) (f : A -> prog E B) g :
  prog_ok pre upd Q g (m ≫= f) <-> prog_ok pre upd (fun g a => prog_ok pre upd Q g (f a)) g m.
Proof.
  unfold mbind, prog_mbind. revert g; induction m as [a|X e k IH]; intros g; cbn; [done|].
  split; intros [Hp Hk]; (split; [done|]); intros a; apply IH, Hk.
Qed.

Lemma prog_ok_seq {E G A B} (pre : forall A, G -> E A -> Prop) (upd : forall A, G -> E A -> A -> G)
    (P : G -> A -> Prop) (Q : G -> B -> Prop) (m : prog E A) (f : A -> prog E B) g :
  prog_ok pre upd P g m -> (forall g a, P g a -> prog_ok pre upd Q g (f a)) ->
  prog_ok pre upd Q g (m ≫= f).
Proof. intros Hm Hf. apply prog_ok_bind. by eapply prog_ok_mono. Qed.

Lemma prog_ok_try {E G X A B} (pre : forall A, G -> E A -> Prop) (upd : forall A, G -> E A -> A -> G)
    (P : G -> result X A -> Prop) (Q : G -> result X B -> Prop) (m : prog E (result X A))
    (f : A -> prog E (result X B)) g :
  prog_ok pre upd P g m -> (forall g a, P g (Ok a) -> prog_ok pre upd Q g (f a)) ->
  (forall g x, P g (Err x) -> Q g (Err x)) -> prog_ok pre upd Q g (try_bind m f).
Proof. intros Hm Hf He. unfold try_bind. eapply prog_ok_seq; [done|]. intros g' [a|x]; [apply Hf|apply He]. Qed.

(** Two bookkeepings of one program. *)
Lemma prog_ok_both {E G1 G2 R} (pre1 : forall A, G1 -> E A -> Prop) (upd1 : forall A, G1 -> E A -> A -> G1)
    (pre2 : forall A, G2 -> E A -> Prop) (upd2 : forall A, G2 -> E A -> A -> G2)
    (P : G1 -> R -> Prop) (Q : G2 -> R -> Prop) (p : prog E R) g1 g2 :
  prog_ok pre1 upd1 P g1 p -> prog_ok pre2 upd2 Q g2 p ->
  prog_ok (fun A (g : G1 * G2) e => pre1 A g.1 e /\ pre2 A g.2 e)
    (fun A (g : G1 * G2) e a => (upd1 A g.1 e a, upd2 A g.2 e a)) (fun g r => P g.1 r /\ Q g.2 r) (g1, g2) p.
Proof.
  revert g1 g2; induction p as [r|A e k IH]; intros g1 g2; cbn; [done|]. intros [Hp1 Hk1] [Hp2 Hk2].
  split; [done|]. intros a. by apply IH.
Qed.

Lemma filter_unit {X} (γ : gmap nat (unit * X)) (u : unit) : filter (fun kv => kv.2.1 ≠ u) γ = ∅.
Proof. apply map_empty. intros i. apply map_lookup_filter_None. right. intros [[] x] _ Hn. by destruct u, Hn. Qed.
