(* ===== verification/Etcd.v ===== *)
(** * The coordination store

    The control plane keeps its shared state in etcd: session routes and fences,
    the dedupe markers of commands, the outbox, the node registry. etcd is not part
    of the repository: the class [EtcdServer] is what the sources call and
    [EtcdLaws] its documented behaviour, stated on the map a server holds. A call
    may fail before or after it took effect. *)

From S2P Require Import Prelude.
From Stdlib Require Import ZArith Lia.

(** ** What a server holds *)

Record Cell := MkCell { cell_value : string; cell_lease : option Z }.

Record KV := MkKV {
  kvs : gmap string Cell;
  leases : gmap Z Z;      (** live leases and their deadlines *)
  issued : gset Z;        (** every lease id ever granted *)
  revision : Z;
}.

Definition set_kvs (m : gmap string Cell) (kv : KV) : KV :=
  MkKV m (leases kv) (issued kv) (revision kv + 1).

Definition value_of (kv : KV) (k : string) : option string := cell_value <$> kvs kv !! k.

(** ** Calls *)

(** [Compare::version(k, Equal, 0)] holds of a key that is not there. *)
Inductive Compare := CmpVersionZero (k : string) | CmpValue (k v : string).
Inductive TxnOp := TxnPut (k v : string) (lease : option Z) | TxnDelete (k : string).

Inductive EtcdCall : Type -> Type :=
| EGet (k : string) : EtcdCall (option string)
| EGetPrefix (p : string) : EtcdCall (list (string * string) * Z)
| EPut (k v : string) (lease : option Z) : EtcdCall unit
| EDelete (k : string) : EtcdCall unit
| ETxn (when : list Compare) (ops : list TxnOp) : EtcdCall bool
| ELeaseGrant (ttl_secs : Z) : EtcdCall Z.

Definition compare_holds (kv : KV) (c : Compare) : bool :=
  match c with
  | CmpVersionZero k => bool_decide (kvs kv !! k = None)
  | CmpValue k v => bool_decide (value_of kv k = Some v)
  end.

Definition lease_live (kv : KV) (l : option Z) : bool :=
  match l with None => true | Some id => bool_decide (is_Some (leases kv !! id)) end.

Definition apply_op (m : gmap string Cell) (op : TxnOp) : gmap string Cell :=
  match op with
  | TxnPut k v l => <[k := MkCell v l]> m
  | TxnDelete k => delete k m
  end.

Definition op_lease_live (kv : KV) (op : TxnOp) : bool :=
  match op with TxnPut _ _ l => lease_live kv l | TxnDelete _ => true end.

(** Keys under a prefix, in key order. *)
Definition range_of (kv : KV) (p : string) : list (string * string) :=
  omap (fun k => pair k <$> value_of kv k)
       (List.filter (starts_with p) (sorted_strings (dom (kvs kv)))).

Definition lease_not_found : string := "etcdserver: requested lease not found".

(** The answer and effect of a call at time [now] (in milliseconds); [id] is the
    lease id the server picks. *)
Definition kv_call {A} (now id : Z) (c : EtcdCall A) (kv : KV) : result string A * KV :=
  match c in EtcdCall A return result string A * KV with
  | EGet k => (Ok (value_of kv k), kv)
  | EGetPrefix p => (Ok (range_of kv p, revision kv), kv)
  | EPut k v l =>
      if lease_live kv l then (Ok tt, set_kvs (<[k := MkCell v l]> (kvs kv)) kv)
      else (Err lease_not_found, kv)
  | EDelete k => (Ok tt, set_kvs (delete k (kvs kv)) kv)
  | ETxn when ops =>
      if forallb (compare_holds kv) when then
        if forallb (op_lease_live kv) ops then (Ok true, set_kvs (foldl apply_op (kvs kv) ops) kv)
        else (Err lease_not_found, kv)
      else (Ok false, kv)
  | ELeaseGrant ttl =>
      (Ok id, MkKV (kvs kv) (<[id := now + ttl * 1000]> (leases kv)) ({[id]} ∪ issued kv) (revision kv))
  end%Z.

(** A lease that ends takes its keys with it. *)
Definition kv_revoke (id : Z) (kv : KV) : KV :=
  MkKV (filter (fun kc => cell_lease kc.2 ≠ Some id) (kvs kv)) (delete id (leases kv)) (issued kv)
       (revision kv + 1).

(** ** The interface *)

Class EtcdServer := {
  estate : Type;
  eview : estate -> KV;
  ecall : forall {A}, Z -> EtcdCall A -> estate -> result string A * estate;
  erevoke : Z -> estate -> estate;
}.

Class EtcdLaws `{S : EtcdServer} : Prop := {
  ecall_view : forall A now (c : EtcdCall A) s,
    exists id, id ∉ issued (eview s) /\
      (fst (ecall now c s), eview (snd (ecall now c s))) = kv_call now id c (eview s);
  erevoke_view : forall id s, eview (erevoke id s) = kv_revoke id (eview s);
}.

(** The outcome of a remote call: it is delivered, its request is lost, or its
    reply is lost after it took effect. *)
Inductive Fault := Delivered | LostRequest | LostReply.

Definition unavailable : string := "transport error".

Definition rpc `{EtcdServer} {A} (now : Z) (f : Fault) (c : EtcdCall A) (s : estate) :
    result string A * estate :=
  match f with
  | Delivered => ecall now c s
  | LostRequest => (Err unavailable, s)
  | LostReply => (Err unavailable, snd (ecall now c s))
  end.

(** ** A server that is a map *)

Definition fresh_lease (kv : KV) : Z := foldr Z.max 0%Z (elements (issued kv)) + 1.

Global Instance map_etcd : EtcdServer := {
  estate := KV; eview := id;
  ecall := fun A now c kv => kv_call now (fresh_lease kv) c kv;
  erevoke := kv_revoke;
}.

Lemma fresh_lease_issued kv : fresh_lease kv ∉ issued kv.
Proof.
  unfold fresh_lease. rewrite <- elem_of_elements. generalize (elements (issued kv)). intros l.
  assert (forall x, x ∈ l -> (x <= foldr Z.max 0 l)%Z) as H.
  { induction l as [|y l IH]; intros x; rewrite ?elem_of_nil, ?elem_of_cons; [done|].
    cbn. intros [->|Hx]; [lia|]. specialize (IH _ Hx). lia. }
  intros Hin. apply H in Hin. lia.
Qed.

Global Instance map_etcd_laws : EtcdLaws (S := map_etcd).
Proof.
  split; [|done]. intros A now c s. exists (fresh_lease s). split; [apply fresh_lease_issued|].
  cbn. unfold id. by destruct (kv_call now (fresh_lease s) c s).
Qed.

Definition empty_kv : KV := MkKV ∅ ∅ ∅ 1.

(** ** Facts shared by the clients *)

Lemma starts_with_common s p q : starts_with (s +:+ p) (s +:+ q) = starts_with p q.
Proof. induction s as [|a s IH]; [done|]. rewrite !str_app_cons. cbn [starts_with]. by rewrite Ascii.eqb_refl. Qed.

Lemma elem_of_range_of kv p k v :
  (k, v) ∈ range_of kv p <-> starts_with p k = true /\ value_of kv k = Some v.
Proof.
  unfold range_of. rewrite list_elem_of_omap. split.
  - intros (x & Hx & Hs). apply elem_of_List_filter in Hx as [_ Hp].
    destruct (value_of kv x) eqn:Ev; cbn in Hs; naive_solver.
  - intros [Hp Hv]. exists k. split; [|by rewrite Hv]. apply elem_of_List_filter.
    split; [|done]. apply elem_of_sorted_strings, elem_of_dom.
    unfold value_of in Hv. destruct (kvs kv !! k); [eauto|done].
Qed.

(** A call either leaves the view as it is or has the effect of [kv_call]. *)
Lemma rpc_view `{EtcdLaws} {A} now f (c : EtcdCall A) s r s' :
  rpc now f c s = (r, s') ->
  (r = Err unavailable /\ s' = s) \/
  exists id, id ∉ issued (eview s) /\ eview s' = snd (kv_call now id c (eview s)) /\
    (r = Err unavailable \/ r = fst (kv_call now id c (eview s))).
Proof.
  destruct (ecall_view A now c s) as (id & Hid & Hc).
  destruct f; cbn; intros Hr; [right|left|right]; [|by simplify_eq|].
  - exists id. rewrite Hr in Hc. cbn in Hc. split; [done|]. rewrite <- Hc. auto.
  - exists id. simplify_eq. split; [done|]. rewrite <- Hc. auto.
Qed.
