(* ===== verification/PartitionGate.v ===== *)
(** * The partition gate

    [vmd/src/partition.rs]: a monitor probes the node registry; after enough
    failures in a row the gate closes, mutating commands are rejected and streams
    that were already running get a bounded grace. Instants and durations are
    milliseconds in [Z]. *)

From S2P Require Import Prelude.
From Stdlib Require Import ZArith Lia Ascii.

(** ** Configuration *)

Definition DEFAULT_PROBE_INTERVAL : Z := 2000.
Definition DEFAULT_FAILURE_THRESHOLD : Z := 3.
Definition DEFAULT_LOCAL_STREAM_GRACE : Z := 30000.
Definition DEFAULT_COMMAND_RETRY_DELAY : Z := 2000.

Record PartitionPolicyConfig := MkPolicy {
  pp_etcd_endpoints : list string;
  pp_key_prefix : string;
  pp_probe_interval : Z;
  pp_failure_threshold : Z;
  pp_local_stream_grace : Z;
  pp_command_retry_delay : Z;
}.

Definition if_zero (d v : Z) : Z := if (v =? 0)%Z then d else v.

Definition policy_normalize (c : PartitionPolicyConfig) : PartitionPolicyConfig :=
  MkPolicy (pp_etcd_endpoints c) (pp_key_prefix c)
    (if_zero DEFAULT_PROBE_INTERVAL (pp_probe_interval c))
    (if_zero DEFAULT_FAILURE_THRESHOLD (pp_failure_threshold c))
    (if_zero DEFAULT_LOCAL_STREAM_GRACE (pp_local_stream_grace c))
    (if_zero DEFAULT_COMMAND_RETRY_DELAY (pp_command_retry_delay c)).

(** ** The gate *)

Record PartitionState := MkPartition {
  consecutive_failures : Z;
  partitioned_since : option Z;
}.

Record PartitionGate := MkGate {
  gate_state : PartitionState;
  gate_failure_threshold : Z;
  gate_local_stream_grace : Z;
  gate_command_retry_delay : Z;
}.

Definition gate_new (failure_threshold local_stream_grace command_retry_delay : Z) : PartitionGate :=
  MkGate (MkPartition 0 None) failure_threshold local_stream_grace command_retry_delay.

Definition set_partition (s : PartitionState) (g : PartitionGate) : PartitionGate :=
  MkGate s (gate_failure_threshold g) (gate_local_stream_grace g) (gate_command_retry_delay g).

Definition mutation_allowed (g : PartitionGate) : bool :=
  bool_decide (partitioned_since (gate_state g) = None).

(** [Instant::elapsed] and [duration_since] saturate at zero. *)
Definition duration_since (now earlier : Z) : Z := Z.max 0 (now - earlier).

Definition mutation_rejection_reason (g : PartitionGate) (now : Z) : option string :=
  since ← partitioned_since (gate_state g);
  Some ("network partition fail-closed: control-plane quorum visibility lost "
        +:+ pretty (duration_since now since) +:+ "ms ago; rejecting mutating commands").

Definition local_stream_allowed_with_now (since : option Z) (stream_started_at grace now : Z) : bool :=
  match since with
  | None => true
  | Some since =>
      if (since <? stream_started_at)%Z then false else (duration_since now since <=? grace)%Z
  end.

Definition local_stream_allowed (g : PartitionGate) (stream_started_at now : Z) : bool :=
  local_stream_allowed_with_now (partitioned_since (gate_state g)) stream_started_at
    (gate_local_stream_grace g) now.

Definition record_probe_success (g : PartitionGate) : PartitionGate :=
  set_partition (MkPartition 0 None) g.

Definition record_probe_failure (now : Z) (g : PartitionGate) : PartitionGate :=
  let s := gate_state g in
  let failures := Z.min U32_MAX (consecutive_failures s + 1) in
  set_partition
    (MkPartition failures
       (if (gate_failure_threshold g <=? failures)%Z && bool_decide (partitioned_since s = None)
        then Some now else partitioned_since s)) g.

(** ** The monitor

    One turn of the loop reads what the connection attempt and the range request
    answer; the client is kept between turns unless the request fails. *)

Record ProbeInput := MkProbe {
  probe_connects : bool;
  probe_get : result string nat;
  probe_at : Z;
}.

Definition validate_visible_node_registry (key_prefix : string) (visible_nodes : nat) : result string unit :=
  guard_err (visible_nodes =? 0)
    ("etcd partition probe found no node registry keys under " +:+ key_prefix).

Definition probe_once (c : PartitionPolicyConfig) (connected : bool) (i : ProbeInput) :
    result string unit * bool :=
  if negb (connected || probe_connects i) then (Err "connect etcd for partition probe"%string, false)
  else
    let key_prefix := trim_end "/"%char (pp_key_prefix c) +:+ "/nodes/" in
    match probe_get i with
    | Ok n => (validate_visible_node_registry key_prefix n, true)
    | Err e => (Err e, false)
    end.

Definition monitor_turn (c : PartitionPolicyConfig) (st : PartitionGate * bool) (i : ProbeInput) :
    PartitionGate * bool :=
  let '(g, connected) := st in
  match probe_once c connected i with
  | (Ok _, connected) => (record_probe_success g, connected)
  | (Err _, connected) => (record_probe_failure (probe_at i) g, connected)
  end.

(** [start]: no monitor without a configuration or without endpoints. *)
Definition monitor_start (config : option PartitionPolicyConfig) :
    option (PartitionPolicyConfig * PartitionGate) :=
  match policy_normalize <$> config with
  | None => None
  | Some c =>
      match pp_etcd_endpoints c with
      | [] => None
      | _ :: _ =>
          Some (c, gate_new (pp_failure_threshold c) (pp_local_stream_grace c) (pp_command_retry_delay c))
      end
  end.

Definition monitor_run (c : PartitionPolicyConfig) (g : PartitionGate) (inputs : list ProbeInput) :
    PartitionGate * bool :=
  foldl (monitor_turn c) (g, false) inputs.

(** ** What the gate promises

    The failures at the end of the history of probes, latest first, and the
    instant at which the run of failures reached the threshold. *)

Fixpoint outcomes (c : PartitionPolicyConfig) (connected : bool) (inputs : list ProbeInput) : list (bool * Z) :=
  match inputs with
  | [] => []
  | i :: inputs =>
      let '(r, connected) := probe_once c connected i in
      (match r with Ok _ => true | Err _ => false end, probe_at i) :: outcomes c connected inputs
  end.

Fixpoint failing_suffix (run : list Z) (history : list (bool * Z)) : list Z :=
  match history with
  | [] => run
  | (true, _) :: history => failing_suffix [] history
  | (false, at_) :: history => failing_suffix (run ++ [at_]) history
  end.

Definition partition_onset (threshold : Z) (run : list Z) : option Z :=
  run !! Z.to_nat (threshold - 1).

(** ** Lemmas *)

Definition gate_matches (threshold : Z) (g : PartitionGate) (run : list Z) : Prop :=
  gate_failure_threshold g = threshold /\
  consecutive_failures (gate_state g) = Z.min U32_MAX (zlen run) /\
  partitioned_since (gate_state g) = partition_onset threshold run.

Lemma gate_matches_success t g run : (1 <= t)%Z -> gate_matches t g run -> gate_matches t (record_probe_success g) [].
Proof. intros Ht (? & _ & _). repeat split; try done. Qed.

Lemma gate_matches_failure t g run now :
  (1 <= t <= U32_MAX)%Z -> gate_matches t g run -> gate_matches t (record_probe_failure now g) (run ++ [now]).
Proof.
  intros Ht (Hg & Hf & Hs). unfold gate_matches, record_probe_failure, set_partition; cbn.
  rewrite Hg, Hf, Hs, zlen_app. unfold partition_onset, U32_MAX in *.
  assert (zlen [now] = 1%Z) as -> by done. pose proof (zlen_nonneg run).
  split; [done|]. split; [lia|].
  destruct (Z.leb_spec t (Z.min (2 ^ 32 - 1) (Z.min (2 ^ 32 - 1) (zlen run) + 1))) as [Hle|Hgt]; cbn.
  - case_bool_decide as Hn.
    + apply lookup_ge_None in Hn. unfold zlen in *.
      rewrite lookup_app_r by lia. by replace (_ - _)%nat with 0 by lia.
    + destruct (run !! Z.to_nat (t - 1)) eqn:E; [|done]. by erewrite lookup_app_l_Some.
  - unfold zlen in *. rewrite (proj2 (lookup_ge_None run _)) by lia.
    symmetry. apply lookup_ge_None. rewrite length_app. cbn. lia.
Qed.

Lemma monitor_matches c t inputs g connected run :
  (1 <= t <= U32_MAX)%Z -> gate_matches t g run ->
  gate_matches t (fst (foldl (monitor_turn c) (g, connected) inputs))
    (failing_suffix run (outcomes c connected inputs)).
Proof.
  intros Ht. revert g connected run; induction inputs as [|i inputs IH]; intros g connected run Hg; [done|].
  cbn [foldl outcomes]. unfold monitor_turn at 2. destruct (probe_once c connected i) as [[[]|e] cn]; cbn.
  - apply IH. eapply gate_matches_success; [lia|done].
  - apply IH. by apply gate_matches_failure.
Qed.

Lemma monitor_grace c inputs g connected :
  gate_local_stream_grace (fst (foldl (monitor_turn c) (g, connected) inputs)) = gate_local_stream_grace g.
Proof.
  revert g connected; induction inputs as [|i inputs IH]; intros g b; [done|]. cbn [foldl].
  unfold monitor_turn at 2. destruct (probe_once c b i) as [[[]|e] cn]; by rewrite IH.
Qed.

Lemma policy_normalize_threshold c :
  (0 <= pp_failure_threshold c <= U32_MAX)%Z ->
  (1 <= pp_failure_threshold (policy_normalize c) <= U32_MAX)%Z.
Proof. cbn. unfold if_zero, DEFAULT_FAILURE_THRESHOLD, U32_MAX. case_match; bools; lia. Qed.

(** C25: the gate is a function of the history of probes: whatever connections and
    requests did, mutating commands are rejected exactly when the last probes, at
    least as many as the configured threshold, all failed (a probe that cannot
    connect, whose request fails, or that sees no node counts), the partition
    starts at the probe that reached the threshold, and a stream may go on exactly
    when there is no partition or it started before it and the grace is not over. *)
Theorem partition_gate_exact config c g inputs :
  monitor_start (Some config) = Some (c, g) ->
  (0 <= pp_failure_threshold config <= U32_MAX)%Z -> (0 <= pp_local_stream_grace config)%Z ->
  let run := failing_suffix [] (outcomes c false inputs) in
  let gate := fst (monitor_run c g inputs) in
  let onset := partition_onset (pp_failure_threshold c) run in
  (mutation_allowed gate = true <-> (zlen run < pp_failure_threshold c)%Z) /\
  partitioned_since (gate_state gate) = onset /\
  forall started now,
    local_stream_allowed gate started now = true <->
    match onset with
    | None => True
    | Some since => (started <= since /\ now - since <= pp_local_stream_grace c)%Z
    end.
Proof.
  intros Hs Hr Hg run gate onset. unfold monitor_start in Hs. cbn [fmap option_fmap option_map] in Hs.
  pose proof (policy_normalize_threshold _ Hr) as Ht.
  destruct (pp_etcd_endpoints (policy_normalize config)); [done|]. simplify_eq.
  destruct (monitor_matches (policy_normalize config) _ inputs
    (gate_new (pp_failure_threshold (policy_normalize config))
       (pp_local_stream_grace (policy_normalize config))
       (pp_command_retry_delay (policy_normalize config))) false [] Ht) as (_ & _ & Ho).
  { repeat split. }
  fold run in Ho. change (fst _) with gate in Ho. fold onset in Ho.
  assert (gate_local_stream_grace gate = pp_local_stream_grace (policy_normalize config)) as Hgr
    by apply monitor_grace.
  split; [|split; [done|]].
  - unfold mutation_allowed. rewrite Ho. rewrite bool_decide_eq_true. unfold onset, partition_onset.
    rewrite lookup_ge_None. unfold zlen. lia.
  - intros started now. unfold local_stream_allowed. rewrite Ho, Hgr. unfold local_stream_allowed_with_now.
    destruct onset as [since|]; [|done]. unfold duration_since.
    destruct (Z.ltb_spec since started); [split; [done|lia]|].
    rewrite Z.leb_le. cbn. unfold if_zero, DEFAULT_LOCAL_STREAM_GRACE. case_match; bools; lia.
Qed.

Definition gate_config : PartitionPolicyConfig := MkPolicy ["e1"%string] "/c/" 0 2 0 0.

Definition failing_probes : list ProbeInput :=
  [MkProbe true (Ok 1) 10; MkProbe false (Ok 0) 20; MkProbe false (Err "timeout"%string) 30;
   MkProbe false (Ok 3) 40].

Lemma partition_gate_exact_witness :
  mutation_allowed (fst (monitor_run (policy_normalize gate_config) (gate_new 2 30000 2000) failing_probes)) = false /\
  partitioned_since (gate_state (fst (monitor_run (policy_normalize gate_config) (gate_new 2 30000 2000)
    failing_probes))) = Some 30%Z.
Proof.
  destruct (partition_gate_exact gate_config (policy_normalize gate_config) (gate_new 2 30000 2000)
    failing_probes eq_refl) as (H1 & H2 & _); [vm_compute; split; congruence|vm_compute; congruence|].
  split; [|exact H2]. vm_compute. reflexivity.
Defined.
