(* ===== verification/ControlBus.v ===== *)
(** * The command consumer of a node

    [vmd/src/control_bus.rs]: each node pulls command messages from a shared
    durable consumer and processes every one in a task of its own: duplicate
    suppression in etcd and in memory, single-owner guards, the ownership fence of
    the session, the handler, and the acknowledgement. The handlers that drive a
    virtual machine ([exec.run], [exec.stream.start]) are operations whose result
    the world decides; log output is left out. Instants and durations are
    milliseconds. *)

From S2P Require Import Prelude ContentHash Effects Etcd.
From Stdlib Require Import ZArith Lia Ascii.

(** ** Parameters: JSON and the standard hasher

    [serde_json] decodes what the bus carries; [DefaultHasher] is an unspecified
    64-bit hash of the strings written to it. *)

Record CommandEnvelope (V : Type) := MkEnvelope {
  command_id : string;
  idempotency_key : string;
  command_type : string;
  ordering_key : string;
  expected_fence : option string;
  target_node_id : option string;
  payload : V;
}.
Arguments MkEnvelope {V}.
Arguments command_id {V}.
Arguments idempotency_key {V}.
Arguments command_type {V}.
Arguments ordering_key {V}.
Arguments expected_fence {V}.
Arguments target_node_id {V}.
Arguments payload {V}.

(** The fields of the payloads that the modelled code reads. *)
Record ExecRunPayload := MkRunPayload { er_session_id : string; er_vm_id : string }.

Record ExecStreamStartPayload := MkStartPayload {
  es_stream_id : string;
  es_logical_stream_id : string;
  es_cluster_id : string;
  es_producer_epoch : Z;
  es_session_id : string;
  es_vm_id : string;
}.

Record ExecStreamInputPayload := MkInputPayload {
  ei_stream_id : string;
  ei_input_seq : Z;
  ei_input_kind : string;
  ei_data : option string;
  ei_producer_epoch : option Z;
  ei_session_id : string;
  ei_vm_id : string;
  ei_target_node_id : string;
  ei_signal : option Z;
}.

Class ControlJson := {
  jvalue : Type;
  decode_envelope : string -> result string (CommandEnvelope jvalue);
  get_str : string -> jvalue -> option string;      (** [v.get(field).and_then(Value::as_str)] *)
  decode_exec_run : jvalue -> result string ExecRunPayload;
  decode_exec_stream_start : jvalue -> result string ExecStreamStartPayload;
  decode_exec_stream_input : jvalue -> result string ExecStreamInputPayload;
  reserialized : string -> option string;           (** a text parsed as any value and printed again *)
  raw_payload_object : string -> string;            (** [{"raw_payload": text}] *)
}.

(** Printing a parsed value does not change what it decodes to; a decoded [u64] is
    one. *)
Class ControlJsonLaws `{ControlJson} : Prop := {
  decode_reserialized : forall s s', reserialized s = Some s' -> decode_envelope s' = decode_envelope s;
  input_seq_u64 : forall v p, decode_exec_stream_input v = Ok p -> is_u64 (ei_input_seq p);
}.

Class StdHash := { default_hash : list string -> Z }.
Class StdHashLaws `{StdHash} : Prop := { default_hash_u64 : forall l, is_u64 (default_hash l) }.

(** ** Text helpers *)

(** [{shard:02}] *)
Definition pad2 (n : Z) : string := if (n <? 10)%Z then "0" +:+ pretty n else pretty n.

(** [s.map(str::trim).filter(|v| !v.is_empty())] *)
Definition trimmed_non_empty (s : option string) : option string :=
  match trim <$> s with
  | Some v => if is_empty_str v then None else Some v
  | None => None
  end.

(** [String::from_utf8] succeeds: lead bytes and the ranges of what may follow. *)
Fixpoint utf8_valid (need : nat) (lo hi : N) (s : string) : bool :=
  match s with
  | EmptyString => need =? 0
  | String a s =>
      let b := N_of_ascii a in
      match need with
      | S need => ((lo <=? b) && (b <=? hi))%N && utf8_valid need 0x80 0xbf s
      | O =>
          if (b <? 0x80)%N then utf8_valid 0 lo hi s
          else if (b <? 0xc2)%N then false
          else if (b <? 0xe0)%N then utf8_valid 1 0x80 0xbf s
          else if (b <? 0xf0)%N then
            utf8_valid 2 (if (b =? 0xe0)%N then 0xa0 else 0x80) (if (b =? 0xed)%N then 0x9f else 0xbf) s
          else if (b <? 0xf5)%N then
            utf8_valid 3 (if (b =? 0xf0)%N then 0x90 else 0x80) (if (b =? 0xf4)%N then 0x8f else 0xbf) s
          else false
      end
  end.
Definition from_utf8 (s : string) : bool := utf8_valid 0 0x80 0xbf s.

Definition is_continuation (a : ascii) : bool := (128 <=? N_of_ascii a)%N && (N_of_ascii a <? 192)%N.
Definition ascii_alphanumeric (a : ascii) : bool :=
  let n := N_of_ascii a in
  ((48 <=? n) && (n <=? 57) || (65 <=? n) && (n <=? 90) || (97 <=? n) && (n <=? 122))%N.

(** One output character per character: the continuation bytes of a multi-byte
    character produce nothing. *)
Fixpoint sanitize (keep : ascii -> bool) (s : string) : string :=
  match s with
  | EmptyString => EmptyString
  | String a s =>
      if is_continuation a then sanitize keep s
      else String (if ascii_alphanumeric a || keep a then a else "_"%char) (sanitize keep s)
  end.

Definition or_text (d s : string) : string := if is_empty_str s then d else s.

Definition sanitize_key_component (raw : string) : string :=
  or_text "key" (trim_matches "_"%char
    (sanitize (fun a => Ascii.eqb a "-" || Ascii.eqb a "_" || Ascii.eqb a ".") raw)).

Definition sanitize_subject_token (raw : string) : string :=
  or_text "command" (trim_matches "_"%char
    (sanitize (fun a => Ascii.eqb a "-" || Ascii.eqb a "_") raw)).

(** [s.split(pat).next()]: what precedes the first occurrence of [pat]. *)
Fixpoint before_pattern (pat s : string) : string :=
  if starts_with pat s then EmptyString
  else match s with EmptyString => EmptyString | String a s => String a (before_pattern pat s) end.

(** ** Messages and configuration *)

Record Message := MkMessage {
  m_id : nat;                  (** the position of the message in the stream *)
  m_subject : string;
  m_payload : string;
  m_delivered : option Z;      (** [info().delivered], when the reply subject parses *)
}.

Record ControlBusConfig := MkBusConfig {
  subject_prefix : string;
  dedupe_etcd_endpoints : list string;
  dedupe_prefix : string;
  command_max_deliver : Z;
  command_ack_wait_ms : Z;
  overload_retry_after_ms : Z;
  dead_letter_subject : string;
}.

Inductive AckKind := Ack | Nak (delay : option Z) | Term | Progress.
Global Instance AckKind_eq_dec : EqDecision AckKind.
Proof. solve_decision. Defined.

Record DeadLetterEnvelope := MkDeadLetter {
  dl_id : string;
  dl_command_id : string;
  dl_original_subject : string;
  dl_reason : string;
  dl_details : string;
  dl_delivered : Z;
  dl_node_id : string;
  dl_payload : string;         (** the text of the JSON value it carries *)
}.

Record ExecRunResult := MkRunResult {
  rr_command_id : string;
  rr_session_id : string;
  rr_vm_id : string;
  rr_error : option string;
  rr_node_id : string;
}.

Record ExecStreamEvent := MkStreamEvent {
  se_cluster_id : string;
  se_logical_stream_id : string;
  se_stream_id : string;
  se_event_seq : Z;
  se_event_id : string;
  se_producer_epoch : Z;
  se_command_id : string;
  se_session_id : string;
  se_vm_id : string;
  se_kind : string;
  se_error : option string;
  se_sequence : Z;
  se_node_id : string;
}.

Inductive Publication :=
| PubDeadLetter (d : DeadLetterEnvelope)
| PubRunResult (r : ExecRunResult)
| PubStreamEvent (e : ExecStreamEvent)
| PubOverloaded (node subject : string) (retry_after_ms : Z).

(** ** Operations of a task *)

(** A held [DistributedCommandInFlightGuard]; the lease is the one its key was
    written with, which the code does not keep. *)
Record InFlightGuard := MkGuard { ig_key : string; ig_owner : string; ig_lease : Z }.

(** What dropping a guard spawns. *)
Inductive ReleaseTask :=
| ReleaseLocal (node key : string)
| ReleaseInflight (node key owner : string).

Inductive HandlerKind := HExecRun | HExecStreamStart | HExecStreamInput.

Inductive BusE : Type -> Type :=
| BNow : BusE Z
| BUuid : BusE string
| BGate (node : string) : BusE bool
| BSeen (node key : string) (now ttl : Z) : BusE bool
| BCompletedGet (node key : string) (ttl : Z) : BusE bool
| BCompletedPut (node key : string) (ttl : Z) : BusE unit
| BGuardAcquire (node key : string) (ttl : Z) : BusE bool
| BEtcd {A : Type} (c : EtcdCall A) : BusE (result string A)
| BHeartbeat (message : nat) (interval_ms : Z) : BusE unit
| BTrigger (node : string) : BusE unit
| BHandler (node : string) (h : HandlerKind) (key : string) (guard : option InFlightGuard) :
    BusE (result string unit)
| BPublish (subject : string) (p : Publication) : BusE (result string unit)
| BAck (message : nat) (kind : AckKind) : BusE (result string unit)
| BSpawn (t : ReleaseTask) : BusE unit.

Abbreviation Bus := (prog BusE).
Definition etcd {A} (c : EtcdCall A) : Bus (result string A) := perform (BEtcd c).

(** An acknowledgement whose failure is only logged. *)
Definition ack_with (message : Message) (kind : AckKind) : Bus unit :=
  _ ← perform (BAck (m_id message) kind); Ret tt.

(** ** The dedupe store *)

Definition ETCD_DEDUPE_TTL_SECS : Z := 24 * 60 * 60.

Definition dedupe_store_prefix (config : ControlBusConfig) : option string :=
  match dedupe_etcd_endpoints config with
  | [] => None
  | _ :: _ => Some (trim_end "/"%char (dedupe_prefix config))
  end.

Definition marker_key (key_prefix idempotency_key : string) : string :=
  key_prefix +:+ "/" +:+ idempotency_key.
Definition completed_key (key_prefix idempotency_key : string) : string :=
  key_prefix +:+ "/completed/" +:+ idempotency_key.
Definition inflight_key (key_prefix idempotency_key : string) : string :=
  key_prefix +:+ "/inflight/" +:+ idempotency_key.

Definition mark_or_duplicate (key_prefix idempotency_key : string) : Bus (result string bool) :=
  let key := marker_key key_prefix idempotency_key in
  lease ←? etcd (ELeaseGrant ETCD_DEDUPE_TTL_SECS);
  succeeded ←? etcd (ETxn [CmpVersionZero key] [TxnPut key "1" (Some lease)]);
  Ret (Ok (negb succeeded)).

Definition is_completed (key_prefix idempotency_key : string) : Bus (result string bool) :=
  v ←? etcd (EGet (completed_key key_prefix idempotency_key));
  Ret (Ok (bool_decide (is_Some v))).

Definition mark_completed (key_prefix idempotency_key : string) : Bus (result string unit) :=
  lease ←? etcd (ELeaseGrant ETCD_DEDUPE_TTL_SECS);
  etcd (EPut (completed_key key_prefix idempotency_key) "1" (Some lease)).

Definition acquire_inflight (key_prefix idempotency_key owner : string) (ttl : Z) :
    Bus (result string (option InFlightGuard)) :=
  let key := inflight_key key_prefix idempotency_key in
  let ttl_secs := Z.min I64_MAX (Z.max 1 (ttl / 1000)) in
  lease ←? etcd (ELeaseGrant ttl_secs);
  succeeded ←? etcd (ETxn [CmpVersionZero key] [TxnPut key owner (Some lease)]);
  Ret (Ok (if succeeded then Some (MkGuard key owner lease) else None)).

Definition release_inflight_call (key owner : string) : EtcdCall bool :=
  ETxn [CmpValue key owner] [TxnDelete key].

(** ** The ownership fence *)

Definition shard_for_key `{StdHash} (key : string) (shard_count : Z) : Z :=
  (default_hash [key] mod Z.max 1 shard_count)%Z.

Definition ownership_fence_allows_transition (current expected : option string) : bool :=
  match expected with
  | Some e => bool_decide (current = Some e)
  | None => bool_decide (current = None)
  end.

(** A blank value counts as no fence. *)
Definition fence_value (v : option string) : result string (option string) :=
  match v with
  | Some v =>
      if negb (from_utf8 v) then Err "decode ownership fence value"%string
      else Ok (if is_empty_str (trim v) then None else Some v)
  | None => Ok None
  end.

Definition read_fence_value (key : string) : Bus (result string (option string)) :=
  v ←? etcd (EGet key); Ret (fence_value v).

Definition session_etcd_prefix_from_dedupe_prefix (dedupe_prefix : string) : string :=
  let first := before_pattern "/command-dedupe" (trim_end "/"%char (trim dedupe_prefix)) in
  if is_empty_str (trim first) then "/chevalier-sandbox" else first.

Record FenceStore := MkFenceStore { session_fences_prefix : string; session_shard_count : Z }.

Definition fence_store_connect (config : ControlBusConfig) : option FenceStore :=
  match dedupe_etcd_endpoints config with
  | [] => None
  | _ :: _ =>
      Some (MkFenceStore
        (trim_end "/"%char (session_etcd_prefix_from_dedupe_prefix (dedupe_prefix config))
         +:+ "/session_fences") 16)
  end.

Definition session_fence_key `{StdHash} (fs : FenceStore) (session_id : string) : string :=
  session_fences_prefix fs +:+ "/" +:+ pad2 (shard_for_key session_id (Z.max 1 (session_shard_count fs)))
  +:+ "/" +:+ session_id.
Definition legacy_session_fence_key (fs : FenceStore) (session_id : string) : string :=
  session_fences_prefix fs +:+ "/" +:+ session_id.

Definition check_session_fence `{StdHash} (fs : FenceStore) (session_id expected_fence : option string) :
    Bus (result string unit) :=
  let expected := trimmed_non_empty expected_fence in
  match trimmed_non_empty session_id with
  | None =>
      Ret (guard_err (bool_decide (is_Some expected)) "expected ownership fence requires session_id"%string)
  | Some session_id =>
      let key := session_fence_key fs session_id in
      let legacy := legacy_session_fence_key fs session_id in
      first ←? read_fence_value key;
      current ←? (if bool_decide (first = None) && negb (String.eqb key legacy)
                  then read_fence_value legacy else Ret (Ok first));
      Ret (guard_err (negb (ownership_fence_allows_transition current expected))
             ("session ownership fence mismatch for session_id=" +:+ session_id))
  end.

(** ** Envelopes *)

Section Consumer.
Context `{ControlJson, StdHash}.

Definition dedupe_key (envelope : CommandEnvelope jvalue) : Bus string :=
  if negb (is_empty_str (trim (idempotency_key envelope))) then Ret (trim (idempotency_key envelope))
  else if negb (is_empty_str (trim (command_id envelope))) then Ret (trim (command_id envelope))
  else u ← perform BUuid; Ret ("anon-" +:+ u).

Definition command_session_id (envelope : CommandEnvelope jvalue) : option string :=
  trimmed_non_empty (get_str "session_id" (payload envelope)).

Definition command_needs_single_owner (command_type : string) : bool :=
  String.eqb command_type "exec.run" || String.eqb command_type "exec.stream.start".
Definition command_needs_ack_progress (command_type : string) : bool :=
  String.eqb command_type "exec.run" || String.eqb command_type "exec.stream.start".

Definition ack_progress_interval (ack_wait_ms : Z) : Z :=
  Z.min 15000 (Z.max 500 (Z.max 1 ack_wait_ms / 2)).

Definition targeted_elsewhere (node_id : string) (envelope : CommandEnvelope jvalue) : bool :=
  match trimmed_non_empty (target_node_id envelope) with
  | Some target => negb (String.eqb target node_id)
  | None => false
  end.

(** ** Failures *)

Definition delivered (message : Message) : Z := Z.max 1 (default 1%Z (m_delivered message)).

Definition publish_dead_letter (message : Message) (config : ControlBusConfig)
    (node_id reason details : string) : Bus (result string unit) :=
  dead_letter_id ← perform BUuid;
  perform (BPublish (dead_letter_subject config)
    (PubDeadLetter (MkDeadLetter dead_letter_id
       (match decode_envelope (m_payload message) with Ok e => command_id e | Err _ => EmptyString end)
       (m_subject message) reason details (delivered message) node_id
       (default (raw_payload_object (m_payload message)) (reserialized (m_payload message)))))).

Definition handle_failed_command_message (message : Message) (config : ControlBusConfig)
    (node_id reason details : string) : Bus unit :=
  let max_deliver := Z.max 1 (command_max_deliver config) in
  if (max_deliver <=? delivered message)%Z then
    _ ← publish_dead_letter message config node_id reason details;
    ack_with message Term
  else ack_with message (Nak None).

Definition handle_overloaded_command_message (message : Message) (config : ControlBusConfig)
    (node_id : string) : Bus unit :=
  let retry_after_ms := Z.max 1 (overload_retry_after_ms config) in
  _ ← perform (BPublish (subject_prefix config +:+ ".evt.command.overloaded")
                 (PubOverloaded node_id (m_subject message) retry_after_ms));
  ack_with message (Nak (Some retry_after_ms)).

(** ** Results of handlers *)

Definition publish_exec_run_error_result (envelope : CommandEnvelope jvalue) (config : ControlBusConfig)
    (node_id error : string) : Bus (result string unit) :=
  match decode_exec_run (payload envelope) with
  | Err e => Ret (Err e)
  | Ok pl =>
      cid ← (if is_empty_str (trim (command_id envelope)) then perform BUuid
             else Ret (command_id envelope));
      perform (BPublish (subject_prefix config +:+ ".evt.exec.result." +:+ sanitize_subject_token cid)
        (PubRunResult (MkRunResult cid (er_session_id pl) (er_vm_id pl) (Some error) node_id)))
  end.

Definition next_stream_event_id (cluster_id : string) : Bus string :=
  u ← perform BUuid; Ret (sanitize_key_component cluster_id +:+ "-" +:+ u).

Definition publish_exec_stream_event (config : ControlBusConfig) (event : ExecStreamEvent) :
    Bus (result string unit) :=
  let logical := if is_empty_str (trim (se_logical_stream_id event)) then se_stream_id event
                 else se_logical_stream_id event in
  perform (BPublish (subject_prefix config +:+ ".evt.exec.stream." +:+ sanitize_subject_token logical)
             (PubStreamEvent event)).

Definition publish_exec_stream_handler_failure_event (envelope : CommandEnvelope jvalue)
    (config : ControlBusConfig) (node_id error_text : string) : Bus unit :=
  match decode_exec_stream_start (payload envelope) with
  | Err _ => Ret tt
  | Ok pl =>
      let stream_id := trim (es_stream_id pl) in
      if is_empty_str stream_id then Ret tt
      else
        let logical := if is_empty_str (trim (es_logical_stream_id pl)) then stream_id
                       else trim (es_logical_stream_id pl) in
        event_id ← next_stream_event_id (es_cluster_id pl);
        _ ← publish_exec_stream_event config
              (MkStreamEvent (es_cluster_id pl) logical stream_id 1 event_id (es_producer_epoch pl)
                 (command_id envelope) (es_session_id pl) (es_vm_id pl) "error"
                 (Some ("exec.stream.start handler failed: " +:+ error_text)) 1 node_id);
        Ret tt
  end.

(** ** Completion markers *)

Definition command_completed (dedupe_store : option string) (node_id key : string) (ttl : Z) :
    Bus (result string bool) :=
  hit ← perform (BCompletedGet node_id key ttl);
  if hit : bool then Ret (Ok true)
  else match dedupe_store with
       | Some store => is_completed store key
       | None => Ret (Ok false)
       end.

Definition mark_command_completed (dedupe_store : option string) (node_id key : string) (ttl : Z) :
    Bus (result string unit) :=
  _ ← perform (BCompletedPut node_id key ttl);
  match dedupe_store with
  | Some store => mark_completed store key
  | None => Ret (Ok tt)
  end.

(** ** Processing a message *)

(** Duplicate suppression: [true] when the message is to be acknowledged and
    dropped. A redelivery skips the duplicate markers and is dropped only when the
    command is marked complete; an error of the store is not a reason to drop. *)
Definition is_duplicate (dedupe_store : option string) (node_id key : string) (now ttl : Z)
    (is_redelivery : bool) : Bus bool :=
  if is_redelivery then
    r ← command_completed dedupe_store node_id key ttl;
    Ret (match r with Ok true => true | _ => false end)
  else
    duplicate ← match dedupe_store with
                | Some store =>
                    r ← mark_or_duplicate store key;
                    Ret (match r with Ok true => true | _ => false end)
                | None => Ret false
                end;
    if duplicate : bool then Ret true else perform (BSeen node_id key now ttl).

(** The distributed guard: [None] when another handler owns the command. *)
Definition acquire_distributed (dedupe_store : option string) (node_id cid key : string) (ttl : Z)
    (needs_single_owner : bool) : Bus (option (option InFlightGuard)) :=
  if needs_single_owner then
    match dedupe_store with
    | Some store =>
        u ← perform BUuid;
        r ← acquire_inflight store key (node_id +:+ ":" +:+ trim cid +:+ ":" +:+ u) ttl;
        Ret (match r with
             | Ok (Some guard) => Some (Some guard)
             | Ok None => None
             | Err _ => Some None
             end)
    | None => Ret (Some None)
    end
  else Ret (Some None).

(** Guards are dropped in the reverse order of their declaration; each drop spawns
    the task that releases it. *)
Definition drop_guards (node_id : string) (distributed : option InFlightGuard) (local : option string) :
    Bus unit :=
  _ ← (match local with Some key => perform (BSpawn (ReleaseLocal node_id key)) | None => Ret tt end);
  match distributed with
  | Some g => perform (BSpawn (ReleaseInflight node_id (ig_key g) (ig_owner g)))
  | None => Ret tt
  end.

(** The handler of a command; [true] when the command is to be marked complete and
    acknowledged, [false] when it was settled on the way. A command of an unknown
    type has no handler. *)
Definition dispatch (message : Message) (envelope : CommandEnvelope jvalue) (config : ControlBusConfig)
    (node_id : string) (dedupe_store : option string) (key : string) (ttl : Z)
    (guard : option InFlightGuard) : Bus bool :=
  let type := command_type envelope in
  if String.eqb type "reconcile.run" then _ ← perform (BTrigger node_id); Ret true
  else if String.eqb type "exec.run" then
    r ← perform (BHandler node_id HExecRun key guard);
    match r with
    | Ok _ => Ret true
    | Err err =>
        published ← publish_exec_run_error_result envelope config node_id err;
        match published with
        | Ok _ =>
            _ ← mark_command_completed dedupe_store node_id key ttl;
            _ ← ack_with message Ack; Ret false
        | Err _ =>
            _ ← handle_failed_command_message message config node_id "exec_run_failed" err; Ret false
        end
    end
  else if String.eqb type "exec.stream.start" then
    r ← perform (BHandler node_id HExecStreamStart key guard);
    match r with
    | Ok _ => Ret true
    | Err err =>
        _ ← (if (Z.max 1 (command_max_deliver config) <=? delivered message)%Z
             then publish_exec_stream_handler_failure_event envelope config node_id err else Ret tt);
        _ ← handle_failed_command_message message config node_id "exec_stream_start_failed" err;
        Ret false
    end
  else if String.eqb type "exec.stream.input" || String.eqb type "exec.stream.control" then
    r ← perform (BHandler node_id HExecStreamInput key guard);
    match r with
    | Ok _ => Ret true
    | Err err =>
        _ ← handle_failed_command_message message config node_id "exec_stream_input_failed" err;
        Ret false
    end
  else Ret true.

(** With the guards held: the fence, the heartbeat, the handler, the settlement. *)
Definition process_owned (message : Message) (envelope : CommandEnvelope jvalue) (config : ControlBusConfig)
    (node_id : string) (dedupe_store : option string) (fence_store : option FenceStore) (key : string)
    (ttl : Z) (guard : option InFlightGuard) : Bus unit :=
  fence ← match fence_store with
          | Some store => check_session_fence store (command_session_id envelope) (expected_fence envelope)
          | None => Ret (Ok tt)
          end;
  match fence with
  | Err err => handle_failed_command_message message config node_id "ownership_fence_conflict" err
  | Ok _ =>
      _ ← (if command_needs_ack_progress (command_type envelope)
           then perform (BHeartbeat (m_id message) (ack_progress_interval (command_ack_wait_ms config)))
           else Ret tt);
      done ← dispatch message envelope config node_id dedupe_store key ttl guard;
      if done : bool then
        _ ← mark_command_completed dedupe_store node_id key ttl;
        ack_with message Ack
      else Ret tt
  end.

(** [process_command_message]; [retry_delay] is set when a partition gate is
    configured. *)
Definition process_command_message (message : Message) (config : ControlBusConfig) (node_id : string)
    (dedupe_store : option string) (fence_store : option FenceStore) (retry_delay : option Z)
    (dedupe_ttl : Z) : Bus unit :=
  match decode_envelope (m_payload message) with
  | Err err => handle_failed_command_message message config node_id "invalid_envelope" err
  | Ok envelope =>
      if targeted_elsewhere node_id envelope then ack_with message (Nak (Some 250%Z))
      else
        allowed ← match retry_delay with Some _ => perform (BGate node_id) | None => Ret true end;
        if negb allowed then ack_with message (Nak retry_delay)
        else
          now ← perform BNow;
          key ← dedupe_key envelope;
          duplicate ← is_duplicate dedupe_store node_id key now dedupe_ttl (1 <? delivered message)%Z;
          if duplicate : bool then ack_with message Ack
          else
            let single := command_needs_single_owner (command_type envelope) in
            distributed ← acquire_distributed dedupe_store node_id (command_id envelope) key dedupe_ttl single;
            match distributed with
            | None => ack_with message Progress
            | Some guard =>
                local ← (if single then perform (BGuardAcquire node_id key dedupe_ttl) else Ret true);
                if negb local then
                  _ ← ack_with message Progress; drop_guards node_id guard None
                else
                  _ ← process_owned message envelope config node_id dedupe_store fence_store key dedupe_ttl guard;
                  drop_guards node_id guard (if single then Some key else None)
            end
  end.

End Consumer.
