(* ===== verification/BusSystem.v ===== *)
(** * Nodes, brokers and time around the command consumer

    The world of the tasks of [ControlBus.v]: the coordination store, the maps each
    node keeps in memory, the clock, the spawned release tasks and a log of what was
    run, published and acknowledged. The broker is left free: any message may be
    delivered to any node at any time and any number of times. *)

From S2P Require Import Prelude ContentHash Effects Etcd PartitionGate ControlBus.
From Stdlib Require Import ZArith Lia Ascii.

(** ** What a node keeps in memory *)

Record NodeLocal := MkNode {
  seen_commands : gmap string Z;
  active_commands : gmap string Z;
  completed_commands : gmap string Z;
}.

Definition empty_node : NodeLocal := MkNode ∅ ∅ ∅.

(** [map.retain(|_, ts| now.duration_since(ts) < ttl)] *)
Definition retain_young (now ttl : Z) (m : gmap string Z) : gmap string Z :=
  filter (fun kv => (duration_since now kv.2 < ttl)%Z) m.

(** The duplicate check of a first delivery, under the mutex of [seen_commands]. *)
Definition seen_section (key : string) (now ttl : Z) (n : NodeLocal) : bool * NodeLocal :=
  let seen := retain_young now ttl (seen_commands n) in
  match seen !! key with
  | Some _ => (true, MkNode seen (active_commands n) (completed_commands n))
  | None => (false, MkNode (<[key := now]> seen) (active_commands n) (completed_commands n))
  end.

Definition completed_section (key : string) (now ttl : Z) (n : NodeLocal) : bool * NodeLocal :=
  let completed := retain_young now ttl (completed_commands n) in
  (bool_decide (is_Some (completed !! key)), MkNode (seen_commands n) (active_commands n) completed).

Definition mark_completed_section (key : string) (now ttl : Z) (n : NodeLocal) : NodeLocal :=
  MkNode (seen_commands n) (active_commands n)
    (<[key := now]> (retain_young now ttl (completed_commands n))).

(** [CommandInFlightGuard::acquire] and its release. *)
Definition guard_acquire (key : string) (now ttl : Z) (n : NodeLocal) : bool * NodeLocal :=
  let active := retain_young now ttl (active_commands n) in
  match active !! key with
  | Some _ => (false, MkNode (seen_commands n) active (completed_commands n))
  | None => (true, MkNode (seen_commands n) (<[key := now]> active) (completed_commands n))
  end.

Definition guard_release (key : string) (n : NodeLocal) : NodeLocal :=
  MkNode (seen_commands n) (delete key (active_commands n)) (completed_commands n).

(** ** The world *)

Inductive BusEvent :=
| EvRun (node key : string) (r : result string unit)
| EvPublish (subject : string) (p : Publication) (r : result string unit)
| EvAck (message : nat) (kind : AckKind)
| EvTrigger (node : string).

Section World.
Context `{EtcdServer}.

Record BusWorld := MkWorld {
  bw_now : Z;
  bw_etcd : estate;
  bw_nodes : gmap string NodeLocal;
  bw_uuids : gset string;
  bw_spawned : list ReleaseTask;
  bw_log : list BusEvent;
}.

Definition node_of (w : BusWorld) (node : string) : NodeLocal := default empty_node (bw_nodes w !! node).

Definition set_now (t : Z) (w : BusWorld) : BusWorld :=
  MkWorld t (bw_etcd w) (bw_nodes w) (bw_uuids w) (bw_spawned w) (bw_log w).
Definition set_etcd (s : estate) (w : BusWorld) : BusWorld :=
  MkWorld (bw_now w) s (bw_nodes w) (bw_uuids w) (bw_spawned w) (bw_log w).
Definition set_node (node : string) (n : NodeLocal) (w : BusWorld) : BusWorld :=
  MkWorld (bw_now w) (bw_etcd w) (<[node := n]> (bw_nodes w)) (bw_uuids w) (bw_spawned w) (bw_log w).
Definition add_uuid (u : string) (w : BusWorld) : BusWorld :=
  MkWorld (bw_now w) (bw_etcd w) (bw_nodes w) ({[u]} ∪ bw_uuids w) (bw_spawned w) (bw_log w).
Definition set_spawned (ts : list ReleaseTask) (w : BusWorld) : BusWorld :=
  MkWorld (bw_now w) (bw_etcd w) (bw_nodes w) (bw_uuids w) ts (bw_log w).
Definition log_event (e : BusEvent) (w : BusWorld) : BusWorld :=
  MkWorld (bw_now w) (bw_etcd w) (bw_nodes w) (bw_uuids w) (bw_spawned w) (bw_log w ++ [e]).

(** What the world decides: the fate of a remote call, a fresh identifier, the
    state of the gate, the outcome of a handler, a publication or an
    acknowledgement. *)
Inductive BusChoice :=
| CStep
| CFault (f : Fault)
| CUuid (u : string)
| CGate (b : bool)
| CResult (r : result string unit).

(** [Uuid]s are 36 characters and never repeat. *)
Definition uuid_ok (u : string) (w : BusWorld) : bool :=
  (String.length u =? 36) && bool_decide (u ∉ bw_uuids w).

Definition bus_handle (A : Type) (e : BusE A) (w : BusWorld) (c : BusChoice) : option (A * BusWorld) :=
  match e in BusE A return option (A * BusWorld) with
  | BNow => match c with CStep => Some (bw_now w, w) | _ => None end
  | BUuid =>
      match c with
      | CUuid u => if uuid_ok u w then Some (u, add_uuid u w) else None
      | _ => None
      end
  | BGate _ => match c with CGate b => Some (b, w) | _ => None end
  | BSeen node key now ttl =>
      match c with
      | CStep => let '(b, n) := seen_section key now ttl (node_of w node) in Some (b, set_node node n w)
      | _ => None
      end
  | BCompletedGet node key ttl =>
      match c with
      | CStep =>
          let '(b, n) := completed_section key (bw_now w) ttl (node_of w node) in Some (b, set_node node n w)
      | _ => None
      end
  | BCompletedPut node key ttl =>
      match c with
      | CStep => Some (tt, set_node node (mark_completed_section key (bw_now w) ttl (node_of w node)) w)
      | _ => None
      end
  | BGuardAcquire node key ttl =>
      match c with
      | CStep => let '(b, n) := guard_acquire key (bw_now w) ttl (node_of w node) in Some (b, set_node node n w)
      | _ => None
      end
  | BEtcd ec =>
      match c with
      | CFault f => let '(r, s) := rpc (bw_now w) f ec (bw_etcd w) in Some (r, set_etcd s w)
      | _ => None
      end
  | BHeartbeat _ _ => match c with CStep => Some (tt, w) | _ => None end
  | BTrigger node => match c with CStep => Some (tt, log_event (EvTrigger node) w) | _ => None end
  | BHandler node _ key _ =>
      match c with CResult r => Some (r, log_event (EvRun node key r) w) | _ => None end
  | BPublish subject p =>
      match c with CResult r => Some (r, log_event (EvPublish subject p r) w) | _ => None end
  | BAck message kind =>
      match c with CResult r => Some (r, log_event (EvAck message kind) w) | _ => None end
  | BSpawn t => match c with CStep => Some (tt, set_spawned (bw_spawned w ++ [t]) w) | _ => None end
  end.

(** The handler a task is running: the operation it waits for. *)
Record Running := MkRunning {
  run_node : string;
  run_handler : HandlerKind;
  run_key : string;
  run_guard : option InFlightGuard;
}.

Definition running_op {A} (e : BusE A) : option Running :=
  match e with BHandler n h key guard => Some (MkRunning n h key guard) | _ => None end.

Definition running_prog {R} (p : Bus R) : option Running :=
  match p with Ret _ => None | Do e _ => running_op e end.

Definition running (s : System (E := BusE) (W := BusWorld) (T := string) (R := unit)) (i : nat) : option Running :=
  match tasks s !! i with Some (_, p) => running_prog p | None => None end.

(** ** What happens beside the tasks *)

Definition run_release (t : ReleaseTask) (f : Fault) (w : BusWorld) : BusWorld :=
  match t with
  | ReleaseLocal node key => set_node node (guard_release key (node_of w node)) w
  | ReleaseInflight _ key owner => set_etcd (snd (rpc (bw_now w) f (release_inflight_call key owner) (bw_etcd w))) w
  end.

(** The in-flight keys of the dedupe store. *)
Definition under_inflight (store k : string) : bool := starts_with (store +:+ "/inflight/") k.

(** Other clients of the store leave the in-flight keys alone; the leases they are
    granted are new. *)
Definition other_clients (store : string) (kv kv' : KV) : Prop :=
  (forall k, under_inflight store k = true -> kvs kv' !! k = kvs kv !! k) /\
  issued kv ⊆ issued kv' /\
  (forall id, id ∈ issued kv -> leases kv' !! id = leases kv !! id) /\
  (forall id, is_Some (leases kv' !! id) -> id ∈ issued kv').

Inductive bus_env (store : string) : BusWorld -> BusWorld -> Prop :=
| env_tick w d : (0 < d)%Z -> bus_env store w (set_now (bw_now w + d)%Z w)
| env_expire w id deadline :
    leases (eview (bw_etcd w)) !! id = Some deadline -> (deadline <= bw_now w)%Z ->
    bus_env store w (set_etcd (erevoke id (bw_etcd w)) w)
| env_release w l1 t l2 f :
    bw_spawned w = l1 ++ t :: l2 -> bus_env store w (run_release t f (set_spawned (l1 ++ l2) w))
| env_other w s : other_clients store (eview (bw_etcd w)) (eview s) -> bus_env store w (set_etcd s w).

(** A node that crashes loses its memory and its spawned tasks. *)
Definition task_node (t : ReleaseTask) : string :=
  match t with ReleaseLocal node _ | ReleaseInflight node _ _ => node end.

Definition bus_crash (node : string) (w : BusWorld) : BusWorld :=
  MkWorld (bw_now w) (bw_etcd w) (delete node (bw_nodes w)) (bw_uuids w)
    (List.filter (fun t => negb (String.eqb (task_node t) node)) (bw_spawned w)) (bw_log w).

(** ** The cluster *)

Context `{ControlJson, StdHash}.

(** Any node may start processing any message, with or without the dedupe store,
    the fences and the gate. *)
Definition bus_starts (store : string) (ttl : Z) (node : string) (p : Bus unit) (w : BusWorld) : Prop :=
  exists message config dedupe fence retry_delay,
    (dedupe = None \/ dedupe = Some store) /\
    p = process_command_message message config node dedupe fence retry_delay ttl.

Definition fresh_world (w : BusWorld) : Prop :=
  bw_nodes w = ∅ /\ bw_spawned w = [] /\ bw_log w = [] /\
  (forall id, is_Some (leases (eview (bw_etcd w)) !! id) -> id ∈ issued (eview (bw_etcd w))).

Definition bus_reachable (store : string) (ttl : Z) : System (E := BusE) (W := BusWorld) (T := string) (R := unit) -> Prop :=
  system_reachable bus_handle (bus_starts store ttl) (bus_env store) bus_crash fresh_world.
End World.

(** ** Checking the consumer against an ownership discipline

    Most of what a task of [ControlBus.v] does leaves what it owns alone. Given an
    ownership discipline that agrees ([neutral]), this file checks the programs
    between taking the guards and dropping them once, for every discipline. *)

(** Operations on anything but the store and the guards. *)
Definition plain {A} (e : BusE A) : bool :=
  match e with BEtcd _ | BHandler _ _ _ _ | BSpawn _ | BGuardAcquire _ _ _ => false | _ => true end.

Definition single_owner (h : HandlerKind) : bool :=
  match h with HExecRun | HExecStreamStart => true | HExecStreamInput => false end.

Section Check.
Context `{ControlJson, StdHash} {G X : Type}.
Context (pre : forall A, G -> BusE A -> Prop) (upd : forall A, G -> BusE A -> A -> G) (own : G -> X).
Context (store : string).

(** An operation that is allowed and leaves what is owned alone. *)
Definition neutral_op {A} (e : BusE A) : Prop :=
  forall g, pre _ g e /\ forall a, own (upd _ g e a) = own g.

Record neutral : Prop := {
  neutral_plain : forall A (e : BusE A), plain e = true -> neutral_op e;
  neutral_get : forall k, neutral_op (BEtcd (EGet k));
  neutral_grant : forall ttl, neutral_op (BEtcd (ELeaseGrant ttl));
  neutral_completed : forall key v l, neutral_op (BEtcd (EPut (completed_key store key) v l));
  neutral_mark : forall k l, neutral_op (BEtcd (ETxn [CmpVersionZero k] [TxnPut k "1" (Some l)]));
}.

Context (N : neutral).

Definition keeps {R} (m : Bus R) : Prop := forall g, prog_ok pre upd (fun g' _ => own g' = own g) g m.

Lemma bus_keeps_ret {R} (r : R) : keeps (Ret r).
Proof. by intros g. Qed.

Lemma keeps_op {A} (e : BusE A) : neutral_op e -> keeps (perform e).
Proof. intros He g. apply He. Qed.

Lemma bus_keeps_bind {A B} (m : Bus A) (f : A -> Bus B) : keeps m -> (forall a, keeps (f a)) -> keeps (m ≫= f).
Proof.
  intros Hm Hf g. eapply prog_ok_seq; [apply Hm|]. intros g' a Hg. cbn in Hg.
  eapply prog_ok_mono; [|apply Hf]. intros ? ?. cbn. congruence.
Qed.

Lemma keeps_try {A B} (m : Bus (result string A)) (f : A -> Bus (result string B)) :
  keeps m -> (forall a, keeps (f a)) -> keeps (try_bind m f).
Proof. intros Hm Hf. apply bus_keeps_bind; [done|]. intros [a|e]; [apply Hf|apply bus_keeps_ret]. Qed.

Lemma keeps_plain {A} (e : BusE A) : plain e = true -> keeps (perform e).
Proof. intros He. by apply keeps_op, neutral_plain. Qed.
Lemma keeps_get k : keeps (etcd (EGet k)).
Proof. apply keeps_op, neutral_get, N. Qed.
Lemma keeps_grant ttl : keeps (etcd (ELeaseGrant ttl)).
Proof. apply keeps_op, neutral_grant, N. Qed.
Lemma keeps_completed key v l : keeps (etcd (EPut (completed_key store key) v l)).
Proof. apply keeps_op, neutral_completed, N. Qed.
Lemma keeps_mark k l : keeps (etcd (ETxn [CmpVersionZero k] [TxnPut k "1" (Some l)])).
Proof. apply keeps_op, neutral_mark, N. Qed.

Ltac keeps_step :=
  first [ apply bus_keeps_ret | apply keeps_try | apply bus_keeps_bind | apply keeps_get | apply keeps_grant
        | apply keeps_mark | apply keeps_completed | (apply keeps_plain; reflexivity) ].
Ltac keeps_all := repeat first [ keeps_step | intros ? | case_match ].

Lemma keeps_ok {R} (m : Bus R) g x :
  keeps m -> own g = x -> prog_ok pre upd (fun g' _ => own g' = x) g m.
Proof. intros Hm <-. apply Hm. Qed.

Lemma keeps_end {R} (m : Bus R) g : keeps m -> prog_ok pre upd (fun _ _ => True) g m.
Proof. intros Hm. by eapply prog_ok_mono; [|apply Hm]. Qed.

Lemma keeps_ack message kind : keeps (ack_with message kind).
Proof. unfold ack_with. keeps_all. Qed.

Lemma keeps_failed message config node reason details :
  keeps (handle_failed_command_message message config node reason details).
Proof. unfold handle_failed_command_message, publish_dead_letter, ack_with. keeps_all. Qed.

Lemma keeps_run_error envelope config node error : keeps (publish_exec_run_error_result envelope config node error).
Proof. unfold publish_exec_run_error_result. keeps_all. Qed.

Lemma keeps_stream_failure envelope config node error :
  keeps (publish_exec_stream_handler_failure_event envelope config node error).
Proof.
  unfold publish_exec_stream_handler_failure_event, next_stream_event_id, publish_exec_stream_event. keeps_all.
Qed.

(** The dedupe store of a task is absent or the shared one. *)
Definition dedupe_ok (dedupe : option string) : Prop := dedupe = None \/ dedupe = Some store.

Lemma keeps_mark_completed dedupe node key ttl : dedupe_ok dedupe -> keeps (mark_command_completed dedupe node key ttl).
Proof. intros [-> | ->]; unfold mark_command_completed, mark_completed; keeps_all. Qed.

Lemma keeps_duplicate dedupe node key now ttl re : dedupe_ok dedupe -> keeps (is_duplicate dedupe node key now ttl re).
Proof.
  intros [-> | ->]; unfold is_duplicate, command_completed, is_completed, mark_or_duplicate; keeps_all.
Qed.

Lemma keeps_fence fs sid expected : keeps (check_session_fence fs sid expected).
Proof. unfold check_session_fence, read_fence_value. keeps_all. Qed.

Lemma keeps_dedupe_key envelope : keeps (dedupe_key envelope).
Proof. unfold dedupe_key. keeps_all. Qed.

(** What is owned allows the handlers of this command. *)
Definition allows_handler (single : bool) (key : string) (guard : option InFlightGuard) (node : string) (x : X) : Prop :=
  forall h g, own g = x -> (single_owner h = true -> single = true) ->
    pre _ g (BHandler node h key guard) /\ forall r, own (upd _ g (BHandler node h key guard) r) = x.

Lemma handler_ok {R} g single node h key guard x (f : result string unit -> Bus R) :
  allows_handler single key guard node x -> own g = x -> (single_owner h = true -> single = true) ->
  (forall r, keeps (f r)) ->
  prog_ok pre upd (fun g' _ => own g' = x) g (perform (BHandler node h key guard) ≫= f).
Proof.
  intros Ha Hg Hs Hf. destruct (Ha h g Hg Hs) as [Hp Hu]. split; [done|]. intros r. by apply (keeps_ok (f r)).
Qed.

Lemma dispatch_ok message envelope config node dedupe key ttl guard g x :
  dedupe_ok dedupe -> own g = x ->
  allows_handler (command_needs_single_owner (command_type envelope)) key guard node x ->
  prog_ok pre upd (fun g' _ => own g' = x) g (dispatch message envelope config node dedupe key ttl guard).
Proof.
  intros Hd Hg Ha. unfold dispatch, command_needs_single_owner in *.
  destruct (String.eqb (command_type envelope) "reconcile.run"); [apply keeps_ok; [keeps_all|done]|].
  destruct (String.eqb (command_type envelope) "exec.run") eqn:E1; [|
    destruct (String.eqb (command_type envelope) "exec.stream.start") eqn:E2; [|
      destruct (String.eqb (command_type envelope) "exec.stream.input" ||
                String.eqb (command_type envelope) "exec.stream.control")]];
    try (eapply handler_ok; [exact Ha|done|done|]; intros [[]|err]); try (apply keeps_ok; [|done]);
    repeat first [ apply keeps_run_error | apply keeps_failed | apply keeps_stream_failure | apply keeps_ack
                 | (apply keeps_mark_completed; done) | keeps_step | intros ? | case_match ].
Qed.

Lemma process_owned_ok message envelope config node dedupe fence key ttl guard g x :
  dedupe_ok dedupe -> own g = x ->
  allows_handler (command_needs_single_owner (command_type envelope)) key guard node x ->
  prog_ok pre upd (fun g' _ => own g' = x) g
    (process_owned message envelope config node dedupe fence key ttl guard).
Proof.
  intros Hd Hg Ha. unfold process_owned.
  eapply prog_ok_seq; [apply keeps_ok; [destruct fence; [apply keeps_fence|apply bus_keeps_ret]|exact Hg]|].
  intros g1 [[]|err] Hg1; [|by apply keeps_ok; [apply keeps_failed|]].
  eapply prog_ok_seq; [apply keeps_ok; [destruct (command_needs_ack_progress _); keeps_step|exact Hg1]|].
  intros g2 ? Hg2. cbn in Hg2. eapply prog_ok_seq; [by apply dispatch_ok|].
  intros g3 [] Hg3; [|by apply keeps_ok; [apply bus_keeps_ret|]]. apply keeps_ok; [|done].
  apply bus_keeps_bind; [by apply keeps_mark_completed|]. intros _. apply keeps_ack.
Qed.

(** The whole consumer, given what taking the guards establishes: [held key guard
    local x] says what is owned when the distributed guard is [guard] and the local
    one is held or not. *)
Lemma process_ok (held : string -> option InFlightGuard -> bool -> X -> Prop) message config node dedupe fence
    retry ttl g :
  dedupe_ok dedupe -> (forall key, held key None false (own g)) ->
  (forall key cid single g, held key None false (own g) ->
    prog_ok pre upd (fun g' r => match r with Some guard => held key guard false (own g') | None => True end) g
      (acquire_distributed dedupe node cid key ttl single)) ->
  (forall key guard g, held key guard false (own g) ->
    pre _ g (BGuardAcquire node key ttl) /\
    forall b, held key guard b (own (upd _ g (BGuardAcquire node key ttl) b))) ->
  (forall key guard single x, held key guard single x -> allows_handler single key guard node x) ->
  (forall key guard local g, held key guard local (own g) ->
    prog_ok pre upd (fun _ _ => True) g (drop_guards node guard (if local : bool then Some key else None))) ->
  prog_ok pre upd (fun _ _ => True) g (process_command_message message config node dedupe fence retry ttl).
Proof.
  intros Hd Hg Hacq Hloc Hhan Hdrop. unfold process_command_message.
  destruct (decode_envelope _) as [envelope|err]; [|apply keeps_end, keeps_failed].
  destruct (targeted_elsewhere node envelope); [apply keeps_end, keeps_ack|].
  eapply prog_ok_seq; [apply keeps_ok; [destruct retry; keeps_step|reflexivity]|].
  intros g1 allowed Hg1. destruct allowed; cbn [negb]; [|apply keeps_end, keeps_ack].
  eapply prog_ok_seq; [apply keeps_ok; [keeps_step|exact Hg1]|]. intros g2 now Hg2.
  eapply prog_ok_seq; [apply keeps_ok; [apply keeps_dedupe_key|exact Hg2]|]. intros g3 key Hg3.
  eapply prog_ok_seq; [apply keeps_ok; [by apply keeps_duplicate|exact Hg3]|]. intros g4 dup Hg4.
  destruct dup; [apply keeps_end, keeps_ack|]. cbn in Hg4.
  eapply prog_ok_seq; [apply (Hacq key); rewrite Hg4; apply Hg|].
  intros g5 [guard|] Hg5; [|apply keeps_end, keeps_ack]. cbn in Hg5.
  destruct (command_needs_single_owner (command_type envelope)) eqn:Es.
  - apply prog_ok_bind. destruct (Hloc key guard g5 Hg5) as [Hp Hu]. split; [done|]. intros [|]; cbn [prog_ok negb].
    + eapply prog_ok_seq; [eapply process_owned_ok; [done|reflexivity|]; rewrite Es; apply Hhan, Hu|].
      intros g7 ? Hg7. apply (Hdrop key guard true). cbn in Hg7. rewrite Hg7. apply Hu.
    + eapply prog_ok_seq; [apply keeps_ok; [apply keeps_ack|reflexivity]|].
      intros g7 ? Hg7. apply (Hdrop key guard false). cbn in Hg7. rewrite Hg7. apply Hu.
  - apply prog_ok_bind. cbn [prog_ok negb]. eapply prog_ok_seq; [eapply process_owned_ok; [done|reflexivity|]; rewrite Es; by apply Hhan|].
    intros g7 ? Hg7. apply (Hdrop key guard false). cbn in Hg7. by rewrite Hg7.
Qed.
End Check.
