(* ===== verification/BusSettle.v ===== *)
(** * How a command message is settled

    What one task of [ControlBus.v] tells the broker, along every path through its
    program: each message is answered exactly once, a failed command is retried until
    its deliveries are used up and then goes to the dead-letter subject, and nothing is
    acknowledged before its outcome is recorded. *)

From S2P Require Import Prelude ContentHash Effects Etcd ControlBus.
From Stdlib Require Import ZArith Lia.

(** What happened on the way. *)
Record Settlement := MkSettlement {
  st_acks : list AckKind;
  st_handled : option (result string unit);   (** the answer of the handler *)
  st_reported : option string;                (** an error result that was published *)
  st_dead : list (result string unit);        (** the dead letters sent, and what the broker answered *)
  st_marked : bool;                           (** the command was marked complete *)
}.

Definition unsettled : Settlement := MkSettlement [] None None [] false.

Definition settle_upd (A : Type) (s : Settlement) (e : BusE A) : A -> Settlement :=
  match e in BusE A return A -> Settlement with
  | BAck _ kind => fun _ =>
      MkSettlement (st_acks s ++ [kind]) (st_handled s) (st_reported s) (st_dead s) (st_marked s)
  | BHandler _ _ _ _ => fun r =>
      MkSettlement (st_acks s) (Some r) (st_reported s) (st_dead s) (st_marked s)
  | BPublish _ (PubRunResult res) => fun r =>
      MkSettlement (st_acks s) (st_handled s) (match r with Ok _ => rr_error res | Err _ => st_reported s end)
        (st_dead s) (st_marked s)
  | BPublish _ (PubDeadLetter _) => fun r =>
      MkSettlement (st_acks s) (st_handled s) (st_reported s) (st_dead s ++ [r]) (st_marked s)
  | BCompletedPut _ _ _ => fun _ =>
      MkSettlement (st_acks s) (st_handled s) (st_reported s) (st_dead s) true
  | _ => fun _ => s
  end.

Definition any_op (A : Type) (_ : Settlement) (_ : BusE A) : Prop := True.

(** Along every path of [p] from [s], [Q] holds at the end. *)
Definition every_path {R} (s : Settlement) (p : Bus R) (Q : Settlement -> R -> Prop) : Prop :=
  prog_ok any_op settle_upd Q s p.

Definition add_ack (kind : AckKind) (s : Settlement) : Settlement :=
  MkSettlement (st_acks s ++ [kind]) (st_handled s) (st_reported s) (st_dead s) (st_marked s).
Definition add_dead (r : result string unit) (s : Settlement) : Settlement :=
  MkSettlement (st_acks s) (st_handled s) (st_reported s) (st_dead s ++ [r]) (st_marked s).
Definition add_mark (s : Settlement) : Settlement :=
  MkSettlement (st_acks s) (st_handled s) (st_reported s) (st_dead s) true.
Definition add_handled (r : result string unit) (s : Settlement) : Settlement :=
  MkSettlement (st_acks s) (Some r) (st_reported s) (st_dead s) (st_marked s).

(** A program that records nothing. *)
Definition silent {R} (p : Bus R) : Prop := forall s, every_path s p (fun s' _ => s' = s).

Lemma silent_ret {R} (r : R) : silent (Ret r).
Proof. by intros s. Qed.
Lemma silent_bind {A B} (m : Bus A) (f : A -> Bus B) : silent m -> (forall a, silent (f a)) -> silent (m ≫= f).
Proof. intros Hm Hf s. eapply prog_ok_seq; [apply Hm|]. intros s' a ->. apply Hf. Qed.
Lemma silent_try {A B} (m : Bus (result string A)) (f : A -> Bus (result string B)) :
  silent m -> (forall a, silent (f a)) -> silent (try_bind m f).
Proof. intros Hm Hf. apply silent_bind; [done|]. intros [a|e]; [apply Hf|apply silent_ret]. Qed.
Lemma silent_op {A} (e : BusE A) : (forall s a, settle_upd _ s e a = s) -> silent (perform e).
Proof. intros He s. split; [done|]. intros a. apply He. Qed.

Ltac silent_step :=
  first [ apply silent_ret | apply silent_try | apply silent_bind | (apply silent_op; reflexivity) ].
Ltac silent_all := repeat first [ silent_step | intros ? | case_match ].

(** Follow with a silent program. *)
Lemma after_silent {A B} (m : Bus A) (f : A -> Bus B) s Q :
  silent m -> (forall a, every_path s (f a) Q) -> every_path s (m ≫= f) Q.
Proof. intros Hm Hf. eapply prog_ok_seq; [apply Hm|]. intros s' a ->. apply Hf. Qed.

Section Settle.
Context `{ControlJson, StdHash}.

Lemma ack_path message kind s : every_path s (ack_with message kind) (fun s' _ => s' = add_ack kind s).
Proof. done. Qed.

(** The settlement of a failure: a dead letter, whether or not the broker takes it,
    once the deliveries are used up. *)
Definition failed (message : Message) (config : ControlBusConfig) (s s' : Settlement) : Prop :=
  if (Z.max 1 (command_max_deliver config) <=? delivered message)%Z
  then exists r, s' = add_ack Term (add_dead r s)
  else s' = add_ack (Nak None) s.

Lemma failed_path message config node reason details s :
  every_path s (handle_failed_command_message message config node reason details)
    (fun s' _ => failed message config s s').
Proof.
  unfold handle_failed_command_message, failed, publish_dead_letter.
  destruct (Z.max 1 (command_max_deliver config) <=? delivered message)%Z; [|by cbn].
  cbn. split; [done|]. intros id. split; [done|]. intros r. split; [done|]. intros a. by exists r.
Qed.

Lemma mark_path dedupe node key ttl s :
  every_path s (mark_command_completed dedupe node key ttl) (fun s' _ => s' = add_mark s).
Proof.
  unfold mark_command_completed, mark_completed. split; [done|]. intros a.
  destruct dedupe; cbn; [|done]. split; [done|]. intros [l|e]; by cbn.
Qed.

Lemma report_path envelope config node error s :
  st_reported s = None ->
  every_path s (publish_exec_run_error_result envelope config node error)
    (fun s' r => s' = MkSettlement (st_acks s) (st_handled s)
                        (match r with Ok _ => Some error | Err _ => None end) (st_dead s) (st_marked s)).
Proof.
  intros Hs. unfold publish_exec_run_error_result.
  destruct (decode_exec_run _); [|cbn; destruct s; cbn in *; by subst].
  apply after_silent; [silent_all|]. intros cid. split; [done|]. intros [[]|e]; cbn; by rewrite ?Hs.
Qed.

(** Where the handler ends: the command is to be acknowledged, or was settled. *)
Definition dispatched (message : Message) (config : ControlBusConfig) (s s' : Settlement) (done : bool) : Prop :=
  if done then exists r, s' = MkSettlement (st_acks s) r (st_reported s) (st_dead s) (st_marked s)
                         /\ (r = st_handled s \/ r = Some (Ok tt))
  else exists err,
    failed message config (add_handled (Err err) s) s' \/
    s' = MkSettlement (st_acks s ++ [Ack]) (Some (Err err)) (Some err) (st_dead s) true.

Lemma handler_path {R} node h key guard (f : result string unit -> Bus R) s Q :
  (forall r, every_path (add_handled r s) (f r) Q) -> every_path s (perform (BHandler node h key guard) ≫= f) Q.
Proof. intros Hf. split; [done|]. intros r. apply (Hf r). Qed.

Lemma handled_ok message config s : dispatched message config s (add_handled (Ok tt) s) true.
Proof. exists (Some (Ok tt)). auto. Qed.

Lemma failed_dispatched message config node reason err s :
  every_path (add_handled (Err err) s)
    (_ ← handle_failed_command_message message config node reason err; Ret false)
    (fun s' done => dispatched message config s s' done).
Proof. eapply prog_ok_seq; [apply failed_path|]. intros s' a Hf. exists err. by left. Qed.

Lemma silent_stream_failure envelope config node error :
  silent (publish_exec_stream_handler_failure_event envelope config node error).
Proof.
  unfold publish_exec_stream_handler_failure_event, next_stream_event_id, publish_exec_stream_event. silent_all.
Qed.

Lemma dispatch_path message envelope config node dedupe key ttl guard s :
  st_reported s = None ->
  every_path s (dispatch message envelope config node dedupe key ttl guard)
    (fun s' done => dispatched message config s s' done).
Proof.
  intros Hs. unfold dispatch.
  assert (dispatched message config s s true) as Hnone by (exists (st_handled s); destruct s; auto).
  destruct (String.eqb _ "reconcile.run"); [by cbn|].
  destruct (String.eqb _ "exec.run"); [apply handler_path; intros [[]|err]; [apply handled_ok|]|].
  { eapply prog_ok_seq; [by apply report_path|]. intros s1 [[]|e] ->; [|].
    - eapply prog_ok_seq; [apply mark_path|]. intros s2 a2 ->. eapply prog_ok_seq; [apply ack_path|].
      intros s3 a3 ->. exists err. by right.
    - change (every_path (MkSettlement (st_acks s) (Some (Err err)) None (st_dead s) (st_marked s))
        (_ ← handle_failed_command_message message config node "exec_run_failed" err; Ret false)
        (fun s' done => dispatched message config s s' done)).
      rewrite <- Hs. apply failed_dispatched. }
  destruct (String.eqb _ "exec.stream.start"); [apply handler_path; intros [[]|err]; [apply handled_ok|]|].
  { apply after_silent; [case_match; [apply silent_stream_failure|apply silent_ret]|]. intros _.
    apply failed_dispatched. }
  destruct (_ || _); [apply handler_path; intros [[]|err]; [apply handled_ok|apply failed_dispatched]|done].
Qed.

Lemma silent_fence fs sid expected : silent (check_session_fence fs sid expected).
Proof. unfold check_session_fence, read_fence_value. silent_all. Qed.
Lemma silent_duplicate dedupe node key now ttl re : silent (is_duplicate dedupe node key now ttl re).
Proof. unfold is_duplicate, command_completed, is_completed, mark_or_duplicate. silent_all. Qed.
Lemma silent_acquire dedupe node cid key ttl single : silent (acquire_distributed dedupe node cid key ttl single).
Proof. unfold acquire_distributed, acquire_inflight. silent_all. Qed.
Lemma silent_drop node guard local : silent (drop_guards node guard local).
Proof. unfold drop_guards. silent_all. Qed.
Lemma silent_dedupe_key envelope : silent (dedupe_key envelope).
Proof. unfold dedupe_key. silent_all. Qed.

(** The final state of a message: one answer, and a dead letter was sent exactly if
    that answer ends a message whose deliveries are used up. *)
Definition settled (message : Message) (config : ControlBusConfig) (s : Settlement) : Prop :=
  let exhausted := (Z.max 1 (command_max_deliver config) <= delivered message)%Z in
  exists kind, st_acks s = [kind] /\
    match kind with
    | Ack =>
        st_dead s = [] /\
        match st_handled s with
        | None => True
        | Some (Ok _) => st_marked s = true
        | Some (Err e) => st_reported s = Some e /\ st_marked s = true
        end
    | Term => exhausted /\ (exists r, st_dead s = [r]) /\ st_handled s ≠ Some (Ok tt)
    | Nak None => ~ exhausted /\ st_dead s = [] /\ st_handled s ≠ Some (Ok tt)
    | Nak (Some _) | Progress => st_dead s = [] /\ st_handled s = None
    end.

Lemma settled_failed message config s s' :
  st_acks s = [] -> st_dead s = [] -> st_handled s ≠ Some (Ok tt) -> failed message config s s' -> settled message config s'.
Proof.
  intros Ha Hd Hh. unfold failed, settled.
  destruct (Z.leb_spec (Z.max 1 (command_max_deliver config)) (delivered message)).
  - intros [r ->]. exists Term. cbn. rewrite Ha, Hd. cbn. split_and!; [done|done|by exists r|done].
  - intros ->. exists (Nak None). cbn. rewrite Ha. split; [done|]. split; [lia|done].
Qed.

Lemma process_owned_path message envelope config node dedupe fence key ttl guard :
  every_path unsettled (process_owned message envelope config node dedupe fence key ttl guard)
    (fun s _ => settled message config s).
Proof.
  unfold process_owned. apply after_silent; [destruct fence; [apply silent_fence|apply silent_ret]|].
  intros [[]|err].
  2: { eapply prog_ok_mono; [|apply failed_path]. intros s a Hf. by apply (settled_failed _ _ unsettled). }
  apply after_silent; [destruct (command_needs_ack_progress _); silent_all|]. intros _.
  eapply prog_ok_seq; [by apply dispatch_path|]. intros s [] Hs; cbn in Hs.
  - destruct Hs as (r & -> & Hr). eapply prog_ok_seq; [apply mark_path|]. intros s2 a2 ->.
    eapply prog_ok_mono; [|apply ack_path]. intros s3 a3 ->. exists Ack. split; [done|].
    cbn in *. destruct Hr as [-> | ->]; done.
  - destruct Hs as (err & [Hf | ->]); cbn; [by apply (settled_failed _ _ (add_handled (Err err) unsettled))|]. by exists Ack.
Qed.

End Settle.
