(* ===== verification/BusExclusion.v ===== *)
(** * One owner per command across the cluster

    The distributed in-flight guard of [ControlBus.v]: a key created by a
    transaction that requires its absence, with a lease, and removed by a transaction
    that requires the value of its owner. The proof follows what each task owns of
    the store: a fresh identifier, a lease it was granted, a guard. *)

From S2P Require Import Prelude ContentHash Effects Etcd PartitionGate ControlBus BusSystem.
From Stdlib Require Import ZArith Lia Ascii.

(** ** Stamps: the identifier at the end of an owner *)

Definition stamp (owner : string) : string := str_drop (String.length owner - 36) owner.

Lemma stamp_app s u : String.length u = 36 -> stamp (s +:+ u) = u.
Proof.
  intros Hu. unfold stamp. rewrite str_length_app.
  replace (String.length s + String.length u - 36) with (String.length s) by lia. apply str_drop_app.
Qed.

Lemma elem_of_option_list {A} (o : option A) x : x ∈ option_list o <-> o = Some x.
Proof. destruct o; cbn; rewrite ?list_elem_of_singleton, ?elem_of_nil; naive_solver. Qed.

(** ** What a task owns *)

Record LeaseGhost := MkLG {
  lg_fresh : option string;
  lg_granted : option Z;
  lg_guard : option InFlightGuard;
}.

Definition stamps (g : LeaseGhost) : list string :=
  option_list (lg_fresh g) ++ option_list (stamp ∘ ig_owner <$> lg_guard g).

Lemma stamps_unguarded f l : stamps (MkLG f l None) = option_list f.
Proof. unfold stamps. cbn. by rewrite app_nil_r. Qed.

Definition no_ghost : LeaseGhost := MkLG None None None.

Section Exclusion.
Context `{EtcdLaws} `{ControlJson, StdHash} (store : string) (ttl : Z).

(** The value of a new key under the in-flight prefix is a marker or an owner with
    the task's fresh identifier and lease. *)
Definition create_ok (g : LeaseGhost) (k v : string) (l : Z) : Prop :=
  v = "1"%string \/
  (under_inflight store k = true /\ lg_guard g = None /\ lg_granted g = Some l /\
   exists s u, lg_fresh g = Some u /\ v = s +:+ u).

Definition etcd_pre {A} (g : LeaseGhost) (c : EtcdCall A) : Prop :=
  match c with
  | EGet _ | EGetPrefix _ | ELeaseGrant _ => True
  | EPut k _ _ => under_inflight store k = false
  | EDelete _ => False
  | ETxn [CmpVersionZero k] [TxnPut k' v (Some l)] => k' = k /\ create_ok g k v l
  | ETxn _ _ => False
  end.

Definition etcd_upd {A} (g : LeaseGhost) (c : EtcdCall A) : result string A -> LeaseGhost :=
  match c in EtcdCall A return result string A -> LeaseGhost with
  | ELeaseGrant _ => fun r =>
      match r with Ok l => MkLG (lg_fresh g) (Some l) (lg_guard g) | Err _ => g end
  | ETxn [CmpVersionZero k] [TxnPut _ v (Some l)] => fun r =>
      if String.eqb v "1" then g
      else MkLG None (lg_granted g) (match r with Ok true => Some (MkGuard k v l) | _ => None end)
  | _ => fun _ => g
  end.

Definition lease_pre (A : Type) (g : LeaseGhost) (e : BusE A) : Prop :=
  match e with
  | BEtcd c => etcd_pre g c
  | BSpawn (ReleaseInflight _ k o) =>
      match lg_guard g with Some d => ig_key d = k /\ ig_owner d = o | None => False end
  | BHandler _ _ key guard =>
      guard = lg_guard g /\
      match guard with Some d => ig_key d = inflight_key store key | None => True end
  | _ => True
  end.

Definition lease_upd (A : Type) (g : LeaseGhost) (e : BusE A) : A -> LeaseGhost :=
  match e in BusE A return A -> LeaseGhost with
  | BUuid => fun u => MkLG (Some u) (lg_granted g) (lg_guard g)
  | BEtcd c => etcd_upd g c
  | BSpawn (ReleaseInflight _ _ _) => fun _ => MkLG (lg_fresh g) (lg_granted g) None
  | _ => fun _ => g
  end.

(** ** The invariant *)

Definition guard_holds (kv : KV) (uuids : gset string) (d : InFlightGuard) : Prop :=
  under_inflight store (ig_key d) = true /\ stamp (ig_owner d) ∈ uuids /\ ig_lease d ∈ issued kv /\
  (is_Some (leases kv !! ig_lease d) -> kvs kv !! ig_key d = Some (MkCell (ig_owner d) (Some (ig_lease d)))).

Definition ghost_holds (kv : KV) (uuids : gset string) (g : LeaseGhost) : Prop :=
  (forall d, lg_guard g = Some d -> guard_holds kv uuids d) /\
  (forall u, lg_fresh g = Some u -> u ∈ uuids /\ String.length u = 36) /\
  (forall l, lg_granted g = Some l -> l ∈ issued kv) /\
  NoDup (stamps g).

Definition release_stamp (t : ReleaseTask) : option string :=
  match t with ReleaseInflight _ _ o => Some (stamp o) | ReleaseLocal _ _ => None end.

Record lease_inv (w : BusWorld) (γ : gmap nat (string * LeaseGhost)) : Prop := {
  li_leases : forall id, is_Some (leases (eview (bw_etcd w)) !! id) -> id ∈ issued (eview (bw_etcd w));
  li_ghosts : forall i t g, γ !! i = Some (t, g) -> ghost_holds (eview (bw_etcd w)) (bw_uuids w) g;
  li_apart : forall i j t t' g g' u,
    γ !! i = Some (t, g) -> γ !! j = Some (t', g') -> i ≠ j -> u ∈ stamps g -> u ∈ stamps g' -> False;
  li_tasks : forall t u, t ∈ bw_spawned w -> release_stamp t = Some u ->
    u ∈ bw_uuids w /\ forall i n g, γ !! i = Some (n, g) -> u ∉ stamps g;
}.

Lemma stamps_used kv uuids g u : ghost_holds kv uuids g -> u ∈ stamps g -> u ∈ uuids.
Proof.
  intros (Hg & Hf & _ & _). unfold stamps. rewrite elem_of_app, !elem_of_option_list.
  intros [Hu|Hu]; [by apply Hf|].
  destruct (lg_guard g) as [d|] eqn:Ed; [|done]. cbn in Hu. simplify_eq.
  by destruct (Hg d eq_refl) as (_ & ? & _).
Qed.

(** The world changes where no ghost looks. *)
Lemma lease_inv_world w w' γ :
  lease_inv w γ -> bw_etcd w' = bw_etcd w -> bw_uuids w' = bw_uuids w ->
  (forall t, t ∈ bw_spawned w' -> t ∈ bw_spawned w) -> lease_inv w' γ.
Proof.
  intros [Il Ig Ia It] He Hu Hs. split; rewrite ?He, ?Hu; try done.
  intros t u Ht. apply It. by apply Hs.
Qed.

(** The store changes so that every guard still holds. *)
Lemma lease_inv_store w γ s' :
  lease_inv w γ ->
  (forall id, is_Some (leases (eview s') !! id) -> id ∈ issued (eview s')) ->
  issued (eview (bw_etcd w)) ⊆ issued (eview s') ->
  (forall i t g d, γ !! i = Some (t, g) -> lg_guard g = Some d ->
    guard_holds (eview (bw_etcd w)) (bw_uuids w) d -> guard_holds (eview s') (bw_uuids w) d) ->
  lease_inv (set_etcd s' w) γ.
Proof.
  intros [Il Ig Ia It] Hl Hi Hg. split; cbn; try done.
  intros i t g Hig. destruct (Ig _ _ _ Hig) as (Ha & Hb & Hc & Hd). split; [|split; [done|split; [|done]]].
  - intros d Hd'. eapply Hg; [done..|]. by apply Ha.
  - intros l Hl'. by apply Hi, Hc.
Qed.

(** A task's ghost changes to one with no new stamp. *)
Lemma lease_inv_ghost w γ i t g g' :
  lease_inv w γ -> γ !! i = Some (t, g) -> ghost_holds (eview (bw_etcd w)) (bw_uuids w) g' ->
  (forall u, u ∈ stamps g' -> u ∈ stamps g) -> lease_inv w (<[i := (t, g')]> γ).
Proof.
  intros [Il Ig Ia It] Hi Hg Hst. split; try done.
  - intros j t' g0 Hj. destruct (decide (i = j)) as [<-|Hne]; simplify_map_eq; [done|by eapply Ig].
  - intros j k t1 t2 g1 g2 u Hj Hk Hne Hu1 Hu2.
    destruct (decide (i = j)) as [<-|]; destruct (decide (i = k)) as [<-|]; simplify_map_eq; eauto.
  - intros tk u Htk Hu. destruct (It _ _ Htk Hu) as [Hin Hno]. split; [done|].
    intros j n g0 Hj. destruct (decide (i = j)) as [<-|]; simplify_map_eq; [|by eapply Hno].
    intros Hu'. eapply Hno; [done|]. by apply Hst.
Qed.

Lemma ghost_holds_uuids kv uuids u g :
  ghost_holds kv uuids g -> ghost_holds kv ({[u]} ∪ uuids) g.
Proof.
  intros (Ha & Hb & Hc & Hd). split; [|split; [|done]].
  - intros d Hdd. destruct (Ha _ Hdd) as (? & ? & ? & ?). repeat split; try done. set_solver.
  - intros v Hv. destruct (Hb _ Hv). set_solver.
Qed.

(** A fresh identifier. *)
Lemma lease_inv_uuid w γ i t g u :
  lease_inv w γ -> γ !! i = Some (t, g) -> uuid_ok u w = true ->
  lease_inv (add_uuid u w) (<[i := (t, MkLG (Some u) (lg_granted g) (lg_guard g))]> γ).
Proof.
  intros [Il Ig Ia It] Hi Hu. unfold uuid_ok in Hu.
  apply andb_true_iff in Hu as [Hlen%Nat.eqb_eq Hnew%bool_decide_eq_true].
  assert (forall j t' g', γ !! j = Some (t', g') -> u ∉ stamps g') as Hfresh.
  { intros j t' g' Hj Hin. eapply stamps_used in Hin; [done|by eapply Ig]. }
  assert (forall g', ghost_holds (eview (bw_etcd w)) (bw_uuids w) g' ->
    ghost_holds (eview (bw_etcd w)) ({[u]} ∪ bw_uuids w) g') as Hmono by (intros; by apply ghost_holds_uuids).
  split; cbn; try done.
  - intros j t' g' Hj. destruct (decide (i = j)) as [<-|Hne]; simplify_map_eq; [|apply Hmono; by eapply Ig].
    destruct (Hmono _ (Ig _ _ _ Hi)) as (Ha & Hb & Hc & Hd). split; [done|]. split; [|split; [done|]].
    { cbn. intros v [= <-]. set_solver. }
    cbn. apply NoDup_cons. split; [|by apply NoDup_app in Hd as (_ & _ & ?)].
    intros Hin. eapply (Hfresh i); [done|]. unfold stamps. apply elem_of_app. by right.
  - intros j k t1 t2 g1 g2 x Hj Hk Hne Hx1 Hx2.
    assert (forall x, x ∈ stamps (MkLG (Some u) (lg_granted g) (lg_guard g)) -> x = u \/ x ∈ stamps g) as Hsub.
    { intros y. unfold stamps. cbn. rewrite elem_of_cons, elem_of_app. tauto. }
    destruct (decide (i = j)) as [<-|]; destruct (decide (i = k)) as [<-|]; simplify_map_eq.
    + destruct (Hsub _ Hx1) as [->|]; [by eapply Hfresh|by eapply (Ia i k)].
    + destruct (Hsub _ Hx2) as [->|]; [by eapply Hfresh|by eapply (Ia j i)].
    + by eapply (Ia j k).
  - intros tk x Htk Hx. destruct (It _ _ Htk Hx) as [Hin Hno]. split; [set_solver|].
    intros j n g' Hj. destruct (decide (i = j)) as [<-|]; simplify_map_eq; [|by eapply Hno].
    unfold stamps. cbn. rewrite elem_of_cons. intros [->|Hin']; [done|].
    eapply Hno; [exact Hi|]. unfold stamps. apply elem_of_app. by right.
Qed.

(** ** The store under a task *)

Lemma guard_holds_step kv kv' uuids d :
  guard_holds kv uuids d -> issued kv ⊆ issued kv' ->
  (is_Some (leases kv' !! ig_lease d) -> is_Some (leases kv !! ig_lease d)) ->
  (is_Some (leases kv !! ig_lease d) -> is_Some (leases kv' !! ig_lease d) ->
   kvs kv !! ig_key d = Some (MkCell (ig_owner d) (Some (ig_lease d))) ->
   kvs kv' !! ig_key d = Some (MkCell (ig_owner d) (Some (ig_lease d)))) ->
  guard_holds kv' uuids d.
Proof. intros (? & ? & ? & Hc) Hi Hl Hk. repeat split; try done; [set_solver|]. intros Hlive. auto. Qed.

Definition leases_issued (kv : KV) : Prop := forall id, is_Some (leases kv !! id) -> id ∈ issued kv.

(** Calls a task makes that create no guard. *)
Lemma plain_call_holds {A} g (c : EtcdCall A) now id kv :
  leases_issued kv -> etcd_pre g c -> id ∉ issued kv ->
  let kv' := snd (kv_call now id c kv) in
  (leases_issued kv' /\ issued kv ⊆ issued kv') /\ forall uuids d, guard_holds kv uuids d -> guard_holds kv' uuids d.
Proof.
  intros Hl Hpre Hid. destruct c as [k|p|k v l|k|cs ops|secs]; cbn in Hpre |- *; try done.
  - destruct (lease_live kv l); cbn; [|done]. split; [done|]. intros uuids d Hd.
    pose proof Hd as (Hu & _). eapply guard_holds_step; [done..|]. cbn. intros _ _.
    rewrite lookup_insert_ne; [done|]. intros ->. congruence.
  - destruct cs as [|[k|] []]; try done. destruct ops as [|[k' v [l|]|] []]; try done.
    destruct Hpre as [-> _]. cbn -[compare_holds].
    destruct (compare_holds kv (CmpVersionZero k)) eqn:Ec; cbn; [|done].
    case_bool_decide; cbn; [|done]. split; [done|]. intros uuids d Hd.
    eapply guard_holds_step; [done..|]. cbn. intros _ _ Hk. cbn in Ec. apply bool_decide_eq_true in Ec.
    rewrite lookup_insert_ne; [done|]. intros ->. congruence.
  - split; [split; [|set_solver]|].
    + intros id'. cbn. destruct (decide (id' = id)) as [->|]; [set_solver|].
      rewrite lookup_insert_ne by done. intros ?%Hl. set_solver.
    + intros uuids d Hd. pose proof Hd as (_ & _ & Hi & _). eapply guard_holds_step; [done|set_solver|..]; cbn.
      * rewrite lookup_insert_ne; [done|]. intros ->. done.
      * done.
Qed.

(** The ghost a call leaves, when its effect took place. *)
Lemma call_ghost_holds {A} g (c : EtcdCall A) now id kv uuids r :
  etcd_pre g c -> ghost_holds kv uuids g ->
  let kv' := snd (kv_call now id c kv) in
  (forall d, guard_holds kv uuids d -> guard_holds kv' uuids d) -> issued kv ⊆ issued kv' ->
  r = Err unavailable \/ r = fst (kv_call now id c kv) ->
  ghost_holds kv' uuids (etcd_upd g c r) /\ forall u, u ∈ stamps (etcd_upd g c r) -> u ∈ stamps g.
Proof.
  intros Hpre (Ha & Hb & Hc & Hd) kv' Hg Hi Hr.
  assert (ghost_holds kv' uuids g) as Hsame.
  { split; [intros d Hdd; by apply Hg, Ha|]. split; [done|]. split; [|done]. intros l Hl. by apply Hi, Hc. }
  destruct c as [k|p|k v l|k|cs ops|secs]; cbn in Hpre; try done.
  - destruct cs as [|[k|] []]; try done. destruct ops as [|[k' v [l|]|] []]; try done.
    destruct Hpre as [-> Hcr]. cbn [etcd_upd]. destruct (String.eqb_spec v "1") as [->|Hv]; [done|].
    destruct Hcr as [->|(Hk & Hng & Hgr & s & u & Hf & ->)]; [done|].
    destruct (Hb _ Hf) as [Hu Hlen].
    assert (ghost_holds kv' uuids (MkLG None (lg_granted g) None)) as Hnone.
    { split; [done|]. split; [done|]. split; [|constructor]. intros l0 Hl0. by apply Hi, Hc. }
    destruct r as [[|]|e]; [|split; [done|intros x Hx; by apply elem_of_nil in Hx]..].
    destruct Hr as [|Hr]; [done|]. subst kv'. cbn -[compare_holds] in Hr, Hi |- *.
    destruct (compare_holds kv (CmpVersionZero k)) eqn:Ec; cbn in Hr |- *; [|done].
    case_bool_decide as Hlive; cbn in Hr |- *; [|done]. split.
    + split; [|split; [done|split; [by intros l0 Hl0; apply Hc|apply NoDup_singleton]]].
      intros d [= <-]. split; [done|]. split; [cbn -[stamp]; by rewrite stamp_app|]. split; [by apply Hc|].
      intros _. cbn. by rewrite lookup_insert_eq.
    + intros x Hx. fold (stamp (s +:+ u)) in Hx. rewrite (stamp_app s u Hlen) in Hx.
      unfold stamps. rewrite Hf. set_solver.
  - destruct r as [l|e]; cbn [etcd_upd]; [|done]. destruct Hr as [|Hr]; [done|]. cbn in Hr. simplify_eq.
    destruct Hsame as (? & ? & ? & ?). split; [|done]. split; [done|]. split; [done|]. split; [|done].
    cbn. intros l [= <-]. set_solver.
Qed.

Lemma lease_inv_etcd w γ i t g {A} (c : EtcdCall A) f r s :
  lease_inv w γ -> γ !! i = Some (t, g) -> etcd_pre g c -> rpc (bw_now w) f c (bw_etcd w) = (r, s) ->
  lease_inv (set_etcd s w) (<[i := (t, etcd_upd g c r)]> γ).
Proof.
  intros HI Hi Hpre Hr. apply rpc_view in Hr as [[-> ->]|(id & Hid & Hs & Hr)].
  - apply (lease_inv_ghost _ _ _ _ g); [by destruct HI; split|done|..].
    + pose proof (li_ghosts _ _ HI _ _ _ Hi) as Hg. cbn.
      destruct c as [| | | |[|[k|] []] [|[k' v [l|]|] []]|]; cbn; try done.
      destruct (String.eqb v "1"); [done|]. destruct Hg as (_ & _ & Hc & _). split; [done|].
      split; [done|]. split; [done|constructor].
    + intros u. destruct c as [| | | |[|[k|] []] [|[k' v [l|]|] []]|]; cbn; try done.
      destruct (String.eqb v "1"); [done|]. intros Hu. by apply elem_of_nil in Hu.
  - destruct (plain_call_holds g c (bw_now w) id _ (li_leases _ _ HI) Hpre Hid) as [[Hl Hiss] Hg].
    destruct (call_ghost_holds g c (bw_now w) id _ (bw_uuids w) r Hpre (li_ghosts _ _ HI _ _ _ Hi) (Hg _) Hiss Hr)
      as [Hgh Hst].
    rewrite <- Hs in *. eapply lease_inv_ghost; [|done|exact Hgh|exact Hst].
    apply lease_inv_store; eauto.
Qed.

(** ** The rest of the world *)

Lemma lease_inv_env w γ w' : lease_inv w γ -> bus_env store w w' -> lease_inv w' γ.
Proof.
  intros HI Henv. revert HI.
  destruct Henv as [w0 d Hd|w0 id deadline Hid _|w0 l1 t l2 f Hs|w0 s Ho]; intros HI.
  - by eapply lease_inv_world.
  - apply lease_inv_store; [done|..]; rewrite erevoke_view; cbn.
    + intros id'. destruct (decide (id' = id)) as [->|];
        [rewrite lookup_delete_eq; by intros []|]. rewrite lookup_delete_ne by done. apply (li_leases _ _ HI).
    + done.
    + intros i t g d _ _ Hd. eapply guard_holds_step; [done|done|..]; cbn.
      * destruct (decide (ig_lease d = id)) as [Hlid|]; [rewrite Hlid, lookup_delete_eq; by intros []|].
        by rewrite lookup_delete_ne.
      * intros _ Hl Hk. apply map_lookup_filter_Some. split; [done|]. cbn. intros [= Hlid].
        rewrite Hlid, lookup_delete_eq in Hl. by destruct Hl.
  - assert (forall t', t' ∈ l1 ++ l2 -> t' ∈ bw_spawned w0) as Hsub by (rewrite Hs; set_solver).
    assert (lease_inv (set_spawned (l1 ++ l2) w0) γ) as HI' by by eapply lease_inv_world.
    destruct t as [node key|node key owner]; cbn; [by eapply lease_inv_world|].
    destruct (rpc _ f _ _) as [r s] eqn:Hr. apply rpc_view in Hr as [[_ ->]|(id & _ & Hv & _)]; cbn in *.
    { by destruct HI'; split. }
    destruct (li_tasks _ _ HI (ReleaseInflight node key owner) (stamp owner)) as [_ Hno]; [rewrite Hs; set_solver|done|].
    rewrite andb_true_r in Hv. case_bool_decide as Ec; cbn in Hv;
      (apply lease_inv_store; [done|..]; rewrite Hv; cbn; try done; try apply (li_leases _ _ HI)).
    intros i t g d Hi Hg Hd. eapply guard_holds_step; [done|done|done|]. cbn. intros _ _ Hk.
    rewrite lookup_delete_ne; [done|]. intros Heq. subst key.
    unfold value_of in Ec. rewrite Hk in Ec. cbn in Ec. simplify_eq.
    eapply Hno; [exact Hi|]. unfold stamps. rewrite Hg. apply elem_of_app. right.
    by apply elem_of_option_list.
  - destruct Ho as (Hk & Hi & Hl & Hnew). apply lease_inv_store; [done|..].
    + done.
    + done.
    + intros i t g d _ _ Hd. pose proof Hd as (Hu & _ & Hin & _). eapply guard_holds_step; [done|done|..].
      * by rewrite Hl.
      * intros _ _. by rewrite Hk.
Qed.

Lemma lease_inv_crash w γ t :
  lease_inv w γ -> lease_inv (bus_crash t w) (filter (fun kv => kv.2.1 ≠ t) γ).
Proof.
  intros [Il Ig Ia It].
  assert (forall i x, filter (fun kv : nat * (string * LeaseGhost) => kv.2.1 ≠ t) γ !! i = Some x -> γ !! i = Some x)
    as Hsub by (intros i x Hx; by apply map_lookup_filter_Some in Hx as [? _]).
  split; cbn; try done; eauto.
  intros tk u Htk Hu. apply elem_of_List_filter in Htk as [Htk _].
  destruct (It _ _ Htk Hu). eauto.
Qed.

Lemma lease_inv_task w γ i t g A (e : BusE A) c a w' :
  lease_inv w γ -> γ !! i = Some (t, g) -> lease_pre A g e -> bus_handle A e w c = Some (a, w') ->
  lease_inv w' (<[i := (t, lease_upd A g e a)]> γ).
Proof.
  intros HI Hi Hpre Hh.
  assert (forall w', bw_etcd w' = bw_etcd w -> bw_uuids w' = bw_uuids w -> bw_spawned w' = bw_spawned w ->
    lease_inv w' (<[i := (t, g)]> γ)) as Hsame.
  { intros w0 He Hu Hs. rewrite insert_id by done. eapply lease_inv_world; [done..|]. by rewrite Hs. }
  destruct e as [| |node|node key now ttl0|node key ttl0|node key ttl0|node key ttl0|B ec|m ms|node
                |node h key gd|subject p|m kind|tk]; cbn in Hh; destruct c; try done.
  all: try (repeat case_match; simplify_eq; by apply Hsame).
  - destruct (uuid_ok u w) eqn:Eu; [|done]. simplify_eq. by apply lease_inv_uuid.
  - destruct (rpc _ f ec _) as [r s] eqn:Er. simplify_eq. by eapply lease_inv_etcd.
  - simplify_eq. destruct tk as [node key|node key owner]; cbn in Hpre |- *.
    + rewrite insert_id by done. destruct HI as [Il Ig Ia It]. split; cbn; try done.
      intros t' u Ht'. rewrite elem_of_app, list_elem_of_singleton in Ht'. destruct Ht' as [Ht'| ->]; [by apply It|done].
    + destruct (lg_guard g) as [d|] eqn:Ed; [|done]. destruct Hpre as [_ Ho].
      assert (lease_inv w (<[i := (t, MkLG (lg_fresh g) (lg_granted g) None)]> γ)) as [Il Ig Ia It].
      { pose proof (li_ghosts _ _ HI _ _ _ Hi) as (Ha & Hb & Hc & Hd).
        apply (lease_inv_ghost _ _ _ _ g); [done|done|..].
        - split; [done|]. split; [done|]. split; [done|]. rewrite stamps_unguarded.
          by apply NoDup_app in Hd as (? & _).
        - intros u. rewrite stamps_unguarded. unfold stamps. rewrite elem_of_app. tauto. }
      split; cbn; try done. intros t' u Ht' Hu. rewrite elem_of_app, list_elem_of_singleton in Ht'.
      destruct Ht' as [Ht'| ->]; [by eapply It|]. cbn -[stamp] in Hu. injection Hu as <-.
      assert (stamp owner ∈ stamps g) as Hin.
      { unfold stamps. rewrite Ed. apply elem_of_app. right. apply elem_of_option_list. cbn -[stamp]. by subst. }
      split; [eapply stamps_used; [by eapply (li_ghosts _ _ HI)|done]|].
      intros j n g' Hj. destruct (decide (i = j)) as [<-|Hne].
      * rewrite lookup_insert_eq in Hj. simplify_eq. rewrite stamps_unguarded.
        pose proof (li_ghosts _ _ HI _ _ _ Hi) as (_ & _ & _ & Hd). unfold stamps in Hd.
        apply NoDup_app in Hd as (_ & Hdis & _). intros Hf. apply (Hdis _ Hf). rewrite Ed.
        by apply elem_of_option_list.
      * rewrite lookup_insert_ne in Hj by done. intros Hin'. by eapply (li_apart _ _ HI i j).
Qed.

(** ** The programs of the consumer *)

Lemma completed_not_inflight key : under_inflight store (completed_key store key) = false.
Proof. unfold under_inflight, completed_key. by rewrite starts_with_common. Qed.

Lemma lease_neutral : neutral lease_pre lease_upd lg_guard store.
Proof.
  split.
  - intros A e He g. destruct e; cbn; try done.
  - done.
  - intros t g. split; [done|]. intros [l|e]; done.
  - intros key v l g. split; [apply completed_not_inflight|done].
  - intros k l g. split; [|done]. split; [done|]. by left.
Qed.

(** A guard a task holds is for the key of its command. *)
Definition guard_held (key : string) (guard : option InFlightGuard) (_ : bool) (x : option InFlightGuard) : Prop :=
  x = guard /\ match guard with Some d => ig_key d = inflight_key store key | None => True end.

Lemma acquire_ok dedupe node cid key t single g :
  dedupe_ok store dedupe -> lg_guard g = None ->
  prog_ok lease_pre lease_upd
    (fun g' r => match r with Some guard => guard_held key guard false (lg_guard g') | None => True end) g
    (acquire_distributed dedupe node cid key t single).
Proof.
  intros [-> | ->] Hg; unfold acquire_distributed; destruct single; try (by split).
  cbn -[String.eqb trim inflight_key]. split; [done|]. intros u. split; [done|]. intros [l|e]; [|by split].
  split.
  - split; [done|]. right. repeat split; try done.
    + unfold inflight_key, under_inflight. rewrite starts_with_common.
      change (starts_with "/inflight/" ("/inflight/" +:+ key) = true). apply starts_with_app.
    + exists (node +:+ ":" +:+ trim cid +:+ ":"), u. split; [done|]. by rewrite !str_app_assoc.
  - intros r. unfold lease_upd, etcd_upd.
    match goal with |- context [String.eqb ?v _] => destruct (String.eqb_spec v "1") as [Hv|_] end.
    { exfalso. apply (f_equal String.length) in Hv. rewrite !str_length_app in Hv. cbn in Hv. lia. }
    destruct r as [[|]|e]; cbn -[inflight_key]; by try split.
Qed.

Lemma drop_ok node guard local g :
  lg_guard g = guard -> prog_ok lease_pre lease_upd (fun _ _ => True) g (drop_guards node guard local).
Proof. intros <-. unfold drop_guards. destruct local, (lg_guard g) eqn:E; cbn; rewrite ?E; done. Qed.

Lemma lease_process_ok message config node dedupe fence retry :
  dedupe_ok store dedupe ->
  prog_ok lease_pre lease_upd (fun _ _ => True) no_ghost
    (process_command_message message config node dedupe fence retry ttl).
Proof.
  intros Hd. apply (process_ok _ _ _ _ lease_neutral guard_held); try done.
  - intros key cid single g [Hg _]. by apply acquire_ok.
  - intros key guard single x [-> Hk] h g Hg _. by rewrite <- Hg in *.
  - intros key guard local g [Hg _]. by apply drop_ok.
Qed.

Lemma lease_rules :
  InvariantRules bus_handle (bus_starts store ttl) (bus_env store) bus_crash lease_pre lease_upd
    (fun _ _ => True) lease_inv fresh_world.
Proof.
  split.
  - intros w (_ & Hs & _ & Hl). split; try done. by rewrite Hs; intros t u Ht%elem_of_nil.
  - intros. by eapply lease_inv_task.
  - intros w γ i t p HI Hi (message & config & dedupe & fence & retry & Hd & ->).
    exists no_ghost. split; [by apply lease_process_ok|]. destruct HI as [Il Ig Ia It]. split; try done.
    + intros j t' g Hj. destruct (decide (i = j)) as [<-|]; simplify_map_eq; [|by eapply Ig].
      repeat split; try done. constructor.
    + intros j k t1 t2 g1 g2 u Hj Hk Hne Hu1 Hu2.
      destruct (decide (i = j)) as [<-|]; destruct (decide (i = k)) as [<-|]; simplify_map_eq;
        try (by apply elem_of_nil in Hu1); try (by apply elem_of_nil in Hu2). by eapply (Ia j k).
    + intros tk u Htk Hu. destruct (It _ _ Htk Hu) as [? Hno]. split; [done|]. intros j n g Hj.
      destruct (decide (i = j)) as [<-|]; simplify_map_eq; [apply not_elem_of_nil|by eapply Hno].
  - intros. by eapply lease_inv_env.
  - intros. by apply lease_inv_crash.
Qed.

Lemma running_owns s γ i r d :
  ghost_of lease_pre lease_upd (fun _ _ => True) (tasks s) γ -> running s i = Some r -> run_guard r = Some d ->
  exists t g, γ !! i = Some (t, g) /\ lg_guard g = Some d /\ ig_key d = inflight_key store (run_key r).
Proof.
  intros Hg Hr Hd. specialize (Hg i). unfold running in Hr.
  destruct (tasks s !! i) as [[t p]|]; [|done]. destruct (γ !! i) as [[t' g]|]; [|done].
  destruct Hg as [<- Hok]. destruct p as [|A e k]; [done|]. destruct e; try done. cbn in Hr. simplify_eq.
  cbn in Hd. subst. destruct Hok as [[Hg Hk] _]. eauto.
Qed.

(** Task [i] runs a handler of the command [key] and holds the distributed guard [d],
    whose lease is live. *)
Definition runs_guarded (s : System) (i : nat) (key : string) (d : InFlightGuard) : Prop :=
  exists r, running s i = Some r /\ run_guard r = Some d /\ run_key r = key /\
    is_Some (leases (eview (bw_etcd (world s))) !! ig_lease d).

(** C4: across all nodes of a cluster, whatever messages are delivered and
    redelivered, whichever calls to the store fail before or after taking effect,
    and whichever nodes crash, two handlers of the same command never run at the same
    time while both hold the distributed in-flight guard and their leases are live. *)
Theorem distributed_guard_exclusive s i j key d1 d2 :
  bus_reachable store ttl s -> runs_guarded s i key d1 -> runs_guarded s j key d2 -> i = j.
Proof.
  intros Hr (r1 & Hi & Hd1 & Hkey1 & Hl1) (r2 & Hj & Hd2 & Hkey & Hl2). rewrite <- Hkey1 in Hkey. symmetry in Hkey.
  destruct (system_invariant _ _ _ _ _ _ _ _ _ _ lease_rules Hr) as (γ & HI & Hg).
  destruct (running_owns s γ i r1 d1 Hg Hi Hd1) as (t1 & g1 & E1 & Hg1 & Hk1).
  destruct (running_owns s γ j r2 d2 Hg Hj Hd2) as (t2 & g2 & E2 & Hg2 & Hk2).
  destruct (li_ghosts _ _ HI _ _ _ E1) as (Ha1 & _). destruct (li_ghosts _ _ HI _ _ _ E2) as (Ha2 & _).
  destruct (Ha1 d1 Hg1) as (_ & _ & _ & Hc1). destruct (Ha2 d2 Hg2) as (_ & _ & _ & Hc2).
  specialize (Hc1 Hl1). specialize (Hc2 Hl2). rewrite Hk1 in Hc1. rewrite Hk2, <- Hkey in Hc2.
  destruct (decide (i = j)) as [|Hne]; [done|]. exfalso. rewrite Hc1 in Hc2. injection Hc2 as Ho _.
  eapply (li_apart _ _ HI i j _ _ _ _ (stamp (ig_owner d1)) E1 E2 Hne);
    unfold stamps; apply elem_of_app; right; apply elem_of_option_list.
  - by rewrite Hg1.
  - rewrite Hg2. cbn -[stamp]. by rewrite Ho.
Qed.
End Exclusion.
