(* ===== verification/BusLocal.v ===== *)
(** * One owner per command on a node

    The in-memory guard of [ControlBus.v]. Its entries age out after the dedupe
    window, so what it promises holds while no handler outlives that window: time
    passes only as long as every entry stays young. *)

From S2P Require Import Prelude ContentHash Effects Etcd PartitionGate ControlBus BusSystem BusExclusion.
From Stdlib Require Import ZArith Lia Ascii.
From Stdlib Require Import ZArith Lia.

Section Local.
Context `{EtcdServer} `{ControlJson, StdHash} (store : string) (ttl : Z).

Definition young (w : BusWorld) : Prop :=
  forall n k ts, active_commands (node_of w n) !! k = Some ts -> (duration_since (bw_now w) ts < ttl)%Z.

(** Time does not pass beyond the window of a guard that is held. *)
Definition timely_env (w w' : BusWorld) : Prop := bus_env store w w' /\ young w'.

Definition timely_reachable : System -> Prop :=
  system_reachable bus_handle (bus_starts store ttl) timely_env bus_crash fresh_world.

(** The node a task runs on and the key of the entry it owns, if any. *)
Abbreviation LocalGhost := (string * option string)%type.

Definition local_pre (A : Type) (g : LocalGhost) (e : BusE A) : Prop :=
  match e with
  | BGuardAcquire n _ t => g = (n, None) /\ t = ttl
  | BSpawn (ReleaseLocal n k) => g = (n, Some k)
  | BHandler n h key _ => single_owner h = true -> g = (n, Some key)
  | _ => True
  end.

Definition local_upd (A : Type) (g : LocalGhost) (e : BusE A) : A -> LocalGhost :=
  match e in BusE A return A -> LocalGhost with
  | BGuardAcquire n k _ => fun b => if b : bool then (n, Some k) else g
  | BSpawn (ReleaseLocal _ _) => fun _ => (fst g, None)
  | _ => fun _ => g
  end.

(** Who holds an entry: a task, or a release that was spawned and has not run. *)
Definition releases (n k : string) (ts : list ReleaseTask) : nat :=
  length (List.filter (fun t => match t with
                                | ReleaseLocal n' k' => String.eqb n n' && String.eqb k k'
                                | _ => false
                                end) ts).

Record local_inv (w : BusWorld) (γ : gmap nat (string * LocalGhost)) : Prop := {
  lo_young : young w;
  lo_node : forall i t n o, γ !! i = Some (t, (n, o)) -> n = t;
  lo_entry : forall i t n k, γ !! i = Some (t, (n, Some k)) ->
    is_Some (active_commands (node_of w n) !! k) /\ releases n k (bw_spawned w) = 0;
  lo_apart : forall i j t t' n k, γ !! i = Some (t, (n, Some k)) -> γ !! j = Some (t', (n, Some k)) -> i = j;
  lo_release : forall n k, releases n k (bw_spawned w) = 0 \/
    (releases n k (bw_spawned w) = 1 /\ is_Some (active_commands (node_of w n) !! k));
}.

Lemma node_of_set w n m n' : node_of (set_node n m w) n' = if decide (n' = n) then m else node_of w n'.
Proof. unfold node_of. cbn. case_decide; subst; by simplify_map_eq. Qed.

Lemma releases_app n k l1 l2 : releases n k (l1 ++ l2) = releases n k l1 + releases n k l2.
Proof. unfold releases. by rewrite List.filter_app, length_app. Qed.

Lemma retain_young_all now m :
  (forall k ts, m !! k = Some ts -> (duration_since now ts < ttl)%Z) -> retain_young now ttl m = m.
Proof. intros Hm. unfold retain_young. apply map_filter_id. intros k ts Hk. by apply (Hm k). Qed.

(** The world changes but no active map and no release does. *)
Lemma local_inv_world w w' γ :
  local_inv w γ -> bw_now w' = bw_now w -> bw_spawned w' = bw_spawned w ->
  (forall n, active_commands (node_of w' n) = active_commands (node_of w n)) -> local_inv w' γ.
Proof.
  intros [Iy In Ie Ia Ir] Hn Hs Ha. split; rewrite ?Hs; try done.
  - intros n k ts. rewrite Ha, Hn. apply Iy.
  - intros i t n k Hi. rewrite Ha. by eapply Ie.
  - intros n k. rewrite Ha. apply Ir.
Qed.

Lemma local_acquire w γ i t n k b m :
  local_inv w γ -> γ !! i = Some (t, (n, None)) -> (0 < ttl)%Z ->
  guard_acquire k (bw_now w) ttl (node_of w n) = (b, m) ->
  local_inv (set_node n m w) (<[i := (t, if b : bool then (n, Some k) else (n, None))]> γ).
Proof.
  intros [Iy In Ie Ia Ir] Hi Httl. pose proof (In _ _ _ _ Hi) as ->. unfold guard_acquire.
  rewrite (retain_young_all (bw_now w)) by (intros k' ts; apply (Iy t)).
  destruct (active_commands (node_of w t) !! k) as [ts|] eqn:Ek; intros [= <- <-].
  - rewrite insert_id by done. split; try done; cbn -[releases].
    + intros n k' ts'. rewrite node_of_set. case_decide; subst; apply Iy.
    + intros j t' n k' Hj. rewrite node_of_set. case_decide; subst; by eapply Ie.
    + intros n k'. rewrite node_of_set. case_decide; subst; apply Ir.
  - assert (forall j t', γ !! j = Some (t', (t, Some k)) -> False) as Hno.
    { intros j t' Hj. destruct (Ie _ _ _ _ Hj) as [[x Hx] _]. congruence. }
    split; cbn -[releases].
    + intros n k' ts'. rewrite node_of_set. case_decide; subst; cbn; [|apply Iy].
      destruct (decide (k' = k)) as [->|]; [rewrite lookup_insert_eq|rewrite lookup_insert_ne by done; apply Iy].
      intros [= <-]. unfold duration_since. lia.
    + intros j t' n o Hj. destruct (decide (i = j)) as [<-|]; simplify_map_eq; [done|by eapply In].
    + intros j t' n k' Hj. rewrite node_of_set. destruct (decide (i = j)) as [<-|];
        [rewrite lookup_insert_eq in Hj; injection Hj as <- <- <-|rewrite lookup_insert_ne in Hj by done].
      * rewrite decide_True by done. cbn -[releases]. rewrite lookup_insert_eq. split; [done|].
        destruct (Ir t k) as [|[_ [x Hx]]]; [done|congruence].
      * destruct (Ie _ _ _ _ Hj) as [He Hr]. split; [|done]. case_decide; subst; cbn; [|done].
        destruct (decide (k' = k)) as [->|]; [by rewrite lookup_insert_eq|by rewrite lookup_insert_ne].
    + intros j1 j2 t1 t2 n0 k0 H1' H2'.
      destruct (decide (i = j1)) as [<-|]; destruct (decide (i = j2)) as [<-|]; simplify_map_eq; try done.
      * exfalso. by eapply Hno.
      * exfalso. by eapply Hno.
      * by eapply Ia.
    + intros n k'. rewrite node_of_set. destruct (Ir n k') as [|[? ?]]; [by left|right]. split; [done|].
      case_decide; subst; cbn; [|done].
      destruct (decide (k' = k)) as [->|]; [by rewrite lookup_insert_eq|by rewrite lookup_insert_ne].
Qed.

Lemma local_spawn w γ i t n k :
  local_inv w γ -> γ !! i = Some (t, (n, Some k)) ->
  local_inv (set_spawned (bw_spawned w ++ [ReleaseLocal n k]) w) (<[i := (t, (n, None))]> γ).
Proof.
  intros [Iy In Ie Ia Ir] Hi. destruct (Ie _ _ _ _ Hi) as [He Hr].
  assert (forall n' k', releases n' k' (bw_spawned w ++ [ReleaseLocal n k]) =
    releases n' k' (bw_spawned w) + if decide ((n', k') = (n, k)) then 1 else 0) as Hcount.
  { intros n' k'. rewrite releases_app. f_equal. unfold releases. cbn.
    destruct (String.eqb_spec n' n), (String.eqb_spec k' k); cbn; case_decide; naive_solver. }
  split; cbn -[releases]; try done.
  - intros j t' n' k' Hj. destruct (decide (i = j)) as [<-|]; simplify_map_eq; by eapply In.
  - intros j t' n' k' Hj. destruct (decide (i = j)) as [<-|Hne]; simplify_map_eq.
    destruct (Ie _ _ _ _ Hj) as [He' Hr']. split; [done|]. rewrite Hcount, Hr'.
    case_decide as Heq; [|done]. simplify_eq. exfalso. apply Hne. by eapply Ia.
  - intros j1 j2 t1 t2 n0 k0 H1' H2'.
    destruct (decide (i = j1)) as [<-|]; destruct (decide (i = j2)) as [<-|]; simplify_map_eq. by eapply Ia.
  - intros n' k'. rewrite Hcount. case_decide as Heq; [|rewrite Nat.add_0_r; apply Ir].
    simplify_eq. right. by rewrite Hr.
Qed.

Lemma releases_ne n k t l :
  (forall n' k', t = ReleaseLocal n' k' -> (n', k') ≠ (n, k)) -> releases n k (t :: l) = releases n k l.
Proof.
  intros Ht. unfold releases. cbn. destruct t as [n' k'|]; [|done].
  destruct (String.eqb_spec n n'), (String.eqb_spec k k'); cbn; try done. subst. by destruct (Ht n' k' eq_refl).
Qed.

Lemma local_release w γ l1 t l2 f :
  local_inv w γ -> bw_spawned w = l1 ++ t :: l2 -> local_inv (run_release t f (set_spawned (l1 ++ l2) w)) γ.
Proof.
  intros [Iy In Ie Ia Ir] Hs.
  assert (forall n k, (forall n' k', t = ReleaseLocal n' k' -> (n', k') ≠ (n, k)) ->
    releases n k (l1 ++ l2) = releases n k (bw_spawned w)) as Hsame.
  { intros n k Hne. rewrite Hs, !releases_app, releases_ne by done. done. }
  destruct t as [n k|node key owner]; cbn.
  - assert (releases n k (bw_spawned w) = S (releases n k (l1 ++ l2))) as Hone.
    { rewrite Hs, !releases_app. unfold releases at 2. cbn. rewrite !String.eqb_refl. cbn. unfold releases. lia. }
    split; cbn -[releases]; try done.
    + intros n' k' ts. rewrite node_of_set. case_decide; subst; cbn; [|apply Iy].
      intros [_ Hk]%lookup_delete_Some. by apply (Iy n k').
    + intros i t' n' k' Hi. destruct (Ie _ _ _ _ Hi) as [He Hr]. rewrite node_of_set.
      assert ((n, k) ≠ (n', k')) as Hne by (intros [= <- <-]; lia).
      split; [|rewrite Hsame; naive_solver]. case_decide; subst; cbn; [|done].
      rewrite lookup_delete_ne; [done|]. naive_solver.
    + intros n' k'. rewrite node_of_set. destruct (decide ((n, k) = (n', k'))) as [Heq|Hne].
      * simplify_eq. left. destruct (Ir n' k') as [|[? _]]; lia.
      * rewrite Hsame by naive_solver. destruct (Ir n' k') as [|[? He]]; [by left|right]. split; [done|].
        case_decide; subst; cbn; [|done]. rewrite lookup_delete_ne; [done|]. naive_solver.
  - split; cbn -[releases]; try done.
    + intros i t' n' k' Hi. rewrite Hsame by done. by eapply Ie.
    + intros n' k'. rewrite Hsame by done. apply Ir.
Qed.

Lemma local_inv_env w γ w' : local_inv w γ -> timely_env w w' -> local_inv w' γ.
Proof.
  intros HI [Henv Hy]. revert HI Hy.
  destruct Henv as [w0 d Hd|w0 id deadline Hid _|w0 l1 t l2 f Hs|w0 s Ho]; intros HI Hy.
  - destruct HI. by split.
  - by eapply local_inv_world.
  - by apply local_release.
  - by eapply local_inv_world.
Qed.

Lemma releases_crash n k t l :
  releases n k (List.filter (fun r => negb (String.eqb (task_node r) t)) l) =
  if decide (n = t) then 0 else releases n k l.
Proof.
  induction l as [|r l IH]; [by case_decide|]. unfold releases in *. cbn.
  destruct r as [n' k'|n' k' o]; cbn; destruct (String.eqb_spec n' t) as [->|]; cbn; rewrite ?IH; case_decide; subst;
    try done; repeat (case_match; cbn in *); bools; subst; try done; rewrite ?IH; rewrite ?decide_True by done;
    rewrite ?decide_False by done; done.
Qed.

Lemma local_inv_crash w γ t : local_inv w γ -> local_inv (bus_crash t w) (filter (fun kv => kv.2.1 ≠ t) γ).
Proof.
  intros [Iy In Ie Ia Ir].
  assert (forall i x, filter (fun kv : nat * (string * LocalGhost) => kv.2.1 ≠ t) γ !! i = Some x ->
    γ !! i = Some x /\ x.1 ≠ t) as Hsub by (intros i x Hx; by apply map_lookup_filter_Some in Hx).
  assert (forall n, n ≠ t -> node_of (bus_crash t w) n = node_of w n) as Hn.
  { intros n Hne. unfold node_of. cbn. by rewrite lookup_delete_ne. }
  assert (node_of (bus_crash t w) t = empty_node) as Ht by (unfold node_of; cbn; by rewrite lookup_delete_eq).
  split.
  - intros n k ts. destruct (decide (n = t)) as [->|]; [by rewrite Ht|]. rewrite Hn by done. apply Iy.
  - intros i t' n o Hi. destruct (Hsub _ _ Hi). by eapply In.
  - intros i t' n k Hi. destruct (Hsub _ _ Hi) as [Hi' Hne]. cbn in Hne. pose proof (In _ _ _ _ Hi') as ->.
    destruct (Ie _ _ _ _ Hi') as [He Hr]. rewrite Hn by done. split; [done|].
    change (releases t' k (List.filter (fun r => negb (String.eqb (task_node r) t)) (bw_spawned w)) = 0).
    rewrite releases_crash. by rewrite decide_False.
  - intros i j t1 t2 n k Hi Hj. destruct (Hsub _ _ Hi), (Hsub _ _ Hj). by eapply Ia.
  - intros n k.
    change (releases n k (bw_spawned (bus_crash t w))) with
      (releases n k (List.filter (fun r => negb (String.eqb (task_node r) t)) (bw_spawned w))).
    rewrite releases_crash. case_decide; [by left|]. rewrite Hn by done. apply Ir.
Qed.

Lemma local_inv_task w γ i t g A (e : BusE A) c a w' :
  (0 < ttl)%Z -> local_inv w γ -> γ !! i = Some (t, g) -> local_pre A g e -> bus_handle A e w c = Some (a, w') ->
  local_inv w' (<[i := (t, local_upd A g e a)]> γ).
Proof.
  intros Httl HI Hi Hpre Hh.
  assert (forall w', bw_now w' = bw_now w -> bw_spawned w' = bw_spawned w ->
    (forall n, active_commands (node_of w' n) = active_commands (node_of w n)) ->
    local_inv w' (<[i := (t, g)]> γ)) as Hsame.
  { intros w0 ? ? ?. rewrite insert_id by done. by eapply local_inv_world. }
  assert (forall node m, active_commands m = active_commands (node_of w node) ->
    local_inv (set_node node m w) (<[i := (t, g)]> γ)) as Hnode.
  { intros node m Hm. apply Hsame; try done. intros n. rewrite node_of_set. by case_decide; subst. }
  destruct e as [| |node|node key now ttl0|node key ttl0|node key ttl0|node key ttl0|B ec|m ms|node
                |node h key gd|subject p|m kind|tk]; cbn in Hh; destruct c; try done.
  all: try (repeat case_match; simplify_eq; by apply Hsame).
  - unfold seen_section in Hh. repeat case_match; simplify_eq; by apply Hnode.
  - simplify_eq. by apply Hnode.
  - simplify_eq. by apply Hnode.
  - destruct (guard_acquire _ _ _ _) as [b m] eqn:Eg. simplify_eq. destruct Hpre as [-> ->].
    by apply local_acquire.
  - destruct tk as [node key|node key owner]; simplify_eq; cbn in Hpre.
    + subst g. by apply local_spawn.
    + rewrite insert_id by done. destruct HI as [Iy In Ie Ia Ir].
      assert (forall n k, releases n k (bw_spawned w ++ [ReleaseInflight node key owner]) =
        releases n k (bw_spawned w)) as Hc.
      { intros. rewrite releases_app. unfold releases at 2. cbn. lia. }
      split; cbn -[releases]; try done.
      * intros j t' n k Hj. rewrite Hc. by eapply Ie.
      * intros n k. rewrite Hc. apply Ir.
Qed.

(** ** The programs of the consumer *)

Lemma local_neutral : neutral local_pre local_upd (fun g => g) store.
Proof. split; try done. intros A e He g. destruct e; cbn; try done. Qed.

Definition local_held (node key : string) (_ : option InFlightGuard) (local : bool) (g : LocalGhost) : Prop :=
  g = (node, if local then Some key else None).

Lemma local_acquire_distributed_ok dedupe node cid key t single g :
  dedupe_ok store dedupe ->
  prog_ok local_pre local_upd (fun g' _ => g' = g) g (acquire_distributed dedupe node cid key t single).
Proof.
  intros [-> | ->]; unfold acquire_distributed; destruct single; try (by split).
  cbn -[String.append]. split; [done|]. intros u. split; [done|]. intros [l|e]; [|by split].
  split; [done|]. by intros [|].
Qed.

Lemma local_process_ok message config node dedupe fence retry :
  dedupe_ok store dedupe ->
  prog_ok local_pre local_upd (fun _ _ => True) (node, None)
    (process_command_message message config node dedupe fence retry ttl).
Proof.
  intros Hd. apply (process_ok _ _ _ _ local_neutral (local_held node)); try done.
  - intros key cid single g Hg. eapply prog_ok_mono; [|by apply local_acquire_distributed_ok].
    intros g' [guard|] ->; done.
  - intros key guard g ->. split; [done|]. by intros [].
  - intros key guard single x -> h g -> Hs. split; [|done]. cbn. intros Hh. by rewrite (Hs Hh).
  - intros key guard [|] g ->; unfold drop_guards; destruct guard; by cbn.
Qed.

Lemma local_rules :
  (0 < ttl)%Z ->
  InvariantRules bus_handle (bus_starts store ttl) timely_env bus_crash local_pre local_upd
    (fun _ _ => True) local_inv fresh_world.
Proof.
  intros Httl. split.
  - intros w (Hn & Hs & _ & _). split; try done; rewrite ?Hs.
    + intros n k ts. unfold node_of. by rewrite Hn.
    + intros n k. by left.
  - intros. by eapply local_inv_task.
  - intros w γ i t p HI Hi (message & config & dedupe & fence & retry & Hd & ->).
    exists (t, None). split; [by apply local_process_ok|]. destruct HI as [Iy In Ie Ia Ir]. split; try done.
    + intros j t' n o Hj. destruct (decide (i = j)) as [<-|]; simplify_map_eq; [done|by eapply In].
    + intros j t' n k Hj. destruct (decide (i = j)) as [<-|]; simplify_map_eq; by eapply Ie.
    + intros j1 j2 t1 t2 n k H1' H2'.
      destruct (decide (i = j1)) as [<-|]; destruct (decide (i = j2)) as [<-|]; simplify_map_eq; by eapply Ia.
  - intros. by eapply local_inv_env.
  - intros. by apply local_inv_crash.
Qed.

Lemma running_holds s γ i r :
  ghost_of local_pre local_upd (fun _ _ => True) (tasks s) γ -> running s i = Some r ->
  single_owner (run_handler r) = true -> exists t, γ !! i = Some (t, (run_node r, Some (run_key r))).
Proof.
  intros Hg Hr Hs. specialize (Hg i). unfold running in Hr.
  destruct (tasks s !! i) as [[t p]|]; [|done]. destruct (γ !! i) as [[t' g]|]; [|done].
  destruct Hg as [<- Hok]. destruct p as [|A e k]; [done|]. destruct e; try done. cbn in Hr. simplify_eq.
  destruct Hok as [Hg _]. cbn in Hg, Hs. rewrite (Hg Hs). eauto.
Qed.

(** C24: on one node, two handlers of the same [exec.run] or [exec.stream.start]
    command never run at the same time, with or without the store and whatever fails
    or crashes, as long as no handler outlives the dedupe window. *)
Theorem local_guard_exclusive s i j r1 r2 :
  (0 < ttl)%Z -> timely_reachable s ->
  running s i = Some r1 -> running s j = Some r2 ->
  run_node r1 = run_node r2 -> run_key r1 = run_key r2 ->
  single_owner (run_handler r1) = true -> single_owner (run_handler r2) = true -> i = j.
Proof.
  intros Httl Hr Hi Hj Hn Hk Hs1 Hs2.
  destruct (system_invariant _ _ _ _ _ _ _ _ _ _ (local_rules Httl) Hr) as (γ & HI & Hg).
  destruct (running_holds s γ i r1 Hg Hi Hs1) as [t1 E1]. destruct (running_holds s γ j r2 Hg Hj Hs2) as [t2 E2].
  rewrite Hn, Hk in E1. by eapply (lo_apart _ _ HI).
Qed.
End Local.

(** ** Concrete runs of the command consumer

    A cluster with a small decoder of envelopes and a store that is a map. The runs
    show that the hypotheses of the exclusion theorems hold of reachable states, and
    what the guards do not prevent: a redelivery that looked for the completion
    marker too early runs the command a second time. *)

(** Every payload is an [exec.run] command named by its text. *)
Definition toy_json : ControlJson := {|
  jvalue := unit;
  decode_envelope := fun s => Ok (MkEnvelope s s "exec.run" s None None tt);
  get_str := fun _ _ => None;
  decode_exec_run := fun _ => Err "no payload"%string;
  decode_exec_stream_start := fun _ => Err "no payload"%string;
  decode_exec_stream_input := fun _ => Err "no payload"%string;
  reserialized := Some;
  raw_payload_object := fun s => s;
|}.
Definition toy_hash : StdHash := {| default_hash := fun _ => 7%Z |}.

Section Scenarios.
#[local] Existing Instance toy_json.
#[local] Existing Instance toy_hash.
#[local] Existing Instance map_etcd.

Abbreviation Sys := (System (E := BusE) (W := BusWorld) (T := string) (R := unit)).

Definition start_world : BusWorld := MkWorld 0 empty_kv ∅ ∅ [] [].
Definition toy_config : ControlBusConfig := MkBusConfig "cv" ["etcd"] "/d" 5 30000 100 "cv.dlq".
Definition toy_ttl : Z := 60000.

(** Delivery [n] of the command [key] to [node]. *)
Definition delivery (node key : string) (n : Z) : Bus unit :=
  process_command_message (MkMessage 1 "cv.cmd" key (Some n)) toy_config node (Some "/d"%string) None None toy_ttl.

Definition with_task (i : nat) (node key : string) (n : Z) (s : Sys) : Sys :=
  MkSystem (world s) (<[i := (node, delivery node key n)]> (tasks s)).

(** Identifiers are 36 characters. *)
Definition uuid_a : string := "aaaaaaaaaaaaaaaaaaaaaaaaaaaaaaaaaaaa".
Definition uuid_b : string := "bbbbbbbbbbbbbbbbbbbbbbbbbbbbbbbbbbbb".
Abbreviation ok := (CFault Delivered).

(** The last state of a schedule; a schedule that gets stuck goes nowhere. *)
Definition play (sched : list (nat * BusChoice)) (s : Sys) : Sys :=
  default s (run_schedule bus_handle s sched).

Section Reach.
Context (env : BusWorld -> BusWorld -> Prop).
Abbreviation reach := (system_reachable bus_handle (bus_starts "/d" toy_ttl) env bus_crash fresh_world).

Lemma reach_start : reach (MkSystem start_world ∅).
Proof. apply reach_init. repeat split. intros id [x Hx]. cbn in Hx. by rewrite lookup_empty in Hx. Qed.

Lemma reach_with i node key n s : tasks s !! i = None -> reach s -> reach (with_task i node key n s).
Proof.
  intros Hi Hs. eapply reach_step; [done|]. apply step_start; [done|].
  eexists _, _, _, _, _. split; [|reflexivity]. by right.
Qed.

Lemma reach_play sched s : reach s -> reach (play sched s).
Proof.
  intros Hs. unfold play. destruct (run_schedule bus_handle s sched) eqn:E; [|done].
  by eapply run_schedule_reachable.
Qed.
End Reach.

(** A first delivery up to its handler: the clock, the marker (a lease and a
    transaction), the maps in memory, the guards. *)
Definition to_handler (i : nat) (u : string) : list (nat * BusChoice) :=
  [(i, CStep); (i, ok); (i, ok); (i, CStep); (i, CUuid u); (i, ok); (i, ok); (i, CStep); (i, CStep)].

Definition one_running : Sys := play (to_handler 0 uuid_a) (with_task 0 "n1" "k" 1 (MkSystem start_world ∅)).

Lemma one_running_reachable env :
  system_reachable bus_handle (bus_starts "/d" toy_ttl) env bus_crash fresh_world one_running.
Proof. apply reach_play, reach_with, reach_start. done. Qed.

Definition its_guard : InFlightGuard := MkGuard "/d/inflight/k" ("n1:k:" +:+ uuid_a) 2.

Lemma one_running_guarded : runs_guarded one_running 0 "k" its_guard.
Proof. eexists. split; [vm_compute; reflexivity|]. split; [reflexivity|]. split; [reflexivity|]. eexists. vm_compute. reflexivity. Qed.

Lemma distributed_guard_exclusive_witness : runs_guarded one_running 0 "k" its_guard /\ 0 = 0.
Proof.
  split; [exact one_running_guarded|].
  exact (distributed_guard_exclusive "/d" toy_ttl one_running 0 0 "k" its_guard its_guard
    (one_running_reachable _) one_running_guarded one_running_guarded).
Defined.

Lemma local_guard_exclusive_witness :
  running one_running 0 = Some (MkRunning "n1" HExecRun "k" (Some its_guard)) /\ 0 = 0.
Proof.
  assert (running one_running 0 = Some (MkRunning "n1" HExecRun "k" (Some its_guard))) as Hr by (vm_compute; reflexivity).
  split; [exact Hr|].
  exact (local_guard_exclusive "/d" toy_ttl one_running 0 0 _ _
    ltac:(vm_compute; reflexivity) (one_running_reachable _) Hr Hr eq_refl eq_refl eq_refl eq_refl).
Defined.

(** ** A command that runs twice

    A redelivery reaches another node while the first handler runs; it finds no
    completion marker; the first handler then ends, marks the command complete,
    acknowledges it and releases its guard; the redelivery acquires the guard and
    runs the handler. Every call succeeded. *)

(** The redelivery looks for the marker, in memory and in the store. *)
Definition checked : Sys :=
  play [(1, CStep); (1, CStep); (1, ok)] (with_task 1 "n2" "k" 2 one_running).

(** The first handler succeeds; its task marks, acknowledges and drops its guards. *)
Definition first_done : Sys :=
  play [(0, CResult (Ok tt)); (0, CStep); (0, ok); (0, ok); (0, CResult (Ok tt)); (0, CStep); (0, CStep)] checked.

Definition released : Sys :=
  MkSystem (run_release (ReleaseInflight "n1" "/d/inflight/k" ("n1:k:" +:+ uuid_a)) Delivered
              (set_spawned [ReleaseLocal "n1" "k"] (world first_done))) (tasks first_done).

Definition run_again : Sys :=
  play [(1, CUuid uuid_b); (1, ok); (1, ok); (1, CStep); (1, CStep); (1, CResult (Ok tt))] released.

(** The command completes on the first node and is run again on the second, with no
    call of the store lost and no node crashed. *)
Lemma redelivery_runs_twice :
  bus_reachable "/d" toy_ttl run_again /\
  bw_log (world run_again) = [EvRun "n1" "k" (Ok tt); EvAck 1 Ack; EvRun "n2" "k" (Ok tt)].
Proof.
  split; [|vm_compute; reflexivity].
  apply reach_play. eapply reach_step; [|apply step_env, (env_release _ _ [ReleaseLocal "n1" "k"] _ []); vm_compute; reflexivity].
  apply reach_play, reach_play, reach_with, one_running_reachable. vm_compute. reflexivity.
Qed.
End Scenarios.
