(* ===== verification/DeadLetters.v ===== *)
(** * Replaying dead letters

    [replay_dead_letters] of [control_bus.rs] sends what was written to the dead
    letter subject back to the subject it came from. What the stream yields is a
    list; the stream has ended where the list does. *)

From S2P Require Import Prelude ContentHash Effects Etcd PartitionGate ControlBus BusSystem BusLocal.
From Stdlib Require Import ZArith Lia.

Class DeadLetterJson := { decode_dead_letter : string -> result string DeadLetterEnvelope }.

(** [timeout(500ms, messages.next())] *)
Inductive Incoming := IncTimeout | IncError | IncMessage (id : nat) (payload : string).

Inductive ReplayE : Type -> Type :=
| RpUuid : ReplayE string
| RpMillis : ReplayE Z
| RpPublish (subject message_id payload : string) : ReplayE (result string unit)
| RpEvent (dead_letter_id command_id original_subject : string) : ReplayE (result string unit)
| RpAck (id : nat) (kind : AckKind) : ReplayE (result string unit).

Abbreviation Replay := (prog ReplayE).

Definition replay_id (d : DeadLetterEnvelope) : Replay string :=
  if is_empty_str (trim (dl_command_id d)) then u ← perform RpUuid; Ret ("replay-" +:+ u)
  else t ← perform RpMillis; Ret ("replay-" +:+ dl_command_id d +:+ "-" +:+ pretty t).

(** One dead letter: publish it again, announce it, acknowledge it. *)
Definition replay_one (id : nat) (d : DeadLetterEnvelope) : Replay (result string unit) :=
  rid ← replay_id d;
  _ ←? perform (RpPublish (dl_original_subject d) rid (dl_payload d));
  _ ←? perform (RpEvent (dl_id d) (dl_command_id d) (dl_original_subject d));
  perform (RpAck id Ack).

Section Replay.
Context `{DeadLetterJson}.

Fixpoint replay_loop (incoming : list Incoming) (limit replayed idle_timeouts : nat) : Replay (result string nat) :=
  if limit <=? replayed then Ret (Ok replayed)
  else match incoming with
       | [] => Ret (Ok replayed)
       | IncTimeout :: rest =>
           if 3 <=? idle_timeouts + 1 then Ret (Ok replayed)
           else replay_loop rest limit replayed (idle_timeouts + 1)
       | IncError :: rest => replay_loop rest limit replayed 0
       | IncMessage id text :: rest =>
           match decode_dead_letter text with
           | Err _ => _ ← perform (RpAck id Term); replay_loop rest limit replayed 0
           | Ok d =>
               if is_empty_str (trim (dl_original_subject d)) then
                 _ ← perform (RpAck id Term); replay_loop rest limit replayed 0
               else
                 _ ←? replay_one id d; replay_loop rest limit (replayed + 1) 0
           end
       end.

Definition replay_dead_letters (incoming : list Incoming) (limit : nat) : Replay (result string nat) :=
  if limit =? 0 then Ret (Ok 0) else replay_loop incoming limit 0 0.

(** ** What a replay did *)

Record Replayed := MkReplayed {
  rp_published : list (string * string);   (** subjects and payloads *)
  rp_announced : nat;
  rp_acked : list nat;
}.

Definition replay_upd (A : Type) (g : Replayed) (e : ReplayE A) : A -> Replayed :=
  match e in ReplayE A return A -> Replayed with
  | RpPublish s _ p => fun r =>
      match r with
      | Ok _ => MkReplayed (rp_published g ++ [(s, p)]) (rp_announced g) (rp_acked g)
      | Err _ => g
      end
  | RpEvent _ _ _ => fun r =>
      match r with
      | Ok _ => MkReplayed (rp_published g) (S (rp_announced g)) (rp_acked g)
      | Err _ => g
      end
  | RpAck id Ack => fun _ => MkReplayed (rp_published g) (rp_announced g) (rp_acked g ++ [id])
  | _ => fun _ => g
  end.

(** The letter a message of the stream carries, where it is one that can be replayed. *)
Definition letter (m : Incoming) : option (nat * (string * string)) :=
  match m with
  | IncMessage id text =>
      match decode_dead_letter text with
      | Ok d => if is_empty_str (trim (dl_original_subject d)) then None
                else Some (id, (dl_original_subject d, dl_payload d))
      | Err _ => None
      end
  | _ => None
  end.

(** [n] letters were replayed from the front of the stream: each was published to its
    subject with its payload, announced and acknowledged, in the order of the stream. *)
Definition replayed_front (incoming : list Incoming) (n : nat) (g g' : Replayed) : Prop :=
  let front := take n (omap letter incoming) in
  n <= length (omap letter incoming) /\
  g' = MkReplayed (rp_published g ++ front.*2) (rp_announced g + n) (rp_acked g ++ front.*1).

(** The outcome: an error may leave the letter it struck published but not
    acknowledged. *)
Definition replay_outcome (incoming : list Incoming) (limit replayed : nat) (g g' : Replayed)
    (r : result string nat) : Prop :=
  match r with
  | Ok m => exists n, m = replayed + n /\ m <= limit /\ replayed_front incoming n g g'
  | Err _ => exists n g1, replayed + n < limit /\ replayed_front incoming n g g1 /\
      exists id s p, omap letter incoming !! n = Some (id, (s, p)) /\
        (g' = g1 \/
         g' = MkReplayed (rp_published g1 ++ [(s, p)]) (rp_announced g1) (rp_acked g1) \/
         g' = MkReplayed (rp_published g1 ++ [(s, p)]) (S (rp_announced g1)) (rp_acked g1 ++ [id]))
  end.

Lemma replay_outcome_skip m incoming limit replayed g g' r :
  letter m = None -> replay_outcome incoming limit replayed g g' r ->
  replay_outcome (m :: incoming) limit replayed g g' r.
Proof. intros Hm. unfold replay_outcome, replayed_front. cbn. by rewrite Hm. Qed.

Lemma replayed_front_cons m id s p incoming n g g' :
  letter m = Some (id, (s, p)) ->
  replayed_front incoming n (MkReplayed (rp_published g ++ [(s, p)]) (S (rp_announced g)) (rp_acked g ++ [id])) g' ->
  replayed_front (m :: incoming) (S n) g g'.
Proof.
  intros Hm. unfold replayed_front. cbn. rewrite Hm. cbn. intros [Hn ->]. split; [lia|].
  rewrite <- !app_assoc. cbn. f_equal. lia.
Qed.

Lemma replay_outcome_cons m id s p incoming limit replayed g g' r :
  letter m = Some (id, (s, p)) ->
  replay_outcome incoming limit (replayed + 1)
    (MkReplayed (rp_published g ++ [(s, p)]) (S (rp_announced g)) (rp_acked g ++ [id])) g' r ->
  replay_outcome (m :: incoming) limit replayed g g' r.
Proof.
  intros Hm. destruct r as [k|e].
  - intros (n & -> & Hl & Hf). exists (S n). split; [lia|]. split; [lia|]. by eapply replayed_front_cons.
  - intros (n & g1 & Hl & Hf & Hid). exists (S n), g1. split; [lia|]. split; [by eapply replayed_front_cons|].
    cbn. by rewrite Hm.
Qed.

Lemma replay_outcome_stop incoming limit replayed g :
  replayed <= limit -> replay_outcome incoming limit replayed g g (Ok replayed).
Proof.
  intros Hl. exists 0. split; [lia|]. split; [done|]. split; [lia|].
  rewrite take_0, !app_nil_r, Nat.add_0_r. by destruct g.
Qed.

Definition any_replay (A : Type) (_ : Replayed) (_ : ReplayE A) : Prop := True.

Lemma replay_loop_ok incoming limit : forall replayed idle g, replayed <= limit ->
  prog_ok any_replay replay_upd (fun g' r => replay_outcome incoming limit replayed g g' r) g
    (replay_loop incoming limit replayed idle).
Proof.
  induction incoming as [|m rest IH]; intros replayed idle g Hl; cbn [replay_loop];
    (destruct (limit <=? replayed) eqn:El; [by apply replay_outcome_stop|apply Nat.leb_gt in El]);
    [by apply replay_outcome_stop|].
  assert (forall i, letter m = None -> prog_ok any_replay replay_upd
    (fun g' r => replay_outcome (m :: rest) limit replayed g g' r) g (replay_loop rest limit replayed i)) as Hskip.
  { intros i Hm. eapply prog_ok_mono; [|by apply IH]. intros g' r. by apply replay_outcome_skip. }
  destruct m as [| |id text].
  - destruct (3 <=? idle + 1); [by apply replay_outcome_stop|]. by apply Hskip.
  - by apply Hskip.
  - destruct (decode_dead_letter text) as [d|?] eqn:Ed.
    2: { split; [done|]. intros a. apply Hskip. cbn. by rewrite Ed. }
    destruct (is_empty_str (trim (dl_original_subject d))) eqn:Es.
    { split; [done|]. intros a. apply Hskip. cbn. by rewrite Ed, Es. }
    assert (letter (IncMessage id text) = Some (id, (dl_original_subject d, dl_payload d))) as Hm
      by (cbn; by rewrite Ed, Es).
    set (g1 := MkReplayed (rp_published g ++ [(dl_original_subject d, dl_payload d)])
                 (S (rp_announced g)) (rp_acked g ++ [id])).
    eapply (prog_ok_try _ _ (fun g' r => match r with
      | Ok _ => g' = g1
      | Err e => replay_outcome (IncMessage id text :: rest) limit replayed g g' (Err e)
      end)); [| |done].
    + assert (forall g' e, (g' = g \/
        g' = MkReplayed (rp_published g ++ [(dl_original_subject d, dl_payload d)]) (rp_announced g) (rp_acked g) \/
        g' = g1) -> replay_outcome (IncMessage id text :: rest) limit replayed g g' (Err e)) as Herr.
      { intros g' e Hg'. exists 0, g. split; [lia|]. split.
        { split; [lia|]. cbn [take fmap list_fmap]. rewrite !app_nil_r, Nat.add_0_r. by destruct g. }
        exists id, (dl_original_subject d), (dl_payload d). split; [|done]. cbn [omap list_omap]. by rewrite Hm. }
      unfold replay_one, replay_id.
      destruct (is_empty_str (trim (dl_command_id d))); cbn;
        (split; [done|]); intros ?; (split; [done|]); (intros [[]|e]; cbn; [|apply Herr; auto]);
        (split; [done|]); (intros [[]|e]; cbn; [|apply Herr; auto]);
        (split; [done|]); (intros [[]|e]; cbn; [done|apply Herr; auto]).
    + intros g' _ ->. eapply prog_ok_mono; [|by apply IH; lia]. intros g2 r. by apply replay_outcome_cons.
Qed.

(** Whatever the dead-letter stream yields, a replay that returns [m] has
    published exactly the first [m] well-formed letters, each to its original subject
    with its payload, announced each, and acknowledged exactly those, in order, with
    [m] at most the limit; one that fails did so for a prefix, and the letter it was
    at is the only one that may be published without being acknowledged. *)
Theorem replay_publishes_then_acks incoming limit :
  prog_ok any_replay replay_upd
    (fun g r => replay_outcome incoming limit 0 (MkReplayed [] 0 []) g r)
    (MkReplayed [] 0 []) (replay_dead_letters incoming limit).
Proof.
  unfold replay_dead_letters. destruct (limit =? 0) eqn:El; [|by apply replay_loop_ok; lia].
  apply replay_outcome_stop. lia.
Qed.
End Replay.

(** ** What becomes of a replayed command

    The first delivery of a command wrote its duplicate marker. The replayed copy is a
    new message of the stream, so it counts as a first delivery again. *)

Section Dropped.
Context `{EtcdLaws, ControlJsonLaws, StdHash}.

Definition reliable (cs : list BusChoice) : Prop :=
  Forall (fun c => match c with CFault f => f = Delivered | _ => True end) cs.

(** What follows a remote call that is delivered. *)
Lemma prog_run_delivered {A R} (c : EtcdCall A) (k : result string A -> Bus R) w cs r w' :
  reliable cs -> prog_run bus_handle (Do (BEtcd c) k) w cs = Some (r, w') ->
  exists id s cs', id ∉ issued (eview (bw_etcd w)) /\ eview s = snd (kv_call (bw_now w) id c (eview (bw_etcd w))) /\
    reliable cs' /\
    prog_run bus_handle (k (fst (kv_call (bw_now w) id c (eview (bw_etcd w))))) (set_etcd s w) cs' = Some (r, w').
Proof.
  intros Hr. destruct cs as [|[|f|u|b|x] cs]; cbn [prog_run bus_handle]; try done.
  apply Forall_cons in Hr as [-> Hr]. cbn [rpc].
  destruct (ecall_view A (bw_now w) c (bw_etcd w)) as (id & Hid & Hv).
  intros Hrun. exists id. rewrite <- Hv. destruct (ecall (bw_now w) c (bw_etcd w)) as [x s].
  by exists s, cs.
Qed.

(** C40: a command that was delivered once and went to the dead-letter subject is not
    run again by a replay: its duplicate marker is still in the store, so every run of
    the consumer on the replayed copy, all calls of the store succeeding, acknowledges
    it as a duplicate and does nothing else. *)
Theorem replayed_command_dropped original id text config node store fence ttl envelope key w cs w' :
  reserialized (m_payload original) = Some text ->
  decode_envelope (m_payload original) = Ok envelope ->
  targeted_elsewhere node envelope = false ->
  dedupe_key envelope = Ret key ->
  is_Some (kvs (eview (bw_etcd w)) !! marker_key store key) ->
  reliable cs ->
  prog_run bus_handle
    (process_command_message (MkMessage id (m_subject original) text (Some 1%Z)) config node
       (Some store) fence None ttl) w cs = Some (tt, w') ->
  bw_log w' = bw_log w ++ [EvAck id Ack].
Proof.
  intros Htext Hdec Htarget Hkey Hmark Hr. unfold process_command_message. cbn [m_payload].
  rewrite (decode_reserialized _ _ Htext), Hdec, Htarget. cbn -[prog_run bus_handle].
  destruct cs as [|[] cs]; try done. cbn [prog_run bus_handle]. apply Forall_cons in Hr as [_ Hr].
  rewrite Hkey. cbn -[prog_run bus_handle]. intros Hrun.
  apply prog_run_delivered in Hrun as (id1 & s1 & cs1 & _ & Hs1 & Hr1 & Hrun); [|done].
  cbn -[prog_run bus_handle] in Hrun, Hs1.
  apply prog_run_delivered in Hrun as (id2 & s2 & cs2 & _ & _ & Hr2 & Hrun); [|done].
  revert Hrun. cbn -[prog_run bus_handle]. rewrite Hs1. cbn [kvs]. destruct Hmark as [c Hc].
  rewrite (bool_decide_eq_false_2 (kvs (eview (bw_etcd w)) !! marker_key store key = None)) by (by rewrite Hc).
  cbn -[prog_run bus_handle]. destruct cs2 as [|[] [|]]; try done.
  cbn. intros Hrun. by simplify_eq.
Qed.
End Dropped.

Section DroppedExample.
#[local] Existing Instance toy_json.
#[local] Existing Instance toy_hash.
#[local] Existing Instance map_etcd.

(** The command [k] of the scenarios, its marker in the store, comes back. *)
Definition marked_world : BusWorld :=
  MkWorld 0 (MkKV {["/d/k"%string := MkCell "1" None]} ∅ ∅ 1) ∅ ∅ [] [].

#[local] Instance toy_json_laws : ControlJsonLaws.
Proof. split; [by intros s s' [= ->]|done]. Qed.

Definition replay_choices : list (BusChoice) := [CStep; CFault Delivered; CFault Delivered; CResult (Ok tt)].

Definition replayed_run : option (unit * BusWorld) :=
  prog_run bus_handle
    (process_command_message
       (MkMessage 9 "cv.cmd" "k" (Some 1%Z)) toy_config "n1" (Some "/d"%string) None None 60000)
    marked_world replay_choices.

Definition replayed_world : BusWorld :=
  match replayed_run with Some (_, w) => w | None => marked_world end.

Definition k_envelope : CommandEnvelope (@jvalue toy_json) :=
  MkEnvelope (V := @jvalue toy_json) "k" "k" "exec.run" "k" None None tt.

Lemma replayed_run_ends : replayed_run = Some (tt, replayed_world).
Proof.
  assert (bool_decide (is_Some replayed_run) = true) as H by (vm_compute; reflexivity).
  unfold replayed_world. destruct replayed_run as [[[] w]|]; [reflexivity|discriminate H].
Qed.

Lemma replayed_command_dropped_witness : bw_log replayed_world = [EvAck 9 Ack].
Proof.
  eapply (replayed_command_dropped (MkMessage 1 "cv.cmd" "k" None) 9 "k" toy_config "n1" "/d" None 60000
    k_envelope "k" marked_world replay_choices replayed_world).
  - reflexivity.
  - reflexivity.
  - vm_compute. reflexivity.
  - vm_compute. reflexivity.
  - exists (MkCell "1" None). vm_compute. reflexivity.
  - repeat constructor.
  - exact replayed_run_ends.
Defined.
End DroppedExample.
