(* ===== verification/ExecInput.v ===== *)
(** * Input for a running command

    [handle_exec_stream_input_command] of [control_bus.rs]: standard input and
    signals reach a running command as messages of their own, which may arrive twice
    or out of order and are handled by tasks that run at the same time. A stream is
    shared by its entry in the table and by the tasks that have looked it up; its
    sequence number is a mutex held until the input has been queued. *)

From S2P Require Import Prelude ContentHash Effects Etcd ControlBus.
From Stdlib Require Import ZArith Lia.

(** ** Streams *)

Record StreamIdentity := MkIdentity {
  ax_session_id : string;
  ax_vm_id : string;
  ax_node_id : string;
  ax_producer_epoch : Z;
  ax_daemon_name : string;
}.

Inductive AttachRequest := StdinData (data : string) | StdinEof.

(** The number of the last input and what was put in the queue, with its number. *)
Record StreamState := MkStream {
  ax_identity : StreamIdentity;
  ax_last_input_seq : Z;
  ax_queue : list (Z * AttachRequest);
}.

Definition new_stream (identity : StreamIdentity) : StreamState := MkStream identity 0 [].

(** How the bounded send ends: queued, no room within two seconds, receiver gone. *)
Inductive SendOutcome := Queued | Busy | Closed.

Definition out_of_order (got expected : Z) : string :=
  "exec stream input out of order: got " +:+ pretty got +:+ ", expected " +:+ pretty expected.

(** From [last_input_seq.lock()] to the end. *)
Definition input_section (seq : Z) (request : AttachRequest) (o : SendOutcome) (s : StreamState) :
    result string unit * StreamState :=
  let last := ax_last_input_seq s in
  if (seq =? 0)%Z then (Err "input_seq must be positive"%string, s)
  else if (seq <=? last)%Z then (Ok tt, s)
  else if negb (seq =? sat_add last 1)%Z then
    (Err (out_of_order seq (sat_add last 1)), s)
  else match o with
       | Queued => (Ok tt, MkStream (ax_identity s) seq (ax_queue s ++ [(seq, request)]))
       | Busy => (Err "exec stream stdin queue busy"%string, s)
       | Closed => (Err "exec stream stdin closed"%string, s)
       end.

Definition validate_exec_input_identity (active : StreamIdentity) (p : ExecStreamInputPayload) :
    result string unit :=
  guard_err (negb (bool_decide (ei_producer_epoch p = Some (ax_producer_epoch active)))
             || negb (String.eqb (ei_session_id p) (ax_session_id active))
             || negb (String.eqb (ei_vm_id p) (ax_vm_id active))
             || negb (String.eqb (ei_target_node_id p) (ax_node_id active)))
    "stale or mismatched exec stream owner"%string.

(** ** The handler *)

Inductive InputE : Type -> Type :=
| IActive (stream_id : string) : InputE (option (nat * StreamIdentity))
| IControl (daemon : string) (epoch seq signal : Z) : InputE (result string unit)
| ISection (stream : nat) (seq : Z) (request : AttachRequest) : InputE (result string unit).

Definition stdin_request (p : ExecStreamInputPayload) : result string AttachRequest :=
  if String.eqb (ei_input_kind p) "stdin" then Ok (StdinData (default EmptyString (ei_data p)))
  else if String.eqb (ei_input_kind p) "eof" then Ok StdinEof
  else Err ("unsupported exec stream input kind: " +:+ ei_input_kind p).

Section Handler.
Context `{ControlJson}.

Definition handle_exec_stream_input_command (envelope : CommandEnvelope jvalue) :
    prog InputE (result string unit) :=
  match decode_exec_stream_input (payload envelope) with
  | Err e => Ret (Err e)
  | Ok p =>
      found ← perform (IActive (ei_stream_id p));
      match found with
      | None => Ret (Err ("exec stream is not active: " +:+ ei_stream_id p))
      | Some (stream, active) =>
          match validate_exec_input_identity active p with
          | Err e => Ret (Err e)
          | Ok _ =>
              if String.eqb (ei_input_kind p) "signal" then
                match ei_signal p with
                | None => Ret (Err "missing exec signal"%string)
                | Some signal =>
                    perform (IControl (ax_daemon_name active) (ax_producer_epoch active) (ei_input_seq p) signal)
                end
              else
                match stdin_request p with
                | Err e => Ret (Err e)
                | Ok request => perform (ISection stream (ei_input_seq p) request)
                end
          end
      end
  end.

(** ** The node *)

Record InputWorld := MkInputWorld {
  iw_table : gmap string nat;       (** [active_exec_streams] *)
  iw_streams : gmap nat StreamState;
  iw_signals : list (string * Z);
}.

Inductive InputChoice := IcStep | IcSend (o : SendOutcome) | IcResult (r : result string unit).

Definition input_handle (A : Type) (e : InputE A) (w : InputWorld) (c : InputChoice) :
    option (A * InputWorld) :=
  match e in InputE A return option (A * InputWorld) with
  | IActive id =>
      match c with
      | IcStep =>
          Some (h ← iw_table w !! id; s ← iw_streams w !! h; Some (h, ax_identity s), w)
      | _ => None
      end
  | IControl daemon _ _ signal =>
      match c with
      | IcResult r => Some (r, MkInputWorld (iw_table w) (iw_streams w) (iw_signals w ++ [(daemon, signal)]))
      | _ => None
      end
  | ISection h seq request =>
      match c, iw_streams w !! h with
      | IcSend o, Some s =>
          let '(r, s') := input_section seq request o s in
          Some (r, MkInputWorld (iw_table w) (<[h := s']> (iw_streams w)) (iw_signals w))
      | _, _ => None
      end
  end.

(** A stream is entered with a table entry of its own and leaves the table at its
    end; the tasks that looked it up still hold it. *)
Inductive input_env : InputWorld -> InputWorld -> Prop :=
| input_open w id h identity :
    iw_streams w !! h = None ->
    input_env w (MkInputWorld (<[id := h]> (iw_table w)) (<[h := new_stream identity]> (iw_streams w)) (iw_signals w))
| input_close w id : input_env w (MkInputWorld (delete id (iw_table w)) (iw_streams w) (iw_signals w)).

Definition input_starts (_ : unit) (p : prog InputE (result string unit)) (_ : InputWorld) : Prop :=
  exists envelope, p = handle_exec_stream_input_command envelope.

(** A crash of the node ends every stream. *)
Definition input_crash (_ : unit) (_ : InputWorld) : InputWorld := MkInputWorld ∅ ∅ [].

Definition input_reachable (s : System (E := InputE) (W := InputWorld) (T := unit) (R := result string unit)) : Prop :=
  system_reachable input_handle input_starts input_env input_crash (fun w => w = MkInputWorld ∅ ∅ []) s.

(** ** The invariant *)

(** What a stream queued: inputs [1], [2], ... [last], in order, each once. *)
Definition in_sequence (s : StreamState) : Prop :=
  (0 <= ax_last_input_seq s)%Z /\ (ax_queue s).*1 = seqZ 1 (ax_last_input_seq s).

Lemma input_section_ok seq request o s r s' :
  (0 <= seq)%Z -> in_sequence s -> input_section seq request o s = (r, s') ->
  in_sequence s' /\ (ax_last_input_seq s <= ax_last_input_seq s')%Z /\
  (r = Ok tt -> (1 <= seq <= ax_last_input_seq s')%Z) /\
  ax_queue s `prefix_of` ax_queue s'.
Proof.
  intros Hseq [Hl Hq]. unfold input_section, sat_add.
  destruct (Z.eqb_spec seq 0); [intros [= <- <-]; split_and!; done|].
  destruct (Z.leb_spec seq (ax_last_input_seq s)); [intros [= <- <-]; split_and!; [done|done|lia|done]|].
  destruct (Z.eqb_spec seq (Z.min U64_MAX (ax_last_input_seq s + 1))); cbn;
    [|intros [= <- <-]; split_and!; done].
  destruct o; intros [= <- <-]; try (split_and!; done). cbn.
  assert (seq = ax_last_input_seq s + 1)%Z as -> by lia. split_and!; [|lia|lia|by eexists].
  split; cbn; [lia|]. rewrite fmap_app, Hq. cbn. rewrite seqZ_app by lia. f_equal. unfold seqZ. change (Z.to_nat 1) with 1. cbn. f_equal. lia.
Qed.

(** A task that was told its input is accepted knows so. *)
Abbreviation InputGhost := (option (nat * Z)).

Definition input_pre (A : Type) (g : InputGhost) (e : InputE A) : Prop :=
  match e with ISection _ seq _ => (0 <= seq)%Z | _ => True end.

Definition input_upd (A : Type) (g : InputGhost) (e : InputE A) : A -> InputGhost :=
  match e in InputE A return A -> InputGhost with
  | ISection h seq _ => fun r => match r with Ok _ => Some (h, seq) | Err _ => g end
  | _ => fun _ => g
  end.

Definition input_inv (w : InputWorld) (γ : gmap nat (unit * InputGhost)) : Prop :=
  (forall h s, iw_streams w !! h = Some s -> in_sequence s) /\
  (forall i t h n, γ !! i = Some (t, Some (h, n)) ->
     exists s, iw_streams w !! h = Some s /\ (1 <= n <= ax_last_input_seq s)%Z).

Context `{!ControlJsonLaws}.

Lemma input_ok envelope : prog_ok input_pre input_upd (fun _ _ => True) None (handle_exec_stream_input_command envelope).
Proof.
  unfold handle_exec_stream_input_command. destruct (decode_exec_stream_input _) as [p|] eqn:Ed; [|done].
  split; [done|]. intros [[h active]|]; [|done]. cbn. destruct (validate_exec_input_identity _ _); [|done].
  repeat case_match; try done; split; cbn; try done. by apply input_seq_u64 in Ed as [? _].
Qed.

Lemma input_rules :
  InvariantRules input_handle input_starts input_env input_crash input_pre input_upd (fun _ _ => True)
    input_inv (fun w => w = MkInputWorld ∅ ∅ []).
Proof.
  split.
  - intros w ->. split; cbn; intros *; by rewrite lookup_empty.
  - intros w γ i t g A e c a w' [Hs Hg] Hi Hpre He.
    assert (forall t' g', g' = g -> forall j t0 h n, <[i := (t', g')]> γ !! j = Some (t0, Some (h, n)) ->
      exists t1 k, γ !! k = Some (t1, Some (h, n))) as Hold.
    { intros t' g' -> j t0 h n. destruct (decide (i = j)) as [<-|]; simplify_map_eq; eauto. naive_solver. }
    destruct e as [id|daemon ep sq sg|h seq request]; cbn in He.
    + destruct c; simplify_eq. split; [done|]. intros j t0 h n Hj.
      apply (Hold _ _ eq_refl) in Hj as (? & ? & ?). eauto.
    + destruct c; simplify_eq. split; [done|]. intros j t0 h n Hj.
      apply (Hold _ _ eq_refl) in Hj as (? & ? & ?). eauto.
    + destruct c as [|o|]; try done. destruct (iw_streams w !! h) as [s|] eqn:Eh; [|done].
      destruct (input_section seq request o s) as [r s'] eqn:Es. simplify_eq.
      destruct (input_section_ok _ _ _ _ _ _ Hpre (Hs _ _ Eh) Es) as (Hin & Hle & Hok & _).
      split; cbn.
      * intros h' s1. destruct (decide (h = h')) as [<-|]; intros; simplify_map_eq; eauto.
      * assert (forall h' n s0, iw_streams w !! h' = Some s0 -> (1 <= n <= ax_last_input_seq s0)%Z ->
          exists s1, <[h := s']> (iw_streams w) !! h' = Some s1 /\ (1 <= n <= ax_last_input_seq s1)%Z) as Hkeep.
        { intros h' n s0 Hh0 Hn. destruct (decide (h = h')) as [<-|]; simplify_map_eq; eauto.
          eexists. split; [done|]. lia. }
        intros j t0 h' n. destruct (decide (i = j)) as [<-|]; intros Hj; simplify_map_eq.
        -- destruct a as [[]|e]; cbn in *; simplify_eq.
           ++ eexists. split; [by simplify_map_eq|]. by apply Hok.
           ++ destruct (Hg _ _ _ _ Hi) as (s0 & Hh0 & Hn). eauto.
        -- destruct (Hg _ _ _ _ Hj) as (s0 & Hh0 & Hn). eauto.
  - intros w γ i t p [Hs Hg] Hi [envelope ->]. exists None. split; [apply input_ok|]. split; [done|].
    intros j t0 h n Hj. destruct (decide (i = j)) as [<-|]; simplify_map_eq. eauto.
  - intros w γ w' [Hs Hg] Henv. destruct Henv as [w id h identity Hh|w id]; [|done]. split; cbn.
    + intros h' s1 H1. destruct (decide (h = h')) as [<-|]; simplify_map_eq; [by split|eauto].
    + intros i t h' n Hi. destruct (Hg _ _ _ _ Hi) as (s0 & Hh0 & Hn). exists s0. split; [|done].
      by rewrite lookup_insert_ne by naive_solver.
  - intros w γ [] [Hs Hg]. split; cbn; [intros *; by rewrite lookup_empty|].
    intros i t h n Hi. apply map_lookup_filter_Some in Hi as [_ Hi]. cbn in Hi. by destruct t.
Qed.

(** C23: whatever inputs arrive for the streams of a node, in any order, any number of
    times, handled by any number of tasks at once, with the queue full or its receiver
    gone at any moment: what a stream has put in the queue of its command is input 1,
    2, ... up to the last one recorded, in order and each once. *)
Theorem exec_input_in_order s h stream :
  input_reachable s -> iw_streams (world s) !! h = Some stream -> in_sequence stream.
Proof.
  intros Hr Hh. destruct (system_invariant _ _ _ _ _ _ _ _ _ _ input_rules Hr) as (γ & [Hs _] & _).
  by eapply Hs.
Qed.
End Handler.

Definition input_json : ControlJson := {|
  jvalue := Z;
  decode_envelope := fun _ => Err "none"%string;
  get_str := fun _ _ => None;
  decode_exec_run := fun _ => Err "none"%string;
  decode_exec_stream_start := fun _ => Err "none"%string;
  decode_exec_stream_input := fun n =>
    Ok (MkInputPayload "x" (n mod 2 ^ 64) "stdin" (Some (pretty n)) (Some 1%Z) "s" "vm" "n1" None);
  reserialized := Some;
  raw_payload_object := fun s => s;
|}.

Section InputExample.
#[local] Existing Instance input_json.

#[local] Instance input_json_laws : ControlJsonLaws.
Proof.
  split; [by intros s s' [= ->]|]. intros v p. cbn. intros [= <-]. cbn. unfold is_u64, U64_MAX.
  pose proof (Z.mod_pos_bound v (2 ^ 64)). lia.
Qed.

Definition input_cmd (n : Z) : prog InputE (result string unit) :=
  handle_exec_stream_input_command (MkEnvelope (V := @jvalue input_json) "" "" "exec.stream.input" "" None None n).

Abbreviation InputSystem := (System (E := InputE) (W := InputWorld) (T := unit) (R := result string unit)).

Definition input_opened : InputSystem :=
  MkSystem (MkInputWorld {["x"%string := 0]} {[0 := new_stream (MkIdentity "s" "vm" "n1" 1 "d")]} []) ∅.

Definition with_input (i : nat) (n : Z) (s : InputSystem) : InputSystem :=
  MkSystem (world s) (<[i := (tt, input_cmd n)]> (tasks s)).

Definition input_start : InputSystem := with_input 2 1 (with_input 1 2 (with_input 0 1 input_opened)).

Lemma with_input_reachable i n s : tasks s !! i = None -> input_reachable s -> input_reachable (with_input i n s).
Proof. intros Hi Hs. eapply reach_step; [done|]. apply step_start; [done|]. by eexists. Qed.

Lemma input_start_reachable : input_reachable input_start.
Proof.
  do 3 (apply with_input_reachable; [reflexivity|]).
  eapply reach_step; [by apply reach_init|].
  exact (step_env _ _ _ _ (MkSystem (MkInputWorld ∅ ∅ []) ∅) _
    (input_open (MkInputWorld ∅ ∅ []) "x" 0 (MkIdentity "s" "vm" "n1" 1 "d") eq_refl)).
Qed.

(** Input 2 comes too early and is refused, input 1 comes twice. *)
Definition input_late : InputSystem :=
  default input_start (run_schedule input_handle input_start
    [(0, IcStep); (1, IcStep); (1, IcSend Queued); (2, IcStep); (2, IcSend Queued); (0, IcSend Queued)]).

Lemma exec_input_in_order_witness :
  exists stream, iw_streams (world input_late) !! 0 = Some stream /\
    ax_queue stream = [(1%Z, StdinData "1")] /\ in_sequence stream.
Proof.
  eexists. split; [vm_compute; reflexivity|]. split; [reflexivity|].
  apply (exec_input_in_order input_late 0); [|vm_compute; reflexivity].
  unfold input_late. destruct (run_schedule _ _ _) eqn:E; [|apply input_start_reachable].
  eapply run_schedule_reachable; [apply input_start_reachable|exact E].
Defined.
End InputExample.
