(* ===== verification/SessionRoutes.v ===== *)
(** * Session routes and their ownership fences

    [crates/sandbox/src/distributed.rs]: the route of a session says which node runs
    its machine; beside it, under a key of its own, is the ownership fence. A client
    changes a route in a transaction that compares the fence it believes current and
    writes a fresh one. Keys are spread over shards; routes written by earlier
    versions have no shard in their key. *)

From S2P Require Import Prelude ContentHash Effects Etcd ControlBus.
From Stdlib Require Import ZArith Lia Ascii.

(** ** Data *)

Inductive SandboxError :=
| DaemonUnavailable (m : string)
| InvalidResponse (m : string)
| FenceConflict (m : string)
| ResourceExhausted (m : string).

Record SessionRoute := MkRoute {
  r_session_id : string;
  r_vm_id : string;
  r_endpoint : string;
  r_node_id : option string;
  r_fork_id : option string;
  r_ownership_fence : option string;
  r_tenant_id : string;
  r_workspace_id : string;
  r_tier_b_eligible : bool;
  r_required_mount_profiles : list string;
}.

(** The stored form has the time of the write. *)
Record SessionRouteRecord := MkRecord { rec_route : SessionRoute; rec_updated_at_unix_ms : Z }.

Class RouteJson := {
  encode_route_record : SessionRouteRecord -> string;
  decode_route_record : string -> result string SessionRouteRecord;
}.
Class RouteJsonLaws `{RouteJson} : Prop := {
  decode_encode_route : forall r, decode_route_record (encode_route_record r) = Ok r;
}.

(** ** Normalisation *)

Definition SHARED_MOUNT_PROFILE_LOCAL : string := "local-path".

(** Trimmed, in lower case, with the local profile, sorted and without repetition. *)
Definition normalize_shared_mount_profiles (values : list string) : list string :=
  let normalized := List.filter (fun v => negb (is_empty_str v)) ((fun v => to_ascii_lowercase (trim v)) <$> values) in
  let all := if existsb (String.eqb SHARED_MOUNT_PROFILE_LOCAL) normalized then normalized
             else normalized ++ [SHARED_MOUNT_PROFILE_LOCAL] in
  sorted_strings (list_to_set all).

Definition normalize_scope_value (raw : string) : string :=
  if is_empty_str (trim raw) then "default" else trim raw.

Definition normalize_prefix (prefix : string) : string :=
  let trimmed := trim_matches "/"%char (trim prefix) in
  if is_empty_str trimmed then "/chevalier-sandbox" else "/" +:+ trimmed.

(** ** Keys *)

Definition DEFAULT_SHARD_COUNT : Z := 16.

(** [(hasher.finish() as u8) % shard_count] *)
Definition client_shard_for_key `{StdHash} (key : string) (shard_count : Z) : Z :=
  if (shard_count <=? 1)%Z then 0%Z else ((default_hash [key] mod 2 ^ 8) mod shard_count)%Z.

Definition sessions_prefix (etcd_prefix : string) : string := etcd_prefix +:+ "/sessions/".
Definition client_fences_prefix (etcd_prefix : string) : string := etcd_prefix +:+ "/session_fences/".

Section Keys.
Context `{StdHash} (etcd_prefix : string).

Definition client_session_key (session_id : string) : string :=
  sessions_prefix etcd_prefix +:+ pad2 (client_shard_for_key session_id DEFAULT_SHARD_COUNT) +:+ "/" +:+ session_id.
Definition client_legacy_session_key (session_id : string) : string :=
  sessions_prefix etcd_prefix +:+ session_id.
Definition client_session_fence_key (session_id : string) : string :=
  client_fences_prefix etcd_prefix +:+ pad2 (client_shard_for_key session_id DEFAULT_SHARD_COUNT) +:+ "/" +:+ session_id.
Definition client_legacy_session_fence_key (session_id : string) : string :=
  client_fences_prefix etcd_prefix +:+ session_id.
End Keys.

(** The node and the client compute the shard differently and agree on it for every
    number of shards that divides 256. *)
Lemma shards_agree `{StdHash} key n :
  (0 < n)%Z -> (n | 2 ^ 8)%Z -> client_shard_for_key key n = shard_for_key key n.
Proof.
  intros Hn [q Hq]. unfold client_shard_for_key, shard_for_key. rewrite Z.max_r by lia.
  destruct (Z.leb_spec n 1).
  - replace n with 1%Z by lia. by rewrite Z.mod_1_r.
  - rewrite Hq, (Z.mul_comm q n), Z.rem_mul_r by nia.
    rewrite (Z.mul_comm n (_ mod _)), Z_mod_plus_full. by apply Zmod_mod.
Qed.

(** ** Operations *)

Inductive RouteE : Type -> Type :=
| RtUuid : RouteE string
| RtMillis : RouteE Z
| RtEtcd {A : Type} (c : EtcdCall A) : RouteE (result string A)
| RtReport (session_id : string) (expected : option string) (ok : bool) : RouteE unit.

Abbreviation Routes := (prog RouteE).

(** A call of the store; [what] names it in the error. *)
Definition store_call {A} (what : string) (c : EtcdCall A) : Routes (result SandboxError A) :=
  r ← perform (RtEtcd c);
  Ret (match r with Ok a => Ok a | Err e => Err (DaemonUnavailable (what +:+ " failed: " +:+ e)) end).

Definition client_read_fence_value (key : string) : Routes (result SandboxError (option string)) :=
  v ←? store_call "etcd read fence key" (EGet key);
  Ret (match v with
       | None => Ok None
       | Some value =>
           if negb (from_utf8 value) then Err (InvalidResponse "decode fence value failed")
           else if is_empty_str (trim value) then Ok None else Ok (Some value)
       end).

Definition fence_mismatch (what : string) (expected current : option string) : SandboxError :=
  FenceConflict (what +:+ " ownership fence mismatch: expected=" +:+ default "<none>"%string expected
                 +:+ " current=" +:+ default "<none>"%string current).

Definition decode_session_route `{RouteJson} (raw : string) : result SandboxError SessionRoute :=
  match decode_route_record raw with
  | Ok (MkRecord r _) =>
      Ok (MkRoute (r_session_id r) (r_vm_id r) (r_endpoint r) (r_node_id r) (r_fork_id r) (r_ownership_fence r)
            (normalize_scope_value (r_tenant_id r)) (normalize_scope_value (r_workspace_id r))
            (r_tier_b_eligible r) (normalize_shared_mount_profiles (r_required_mount_profiles r)))
  | Err _ =>
      if from_utf8 raw then Ok (MkRoute "" "" raw None None None "default" "default" false [])
      else Err (InvalidResponse "invalid session route value")
  end.

Section Client.
Context `{RouteJson, StdHash} (etcd_prefix : string).

Abbreviation route_key := (client_session_key etcd_prefix).
Abbreviation legacy_route_key := (client_legacy_session_key etcd_prefix).
Abbreviation fence_key := (client_session_fence_key etcd_prefix).
Abbreviation legacy_fence_key := (client_legacy_session_fence_key etcd_prefix).

(** A read that falls back on the key of earlier versions. *)
Definition read_or_legacy (key legacy : string) : Routes (result SandboxError (option string)) :=
  v ←? store_call "etcd get" (EGet key);
  if bool_decide (v = None) && negb (String.eqb key legacy) then store_call "etcd get legacy" (EGet legacy)
  else Ret (Ok v).

Definition get_session_route (session_id : string) : Routes (result SandboxError (option SessionRoute)) :=
  found ←? read_or_legacy (route_key session_id) (legacy_route_key session_id);
  match found with
  | None => Ret (Ok None)
  | Some raw =>
      match decode_session_route raw with
      | Err e => Ret (Err e)
      | Ok route =>
          fence ←? read_or_legacy (fence_key session_id) (legacy_fence_key session_id);
          Ret (Ok (Some (match fence with
            | Some f =>
                if from_utf8 f && negb (is_empty_str (trim f)) then
                  MkRoute (r_session_id route) (r_vm_id route) (r_endpoint route) (r_node_id route)
                    (r_fork_id route) (Some f) (r_tenant_id route) (r_workspace_id route)
                    (r_tier_b_eligible route) (r_required_mount_profiles route)
                else route
            | None => route
            end)))
      end
  end.

(** The current fence and the key it was found under. *)
Definition current_fence (session_id : string) : Routes (result SandboxError (option string * string)) :=
  current ←? client_read_fence_value (fence_key session_id);
  if bool_decide (current = None) && negb (String.eqb (fence_key session_id) (legacy_fence_key session_id)) then
    legacy ←? client_read_fence_value (legacy_fence_key session_id);
    Ret (Ok (legacy, if bool_decide (is_Some legacy) then legacy_fence_key session_id else fence_key session_id))
  else Ret (Ok (current, fence_key session_id)).

Definition put_session_route (route : SessionRoute) (expected_fence : option string) :
    Routes (result SandboxError SessionRoute) :=
  let session_id := r_session_id route in
  let mounts := normalize_shared_mount_profiles (r_required_mount_profiles route) in
  next_fence ← perform RtUuid;
  let updated := MkRoute (r_session_id route) (r_vm_id route) (r_endpoint route) (r_node_id route)
    (r_fork_id route) (Some next_fence) (r_tenant_id route) (r_workspace_id route)
    (r_tier_b_eligible route) mounts in
  now ← perform RtMillis;
  let payload := encode_route_record (MkRecord updated now) in
  current ←? current_fence session_id;
  let '(current, compare_key) := current in
  if negb (ownership_fence_allows_transition current expected_fence) then
    Ret (Err (fence_mismatch "session route" expected_fence current))
  else
    let compare := match expected_fence with
                   | Some fence => CmpValue compare_key fence
                   | None => CmpVersionZero (fence_key session_id)
                   end in
    succeeded ←? store_call "etcd put session route txn"
      (ETxn [compare]
         [TxnPut (route_key session_id) payload None;
          TxnPut (fence_key session_id) next_fence None;
          TxnDelete (legacy_route_key session_id);
          TxnDelete (legacy_fence_key session_id)]);
    if negb succeeded then
      now_current ←? client_read_fence_value (fence_key session_id);
      Ret (Err (fence_mismatch "session route" expected_fence now_current))
    else Ret (Ok updated).

Definition delete_session_route (session_id : string) (expected_fence : option string) :
    Routes (result SandboxError unit) :=
  match expected_fence with
  | Some expected =>
      current ←? current_fence session_id;
      let '(current, compare_key) := current in
      if negb (ownership_fence_allows_transition current (Some expected)) then
        Ret (Err (fence_mismatch "session route delete" (Some expected) current))
      else
        succeeded ←? store_call "etcd delete session route txn"
          (ETxn [CmpValue compare_key expected]
             [TxnDelete (route_key session_id); TxnDelete (fence_key session_id);
              TxnDelete (legacy_route_key session_id); TxnDelete (legacy_fence_key session_id)]);
        if negb succeeded then
          now_current ←? client_read_fence_value (fence_key session_id);
          Ret (Err (fence_mismatch "session route delete" (Some expected) now_current))
        else Ret (Ok tt)
  | None =>
      _ ←? store_call "etcd delete session route" (EDelete (route_key session_id));
      _ ←? store_call "etcd delete session fence" (EDelete (fence_key session_id));
      _ ← perform (RtEtcd (EDelete (legacy_route_key session_id)));
      _ ← perform (RtEtcd (EDelete (legacy_fence_key session_id)));
      Ret (Ok tt)
  end.
End Client.
