(* ===== verification/RouteFences.v ===== *)
(** * One owner at a time

    Any number of clients of [SessionRoutes.v] read, change and delete the routes of
    sessions at the same time, over a network that loses requests and replies. A
    client that was told its change succeeded is the only one that succeeded against
    the fence it expected. *)

From S2P Require Import Prelude ContentHash Effects Etcd ControlBus SessionRoutes.
From Stdlib Require Import ZArith Lia.

Section World.
Context `{EtcdServer}.

Record RouteWorld := MkRouteWorld {
  rw_now : Z;
  rw_etcd : estate;
  rw_uuids : gset string;
  rw_reports : list (string * option string * bool);   (** session, expected fence, success *)
}.

Inductive RouteChoice := RcStep | RcFault (f : Fault) | RcUuid (u : string).

Definition route_handle (A : Type) (e : RouteE A) (w : RouteWorld) (c : RouteChoice) : option (A * RouteWorld) :=
  match e in RouteE A return option (A * RouteWorld) with
  | RtUuid =>
      match c with
      | RcUuid u =>
          if bool_decide (u ∉ rw_uuids w)
          then Some (u, MkRouteWorld (rw_now w) (rw_etcd w) ({[u]} ∪ rw_uuids w) (rw_reports w)) else None
      | _ => None
      end
  | RtMillis => match c with RcStep => Some (rw_now w, w) | _ => None end
  | RtEtcd ec =>
      match c with
      | RcFault f =>
          let '(r, s) := rpc (rw_now w) f ec (rw_etcd w) in
          Some (r, MkRouteWorld (rw_now w) s (rw_uuids w) (rw_reports w))
      | _ => None
      end
  | RtReport session expected ok =>
      match c with
      | RcStep => Some (tt, MkRouteWorld (rw_now w) (rw_etcd w) (rw_uuids w) (rw_reports w ++ [(session, expected, ok)]))
      | _ => None
      end
  end.

Definition fence_in (P : string) (w : RouteWorld) (k v : string) : Prop :=
  starts_with P k = true /\ value_of (eview (rw_etcd w)) k = Some v.

(** Time passes; other clients of the store leave the fences alone. *)
Inductive route_env (P : string) : RouteWorld -> RouteWorld -> Prop :=
| route_tick w d : (0 < d)%Z -> route_env P w (MkRouteWorld (rw_now w + d) (rw_etcd w) (rw_uuids w) (rw_reports w))
| route_other w s :
    (forall k, starts_with P k = true -> value_of (eview s) k = value_of (eview (rw_etcd w)) k) ->
    route_env P w (MkRouteWorld (rw_now w) s (rw_uuids w) (rw_reports w)).

(** A store whose fences were all generated and differ from one another. *)
Definition route_init (P : string) (w : RouteWorld) : Prop :=
  rw_reports w = [] /\
  (forall k v, fence_in P w k v -> v ∈ rw_uuids w) /\
  (forall k1 k2 v, fence_in P w k1 v -> fence_in P w k2 v -> k1 = k2).

(** ** The clients *)

Context `{RouteJson, StdHash} (etcd_prefix : string).

Definition succeeded_with {E A} (r : result E A) : bool := match r with Ok _ => true | Err _ => false end.

(** A request and the report of its outcome. *)
Inductive RouteRequest :=
| RqGet (session_id : string)
| RqPut (route : SessionRoute) (expected : option string)
| RqDelete (session_id : string) (expected : option string).

Definition route_client (q : RouteRequest) : Routes unit :=
  match q with
  | RqGet session_id => _ ← get_session_route etcd_prefix session_id; Ret tt
  | RqPut route expected =>
      r ← put_session_route etcd_prefix route expected;
      perform (RtReport (r_session_id route) expected (succeeded_with r))
  | RqDelete session_id expected =>
      r ← delete_session_route etcd_prefix session_id expected;
      perform (RtReport session_id expected (succeeded_with r))
  end.

Definition route_starts (_ : string) (p : Routes unit) (_ : RouteWorld) : Prop := exists q, p = route_client q.

Abbreviation P := (client_fences_prefix etcd_prefix).

Definition route_reachable : System (E := RouteE) (W := RouteWorld) (T := string) (R := unit) -> Prop :=
  system_reachable route_handle route_starts (route_env P) (fun _ w => w) (route_init P).

(** ** The fences that are gone *)

(** What a task holds: a fence it has not stored yet, or the one it replaced. *)
Record FenceGhost := MkFG { fg_held : option string; fg_won : option string }.

Definition marks (g : FenceGhost) : list string := option_list (fg_held g) ++ option_list (fg_won g).

(** The fences of successful requests. *)
Definition consumed (reports : list (string * option string * bool)) : list string :=
  omap (fun x => if snd x : bool then x.1.2 else None) reports.

Definition route_session_txn (g : FenceGhost) (cmp : Compare) (ops : list TxnOp) : Prop :=
  exists s,
    let fk := client_session_fence_key etcd_prefix s in
    let lk := client_legacy_session_fence_key etcd_prefix s in
    fg_won g = None /\
    match cmp with CmpVersionZero k => True | CmpValue k _ => k = fk \/ k = lk end /\
    ((exists u payload, fg_held g = Some u /\
        ops = [TxnPut (client_session_key etcd_prefix s) payload None; TxnPut fk u None;
               TxnDelete (client_legacy_session_key etcd_prefix s); TxnDelete lk]) \/
     ops = [TxnDelete (client_session_key etcd_prefix s); TxnDelete fk;
            TxnDelete (client_legacy_session_key etcd_prefix s); TxnDelete lk]).

Definition call_pre {A} (g : FenceGhost) (c : EtcdCall A) : Prop :=
  match c with
  | ETxn [cmp] ops => route_session_txn g cmp ops
  | EGet _ | EDelete _ => True
  | _ => False
  end.

Definition call_upd {A} (g : FenceGhost) (c : EtcdCall A) : result string A -> FenceGhost :=
  match c in EtcdCall A return result string A -> FenceGhost with
  | ETxn cmps _ => fun r =>
      match cmps, r with
      | [CmpValue _ f], Ok true => MkFG None (Some f)
      | _, _ => MkFG None None
      end
  | _ => fun _ => g
  end.

Definition fence_pre (A : Type) (g : FenceGhost) (e : RouteE A) : Prop :=
  match e with
  | RtUuid => g = MkFG None None
  | RtMillis => True
  | RtEtcd c => call_pre g c
  | RtReport _ expected ok => ok = true -> forall f, expected = Some f -> fg_won g = Some f
  end.

Definition fence_upd (A : Type) (g : FenceGhost) (e : RouteE A) : A -> FenceGhost :=
  match e in RouteE A return A -> FenceGhost with
  | RtUuid => fun u => MkFG (Some u) None
  | RtMillis => fun _ => g
  | RtEtcd c => fun r => call_upd g c r
  | RtReport _ _ _ => fun _ => MkFG None None
  end.

Record fence_inv (w : RouteWorld) (γ : gmap nat (string * FenceGhost)) : Prop := {
  fi_known : forall k v, fence_in P w k v -> v ∈ rw_uuids w;
  fi_unique : forall k1 k2 v, fence_in P w k1 v -> fence_in P w k2 v -> k1 = k2;
  fi_gone : forall x, x ∈ consumed (rw_reports w) -> x ∈ rw_uuids w /\ forall k, ~ fence_in P w k x;
  fi_once : NoDup (consumed (rw_reports w));
  fi_marks : forall i t g x, γ !! i = Some (t, g) -> x ∈ marks g ->
    x ∈ rw_uuids w /\ (forall k, ~ fence_in P w k x) /\ x ∉ consumed (rw_reports w);
  fi_apart : forall i j ti tj gi gj x, γ !! i = Some (ti, gi) -> γ !! j = Some (tj, gj) ->
    x ∈ marks gi -> x ∈ marks gj -> i = j;
}.

(** ** The programs *)

Abbreviation ok := (prog_ok fence_pre fence_upd).

Lemma store_get_ok what k g : ok (fun g' _ => g' = g) g (store_call what (EGet k)).
Proof. by split. Qed.

Lemma read_fence_ok k g : ok (fun g' _ => g' = g) g (client_read_fence_value k).
Proof. unfold client_read_fence_value. eapply prog_ok_try; [apply store_get_ok|by intros g' a ->|by intros g' x ->]. Qed.

Lemma read_or_legacy_ok k l g : ok (fun g' _ => g' = g) g (read_or_legacy k l).
Proof.
  unfold read_or_legacy. eapply prog_ok_try; [apply store_get_ok| |by intros g' x ->].
  intros g' a ->. case_match; [apply store_get_ok|done].
Qed.

(** The key of the current fence is one of the two keys of its session. *)
Lemma current_fence_ok s g :
  ok (fun g' r => g' = g /\ match r with
      | Ok (_, k) => k = client_session_fence_key etcd_prefix s \/ k = client_legacy_session_fence_key etcd_prefix s
      | Err _ => True end) g (current_fence etcd_prefix s).
Proof.
  unfold current_fence. eapply prog_ok_try; [apply read_fence_ok| |by intros g' x ->].
  intros g' a ->. destruct (_ && _); [|split; [done|]; by left].
  eapply prog_ok_try; [apply read_fence_ok| |by intros g' x ->]. intros g' b ->. cbn.
  split; [done|]. case_bool_decide; [by right|by left].
Qed.

Lemma get_ok s g : ok (fun _ _ => True) g (get_session_route etcd_prefix s).
Proof.
  unfold get_session_route. eapply prog_ok_try; [apply read_or_legacy_ok| |done].
  intros g' [raw|] ->; [|done]. destruct (decode_session_route raw); [|done].
  eapply prog_ok_try; [apply read_or_legacy_ok|done|done].
Qed.

(** A request that succeeded has replaced the fence it expected. *)
Definition won_expected {A} (expected : option string) (g : FenceGhost) (r : result SandboxError A) : Prop :=
  succeeded_with r = true -> forall f, expected = Some f -> fg_won g = Some f.

Lemma refused_ok {A} expected (f : option string -> SandboxError) k g :
  ok (fun g' r => won_expected (A := A) expected g' r) g
    (v ←? client_read_fence_value k; Ret (Err (f v))).
Proof. eapply prog_ok_try; [apply read_fence_ok|done|done]. Qed.

Lemma put_ok route expected : ok (won_expected expected) (MkFG None None) (put_session_route etcd_prefix route expected).
Proof.
  unfold put_session_route. split; [done|]. intros u. split; [done|]. intros now. cbn [fence_upd].
  eapply prog_ok_try; [apply current_fence_ok| |done]. intros g [current k] [-> Hk].
  case_match; [done|]. split.
  { exists (r_session_id route). split; [done|]. split; [by destruct expected|]. left. by eexists _, _. }
  intros [b|e]; [|done]. destruct b; [|apply refused_ok]. intros _ f ->. done.
Qed.

Lemma delete_ok s expected : ok (won_expected expected) (MkFG None None) (delete_session_route etcd_prefix s expected).
Proof.
  unfold delete_session_route. destruct expected as [f|].
  - eapply prog_ok_try; [apply current_fence_ok| |done]. intros g [current k] [-> Hk].
    case_match; [done|]. split.
    { exists s. split; [done|]. split; [done|]. by right. }
    intros [[]|e]; [by intros _ f' [= <-]|apply refused_ok|done].
  - eapply (prog_ok_mono _ _ (fun _ _ => True)); [by intros|].
    split; [done|]. intros [|]; [|done]. split; [done|]. intros [|]; [|done]. cbn. done.
Qed.

Lemma client_ok q : ok (fun _ _ => True) (MkFG None None) (route_client q).
Proof.
  destruct q as [s|route expected|s expected]; cbn [route_client].
  - eapply prog_ok_seq; [apply get_ok|done].
  - eapply prog_ok_seq; [apply put_ok|]. intros g r Hr. by split.
  - eapply prog_ok_seq; [apply delete_ok|]. intros g r Hr. by split.
Qed.

(** ** What a transaction does to the fences *)

Lemma route_key_apart s : starts_with P (client_session_key etcd_prefix s) = false.
Proof.
  unfold client_session_key, sessions_prefix, client_fences_prefix. rewrite !str_app_assoc.
  by rewrite starts_with_common.
Qed.
Lemma legacy_route_key_apart s : starts_with P (client_legacy_session_key etcd_prefix s) = false.
Proof.
  unfold client_legacy_session_key, sessions_prefix, client_fences_prefix. rewrite !str_app_assoc.
  by rewrite starts_with_common.
Qed.

Lemma txn_values g cmp ops :
  route_session_txn g cmp ops ->
  exists fk lk, (match cmp with CmpValue kc _ => kc = fk \/ kc = lk | _ => True end) /\
    forall m k v, starts_with P k = true -> cell_value <$> foldl apply_op m ops !! k = Some v ->
      k ≠ lk /\ ((k = fk /\ fg_held g = Some v) \/ (k ≠ fk /\ cell_value <$> m !! k = Some v)).
Proof.
  intros (s & _ & Hc & Hops). exists (client_session_fence_key etcd_prefix s), (client_legacy_session_fence_key etcd_prefix s).
  split; [by destruct cmp|]. intros m k v Hk.
  assert (k ≠ client_session_key etcd_prefix s) by (intros ->; by rewrite route_key_apart in Hk).
  assert (k ≠ client_legacy_session_key etcd_prefix s) by (intros ->; by rewrite legacy_route_key_apart in Hk).
  destruct (decide (k = client_legacy_session_fence_key etcd_prefix s)) as [->|Hl];
    [destruct Hops as [(u & payload & Hu & ->)| ->]; cbn; intros Hv; by simplify_map_eq|].
  destruct (decide (k = client_session_fence_key etcd_prefix s)) as [->|Hf];
    destruct Hops as [(u & payload & Hu & ->)| ->]; cbn; intros Hv; simplify_map_eq; auto.
Qed.

(** A call keeps the invariant when every fence it leaves was there before or is the
    one the task held, under a single key, and what the task owns afterwards it owned
    before or was a fence that is now gone. *)
Lemma fence_inv_change w γ i t g g' s' :
  fence_inv w γ -> γ !! i = Some (t, g) ->
  let w' := MkRouteWorld (rw_now w) s' (rw_uuids w) (rw_reports w) in
  (forall k v, fence_in P w' k v -> fence_in P w k v \/ fg_held g = Some v) ->
  (forall k1 k2 v, fence_in P w' k1 v -> fence_in P w' k2 v -> fg_held g = Some v -> k1 = k2) ->
  (forall x, x ∈ marks g' -> (x ∈ marks g \/ exists k, fence_in P w k x) /\ forall k, ~ fence_in P w' k x) ->
  fence_inv w' (<[i := (t, g')]> γ).
Proof.
  intros HI Hi w' Hin Hone Hg'. destruct HI as [Ik Iu Ig Io Im Ia].
  assert (forall v, fg_held g = Some v -> v ∈ marks g) as Hheld
    by (intros v Hv; unfold marks; rewrite Hv; cbn; set_solver).
  split; cbn.
  - intros k v Hk. destruct (Hin _ _ Hk) as [|Hv]; [by eapply Ik|]. by apply (Im _ _ _ _ Hi), Hheld.
  - intros k1 k2 v Hk1 Hk2. destruct (decide (fg_held g = Some v)); [by eapply Hone|].
    destruct (Hin _ _ Hk1), (Hin _ _ Hk2); try done. by eapply Iu.
  - intros x Hx. destruct (Ig x Hx) as [Hu Hn]. split; [done|]. intros k Hk.
    destruct (Hin _ _ Hk) as [|Hv]; [by eapply Hn|]. by apply (Im _ _ _ _ Hi (Hheld _ Hv)).
  - done.
  - intros j tj gj x Hj Hx. destruct (decide (i = j)) as [<-|Hne]; simplify_map_eq.
    + destruct (Hg' x Hx) as [[Hm|[k Hk]] Hn].
      * destruct (Im _ _ _ _ Hi Hm) as (? & _ & ?). done.
      * split_and!; [by eapply Ik|done|]. intros Hc. by eapply Ig.
    + destruct (Im _ _ _ _ Hj Hx) as (Hu & Hn & Hc). split_and!; [done| |done].
      intros k Hk. destruct (Hin _ _ Hk) as [|Hv]; [by eapply Hn|].
      apply Hne. by apply (Ia _ _ _ _ _ _ _ Hi Hj (Hheld _ Hv)).
  - assert (forall j tj gj x, γ !! j = Some (tj, gj) -> x ∈ marks g' -> x ∈ marks gj -> i = j) as Hmine.
    { intros j tj gj x Hj Hx Hxj. destruct (Hg' x Hx) as [[Hm|[k Hk]] _]; [by eapply Ia|].
      exfalso. destruct (Im _ _ _ _ Hj Hxj) as (_ & Hn & _). by eapply Hn. }
    intros j1 j2 t1 t2 g1 g2 x Hj1 Hj2 Hx1 Hx2.
    destruct (decide (i = j1)) as [<-|], (decide (i = j2)) as [<-|]; simplify_map_eq; eauto.
    symmetry. eauto.
Qed.

(** No fence changed. *)
Lemma fence_inv_same w γ i t g g' s' :
  fence_inv w γ -> γ !! i = Some (t, g) -> (forall x, x ∈ marks g' -> x ∈ marks g) ->
  (forall k v, starts_with P k = true -> value_of (eview s') k = Some v -> value_of (eview (rw_etcd w)) k = Some v) ->
  fence_inv (MkRouteWorld (rw_now w) s' (rw_uuids w) (rw_reports w)) (<[i := (t, g')]> γ).
Proof.
  intros HI Hi Hg Hs.
  assert (forall k v, fence_in P (MkRouteWorld (rw_now w) s' (rw_uuids w) (rw_reports w)) k v -> fence_in P w k v) as Hin.
  { intros k v [Hp Hv]. split; [done|]. by apply Hs. }
  eapply fence_inv_change; [done|done|intros k v Hk; left; by apply Hin| |].
  - intros k1 k2 v Hk1 Hk2 _. eapply (fi_unique _ _ HI); by apply Hin.
  - intros x Hx. split; [left; by apply Hg|]. intros k Hk. destruct (fi_marks _ _ HI _ _ _ _ Hi (Hg _ Hx)) as (_ & Hn & _).
    by eapply Hn, Hin.
Qed.

Context `{!EtcdLaws}.

(** A transaction that took effect. *)
Lemma fence_inv_committed w γ i t g cmp ops g' s' :
  fence_inv w γ -> γ !! i = Some (t, g) -> route_session_txn g cmp ops ->
  compare_holds (eview (rw_etcd w)) cmp = true -> kvs (eview s') = foldl apply_op (kvs (eview (rw_etcd w))) ops ->
  g' = MkFG None None \/ (exists k f, cmp = CmpValue k f /\ g' = MkFG None (Some f)) ->
  fence_inv (MkRouteWorld (rw_now w) s' (rw_uuids w) (rw_reports w)) (<[i := (t, g')]> γ).
Proof.
  intros HI Hi Htxn Hcmp Hkvs Hg'. set (w' := MkRouteWorld _ s' _ _).
  destruct (txn_values _ _ _ Htxn) as (fk & lk & Hc & Hval).
  assert (forall k v, fence_in P w' k v ->
    k ≠ lk /\ ((k = fk /\ fg_held g = Some v) \/ (k ≠ fk /\ fence_in P w k v))) as Hin.
  { intros k v [Hp Hv]. cbn in Hv. unfold value_of in Hv. rewrite Hkvs in Hv.
    destruct (Hval _ _ _ Hp Hv) as [Hl [Hf|[Hf Hm]]]; split; auto. right. done. }
  assert (forall u k, fg_held g = Some u -> ~ fence_in P w k u) as Hnew.
  { intros u k Hu. eapply (fi_marks _ _ HI _ _ _ _ Hi). unfold marks. rewrite Hu. cbn. set_solver. }
  eapply fence_inv_change; [done|done| | |].
  - intros k v Hk. destruct (Hin _ _ Hk) as [_ [[_ ?]|[_ ?]]]; auto.
  - intros k1 k2 v Hk1 Hk2 Hu.
    destruct (Hin _ _ Hk1) as [_ [[-> _]|[_ Ho]]]; [|by apply (Hnew v) in Ho].
    destruct (Hin _ _ Hk2) as [_ [[-> _]|[_ Ho]]]; [done|by apply (Hnew v) in Ho].
  - intros x Hx. destruct Hg' as [->|(kc & f & -> & ->)]; [by apply elem_of_nil in Hx|].
    cbn in Hx. apply list_elem_of_singleton in Hx as ->. cbn in Hcmp. apply bool_decide_eq_true in Hcmp.
    destruct Htxn as (s & _ & Hkc & _).
    assert (fence_in P w kc f) as Hstored.
    { split; [|done]. destruct Hkc as [-> | ->]; unfold client_session_fence_key, client_legacy_session_fence_key;
        apply starts_with_app. }
    split; [by right; exists kc|]. intros k Hk. destruct (Hin _ _ Hk) as [Hl [[-> Hu]|[Hf Ho]]].
    + by apply (Hnew f kc).
    + assert (k = kc) as -> by (by eapply (fi_unique _ _ HI)). by destruct Hc.
Qed.

Lemma fence_inv_txn w γ i t g cmp ops f r s' :
  fence_inv w γ -> γ !! i = Some (t, g) -> route_session_txn g cmp ops ->
  rpc (rw_now w) f (ETxn [cmp] ops) (rw_etcd w) = (r, s') ->
  fence_inv (MkRouteWorld (rw_now w) s' (rw_uuids w) (rw_reports w)) (<[i := (t, call_upd g (ETxn [cmp] ops) r)]> γ).
Proof.
  intros HI Hi Htxn Hr.
  assert (forall x, x ∈ marks (MkFG None None) -> x ∈ marks g) as Hnone by (by intros x Hx; apply elem_of_nil in Hx).
  assert (forall e, call_upd g (ETxn [cmp] ops) (Err e) = MkFG None None) as Herr by (by intros e; destruct cmp).
  apply rpc_view in Hr as [[-> ->]|(id & _ & Hv & Hr)]; [rewrite Herr; by eapply fence_inv_same|].
  cbn in Hv, Hr. rewrite andb_true_r in Hv, Hr.
  destruct (compare_holds (eview (rw_etcd w)) cmp) eqn:Ec; cbn in Hv, Hr.
  - assert (forallb (op_lease_live (eview (rw_etcd w))) ops = true) as Hlive.
    { destruct Htxn as (s & _ & _ & [(u & payload & _ & ->)| ->]); done. }
    rewrite Hlive in Hv, Hr. eapply fence_inv_committed; [done..|by rewrite Hv|].
    destruct Hr as [-> | ->]; [by left; rewrite Herr|]. destruct cmp; [by left|right; by eexists _, _].
  - destruct Hr as [-> | ->]; [rewrite Herr|destruct cmp]; (eapply fence_inv_same; [done..|by rewrite Hv]).
Qed.

Lemma fence_inv_call {A} w γ i t g (c : EtcdCall A) f r s' :
  fence_inv w γ -> γ !! i = Some (t, g) -> call_pre g c ->
  rpc (rw_now w) f c (rw_etcd w) = (r, s') ->
  fence_inv (MkRouteWorld (rw_now w) s' (rw_uuids w) (rw_reports w)) (<[i := (t, call_upd g c r)]> γ).
Proof.
  intros HI Hi Hpre. destruct c as [k|k|k v l|k|cmps ops|ttl]; cbn in Hpre; try done.
  - intros Hr. eapply fence_inv_same; [done..|].
    apply rpc_view in Hr as [[_ ->]|(id & _ & -> & _)]; done.
  - intros Hr. eapply fence_inv_same; [done..|]. intros k' v Hk Hv.
    apply rpc_view in Hr as [[_ ->]|(id & _ & Hs & _)]; [done|]. rewrite Hs in Hv. unfold value_of in *. cbn in Hv.
    destruct (decide (k = k')) as [->|]; by simplify_map_eq.
  - destruct cmps as [|cmp [|]]; try done. by apply fence_inv_txn.
Qed.

Lemma consumed_snoc l s e b : consumed (l ++ [(s, e, b)]) = consumed l ++ option_list (if b then e else None).
Proof. unfold consumed. rewrite omap_app. cbn. by destruct b, e. Qed.

Lemma fence_inv_uuid w γ i t u :
  fence_inv w γ -> u ∉ rw_uuids w ->
  fence_inv (MkRouteWorld (rw_now w) (rw_etcd w) ({[u]} ∪ rw_uuids w) (rw_reports w)) (<[i := (t, MkFG (Some u) None)]> γ).
Proof.
  intros HI Hu. destruct HI as [Ik Iu Ig Io Im Ia].
  assert (forall k v, fence_in P w k v -> v ∈ {[u]} ∪ rw_uuids w) by (intros; apply elem_of_union_r; eauto).
  split; cbn; try done.
  - intros x Hx. destruct (Ig x Hx). split; [set_solver|done].
  - intros j tj gj x Hj Hx. destruct (decide (i = j)) as [<-|]; simplify_map_eq.
    -- apply list_elem_of_singleton in Hx as ->. split; [set_solver|]. split; [intros k Hk; by apply Hu, (Ik k)|].
       intros Hc. by apply Hu, Ig.
    -- destruct (Im _ _ _ _ Hj Hx) as (? & ? & ?). split; [set_solver|done].
  - intros j1 j2 t1 t2 g1 g2 x Hj1 Hj2 Hx1 Hx2.
    destruct (decide (i = j1)) as [<-|], (decide (i = j2)) as [<-|]; simplify_map_eq; eauto.
    -- apply list_elem_of_singleton in Hx1 as ->. by destruct (Im _ _ _ _ Hj2 Hx2) as [? _].
    -- apply list_elem_of_singleton in Hx2 as ->. by destruct (Im _ _ _ _ Hj1 Hx1) as [? _].
Qed.

Lemma fence_inv_report w γ i t g session expected b :
  fence_inv w γ -> γ !! i = Some (t, g) ->
  (b = true -> forall f, expected = Some f -> fg_won g = Some f) ->
  fence_inv (MkRouteWorld (rw_now w) (rw_etcd w) (rw_uuids w) (rw_reports w ++ [(session, expected, b)]))
    (<[i := (t, MkFG None None)]> γ).
Proof.
  intros HI Hi Hpre. destruct HI as [Ik Iu Ig Io Im Ia].
  assert (forall x, x ∈ option_list (if b then expected else None) -> x ∈ marks g) as Hwon.
  { intros x. destruct b, expected as [f|]; cbn; rewrite ?list_elem_of_singleton, ?elem_of_nil; try done.
    intros ->. unfold marks. rewrite (Hpre eq_refl f eq_refl). cbn. set_solver. }
  split; cbn; rewrite ?consumed_snoc; try done.
  - intros x [Hx|Hx]%elem_of_app; [by apply Ig|]. by destruct (Im _ _ _ _ Hi (Hwon _ Hx)) as (? & ? & _).
  - apply NoDup_app. split_and!; [done| |by destruct b, expected; cbn; repeat constructor; try apply not_elem_of_nil].
    intros x Hx Hx'. by destruct (Im _ _ _ _ Hi (Hwon _ Hx')) as (_ & _ & ?).
  - intros j tj gj x Hj Hx. destruct (decide (i = j)) as [<-|Hne]; simplify_map_eq; [by apply elem_of_nil in Hx|].
    destruct (Im _ _ _ _ Hj Hx) as (Hu & Hn & Hc). split_and!; [done..|]. rewrite elem_of_app. intros [|Hx']; [done|].
    apply Hne. by eapply (Ia i j _ _ _ _ x); eauto.
  - intros j1 j2 t1 t2 g1 g2 x Hj1 Hj2 Hx1 Hx2.
    destruct (decide (i = j1)) as [<-|]; simplify_map_eq; [by apply elem_of_nil in Hx1|].
    destruct (decide (i = j2)) as [<-|]; simplify_map_eq; [by apply elem_of_nil in Hx2|]. by eapply Ia.
Qed.

(** A fence consumed once was reported once. *)
Lemma consumed_NoDup l : NoDup (consumed l) -> forall i j si sj f,
  l !! i = Some (si, Some f, true) -> l !! j = Some (sj, Some f, true) -> i = j.
Proof.
  induction l as [|[[s e] b] l IH]; intros Hd i j si sj f; [done|].
  assert (forall k sk, l !! k = Some (sk, Some f, true) -> f ∈ consumed l) as Hin.
  { intros k sk Hk. apply list_elem_of_omap. exists (sk, Some f, true). split; [by eapply list_elem_of_lookup_2|done]. }
  assert (NoDup (consumed l)) as Hdl by (destruct b, e; cbn in Hd; try done; by apply NoDup_cons in Hd as [_ ?]).
  destruct i as [|i], j as [|j]; cbn; intros Hi Hj; simplify_eq; try done.
  - exfalso. apply NoDup_cons in Hd as [Hn _]. by eapply Hn, Hin.
  - exfalso. apply NoDup_cons in Hd as [Hn _]. by eapply Hn, Hin.
  - f_equal. by eapply IH.
Qed.

Lemma fence_rules :
  InvariantRules route_handle route_starts (route_env P) (fun _ w => w) fence_pre fence_upd (fun _ _ => True)
    fence_inv (route_init P).
Proof.
  split.
  - intros w (Hr & Hk & Hu). split; rewrite ?Hr; cbn; try done; [|by constructor].
    intros x Hx. by apply elem_of_nil in Hx.
  - intros w γ i t g A e c a w' HI Hi Hpre He. destruct e as [| |A ec|session expected b]; cbn in He, Hpre.
    + destruct c as [| |u]; try done. case_bool_decide as Hu; simplify_eq. by apply fence_inv_uuid.
    + destruct c; simplify_eq. by rewrite insert_id.
    + destruct c as [|f|]; try done. destruct (rpc (rw_now w) f ec (rw_etcd w)) as [r s'] eqn:Er. simplify_eq.
      by eapply fence_inv_call.
    + destruct c; simplify_eq. by eapply fence_inv_report.
  - intros w γ i t p HI Hi [q ->]. exists (MkFG None None). split; [apply client_ok|].
    destruct HI as [Ik Iu Ig Io Im Ia]. split; try done.
    + intros j tj gj x Hj Hx. destruct (decide (i = j)) as [<-|]; simplify_map_eq; [by apply elem_of_nil in Hx|eauto].
    + intros j1 j2 t1 t2 g1 g2 x Hj1 Hj2 Hx1 Hx2.
      destruct (decide (i = j1)) as [<-|]; simplify_map_eq; [by apply elem_of_nil in Hx1|].
      destruct (decide (i = j2)) as [<-|]; simplify_map_eq; [by apply elem_of_nil in Hx2|]. by eapply Ia.
  - intros w γ w' HI Henv. destruct Henv as [w d Hd|w s Hs]; [by destruct HI|].
    assert (forall k v, fence_in P (MkRouteWorld (rw_now w) s (rw_uuids w) (rw_reports w)) k v <-> fence_in P w k v) as Hin.
    { intros k v. unfold fence_in. cbn. split; intros [Hp Hv]; (split; [done|]); [by rewrite <- Hs|by rewrite Hs]. }
    destruct HI as [Ik Iu Ig Io Im Ia]. split; cbn; try setoid_rewrite Hin; done.
  - intros w γ t HI. destruct HI as [Ik Iu Ig Io Im Ia]. split; try done.
    + intros i t' g x Hi. apply map_lookup_filter_Some in Hi as [Hi _]. by eapply Im.
    + intros i j ti tj gi gj x Hi Hj. apply map_lookup_filter_Some in Hi as [Hi _], Hj as [Hj _]. by eapply Ia.
Qed.

(** C5: over any interleaving of clients that read, change and delete session routes,
    with requests and replies lost at any point and clients stopping half way, no two
    requests are told that they succeeded against the same ownership fence: a fence is
    handed over at most once. *)
Theorem fence_handed_over_once s i j si sj f :
  route_reachable s ->
  rw_reports (world s) !! i = Some (si, Some f, true) ->
  rw_reports (world s) !! j = Some (sj, Some f, true) -> i = j.
Proof.
  intros Hr Hi Hj. destruct (system_invariant _ _ _ _ _ _ _ _ _ _ fence_rules Hr) as (γ & HI & _).
  by eapply (consumed_NoDup _ (fi_once _ _ HI)).
Qed.
End World.
