(* ===== verification/RouteStore.v ===== *)
(** * Reading back a route

    What [put_session_route] stored is what [get_session_route] returns. The file also
    has a concrete store of routes, in which two clients race for a session. *)

From S2P Require Import Prelude ContentHash Effects Etcd ControlBus SessionRoutes RouteFences.
From Stdlib Require Import ZArith Lia Ascii.

Lemma wp_prog_any {E W C R} (handle : forall A, E A -> W -> C -> option (A * W)) (p : prog E R) w :
  wp_prog handle p (fun _ _ => True) w.
Proof. revert w; induction p as [r|A e k IH]; intros w; cbn; [done|]. intros. apply IH. Qed.

Section Store.
Context `{EtcdLaws, RouteJsonLaws, StdHash} (etcd_prefix : string).

Abbreviation wp := (wp_prog route_handle).

Lemma wp_store_call {A} what (c : EtcdCall A) (Q : result SandboxError A -> RouteWorld -> Prop) w :
  (forall r s e, (r = Err e \/ exists a, r = Ok a /\ exists id, (Ok a, eview s) = kv_call (rw_now w) id c (eview (rw_etcd w))) ->
     Q r (MkRouteWorld (rw_now w) s (rw_uuids w) (rw_reports w))) ->
  wp (store_call what c) Q w.
Proof.
  intros HQ ch r w' Hh. cbn in Hh. destruct ch as [|f|]; try done.
  destruct (rpc (rw_now w) f c (rw_etcd w)) as [r0 s] eqn:Er. simplify_eq. cbn.
  destruct r as [a|e]; [|eapply HQ; by left].
  eapply (HQ _ _ (DaemonUnavailable "")). right. exists a. split; [done|].
  apply rpc_view in Er as [[? _]|(id & _ & Hv & [?|Hr])]; try done.
  exists id. rewrite Hr, Hv. by destruct (kv_call _ _ _ _).
Qed.

(** The keys of a session are four different keys. *)
Lemma sharded_key_apart p s : p +:+ pad2 (client_shard_for_key s DEFAULT_SHARD_COUNT) +:+ "/" +:+ s ≠ p +:+ s.
Proof. intros E%(f_equal String.length). rewrite !str_length_app in E. cbn in E. lia. Qed.

Lemma prefix_key_apart s t : sessions_prefix etcd_prefix +:+ s ≠ client_fences_prefix etcd_prefix +:+ t.
Proof.
  intros E. assert (starts_with (client_fences_prefix etcd_prefix) (sessions_prefix etcd_prefix +:+ s) = true) as Hs
    by (rewrite E; apply starts_with_app).
  unfold sessions_prefix, client_fences_prefix in Hs. rewrite str_app_assoc, starts_with_common in Hs. done.
Qed.

#[local] Ltac apart := first [congruence | apply prefix_key_apart | apply not_eq_sym; apply prefix_key_apart].

(** The route as a reader sees it. *)
Definition seen_route (route : SessionRoute) (fence : string) : SessionRoute :=
  MkRoute (r_session_id route) (r_vm_id route) (r_endpoint route) (r_node_id route) (r_fork_id route) (Some fence)
    (normalize_scope_value (r_tenant_id route)) (normalize_scope_value (r_workspace_id route))
    (r_tier_b_eligible route) (normalize_shared_mount_profiles (r_required_mount_profiles route)).

Definition route_stored (route : SessionRoute) (w : RouteWorld) : Prop :=
  exists now fence, r_ownership_fence route = Some fence /\
    value_of (eview (rw_etcd w)) (client_session_key etcd_prefix (r_session_id route)) =
      Some (encode_route_record (MkRecord route now)) /\
    value_of (eview (rw_etcd w)) (client_session_fence_key etcd_prefix (r_session_id route)) = Some fence.

Lemma put_stores route expected w :
  wp (put_session_route etcd_prefix route expected)
    (fun r w' => forall updated, r = Ok updated ->
       r_session_id updated = r_session_id route /\ route_stored updated w') w.
Proof.
  unfold put_session_route. intros ch u w1 _. intros ch2 now w2 _.
  apply wp_try_bind. eapply wp_prog_mono; [|apply wp_prog_any]. intros [[current k]|e] w3 _; [|done].
  destruct (negb _); [done|]. apply wp_try_bind, wp_store_call.
  intros r s e [-> |(b & -> & id & Hcall)]; [done|]. destruct b; cbn [negb].
  2: { apply wp_try_bind. eapply wp_prog_mono; [|apply wp_prog_any]. by intros [] w4 _. }
  intros updated [= <-]. split; [done|]. exists now, u. split; [done|]. cbn [rw_etcd r_session_id].
  cbn in Hcall. rewrite andb_true_r in Hcall.
  destruct (compare_holds _ _); cbn in Hcall; [|discriminate]. injection Hcall as ->. unfold value_of. cbn [kvs set_kvs].
  pose proof (sharded_key_apart (sessions_prefix etcd_prefix) (r_session_id route)).
  pose proof (sharded_key_apart (client_fences_prefix etcd_prefix) (r_session_id route)).
  unfold client_session_key, client_legacy_session_key, client_session_fence_key, client_legacy_session_fence_key.
  cbn [foldl apply_op].
  split; repeat first [rewrite lookup_delete_ne by apart | rewrite lookup_insert_ne by apart | rewrite lookup_insert_eq]; done.
Qed.

Lemma read_stored k l v w :
  value_of (eview (rw_etcd w)) k = Some v ->
  wp (read_or_legacy k l) (fun r w' => forall x, r = Ok x -> x = Some v /\ eview (rw_etcd w') = eview (rw_etcd w)) w.
Proof.
  intros Hv. unfold read_or_legacy. apply wp_try_bind, wp_store_call.
  intros r s e [-> |(a & -> & id & Hcall)]; [done|]. cbn in Hcall. rewrite Hv in Hcall. injection Hcall as -> Hs.
  cbn. by intros x [= <-].
Qed.

Lemma get_returns route w fence :
  route_stored route w -> r_ownership_fence route = Some fence ->
  from_utf8 fence = true -> is_empty_str (trim fence) = false ->
  wp (get_session_route etcd_prefix (r_session_id route))
    (fun r _ => forall found, r = Ok found -> found = Some (seen_route route fence)) w.
Proof.
  intros (now & f & Hf & Hroute & Hfence) Hf' Hutf Hblank. rewrite Hf in Hf'. injection Hf' as ->.
  unfold get_session_route. apply wp_try_bind. eapply wp_prog_mono; [|by apply read_stored].
  intros [x|e] w1 Hx; [|done]. destruct (Hx x eq_refl) as [-> Hw1].
  unfold decode_session_route. rewrite decode_encode_route.
  apply wp_try_bind. eapply wp_prog_mono; [|apply read_stored; by rewrite Hw1].
  intros [y|e] w2 Hy; [|done]. destruct (Hy y eq_refl) as [-> _]. rewrite Hutf, Hblank. cbn.
  by intros found [= <-].
Qed.

(** C26: a route that was stored is read back: once a change of a route has
    succeeded, a read that succeeds before the next change returns that route with the
    fence the change created, its scopes and mount profiles in normal form. *)
Theorem put_then_get route expected w cs updated w1 cs' found w2 fence :
  prog_run route_handle (put_session_route etcd_prefix route expected) w cs = Some (Ok updated, w1) ->
  prog_run route_handle (get_session_route etcd_prefix (r_session_id route)) w1 cs' = Some (Ok found, w2) ->
  r_ownership_fence updated = Some fence -> from_utf8 fence = true -> is_empty_str (trim fence) = false ->
  found = Some (seen_route updated fence).
Proof.
  intros Hput Hget Hf Hutf Hblank.
  destruct (wp_prog_run _ _ _ _ _ _ _ (put_stores route expected w) Hput updated eq_refl) as [Hid Hst].
  rewrite <- Hid in Hget.
  by apply (wp_prog_run _ _ _ _ _ _ _ (get_returns _ _ _ Hst Hf Hutf Hblank) Hget found).
Qed.
End Store.

(** ** A concrete store *)

Global Instance SessionRoute_eq_dec : EqDecision SessionRoute.
Proof. solve_decision. Defined.
Global Instance SessionRoute_countable : Countable SessionRoute :=
  inj_countable'
    (fun r => (r_session_id r, r_vm_id r, r_endpoint r, r_node_id r, r_fork_id r, r_ownership_fence r,
               r_tenant_id r, r_workspace_id r, r_tier_b_eligible r, r_required_mount_profiles r))
    (fun '(a, b, c, d, e, f, g, h, i, j) => MkRoute a b c d e f g h i j)
    ltac:(by intros []).

Fixpoint bits (p : positive) : string :=
  match p with xH => EmptyString | xO p => String "0"%char (bits p) | xI p => String "1"%char (bits p) end.
Fixpoint unbits (s : string) : positive :=
  match s with
  | EmptyString => xH
  | String a s => if Ascii.eqb a "0"%char then xO (unbits s) else xI (unbits s)
  end.
Lemma unbits_bits p : unbits (bits p) = p.
Proof. induction p as [p IH|p IH|]; cbn; by rewrite ?IH. Qed.

Definition bits_json : RouteJson := {|
  encode_route_record := fun r => bits (encode (rec_route r, rec_updated_at_unix_ms r));
  decode_route_record := fun s =>
    match decode (unbits s) with
    | Some (route, now) => Ok (MkRecord route now)
    | None => Err "not a record"%string
    end;
|}.

Section RouteExample.
#[local] Existing Instance map_etcd.
#[local] Existing Instance bits_json.
#[local] Instance seven_hash : StdHash := {| default_hash := fun _ => 7%Z |}.

#[local] Instance bits_json_laws : RouteJsonLaws.
Proof. split. intros [route now]. cbn. by rewrite unbits_bits, decode_encode. Qed.

Definition demo_route : SessionRoute := MkRoute "s" "vm" "http://a" None None None " t " "" true ["NFS"].
Definition demo_world : RouteWorld :=
  MkRouteWorld 5 (MkKV {["/c/session_fences/07/s"%string := MkCell "f0" None]} ∅ ∅ 1) {["f0"%string]} [].

(** A change against the fence [f0]: the identifier, the time, the fence, the
    transaction. *)
Definition put_run : option (result SandboxError SessionRoute * RouteWorld) :=
  prog_run route_handle (put_session_route "/c" demo_route (Some "f0"%string)) demo_world
    [RcUuid "f1"; RcStep; RcFault Delivered; RcFault Delivered].
Definition put_route : SessionRoute :=
  MkRoute "s" "vm" "http://a" None None (Some "f1"%string) " t " "" true ["local-path"; "nfs"].
Definition put_world : RouteWorld := match put_run with Some (_, w) => w | None => demo_world end.

Definition get_run : option (result SandboxError (option SessionRoute) * RouteWorld) :=
  prog_run route_handle (get_session_route "/c" "s") put_world [RcFault Delivered; RcFault Delivered].
Definition get_world : RouteWorld := match get_run with Some (_, w) => w | None => demo_world end.

Lemma run_parts {A B} (o : option (A * B)) (d : B) a :
  fst <$> o = Some a -> o = Some (a, match o with Some (_, w) => w | None => d end).
Proof. destruct o as [[x y]|]; cbn; congruence. Qed.

Lemma put_run_ends : put_run = Some (Ok put_route, put_world).
Proof. apply run_parts. vm_compute. reflexivity. Qed.
Lemma get_run_ends : get_run = Some (Ok (Some (seen_route put_route "f1")), get_world).
Proof. apply run_parts. vm_compute. reflexivity. Qed.

Lemma put_then_get_witness : Some (seen_route put_route "f1") = Some (seen_route put_route "f1").
Proof.
  eapply (put_then_get "/c" demo_route (Some "f0"%string) demo_world _ put_route put_world _ _ get_world "f1").
  - exact put_run_ends.
  - exact get_run_ends.
  - reflexivity.
  - reflexivity.
  - vm_compute. reflexivity.
Defined.

(** Two clients race: both read the fence [f0], one of them replaces it. *)
Definition racer (i : nat) (endpoint : string) (s : System (E := RouteE) (W := RouteWorld) (T := string) (R := unit)) :
    System (E := RouteE) (W := RouteWorld) (T := string) (R := unit) :=
  MkSystem (world s)
    (<[i := ("c"%string, route_client "/c" (RqPut (MkRoute "s" "vm" endpoint None None None "" "" true []) (Some "f0"%string)))]>
      (tasks s)).
Definition race_start : System (E := RouteE) (W := RouteWorld) (T := string) (R := unit) :=
  racer 1 "http://b" (racer 0 "http://a" (MkSystem demo_world ∅)).
Definition raced : System (E := RouteE) (W := RouteWorld) (T := string) (R := unit) :=
  default race_start (run_schedule route_handle race_start
    [(0, RcUuid "f1"); (1, RcUuid "f2"); (0, RcStep); (1, RcStep); (0, RcFault Delivered); (1, RcFault Delivered);
     (0, RcFault Delivered); (1, RcFault Delivered); (1, RcFault Delivered); (0, RcStep); (1, RcStep)]).

Lemma race_start_reachable : route_reachable "/c" race_start.
Proof.
  unfold race_start, racer, route_reachable.
  eapply reach_step; [|apply step_start; [reflexivity|by eexists]].
  eapply reach_step; [|apply (step_start _ _ _ _ (MkSystem demo_world ∅)); [reflexivity|by eexists]].
  apply reach_init. split; [done|].
  assert (forall k v, fence_in (client_fences_prefix "/c") demo_world k v -> k = "/c/session_fences/07/s"%string /\ v = "f0"%string) as H.
  { intros k v [_ Hv]. cbn in Hv. unfold value_of in Hv. cbn in Hv.
    destruct (decide (k = "/c/session_fences/07/s"%string)) as [->|]; simplify_map_eq; done. }
  split; [intros k v Hk; destruct (H _ _ Hk) as [_ ->]; cbn; set_solver|].
  intros k1 k2 v H1 H2. destruct (H _ _ H1) as [-> _], (H _ _ H2) as [-> _]. done.
Qed.

Lemma fence_handed_over_once_witness :
  rw_reports (world raced) = [("s"%string, Some "f0"%string, true); ("s"%string, Some "f0"%string, false)] /\ 0 = 0.
Proof.
  assert (rw_reports (world raced) = [("s"%string, Some "f0"%string, true); ("s"%string, Some "f0"%string, false)]) as Hr
    by (vm_compute; reflexivity).
  split; [exact Hr|].
  apply (fence_handed_over_once "/c" raced 0 0 "s" "s" "f0"); [|by rewrite Hr|by rewrite Hr].
  unfold raced. destruct (run_schedule _ _ _) eqn:E; [|apply race_start_reachable].
  eapply run_schedule_reachable; [apply race_start_reachable|exact E].
Defined.
End RouteExample.
