(* ===== verification/Outbox.v ===== *)
(** * The command outbox

    [publish_command] and [replay_outbox_once] of [crates/sandbox/src/distributed.rs]:
    a command is written to etcd before it is published and removed after the broker
    acknowledged it; a worker publishes what is left over. A publication may be lost
    before or after it reached the broker, like a call of the store. *)

From S2P Require Import Prelude ContentHash Effects Etcd PartitionGate ControlBus BusSystem BusExclusion BusLocal SessionRoutes.
From Stdlib Require Import ZArith Lia.

(** ** Data *)

Record OutboxRecord := MkOutbox {
  ob_kind : string;
  ob_command_id : string;
  ob_subject : string;
  ob_payload : string;                (** the text of the envelope *)
  ob_created_at_unix_ms : Z;
  ob_updated_at_unix_ms : Z;
  ob_attempts : Z;
}.

(** The envelope of a command; values copied from its payload stay values. *)
Record BuiltEnvelope (V : Type) := MkBuilt {
  be_schema_version : string;
  be_command_id : string;
  be_command_type : string;
  be_tenant_id : string;
  be_workspace_id : string;
  be_session_id : option string;
  be_vm_id : option string;
  be_target_node_id : option string;
  be_ordering_key : string;
  be_issued_at_unix_ms : Z;
  be_timeout_ms : Z;
  be_idempotency_key : string;
  be_trace_id : string;
  be_causation_id : option string;
  be_expected_fence : option V;
  be_expected_versions : option V;
  be_payload : V;
}.
Arguments MkBuilt {V}.

Class OutboxJson `{ControlJson} := {
  get_u64 : string -> jvalue -> option Z;          (** [v.get(field).and_then(Value::as_u64)] *)
  get_value : string -> jvalue -> option jvalue;   (** [v.get(field)] *)
  value_text : jvalue -> string;                   (** [serde_json::to_string] *)
  envelope_text : BuiltEnvelope jvalue -> string;
  encode_outbox : OutboxRecord -> string;
  decode_outbox : string -> result string OutboxRecord;
}.
Definition CONTROL_ENVELOPE_SCHEMA_VERSION : string := "v1".

(** [{:0n$x}] of a number of at most [n] digits. *)
Fixpoint hex_digits (n : nat) (x : N) : string :=
  match n with
  | O => EmptyString
  | S n => hex_digits n (x / 16)%N +:+ String (hex_digit (x mod 16)%N) EmptyString
  end.

Section Envelope.
Context `{OutboxJson, StdHash}.

(** [{:016x}] *)
Definition derive_idempotency_key (command_type ordering_key : string) (payload : jvalue) : string :=
  "idem-" +:+ hex_digits 16 (Z.to_N (default_hash [command_type; ordering_key; value_text payload])).

Definition build_command_envelope (now : Z) (command_id command_type ordering_key idempotency_key : string)
    (payload : jvalue) : BuiltEnvelope jvalue :=
  MkBuilt CONTROL_ENVELOPE_SCHEMA_VERSION command_id command_type
    (default "default"%string (get_str "tenant_id" payload))
    (default "default"%string (get_str "workspace_id" payload))
    (get_str "session_id" payload) (get_str "vm_id" payload) (get_str "target_node_id" payload)
    ordering_key now (default 30000%Z (get_u64 "timeout_ms" payload)) idempotency_key
    (default command_id (get_str "trace_id" payload)) (get_str "causation_id" payload)
    (get_value "expected_fence" payload) (get_value "expected_versions" payload) payload.
End Envelope.

(** ** Operations *)

Inductive OutboxE : Type -> Type :=
| ObUuid : OutboxE string
| ObMillis : OutboxE Z
| ObEtcd {A : Type} (c : EtcdCall A) : OutboxE (result string A)
| ObPublish (subject message_id payload : string) : OutboxE (result string unit).

Abbreviation OutboxP := (prog OutboxE).

Definition outbox_call {A} (what : string) (c : EtcdCall A) : OutboxP (result SandboxError A) :=
  r ← perform (ObEtcd c);
  Ret (match r with Ok a => Ok a | Err e => Err (DaemonUnavailable (what +:+ " failed: " +:+ e)) end).

Definition outbox_pending_prefix (etcd_prefix : string) : string := etcd_prefix +:+ "/outbox/pending/".

Section Outbox.
Context `{OutboxJson, StdHash} (etcd_prefix nats_subject_prefix : string).

Definition outbox_pending_key (command_id : string) : string := outbox_pending_prefix etcd_prefix +:+ command_id.

Definition put_outbox_record (record : OutboxRecord) : OutboxP (result SandboxError unit) :=
  outbox_call "etcd put outbox record" (EPut (outbox_pending_key (ob_command_id record)) (encode_outbox record) None).

Definition delete_outbox_record (command_id : string) : OutboxP (result SandboxError unit) :=
  outbox_call "etcd delete outbox record" (EDelete (outbox_pending_key command_id)).

Definition publish_outbox_record (record : OutboxRecord) : OutboxP (result SandboxError unit) :=
  r ← perform (ObPublish (ob_subject record) (ob_command_id record) (ob_payload record));
  Ret (match r with
       | Ok _ => Ok tt
       | Err e => Err (DaemonUnavailable ("jetstream publish outbox record failed (command_id="
                                          +:+ ob_command_id record +:+ "): " +:+ e))
       end).

Definition publish_command (command_type ordering_key : string) (payload : jvalue) :
    OutboxP (result SandboxError string) :=
  command_id ← perform ObUuid;
  let idempotency_key := default (derive_idempotency_key command_type ordering_key payload)
                                 (get_str "idempotency_key" payload) in
  issued ← perform ObMillis;
  let envelope := build_command_envelope issued command_id command_type ordering_key idempotency_key payload in
  created ← perform ObMillis;
  updated ← perform ObMillis;
  let outbox := MkOutbox "command" command_id (nats_subject_prefix +:+ ".cmd." +:+ command_type)
                  (envelope_text envelope) created updated 0 in
  _ ←? put_outbox_record outbox;
  _ ←? publish_outbox_record outbox;
  _ ←? delete_outbox_record command_id;
  Ret (Ok command_id).

Definition replay_record (record : OutboxRecord) : OutboxP unit :=
  published ← publish_outbox_record record;
  match published with
  | Ok _ => _ ← delete_outbox_record (ob_command_id record); Ret tt
  | Err _ =>
      now ← perform ObMillis;
      _ ← put_outbox_record (MkOutbox (ob_kind record) (ob_command_id record) (ob_subject record) (ob_payload record)
                               (ob_created_at_unix_ms record) now (ob_attempts record + 1));
      Ret tt
  end.

(** Values that do not decode stay where they are. *)
Definition outbox_records (kvs : list (string * string)) : list OutboxRecord :=
  omap (fun kv => match decode_outbox kv.2 with Ok r => Some r | Err _ => None end) kvs.

Definition replay_outbox_once : OutboxP (result SandboxError unit) :=
  listed ←? outbox_call "etcd list outbox records" (EGetPrefix (outbox_pending_prefix etcd_prefix));
  _ ← for_each (outbox_records listed.1) replay_record;
  Ret (Ok tt).

(** ** The world *)

Context `{EtcdServer}.

Record OutboxWorld := MkOutboxWorld {
  ow_now : Z;
  ow_etcd : estate;
  ow_uuids : gset string;
  ow_published : list (string * string * string);   (** what the broker has: subject, message id, payload *)
  ow_written : gset string;                         (** every key a record was ever stored under *)
}.

Inductive OutboxChoice := OcStep | OcFault (f : Fault) | OcUuid (u : string).

Definition written_by {A} (c : EtcdCall A) : gset string :=
  match c with EPut k _ _ => {[k]} | _ => ∅ end.

Definition reached (f : Fault) : bool := match f with LostRequest => false | _ => true end.

Definition outbox_handle (A : Type) (e : OutboxE A) (w : OutboxWorld) (c : OutboxChoice) : option (A * OutboxWorld) :=
  match e in OutboxE A return option (A * OutboxWorld) with
  | ObUuid =>
      match c with
      | OcUuid u =>
          if bool_decide (u ∉ ow_uuids w)
          then Some (u, MkOutboxWorld (ow_now w) (ow_etcd w) ({[u]} ∪ ow_uuids w) (ow_published w) (ow_written w)) else None
      | _ => None
      end
  | ObMillis => match c with OcStep => Some (ow_now w, w) | _ => None end
  | ObEtcd ec =>
      match c with
      | OcFault f =>
          let '(r, s) := rpc (ow_now w) f ec (ow_etcd w) in
          Some (r, MkOutboxWorld (ow_now w) s (ow_uuids w) (ow_published w)
                     ((if reached f then written_by ec else ∅) ∪ ow_written w))
      | _ => None
      end
  | ObPublish subject id payload =>
      match c with
      | OcFault f =>
          Some (match f with Delivered => Ok tt | _ => Err unavailable end,
                MkOutboxWorld (ow_now w) (ow_etcd w) (ow_uuids w)
                  (if reached f then ow_published w ++ [(subject, id, payload)] else ow_published w) (ow_written w))
      | _ => None
      end
  end.

Definition published_id (w : OutboxWorld) (id : string) : Prop := id ∈ (fun x => x.1.2) <$> ow_published w.

(** Other clients of the store leave the outbox alone. *)
Inductive outbox_env : OutboxWorld -> OutboxWorld -> Prop :=
| outbox_tick w d : (0 < d)%Z ->
    outbox_env w (MkOutboxWorld (ow_now w + d) (ow_etcd w) (ow_uuids w) (ow_published w) (ow_written w))
| outbox_other w s :
    (forall k, starts_with (outbox_pending_prefix etcd_prefix) k = true ->
       kvs (eview s) !! k = kvs (eview (ow_etcd w)) !! k) ->
    outbox_env w (MkOutboxWorld (ow_now w) s (ow_uuids w) (ow_published w) (ow_written w)).

Inductive outbox_starts : string -> OutboxP (result SandboxError string) -> OutboxWorld -> Prop :=
| starts_publish t type key payload w : outbox_starts t (publish_command type key payload) w
| starts_replay t w : outbox_starts t (_ ←? replay_outbox_once; Ret (Ok EmptyString)) w.

Definition outbox_reachable : System -> Prop :=
  system_reachable outbox_handle outbox_starts outbox_env (fun _ w => w)
    (fun w => ow_written w = ∅ /\ ow_published w = []).

(** ** Nothing is lost *)

(** A task that deletes a record knows that its command was published. *)
Definition outbox_pre (A : Type) (g : option string) (e : OutboxE A) : Prop :=
  match e with
  | ObEtcd c =>
      match c with
      | EDelete k => exists id, g = Some id /\ k = outbox_pending_key id
      | EPut k _ l => l = None
      | EGetPrefix _ => True
      | _ => False
      end
  | _ => True
  end.

Definition outbox_upd (A : Type) (g : option string) (e : OutboxE A) : A -> option string :=
  match e in OutboxE A return A -> option string with
  | ObPublish _ id _ => fun r => match r with Ok _ => Some id | Err _ => g end
  | _ => fun _ => g
  end.

Abbreviation ok := (prog_ok outbox_pre outbox_upd).

Lemma publish_command_ok type key payload g : ok (fun _ _ => True) g (publish_command type key payload).
Proof.
  unfold publish_command. split; [done|]. intros id. do 3 (split; [done|]; intros ?).
  split; [done|]. intros [|]; [|done]. split; [done|]. intros [|]; [|done]. split; [by eexists|].
  by intros [|].
Qed.

Lemma replay_record_ok record g : ok (fun _ _ => True) g (replay_record record).
Proof.
  split; [done|]. intros [|]; cbn [outbox_upd].
  - split; [by eexists|done].
  - split; [done|]. intros now. by split.
Qed.

Lemma for_each_ok {A} (xs : list A) (body : A -> OutboxP unit) g :
  (forall x g, ok (fun _ _ => True) g (body x)) -> ok (fun _ _ => True) g (for_each xs body).
Proof.
  intros Hb. revert g. induction xs as [|x xs IH]; intros g; [done|].
  eapply prog_ok_seq; [apply Hb|]. intros g' a _. apply IH.
Qed.

Lemma replay_ok g : ok (fun _ _ => True) g (_ ←? replay_outbox_once; Ret (Ok EmptyString) : OutboxP (result SandboxError string)).
Proof.
  eapply (prog_ok_try _ _ (fun _ _ => True)); [|done|done].
  eapply (prog_ok_try _ _ (fun _ _ => True)); [by split|intros g' listed _|done].
  eapply prog_ok_seq; [apply for_each_ok, replay_record_ok|done].
Qed.

Definition kept (w : OutboxWorld) (k : string) : Prop :=
  is_Some (kvs (eview (ow_etcd w)) !! k) \/ exists id, k = outbox_pending_key id /\ published_id w id.

Definition outbox_inv (w : OutboxWorld) (γ : gmap nat (string * option string)) : Prop :=
  (forall i t id, γ !! i = Some (t, Some id) -> published_id w id) /\
  (forall k, k ∈ ow_written w -> starts_with (outbox_pending_prefix etcd_prefix) k = true -> kept w k).

Context `{!EtcdLaws}.

Lemma outbox_call_kept {A} w g (c : EtcdCall A) f r s k :
  outbox_pre _ g (ObEtcd c) -> (forall id, g = Some id -> published_id w id) ->
  rpc (ow_now w) f c (ow_etcd w) = (r, s) ->
  (k ∈ (if reached f then written_by c else ∅) \/ kept w k) ->
  kept (MkOutboxWorld (ow_now w) s (ow_uuids w) (ow_published w)
          ((if reached f then written_by c else ∅) ∪ ow_written w)) k.
Proof.
  intros Hpre Hg Hr Hk.
  destruct (reached f) eqn:Hf; [|destruct f; try done; cbn in Hr; simplify_eq; destruct Hk; [set_solver|done]].
  assert (exists id, eview s = snd (kv_call (ow_now w) id c (eview (ow_etcd w)))) as [id Hs].
  { destruct (ecall_view _ (ow_now w) c (ow_etcd w)) as (id & _ & Hc). exists id. rewrite <- Hc.
    destruct f; cbn in Hr; simplify_eq; cbn; [by rewrite Hr|done]. }
  unfold kept. cbn [ow_etcd]. rewrite Hs.
  destruct c as [x|p|x v l|x|whens ops|ttl]; cbn in Hpre, Hk |- *; try done.
  - destruct Hk as [Hk|Hk]; [set_solver|done].
  - subst l. cbn. destruct (decide (k = x)) as [->|Hne]; [left; by simplify_map_eq|].
    destruct Hk as [Hk|[Hk|Hk]]; [set_solver|left; by rewrite lookup_insert_ne|by right].
  - destruct Hpre as (cid & -> & ->). destruct (decide (k = outbox_pending_key cid)) as [->|Hne].
    + right. exists cid. split; [done|]. by apply Hg.
    + destruct Hk as [Hk|[Hk|Hk]]; [set_solver|left; by rewrite lookup_delete_ne|by right].
Qed.

Lemma outbox_rules :
  InvariantRules outbox_handle outbox_starts outbox_env (fun _ w => w) outbox_pre outbox_upd (fun _ _ => True)
    outbox_inv (fun w => ow_written w = ∅ /\ ow_published w = []).
Proof.
  split.
  - intros w [Hw _]. split; [by intros|]. rewrite Hw. set_solver.
  - intros w γ i t g A e c a w' [Hg Hk] Hi Hpre He.
    assert (forall g' w1, (forall id, g' = Some id -> published_id w1 id) ->
      (forall id, published_id w id -> published_id w1 id) ->
      forall j tj id, <[i := (t, g')]> γ !! j = Some (tj, Some id) -> published_id w1 id) as Hghost.
    { intros g' w1 Hi' Hmono j tj id Hj. destruct (decide (i = j)) as [<-|]; simplify_map_eq; eauto. }
    assert (forall id, g = Some id -> published_id w id) as Hmine by (intros id ->; eauto).
    destruct e as [| |A ec|subject id payload]; cbn in He.
    + destruct c as [| |u]; try done. case_bool_decide; simplify_eq. split; [|done]. apply Hghost; [exact Hmine|done].
    + destruct c; simplify_eq. split; [|done]. apply Hghost; [exact Hmine|done].
    + destruct c as [|f|]; try done. destruct (rpc _ f ec _) as [r s] eqn:Er. simplify_eq. split; [apply Hghost; [exact Hmine|done]|].
      intros k Hw Hp. eapply outbox_call_kept; [done|exact Hmine|done|].
      cbn in Hw. apply elem_of_union in Hw as [Hw|Hw]; [by left|right; by apply Hk].
    + destruct c as [|f|]; simplify_eq.
      set (w1 := MkOutboxWorld _ _ _ _ _).
      assert (forall x, published_id w x -> published_id w1 x) as Hmono.
      { unfold published_id, w1. cbn. intros x Hx. destruct (reached f); [rewrite fmap_app; set_solver|done]. }
      split.
      * apply Hghost; [|done]. destruct f; cbn; [|intros x Hx; by apply Hmono, Hmine..].
        intros x [= <-]. unfold published_id, w1. cbn. rewrite fmap_app. set_solver.
      * intros k Hw Hp. destruct (Hk k Hw Hp) as [|(x & -> & Hx)]; [by left|right; eauto].
  - intros w γ i t p [Hg Hk] Hi Hs. exists None. split; [destruct Hs; [apply publish_command_ok|apply replay_ok]|].
    split; [|done]. intros j tj id Hj. destruct (decide (i = j)) as [<-|]; simplify_map_eq; eauto.
  - intros w γ w' [Hg Hk] Henv. destruct Henv as [w d Hd|w s Hs]; [done|]. split; [done|].
    intros k Hw Hp. destruct (Hk k Hw Hp) as [Hin|Hpub]; [left|by right]. cbn. by rewrite Hs.
  - intros w γ t [Hg Hk]. split; [|done]. intros i t' id Hi. apply map_lookup_filter_Some in Hi as [Hi _]. eauto.
Qed.

(** C6: whatever calls and publications are lost, whichever clients and replay workers
    run at the same time or stop half way, a command whose outbox record was ever
    stored is at every moment still in the outbox or has reached the broker. *)
Theorem outbox_never_loses s command_id :
  outbox_reachable s -> outbox_pending_key command_id ∈ ow_written (world s) ->
  is_Some (kvs (eview (ow_etcd (world s))) !! outbox_pending_key command_id) \/ published_id (world s) command_id.
Proof.
  intros Hr Hw. destruct (system_invariant _ _ _ _ _ _ _ _ _ _ outbox_rules Hr) as (γ & [_ Hk] & _).
  destruct (Hk _ Hw) as [|(id & Heq & Hp)]; [apply starts_with_app|by left|right].
  unfold outbox_pending_key in Heq. by apply str_app_inj_r in Heq as ->.
Qed.

(** ** A replay that meets no failure *)

Definition publication_of (r : OutboxRecord) : string * string * string := (ob_subject r, ob_command_id r, ob_payload r).

(** A record that is stored under its own key. *)
Definition own_key (w : OutboxWorld) (k v : string) : Prop :=
  exists r, decode_outbox v = Ok r /\ k = outbox_pending_key (ob_command_id r).

Lemma replay_records_run records : forall w, exists w',
  prog_run outbox_handle (for_each records replay_record) w (replicate (2 * length records) (OcFault Delivered)) = Some (tt, w') /\
  ow_published w' = ow_published w ++ (publication_of <$> records) /\
  forall k, kvs (eview (ow_etcd w')) !! k =
    if decide (k ∈ (fun r => outbox_pending_key (ob_command_id r)) <$> records) then None else kvs (eview (ow_etcd w)) !! k.
Proof.
  induction records as [|r records IH]; intros w.
  - exists w. cbn. rewrite app_nil_r. done.
  - destruct (ecall_view _ (ow_now w) (EDelete (outbox_pending_key (ob_command_id r))) (ow_etcd w)) as (id & _ & Hc).
    destruct (ecall (ow_now w) (EDelete (outbox_pending_key (ob_command_id r))) (ow_etcd w)) as [x s] eqn:Es.
    cbn in Hc. injection Hc as -> Hs.
    destruct (IH (MkOutboxWorld (ow_now w) s (ow_uuids w) (ow_published w ++ [publication_of r]) (∅ ∪ ow_written w)))
      as (w' & Hrun & Hpub & Hkv).
    exists w'. replace (2 * length (r :: records)) with (2 + 2 * length records) by (cbn; lia). rewrite replicate_add.
    cbn [for_each]. rewrite (prog_run_seq _ _ _ _ _ _ tt
      (MkOutboxWorld (ow_now w) s (ow_uuids w) (ow_published w ++ [publication_of r]) (∅ ∪ ow_written w))).
    2: { cbn. by rewrite Es. }
    split; [done|]. split; [rewrite Hpub; cbn; by rewrite <- app_assoc|].
    intros k. rewrite Hkv. cbn [ow_etcd fmap list_fmap]. rewrite Hs. cbn [kvs set_kvs].
    case_decide as Hin; case_decide as Hin'; rewrite elem_of_cons in Hin'.
    + done.
    + naive_solver.
    + destruct Hin' as [->|]; [by simplify_map_eq|naive_solver].
    + rewrite lookup_delete_ne; [done|]. naive_solver.
Qed.

(** C27: a replay whose calls all go through ends and returns: it publishes every
    record of the outbox, in the order of their keys, with the command's id as message
    id, and leaves the outbox empty. *)
Theorem replay_drains_outbox w :
  (forall k v, starts_with (outbox_pending_prefix etcd_prefix) k = true ->
     value_of (eview (ow_etcd w)) k = Some v -> own_key w k v) ->
  exists cs w', Forall (fun c => c = OcFault Delivered) cs /\
    prog_run outbox_handle replay_outbox_once w cs = Some (Ok tt, w') /\
    ow_published w' = ow_published w ++
      (publication_of <$> outbox_records (range_of (eview (ow_etcd w)) (outbox_pending_prefix etcd_prefix))) /\
    forall k, starts_with (outbox_pending_prefix etcd_prefix) k = true -> kvs (eview (ow_etcd w')) !! k = None.
Proof.
  intros Hown. destruct (ecall_view _ (ow_now w) (EGetPrefix (outbox_pending_prefix etcd_prefix)) (ow_etcd w)) as (id & _ & Hc).
  destruct (ecall (ow_now w) (EGetPrefix (outbox_pending_prefix etcd_prefix)) (ow_etcd w)) as [x s] eqn:Es.
  cbn in Hc. injection Hc as -> Hs. set (listed := range_of _ _).
  destruct (replay_records_run (outbox_records listed) (MkOutboxWorld (ow_now w) s (ow_uuids w) (ow_published w) (∅ ∪ ow_written w)))
    as (w' & Hrun & Hpub & Hkv).
  exists (OcFault Delivered :: replicate (2 * length (outbox_records listed)) (OcFault Delivered) ++ []), w'. split_and!.
  - constructor; [done|]. rewrite app_nil_r. apply Forall_replicate. done.
  - unfold replay_outbox_once, outbox_call, try_bind. cbn. rewrite Es. cbn.
    change (prog_bind ?f ?m) with (m ≫= f). rewrite (prog_run_seq _ _ _ _ _ _ _ _ Hrun). done.
  - done.
  - intros k Hk. rewrite Hkv. case_decide as Hin; [done|]. cbn [ow_etcd]. rewrite Hs.
    destruct (kvs (eview (ow_etcd w)) !! k) as [c|] eqn:Ek; [|done]. exfalso. apply Hin.
    assert (value_of (eview (ow_etcd w)) k = Some (cell_value c)) as Hv by (unfold value_of; by rewrite Ek).
    destruct (Hown k _ Hk Hv) as (r & Hr & ->). apply list_elem_of_fmap. exists r. split; [done|].
    apply list_elem_of_omap. exists (outbox_pending_key (ob_command_id r), cell_value c).
    split; [by apply elem_of_range_of|]. cbn. by rewrite Hr.
Qed.
End Outbox.

(** ** A publication that is lost *)

Section OutboxExample.
#[local] Existing Instance map_etcd.
#[local] Existing Instance toy_json.
#[local] Existing Instance toy_hash.

(** The id of a command is all that is kept of it. *)
#[local] Instance toy_outbox : OutboxJson := {|
  get_u64 := fun _ _ => None;
  get_value := fun _ _ => None;
  value_text := fun _ => EmptyString;
  envelope_text := be_command_id _;
  encode_outbox := ob_command_id;
  decode_outbox := fun s => Ok (MkOutbox "command" s "cv.cmd.exec.run" s 0 0 0);
|}.

Abbreviation OutboxSystem := (System (E := OutboxE) (W := OutboxWorld) (T := string) (R := result SandboxError string)).

Definition empty_outbox : OutboxWorld := MkOutboxWorld 0 empty_kv ∅ [] ∅.

Definition outbox_start : OutboxSystem :=
  MkSystem empty_outbox
    (<[0 := ("api"%string, publish_command "/c" "cv" "exec.run" "s" (tt : @jvalue toy_json))]> ∅).

(** The record is stored, the publication is lost. *)
Definition outbox_lost : OutboxSystem :=
  default outbox_start (run_schedule outbox_handle outbox_start
    [(0, OcUuid "c1"); (0, OcStep); (0, OcStep); (0, OcStep); (0, OcFault Delivered); (0, OcFault LostRequest)]).

Lemma outbox_lost_reachable : outbox_reachable "/c" "cv" outbox_lost.
Proof.
  assert (outbox_reachable "/c" "cv" outbox_start) as Hs.
  { eapply reach_step; [|apply (step_start _ _ _ _ (MkSystem empty_outbox ∅)); [reflexivity|constructor]].
    by apply reach_init. }
  unfold outbox_lost. destruct (run_schedule _ _ _) eqn:E; [|exact Hs].
  eapply run_schedule_reachable; [exact Hs|exact E].
Qed.

Lemma outbox_never_loses_witness :
  ow_published (world outbox_lost) = [] /\
  (is_Some (kvs (eview (ow_etcd (world outbox_lost))) !! "/c/outbox/pending/c1"%string) \/ published_id (world outbox_lost) "c1").
Proof.
  split; [vm_compute; reflexivity|].
  apply (outbox_never_loses "/c" "cv" outbox_lost "c1"); [exact outbox_lost_reachable|].
  assert (bool_decide (outbox_pending_key "/c" "c1" ∈ ow_written (world outbox_lost)) = true) as H by (vm_compute; reflexivity).
  by apply bool_decide_eq_true in H.
Defined.

Definition one_pending : OutboxWorld :=
  MkOutboxWorld 0 (MkKV {["/c/outbox/pending/c1"%string := MkCell "c1" None]} ∅ ∅ 1) ∅ [] ∅.

Lemma replay_drains_outbox_witness :
  exists cs w', Forall (fun c => c = OcFault Delivered) cs /\
    prog_run outbox_handle (replay_outbox_once "/c") one_pending cs = Some (Ok tt, w') /\
    ow_published w' = [("cv.cmd.exec.run", "c1", "c1")%string] /\
    kvs (eview (ow_etcd w')) !! "/c/outbox/pending/c1"%string = None.
Proof.
  destruct (replay_drains_outbox "/c" one_pending) as (cs & w' & Hcs & Hrun & Hpub & Hkv).
  { intros k v _ Hv. unfold value_of in Hv. cbn in Hv.
    destruct (decide (k = "/c/outbox/pending/c1"%string)) as [->|]; simplify_map_eq. by eexists. }
  exists cs, w'. split; [exact Hcs|]. split; [exact Hrun|]. split.
  - rewrite Hpub. vm_compute. reflexivity.
  - apply Hkv. reflexivity.
Defined.
End OutboxExample.
