(* ===== verification/Reconcile.v ===== *)
(** * Reconciling session routes with the machines of a node

    [vmd/src/reconcile.rs]: a node compares the routes that name its endpoint with
    the machines it runs, deletes what it does not have, moves routes of earlier
    versions to their shard and writes the routes that are missing. *)

From S2P Require Import Prelude ContentHash Effects Etcd ControlBus SessionRoutes.
From Stdlib Require Import ZArith Lia Ascii.

(** ** Data *)

Inductive VmState := Creating | Stopped | VmRunning | Paused | VmError.
Global Instance VmState_eq_dec : EqDecision VmState.
Proof. solve_decision. Defined.

(** What the manager lists of a machine: its id, its state and the session in its
    metadata. *)
Record LocalVm := MkLocalVm { lv_id : string; lv_state : VmState; lv_session : option string }.

Record NodeSessionRoute := MkNodeRoute {
  nr_session_id : string;
  nr_vm_id : string;
  nr_endpoint : string;
  nr_node_id : option string;
  nr_fork_id : option string;
}.

Record SessionRouteEntry := MkEntry { e_key : string; e_route : NodeSessionRoute }.

Record ReconcilePlan := MkPlan { delete_keys : list string; upserts : list NodeSessionRoute }.

Record ReconcileConfig := MkReconcileConfig {
  rc_etcd_prefix : string;
  rc_node_id : string;
  rc_node_endpoint : string;
  rc_nats : bool;
  rc_nats_subject_prefix : string;
  rc_session_shard_count : Z;
}.

Record ReconcileSummary := MkSummary {
  sm_deleted : nat;
  sm_upserted : nat;
  sm_checkpoint_revision : Z;
  sm_observed_revision : Z;
  sm_updated_at_unix_ms : Z;
}.

Class ReconcileJson := {
  decode_node_route : string -> result string NodeSessionRoute;
  encode_upsert : NodeSessionRoute -> Z -> string;
  summary_text : ReconcileConfig -> ReconcileSummary -> string;
  checkpoint_text : Z -> Z -> string;                  (** revision, time *)
  json_revision : string -> option (option Z);         (** [None]: not JSON; the revision, if there *)
}.
Class ReconcileJsonLaws `{ReconcileJson} : Prop := {
  decode_upsert : forall r now, decode_node_route (encode_upsert r now) = Ok r;
}.

(** ** Keys *)

Definition prefix_root (c : ReconcileConfig) : string := trim_end "/"%char (rc_etcd_prefix c).

Section Keys.
Context `{StdHash} (etcd_prefix : string) (shard_count : Z).

Definition session_route_key (session_id : string) : string :=
  etcd_prefix +:+ "/sessions/" +:+ pad2 (client_shard_for_key session_id shard_count) +:+ "/" +:+ session_id.
Definition legacy_session_route_key (session_id : string) : string := etcd_prefix +:+ "/sessions/" +:+ session_id.
Definition node_session_fence_key (session_id : string) : string :=
  etcd_prefix +:+ "/session_fences/" +:+ pad2 (client_shard_for_key session_id shard_count) +:+ "/" +:+ session_id.
Definition node_legacy_session_fence_key (session_id : string) : string :=
  etcd_prefix +:+ "/session_fences/" +:+ session_id.
End Keys.

Definition is_ascii_digit (a : ascii) : bool := (48 <=? N_of_ascii a)%N && (N_of_ascii a <=? 57)%N.
Fixpoint all_digits (s : string) : bool :=
  match s with EmptyString => true | String a s => is_ascii_digit a && all_digits s end.

Definition is_sharded_session_key (legacy_prefix key : string) : bool :=
  starts_with legacy_prefix key &&
  match split_on "/"%char (str_drop (String.length legacy_prefix) key) with
  | shard :: _ :: _ => (String.length shard =? 2) && all_digits shard
  | _ => false
  end.

(** [key.rsplit('/').next()] *)
Definition last_component (key : string) : string := List.last (split_on "/"%char key) EmptyString.

(** ** The plan *)

Definition should_publish_session_route (state : VmState) : bool :=
  match state with VmRunning => true | _ => false end.

Definition collect_local_sessions (vms : list LocalVm) : gmap string string :=
  foldl (fun out vm =>
    if should_publish_session_route (lv_state vm) then
      match lv_session vm with Some s => <[s := lv_id vm]> out | None => out end
    else out) ∅ vms.

Definition decode_route_entry `{ReconcileJson} (key raw : string) : result string SessionRouteEntry :=
  match decode_node_route raw with
  | Ok r =>
      Ok (MkEntry key (if is_empty_str (trim (nr_session_id r))
                       then MkNodeRoute (last_component key) (nr_vm_id r) (nr_endpoint r) (nr_node_id r) (nr_fork_id r)
                       else r))
  | Err _ =>
      if from_utf8 raw then Ok (MkEntry key (MkNodeRoute (last_component key) EmptyString raw None None))
      else Err "decode legacy route endpoint"%string
  end.

Section Plan.
Context `{StdHash} (etcd_prefix : string) (shard_count : Z) (node_endpoint node_id : string)
  (local_sessions : gmap string string).

Definition non_local_sessions (routes : list SessionRouteEntry) : list string :=
  (fun e => nr_session_id (e_route e)) <$>
    List.filter (fun e => negb (String.eqb (nr_endpoint (e_route e)) node_endpoint)) routes.

(** One entry that names this node: what it deletes, what it rewrites, and the session
    it shows to be in order. *)
Definition plan_entry (non_local : list string) (e : SessionRouteEntry) :
    list string * list NodeSessionRoute * option string :=
  let r := e_route e in
  let s := nr_session_id r in
  match local_sessions !! s with
  | Some vm_id =>
      if String.eqb vm_id (nr_vm_id r) then
        if String.eqb (e_key e) (session_route_key etcd_prefix shard_count s) then ([], [], Some s)
        else ([e_key e], [MkNodeRoute s vm_id node_endpoint (Some node_id) (nr_fork_id r)], Some s)
      else ([e_key e], [], None)
  | None =>
      (e_key e :: (if existsb (String.eqb s) non_local then []
                   else [node_session_fence_key etcd_prefix shard_count s;
                         node_legacy_session_fence_key etcd_prefix s]), [], None)
  end.

Definition is_local (e : SessionRouteEntry) : bool := String.eqb (nr_endpoint (e_route e)) node_endpoint.

Definition plan_reconcile (remote_routes : list SessionRouteEntry) : ReconcilePlan :=
  let planned := plan_entry (non_local_sessions remote_routes) <$> List.filter is_local remote_routes in
  let seen := omap snd planned in
  MkPlan (mjoin ((fun x => x.1.1) <$> planned))
    (mjoin ((fun x => x.1.2) <$> planned) ++
     omap (fun '(s, vm_id) =>
       if existsb (String.eqb s) seen then None
       else Some (MkNodeRoute s vm_id node_endpoint (Some node_id) None)) (map_to_list local_sessions)).
End Plan.

(** ** Reading and writing the routes *)

Inductive ReconcileE : Type -> Type :=
| RnConnect : ReconcileE (result string unit)
| RnMillis : ReconcileE Z
| RnEtcd {A : Type} (c : EtcdCall A) : ReconcileE (result string A)
| RnPublish (subject payload : string) : ReconcileE (result string unit).

Abbreviation ReconcileP := (prog ReconcileE).

Definition shard_prefix (root : string) (shard : Z) : string := root +:+ "/sessions/" +:+ pad2 shard +:+ "/".
Definition legacy_prefix (root : string) : string := root +:+ "/sessions/".

(** [str::parse::<i64>] *)
Fixpoint digits_value (acc : Z) (s : string) : option Z :=
  match s with
  | EmptyString => Some acc
  | String a s => if is_ascii_digit a then digits_value (acc * 10 + (Z.of_N (N_of_ascii a) - 48)) s else None
  end.
Definition parse_i64 (s : string) : option Z :=
  let range z := if (- I64_MAX - 1 <=? z)%Z && (z <=? I64_MAX)%Z then Some z else None in
  let digits t := if is_empty_str t then None else digits_value 0 t in
  match s with
  | String "-"%char t => digits t ≫= fun z => range (- z)%Z
  | String "+"%char t => digits t ≫= range
  | t => digits t ≫= range
  end.

Section Worker.
Context `{ReconcileJson, StdHash} (config : ReconcileConfig).

Definition reconcile_checkpoint_key : string := prefix_root config +:+ "/reconcile/checkpoints/" +:+ rc_node_id config.
Definition reconcile_latest_key : string := prefix_root config +:+ "/reconcile/latest/" +:+ rc_node_id config.

Definition read_reconcile_checkpoint_revision : ReconcileP (result string Z) :=
  v ←? perform (RnEtcd (EGet reconcile_checkpoint_key));
  Ret (Ok (match v with
           | None => 0
           | Some raw =>
               match json_revision raw with
               | Some revision => default 0 revision
               | None => if from_utf8 raw then default 0 (parse_i64 (trim raw)) else 0
               end
           end)%Z).

Definition write_reconcile_checkpoint_revision (revision : Z) : ReconcileP (result string unit) :=
  now ← perform RnMillis;
  perform (RnEtcd (EPut reconcile_checkpoint_key (checkpoint_text (Z.max revision 0) now) None)).

Definition decode_entries (kvs : list (string * string)) : list SessionRouteEntry :=
  omap (fun kv =>
    if from_utf8 kv.1 then match decode_route_entry kv.1 kv.2 with Ok e => Some e | Err _ => None end
    else None) kvs.

Fixpoint load_shards (shards : list Z) (routes : list SessionRouteEntry) (max_revision : Z) :
    ReconcileP (result string (list SessionRouteEntry * Z)) :=
  match shards with
  | [] => Ret (Ok (routes, max_revision))
  | shard :: shards =>
      listed ←? perform (RnEtcd (EGetPrefix (shard_prefix (prefix_root config) shard)));
      load_shards shards (routes ++ decode_entries listed.1) (Z.max max_revision listed.2)
  end.

Definition load_partitioned_session_routes : ReconcileP (result string (list SessionRouteEntry * Z)) :=
  sharded ←? load_shards (seqZ 0 (Z.max 1 (rc_session_shard_count config))) [] 0;
  listed ←? perform (RnEtcd (EGetPrefix (legacy_prefix (prefix_root config))));
  let legacy := List.filter (fun kv => negb (is_sharded_session_key (legacy_prefix (prefix_root config)) kv.1)) listed.1 in
  Ret (Ok (sharded.1 ++ decode_entries legacy, Z.max sharded.2 listed.2)).

Definition delete_stale (key : string) : ReconcileP unit :=
  _ ← perform (RnEtcd (EDelete key)); Ret tt.

Definition upsert_route (route : NodeSessionRoute) : ReconcileP (result string unit) :=
  now ← perform RnMillis;
  _ ←? perform (RnEtcd (EPut (session_route_key (prefix_root config) (rc_session_shard_count config) (nr_session_id route))
                          (encode_upsert route now) None));
  _ ← perform (RnEtcd (EDelete (legacy_session_route_key (prefix_root config) (nr_session_id route))));
  Ret (Ok tt).

Definition reconcile_once (vms : list LocalVm) : ReconcileP (result string unit) :=
  let local_sessions := collect_local_sessions vms in
  _ ←? perform RnConnect;
  checkpoint ← read_reconcile_checkpoint_revision;
  let checkpoint_revision := match checkpoint with Ok z => z | Err _ => 0%Z end in
  loaded ←? load_partitioned_session_routes;
  let plan := plan_reconcile (prefix_root config) (rc_session_shard_count config) (rc_node_endpoint config)
                (rc_node_id config) local_sessions loaded.1 in
  _ ← for_each (delete_keys plan) delete_stale;
  _ ←? try_each (upserts plan) upsert_route;
  now ← perform RnMillis;
  let summary := summary_text config
    (MkSummary (length (delete_keys plan)) (length (upserts plan)) checkpoint_revision loaded.2 now) in
  _ ←? perform (RnEtcd (EPut reconcile_latest_key summary None));
  _ ← write_reconcile_checkpoint_revision loaded.2;
  _ ← (if rc_nats config
       then perform (RnPublish (rc_nats_subject_prefix config +:+ ".evt.reconcile.completed") summary)
       else Ret (Ok tt));
  Ret (Ok tt).
End Worker.
