(* ===== verification/ReconcileFix.v ===== *)
(** * Reconciliation reaches a fixed point

    A run of [reconcile_once] that meets no failure and no other writer leaves nothing
    for the next run to do. *)

From S2P Require Import Prelude ContentHash Effects Etcd ControlBus SessionRoutes Reconcile RouteStore.
From Stdlib Require Import ZArith Lia Ascii.
From Stdlib Require Import ZArith Lia.

(** ** Components of keys *)

Fixpoint slash_free (s : string) : bool :=
  match s with EmptyString => true | String a s => negb (Ascii.eqb a "/"%char) && slash_free s end.

Lemma components_nonempty c s : split_on c s ≠ [].
Proof. induction s as [|a s IH]; cbn; [done|]. destruct (Ascii.eqb a c); [done|]. by destruct (split_on c s). Qed.

Lemma split_on_slash_free s : slash_free s = true -> split_on "/"%char s = [s].
Proof.
  induction s as [|a s IH]; cbn [slash_free split_on]; [done|]. rewrite andb_true_iff, negb_true_iff.
  intros [-> Hs]. by rewrite (IH Hs).
Qed.

Lemma split_on_two p s : exists q q' l, split_on "/"%char (p +:+ "/" +:+ s) = q :: q' :: l.
Proof.
  induction p as [|a p (q & q' & l & IH)].
  - change (split_on "/"%char ("" +:+ "/" +:+ s)) with (EmptyString :: split_on "/"%char s).
    destruct (split_on "/"%char s) eqn:E; [by apply components_nonempty in E|eauto].
  - rewrite str_app_cons. cbn [split_on]. rewrite IH. destruct (Ascii.eqb a "/"%char); eauto.
Qed.

Lemma last_component_app p s : slash_free s = true -> last_component (p +:+ "/" +:+ s) = s.
Proof.
  intros Hs. unfold last_component. induction p as [|a p IH].
  - change (split_on "/"%char ("" +:+ "/" +:+ s)) with (EmptyString :: split_on "/"%char s).
    by rewrite split_on_slash_free.
  - rewrite str_app_cons. cbn [split_on]. destruct (split_on_two p s) as (q & q' & l & E). rewrite E in IH |- *.
    by destruct (Ascii.eqb a "/"%char).
Qed.

Lemma slash_free_app p s : slash_free (p +:+ "/" +:+ s) = false.
Proof. induction p as [|a p IH]; [done|]. rewrite str_app_cons. cbn [slash_free]. by rewrite IH, andb_false_r. Qed.

Section Plan.
Context `{StdHash} (root : string) (n : Z) (endpoint node : string) (local : gmap string string).

Abbreviation canon := (session_route_key root n).
Abbreviation legacy := (legacy_session_route_key root).
Abbreviation plan := (plan_reconcile root n endpoint node local).

Lemma canon_legacy s t : slash_free t = true -> canon s ≠ legacy t.
Proof.
  intros Ht E. unfold session_route_key, legacy_session_route_key in E.
  do 2 apply str_app_inj_r in E. rewrite <- E, slash_free_app in Ht. done.
Qed.

Lemma canon_last s : slash_free s = true -> last_component (canon s) = s.
Proof. intros Hs. unfold session_route_key. rewrite <- !str_app_assoc. rewrite str_app_assoc. by apply last_component_app. Qed.

Lemma canon_inj s t : slash_free s = true -> slash_free t = true -> canon s = canon t -> s = t.
Proof. intros Hs Ht E. rewrite <- (canon_last s Hs), <- (canon_last t Ht). by rewrite E. Qed.

Lemma canon_fence s t : canon s ≠ node_session_fence_key root n t /\ canon s ≠ node_legacy_session_fence_key root t.
Proof.
  unfold session_route_key, node_session_fence_key, node_legacy_session_fence_key.
  split; intros E; apply str_app_inj_r in E; discriminate E.
Qed.

(** ** What the plan says *)

(** A route of this node that is as it should be. *)
Definition in_order (e : SessionRouteEntry) : Prop :=
  local !! nr_session_id (e_route e) = Some (nr_vm_id (e_route e)) /\ e_key e = canon (nr_session_id (e_route e)).

Lemma elem_of_planned (f : list string * list NodeSessionRoute * option string -> list string) L k :
  k ∈ mjoin (f <$> (plan_entry root n endpoint node local (non_local_sessions endpoint L) <$> List.filter (is_local endpoint) L)) <->
  exists e, e ∈ L /\ is_local endpoint e = true /\ k ∈ f (plan_entry root n endpoint node local (non_local_sessions endpoint L) e).
Proof.
  rewrite list_elem_of_join. split.
  - intros (l & Hk & Hl). apply list_elem_of_fmap in Hl as (x & -> & Hx). apply list_elem_of_fmap in Hx as (e & -> & He).
    apply elem_of_List_filter in He as [He Hlo]. by exists e.
  - intros (e & He & Hlo & Hk). eexists. split; [exact Hk|]. apply list_elem_of_fmap. eexists. split; [done|].
    apply list_elem_of_fmap. eexists. split; [done|]. by apply elem_of_List_filter.
Qed.

(** Every route of this node that is not in order is deleted, and nothing else but
    fences. *)
Lemma plan_deletes L e :
  e ∈ L -> is_local endpoint e = true -> ~ in_order e -> e_key e ∈ delete_keys (plan L).
Proof.
  intros He Hl Hb. apply (elem_of_planned (fun x => x.1.1)). exists e. split_and!; [done..|].
  unfold plan_entry, in_order in *. destruct (local !! _) as [vm|]; [|cbn; set_solver].
  destruct (String.eqb_spec vm (nr_vm_id (e_route e))) as [->|]; [|cbn; set_solver].
  destruct (String.eqb_spec (e_key e) (canon (nr_session_id (e_route e)))); [|cbn; set_solver]. naive_solver.
Qed.

Lemma plan_deletes_only L k :
  k ∈ delete_keys (plan L) ->
  (exists e, e ∈ L /\ is_local endpoint e = true /\ ~ in_order e /\ e_key e = k) \/
  (exists s, k = node_session_fence_key root n s \/ k = node_legacy_session_fence_key root s).
Proof.
  intros Hk. apply (elem_of_planned (fun x => x.1.1)) in Hk as (e & He & Hl & Hk).
  unfold plan_entry in Hk.
  assert (~ in_order e -> k = e_key e -> exists e, e ∈ L /\ is_local endpoint e = true /\ ~ in_order e /\ e_key e = k) as Hbad
    by (intros Hb ->; by exists e).
  unfold in_order in Hbad. destruct (local !! nr_session_id (e_route e)) as [vm|] eqn:El.
  - destruct (String.eqb_spec vm (nr_vm_id (e_route e))) as [->|]; cbn in Hk.
    + destruct (String.eqb_spec (e_key e) (canon (nr_session_id (e_route e)))); cbn in Hk; [by apply elem_of_nil in Hk|].
      apply list_elem_of_singleton in Hk. left. apply Hbad; [naive_solver|done].
    + apply list_elem_of_singleton in Hk. left. apply Hbad; [naive_solver|done].
  - cbn in Hk. apply elem_of_cons in Hk as [Hk|Hk]; [left; apply Hbad; [naive_solver|done]|right].
    destruct (existsb _ _); [by apply elem_of_nil in Hk|].
    exists (nr_session_id (e_route e)). rewrite !elem_of_cons in Hk. destruct Hk as [?|[?|Hk%elem_of_nil]]; auto. done.
Qed.

(** What is written are routes of local sessions to this node. *)
Lemma plan_upserts L r :
  r ∈ upserts (plan L) -> local !! nr_session_id r = Some (nr_vm_id r) /\ nr_endpoint r = endpoint.
Proof.
  unfold plan_reconcile. cbn [upserts]. rewrite elem_of_app. intros [Hr|Hr].
  - apply list_elem_of_join in Hr as (l & Hr & Hl). apply list_elem_of_fmap in Hl as (x & -> & Hx).
    apply list_elem_of_fmap in Hx as (e & -> & _). unfold plan_entry in Hr.
    destruct (local !! nr_session_id (e_route e)) as [vm|] eqn:El; [|by apply elem_of_nil in Hr].
    destruct (String.eqb_spec vm (nr_vm_id (e_route e))) as [->|]; [|by apply elem_of_nil in Hr].
    destruct (String.eqb _ _); cbn in Hr; [by apply elem_of_nil in Hr|]. by apply list_elem_of_singleton in Hr as ->.
  - apply list_elem_of_omap in Hr as ([s vm] & Hs & Hr). apply elem_of_map_to_list in Hs.
    destruct (existsb _ _); [done|]. by injection Hr as <-.
Qed.

(** Every local session has a route in order or is written. *)
Lemma plan_covers L s vm :
  local !! s = Some vm ->
  (exists e, e ∈ L /\ is_local endpoint e = true /\ in_order e /\ nr_session_id (e_route e) = s) \/
  (exists r, r ∈ upserts (plan L) /\ nr_session_id r = s).
Proof.
  intros Hs. unfold plan_reconcile. cbn [upserts].
  set (planned := plan_entry _ _ _ _ _ _ <$> _). destruct (existsb (String.eqb s) (omap snd planned)) eqn:Eseen.
  - apply existsb_exists in Eseen as (s' & Hin & Heq). apply String.eqb_eq in Heq as <-.
    apply list_elem_of_In, list_elem_of_omap in Hin as (x & Hx & Hsnd). apply list_elem_of_fmap in Hx as (e & -> & He).
    apply elem_of_List_filter in He as [He Hl]. unfold plan_entry in Hsnd.
    destruct (local !! nr_session_id (e_route e)) as [vm'|] eqn:El; [|done].
    destruct (String.eqb_spec vm' (nr_vm_id (e_route e))) as [->|]; [|done].
    destruct (String.eqb_spec (e_key e) (canon (nr_session_id (e_route e)))) as [Hk|Hk]; cbn in Hsnd; injection Hsnd as <-.
    + left. exists e. split_and!; [done..|]. by split.
    + right. exists (MkNodeRoute (nr_session_id (e_route e)) (nr_vm_id (e_route e)) endpoint (Some node) (nr_fork_id (e_route e))).
      split; [|reflexivity]. apply elem_of_app. left. apply list_elem_of_join. eexists.
      split; [|apply list_elem_of_fmap; eexists; split; [reflexivity|apply list_elem_of_fmap; eexists; split; [reflexivity|by apply elem_of_List_filter]]].
      unfold plan_entry. rewrite El, String.eqb_refl. apply String.eqb_neq in Hk as ->. cbn. by apply list_elem_of_singleton.
  - right. exists (MkNodeRoute s vm endpoint (Some node) None). split; [|done]. apply elem_of_app. right.
    apply list_elem_of_omap. exists (s, vm). split; [by apply elem_of_map_to_list|]. by rewrite Eseen.
Qed.

(** A table in which everything is in order needs no change. *)
Lemma plan_settled L :
  (forall e, e ∈ L -> is_local endpoint e = true -> in_order e) ->
  (forall s vm, local !! s = Some vm -> exists e, e ∈ L /\ is_local endpoint e = true /\ nr_session_id (e_route e) = s) ->
  plan L = MkPlan [] [].
Proof.
  intros Hgood Hall.
  assert (delete_keys (plan L) = []) as Hd.
  { destruct (delete_keys (plan L)) as [|k l] eqn:E; [done|]. exfalso.
    assert (k ∈ delete_keys (plan L)) as Hk by (rewrite E; set_solver).
    apply (elem_of_planned (fun x => x.1.1)) in Hk as (e & He & Hl & Hk). destruct (Hgood e He Hl) as [Hlo Hkey].
    unfold plan_entry in Hk. rewrite Hlo, String.eqb_refl, Hkey, String.eqb_refl in Hk. by apply elem_of_nil in Hk. }
  assert (upserts (plan L) = []) as Hu; [|by destruct (plan L); cbn in *; subst].
  destruct (upserts (plan L)) as [|r l] eqn:E; [done|]. exfalso.
  assert (r ∈ upserts (plan L)) as Hr by (rewrite E; set_solver).
  unfold plan_reconcile in Hr. cbn [upserts] in Hr. set (planned := plan_entry _ _ _ _ _ _ <$> _) in Hr.
  assert (forall e, e ∈ L -> is_local endpoint e = true -> plan_entry root n endpoint node local (non_local_sessions endpoint L) e
    = ([], [], Some (nr_session_id (e_route e)))) as Hpe.
  { intros e He Hl. destruct (Hgood e He Hl) as [Hlo Hkey]. unfold plan_entry. by rewrite Hlo, String.eqb_refl, Hkey, String.eqb_refl. }
  apply elem_of_app in Hr as [Hr|Hr].
  - apply list_elem_of_join in Hr as (x & Hr & Hx). apply list_elem_of_fmap in Hx as (y & -> & Hy).
    apply list_elem_of_fmap in Hy as (e & -> & He). apply elem_of_List_filter in He as [He Hl].
    rewrite (Hpe e He Hl) in Hr. by apply elem_of_nil in Hr.
  - apply list_elem_of_omap in Hr as ([s vm] & Hs & Hr). apply elem_of_map_to_list in Hs.
    destruct (Hall s vm Hs) as (e & He & Hl & Hse). destruct (existsb _ _) eqn:Ex; [done|].
    apply not_true_iff_false in Ex. apply Ex, existsb_exists. exists s. split; [|apply String.eqb_refl].
    apply list_elem_of_In, list_elem_of_omap. eexists. split.
    { apply list_elem_of_fmap. eexists. split; [reflexivity|]. by apply elem_of_List_filter. }
    by rewrite (Hpe e He Hl), Hse.
Qed.
End Plan.

(** ** A run without failures *)

Section CalmRun.
Context `{EtcdLaws, ReconcileJsonLaws, StdHash} (config : ReconcileConfig).

Record CalmWorld := MkCalm { cw_now : Z; cw_etcd : estate }.

(** Every call goes through, and nobody else writes. *)
Definition calm_handle (A : Type) (e : ReconcileE A) (w : CalmWorld) (_ : unit) : option (A * CalmWorld) :=
  match e in ReconcileE A return option (A * CalmWorld) with
  | RnConnect => Some (Ok tt, w)
  | RnMillis => Some (cw_now w, w)
  | RnEtcd c => let '(r, s) := ecall (cw_now w) c (cw_etcd w) in Some (r, MkCalm (cw_now w) s)
  | RnPublish _ _ => Some (Ok tt, w)
  end.

Abbreviation wp := (wp_prog calm_handle).
Abbreviation view w := (eview (cw_etcd w)).
Abbreviation root := (prefix_root config).
Abbreviation shards := (rc_session_shard_count config).
Abbreviation canon := (session_route_key root shards).
Abbreviation legacy := (legacy_session_route_key root).

Lemma wp_calm_call {A} (c : EtcdCall A) (Q : result string A -> CalmWorld -> Prop) w :
  (forall id s, eview s = snd (kv_call (cw_now w) id c (view w)) ->
     Q (fst (kv_call (cw_now w) id c (view w))) (MkCalm (cw_now w) s)) ->
  wp (perform (RnEtcd c)) Q w.
Proof.
  intros HQ [] r w' Hr. cbn in Hr. destruct (ecall_view _ (cw_now w) c (cw_etcd w)) as (id & _ & Hc).
  destruct (ecall (cw_now w) c (cw_etcd w)) as [x s]. cbn in Hc. injection Hr as <- <-.
  specialize (HQ id s). rewrite <- Hc in HQ. by apply HQ.
Qed.

(** *** What is loaded *)

Definition entries_under (kv : KV) (p : string) : list SessionRouteEntry := decode_entries (range_of kv p).

Definition loaded_entries (kv : KV) : list SessionRouteEntry :=
  mjoin ((fun shard => entries_under kv (shard_prefix root shard)) <$> seqZ 0 (Z.max 1 shards)) ++
  decode_entries (List.filter (fun x => negb (is_sharded_session_key (legacy_prefix root) x.1))
                    (range_of kv (legacy_prefix root))).

Lemma load_shards_run l : forall routes rev w,
  wp (load_shards config l routes rev) (fun r w' => exists rev',
    r = Ok (routes ++ mjoin ((fun shard => entries_under (view w) (shard_prefix root shard)) <$> l), rev') /\
    view w' = view w) w.
Proof.
  induction l as [|x l IH]; intros routes rev w; cbn [load_shards].
  - exists rev. cbn. by rewrite app_nil_r.
  - apply wp_try_bind, wp_calm_call. intros id s Hs. cbn in Hs |- *.
    eapply wp_prog_mono; [|apply IH]. intros r w' (rev' & -> & Hw'). cbn in Hw' |- *. rewrite Hs in *.
    exists rev'. by rewrite <- app_assoc.
Qed.

Lemma load_run w :
  wp (load_partitioned_session_routes config) (fun r w' => exists rev,
    r = Ok (loaded_entries (view w), rev) /\ view w' = view w) w.
Proof.
  unfold load_partitioned_session_routes. apply wp_try_bind. eapply wp_prog_mono; [|apply load_shards_run].
  intros r w1 (rev & -> & Hw1). apply wp_try_bind, wp_calm_call. intros id s Hs. cbn in Hs |- *.
  rewrite Hw1 in *. eexists. split; [reflexivity|done].
Qed.

(** The keys a run looks at. *)
Definition visible (k : string) : Prop :=
  from_utf8 k = true /\
  ((exists shard, (0 <= shard < Z.max 1 shards)%Z /\ starts_with (shard_prefix root shard) k = true) \/
   (starts_with (legacy_prefix root) k = true /\ is_sharded_session_key (legacy_prefix root) k = false)).

Lemma elem_of_decode_entries l e :
  e ∈ decode_entries l <-> exists k v, (k, v) ∈ l /\ from_utf8 k = true /\ decode_route_entry k v = Ok e.
Proof.
  unfold decode_entries. rewrite list_elem_of_omap. split.
  - intros ([k v] & Hin & He). cbn [fst snd] in He. exists k, v.
    repeat case_match; simplify_eq. done.
  - intros (k & v & Hin & Hu & Hd). exists (k, v). split; [done|]. cbn [fst snd]. by rewrite Hu, Hd.
Qed.

Lemma elem_of_loaded kv e :
  e ∈ loaded_entries kv <-> exists k v, visible k /\ value_of kv k = Some v /\ decode_route_entry k v = Ok e.
Proof.
  unfold loaded_entries, visible. rewrite elem_of_app, list_elem_of_join. split.
  - intros [(l & He & Hl)|He].
    + apply list_elem_of_fmap in Hl as (shard & -> & Hsh). apply elem_of_seqZ in Hsh.
      apply elem_of_decode_entries in He as (k & v & Hk & Hu & Hd). apply elem_of_range_of in Hk as [Hp Hv].
      exists k, v. split_and!; [done| |done|done]. left. exists shard. split; [lia|done].
    + apply elem_of_decode_entries in He as (k & v & Hk & Hu & Hd). apply elem_of_List_filter in Hk as [Hk Hn].
      apply elem_of_range_of in Hk as [Hp Hv]. exists k, v. split_and!; [done| |done|done]. right.
      by apply negb_true_iff in Hn.
  - intros (k & v & (Hu & Hvis) & Hv & Hd). destruct Hvis as [(shard & Hsh & Hp)|[Hp Hn]]; [left|right].
    + exists (entries_under kv (shard_prefix root shard)). split.
      * apply elem_of_decode_entries. exists k, v. split_and!; [|done|done]. by apply elem_of_range_of.
      * apply list_elem_of_fmap. exists shard. split; [done|]. apply elem_of_seqZ. lia.
    + apply elem_of_decode_entries. exists k, v. split_and!; [|done|done]. apply elem_of_List_filter. split.
      * by apply elem_of_range_of.
      * cbn. by rewrite Hn.
Qed.

(** *** What is written *)

Lemma delete_run keys : forall w,
  wp (for_each keys delete_stale) (fun _ w' => cw_now w' = cw_now w /\
    forall k, kvs (view w') !! k = if decide (k ∈ keys) then None else kvs (view w) !! k) w.
Proof.
  induction keys as [|x keys IH]; intros w; [done|].
  apply wp_prog_bind, wp_prog_bind, wp_calm_call. intros id s Hs. cbn in Hs. cbn [wp_prog].
  eapply wp_prog_mono; [|apply IH]. intros r w' [Hn Hw']. split; [done|]. intros k. rewrite Hw'. cbn. rewrite Hs. cbn.
  case_decide as Hin; case_decide as Hin'; rewrite elem_of_cons in Hin'.
  - done.
  - naive_solver.
  - destruct Hin' as [->|]; [by simplify_map_eq|naive_solver].
  - rewrite lookup_delete_ne; [done|naive_solver].
Qed.

(** A key after the routes [ups] were written: the last of its routes, or what it had
    unless it was the earlier key of one of them. *)
Definition upserted (ups : list NodeSessionRoute) (m m' : gmap string Cell) : Prop :=
  forall k,
    (exists r now, r ∈ ups /\ k = canon (nr_session_id r) /\ m' !! k = Some (MkCell (encode_upsert r now) None)) \/
    ((forall r, r ∈ ups -> k ≠ canon (nr_session_id r)) /\
     (m' !! k = m !! k \/ (m' !! k = None /\ exists r, r ∈ ups /\ k = legacy (nr_session_id r)))).

Lemma upserted_cons r now ups m m' :
  (forall x, x ∈ r :: ups -> slash_free (nr_session_id x) = true) ->
  upserted ups (delete (legacy (nr_session_id r)) (<[canon (nr_session_id r) := MkCell (encode_upsert r now) None]> m)) m' ->
  upserted (r :: ups) m m'.
Proof.
  intros Hfree Hrest k.
  destruct (Hrest k) as [(r2 & now2 & Hr2 & Hk & Hv)|[Hno Hold]]; [left; exists r2, now2; split; [set_solver|done]|].
  assert (legacy (nr_session_id r) ≠ canon (nr_session_id r)) as Hne by (apply not_eq_sym, canon_legacy, Hfree; set_solver).
  destruct (decide (k = canon (nr_session_id r))) as [->|Hkr].
  - left. exists r, now. split; [set_solver|]. split; [done|].
    destruct Hold as [Hold|(_ & r2 & Hr2 & Heq)].
    + rewrite Hold. by simplify_map_eq.
    + exfalso. eapply canon_legacy; [apply (Hfree r2); set_solver|done].
  - right. split; [intros x [->|Hx]%elem_of_cons; [done|by apply Hno]|].
    destruct Hold as [Hold|(Hnone & r2 & Hr2 & Heq)]; [|right; split; [done|]; exists r2; split; [set_solver|done]].
    destruct (decide (k = legacy (nr_session_id r))) as [->|Hkl].
    + right. split; [by rewrite Hold, lookup_delete_eq|]. exists r. split; [set_solver|done].
    + left. rewrite Hold, lookup_delete_ne, lookup_insert_ne by congruence. done.
Qed.

Lemma upsert_run ups : (forall x, x ∈ ups -> slash_free (nr_session_id x) = true) -> forall w,
  wp (try_each ups (upsert_route config)) (fun r w' => r = Ok tt /\ upserted ups (kvs (view w)) (kvs (view w'))) w.
Proof.
  induction ups as [|r ups IH]; intros Hfree w.
  - split; [done|]. intros k. right. split; [by intros r Hr%elem_of_nil|by left].
  - cbn [try_each]. apply wp_try_bind. unfold upsert_route. intros [] now w0 [= <- <-].
    apply wp_try_bind, wp_calm_call. intros id s Hs. cbn in Hs. cbn [kv_call lease_live fst].
    apply wp_prog_bind, wp_calm_call. intros id2 s2 Hs2. cbn in Hs2. cbn [wp_prog].
    eapply wp_prog_mono; [|apply IH; intros x Hx; apply Hfree; set_solver].
    intros r' w' [-> Hup]. split; [done|]. eapply (upserted_cons _ (cw_now w)); [done|].
    cbn in Hup. rewrite Hs2, Hs in Hup. done.
Qed.

(** *** The table afterwards *)

Section After.
Context (local : gmap string string) (kv kv' : KV).
Abbreviation endpoint := (rc_node_endpoint config).
Abbreviation node := (rc_node_id config).
Abbreviation L := (loaded_entries kv).
Abbreviation plan := (plan_reconcile root shards endpoint node local L).

(** The sessions of the node have names without a slash, in UTF-8. *)
Definition good_names : Prop :=
  forall s vm, local !! s = Some vm -> slash_free s = true /\ from_utf8 (canon s) = true.

(** The deletions and the writes of the plan, and nothing else to the sessions. *)
Definition carried_out : Prop :=
  exists m1 m2,
    (forall k, m1 !! k = if decide (k ∈ delete_keys plan) then None else kvs kv !! k) /\
    upserted (upserts plan) m1 m2 /\
    (forall k, starts_with (legacy_prefix root) k = true -> kvs kv' !! k = m2 !! k).

Context (Hnames : good_names) (Hdone : carried_out).

Lemma visible_session k : visible k -> starts_with (legacy_prefix root) k = true.
Proof.
  intros [_ [(shard & _ & Hk)|[Hk _]]]; [|done]. apply starts_with_spec in Hk as [t ->]. apply starts_with_spec.
  exists (pad2 shard +:+ "/" +:+ t). unfold shard_prefix, legacy_prefix. by rewrite !str_app_assoc.
Qed.

Lemma canon_visible s vm : local !! s = Some vm -> visible (canon s).
Proof.
  intros Hs. split; [by eapply Hnames|]. left. exists (client_shard_for_key s shards). split.
  - unfold client_shard_for_key. destruct (Z.leb_spec shards 1); [lia|].
    pose proof (Z.mod_pos_bound (default_hash [s] mod 2 ^ 8) shards). lia.
  - unfold session_route_key, shard_prefix. rewrite <- !str_app_assoc. rewrite !str_app_assoc.
    rewrite !starts_with_common. done.
Qed.

(** A route that was written is read back in order. *)
Lemma upsert_decodes r now :
  r ∈ upserts plan -> decode_route_entry (canon (nr_session_id r)) (encode_upsert r now) = Ok (MkEntry (canon (nr_session_id r)) r).
Proof.
  intros Hr. apply plan_upserts in Hr as [Hl _]. unfold decode_route_entry. rewrite decode_upsert.
  destruct (is_empty_str _); [|done]. rewrite canon_last by (by eapply Hnames). by destruct r.
Qed.

Lemma upsert_in_order r : r ∈ upserts plan ->
  in_order root shards local (MkEntry (canon (nr_session_id r)) r) /\ is_local endpoint (MkEntry (canon (nr_session_id r)) r) = true.
Proof.
  intros Hr. apply plan_upserts in Hr as [Hl He]. split; [by split|]. unfold is_local. cbn. rewrite He. apply String.eqb_refl.
Qed.

(** A visible key holds a written route, or what it held before and was to be kept. *)
Lemma after_value k : visible k ->
  (exists r now, r ∈ upserts plan /\ k = canon (nr_session_id r) /\ value_of kv' k = Some (encode_upsert r now)) \/
  ((forall r, r ∈ upserts plan -> k ≠ canon (nr_session_id r)) /\
   (value_of kv' k = None \/ value_of kv' k = value_of kv k) /\
   (value_of kv' k ≠ None -> k ∉ delete_keys plan) /\
   (k ∉ delete_keys plan -> (forall r, r ∈ upserts plan -> k ≠ legacy (nr_session_id r)) -> value_of kv' k = value_of kv k)).
Proof.
  intros Hk. destruct Hdone as (m1 & m2 & Hm1 & Hm2 & Hm3). unfold value_of. rewrite Hm3 by (by apply visible_session).
  destruct (Hm2 k) as [(r & now & Hr & -> & Hv)|[Hno Hold]]; [left; exists r, now; by rewrite Hv|right].
  split; [done|]. specialize (Hm1 k).
  destruct Hold as [Hold|[Hnone Hleg]].
  - rewrite Hold, Hm1. case_decide; naive_solver.
  - rewrite Hnone. naive_solver.
Qed.

Lemma loaded_key e kv0 : e ∈ loaded_entries kv0 -> visible (e_key e) /\ exists v, value_of kv0 (e_key e) = Some v /\ decode_route_entry (e_key e) v = Ok e.
Proof.
  intros He. apply elem_of_loaded in He as (k & v & Hk & Hv & Hd).
  assert (e_key e = k) as <-; [|eauto].
  unfold decode_route_entry in Hd. destruct (decode_node_route v); [by injection Hd as <-|].
  destruct (from_utf8 v); [by injection Hd as <-|done].
Qed.

Lemma after_settled : plan_reconcile root shards endpoint node local (loaded_entries kv') = MkPlan [] [].
Proof.
  apply plan_settled.
  - intros e He Hl. destruct (loaded_key e kv' He) as (Hk & v & Hv & Hd).
    destruct (after_value _ Hk) as [(r & now & Hr & Hkr & Hv')|(Hno & Hval & Hkept & _)].
    + rewrite Hv in Hv'. injection Hv' as ->. rewrite Hkr, (upsert_decodes r now Hr) in Hd. injection Hd as <-.
      by apply upsert_in_order.
    + destruct Hval as [Hval|Hval]; [by rewrite Hval in Hv|]. rewrite Hval in Hv.
      assert (e ∈ L) as HeL by (apply elem_of_loaded; eauto).
      destruct (decide (in_order root shards local e)) as [|Hbad]; [done|]. exfalso.
      apply Hkept; [by rewrite Hval, Hv|]. by apply plan_deletes.
  - intros s vm Hs.
    assert (forall r, r ∈ upserts plan -> nr_session_id r = s ->
      exists e, e ∈ loaded_entries kv' /\ is_local endpoint e = true /\ nr_session_id (e_route e) = s) as Hups.
    { intros r Hr <-. pose proof (canon_visible _ _ Hs) as Hvis.
      destruct (after_value _ Hvis) as [(r2 & now & Hr2 & Hk2 & Hv2)|(Hno & _)]; [|by destruct (Hno r Hr)].
      assert (nr_session_id r = nr_session_id r2) as Hid.
      { apply plan_upserts in Hr2 as [Hl2 _]. by eapply canon_inj; [eapply Hnames..|]. }
      exists (MkEntry (canon (nr_session_id r2)) r2). split; [|split; [by apply upsert_in_order|by symmetry]].
      apply elem_of_loaded. exists (canon (nr_session_id r)), (encode_upsert r2 now). split_and!; [done..|].
      rewrite Hk2. by apply upsert_decodes. }
    destruct (plan_covers root shards endpoint node local L s vm Hs) as [(e & He & Hl & Hgood & Hes)|(r & Hr & Hrs)]; [|by eapply Hups].
    destruct (loaded_key e kv He) as (Hk & v & Hv & Hd).
    destruct (after_value _ Hk) as [(r & now & Hr & Hkr & Hv')|(Hno & _ & _ & Hsame)].
    + eapply Hups; [done|]. destruct Hgood as [_ Hkey]. rewrite Hkey in Hkr.
      apply plan_upserts in Hr as [Hl2 _]. symmetry. rewrite <- Hes. eapply canon_inj; [|by eapply Hnames|done].
      rewrite Hes. by eapply Hnames.
    + exists e. split; [|done]. apply elem_of_loaded. exists (e_key e), v. split; [done|]. split; [|done].
      rewrite <- Hv. apply Hsame.
      * intros Hdel. apply plan_deletes_only in Hdel as [(e2 & He2 & _ & Hbad & Hk2)|(t & Ht)].
        -- apply Hbad. destruct (loaded_key e2 kv He2) as (_ & v2 & Hv2 & Hd2). rewrite Hk2 in Hv2, Hd2. congruence.
        -- destruct Hgood as [_ Hkey]. rewrite Hkey in Ht. destruct (canon_fence root shards (nr_session_id (e_route e)) t). naive_solver.
      * intros r Hr Heq. destruct Hgood as [_ Hkey]. rewrite Hkey in Heq. apply plan_upserts in Hr as [Hl2 _].
        eapply canon_legacy; [|exact Heq]. by eapply Hnames.
Qed.
End After.

(** ** The run *)

Lemma bookkeeping_apart k s : starts_with (legacy_prefix root) k = true -> k ≠ root +:+ "/reconcile/" +:+ s.
Proof.
  intros Hk ->. unfold legacy_prefix in Hk. rewrite starts_with_common in Hk. cbn in Hk. done.
Qed.

(** A put of a key of the worker's own. *)
Lemma wp_bookkeeping k v (Q : result string unit -> CalmWorld -> Prop) w s :
  k = root +:+ "/reconcile/" +:+ s ->
  (forall w', (forall k, starts_with (legacy_prefix root) k = true -> kvs (view w') !! k = kvs (view w) !! k) -> Q (Ok tt) w') ->
  wp (perform (RnEtcd (EPut k v None))) Q w.
Proof.
  intros -> HQ. apply wp_calm_call. intros id s' Hs. apply HQ. intros k Hk. cbn in Hs |- *. rewrite Hs. cbn.
  apply lookup_insert_ne, not_eq_sym. by apply bookkeeping_apart.
Qed.

Lemma reconcile_run vms w :
  good_names (collect_local_sessions vms) ->
  wp (reconcile_once config vms) (fun r w' => r = Ok tt /\ carried_out (collect_local_sessions vms) (view w) (view w')) w.
Proof.
  intros Hnames. unfold reconcile_once. set (local := collect_local_sessions vms) in *.
  apply wp_try_bind. intros [] r w0 [= <- <-]. apply wp_prog_bind, wp_try_bind, wp_calm_call.
  intros id s0 Hs0. cbn in Hs0. cbn [kv_call fst wp_prog]. apply wp_try_bind.
  eapply wp_prog_mono; [|apply load_run]. intros r w1 (rev & -> & Hw1). cbn [cw_etcd] in Hw1. rewrite Hs0 in Hw1.
  cbn [fst snd cw_etcd]. rewrite Hs0. set (plan := plan_reconcile _ _ _ _ _ _).
  apply wp_prog_bind. eapply wp_prog_mono; [|apply delete_run]. intros _ w2 [_ Hw2]. rewrite Hw1 in Hw2.
  apply wp_try_bind. eapply wp_prog_mono; [|apply upsert_run].
  2: { intros x Hx. apply plan_upserts in Hx as [Hx _]. by eapply Hnames. }
  intros r w3 [-> Hw3]. intros [] now w4 [= <- <-].
  apply wp_try_bind. eapply wp_bookkeeping; [unfold reconcile_latest_key; reflexivity|]. intros w5 Hw5.
  apply wp_prog_bind. intros [] now2 w6 [= <- <-]. eapply wp_bookkeeping; [unfold reconcile_checkpoint_key; reflexivity|].
  intros w7 Hw7. apply wp_prog_bind.
  assert (carried_out local (view w) (view w7)) as Hdone.
  { exists (kvs (view w2)), (kvs (view w3)). split; [exact Hw2|]. split; [exact Hw3|].
    intros k Hk. by rewrite Hw7, Hw5. }
  destruct (rc_nats config); [intros [] r w8 [= <- <-]|]; split; done.
Qed.

(** C15: whatever the routes of the cluster are and whichever machines the node runs, a
    reconciliation that meets no failure and no other writer ends, and afterwards every
    route that names the node is the route, under its proper key, of a session running
    there, and every such session has one: a second reconciliation has nothing to do. *)
Theorem reconcile_settles vms w :
  good_names (collect_local_sessions vms) ->
  exists n w', prog_run calm_handle (reconcile_once config vms) w (replicate n tt) = Some (Ok tt, w') /\
    plan_reconcile root shards (rc_node_endpoint config) (rc_node_id config) (collect_local_sessions vms)
      (loaded_entries (view w')) = MkPlan [] [].
Proof.
  intros Hnames. pose proof (reconcile_run vms w Hnames) as Hwp.
  apply (wp_prog_total _ _ _ _ tt) in Hwp as (n & r & w' & Hrun & -> & Hdone).
  - exists n, w'. split; [done|]. by eapply after_settled.
  - intros A e w0. destruct e; cbn; eauto. destruct (ecall _ _ _). eauto.
Qed.
End CalmRun.

(** ** Reconciliation and a session that has moved

    A session can be given to another node while its machine is still running on the
    first. This file shows what the next reconciliation of the first node does, and
    evaluates runs on a concrete store. *)

Section Moved.
Context `{EtcdLaws, ReconcileJsonLaws, StdHash} (config : ReconcileConfig).
Abbreviation root := (prefix_root config).
Abbreviation shards := (rc_session_shard_count config).
Abbreviation endpoint := (rc_node_endpoint config).
Abbreviation node := (rc_node_id config).

(** The only route written for a session that no route of this node names. *)
Lemma upsert_of_moved local L r vm :
  (forall e, e ∈ L -> nr_session_id (e_route e) = nr_session_id r -> nr_endpoint (e_route e) ≠ endpoint) ->
  local !! nr_session_id r = Some vm ->
  r ∈ upserts (plan_reconcile root shards endpoint node local L) ->
  r = MkNodeRoute (nr_session_id r) vm endpoint (Some node) None.
Proof.
  intros Hmoved Hl. unfold plan_reconcile. cbn [upserts]. rewrite elem_of_app. intros [Hr|Hr].
  - apply list_elem_of_join in Hr as (l & Hr & Hx). apply list_elem_of_fmap in Hx as (x & -> & Hx).
    apply list_elem_of_fmap in Hx as (e & -> & He). apply elem_of_List_filter in He as [He Hloc].
    unfold plan_entry in Hr. repeat case_match; cbn in Hr; try by apply elem_of_nil in Hr.
    apply list_elem_of_singleton in Hr as ->. exfalso. eapply Hmoved; [done..|]. by apply String.eqb_eq.
  - apply list_elem_of_omap in Hr as ([s vm'] & Hs & Hr). apply elem_of_map_to_list in Hs.
    case_match; [done|]. injection Hr as <-. cbn in *. rewrite Hs in Hl. by injection Hl as <-.
Qed.

(** Every route of the session names another node. *)
Definition routed_elsewhere (w : CalmWorld) (s : string) : Prop :=
  forall e, e ∈ loaded_entries config (eview (cw_etcd w)) -> nr_session_id (e_route e) = s ->
    nr_endpoint (e_route e) ≠ endpoint.

(** A session whose every route names another node, and whose machine is still
    running here, is taken back: a reconciliation that meets no failure overwrites its
    route with one to this node, without comparing the ownership fence the other node
    was given. *)
Theorem moved_session_taken_back vms w s vm :
  good_names config (collect_local_sessions vms) ->
  collect_local_sessions vms !! s = Some vm ->
  routed_elsewhere w s ->
  exists n w' now, prog_run calm_handle (reconcile_once config vms) w (replicate n tt) = Some (Ok tt, w') /\
    value_of (eview (cw_etcd w')) (session_route_key root shards s) =
      Some (encode_upsert (MkNodeRoute s vm endpoint (Some node) None) now).
Proof.
  intros Hnames Hs Hmoved. pose proof (reconcile_run config vms w Hnames) as Hwp.
  apply (wp_prog_total _ _ _ _ tt) in Hwp as (n & r & w' & Hrun & -> & Hdone).
  2: { intros A e w0. destruct e; cbn; eauto. destruct (ecall _ _ _). eauto. }
  destruct (plan_covers root shards endpoint node _ (loaded_entries config (eview (cw_etcd w))) s vm Hs)
    as [(e & He & Hl & _ & Hes)|(r & Hr & Hrs)].
  { exfalso. eapply Hmoved; [done..|]. by apply String.eqb_eq. }
  pose proof (canon_visible config _ Hnames s vm Hs) as Hvis.
  destruct (after_value config _ _ _ Hdone _ Hvis) as [(r2 & now & Hr2 & Hk2 & Hv2)|(Hno & _)].
  2: { exfalso. apply (Hno r Hr). by rewrite Hrs. }
  exists n, w', now. split; [done|]. rewrite Hv2. do 2 f_equal.
  assert (nr_session_id r2 = s) as Hid.
  { pose proof (plan_upserts _ _ _ _ _ _ _ Hr2) as [Hl2 _]. symmetry.
    eapply canon_inj; [by eapply Hnames|by eapply Hnames|done]. }
  rewrite <- Hid. eapply upsert_of_moved; [|by rewrite Hid|done]. by rewrite Hid.
Qed.
End Moved.

(** ** A concrete store *)

Global Instance NodeSessionRoute_eq_dec : EqDecision NodeSessionRoute.
Proof. solve_decision. Defined.
Global Instance NodeSessionRoute_countable : Countable NodeSessionRoute :=
  inj_countable' (fun r => (nr_session_id r, nr_vm_id r, nr_endpoint r, nr_node_id r, nr_fork_id r))
    (fun '(a, b, c, d, e) => MkNodeRoute a b c d e) ltac:(by intros []).

Definition bits_reconcile : ReconcileJson := {|
  decode_node_route := fun s =>
    match decode (A := NodeSessionRoute * Z) (unbits s) with
    | Some (r, _) => Ok r
    | None => Err "not a route"%string
    end;
  encode_upsert := fun r now => bits (encode (r, now));
  summary_text := fun _ _ => "summary"%string;
  checkpoint_text := fun _ _ => "checkpoint"%string;
  json_revision := fun _ => None;
|}.

Section ReconcileExample.
#[local] Existing Instance map_etcd.
#[local] Existing Instance bits_reconcile.
#[local] Instance zero_hash : StdHash := {| default_hash := fun _ => 0%Z |}.

#[local] Instance bits_reconcile_laws : ReconcileJsonLaws.
Proof. split. intros r now. cbn. by rewrite unbits_bits, decode_encode. Qed.

Definition demo_config : ReconcileConfig := MkReconcileConfig "/c/" "n1" "http://a" false "cv" 2.
Definition demo_vms : list LocalVm :=
  [MkLocalVm "vm1" VmRunning (Some "s1"%string); MkLocalVm "vm2" VmRunning (Some "s2"%string);
   MkLocalVm "vm3" Paused (Some "s3"%string)].

(** [s1] is routed under its earlier key, [s2] to another node, [s3] is gone. *)
Definition demo_table : CalmWorld :=
  MkCalm 9 (MkKV
    {["/c/sessions/s1"%string := MkCell (encode_upsert (MkNodeRoute "s1" "vm1" "http://a" None None) 1) None;
      "/c/sessions/00/s2"%string := MkCell (encode_upsert (MkNodeRoute "s2" "vm9" "http://b" None None) 1) None;
      "/c/sessions/00/s3"%string := MkCell (encode_upsert (MkNodeRoute "s3" "vm3" "http://a" None None) 1) None]} ∅ ∅ 1).

Lemma demo_names : good_names demo_config (collect_local_sessions demo_vms).
Proof.
  intros s vm Hs.
  assert ((s, vm) ∈ [("s1", "vm1"); ("s2", "vm2")]%string) as Hin.
  { apply elem_of_map_to_list in Hs. revert Hs. vm_compute (map_to_list _). set_solver. }
  rewrite !elem_of_cons, elem_of_nil in Hin. destruct Hin as [[= -> ->]|[[= -> ->]|[]]]; vm_compute; done.
Qed.

Lemma reconcile_settles_witness :
  exists n w', prog_run calm_handle (reconcile_once demo_config demo_vms) demo_table (replicate n tt) = Some (Ok tt, w') /\
    plan_reconcile "/c" 2 "http://a" "n1" (collect_local_sessions demo_vms)
      (loaded_entries demo_config (eview (cw_etcd w'))) = MkPlan [] [].
Proof. exact (reconcile_settles demo_config demo_vms demo_table demo_names). Defined.

Lemma moved_session_taken_back_witness :
  exists n w' now, prog_run calm_handle (reconcile_once demo_config demo_vms) demo_table (replicate n tt) = Some (Ok tt, w') /\
    value_of (eview (cw_etcd w')) (session_route_key (prefix_root demo_config) (rc_session_shard_count demo_config) "s2") =
      Some (encode_upsert (MkNodeRoute "s2" "vm2" (rc_node_endpoint demo_config) (Some (rc_node_id demo_config)) None) now).
Proof.
  refine (moved_session_taken_back demo_config demo_vms demo_table "s2" "vm2" demo_names _ _).
  - vm_compute. reflexivity.
  - intros e He Hs. assert (e ∈ [MkEntry "/c/sessions/00/s2" (MkNodeRoute "s2" "vm9" "http://b" None None);
      MkEntry "/c/sessions/00/s3" (MkNodeRoute "s3" "vm3" "http://a" None None);
      MkEntry "/c/sessions/s1" (MkNodeRoute "s1" "vm1" "http://a" None None)]) as Hin.
    { revert He. vm_compute (loaded_entries _ _). done. }
    rewrite !elem_of_cons, elem_of_nil in Hin. destruct Hin as [->|[->|[->|[]]]]; [|discriminate Hs..].
    cbn. discriminate.
Defined.
End ReconcileExample.
