(* ===== verification/Placement.v ===== *)
(** * Choosing a node for a session

    [crates/sandbox/src/placement.rs] and the placement part of [distributed.rs]: the
    nodes registered in etcd are filtered by the constraints of a request and ranked.
    [f64] is IEEE binary64 ([SpecFloat]); the text of a rejection is left out. *)

From S2P Require Import Prelude ContentHash Effects Etcd ControlBus SessionRoutes Reconcile.
From Stdlib Require Import ZArith Lia Ascii SpecFloat.

(** ** Binary64 *)

Abbreviation f64 := spec_float.
(** [z as f64]: to nearest, ties to even. *)
Definition f64_of_Z (z : Z) : f64 := binary_normalize 53 1024 z 0 false.
Definition f64_div : f64 -> f64 -> f64 := SFdiv 53 1024.
Definition f64_ltb (a b : f64) : bool := match SFcompare a b with Some Lt => true | _ => false end.
Definition is_nan (a : f64) : bool := match a with S754_nan => true | _ => false end.
Definition is_finite (a : f64) : bool := match a with S754_zero _ | S754_finite _ _ _ => true | _ => false end.
Definition f64_max (a b : f64) : f64 :=
  if is_nan a then b else if is_nan b then a else if f64_ltb a b then b else a.
Definition f64_min (a b : f64) : f64 :=
  if is_nan a then b else if is_nan b then a else if f64_ltb b a then b else a.

(** [to_bits], without the sign. *)
Definition magnitude_bits (a : f64) : Z :=
  match a with
  | S754_zero _ => 0
  | S754_infinity _ => 2047 * 2 ^ 52
  | S754_nan => 2047 * 2 ^ 52 + 2 ^ 51
  | S754_finite _ m e => if Zpos m <? 2 ^ 52 then Zpos m else (e + 1075) * 2 ^ 52 + (Zpos m - 2 ^ 52)
  end%Z.
Definition sign_bit (a : f64) : bool :=
  match a with S754_zero s | S754_infinity s | S754_finite s _ _ => s | S754_nan => false end.

(** [total_cmp] compares the bits as signed integers, those of a negative number
    inverted. *)
Definition total_order_key (a : f64) : Z :=
  (if sign_bit a then - magnitude_bits a - 1 else magnitude_bits a)%Z.
Definition total_cmp (a b : f64) : comparison := Z.compare (total_order_key a) (total_order_key b).

(** ** Demand and capacity *)

Definition CAPACITY_MAX_AGE_MS : Z := 45000.
Definition GIB : Z := 1024 * 1024 * 1024.

Record ResourceDemand := MkDemand { cpu_cores : f64; memory_bytes : Z; disk_bytes : Z }.

(** The fields of [i32] arguments are positive once defaulted, so no cast wraps. *)
Definition for_vm (vcpu memory_mb disk_gb volume_gb : Z) : ResourceDemand :=
  MkDemand (f64_of_Z (Z.max vcpu 1))
    ((if 0 <? memory_mb then memory_mb else 1024) * 1024 * 1024)%Z
    (((if 0 <? disk_gb then disk_gb else 10) + Z.max volume_gb 0) * GIB)%Z.

(** The reserves of a host appear only in the text of rejections. *)
Record NodeCapacity := MkCapacity {
  active_vms : Z;
  sampled_at_unix_ms : Z;
  cpu_available : f64;
  memory_available_bytes : Z;
  disk_available_bytes : Z;
}.

Inductive Rejection := StaleTelemetry | NoCpu | NoRam | NoDisk | NoTelemetry.
Global Instance Rejection_eq_dec : EqDecision Rejection.
Proof. solve_decision. Defined.

Definition rejection (c : NodeCapacity) (demand : ResourceDemand) (now_ms : Z) : option Rejection :=
  if (sat_add now_ms 5000 <? sampled_at_unix_ms c)%Z
     || (CAPACITY_MAX_AGE_MS <? sat_sub now_ms (sampled_at_unix_ms c))%Z then Some StaleTelemetry
  else if negb (is_finite (cpu_available c)) || f64_ltb (cpu_available c) (cpu_cores demand) then Some NoCpu
  else if (memory_available_bytes c <? memory_bytes demand)%Z then Some NoRam
  else if (disk_available_bytes c <? disk_bytes demand)%Z then Some NoDisk
  else None.

Definition headroom (c : NodeCapacity) (demand : ResourceDemand) : f64 :=
  f64_min
    (f64_min (f64_div (cpu_available c) (f64_max (cpu_cores demand) (f64_of_Z 1)))
       (f64_div (f64_of_Z (memory_available_bytes c)) (f64_of_Z (Z.max (memory_bytes demand) 1))))
    (f64_div (f64_of_Z (disk_available_bytes c)) (f64_of_Z (Z.max (disk_bytes demand) 1))).

(** ** Nodes *)

Record NodeRoute := MkNodeEntry {
  n_capacity : option NodeCapacity;
  n_node_id : string;
  n_endpoint : string;
  n_max_active_vms : option Z;
  n_storage_profile : string;
  n_continuity_tier : string;
  n_shared_mount_profiles : list string;
  n_degraded_mode : bool;
  n_admission_frozen : bool;
  n_region : string;
  n_zone : string;
  n_rack : string;
}.

Class NodeJson := { decode_node_record : string -> result string NodeRoute }.

Definition STORAGE_PROFILE_LOCAL_EPHEMERAL : string := "local-ephemeral".
Definition STORAGE_PROFILE_DURABLE_SHARED : string := "durable-shared".
Definition CONTINUITY_TIER_A : string := "tier-a".
Definition CONTINUITY_TIER_B : string := "tier-b".

Definition one_of (l : list string) (s : string) : bool := existsb (String.eqb s) l.

Definition normalize_storage_profile (raw : string) : option string :=
  let s := to_ascii_lowercase (trim raw) in
  if one_of ["local-ephemeral"; "local_ephemeral"; "local"]%string s then Some STORAGE_PROFILE_LOCAL_EPHEMERAL
  else if one_of ["durable-shared"; "durable_shared"; "durable"]%string s then Some STORAGE_PROFILE_DURABLE_SHARED
  else None.

Definition normalize_continuity_tier (raw : string) : option string :=
  let s := to_ascii_lowercase (trim raw) in
  if one_of ["tier-a"; "tier_a"; "a"]%string s then Some CONTINUITY_TIER_A
  else if one_of ["tier-b"; "tier_b"; "b"]%string s then Some CONTINUITY_TIER_B
  else None.

Definition storage_of (raw : string) : string := default STORAGE_PROFILE_LOCAL_EPHEMERAL (normalize_storage_profile raw).
Definition tier_of (raw : string) : string := default CONTINUITY_TIER_A (normalize_continuity_tier raw).

Definition client_decode_node_route `{NodeJson} (key raw : string) : result SandboxError NodeRoute :=
  match decode_node_record raw with
  | Ok r =>
      let node_id := if is_empty_str (trim (n_node_id r)) then last_component key else n_node_id r in
      if is_empty_str (trim (n_endpoint r)) then Err (InvalidResponse "node record missing endpoint")
      else Ok (MkNodeEntry (n_capacity r) node_id (n_endpoint r) (n_max_active_vms r)
                 (storage_of (n_storage_profile r)) (tier_of (n_continuity_tier r))
                 (normalize_shared_mount_profiles (n_shared_mount_profiles r)) (n_degraded_mode r)
                 (n_admission_frozen r) (normalize_scope_value (n_region r)) (normalize_scope_value (n_zone r))
                 (normalize_scope_value (n_rack r)))
  | Err _ =>
      if from_utf8 raw then
        Ok (MkNodeEntry None (last_component key) raw None STORAGE_PROFILE_LOCAL_EPHEMERAL CONTINUITY_TIER_A
              [SHARED_MOUNT_PROFILE_LOCAL] true false "default" "default" "default")
      else Err (InvalidResponse "invalid node route value")
  end.

Definition decode_session_route_record `{RouteJson} (key raw : string) : result SandboxError SessionRouteRecord :=
  match decode_route_record raw with
  | Ok (MkRecord r now) =>
      Ok (MkRecord (MkRoute (if is_empty_str (trim (r_session_id r)) then last_component key else r_session_id r)
            (r_vm_id r) (r_endpoint r) (r_node_id r) (r_fork_id r) (r_ownership_fence r)
            (normalize_scope_value (r_tenant_id r)) (normalize_scope_value (r_workspace_id r))
            (r_tier_b_eligible r) (normalize_shared_mount_profiles (r_required_mount_profiles r))) now)
  | Err _ =>
      if from_utf8 raw then
        Ok (MkRecord (MkRoute (last_component key) "" raw None None None "default" "default" false []) 0)
      else Err (InvalidResponse "invalid session route value")
  end.

(** ** Filters *)

Definition count_in {A} (key : A -> option string) (l : list A) (k : string) : nat :=
  length (List.filter (fun x => bool_decide (key x = Some k)) l).

(** The counters are maps from a key to the number of routes; a missing key counts as
    zero. *)
Definition session_counts_by_endpoint (records : list SessionRouteRecord) : string -> nat :=
  count_in (fun r => let e := r_endpoint (rec_route r) in if is_empty_str (trim e) then None else Some e) records.

Definition admission_budget_violation (routes : list SessionRouteRecord) (tenant_id workspace_id : string)
    (tenant_limit workspace_limit : option nat) : option string :=
  let in_tenant r := String.eqb (r_tenant_id (rec_route r)) tenant_id in
  let in_workspace r := in_tenant r && String.eqb (r_workspace_id (rec_route r)) workspace_id in
  let tenant_sessions := length (List.filter in_tenant routes) in
  let workspace_sessions := length (List.filter in_workspace routes) in
  if match tenant_limit with Some limit => limit <=? tenant_sessions | None => false end then
    Some ("tenant admission budget exhausted (tenant_id=" +:+ tenant_id +:+ ")")
  else if match workspace_limit with Some limit => limit <=? workspace_sessions | None => false end then
    Some ("workspace admission budget exhausted (tenant_id=" +:+ tenant_id +:+ ", workspace_id=" +:+ workspace_id +:+ ")")
  else None.

Fixpoint contains (pat s : string) : bool :=
  starts_with pat s || match s with EmptyString => false | String _ s => contains pat s end.

Definition normalize_endpoint (raw : string) : result SandboxError string :=
  let value := trim raw in
  if is_empty_str value then Err (InvalidResponse "endpoint must not be empty")
  else if contains "://" value then Ok value
  else Ok ("http://" +:+ value).

Definition endpoint_excluded (endpoint : string) (excluded : list string) : bool :=
  match normalize_endpoint endpoint with Ok e => one_of excluded e | Err _ => false end.

Definition capacity_rejection (route : NodeRoute) (demand : ResourceDemand) (now_ms : Z) : option Rejection :=
  match n_capacity route with
  | Some c => rejection c demand now_ms
  | None => Some NoTelemetry
  end.

Definition used_vms (usage : string -> nat) (route : NodeRoute) : Z :=
  match n_capacity route with
  | Some c => active_vms c
  | None => Z.of_nat (usage (n_endpoint route))
  end.

(** One node of [eligible_routes_with_profile]; every [continue] is a test. *)
Definition eligible_route (usage : string -> nat) (required_storage required_tier : option string)
    (allow_tier_a_degraded : bool) (required_mounts : list string) (route : NodeRoute) : bool :=
  let tier := tier_of (n_continuity_tier route) in
  let mounts := normalize_shared_mount_profiles (n_shared_mount_profiles route) in
  if n_admission_frozen route then false
  else if match required_storage with
          | Some p => negb (String.eqb (storage_of (n_storage_profile route)) p) | None => false end then false
  else if match required_tier with Some t => negb (String.eqb tier t) | None => false end then false
  else if existsb (fun p => negb (one_of mounts p)) required_mounts then false
  else if String.eqb tier CONTINUITY_TIER_A && (negb (n_degraded_mode route) || negb allow_tier_a_degraded) then false
  else if String.eqb tier CONTINUITY_TIER_B && n_degraded_mode route then false
  else match n_max_active_vms route with Some limit => (used_vms usage route <? limit)%Z | None => true end.

Definition eligible_routes_with_profile (routes : list NodeRoute) (usage : string -> nat)
    (required_storage required_tier : option string) (allow_tier_a_degraded : bool)
    (required_mounts : list string) : list NodeRoute :=
  List.filter
    (eligible_route usage (required_storage ≫= normalize_storage_profile) (required_tier ≫= normalize_continuity_tier)
       allow_tier_a_degraded (normalize_shared_mount_profiles required_mounts)) routes.

Definition eligible_rebind_routes (routes : list NodeRoute) (session_routes : list SessionRouteRecord)
    (session_route : option SessionRoute) (from_endpoint : string)
    (required_storage required_tier : option string) (allow_tier_a_degraded : bool) : list NodeRoute :=
  let usage := session_counts_by_endpoint session_routes in
  let '(tier, allow, mounts) :=
    match session_route with
    | Some r => if r_tier_b_eligible r then (required_tier, allow_tier_a_degraded, r_required_mount_profiles r)
                else (None, true, r_required_mount_profiles r)
    | None => (None, true, [])
    end in
  List.filter (fun r => negb (String.eqb (n_endpoint r) from_endpoint))
    (eligible_routes_with_profile routes usage required_storage tier allow mounts).

(** ** Selection *)

(** A stable sort. *)
Fixpoint insert_by {A} (cmp : A -> A -> comparison) (x : A) (l : list A) : list A :=
  match l with
  | [] => [x]
  | y :: l => match cmp x y with Gt => y :: insert_by cmp x l | _ => x :: y :: l end
  end.
Definition sort_by {A} (cmp : A -> A -> comparison) (l : list A) : list A := foldr (insert_by cmp) [] l.

(** [a.then(b)] *)
Definition cmp_then (a b : comparison) : comparison := match a with Eq => b | _ => a end.

Definition str_compare (s t : string) : comparison :=
  if str_leb s t then if str_leb t s then Eq else Lt else Gt.

Fixpoint dedup_by {A} (same : A -> A -> bool) (l : list A) : list A :=
  match l with
  | [] => []
  | x :: l =>
      match dedup_by same l with
      | y :: l' => if same x y then x :: l' else x :: y :: l'
      | [] => [x]
      end
  end.

Definition node_order (a b : NodeRoute) : comparison :=
  cmp_then (str_compare (n_node_id a) (n_node_id b)) (str_compare (n_endpoint a) (n_endpoint b)).
Definition same_node (a b : NodeRoute) : bool :=
  String.eqb (n_node_id a) (n_node_id b) && String.eqb (n_endpoint a) (n_endpoint b).

Record PlacementConfig := MkPlacementConfig {
  pc_required_storage_profile : option string;
  pc_required_continuity_tier : option string;
  pc_allow_tier_a_degraded : bool;
  pc_tenant_session_quota : option nat;
  pc_workspace_session_quota : option nat;
}.

Record PlacementRequest := MkPlacementRequest {
  pr_session_id : string;
  pr_tenant_id : string;
  pr_workspace_id : string;
  pr_tier_b_eligible : bool;
  pr_required_mount_profiles : list string;
  pr_demand : ResourceDemand;
  pr_excluded_endpoints : list string;
}.

Section Select.
Context `{StdHash} (cfg : PlacementConfig) (rq : PlacementRequest).

Definition score_node (session_id node_id : string) : Z := default_hash [session_id; node_id].

(** The order of the candidates: the most headroom first, then the fewest sessions of
    the workspace on the endpoint, in the zone, in the rack, on the endpoint, then the
    score. [by_endpoint] finds the node of an endpoint. *)
Definition node_headroom (r : NodeRoute) : f64 :=
  match n_capacity r with Some c => headroom c (pr_demand rq) | None => f64_of_Z 0 end.

Definition node_by_endpoint (routes : list NodeRoute) (endpoint : string) : option NodeRoute :=
  List.find (fun r => String.eqb (n_endpoint r) endpoint) (reverse routes).

Definition zone_usage (routes : list NodeRoute) (sessions : list SessionRouteRecord) : string -> nat :=
  count_in (fun s => n_zone <$> node_by_endpoint routes (r_endpoint (rec_route s))) sessions.
Definition rack_usage (routes : list NodeRoute) (sessions : list SessionRouteRecord) : string -> nat :=
  count_in (fun s => n_rack <$> node_by_endpoint routes (r_endpoint (rec_route s))) sessions.
Definition workspace_endpoint_usage (sessions : list SessionRouteRecord) : string -> nat :=
  count_in (fun s =>
    if String.eqb (r_tenant_id (rec_route s)) (normalize_scope_value (pr_tenant_id rq))
       && String.eqb (r_workspace_id (rec_route s)) (normalize_scope_value (pr_workspace_id rq))
    then Some (r_endpoint (rec_route s)) else None) sessions.

Definition rank_cmp (routes : list NodeRoute) (sessions : list SessionRouteRecord) (a b : NodeRoute) : comparison :=
  cmp_then (total_cmp (node_headroom b) (node_headroom a))
  (cmp_then (Nat.compare (workspace_endpoint_usage sessions (n_endpoint a)) (workspace_endpoint_usage sessions (n_endpoint b)))
  (cmp_then (Nat.compare (zone_usage routes sessions (n_zone a)) (zone_usage routes sessions (n_zone b)))
  (cmp_then (Nat.compare (rack_usage routes sessions (n_rack a)) (rack_usage routes sessions (n_rack b)))
  (cmp_then (Nat.compare (session_counts_by_endpoint sessions (n_endpoint a)) (session_counts_by_endpoint sessions (n_endpoint b)))
     (Z.compare (score_node (pr_session_id rq) (n_node_id a)) (score_node (pr_session_id rq) (n_node_id b))))))).

(** The candidates that may be ranked. *)
Definition candidates (routes : list NodeRoute) (sessions : list SessionRouteRecord) (now_ms : Z) : list NodeRoute :=
  let tier := if pr_tier_b_eligible rq then pc_required_continuity_tier cfg else None in
  let allow := if pr_tier_b_eligible rq then pc_allow_tier_a_degraded cfg else true in
  List.filter (fun r =>
      negb (endpoint_excluded (n_endpoint r) (pr_excluded_endpoints rq))
      && bool_decide (capacity_rejection r (pr_demand rq) now_ms = None))
    (eligible_routes_with_profile routes (session_counts_by_endpoint sessions) (pc_required_storage_profile cfg)
       tier allow (pr_required_mount_profiles rq)).

Definition choose_node (routes : list NodeRoute) (sessions : list SessionRouteRecord) (now_ms : Z) :
    result SandboxError NodeRoute :=
  match routes with
  | [] => Err (DaemonUnavailable "distributed control has no registered nodes in etcd")
  | _ :: _ =>
      match admission_budget_violation sessions (normalize_scope_value (pr_tenant_id rq))
              (normalize_scope_value (pr_workspace_id rq)) (pc_tenant_session_quota cfg) (pc_workspace_session_quota cfg) with
      | Some violation => Err (ResourceExhausted violation)
      | None =>
          match candidates routes sessions now_ms with
          | [] => Err (ResourceExhausted "no eligible distributed nodes")
          | eligible =>
              match sort_by (rank_cmp routes sessions) eligible with
              | selected :: _ => Ok selected
              | [] => Err (DaemonUnavailable "no ranked node candidate")
              end
          end
      end
  end.
End Select.

(** ** The requests to the store *)

Inductive PlacementE : Type -> Type :=
| PlMillis : PlacementE Z
| PlEtcd {A : Type} (c : EtcdCall A) : PlacementE (result string A)
| PlEvent (result_text : string) : PlacementE (result string unit).

Abbreviation PlacementP := (prog PlacementE).

Definition placement_call {A} (what : string) (c : EtcdCall A) : PlacementP (result SandboxError A) :=
  r ← perform (PlEtcd c);
  Ret (match r with Ok a => Ok a | Err e => Err (DaemonUnavailable (what +:+ " failed: " +:+ e)) end).

Definition nodes_prefix (etcd_prefix : string) : string := etcd_prefix +:+ "/nodes/".

Section Requests.
Context `{NodeJson, RouteJson, StdHash} (etcd_prefix : string).

Definition node_routes (kvs : list (string * string)) : list NodeRoute :=
  dedup_by same_node (sort_by node_order
    (omap (fun kv => match client_decode_node_route kv.1 kv.2 with Ok r => Some r | Err _ => None end) kvs)).

Definition list_node_routes : PlacementP (result SandboxError (list NodeRoute)) :=
  listed ←? placement_call "etcd list nodes" (EGetPrefix (nodes_prefix etcd_prefix));
  Ret (Ok (node_routes listed.1)).

(** One record per session: of two, the later one, and of two written at the same time
    the one listed last. *)
Definition latest_records (kvs : list (string * string)) : gmap string SessionRouteRecord :=
  foldl (fun records kv =>
    match decode_session_route_record kv.1 kv.2 with
    | Ok record =>
        let id := r_session_id (rec_route record) in
        let should_replace := match records !! id with
                              | Some existing => (rec_updated_at_unix_ms existing <=? rec_updated_at_unix_ms record)%Z
                              | None => true
                              end in
        if should_replace then <[id := record]> records else records
    | Err _ => records
    end) ∅ kvs.

Definition session_route_records : PlacementP (result SandboxError (list SessionRouteRecord)) :=
  listed ←? placement_call "etcd list session routes" (EGetPrefix (sessions_prefix etcd_prefix));
  Ret (Ok (snd <$> map_to_list (latest_records listed.1))).

Definition select_node_for_session_with_eligibility (cfg : PlacementConfig) (rq : PlacementRequest) :
    PlacementP (result SandboxError NodeRoute) :=
  routes ←? list_node_routes;
  match routes with
  | [] => Ret (Err (DaemonUnavailable "distributed control has no registered nodes in etcd"))
  | _ :: _ =>
      sessions ←? session_route_records;
      match admission_budget_violation sessions (normalize_scope_value (pr_tenant_id rq))
              (normalize_scope_value (pr_workspace_id rq)) (pc_tenant_session_quota cfg) (pc_workspace_session_quota cfg) with
      | Some violation =>
          _ ← perform (PlEvent "budget_exhausted"); Ret (Err (ResourceExhausted violation))
      | None =>
          now_ms ← perform PlMillis;
          match candidates cfg rq routes sessions now_ms with
          | [] => _ ← perform (PlEvent "no_eligible_nodes"); Ret (Err (ResourceExhausted "no eligible distributed nodes"))
          | eligible =>
              match sort_by (rank_cmp rq routes sessions) eligible with
              | selected :: _ => _ ← perform (PlEvent "accepted"); Ret (Ok selected)
              | [] => Ret (Err (DaemonUnavailable "no ranked node candidate"))
              end
          end
      end
  end.

(** Whatever the store answers, a request that gets past it is decided by [choose_node]
    on what was listed. *)
Lemma select_chooses cfg rq :
  prog_ok (fun _ (_ : unit) _ => True) (fun _ g _ _ => g)
    (fun _ r => (exists m, r = Err (DaemonUnavailable m)) \/
       exists nodes sessions now, r = choose_node cfg rq (node_routes nodes) (snd <$> map_to_list (latest_records sessions)) now)
    tt (select_node_for_session_with_eligibility cfg rq).
Proof.
  unfold select_node_for_session_with_eligibility, list_node_routes, session_route_records.
  split; [done|]. intros [nodes|e]; [|by left; eexists]. cbn -[node_routes choose_node candidates sort_by admission_budget_violation].
  destruct (node_routes nodes.1) as [|r0 rs] eqn:En; [by left; eexists|].
  split; [done|]. intros [sessions|e]; [|by left; eexists].
  cbn -[node_routes choose_node candidates sort_by admission_budget_violation latest_records].
  destruct (admission_budget_violation _ _ _ _ _) as [v|] eqn:Ev.
  { split; [done|]. intros _. right. exists nodes.1, sessions.1, 0%Z. unfold choose_node. by rewrite En, Ev. }
  split; [done|]. intros now.
  assert (forall r, r = choose_node cfg rq (node_routes nodes.1) (snd <$> map_to_list (latest_records sessions.1)) now ->
    (exists m, r = Err (DaemonUnavailable m)) \/
       exists nodes sessions now, r = choose_node cfg rq (node_routes nodes) (snd <$> map_to_list (latest_records sessions)) now) as Hr
    by (intros r ->; right; by eexists _, _, _).
  unfold choose_node in Hr. rewrite En, Ev in Hr.
  destruct (candidates _ _ _ _ _) as [|c cs]; [split; [done|]; intros _; by apply Hr|].
  destruct (sort_by _ _); [left; by eexists|]. split; [done|]. intros _. by apply Hr.
Qed.
End Requests.

(** ** What a placement promises *)

(** The host has room: its telemetry is recent and each resource suffices. *)
Definition has_room (c : NodeCapacity) (demand : ResourceDemand) (now_ms : Z) : Prop :=
  (sampled_at_unix_ms c <= sat_add now_ms 5000)%Z /\ (now_ms - sampled_at_unix_ms c <= CAPACITY_MAX_AGE_MS)%Z /\
  is_finite (cpu_available c) = true /\ f64_ltb (cpu_available c) (cpu_cores demand) = false /\
  (memory_bytes demand <= memory_available_bytes c)%Z /\ (disk_bytes demand <= disk_available_bytes c)%Z.

Lemma rejection_none c demand now_ms : rejection c demand now_ms = None <-> has_room c demand now_ms.
Proof.
  unfold rejection, has_room, sat_sub. repeat case_match; rewrite ?orb_true_iff, ?orb_false_iff in *; split; try done;
    intros; destruct_and?; destruct_or?; rewrite ?Z.ltb_lt, ?Z.ltb_ge, ?negb_true_iff, ?negb_false_iff in *;
    try (unfold CAPACITY_MAX_AGE_MS in *; lia); try congruence.
  split_and!; try done; unfold CAPACITY_MAX_AGE_MS in *; lia.
Qed.

Section Promise.
Context `{StdHash} (cfg : PlacementConfig) (rq : PlacementRequest).

(** A node that may take the session. *)
Record admissible (routes : list NodeRoute) (sessions : list SessionRouteRecord) (now_ms : Z) (r : NodeRoute) : Prop := {
  ad_registered : r ∈ routes;
  ad_open : n_admission_frozen r = false;
  ad_storage : forall p, pc_required_storage_profile cfg ≫= normalize_storage_profile = Some p ->
    storage_of (n_storage_profile r) = p;
  ad_tier : pr_tier_b_eligible rq = true -> forall t,
    pc_required_continuity_tier cfg ≫= normalize_continuity_tier = Some t -> tier_of (n_continuity_tier r) = t;
  ad_mounts : forall p, p ∈ normalize_shared_mount_profiles (pr_required_mount_profiles rq) ->
    p ∈ normalize_shared_mount_profiles (n_shared_mount_profiles r);
  ad_tier_a : tier_of (n_continuity_tier r) = CONTINUITY_TIER_A ->
    n_degraded_mode r = true /\ (pr_tier_b_eligible rq = true -> pc_allow_tier_a_degraded cfg = true);
  ad_tier_b : tier_of (n_continuity_tier r) = CONTINUITY_TIER_B -> n_degraded_mode r = false;
  ad_limit : forall limit, n_max_active_vms r = Some limit ->
    (used_vms (session_counts_by_endpoint sessions) r < limit)%Z;
  ad_not_excluded : endpoint_excluded (n_endpoint r) (pr_excluded_endpoints rq) = false;
  ad_room : exists c, n_capacity r = Some c /\ has_room c (pr_demand rq) now_ms;
}.

Lemma one_of_spec l s : one_of l s = true <-> s ∈ l.
Proof.
  unfold one_of. rewrite existsb_exists. setoid_rewrite <- list_elem_of_In. setoid_rewrite String.eqb_eq. naive_solver.
Qed.

Lemma if_false_true (b c : bool) : (if b then false else c) = true <-> b = false /\ c = true.
Proof. destruct b; naive_solver. Qed.

Lemma mismatch_false o s : (match o with Some p => negb (String.eqb s p) | None => false end) = false <-> forall p, o = Some p -> s = p.
Proof. destruct o as [p|]; [|naive_solver]. rewrite negb_false_iff, String.eqb_eq. naive_solver. Qed.

Lemma missing_false mounts required :
  existsb (fun p => negb (one_of mounts p)) required = false <-> forall p, p ∈ required -> p ∈ mounts.
Proof.
  rewrite <- not_true_iff_false, existsb_exists. setoid_rewrite <- list_elem_of_In. split.
  - intros Hno p Hp. apply one_of_spec. destruct (one_of mounts p) eqn:E; [done|]. exfalso. apply Hno. exists p. by rewrite E.
  - intros Hall (p & Hp & Hn). apply negb_true_iff in Hn. apply Hall, one_of_spec in Hp. congruence.
Qed.

Lemma eligible_route_spec usage storage tier allow mounts r :
  eligible_route usage storage tier allow mounts r = true <->
  n_admission_frozen r = false /\ (forall p, storage = Some p -> storage_of (n_storage_profile r) = p) /\
  (forall t, tier = Some t -> tier_of (n_continuity_tier r) = t) /\
  (forall p, p ∈ mounts -> p ∈ normalize_shared_mount_profiles (n_shared_mount_profiles r)) /\
  (tier_of (n_continuity_tier r) = CONTINUITY_TIER_A -> n_degraded_mode r = true /\ allow = true) /\
  (tier_of (n_continuity_tier r) = CONTINUITY_TIER_B -> n_degraded_mode r = false) /\
  (forall limit, n_max_active_vms r = Some limit -> (used_vms usage r < limit)%Z).
Proof.
  unfold eligible_route. rewrite !if_false_true, !mismatch_false, missing_false.
  rewrite !andb_false_iff, orb_false_iff, !negb_false_iff, <- !not_true_iff_false, !String.eqb_eq.
  destruct (n_max_active_vms r) as [limit|]; [rewrite Z.ltb_lt|];
    destruct (decide (tier_of (n_continuity_tier r) = CONTINUITY_TIER_A)), (decide (tier_of (n_continuity_tier r) = CONTINUITY_TIER_B));
    naive_solver.
Qed.

Lemma elem_of_candidates routes sessions now_ms r :
  r ∈ candidates cfg rq routes sessions now_ms <-> admissible routes sessions now_ms r.
Proof.
  unfold candidates, eligible_routes_with_profile. rewrite elem_of_List_filter, elem_of_List_filter, eligible_route_spec,
    andb_true_iff, negb_true_iff, bool_decide_eq_true. unfold capacity_rejection.
  assert (match n_capacity r with Some c => rejection c (pr_demand rq) now_ms | None => Some NoTelemetry end = None <->
    exists c, n_capacity r = Some c /\ has_room c (pr_demand rq) now_ms) as ->.
  { destruct (n_capacity r) as [c|]; [rewrite rejection_none|]; naive_solver. }
  split.
  - intros ((Hr & Hf & Hs & Ht & Hm & Ha & Hb & Hl) & Hx & Hc). split; try done.
    + intros E. by rewrite E in Ht.
    + intros E. destruct (Ha E). split; [done|]. intros E'. by rewrite E' in *.
  - intros [Hr Hf Hs Ht Hm Ha Hb Hl Hx Hc]. split_and!; try done.
    + intros t Hq. destruct (pr_tier_b_eligible rq) eqn:E; [by apply Ht|done].
    + intros E. destruct (Ha E) as [? Hd]. split; [done|]. destruct (pr_tier_b_eligible rq); [by apply Hd|done].
Qed.

(** *** The order *)

Fixpoint lex (l m : list Z) : comparison :=
  match l, m with
  | x :: l, y :: m => cmp_then (Z.compare x y) (lex l m)
  | _, _ => Eq
  end.

Lemma lex_opp l : forall m, lex m l = CompOpp (lex l m).
Proof.
  induction l as [|x l IH]; intros [|y m]; cbn; try done. rewrite Z.compare_antisym, IH.
  by destruct (Z.compare x y), (lex l m).
Qed.

Lemma lex_trans l : forall m k, length l = length m -> length m = length k ->
  lex l m ≠ Gt -> lex m k ≠ Gt -> lex l k ≠ Gt.
Proof.
  induction l as [|x l IH]; intros [|y m] [|z k]; cbn; try done. intros Hlm Hmk.
  assert (lex l m ≠ Gt -> lex m k ≠ Gt -> lex l k ≠ Gt) as Hrec by (apply IH; lia).
  destruct (Z.compare_spec x y), (Z.compare_spec y z), (Z.compare_spec x z); cbn; try done; lia || naive_solver.
Qed.

Definition rank_key (routes : list NodeRoute) (sessions : list SessionRouteRecord) (r : NodeRoute) : list Z :=
  [- total_order_key (node_headroom rq r); Z.of_nat (workspace_endpoint_usage rq sessions (n_endpoint r));
   Z.of_nat (zone_usage routes sessions (n_zone r)); Z.of_nat (rack_usage routes sessions (n_rack r));
   Z.of_nat (session_counts_by_endpoint sessions (n_endpoint r)); score_node (pr_session_id rq) (n_node_id r)]%Z.

Lemma rank_cmp_lex routes sessions a b : rank_cmp rq routes sessions a b = lex (rank_key routes sessions a) (rank_key routes sessions b).
Proof.
  unfold rank_cmp, rank_key, total_cmp. cbn [lex]. rewrite !Nat2Z.inj_compare, Z.compare_opp.
  repeat f_equal. by destruct (Z.compare _ _).
Qed.

Lemma insert_by_head {A} (cmp : A -> A -> comparison) x l :
  (forall a b, cmp b a = CompOpp (cmp a b)) -> (forall a b c, cmp a b ≠ Gt -> cmp b c ≠ Gt -> cmp a c ≠ Gt) ->
  (forall h, head l = Some h -> forall y, y ∈ l -> cmp h y ≠ Gt) ->
  exists h, head (insert_by cmp x l) = Some h /\ forall y, y ∈ x :: l -> cmp h y ≠ Gt.
Proof.
  intros Hopp Htr Hl. assert (forall a, cmp a a ≠ Gt) as Hrefl.
  { intros a E. specialize (Hopp a a). rewrite E in Hopp. done. }
  destruct l as [|h l]; cbn; [exists x; split; [done|]; intros y Hy; apply list_elem_of_singleton in Hy as ->; apply Hrefl|].
  specialize (Hl h eq_refl). destruct (cmp x h) eqn:Ex; cbn; (eexists; split; [reflexivity|]); intros y [->|Hy]%elem_of_cons;
    try apply Hrefl; try (by apply Hl); try (eapply Htr; [|by apply Hl]; by rewrite Ex).
  rewrite Hopp, Ex. done.
Qed.

Lemma elem_of_insert_by {A} (cmp : A -> A -> comparison) x y l : y ∈ insert_by cmp x l <-> y = x \/ y ∈ l.
Proof.
  induction l as [|z l IH]; cbn; [rewrite list_elem_of_singleton, elem_of_nil; naive_solver|].
  destruct (cmp x z); rewrite !elem_of_cons, ?IH; naive_solver.
Qed.

Lemma elem_of_sort_by {A} (cmp : A -> A -> comparison) y l : y ∈ sort_by cmp l <-> y ∈ l.
Proof. induction l as [|x l IH]; cbn; [done|]. rewrite elem_of_insert_by, elem_of_cons, IH. done. Qed.

Lemma sort_by_head {A} (cmp : A -> A -> comparison) l h :
  (forall a b, cmp b a = CompOpp (cmp a b)) -> (forall a b c, cmp a b ≠ Gt -> cmp b c ≠ Gt -> cmp a c ≠ Gt) ->
  head (sort_by cmp l) = Some h -> forall y, y ∈ l -> cmp h y ≠ Gt.
Proof.
  intros Hopp Htr. revert h. induction l as [|x l IH]; intros h; [done|].
  change (sort_by cmp (x :: l)) with (insert_by cmp x (sort_by cmp l)).
  destruct (insert_by_head cmp x (sort_by cmp l)) as (h' & Hh & Hmin); [done..| |].
  { intros h0 Hh0 y Hy. eapply IH; [done|]. by apply elem_of_sort_by in Hy. }
  rewrite Hh. intros [= <-] y [->|Hy]%elem_of_cons; apply Hmin; [set_solver|].
  apply elem_of_cons. right. by apply elem_of_sort_by.
Qed.

(** As many sessions as a quota allows are placed already: of the tenant, or of the
    workspace in it. *)
Definition quota_used_up (sessions : list SessionRouteRecord) : Prop :=
  let tenant_id := normalize_scope_value (pr_tenant_id rq) in
  let workspace_id := normalize_scope_value (pr_workspace_id rq) in
  let of_tenant (r : SessionRouteRecord) := r_tenant_id (rec_route r) = tenant_id in
  let of_workspace (r : SessionRouteRecord) := of_tenant r /\ r_workspace_id (rec_route r) = workspace_id in
  (exists limit, pc_tenant_session_quota cfg = Some limit /\ limit <= length (filter of_tenant sessions)) \/
  (exists limit, pc_workspace_session_quota cfg = Some limit /\ limit <= length (filter of_workspace sessions)).

Lemma length_filter_decide {A} (Q : A -> Prop) `{forall x, Decision (Q x)} (f : A -> bool) l :
  (forall x, f x = true <-> Q x) -> length (List.filter f l) = length (filter Q l).
Proof.
  intros Hf. induction l as [|x l IH]; [done|]. rewrite filter_cons. cbn. pose proof (Hf x) as Hx.
  destruct (f x); case_decide; cbn; rewrite ?IH; first [done | naive_solver].
Qed.

Lemma limit_reached (limit : option nat) n :
  match limit with Some limit => limit <=? n | None => false end = true
  <-> exists l, limit = Some l /\ l <= n.
Proof. destruct limit as [l|]; [rewrite Nat.leb_le|]; naive_solver. Qed.

Lemma budget_exact sessions :
  is_Some (admission_budget_violation sessions (normalize_scope_value (pr_tenant_id rq))
    (normalize_scope_value (pr_workspace_id rq)) (pc_tenant_session_quota cfg) (pc_workspace_session_quota cfg))
  <-> quota_used_up sessions.
Proof.
  unfold admission_budget_violation, quota_used_up. cbv zeta.
  rewrite (length_filter_decide (fun r => r_tenant_id (rec_route r) = normalize_scope_value (pr_tenant_id rq)))
    by (intros r; apply String.eqb_eq).
  rewrite (length_filter_decide (fun r => r_tenant_id (rec_route r) = normalize_scope_value (pr_tenant_id rq) /\
      r_workspace_id (rec_route r) = normalize_scope_value (pr_workspace_id rq)))
    by (intros r; rewrite andb_true_iff, !String.eqb_eq; done).
  rewrite <- !limit_reached.
  destruct (match pc_tenant_session_quota cfg with Some _ => _ | None => _ end); [split; eauto|].
  destruct (match pc_workspace_session_quota cfg with Some _ => _ | None => _ end); [split; eauto|].
  split; [by intros [? ?]|intros [?|?]; done].
Qed.

(** C17: a placement that succeeds returns a registered node that meets every constraint
    of the request (open for admission, storage profile, continuity tier and degraded
    policy, mounts, limit of machines, not excluded, recent telemetry with enough of
    each resource), no admissible node ranks before it, and the sessions placed so far
    are below the quotas of the tenant and of the workspace; it is refused as exhausted
    only when a quota is used up or no node is admissible, and as unavailable only when
    no node is registered. *)
Theorem placement_exact routes sessions now_ms :
  match choose_node cfg rq routes sessions now_ms with
  | Ok selected =>
      routes ≠ [] /\ ~ quota_used_up sessions /\ admissible routes sessions now_ms selected /\
      forall r, admissible routes sessions now_ms r -> rank_cmp rq routes sessions selected r ≠ Gt
  | Err (ResourceExhausted _) =>
      routes ≠ [] /\ (quota_used_up sessions \/ forall r, ~ admissible routes sessions now_ms r)
  | Err _ => routes = []
  end.
Proof.
  unfold choose_node. destruct routes as [|r0 routes0] eqn:Er; [done|]. rewrite <- Er.
  destruct (admission_budget_violation _ _ _ _ _) as [v|] eqn:Ev.
  { split; [by rewrite Er|]. left. apply budget_exact. by rewrite Ev. }
  assert (~ quota_used_up sessions) as Hq.
  { rewrite <- budget_exact, Ev. by intros [? ?]. }
  destruct (candidates cfg rq routes sessions now_ms) as [|c cs] eqn:Ec.
  - split; [by rewrite Er|]. right. intros r Hr. apply elem_of_candidates in Hr. rewrite Ec in Hr. by apply elem_of_nil in Hr.
  - destruct (sort_by (rank_cmp rq routes sessions) (c :: cs)) as [|selected rest] eqn:Es.
    { exfalso. assert (c ∈ sort_by (rank_cmp rq routes sessions) (c :: cs)) as Hc by (apply elem_of_sort_by; set_solver).
      rewrite Es in Hc. by apply elem_of_nil in Hc. }
    split; [by rewrite Er|]. split; [done|]. split.
    + apply elem_of_candidates. rewrite Ec. apply (elem_of_sort_by (rank_cmp rq routes sessions)). rewrite Es. set_solver.
    + intros r Hr. apply elem_of_candidates in Hr. rewrite Ec in Hr. revert r Hr.
      apply sort_by_head; [| |by rewrite Es].
      * intros a b. rewrite !rank_cmp_lex. apply lex_opp.
      * intros a b d. rewrite !rank_cmp_lex. by apply lex_trans.
Qed.
End Promise.
