(* ===== verification/Retry.v ===== *)
(** * Retries with exponential backoff

    [rust/src/retry.rs] and the errors of [rust/src/error.rs]: the loop around every
    request to a model provider. Durations are nanoseconds; [f64] is binary64 as in
    [Placement.v]. The operation that is retried is a parameter. *)

From S2P Require Import Prelude ContentHash Effects Etcd ControlBus SessionRoutes Reconcile Placement.
From Stdlib Require Import ZArith Lia SpecFloat.

(** ** Errors *)

(** The payloads of foreign errors are their texts. *)
Inductive Error :=
| ClaudeSession (text : string)
| Inference (text : string)
| ContextLengthExceeded (text : string)
| RetriesExceeded (text : string)
| NonRetryable (text : string)
| CodexUsageLimit (message : string) (reached_type : option string) (resets_at_epoch_sec : option Z)
| Parse (text : string)
| Validation (text : string)
| ToolNotFound (text : string)
| Network (text : string)
| Json (text : string)
| Utf8 (text : string)
| FromUtf8 (text : string)
| Io (text : string)
| InvalidProvider (text : string)
| MissingApiKey (text : string)
| RuntimeNotUsed.

Definition is_retryable (e : Error) : bool :=
  match e with Inference _ | Network _ | Io _ => true | _ => false end.
Definition is_retries_exceeded (e : Error) : bool := match e with RetriesExceeded _ => true | _ => false end.
Definition is_incomplete (e : Error) : bool := match e with Parse m => contains "incomplete" m | _ => false end.

Definition error_text (e : Error) : string :=
  match e with
  | ClaudeSession t => t
  | Inference t => "Inference error: " +:+ t
  | ContextLengthExceeded t => "Context length exceeded: " +:+ t
  | RetriesExceeded t => "Retries exceeded: " +:+ t
  | NonRetryable t => "Non-retryable error: " +:+ t
  | CodexUsageLimit m _ _ => m
  | Parse t => "Parse error: " +:+ t
  | Validation t => "Validation error: " +:+ t
  | ToolNotFound t => "Tool not found: " +:+ t
  | Network t => "Network error: " +:+ t
  | Json t => "JSON error: " +:+ t
  | Utf8 t => "UTF-8 error: " +:+ t
  | FromUtf8 t => "UTF-8 conversion error: " +:+ t
  | Io t => "IO error: " +:+ t
  | InvalidProvider t => "Invalid provider: " +:+ t
  | MissingApiKey t => "Missing API key: " +:+ t
  | RuntimeNotUsed => "Runtime was not used in agentic function"
  end.

(** ** Durations *)

Definition NANOS : Z := 1000000000.
Definition MAX_DURATION : Z := (2 ^ 64 - 1) * NANOS + 999999999.

(** [Duration::as_secs_f64] *)
Definition as_secs_f64 (d : Z) : f64 :=
  SFadd 53 1024 (f64_of_Z (d / NANOS)%Z) (f64_div (f64_of_Z (d mod NANOS)%Z) (f64_of_Z NANOS)).

(** Half to even. *)
Definition round_ratio (num den : Z) : Z :=
  let q := (num / den)%Z in
  let r := (num mod den)%Z in
  (if (2 * r <? den) then q else if (den <? 2 * r) then q + 1 else if Z.even q then q else q + 1)%Z.

(** [Duration::from_secs_f64]; [None] is the panic on a negative, infinite, undefined or
    too large number. *)
Definition from_secs_f64 (x : f64) : option Z :=
  match x with
  | S754_zero _ => Some 0%Z
  | S754_finite false m e =>
      let n := (if 0 <=? e then Zpos m * 2 ^ e * NANOS else round_ratio (Zpos m * NANOS) (2 ^ (- e)))%Z in
      if (n <=? MAX_DURATION)%Z then Some n else None
  | _ => None
  end.

Definition f64_mul : f64 -> f64 -> f64 := SFmul 53 1024.

(** ** The loop *)

Record RetryConfig := MkRetryConfig {
  max_retries : Z; (* u32 *)
  initial_backoff : Z;
  max_backoff : Z;
  multiplier : f64;
  max_time : Z;
}.

Definition default_retry_config : RetryConfig :=
  MkRetryConfig 3 (100 * 1000000) (60 * NANOS) (f64_of_Z 2) (60 * NANOS).

Definition with_max_retries (n : Z) (c : RetryConfig) : RetryConfig :=
  MkRetryConfig n (initial_backoff c) (max_backoff c) (multiplier c) (max_time c).
Definition with_initial_backoff (d : Z) (c : RetryConfig) : RetryConfig :=
  MkRetryConfig (max_retries c) d (max_backoff c) (multiplier c) (max_time c).
Definition with_max_backoff (d : Z) (c : RetryConfig) : RetryConfig :=
  MkRetryConfig (max_retries c) (initial_backoff c) d (multiplier c) (max_time c).
Definition with_multiplier (x : f64) (c : RetryConfig) : RetryConfig :=
  MkRetryConfig (max_retries c) (initial_backoff c) (max_backoff c) x (max_time c).
Definition with_max_time (d : Z) (c : RetryConfig) : RetryConfig :=
  MkRetryConfig (max_retries c) (initial_backoff c) (max_backoff c) (multiplier c) d.

Inductive RetryE (T : Type) : Type -> Type :=
| ReElapsed : RetryE T Z
| ReAttempt : RetryE T (result Error T)
| ReSleep (d : Z) : RetryE T unit.
Arguments ReElapsed {T}.
Arguments ReAttempt {T}.
Arguments ReSleep {T} d.

Inductive RetryOutcome (T : Type) := Returned (r : result Error T) | Panicked | OutOfFuel.
Arguments Returned {T} r.
Arguments Panicked {T}.
Arguments OutOfFuel {T}.

Definition next_backoff (c : RetryConfig) (current : Z) : option Z :=
  from_secs_f64 (f64_min (f64_mul (as_secs_f64 current) (multiplier c)) (as_secs_f64 (max_backoff c))).

(** [attempt += 1] on a [u32]: a build with overflow checks panics ([None]), one
    without wraps around. *)
Definition add_one_u32 (checked : bool) (n : Z) : option Z :=
  if (n =? U32_MAX)%Z then (if checked then None else Some 0%Z) else Some (n + 1)%Z.

Fixpoint retry_loop {T} (checked : bool) (fuel : nat) (c : RetryConfig) (attempt : Z) (current_backoff : Z)
    (last_error : string) : prog (RetryE T) (RetryOutcome T) :=
  match fuel with
  | O => Ret OutOfFuel
  | S fuel =>
      elapsed ← perform ReElapsed;
      if (max_time c <? elapsed)%Z then Ret (Returned (Err (RetriesExceeded last_error)))
      else
        r ← perform ReAttempt;
        match r with
        | Ok result => Ret (Returned (Ok result))
        | Err err =>
            if negb (is_retryable err) then Ret (Returned (Err err))
            else
              let last_error := error_text err in
              match add_one_u32 checked attempt with
              | None => Ret Panicked
              | Some attempt =>
                  if (max_retries c <? attempt)%Z then Ret (Returned (Err (RetriesExceeded last_error)))
                  else
                    _ ← perform (ReSleep current_backoff);
                    match next_backoff c current_backoff with
                    | None => Ret Panicked
                    | Some backoff => retry_loop checked fuel c attempt backoff last_error
                    end
              end
        end
  end.

Definition retry_with_backoff {T} (checked : bool) (c : RetryConfig) : prog (RetryE T) (RetryOutcome T) :=
  retry_loop checked (Z.to_nat (max_retries c) + 1) c 0 (initial_backoff c) "unknown error".

(** ** What a run did *)

Record RetryTrace := MkTrace { tr_attempts : list (option Error); tr_sleeps : list Z; tr_elapsed : list Z }.

Definition retry_upd {T} (A : Type) (g : RetryTrace) (e : RetryE T A) : A -> RetryTrace :=
  match e in RetryE _ A return A -> RetryTrace with
  | ReElapsed => fun t => MkTrace (tr_attempts g) (tr_sleeps g) (tr_elapsed g ++ [t])
  | ReAttempt => fun r => MkTrace (tr_attempts g ++ [match r with Ok _ => None | Err e => Some e end]) (tr_sleeps g) (tr_elapsed g)
  | ReSleep d => fun _ => MkTrace (tr_attempts g) (tr_sleeps g ++ [d]) (tr_elapsed g)
  end.

Definition any_retry {T} (A : Type) (_ : RetryTrace) (_ : RetryE T A) : Prop := True.

(** After the waits [sleeps] the next one is [next]. *)
Inductive scheduled (c : RetryConfig) : list Z -> Z -> Prop :=
| scheduled_start : scheduled c [] (initial_backoff c)
| scheduled_next sleeps d next :
    scheduled c sleeps d -> next_backoff c d = Some next -> scheduled c (sleeps ++ [d]) next.

(** Before the attempt after [n]: every error was retryable, and one wait followed
    each, as the backoff has it. *)
Definition all_retried (c : RetryConfig) (g : RetryTrace) (n backoff : Z) : Prop :=
  Z.of_nat (length (tr_attempts g)) = n /\ Z.of_nat (length (tr_sleeps g)) = n /\
  (forall a, a ∈ tr_attempts g -> exists e, a = Some e /\ is_retryable e = true) /\
  scheduled c (tr_sleeps g) backoff.

Definition last_text (g : RetryTrace) : string :=
  match last (tr_attempts g) with Some (Some e) => error_text e | _ => "unknown error" end.

(** How a run may end. The panics: the backoff after the last wait is not a duration,
    or the count of attempts overflows. *)
Definition retry_outcome {T} (checked : bool) (c : RetryConfig) (g : RetryTrace) (o : RetryOutcome T) : Prop :=
  (Z.of_nat (length (tr_attempts g)) <= max_retries c + 1)%Z /\
  (Z.of_nat (length (tr_sleeps g)) <= max_retries c)%Z /\
  match o with
  | OutOfFuel => False
  | Panicked =>
      (exists sleeps d, tr_sleeps g = sleeps ++ [d] /\ scheduled c sleeps d /\ next_backoff c d = None) \/
      (checked = true /\ max_retries c = U32_MAX /\ Z.of_nat (length (tr_attempts g)) = (U32_MAX + 1)%Z)
  | Returned r =>
      (exists next, scheduled c (tr_sleeps g) next) /\
      match r with
      | Ok _ => last (tr_attempts g) = Some None
      | Err e =>
          (last (tr_attempts g) = Some (Some e) /\ is_retryable e = false) \/
          (e = RetriesExceeded (last_text g) /\
           (Z.of_nat (length (tr_attempts g)) = (max_retries c + 1)%Z \/
            exists t, last (tr_elapsed g) = Some t /\ (max_time c < t)%Z))
      end
  end.

Lemma after_op {T A R} (e : RetryE T A) (k : A -> prog (RetryE T) R) g Q :
  (forall a, prog_ok any_retry retry_upd Q (retry_upd _ g e a) (k a)) ->
  prog_ok any_retry retry_upd Q g (perform e ≫= k).
Proof. by split. Qed.

Lemma snoc_length_Z {A} (l : list A) x : Z.of_nat (length (l ++ [x])) = (Z.of_nat (length l) + 1)%Z.
Proof. rewrite length_app. cbn. lia. Qed.

Lemma retry_loop_ends {T} checked c fuel : (max_retries c <= U32_MAX)%Z ->
  (checked = true \/ max_retries c < U32_MAX)%Z -> forall attempt backoff err g,
  (Z.of_nat fuel + attempt = max_retries c + 1)%Z -> all_retried c g attempt backoff -> err = last_text g ->
  (attempt <= max_retries c)%Z ->
  prog_ok (any_retry (T := T)) retry_upd (retry_outcome checked c) g (retry_loop checked fuel c attempt backoff err).
Proof.
  intros Hu Hck. induction fuel as [|fuel IH]; intros attempt backoff err g Hf (Ha & Hs & Hall & Hsch) Herr Hle; [lia|].
  apply after_op. intros t. cbn [retry_upd]. destruct (Z.ltb_spec (max_time c) t) as [Ht|Ht].
  { split_and!; cbn [tr_attempts tr_sleeps]; [lia|lia|by exists backoff|]. right. split; [by rewrite Herr|].
    right. exists t. split; [apply last_snoc|done]. }
  apply after_op. intros [res|e]; unfold retry_outcome; cbn [retry_upd tr_attempts tr_sleeps tr_elapsed].
  { split_and!; cbn [tr_attempts tr_sleeps]; rewrite ?snoc_length_Z; [lia|lia|by exists backoff|apply last_snoc]. }
  destruct (is_retryable e) eqn:Er; cbn [negb].
  2: { split_and!; cbn [tr_attempts tr_sleeps]; rewrite ?snoc_length_Z; [lia|lia|by exists backoff|].
       left. split; [apply last_snoc|done]. }
  unfold add_one_u32. destruct (Z.eqb_spec attempt U32_MAX) as [Eu|Eu].
  { destruct checked; [|destruct Hck; [done|lia]].
    split_and!; cbn [tr_attempts tr_sleeps]; rewrite ?snoc_length_Z; [lia|lia|right]. split_and!; [done|lia|lia]. }
  destruct (Z.ltb_spec (max_retries c) (attempt + 1)) as [Hmax|Hmax].
  { split_and!; cbn [tr_attempts tr_sleeps]; rewrite ?snoc_length_Z; [lia|lia|by exists backoff|]. right.
    unfold last_text. cbn [tr_attempts]. rewrite last_snoc. split; [done|]. left. lia. }
  apply after_op. intros []. cbn [retry_upd tr_attempts tr_sleeps tr_elapsed].
  destruct (next_backoff c backoff) as [b|] eqn:Eb.
  - apply IH; [lia| | |lia].
    + split_and!; cbn [tr_attempts tr_sleeps]; rewrite ?snoc_length_Z; [lia|lia| |by econstructor].
      intros a [Hin|Hin]%elem_of_app; [by apply Hall|]. apply list_elem_of_singleton in Hin as ->. eauto.
    + unfold last_text. cbn. by rewrite last_snoc.
  - split_and!; cbn [tr_attempts tr_sleeps]; rewrite ?snoc_length_Z; [lia|lia|left]. by eexists _, _.
Qed.

(** C35: the loop ends whatever the operation answers and however time passes, after at
    most [max_retries + 1] calls and [max_retries] waits, which follow the backoff from
    [initial_backoff]. It returns the operation's result, its first error that may not
    be retried, or [RetriesExceeded] with the text of the last error, the latter only
    once all attempts are used or the time is over; or it panics because the backoff
    computed after the last wait is not a duration (negative, undefined or too long).
    With [max_retries = u32::MAX] the count of attempts overflows: a build with overflow
    checks ends with that panic, and for a build without them nothing is claimed. *)
Theorem retry_terminates {T} checked c :
  (0 <= max_retries c <= U32_MAX)%Z -> (checked = true \/ max_retries c < U32_MAX)%Z ->
  prog_ok (any_retry (T := T)) retry_upd (retry_outcome checked c) (MkTrace [] [] []) (retry_with_backoff checked c).
Proof.
  intros Hm Hck. apply retry_loop_ends; [lia|done|lia| |done|lia]. split_and!; [done|done| |constructor].
  intros a Ha. by apply elem_of_nil in Ha.
Qed.

Lemma retry_terminates_witness :
  prog_ok (any_retry (T := nat)) retry_upd (retry_outcome false default_retry_config) (MkTrace [] [] [])
    (retry_with_backoff false default_retry_config)
  /\ scheduled default_retry_config [100000000; 200000000]%Z 400000000%Z.
Proof.
  split; [apply retry_terminates; cbn; [unfold U32_MAX; lia|right; unfold U32_MAX; lia]|].
  apply (scheduled_next _ [100000000%Z] 200000000%Z); [apply (scheduled_next _ [] 100000000%Z); [constructor|]|];
    vm_compute; reflexivity.
Defined.

(** Without overflow checks and with [max_retries = u32::MAX], the count returns to zero
    and the limit is never reached. *)
Lemma unchecked_count_wraps :
  add_one_u32 false U32_MAX = Some 0%Z /\ forall n, (0 <= n <= U32_MAX)%Z -> (U32_MAX <? n)%Z = false.
Proof. split; [reflexivity|]. intros n Hn. apply Z.ltb_ge. lia. Qed.

(** The default configuration waits 100, 200 and 400 milliseconds. *)
Lemma default_backoffs :
  next_backoff default_retry_config 100000000 = Some 200000000%Z /\
  next_backoff default_retry_config 200000000 = Some 400000000%Z /\
  next_backoff default_retry_config 40000000000 = Some 60000000000%Z.
Proof. vm_compute. done. Qed.
