(* ===== verification/GuestExec.v ===== *)
(** * Commands inside a machine

    Two pieces of the proxy that runs commands in a guest ([portproxy/src]): the tracker
    that hands the exit status of a reaped child to whoever waits for it, in whichever
    order the two come ([child_tracker.rs]), and the control channel that delivers
    signals at most once and in order across owners ([exec_control.rs]). *)

From S2P Require Import Prelude.
From Stdlib Require Import ZArith Lia.

(** ** Exit statuses of children *)

Module Children.

Inductive ChildExit := Exited (code : Z) | Signaled (signal : Z).
Global Instance ChildExit_eq_dec : EqDecision ChildExit.
Proof. solve_decision. Defined.

Definition protocol_code (e : ChildExit) : Z := match e with Exited code => code | Signaled signal => signal end.
Definition interactive_code (e : ChildExit) : Z := match e with Exited code => code | Signaled _ => (-1)%Z end.

Definition MAX_UNCLAIMED_EXITS : Z := 1024.

(** [waiters] holds the sender of each waiter, here its number. *)
Record ChildTrackerState := MkTracker {
  waiters : gmap Z nat;
  unclaimed_exits : gmap Z ChildExit;
  unclaimed_order : list Z;
}.
Definition new_tracker : ChildTrackerState := MkTracker ∅ ∅ [].

Definition without (pid : Z) (order : list Z) : list Z := filter (fun queued_pid => queued_pid ≠ pid) order.

Fixpoint evict (exits : gmap Z ChildExit) (order : list Z) : gmap Z ChildExit * list Z :=
  match order with
  | old_pid :: rest => if (MAX_UNCLAIMED_EXITS <? zlen order)%Z then evict (delete old_pid exits) rest else (exits, order)
  | [] => (exits, [])
  end.

Definition remember_unclaimed_exit (pid : Z) (exit : ChildExit) (t : ChildTrackerState) : ChildTrackerState :=
  let order := match unclaimed_exits t !! pid with Some _ => without pid (unclaimed_order t) | None => unclaimed_order t end in
  let '(exits, order) := evict (<[pid := exit]> (unclaimed_exits t)) (order ++ [pid]) in
  MkTracker (waiters t) exits order.

Definition claim_unclaimed_exit (pid : Z) (t : ChildTrackerState) : option ChildExit * ChildTrackerState :=
  match unclaimed_exits t !! pid with
  | None => (None, t)
  | Some exit => (Some exit, MkTracker (waiters t) (delete pid (unclaimed_exits t)) (without pid (unclaimed_order t)))
  end.

(** [register]: the exit that is sent to the new waiter at once, if there is one. *)
Definition register_child (waiter : nat) (pid : Z) (t : ChildTrackerState) : option ChildExit * ChildTrackerState :=
  match claim_unclaimed_exit pid t with
  | (Some exit, t) => (Some exit, t)
  | (None, t) => (None, MkTracker (<[pid := waiter]> (waiters t)) (unclaimed_exits t) (unclaimed_order t))
  end.

(** [record_exit]: the waiter the exit is sent to. *)
Definition record_exit (pid : Z) (exit : ChildExit) (t : ChildTrackerState) : option nat * ChildTrackerState :=
  match waiters t !! pid with
  | Some waiter => (Some waiter, MkTracker (delete pid (waiters t)) (unclaimed_exits t) (unclaimed_order t))
  | None => (None, remember_unclaimed_exit pid exit t)
  end.

Definition snapshot_children (t : ChildTrackerState) : gset Z := dom (waiters t).

(** What [waitpid] says of a child that is waited for. *)
Inductive WaitStatus := StillAlive | WaitExited (status : Z) | WaitSignaled (signal : Z) | WaitOther | WaitError.
Definition reap_one (wait : Z -> WaitStatus) (pid : Z) (t : ChildTrackerState) : option (nat * ChildExit) * ChildTrackerState :=
  let record exit := let '(w, t) := record_exit pid exit t in (option_map (fun w => (w, exit)) w, t) in
  match wait pid with
  | WaitExited status => record (Exited status)
  | WaitSignaled signal => record (Signaled signal)
  | StillAlive | WaitOther | WaitError => (None, t)
  end.
(** [reap_available_children]: [pids] is the snapshot. *)
Fixpoint reap_available_children (wait : Z -> WaitStatus) (pids : list Z) (t : ChildTrackerState) :
    list (nat * ChildExit) * ChildTrackerState :=
  match pids with
  | [] => ([], t)
  | pid :: pids =>
      let '(sent, t) := reap_one wait pid t in
      let '(rest, t) := reap_available_children wait pids t in
      (match sent with Some s => s :: rest | None => rest end, t)
  end.

(** *** Sequences of calls *)

Inductive Call := Registers (waiter : nat) (pid : Z) | RecordsExit (pid : Z) (exit : ChildExit).
Definition call_pid (c : Call) : Z := match c with Registers _ pid | RecordsExit pid _ => pid end.

(** The answers a call sends to waiters. *)
Definition call_step (c : Call) (t : ChildTrackerState) : list (nat * ChildExit) * ChildTrackerState :=
  match c with
  | Registers w pid => let '(r, t) := register_child w pid t in (match r with Some e => [(w, e)] | None => [] end, t)
  | RecordsExit pid e => let '(r, t) := record_exit pid e t in (match r with Some w => [(w, e)] | None => [] end, t)
  end.
Fixpoint call_steps (cs : list Call) (t : ChildTrackerState) : list (nat * ChildExit) * ChildTrackerState :=
  match cs with
  | [] => ([], t)
  | c :: cs =>
      let '(sent, t) := call_step c t in
      let '(rest, t) := call_steps cs t in (sent ++ rest, t)
  end.

(** *** What is remembered *)

Record tracker_ok (t : ChildTrackerState) : Prop := {
  tk_order : NoDup (unclaimed_order t);
  tk_exits : forall pid, pid ∈ unclaimed_order t <-> is_Some (unclaimed_exits t !! pid);
  tk_apart : forall pid w, waiters t !! pid = Some w -> unclaimed_exits t !! pid = None;
  tk_bound : (zlen (unclaimed_order t) <= MAX_UNCLAIMED_EXITS)%Z;
}.

Lemma new_tracker_ok : tracker_ok new_tracker.
Proof.
  split; cbn.
  - constructor.
  - intros pid. rewrite lookup_empty. split; [by intros ?%elem_of_nil|by intros [? ?]].
  - intros pid w. by rewrite lookup_empty.
  - done.
Qed.

Lemma elem_of_without pid q order : q ∈ without pid order <-> q ≠ pid /\ q ∈ order.
Proof. unfold without. by rewrite list_elem_of_filter. Qed.

(** Eviction keeps a suffix of the queue. *)
Lemma evict_spec order : forall exits,
  NoDup order ->
  exists gone, order = gone ++ (evict exits order).2 /\ (zlen (evict exits order).2 <= MAX_UNCLAIMED_EXITS)%Z /\
    (gone ≠ [] -> zlen (evict exits order).2 = MAX_UNCLAIMED_EXITS) /\
    forall pid, (evict exits order).1 !! pid = if decide (pid ∈ gone) then None else exits !! pid.
Proof.
  induction order as [|old rest IH]; intros exits Hnd; cbn [evict].
  - exists []. split; [done|]. split; [done|]. split; [done|]. intros pid. by rewrite decide_False by apply not_elem_of_nil.
  - apply NoDup_cons in Hnd as [Hni Hnd]. destruct (Z.ltb_spec MAX_UNCLAIMED_EXITS (zlen (old :: rest))) as [Hlt|Hle].
    2: { exists []. split; [done|]. split; [done|]. split; [done|]. intros pid. by rewrite decide_False by apply not_elem_of_nil. }
    destruct (IH (delete old exits) Hnd) as (gone & Heq & Hlen & Hfull & Hl). exists (old :: gone).
    split; [cbn; by f_equal|]. split; [done|]. split.
    + intros _. destruct gone; [|by apply Hfull]. cbn in Heq. rewrite <- Heq in Hlen |- *. unfold zlen in *. cbn in *. lia.
    + intros pid. rewrite Hl, lookup_delete. repeat case_decide; set_solver.
Qed.

Lemma without_absent pid order : pid ∉ order -> without pid order = order.
Proof.
  intros Hni. unfold without. induction order as [|q order IH]; [done|]. apply not_elem_of_cons in Hni as [Hq Hni].
  rewrite filter_cons, decide_True by done. by rewrite IH.
Qed.

(** The queue after an exit is remembered: a suffix of the old one, then the new exit. *)
Lemma remember_spec pid exit t :
  tracker_ok t -> waiters t !! pid = None ->
  let t' := remember_unclaimed_exit pid exit t in
  tracker_ok t' /\ waiters t' = waiters t /\
  exists gone kept, without pid (unclaimed_order t) = gone ++ kept /\ unclaimed_order t' = kept ++ [pid] /\
    (gone ≠ [] -> zlen (kept ++ [pid]) = MAX_UNCLAIMED_EXITS) /\
    forall q, unclaimed_exits t' !! q = if decide (q ∈ gone) then None else <[pid := exit]> (unclaimed_exits t) !! q.
Proof.
  intros [H1 H2 H3 H4] Hw. unfold remember_unclaimed_exit.
  assert (match unclaimed_exits t !! pid with Some _ => without pid (unclaimed_order t) | None => unclaimed_order t end
    = without pid (unclaimed_order t)) as ->.
  { destruct (unclaimed_exits t !! pid) eqn:E; [done|]. rewrite without_absent; [done|]. rewrite H2, E. by intros [? ?]. }
  set (order := without pid (unclaimed_order t)).
  assert (NoDup (order ++ [pid])) as Hnd.
  { apply NoDup_app. split; [by apply NoDup_filter|]. split; [|apply NoDup_singleton].
    intros q [Hq _]%elem_of_without ->%list_elem_of_singleton. done. }
  destruct (evict_spec (order ++ [pid]) (<[pid := exit]> (unclaimed_exits t)) Hnd) as (gone & Heq & Hlen & Hfull & Hl).
  destruct (evict _ (order ++ [pid])) as [exits queue]. cbn in *.
  assert (exists kept, queue = kept ++ [pid] /\ order = gone ++ kept) as (kept & -> & Hok).
  { destruct (decide (queue = [])) as [->|Hne].
    - exfalso. rewrite app_nil_r in Heq. destruct gone as [|g gone]; [by destruct order|]. specialize (Hfull ltac:(done)). done.
    - destruct (exists_last Hne) as (kept & q & ->). rewrite app_assoc in Heq. apply app_inj_2 in Heq as [-> [= ->]]; [|done]. by exists kept. }
  split; [|split; [done|]; exists gone, kept; done].
  rewrite Heq in Hnd. apply NoDup_app in Hnd as (_ & Hgone & Hkept). split; cbn; [done| | |done].
  - intros q. rewrite Hl. assert (q ∈ order <-> q ≠ pid /\ is_Some (unclaimed_exits t !! q)) as Hq.
    { unfold order. by rewrite elem_of_without, H2. }
    rewrite Hok, elem_of_app in Hq. rewrite elem_of_app, list_elem_of_singleton. case_decide as Hg.
    + specialize (Hgone q Hg). rewrite elem_of_app, list_elem_of_singleton in Hgone. split; [intros Hc; by destruct Hgone|by intros [? ?]].
    + destruct (decide (q = pid)) as [->|Hne]; [rewrite lookup_insert_eq; split; [by eexists|by right]|].
      rewrite lookup_insert_ne by done. split; [intros [Hk|]; [|done]; apply Hq; by right|].
      intros Hs. left. by destruct (proj2 Hq (conj Hne Hs)).
  - intros q w Hqw. rewrite Hl. case_decide; [done|]. rewrite lookup_insert_ne by (intros <-; congruence). by eapply H3.
Qed.

Lemma claim_spec pid t :
  tracker_ok t -> tracker_ok (claim_unclaimed_exit pid t).2 /\ (claim_unclaimed_exit pid t).1 = unclaimed_exits t !! pid /\
  waiters (claim_unclaimed_exit pid t).2 = waiters t /\
  unclaimed_order (claim_unclaimed_exit pid t).2 = without pid (unclaimed_order t) /\
  unclaimed_exits (claim_unclaimed_exit pid t).2 = delete pid (unclaimed_exits t).
Proof.
  intros [H1 H2 H3 H4]. unfold claim_unclaimed_exit. destruct (unclaimed_exits t !! pid) as [e|] eqn:E; cbn.
  - split; [|done]. split; cbn.
    + by apply NoDup_filter.
    + intros q. rewrite elem_of_without, H2, lookup_delete. case_decide as Hq; [split; [by intros [? _]|by intros [? ?]]|]. naive_solver.
    + intros q w Hq. rewrite lookup_delete. case_decide; [done|by eapply H3].
    + etrans; [|exact H4]. unfold zlen, without. apply Nat2Z.inj_le, length_filter.
  - split; [done|]. split; [done|]. split; [done|]. rewrite delete_id by done. rewrite without_absent; [done|]. rewrite H2, E. by intros [? ?].
Qed.

Lemma call_step_ok c t : tracker_ok t -> tracker_ok (call_step c t).2.
Proof.
  intros Ht. destruct c as [w pid|pid e]; cbn.
  - destruct (claim_spec pid t Ht) as (Hok & Hr & Hw & Ho & He). unfold register_child.
    destruct (claim_unclaimed_exit pid t) as [[e|] t1]; [done|]. cbn in *. destruct Hok as [K1 K2 K3 K4]. split; cbn; try done.
    intros q w' [[<- <-]|[_ Hq]]%lookup_insert_Some; [rewrite He; apply lookup_delete_eq|by eapply K3].
  - unfold record_exit. destruct (waiters t !! pid) as [w|] eqn:Ew; cbn.
    + destruct Ht as [K1 K2 K3 K4]. split; cbn; try done. intros q w' [_ Hq]%lookup_delete_Some. by eapply K3.
    + by apply remember_spec.
Qed.

Lemma call_steps_ok cs : forall t, tracker_ok t -> tracker_ok (call_steps cs t).2.
Proof.
  induction cs as [|c cs IH]; intros t Ht; [done|]. cbn. pose proof (call_step_ok c t Ht) as Hc.
  destruct (call_step c t) as [sent t1]. specialize (IH t1 Hc). by destruct (call_steps cs t1).
Qed.

(** *** Both orders *)

Definition waits (t : ChildTrackerState) (pid : Z) (w : nat) : Prop := waiters t !! pid = Some w.
(** The exit of [pid] is remembered, with at most [n] newer ones behind it. *)
Definition remembers (t : ChildTrackerState) (pid : Z) (e : ChildExit) (n : nat) : Prop :=
  waiters t !! pid = None /\ unclaimed_exits t !! pid = Some e /\
  exists before after, unclaimed_order t = before ++ pid :: after /\ length after <= n.

Lemma waits_other c t pid w : tracker_ok t -> waits t pid w -> call_pid c ≠ pid -> waits (call_step c t).2 pid w.
Proof.
  intros Ht Hw Hne. unfold waits in *. destruct c as [w' q|q e]; cbn in *.
  - destruct (claim_spec q t Ht) as (_ & _ & Hws & _). unfold register_child. destruct (claim_unclaimed_exit q t) as [[e|] t1]; cbn in *; [congruence|].
    rewrite lookup_insert_ne by done. congruence.
  - unfold record_exit. destruct (waiters t !! q) as [w'|] eqn:Eq; cbn; [by rewrite lookup_delete_ne|].
    destruct (remember_spec q e t Ht Eq) as (_ & -> & _). done.
Qed.

Definition is_record (c : Call) : nat := match c with RecordsExit _ _ => 1 | Registers _ _ => 0 end.

Lemma without_split pid q before after :
  q ≠ pid -> without q (before ++ pid :: after) = without q before ++ pid :: without q after.
Proof. intros Hne. unfold without. rewrite filter_app, filter_cons, decide_True by done. done. Qed.

Lemma remembers_other c t pid e n :
  tracker_ok t -> remembers t pid e n -> call_pid c ≠ pid -> (Z.of_nat (n + is_record c) < MAX_UNCLAIMED_EXITS)%Z ->
  remembers (call_step c t).2 pid e (n + is_record c).
Proof.
  intros Ht (Hw & He & before & after & Ho & Hl) Hne Hn. destruct c as [w q|q x]; cbn in *.
  - destruct (claim_spec q t Ht) as (_ & _ & Hws & Hos & Hes). rewrite Ho, without_split in Hos by done.
    unfold register_child. destruct (claim_unclaimed_exit q t) as [[y|] t1]; cbn in *; (split; [|split]); cbn.
    1, 4: rewrite ?lookup_insert_ne by done; by rewrite Hws.
    1, 3: rewrite Hes; by rewrite lookup_delete_ne.
    all: exists (without q before), (without q after); split; [done|]; etrans; [apply length_filter|lia].
  - unfold record_exit. destruct (waiters t !! q) as [w|] eqn:Eq; cbn.
    { split; [cbn; by rewrite lookup_delete_ne|]. split; [done|]. exists before, after. split; [done|lia]. }
    destruct (remember_spec q x t Ht Eq) as (_ & Hws & gone & kept & Hgk & Hq & Hfull & Hl').
    rewrite Ho, without_split in Hgk by done.
    assert (length (without q after) <= n) as Hla by (etrans; [apply length_filter|lia]).
    assert (exists b, kept = b ++ pid :: without q after /\ pid ∉ gone) as (b & Hk & Hng).
    { destruct gone as [|g gone]; [exists (without q before); cbn in Hgk; rewrite Hgk; split; [done|apply not_elem_of_nil]|].
      specialize (Hfull ltac:(done)). unfold zlen in Hfull. rewrite length_app in Hfull. cbn [length] in Hfull.
      set (G := g :: gone) in *. set (B := without q before) in *.
      assert (length G <= length B) as Hge.
      { apply (f_equal length) in Hgk. rewrite !length_app in Hgk. cbn [length] in Hgk. lia. }
      assert (G = take (length G) B) as Hg.
      { apply (f_equal (take (length G))) in Hgk. rewrite take_app_length, take_app_le in Hgk by done. done. }
      exists (drop (length G) B). split.
      - apply (f_equal (drop (length G))) in Hgk. rewrite drop_app_length, drop_app_le in Hgk by done. done.
      - rewrite Hg. intros Hin%elem_of_take. destruct Hin as (k & Hin%list_elem_of_lookup_2 & _). apply elem_of_without in Hin as [_ Hin]. destruct Ht as [Hnd _ _ _].
        rewrite Ho in Hnd. apply NoDup_app in Hnd as (_ & Hd & _). apply (Hd _ Hin). by left. }
    split; [by rewrite Hws|]. split.
    + rewrite Hl', decide_False by done. by rewrite lookup_insert_ne.
    + exists b, (without q after ++ [q]). rewrite Hq, Hk, <- app_assoc. split; [done|]. rewrite length_app. cbn. lia.
Qed.

Lemma call_steps_app cs1 cs2 t :
  call_steps (cs1 ++ cs2) t = let '(s1, t1) := call_steps cs1 t in let '(s2, t2) := call_steps cs2 t1 in (s1 ++ s2, t2).
Proof.
  revert t. induction cs1 as [|c cs1 IH]; intros t; cbn; [by destruct (call_steps cs2 t)|].
  destruct (call_step c t) as [s t1]. rewrite IH. destruct (call_steps cs1 t1) as [s1 t2]. destruct (call_steps cs2 t2) as [s2 t3].
  by rewrite app_assoc.
Qed.

Definition records (cs : list Call) : nat := foldr (fun c n => is_record c + n) 0 cs.

Lemma waits_others cs : forall t pid w,
  tracker_ok t -> waits t pid w -> (forall c, c ∈ cs -> call_pid c ≠ pid) -> waits (call_steps cs t).2 pid w.
Proof.
  induction cs as [|c cs IH]; intros t pid w Ht Hw Hne; [done|]. cbn.
  pose proof (waits_other c t pid w Ht Hw (Hne c ltac:(by left))) as Hw1. pose proof (call_step_ok c t Ht) as Ht1.
  destruct (call_step c t) as [s t1]. specialize (IH t1 pid w Ht1 Hw1 (fun c' Hc => Hne c' ltac:(by right))).
  by destruct (call_steps cs t1).
Qed.

Lemma remembers_others cs : forall t pid e n,
  tracker_ok t -> remembers t pid e n -> (forall c, c ∈ cs -> call_pid c ≠ pid) ->
  (Z.of_nat (n + records cs) < MAX_UNCLAIMED_EXITS)%Z -> unclaimed_exits (call_steps cs t).2 !! pid = Some e.
Proof.
  induction cs as [|c cs IH]; intros t pid e n Ht Hr Hne Hn; [by destruct Hr as (_ & ? & _)|]. cbn in Hn |- *. fold (records cs) in Hn.
  pose proof (remembers_other c t pid e n Ht Hr (Hne c ltac:(by left)) ltac:(lia)) as Hr1. pose proof (call_step_ok c t Ht) as Ht1.
  destruct (call_step c t) as [s t1]. specialize (IH t1 pid e _ Ht1 Hr1 (fun c' Hc => Hne c' ltac:(by right)) ltac:(lia)).
  by destruct (call_steps cs t1).
Qed.

(** The state after some calls on a new tracker. *)
Definition tracker_after (cs : list Call) : ChildTrackerState := (call_steps cs new_tracker).2.

Lemma tracker_after_snoc cs c : tracker_after (cs ++ [c]) = (call_step c (tracker_after cs)).2.
Proof.
  unfold tracker_after. rewrite call_steps_app. destruct (call_steps cs new_tracker) as [s t]. cbn. by destruct (call_step c t).
Qed.
Lemma tracker_after_app cs cs' : tracker_after (cs ++ cs') = (call_steps cs' (tracker_after cs)).2.
Proof. unfold tracker_after. rewrite call_steps_app. destruct (call_steps cs new_tracker) as [s t]. cbn. by destruct (call_steps cs' t). Qed.

(** C39: The exit status of a child reaches the one that waits for it, whichever of the two
    calls comes first and whatever calls about other children come in between: recording
    the exit answers a waiter that registered before, and registering is answered at once
    with an exit recorded before, unless as many exits as the tracker remembers were
    recorded since. *)
Theorem exit_reaches_its_waiter before between pid w e :
  (forall c, c ∈ between -> call_pid c ≠ pid) ->
  (unclaimed_exits (tracker_after before) !! pid = None ->
   (call_step (RecordsExit pid e) (tracker_after (before ++ [Registers w pid] ++ between))).1 = [(w, e)]) /\
  (waiters (tracker_after before) !! pid = None -> (Z.of_nat (records between) < MAX_UNCLAIMED_EXITS)%Z ->
   (call_step (Registers w pid) (tracker_after (before ++ [RecordsExit pid e] ++ between))).1 = [(w, e)]).
Proof.
  intros Hne. assert (tracker_ok (tracker_after before)) as Ht by apply call_steps_ok, new_tracker_ok.
  rewrite !(app_assoc before). split.
  - intros Hno. rewrite tracker_after_app, tracker_after_snoc. pose proof (call_step_ok (Registers w pid) _ Ht) as Ht1.
    assert (waits (call_step (Registers w pid) (tracker_after before)).2 pid w) as Hw.
    { cbn. unfold register_child, claim_unclaimed_exit, waits. rewrite Hno. cbn. apply lookup_insert_eq. }
    pose proof (waits_others between _ pid w Ht1 Hw Hne) as Hl. unfold waits in Hl.
    set (t2 := (call_steps between _).2) in *. cbn. unfold record_exit. by rewrite Hl.
  - intros Hno Hn. rewrite tracker_after_app, tracker_after_snoc. pose proof (call_step_ok (RecordsExit pid e) _ Ht) as Ht1.
    assert (remembers (call_step (RecordsExit pid e) (tracker_after before)).2 pid e 0) as Hr.
    { cbn [call_step]. unfold record_exit. rewrite Hno. cbn.
      destruct (remember_spec pid e _ Ht Hno) as (_ & Hws & gone & kept & Hgk & Hq & _ & Hl).
      split; [by rewrite Hws|]. split; [|exists kept, []; by rewrite Hq].
      rewrite Hl, decide_False; [apply lookup_insert_eq|]. intros Hin.
      assert (pid ∈ without pid (unclaimed_order (tracker_after before))) as [? _]%elem_of_without; [|done].
      rewrite Hgk. apply elem_of_app. by left. }
    pose proof (remembers_others between _ pid e 0 Ht1 Hr Hne ltac:(lia)) as Hl.
    set (t2 := (call_steps between _).2) in *. cbn. unfold register_child, claim_unclaimed_exit. by rewrite Hl.
Qed.

(** Two other children exit, and one of them is waited for, in between. *)
Lemma exit_reaches_its_waiter_witness :
  let between := [RecordsExit 8 (Exited 0); Registers 5 9; RecordsExit 9 (Signaled 15)] in
  (call_step (RecordsExit 7 (Exited 3)) (tracker_after ([] ++ [Registers 1 7] ++ between))).1 = [(1, Exited 3)] /\
  (call_step (Registers 1 7) (tracker_after ([] ++ [RecordsExit 7 (Exited 3)] ++ between))).1 = [(1, Exited 3)].
Proof.
  intros between. destruct (exit_reaches_its_waiter [] between 7 1 (Exited 3)) as [H1 H2].
  - intros c Hc. repeat (apply elem_of_cons in Hc as [->|Hc]; [done|]). by apply elem_of_nil in Hc.
  - split; [by apply H1|by apply H2].
Defined.
End Children.

(** ** Signals of an execution *)

Module Control.

Inductive Status := FailedPrecondition (text : string) | InvalidArgument (text : string) | Internal (text : string).

(** What a request asks for. *)
Inductive ControlKind := Claim (b : bool) | StdinEof (b : bool) | SignalNumber (number : Z).
Record ExecControlRequest := MkRequest {
  producer_epoch : Z;
  control_seq : Z;
  control : option ControlKind;
}.

(** Epoch and number of a request, compared in this order. *)
Abbreviation Identity := (Z * Z)%type.
Definition identity_ltb (a b : Identity) : bool := (a.1 <? b.1)%Z || ((a.1 =? b.1) && (a.2 <? b.2))%Z.

Record ExecControlReceiver := MkReceiver {
  last_signal : option Identity;
  terminating : bool;
}.
Definition new_receiver : ExecControlReceiver := MkReceiver None false.

Definition is_terminating (signal : Z) : bool := bool_decide (signal ∈ [15; 2; 1; 3; 9]%Z).

Section Channel.
(** [Signal::try_from]: the numbers the platform has a signal for. *)
Context (valid_signal : Z -> bool).

(** [ExecControl::apply] up to the channel: an answer, the end of the input, or a message
    to the task that runs the command. *)
Inductive Applied := Answered (r : result Status unit) | ClosesStdin | Sends (signal : option Z) (identity : Identity).
Definition apply_request (q : ExecControlRequest) : Applied :=
  match control q with
  | Some (Claim true) => Sends None (producer_epoch q, 0%Z)
  | Some (StdinEof true) => ClosesStdin
  | Some (SignalNumber number) =>
      if valid_signal number then
        if (control_seq q =? 0)%Z then Answered (Err (InvalidArgument "control_seq must be positive"))
        else Sends (Some number) (producer_epoch q, control_seq q)
      else Answered (Err (InvalidArgument "invalid Unix signal"))
  | _ => Answered (Err (InvalidArgument "signal or stdin_eof=true is required"))
  end.

(** One message in [ExecControlReceiver::wait]; [kill] is the outcome of the signal. The
    last component is the signal that was sent. *)
Definition receive (kill : result Status unit) (signal : option Z) (identity : Identity) (r : ExecControlReceiver) :
    result Status unit * ExecControlReceiver * option (Z * Identity) :=
  match signal with
  | None =>
      match last_signal r with
      | Some last =>
          if (identity.1 <? last.1)%Z then (Err (FailedPrecondition "stale execution owner"), r, None)
          else if (identity.1 =? last.1)%Z then (Ok tt, r, None)
          else (Ok tt, MkReceiver (Some identity) (terminating r), None)
      | None => (Ok tt, MkReceiver (Some identity) (terminating r), None)
      end
  | Some signal =>
      let '(result, sent) :=
        match last_signal r with
        | Some last =>
            if bool_decide (identity = last) then (Ok tt, None)
            else if identity_ltb identity last then (Err (FailedPrecondition "stale execution control"), None)
            else (kill, Some (signal, identity))
        | None => (kill, Some (signal, identity))
        end in
      match result with
      | Ok _ => (Ok tt, MkReceiver (Some identity) (terminating r || is_terminating signal), sent)
      | Err x => (Err x, r, None)
      end
  end.

(** Whether the process group is killed once the command has ended. *)
Definition kills_group (r : ExecControlReceiver) : bool := terminating r.

(** A request from end to end: its answer, and the signal it sent. *)
Definition control_step (q : ExecControlRequest * result Status unit) (r : ExecControlReceiver) :
    result Status unit * ExecControlReceiver * option (Z * Identity) :=
  match apply_request q.1 with
  | Answered a => (a, r, None)
  | ClosesStdin => (Ok tt, r, None)
  | Sends signal identity => receive q.2 signal identity r
  end.

Fixpoint control_run (qs : list (ExecControlRequest * result Status unit)) (r : ExecControlReceiver) :
    list (result Status unit) * ExecControlReceiver * list (Z * Identity) :=
  match qs with
  | [] => ([], r, [])
  | q :: qs =>
      let '(a, r, s) := control_step q r in
      let '(answers, r, sent) := control_run qs r in
      (a :: answers, r, match s with Some s => s :: sent | None => sent end)
  end.

Definition well_numbered (q : ExecControlRequest) : Prop := (0 <= producer_epoch q)%Z /\ (0 <= control_seq q)%Z.
Definition identity_lt (a b : Identity) : Prop := (a.1 < b.1)%Z \/ (a.1 = b.1 /\ (a.2 < b.2)%Z).
Definition identity_le (a b : Identity) : Prop := a = b \/ identity_lt a b.

Lemma identity_ltb_spec a b : identity_ltb a b = true <-> identity_lt a b.
Proof.
  unfold identity_ltb, identity_lt. rewrite orb_true_iff, andb_true_iff, !Z.ltb_lt, Z.eqb_eq. done.
Qed.
Lemma identity_total a b : a ≠ b -> identity_ltb a b = false -> identity_lt b a.
Proof.
  intros Hne Hf. destruct a as [a1 a2], b as [b1 b2]. unfold identity_lt. cbn in *.
  assert (~ identity_lt (a1, a2) (b1, b2)) as Hn by (rewrite <- identity_ltb_spec; by rewrite Hf).
  unfold identity_lt in Hn. cbn in Hn. destruct (Z.lt_trichotomy a1 b1) as [|[->|]]; [lia| |lia].
  destruct (Z.lt_trichotomy a2 b2) as [|[->|]]; [lia|done|lia].
Qed.
Lemma identity_lt_trans a b c : identity_lt a b -> identity_lt b c -> identity_lt a c.
Proof. unfold identity_lt. lia. Qed.
Lemma identity_le_lt a b c : identity_le a b -> identity_lt b c -> identity_lt a c.
Proof. intros [->|H] H'; [done|by eapply identity_lt_trans]. Qed.

Definition above (r : ExecControlReceiver) (i : Identity) : Prop :=
  match last_signal r with Some last => identity_lt last i | None => True end.
Definition reached (r : ExecControlReceiver) (i : Identity) : Prop := exists last, last_signal r = Some last /\ identity_le i last.

(** What one request may do: at most one signal, newer than all before it. *)
Lemma control_step_spec q r a r' s :
  control_step q r = (a, r', s) ->
  (forall i, above r' i -> above r i) /\
  (forall i, reached r i -> reached r' i) /\
  match s with Some (n, i) => above r i /\ last_signal r' = Some i /\ a = Ok tt | None => True end.
Proof.
  assert (forall i, above r i -> above r i) as Hid by done.
  unfold control_step. destruct (apply_request q.1) as [x| |sig idn]; [by intros [= <- <- <-]|by intros [= <- <- <-]|].
  unfold receive. destruct sig as [n|].
  - destruct (last_signal r) as [last|] eqn:El.
    + case_bool_decide as Heq; [subst idn; intros [= <- <- <-]; unfold above, reached; cbn; rewrite El; done|].
      destruct (identity_ltb idn last) eqn:Elt; [by intros [= <- <- <-]|]. destruct q.2 as [[]|]; intros [= <- <- <-]; [|done].
      pose proof (identity_total _ _ Heq Elt) as Hgt. unfold above, reached. cbn. rewrite El. split; [|split].
      * intros i Hi. by eapply identity_lt_trans.
      * intros i (l & [= <-] & Hl). exists idn. split; [done|]. right. by eapply identity_le_lt.
      * done.
    + destruct q.2 as [[]|]; intros [= <- <- <-]; [|done]. unfold above, reached. cbn. rewrite El. split; [done|]. split; [by intros i (l & ? & _)|done].
  - destruct (last_signal r) as [last|] eqn:El.
    + destruct (Z.ltb_spec idn.1 last.1); [by intros [= <- <- <-]|]. destruct (Z.eqb_spec idn.1 last.1); [by intros [= <- <- <-]|].
      intros [= <- <- <-]. assert (identity_lt last idn) as Hgt by (left; lia). unfold above, reached. cbn. rewrite El. split; [|split; [|done]].
      * intros i Hi. by eapply identity_lt_trans.
      * intros i (l & [= <-] & Hl). exists idn. split; [done|]. right. by eapply identity_le_lt.
    + intros [= <- <- <-]. unfold above, reached. cbn. rewrite El. split; [done|]. split; [by intros i (l & ? & _)|done].
Qed.

Fixpoint increasing (l : list (Z * Identity)) : Prop :=
  match l with
  | [] => True
  | s :: l => (forall s', s' ∈ l -> identity_lt s.2 s'.2) /\ increasing l
  end.

Lemma control_run_spec qs : forall r answers r' sent,
  control_run qs r = (answers, r', sent) -> increasing sent /\ forall s, s ∈ sent -> above r s.2.
Proof.
  induction qs as [|q qs IH]; intros r answers r' sent; cbn; [intros [= <- <- <-]; split; [done|]; by intros ? ?%elem_of_nil|].
  destruct (control_step q r) as [[a r1] s] eqn:Es. destruct (control_run qs r1) as [[an r2] se] eqn:Er. intros [= <- <- <-].
  destruct (IH _ _ _ _ Er) as [Hi Ha]. destruct (control_step_spec _ _ _ _ _ Es) as (Hup & _ & Hs). destruct s as [[n i]|].
  - destruct Hs as (Habove & Hl & _). split.
    + split; [|done]. intros s' Hs'. specialize (Ha s' Hs'). unfold above in Ha. by rewrite Hl in Ha.
    + intros s' [->|Hs']%elem_of_cons; [done|]. by apply Hup, Ha.
  - split; [done|]. intros s' Hs'. by apply Hup, Ha.
Qed.

Abbreviation answers_of qs r := (control_run qs r).1.1.
Abbreviation receiver_of qs r := (control_run qs r).1.2.
Abbreviation sent_of qs r := (control_run qs r).2.

Lemma control_run_cons q qs r :
  answers_of (q :: qs) r = (control_step q r).1.1 :: answers_of qs (control_step q r).1.2 /\
  receiver_of (q :: qs) r = receiver_of qs (control_step q r).1.2 /\
  sent_of (q :: qs) r = match (control_step q r).2 with Some s => [s] | None => [] end ++ sent_of qs (control_step q r).1.2.
Proof.
  cbn. destruct (control_step q r) as [[a r1] s]. destruct (control_run qs r1) as [[an r2] se] eqn:E. cbn. rewrite E. by destruct s.
Qed.

(** The newest signal was sent, or the newest request was a claim. *)
Definition newest_known (r : ExecControlReceiver) (sent : list (Z * Identity)) : Prop :=
  forall i, last_signal r = Some i -> i.2 = 0%Z \/ exists n, (n, i) ∈ sent.

Lemma control_step_answered q r sent :
  newest_known r sent ->
  let sent' := sent ++ match (control_step q r).2 with Some s => [s] | None => [] end in
  newest_known (control_step q r).1.2 sent' /\
  forall n, control q.1 = Some (SignalNumber n) -> (control_step q r).1.1 = Ok tt ->
    exists n', (n', (producer_epoch q.1, control_seq q.1)) ∈ sent'.
Proof.
  intros Hk. cbn zeta. destruct q as [q kill]. unfold control_step, apply_request. cbn [fst snd].
  assert (forall l, newest_known r (sent ++ l)) as Hmore.
  { intros l i Hi. destruct (Hk i Hi) as [|[n Hn]]; [by left|right]. exists n. apply elem_of_app. by left. }
  destruct (control q) as [[[]|[]|n]|]; cbn; try (split; [by apply Hmore|done]).
  - unfold receive. destruct (last_signal r) as [last|] eqn:El; cbn.
    + destruct (_ <? _)%Z; [by split; [apply Hmore|]|]. destruct (_ =? _)%Z; [by split; [apply Hmore|]|].
      split; [|done]. intros i [= <-]. by left.
    + split; [|done]. intros i [= <-]. by left.
  - destruct (valid_signal n); cbn; [|by split; [apply Hmore|]].
    destruct (Z.eqb_spec (control_seq q) 0) as [|Hseq]; cbn; [by split; [apply Hmore|]|]. unfold receive.
    set (idn := (producer_epoch q, control_seq q)). destruct (last_signal r) as [last|] eqn:El.
    + case_bool_decide as Heq; cbn.
      * assert (exists n', (n', idn) ∈ sent ++ []) as Hin.
        { destruct (Hk last El) as [Hz|[n' Hn']]; [subst last; done|]. exists n'. apply elem_of_app. left. by rewrite Heq. }
        split; [intros i [= <-]; by right|done].
      * destruct (identity_ltb idn last); cbn; [by split; [apply Hmore|]|]. destruct kill as [[]|]; cbn; [|by split; [apply Hmore|]].
        assert (exists n', (n', idn) ∈ sent ++ [(n, idn)]) as Hin by (exists n; apply elem_of_app; right; by left).
        split; [intros i [= <-]; by right|done].
    + destruct kill as [[]|]; cbn; [|by split; [apply Hmore|]].
      assert (exists n', (n', idn) ∈ sent ++ [(n, idn)]) as Hin by (exists n; apply elem_of_app; right; by left).
      split; [intros i [= <-]; by right|done].
Qed.

Lemma control_run_answered qs : forall r sent k q n,
  newest_known r sent -> qs !! k = Some q -> control q.1 = Some (SignalNumber n) -> answers_of qs r !! k = Some (Ok tt) ->
  exists n', (n', (producer_epoch q.1, control_seq q.1)) ∈ sent ++ sent_of qs r.
Proof.
  induction qs as [|q0 qs IH]; intros r sent k q n Hk Hq Hc Ha; [done|].
  destruct (control_run_cons q0 qs r) as (Ean & _ & Es). rewrite Ean in Ha. rewrite Es, app_assoc.
  destruct (control_step_answered q0 r sent Hk) as [Hk' Hans]. destruct k as [|k]; cbn in Hq, Ha.
  - injection Hq as <-. injection Ha as Ha. destruct (Hans n Hc Ha) as [n' Hn']. exists n'. apply elem_of_app. by left.
  - by eapply IH.
Qed.

Lemma answers_length qs : forall r, length (answers_of qs r) = length qs.
Proof. induction qs as [|q qs IH]; intros r; [done|]. destruct (control_run_cons q qs r) as (-> & _ & _). cbn. by rewrite IH. Qed.

Lemma control_run_app qs1 qs2 : forall r,
  answers_of (qs1 ++ qs2) r = answers_of qs1 r ++ answers_of qs2 (receiver_of qs1 r) /\
  sent_of (qs1 ++ qs2) r = sent_of qs1 r ++ sent_of qs2 (receiver_of qs1 r).
Proof.
  induction qs1 as [|q qs1 IH]; intros r; [done|]. cbn [app].
  destruct (control_run_cons q (qs1 ++ qs2) r) as (-> & _ & ->). destruct (control_run_cons q qs1 r) as (-> & -> & ->).
  destruct (IH (control_step q r).1.2) as [-> ->]. by rewrite app_assoc.
Qed.

Lemma claim_step q kill r : control q = Some (Claim true) -> (control_step (q, kill) r).1.1 = Ok tt ->
  exists last, last_signal (control_step (q, kill) r).1.2 = Some last /\ (producer_epoch q <= last.1)%Z.
Proof.
  intros Hc. unfold control_step, apply_request. cbn [fst]. rewrite Hc. unfold receive. cbn [fst snd].
  destruct (last_signal r) as [last|] eqn:El; [|intros _; eexists; split; [done|cbn; lia]].
  destruct (Z.ltb_spec (producer_epoch q) last.1); [done|]. destruct (Z.eqb_spec (producer_epoch q) last.1); intros _.
  - exists last. cbn. split; [done|lia].
  - eexists. split; [done|cbn; lia].
Qed.

(** A signal is sent only for a request that asks for it, by its number and identity. *)
Lemma control_step_asked q r s :
  (control_step q r).2 = Some s ->
  control q.1 = Some (SignalNumber s.1) /\ (producer_epoch q.1, control_seq q.1) = s.2.
Proof.
  unfold control_step, apply_request. destruct (control q.1) as [[[]|[]|n]|] eqn:Ec; try done.
  - unfold receive. cbn. destruct (last_signal r); [|done]. by destruct (_ <? _)%Z; [|destruct (_ =? _)%Z].
  - destruct (valid_signal n); [|done]. destruct (control_seq q.1 =? 0)%Z; [done|]. unfold receive.
    destruct (last_signal r) as [last|]; [case_bool_decide; [done|]; destruct (identity_ltb _ last); [done|]|];
      destruct q.2 as [[]|]; cbn; intros [= <-]; done.
Qed.

Lemma control_run_asked qs : forall r s, s ∈ sent_of qs r ->
  exists q, q ∈ qs /\ control q.1 = Some (SignalNumber s.1) /\ (producer_epoch q.1, control_seq q.1) = s.2.
Proof.
  induction qs as [|q qs IH]; intros r s Hs; [by apply elem_of_nil in Hs|].
  destruct (control_run_cons q qs r) as (_ & _ & Es). rewrite Es in Hs. apply elem_of_app in Hs as [Hs|Hs].
  - destruct (control_step q r).2 as [s'|] eqn:Eq; [|by apply elem_of_nil in Hs].
    apply list_elem_of_singleton in Hs as ->. exists q. split; [by left|]. by eapply control_step_asked.
  - destruct (IH _ _ Hs) as (q' & Hq' & H). exists q'. split; [by right|done].
Qed.

(** C38: Whatever requests arrive in whatever order, repeated, from several owners, and
    whichever signals fail: the signals sent to the command have strictly increasing
    identities, so no request is carried out twice or after a newer one, and each is one
    that a request of that identity asks for; when a request is answered with success, a
    signal has been sent under its identity, and it is the very signal the request asks
    for if no other request of that identity asks for another (a second number under the
    identity of a signal already sent is answered with success and not sent); and once an
    owner's claim succeeded, no signal of an earlier owner is sent. *)
Theorem signals_once_in_order qs :
  increasing (sent_of qs new_receiver) /\
  (forall s, s ∈ sent_of qs new_receiver ->
     exists q, q ∈ qs /\ control q.1 = Some (SignalNumber s.1) /\ (producer_epoch q.1, control_seq q.1) = s.2) /\
  (forall k q n, qs !! k = Some q -> control q.1 = Some (SignalNumber n) -> answers_of qs new_receiver !! k = Some (Ok tt) ->
     exists n', (n', (producer_epoch q.1, control_seq q.1)) ∈ sent_of (take (S k) qs) new_receiver /\
       ((forall q' m, q' ∈ qs -> producer_epoch q'.1 = producer_epoch q.1 -> control_seq q'.1 = control_seq q.1 ->
           control q'.1 = Some (SignalNumber m) -> m = n) -> n' = n)) /\
  (forall before q kill after, qs = before ++ (q, kill) :: after -> control q = Some (Claim true) ->
     answers_of qs new_receiver !! length before = Some (Ok tt) ->
     exists sent later, sent_of qs new_receiver = sent ++ later /\
       sent = sent_of (before ++ [(q, kill)]) new_receiver /\ forall s, s ∈ later -> (producer_epoch q <= s.2.1)%Z).
Proof.
  split; [|split; [|split]].
  - destruct (control_run qs new_receiver) as [[an r] se] eqn:E. by destruct (control_run_spec _ _ _ _ _ E).
  - apply control_run_asked.
  - intros k q n Hq Hc Ha. assert (k < length qs) as Hk by (by eapply lookup_lt_Some).
    rewrite <- (take_drop (S k) qs) in Ha. destruct (control_run_app (take (S k) qs) (drop (S k) qs) new_receiver) as [Ean _].
    rewrite Ean, lookup_app_l in Ha by (rewrite answers_length, length_take; lia).
    destruct (control_run_answered (take (S k) qs) new_receiver [] k q n) as [n' Hn']; [done|by rewrite lookup_take_lt by lia|done..|].
    exists n'. split; [done|]. intros Huniq. destruct (control_run_asked _ _ _ Hn') as (q' & Hq' & Hc' & [= He Hs]).
    apply (Huniq q' n'); [|done..]. apply list_elem_of_lookup in Hq' as [i Hi]. apply lookup_take_Some in Hi as [Hi _].
    by eapply list_elem_of_lookup_2.
  - intros before q kill after -> Hc Ha. set (r := receiver_of before new_receiver).
    destruct (control_run_app before ((q, kill) :: after) new_receiver) as [Ean Es].
    destruct (control_run_cons (q, kill) after r) as (Ec & _ & Ecs). fold r in Ean, Es. rewrite Ean, Ec in Ha.
    rewrite lookup_app_r, answers_length, Nat.sub_diag in Ha by (by rewrite answers_length). cbn [lookup list_lookup] in Ha. injection Ha as Ha.
    destruct (claim_step q kill r Hc Ha) as (last & Hl & Hle).
    exists (sent_of (before ++ [(q, kill)]) new_receiver), (sent_of after (control_step (q, kill) r).1.2). split; [|split; [done|]].
    + rewrite Es, Ecs. destruct (control_run_app before [(q, kill)] new_receiver) as [_ ->]. fold r.
      destruct (control_run_cons (q, kill) [] r) as (_ & _ & ->). cbn. by rewrite app_nil_r, app_assoc.
    + intros s Hs. destruct (control_run after (control_step (q, kill) r).1.2) as [[an r'] se] eqn:E.
      destruct (control_run_spec _ _ _ _ _ E) as [_ Hab]. specialize (Hab s Hs). unfold above in Hab. rewrite Hl in Hab.
      unfold identity_lt in Hab. lia.
Qed.
End Channel.

(** A signal, the same request again, a new owner, and a late signal of the old one. *)
Lemma signals_once_in_order_witness :
  let term e n := (MkRequest e n (Some (SignalNumber 15)), Ok tt) in
  let qs := [term 1%Z 1%Z; term 1%Z 1%Z; (MkRequest 2 0 (Some (Claim true)), Ok tt); term 1%Z 2%Z] in
  (control_run (fun _ => true) qs new_receiver).2 = [(15%Z, (1%Z, 1%Z))] /\
  increasing (control_run (fun _ => true) qs new_receiver).2.
Proof. intros term qs. split; [by vm_compute|]. apply (signals_once_in_order (fun _ => true) qs). Defined.
End Control.
