(* ===== verification/Pci.v ===== *)
(** * The policy of host PCI devices

    [vmd/src/pci.rs]: which functions of the host may be given to a machine. A policy
    file is normalised once, when the daemon starts; everything later relies on its
    form. *)

From S2P Require Import Prelude ContentHash Effects Etcd ControlBus SessionRoutes Reconcile Placement.
From Stdlib Require Import ZArith Lia Ascii.

Record PciDevicePolicy := MkPci {
  pci_id : string;
  pci_label : string;
  pci_bdfs : list string;
  pci_managed : bool;
  pci_hotplug : bool;
  pci_prepare_command : list string;
  pci_release_command : list string;
}.

Record PciConfig := MkPciConfig { pci_capability_token : option string; pci_devices : list PciDevicePolicy }.

Definition pci_enabled (c : PciConfig) : bool := match pci_devices c with [] => false | _ => true end.

Definition pci_device (c : PciConfig) (id : string) : option PciDevicePolicy :=
  List.find (fun d => String.eqb (pci_id d) id) (pci_devices c).

(** ** Text *)

Fixpoint count_char (c : ascii) (s : string) : nat :=
  match s with EmptyString => 0 | String a s => (if Ascii.eqb a c then 1 else 0) + count_char c s end.

Definition in_range (lo hi : N) (a : ascii) : bool := (lo <=? N_of_ascii a)%N && (N_of_ascii a <=? hi)%N.
Definition is_ascii_lowercase (a : ascii) : bool := in_range 97 122 a.
Definition is_ascii_hexdigit (a : ascii) : bool := in_range 48 57 a || in_range 65 70 a || in_range 97 102 a.

Fixpoint all_chars (f : nat -> ascii -> bool) (index : nat) (s : string) : bool :=
  match s with EmptyString => true | String a s => f index a && all_chars f (S index) s end.

Definition nth_is (n : nat) (c : ascii) (s : string) : bool :=
  match String.get n s with Some a => Ascii.eqb a c | None => false end.

(** [dddd:bb:ss.f] *)
Definition bdf_valid (s : string) : bool :=
  (String.length s =? 12) && nth_is 4 ":"%char s && nth_is 7 ":"%char s && nth_is 10 "."%char s
  && all_chars (fun i a => (i =? 4) || (i =? 7) || (i =? 10) || is_ascii_hexdigit a) 0 s.

Definition normalize_bdf (raw : string) : result string string :=
  let value := to_ascii_lowercase (trim raw) in
  let with_domain := if count_char ":"%char value =? 1 then "0000:" +:+ value else value in
  if negb (bdf_valid with_domain) then Err ("invalid PCI BDF `" +:+ raw +:+ "`; expected dddd:bb:ss.f")
  else Ok with_domain.

Definition id_char (a : ascii) : bool :=
  is_ascii_lowercase a || in_range 48 57 a || Ascii.eqb a "-"%char || Ascii.eqb a "_"%char.
Definition id_valid (s : string) : bool := negb (is_empty_str s) && all_chars (fun _ a => id_char a) 0 s.

Definition normalize_device_id (raw : string) : result string string :=
  let value := to_ascii_lowercase (trim raw) in
  if negb (id_valid value) then Err ("invalid PCI policy id `" +:+ raw +:+ "`") else Ok value.

Definition has_nul (s : string) : bool := negb (all_chars (fun _ a => negb (Ascii.eqb a "000"%char)) 0 s).

Definition hook_valid (command : list string) : bool :=
  match command with
  | [] => true
  | program :: _ => negb (is_empty_str (trim program)) && negb (existsb has_nul command)
  end.

Definition validate_hook (command : list string) (id field : string) : result string unit :=
  guard_err (negb (hook_valid command)) ("PCI policy `" +:+ id +:+ "` has an invalid " +:+ field).

(** ** Normalisation *)

(** The functions of one device; [bdfs] are those of the policy so far. *)
Fixpoint normalize_bdfs (raw : list string) (bdfs : gset string) : result string (list string * gset string) :=
  match raw with
  | [] => Ok ([], bdfs)
  | r :: raw =>
      match normalize_bdf r with
      | Err e => Err e
      | Ok bdf =>
          if bool_decide (bdf ∈ bdfs) then Err ("PCI BDF `" +:+ bdf +:+ "` appears in more than one policy device")
          else match normalize_bdfs raw ({[bdf]} ∪ bdfs) with
               | Err e => Err e
               | Ok (l, bdfs) => Ok (bdf :: l, bdfs)
               end
      end
  end.

Definition normalize_device (d : PciDevicePolicy) (ids bdfs : gset string) :
    result string (PciDevicePolicy * gset string * gset string) :=
  match normalize_device_id (pci_id d) with
  | Err e => Err e
  | Ok id =>
      if bool_decide (id ∈ ids) then Err ("duplicate PCI policy id `" +:+ id +:+ "`")
      else
        let label := if is_empty_str (trim (pci_label d)) then id else trim (pci_label d) in
        match pci_bdfs d with
        | [] => Err ("PCI policy `" +:+ id +:+ "` must contain at least one BDF")
        | _ :: _ =>
            match normalize_bdfs (pci_bdfs d) bdfs with
            | Err e => Err e
            | Ok (l, bdfs) =>
                match validate_hook (pci_prepare_command d) id "prepareCommand" with
                | Err e => Err e
                | Ok _ =>
                    match validate_hook (pci_release_command d) id "releaseCommand" with
                    | Err e => Err e
                    | Ok _ =>
                        Ok (MkPci id label (sorted_strings (list_to_set l)) (pci_managed d) (pci_hotplug d)
                              (pci_prepare_command d) (pci_release_command d), {[id]} ∪ ids, bdfs)
                    end
                end
            end
        end
  end.

Fixpoint normalize_devices (ds : list PciDevicePolicy) (ids bdfs : gset string) :
    result string (list PciDevicePolicy) :=
  match ds with
  | [] => Ok []
  | d :: ds =>
      match normalize_device d ids bdfs with
      | Err e => Err e
      | Ok (d', ids, bdfs) =>
          match normalize_devices ds ids bdfs with
          | Err e => Err e
          | Ok ds' => Ok (d' :: ds')
          end
      end
  end.

Definition id_order (a b : PciDevicePolicy) : comparison := str_compare (pci_id a) (pci_id b).

Definition normalize_pci (c : PciConfig) : result string PciConfig :=
  match pci_devices c with
  | [] => Ok (MkPciConfig None [])
  | ds =>
      if match pci_capability_token c with Some t => is_empty_str (trim t) | None => true end
      then Err "PCI policy requires a non-empty capabilityToken"%string
      else match normalize_devices ds ∅ ∅ with
           | Err e => Err e
           | Ok ds' => Ok (MkPciConfig (pci_capability_token c) (sort_by id_order ds'))
           end
  end.

(** ** The type of a normalised policy *)

Record device_wf (d : PciDevicePolicy) : Prop := {
  dw_id : id_valid (pci_id d) = true;
  dw_label : pci_label d ≠ EmptyString;
  dw_some : pci_bdfs d ≠ [];
  dw_bdfs : forall b, b ∈ pci_bdfs d -> bdf_valid b = true /\ to_ascii_lowercase b = b;
  dw_sorted : StronglySorted str_le (pci_bdfs d);
  dw_distinct : NoDup (pci_bdfs d);
  dw_hooks : hook_valid (pci_prepare_command d) = true /\ hook_valid (pci_release_command d) = true;
}.

(** A disabled policy has no token; an enabled one has a token, devices with different
    names, in their order, and no function in two of them. *)
Record pci_wf (c : PciConfig) : Prop := {
  pw_disabled : pci_devices c = [] -> pci_capability_token c = None;
  pw_token : pci_devices c ≠ [] -> exists t, pci_capability_token c = Some t /\ is_empty_str (trim t) = false;
  pw_devices : Forall device_wf (pci_devices c);
  pw_ids : NoDup (pci_id <$> pci_devices c);
  pw_order : StronglySorted str_le (pci_id <$> pci_devices c);
  pw_disjoint : NoDup (pci_devices c ≫= pci_bdfs);
}.

Lemma to_ascii_lower_idemp a : to_ascii_lower (to_ascii_lower a) = to_ascii_lower a.
Proof. destruct a as [[] [] [] [] [] [] [] []]; reflexivity. Qed.

Lemma to_ascii_lowercase_idemp s : to_ascii_lowercase (to_ascii_lowercase s) = to_ascii_lowercase s.
Proof. induction s as [|a s IH]; cbn [to_ascii_lowercase]; [done|]. by rewrite to_ascii_lower_idemp, IH. Qed.

Lemma normalize_bdf_wf raw b : normalize_bdf raw = Ok b -> bdf_valid b = true /\ to_ascii_lowercase b = b.
Proof.
  unfold normalize_bdf. destruct (count_char ":"%char (to_ascii_lowercase (trim raw)) =? 1);
    (destruct (bdf_valid _) eqn:Ev; cbn [negb]; [|done]); intros [= <-]; (split; [done|]); [|apply to_ascii_lowercase_idemp].
  change ("0000:" +:+ ?t) with (String "0" (String "0" (String "0" (String "0" (String ":" t))))).
  cbn [to_ascii_lowercase]. by rewrite to_ascii_lowercase_idemp.
Qed.

Lemma normalize_bdfs_wf raw : forall bdfs l bdfs',
  normalize_bdfs raw bdfs = Ok (l, bdfs') ->
  NoDup l /\ (forall b, b ∈ l -> (bdf_valid b = true /\ to_ascii_lowercase b = b) /\ b ∉ bdfs) /\ bdfs' = list_to_set l ∪ bdfs /\ length l = length raw.
Proof.
  induction raw as [|r raw IH]; intros bdfs l bdfs'; cbn.
  - intros [= <- <-]. split_and!; [constructor|intros b Hb; by apply elem_of_nil in Hb|set_solver|done].
  - destruct (normalize_bdf r) as [b|] eqn:Ev; [|done]. apply normalize_bdf_wf in Ev.
    case_bool_decide as Hb; [done|]. destruct (normalize_bdfs raw _) as [[l0 s0]|] eqn:E; [|done].
    intros [= <- <-]. destruct (IH _ _ _ E) as (Hd & Hall & -> & Hlen). split_and!.
    + constructor; [|done]. intros Hin. destruct (Hall _ Hin). set_solver.
    + intros x [->|Hx]%elem_of_cons; [done|]. destruct (Hall _ Hx). set_solver.
    + cbn. set_solver.
    + cbn. lia.
Qed.

Lemma sorted_strings_sorted s : StronglySorted str_le (sorted_strings s).
Proof. unfold sorted_strings. apply (StronglySorted_merge_sort str_le). Qed.

Lemma normalize_device_wf d ids bdfs d' ids' bdfs' :
  normalize_device d ids bdfs = Ok (d', ids', bdfs') ->
  device_wf d' /\ pci_id d' ∉ ids /\ ids' = {[pci_id d']} ∪ ids /\
  (forall b, b ∈ pci_bdfs d' -> b ∉ bdfs) /\ bdfs' = list_to_set (pci_bdfs d') ∪ bdfs.
Proof.
  unfold normalize_device, normalize_device_id. destruct (id_valid _) eqn:Eid; cbn; [|done].
  set (id := to_ascii_lowercase _) in *. case_bool_decide as Hid; [done|].
  destruct (pci_bdfs d) as [|b0 bs] eqn:Eb; [done|]. rewrite <- Eb.
  destruct (normalize_bdfs (pci_bdfs d) bdfs) as [[l s]|] eqn:En; [|done].
  unfold validate_hook. destruct (hook_valid (pci_prepare_command d)) eqn:Ep; cbn; [|done].
  destruct (hook_valid (pci_release_command d)) eqn:Er; cbn; [|done]. intros [= <- <- <-].
  destruct (normalize_bdfs_wf _ _ _ _ En) as (Hd & Hall & -> & Hlen).
  assert (forall b, b ∈ sorted_strings (list_to_set l) <-> b ∈ l) as Hin
    by (intros b; by rewrite elem_of_sorted_strings, elem_of_list_to_set).
  cbn. split_and!; [split; cbn; try done|done|done| |].
  - destruct (is_empty_str (trim (pci_label d))) eqn:El; [|by intros Ht; rewrite Ht in El].
    intros Hn. unfold id_valid in Eid. rewrite Hn in Eid. done.
  - intros Hn. destruct l as [|x l]; [rewrite Eb in Hlen; cbn in Hlen; lia|].
    assert (x ∈ sorted_strings (list_to_set (x :: l))) as Hx by (apply Hin; set_solver).
    rewrite Hn in Hx. by apply elem_of_nil in Hx.
  - intros b Hb%Hin. by apply Hall.
  - apply sorted_strings_sorted.
  - unfold sorted_strings. rewrite merge_sort_Permutation. apply NoDup_elements.
  - intros b Hb%Hin. by apply Hall.
  - apply set_eq. intros x. rewrite !elem_of_union, !elem_of_list_to_set, Hin. done.
Qed.

Lemma normalize_devices_wf ds : forall ids bdfs ds',
  normalize_devices ds ids bdfs = Ok ds' ->
  Forall device_wf ds' /\ NoDup (pci_id <$> ds') /\ (forall d, d ∈ ds' -> pci_id d ∉ ids) /\
  NoDup (ds' ≫= pci_bdfs) /\ (forall b, b ∈ ds' ≫= pci_bdfs -> b ∉ bdfs) /\ length ds' = length ds.
Proof.
  induction ds as [|d ds IH]; intros ids bdfs ds'; cbn.
  - intros [= <-]. split_and!; try constructor; intros x Hx; by apply elem_of_nil in Hx.
  - destruct (normalize_device d ids bdfs) as [[[d' ids1] bdfs1]|] eqn:Ed; [|done].
    destruct (normalize_devices ds ids1 bdfs1) as [ds1|] eqn:Eds; [|done]. intros [= <-].
    destruct (normalize_device_wf _ _ _ _ _ _ Ed) as (Hwf & Hid & -> & Hb & ->).
    destruct (IH _ _ _ Eds) as (Hall & Hnd & Hids & Hbd & Hbs & Hlen). split_and!.
    + by constructor.
    + cbn. constructor; [|done]. intros (d2 & Heq & Hin)%list_elem_of_fmap. apply (Hids d2 Hin). rewrite Heq. set_solver.
    + intros x [->|Hx]%elem_of_cons; [done|]. specialize (Hids x Hx). set_solver.
    + cbn. apply NoDup_app. split_and!; [apply Hwf| |done]. intros b Hb1 Hb2. apply (Hbs b Hb2).
      rewrite elem_of_union, elem_of_list_to_set. by left.
    + cbn. intros b [Hb1|Hb2]%elem_of_app; [by apply Hb|]. specialize (Hbs b Hb2). set_solver.
    + cbn. lia.
Qed.

Lemma insert_by_perm {A} (cmp : A -> A -> comparison) x l : insert_by cmp x l ≡ₚ x :: l.
Proof. induction l as [|y l IH]; cbn; [done|]. destruct (cmp x y); [done..|]. rewrite IH. apply Permutation_swap. Qed.

Lemma sort_by_perm {A} (cmp : A -> A -> comparison) l : sort_by cmp l ≡ₚ l.
Proof. induction l as [|x l IH]; [done|]. change (sort_by cmp (x :: l)) with (insert_by cmp x (sort_by cmp l)). by rewrite insert_by_perm, IH. Qed.

Lemma str_compare_gt s t : str_compare s t = Gt -> str_le t s.
Proof.
  unfold str_compare, str_le. destruct (str_leb s t) eqn:E; [by destruct (str_leb t s)|]. intros _.
  destruct (total str_le s t) as [Hst|]; [|done]. unfold str_le in Hst. congruence.
Qed.
Lemma str_compare_le s t : str_compare s t ≠ Gt -> str_le s t.
Proof. unfold str_compare, str_le. by destruct (str_leb s t). Qed.

Lemma insert_id_sorted d l : StronglySorted str_le (pci_id <$> l) -> StronglySorted str_le (pci_id <$> insert_by id_order d l).
Proof.
  induction l as [|x l IH]; cbn; intros Hs; [by repeat constructor|]. apply StronglySorted_inv in Hs as [Hs Hall].
  assert (str_le (pci_id d) (pci_id x) -> StronglySorted str_le (pci_id <$> d :: x :: l)) as Hfront.
  { intros Hdx. cbn. constructor; [by constructor|]. constructor; [done|].
    eapply Forall_impl; [done|]. intros y Hy. cbn in Hy. by etrans. }
  destruct (id_order d x) eqn:E; unfold id_order in E; cbn.
  1,2: apply Hfront, str_compare_le; by rewrite E.
  constructor; [by apply IH|]. rewrite (fmap_Permutation _ _ _ (insert_by_perm id_order d l)). cbn.
  constructor; [by apply str_compare_gt|done].
Qed.

Lemma sort_id_sorted l : StronglySorted str_le (pci_id <$> sort_by id_order l).
Proof.
  induction l as [|d l IH]; [constructor|].
  change (sort_by id_order (d :: l)) with (insert_by id_order d (sort_by id_order l)). by apply insert_id_sorted.
Qed.

(** C36: every policy that is accepted is well formed: without devices it carries no
    token; otherwise it has a token, its devices have distinct valid names in
    increasing order, each with a label, at least one function and valid hooks, every
    function is a full lower-case address, and no function is named twice in the whole
    policy. *)
Theorem normalized_policy_well_formed c c' : normalize_pci c = Ok c' -> pci_wf c'.
Proof.
  unfold normalize_pci. destruct (pci_devices c) as [|d0 ds0] eqn:Ed.
  { intros [= <-]. split; cbn; try done; constructor. }
  rewrite <- Ed. destruct (match pci_capability_token c with Some t => is_empty_str (trim t) | None => true end) eqn:Et; [done|].
  destruct (normalize_devices (pci_devices c) ∅ ∅) as [ds|] eqn:En; [|done]. intros [= <-].
  destruct (normalize_devices_wf _ _ _ _ En) as (Hall & Hids & _ & Hb & _ & Hlen).
  pose proof (sort_by_perm id_order ds) as Hp. split; cbn.
  - intros Hn. rewrite Hn in Hp. apply Permutation_nil_l in Hp. subst ds. rewrite Ed in Hlen. done.
  - intros _. destruct (pci_capability_token c) as [t|]; [by exists t|done].
  - by rewrite Hp.
  - by rewrite Hp.
  - apply sort_id_sorted.
  - by rewrite Hp.
Qed.

(** A policy with two devices, one of them without a domain. *)
Definition sample_policy : PciConfig :=
  MkPciConfig (Some "secret"%string)
    [MkPci " GPU-1 " "" ["0A:00.1"; "0a:00.0"]%string true false ["/bin/true"%string] [];
     MkPci "audio" "Sound" ["0001:02:00.0"]%string false true [] []].

Definition sample_normalized : PciConfig :=
  MkPciConfig (Some "secret"%string)
    [MkPci "audio" "Sound" ["0001:02:00.0"]%string false true [] [];
     MkPci "gpu-1" "gpu-1" ["0000:0a:00.0"; "0000:0a:00.1"]%string true false ["/bin/true"%string] []].

Lemma normalized_policy_well_formed_witness :
  normalize_pci sample_policy = Ok sample_normalized /\ pci_wf sample_normalized.
Proof.
  assert (normalize_pci sample_policy = Ok sample_normalized) as H by (vm_compute; reflexivity).
  split; [exact H|]. exact (normalized_policy_well_formed sample_policy sample_normalized H).
Defined.
