(* ===== verification/PciHost.v ===== *)
(** * Giving host PCI functions to a machine and taking them back

    [vmd/src/pci.rs]: inspecting the functions of a policy, binding them to
    [vfio-pci], and restoring the drivers they had. Everything goes through files of
    [/sys] and [/dev] and through commands of the host, each of which may fail. *)

From S2P Require Import Prelude ContentHash Effects Etcd ControlBus SessionRoutes Reconcile Placement Pci.
From Stdlib Require Import ZArith Lia Ascii.

(** ** Data *)

Record PciDeviceAssignmentSpec := MkAssign {
  as_id : string;
  as_bdfs : list string;
  as_iommu_groups : list string;
  as_original_drivers : gmap string string;
}.

(** An [anyhow::Error] is its chain of messages, the outermost first. *)
Abbreviation chain := (list string).
Definition chain_text (e : chain) : string := default EmptyString (head e).
Definition context (c : string) (e : chain) : chain := c :: e.

(** What [prepare_assignment] fails with: [PciRollbackError] can be told apart. *)
Inductive PciError :=
| PciPlain (e : chain)
| PciRollbackError (assignment : PciDeviceAssignmentSpec) (source : chain).

Inductive PciInventoryState := PiUnavailable | PiHost | PiReady | PiAssigned | PiError.
Global Instance PciInventoryState_eq_dec : EqDecision PciInventoryState.
Proof. solve_decision. Defined.

Record PciFunctionInfo := MkFunction {
  fn_bdf : string;
  fn_vendor_id : string;
  fn_device_id : string;
  fn_class_code : string;
  fn_driver : string;
  fn_iommu_group : string;
}.

Record PciInventoryDevice := MkInventory {
  iv_id : string;
  iv_label : string;
  iv_functions : list PciFunctionInfo;
  iv_state : PciInventoryState;
  iv_assigned_vm_id : string;
  iv_managed : bool;
  iv_hotplug_capable : bool;
  iv_unavailable_reason : string;
}.

(** ** Operations of the host *)

(** [Command::status]: the command ran to its end, was not found, or could not be
    started. *)
Inductive CommandStatus :=
| Exited (success : bool) (status : string)
| NotFound
| SpawnFailed (error : string).

Inductive PciE : Type -> Type :=
| Exists (path : string) : PciE bool
| ReadLink (path : string) : PciE (result string string)
| ReadDir (path : string) : PciE (result string (list string))   (** the names in a directory *)
| ReadFile (path : string) : PciE (result string string)
| WriteFile (path value : string) : PciE (result string unit)
| Status (program : string) (args : list string) : PciE CommandStatus
| Geteuid : PciE Z
| Chown (path : string) (uid gid : Z) : PciE (result string unit)
| Chmod (path : string) (mode : Z) : PciE (result string unit).

Abbreviation Pci := (prog PciE).

(** [r.with_context(|| c)] *)
Definition with_context {A} (c : string) (r : result string A) : result chain A :=
  match r with Ok a => Ok a | Err e => Err [c; e] end.

(** ** Paths *)

(** [Path::join]: an absolute path replaces. *)
Definition path_join (a b : string) : string := if starts_with "/" b then b else a +:+ "/" +:+ b.

(** [Path::file_name]: the last component unless it is [..]. *)
Definition file_name (path : string) : option string :=
  match last (filter (fun c => c ≠ EmptyString /\ c ≠ "."%string) (split_on "/" path)) with
  | Some c => if String.eqb c ".." then None else Some c
  | None => None
  end.

(** [value.trim_start_matches("0x")] removes every leading occurrence. *)
Definition trim_0x (s : string) : string := trim_start_loop (String.length s) ["0x"%string] s.

Section Host.
Context (sysfs_root dev_root : string).

Definition pci_device_path (bdf : string) : string := path_join (path_join sysfs_root "bus/pci/devices") bdf.
Definition driver_probe_path : string := path_join sysfs_root "bus/pci/drivers_probe".
Definition vfio_driver_path : string := path_join sysfs_root "bus/pci/drivers/vfio-pci".
Definition driver_path (driver : string) : string := path_join (path_join sysfs_root "bus/pci/drivers") driver.
Definition vfio_group_path (group : string) : string := path_join (path_join dev_root "vfio") group.

(** ** Reading *)

Definition read_hex_attribute (path : string) : Pci string :=
  r ← perform (ReadFile path);
  Ret (match r with Ok v => to_ascii_lowercase (trim_0x (trim v)) | Err _ => EmptyString end).

Definition link_name (path : string) : Pci string :=
  r ← perform (ReadLink path);
  Ret (match r with Ok target => default EmptyString (file_name target) | Err _ => EmptyString end).

Definition driver_name (device_path : string) : Pci string := link_name (path_join device_path "driver").
Definition iommu_group (device_path : string) : Pci string := link_name (path_join device_path "iommu_group").

Definition group_members (device_path : string) : Pci (result chain (list string)) :=
  r ← perform (ReadLink (path_join device_path "iommu_group"));
  group_path ←? Ret (with_context ("device " +:+ device_path +:+ " has no IOMMU group") r);
  let absolute_group := path_join device_path group_path in
  members ← perform (ReadDir (path_join absolute_group "devices"));
  Ret (match members with Ok l => Ok (merge_sort str_le l) | Err e => Err [e] end).

Definition is_iommu_bridge_infrastructure (device_path : string) : Pci bool :=
  class_code ← read_hex_attribute (path_join device_path "class");
  Ret (starts_with "0600" class_code || starts_with "0604" class_code).

Definition running_as_root : Pci bool := uid ← perform Geteuid; Ret (uid =? 0)%Z.

Definition inspect_function (bdf : string) : Pci (result chain PciFunctionInfo) :=
  let path := pci_device_path bdf in
  there ← perform (Exists path);
  if negb there then Ret (Err ["PCI function " +:+ bdf +:+ " does not exist"])
  else
    vendor ← read_hex_attribute (path_join path "vendor");
    device ← read_hex_attribute (path_join path "device");
    class ← read_hex_attribute (path_join path "class");
    driver ← driver_name path;
    group ← iommu_group path;
    Ret (Ok (MkFunction bdf vendor device class driver group)).

(** The members of a group that are not of the policy must be bridges. *)
Definition validate_member (policy : PciDevicePolicy) (group member : string) : Pci (result chain unit) :=
  if bool_decide (member ∈ pci_bdfs policy) then Ret (Ok tt)
  else
    bridge ← is_iommu_bridge_infrastructure (pci_device_path member);
    if (bridge : bool) then Ret (Ok tt)
    else Ret (Err ["PCI policy `" +:+ pci_id policy +:+ "` does not include IOMMU group " +:+ group
                   +:+ " member " +:+ member]).

Definition validate_iommu_group (policy : PciDevicePolicy) : Pci (result chain unit) :=
  try_each (pci_bdfs policy) (fun bdf =>
    let path := pci_device_path bdf in
    group ← iommu_group path;
    if is_empty_str group then Ret (Err ["IOMMU is not enabled for PCI function " +:+ bdf])
    else
      members ←? group_members path;
      try_each members (validate_member policy group)).

(** [iter().map(f).collect::<Result<Vec<_>>>()] *)
Fixpoint try_map {A B} (f : A -> Pci (result chain B)) (xs : list A) : Pci (result chain (list B)) :=
  match xs with
  | [] => Ret (Ok [])
  | x :: xs => y ←? f x; ys ←? try_map f xs; Ret (Ok (y :: ys))
  end.

(** [linux]: the daemon was built for Linux. *)
Definition inventory_device (linux : bool) (policy : PciDevicePolicy) (assigned_vm_id : option string) :
    Pci PciInventoryDevice :=
  inspected ← try_map inspect_function (pci_bdfs policy);
  let device functions state reason :=
    MkInventory (pci_id policy) (pci_label policy) functions state (default EmptyString assigned_vm_id)
      (pci_managed policy) (pci_hotplug policy) reason in
  match inspected with
  | Err error => Ret (device [] (if assigned_vm_id then PiAssigned else PiUnavailable) (chain_text error))
  | Ok functions =>
      match assigned_vm_id with
      | Some _ => Ret (device functions PiAssigned EmptyString)
      | None =>
          if negb linux
          then Ret (device functions PiUnavailable "PCI passthrough is supported only on Linux vmd hosts"%string)
          else
            valid ← validate_iommu_group policy;
            match valid with
            | Err error => Ret (device functions PiUnavailable (chain_text error))
            | Ok _ =>
                root ← (if pci_managed policy then running_as_root else Ret true);
                if negb root
                then Ret (device functions PiUnavailable "managed PCI assignment requires vmd to run as root"%string)
                else
                  let all_vfio := forallb (fun f => String.eqb (fn_driver f) "vfio-pci") functions in
                  if negb (pci_managed policy) && negb all_vfio
                  then Ret (device functions PiUnavailable
                              "device must be pre-bound to vfio-pci or configured as managed"%string)
                  else Ret (device functions (if all_vfio then PiReady else PiHost) EmptyString)
            end
      end
  end.

Fixpoint map_pci {A B} (f : A -> Pci B) (xs : list A) : Pci (list B) :=
  match xs with
  | [] => Ret []
  | x :: xs => y ← f x; ys ← map_pci f xs; Ret (y :: ys)
  end.

Definition inventory (linux : bool) (config : PciConfig) (leases : gmap string string) : Pci (list PciInventoryDevice) :=
  if negb (pci_enabled config) then Ret []
  else map_pci (fun policy => inventory_device linux policy (leases !! pci_id policy)) (pci_devices config).

(** [iter().all(f)] stops at the first that fails. *)
Fixpoint all_pci {A} (f : A -> Pci bool) (xs : list A) : Pci bool :=
  match xs with
  | [] => Ret true
  | x :: xs => b ← f x; if (b : bool) then all_pci f xs else Ret false
  end.

Definition assignment_ready (assignment : PciDeviceAssignmentSpec) : Pci bool :=
  match as_iommu_groups assignment with
  | [] => Ret false
  | _ =>
      bound ← all_pci (fun bdf =>
        driver ← driver_name (pci_device_path bdf);
        if String.eqb driver "vfio-pci" then
          group ← iommu_group (pci_device_path bdf); Ret (negb (is_empty_str group))
        else Ret false) (as_bdfs assignment);
      if (bound : bool) then all_pci (fun group => perform (Exists (vfio_group_path group))) (as_iommu_groups assignment)
      else Ret false
  end.

(** ** Changing bindings *)

Definition run_hook (command : list string) (label device_id : string) : Pci (result chain unit) :=
  match command with
  | [] => Ret (Ok tt)
  | program :: args =>
      status ← perform (Status program args);
      let what := "run PCI " +:+ label +:+ " hook for " +:+ device_id in
      Ret (match status with
           | Exited true _ => Ok tt
           | Exited false status => Err ["PCI " +:+ label +:+ " hook for " +:+ device_id +:+ " exited with " +:+ status]
           | NotFound => Err [what]
           | SpawnFailed e => Err [what; e]
           end)
  end.

Definition write_sysfs (path value : string) : Pci (result chain unit) :=
  r ← perform (WriteFile path value); Ret (with_context ("write " +:+ path) r).

Definition modprobes : list string := ["modprobe"; "/sbin/modprobe"; "/usr/sbin/modprobe"]%string.

(** The loop of [ensure_vfio_driver] and [ensure_kernel_driver]. *)
Fixpoint modprobe (path module : string) (programs : list string) (last_error : option string) :
    Pci (result (option string) unit) :=
  match programs with
  | [] => Ret (Err last_error)
  | program :: programs =>
      st ← perform (Status program [module]);
      match st with
      | Exited success status =>
          loaded ← (if (success : bool) then perform (Exists path) else Ret false);
          if (loaded : bool) then Ret (Ok tt)
          else modprobe path module programs (Some (program +:+ " exited with " +:+ status))
      | NotFound => modprobe path module programs last_error
      | SpawnFailed error => modprobe path module programs (Some error)
      end
  end.

Definition ensure_vfio_driver : Pci (result chain unit) :=
  there ← perform (Exists vfio_driver_path);
  if (there : bool) then Ret (Ok tt)
  else
    r ← modprobe vfio_driver_path "vfio-pci" modprobes None;
    Ret (match r with
         | Ok _ => Ok tt
         | Err last => Err (context "load vfio-pci" [default "vfio-pci is unavailable"%string last])
         end).

Definition ensure_kernel_driver (driver : string) : Pci (result chain unit) :=
  there ← (if is_empty_str driver then Ret true else perform (Exists (driver_path driver)));
  if (there : bool) then Ret (Ok tt)
  else
    r ← modprobe (driver_path driver) driver modprobes None;
    Ret (match r with
         | Ok _ => Ok tt
         | Err last => Err (context ("load original PCI driver `" +:+ driver +:+ "`")
                              [default ("kernel driver `" +:+ driver +:+ "` is unavailable") last])
         end).

Definition bind_driver (bdf driver : string) : Pci (result chain unit) :=
  let device_path := pci_device_path bdf in
  _ ←? write_sysfs (path_join device_path "driver_override") driver;
  current ← driver_name device_path;
  _ ←? (if negb (is_empty_str current) && negb (String.eqb current driver)
        then write_sysfs (path_join device_path "driver/unbind") bdf else Ret (Ok tt));
  again ← driver_name device_path;
  _ ←? (if negb (String.eqb again driver) then write_sysfs driver_probe_path bdf else Ret (Ok tt));
  rebound ← driver_name device_path;
  Ret (guard_err (negb (String.eqb rebound driver))
         ["PCI function " +:+ bdf +:+ " bound to `" +:+ rebound +:+ "` instead of `" +:+ driver +:+ "`"]).

Definition sysfs_newline : string := String "010" EmptyString.

Definition clear_driver_binding (bdf : string) : Pci (result chain unit) :=
  let device_path := pci_device_path bdf in
  current ← driver_name device_path;
  _ ←? (if negb (is_empty_str current) then write_sysfs (path_join device_path "driver/unbind") bdf else Ret (Ok tt));
  write_sysfs (path_join device_path "driver_override") sysfs_newline.

Definition probe_driver (bdf original_driver : string) : Pci (result chain unit) :=
  if is_empty_str original_driver then Ret (Ok tt)
  else
    let device_path := pci_device_path bdf in
    current ← driver_name device_path;
    _ ←? (if is_empty_str current then write_sysfs driver_probe_path bdf else Ret (Ok tt));
    restored ← driver_name device_path;
    Ret (guard_err (negb (String.eqb restored original_driver))
           ["PCI function " +:+ bdf +:+ " restored to `" +:+ restored +:+ "` instead of `" +:+ original_driver +:+ "`"]).

Definition grant_vfio_group (path : string) (uid gid : Z) : Pci (result chain unit) :=
  r ← perform (Chown path uid gid);
  _ ←? Ret (with_context ("chown " +:+ path) r);
  r ← perform (Chmod path 432);                      (* 0o660 *)
  Ret (with_context ("chmod " +:+ path) r).

(** ** Assignment *)

Context (config : PciConfig).

Definition release_managed (assignment : PciDeviceAssignmentSpec) : bool :=
  match pci_device config (as_id assignment) with Some policy => pci_managed policy | None => false end
  || existsb (fun driver => negb (is_empty_str driver) && negb (String.eqb driver "vfio-pci"))
       (map_to_list (as_original_drivers assignment)).*2.

(** The functions of an assignment in reverse, each with the driver it had. *)
Definition release_functions (assignment : PciDeviceAssignmentSpec) : list (string * string) :=
  (fun bdf => (bdf, default EmptyString (as_original_drivers assignment !! bdf))) <$> reverse (as_bdfs assignment).

Definition restore_drivers (assignment : PciDeviceAssignmentSpec) : Pci (result chain unit) :=
  let functions := release_functions assignment in
  _ ←? try_each functions (fun f => clear_driver_binding f.1);
  let drivers := sorted_strings (list_to_set (filter (fun d => d ≠ EmptyString) functions.*2)) in
  _ ←? try_each drivers ensure_kernel_driver;
  try_each functions (fun f => probe_driver f.1 f.2).

Definition release_assignment (assignment : PciDeviceAssignmentSpec) : Pci (result chain unit) :=
  _ ←? (if release_managed assignment then
          root ← running_as_root;
          if negb root then Ret (Err ["managed PCI release requires vmd to run as root"%string])
          else restore_drivers assignment
        else Ret (Ok tt));
  match pci_device config (as_id assignment) with
  | Some policy => run_hook (pci_release_command policy) "release" (pci_id policy)
  | None => Ret (Ok tt)
  end.

(** The drivers and groups of the functions before anything is changed. *)
Fixpoint record_originals (bdfs : list string) (drivers : gmap string string) (groups : gset string) :
    Pci (result chain (gmap string string * gset string)) :=
  match bdfs with
  | [] => Ret (Ok (drivers, groups))
  | bdf :: bdfs =>
      driver ← driver_name (pci_device_path bdf);
      group ← iommu_group (pci_device_path bdf);
      if is_empty_str group then Ret (Err ["IOMMU is not enabled for PCI function " +:+ bdf])
      else record_originals bdfs (<[bdf := driver]> drivers) ({[group]} ∪ groups)
  end.

Definition bind_functions (policy : PciDevicePolicy) : Pci (result chain unit) :=
  if pci_managed policy then
    _ ←? ensure_vfio_driver;
    try_each (pci_bdfs policy) (fun bdf => bind_driver bdf "vfio-pci")
  else
    try_each (pci_bdfs policy) (fun bdf =>
      driver ← driver_name (pci_device_path bdf);
      Ret (guard_err (negb (String.eqb driver "vfio-pci"))
             ["PCI function " +:+ bdf +:+ " is bound to `" +:+ driver +:+ "`, not vfio-pci"])).

Definition grant_groups (policy : PciDevicePolicy) (groups : list string) (uid gid : Z) : Pci (result chain unit) :=
  try_each groups (fun group =>
    let path := vfio_group_path group in
    there ← perform (Exists path);
    if negb there then Ret (Err ["VFIO group device " +:+ path +:+ " does not exist"])
    else
      allowed ← (if pci_managed policy then Ret true else running_as_root);
      if (allowed : bool) then grant_vfio_group path uid gid else Ret (Ok tt)).

Definition plain_err {A} (r : result chain A) : result PciError A :=
  match r with Ok a => Ok a | Err e => Err (PciPlain e) end.
Definition plain {A} (m : Pci (result chain A)) : Pci (result PciError A) := r ← m; Ret (plain_err r).

Definition prepare_assignment (device_id : string) (qemu_uid qemu_gid : Z) :
    Pci (result PciError PciDeviceAssignmentSpec) :=
  match pci_device config device_id with
  | None => Ret (Err (PciPlain ["PCI device `" +:+ device_id +:+ "` is not allowlisted"]))
  | Some policy =>
      _ ←? plain (validate_iommu_group policy);
      recorded ←? plain (record_originals (pci_bdfs policy) ∅ ∅);
      let assignment := MkAssign (pci_id policy) (pci_bdfs policy) (sorted_strings recorded.2) recorded.1 in
      root ← (if pci_managed policy then running_as_root else Ret true);
      if negb root then Ret (Err (PciPlain ["managed PCI assignment requires vmd to run as root"%string]))
      else
        hook ← run_hook (pci_prepare_command policy) "prepare" (pci_id policy);
        match hook with
        | Err error =>
            released ← run_hook (pci_release_command policy) "release" (pci_id policy);
            Ret (Err (PciPlain (match released with
                                | Err e => context ("PCI prepare-hook cleanup also failed: " +:+ chain_text e) error
                                | Ok _ => error
                                end)))
        | Ok _ =>
            setup ← (_ ←? bind_functions policy; grant_groups policy (as_iommu_groups assignment) qemu_uid qemu_gid);
            match setup with
            | Ok _ => Ret (Ok assignment)
            | Err error =>
                rollback ← (if pci_managed policy then release_assignment assignment
                            else run_hook (pci_release_command policy) "release" (pci_id policy));
                Ret (Err (match rollback with
                          | Ok _ => PciPlain error
                          | Err e => PciRollbackError assignment
                                       (context ("PCI bind rollback also failed: " +:+ chain_text e) error)
                          end))
            end
        end
  end.

End Host.
