(* ===== verification/PciBinding.v ===== *)
(** * Bindings survive a failed assignment

    What Linux documents of the files [PciHost.v] writes, and what an assignment
    does to the drivers of the host whichever of its calls fail. *)

From S2P Require Import Prelude ContentHash Effects Pci PciHost.

(** ** The host

    [hbound s b] is the driver function [b] is bound to, empty when it is bound to
    none. *)

Class PciSystem := {
  hstate : Type;
  hchoice : Type;
  hcall : forall A, PciE A -> hstate -> hchoice -> option (A * hstate);
  hbound : hstate -> string -> string;
}.

(** Calls that only look, or change something else than a driver. *)
Definition quiet {A} (e : PciE A) : bool :=
  match e with WriteFile _ _ | Status _ _ => false | _ => true end.

(** [driver] links to the bound driver; [driver_override] only guides later probes;
    [driver/unbind] frees the one function written to it; [drivers_probe] binds the one
    function written to it if it is free; loading a module binds functions that are free. *)
Class PciSystemLaws `{PciSystem} (sysfs_root : string) : Prop := {
  law_driver : forall b s c r s', bdf_valid b = true ->
    hcall _ (ReadLink (path_join (pci_device_path sysfs_root b) "driver")) s c = Some (r, s') ->
    match r with Ok target => default EmptyString (file_name target) | Err _ => EmptyString end = hbound s b;
  law_quiet : forall A (e : PciE A) s c a s',
    quiet e = true -> hcall _ e s c = Some (a, s') -> forall b, hbound s' b = hbound s b;
  law_override : forall b v s c r s', bdf_valid b = true ->
    hcall _ (WriteFile (path_join (pci_device_path sysfs_root b) "driver_override") v) s c = Some (r, s') ->
    forall x, hbound s' x = hbound s x;
  law_unbind : forall b s c r s', bdf_valid b = true ->
    hcall _ (WriteFile (path_join (pci_device_path sysfs_root b) "driver/unbind") b) s c = Some (r, s') ->
    (forall x, x ≠ b -> hbound s' x = hbound s x) /\
    (match r with Ok _ => hbound s' b = EmptyString | Err _ => hbound s' b = hbound s b end);
  law_probe : forall b s c r s', bdf_valid b = true ->
    hcall _ (WriteFile (driver_probe_path sysfs_root) b) s c = Some (r, s') ->
    forall x, x ≠ b \/ hbound s x ≠ EmptyString -> hbound s' x = hbound s x;
  law_modprobe : forall p module s c r s', p ∈ modprobes ->
    hcall _ (Status p [module]) s c = Some (r, s') ->
    forall x, hbound s x ≠ EmptyString -> hbound s' x = hbound s x;
}.

(** What is asked of the operator: the prepare and release hooks of a policy ([run_hook])
    are programs of the operator, of which nothing is known; those of this development
    do not take a function from the driver it is bound to. *)
Class HooksKeepDrivers `{PciSystem} : Prop :=
  law_hook : forall p args s c r s',
    ~ (p ∈ modprobes /\ exists module, args = [module]) ->
    hcall _ (Status p args) s c = Some (r, s') ->
    forall x, hbound s x ≠ EmptyString -> hbound s' x = hbound s x.

Section Laws.
Context `{PciSystem} (sysfs_root dev_root : string) `{!PciSystemLaws sysfs_root, !HooksKeepDrivers}.

Abbreviation wp := (wp_prog hcall).
Abbreviation device := (pci_device_path sysfs_root).

Definition valid (b : string) : Prop := bdf_valid b = true.

(** ** Programs and the functions they may take a driver from *)

Definition same (s s' : hstate) : Prop := forall b, hbound s' b = hbound s b.
Definition leaves (X : string -> Prop) (s s' : hstate) : Prop :=
  forall b, ~ X b -> hbound s b ≠ EmptyString -> hbound s' b = hbound s b.
Definition nothing : string -> Prop := fun _ => False.

Global Instance leaves_preorder X : PreOrder (leaves X).
Proof.
  split; [by intros s b|]. intros s1 s2 s3 H1 H2 b Hb Hn. rewrite <- (H1 b Hb Hn). apply H2; [done|]. by rewrite H1.
Qed.

Lemma leaves_weaken (X Y : string -> Prop) s s' : (forall b, X b -> Y b) -> leaves X s s' -> leaves Y s s'.
Proof. intros HXY HX b Hb. apply HX. by intros ?%HXY. Qed.
Lemma leaves_any X s s' : leaves nothing s s' -> leaves X s s'.
Proof. by apply leaves_weaken. Qed.
Lemma same_leaves X s s' : same s s' -> leaves X s s'.
Proof. intros Hs b _ _. apply Hs. Qed.
Lemma same_trans s1 s2 s3 : same s1 s2 -> same s2 s3 -> same s1 s3.
Proof. intros H1 H2 b. by rewrite H2. Qed.

Definition reads {A} (p : Pci A) : Prop := forall s, wp p (fun _ s' => same s s') s.
Definition within {A} (X : string -> Prop) (p : Pci A) : Prop := forall s, wp p (fun _ s' => leaves X s s') s.

Lemma reads_within {A} X (p : Pci A) : reads p -> within X p.
Proof. intros Hp s. eapply wp_prog_mono; [|apply Hp]. intros r s'. apply same_leaves. Qed.
Lemma within_weaken {A} (X Y : string -> Prop) (p : Pci A) : (forall b, X b -> Y b) -> within X p -> within Y p.
Proof. intros HXY Hp s. eapply wp_prog_mono; [|apply Hp]. intros r s'. exact (leaves_weaken X Y s s' HXY). Qed.

Lemma reads_ret {A} (a : A) : reads (Ret a).
Proof. by intros s b. Qed.
Lemma reads_bind {A B} (m : Pci A) (f : A -> Pci B) : reads m -> (forall a, reads (f a)) -> reads (m ≫= f).
Proof.
  intros Hm Hf s. apply wp_prog_bind. eapply wp_prog_mono; [|apply Hm]. intros a s1 H1. cbn.
  eapply wp_prog_mono; [|apply Hf]. intros ? s2 H2. exact (same_trans _ _ _ H1 H2).
Qed.
Lemma reads_try {X A B} (m : Pci (result X A)) (f : A -> Pci (result X B)) :
  reads m -> (forall a, reads (f a)) -> reads (try_bind m f).
Proof. intros Hm Hf. apply reads_bind; [done|]. intros [a|e]; [apply Hf|apply reads_ret]. Qed.
Lemma reads_quiet {A} (e : PciE A) : quiet e = true -> reads (perform e).
Proof. intros He s c a s' Hc. cbn. intros b. by eapply law_quiet. Qed.
Lemma reads_each {X A} (xs : list A) (body : A -> Pci (result X unit)) :
  (forall x, reads (body x)) -> reads (try_each xs body).
Proof. intros Hb. induction xs as [|x xs IH]; cbn; [apply reads_ret|]. by apply reads_try. Qed.

Lemma within_bind {A B} X (m : Pci A) (f : A -> Pci B) : within X m -> (forall a, within X (f a)) -> within X (m ≫= f).
Proof.
  intros Hm Hf s. apply wp_prog_bind. eapply wp_prog_mono; [|apply Hm]. intros a s1 H1. cbn.
  eapply wp_prog_mono; [|apply Hf]. intros ? s2 H2. cbn in *. by etrans.
Qed.
Lemma within_try {E A B} X (m : Pci (result E A)) (f : A -> Pci (result E B)) :
  within X m -> (forall a, within X (f a)) -> within X (try_bind m f).
Proof. intros Hm Hf. apply within_bind; [done|]. intros [a|e]; [apply Hf|apply reads_within, reads_ret]. Qed.
#[local] Instance one_module_dec (args : list string) : Decision (exists module, args = [module]).
Proof. destruct args as [|m []]; [right; by intros [? ?]|left; by exists m|right; by intros [? ?]]. Defined.

Lemma within_status X p args : within X (perform (Status p args)).
Proof.
  intros s c a s' Hc b _ Hb.
  destruct (decide (p ∈ modprobes /\ exists module, args = [module])) as [[Hp [module ->]]|Hn];
    [by eapply law_modprobe|by eapply law_hook].
Qed.

Ltac reads_all :=
  repeat first [ apply reads_ret | apply reads_try | apply reads_bind | apply reads_each
               | (apply reads_quiet; reflexivity) | intros ? | case_match ].
Ltac within_all :=
  repeat first [ apply within_status | apply within_try | apply within_bind
               | (apply reads_within; reads_all; fail) | intros ? | case_match ].

(** ** Reading *)

Lemma reads_validate policy : reads (validate_iommu_group sysfs_root policy).
Proof.
  unfold validate_iommu_group, iommu_group, link_name, group_members, validate_member, is_iommu_bridge_infrastructure,
    read_hex_attribute. reads_all.
Qed.
Lemma reads_link path : reads (link_name path).
Proof. unfold link_name. reads_all. Qed.
Lemma reads_root : reads running_as_root.
Proof. unfold running_as_root. reads_all. Qed.
Lemma reads_grant policy groups uid gid : reads (grant_groups dev_root policy groups uid gid).
Proof. unfold grant_groups, grant_vfio_group, running_as_root. reads_all. Qed.

Lemma wp_driver_name b s (Q : string -> hstate -> Prop) : bdf_valid b = true ->
  (forall s', same s s' -> Q (hbound s b) s') -> wp (driver_name (device b)) Q s.
Proof.
  intros Hv HQ c r s' Hc. cbn. rewrite (law_driver _ _ _ _ _ Hv Hc). apply HQ. intros x. eapply law_quiet; [|exact Hc]; done.
Qed.

Lemma record_originals_spec bdfs : Forall valid bdfs -> forall drivers groups s,
  wp (record_originals sysfs_root bdfs drivers groups)
     (fun r s' => same s s' /\ forall m g, r = Ok (m, g) ->
        forall b, m !! b = if decide (b ∈ bdfs) then Some (hbound s b) else drivers !! b) s.
Proof.
  induction 1 as [|b0 bdfs Hv Hvs IH]; intros drivers groups s; cbn [record_originals].
  - split; [by intros b|]. intros m g [= <- <-] b. by rewrite decide_False by set_solver.
  - apply wp_prog_bind, wp_driver_name; [done|]. intros s1 H1. apply wp_prog_bind.
    eapply wp_prog_mono; [|apply (reads_link (path_join (device b0) "iommu_group"))].
    intros group s2 H2. cbn in H2. destruct (is_empty_str group).
    + split; [by eapply same_trans|done].
    + eapply wp_prog_mono; [|apply IH]. intros r s3 [H3 Hm]. split; [by do 2 (eapply same_trans; [done|])|].
      intros m g Hr b. rewrite (Hm m g Hr).
      destruct (decide (b = b0)) as [->|Hne]; [|repeat case_decide; try set_solver; rewrite ?H2, ?H1; [done|by rewrite lookup_insert_ne]].
      rewrite (decide_True (P := b0 ∈ b0 :: bdfs)) by set_solver. case_decide; [by rewrite H2, H1|by rewrite lookup_insert_eq].
Qed.

(** ** Binding *)

Lemma within_override X b v : valid b -> within X (write_sysfs (path_join (device b) "driver_override") v).
Proof. intros Hv s c r s' Hc. cbn. apply same_leaves. intros x. by eapply law_override. Qed.

Lemma within_unbind b : valid b -> within (eq b) (write_sysfs (path_join (device b) "driver/unbind") b).
Proof. intros Hv s c r s' Hc x Hne _. destruct (law_unbind _ _ _ _ _ Hv Hc) as [Hx _]. apply Hx. congruence. Qed.

Lemma within_probe X b : valid b -> within X (write_sysfs (driver_probe_path sysfs_root) b).
Proof. intros Hv s c r s' Hc x _ Hx. eapply law_probe; [done|done|by right]. Qed.

Lemma within_driver_name X b : within X (driver_name (device b)).
Proof. apply reads_within, reads_link. Qed.

Lemma within_if {A} X (cond : bool) (m m' : Pci A) : within X m -> within X m' -> within X (if cond then m else m').
Proof. by destruct cond. Qed.
Lemma within_ret {A} X (a : A) : within X (Ret a).
Proof. apply reads_within, reads_ret. Qed.

(** A step that keeps to [X], within a longer one. *)
Lemma wp_step {A B} X (m : Pci A) (f : A -> Pci B) Q s0 s :
  within X m -> leaves X s0 s -> (forall a s', leaves X s0 s' -> wp (f a) Q s') -> wp (m ≫= f) Q s.
Proof.
  intros Hm Hs Hf. apply wp_prog_bind. eapply wp_prog_mono; [|apply Hm]. intros a s' Hl. apply Hf. by etrans.
Qed.

Lemma wp_try_step {A B} X (m : Pci (result chain A)) (f : A -> Pci (result chain B)) Q s0 s :
  within X m -> leaves X s0 s -> (forall a s', leaves X s0 s' -> wp (f a) Q s') ->
  (forall e s', leaves X s0 s' -> Q (Err e) s') -> wp (try_bind m f) Q s.
Proof. intros Hm Hs Hf He. eapply wp_step; [done..|]. intros [a|e] s' Hl; [by apply Hf|by apply He]. Qed.

(** Binding and restoring both end by reading the driver back. *)
Lemma wp_read_back X b d (message : string -> string) s0 s :
  valid b -> leaves X s0 s ->
  wp (found ← driver_name (device b); Ret (guard_err (negb (String.eqb found d)) [message found]))
     (fun r s' => leaves X s0 s' /\ (r = Ok tt -> hbound s' b = d)) s.
Proof.
  intros Hv Hs. apply wp_prog_bind, wp_driver_name; [done|]. intros s' Hs'. cbn. split; [etrans; [done|by apply same_leaves]|].
  destruct (String.eqb_spec (hbound s b) d); [|done]. intros _. by rewrite Hs'.
Qed.

Lemma bind_driver_spec b d s : valid b ->
  wp (bind_driver sysfs_root b d) (fun r s' => leaves (eq b) s s' /\ (r = Ok tt -> hbound s' b = d)) s.
Proof.
  intros Hv. unfold bind_driver. eapply wp_try_step; [by apply within_override|reflexivity|intros _ s1 H1|done].
  eapply wp_step; [apply within_driver_name|exact H1|intros current s2 H2].
  eapply wp_try_step; [apply within_if; [by apply within_unbind|apply within_ret]|exact H2|intros _ s3 H3|done].
  eapply wp_step; [apply within_driver_name|exact H3|intros again s4 H4].
  eapply wp_try_step; [apply within_if; [by apply within_probe|apply within_ret]|exact H4|intros _ s5 H5|done].
  by apply (wp_read_back _ _ _ (fun rebound => _)).
Qed.

Lemma clear_driver_binding_within b : valid b -> within (eq b) (clear_driver_binding sysfs_root b).
Proof.
  intros Hv. unfold clear_driver_binding. apply within_bind; [apply within_driver_name|]. intros current.
  apply within_try; [apply within_if; [by apply within_unbind|apply within_ret]|]. intros _. by apply within_override.
Qed.

Lemma probe_driver_spec b o s : valid b ->
  wp (probe_driver sysfs_root b o)
     (fun r s' => leaves nothing s s' /\ (r = Ok tt -> o ≠ EmptyString -> hbound s' b = o)) s.
Proof.
  intros Hv. unfold probe_driver. destruct (is_empty_str o) eqn:Eo; [by destruct o|].
  eapply wp_step; [apply within_driver_name|reflexivity|intros current s1 H1].
  eapply wp_try_step; [apply within_if; [by apply within_probe|apply within_ret]|exact H1|intros _ s2 H2|done].
  eapply wp_prog_mono; [|apply (wp_read_back _ b o (fun restored => _) _ _ Hv H2)]. intros r s' [Hl Hr]. by split; [|auto].
Qed.

(** A loop whose turns each establish [P] and keep what the others established. *)
Lemma wp_try_each {A} (xs : list A) (body : A -> Pci (result chain unit)) (P : A -> hstate -> Prop)
    (L : hstate -> hstate -> Prop) `{!PreOrder L} :
  (forall x, x ∈ xs -> forall s,
     wp (body x) (fun r s' => L s s' /\ (r = Ok tt -> P x s' /\ forall y, P y s -> P y s')) s) ->
  forall s, wp (try_each xs body)
     (fun r s' => L s s' /\ (r = Ok tt -> (forall x, x ∈ xs -> P x s') /\ forall y, P y s -> P y s')) s.
Proof.
  induction xs as [|x xs IH]; intros Hb s.
  - split; [reflexivity|]. intros _. split; [|done]. intros y Hy. by apply elem_of_nil in Hy.
  - cbn. apply wp_try_bind. eapply wp_prog_mono; [|apply Hb; left]. intros [[]|e] s1 [H1 Hp].
    + destruct (Hp eq_refl) as [Hx Hy]. eapply wp_prog_mono; [|apply IH; intros; apply Hb; by right].
      intros r s2 [H2 Hr]. split; [by etrans|]. intros ->. destruct (Hr eq_refl) as [Hxs Hys]. split; [|auto].
      intros z [->|Hz]%elem_of_cons; auto.
    + by split.
Qed.

Lemma within_each {A} X (xs : list A) (body : A -> Pci (result chain unit)) :
  (forall x, x ∈ xs -> within X (body x)) -> within X (try_each xs body).
Proof.
  intros Hb s. eapply wp_prog_mono; [|apply (wp_try_each xs body (fun _ _ => True) (leaves X))].
  - by intros r s' [Hl _].
  - intros x Hx s1. eapply wp_prog_mono; [|by apply Hb]. by intros r s2 Hl.
Qed.

Lemma modprobe_within path module programs : forall last, within nothing (modprobe path module programs last).
Proof.
  induction programs as [|p programs IH]; intros last; cbn [modprobe]; [apply reads_within, reads_ret|].
  apply within_bind; [apply within_status|]. intros [success status| |error]; [|apply IH..].
  apply within_bind; [destruct success; apply reads_within; reads_all|]. intros []; [apply reads_within, reads_ret|apply IH].
Qed.

Lemma run_hook_within command label id : within nothing (run_hook command label id).
Proof. unfold run_hook. destruct command; [apply reads_within, reads_ret|]. within_all. Qed.

Lemma ensure_within :
  within nothing (ensure_vfio_driver sysfs_root) /\ forall d, within nothing (ensure_kernel_driver sysfs_root d).
Proof.
  split; [|intros d]; unfold ensure_vfio_driver, ensure_kernel_driver;
    (apply within_bind; [repeat case_match; apply reads_within; reads_all|]);
    (intros []; [apply reads_within, reads_ret|]); (apply within_bind; [apply modprobe_within|]);
    intros ?; apply reads_within, reads_ret.
Qed.

Lemma nothing_weaken {A} X (p : Pci A) : within nothing p -> within X p.
Proof. by apply within_weaken. Qed.

(** ** Releasing *)

Context (config : PciConfig).

Definition of_list (l : list string) : string -> Prop := fun b => b ∈ l.

(** The functions of [a] that had a driver have it. *)
Definition restored (a : PciDeviceAssignmentSpec) (s : hstate) : Prop :=
  forall b o, b ∈ as_bdfs a -> as_original_drivers a !! b = Some o -> o ≠ EmptyString -> hbound s b = o.

Lemma restored_leaves a s s' : restored a s -> leaves nothing s s' -> restored a s'.
Proof. intros Hr Hl b o Hb Ho Hn. rewrite Hl; [by apply Hr|by intros []|]. by rewrite (Hr b o). Qed.

Lemma restore_drivers_spec a s : Forall valid (as_bdfs a) ->
  wp (restore_drivers sysfs_root a)
     (fun r s' => leaves (of_list (as_bdfs a)) s s' /\ (r = Ok tt -> restored a s')) s.
Proof.
  intros Hv. rewrite Forall_forall in Hv. unfold restore_drivers.
  eapply wp_try_step; [apply within_each|reflexivity|intros _ s1 H1|done].
  { intros f Hf. apply list_elem_of_fmap in Hf as (x & -> & Hx). rewrite elem_of_reverse in Hx.
    eapply within_weaken; [|by apply clear_driver_binding_within, Hv]. by intros b <-. }
  eapply wp_try_step; [apply within_each; intros d _; apply nothing_weaken, ensure_within|exact H1|intros _ s2 H2|done].
  eapply wp_prog_mono; [|apply (wp_try_each _ _ (fun f s => f.2 ≠ EmptyString -> hbound s f.1 = f.2) (leaves nothing))].
  - intros r s3 [H3 Hr]. split; [etrans; [done|]; by apply leaves_any|]. intros ->. destruct (Hr eq_refl) as [Hx _].
    intros b o Hb Ho Hn. apply (Hx (b, o)); [|done]. apply list_elem_of_fmap. exists b.
    rewrite Ho. split; [done|]. by rewrite elem_of_reverse.
  - intros [b o] Hf s3. apply list_elem_of_fmap in Hf as (x & [= -> ->] & Hx). rewrite elem_of_reverse in Hx.
    eapply wp_prog_mono; [|by apply probe_driver_spec, Hv]. intros r s4 [H4 Hr]. split; [done|].
    intros ->. split; [cbn; auto|]. intros [b' o'] Hb' Hn. cbn in *. by rewrite H4; [auto|intros []|rewrite Hb'].
Qed.

Lemma release_assignment_spec a s : Forall valid (as_bdfs a) ->
  wp (release_assignment sysfs_root config a)
     (fun r s' => leaves (of_list (as_bdfs a)) s s' /\
        (release_managed config a = true -> r = Ok tt -> restored a s') /\
        (release_managed config a = false -> leaves nothing s s')) s.
Proof.
  intros Hval. assert (within nothing (match pci_device config (as_id a) with
    | Some policy => run_hook (pci_release_command policy) "release" (pci_id policy) | None => Ret (Ok tt) end)) as Hhook
    by (destruct (pci_device config (as_id a)); [apply run_hook_within|apply within_ret]).
  unfold release_assignment. apply wp_try_bind. destruct (release_managed config a).
  - apply wp_prog_bind. eapply wp_prog_mono; [|apply reads_root]. intros root s1 H1. cbn in H1.
    apply (same_leaves (of_list (as_bdfs a))) in H1. destruct root; cbn [negb]; [|by cbn].
    eapply wp_prog_mono; [|by apply restore_drivers_spec]. intros [[]|e] s2 [H2 Hr]; [|split_and!; [by etrans|done..]].
    eapply wp_prog_mono; [|apply Hhook]. intros r s3 H3. cbn in H3. split_and!; [|intros _ _|done].
    + etrans; [done|]. etrans; [done|]. by apply leaves_any.
    + eapply restored_leaves; [|done]. by apply Hr.
  - cbn. eapply wp_prog_mono; [|apply Hhook]. intros r s3 H3. cbn in H3. split_and!; [by apply leaves_any|done..].
Qed.

(** ** Preparing *)

Definition vfio_bound (policy : PciDevicePolicy) (s : hstate) : Prop :=
  forall b, b ∈ pci_bdfs policy -> hbound s b = "vfio-pci"%string.

Lemma bind_functions_spec policy s : Forall valid (pci_bdfs policy) ->
  wp (bind_functions sysfs_root policy)
     (fun r s' => leaves (of_list (pci_bdfs policy)) s s' /\ (pci_managed policy = false -> leaves nothing s s') /\
        (r = Ok tt -> vfio_bound policy s')) s.
Proof.
  intros Hv. rewrite Forall_forall in Hv. unfold bind_functions. destruct (pci_managed policy).
  - eapply wp_try_step; [apply nothing_weaken, ensure_within|reflexivity|intros _ s1 H1|done].
    eapply wp_prog_mono; [|apply (wp_try_each _ _ (fun b s => hbound s b = "vfio-pci"%string) (leaves (of_list (pci_bdfs policy))))].
    + intros r s2 [H2 Hr]. split_and!; [by etrans|done|]. intros ->. exact (proj1 (Hr eq_refl)).
    + intros b Hb s2. eapply wp_prog_mono; [|by apply bind_driver_spec, Hv]. intros r s3 [H3 Hr]. cbn. split_and!.
      * eapply leaves_weaken; [|done]. by intros x <-.
      * intros ->. split; [auto|]. intros y Hy. destruct (decide (b = y)) as [<-|Hne]; [auto|]. by rewrite H3; [|done|rewrite Hy].
  - eapply wp_prog_mono; [|apply (wp_try_each _ _ (fun b s => hbound s b = "vfio-pci"%string) (leaves nothing))].
    + intros r s2 [H2 Hr]. split_and!; [by apply leaves_any|done|]. intros ->. exact (proj1 (Hr eq_refl)).
    + intros b Hb s2. apply wp_prog_bind, wp_driver_name; [by apply Hv|]. intros s3 H3. cbn. split; [by apply same_leaves|].
      destruct (String.eqb_spec (hbound s2 b) "vfio-pci"); [|done]. intros _. split; [by rewrite H3|].
      intros y Hy. by rewrite H3.
Qed.

(** The assignment names the policy and the driver each function had in [s]. *)
Definition recorded_in (policy : PciDevicePolicy) (s : hstate) (a : PciDeviceAssignmentSpec) : Prop :=
  as_id a = pci_id policy /\ as_bdfs a = pci_bdfs policy /\
  forall b, as_original_drivers a !! b = if decide (b ∈ pci_bdfs policy) then Some (hbound s b) else None.

(** What a call of [prepare_assignment] may leave behind, by its outcome. *)
Definition prepared (policy : PciDevicePolicy) (s : hstate) (r : result PciError PciDeviceAssignmentSpec) (s' : hstate) : Prop :=
  leaves (of_list (pci_bdfs policy)) s s' /\
  match r with
  | Ok a => recorded_in policy s a /\ vfio_bound policy s'
  | Err (PciPlain _) => leaves nothing s s'
  | Err (PciRollbackError a _) => recorded_in policy s a
  end.

Lemma pci_device_id id policy : pci_device config id = Some policy -> pci_id policy = id.
Proof. intros Hf. apply List.find_some in Hf as [_ Hf]. by apply String.eqb_eq in Hf. Qed.

Lemma plain_wp {A} (m : Pci (result chain A)) (Q : result PciError A -> hstate -> Prop) s :
  wp m (fun r s' => Q (plain_err r) s') s -> wp (plain m) Q s.
Proof. intros Hm. unfold plain. apply wp_prog_bind. exact Hm. Qed.

(** The part after the functions were recorded in [a]; it starts in [s1], where every
    function that had a driver still has it. *)
Lemma setup_spec policy a uid gid s s1 :
  pci_device config (pci_id policy) = Some policy -> Forall valid (pci_bdfs policy) -> recorded_in policy s a -> leaves nothing s s1 ->
  wp (setup ← (_ ←? bind_functions sysfs_root policy; grant_groups dev_root policy (as_iommu_groups a) uid gid);
      match setup with
      | Ok _ => Ret (Ok a)
      | Err error =>
          rollback ← (if pci_managed policy then release_assignment sysfs_root config a
                      else run_hook (pci_release_command policy) "release" (pci_id policy));
          Ret (Err (match rollback with
                    | Ok _ => PciPlain error
                    | Err e => PciRollbackError a (context ("PCI bind rollback also failed: " +:+ chain_text e) error)
                    end))
      end) (prepared policy s) s1.
Proof.
  intros Hp Hval Ha H1. pose proof Ha as (Hid & Hbdfs & Horig).
  assert (wp (_ ←? bind_functions sysfs_root policy; grant_groups dev_root policy (as_iommu_groups a) uid gid)
    (fun r s' => leaves (of_list (pci_bdfs policy)) s1 s' /\ (pci_managed policy = false -> leaves nothing s1 s') /\
       (r = Ok tt -> vfio_bound policy s')) s1) as Hsetup.
  { apply wp_try_bind. eapply wp_prog_mono; [|by apply bind_functions_spec]. intros [[]|e] s2 (H2 & Hm & Hv); [|done].
    eapply wp_prog_mono; [|apply reads_grant]. intros r s3 H3. cbn in H3. split_and!.
    - etrans; [done|by apply same_leaves].
    - intros Hf. etrans; [by apply Hm|by apply same_leaves].
    - intros _ b Hb. rewrite H3. by apply Hv. }
  apply wp_prog_bind. eapply wp_prog_mono; [|exact Hsetup]. clear Hsetup. intros [[]|error] s2 (H2 & Hm & Hv).
  - split; [etrans; [by apply leaves_any|done]|]. split; [done|]. by apply Hv.
  - apply wp_prog_bind. destruct (pci_managed policy) eqn:Emanaged.
    + assert (release_managed config a = true) as Hrm by (unfold release_managed; by rewrite Hid, Hp, Emanaged).
      eapply wp_prog_mono; [|apply release_assignment_spec; by rewrite Hbdfs]. intros r s3 (H3 & Hr & _). rewrite Hbdfs in H3.
      assert (leaves (of_list (pci_bdfs policy)) s s3) as Hall by (etrans; [by apply leaves_any|]; by etrans).
      destruct r as [[]|e]; [|by split]. split; [done|]. intros b _ Hb. specialize (Hr Hrm eq_refl).
      destruct (decide (b ∈ pci_bdfs policy)) as [Hin|Hout]; [|by apply Hall].
      apply (Hr b); [by rewrite Hbdfs| |done]. by rewrite Horig, decide_True.
    + eapply wp_prog_mono; [|apply run_hook_within]. intros r s3 H3. cbn in H3.
      assert (leaves nothing s s3) as Hall by (etrans; [done|]; etrans; [by apply Hm|done]).
      destruct r as [[]|e]; (split; [by apply leaves_any|done]).
Qed.

(** C16: whichever calls fail, [prepare_assignment] never takes a driver from a function
    outside the policy. If it succeeds, every function of the policy is bound to
    [vfio-pci] and the assignment records the driver each one had. If it fails, either
    every function that had a driver has it back, or the error carries an assignment
    that records the drivers to restore. The operator's hooks take no driver from a
    function that has one ([HooksKeepDrivers]). *)
Theorem prepare_assignment_transactional device_id policy uid gid s cs r s' :
  pci_device config device_id = Some policy -> Forall valid (pci_bdfs policy) ->
  prog_run hcall (prepare_assignment sysfs_root dev_root config device_id uid gid) s cs = Some (r, s') ->
  prepared policy s r s'.
Proof.
  intros Hp Hval. pose proof (pci_device_id _ _ Hp) as <-. apply wp_prog_run. unfold prepare_assignment. rewrite Hp.
  apply wp_try_bind, plain_wp. eapply wp_prog_mono; [|apply reads_validate].
  intros [[]|e] s1 H1; cbn in H1; [|by split; apply same_leaves].
  apply wp_try_bind, plain_wp. eapply wp_prog_mono; [|by apply record_originals_spec].
  intros [[m g]|e] s2 [H2 Hrec]; cbn; pose proof (same_trans _ _ _ H1 H2) as H12; [|by split; apply same_leaves].
  set (a := MkAssign _ _ _ _).
  assert (recorded_in policy s a) as Ha.
  { split_and!; [done..|]. intros b. cbn. rewrite (Hrec m g eq_refl b), H1. by case_decide. }
  change (prog_bind ?f ?x) with (x ≫= f).
  eapply (wp_step nothing); [apply within_if; [apply reads_within, reads_root|apply within_ret]|apply same_leaves, H12|].
  intros root s3 H3. destruct root; cbn [negb]; [|split; [by apply leaves_any|done]].
  eapply (wp_step nothing); [apply run_hook_within|exact H3|]. intros [[]|error] s4 H4.
  - by apply setup_spec.
  - eapply (wp_step nothing); [apply run_hook_within|exact H4|]. intros released s5 H5. by split; [apply leaves_any|].
Qed.

(** C37: releasing an assignment only takes drivers from its own functions, and when it
    succeeds for functions that had a host driver (or that the policy manages), each of
    them has that driver again. The operator's hooks take no driver from a function that
    has one ([HooksKeepDrivers]). *)
Theorem release_restores_drivers a s cs r s' :
  Forall valid (as_bdfs a) -> prog_run hcall (release_assignment sysfs_root config a) s cs = Some (r, s') ->
  leaves (of_list (as_bdfs a)) s s' /\ (release_managed config a = true -> r = Ok tt -> restored a s').
Proof.
  intros Hv Hrun. destruct (wp_prog_run _ _ _ _ _ _ _ (release_assignment_spec a s Hv) Hrun) as (H1 & H2 & _). by split.
Qed.

End Laws.
