(* ===== verification/PciLinux.v ===== *)
(** * A Linux host, and assignments on it

    A model of the PCI files of [/sys] that satisfies the laws of [PciBinding.v], and
    runs of [PciHost.v] on it: an assignment that succeeds and is released, one that is
    rolled back, and two in which a function does not get its driver back. *)

From S2P Require Import Prelude ContentHash Effects Pci PciHost PciBinding.
From Stdlib Require Import ZArith Ascii.

Local Abbreviation sys := "/sys"%string.
Local Abbreviation dev := "/dev"%string.

(** A function: the driver it is bound to, its override, the driver whose table of
    devices lists it, and its group. *)
Record LinuxFunction := MkFn { lf_driver : string; lf_override : string; lf_native : string; lf_group : string }.

Record Linux := MkLinux { lx_functions : gmap string LinuxFunction; lx_loaded : gset string }.

Inductive LinuxChoice := Works | Fails.

Definition known (l : Linux) : list string := filter (fun b => bdf_valid b = true) (elements (dom (lx_functions l))).

(** The function whose file [suffix] is at [path]. *)
Definition file_of (l : Linux) (path suffix : string) : option string :=
  List.find (fun b => String.eqb path (path_join (pci_device_path sys b) suffix)) (known l).

Definition fn_of (l : Linux) (b : string) : option LinuxFunction :=
  if bdf_valid b then lx_functions l !! b else None.

Definition driver_link (f : LinuxFunction) : string := "../../../../bus/pci/drivers/" +:+ lf_driver f.

Definition linux_bound (l : Linux) (b : string) : string :=
  match fn_of l b with
  | Some f => if is_empty_str (lf_driver f) then EmptyString else default EmptyString (file_name (driver_link f))
  | None => EmptyString
  end.

Definition set_fn (l : Linux) (b : string) (f : LinuxFunction) : Linux := MkLinux (<[b := f]> (lx_functions l)) (lx_loaded l).

(** The driver a free function is given: its override if it has one, otherwise the one
    that lists it; only a loaded driver can take it. *)
Definition matching (loaded : gset string) (f : LinuxFunction) : string :=
  let d := if is_empty_str (lf_override f) then lf_native f else lf_override f in
  if bool_decide (d ∈ loaded) then d else EmptyString.

Definition probe (loaded : gset string) (f : LinuxFunction) : LinuxFunction :=
  if is_empty_str (lf_driver f) then MkFn (matching loaded f) (lf_override f) (lf_native f) (lf_group f) else f.

Definition linux_exists (l : Linux) (path : string) : bool :=
  existsb (fun b => String.eqb path (pci_device_path sys b)) (known l)
  || existsb (fun d => String.eqb path (driver_path sys d)) (elements (lx_loaded l))
  || existsb (fun b => String.eqb (linux_bound l b) "vfio-pci"
                       && match fn_of l b with Some f => String.eqb path (vfio_group_path dev (lf_group f)) | None => false end)
       (known l).

Definition no_such_file : string := "No such file or directory".

Definition linux_readlink (l : Linux) (path : string) : result string string :=
  match file_of l path "driver" with
  | Some b =>
      match fn_of l b with
      | Some f => if is_empty_str (lf_driver f) then Err no_such_file else Ok (driver_link f)
      | None => Err no_such_file
      end
  | None =>
      match file_of l path "iommu_group" with
      | Some b => match fn_of l b with
                  | Some f => Ok ("../../../kernel/iommu_groups/" +:+ lf_group f)
                  | None => Err no_such_file
                  end
      | None => Err no_such_file
      end
  end.

Definition linux_readdir (l : Linux) (path : string) : result string (list string) :=
  match List.find (fun b => match fn_of l b with
                            | Some f => String.eqb path (path_join (path_join (pci_device_path sys b)
                                          ("../../../kernel/iommu_groups/" +:+ lf_group f)) "devices")
                            | None => false end) (known l) with
  | Some b =>
      match fn_of l b with
      | Some f => Ok (filter (fun x => (lf_group <$> fn_of l x) = Some (lf_group f)) (known l))
      | None => Err no_such_file
      end
  | None => Err no_such_file
  end.

Definition linux_write (l : Linux) (path value : string) : Linux :=
  match file_of l path "driver_override" with
  | Some b =>
      match lx_functions l !! b with
      | Some f => set_fn l b (MkFn (lf_driver f) (if String.eqb value sysfs_newline then EmptyString else value) (lf_native f) (lf_group f))
      | None => l
      end
  | None =>
      match file_of l path "driver/unbind" with
      | Some b =>
          match lx_functions l !! b with
          | Some f => if String.eqb value b then set_fn l b (MkFn EmptyString (lf_override f) (lf_native f) (lf_group f)) else l
          | None => l
          end
      | None =>
          if String.eqb path (driver_probe_path sys) then
            match lx_functions l !! value with Some f => set_fn l value (probe (lx_loaded l) f) | None => l end
          else l
      end
  end.

(** Loading a module offers it every free function. *)
Definition linux_run (l : Linux) (program : string) (args : list string) : Linux :=
  match args with
  | [module] =>
      if bool_decide (program ∈ modprobes)
      then MkLinux (probe ({[module]} ∪ lx_loaded l) <$> lx_functions l) ({[module]} ∪ lx_loaded l) else l
  | _ => l
  end.

Definition linux_call (A : Type) (e : PciE A) (l : Linux) (c : LinuxChoice) : option (A * Linux) :=
  match e in PciE A return option (A * Linux) with
  | Exists path => Some (linux_exists l path, l)
  | ReadLink path => Some (linux_readlink l path, l)
  | ReadDir path => Some (linux_readdir l path, l)
  | ReadFile path => Some (Ok ("0x030000" +:+ sysfs_newline), l)
  | WriteFile path value =>
      match c with Works => Some (Ok tt, linux_write l path value) | Fails => Some (Err "write error"%string, l) end
  | Status program args =>
      match c with
      | Works => Some (Exited true "exit status: 0", linux_run l program args)
      | Fails => Some (Exited false "exit status: 1", l)
      end
  | Geteuid => Some (0%Z, l)
  | Chown _ _ _ => Some (match c with Works => Ok tt | Fails => Err "Operation not permitted"%string end, l)
  | Chmod _ _ => Some (match c with Works => Ok tt | Fails => Err "Operation not permitted"%string end, l)
  end.

Global Instance linux_system : PciSystem := {
  hstate := Linux; hchoice := LinuxChoice; hcall := linux_call; hbound := linux_bound;
}.

(** ** The laws hold *)

Lemma str_app_length_inj s t u v :
  String.length s = String.length t -> s +:+ u = t +:+ v -> s = t /\ u = v.
Proof.
  revert t; induction s as [|a s IH]; intros [|b t]; cbn; intros Hl He; try done.
  injection He as -> He. injection Hl as Hl. by destruct (IH t Hl He) as [-> ->].
Qed.

Lemma bdf_valid_length b : bdf_valid b = true -> String.length b = 12.
Proof. unfold bdf_valid. intros H. repeat (apply andb_true_iff in H as [H _]). by apply Nat.eqb_eq. Qed.

Lemma bdf_valid_relative b : bdf_valid b = true -> starts_with "/" b = false.
Proof.
  intros H. pose proof (bdf_valid_length b H) as Hl. unfold bdf_valid in H. apply andb_true_iff in H as [_ H].
  destruct b as [|a b]; [done|]. cbn [all_chars] in H. apply andb_true_iff in H as [H _]. cbn.
  destruct a as [[] [] [] [] [] [] [] []]; vm_compute in H |- *; done.
Qed.

Definition relative (suffix : string) : Prop := starts_with "/" suffix = false.

Lemma function_path b suffix : bdf_valid b = true -> relative suffix ->
  path_join (pci_device_path sys b) suffix = "/sys/bus/pci/devices/" +:+ (b +:+ ("/" +:+ suffix)).
Proof. intros Hb Hs. unfold path_join at 1. rewrite Hs. unfold pci_device_path, path_join. by rewrite (bdf_valid_relative b Hb). Qed.

Lemma function_path_inj b b' suffix suffix' : bdf_valid b = true -> bdf_valid b' = true -> relative suffix -> relative suffix' ->
  path_join (pci_device_path sys b) suffix = path_join (pci_device_path sys b') suffix' -> b = b' /\ suffix = suffix'.
Proof.
  intros Hb Hb' Hs Hs'. rewrite !function_path by done. intros Heq%str_app_inj_r.
  apply str_app_length_inj in Heq as [-> Heq]; [|by rewrite !bdf_valid_length]. split; [done|]. by apply str_app_inj_r in Heq.
Qed.

Lemma elem_of_known l b : b ∈ known l <-> bdf_valid b = true /\ is_Some (lx_functions l !! b).
Proof. unfold known. by rewrite list_elem_of_filter, elem_of_elements, elem_of_dom. Qed.

Lemma file_of_spec l b suffix suffix' : bdf_valid b = true -> relative suffix -> relative suffix' ->
  file_of l (path_join (pci_device_path sys b) suffix) suffix' =
  if decide (suffix = suffix' /\ is_Some (lx_functions l !! b)) then Some b else None.
Proof.
  intros Hb Hs Hs'. unfold file_of.
  destruct (List.find _ (known l)) as [x|] eqn:Ef.
  - apply List.find_some in Ef as [Hx Heq]. apply list_elem_of_In, elem_of_known in Hx as [Hv Hx].
    apply String.eqb_eq, function_path_inj in Heq as [-> ->]; [|done..]. by rewrite decide_True.
  - case_decide as Hd; [|done]. destruct Hd as [<- Hx].
    eapply List.find_none in Ef; [|apply list_elem_of_In, elem_of_known; by split]. by rewrite String.eqb_refl in Ef.
Qed.

Lemma linux_bound_set l b f x :
  linux_bound (set_fn l b f) x = if decide (x = b) then linux_bound (MkLinux {[b := f]} ∅) b else linux_bound l x.
Proof.
  unfold linux_bound, fn_of. destruct (decide (x = b)) as [->|Hne]; [|cbn; by rewrite lookup_insert_ne].
  destruct (bdf_valid b); [|done]. cbn. by rewrite lookup_insert_eq, lookup_singleton_eq.
Qed.

(** Only the driver of a function matters. *)
Lemma linux_bound_same l b f f' : lx_functions l !! b = Some f -> lf_driver f' = lf_driver f ->
  linux_bound (MkLinux {[b := f']} ∅) b = linux_bound l b.
Proof.
  intros Hf Hd. unfold linux_bound, fn_of. destruct (bdf_valid b); [|done]. cbn. rewrite lookup_singleton_eq, Hf.
  unfold driver_link. by rewrite Hd.
Qed.

Lemma probe_driver_same loaded f : lf_driver f ≠ EmptyString -> lf_driver (probe loaded f) = lf_driver f.
Proof. unfold probe. destruct (is_empty_str (lf_driver f)) eqn:E; [|done]. by destruct (lf_driver f). Qed.

Lemma linux_bound_nonempty l b f : lx_functions l !! b = Some f -> linux_bound l b ≠ EmptyString -> lf_driver f ≠ EmptyString.
Proof. unfold linux_bound, fn_of. intros -> H Hn. apply H. destruct (bdf_valid b); [|done]. by rewrite Hn. Qed.

Lemma probe_path_other l suffix : relative suffix -> file_of l (driver_probe_path sys) suffix = None.
Proof.
  intros Hs. unfold file_of. destruct (List.find _ (known l)) as [x|] eqn:Ef; [|done].
  apply List.find_some in Ef as [Hx Heq]. apply list_elem_of_In, elem_of_known in Hx as [Hv _].
  apply String.eqb_eq in Heq. rewrite function_path in Heq by done. discriminate Heq.
Qed.

Lemma function_path_other b suffix : bdf_valid b = true -> relative suffix ->
  String.eqb (path_join (pci_device_path sys b) suffix) (driver_probe_path sys) = false.
Proof. intros Hb Hs. by rewrite function_path. Qed.

Lemma linux_status_keeps p args (l : Linux) c r l' :
  hcall _ (Status p args) l c = Some (r, l') ->
  forall x, hbound l x ≠ EmptyString -> hbound l' x = hbound l x.
Proof.
  intros Hc x Hx. cbn in *. destruct c; simplify_eq; [|done]. unfold linux_run.
    destruct args as [|m [|]]; [done| |done]. case_bool_decide; [|done]. revert Hx. unfold linux_bound, fn_of.
    destruct (bdf_valid x); [|done]. cbn. rewrite lookup_fmap. destruct (lx_functions l !! x) as [f|]; [|done]. cbn.
    unfold driver_link. intros Hx. rewrite probe_driver_same; [done|]. intros Hn. by rewrite Hn in Hx.
Qed.

Global Instance linux_laws : PciSystemLaws sys.
Proof.
  split.
  - intros b l c r l' Hv. cbn. intros [= <- <-]. unfold linux_readlink. rewrite file_of_spec by done.
    unfold linux_bound, fn_of. rewrite Hv. case_decide as Hd.
    + destruct Hd as [_ [f Hf]]. rewrite Hv, Hf. by destruct (is_empty_str (lf_driver f)).
    + rewrite file_of_spec by done. rewrite decide_False by (by intros [? _]).
      destruct (lx_functions l !! b) as [f|]; [|done]. destruct Hd. split; [done|by eexists].
  - intros A e l c a l' He Hc b. destruct e; cbn in *; try done; by simplify_eq.
  - intros b v l c r l' Hv. cbn. destruct c; intros [= <- <-] x; [|done]. unfold linux_write. rewrite file_of_spec by done.
    case_decide as Hd.
    + destruct Hd as [_ [f Hf]]. rewrite Hf, linux_bound_set. case_decide as Hx; [|done]. subst x. by eapply linux_bound_same.
    + rewrite file_of_spec by done. rewrite decide_False by (by intros [? _]). by rewrite function_path_other.
  - intros b l c r l' Hv. cbn. destruct c; intros [= <- <-]; [|done]. unfold linux_write. rewrite !file_of_spec by done.
    rewrite decide_False by (by intros [? _]). case_decide as Hd.
    + destruct Hd as [_ [f Hf]]. rewrite Hf, String.eqb_refl. split.
      * intros x Hx. by rewrite linux_bound_set, decide_False.
      * rewrite linux_bound_set, decide_True by done. unfold linux_bound, fn_of. rewrite Hv. cbn. by rewrite lookup_singleton_eq.
    + rewrite function_path_other by done. split; [done|]. unfold linux_bound, fn_of. rewrite Hv.
      destruct (lx_functions l !! b) as [f|]; [|done]. destruct Hd. split; [done|by eexists].
  - intros b l c r l' Hv. cbn. destruct c; intros [= <- <-] x Hx; [|done]. unfold linux_write.
    rewrite !probe_path_other by done. rewrite String.eqb_refl.
    destruct (lx_functions l !! b) as [f|] eqn:Hf; [|done]. rewrite linux_bound_set. case_decide as Hxb; [|done]. subst x.
    destruct Hx as [|Hx]; [done|]. eapply linux_bound_same; [done|]. by eapply probe_driver_same, linux_bound_nonempty.
  - intros p module l c r l' _ Hc x Hx. by eapply linux_status_keeps.
Qed.

Global Instance linux_hooks : HooksKeepDrivers.
Proof. intros p args l c r l' _. apply linux_status_keeps. Qed.

(** ** Runs *)

(** The choices of a run in which the calls numbered in [bad] fail. *)
Fixpoint choices {R} (p : Pci R) (l : Linux) (bad : list nat) (n : nat) : list LinuxChoice :=
  match p with
  | Ret _ => []
  | Do e k =>
      let c := if bool_decide (n ∈ bad) then Fails else Works in
      match linux_call _ e l c with
      | Some (a, l') => c :: choices (k a) l' bad (S n)
      | None => []
      end
  end.

Definition run_linux {R} (p : Pci R) (l : Linux) (bad : list nat) : option (R * Linux) :=
  prog_run linux_call p l (choices p l bad 0).

Definition gpu : PciDevicePolicy :=
  MkPci "gpu" "gpu" ["0000:0a:00.0"; "0000:0a:00.1"]%string true true [] [].
Definition gpu_config : PciConfig := MkPciConfig (Some "secret"%string) [gpu].

Definition gpu_host (video audio : string) : Linux :=
  MkLinux {[ "0000:0a:00.0"%string := MkFn video "" "nouveau" "7"; "0000:0a:00.1"%string := MkFn audio "" "snd_hda_intel" "7" ]}
    {[ "nouveau"%string; "snd_hda_intel"%string ]}.

Definition prepare_gpu := prepare_assignment sys dev gpu_config "gpu" 107 107.
Definition release_gpu := release_assignment sys gpu_config.

Definition gpu_drivers (l : Linux) : string * string := (linux_bound l "0000:0a:00.0", linux_bound l "0000:0a:00.1").

Definition working_host : Linux := gpu_host "nouveau" "snd_hda_intel".

Definition gpu_assignment : PciDeviceAssignmentSpec :=
  MkAssign "gpu" ["0000:0a:00.0"; "0000:0a:00.1"]%string ["7"%string]
    {[ "0000:0a:00.0"%string := "nouveau"%string; "0000:0a:00.1"%string := "snd_hda_intel"%string ]}.

Definition outcome {R} (x : option (R * Linux)) : option R := fst <$> x.
Definition host_after {R} (l : Linux) (x : option (R * Linux)) : Linux := match x with Some (_, l') => l' | None => l end.

Definition is_rollback (r : option (result PciError PciDeviceAssignmentSpec)) : bool :=
  match r with Some (Err (PciRollbackError _ _)) => true | _ => false end.

Lemma gpu_valid : Forall valid (pci_bdfs gpu).
Proof. by repeat constructor. Qed.

(** The calls that bind the second function fail; the first one is given back. *)
Definition refused : option (result PciError PciDeviceAssignmentSpec * Linux) := run_linux prepare_gpu working_host [24].

Lemma prepare_assignment_transactional_witness :
  exists r l, refused = Some (r, l) /\ gpu_drivers l = ("nouveau", "snd_hda_intel")%string /\
    prepared gpu working_host r l.
Proof.
  destruct refused as [[r l]|] eqn:E; [|vm_compute in E; discriminate E].
  exists r, l. split; [reflexivity|]. split.
  - change l with (host_after working_host (Some (r, l))). rewrite <- E. vm_compute. reflexivity.
  - exact (prepare_assignment_transactional sys dev gpu_config "gpu" gpu 107 107 working_host
             (choices prepare_gpu working_host [24] 0) r l eq_refl gpu_valid E).
Defined.

Definition given : Linux := host_after working_host (run_linux prepare_gpu working_host []).
Definition given_back : option (result chain unit * Linux) := run_linux (release_gpu gpu_assignment) given [].

Lemma release_restores_drivers_witness :
  gpu_drivers given = ("vfio-pci", "vfio-pci")%string /\
  exists l, given_back = Some (Ok tt, l) /\ restored gpu_assignment l.
Proof.
  split; [vm_compute; reflexivity|].
  destruct given_back as [[r l]|] eqn:E; [|vm_compute in E; discriminate E].
  assert (outcome (Some (r, l)) = Some (Ok tt)) as Hr by (rewrite <- E; vm_compute; reflexivity).
  injection Hr as ->. exists l. split; [reflexivity|].
  exact (proj2 (release_restores_drivers sys gpu_config gpu_assignment given
    (choices (release_gpu gpu_assignment) given [] 0) (Ok tt) l gpu_valid E) eq_refl eq_refl).
Defined.

(** ** Two ways to lose a driver *)

Definition prebound : Linux := gpu_host "vfio-pci" "vfio-pci".
Definition prebound_assignment : PciDeviceAssignmentSpec :=
  MkAssign "gpu" ["0000:0a:00.0"; "0000:0a:00.1"]%string ["7"%string]
    {[ "0000:0a:00.0"%string := "vfio-pci"%string; "0000:0a:00.1"%string := "vfio-pci"%string ]}.

(** A managed device that the host keeps on [vfio-pci] cannot be released: clearing
    the override leaves the kernel no reason to pick [vfio-pci] again, so although every
    call works the release fails after taking the functions off the driver. *)
Theorem prebound_release_fails :
  let prepared := run_linux prepare_gpu prebound [] in
  let released := run_linux (release_gpu prebound_assignment) (host_after prebound prepared) [] in
  match outcome prepared with
  | Some (Ok a) => (as_original_drivers a !! "0000:0a:00.0"%string, as_original_drivers a !! "0000:0a:00.1"%string)
  | _ => (None, None)
  end = (Some "vfio-pci", Some "vfio-pci")%string /\
  outcome released =
    Some (Err ["PCI function 0000:0a:00.1 restored to `snd_hda_intel` instead of `vfio-pci`"%string]) /\
  gpu_drivers (host_after prebound released) = (EmptyString, "snd_hda_intel"%string).
Proof. vm_compute. split_and!; reflexivity. Qed.

(** A second attempt after a rollback that failed records the drivers the functions
    have now instead of those of the first attempt, so a later release succeeds and
    leaves a function of the host without its driver. *)
Theorem second_attempt_loses_driver :
  let first := run_linux prepare_gpu working_host [18; 31] in
  let second := run_linux prepare_gpu (host_after working_host first) [] in
  let released :=
    match second with Some (Ok a, l) => run_linux (release_gpu a) l [] | _ => None end in
  gpu_drivers working_host = ("nouveau", "snd_hda_intel")%string /\
  is_rollback (outcome first) = true /\
  outcome released = Some (Ok tt) /\
  gpu_drivers (host_after working_host released) = (EmptyString, "snd_hda_intel"%string).
Proof. vm_compute. split_and!; reflexivity. Qed.
