(* ===== verification/PciLeases.v ===== *)
(** * Which machine holds a device

    The device operations of [vmd/src/state/manager.rs]: the table of leases, attaching
    and detaching a device, and what creating, starting, deleting and rediscovering a
    machine do to its devices. The rest of those last four (images, processes, mounts)
    is opaque work that may fail. *)

From S2P Require Import Prelude ContentHash Effects Etcd ControlBus SessionRoutes Reconcile Pci PciHost.
From Stdlib Require Import ZArith Ascii.

(** ** Data *)

(** The parts of [VmMetadata] and [VmRuntime] that decide about devices. *)
Record VmInner := MkVmInner {
  vi_macos_vz : bool;
  vi_capability_pci : bool;
  vi_architecture : string;
  vi_state : VmState;                       (** of the runtime *)
  vi_monitor : bool;                        (** a monitor is connected *)
  vi_pci_devices : list PciDeviceAssignmentSpec;
}.

Definition set_devices (v : VmInner) (l : list PciDeviceAssignmentSpec) : VmInner :=
  MkVmInner (vi_macos_vz v) (vi_capability_pci v) (vi_architecture v) (vi_state v) (vi_monitor v) l.

Inductive ManagerError :=
| VmNotFound
| InvalidState
| PciConflict (s : string)
| PciUnavailable (s : string)
| Unsupported (s : string)
| OtherError (e : chain).

Record PciActionResult := MkAction { pa_devices : list PciDeviceAssignmentSpec; pa_restart_required : bool; pa_detail : string }.

Record ManagerConfig := MkManager {
  mc_pci : PciConfig;
  mc_sysfs_root : string;
  mc_dev_root : string;
  mc_linux : bool;
  mc_host_arch : string;
  mc_ha_mode : bool;
  mc_uid : Z;
  mc_gid : Z;
}.

Definition ARCH_AMD64 : string := "amd64".

Definition is_running (s : VmState) : bool := match s with VmRunning | Paused => true | _ => false end.

(** ** Operations

    The lock of a machine and the mutex of the leases block while another task holds
    them. [LSave] writes the devices a machine has in memory to its [vm.json]. *)

Inductive MonitorCommand := DeviceAdd (id bdf : string) | DeviceDelWait (id : string).

Inductive LeaseE : Type -> Type :=
| LHost {A : Type} (e : PciE A) : LeaseE A
| LUuid : LeaseE string
| LFind (vm : string) : LeaseE bool
| LLock (vm : string) : LeaseE VmInner
| LUnlock (vm : string) : LeaseE unit
| LWrite (vm : string) (devices : list PciDeviceAssignmentSpec) : LeaseE unit
| LSave (vm : string) : LeaseE (result string unit)
| LSaveNew (vm : string) (devices : list PciDeviceAssignmentSpec) : LeaseE (result string unit)
| LRemoveDir (vm : string) : LeaseE (result string unit)
| LInsert (vm : string) (inner : VmInner) : LeaseE unit
| LRemove (vm : string) : LeaseE unit
| LBeginDelete (vm : string) : LeaseE bool
| LEndDelete (vm : string) : LeaseE unit
| LDeleteRequested (vm : string) : LeaseE bool
| LLeases : LeaseE (gmap string string)
| LLeasesSet (leases : gmap string string) : LeaseE unit
| LMonitor (c : MonitorCommand) : LeaseE (result string unit)
| LWork (what : string) : LeaseE (result ManagerError unit).

Abbreviation Lease := (prog LeaseE).

(** The code of [PciHost.v] as part of the manager. *)
Fixpoint on_host {R} (p : Pci R) : Lease R :=
  match p with Ret r => Ret r | Do e k => Do (LHost e) (fun a => on_host (k a)) end.

(** ** Names of devices in the monitor *)

Definition qemu_char (a : ascii) : ascii :=
  if in_range 48 57 a || in_range 65 90 a || in_range 97 122 a || Ascii.eqb a "_" then a else "_"%char.

Fixpoint map_chars (f : ascii -> ascii) (s : string) : string :=
  match s with EmptyString => EmptyString | String a s => String (f a) (map_chars f s) end.

Definition qemu_device_id (device_id : string) (function_index : nat) : string :=
  "pci_" +:+ map_chars qemu_char device_id +:+ "_" +:+ pretty function_index.

Section Manager.
Context (cfg : ManagerConfig).

Abbreviation pci := (mc_pci cfg).

Definition other (s : string) : ManagerError := OtherError [s].

Definition ensure_pci_compatible (v : VmInner) : result ManagerError unit :=
  _ ← guard_err (vi_macos_vz v || negb (vi_capability_pci v))
        (Unsupported "PCI assignment is unavailable for this guest backend");
  _ ← guard_err (negb (pci_enabled pci)) (Unsupported "PCI assignment is disabled on this vmd");
  _ ← guard_err (negb (mc_linux cfg) || negb (String.eqb (mc_host_arch cfg) ARCH_AMD64))
        (Unsupported "PCI assignment requires an amd64 Linux vmd host");
  _ ← guard_err (negb (String.eqb (vi_architecture v) ARCH_AMD64)) (Unsupported "PCI assignment requires an amd64 guest");
  guard_err (mc_ha_mode cfg) (Unsupported "PCI assignment is unavailable in ha mode").

(** ** Leases *)

Fixpoint check_requested (device_ids : list string) (requested : gset string) : result ManagerError unit :=
  match device_ids with
  | [] => Ok tt
  | d :: device_ids =>
      if bool_decide (d ∈ requested) then Err (PciConflict ("device `" +:+ d +:+ "` was requested more than once"))
      else match pci_device pci d with
           | None => Err (PciUnavailable ("device `" +:+ d +:+ "` is not allowlisted"))
           | Some _ => check_requested device_ids ({[d]} ∪ requested)
           end
  end.

Definition check_available (inventory : list PciInventoryDevice) (d : string) : result ManagerError unit :=
  match List.find (fun v => String.eqb (iv_id v) d) inventory with
  | None => Err (PciUnavailable ("device `" +:+ d +:+ "` is not allowlisted"))
  | Some v =>
      if bool_decide (iv_state v = PiAssigned)
      then Err (PciConflict ("device `" +:+ d +:+ "` is assigned to VM " +:+ iv_assigned_vm_id v))
      else if bool_decide (iv_state v = PiUnavailable)
      then Err (PciUnavailable ("device `" +:+ d +:+ "`: " +:+ iv_unavailable_reason v))
      else Ok tt
  end.

(** An assignment that was not prepared yet. *)
Definition new_assignment (d : string) : PciDeviceAssignmentSpec :=
  match pci_device pci d with
  | Some policy => MkAssign (pci_id policy) (pci_bdfs policy) [] ∅
  | None => MkAssign d [] [] ∅            (* [expect]: excluded by [check_requested] *)
  end.

Definition take_leases (vm_id : string) (assignments : list PciDeviceAssignmentSpec) (leases : gmap string string) :
    gmap string string :=
  foldl (fun m a => <[as_id a := vm_id]> m) leases assignments.

Definition reserve_pci_devices (vm_id : string) (device_ids : list string) :
    Lease (result ManagerError (list PciDeviceAssignmentSpec)) :=
  match device_ids with
  | [] => Ret (Ok [])
  | _ =>
      match check_requested device_ids ∅ with
      | Err e => Ret (Err e)
      | Ok _ =>
          leases ← perform LLeases;
          listed ← on_host (inventory (mc_sysfs_root cfg) (mc_linux cfg) pci leases);
          match mapM_result (check_available listed) device_ids with
          | Err e => _ ← perform (LLeasesSet leases); Ret (Err e)
          | Ok _ =>
              let assignments := new_assignment <$> device_ids in
              _ ← perform (LLeasesSet (take_leases vm_id assignments leases));
              Ret (Ok assignments)
          end
      end
  end.

Definition drop_leases (vm_id : string) (assignments : list PciDeviceAssignmentSpec) (leases : gmap string string) :
    gmap string string :=
  foldl (fun m a => if bool_decide (m !! as_id a = Some vm_id) then delete (as_id a) m else m) leases assignments.

Definition release_pci_leases (vm_id : string) (assignments : list PciDeviceAssignmentSpec) : Lease unit :=
  leases ← perform LLeases;
  perform (LLeasesSet (drop_leases vm_id assignments leases)).

(** ** Attaching *)

(** Every return drops the lock of the machine. *)
Definition unlock_with {A} (vm : string) (r : A) : Lease A := _ ← perform (LUnlock vm); Ret r.

Definition done_with (devices : list PciDeviceAssignmentSpec) (restart : bool) (detail : string) :
    result ManagerError PciActionResult := Ok (MkAction devices restart detail).

(** Deletes what was hot-added, the last first, up to the first failure. *)
Fixpoint remove_added (added : list string) : Lease (option string) :=
  match added with
  | [] => Ret None
  | id :: added =>
      r ← perform (LMonitor (DeviceDelWait id));
      match r with Ok _ => remove_added added | Err e => Ret (Some e) end
  end.

(** Adds the functions in turn; on failure, what was added and the error. *)
Fixpoint add_functions (id : string) (index : nat) (bdfs added : list string) : Lease (list string * option string) :=
  match bdfs with
  | [] => Ret (added, None)
  | bdf :: bdfs =>
      let qemu_id := qemu_device_id id index in
      r ← perform (LMonitor (DeviceAdd qemu_id bdf));
      match r with
      | Ok _ => add_functions id (S index) bdfs (added ++ [qemu_id])
      | Err e => Ret (added, Some e)
      end
  end.

(** The device stays with the machine, for a restart to sort out. *)
Definition keep_for_restart (vm_id : string) (devices : list PciDeviceAssignmentSpec) (detail : string) :
    Lease (result ManagerError PciActionResult) :=
  _ ← perform (LWrite vm_id devices);
  saved ← perform (LSave vm_id);
  match saved with
  | Err e => unlock_with vm_id (Err (other e))
  | Ok _ => unlock_with vm_id (done_with devices true detail)
  end.

Definition release_host (a : PciDeviceAssignmentSpec) : Lease (result chain unit) :=
  on_host (release_assignment (mc_sysfs_root cfg) pci a).

(** The cleanup after a hot-add failed ([what] is ["hot-add"]) and after saving failed
    (["metadata persistence"]); only the first reports a failure to save. *)
Definition undo_attach (vm_id : string) (devices : list PciDeviceAssignmentSpec) (assignment : PciDeviceAssignmentSpec)
    (added : list string) (hot_add : bool) (error : string) : Lease (result ManagerError PciActionResult) :=
  let what := if hot_add then "PCI hot-add failed (" else "PCI metadata persistence failed (" in
  let keep detail :=
    if hot_add then keep_for_restart vm_id (devices ++ [assignment]) detail
    else
      _ ← perform (LWrite vm_id (devices ++ [assignment]));
      _ ← perform (LSave vm_id);
      unlock_with vm_id (done_with (devices ++ [assignment]) true detail) in
  cleanup ← remove_added (reverse added);
  match cleanup with
  | Some cleanup_error => keep (what +:+ error +:+ ") and live cleanup failed (" +:+ cleanup_error +:+ ")")
  | None =>
      released ← release_host assignment;
      match released with
      | Err release_error => keep (what +:+ error +:+ ") and host release failed (" +:+ chain_text release_error +:+ ")")
      | Ok _ =>
          _ ← release_pci_leases vm_id [assignment];
          unlock_with vm_id (Err (other error))
      end
  end.

Definition hot_attach (vm_id device_id : string) (devices : list PciDeviceAssignmentSpec)
    (reserved : PciDeviceAssignmentSpec) : Lease (result ManagerError PciActionResult) :=
  prepared ← on_host (prepare_assignment (mc_sysfs_root cfg) (mc_dev_root cfg) pci device_id (mc_uid cfg) (mc_gid cfg));
  match prepared with
  | Err (PciRollbackError failed source) => keep_for_restart vm_id (devices ++ [failed]) (chain_text source)
  | Err (PciPlain error) =>
      _ ← release_pci_leases vm_id [reserved];
      unlock_with vm_id (Err (OtherError error))
  | Ok assignment =>
      added ← add_functions (as_id assignment) 0 (as_bdfs assignment) [];
      match added with
      | (added, Some error) => undo_attach vm_id devices assignment added true error
      | (added, None) =>
          _ ← perform (LWrite vm_id (devices ++ [assignment]));
          saved ← perform (LSave vm_id);
          match saved with
          | Ok _ => unlock_with vm_id (done_with (devices ++ [assignment]) false "device hot-attached"%string)
          | Err error =>
              _ ← perform (LWrite vm_id devices);
              undo_attach vm_id devices assignment added false error
          end
      end
  end.

Definition attach_pci_device (vm_id device_id : string) : Lease (result ManagerError PciActionResult) :=
  found ← perform (LFind vm_id);
  if negb found then Ret (Err VmNotFound)
  else
    inner ← perform (LLock vm_id);
    match ensure_pci_compatible inner with
    | Err e => unlock_with vm_id (Err e)
    | Ok _ =>
        let devices := vi_pci_devices inner in
        if existsb (fun a => String.eqb (as_id a) device_id) devices
        then unlock_with vm_id (done_with devices false "device is already attached"%string)
        else
          match pci_device pci device_id with
          | None => unlock_with vm_id (Err (PciUnavailable ("device `" +:+ device_id +:+ "` is not allowlisted")))
          | Some policy =>
              let running := is_running (vi_state inner) in
              if running && negb (pci_hotplug policy)
              then unlock_with vm_id (done_with devices true "device policy requires a cold attach"%string)
              else
                reserved ← reserve_pci_devices vm_id [device_id];
                match reserved with
                | Err e => unlock_with vm_id (Err e)
                | Ok [] => unlock_with vm_id (Err (other "unreachable"))     (* [remove(0)] of one assignment *)
                | Ok (assignment :: _) =>
                    if negb running then
                      _ ← perform (LWrite vm_id (devices ++ [assignment]));
                      saved ← perform (LSave vm_id);
                      match saved with
                      | Err e =>
                          _ ← perform (LWrite vm_id devices);
                          _ ← perform (LUnlock vm_id);
                          _ ← release_pci_leases vm_id [assignment];
                          Ret (Err (other e))
                      | Ok _ =>
                          unlock_with vm_id (done_with (devices ++ [assignment]) false
                                               "device will be assigned on the next VM start"%string)
                      end
                    else if negb (vi_monitor inner) then unlock_with vm_id (Err (other "vm monitor unavailable"))
                    else hot_attach vm_id device_id devices assignment
                end
          end
    end.

(** ** Detaching *)

Fixpoint position {A} (f : A -> bool) (l : list A) : option nat :=
  match l with
  | [] => None
  | x :: l => if f x then Some 0 else S <$> position f l
  end.

(** Removes the functions from the running machine, the last first. *)
Fixpoint remove_functions (id : string) (n : nat) : Lease (option string) :=
  match n with
  | O => Ret None
  | S n =>
      r ← perform (LMonitor (DeviceDelWait (qemu_device_id id n)));
      match r with Ok _ => remove_functions id n | Err e => Ret (Some e) end
  end.

Definition detach_released (vm_id : string) (devices : list PciDeviceAssignmentSpec) (index : nat)
    (assignment : PciDeviceAssignmentSpec) : Lease (result ManagerError PciActionResult) :=
  released ← release_host assignment;
  match released with
  | Err e => unlock_with vm_id (Err (OtherError e))
  | Ok _ =>
      let rest := take index devices ++ drop (S index) devices in
      _ ← perform (LWrite vm_id rest);
      saved ← perform (LSave vm_id);
      match saved with
      | Err e => _ ← perform (LWrite vm_id devices); unlock_with vm_id (Err (other e))
      | Ok _ =>
          _ ← release_pci_leases vm_id [assignment];
          unlock_with vm_id (done_with rest false "device detached"%string)
      end
  end.

Definition detach_pci_device (vm_id device_id : string) : Lease (result ManagerError PciActionResult) :=
  found ← perform (LFind vm_id);
  if negb found then Ret (Err VmNotFound)
  else
    inner ← perform (LLock vm_id);
    match ensure_pci_compatible inner with
    | Err e => unlock_with vm_id (Err e)
    | Ok _ =>
        let devices := vi_pci_devices inner in
        match position (fun a => String.eqb (as_id a) device_id) devices with
        | None => unlock_with vm_id (done_with devices false "device is already detached"%string)
        | Some index =>
            match devices !! index with
            | None => unlock_with vm_id (Err (other "unreachable"))          (* an index of [position] *)
            | Some assignment =>
                let running := is_running (vi_state inner) in
                let hotplug := match pci_device pci device_id with Some policy => pci_hotplug policy | None => false end in
                if running && negb hotplug
                then unlock_with vm_id (done_with devices true "device policy requires a cold detach"%string)
                else if running && negb (vi_monitor inner) then unlock_with vm_id (Err (other "vm monitor unavailable"))
                else
                  failed ← (if running then remove_functions (as_id assignment) (length (as_bdfs assignment)) else Ret None);
                  match failed with
                  | Some e => unlock_with vm_id (done_with devices true ("live detach failed: " +:+ e))
                  | None => detach_released vm_id devices index assignment
                  end
            end
        end
    end.

End Manager.
