(* ===== verification/PciMachines.v ===== *)
(** * The devices of a machine through its life

    What [create_vm], [start_vm], [delete_vm] and [discover] of
    [vmd/src/state/manager.rs] do to leases and assignments. *)

From S2P Require Import Prelude ContentHash Effects Reconcile Pci PciHost PciLeases PciBinding.
From Stdlib Require Import ZArith.

Section Machines.
Context (cfg : ManagerConfig).

Abbreviation pci := (mc_pci cfg).

(** [{ let inner = vm.lock().await; f(&inner) }] *)
Definition locked_read {A} (vm_id : string) (f : VmInner -> A) : Lease A :=
  inner ← perform (LLock vm_id); unlock_with vm_id (f inner).

(** ** Starting *)

(** Puts each of [prepared] in the place of the assignment of its device. *)
Fixpoint replace_assignment (l : list PciDeviceAssignmentSpec) (p : PciDeviceAssignmentSpec) : list PciDeviceAssignmentSpec :=
  match l with
  | [] => []
  | a :: l => if String.eqb (as_id a) (as_id p) then p :: l else a :: replace_assignment l p
  end.

Fixpoint release_all (l : list PciDeviceAssignmentSpec) : Lease unit :=
  match l with
  | [] => Ret tt
  | a :: l => _ ← release_host cfg a; release_all l
  end.

Definition rolled_back (vm_id : string) (devices newly : list PciDeviceAssignmentSpec)
    (failed : option PciDeviceAssignmentSpec) (error : chain) : Lease (result ManagerError unit) :=
  _ ← release_all (reverse newly);
  _ ← perform (LWrite vm_id (foldl replace_assignment devices (newly ++ option_list failed)));
  saved ← perform (LSave vm_id);
  match saved with
  | Err e => unlock_with vm_id (Err (OtherError (context ("persisting PCI rollback state also failed: " +:+ e) error)))
  | Ok _ => unlock_with vm_id (Err (OtherError error))
  end.

(** The loop over [inner.metadata.pci_devices]; its early returns do not undo what was
    prepared. *)
Fixpoint resolve_devices (vm_id : string) (devices todo resolved newly : list PciDeviceAssignmentSpec) :
    Lease (result ManagerError (list PciDeviceAssignmentSpec * list PciDeviceAssignmentSpec)) :=
  match todo with
  | [] => Ret (Ok (resolved, newly))
  | current :: todo =>
      match pci_device pci (as_id current) with
      | None => unlock_with vm_id (Err (other ("assigned PCI device `" +:+ as_id current +:+ "` is no longer in the vmd allowlist")))
      | Some policy =>
          if negb (bool_decide (pci_bdfs policy = as_bdfs current))
          then unlock_with vm_id (Err (other ("assigned PCI device `" +:+ as_id current +:+ "` no longer matches the vmd allowlist")))
          else
            ready ← on_host (assignment_ready (mc_sysfs_root cfg) (mc_dev_root cfg) current);
            if (ready : bool) then resolve_devices vm_id devices todo (resolved ++ [current]) newly
            else
              prepared ← on_host (prepare_assignment (mc_sysfs_root cfg) (mc_dev_root cfg) pci (as_id current)
                                    (mc_uid cfg) (mc_gid cfg));
              match prepared with
              | Ok assignment => resolve_devices vm_id devices todo (resolved ++ [assignment]) (newly ++ [assignment])
              | Err (PciRollbackError failed source) =>
                  r ← rolled_back vm_id devices newly (Some failed) [chain_text source];
                  Ret (match r with Ok _ => Err (other EmptyString) | Err e => Err e end)
              | Err (PciPlain error) =>
                  r ← rolled_back vm_id devices newly None error;
                  Ret (match r with Ok _ => Err (other EmptyString) | Err e => Err e end)
              end
      end
  end.

(** The part of [start_vm_inner] that holds the machine's lock before QEMU is set up. *)
Definition start_devices (vm_id : string) : Lease (result ManagerError unit) :=
  found ← perform (LFind vm_id);
  if negb found then Ret (Err VmNotFound)
  else
    macos ← locked_read vm_id vi_macos_vz;
    if (macos : bool) then perform (LWork "start_macos_vz_vm")
    else
      deleting ← perform (LDeleteRequested vm_id);
      if (deleting : bool) then Ret (Err InvalidState)
      else
      inner ← perform (LLock vm_id);
      if bool_decide (vi_state inner = VmRunning) then unlock_with vm_id (Ok tt)
      else
        match vi_pci_devices inner with
        | [] => unlock_with vm_id (Ok tt)
        | devices =>
            if negb (mc_linux cfg) || negb (String.eqb (mc_host_arch cfg) ARCH_AMD64)
               || negb (String.eqb (vi_architecture inner) ARCH_AMD64) || mc_ha_mode cfg
            then unlock_with vm_id (Err (other "assigned PCI devices require a non-HA amd64 Linux host and guest"))
            else
              r ← resolve_devices vm_id devices devices [] [];
              match r with
              | Err e => Ret (Err e)
              | Ok (resolved, newly) =>
                  _ ← perform (LWrite vm_id resolved);
                  saved ← perform (LSave vm_id);
                  match saved with
                  | Err e => _ ← release_all (reverse newly); unlock_with vm_id (Err (other e))
                  | Ok _ => unlock_with vm_id (Ok tt)
                  end
              end
        end.

(** ** Creating

    The capacity check and the copying of the image are opaque work. *)

Definition create_failed (id : string) (assignments : list PciDeviceAssignmentSpec) (e : ManagerError) :
    Lease (result ManagerError string) :=
  _ ← release_pci_leases id assignments;
  _ ← perform (LRemoveDir id);
  Ret (Err e).

(** From the first save of the metadata to the machine that can be started. *)
Definition build_machine (template : VmInner) (id : string) (assignments : list PciDeviceAssignmentSpec) :
    Lease (result ManagerError string) :=
  saved ← perform (LSaveNew id assignments);
  match saved with
  | Err e => create_failed id assignments (other e)
  | Ok _ =>
      admitted ← perform (LWork "insert_creating_vm_with_capacity");
      match admitted with
      | Err e => create_failed id assignments e
      | Ok _ =>
          _ ← perform (LInsert id (set_devices template assignments));
          _ ← perform (LLock id);
          built ← perform (LWork "create_from_source");
          match built with
          | Err e => _ ← perform (LUnlock id); _ ← perform (LRemove id); create_failed id assignments e
          | Ok _ =>
              stored ← perform (LSave id);
              match stored with
              | Err e => _ ← perform (LRemove id); r ← create_failed id assignments (other e); unlock_with id r
              | Ok _ => unlock_with id (Ok id)
              end
          end
      end
  end.

Definition refuse_creation (id : string) (e : ManagerError) : Lease (result ManagerError string) :=
  _ ← perform (LRemoveDir id); Ret (Err e).

Definition create_with_devices (template : VmInner) (from_snapshot : bool) (device_ids : list string) :
    Lease (result ManagerError string) :=
  id ← perform LUuid;
  match device_ids with
  | [] => build_machine template id []
  | _ =>
      if from_snapshot
      then refuse_creation id (other "PCI devices cannot be assigned while creating from a snapshot")
      else
        match ensure_pci_compatible cfg template with
        | Err e => refuse_creation id e
        | Ok _ =>
            reserved ← reserve_pci_devices cfg id device_ids;
            match reserved with
            | Err e => refuse_creation id e
            | Ok assignments => build_machine template id assignments
            end
        end
  end.

(** ** Deleting *)

Fixpoint release_each (l : list PciDeviceAssignmentSpec) : Lease (result ManagerError unit) :=
  match l with
  | [] => Ret (Ok tt)
  | a :: l =>
      r ← release_host cfg a;
      match r with Err e => Ret (Err (OtherError e)) | Ok _ => release_each l end
  end.

Definition delete_body (id : string) : Lease (result ManagerError unit) :=
  state ← locked_read id vi_state;
  _ ← perform (LWork "drain_vm_publication");
  _ ←? (if is_running state || bool_decide (state = Creating) then perform (LWork "force_stop_vm") else Ret (Ok tt));
  _ ←? perform (LWork "wait_for_qemu_launch_to_settle");
  state ← locked_read id vi_state;
  if is_running state then Ret (Err InvalidState)
  else
    _ ←? perform (LWork "cleanup_runtime_mounts");
    _ ←? perform (LWork "unmount_active_vfs_mountpoints_for_vm");
    _ ←? perform (LWork "ensure_vm_fuse_mounts_detached");
    _ ←? perform (LWork "report_unpublished_vfs_state_under");
    assignments ← locked_read id vi_pci_devices;
    _ ←? release_each (reverse assignments);
    removed ← perform (LRemoveDir id);
    match removed with
    | Err e => Ret (Err (other e))
    | Ok _ =>
        _ ← perform (LRemove id);
        _ ← release_pci_leases id assignments;
        _ ← perform (LWork "cleanup_fork_base_if_unreferenced");
        Ret (Ok tt)
    end.

Definition delete_vm (id : string) : Lease (result ManagerError unit) :=
  found ← perform (LFind id);
  if negb found then Ret (Err VmNotFound)
  else
    macos ← locked_read id vi_macos_vz;
    if (macos : bool) then
      _ ←? perform (LWork "delete_macos_vz_vm");
      _ ← perform (LRemove id);
      Ret (Ok tt)
    else
      begun ← perform (LBeginDelete id);
      if negb begun then Ret (Err InvalidState)
      else
        r ← delete_body id;
        _ ← perform (LEndDelete id);
        Ret r.

End Machines.

(** ** Rediscovering the machines when the daemon starts *)

(** One machine's claims; [owned] are the devices it claimed so far. *)
Fixpoint claim_devices (id : string) (devices : list PciDeviceAssignmentSpec) (owned : gset string)
    (leases : gmap string string) : result ManagerError (gmap string string) :=
  match devices with
  | [] => Ok leases
  | a :: devices =>
      if bool_decide (as_id a ∈ owned)
      then Err (other ("VM " +:+ id +:+ " contains duplicate PCI assignment `" +:+ as_id a +:+ "`"))
      else match leases !! as_id a with
           | Some owner => Err (other ("PCI device `" +:+ as_id a +:+ "` is claimed by both VM " +:+ owner +:+ " and VM " +:+ id))
           | None => claim_devices id devices ({[as_id a]} ∪ owned) (<[as_id a := id]> leases)
           end
  end.

Fixpoint discover_leases (machines : list (string * list PciDeviceAssignmentSpec)) (leases : gmap string string) :
    result ManagerError (gmap string string) :=
  match machines with
  | [] => Ok leases
  | (id, devices) :: machines =>
      match claim_devices id devices ∅ leases with
      | Err e => Err e
      | Ok leases => discover_leases machines leases
      end
  end.

(** ** A device belongs to one machine

    Any number of the operations of [PciLeases.v] and [PciMachines.v] run at once, their
    calls interleaved and failing in any way. *)

Section System.
Context `{PciSystem} (cfg : ManagerConfig).

(** ** The world *)

Record LeaseWorld := MkLease {
  lw_host : hstate;
  lw_cells : gmap string VmInner;                (** every machine some task may refer to *)
  lw_table : gset string;                        (** [Manager::vms] *)
  lw_gone : gset string;                         (** removed from the table *)
  lw_locked : gset string;
  lw_leases : gmap string string;
  lw_leases_locked : bool;
  lw_disk : gmap string (list PciDeviceAssignmentSpec);
  lw_deleting : gset string;
  lw_used : gset string;                         (** every id ever drawn *)
}.

Inductive LeaseChoice := LcHost (c : hchoice) | LcOk | LcErr (e : string) | LcWork (e : ManagerError) | LcUuid (u : string).

Definition with_host h w := MkLease h (lw_cells w) (lw_table w) (lw_gone w) (lw_locked w) (lw_leases w) (lw_leases_locked w) (lw_disk w) (lw_deleting w) (lw_used w).
Definition with_cells c w := MkLease (lw_host w) c (lw_table w) (lw_gone w) (lw_locked w) (lw_leases w) (lw_leases_locked w) (lw_disk w) (lw_deleting w) (lw_used w).
Definition with_locked l w := MkLease (lw_host w) (lw_cells w) (lw_table w) (lw_gone w) l (lw_leases w) (lw_leases_locked w) (lw_disk w) (lw_deleting w) (lw_used w).
Definition with_table t g w := MkLease (lw_host w) (lw_cells w) t g (lw_locked w) (lw_leases w) (lw_leases_locked w) (lw_disk w) (lw_deleting w) (lw_used w).
Definition with_leases l b w := MkLease (lw_host w) (lw_cells w) (lw_table w) (lw_gone w) (lw_locked w) l b (lw_disk w) (lw_deleting w) (lw_used w).
Definition with_disk d w := MkLease (lw_host w) (lw_cells w) (lw_table w) (lw_gone w) (lw_locked w) (lw_leases w) (lw_leases_locked w) d (lw_deleting w) (lw_used w).
Definition with_deleting d w := MkLease (lw_host w) (lw_cells w) (lw_table w) (lw_gone w) (lw_locked w) (lw_leases w) (lw_leases_locked w) (lw_disk w) d (lw_used w).
Definition with_used u w := MkLease (lw_host w) (lw_cells w) (lw_table w) (lw_gone w) (lw_locked w) (lw_leases w) (lw_leases_locked w) (lw_disk w) (lw_deleting w) u.

Definition device_ids (l : list PciDeviceAssignmentSpec) : list string := as_id <$> l.

(** A call that either takes effect or reports an error. *)
Definition either {W} (c : LeaseChoice) (w w' : W) : option (result string unit * W) :=
  match c with LcOk => Some (Ok tt, w') | LcErr e => Some (Err e, w) | _ => None end.

Definition lease_handle (A : Type) (e : LeaseE A) (w : LeaseWorld) (c : LeaseChoice) : option (A * LeaseWorld) :=
  match e in LeaseE A return option (A * LeaseWorld) with
  | LHost e =>
      match c with
      | LcHost c => match hcall _ e (lw_host w) c with Some (a, h) => Some (a, with_host h w) | None => None end
      | _ => None
      end
  | LUuid =>
      match c with
      | LcUuid u => if bool_decide (u ∈ lw_used w) then None else Some (u, with_used ({[u]} ∪ lw_used w) w)
      | _ => None
      end
  | LFind vm => Some (bool_decide (vm ∈ lw_table w), w)
  | LLock vm =>
      match lw_cells w !! vm with
      | Some v => if bool_decide (vm ∈ lw_locked w) then None else Some (v, with_locked ({[vm]} ∪ lw_locked w) w)
      | None => None
      end
  | LUnlock vm => Some (tt, with_locked (lw_locked w ∖ {[vm]}) w)
  | LWrite vm devices =>
      match lw_cells w !! vm with
      | Some v => Some (tt, with_cells (<[vm := set_devices v devices]> (lw_cells w)) w)
      | None => None
      end
  | LSave vm =>
      match lw_cells w !! vm with
      | Some v => either c w (with_disk (<[vm := vi_pci_devices v]> (lw_disk w)) w)
      | None => None
      end
  | LSaveNew vm devices => either c w (with_disk (<[vm := devices]> (lw_disk w)) w)
  | LRemoveDir vm => either c w (with_disk (delete vm (lw_disk w)) w)
  | LInsert vm inner =>
      match lw_cells w !! vm with
      | Some _ => None
      | None => Some (tt, with_table ({[vm]} ∪ lw_table w) (lw_gone w) (with_cells (<[vm := inner]> (lw_cells w)) w))
      end
  | LRemove vm => Some (tt, with_table (lw_table w ∖ {[vm]}) ({[vm]} ∪ lw_gone w) w)
  | LBeginDelete vm =>
      if bool_decide (vm ∈ lw_deleting w) then Some (false, w) else Some (true, with_deleting ({[vm]} ∪ lw_deleting w) w)
  | LEndDelete vm => Some (tt, with_deleting (lw_deleting w ∖ {[vm]}) w)
  | LDeleteRequested vm => Some (bool_decide (vm ∈ lw_deleting w), w)
  | LLeases => if lw_leases_locked w then None else Some (lw_leases w, with_leases (lw_leases w) true w)
  | LLeasesSet leases => Some (tt, with_leases leases false w)
  | LMonitor _ => either c w w
  | LWork _ => match c with LcOk => Some (Ok tt, w) | LcWork e => Some (Err e, w) | _ => None end
  end.

(** Anything else may change about a machine while nobody holds its lock. *)
Inductive lease_env : LeaseWorld -> LeaseWorld -> Prop :=
| env_runtime w vm v v' :
    lw_cells w !! vm = Some v -> vm ∉ lw_locked w -> vi_pci_devices v' = vi_pci_devices v ->
    lease_env w (with_cells (<[vm := v']> (lw_cells w)) w)
| env_host w h : lease_env w (with_host h w).

Definition forget {A} (m : Lease (result ManagerError A)) : Lease unit := _ ← m; Ret tt.

Inductive lease_starts : unit -> Lease unit -> LeaseWorld -> Prop :=
| starts_attach vm d w : lease_starts tt (forget (attach_pci_device cfg vm d)) w
| starts_detach vm d w : lease_starts tt (forget (detach_pci_device cfg vm d)) w
| starts_start vm w : lease_starts tt (forget (start_devices cfg vm)) w
| starts_create template snapshot ds w : lease_starts tt (forget (create_with_devices cfg template snapshot ds)) w
| starts_delete vm w : lease_starts tt (forget (delete_vm cfg vm)) w.

(** The daemon starts from the machines it finds on disk. *)
Definition lease_init (w : LeaseWorld) : Prop :=
  lw_locked w = ∅ /\ lw_leases_locked w = false /\ lw_gone w = ∅ /\ lw_table w = dom (lw_cells w) /\
  exists machines, discover_leases machines ∅ = Ok (lw_leases w) /\
    (forall vm, vm ∈ machines.*1 -> vm ∈ lw_used w) /\
    forall vm v, lw_cells w !! vm = Some v -> (vm, vi_pci_devices v) ∈ machines.

Definition lease_reachable : System -> Prop :=
  system_reachable lease_handle lease_starts lease_env (fun _ w => w) lease_init.

(** ** What a task owns *)

(** [gh_tokens] are the pairs of a device and the machine it is leased to on behalf of
    this task: the device is in no list of a machine. *)
Record Ghost := MkGhost {
  gh_held : option (string * list string);        (** the machine it locked, and the devices of it *)
  gh_leasing : option (gmap string string);       (** the leases, while it holds their mutex *)
  gh_tokens : gset (string * string);
  gh_new : gset string;                           (** machines it will insert *)
  gh_gone : gset string;                          (** machines it knows to be removed *)
  gh_seen : gset string;                          (** machines it knows to exist *)
}.

Definition pairs (vm : string) (ds : list string) : gset (string * string) := list_to_set ((fun d => (d, vm)) <$> ds).

Lemma elem_of_pairs x vm ds : x ∈ pairs vm ds <-> x.2 = vm /\ x.1 ∈ ds.
Proof.
  unfold pairs. rewrite elem_of_list_to_set, list_elem_of_fmap. destruct x as [d vm']. cbn. naive_solver.
Qed.

(** The entries of [m'] that are new. *)
Definition added_leases (m m' : gmap string string) : gset (string * string) :=
  list_to_set (filter (fun dv => m !! dv.1 = None) (map_to_list m')).

Lemma elem_of_added m m' d vm : (d, vm) ∈ added_leases m m' <-> m' !! d = Some vm /\ m !! d = None.
Proof. unfold added_leases. rewrite elem_of_list_to_set, list_elem_of_filter, elem_of_map_to_list. naive_solver. Qed.

(** What may be stored in the leases: what was there, new leases for a machine the task
    works on, or less what the task gives up. *)
Definition lease_update (g : Ghost) (m m' : gmap string string) : Prop :=
  m' = m \/
  (exists vm l, m' = take_leases vm l m /\ NoDup (device_ids l) /\ (forall d, d ∈ device_ids l -> m !! d = None)) \/
  (exists vm l, m' = drop_leases vm l m /\ forall d, d ∈ device_ids l -> (d, vm) ∈ gh_tokens g \/ vm ∈ gh_gone g).

Definition ghost_pre (A : Type) (g : Ghost) (e : LeaseE A) : Prop :=
  match e with
  | LLock vm => gh_held g = None
  | LUnlock vm => exists ids, gh_held g = Some (vm, ids)
  | LWrite vm devices =>
      NoDup (device_ids devices) /\
      exists ids, gh_held g = Some (vm, ids) /\ forall d, d ∈ device_ids devices -> d ∈ ids \/ (d, vm) ∈ gh_tokens g
  | LInsert vm inner =>
      vm ∈ gh_new g /\ NoDup (device_ids (vi_pci_devices inner)) /\
      forall d, d ∈ device_ids (vi_pci_devices inner) -> (d, vm) ∈ gh_tokens g
  | LRemove vm => vm ∈ gh_seen g
  | LLeases => gh_leasing g = None
  | LLeasesSet m' => exists m, gh_leasing g = Some m /\ lease_update g m m'
  | _ => True
  end.

Definition ghost_upd (A : Type) (g : Ghost) (e : LeaseE A) : A -> option Ghost :=
  match e in LeaseE A return A -> option Ghost with
  | LUuid => fun u => Some (MkGhost (gh_held g) (gh_leasing g) (gh_tokens g) ({[u]} ∪ gh_new g) (gh_gone g) (gh_seen g))
  | LFind vm => fun b => Some (MkGhost (gh_held g) (gh_leasing g) (gh_tokens g) (gh_new g) (gh_gone g)
                                 (if b then {[vm]} ∪ gh_seen g else gh_seen g))
  | LLock vm => fun v =>
      if decide (NoDup (device_ids (vi_pci_devices v)))
      then Some (MkGhost (Some (vm, device_ids (vi_pci_devices v))) (gh_leasing g) (gh_tokens g) (gh_new g) (gh_gone g) (gh_seen g))
      else None
  | LUnlock vm => fun _ => Some (MkGhost None (gh_leasing g) (gh_tokens g) (gh_new g) (gh_gone g) (gh_seen g))
  | LWrite vm devices => fun _ =>
      let ids := match gh_held g with Some (_, ids) => ids | None => [] end in
      Some (MkGhost (Some (vm, device_ids devices)) (gh_leasing g)
              ((gh_tokens g ∪ pairs vm ids) ∖ pairs vm (device_ids devices)) (gh_new g) (gh_gone g) (gh_seen g))
  | LInsert vm inner => fun _ =>
      Some (MkGhost (gh_held g) (gh_leasing g) (gh_tokens g ∖ pairs vm (device_ids (vi_pci_devices inner)))
              (gh_new g ∖ {[vm]}) (gh_gone g) ({[vm]} ∪ gh_seen g))
  | LRemove vm => fun _ => Some (MkGhost (gh_held g) (gh_leasing g) (gh_tokens g) (gh_new g) ({[vm]} ∪ gh_gone g) (gh_seen g))
  | LLeases => fun m => Some (MkGhost (gh_held g) (Some m) (gh_tokens g) (gh_new g) (gh_gone g) (gh_seen g))
  | LLeasesSet m' => fun _ =>
      let m := default ∅ (gh_leasing g) in
      Some (MkGhost (gh_held g) None (filter (fun dv => m' !! dv.1 = Some dv.2) (gh_tokens g) ∪ added_leases m m')
              (gh_new g) (gh_gone g) (gh_seen g))
  | _ => fun _ => Some g
  end.

(** [None] is a task that got an answer no world gives. *)
Definition lease_pre (A : Type) (g : option Ghost) (e : LeaseE A) : Prop :=
  match g with Some g => ghost_pre A g e | None => True end.
Definition lease_upd (A : Type) (g : option Ghost) (e : LeaseE A) (a : A) : option Ghost :=
  match g with Some g => ghost_upd A g e a | None => None end.

Abbreviation ok := (prog_ok lease_pre lease_upd).

Lemma ok_void {R} (Q : option Ghost -> R -> Prop) (p : Lease R) : (forall r, Q None r) -> ok Q None p.
Proof. intros HQ. induction p as [r|A e k IH]; [apply HQ|]. by split. Qed.

(** ** The invariant *)

Definition live (w : LeaseWorld) (vm : string) : Prop := vm ∉ lw_gone w.

Record world_ok (w : LeaseWorld) : Prop := {
  wo_nodup : forall vm v, lw_cells w !! vm = Some v -> NoDup (device_ids (vi_pci_devices v));
  wo_leased : forall vm v d, lw_cells w !! vm = Some v -> live w vm -> d ∈ device_ids (vi_pci_devices v) ->
    lw_leases w !! d = Some vm;
  wo_table : forall vm, vm ∈ lw_table w -> is_Some (lw_cells w !! vm) /\ live w vm;
  wo_used : forall vm, is_Some (lw_cells w !! vm) -> vm ∈ lw_used w;
  wo_gone : forall vm, vm ∈ lw_gone w -> is_Some (lw_cells w !! vm);
}.

Record owns (w : LeaseWorld) (g : Ghost) : Prop := {
  ow_token : forall d vm, (d, vm) ∈ gh_tokens g -> live w vm -> lw_leases w !! d = Some vm /\
    forall v, lw_cells w !! vm = Some v -> d ∉ device_ids (vi_pci_devices v);
  ow_held : forall vm ids, gh_held g = Some (vm, ids) -> vm ∈ lw_locked w /\
    exists v, lw_cells w !! vm = Some v /\ ids = device_ids (vi_pci_devices v);
  ow_leasing : forall m, gh_leasing g = Some m -> lw_leases_locked w = true /\ m = lw_leases w;
  ow_new : forall vm, vm ∈ gh_new g -> lw_cells w !! vm = None /\ vm ∈ lw_used w;
  ow_gone : gh_gone g ⊆ lw_gone w;
  ow_seen : forall vm, vm ∈ gh_seen g -> is_Some (lw_cells w !! vm);
}.

Record apart (w : LeaseWorld) (g1 g2 : Ghost) : Prop := {
  ap_token : forall x, x ∈ gh_tokens g1 -> x ∈ gh_tokens g2 -> live w x.2 -> False;
  ap_held : forall vm ids1 ids2, gh_held g1 = Some (vm, ids1) -> gh_held g2 = Some (vm, ids2) -> False;
  ap_leasing : forall m1 m2, gh_leasing g1 = Some m1 -> gh_leasing g2 = Some m2 -> False;
  ap_new : forall vm, vm ∈ gh_new g1 -> vm ∈ gh_new g2 -> False;
}.

Definition lease_inv (w : LeaseWorld) (γ : gmap nat (unit * option Ghost)) : Prop :=
  world_ok w /\ (forall i t g, γ !! i = Some (t, g) -> exists g0, g = Some g0 /\ owns w g0) /\
  forall i j t1 t2 g1 g2, i ≠ j -> γ !! i = Some (t1, Some g1) -> γ !! j = Some (t2, Some g2) -> apart w g1 g2.

Lemma apart_sym w g1 g2 : apart w g1 g2 -> apart w g2 g1.
Proof. intros [H1 H2 H3 H4]. split; eauto. Qed.

Lemma apart_gone w w' g1 g2 : lw_gone w ⊆ lw_gone w' -> apart w g1 g2 -> apart w' g1 g2.
Proof. intros Hg [H1 H2 H3 H4]. split; eauto. intros x Hx1 Hx2 Hl. apply (H1 x); [done..|]. unfold live in *. set_solver. Qed.

(** One task moves: the others keep what they own. *)
Lemma inv_step w γ i t g w' g' :
  lease_inv w γ -> γ !! i = Some (t, Some g) -> lw_gone w ⊆ lw_gone w' -> world_ok w' -> owns w' g' ->
  (forall g2, owns w g2 -> apart w g g2 -> owns w' g2 /\ apart w' g' g2) ->
  lease_inv w' (<[i := (t, Some g')]> γ).
Proof.
  intros (_ & Ho & Ha) Hi Hgone Hw Hg Hothers. split_and!; [done| |].
  - intros j t2 g2. destruct (decide (i = j)) as [<-|Hne]; [rewrite lookup_insert_eq; naive_solver|].
    rewrite lookup_insert_ne by done. intros Hj. destruct (Ho _ _ _ Hj) as (g0 & -> & Hg0). exists g0. split; [done|].
    apply Hothers; [done|]. by eapply Ha.
  - intros j k t1 t2 g1 g2 Hjk Hj Hk.
    assert (forall j tj gj, j ≠ i -> γ !! j = Some (tj, Some gj) -> apart w' g' gj) as Hmine.
    { intros l tl gl Hl Hgl. destruct (Ho _ _ _ Hgl) as (g0 & [= <-] & Hg0). apply Hothers; [done|]. eapply (Ha i l); [congruence|done..]. }
    destruct (decide (i = j)) as [<-|Hij], (decide (i = k)) as [<-|Hik]; simplify_map_eq.
    + by eapply Hmine.
    + apply apart_sym. by eapply Hmine.
    + eapply apart_gone; [done|]. by eapply (Ha j k).
Qed.

(** A move that changes nothing the invariant speaks of. *)
Lemma inv_same w γ i t g w' :
  lease_inv w γ -> γ !! i = Some (t, Some g) ->
  lw_cells w' = lw_cells w -> lw_table w' = lw_table w -> lw_gone w' = lw_gone w -> lw_locked w' = lw_locked w ->
  lw_leases w' = lw_leases w -> lw_leases_locked w' = lw_leases_locked w -> lw_used w' = lw_used w ->
  lease_inv w' (<[i := (t, Some g)]> γ).
Proof.
  intros Hinv Hi E1 E2 E3 E4 E5 E6 E7. pose proof Hinv as ([Hw1 Hw2 Hw3 Hw4 Hw5] & Ho & _).
  assert (forall g2, owns w g2 -> owns w' g2) as Howns.
  { intros g2 [O1 O2 O3 O4 O5 O6]. split; unfold live in *; rewrite ?E1, ?E2, ?E3, ?E4, ?E5, ?E6, ?E7; eauto. }
  destruct (Ho _ _ _ Hi) as (g0 & [= <-] & Hg).
  eapply inv_step; [done|done|by rewrite E3| |by apply Howns|].
  - split; unfold live in *; rewrite ?E1, ?E2, ?E3, ?E5, ?E7; eauto.
  - intros g2 Hg2 Hap. split; [by apply Howns|]. eapply apart_gone; [|done]. by rewrite E3.
Qed.

End System.
