(* ===== verification/PciRules.v ===== *)
(** * Every operation keeps the invariant of the leases

    The calls of [PciMachines.v], one lemma for each that changes what a task owns. *)

From S2P Require Import Prelude ContentHash Effects Reconcile Pci PciHost PciBinding PciLeases PciMachines.
From Stdlib Require Import ZArith.

Lemma take_leases_lookup vm l : forall m d,
  take_leases vm l m !! d = if decide (d ∈ device_ids l) then Some vm else m !! d.
Proof.
  unfold take_leases. induction l as [|a l IH]; intros m d; cbn; [by rewrite decide_False by set_solver|]. rewrite IH.
  destruct (decide (d = as_id a)) as [->|Hne].
  - rewrite lookup_insert_eq. by repeat case_decide; set_solver.
  - rewrite lookup_insert_ne by done. by repeat case_decide; set_solver.
Qed.

Lemma drop_leases_lookup vm l : forall m d,
  drop_leases vm l m !! d = if decide (d ∈ device_ids l /\ m !! d = Some vm) then None else m !! d.
Proof.
  unfold drop_leases. induction l as [|a l IH]; intros m d; cbn [foldl]; [by rewrite decide_False by (cbn; set_solver)|].
  rewrite IH. destruct (decide (d = as_id a)) as [->|Hne].
  - case_bool_decide as Hm.
    + rewrite lookup_delete_eq. rewrite (decide_True (P := as_id a ∈ device_ids (a :: l) /\ _)) by (split; [cbn; set_solver|done]).
      by case_decide.
    + rewrite (decide_False (P := as_id a ∈ device_ids (a :: l) /\ _)) by naive_solver. rewrite decide_False by naive_solver. done.
  - assert ((if bool_decide (m !! as_id a = Some vm) then delete (as_id a) m else m) !! d = m !! d) as ->
      by (case_bool_decide; [by rewrite lookup_delete_ne|done]).
    repeat case_decide; cbn in *; set_solver.
Qed.

Section Rules.
Context `{PciSystem}.

Abbreviation inv := lease_inv.

(** The common shape of a step: what changes for the world, the task and the others. *)
Ltac step_inv Hinv Hi Hg :=
  let Hw := fresh "Hw" in let Ho := fresh "Ho" in
  pose proof Hinv as (Hw & Ho & _); destruct (Ho _ _ _ Hi) as (? & [= <-] & Hg); clear Ho;
  eapply inv_step; [exact Hinv|exact Hi| | | |].

Lemma rule_uuid w γ i t g u :
  inv w γ -> γ !! i = Some (t, Some g) -> u ∉ lw_used w ->
  inv (with_used ({[u]} ∪ lw_used w) w) (<[i := (t, ghost_upd _ g LUuid u)]> γ).
Proof.
  intros Hinv Hi Hu. step_inv Hinv Hi Hg; [done| | |]; destruct Hw as [W1 W2 W3 W4 W5], Hg as [O1 O2 O3 O4 O5 O6].
  - split; cbn; eauto. intros vm Hvm. apply W4 in Hvm. set_solver.
  - split; cbn; eauto. intros vm [->%elem_of_singleton|Hvm]%elem_of_union; [|set_solver].
    split; [|set_solver]. destruct (lw_cells w !! u) eqn:E; [|done]. destruct Hu. by apply W4; eexists.
  - intros g2 [P1 P2 P3 P4 P5 P6] [A1 A2 A3 A4]. split; split; cbn; eauto.
    + intros vm Hvm. destruct (P4 vm Hvm). set_solver.
    + intros vm [->%elem_of_singleton|Hvm]%elem_of_union Hvm2; [by destruct (P4 u Hvm2)|eauto].
Qed.

Lemma rule_find w γ i t g vm b :
  inv w γ -> γ !! i = Some (t, Some g) -> (b = true -> vm ∈ lw_table w) ->
  inv w (<[i := (t, ghost_upd _ g (LFind vm) b)]> γ).
Proof.
  intros Hinv Hi Hb. step_inv Hinv Hi Hg; [done|done| |]; destruct Hw as [W1 W2 W3 W4 W5], Hg as [O1 O2 O3 O4 O5 O6].
  - split; cbn; eauto. destruct b; [|eauto]. intros x [->%elem_of_singleton|Hx]%elem_of_union; [|eauto].
    by apply W3, Hb.
  - intros g2 P [A1 A2 A3 A4]. by split.
Qed.

Lemma rule_lock w γ i t g vm v :
  inv w γ -> γ !! i = Some (t, Some g) -> gh_held g = None -> lw_cells w !! vm = Some v -> vm ∉ lw_locked w ->
  inv (with_locked ({[vm]} ∪ lw_locked w) w) (<[i := (t, ghost_upd _ g (LLock vm) v)]> γ).
Proof.
  intros Hinv Hi Hheld Hv Hl. pose proof Hinv as (Hw & _). cbn. rewrite decide_True by (by eapply wo_nodup). clear Hw.
  step_inv Hinv Hi Hg; [done| | |]; destruct Hw as [W1 W2 W3 W4 W5], Hg as [O1 O2 O3 O4 O5 O6].
  - split; cbn; eauto.
  - split; cbn; eauto. intros x ids [= <- <-]. split; [set_solver|eauto].
  - intros g2 [P1 P2 P3 P4 P5 P6] [A1 A2 A3 A4]. split; split; cbn; eauto.
    + intros x ids Hx. destruct (P2 x ids Hx). set_solver.
    + intros x ids1 ids2 [= <- <-] H2. by destruct (P2 vm ids2 H2).
Qed.

Lemma rule_unlock w γ i t g vm ids :
  inv w γ -> γ !! i = Some (t, Some g) -> gh_held g = Some (vm, ids) ->
  inv (with_locked (lw_locked w ∖ {[vm]}) w) (<[i := (t, ghost_upd _ g (LUnlock vm) tt)]> γ).
Proof.
  intros Hinv Hi Hheld. step_inv Hinv Hi Hg; [done| | |]; destruct Hw as [W1 W2 W3 W4 W5], Hg as [O1 O2 O3 O4 O5 O6].
  - split; cbn; eauto.
  - split; cbn; eauto. done.
  - intros g2 [P1 P2 P3 P4 P5 P6] [A1 A2 A3 A4]. split; split; cbn; eauto; [|done].
    intros x ids2 Hx. destruct (P2 x ids2 Hx) as [Hx1 Hx2]. split; [|done].
    apply elem_of_difference. split; [done|]. intros ->%elem_of_singleton. eauto.
Qed.

Lemma rule_write w γ i t g vm v devices :
  inv w γ -> γ !! i = Some (t, Some g) -> ghost_pre _ g (LWrite vm devices) -> lw_cells w !! vm = Some v ->
  inv (with_cells (<[vm := set_devices v devices]> (lw_cells w)) w) (<[i := (t, ghost_upd _ g (LWrite vm devices) tt)]> γ).
Proof.
  intros Hinv Hi (Hnd & ids & Hheld & Hsub) Hv.
  step_inv Hinv Hi Hg; [done| | |]; destruct Hw as [W1 W2 W3 W4 W5], Hg as [O1 O2 O3 O4 O5 O6];
    destruct (O2 _ _ Hheld) as (Hlock & v0 & Hv0 & ->); rewrite Hv in Hv0; injection Hv0 as <-.
  - split; cbn; eauto.
    + intros x vx Hx. destruct (decide (x = vm)) as [->|]; simplify_map_eq; eauto.
    + intros x vx d Hx Hlive Hd. destruct (decide (x = vm)) as [->|]; simplify_map_eq; [|eauto]. cbn in Hd.
      destruct (Hsub d Hd) as [Hold|Htok]; [eauto|by apply O1].
    + intros x Hx. destruct (W3 x Hx) as [Hs Hlive]. split; [|done]. destruct (decide (x = vm)) as [->|]; by simplify_map_eq.
    + intros x Hx. apply W4. destruct (decide (x = vm)) as [->|]; simplify_map_eq; eauto.
    + intros x Hx. destruct (decide (x = vm)) as [->|]; simplify_map_eq; eauto.
  - split; cbn; rewrite ?Hheld; eauto.
    + intros d x [Hx Hnot]%elem_of_difference Hlive. rewrite elem_of_pairs in Hnot. cbn in Hnot.
      apply elem_of_union in Hx as [Hx|Hx].
      * destruct (O1 d x Hx Hlive) as [Hl Hc]. split; [done|]. intros vx Hvx.
        destruct (decide (x = vm)) as [->|]; simplify_map_eq; [|eauto]. cbn. naive_solver.
      * apply elem_of_pairs in Hx as [Heq Hd]. cbn in Heq, Hd. subst x. split; [eauto|].
        intros vx Hvx. simplify_map_eq. cbn. naive_solver.
    + intros x ids [= <- <-]. split; [done|]. eexists. by rewrite lookup_insert_eq.
    + intros x Hx. destruct (O4 x Hx). split; [|done]. by rewrite lookup_insert_ne by congruence.
    + intros x Hx. destruct (decide (x = vm)) as [->|]; simplify_map_eq; eauto.
  - intros g2 [P1 P2 P3 P4 P5 P6] [A1 A2 A3 A4]. split; split; cbn; rewrite ?Hheld; eauto.
    + intros d x Hx Hlive. destruct (P1 d x Hx Hlive) as [Hl Hc]. split; [done|]. intros vx Hvx.
      destruct (decide (x = vm)) as [->|]; simplify_map_eq; [|eauto]. cbn. intros Hd.
      destruct (Hsub d Hd) as [Hold|Htok]; [by eapply Hc|]. by apply (A1 (d, vm)).
    + intros x ids Hx. destruct (P2 x ids Hx) as (Hx1 & vx & Hvx & ->). split; [done|]. exists vx.
      rewrite lookup_insert_ne; [done|]. intros ->. eauto.
    + intros x Hx. destruct (P4 x Hx). split; [|done]. by rewrite lookup_insert_ne by congruence.
    + intros x Hx. destruct (decide (x = vm)) as [->|]; simplify_map_eq; eauto.
    + intros [d x] [Hx _]%elem_of_difference Hx2 Hlive. apply elem_of_union in Hx as [Hx|Hx]; [by apply (A1 (d, x))|].
      apply elem_of_pairs in Hx as [Heq Hd]. cbn in Heq, Hd. subst x. destruct (P1 d vm Hx2 Hlive) as [_ Hc]. by apply (Hc v).
    + intros x ids1 ids2 [= <- <-]. eauto.
Qed.

Lemma rule_insert w γ i t g vm inner :
  inv w γ -> γ !! i = Some (t, Some g) -> ghost_pre _ g (LInsert vm inner) -> lw_cells w !! vm = None ->
  inv (with_table ({[vm]} ∪ lw_table w) (lw_gone w) (with_cells (<[vm := inner]> (lw_cells w)) w))
    (<[i := (t, ghost_upd _ g (LInsert vm inner) tt)]> γ).
Proof.
  intros Hinv Hi (Hnew & Hnd & Hsub) Hv.
  step_inv Hinv Hi Hg; [done| | |]; destruct Hw as [W1 W2 W3 W4 W5], Hg as [O1 O2 O3 O4 O5 O6];
    (assert (live w vm) as Hlive by (intros Hgone; apply W5 in Hgone as [? Hx]; congruence)).
  - split; cbn; eauto.
    + intros x vx Hx. destruct (decide (x = vm)) as [->|]; simplify_map_eq; eauto.
    + intros x vx d Hx Hl Hd. destruct (decide (x = vm)) as [->|]; simplify_map_eq; [|eauto]. by apply O1; [apply Hsub|].
    + intros x [->%elem_of_singleton|Hx]%elem_of_union; [by simplify_map_eq|]. destruct (W3 x Hx) as [Hs Hl]. split; [|done].
      destruct (decide (x = vm)) as [->|]; by simplify_map_eq.
    + intros x Hx. destruct (decide (x = vm)) as [->|]; simplify_map_eq; [by apply O4|eauto].
    + intros x Hx. destruct (decide (x = vm)) as [->|]; simplify_map_eq; eauto.
  - split; cbn; eauto.
    + intros d x [Hx Hnot]%elem_of_difference Hl. rewrite elem_of_pairs in Hnot. cbn in Hnot.
      destruct (O1 d x Hx Hl) as [Hle Hc]. split; [done|]. intros vx Hvx.
      destruct (decide (x = vm)) as [->|]; simplify_map_eq; [naive_solver|eauto].
    + intros x ids Hx. destruct (O2 x ids Hx) as (Hx1 & vx & Hvx & ->). split; [done|]. exists vx.
      rewrite lookup_insert_ne; [done|congruence].
    + intros x [Hx Hne]%elem_of_difference. destruct (O4 x Hx). split; [|done]. rewrite lookup_insert_ne; [done|set_solver].
    + intros x [->%elem_of_singleton|Hx]%elem_of_union; [by simplify_map_eq|].
      destruct (decide (x = vm)) as [->|]; simplify_map_eq; eauto.
  - intros g2 [P1 P2 P3 P4 P5 P6] [A1 A2 A3 A4]. split; split; cbn; eauto.
    + intros d x Hx Hl. destruct (P1 d x Hx Hl) as [Hle Hc]. split; [done|]. intros vx Hvx.
      destruct (decide (x = vm)) as [->|]; simplify_map_eq; [|eauto]. intros Hd. by apply (A1 (d, vm)); [apply Hsub| |].
    + intros x ids Hx. destruct (P2 x ids Hx) as (Hx1 & vx & Hvx & ->). split; [done|]. exists vx.
      rewrite lookup_insert_ne; [done|congruence].
    + intros x Hx. destruct (P4 x Hx). split; [|done]. rewrite lookup_insert_ne; [done|]. intros ->. eauto.
    + intros x Hx. destruct (decide (x = vm)) as [->|]; simplify_map_eq; eauto.
    + intros x [Hx _]%elem_of_difference. eauto.
    + intros x [Hx _]%elem_of_difference. eauto.
Qed.

Lemma rule_remove w γ i t g vm :
  inv w γ -> γ !! i = Some (t, Some g) -> vm ∈ gh_seen g ->
  inv (with_table (lw_table w ∖ {[vm]}) ({[vm]} ∪ lw_gone w) w) (<[i := (t, ghost_upd _ g (LRemove vm) tt)]> γ).
Proof.
  intros Hinv Hi Hseen. step_inv Hinv Hi Hg; [cbn; set_solver| | |]; destruct Hw as [W1 W2 W3 W4 W5], Hg as [O1 O2 O3 O4 O5 O6];
    (assert (forall x, live (with_table (lw_table w ∖ {[vm]}) ({[vm]} ∪ lw_gone w) w) x -> live w x) as Hlive
      by (unfold live; cbn; set_solver)).
  - split; cbn; eauto.
    + intros x Hx. apply elem_of_difference in Hx as [Hx Hne]. destruct (W3 x Hx). unfold live in *. cbn. set_solver.
    + intros x [->%elem_of_singleton|Hx]%elem_of_union; eauto.
  - split; cbn; eauto. set_solver.
  - intros g2 [P1 P2 P3 P4 P5 P6] [A1 A2 A3 A4]. split; split; cbn; eauto. set_solver.
Qed.

Lemma rule_leases w γ i t g :
  inv w γ -> γ !! i = Some (t, Some g) -> lw_leases_locked w = false ->
  inv (with_leases (lw_leases w) true w) (<[i := (t, ghost_upd _ g LLeases (lw_leases w))]> γ).
Proof.
  intros Hinv Hi Hl. step_inv Hinv Hi Hg; [done| | |]; destruct Hw as [W1 W2 W3 W4 W5], Hg as [O1 O2 O3 O4 O5 O6].
  - split; cbn; eauto.
  - split; cbn; eauto. by intros m [= <-].
  - intros g2 [P1 P2 P3 P4 P5 P6] [A1 A2 A3 A4]. split; split; cbn; eauto.
    + intros m Hm. destruct (P3 m Hm). congruence.
    + intros m1 m2 [= <-] Hm. destruct (P3 m2 Hm). congruence.
Qed.

(** What an update of the leases means for a pair of a device and a live machine. *)
Lemma lease_update_cases w g m' d vm :
  owns w g -> lease_update g (lw_leases w) m' -> live w vm -> lw_leases w !! d = Some vm ->
  m' !! d = Some vm \/ (d, vm) ∈ gh_tokens g.
Proof.
  intros [O1 _ _ _ O5 _] [->|[(x & l & -> & _ & Hfree)|(x & l & -> & Htok)]] Hlive Hd; [by left| |].
  - left. rewrite take_leases_lookup. case_decide as Hin; [|done]. rewrite (Hfree d Hin) in Hd. done.
  - rewrite drop_leases_lookup. case_decide as Hin; [|by left]. destruct Hin as [Hin Hx]. right.
    rewrite Hd in Hx. injection Hx as <-. destruct (Htok d Hin) as [|Hgone]; [done|]. destruct Hlive. set_solver.
Qed.

Lemma rule_leases_set w γ i t g m' :
  inv w γ -> γ !! i = Some (t, Some g) -> ghost_pre _ g (LLeasesSet m') ->
  inv (with_leases m' false w) (<[i := (t, ghost_upd _ g (LLeasesSet m') tt)]> γ).
Proof.
  intros Hinv Hi (m & Hm & Hupd). cbn. rewrite Hm. cbn.
  step_inv Hinv Hi Hg; [done| | |]; pose proof (lease_update_cases w g m') as Hcases;
    pose proof Hg as [O1 O2 O3 O4 O5 O6]; destruct (O3 m Hm) as [Hlk ->]; destruct Hw as [W1 W2 W3 W4 W5].
  - split; cbn; eauto. intros vm v d Hv Hlive Hd.
    destruct (Hcases d vm Hg Hupd Hlive (W2 vm v d Hv Hlive Hd)) as [|Htok]; [done|].
    destruct (O1 d vm Htok Hlive) as [_ Hc]. by destruct (Hc v Hv).
  - split; cbn; eauto; [|done]. intros d vm [Hx|Hx]%elem_of_union Hlive.
    + apply elem_of_filter in Hx as [Hx Htok]. split; [done|]. by apply O1.
    + apply elem_of_added in Hx as [Hx Hnone]. split; [done|]. intros v Hv Hd. rewrite (W2 vm v d Hv Hlive Hd) in Hnone. done.
  - intros g2 [P1 P2 P3 P4 P5 P6] [A1 A2 A3 A4]. split; split; cbn; eauto; try done.
    + intros d vm Hx Hlive. destruct (P1 d vm Hx Hlive) as [Hle Hc]. split; [|done].
      destruct (Hcases d vm Hg Hupd Hlive Hle) as [|Htok]; [done|]. by destruct (A1 (d, vm) Htok Hx).
    + intros m2 Hm2. by destruct (A3 (lw_leases w) m2).
    + intros [d vm] [Hx|Hx]%elem_of_union Hx2 Hlive.
      * apply elem_of_filter in Hx as [_ Hx]. eauto.
      * apply elem_of_added in Hx as [_ Hnone]. destruct (P1 d vm Hx2 Hlive). congruence.
Qed.

End Rules.

(** ** The device operations respect the leases

    Each program of [PciLeases.v] and [PciMachines.v] is checked once against what its
    task owns; with the rules of [PciRules.v] this gives the exclusion of devices under
    every interleaving. *)

(** ** Results of host programs, whatever the host answers *)

Fixpoint returns {R} (P : R -> Prop) (p : Pci R) : Prop :=
  match p with Ret r => P r | Do e k => forall a, returns P (k a) end.

Lemma returns_mono {R} (P Q : R -> Prop) (p : Pci R) : (forall r, P r -> Q r) -> returns P p -> returns Q p.
Proof. intros HPQ. induction p as [r|A e k IH]; cbn; eauto. Qed.
Lemma returns_bind {A B} (P : B -> Prop) (m : Pci A) (f : A -> Pci B) :
  returns (fun a => returns P (f a)) m -> returns P (m ≫= f).
Proof. unfold mbind, prog_mbind. induction m as [a|X e k IH]; cbn; eauto. Qed.
Lemma returns_any {R} (P : R -> Prop) (p : Pci R) : (forall r, P r) -> returns P p.
Proof. intros HP. induction p as [r|A e k IH]; cbn; eauto. Qed.
Lemma returns_step {A B} (P : B -> Prop) (m : Pci A) (f : A -> Pci B) : (forall a, returns P (f a)) -> returns P (m ≫= f).
Proof. intros Hf. apply returns_bind, returns_any, Hf. Qed.

Lemma returns_plain {A B} (P : result PciError B -> Prop) (m : Pci (result chain A)) (f : A -> Pci (result PciError B)) :
  (forall a, returns P (f a)) -> (forall e, P (Err (PciPlain e))) -> returns P (try_bind (plain m) f).
Proof. intros Hf He. apply returns_bind, returns_bind, returns_any. by intros [a|e]; cbn. Qed.

Lemma inventory_device_leased sysfs linux policy vm :
  returns (fun v => iv_id v = pci_id policy /\ (is_Some vm -> iv_state v = PiAssigned)) (inventory_device sysfs linux policy vm).
Proof.
  unfold inventory_device. apply returns_step. intros [functions|error].
  - destruct vm as [vm|]; [done|]. assert (~ is_Some (None : option string)) by (by intros [? ?]).
    case_match; [done|]. apply returns_step. intros [[]|e]; [|done]. apply returns_step. intros [|]; cbn [negb]; [|done].
    by case_match.
  - destruct vm; cbn; by split.
Qed.

Lemma inventory_leased sysfs linux config leases :
  returns (Forall (fun v => is_Some (leases !! iv_id v) -> iv_state v = PiAssigned)) (inventory sysfs linux config leases).
Proof.
  unfold inventory. destruct (pci_enabled config); cbn [negb]; [|constructor].
  induction (pci_devices config) as [|policy l IH]; cbn [map_pci]; [constructor|].
  apply returns_bind. eapply returns_mono; [|apply inventory_device_leased]. intros v [Hid Hst].
  apply returns_bind. eapply returns_mono; [|exact IH]. intros vs Hvs. cbn. constructor; [|done]. by rewrite Hid.
Qed.

Definition prepared_id (d : string) (r : result PciError PciDeviceAssignmentSpec) : Prop :=
  match r with Ok a => as_id a = d | Err (PciRollbackError a _) => as_id a = d | Err (PciPlain _) => True end.

Lemma prepare_id sysfs devs config d uid gid : returns (prepared_id d) (prepare_assignment sysfs devs config d uid gid).
Proof.
  unfold prepare_assignment. destruct (pci_device config d) as [policy|] eqn:Ed; [|done].
  apply pci_device_id in Ed as <-. apply returns_plain; [intros []|done]. apply returns_plain; [intros [m g]|done].
  apply returns_step. intros [|]; cbn [negb]; [|done]. apply returns_step. intros [[]|].
  - apply returns_step. intros [[]|]; [done|]. apply returns_step. by intros [[]|].
  - apply returns_step. intros r. done.
Qed.

Section Checks.
Context `{PciSystem} (cfg : ManagerConfig).

Abbreviation ok := (prog_ok lease_pre lease_upd).

(** Of a task that still has a ghost. *)
Definition when (P : Ghost -> Prop) (g : option Ghost) : Prop := match g with Some g => P g | None => True end.

(** Everything but the tokens is as in [g]. *)
Record fixed (g g' : Ghost) : Prop := {
  fx_held : gh_held g' = gh_held g;
  fx_leasing : gh_leasing g' = gh_leasing g;
  fx_new : gh_new g' = gh_new g;
  fx_gone : gh_gone g' = gh_gone g;
  fx_seen : gh_seen g' = gh_seen g;
}.

Definition any {R} : option Ghost -> R -> Prop := fun _ _ => True.

Lemma ok_any {R} (Q : option Ghost -> R -> Prop) g (p : Lease R) : ok Q g p -> ok any g p.
Proof. by apply prog_ok_mono. Qed.

Lemma ok_when {A B} (P : Ghost -> A -> Prop) (m : Lease A) (f : A -> Lease B) g :
  ok (fun g' a => when (fun g' => P g' a) g') g m ->
  (forall g' a, P g' a -> ok any (Some g') (f a)) -> ok any g (m ≫= f).
Proof.
  intros Hm Hf. eapply prog_ok_seq; [exact Hm|]. intros [g'|] a Ha; [by apply Hf|by apply ok_void].
Qed.

Lemma on_host_ok {R} (P : R -> Prop) (p : Pci R) g :
  returns P p -> ok (fun g' r => when (fun g' => g' = g /\ P r) g') (Some g) (on_host p).
Proof. induction p as [r|A e k IH]; cbn; [done|]. intros Hr. split; [done|]. intros a. by apply IH. Qed.

(** ** Leases *)

Lemma new_assignment_id d : as_id (new_assignment cfg d) = d.
Proof. unfold new_assignment. destruct (pci_device _ d) eqn:E; [|done]. cbn. by eapply pci_device_id. Qed.
Lemma new_assignment_ids ds : device_ids (new_assignment cfg <$> ds) = ds.
Proof.
  induction ds as [|d ds IH]; [done|].
  change (as_id (new_assignment cfg d) :: device_ids (new_assignment cfg <$> ds) = d :: ds). by rewrite new_assignment_id, IH.
Qed.

Lemma check_requested_nodup ds : forall s, check_requested cfg ds s = Ok tt -> NoDup ds /\ forall d, d ∈ ds -> d ∉ s.
Proof.
  induction ds as [|d ds IH]; intros s; cbn; [intros _; split; [constructor|]; intros x Hx; by apply elem_of_nil in Hx|].
  case_bool_decide as Hd; [done|]. destruct (pci_device _ d); [|done]. intros Hr. destruct (IH _ Hr) as [Hnd Hin].
  split; [constructor; [|done]; intros Hx; specialize (Hin d Hx); set_solver|].
  intros x [->|Hx]%elem_of_cons; [done|]. specialize (Hin x Hx). set_solver.
Qed.

Lemma check_available_free listed (m : gmap string string) d :
  Forall (fun v => is_Some (m !! iv_id v) -> iv_state v = PiAssigned) listed -> check_available listed d = Ok tt -> m !! d = None.
Proof.
  unfold check_available. intros Hall. destruct (List.find _ listed) as [v|] eqn:Ef; [|done].
  apply List.find_some in Ef as [Hin Hid]. apply String.eqb_eq in Hid as <-. case_bool_decide as Hs; [done|]. intros _.
  rewrite Forall_forall in Hall. destruct (m !! iv_id v) eqn:E; [|done]. destruct Hs. apply Hall; [by apply list_elem_of_In|].
  by rewrite E.
Qed.

Lemma mapM_result_all {E A B} (f : A -> result E B) l r : mapM_result f l = Ok r -> forall x, x ∈ l -> exists y, f x = Ok y.
Proof.
  revert r; induction l as [|x l IH]; intros r; cbn; [intros _ y Hy; by apply elem_of_nil in Hy|].
  destruct (f x) eqn:Ex; [|done]. destruct (mapM_result f l) eqn:El; [|done]. intros _ y [->|Hy]%elem_of_cons; [eauto|].
  by eapply IH.
Qed.

Lemma release_ok vm l g :
  gh_leasing g = None -> (forall d, d ∈ device_ids l -> (d, vm) ∈ gh_tokens g \/ vm ∈ gh_gone g) ->
  ok (fun g' _ => when (fixed g) g') (Some g) (release_pci_leases vm l).
Proof.
  intros Hl Htok. split; [exact Hl|]. intros m. split; [exists m; split; [done|]; right; right; eauto|].
  intros []. by split.
Qed.

Definition reserved (vm : string) (ds : list string) (g g' : Ghost) (r : result ManagerError (list PciDeviceAssignmentSpec)) : Prop :=
  fixed g g' /\ forall l, r = Ok l -> device_ids l = ds /\ NoDup ds /\ forall d, d ∈ ds -> (d, vm) ∈ gh_tokens g'.

Lemma reserve_ok vm ds g :
  gh_leasing g = None -> ok (fun g' r => when (fun g' => reserved vm ds g g' r) g') (Some g) (reserve_pci_devices cfg vm ds).
Proof.
  intros Hl. unfold reserve_pci_devices. destruct ds as [|d0 ds0] eqn:Eds.
  { split; [by split|]. intros l [= <-]. split_and!; [done|constructor|]. intros d Hd. by apply elem_of_nil in Hd. }
  rewrite <- Eds. clear Eds d0 ds0. destruct (check_requested cfg ds ∅) as [[]|e] eqn:Ec; [|split; [by split|done]].
  apply check_requested_nodup in Ec as [Hnd _]. split; [exact Hl|]. intros m.
  eapply prog_ok_seq; [apply on_host_ok, inventory_leased|]. intros [g1|] listed; [|intros _; by apply ok_void].
  intros [-> Hall]. destruct (mapM_result (check_available listed) ds) as [us|e] eqn:Ea.
  - assert (forall d, d ∈ ds -> m !! d = None) as Hfree.
    { intros d Hd. destruct (mapM_result_all _ _ _ Ea d Hd) as [[] Hok]. by eapply check_available_free. }
    split.
    { exists m. split; [done|]. right; left. exists vm, (new_assignment cfg <$> ds). by rewrite new_assignment_ids. }
    intros []. split; [by split|]. intros l [= <-]. split_and!; [apply new_assignment_ids|done|].
    intros d Hd. cbn. apply elem_of_union. right. apply elem_of_added. rewrite take_leases_lookup, new_assignment_ids.
    by rewrite decide_True; [auto|].
  - split; [exists m; split; [done|by left]|]. intros []. split; [by split|done].
Qed.

(** ** Under the lock of a machine *)

Lemma unlock_ok {R} vm ids g (r : R) : gh_held g = Some (vm, ids) -> ok any (Some g) (unlock_with vm r).
Proof. intros Hh. split; [by exists ids|done]. Qed.

(** The task holds [vm], whose devices are [devices], and has leased [d] for it. *)
Record attaching (vm : string) (devices : list PciDeviceAssignmentSpec) (d : string) (g : Ghost) : Prop := {
  at_held : gh_held g = Some (vm, device_ids devices);
  at_leasing : gh_leasing g = None;
  at_nodup : NoDup (device_ids devices);
  at_new : d ∉ device_ids devices;
  at_token : (d, vm) ∈ gh_tokens g;
}.

Lemma attaching_fixed vm devices d g g' : attaching vm devices d g -> g' = g -> attaching vm devices d g'.
Proof. by intros ? ->. Qed.

Lemma device_ids_snoc l a : device_ids (l ++ [a]) = device_ids l ++ [as_id a].
Proof. unfold device_ids. by rewrite fmap_app. Qed.

(** Adding the device to the list and taking it off again. *)
Lemma write_added vm devices a g :
  attaching vm devices (as_id a) g -> ghost_pre _ g (LWrite vm (devices ++ [a])).
Proof.
  intros [Hh Hl Hnd Hnew Htok]. split; rewrite ?device_ids_snoc.
  - apply NoDup_app. split_and!; [done| |apply NoDup_singleton]. intros d Hd Hx. set_solver.
  - exists (device_ids devices). split; [done|]. intros d. rewrite elem_of_app, list_elem_of_singleton. intros [Hd| ->]; auto.
Qed.

Lemma write_undone vm devices a g :
  gh_held g = Some (vm, device_ids (devices ++ [a])) -> gh_leasing g = None ->
  NoDup (device_ids (devices ++ [a])) ->
  ghost_pre _ g (LWrite vm devices) /\ when (attaching vm devices (as_id a)) (ghost_upd _ g (LWrite vm devices) tt).
Proof.
  rewrite device_ids_snoc. intros Hh Hl Hnd. apply NoDup_app in Hnd as (Hnd & Hdis & _).
  assert (as_id a ∉ device_ids devices) as Hnew by (intros Hx; specialize (Hdis _ Hx); set_solver). split.
  - split; [done|]. eexists. split; [done|]. set_solver.
  - cbn. rewrite Hh. split; cbn; try done. apply elem_of_difference. rewrite elem_of_union, !elem_of_pairs. cbn. set_solver.
Qed.

Lemma keep_ok vm devices detail g :
  ghost_pre _ g (LWrite vm devices) -> ok any (Some g) (keep_for_restart vm devices detail).
Proof.
  intros Hpre. split; [exact Hpre|]. intros []. split; [done|]. intros [[]|e]; by eapply unlock_ok.
Qed.

Lemma remove_added_ok added g : ok (fun g' _ => g' = g) g (remove_added added).
Proof.
  induction added as [|id added IH]; [done|]. split; [by destruct g|]. destruct g; intros [[]|e]; [apply IH|done|apply IH|done].
Qed.
Lemma remove_functions_ok id n g : ok (fun g' _ => g' = g) g (remove_functions id n).
Proof.
  induction n as [|n IH]; [done|]. split; [by destruct g|]. destruct g; intros [[]|e]; [apply IH|done|apply IH|done].
Qed.
Lemma add_functions_ok id bdfs g : forall index added, ok (fun g' _ => g' = g) g (add_functions id index bdfs added).
Proof.
  induction bdfs as [|b bdfs IH]; intros index added; [done|]. split; [by destruct g|].
  destruct g; intros [[]|e]; [apply IH|done|apply IH|done].
Qed.

Lemma host_any {R} (p : Pci R) g : ok (fun g' _ => when (fun g' => g' = g) g') (Some g) (on_host p).
Proof.
  eapply prog_ok_mono; [|apply (on_host_ok (fun _ => True)), returns_any; done]. intros [g'|] r; [by intros [-> _]|done].
Qed.

Lemma undo_ok vm devices a added hot error g :
  attaching vm devices (as_id a) g -> ok any (Some g) (undo_attach cfg vm devices a added hot error).
Proof.
  intros Hat. unfold undo_attach.
  assert (forall g detail, attaching vm devices (as_id a) g -> ok any (Some g)
    (if hot then keep_for_restart vm (devices ++ [a]) detail
     else _ ← perform (LWrite vm (devices ++ [a])); _ ← perform (LSave vm);
          unlock_with vm (done_with (devices ++ [a]) true detail))) as Hkeep.
  { intros g1 detail H1. destruct hot; [by apply keep_ok, write_added|]. split; [by apply write_added|]. intros [].
    split; [done|]. intros ?. by eapply unlock_ok. }
  eapply prog_ok_seq; [apply remove_added_ok|]. intros ? [cleanup|] ->; [by apply Hkeep|].
  eapply ok_when; [apply host_any|]. intros g1 [[]|e] ->; [|by apply Hkeep]. destruct Hat as [Hh Hl Hnd Hnew Htok].
  eapply ok_when; [apply release_ok; [done|]|].
  - intros d. cbn. intros Hd. apply list_elem_of_singleton in Hd as ->. by left.
  - intros g2 [] [F1 _]. eapply unlock_ok. by rewrite F1.
Qed.

Lemma hot_attach_ok vm d devices a g :
  as_id a = d -> attaching vm devices d g -> ok any (Some g) (hot_attach cfg vm d devices a).
Proof.
  intros <- Hat. unfold hot_attach. eapply ok_when; [apply on_host_ok, prepare_id|].
  intros g1 [p|[e|f source]] [-> Hid]; cbn in Hid.
  - rewrite <- Hid in Hat. eapply prog_ok_seq; [apply add_functions_ok|]. intros ? [added [e|]] ->; [by apply undo_ok|].
    pose proof (write_added _ _ _ _ Hat) as Hpre. split; [exact Hpre|]. intros []. split; [done|].
    intros [[]|e]; [by eapply unlock_ok|].
    destruct (write_undone vm devices p (MkGhost (Some (vm, device_ids (devices ++ [p]))) (gh_leasing g)
      ((gh_tokens g ∪ pairs vm (match gh_held g with Some (_, ids) => ids | None => [] end)) ∖ pairs vm (device_ids (devices ++ [p])))
      (gh_new g) (gh_gone g) (gh_seen g))) as [Hpre2 Hat2]; [done|apply Hat|apply Hpre|].
    split; [exact Hpre2|]. intros []. apply undo_ok, Hat2.
  - destruct Hat as [Hh Hl Hnd Hnew Htok]. eapply ok_when; [apply release_ok; [done|]|].
    + intros d Hd. cbn in Hd. apply list_elem_of_singleton in Hd as ->. by left.
    + intros g2 [] [F1 _]. eapply unlock_ok. by rewrite F1.
  - rewrite <- Hid in Hat. by apply keep_ok, write_added.
Qed.

End Checks.
