(* ===== verification/PciSafety.v ===== *)
(** * Devices are never shared

    The remaining programs, the exclusion theorem and the runs that show where a lease
    is kept too long or given up too early. *)

From S2P Require Import Prelude ContentHash Effects Reconcile Pci PciHost PciBinding PciLinux PciLeases PciMachines PciRules.
From Stdlib Require Import ZArith.

Section Safety.
Context `{PciSystem} (cfg : ManagerConfig).

Abbreviation ok := (prog_ok lease_pre lease_upd).

Definition idle_ghost : Ghost := MkGhost None None ∅ ∅ ∅ ∅.

(** Locking shows the devices of the machine. *)
Lemma lock_ok {R} vm g (f : VmInner -> Lease R) :
  gh_held g = None ->
  (forall v g', NoDup (device_ids (vi_pci_devices v)) -> gh_held g' = Some (vm, device_ids (vi_pci_devices v)) ->
     gh_leasing g' = gh_leasing g -> ok any (Some g') (f v)) ->
  ok any (Some g) (inner ← perform (LLock vm); f inner).
Proof. intros Hh Hf. split; [exact Hh|]. intros v. cbn. case_decide as Hnd; [by apply Hf|by apply ok_void]. Qed.

(** After [vm_by_id] and locking. *)
Lemma find_lock_ok {R} vm g (not_found : R) (f : VmInner -> Lease R) :
  gh_held g = None -> gh_leasing g = None ->
  (forall v g', NoDup (device_ids (vi_pci_devices v)) -> gh_held g' = Some (vm, device_ids (vi_pci_devices v)) ->
     gh_leasing g' = None -> ok any (Some g') (f v)) ->
  ok any (Some g) (found ← perform (LFind vm); if negb found then Ret not_found else (inner ← perform (LLock vm); f inner)).
Proof.
  intros Hh Hl Hf. split; [done|]. intros [|]; [|done]. apply lock_ok; [done|]. intros v g' Hnd Hg Hlg.
  apply Hf; [done..|]. by rewrite Hlg.
Qed.

Lemma existsb_ids devices d :
  existsb (fun a => String.eqb (as_id a) d) devices = false -> d ∉ device_ids devices.
Proof.
  intros He Hd. apply list_elem_of_fmap in Hd as (a & -> & Ha). apply Bool.not_true_iff_false in He. apply He.
  apply existsb_exists. exists a. split; [by apply list_elem_of_In|apply String.eqb_refl].
Qed.

Lemma attach_ok vm d : ok any (Some idle_ghost) (attach_pci_device cfg vm d).
Proof.
  apply find_lock_ok; [done..|]. intros v g Hnd Hh Hl.
  destruct (ensure_pci_compatible cfg v) as [[]|]; [|by eapply unlock_ok].
  cbn zeta. destruct (existsb (fun a => String.eqb (as_id a) d) (vi_pci_devices v)) eqn:Ee; [by eapply unlock_ok|]. apply existsb_ids in Ee.
  destruct (pci_device (mc_pci cfg) d) as [policy|] eqn:Ep; [|by eapply unlock_ok].
  destruct (is_running (vi_state v) && negb (pci_hotplug policy)); [by eapply unlock_ok|].
  eapply ok_when; [by apply reserve_ok|]. intros g1 r [[F1 F2 F3 F4 F5] Hr]. rewrite Hh in F1. rewrite Hl in F2.
  destruct r as [[|a l]|e]; [by eapply unlock_ok| |by eapply unlock_ok].
  destruct (Hr _ eq_refl) as (Hids & _ & Htok). cbn in Hids. injection Hids as Hid _.
  assert (attaching vm (vi_pci_devices v) (as_id a) g1) as Hat
    by (split; [done..|by rewrite Hid|rewrite Hid; apply Htok; left]).
  destruct (is_running (vi_state v)); cbn [negb].
  - destruct (vi_monitor v); cbn [negb]; [|by eapply unlock_ok]. rewrite Hid in Hat. by apply hot_attach_ok.
  - pose proof (write_added _ _ _ _ Hat) as Hpre. split; [exact Hpre|]. intros []. split; [done|].
    intros [[]|e]; [by eapply unlock_ok|].
    destruct (write_undone vm (vi_pci_devices v) a (MkGhost (Some (vm, device_ids (vi_pci_devices v ++ [a]))) (gh_leasing g1)
      ((gh_tokens g1 ∪ pairs vm (match gh_held g1 with Some (_, ids) => ids | None => [] end))
         ∖ pairs vm (device_ids (vi_pci_devices v ++ [a]))) (gh_new g1) (gh_gone g1) (gh_seen g1)))
      as [Hpre2 [Hh2 Hl2 _ _ Htok2]]; [done|done|apply Hpre|].
    split; [exact Hpre2|]. intros []. split; [by eexists|]. intros [].
    eapply ok_when; [apply release_ok; [done|]|done]. cbn. intros x Hx. apply list_elem_of_singleton in Hx as ->. by left.
Qed.

Lemma position_lookup {A} (f : A -> bool) l i : position f l = Some i -> exists x, l !! i = Some x /\ f x = true.
Proof.
  revert i; induction l as [|x l IH]; intros i; cbn; [done|]. destruct (f x) eqn:Ef; [intros [= <-]; by exists x|].
  destruct (position f l) as [j|]; [|done]. cbn. intros [= <-]. by apply IH.
Qed.

(** Taking the device at [i] off the list. *)
Lemma rest_perm {A} (l : list A) i x : l !! i = Some x -> l ≡ₚ x :: (take i l ++ drop (S i) l).
Proof. intros Hi. rewrite <- (take_drop_middle l i x Hi) at 1. by rewrite Permutation_middle. Qed.

Lemma detach_released_ok vm devices i a g :
  devices !! i = Some a -> NoDup (device_ids devices) -> gh_held g = Some (vm, device_ids devices) -> gh_leasing g = None ->
  ok any (Some g) (detach_released cfg vm devices i a).
Proof.
  intros Hi Hnd Hh Hl. unfold detach_released. eapply ok_when; [apply host_any|]. intros g1 [[]|e] ->; [|by eapply unlock_ok].
  set (rest := take i devices ++ drop (S i) devices).
  assert (device_ids devices ≡ₚ as_id a :: device_ids rest) as Hp by (unfold device_ids; by rewrite (rest_perm _ _ _ Hi)).
  pose proof Hnd as Hnd2. rewrite Hp in Hnd2. apply NoDup_cons in Hnd2 as [Hnew Hnd2].
  split; [split; [done|]; eexists; split; [done|]; intros d Hd; left; rewrite Hp; by right|]. intros [].
  assert ((as_id a, vm) ∈ (gh_tokens g ∪ pairs vm (device_ids devices)) ∖ pairs vm (device_ids rest)) as Htok.
  { apply elem_of_difference. rewrite elem_of_union, !elem_of_pairs. cbn. split; [right; rewrite Hp|]; set_solver. }
  cbn [lease_upd ghost_upd]. rewrite Hh. split; [done|]. intros [[]|e].
  - eapply ok_when; [apply release_ok; [done|]|].
    + intros d Hd. cbn in Hd. apply list_elem_of_singleton in Hd as ->. by left.
    + intros g2 [] [F1 _]. eapply unlock_ok. by rewrite F1.
  - split; [|intros []; by eapply unlock_ok]. split; [done|]. eexists. split; [done|]. intros d Hd.
    rewrite Hp in Hd. apply elem_of_cons in Hd as [->|Hd]; [by right|by left].
Qed.

Lemma detach_ok vm d : ok any (Some idle_ghost) (detach_pci_device cfg vm d).
Proof.
  apply find_lock_ok; [done..|]. intros v g Hnd Hh Hl.
  destruct (ensure_pci_compatible cfg v) as [[]|]; [|by eapply unlock_ok].
  cbn zeta. destruct (position (fun a => String.eqb (as_id a) d) (vi_pci_devices v)) as [i|] eqn:Ei; [|by eapply unlock_ok].
  destruct (vi_pci_devices v !! i) as [a|] eqn:Ea; [|by eapply unlock_ok].
  destruct (is_running (vi_state v) && negb (match pci_device (mc_pci cfg) d with Some policy => pci_hotplug policy | None => false end));
    [by eapply unlock_ok|].
  destruct (is_running (vi_state v) && negb (vi_monitor v)); [by eapply unlock_ok|].
  eapply (prog_ok_seq _ _ (fun g' _ => g' = Some g)); [destruct (is_running _); [apply remove_functions_ok|done]|].
  intros ? [e|] ->; [by eapply unlock_ok|]. by apply detach_released_ok.
Qed.

(** ** Machines *)

Lemma locked_read_ok {A} vm (f : VmInner -> A) g :
  gh_held g = None -> ok (fun g' _ => when (fun g' => g' = g) g') (Some g) (locked_read vm f).
Proof.
  intros Hh. split; [exact Hh|]. intros v. cbn. case_decide; [|done].
  split; [by eexists|]. intros []. destruct g; cbn in *. by subst.
Qed.

Lemma release_all_ok l g : ok (fun g' _ => when (fun g' => g' = g) g') (Some g) (release_all cfg l).
Proof.
  induction l as [|a l IH]; [done|]. eapply prog_ok_seq; [apply host_any|]. intros [g'|] r; [intros ->; apply IH|].
  intros _. by apply ok_void.
Qed.

Lemma release_each_ok l g : ok (fun g' _ => when (fun g' => g' = g) g') (Some g) (release_each cfg l).
Proof.
  induction l as [|a l IH]; [done|]. eapply prog_ok_seq; [apply host_any|]. intros [g'|] r; [|intros _; by apply ok_void].
  intros ->. destruct r; [apply IH|done].
Qed.

Lemma replace_ids l p : device_ids (replace_assignment l p) = device_ids l.
Proof.
  induction l as [|a l IH]; [done|]. cbn. destruct (String.eqb_spec (as_id a) (as_id p)) as [E|E]; cbn; [by rewrite E|].
  unfold device_ids in IH. by rewrite IH.
Qed.
Lemma replace_all_ids ps : forall l, device_ids (foldl replace_assignment l ps) = device_ids l.
Proof. induction ps as [|p ps IH]; intros l; cbn; [done|]. by rewrite IH, replace_ids. Qed.

Lemma write_same vm devices l g :
  gh_held g = Some (vm, device_ids devices) -> NoDup (device_ids devices) -> device_ids l = device_ids devices ->
  ghost_pre _ g (LWrite vm l).
Proof. intros Hh Hnd Hl. split; [by rewrite Hl|]. eexists. split; [done|]. rewrite Hl. auto. Qed.

Lemma rolled_back_ok vm devices newly failed error g :
  gh_held g = Some (vm, device_ids devices) -> NoDup (device_ids devices) ->
  ok any (Some g) (rolled_back cfg vm devices newly failed error).
Proof.
  intros Hh Hnd. eapply ok_when; [apply release_all_ok|]. intros g1 [] ->.
  split; [eapply write_same; [done..|apply replace_all_ids]|]. intros []. split; [done|].
  intros [[]|e]; by eapply unlock_ok.
Qed.

(** The machine's devices were resolved one for one. *)
Definition resolved_as (devices : list PciDeviceAssignmentSpec) (g : Ghost) (g' : option Ghost)
    (r : result ManagerError (list PciDeviceAssignmentSpec * list PciDeviceAssignmentSpec)) : Prop :=
  when (fun g' => forall l n, r = Ok (l, n) -> g' = g /\ device_ids l = device_ids devices) g'.

Lemma resolve_ok vm devices g : gh_held g = Some (vm, device_ids devices) -> NoDup (device_ids devices) ->
  forall todo resolved newly, device_ids resolved ++ device_ids todo = device_ids devices ->
  ok (resolved_as devices g) (Some g)
    (resolve_devices cfg vm devices todo resolved newly).
Proof.
  intros Hh Hnd. induction todo as [|a todo IH]; intros resolved newly Hids; cbn [resolve_devices].
  - intros l n [= <- <-]. cbn in Hids. by rewrite app_nil_r in Hids.
  - assert (forall e : ManagerError, ok (resolved_as devices g)
      (Some g) (unlock_with vm (Err e))) as Hunlock by (intros e; split; [by eexists|done]).
    assert (forall failed error, ok (resolved_as devices g)
      (Some g) (r ← rolled_back cfg vm devices newly failed error;
                Ret (match r with Ok _ => Err (other EmptyString) | Err e => Err e end))) as Hback.
    { intros failed error. eapply prog_ok_seq; [by apply rolled_back_ok|]. intros [g'|] [[]|e] _; done. }
    destruct (pci_device (mc_pci cfg) (as_id a)) as [policy|]; [|apply Hunlock].
    case_bool_decide; cbn [negb]; [|apply Hunlock].
    eapply prog_ok_seq; [apply host_any|]. intros [g1|] ready; [|intros _; by apply ok_void]. intros ->. destruct ready.
    { apply IH. rewrite device_ids_snoc, <- app_assoc. exact Hids. }
    eapply prog_ok_seq; [apply on_host_ok, prepare_id|]. intros [g1|] r; [|intros _; by apply ok_void].
    intros [-> Hid]. destruct r as [p|[e|f source]]; [|apply Hback..].
    apply IH. cbn in Hid. rewrite device_ids_snoc, <- app_assoc, Hid. exact Hids.
Qed.

Lemma start_ok vm : ok any (Some idle_ghost) (start_devices cfg vm).
Proof.
  unfold start_devices. split; [done|]. intros [|]; [|done]. cbn [negb lease_upd ghost_upd].
  eapply ok_when; [by apply locked_read_ok|]. intros g1 macos ->. destruct macos; [by split|].
  split; [done|]. intros [|]; [done|]. apply lock_ok; [done|]. intros v g Hnd Hh _. case_bool_decide; [by eapply unlock_ok|].
  destruct (vi_pci_devices v) as [|a l]; [by eapply unlock_ok|].
  case_match; [by eapply unlock_ok|].
  eapply ok_when; [apply (resolve_ok vm (a :: l)); done|]. intros g2 [[resolved newly]|e] Hr; [|done].
  destruct (Hr _ _ eq_refl) as [-> Hids]. split; [by eapply write_same|]. intros []. split; [done|].
  intros [[]|e]; [by eapply unlock_ok|]. eapply ok_when; [apply release_all_ok|]. intros g3 [] ->. by eapply unlock_ok.
Qed.

Lemma create_failed_ok id l e g :
  gh_leasing g = None -> (forall d, d ∈ device_ids l -> (d, id) ∈ gh_tokens g \/ id ∈ gh_gone g) ->
  ok (fun g' _ => when (fixed g) g') (Some g) (create_failed id l e).
Proof.
  intros Hl Htok. eapply prog_ok_seq; [by apply release_ok|]. intros [g1|] [] Hg; [|by apply ok_void]. by split.
Qed.

Lemma build_ok template id l g : gh_held g = None -> gh_leasing g = None -> id ∈ gh_new g -> NoDup (device_ids l) ->
  (forall d, d ∈ device_ids l -> (d, id) ∈ gh_tokens g) -> ok any (Some g) (build_machine template id l).
Proof.
  intros Hh Hl Hnew Hnd Htok. unfold build_machine. split; [done|].
  intros [[]|e]; [|eapply ok_any, create_failed_ok; [done|auto]].
  split; [done|]. intros [[]|e]; [|eapply ok_any, create_failed_ok; [done|auto]].
  split; [done|]. intros []. split; [exact Hh|]. intros v. cbn [lease_upd ghost_upd]. case_decide; [|by apply ok_void].
  split; [done|]. intros [[]|e].
  - split; [done|]. intros [[]|e]; [by eapply unlock_ok|]. split; [cbn; set_solver|]. intros [].
    eapply ok_when; [apply create_failed_ok; [done|]; intros d _; right; cbn; set_solver|].
    intros g2 r [F1 _]. eapply unlock_ok. by rewrite F1.
  - split; [by eexists|]. intros []. split; [cbn; set_solver|]. intros [].
    eapply ok_any, create_failed_ok; [done|]. intros d _. right. cbn. set_solver.
Qed.

Lemma create_ok template snapshot ds : ok any (Some idle_ghost) (create_with_devices cfg template snapshot ds).
Proof.
  unfold create_with_devices. split; [done|]. intros id. cbn [lease_upd ghost_upd idle_ghost].
  destruct ds as [|d ds].
  { apply build_ok; [done|done|cbn; set_solver|constructor|]. intros d Hd. by apply elem_of_nil in Hd. }
  destruct snapshot; [by split|]. destruct (ensure_pci_compatible cfg template) as [[]|]; [|by split].
  eapply ok_when; [by apply reserve_ok|]. intros g1 r [[F1 F2 F3 F4 F5] Hr]. destruct r as [l|e]; [|by split].
  destruct (Hr _ eq_refl) as (Hids & Hnd & Htok). rewrite <- Hids in Hnd, Htok.
  apply build_ok; [done|done|rewrite F3; cbn; set_solver|done|done].
Qed.

(** Work on nothing that is owned. *)
Lemma try_work_ok what (f : unit -> Lease (result ManagerError unit)) g :
  ok any (Some g) (f tt) -> ok any (Some g) (_ ←? perform (LWork what); f tt).
Proof. intros Hf. split; [done|]. by intros [[]|e]. Qed.

Lemma delete_body_ok id g : gh_held g = None -> gh_leasing g = None -> id ∈ gh_seen g -> ok any (Some g) (delete_body cfg id).
Proof.
  intros Hh Hl Hs. unfold delete_body. eapply ok_when; [by apply locked_read_ok|]. intros ? state ->.
  split; [done|]. intros drained. eapply (prog_ok_seq _ _ (fun g' _ => g' = Some g)); [by case_match|]. intros ? [[]|e] ->; [|done].
  apply (try_work_ok _ (fun _ => _)). eapply ok_when; [by apply locked_read_ok|]. intros ? state2 ->.
  destruct (is_running state2); [done|]. do 4 apply (try_work_ok _ (fun _ => _)).
  eapply ok_when; [by apply locked_read_ok|]. intros ? assignments ->.
  eapply ok_when; [apply release_each_ok|]. intros ? [[]|e] ->; [|done].
  split; [done|]. intros [[]|e]; [|done]. split; [exact Hs|]. intros [].
  eapply ok_when; [apply release_ok; [done|]; intros d _; right; cbn; set_solver|]. intros g2 [] _. by split.
Qed.

Lemma delete_vm_ok id : ok any (Some idle_ghost) (delete_vm cfg id).
Proof.
  unfold delete_vm. split; [done|]. intros [|]; [|done]. cbn [negb lease_upd ghost_upd].
  eapply ok_when; [by apply locked_read_ok|]. intros g1 macos ->. destruct macos.
  - apply (try_work_ok _ (fun _ => _)). split; [cbn; set_solver|done].
  - split; [done|]. intros [|]; [|done]. cbn [negb].
    eapply prog_ok_seq; [apply delete_body_ok; [done..|cbn; set_solver]|]. intros [g|] r _; by split.
Qed.

(** ** The daemon starts *)

Lemma claim_devices_spec id devices : forall owned m m', claim_devices id devices owned m = Ok m' ->
  NoDup (device_ids devices) /\ (forall d, d ∈ device_ids devices -> d ∉ owned /\ m' !! d = Some id) /\
  forall d vm, m !! d = Some vm -> m' !! d = Some vm.
Proof.
  induction devices as [|a devices IH]; intros owned m m'; cbn [claim_devices].
  - intros [= <-]. split_and!; [constructor|intros d Hd; by apply elem_of_nil in Hd|done].
  - case_bool_decide as Ho; [done|]. destruct (m !! as_id a) eqn:Em; [done|]. intros Hc.
    destruct (IH _ _ _ Hc) as (Hnd & Hin & Hold). split_and!.
    + apply NoDup_cons. split; [|done]. intros Hx. destruct (Hin _ Hx). set_solver.
    + intros d [->|Hd]%elem_of_cons; [split; [done|]; apply Hold; by rewrite lookup_insert_eq|]. destruct (Hin d Hd). set_solver.
    + intros d vm Hd. apply Hold. rewrite lookup_insert_ne; [done|congruence].
Qed.

Lemma discover_spec machines : forall m m', discover_leases machines m = Ok m' ->
  (forall vm devices, (vm, devices) ∈ machines ->
     NoDup (device_ids devices) /\ forall d, d ∈ device_ids devices -> m' !! d = Some vm) /\
  forall d vm, m !! d = Some vm -> m' !! d = Some vm.
Proof.
  induction machines as [|[id devices] machines IH]; intros m m'; cbn [discover_leases].
  - intros [= <-]. split; [|done]. intros vm devices Hx. by apply elem_of_nil in Hx.
  - destruct (claim_devices id devices ∅ m) as [m1|] eqn:Ec; [|done]. intros Hd.
    destruct (claim_devices_spec _ _ _ _ _ Ec) as (Hnd & Hin & Hold1). destruct (IH _ _ Hd) as [Hall Hold2]. split; [|auto].
    intros vm ds [[= -> ->]|Hx]%elem_of_cons; [|by apply Hall]. split; [done|]. intros d Hdd. by apply Hold2, Hin.
Qed.

(** ** The system *)

Lemma device_rules :
  InvariantRules lease_handle (lease_starts cfg) lease_env (fun _ w => w) lease_pre lease_upd any lease_inv lease_init.
Proof.
  split.
  - intros w (Hlock & Hll & Hgone & Htable & machines & Hdisc & Hused & Hcells).
    destruct (discover_spec _ _ _ Hdisc) as [Hall _]. split_and!; [|intros i t g Hi; by rewrite lookup_empty in Hi|intros i j t1 t2 g1 g2 _ Hi; by rewrite lookup_empty in Hi].
    split; unfold live; rewrite ?Hgone, ?Htable.
    + intros vm v Hv. by destruct (Hall _ _ (Hcells _ _ Hv)).
    + intros vm v d Hv _ Hd. destruct (Hall _ _ (Hcells _ _ Hv)) as [_ Hl]. by apply Hl.
    + intros vm Hvm. apply elem_of_dom in Hvm. set_solver.
    + intros vm [v Hv]. apply Hused, list_elem_of_fmap. eexists (_, _). split; [|by apply Hcells]. done.
    + set_solver.
  - intros w γ i t g A e c a w' Hinv Hi Hpre Hc.
    pose proof Hinv as (_ & Ho & _). destruct (Ho _ _ _ Hi) as (g0 & -> & _). clear Ho. cbn in Hpre. cbn [lease_upd].
    destruct e; cbn in Hc.
    + destruct c as [hc| | | |]; try done. destruct (hcall _ e (lw_host w) hc) as [[x h]|]; simplify_eq. by eapply inv_same.
    + destruct c; try done. case_bool_decide; simplify_eq. by apply rule_uuid.
    + simplify_eq. apply rule_find; [done..|]. by intros ?%bool_decide_eq_true_1.
    + destruct (lw_cells w !! vm) eqn:Ev; [|done]. case_bool_decide; simplify_eq. by apply rule_lock.
    + simplify_eq. destruct Hpre as [ids Hh]. by eapply rule_unlock.
    + destruct (lw_cells w !! vm) eqn:Ev; simplify_eq. by apply rule_write.
    + destruct (lw_cells w !! vm) eqn:Ev; [|done]. unfold either in Hc. destruct c; simplify_eq; by eapply inv_same.
    + unfold either in Hc. destruct c; simplify_eq; by eapply inv_same.
    + unfold either in Hc. destruct c; simplify_eq; by eapply inv_same.
    + destruct (lw_cells w !! vm) eqn:Ev; simplify_eq. by apply rule_insert.
    + simplify_eq. by apply rule_remove.
    + case_bool_decide; simplify_eq; by eapply inv_same.
    + simplify_eq. by eapply inv_same.
    + simplify_eq. by eapply inv_same.
    + destruct (lw_leases_locked w) eqn:El; simplify_eq. by apply rule_leases.
    + simplify_eq. by apply rule_leases_set.
    + unfold either in Hc. destruct c; simplify_eq; by eapply inv_same.
    + destruct c; simplify_eq; by eapply inv_same.
  - intros w γ i t p (Hw & Ho & Ha) Hi Hs. exists (Some idle_ghost). split.
    { destruct Hs; (eapply prog_ok_seq; [|intros ? ? _; exact I]);
        first [apply attach_ok|apply detach_ok|apply start_ok|apply create_ok|apply delete_vm_ok]. }
    split_and!; [done| |].
    + intros j t2 g Hj. destruct (decide (i = j)) as [<-|]; simplify_map_eq; [|by eapply Ho].
      exists idle_ghost. split; [done|]. split; cbn; set_solver.
    + intros j k t1 t2 g1 g2 Hjk Hj Hk.
      assert (forall g, apart w idle_ghost g) as Hidle by (intros g; split; cbn; [set_solver|done|done|set_solver]).
      destruct (decide (i = j)) as [<-|], (decide (i = k)) as [<-|]; simplify_map_eq; [done|by apply apart_sym|by eapply (Ha j k)].
  - intros w γ w' (Hw & Ho & Ha) Henv. destruct Henv as [w vm v v' Hv Hl Hd|w h].
    + destruct Hw as [W1 W2 W3 W4 W5].
      assert (forall x, is_Some ((<[vm:=v']> (lw_cells w)) !! x) <-> is_Some (lw_cells w !! x)) as Hdom
        by (intros x; destruct (decide (x = vm)) as [->|]; simplify_map_eq; naive_solver).
      assert (forall x vx, (<[vm:=v']> (lw_cells w)) !! x = Some vx ->
        exists v0, lw_cells w !! x = Some v0 /\ vi_pci_devices vx = vi_pci_devices v0) as Hsame
        by (intros x vx Hx; destruct (decide (x = vm)) as [->|]; simplify_map_eq; eauto).
      split_and!; [split; cbn|..|].
      * intros x vx (v0 & H0 & ->)%Hsame. eauto.
      * intros x vx d (v0 & H0 & ->)%Hsame. eauto.
      * intros x Hx. rewrite Hdom. by apply W3.
      * intros x. rewrite Hdom. eauto.
      * intros x. rewrite Hdom. eauto.
      * intros i t g Hi. destruct (Ho i t g Hi) as (g0 & -> & [O1 O2 O3 O4 O5 O6]). exists g0. split; [done|]. split; cbn; eauto.
        -- intros d x Hx Hlive. destruct (O1 d x Hx Hlive) as [Hle Hc]. split; [done|]. intros vx (v0 & H0 & ->)%Hsame. eauto.
        -- intros x ids Hx. destruct (O2 x ids Hx) as (Hx1 & vx & Hvx & ->). split; [done|]. exists vx.
           rewrite lookup_insert_ne; [done|]. intros ->. done.
        -- intros x Hx. destruct (O4 x Hx). split; [|done]. rewrite lookup_insert_ne; [done|congruence].
        -- intros x Hx. rewrite Hdom. eauto.
      * intros i j t1 t2 g1 g2 Hij H1 H2. eapply apart_gone; [|by eapply (Ha i j)]. done.
    + destruct Hw as [W1 W2 W3 W4 W5]. split_and!; [by split| |].
      * intros i t g Hi. destruct (Ho i t g Hi) as (g0 & -> & [O1 O2 O3 O4 O5 O6]). exists g0. split; [done|]. by split.
      * intros i j t1 t2 g1 g2 Hij H1 H2. eapply apart_gone; [|by eapply (Ha i j)]. done.
  - intros w γ t (Hw & Ho & Ha). split_and!; [done| |].
    + intros i t2 g [Hi _]%map_lookup_filter_Some. by eapply Ho.
    + intros i j t1 t2 g1 g2 Hij [Hi _]%map_lookup_filter_Some [Hj _]%map_lookup_filter_Some. by eapply (Ha i j).
Qed.

(** A machine of the table has the device in its list. *)
Definition machine_uses (w : LeaseWorld) (vm d : string) : Prop :=
  exists v, vm ∈ lw_table w /\ lw_cells w !! vm = Some v /\ d ∈ device_ids (vi_pci_devices v).

(** C7: however attaching, detaching, creating, starting and deleting interleave and
    whichever calls fail, no device is in the lists of two machines of the manager, and
    the leases name the machine that has it. *)
Theorem device_exclusive s vm1 vm2 d :
  lease_reachable cfg s -> machine_uses (world s) vm1 d -> machine_uses (world s) vm2 d ->
  vm1 = vm2 /\ lw_leases (world s) !! d = Some vm1.
Proof.
  intros Hr (v1 & H1 & Hv1 & Hd1) (v2 & H2 & Hv2 & Hd2).
  destruct (system_invariant _ _ _ _ _ _ _ _ _ _ device_rules Hr) as (γ & ([_ W2 W3 _ _] & _) & _).
  destruct (W3 vm1 H1) as [_ L1], (W3 vm2 H2) as [_ L2].
  pose proof (W2 _ _ _ Hv1 L1 Hd1) as E1. pose proof (W2 _ _ _ Hv2 L2 Hd2) as E2. split; [congruence|done].
Qed.

End Safety.

(** ** Runs of the device operations

    On the host of [PciLinux.v]: an attachment, a lease that outlives its request, a
    creation that blocks the next start of the daemon, and a start that forgets the
    drivers of a device. *)

Definition gpu_manager : ManagerConfig := MkManager gpu_config "/sys" "/dev" true ARCH_AMD64 false 107 107.

Definition machine (state : VmState) (monitor : bool) (devices : list PciDeviceAssignmentSpec) : VmInner :=
  MkVmInner false true ARCH_AMD64 state monitor devices.

(** A daemon that has just started and found these machines. *)
Definition daemon (machines : list (string * VmInner)) (leases : gmap string string) : LeaseWorld :=
  MkLease working_host (list_to_map machines) (dom (list_to_map machines : gmap string VmInner)) ∅ ∅ leases false
    (list_to_map ((fun x => (x.1, vi_pci_devices x.2)) <$> machines)) ∅ (list_to_set machines.*1).

(** The choice for each call; those numbered in [bad] fail. *)
Definition lease_choice {A} (e : LeaseE A) (bad : bool) : LeaseChoice :=
  match e with
  | LHost _ => LcHost (if bad then Fails else Works)
  | LUuid => LcUuid "vm-3"
  | LWork _ => if bad then LcWork InvalidState else LcOk
  | _ => if bad then LcErr "No space left on device" else LcOk
  end.

Fixpoint lease_choices {R} (p : Lease R) (w : LeaseWorld) (bad : list nat) (n : nat) : list LeaseChoice :=
  match p with
  | Ret _ => []
  | Do e k =>
      let c := lease_choice e (bool_decide (n ∈ bad)) in
      match lease_handle _ e w c with
      | Some (a, w') => c :: lease_choices (k a) w' bad (S n)
      | None => []
      end
  end.

Definition run_lease {R} (p : Lease R) (w : LeaseWorld) (bad : list nat) : option (R * LeaseWorld) :=
  prog_run lease_handle p w (lease_choices p w bad 0).

Definition answer {R} (x : option (R * LeaseWorld)) : option R := fst <$> x.
Definition after {R} (w : LeaseWorld) (x : option (R * LeaseWorld)) : LeaseWorld := match x with Some (_, w') => w' | None => w end.

Definition devices_of (w : LeaseWorld) (vm : string) : option (list string) :=
  (fun v => device_ids (vi_pci_devices v)) <$> lw_cells w !! vm.

Definition failed_with {R} (r : option (result ManagerError R)) : option ManagerError :=
  match r with Some (Err e) => Some e | _ => None end.
Definition succeeded {R} (r : option (result ManagerError R)) : bool :=
  match r with Some (Ok _) => true | _ => false end.

(** ** A lease nobody holds *)

Definition no_monitor : LeaseWorld := daemon [("vm-1"%string, machine VmRunning false [])] ∅.

(** Attaching to a running machine whose monitor is not connected fails after the
    device was leased and before it is in the machine's list: the lease stays, and the
    machine itself is then told that the device is assigned to it. *)
Theorem missing_monitor_keeps_lease :
  let first := run_lease (attach_pci_device gpu_manager "vm-1" "gpu") no_monitor [] in
  let second := run_lease (attach_pci_device gpu_manager "vm-1" "gpu") (after no_monitor first) [] in
  failed_with (answer first) = Some (other "vm monitor unavailable") /\
  lw_leases (after no_monitor first) !! "gpu"%string = Some "vm-1"%string /\
  devices_of (after no_monitor first) "vm-1" = Some [] /\
  failed_with (answer second) = Some (PciConflict "device `gpu` is assigned to VM vm-1").
Proof. vm_compute. split_and!; reflexivity. Qed.

(** ** A creation that failed *)

Definition one_machine : LeaseWorld := daemon [("vm-1"%string, machine Stopped false [])] ∅.

Definition create_gpu_machine : Lease (result ManagerError string) :=
  create_with_devices gpu_manager (machine Stopped false []) false ["gpu"%string].

(** A creation with a device that is refused for lack of capacity gives up the lease
    before it removes the directory of the machine, and ignores that the removal
    failed: another machine may take the device, and from then on the daemon does not
    start, because two files on disk claim it. *)
Theorem refused_creation_blocks_restart :
  let created := run_lease create_gpu_machine one_machine [23; 26] in
  let attached := run_lease (attach_pci_device gpu_manager "vm-1" "gpu") (after one_machine created) [] in
  failed_with (answer created) = Some InvalidState /\
  succeeded (answer attached) = true /\
  failed_with (Some (discover_leases (map_to_list (lw_disk (after one_machine attached))) ∅)) =
    Some (other "PCI device `gpu` is claimed by both VM vm-3 and VM vm-1").
Proof. vm_compute. split_and!; reflexivity. Qed.

(** ** A start that gives up half way *)

Definition nic_assignment : PciDeviceAssignmentSpec := MkAssign "nic" ["0000:0b:00.0"%string] [] ∅.
Definition two_devices : LeaseWorld :=
  daemon [("vm-1"%string, machine Stopped false [new_assignment gpu_manager "gpu"; nic_assignment])]
    {[ "gpu"%string := "vm-1"%string; "nic"%string := "vm-1"%string ]}.

(** Starting a machine whose second device is no longer in the policy prepares the
    first and returns without undoing or recording it: the drivers it had are lost, and
    when the device is detached, successfully, the host is left without them. *)
Theorem early_return_forgets_drivers :
  let started := run_lease (start_devices gpu_manager "vm-1") two_devices [] in
  let detached := run_lease (detach_pci_device gpu_manager "vm-1" "gpu") (after two_devices started) [] in
  gpu_drivers (lw_host two_devices) = ("nouveau", "snd_hda_intel")%string /\
  failed_with (answer started) = Some (other "assigned PCI device `nic` is no longer in the vmd allowlist") /\
  gpu_drivers (lw_host (after two_devices started)) = ("vfio-pci", "vfio-pci")%string /\
  succeeded (answer detached) = true /\
  gpu_drivers (lw_host (after two_devices detached)) = (EmptyString, EmptyString).
Proof. vm_compute. split_and!; reflexivity. Qed.

(** ** A device that is attached *)

Definition attached_system : System :=
  MkSystem one_machine {[ 0 := (tt, forget (attach_pci_device gpu_manager "vm-1" "gpu")) ]}.

Definition attached_schedule : list (nat * LeaseChoice) :=
  (fun c => (0, c)) <$> lease_choices (forget (attach_pci_device gpu_manager "vm-1" "gpu")) one_machine [] 0.

Lemma one_machine_init : lease_init one_machine.
Proof.
  split_and!; [vm_compute; reflexivity..|]. exists [("vm-1"%string, [])]. split_and!.
  - vm_compute. reflexivity.
  - intros vm Hvm. cbn in Hvm. apply list_elem_of_singleton in Hvm as ->. set_solver.
  - intros vm v Hv. apply (elem_of_list_to_map_2 (M := gmap string)) in Hv. apply list_elem_of_singleton in Hv. injection Hv as -> ->. left.
Qed.

Lemma attached_reachable : lease_reachable gpu_manager attached_system.
Proof.
  eapply reach_step; [apply reach_init, one_machine_init|].
  apply (step_start _ _ _ _ (MkSystem one_machine ∅) 0 tt); [apply lookup_empty|constructor].
Qed.

Definition attached : option System := run_schedule lease_handle attached_system attached_schedule.

Lemma device_exclusive_witness :
  exists s v, attached = Some s /\ lw_cells (world s) !! "vm-1"%string = Some v /\
    "gpu"%string ∈ device_ids (vi_pci_devices v) /\ lw_leases (world s) !! "gpu"%string = Some "vm-1"%string.
Proof.
  assert ((fun s => (devices_of (world s) "vm-1", bool_decide ("vm-1"%string ∈ lw_table (world s)))) <$> attached
    = Some (Some ["gpu"%string], true)) as Hf by (vm_compute; reflexivity).
  destruct attached as [s|] eqn:Es; [|discriminate Hf]. injection Hf as Hdev Htab. apply bool_decide_eq_true_1 in Htab.
  destruct (lw_cells (world s) !! "vm-1"%string) as [v|] eqn:Ev; [|unfold devices_of in Hdev; rewrite Ev in Hdev; discriminate Hdev].
  assert ("gpu"%string ∈ device_ids (vi_pci_devices v)) as Hin.
  { unfold devices_of in Hdev. rewrite Ev in Hdev. injection Hdev as ->. apply list_elem_of_singleton. reflexivity. }
  assert (lease_reachable gpu_manager s) as Hr by (eapply run_schedule_reachable; [apply attached_reachable|exact Es]).
  exists s, v. split; [reflexivity|]. split; [exact Ev|]. split; [exact Hin|].
  exact (proj2 (device_exclusive gpu_manager s "vm-1" "vm-1" "gpu" Hr (ex_intro _ v (conj Htab (conj Ev Hin))) (ex_intro _ v (conj Htab (conj Ev Hin))))).
Defined.
