(* ===== verification/PayloadStore.v ===== *)
(** * The payload store of a mount

    [sandbox/vmd/src/fuse/local_view/payload.rs]: the immutable snapshots that the
    records of the log refer to. A small payload is written into a range of a shared
    segment reserved under the mutex of the store; a large one gets a file of its own.
    Copying, hashing and syncing happen outside the mutex.

    Each critical section of the mutex and each system call is one operation of a
    program, so captures, sync rounds and reclamation interleave between any two of
    them. A mutex is poisoned only by a panic; locking is taken to succeed. *)

From S2P Require Import Prelude ContentHash MountTypes Effects.
From Stdlib Require Import ZArith Lia Ascii String.

Definition SEGMENT_PREFIX : string := "segment-".
Definition DEDICATED_PREFIX : string := "payload-".
Definition PAYLOAD_SUFFIX : string := ".bin".
Definition COPY_BUFFER_BYTES : Z := 1024 * 1024.
Definition COPY_RANGE_CHUNK_BYTES : Z := 1024 * 1024 * 1024.
Definition SEGMENT_TARGET_BYTES : Z := 16 * 1024 * 1024.
Definition MAX_SEGMENTED_PAYLOAD_BYTES : Z := 1024 * 1024.

(** ** Text *)

(** [s.strip_prefix(p)] and [s.strip_suffix(t)]. *)
Definition strip_prefix (p s : string) : option string :=
  if starts_with p s then Some (str_drop (String.length p) s) else None.
Fixpoint strip_suffix (t s : string) : option string :=
  if String.eqb s t then Some EmptyString
  else match s with
       | EmptyString => None
       | String a s => String a <$> strip_suffix t s
       end.

(** [{n:020}] of a 64-bit number, and [parse::<u64>()]. *)
Definition digit_char (d : Z) : ascii := ascii_of_N (48 + Z.to_N d).
Fixpoint dec_digits (k : nat) (n : Z) : string :=
  match k with
  | O => EmptyString
  | S k => String (digit_char (n / 10 ^ Z.of_nat k mod 10)) (dec_digits k n)
  end.
Definition char_digit (a : ascii) : option Z :=
  let n := Z.of_N (N_of_ascii a) in
  if (48 <=? n)%Z && (n <=? 57)%Z then Some (n - 48)%Z else None.
Fixpoint parse_digits (acc : Z) (s : string) : option Z :=
  match s with
  | EmptyString => Some acc
  | String a s =>
      d ← char_digit a;
      let acc := (acc * 10 + d)%Z in
      if (U64_MAX <? acc)%Z then None else parse_digits acc s
  end.
Definition parse_u64 (s : string) : option Z :=
  match s with
  | EmptyString => None
  | String "+"%char t => if is_empty_str t then None else parse_digits 0 t
  | _ => parse_digits 0 s
  end.

Definition segment_name (id : Z) : string := SEGMENT_PREFIX +:+ dec_digits 20 id +:+ PAYLOAD_SUFFIX.
Definition mint_dedicated_name (uuid : string) : string := DEDICATED_PREFIX +:+ uuid +:+ PAYLOAD_SUFFIX.

Inductive PayloadKind := KSegment | KDedicated.
Global Instance PayloadKind_eq_dec : EqDecision PayloadKind.
Proof. solve_decision. Defined.

Definition payload_kind (name : string) : option PayloadKind :=
  body ← strip_suffix PAYLOAD_SUFFIX name;
  match strip_prefix SEGMENT_PREFIX body with
  | Some raw => (fun _ => KSegment) <$> parse_u64 raw
  | None =>
      match strip_prefix DEDICATED_PREFIX body with
      | Some raw => if is_empty_str raw then None else Some KDedicated
      | None => None
      end
  end.

(** ** State *)

Record DirtyPayloads := MkDirty { files : gset string; directory_dirty : bool }.
Definition no_dirty : DirtyPayloads := MkDirty ∅ false.
Definition dirty_is_empty (d : DirtyPayloads) : bool := bool_decide (files d = ∅) && negb (directory_dirty d).

Record PayloadUsage := MkUsage { segment_bytes : Z; dedicated_bytes : Z; file_count : Z }.
Definition total_bytes (u : PayloadUsage) : Z := sat_add (segment_bytes u) (dedicated_bytes u).

(** A descriptor: a file of the payload directory, or a source outside it. *)
Inductive Handle := InPayload (ino : nat) | InSource (ino : nat).

Record ActiveSegment := MkSegment { as_name : string; as_file : nat; as_len : Z }.
Record SegmentReservation := MkReservation { sr_name : string; sr_file : nat; sr_offset : Z }.

Record StoreState := MkStore {
  next_segment_id : Z;
  current_segment : option ActiveSegment;
  dirty : DirtyPayloads;
  reserved : gset string;
}.

Inductive PayloadError :=
| PInvalid (e : MountError)
| PIo (what : string)
| PRangeOverflow
| PShorter (name : string) (offset end_ : Z)
| PLengthMismatch (expected read : Z)
| PAlgorithmMismatch (found active : string)
| PHashMismatch (expected read : string)
| PSourceLength (found expected : Z)
| PSourceEnded (at_ : Z)
| PTooLarge (length : Z)
| POutOfFuel.
Abbreviation PResult := (result PayloadError).

Definition lift_name (r : MResult unit) : PResult unit :=
  match r with Ok u => Ok u | Err e => Err (PInvalid e) end.

(** ** Critical sections *)

Definition mark_dirty (name : string) (directory : bool) (d : DirtyPayloads) : DirtyPayloads :=
  MkDirty ({[name]} ∪ files d) (directory || directory_dirty d).

(** Whether [reserve_segment] starts a new segment. *)
Definition rotates (s : StoreState) (length : Z) : bool :=
  match current_segment s with
  | None => true
  | Some g => (0 <? as_len g)%Z && (SEGMENT_TARGET_BYTES <? sat_add (as_len g) length)%Z
  end.

(** [created] is the answer of the one system call of the section, [create_new] of
    the next segment, made only on rotation. The counter has moved when it fails. *)
Definition reserve_segment (s : StoreState) (length : Z) (created : PResult nat) :
    PResult SegmentReservation * StoreState :=
  let rotated :=
    if rotates s length then
      let next := sat_add (next_segment_id s) 1 in
      match created with
      | Ok ino => Ok (MkStore next (Some (MkSegment (segment_name (next_segment_id s)) ino 0))
                        (MkDirty (files (dirty s)) true) (reserved s))
      | Err e => Err (e, MkStore next (current_segment s) (dirty s) (reserved s))
      end
    else Ok s in
  match rotated with
  | Err (e, s) => (Err e, s)
  | Ok s =>
      match current_segment s with
      | None => (Err (PIo "mount payload segment was not created"), s)
      | Some g =>
          (Ok (MkReservation (as_name g) (as_file g) (as_len g)),
           MkStore (next_segment_id s)
             (Some (MkSegment (as_name g) (as_file g) (sat_add (as_len g) length)))
             (mark_dirty (as_name g) false (dirty s)) (reserved s))
      end
  end.

Definition reserve_name (name : string) (s : StoreState) : StoreState :=
  MkStore (next_segment_id s) (current_segment s) (dirty s) ({[name]} ∪ reserved s).
Definition release_name (name : string) (s : StoreState) : StoreState :=
  MkStore (next_segment_id s) (current_segment s) (dirty s) (reserved s ∖ {[name]}).
Definition register_dedicated (name : string) (s : StoreState) : StoreState :=
  MkStore (next_segment_id s) (current_segment s) (mark_dirty name true (dirty s)) (reserved s ∖ {[name]}).
Definition take_dirty (s : StoreState) : DirtyPayloads * StoreState :=
  (dirty s, MkStore (next_segment_id s) (current_segment s) no_dirty (reserved s)).
Definition extend_dirty (d : DirtyPayloads) (s : StoreState) : StoreState :=
  MkStore (next_segment_id s) (current_segment s)
    (MkDirty (files (dirty s) ∪ files d) (directory_dirty (dirty s) || directory_dirty d)) (reserved s).
Definition seal_active (s : StoreState) : StoreState :=
  MkStore (next_segment_id s) None (dirty s) (reserved s).
Definition protected_names (s : StoreState) : option string * gset string :=
  (as_name <$> current_segment s, files (dirty s) ∪ reserved s).

(** ** Operations *)

Inductive PayloadE : Type -> Type :=
(* critical sections *)
| PReserveSegment (length : Z) : PayloadE (PResult SegmentReservation)
| PReserve (name : string) : PayloadE unit
| PRelease (name : string) : PayloadE unit
| PRegister (name : string) : PayloadE unit
| PTakeDirty : PayloadE DirtyPayloads
| PExtendDirty (d : DirtyPayloads) : PayloadE unit
| PSeal : PayloadE unit
| PProtected : PayloadE (option string * gset string)
(* the payload directory *)
| PUuid : PayloadE string
| PCreateNew (name : string) : PayloadE (PResult nat)
| POpen (name : string) : PayloadE (PResult nat)
| PMetadata (name : string) : PayloadE (PResult (option (bool * Z)))   (** [None]: not found; is it a file, and its length *)
| PRemoveFile (name : string) : PayloadE (PResult bool)                (** [false]: not found *)
| PReadDir : PayloadE (PResult (list string))
| PSyncDir : PayloadE (PResult unit)
(* open files *)
| POpenSource (path : string) : PayloadE (PResult nat)
| PStat (h : Handle) : PayloadE (PResult Z)
| PRead (h : Handle) (pos want : Z) : PayloadE (PResult bytes)         (** empty at the end of the file *)
| PWriteAll (ino : nat) (pos : Z) (data : bytes) : PayloadE (PResult unit)
| PSetLen (ino : nat) (len : Z) : PayloadE (PResult unit)
| PClone (src ino : nat) : PayloadE bool                               (** [FICLONE] *)
| PCopyRange (src ino : nat) (pos want : Z) : PayloadE Z               (** [copy_file_range] *)
| PSyncData (ino : nat) : PayloadE (PResult unit)
(* the log that refers to payloads *)
| PAppendRecord (p : PayloadRef) : PayloadE (PResult Z)
| PWatermark : PayloadE Z
| PSyncLog (sequence : Z) : PayloadE (PResult unit)
| PSyncEnter (sequence : Z) : PayloadE (option Z)                      (** covered, or lead a round *)
| PSyncLeave (outcome : PResult Z) : PayloadE (PResult Z).

Abbreviation Payload := (prog PayloadE).

Section store.
Context {H : HashCrates} (alg : VfsHashAlgorithm) (target_linux : bool).

(** The algorithm of the process is resolved by the time it captures a payload. *)
Definition content_hash_of (data : bytes) : string := (hash_bytes (Some alg) None data).1.
Definition new_hasher : ContentHasher := (ContentHasher_new (Some alg) None).1.
Definition payload_ref (storage : PayloadStorage) (length : Z) (hash : string) : PayloadRef :=
  MkPayloadRef storage length (algorithm_as_str alg) hash.

(** *** Dedicated files *)

Definition reserve_dedicated : Payload string :=
  uuid ← perform PUuid;
  let name := mint_dedicated_name uuid in
  _ ← perform (PReserve name);
  Ret name.

Definition discard_partial (name : string) : Payload unit :=
  _ ← perform (PRelease name);
  _ ← perform (PRemoveFile name);
  Ret tt.

Definition write_dedicated_bytes (name : string) (data : bytes) : Payload (PResult unit) :=
  ino ←? perform (PCreateNew name);
  perform (PWriteAll ino 0 data).

Record CapturedFile := MkCaptured { cf_length : Z; cf_hash : string; cf_hasher : ContentHasher }.
Definition captured (length : Z) (h : ContentHasher) : CapturedFile := MkCaptured length (hasher_finalize h) h.

(** The loops read through a buffer of a fixed size; a read may return less than the
    buffer holds. [fuel] bounds the number of turns. *)
Fixpoint stream_loop (fuel : nat) (src ino : nat) (length : Z) (h : ContentHasher) : Payload (PResult CapturedFile) :=
  match fuel with
  | O => Ret (Err POutOfFuel)
  | S fuel =>
      chunk ←? perform (PRead (InSource src) length COPY_BUFFER_BYTES);
      match chunk with
      | [] => Ret (Ok (captured length h))
      | _ =>
          _ ←? perform (PWriteAll ino length chunk);
          stream_loop fuel src ino (sat_add length (zlen chunk)) (hasher_update h chunk)
      end
  end.
Definition stream_capture (fuel : nat) (src ino : nat) : Payload (PResult CapturedFile) :=
  _ ←? perform (PSetLen ino 0);
  stream_loop fuel src ino 0 new_hasher.

Fixpoint hash_loop (fuel : nat) (ino : nat) (length : Z) (h : ContentHasher) : Payload (PResult CapturedFile) :=
  match fuel with
  | O => Ret (Err POutOfFuel)
  | S fuel =>
      chunk ←? perform (PRead (InPayload ino) length COPY_BUFFER_BYTES);
      match chunk with
      | [] => Ret (Ok (captured length h))
      | _ => hash_loop fuel ino (sat_add length (zlen chunk)) (hasher_update h chunk)
      end
  end.
Definition hash_captured_file (fuel : nat) (destination : string) : Payload (PResult CapturedFile) :=
  ino ←? perform (POpen destination);
  hash_loop fuel ino 0 new_hasher.

Fixpoint copy_loop (fuel : nat) (src ino : nat) (copied source_len : Z) : Payload (PResult bool) :=
  if (copied <? source_len)%Z then
    match fuel with
    | O => Ret (Err POutOfFuel)
    | S fuel =>
        written ← perform (PCopyRange src ino copied (Z.min (source_len - copied) COPY_RANGE_CHUNK_BYTES));
        if (written <=? 0)%Z then
          _ ←? perform (PSetLen ino 0);
          Ret (Ok false)
        else copy_loop fuel src ino (sat_add copied written) source_len
    end
  else Ret (Ok true).
Definition clone_or_copy_range (src ino : nat) (source_len : Z) : Payload (PResult bool) :=
  if target_linux then
    cloned ← perform (PClone src ino);
    if (cloned : bool) then Ret (Ok true)
    else if (source_len =? 0)%Z then Ret (Ok true)
    else copy_loop (Z.to_nat source_len) src ino 0 source_len
  else Ret (Ok false).

Definition expects (expected : option Z) (found : Z) : bool :=
  match expected with Some e => (e =? found)%Z | None => true end.

Definition capture_dedicated_file (fuel : nat) (source destination : string) (expected_len : option Z) :
    Payload (PResult CapturedFile) :=
  src ←? perform (POpenSource source);
  source_len ←? perform (PStat (InSource src));
  if negb (expects expected_len source_len) then Ret (Err (PSourceLength source_len (default 0%Z expected_len)))
  else
    ino ←? perform (PCreateNew destination);
    copied ←? clone_or_copy_range src ino source_len;
    result ←? (if (copied : bool) then hash_captured_file fuel destination else stream_capture fuel src ino);
    if negb (expects expected_len (cf_length result))
    then Ret (Err (PSourceLength (cf_length result) (default 0%Z expected_len)))
    else Ret (Ok result).

Fixpoint range_loop (fuel : nat) (src ino : nat) (buffer offset length copied : Z) (h : ContentHasher) :
    Payload (PResult CapturedFile) :=
  if (copied <? length)%Z then
    match fuel with
    | O => Ret (Err POutOfFuel)
    | S fuel =>
        chunk ←? perform (PRead (InSource src) (sat_add offset copied) (Z.min (length - copied) buffer));
        match chunk with
        | [] => Ret (Err (PSourceEnded (sat_add offset copied)))
        | _ =>
            _ ←? perform (PWriteAll ino copied chunk);
            range_loop fuel src ino buffer offset length (sat_add copied (zlen chunk)) (hasher_update h chunk)
        end
    end
  else Ret (Ok (captured copied h)).
Definition capture_dedicated_range (source destination : string) (offset length : Z) : Payload (PResult CapturedFile) :=
  src ←? perform (POpenSource source);
  ino ←? perform (PCreateNew destination);
  range_loop (Z.to_nat length) src ino (Z.max (Z.min COPY_BUFFER_BYTES length) 1) offset length 0 new_hasher.

(** Give the file to the next sync round, or take it away again. *)
Definition keep_capture (name : string) (r : PResult CapturedFile) : Payload (PResult (PayloadRef * ContentHasher)) :=
  match r with
  | Ok c =>
      _ ← perform (PRegister name);
      Ret (Ok (payload_ref (DedicatedFile name) (cf_length c) (cf_hash c), cf_hasher c))
  | Err e => _ ← discard_partial name; Ret (Err e)
  end.

(** *** Captures *)

Definition capture_bytes (data : bytes) : Payload (PResult PayloadRef) :=
  let content_hash := content_hash_of data in
  let length := zlen data in
  if (MAX_SEGMENTED_PAYLOAD_BYTES <? zlen data)%Z then
    name ← reserve_dedicated;
    r ← write_dedicated_bytes name data;
    match r with
    | Err e => _ ← discard_partial name; Ret (Err e)
    | Ok _ =>
        _ ← perform (PRegister name);
        Ret (Ok (payload_ref (DedicatedFile name) length content_hash))
    end
  else
    reservation ←? perform (PReserveSegment length);
    _ ←? perform (PWriteAll (sr_file reservation) (sr_offset reservation) data);
    Ret (Ok (payload_ref (Segment (sr_name reservation) (sr_offset reservation)) length content_hash)).

Definition capture_file (fuel : nat) (source : string) (expected_len : option Z) :
    Payload (PResult (PayloadRef * ContentHasher)) :=
  name ← reserve_dedicated;
  r ← capture_dedicated_file fuel source name expected_len;
  keep_capture name r.

Definition capture_range (source : string) (offset length : Z) : Payload (PResult PayloadRef) :=
  name ← reserve_dedicated;
  r ← capture_dedicated_range source name offset length;
  kept ←? keep_capture name r;
  Ret (Ok kept.1).

Record CapturedSnapshot := MkSnapshot { cs_name : string; cs_length : Z; cs_hash : string }.
Definition capture_snapshot (source : string) (length : Z) : Payload (PResult CapturedSnapshot) :=
  name ← reserve_dedicated;
  r ← capture_dedicated_range source name 0 length;
  match r with
  | Ok c => Ret (Ok (MkSnapshot name (cf_length c) (cf_hash c)))
  | Err e => _ ← discard_partial name; Ret (Err e)
  end.
Definition release_snapshot (s : CapturedSnapshot) : Payload unit := discard_partial (cs_name s).

(** *** Reading *)

Definition location (p : PayloadRef) : PResult (string * Z * Z) :=
  _ ← lift_name (validate_payload_name (storage_file (storage p)));
  Ok (storage_file (storage p), storage_offset (storage p), length_ p).

Record PayloadReader := MkReader { rd_file : nat; rd_pos : Z; rd_remaining : Z }.

Definition open_reader (p : PayloadRef) : Payload (PResult PayloadReader) :=
  let name := storage_file (storage p) in
  _ ←? Ret (lift_name (validate_payload_name name));
  let offset := storage_offset (storage p) in
  ino ←? perform (POpen name);
  end_ ←? Ret (ok_or (checked_add offset (length_ p)) PRangeOverflow);
  present ←? perform (PStat (InPayload ino));
  if (present <? end_)%Z then Ret (Err (PShorter name offset end_))
  else Ret (Ok (MkReader ino offset (length_ p))).

(** One [read] of the bounded reader into a buffer of [buffer] bytes. *)
Definition reader_read (r : PayloadReader) (buffer : Z) : Payload (PResult (bytes * PayloadReader)) :=
  if (rd_remaining r =? 0)%Z || (buffer =? 0)%Z then Ret (Ok ([], r))
  else
    chunk ←? perform (PRead (InPayload (rd_file r)) (rd_pos r) (Z.min (rd_remaining r) buffer));
    Ret (Ok (chunk, MkReader (rd_file r) (rd_pos r + zlen chunk) (sat_sub (rd_remaining r) (zlen chunk)))).

(** [read_to_end]: read until a read returns nothing. It grows its buffer as it likes:
    every read may return any part of what remains. *)
Fixpoint read_to_end (fuel : nat) (r : PayloadReader) (acc : bytes) : Payload (PResult bytes) :=
  match fuel with
  | O => Ret (Err POutOfFuel)
  | S fuel =>
      step ←? reader_read r (rd_remaining r);
      match step with
      | ([], _) => Ret (Ok acc)
      | (chunk, r) => read_to_end fuel r (acc ++ chunk)
      end
  end.

Definition read_all (p : PayloadRef) : Payload (PResult bytes) :=
  reader ←? open_reader p;
  data ←? read_to_end (S (Z.to_nat (length_ p))) reader [];
  if negb (zlen data =? length_ p)%Z then Ret (Err (PLengthMismatch (length_ p) (zlen data)))
  else Ret (Ok data).

Fixpoint verify_loop (fuel : nat) (r : PayloadReader) (h : ContentHasher) (length : Z) :
    Payload (PResult (ContentHasher * Z)) :=
  match fuel with
  | O => Ret (Err POutOfFuel)
  | S fuel =>
      step ←? reader_read r COPY_BUFFER_BYTES;
      match step with
      | ([], _) => Ret (Ok (h, length))
      | (chunk, r) => verify_loop fuel r (hasher_update h chunk) (sat_add length (zlen chunk))
      end
  end.

Definition verify (p : PayloadRef) : Payload (PResult unit) :=
  if negb (String.eqb (hash_algorithm p) (algorithm_as_str alg))
  then Ret (Err (PAlgorithmMismatch (hash_algorithm p) (algorithm_as_str alg)))
  else
    reader ←? open_reader p;
    hashed ←? verify_loop (S (Z.to_nat (length_ p))) reader new_hasher 0;
    let '(h, length) := hashed in
    if negb (length =? length_ p)%Z then Ret (Err (PLengthMismatch (length_ p) length))
    else if negb (String.eqb (hasher_finalize h) (payload_hash p))
    then Ret (Err (PHashMismatch (payload_hash p) (hasher_finalize h)))
    else Ret (Ok tt).

(** *** Syncing, sealing, reclaiming *)

Definition restore_dirty (d : DirtyPayloads) : Payload unit :=
  if dirty_is_empty d then Ret tt else perform (PExtendDirty d).

Definition sync_one (name : string) : Payload (PResult unit) :=
  _ ←? Ret (lift_name (validate_payload_name name));
  ino ←? perform (POpen name);
  perform (PSyncData ino).

Definition sync_dirty (d : DirtyPayloads) : Payload (PResult unit) :=
  _ ←? try_each (sorted_strings (files d)) sync_one;
  if directory_dirty d then perform PSyncDir else Ret (Ok tt).

Definition seal_active_segment : Payload unit := perform PSeal.

(** One candidate: the counts after it. *)
Definition reclaim_one (active : option string) (pending : gset string) (acc : Z * Z * bool) (name : string) :
    Payload (PResult (Z * Z * bool)) :=
  let '(removed, reclaimed, any) := acc in
  _ ←? Ret (lift_name (validate_payload_name name));
  if bool_decide (name ∈ pending) || bool_decide (active = Some name) then Ret (Ok acc)
  else
    meta ←? perform (PMetadata name);
    match meta with
    | Some (true, length) =>
        gone ←? perform (PRemoveFile name);
        if (gone : bool) then Ret (Ok (sat_add removed 1, sat_add reclaimed length, true)) else Ret (Ok acc)
    | Some (false, _) | None => Ret (Ok acc)
    end.

Fixpoint try_fold {A B} (f : B -> A -> Payload (PResult B)) (acc : B) (xs : list A) : Payload (PResult B) :=
  match xs with
  | [] => Ret (Ok acc)
  | x :: xs => acc ←? f acc x; try_fold f acc xs
  end.

Definition reclaim (candidates : gset string) : Payload (PResult (Z * Z)) :=
  prot ← perform PProtected;
  let '(active, pending) := prot in
  counts ←? try_fold (reclaim_one active pending) (0, 0, false)%Z (sorted_strings candidates);
  let '(removed, reclaimed, any) := counts in
  _ ←? (if any : bool then perform PSyncDir else Ret (Ok tt));
  Ret (Ok (removed, reclaimed)).

(** *** The directory *)

Definition scan_entry (acc : list (string * PayloadKind * Z)) (name : string) :
    Payload (PResult (list (string * PayloadKind * Z))) :=
  match payload_kind name with
  | None => Ret (Ok acc)
  | Some kind =>
      meta ←? perform (PMetadata name);
      Ret (Ok (match meta with
               | Some (true, length) => acc ++ [(name, kind, length)]
               | Some (false, _) | None => acc
               end))
  end.
Definition scan_directory : Payload (PResult (list (string * PayloadKind * Z))) :=
  listing ←? perform PReadDir;
  try_fold scan_entry [] listing.

Definition usage_step (u : PayloadUsage) (e : string * PayloadKind * Z) : PayloadUsage :=
  let '(_, kind, length) := e in
  match kind with
  | KSegment => MkUsage (sat_add (segment_bytes u) length) (dedicated_bytes u) (sat_add (file_count u) 1)
  | KDedicated => MkUsage (segment_bytes u) (sat_add (dedicated_bytes u) length) (sat_add (file_count u) 1)
  end.
Definition usage : Payload (PResult PayloadUsage) :=
  entries ←? scan_directory;
  Ret (Ok (foldl usage_step (MkUsage 0 0 0) entries)).

Definition persisted_names : Payload (PResult (gset string)) :=
  entries ←? scan_directory;
  Ret (Ok (list_to_set (entries.*1.*1))).

Definition next_after (next : Z) (name : string) : Z :=
  match (raw ← strip_prefix SEGMENT_PREFIX name; body ← strip_suffix PAYLOAD_SUFFIX raw; parse_u64 body) with
  | Some id => Z.max next (sat_add id 1)
  | None => next
  end.
Definition next_segment_id_of (listing : list string) : Z := foldl next_after 0%Z listing.
Definition recover_next_segment_id : Payload (PResult Z) :=
  listing ←? perform PReadDir;
  Ret (Ok (next_segment_id_of listing)).

Definition open_store (next : Z) : StoreState := MkStore next None no_dirty ∅.
Definition open : Payload (PResult StoreState) :=
  _ ←? perform PSyncDir;
  next ←? recover_next_segment_id;
  Ret (Ok (open_store next)).

(** *** Ranges of a backing file *)

Fixpoint hash_range_loop (fuel : nat) (src : nat) (offset length hashed : Z) (h : ContentHasher) :
    Payload (PResult ContentHasher) :=
  if (hashed <? length)%Z then
    match fuel with
    | O => Ret (Err POutOfFuel)
    | S fuel =>
        let position := sat_add offset hashed in
        chunk ←? perform (PRead (InSource src) position (Z.min (length - hashed) COPY_BUFFER_BYTES));
        match chunk with
        | [] => Ret (Err (PSourceEnded position))
        | _ => hash_range_loop fuel src offset length (sat_add hashed (zlen chunk)) (hasher_update h chunk)
        end
    end
  else Ret (Ok h).
Definition hash_file_range (h : ContentHasher) (source : string) (offset length : Z) : Payload (PResult ContentHasher) :=
  src ←? perform (POpenSource source);
  hash_range_loop (Z.to_nat length) src offset length 0 h.

(** [read_exact_at]: read until the buffer is full. *)
Fixpoint read_exact_loop (fuel : nat) (src : nat) (pos want : Z) (acc : bytes) : Payload (PResult bytes) :=
  if (0 <? want)%Z then
    match fuel with
    | O => Ret (Err POutOfFuel)
    | S fuel =>
        chunk ←? perform (PRead (InSource src) pos want);
        match chunk with
        | [] => Ret (Err (PIo "failed to fill whole buffer"))
        | _ => read_exact_loop fuel src (pos + zlen chunk) (want - zlen chunk) (acc ++ chunk)
        end
    end
  else Ret (Ok acc).
Definition read_file_range (source : string) (offset length : Z) : Payload (PResult bytes) :=
  if (MAX_SEGMENTED_PAYLOAD_BYTES <? length)%Z then Ret (Err (PTooLarge length))
  else
    src ←? perform (POpenSource source);
    read_exact_loop (Z.to_nat length) src offset length [].

(** ** What the log does with payloads

    [prepare_capturing] of [wal.rs] captures the payload and then appends the record
    that refers to it; a sync round makes payloads durable, then the log. The log is
    the sequence of payloads its records refer to; everything else about records is
    in [Wal.v]. *)

Inductive CaptureSource :=
| SourceBytes (data : bytes)
| SourceFile (path : string)
| SourceRange (path : string) (offset length : Z).

Definition capture (fuel : nat) (source : CaptureSource) : Payload (PResult PayloadRef) :=
  match source with
  | SourceBytes data => capture_bytes data
  | SourceFile path => kept ←? capture_file fuel path None; Ret (Ok kept.1)
  | SourceRange path offset length => capture_range path offset length
  end.

Definition capture_and_append (fuel : nat) (source : CaptureSource) : Payload (PResult Z) :=
  p ←? capture fuel source;
  perform (PAppendRecord p).

Definition sync_round : Payload (PResult Z) :=
  sequence ← perform PWatermark;
  dirty ← perform PTakeDirty;
  synced ← (if dirty_is_empty dirty then Ret (Ok tt) else sync_dirty dirty);
  match synced with
  | Err e => _ ← restore_dirty dirty; Ret (Err e)
  | Ok _ => _ ←? perform (PSyncLog sequence); Ret (Ok sequence)
  end.

(** [sync_watermark]: return once the reported watermark covers [sequence], leading a
    round when nobody else does. *)
Definition sync_to (sequence : Z) : Payload (PResult Z) :=
  entered ← perform (PSyncEnter sequence);
  match entered with
  | Some durable => Ret (Ok durable)
  | None =>
      outcome ← sync_round;
      perform (PSyncLeave outcome)
  end.

(** A snapshot is used and given back. *)
Definition with_snapshot (source : string) (length : Z) : Payload (PResult unit) :=
  s ←? capture_snapshot source length;
  _ ← release_snapshot s;
  Ret (Ok tt).
End store.

(** ** Segment names *)

Lemma strip_suffix_app s t : strip_suffix t (s +:+ t) = Some s.
Proof.
  induction s as [|a s IH]; [change (EmptyString +:+ t) with t; destruct t; cbn [strip_suffix]; by rewrite String.eqb_refl|].
  rewrite str_app_cons. cbn [strip_suffix]. destruct (String.eqb_spec (String a (s +:+ t)) t) as [E|_].
  - apply (f_equal String.length) in E. cbn in E. rewrite str_length_app in E. lia.
  - by rewrite IH.
Qed.

Lemma char_digit_char d : (0 <= d < 10)%Z -> char_digit (digit_char d) = Some d.
Proof.
  intros Hd. assert (d ∈ seqZ 0 10) as Hin by (apply elem_of_seqZ; lia).
  assert (forallb (fun d => bool_decide (char_digit (digit_char d) = Some d)) (seqZ 0 10) = true) as Hall by reflexivity.
  rewrite forallb_forall in Hall. apply list_elem_of_In in Hin. specialize (Hall _ Hin). by apply bool_decide_eq_true_1 in Hall.
Qed.

Lemma parse_dec_digits k n acc :
  (0 <= n)%Z -> (0 <= acc)%Z -> (acc * 10 ^ Z.of_nat k + n mod 10 ^ Z.of_nat k <= U64_MAX)%Z ->
  parse_digits acc (dec_digits k n) = Some (acc * 10 ^ Z.of_nat k + n mod 10 ^ Z.of_nat k)%Z.
Proof.
  intros Hn. revert acc; induction k as [|k IH]; intros acc Ha Hb; [cbn; by rewrite Z.mod_1_r, Z.mul_1_r, Z.add_0_r|].
  cbn [dec_digits parse_digits]. set (p := (10 ^ Z.of_nat k)%Z) in *.
  assert (0 < p)%Z as Hp by (apply Z.pow_pos_nonneg; lia).
  assert (10 ^ Z.of_nat (S k) = 10 * p)%Z as Ep by (rewrite Nat2Z.inj_succ, Z.pow_succ_r; lia).
  assert (n mod (10 * p) = (n / p mod 10) * p + n mod p)%Z as Em.
  { rewrite (Z.mul_comm 10 p), Z.rem_mul_r by lia. lia. }
  pose proof (Z.mod_pos_bound (n / p) 10 ltac:(lia)) as Hd. pose proof (Z.mod_pos_bound n p Hp) as Hm.
  rewrite Ep, Em in Hb |- *. rewrite char_digit_char by lia. cbn.
  rewrite (proj2 (Z.ltb_ge _ _)) by nia. rewrite IH; [f_equal; lia|nia|nia].
Qed.

Lemma parse_segment_id id : is_u64 id -> parse_u64 (dec_digits 20 id) = Some id.
Proof.
  intros Hid. unfold is_u64, U64_MAX in Hid.
  assert (id mod 10 ^ Z.of_nat 20 = id)%Z as Em by (apply Z.mod_small; cbn; lia).
  assert (parse_digits 0 (dec_digits 20 id) = Some id) as Hp.
  { rewrite parse_dec_digits by (unfold U64_MAX; lia). by rewrite Em. }
  assert (exists d, (0 <= d < 10)%Z /\ dec_digits 20 id = String (digit_char d) (dec_digits 19 id)) as (d & Hd & E).
  { eexists. split; [|reflexivity]. apply Z.mod_pos_bound. lia. }
  rewrite E in *. assert (d ∈ seqZ 0 10) as Hin by (apply elem_of_seqZ; lia).
  assert (forallb (fun d => negb (Ascii.eqb (digit_char d) "+"%char)) (seqZ 0 10) = true) as Hall by reflexivity.
  rewrite forallb_forall in Hall. apply list_elem_of_In in Hin. specialize (Hall _ Hin). revert Hp Hall. generalize (digit_char d).
  intros c Hp Hc. unfold parse_u64. destruct c as [[] [] [] [] [] [] [] []]; try done.
Qed.

(** A restart does not collide with the segments it finds: the counter it recovers
    is past the number of every segment in the directory, so no file has the name of
    the next one. *)
Theorem recovered_segment_is_new listing :
  (next_segment_id_of listing < U64_MAX)%Z -> segment_name (next_segment_id_of listing) ∉ listing.
Proof.
  assert (forall id next, is_u64 id -> next_after next (segment_name id) = Z.max next (sat_add id 1)) as Hstep.
  { intros id next Hid. unfold next_after, segment_name, strip_prefix. rewrite starts_with_app, str_drop_app.
    cbn [mbind option_bind]. rewrite strip_suffix_app. cbn [mbind option_bind]. by rewrite parse_segment_id. }
  assert (forall next name, (next <= next_after next name)%Z) as Hmono.
  { intros next name. unfold next_after. repeat case_match; lia. }
  assert (forall l next, (next <= foldl next_after next l)%Z) as Hfold.
  { induction l as [|x l IH]; intros next; cbn; [lia|]. etrans; [apply Hmono|apply IH]. }
  intros Hlt Hin. unfold next_segment_id_of in *. set (id := foldl next_after 0%Z listing) in *.
  assert (is_u64 id) as Hid by (split; [apply Hfold|lia]).
  apply list_elem_of_split in Hin as (l1 & l2 & El).
  assert (id = foldl next_after (next_after (foldl next_after 0%Z l1) (segment_name id)) l2) as E.
  { unfold id at 1. by rewrite El, foldl_app. }
  rewrite Hstep in E by done. pose proof (Hfold l2 (Z.max (foldl next_after 0%Z l1) (sat_add id 1))) as Hge.
  rewrite <- E in Hge. unfold sat_add in Hge. lia.
Qed.

Lemma recovered_segment_is_new_witness :
  next_segment_id_of ["segment-00000000000000000006.bin"; "payload-a.bin"; "segment-x.bin"] = 7%Z /\
  segment_name 7 ∉ ["segment-00000000000000000006.bin"; "payload-a.bin"; "segment-x.bin"].
Proof.
  split; [reflexivity|].
  apply (recovered_segment_is_new ["segment-00000000000000000006.bin"; "payload-a.bin"; "segment-x.bin"]). reflexivity.
Defined.
