(* ===== verification/PayloadSystem.v ===== *)
(** * The payload store at work

    The world the operations of [PayloadStore.v] act on: the payload directory and its
    files with what of them reached the device, the backing files outside it, the state
    of the store, and the log with its sync state. Any number of captures, sync rounds
    and reclamations interleave, and every system call may fail. *)

From S2P Require Import Prelude ContentHash MountTypes Effects PayloadStore.
From Stdlib Require Import ZArith Lia.

(** ** The world *)

Record Inode := MkInode { i_regular : bool; i_data : bytes; i_synced : bytes }.

(** [fs_dir] is the payload directory, [fs_dir_synced] the part of it on the device. *)
Record PayloadFs := MkFs {
  fs_inodes : gmap nat Inode;
  fs_dir : gmap string nat;
  fs_dir_synced : gmap string nat;
}.
Record Sources := MkSources { so_inodes : gmap nat Inode; so_dir : gmap string nat }.
Record Names := MkNames { nm_minted : gset string; nm_retired : gset string }.
(** The payloads of the records, how many records are on the device, how many are
    reported to be, whether a round is running, and how many the process found when it
    started. *)
Record LogWorld := MkLogWorld {
  lg_records : list PayloadRef;
  lg_synced : nat;
  lg_durable : Z;
  lg_in_flight : bool;
  lg_boot : nat;
}.

Record PayloadWorld := MkPW {
  pw_fs : PayloadFs;
  pw_sources : Sources;
  pw_store : StoreState;
  pw_names : Names;
  pw_log : LogWorld;
}.

Definition set_fs (f : PayloadFs) (w : PayloadWorld) := MkPW f (pw_sources w) (pw_store w) (pw_names w) (pw_log w).
Definition set_sources (s : Sources) (w : PayloadWorld) := MkPW (pw_fs w) s (pw_store w) (pw_names w) (pw_log w).
Definition set_store (s : StoreState) (w : PayloadWorld) := MkPW (pw_fs w) (pw_sources w) s (pw_names w) (pw_log w).
Definition set_names (n : Names) (w : PayloadWorld) := MkPW (pw_fs w) (pw_sources w) (pw_store w) n (pw_log w).
Definition set_log (l : LogWorld) (w : PayloadWorld) := MkPW (pw_fs w) (pw_sources w) (pw_store w) (pw_names w) l.

Definition retired (w : PayloadWorld) : gset string := nm_retired (pw_names w).
Definition minted (w : PayloadWorld) : gset string := nm_minted (pw_names w).
Definition records (w : PayloadWorld) : list PayloadRef := lg_records (pw_log w).
Definition dir (w : PayloadWorld) : gmap string nat := fs_dir (pw_fs w).
Definition inodes (w : PayloadWorld) : gmap nat Inode := fs_inodes (pw_fs w).
Global Arguments retired : simpl never.
Global Arguments minted : simpl never.
Global Arguments records : simpl never.
Global Arguments dir : simpl never.
Global Arguments inodes : simpl never.

(** ** System calls *)

(** How a call ends. A failed write may have landed some of its bytes; a read may
    return less than it was asked for. *)
Inductive Choice :=
| CcOk
| CcErr (what : string)
| CcLanded (n : nat)
| CcCount (n : nat)
| CcUuid (u : string)
| CcList (l : list string).

(** Writing nothing does not extend a file. *)
Definition pwrite (content : bytes) (pos : Z) (data : bytes) : bytes :=
  match data with [] => content | _ => write_at content (Z.to_nat pos) data end.

Definition set_data (ino : nat) (data : bytes) (fs : PayloadFs) : PayloadFs :=
  MkFs (alter (fun n => MkInode (i_regular n) data (i_synced n)) ino (fs_inodes fs)) (fs_dir fs) (fs_dir_synced fs).
Definition create_file (name : string) (ino : nat) (fs : PayloadFs) : PayloadFs :=
  MkFs (<[ino := MkInode true [] []]> (fs_inodes fs)) (<[name := ino]> (fs_dir fs)) (fs_dir_synced fs).
Definition fresh_ino (fs : PayloadFs) : nat := fresh (dom (fs_inodes fs)).

Definition failed {A} (what : string) : PResult A := Err (PIo what).

(** [create_new] in the payload directory. *)
Definition create_new (name : string) (fs : PayloadFs) (c : Choice) : option (PResult nat * PayloadFs) :=
  match c with
  | CcOk =>
      match fs_dir fs !! name with
      | Some _ => Some (failed "file exists", fs)
      | None => Some (Ok (fresh_ino fs), create_file name (fresh_ino fs) fs)
      end
  | CcErr e => Some (failed e, fs)
  | _ => None
  end.

(** A call that takes effect or fails. *)
Definition call {A} (c : Choice) (w : PayloadWorld) (ok : PResult A * PayloadWorld) : option (PResult A * PayloadWorld) :=
  match c with CcOk => Some ok | CcErr e => Some (failed e, w) | _ => None end.

Definition node_of (h : Handle) (w : PayloadWorld) : option Inode :=
  match h with InPayload i => inodes w !! i | InSource i => so_inodes (pw_sources w) !! i end.

Definition bytes_at (n : Inode) (pos want : Z) : bytes := slice (Z.to_nat pos) (Z.to_nat want) (i_data n).

Definition read_answer (n : Inode) (pos want : Z) (c : Choice) : option (PResult bytes) :=
  match c with
  | CcOk => if i_regular n then Some (Ok (bytes_at n pos want)) else Some (failed "is a directory")
  | CcCount k => if i_regular n then Some (Ok (take (Nat.max 1 k) (bytes_at n pos want))) else None
  | CcErr e => Some (failed e)
  | _ => None
  end.

(** What lands of a write, and whether it succeeds. *)
Definition write_outcome (pos : Z) (data : bytes) (c : Choice) : option (bytes * PResult unit) :=
  match c with
  | CcOk => if (U64_MAX <? pos + zlen data)%Z then Some ([], failed "file too large") else Some (data, Ok tt)
  | CcLanded n =>
      let part := take (Nat.min n (length data - 1)) data in
      if (U64_MAX <? pos + zlen part)%Z then None else Some (part, failed "write failed")
  | _ => None
  end.

Section handler.
(** Texts of UUIDs are plain file names. *)
Definition payload_handle (A : Type) (e : PayloadE A) (w : PayloadWorld) (c : Choice) : option (A * PayloadWorld) :=
  let fs := pw_fs w in
  let st := pw_store w in
  match e in PayloadE A return option (A * PayloadWorld) with
  | PReserveSegment length =>
      if rotates st length then
        match create_new (segment_name (next_segment_id st)) fs c with
        | Some (created, fs) =>
            let '(r, st) := reserve_segment st length created in Some (r, set_fs fs (set_store st w))
        | None => None
        end
      else let '(r, st) := reserve_segment st length (failed "unused") in Some (r, set_store st w)
  | PReserve name => Some (tt, set_store (reserve_name name st) w)
  | PRelease name => Some (tt, set_store (release_name name st) w)
  | PRegister name => Some (tt, set_store (register_dedicated name st) w)
  | PTakeDirty => let '(d, st) := take_dirty st in Some (d, set_store st w)
  | PExtendDirty d => Some (tt, set_store (extend_dirty d st) w)
  | PSeal => Some (tt, set_store (seal_active st) w)
  | PProtected => Some (protected_names st, w)
  | PUuid =>
      match c with
      | CcUuid u =>
          let name := mint_dedicated_name u in
          if bool_decide (name ∈ minted w) || negb (bool_decide (validate_payload_name name = Ok tt)) then None
          else Some (u, set_names (MkNames ({[name]} ∪ minted w) (retired w)) w)
      | _ => None
      end
  | PCreateNew name =>
      match create_new name fs c with Some (r, fs) => Some (r, set_fs fs w) | None => None end
  | POpen name =>
      call c w (match fs_dir fs !! name with Some ino => Ok ino | None => failed "not found" end, w)
  | PMetadata name =>
      call c w (match fs_dir fs !! name with
                | Some ino =>
                    match inodes w !! ino with
                    | Some n => Ok (Some (i_regular n, zlen (i_data n)))
                    | None => Ok None
                    end
                | None => Ok None
                end, w)
  | PRemoveFile name =>
      call c w (match fs_dir fs !! name with
                | Some ino =>
                    match inodes w !! ino with
                    | Some n =>
                        if i_regular n
                        then (Ok true, set_fs (MkFs (fs_inodes fs) (delete name (fs_dir fs)) (fs_dir_synced fs)) w)
                        else (failed "is a directory", w)
                    | None => (Ok false, w)
                    end
                | None => (Ok false, w)
                end)
  | PReadDir =>
      match c with
      | CcList l => if bool_decide (merge_sort str_le l = sorted_strings (dom (fs_dir fs))) then Some (Ok l, w) else None
      | CcErr e => Some (failed e, w)
      | _ => None
      end
  | PSyncDir => call c w (Ok tt, set_fs (MkFs (fs_inodes fs) (fs_dir fs) (fs_dir fs)) w)
  | POpenSource path =>
      call c w (match so_dir (pw_sources w) !! path with Some ino => Ok ino | None => failed "not found" end, w)
  | PStat h =>
      match node_of h w with Some n => call c w (Ok (zlen (i_data n)), w) | None => None end
  | PRead h pos want =>
      match node_of h w with
      | Some n => match read_answer n pos want c with Some r => Some (r, w) | None => None end
      | None => None
      end
  | PWriteAll ino pos data =>
      match inodes w !! ino, c with
      | Some _, CcErr e => Some (failed e, w)
      | Some n, _ =>
          match write_outcome pos data c with
          | Some (landed, r) => Some (r, set_fs (set_data ino (pwrite (i_data n) pos landed) fs) w)
          | None => None
          end
      | None, _ => None
      end
  | PSetLen ino len =>
      match inodes w !! ino with
      | Some n => call c w (Ok tt, set_fs (set_data ino (take (Z.to_nat len) (i_data n)) fs) w)
      | None => None
      end
  | PClone src ino =>
      match so_inodes (pw_sources w) !! src, c with
      | Some n, CcOk => if (U64_MAX <? zlen (i_data n))%Z then None else Some (true, set_fs (set_data ino (i_data n) fs) w)
      | Some _, CcErr _ => Some (false, w)
      | _, _ => None
      end
  | PCopyRange src ino pos want =>
      match so_inodes (pw_sources w) !! src, inodes w !! ino, c with
      | Some n, Some m, CcCount k =>
          let data := take k (bytes_at n pos want) in
          if (U64_MAX <? pos + zlen data)%Z then None
          else Some (zlen data, set_fs (set_data ino (pwrite (i_data m) pos data) fs) w)
      | Some _, Some _, CcErr _ => Some ((-1)%Z, w)
      | _, _, _ => None
      end
  | PSyncData ino =>
      call c w (Ok tt, set_fs (MkFs (alter (fun n => MkInode (i_regular n) (i_data n) (i_data n)) ino (fs_inodes fs))
                                 (fs_dir fs) (fs_dir_synced fs)) w)
  | PAppendRecord p =>
      let l := pw_log w in
      call c w (Ok (zlen (lg_records l) + 1)%Z,
                set_log (MkLogWorld (lg_records l ++ [p]) (lg_synced l) (lg_durable l) (lg_in_flight l) (lg_boot l)) w)
  | PWatermark => Some (zlen (records w), w)
  | PSyncLog _ =>
      let l := pw_log w in
      call c w (Ok tt, set_log (MkLogWorld (lg_records l) (length (lg_records l)) (lg_durable l) (lg_in_flight l) (lg_boot l)) w)
  | PSyncEnter sequence =>
      let l := pw_log w in
      if (sequence <=? lg_durable l)%Z then Some (Some (lg_durable l), w)
      else if lg_in_flight l then None
      else Some (None, set_log (MkLogWorld (lg_records l) (lg_synced l) (lg_durable l) true (lg_boot l)) w)
  | PSyncLeave outcome =>
      let l := pw_log w in
      match outcome with
      | Ok n =>
          let durable := Z.max (lg_durable l) n in
          Some (Ok durable, set_log (MkLogWorld (lg_records l) (lg_synced l) durable false (lg_boot l)) w)
      | Err e => Some (Err e, set_log (MkLogWorld (lg_records l) (lg_synced l) (lg_durable l) false (lg_boot l)) w)
      end
  end.

(** Guests write the backing files; the log stops referring to payloads. *)
Inductive payload_env : PayloadWorld -> PayloadWorld -> Prop :=
| env_sources w s : payload_env w (set_sources s w)
| env_retire w name : payload_env w (set_names (MkNames (minted w) ({[name]} ∪ retired w)) w).

Context {H : HashCrates} (alg : VfsHashAlgorithm) (target_linux : bool).

Definition forget {A} (m : Payload A) : Payload unit := _ ← m; Ret tt.

Inductive payload_starts : unit -> Payload unit -> PayloadWorld -> Prop :=
| starts_append fuel source w : payload_starts tt (forget (capture_and_append alg target_linux fuel source)) w
| starts_snapshot source length w : payload_starts tt (forget (with_snapshot alg source length)) w
| starts_sync sequence w : payload_starts tt (forget (sync_to sequence)) w
| starts_seal w : payload_starts tt (forget seal_active_segment) w
| starts_verify p w : payload_starts tt (forget (verify alg p)) w
| starts_read p w : payload_starts tt (forget (read_all p)) w
| starts_usage w : payload_starts tt (forget usage) w
| starts_persisted w : payload_starts tt (forget persisted_names) w
| starts_hash h source offset length w : payload_starts tt (forget (hash_file_range h source offset length)) w
| starts_reclaim candidates w : candidates ⊆ retired w -> payload_starts tt (forget (reclaim candidates)) w.

(** The process stops and starts again: what it wrote stays. *)
Definition restart (w : PayloadWorld) : PayloadWorld :=
  MkPW (pw_fs w) (pw_sources w) (open_store (next_segment_id_of (sorted_strings (dom (dir w)))))
    (pw_names w) (MkLogWorld (records w) (lg_synced (pw_log w)) (zlen (records w)) false (length (records w))).

(** A state directory just created. *)
Definition payload_init (w : PayloadWorld) : Prop :=
  pw_fs w = MkFs ∅ ∅ ∅ /\ pw_store w = open_store 0 /\ pw_names w = MkNames ∅ ∅ /\
  pw_log w = MkLogWorld [] 0 0 false 0.

Definition payload_reachable : System -> Prop :=
  system_reachable payload_handle payload_starts payload_env (fun _ => restart) payload_init.
End handler.
