(* ===== verification/PayloadOwners.v ===== *)
(** * Who may write which byte of a payload

    The bookkeeping behind [PayloadIntact.v]. At any moment a task owns the name of the
    dedicated file it fills, the range of a segment it reserved, or the payload it has
    just written; the records of the log own the payloads they refer to. No owner
    writes what another relies on. *)

From S2P Require Import Prelude ContentHash MountTypes Effects PayloadStore PayloadSystem.
From Stdlib Require Import ZArith Lia.

(** What a task knows about the content of the file it fills. *)
Inductive Known := Exactly (b : bytes) | StartsWith (b : bytes).

Inductive Stage :=
| Idle
| Named (name : string)                                        (** a name nobody else has *)
| Filling (name : string) (ino : nat) (k : Known)              (** a file nobody else writes *)
| Ranged (name : string) (ino : nat) (off len : Z)             (** a reserved range, not written yet *)
| Written (name : string) (ino : nat) (off : Z) (data : bytes)
| Reclaiming (candidates : gset string).

(** The range a stage relies on, the name and the file only it may change. *)
Definition claim_of (s : Stage) : option (string * nat * Z * Z) :=
  match s with
  | Ranged n i o l => Some (n, i, o, l)
  | Written n i o d => Some (n, i, o, zlen d)
  | _ => None
  end.
Definition own_name (s : Stage) : option string :=
  match s with Named n | Filling n _ _ => Some n | _ => None end.
Definition own_ino (s : Stage) : option nat := match s with Filling _ i _ => Some i | _ => None end.
Definition own_range (s : Stage) : option (nat * Z * Z) := match s with Ranged _ i o l => Some (i, o, l) | _ => None end.

Definition disjoint_ranges (o l o' l' : Z) : Prop := (o + l <= o' \/ o' + l' <= o)%Z.

(** [s1] leaves what [s2] relies on alone. *)
Record spares (s1 s2 : Stage) : Prop := {
  sp_names : forall n, own_name s1 = Some n -> own_name s2 ≠ Some n;
  sp_inos : forall i, own_ino s1 = Some i -> own_ino s2 ≠ Some i;
  sp_claim : forall n i o l, claim_of s2 = Some (n, i, o, l) ->
    own_name s1 ≠ Some n /\ own_ino s1 ≠ Some i /\
    forall o' l', own_range s1 = Some (i, o', l') -> disjoint_ranges o' l' o l;
}.
Definition apart (s1 s2 : Stage) : Prop := spares s1 s2 /\ spares s2 s1.

Definition dedicated_name (n : string) : Prop := starts_with DEDICATED_PREFIX n = true.

Definition knows (k : Known) (data : bytes) : Prop :=
  match k with Exactly b => data = b | StartsWith b => exists rest, data = b ++ rest end.

(** The file [i] is [n] in the directory, unless the log gave the name up. *)
Record linked (w : PayloadWorld) (n : string) (i : nat) : Prop := {
  li_regular : exists node, inodes w !! i = Some node /\ i_regular node = true;
  li_entry : dir w !! n = Some i \/ n ∈ retired w;
  li_only : forall n', dir w !! n' = Some i -> n' = n;
}.

Definition stage_ok (w : PayloadWorld) (s : Stage) : Prop :=
  match s with
  | Idle => True
  | Named n => dedicated_name n /\ validate_payload_name n = Ok tt /\ n ∈ minted w /\ dir w !! n = None
  | Filling n i k =>
      dedicated_name n /\ validate_payload_name n = Ok tt /\ n ∈ minted w /\ linked w n i /\
      (dir w !! n = Some i \/ dir w !! n = None) /\
      forall node, inodes w !! i = Some node -> knows k (i_data node)
  | Ranged n i o l => (0 <= o)%Z /\ (0 <= l)%Z /\ ~ dedicated_name n /\ validate_payload_name n = Ok tt /\ linked w n i
  | Written n i o d =>
      (0 <= o)%Z /\ (dedicated_name n -> n ∈ minted w /\ o = 0%Z) /\ validate_payload_name n = Ok tt /\ linked w n i /\
      forall node, inodes w !! i = Some node -> slice (Z.to_nat o) (length d) (i_data node) = d
  | Reclaiming c => c ⊆ retired w
  end.

Definition below (w : PayloadWorld) (s : Stage) : Prop :=
  forall g, current_segment (pw_store w) = Some g ->
    own_ino s ≠ Some (as_file g) /\
    forall n o l, claim_of s = Some (n, as_file g, o, l) -> (o + l <= as_len g)%Z.

Record world_ok (w : PayloadWorld) : Prop := {
  wo_bound : forall i n, inodes w !! i = Some n -> (zlen (i_data n) <= U64_MAX)%Z;
  wo_dir : forall n i, dir w !! n = Some i -> is_Some (inodes w !! i);
  wo_inj : forall n n' i, dir w !! n = Some i -> dir w !! n' = Some i -> n = n';
  wo_minted : forall n, dedicated_name n -> is_Some (dir w !! n) -> n ∈ minted w;
  wo_segment : forall g, current_segment (pw_store w) = Some g ->
    (0 <= as_len g <= SEGMENT_TARGET_BYTES)%Z /\ ~ dedicated_name (as_name g) /\
    validate_payload_name (as_name g) = Ok tt /\ linked w (as_name g) (as_file g);
}.

(** Owners are tasks ([inl]) and records ([inr]). *)
Abbreviation Owners := (nat + nat -> option Stage).
Definition set_owner (a : Owners) (x : nat + nat) (s : Stage) : Owners :=
  fun y => if decide (y = x) then Some s else a y.

Record owners_ok (w : PayloadWorld) (a : Owners) : Prop := {
  oo_world : world_ok w;
  oo_stage : forall x s, a x = Some s -> stage_ok w s;
  oo_below : forall x s, a x = Some s -> below w s;
  oo_apart : forall x y s s', x ≠ y -> a x = Some s -> a y = Some s' -> apart s s';
}.

(** ** Lemmas *)

Lemma owners_ok_ext w a b : (forall x, a x = b x) -> owners_ok w a -> owners_ok w b.
Proof. intros E [Hw Hs Hb Ha]. split; [done|..]; intros *; rewrite <- ?E; eauto. Qed.

Lemma stages_apart_sym s s' : apart s s' -> apart s' s.
Proof. intros [? ?]; by split. Qed.

Lemma apart_idle s : apart Idle s.
Proof. split; split; try done. Qed.

Lemma apart_reclaiming c s : apart (Reclaiming c) s.
Proof. split; split; try done. Qed.

(** One owner moves; everyone else sees a world that is still right. *)
Lemma owners_move w w' a x s s' :
  owners_ok w a -> a x = Some s -> world_ok w' -> stage_ok w' s' -> below w' s' ->
  (forall y s2, y ≠ x -> a y = Some s2 -> stage_ok w s2 -> below w s2 -> apart s s2 ->
     stage_ok w' s2 /\ below w' s2 /\ apart s' s2) ->
  owners_ok w' (set_owner a x s').
Proof.
  intros [Hw Hs Hb Ha] Hx Hw' Hs' Hb' Hy.
  assert (forall y s2, y ≠ x -> a y = Some s2 -> stage_ok w' s2 /\ below w' s2 /\ apart s' s2) as Hy' by eauto.
  split; [done|..].
  - intros y s2. unfold set_owner. case_decide; [intros [= <-]; done|]. intros E. by eapply Hy'.
  - intros y s2. unfold set_owner. case_decide; [intros [= <-]; done|]. intros E. by eapply Hy'.
  - intros y z s2 s3 Hne. unfold set_owner. repeat case_decide; subst; try done.
    + intros [= <-] E. by eapply Hy'.
    + intros E [= <-]. apply stages_apart_sym. by eapply Hy'.
    + apply Ha. done.
Qed.

(** Nobody moves, but the world changes. *)
Lemma owners_frame w w' a :
  owners_ok w a -> world_ok w' -> (forall s, stage_ok w s -> below w s -> stage_ok w' s /\ below w' s) ->
  owners_ok w' a.
Proof.
  intros [Hw Hs Hb Ha] Hw' Hf. split; [done|..]; [| |done]; intros x s Hx; eapply Hf; eauto.
Qed.

(** Files as the owners see them. *)
Definition seen (n : Inode) : bool * bytes := (i_regular n, i_data n).

Record same_view (w w' : PayloadWorld) : Prop := {
  sv_dir : dir w' = dir w;
  sv_nodes : forall i, seen <$> inodes w' !! i = seen <$> inodes w !! i;
  sv_minted : minted w ⊆ minted w';
  sv_retired : retired w ⊆ retired w';
  sv_segment : current_segment (pw_store w') = current_segment (pw_store w) \/ current_segment (pw_store w') = None;
}.

Lemma same_node w w' i n' :
  same_view w w' -> inodes w' !! i = Some n' -> exists n, inodes w !! i = Some n /\ i_regular n' = i_regular n /\ i_data n' = i_data n.
Proof.
  intros Hv Hi. pose proof (sv_nodes _ _ Hv i) as E. rewrite Hi in E. cbn in E.
  destruct (inodes w !! i) as [n|]; [|done]. injection E as [= E1 E2]. eauto.
Qed.

Lemma same_node' w w' i n :
  same_view w w' -> inodes w !! i = Some n -> exists n', inodes w' !! i = Some n' /\ i_regular n' = i_regular n /\ i_data n' = i_data n.
Proof.
  intros Hv Hi. pose proof (sv_nodes _ _ Hv i) as E. rewrite Hi in E. cbn in E.
  destruct (inodes w' !! i) as [n'|]; [|done]. injection E as [= E1 E2]. eauto.
Qed.

Lemma linked_view w w' n i : same_view w w' -> linked w n i -> linked w' n i.
Proof.
  intros Hv [(node & Hn & Hr) He Ho]. destruct (same_node' _ _ _ _ Hv Hn) as (n' & Hn' & Er & _).
  split; [exists n'; by rewrite Er|..]; rewrite (sv_dir _ _ Hv); [|done].
  destruct He; [by left|right]. by apply (sv_retired _ _ Hv).
Qed.

Lemma stage_view w w' s : same_view w w' -> stage_ok w s -> stage_ok w' s.
Proof.
  intros Hv. pose proof (fun n i => linked_view w w' n i Hv) as Hl. pose proof (sv_minted _ _ Hv). pose proof (sv_retired _ _ Hv).
  destruct s as [| | | | |c]; cbn; rewrite ?(sv_dir _ _ Hv); [done|naive_solver|..].
  - intros (? & ? & ? & ? & ? & Hk). split_and!; auto. intros node Hn.
    destruct (same_node _ _ _ _ Hv Hn) as (m & Hm & _ & ->). eauto.
  - intros (? & ? & ? & ? & ?). split_and!; auto.
  - intros (? & Hd & ? & ? & Hk). split_and!; auto.
    + intros Hded. destruct (Hd Hded). auto.
    + intros node Hn. destruct (same_node _ _ _ _ Hv Hn) as (m & Hm & _ & ->). eauto.
  - intros Hc. by etrans.
Qed.

Lemma below_view w w' s : same_view w w' -> below w s -> below w' s.
Proof. intros Hv Hb g Hg. destruct (sv_segment _ _ Hv) as [E|E]; [rewrite E in Hg; auto|congruence]. Qed.

Lemma world_view w w' : same_view w w' -> world_ok w -> world_ok w'.
Proof.
  intros Hv [Hb Hd Hi Hm Hs]. split.
  - intros i n Hn. destruct (same_node _ _ _ _ Hv Hn) as (m & Hm' & _ & ->). eauto.
  - intros n i. rewrite (sv_dir _ _ Hv). intros Hn. destruct (Hd _ _ Hn) as [m Hm'].
    destruct (same_node' _ _ _ _ Hv Hm') as (? & ? & _). eauto.
  - rewrite (sv_dir _ _ Hv). eauto.
  - rewrite (sv_dir _ _ Hv). intros n Hn Hs'. apply (sv_minted _ _ Hv). eauto.
  - intros g Hg. destruct (sv_segment _ _ Hv) as [E|E]; [|congruence]. rewrite E in Hg.
    destruct (Hs _ Hg) as (? & ? & ? & ?). split_and!; try done; try lia. by eapply linked_view.
Qed.

Lemma owners_view w w' a : same_view w w' -> owners_ok w a -> owners_ok w' a.
Proof.
  intros Hv Ho. eapply owners_frame; [done|by eapply world_view, (oo_world _ _ Ho)|].
  intros s. split; [by eapply stage_view|by eapply below_view].
Qed.

(** ** Writing to one file *)

Lemma inodes_set_data w i d j :
  inodes (set_fs (set_data i d (pw_fs w)) w) !! j
  = if decide (j = i) then (fun n => MkInode (i_regular n) d (i_synced n)) <$> inodes w !! j else inodes w !! j.
Proof. unfold inodes. cbn. case_decide; subst; [by rewrite lookup_alter_eq|by rewrite lookup_alter_ne]. Qed.

Lemma linked_set_data w i d n j : linked w n j -> linked (set_fs (set_data i d (pw_fs w)) w) n j.
Proof.
  intros [(node & Hn & Hr) He Ho]. split; [|done..]. rewrite inodes_set_data, Hn. case_decide; cbn; eauto.
Qed.

Lemma world_set_data w i d :
  world_ok w -> (zlen d <= U64_MAX)%Z -> world_ok (set_fs (set_data i d (pw_fs w)) w).
Proof.
  intros [Hb Hd Hi Hm Hs] Hlen. split; try done.
  - intros j n. rewrite inodes_set_data. case_decide; [|eauto].
    destruct (inodes w !! j) as [m|]; [|done]. by intros [= <-].
  - intros n j Hn. rewrite inodes_set_data. destruct (Hd _ _ Hn) as [m ->]. case_decide; eauto.
  - intros g Hg. destruct (Hs _ Hg) as (? & ? & ? & ?). split_and!; try done; try lia. by apply linked_set_data.
Qed.

(** A file only one task fills. *)
Lemma owners_fill w a x n i k d k' :
  owners_ok w a -> a x = Some (Filling n i k) -> knows k' d -> (zlen d <= U64_MAX)%Z ->
  owners_ok (set_fs (set_data i d (pw_fs w)) w) (set_owner a x (Filling n i k')).
Proof.
  intros Ho Hx Hk Hlen. eapply owners_move; [done..| | | |].
  - by apply world_set_data, Hlen; apply Ho.
  - destruct (oo_stage _ _ Ho _ _ Hx) as (? & ? & ? & Hl & ? & _). cbn. split_and!; try done; try lia.
    + by apply linked_set_data.
    + intros node. rewrite inodes_set_data, decide_True by done. destruct (inodes w !! i); [|done]. by intros [= <-].
  - intros g Hg. split; [|done]. by destruct (oo_below _ _ Ho _ _ Hx g Hg).
  - intros y s2 Hne Hy Hs2 Hb2 Hap. split_and!; [|done|by split; destruct Hap as [[] []]; split].
    destruct Hap as [[_ Hi Hc] _]. destruct s2 as [| |n2 i2 k2|n2 i2 o2 l2|n2 i2 o2 d2|]; cbn in *; try done.
    + destruct Hs2 as (? & ? & ? & ? & ? & Hk2). split_and!; try done; try lia; [by apply linked_set_data|].
      intros node. rewrite inodes_set_data, decide_False by naive_solver. eauto.
    + destruct Hs2 as (? & ? & ? & ? & ?). split_and!; try done; try lia. by apply linked_set_data.
    + destruct Hs2 as (? & ? & ? & ? & Hk2). split_and!; try done; try lia; [by apply linked_set_data|].
      intros node. destruct (Hc _ _ _ _ eq_refl) as (_ & Hne2 & _).
      rewrite inodes_set_data, decide_False by naive_solver. eauto.
Qed.

(** A range only one task writes: the bytes elsewhere stay. *)
Lemma pwrite_out content pos data o n :
  (0 <= o)%Z -> (0 <= pos)%Z -> (o + Z.of_nat n <= zlen content)%Z -> disjoint_ranges pos (zlen data) o (Z.of_nat n) ->
  slice (Z.to_nat o) n (pwrite content pos data) = slice (Z.to_nat o) n content.
Proof.
  intros Ho Hp Hlen Hd. unfold pwrite. destruct data as [|b data]; [done|].
  apply slice_write_at_out; unfold disjoint_ranges, zlen in *; cbn in *; lia.
Qed.

Lemma slice_full o n content : length (slice o n content) = n -> n = 0 \/ o + n <= length content.
Proof. rewrite length_slice. lia. Qed.

Lemma length_pwrite content pos data :
  (0 <= pos)%Z -> (zlen (pwrite content pos data) <= Z.max (zlen content) (pos + zlen data))%Z.
Proof.
  intros Hp. unfold pwrite. destruct data as [|b data]; [unfold zlen; lia|].
  unfold zlen. rewrite length_write_at. cbn. lia.
Qed.

(** [s'] claims no more than the range did. *)
Lemma owners_write_range w a x n i o l node data s' :
  owners_ok w a -> a x = Some (Ranged n i o l) -> inodes w !! i = Some node ->
  (zlen data <= l)%Z -> (data = [] \/ (o + zlen data <= U64_MAX)%Z) ->
  (s' = Idle \/ zlen data = l /\ s' = Written n i o data) ->
  owners_ok (set_fs (set_data i (pwrite (i_data node) o data) (pw_fs w)) w) (set_owner a x s').
Proof.
  intros Ho Hx Hi Hl Hbound Hs'. pose proof (oo_stage _ _ Ho _ _ Hx) as (Ho0 & Hl0 & Hded & Hval & Hlink).
  eapply owners_move; [done..| | | |].
  - apply world_set_data; [apply Ho|]. pose proof (wo_bound _ (oo_world _ _ Ho) _ _ Hi).
    pose proof (length_pwrite (i_data node) o data Ho0). destruct Hbound as [->|]; [done|lia].
  - destruct Hs' as [->|[<- ->]]; [done|]. cbn. split_and!; try done; try lia; [by apply linked_set_data|].
    intros node'. rewrite inodes_set_data, decide_True, Hi by done. intros [= <-]. cbn. unfold pwrite.
    destruct data as [|b data]; [done|]. by rewrite slice_write_at.
  - intros g Hg. destruct (oo_below _ _ Ho _ _ Hx g Hg) as [_ Hb]. destruct Hs' as [->|[<- ->]]; [done|].
    cbn. split; [done|]. intros n' o' l' [= <- -> <- <-]. by apply (Hb n).
  - intros y s2 Hne Hy Hs2 Hb2 Hap. split_and!; [|done|].
    + destruct Hap as [[_ _ Hc] [_ _ Hc2]].
      destruct s2 as [| |n2 i2 k2|n2 i2 o2 l2|n2 i2 o2 d2|]; cbn in *; try done.
      * destruct Hs2 as (? & ? & ? & ? & ? & Hk2). split_and!; try done; try lia; [by apply linked_set_data|].
        intros node'. destruct (Hc2 _ _ _ _ eq_refl) as (_ & Hne2 & _).
        rewrite inodes_set_data, decide_False by naive_solver. eauto.
      * destruct Hs2 as (? & ? & ? & ? & ?). split_and!; try done; try lia. by apply linked_set_data.
      * destruct Hs2 as (Ho2 & ? & ? & ? & Hk2). split_and!; try done; try lia; [by apply linked_set_data|].
        intros node'. rewrite inodes_set_data. case_decide as E; [subst i2|eauto]. rewrite Hi. intros [= <-].
        specialize (Hk2 _ Hi). destruct (Hc _ _ _ _ eq_refl) as (_ & _ & Hdis). specialize (Hdis _ _ eq_refl).
        destruct d2 as [|b2 d2]; [done|].
        assert (Z.to_nat o2 + length (b2 :: d2) <= length (i_data node)).
        { destruct (slice_full (Z.to_nat o2) (length (b2 :: d2)) (i_data node)) as [E|?]; [by rewrite Hk2|done..]. }
        cbn [i_data]. rewrite pwrite_out; unfold disjoint_ranges, zlen in *; try done; lia.
    + destruct Hs' as [->|[<- ->]]; [apply apart_idle|]. destruct Hap as [[Hn Hio Hc] [Hn2 Hio2 Hc2]].
      split; split; cbn in *; try done.
Qed.

(** ** Names and directory entries *)

(** A drawn name is nobody's. *)
Lemma owners_name w a x u :
  owners_ok w a -> a x = Some Idle -> mint_dedicated_name u ∉ minted w ->
  validate_payload_name (mint_dedicated_name u) = Ok tt ->
  owners_ok (set_names (MkNames ({[mint_dedicated_name u]} ∪ minted w) (retired w)) w)
    (set_owner a x (Named (mint_dedicated_name u))).
Proof.
  intros Ho Hx Hu Hval. set (w' := set_names _ _).
  assert (same_view w w') as Hv by (split; try done; [|by left]; unfold w', minted; set_solver).
  assert (dedicated_name (mint_dedicated_name u)) as Hded by apply starts_with_app.
  eapply owners_move; [done..| | | |].
  - eapply world_view; [done|apply Ho].
  - cbn. split_and!; try done; [unfold minted; cbn; set_solver|]. destruct (dir w !! mint_dedicated_name u) eqn:E; [|done].
    destruct Hu. apply (wo_minted _ (oo_world _ _ Ho)); [done|]. unfold dir in *. by rewrite E.
  - intros g Hg. done.
  - intros y s2 Hne Hy Hs2 Hb2 Hap. split_and!; [by eapply stage_view|by eapply below_view|].
    split; split; cbn; try done.
    + intros n [= <-] E. destruct Hu. destruct s2; cbn in *; naive_solver.
    + intros n i o l Hc. split_and!; try done. intros [= <-].
      destruct s2; cbn in *; simplify_eq; naive_solver.
    + intros n E [= <-]. destruct Hu. destruct s2; cbn in *; naive_solver.
Qed.

Lemma dir_create w n i : dir (set_fs (create_file n i (pw_fs w)) w) = <[n := i]> (dir w).
Proof. done. Qed.
Lemma inodes_create w n i : inodes (set_fs (create_file n i (pw_fs w)) w) = <[i := MkInode true [] []]> (inodes w).
Proof. done. Qed.

Lemma fresh_ino_spec w : inodes w !! fresh_ino (pw_fs w) = None.
Proof. unfold inodes, fresh_ino. apply not_elem_of_dom, is_fresh. Qed.

Lemma linked_create w n i m j :
  world_ok w -> dir w !! n = None -> inodes w !! i = None -> linked w m j ->
  linked (set_fs (create_file n i (pw_fs w)) w) m j.
Proof.
  intros Hw Hn Hi [(node & Hj & Hr) He Ho]. assert (j ≠ i) by congruence.
  split; rewrite ?dir_create, ?inodes_create.
  - exists node. by rewrite lookup_insert_ne.
  - destruct He as [He|He]; [left|by right]. rewrite lookup_insert_ne by congruence. done.
  - intros n'. rewrite lookup_insert_Some. intros [[-> ->]|[_ E]]; [done|by apply Ho].
Qed.

Lemma linked_new w n i :
  world_ok w -> dir w !! n = None -> inodes w !! i = None -> linked (set_fs (create_file n i (pw_fs w)) w) n i.
Proof.
  intros Hw Hn Hi. split; rewrite ?dir_create, ?inodes_create.
  - eexists. by rewrite lookup_insert_eq.
  - left. by rewrite lookup_insert_eq.
  - intros n'. rewrite lookup_insert_Some. intros [[-> _]|[_ E]]; [done|].
    destruct (wo_dir _ Hw _ _ E) as [? E']. congruence.
Qed.

Lemma world_create w n i :
  world_ok w -> dir w !! n = None -> inodes w !! i = None -> (dedicated_name n -> n ∈ minted w) ->
  world_ok (set_fs (create_file n i (pw_fs w)) w).
Proof.
  intros Hw Hn Hi Hm. pose proof Hw as [Hb Hd Hinj Hmt Hs]. split; rewrite ?dir_create, ?inodes_create.
  - intros j node. rewrite lookup_insert_Some. intros [[_ <-]|[_ E]]; [done|eauto].
  - intros m j. rewrite lookup_insert_Some. intros [[_ <-]|[_ E]].
    + rewrite lookup_insert_eq. eauto.
    + destruct (Hd _ _ E) as [node Ej]. rewrite lookup_insert_ne by congruence. eauto.
  - intros m m' j. rewrite !lookup_insert_Some.
    intros [[<- <-]|[_ E]] [[<- E'']|[_ E']]; try done; [|subst|eauto]; by edestruct Hd as [? ?]; [eassumption|congruence].
  - intros m Hded. destruct (decide (m = n)) as [->|]; [auto|]. rewrite lookup_insert_ne by done. by apply Hmt.
  - intros g Hg. destruct (Hs _ Hg) as (? & ? & ? & ?). split_and!; try done; try lia. by apply linked_create.
Qed.

Lemma stage_create w n i s :
  world_ok w -> dir w !! n = None -> inodes w !! i = None -> own_name s ≠ Some n ->
  stage_ok w s -> stage_ok (set_fs (create_file n i (pw_fs w)) w) s.
Proof.
  intros Hw Hn Hi Hne. destruct s as [|m|m j k|m j o l|m j o d|c]; cbn in *; rewrite ?dir_create, ?inodes_create.
  - done.
  - intros (? & ? & ? & ?). rewrite lookup_insert_ne by congruence. done.
  - intros (? & ? & ? & Hl & Hent & Hk). split_and!; try done; [by apply linked_create|..].
    + by rewrite lookup_insert_ne by congruence.
    + intros node. rewrite lookup_insert_Some. intros [[<- <-]|[_ E]]; [|eauto].
      destruct Hl as [(? & ? & _) _ _]. congruence.
  - intros (? & ? & ? & ? & ?). split_and!; try done. by apply linked_create.
  - intros (? & ? & ? & Hl & Hk). split_and!; try done; [by apply linked_create|].
    intros node. rewrite lookup_insert_Some. intros [[<- <-]|[_ E]]; [|eauto].
    destruct Hl as [(? & ? & _) _ _]. congruence.
  - done.
Qed.

(** An owner relies on files that exist. *)
Lemma owner_inos w s i : stage_ok w s -> inodes w !! i = None ->
  own_ino s ≠ Some i /\ forall n o l, claim_of s ≠ Some (n, i, o, l).
Proof.
  intros Hs Hi. destruct s as [| |m j k|m j o l|m j o d|]; cbn in *; try done;
    [destruct Hs as (_ & _ & _ & [(? & ? & _) _ _] & _)|destruct Hs as (_ & _ & _ & _ & [(? & ? & _) _ _])
    |destruct Hs as (_ & _ & _ & [(? & ? & _) _ _] & _)]; split; try done; try congruence; intros *; congruence.
Qed.

Lemma owners_create w a x n i :
  owners_ok w a -> a x = Some (Named n) -> inodes w !! i = None ->
  owners_ok (set_fs (create_file n i (pw_fs w)) w) (set_owner a x (Filling n i (Exactly []))).
Proof.
  intros Ho Hx Hi. pose proof (oo_stage _ _ Ho _ _ Hx) as (Hd & Hval & Hm & Hn). pose proof (oo_world _ _ Ho) as Hw.
  eapply owners_move; [done..| | | |].
  - by apply world_create.
  - cbn. rewrite dir_create, inodes_create, !lookup_insert_eq. split_and!; try done; [by apply linked_new|by left|].
    by intros node [= <-].
  - intros g Hg. cbn. split; [|done]. intros [= ->]. destruct (wo_segment _ Hw _ Hg) as (_ & _ & _ & [(? & ? & _) _ _]). congruence.
  - intros y s2 Hne Hy Hs2 Hb2 [[Hnm Hio Hc] [Hnm2 Hio2 Hc2]]. cbn in *.
    destruct (owner_inos _ _ _ Hs2 Hi) as [Hi2 Hc'].
    split_and!; [apply stage_create; auto|done|]. split; split; cbn; try done.
    + intros j [= <-]. done.
    + intros n' i' o' l' Hcl. destruct (Hc _ _ _ _ Hcl) as (? & _ & _). split_and!; try done.
      intros [= <-]. by eapply Hc'.
    + intros j Hj [= <-]. done.
Qed.

(** Unlinking a name. *)
Lemma linked_unlink w n m j :
  (m = n -> n ∈ retired w) -> linked w m j ->
  linked (set_fs (MkFs (fs_inodes (pw_fs w)) (delete n (fs_dir (pw_fs w))) (fs_dir_synced (pw_fs w))) w) m j.
Proof.
  intros Hr [Hn He Ho]. split; [done| |].
  - unfold dir in *. cbn. destruct (decide (m = n)) as [->|]; [right; by apply Hr|].
    destruct He; [left; by rewrite lookup_delete_ne|by right].
  - unfold dir in *. cbn. intros n' E. apply lookup_delete_Some in E as [_ E]. by apply Ho.
Qed.

Lemma owners_unlink w a n :
  owners_ok w a -> (forall x s o i l, a x = Some s -> claim_of s = Some (n, i, o, l) -> n ∈ retired w) ->
  (forall x i k, a x = Some (Filling n i k) -> n ∈ retired w) ->
  (forall g, current_segment (pw_store w) = Some g -> as_name g = n -> n ∈ retired w) ->
  owners_ok (set_fs (MkFs (fs_inodes (pw_fs w)) (delete n (fs_dir (pw_fs w))) (fs_dir_synced (pw_fs w))) w) a.
Proof.
  intros Ho Hcl Hfill Hseg. set (w' := set_fs _ _). pose proof (oo_world _ _ Ho) as [Hb Hd Hinj Hmt Hs].
  assert (forall m i, dir w' !! m = Some i -> dir w !! m = Some i) as Hsub.
  { unfold dir, w'. cbn. intros m i E. by apply lookup_delete_Some in E as [_ E]. }
  assert (forall m, m ≠ n -> dir w' !! m = dir w !! m) as Hne.
  { unfold dir, w'. cbn. intros m Hm. by rewrite lookup_delete_ne. }
  assert (dir w' !! n = None) as Hn by (unfold dir, w'; cbn; by rewrite lookup_delete_eq).
  split; [split; try done| |exact (oo_below _ _ Ho)|apply Ho].
  - intros m i E. by apply (Hd m), Hsub.
  - intros m m' i E E'. by eapply Hinj; apply Hsub.
  - intros m Hded [i E]. eapply Hmt; [done|]. by rewrite (Hsub _ _ E).
  - intros g Hg. destruct (Hs _ Hg) as (? & ? & ? & ?). split_and!; try done; try lia. apply linked_unlink; [|done]. intros <-. eauto.
  - intros x s Hx. pose proof (oo_stage _ _ Ho _ _ Hx) as Hst. destruct s as [|m|m j k|m j o l|m j o d|c]; cbn in *; try done.
    + destruct Hst as (? & ? & ? & E). split_and!; try done. destruct (decide (m = n)) as [->|]; [done|by rewrite Hne].
    + destruct Hst as (? & ? & ? & Hl & E & ?). split_and!; try done.
      * apply linked_unlink; [|done]. intros ->. eauto.
      * destruct (decide (m = n)) as [->|]; [by right|by rewrite Hne].
    + destruct Hst as (? & ? & ? & ? & ?). split_and!; try done. apply linked_unlink; [|done]. intros ->. by eapply (Hcl x).
    + destruct Hst as (? & ? & ? & ? & ?). split_and!; try done. apply linked_unlink; [|done]. intros ->. by eapply (Hcl x).
Qed.

(** ** Reservations *)

Lemma segment_not_dedicated id : ~ dedicated_name (segment_name id).
Proof. done. Qed.

Lemma digit_char_plain d : (0 <= d < 10)%Z -> Ascii.eqb (digit_char d) slash = false.
Proof.
  intros Hd. assert (d ∈ seqZ 0 10) as Hin by (apply elem_of_seqZ; lia).
  assert (forallb (fun d => negb (Ascii.eqb (digit_char d) slash)) (seqZ 0 10) = true) as Hall by reflexivity.
  rewrite forallb_forall in Hall. apply list_elem_of_In in Hin. specialize (Hall _ Hin). by destruct (Ascii.eqb _ _).
Qed.

(** No character is a separator. *)
Fixpoint plain (s : string) : bool :=
  match s with EmptyString => true | String c s => negb (Ascii.eqb c slash) && plain s end.

Lemma plain_app s t : plain (s +:+ t) = plain s && plain t.
Proof. induction s as [|c s IH]; [done|]. rewrite str_app_cons. cbn. by rewrite IH, andb_assoc. Qed.

Lemma split_plain s : plain s = true -> split_on slash s = [s].
Proof.
  induction s as [|c s IH]; [done|]. cbn. intros [Hc Hs]%andb_true_iff.
  destruct (Ascii.eqb c slash); [done|]. by rewrite IH.
Qed.

Lemma plain_digits k n : plain (dec_digits k n) = true.
Proof.
  induction k as [|k IH]; [done|]. cbn [dec_digits plain]. rewrite digit_char_plain by (apply Z.mod_pos_bound; lia). done.
Qed.

Lemma segment_name_valid id : validate_payload_name (segment_name id) = Ok tt.
Proof.
  assert (split_on slash (segment_name id) = [segment_name id]) as E.
  { apply split_plain. unfold segment_name. by rewrite !plain_app, plain_digits. }
  unfold validate_payload_name, path_components. rewrite E. reflexivity.
Qed.

Lemma linked_store w st n i : linked w n i -> linked (set_store st w) n i.
Proof. intros [? ? ?]. by split. Qed.

Lemma stage_store w st s : stage_ok w s -> stage_ok (set_store st w) s.
Proof.
  destruct s; cbn; try done; intros; destruct_and?; split_and!; try done; by apply linked_store.
Qed.

(** The active segment grows by the range a task gets. *)
Lemma owners_extend w a x g st len :
  owners_ok w a -> a x = Some Idle -> current_segment (pw_store w) = Some g -> (0 <= len)%Z ->
  (as_len g + len <= SEGMENT_TARGET_BYTES)%Z ->
  current_segment st = Some (MkSegment (as_name g) (as_file g) (as_len g + len)) ->
  owners_ok (set_store st w) (set_owner a x (Ranged (as_name g) (as_file g) (as_len g) len)).
Proof.
  intros Ho Hx Hg Hlen Hmax Hst. pose proof (oo_world _ _ Ho) as Hw.
  destruct (wo_segment _ Hw _ Hg) as (Hl & Hd & Hv & Hlink).
  eapply owners_move; [done..| | | |].
  - destruct Hw as [? ? ? ? ?]. split; try done. cbn. rewrite Hst. intros g' [= <-]. cbn. split_and!; try done; try lia.
    by apply linked_store.
  - cbn. split_and!; try done; try lia. by apply linked_store.
  - intros g'. cbn. rewrite Hst. intros [= <-]. cbn. split; [done|]. intros ? ? ? [= _ <- <-]. lia.
  - intros y s2 Hne Hy Hs2 Hb2 _. destruct (Hb2 _ Hg) as [Hi2 Hc2]. split_and!; [by apply stage_store|..].
    + intros g'. cbn. rewrite Hst. intros [= <-]. cbn. split; [done|]. intros n o l Hc. specialize (Hc2 _ _ _ Hc). lia.
    + split; split; cbn; try done.
      * intros n i o l Hc. split_and!; try done. intros o' l' [= <- <- <-]. right. by eapply Hc2.
      * intros n i o l [= <- <- <- <-]. split_and!; [|done|].
        -- intros E. destruct s2; cbn in *; naive_solver.
        -- intros o' l' Hr. destruct s2; cbn in *; simplify_eq. left. by eapply Hc2.
Qed.

Lemma owners_new_segment w a st n i :
  owners_ok w a -> dir w !! n = None -> inodes w !! i = None -> ~ dedicated_name n -> validate_payload_name n = Ok tt ->
  current_segment st = Some (MkSegment n i 0) ->
  owners_ok (set_fs (create_file n i (pw_fs w)) (set_store st w)) a.
Proof.
  intros Ho Hn Hi Hd Hv Hst. pose proof (oo_world _ _ Ho) as Hw.
  assert (world_ok (set_fs (create_file n i (pw_fs w)) w)) as Hw' by (apply world_create; done).
  split.
  - destruct Hw' as [? ? ? ? _]. split; try done. cbn. rewrite Hst. intros g [= <-]. cbn. split_and!; try done.
    by apply (linked_store (set_fs (create_file n i (pw_fs w)) w)), linked_new.
  - intros x s Hx. pose proof (oo_stage _ _ Ho _ _ Hx) as Hs.
    apply (stage_store (set_fs (create_file n i (pw_fs w)) w)), stage_create; try done.
    destruct s; cbn in *; try done; intros [= ->]; naive_solver.
  - intros x s Hx g. cbn. rewrite Hst. intros [= <-]. cbn.
    destruct (owner_inos _ _ _ (oo_stage _ _ Ho _ _ Hx) Hi) as [? Hc]. split; [done|]. intros n' o l E. by destruct (Hc n' o l).
  - apply Ho.
Qed.
