(* ===== verification/PayloadIntact.v ===== *)
(** * Payloads stay what they were

    However captures, sync rounds, reclamation and restarts interleave and fail, a
    payload that a record of the log refers to is there with the bytes its hash is of,
    until the log gives its name up. *)

From S2P Require Import Prelude ContentHash MountTypes Effects PayloadStore PayloadSystem PayloadOwners.
From Stdlib Require Import ZArith Lia.

Section intact.
Context {H : HashCrates} {L : HashLaws H} (alg : VfsHashAlgorithm) (target_linux : bool).

(** ** What each operation needs and gives *)

(** [None]: an answer the world never gives. *)
Abbreviation G := (option Stage).

Definition describes (p : PayloadRef) (data : bytes) : Prop :=
  length_ p = zlen data /\ payload_hash p = content_hash_of alg data /\ hash_algorithm p = algorithm_as_str alg.

Definition stage_pre (s : Stage) (A : Type) (e : PayloadE A) : Prop :=
  match e with
  | PReserveSegment len => s = Idle /\ (0 <= len <= MAX_SEGMENTED_PAYLOAD_BYTES)%Z
  | PUuid => s = Idle
  | PCreateNew name => s = Named name
  | PRemoveFile name => own_name s = Some name \/ exists c, s = Reclaiming c /\ name ∈ c
  | PWriteAll ino pos data =>
      (exists n b, s = Filling n ino (Exactly b) /\ pos = zlen b) \/ (exists n, s = Ranged n ino pos (zlen data))
  | PSetLen ino len => len = 0%Z /\ exists n k, s = Filling n ino k
  | PClone _ ino => exists n k, s = Filling n ino k
  | PCopyRange _ ino pos _ => (0 <= pos)%Z /\ exists n k, s = Filling n ino k
  | POpen name => forall n i k, s = Filling n i k -> name = n
  | PRegister name => exists i b, s = Filling name i (Exactly b)
  | PAppendRecord p =>
      exists n i o d, s = Written n i o d /\ storage_file (storage p) = n /\ storage_offset (storage p) = o /\ describes p d
  | _ => True
  end.

Definition pre (A : Type) (g : G) (e : PayloadE A) : Prop :=
  match g with Some s => stage_pre s A e | None => True end.

(** A file of at most 64 bits of length; a longer one does not exist. *)
Definition known (n : string) (i : nat) (k : bytes -> Known) (b : bytes) : G :=
  if (zlen b <=? U64_MAX)%Z then Some (Filling n i (k b)) else None.

Definition stage_upd (s : Stage) (A : Type) (e : PayloadE A) : A -> G :=
  match e in PayloadE A return A -> G with
  | PReserveSegment len => fun r =>
      match r with Ok v => Some (Ranged (sr_name v) (sr_file v) (sr_offset v) len) | Err _ => Some s end
  | PUuid => fun u => Some (Named (mint_dedicated_name u))
  | PCreateNew name => fun r => match r with Ok i => Some (Filling name i (Exactly [])) | Err _ => Some s end
  | PRemoveFile name => fun _ => match s with Reclaiming _ => Some s | _ => Some Idle end
  | PWriteAll ino pos data => fun r =>
      match s, r with
      | Filling n i (Exactly b), Ok _ => known n i Exactly (b ++ data)
      | Filling n i _, _ => Some (Filling n i (StartsWith []))
      | Ranged n i o l, Ok _ => Some (Written n i o data)
      | Ranged _ _ _ _, Err _ => Some Idle
      | _, _ => Some s
      end
  | PSetLen ino len => fun r =>
      match s, r with
      | Filling n i _, Ok _ => Some (Filling n i (Exactly []))
      | Filling n i _, Err _ => Some (Filling n i (StartsWith []))
      | _, _ => Some s
      end
  | PClone _ ino => fun _ => match s with Filling n i _ => Some (Filling n i (StartsWith [])) | _ => Some s end
  | PCopyRange _ ino _ _ => fun _ => match s with Filling n i _ => Some (Filling n i (StartsWith [])) | _ => Some s end
  | POpen name => fun r =>
      match s, r with
      | Filling n i _, Ok j => if decide (j = i) then Some (Filling n i (StartsWith [])) else None
      | _, _ => Some s
      end
  | PRead h pos want => fun r =>
      match s, h, r with
      | Filling n i (StartsWith b), InPayload j, Ok chunk =>
          if decide (j = i /\ pos = zlen b /\ (0 < want)%Z) then
            match chunk with [] => Some (Filling n i (Exactly b)) | _ => known n i StartsWith (b ++ chunk) end
          else Some s
      | _, _, _ => Some s
      end
  | PRegister name => fun _ => match s with Filling n i (Exactly b) => Some (Written n i 0 b) | _ => Some s end
  | PAppendRecord p => fun r => match r with Ok _ => Some Idle | Err _ => Some s end
  | _ => fun _ => Some s
  end.

Definition upd (A : Type) (g : G) (e : PayloadE A) (a : A) : G :=
  match g with Some s => stage_upd s A e a | None => None end.

Definition post (g : G) (_ : unit) : Prop := True.
Abbreviation ok := (prog_ok pre upd).

(** ** The invariant *)

(** What a record of the log relies on. *)
Inductive record_stage (w : PayloadWorld) (p : PayloadRef) : Stage -> Prop :=
| record_retired : storage_file (storage p) ∈ retired w -> record_stage w p Idle
| record_kept i d : describes p d ->
    record_stage w p (Written (storage_file (storage p)) i (storage_offset (storage p)) d).

Definition owners (γ : gmap nat (unit * G)) (ρ : list Stage) : Owners :=
  fun x => match x with
           | inl t => match γ !! t with Some (_, Some s) => Some s | _ => None end
           | inr k => ρ !! k
           end.

Record PInv (w : PayloadWorld) (γ : gmap nat (unit * G)) : Prop := {
  pi_possible : forall t g, γ !! t = Some (tt, g) -> g ≠ None;
  pi_owners : exists ρ, Forall2 (record_stage w) (records w) ρ /\ owners_ok w (owners γ ρ);
}.

Lemma owners_insert γ ρ t s :
  forall x, set_owner (owners γ ρ) (inl t) s x = owners (<[t := (tt, Some s)]> γ) ρ x.
Proof.
  intros [t'|k]; unfold set_owner, owners; [|by rewrite decide_False].
  destruct (decide (t' = t)) as [->|]; [by rewrite decide_True, lookup_insert_eq|].
  rewrite decide_False by congruence. by rewrite lookup_insert_ne.
Qed.

Lemma record_stage_mono w w' p s : retired w ⊆ retired w' -> record_stage w p s -> record_stage w' p s.
Proof. intros Hr [?|i d Hd]; [apply record_retired; set_solver|by apply record_kept]. Qed.

(** A step of task [t] to stage [s]. *)
Lemma pinv_step w γ t s0 s w' :
  PInv w γ -> γ !! t = Some (tt, Some s0) -> records w' = records w -> retired w ⊆ retired w' ->
  (forall a, owners_ok w a -> a (inl t) = Some s0 -> owners_ok w' (set_owner a (inl t) s)) ->
  PInv w' (<[t := (tt, Some s)]> γ).
Proof.
  intros [Hp (ρ & Hρ & Ho)] Ht Hrec Hret Hstep. split.
  - intros t' g. rewrite lookup_insert_Some. intros [[_ [= <-]]|[_ E]]; [done|eauto].
  - exists ρ. split; [rewrite Hrec; eapply Forall2_impl; [done|]; intros *; by apply record_stage_mono|].
    eapply owners_ok_ext; [apply owners_insert|]. apply Hstep; [done|]. cbn. by rewrite Ht.
Qed.

Lemma set_owner_same a x s : a x = Some s -> forall y, a y = set_owner a x s y.
Proof. intros E y. unfold set_owner. case_decide; by subst. Qed.

(** The stage does not change and the files look the same. *)
Lemma pinv_view w γ t s w' :
  PInv w γ -> γ !! t = Some (tt, Some s) -> records w' = records w -> same_view w w' ->
  PInv w' (<[t := (tt, Some s)]> γ).
Proof.
  intros Hp Ht Hrec Hv. eapply pinv_step; [done..|apply (sv_retired _ _ Hv)|].
  intros a Ho Ha. eapply owners_ok_ext; [by apply set_owner_same|]. by eapply owners_view.
Qed.

Lemma same_view_refl w : same_view w w.
Proof. split; try done. by left. Qed.

Lemma same_view_store w st :
  current_segment st = current_segment (pw_store w) \/ current_segment st = None -> same_view w (set_store st w).
Proof. intros Hc. by split. Qed.

(** Only the knowledge about a file changes. *)
Lemma owners_learn w a x n i k k' :
  owners_ok w a -> a x = Some (Filling n i k) ->
  (forall node, inodes w !! i = Some node -> knows k' (i_data node)) ->
  owners_ok w (set_owner a x (Filling n i k')).
Proof.
  intros Ho Hx Hk. pose proof (oo_stage _ _ Ho _ _ Hx) as (? & ? & ? & ? & ? & _).
  eapply owners_move; [done..|apply Ho|done| |].
  - intros g Hg. by destruct (oo_below _ _ Ho _ _ Hx g Hg).
  - intros y s2 _ _ Hs Hb [[] []]. split_and!; [done..|]. by split; split.
Qed.

Lemma owners_write_fill w a x n i b data node c landed r :
  owners_ok w a -> a x = Some (Filling n i (Exactly b)) -> inodes w !! i = Some node ->
  write_outcome (zlen b) data c = Some (landed, r) ->
  let w' := set_fs (set_data i (pwrite (i_data node) (zlen b) landed) (pw_fs w)) w in
  owners_ok w' (set_owner a x (Filling n i (match r with Ok _ => Exactly (b ++ data) | Err _ => StartsWith [] end))) /\
  (r = Ok tt -> (zlen (b ++ data) <= U64_MAX)%Z).
Proof.
  intros Ho Hx Hi Hw. pose proof (oo_stage _ _ Ho _ _ Hx) as (_ & _ & _ & _ & _ & Hk). specialize (Hk _ Hi). cbn in Hk.
  assert (pwrite (i_data node) (zlen b) landed = b ++ landed) as E.
  { rewrite Hk. unfold pwrite. destruct landed as [|l0 landed]; [by rewrite app_nil_r|].
    unfold zlen. rewrite Nat2Z.id. apply write_at_end. }
  assert ((zlen (b ++ landed) <= U64_MAX)%Z /\ (r = Ok tt -> landed = data)) as [Hb Hr].
  { rewrite zlen_app. unfold write_outcome in Hw. pose proof (wo_bound _ (oo_world _ _ Ho) _ _ Hi) as Hbound.
    rewrite Hk in Hbound. destruct c; try done; case_match; simplify_eq; unfold failed, zlen in *; cbn in *; split; try done; lia. }
  split; [|intros ->; by rewrite <- Hr].
  rewrite E. eapply owners_fill; [done..| |done]. destruct r as [[]|]; [by rewrite Hr|by exists (b ++ landed)].
Qed.

(** ** Every step keeps it *)

(** The step changes nothing the owners see. *)
Ltac same_files := eapply pinv_view; [done..|]; split; try done; first [by left|by right].
Ltac calls := repeat (case_match; simplify_eq; try done).

Lemma step_uuid w γ t c u w' :
  PInv w γ -> γ !! t = Some (tt, Some Idle) -> payload_handle _ PUuid w c = Some (u, w') ->
  PInv w' (<[t := (tt, Some (Named (mint_dedicated_name u)))]> γ).
Proof.
  intros Hp Ht E. cbn in E. destruct c; try done. destruct (bool_decide _ || _) eqn:Eb; [done|]. simplify_eq.
  apply orb_false_iff in Eb as [Eb1 Eb2]. apply negb_false_iff in Eb2.
  eapply pinv_step; [done..|by unfold retired|]. intros a Ho Ha. apply owners_name; try done; by eapply bool_decide_eq_false_1 || by eapply bool_decide_eq_true_1.
Qed.

Lemma step_create w γ t c n r w' :
  PInv w γ -> γ !! t = Some (tt, Some (Named n)) -> payload_handle _ (PCreateNew n) w c = Some (r, w') ->
  PInv w' (<[t := (tt, stage_upd (Named n) _ (PCreateNew n) r)]> γ).
Proof.
  intros Hp Ht E. cbn in E. unfold create_new in E. destruct c; try done; [destruct (fs_dir (pw_fs w) !! n) eqn:En|]; simplify_eq; cbn.
  - same_files.
  - eapply pinv_step; [done..|]. intros a Ho Ha. apply owners_create; try done. apply fresh_ino_spec.
  - same_files.
Qed.

Lemma step_reserve w γ t c len r w' :
  PInv w γ -> γ !! t = Some (tt, Some Idle) -> (0 <= len <= MAX_SEGMENTED_PAYLOAD_BYTES)%Z ->
  payload_handle _ (PReserveSegment len) w c = Some (r, w') ->
  PInv w' (<[t := (tt, stage_upd Idle _ (PReserveSegment len) r)]> γ).
Proof.
  intros Hp Ht Hlen E. cbn in E. unfold reserve_segment in E. destruct (rotates (pw_store w) len) eqn:Er.
  - unfold create_new in E. destruct c; try done; cbn in E.
    + destruct (fs_dir (pw_fs w) !! _) as [i|] eqn:En; cbn in E; simplify_eq; cbn.
      * same_files.
      * eapply pinv_step; [done..|]. intros a Ho Ha.
        set (g := MkSegment (segment_name (next_segment_id (pw_store w))) (fresh_ino (pw_fs w)) 0).
        set (st := MkStore (next_segment_id (pw_store w)) (Some g) (dirty (pw_store w)) (reserved (pw_store w))).
        match goal with |- owners_ok (set_fs ?fs (set_store ?st' w)) _ =>
          change (set_fs fs (set_store st' w)) with (set_store st' (set_fs fs (set_store st w))) end.
        eapply (owners_extend _ _ _ g); [|done|done|lia| |].
        -- apply (owners_new_segment w a st); try done; [apply fresh_ino_spec|apply segment_name_valid].
        -- unfold SEGMENT_TARGET_BYTES, MAX_SEGMENTED_PAYLOAD_BYTES in *. cbn. lia.
        -- cbn. rewrite sat_add_exact; [done|]. unfold MAX_SEGMENTED_PAYLOAD_BYTES, U64_MAX in *. lia.
    + simplify_eq. cbn. same_files.
  - unfold rotates in Er. destruct (current_segment (pw_store w)) as [g|] eqn:Eg; [|done]. simplify_eq. cbn.
    eapply pinv_step; [done..|]. intros a Ho Ha. destruct (wo_segment _ (oo_world _ _ Ho) _ Eg) as (Hl & _).
    assert (sat_add (as_len g) len = as_len g + len)%Z as Es.
    { apply sat_add_exact. unfold SEGMENT_TARGET_BYTES, MAX_SEGMENTED_PAYLOAD_BYTES, U64_MAX in *. lia. }
    eapply owners_extend; [done..|lia| |cbn; by rewrite Es].
    rewrite Es in Er. unfold SEGMENT_TARGET_BYTES, MAX_SEGMENTED_PAYLOAD_BYTES in *.
    apply andb_false_iff in Er as [Er|Er]; [apply Z.ltb_ge in Er|apply Z.ltb_ge in Er]; lia.
Qed.

Lemma step_write w γ t s c i pos data r w' :
  PInv w γ -> γ !! t = Some (tt, Some s) -> stage_pre s _ (PWriteAll i pos data) ->
  payload_handle _ (PWriteAll i pos data) w c = Some (r, w') ->
  PInv w' (<[t := (tt, stage_upd s _ (PWriteAll i pos data) r)]> γ).
Proof.
  intros Hp Ht Hpre E. cbn in E. destruct (inodes w !! i) as [node|] eqn:Ei; [|by destruct c].
  assert ((exists e, c = CcErr e /\ r = failed e /\ w' = w) \/
          exists landed, write_outcome pos data c = Some (landed, r) /\
            w' = set_fs (set_data i (pwrite (i_data node) pos landed) (pw_fs w)) w) as Hout.
  { destruct c; cbn [write_outcome] in E |- *; try (by left; eauto; simplify_eq; eauto); calls; right; eauto. }
  clear E. destruct Hpre as [(n & b & -> & ->)|(n & ->)]; cbn.
  - destruct Hout as [(e & -> & -> & ->)|(landed & Hw & ->)]; cbn.
    + eapply pinv_step; [done..|]. intros a Ho Ha. eapply owners_learn; [done..|]. intros nd _. cbn. by eexists.
    + assert (forall a, owners_ok w a -> a (inl t) = Some (Filling n i (Exactly b)) -> r = Ok tt -> (zlen (b ++ data) <= U64_MAX)%Z) as Hb.
      { intros a Ho Ha. by edestruct owners_write_fill as [_ ?]. }
      assert (exists a, owners_ok w a /\ a (inl t) = Some (Filling n i (Exactly b))) as (a0 & Ha0 & Ha1).
      { destruct (pi_owners _ _ Hp) as (ρ & _ & Ho). exists (owners γ ρ). split; [done|]. cbn. by rewrite Ht. }
      destruct r as [[]|e].
      * unfold known. rewrite (proj2 (Z.leb_le _ _)) by eauto.
        eapply pinv_step; [done..|]. intros a Ho Ha. by apply (owners_write_fill w a _ _ _ _ data node c landed (Ok tt)).
      * eapply pinv_step; [done..|]. intros a Ho Ha. by apply (owners_write_fill w a _ _ _ _ data node c landed (Err e)).
  - destruct Hout as [(e & -> & -> & ->)|(landed & Hw & ->)]; cbn.
    + eapply pinv_step; [done..|]. intros a Ho Ha. eapply owners_move; [done..|apply Ho|done|done|].
      intros y s2 _ _ ? ? _. split_and!; [done..|apply apart_idle].
    + assert (match r with Ok _ => Some (Written n i pos data) | Err _ => Some Idle end
              = Some (match r with Ok _ => Written n i pos data | Err _ => Idle end)) as -> by (by destruct r).
      eapply pinv_step; [done..|]. intros a Ho Ha. unfold write_outcome in Hw. pose proof (zlen_nonneg data).
      destruct c; try done; case_match; simplify_eq.
      * eapply owners_write_range; [done..|by left|by left].
      * eapply owners_write_range; [done..|right; lia|]. by right.
      * eapply owners_write_range; [done..| |right; lia|by left]. unfold zlen. rewrite length_take. lia.
Qed.

Lemma bytes_at_nil n pos want : (0 <= pos)%Z -> (0 < want)%Z -> bytes_at n pos want = [] -> (zlen (i_data n) <= pos)%Z.
Proof.
  intros Hp Hw E. apply (f_equal length) in E. unfold bytes_at in E. rewrite length_slice in E. cbn in E. unfold zlen. lia.
Qed.

Lemma bytes_at_prefix n b rest want k :
  i_data n = b ++ rest -> exists rest', i_data n = b ++ take k (bytes_at n (zlen b) want) ++ rest'.
Proof.
  intros E. unfold bytes_at, slice, zlen. rewrite Nat2Z.id, E, drop_app_length, take_take.
  exists (drop (Nat.min k (Z.to_nat want)) rest). by rewrite take_drop.
Qed.

(** What a read tells the task that fills the file. *)
Lemma read_learns n b want c r :
  (exists rest, i_data n = b ++ rest) -> (0 < want)%Z -> read_answer n (zlen b) want c = Some (Ok r) ->
  (r = [] /\ i_data n = b) \/ (r ≠ [] /\ exists rest, i_data n = (b ++ r) ++ rest).
Proof.
  intros [rest Hd] Hw Hr.
  assert (exists k, r = take k (bytes_at n (zlen b) want) /\ (r = [] -> bytes_at n (zlen b) want = [])) as (k & Er & Hnil).
  { unfold read_answer in Hr. destruct c; try done; destruct (i_regular n); simplify_eq.
    - exists (length (bytes_at n (zlen b) want)). by rewrite firstn_all.
    - eexists. split; [done|]. destruct (bytes_at n (zlen b) want); [done|]. by destruct n0. }
  destruct r as [|x r]; [left|right].
  - split; [done|]. pose proof (bytes_at_nil n (zlen b) want (zlen_nonneg b) Hw (Hnil eq_refl)) as Hl.
    rewrite Hd in *. rewrite zlen_app in Hl. destruct rest; [by rewrite app_nil_r|]. unfold zlen in Hl. cbn in Hl. lia.
  - split; [done|]. destruct (bytes_at_prefix n b rest want k Hd) as [rest' E]. exists rest'. by rewrite E, Er, app_assoc.
Qed.

Lemma step_read w γ t s c h pos want r w' :
  PInv w γ -> γ !! t = Some (tt, Some s) ->
  payload_handle _ (PRead h pos want) w c = Some (r, w') ->
  PInv w' (<[t := (tt, stage_upd s _ (PRead h pos want) r)]> γ).
Proof.
  intros Hp Ht E. cbn in E. destruct (node_of h w) as [n|] eqn:En; [|done].
  destruct (read_answer n pos want c) as [r'|] eqn:Er; [|done]. simplify_eq.
  assert (PInv w' (<[t := (tt, Some s)]> γ)) as Hsame by same_files.
  cbn. destruct s as [| |nm i [b|b]|nm i o l|nm i o d|cand]; try done. destruct h as [j|j]; try done.
  destruct r as [chunk|e]; [|done]. destruct (decide _) as [(-> & -> & Hw)|]; [|done]. cbn in En.
  assert (forall a, owners_ok w' a -> a (inl t) = Some (Filling nm i (StartsWith b)) ->
    (chunk = [] /\ i_data n = b) \/ (chunk ≠ [] /\ exists rest, i_data n = (b ++ chunk) ++ rest)) as Hlearn.
  { intros a Ho Ha. destruct (oo_stage _ _ Ho _ _ Ha) as (_ & _ & _ & _ & _ & Hk). by eapply read_learns; [apply Hk|..]. }
  destruct chunk as [|x chunk].
  - eapply pinv_step; [done..|]. intros a Ho Ha. eapply owners_learn; [done..|]. intros nd Hnd. cbn.
    destruct (Hlearn _ Ho Ha) as [[_ E]|[? _]]; [congruence|done].
  - destruct (pi_owners _ _ Hp) as (ρ & _ & Ho). assert (owners γ ρ (inl t) = Some (Filling nm i (StartsWith b))) as Ha by (cbn; by rewrite Ht).
    destruct (Hlearn _ Ho Ha) as [[? _]|[_ (rest & Erest)]]; [done|].
    pose proof (wo_bound _ (oo_world _ _ Ho) _ _ En) as Hb. rewrite Erest, zlen_app in Hb. pose proof (zlen_nonneg rest).
    unfold known. rewrite (proj2 (Z.leb_le _ _)) by lia.
    eapply pinv_step; [done..|]. intros a Hoa Haa. eapply owners_learn; [done..|]. intros nd Hnd. cbn. exists rest. congruence.
Qed.

(** The file is rewritten by the task that fills it. *)
Lemma step_fill w γ t n i k d k' :
  PInv w γ -> γ !! t = Some (tt, Some (Filling n i k)) -> knows k' d -> (zlen d <= U64_MAX)%Z ->
  PInv (set_fs (set_data i d (pw_fs w)) w) (<[t := (tt, Some (Filling n i k'))]> γ).
Proof. intros Hp Ht Hk Hd. eapply pinv_step; [done..|]. intros a Ho Ha. by eapply owners_fill. Qed.

Lemma step_forget_content w γ t n i k k' :
  PInv w γ -> γ !! t = Some (tt, Some (Filling n i k)) -> k' = StartsWith [] ->
  PInv w (<[t := (tt, Some (Filling n i k'))]> γ).
Proof.
  intros Hp Ht ->. eapply pinv_step; [done..|]. intros a Ho Ha. eapply owners_learn; [done..|]. intros nd _. by eexists.
Qed.

Lemma file_bound w γ i n : PInv w γ -> inodes w !! i = Some n -> (zlen (i_data n) <= U64_MAX)%Z.
Proof. intros Hp Hi. destruct (pi_owners _ _ Hp) as (ρ & _ & Ho). by apply (wo_bound _ (oo_world _ _ Ho) i). Qed.

Lemma step_rewrite w γ t s A (e : PayloadE A) c a w' :
  PInv w γ -> γ !! t = Some (tt, Some s) -> stage_pre s A e ->
  match e with PSetLen _ _ | PClone _ _ | PCopyRange _ _ _ _ => True | _ => False end ->
  payload_handle A e w c = Some (a, w') -> PInv w' (<[t := (tt, stage_upd s A e a)]> γ).
Proof.
  intros Hp Ht Hpre He E. destruct e; try done; cbn in Hpre, E.
  - destruct Hpre as (-> & n & k & ->). destruct (inodes w !! ino) as [node|] eqn:En; [|done].
    unfold call in E. destruct c; simplify_eq; cbn; [eapply step_fill|by eapply step_forget_content]; try done.
  - destruct Hpre as (n & k & ->). destruct (so_inodes _ !! src) as [node|]; [|done].
    destruct c; try done; [destruct (_ <? _)%Z eqn:Eb; [done|]|]; simplify_eq; cbn.
    + eapply step_fill; [done..| |lia]. by eexists.
    + by eapply step_forget_content.
  - destruct Hpre as (Hpos & n & k & ->). destruct (so_inodes _ !! src) as [node|]; [|done].
    destruct (inodes w !! ino) as [m|] eqn:Em; [|done].
    destruct c; try done; [|destruct (_ <? _)%Z eqn:Eb; [done|]]; simplify_eq; cbn; [by eapply step_forget_content|].
    eapply step_fill; [done..|by eexists|]. pose proof (file_bound _ _ _ _ Hp Em).
    pose proof (length_pwrite (i_data m) pos (take n0 (bytes_at node pos want)) Hpos). lia.
Qed.

Lemma step_open w γ t s c name r w' :
  PInv w γ -> γ !! t = Some (tt, Some s) -> stage_pre s _ (POpen name) ->
  payload_handle _ (POpen name) w c = Some (r, w') ->
  PInv w' (<[t := (tt, stage_upd s _ (POpen name) r)]> γ).
Proof.
  intros Hp Ht Hpre E. cbn in E, Hpre.
  assert (w' = w /\ forall i, r = Ok i -> dir w !! name = Some i) as [-> Hr].
  { unfold call, failed in E. destruct c; simplify_eq; split; try done. unfold dir. intros i. by case_match; intros; simplify_eq. }
  assert (PInv w (<[t := (tt, Some s)]> γ)) as Hsame by same_files.
  cbn. destruct s as [| |n i k| | |]; try done. rewrite (Hpre _ _ _ eq_refl) in Hr. destruct r as [j|e]; [|done].
  specialize (Hr j eq_refl). destruct (pi_owners _ _ Hp) as (ρ & _ & Ho).
  assert (owners γ ρ (inl t) = Some (Filling n i k)) as Ha by (cbn; by rewrite Ht).
  destruct (oo_stage _ _ Ho _ _ Ha) as (_ & _ & _ & _ & He & _).
  rewrite decide_True by (destruct He; congruence). by eapply step_forget_content.
Qed.

(** The owner of a name lets it go. *)
Lemma owners_drop w a x s n :
  owners_ok w a -> a x = Some s -> own_name s = Some n -> owners_ok w (set_owner a x Idle).
Proof.
  intros Ho Hx Hn. eapply owners_move; [done..|apply Ho|done|done|].
  intros y s2 _ _ ? ? _. split_and!; [done..|apply apart_idle].
Qed.

Lemma set_owner_idle_lookup a x y s : set_owner a x Idle y = Some s -> s = Idle \/ y ≠ x /\ a y = Some s.
Proof. unfold set_owner. case_decide; naive_solver. Qed.

Lemma step_remove w γ t s c name r w' :
  PInv w γ -> γ !! t = Some (tt, Some s) -> stage_pre s _ (PRemoveFile name) ->
  payload_handle _ (PRemoveFile name) w c = Some (r, w') ->
  PInv w' (<[t := (tt, stage_upd s _ (PRemoveFile name) r)]> γ).
Proof.
  intros Hp Ht Hpre E. cbn in E, Hpre.
  set (s' := match s with Reclaiming c => Reclaiming c | _ => Idle end).
  assert (stage_upd s _ (PRemoveFile name) r = Some s') as -> by (by destruct s).
  assert (w' = w \/ w' = set_fs (MkFs (fs_inodes (pw_fs w)) (delete name (fs_dir (pw_fs w))) (fs_dir_synced (pw_fs w))) w) as Hw.
  { unfold call in E. destruct c; simplify_eq; [|by left]. calls; auto. }
  clear E. eapply pinv_step; [done| |by destruct Hw as [->| ->]..|]; [done|]. intros a Ho Ha.
  assert (owners_ok w (set_owner a (inl t) s')) as Ho'.
  { destruct Hpre as [Hn|(cd & -> & _)]; [destruct s; try done; by eapply owners_drop|].
    eapply owners_ok_ext; [by apply set_owner_same|done]. }
  destruct Hw as [->| ->]; [done|]. destruct Hpre as [Hn|(cd & -> & Hin)].
  - assert (s' = Idle) as E by (by destruct s). rewrite E in *. pose proof (oo_stage _ _ Ho _ _ Ha) as Hst.
    assert (dedicated_name name) as Hded by (destruct s; cbn in *; naive_solver).
    apply owners_unlink; [done|..].
    + intros y s2 o i l Hy Hc. apply set_owner_idle_lookup in Hy as [->|[Hne Hy]]; [done|].
      destruct (oo_apart _ _ Ho (inl t) y _ _ ltac:(done) Ha Hy) as [[_ _ Hcl] _].
      destruct (Hcl _ _ _ _ Hc) as (Hno & _). congruence.
    + intros y i k Hy. apply set_owner_idle_lookup in Hy as [?|[Hne Hy]]; [done|].
      destruct (oo_apart _ _ Ho (inl t) y _ _ ltac:(done) Ha Hy) as [[Hnm _ _] _]. by destruct (Hnm _ Hn).
    + intros g Hg <-. by destruct (wo_segment _ (oo_world _ _ Ho) _ Hg) as (_ & ? & _).
  - assert (name ∈ retired w) as Hret by (by apply (oo_stage _ _ Ho _ _ Ha)).
    apply owners_unlink; try done.
Qed.

Lemma step_register w γ t s c name w' :
  PInv w γ -> γ !! t = Some (tt, Some s) -> stage_pre s _ (PRegister name) ->
  payload_handle _ (PRegister name) w c = Some (tt, w') ->
  PInv w' (<[t := (tt, stage_upd s _ (PRegister name) tt)]> γ).
Proof.
  intros Hp Ht (i & b & ->) E. cbn in E. simplify_eq. cbn. eapply pinv_step; [done..|]. intros a Ho Ha.
  set (w' := set_store _ w). assert (same_view w w') as Hv by (split; try done; by left).
  pose proof (oo_stage _ _ Ho _ _ Ha) as (Hd & Hval & Hm & Hl & He & Hk).
  eapply owners_move; [done..|by eapply world_view, Ho| | |].
  - cbn. split_and!; try done; [by eapply linked_view|]. intros node Hn. rewrite (Hk _ Hn).
    unfold slice. by rewrite drop_0, firstn_all.
  - intros g Hg. destruct (oo_below _ _ Ho _ _ Ha g Hg) as [Hne _]. cbn in *. split; [done|]. congruence.
  - intros y s2 _ _ Hs2 Hb2 [[Hnm Hio Hc] [Hnm2 Hio2 Hc2]]. split_and!; [by eapply stage_view|by eapply below_view|].
    split; split; cbn in *; try done. intros n' i' o' l' [= <- <- <- <-]. split_and!; [by intros ?%Hnm2|by intros ?%Hio2|].
    intros o' l' Hr. destruct s2; cbn in *; simplify_eq. by destruct (Hc _ _ _ _ eq_refl) as (_ & ? & _).
Qed.

(** Appending hands the payload from the task to the record. *)
Lemma step_append w γ t s c p r w' :
  PInv w γ -> γ !! t = Some (tt, Some s) -> stage_pre s _ (PAppendRecord p) ->
  payload_handle _ (PAppendRecord p) w c = Some (r, w') ->
  PInv w' (<[t := (tt, stage_upd s _ (PAppendRecord p) r)]> γ).
Proof.
  intros Hp Ht (n & i & o & d & -> & <- & <- & Hdes) E. cbn in E. unfold call in E.
  destruct c; simplify_eq; [|cbn; same_files]. cbn. destruct Hp as [Hps (ρ & Hρ & Ho)].
  set (s := Written _ _ _ _) in *. set (w' := set_log _ w).
  assert (same_view w w') as Hv by (split; try done; by left).
  split; [intros t' g; rewrite lookup_insert_Some; intros [[_ [= <-]]|[_ E]]; [done|eauto]|].
  exists (ρ ++ [s]). split.
  { apply Forall2_app; [eapply Forall2_impl; [done|]; intros *; by apply record_stage_mono|].
    constructor; [|constructor]. by apply record_kept. }
  apply (owners_view _ _ _ Hv). pose proof (Forall2_length _ _ _ Hρ) as Hlen. destruct Ho as [Hw Hs Hb Ha].
  (** the new owners are the old ones, the task's payload now being the record's *)
  set (f := fun x : nat + nat => if decide (x = inr (length ρ)) then inl t else x).
  assert (forall x s2, owners (<[t := (tt, Some Idle)]> γ) (ρ ++ [s]) x = Some s2 ->
    s2 = Idle \/ owners γ ρ (f x) = Some s2 /\ x ≠ inl t) as Hold.
  { intros [t'|k] s2; unfold owners, f.
    - destruct (decide (t' = t)) as [->|]; [rewrite lookup_insert_eq; intros [= <-]; by left|].
      rewrite lookup_insert_ne by done. intros E. right. rewrite decide_False by done. by split; [|congruence].
    - intros E. right. destruct (decide (k = length ρ)) as [->|Hk].
      + rewrite lookup_app_r, Nat.sub_diag in E by lia. cbn in E. rewrite decide_True by done. simplify_eq. by rewrite Ht.
      + rewrite decide_False by congruence. apply lookup_app_Some in E as [E|[? E]]; [done|].
        apply list_lookup_singleton_Some in E as [? _]. lia. }
  assert (forall x y, x ≠ inl t -> y ≠ inl t -> x ≠ y -> f x ≠ f y) as Hinj.
  { intros x y Hx Hy Hne. unfold f. repeat case_decide; congruence. }
  split; [done|..].
  - intros x s2 [->|[E _]]%Hold; [done|eauto].
  - intros x s2 [->|[E _]]%Hold; [done|eauto].
  - intros x y s2 s3 Hne [->|[E2 Hx]]%Hold [->|[E3 Hy]]%Hold; [apply apart_idle|apply apart_idle|apply stages_apart_sym, apart_idle|].
    by apply (Ha (f x) (f y)); [apply Hinj|..].
Qed.

Lemma payload_task w γ t u g A (e : PayloadE A) c a w' :
  PInv w γ -> γ !! t = Some (u, g) -> pre A g e -> payload_handle A e w c = Some (a, w') ->
  PInv w' (<[t := (u, upd A g e a)]> γ).
Proof.
  intros Hp Ht Hpre E. destruct u. destruct g as [s|]; [|by destruct (pi_possible _ _ Hp _ _ Ht)]. cbn in Hpre |- *.
  destruct e; try (by eapply step_rewrite; eauto; done);
    try (cbn in E; unfold call in E; calls; simplify_eq; cbn; same_files).
  - destruct Hpre as [-> ?]. by eapply step_reserve.
  - destruct a. by eapply step_register.
  - cbn in Hpre. subst s. by eapply step_uuid.
  - cbn in Hpre. subst s. by eapply step_create.
  - by eapply step_open.
  - by eapply step_remove.
  - by eapply step_read.
  - by eapply step_write.
  - cbn in E. unfold call in E. destruct c; simplify_eq; cbn; [|same_files].
    eapply pinv_view; [done..|]. split; try done; [|by left]. intros i. unfold inodes. cbn.
    destruct (decide (i = ino)) as [->|]; [rewrite lookup_alter_eq|by rewrite lookup_alter_ne].
    by destruct (fs_inodes (pw_fs w) !! ino).
  - by eapply step_append.
Qed.

(** ** The programs keep to their ranges *)

Lemma ok_impossible {R} (Q : G -> R -> Prop) (p : prog PayloadE R) : (forall r, Q None r) -> ok Q None p.
Proof. intros HQ. induction p as [r|A e k IH]; cbn; [done|]. split; [done|]. auto. Qed.

Lemma ok_do {A R} (Q : G -> R -> Prop) (e : PayloadE A) (k : A -> prog PayloadE R) s :
  (forall r, Q None r) -> stage_pre s A e -> (forall a s', stage_upd s A e a = Some s' -> ok Q (Some s') (k a)) ->
  ok Q (Some s) (Do e k).
Proof.
  intros HQ Hp Hk. split; [done|]. intros a. cbn. destruct (stage_upd s A e a) eqn:E; [by apply Hk|by apply ok_impossible].
Qed.

(** The hash state after [b]. *)
Definition hashed (h : ContentHasher) (b : bytes) : Prop :=
  exists chunks, h = foldl hasher_update (new_hasher alg) chunks /\ b = concat chunks.

Lemma hashed_new : hashed (new_hasher alg) [].
Proof. by exists []. Qed.
Lemma hashed_update h b chunk : hashed h b -> hashed (hasher_update h chunk) (b ++ chunk).
Proof.
  intros (chunks & -> & ->). exists (chunks ++ [chunk]). rewrite foldl_app, concat_app. cbn. by rewrite app_nil_r.
Qed.
Lemma hashed_finalize h b : hashed h b -> hasher_finalize h = content_hash_of alg b.
Proof.
  intros (chunks & -> & ->). unfold content_hash_of. rewrite hash_bytes_fst. apply hasher_chunks.
Qed.

Definition captured_ok (name : string) (g : G) (r : PResult CapturedFile) : Prop :=
  match g with
  | None => True
  | Some s =>
      match r with
      | Ok c => exists i b, s = Filling name i (Exactly b) /\ cf_length c = zlen b /\ cf_hash c = content_hash_of alg b
      | Err _ => own_name s = Some name
      end
  end.

Lemma known_Some n i k b s : known n i k b = Some s -> s = Filling n i (k b) /\ (zlen b <= U64_MAX)%Z.
Proof. unfold known. destruct (_ <=? _)%Z eqn:E; [|done]. intros [= <-]. split; [done|lia]. Qed.

Lemma captured_result n i b h :
  hashed h b -> captured_ok n (Some (Filling n i (Exactly b))) (Ok (captured (zlen b) h)).
Proof. intros Hh. exists i, b. split; [done|]. cbn. by rewrite (hashed_finalize _ _ Hh). Qed.

Lemma ok_hash_loop fuel n i b h :
  hashed h b -> ok (captured_ok n) (Some (Filling n i (StartsWith b))) (hash_loop fuel i (zlen b) h).
Proof.
  revert b h; induction fuel as [|fuel IH]; intros b h Hh; cbn [hash_loop]; [done|].
  apply ok_do; [done|done|]. cbn [stage_upd]. intros [chunk|e] s'; [|by intros [= <-]]. rewrite decide_True by done.
  destruct chunk as [|x chunk]; [intros [= <-]; cbn; by apply captured_result|].
  intros [-> Hb]%known_Some. rewrite sat_add_exact by (rewrite zlen_app in Hb; lia). cbn. rewrite <- zlen_app.
  apply IH. by apply hashed_update.
Qed.

Lemma ok_stream_loop fuel n src i b h :
  hashed h b -> ok (captured_ok n) (Some (Filling n i (Exactly b))) (stream_loop fuel src i (zlen b) h).
Proof.
  revert b h; induction fuel as [|fuel IH]; intros b h Hh; cbn [stream_loop]; [done|].
  apply ok_do; [done|done|]. cbn [stage_upd]. intros [chunk|e] s' [= <-]; [|done]. cbn.
  destruct chunk as [|x chunk]; [by apply captured_result|].
  apply ok_do; [done|left; eauto|]. cbn [stage_upd]. intros [[]|e] s'; [|by intros [= <-]].
  intros [-> Hb]%known_Some. rewrite sat_add_exact by (rewrite zlen_app in Hb; lia). cbn. rewrite <- zlen_app.
  apply IH. by apply hashed_update.
Qed.

Lemma ok_range_loop fuel n src i buffer offset len b h :
  hashed h b -> ok (captured_ok n) (Some (Filling n i (Exactly b))) (range_loop fuel src i buffer offset len (zlen b) h).
Proof.
  revert b h; induction fuel as [|fuel IH]; intros b h Hh; cbn [range_loop]; (case_match; [|by apply captured_result]); [done|].
  apply ok_do; [done|done|]. cbn [stage_upd]. intros [chunk|e] s' [= <-]; [|done]. cbn.
  destruct chunk as [|x chunk]; [done|].
  apply ok_do; [done|left; eauto|]. cbn [stage_upd]. intros [[]|e] s'; [|by intros [= <-]].
  intros [-> Hb]%known_Some. rewrite sat_add_exact by (rewrite zlen_app in Hb; lia). cbn. rewrite <- zlen_app.
  apply IH. by apply hashed_update.
Qed.

(** *** Copies *)

(** The task still fills the file [name], with some content. *)
Definition filling (name : string) (i : nat) (g : G) : Prop :=
  match g with None => True | Some s => exists k, s = Filling name i k end.

Definition copied_ok (name : string) (i : nat) (g : G) (r : PResult bool) : Prop :=
  filling name i g.

Lemma ok_copy_loop fuel n src i k copied len :
  (0 <= copied)%Z -> ok (copied_ok n i) (Some (Filling n i k)) (copy_loop fuel src i copied len).
Proof.
  revert k copied; induction fuel as [|fuel IH]; intros k cp Hc; cbn [copy_loop]; (case_match; [|by eexists]); [by eexists|].
  apply ok_do; [done|by split; [|eexists _, _]|]. cbn [stage_upd]. intros written s' [= <-]. cbn. case_match.
  - apply ok_do; [done|by split; [|eexists _, _]|]. cbn [stage_upd]. intros [[]|e] s' [= <-]; by eexists.
  - apply IH. unfold sat_add, U64_MAX. lia.
Qed.

Lemma ok_clone n src i k len : ok (copied_ok n i) (Some (Filling n i k)) (clone_or_copy_range target_linux src i len).
Proof.
  unfold clone_or_copy_range. case_match; [|by eexists].
  apply ok_do; [done|by exists n, k|]. cbn [stage_upd]. intros [] s' [= <-]; cbn; [by eexists|].
  case_match; [by eexists|]. by apply ok_copy_loop.
Qed.

Lemma ok_hash_captured fuel n i k : ok (captured_ok n) (Some (Filling n i k)) (hash_captured_file alg fuel n).
Proof.
  unfold hash_captured_file. apply ok_do; [done|by intros ? ? ? [= -> _ _]|]. cbn [stage_upd].
  intros [j|e] s'; [|by intros [= <-]]. destruct (decide (j = i)) as [->|]; [|done]. intros [= <-].
  cbn. apply (ok_hash_loop fuel n i []). apply hashed_new.
Qed.

Lemma ok_stream_capture fuel n src i k : ok (captured_ok n) (Some (Filling n i k)) (stream_capture alg fuel src i).
Proof.
  unfold stream_capture. apply ok_do; [done|by split; [|eexists _, _]|]. cbn [stage_upd].
  intros [[]|e] s' [= <-]; cbn; [|done]. apply (ok_stream_loop fuel n src i []). apply hashed_new.
Qed.

Lemma ok_capture_dedicated_file fuel source n expected :
  ok (captured_ok n) (Some (Named n)) (capture_dedicated_file alg target_linux fuel source n expected).
Proof.
  unfold capture_dedicated_file. apply ok_do; [done|done|]. cbn [stage_upd]. intros [src|e] s' [= <-]; [|done]. cbn beta iota.
  apply ok_do; [done|done|]. cbn [stage_upd]. intros [len|e] s' [= <-]; [|done]. cbn beta iota. case_match; [done|].
  apply ok_do; [done|done|]. cbn [stage_upd]. intros [i|e] s' [= <-]; [|done]. cbn beta iota.
  eapply prog_ok_try; [apply ok_clone| |by intros [s|] e; [intros [k ->]|]].
  intros [s|] copied; [intros [k ->]|intros _; by apply ok_impossible].
  eapply prog_ok_try; [destruct copied; [apply ok_hash_captured|apply ok_stream_capture]| |by intros [s|] e].
  intros [s|] r; [|intros _; by apply ok_impossible]. intros (j & b & -> & ? & ?). case_match; [done|]. cbn. eauto.
Qed.

Lemma ok_capture_dedicated_range source n offset len :
  ok (captured_ok n) (Some (Named n)) (capture_dedicated_range alg source n offset len).
Proof.
  unfold capture_dedicated_range. apply ok_do; [done|done|]. cbn [stage_upd]. intros [src|e] s' [= <-]; [|done]. cbn beta iota.
  apply ok_do; [done|done|]. cbn [stage_upd]. intros [i|e] s' [= <-]; [|done].
  apply (ok_range_loop _ n src i _ offset len []). apply hashed_new.
Qed.

(** *** Captures *)

(** The task holds the payload the reference is to, or nothing. *)
Definition holds_ref (g : G) (r : PResult PayloadRef) : Prop :=
  match g with
  | None => True
  | Some s =>
      match r with
      | Ok p => exists n i o d, s = Written n i o d /\ storage_file (storage p) = n /\ storage_offset (storage p) = o /\ describes p d
      | Err _ => True
      end
  end.

Lemma ok_reserve_dedicated {R} (Q : G -> R -> Prop) (k : string -> Payload R) :
  (forall r, Q None r) -> (forall n, ok Q (Some (Named n)) (k n)) -> ok Q (Some Idle) (name ← reserve_dedicated; k name).
Proof.
  intros HQ Hk. apply ok_do; [done|done|]. cbn [stage_upd]. intros u s' [= <-].
  apply ok_do; [done|done|]. cbn [stage_upd]. intros [] s' [= <-]. apply Hk.
Qed.

Lemma ok_discard {R} (Q : G -> R -> Prop) s n (k : unit -> Payload R) :
  own_name s = Some n -> (forall r, Q None r) -> ok Q (Some Idle) (k tt) -> ok Q (Some s) (u ← discard_partial n; k u).
Proof.
  intros Hn HQ Hk. apply ok_do; [done|done|]. cbn [stage_upd]. intros [] s' [= <-].
  apply ok_do; [done|by left|]. cbn [stage_upd]. intros r s'. destruct s; cbn in Hn; try done; by intros [= <-].
Qed.

Lemma ok_keep_capture g n r :
  captured_ok n g r -> ok (fun g r => holds_ref g (kept ← r; Ok kept.1)) g (keep_capture alg n r).
Proof.
  destruct g as [s|]; [|intros _; by apply ok_impossible]. intros Hc. destruct r as [c|e]; cbn [keep_capture].
  - destruct Hc as (i & b & -> & Hl & Hh). apply ok_do; [done|by eexists _, _|]. cbn [stage_upd]. intros [] s' [= <-].
    by exists n, i, 0%Z, b.
  - eapply ok_discard; done.
Qed.

Lemma ok_capture_bytes data : ok holds_ref (Some Idle) (capture_bytes alg data).
Proof.
  unfold capture_bytes. case_match eqn:Emax.
  - apply ok_reserve_dedicated; [done|]. intros n. unfold write_dedicated_bytes.
    apply ok_do; [done|done|]. cbn [stage_upd]. intros [i|e] s' [= <-]; [|by eapply ok_discard].
    apply ok_do; [done|left; by exists n, []|]. cbn [stage_upd].
    intros [[]|e] s'; [intros [-> Hb]%known_Some|intros [= <-]; by eapply ok_discard].
    apply ok_do; [done|by eexists _, _|]. cbn [stage_upd]. intros [] s' [= <-]. cbn. by exists n, i, 0%Z, data.
  - apply ok_do; [done|split; [done|pose proof (zlen_nonneg data); lia]|]. cbn [stage_upd].
    intros [res|e] s' [= <-]; [|done]. cbn beta iota. apply ok_do; [done|right; by eexists|]. cbn [stage_upd].
    intros [[]|e] s' [= <-]; [|done]. cbn. by exists (sr_name res), (sr_file res), (sr_offset res), data.
Qed.

Lemma ok_capture fuel source : ok holds_ref (Some Idle) (capture alg target_linux fuel source).
Proof.
  destruct source as [data|path|path offset len]; cbn [capture].
  - apply ok_capture_bytes.
  - eapply (prog_ok_try _ _ (fun g r => holds_ref g (kept ← r; Ok kept.1))); [|by intros [s|] [p h]|by intros [s|] e].
    apply ok_reserve_dedicated; [done|]. intros n.
    eapply prog_ok_seq; [apply ok_capture_dedicated_file|]. intros g r. apply ok_keep_capture.
  - unfold capture_range. apply ok_reserve_dedicated; [done|]. intros n.
    eapply prog_ok_seq; [apply ok_capture_dedicated_range|]. intros g r Hr.
    eapply prog_ok_try; [by apply ok_keep_capture|by intros [s|] [p h]|by intros [s|] e].
Qed.

Lemma ok_capture_and_append fuel source :
  ok (fun _ _ => True) (Some Idle) (capture_and_append alg target_linux fuel source).
Proof.
  eapply prog_ok_try; [apply ok_capture| |done].
  intros [s|] p; [|intros _; by apply ok_impossible]. intros Hs. apply ok_do; [done|exact Hs|done].
Qed.

Lemma ok_with_snapshot source len : ok (fun _ _ => True) (Some Idle) (with_snapshot alg source len).
Proof.
  eapply (prog_ok_try _ _ (fun g r => match g, r with Some s, Ok c => own_name s = Some (cs_name c) | _, _ => True end)); [| |done].
  - unfold capture_snapshot. apply ok_reserve_dedicated; [by intros []|]. intros n.
    eapply prog_ok_seq; [apply ok_capture_dedicated_range|]. intros [s|] r Hr; [|apply ok_impossible; by intros []].
    destruct r as [c|e]; [by destruct Hr as (i & b & -> & _)|]. by eapply ok_discard.
  - intros [s|] c; [|intros _; by apply ok_impossible]. intros Hs. by eapply ok_discard.
Qed.

(** *** Programs that write no payload *)

Definition quiet {R} (s : Stage) (p : Payload R) : Prop := ok (fun g _ => g = None \/ g = Some s) (Some s) p.

(** An operation that any task may perform and that changes no ownership. *)
Definition harmless {A} (s : Stage) (e : PayloadE A) : Prop := stage_pre s A e /\ forall a, stage_upd s A e a = Some s.

Lemma quiet_ret {R} s (r : R) : quiet s (Ret r).
Proof. by right. Qed.
Lemma quiet_do {A R} s (e : PayloadE A) (k : A -> Payload R) : harmless s e -> (forall a, quiet s (k a)) -> quiet s (Do e k).
Proof. intros [Hp Hu] Hk. apply ok_do; [by left|done|]. intros a s'. rewrite Hu. intros [= <-]. apply Hk. Qed.
Lemma quiet_perform {A} s (e : PayloadE A) : harmless s e -> quiet s (perform e).
Proof. intros He. apply quiet_do; [done|]. intros a. apply quiet_ret. Qed.
Lemma quiet_bind {A B} s (m : Payload A) (f : A -> Payload B) : quiet s m -> (forall a, quiet s (f a)) -> quiet s (m ≫= f).
Proof.
  intros Hm Hf. eapply prog_ok_seq; [apply Hm|]. intros g a [->| ->]; [apply ok_impossible; by left|apply Hf].
Qed.
Lemma quiet_try {A B} s (m : Payload (PResult A)) (f : A -> Payload (PResult B)) :
  quiet s m -> (forall a, quiet s (f a)) -> quiet s (try_bind m f).
Proof. intros Hm Hf. apply quiet_bind; [done|]. intros [a|e]; [apply Hf|apply quiet_ret]. Qed.
Lemma quiet_each {A} s (xs : list A) (f : A -> Payload (PResult unit)) : (forall x, x ∈ xs -> quiet s (f x)) -> quiet s (try_each xs f).
Proof.
  induction xs as [|x xs IH]; intros Hf; [apply quiet_ret|]. apply quiet_try; [apply Hf; by left|]. intros _.
  apply IH. intros y Hy. apply Hf. by right.
Qed.
Lemma quiet_fold {A B} s (f : B -> A -> Payload (PResult B)) acc (xs : list A) :
  (forall b x, x ∈ xs -> quiet s (f b x)) -> quiet s (try_fold f acc xs).
Proof.
  revert acc; induction xs as [|x xs IH]; intros acc Hf; [apply quiet_ret|]. apply quiet_try; [apply Hf; by left|]. intros b.
  apply IH. intros c y Hy. apply Hf. by right.
Qed.

(** Follow a program through its branches. *)
Ltac quietly :=
  repeat first
    [ progress intros | apply quiet_ret | (apply quiet_perform; by split) | (apply quiet_try) | (apply quiet_bind)
    | apply quiet_each | apply quiet_fold | case_match ].

Lemma quiet_reader_read r buffer : quiet Idle (reader_read r buffer).
Proof. unfold reader_read. quietly. Qed.

Lemma quiet_read_to_end fuel r acc : quiet Idle (read_to_end fuel r acc).
Proof.
  revert r acc; induction fuel as [|fuel IH]; intros r acc; cbn [read_to_end]; [quietly|].
  apply quiet_try; [apply quiet_reader_read|]. intros [[|x chunk] r']; [quietly|apply IH].
Qed.

Lemma quiet_verify_loop fuel r h len : quiet Idle (verify_loop fuel r h len).
Proof.
  revert r h len; induction fuel as [|fuel IH]; intros r h len; cbn [verify_loop]; [quietly|].
  apply quiet_try; [apply quiet_reader_read|]. intros [[|x chunk] r']; [quietly|apply IH].
Qed.

Lemma quiet_open_reader p : quiet Idle (open_reader p).
Proof. unfold open_reader. quietly. Qed.

Lemma quiet_hash_range_loop fuel src offset len done_ h : quiet Idle (hash_range_loop fuel src offset len done_ h).
Proof.
  revert done_ h; induction fuel as [|fuel IH]; intros done_ h; cbn [hash_range_loop]; (case_match; [|quietly]); [quietly|].
  apply quiet_try; [quietly|]. intros [|x chunk]; [quietly|apply IH].
Qed.

Lemma quiet_scan_directory : quiet Idle scan_directory.
Proof. unfold scan_directory. quietly. unfold scan_entry. quietly. Qed.

Lemma quiet_sync_to sequence : quiet Idle (sync_to sequence).
Proof.
  unfold sync_to, sync_round, sync_dirty. quietly. unfold restore_dirty. quietly.
Qed.

Lemma quiet_reclaim candidates : quiet (Reclaiming candidates) (reclaim candidates).
Proof.
  unfold reclaim. quietly. unfold reclaim_one. quietly.
  apply quiet_perform. split; [|done]. right. eexists. split; [done|].
  match goal with Hx : _ ∈ sorted_strings _ |- _ => by apply elem_of_sorted_strings in Hx end.
Qed.

(** ** The invariant holds *)

Lemma quiet_ok s (p : Payload unit) : quiet s p -> ok post (Some s) p.
Proof. apply prog_ok_mono. done. Qed.

Lemma forget_ok {A} (Q : G -> A -> Prop) g (m : Payload A) : ok Q g m -> ok post g (forget m).
Proof. intros Hm. eapply prog_ok_seq; [done|]. done. Qed.

Lemma quiet_verify p : quiet Idle (verify alg p).
Proof.
  unfold verify. case_match; [apply quiet_ret|]. apply quiet_try; [apply quiet_open_reader|]. intros rd.
  apply quiet_try; [apply quiet_verify_loop|]. intros [h l]. quietly.
Qed.

Lemma quiet_read_all p : quiet Idle (read_all p).
Proof.
  apply quiet_try; [apply quiet_open_reader|]. intros rd. apply quiet_try; [apply quiet_read_to_end|]. quietly.
Qed.

Lemma quiet_hash_file_range h source offset len : quiet Idle (hash_file_range h source offset len).
Proof. apply quiet_try; [quietly|]. intros src. apply quiet_hash_range_loop. Qed.

(** What a task owns when it starts. *)
Definition fresh_stage (w : PayloadWorld) (s : Stage) : Prop := s = Idle \/ exists c, s = Reclaiming c /\ c ⊆ retired w.

Lemma starts_idle {A} (Q : G -> A -> Prop) (m : Payload A) w :
  ok Q (Some Idle) m -> exists s, ok post (Some s) (forget m) /\ fresh_stage w s.
Proof. intros Hm. exists Idle. split; [by eapply forget_ok|by left]. Qed.

Lemma starts_ok t p w : payload_starts alg target_linux t p w -> exists s, ok post (Some s) p /\ fresh_stage w s.
Proof.
  destruct 1 as [fuel source w|source len w|sequence w|w|p w|p w|w|w|h source offset len w|cd w Hc].
  - eapply starts_idle, ok_capture_and_append.
  - eapply starts_idle, ok_with_snapshot.
  - eapply starts_idle, quiet_sync_to.
  - eapply starts_idle, quiet_perform. by split.
  - eapply starts_idle, quiet_verify.
  - eapply starts_idle, quiet_read_all.
  - eapply starts_idle, (quiet_try Idle); [apply quiet_scan_directory|]. quietly.
  - eapply starts_idle, (quiet_try Idle); [apply quiet_scan_directory|]. quietly.
  - eapply starts_idle, quiet_hash_file_range.
  - exists (Reclaiming cd). split; [eapply forget_ok, quiet_reclaim|right; eauto].
Qed.

Lemma pinv_start w γ t s :
  PInv w γ -> γ !! t = None -> fresh_stage w s ->
  PInv w (<[t := (tt, Some s)]> γ).
Proof.
  intros [Hp (ρ & Hρ & Ho)] Ht Hs. split.
  - intros t' g. rewrite lookup_insert_Some. intros [[_ [= <-]]|[_ E]]; [done|eauto].
  - exists ρ. split; [done|]. eapply owners_ok_ext; [apply owners_insert|]. destruct Ho as [Hw Hst Hb Ha].
    assert (stage_ok w s /\ below w s /\ forall s2, apart s s2) as (H1 & H2 & H3).
    { destruct Hs as [->|(c & -> & Hc)]; [by split_and!; [..|apply apart_idle]|by split_and!; [..|apply apart_reclaiming]]. }
    split; [done|..]; unfold set_owner.
    + intros x s2. case_decide; [by intros [= <-]|eauto].
    + intros x s2. case_decide; [by intros [= <-]|eauto].
    + intros x y s2 s3 Hne. repeat case_decide; subst; try done; [intros [= <-] _; auto|intros _ [= <-]; by apply stages_apart_sym|by apply Ha].
Qed.

Lemma pinv_env w γ w' : PInv w γ -> payload_env w w' -> PInv w' γ.
Proof.
  intros [Hp (ρ & Hρ & Ho)] He. split; [done|]. exists ρ.
  assert (same_view w w' /\ records w' = records w) as [Hv Hrec].
  { destruct He; (split; [|done]); (split; try done; [..|by left]); unfold retired; set_solver. }
  split; [rewrite Hrec; eapply Forall2_impl; [done|]; intros *; apply record_stage_mono, Hv|by eapply owners_view].
Qed.

Lemma pinv_restart w γ u : PInv w γ -> PInv (restart w) (filter (fun kv => kv.2.1 ≠ u) γ).
Proof.
  intros [Hp (ρ & Hρ & Ho)]. rewrite filter_unit. split; [by intros t g; rewrite lookup_empty|]. exists ρ.
  assert (same_view w (restart w)) as Hv by (split; try done; by right).
  split; [eapply Forall2_impl; [done|]; intros *; by apply record_stage_mono|].
  apply (owners_view _ _ _ Hv) in Ho as [Hw Hs Hb Ha].
  split; [done|..]; [intros [t|k] s|intros [t|k] s|intros [t|k] [t'|k'] s s' Hne]; cbn; rewrite ?lookup_empty; try done.
  - apply (Hs (inr k)).
  - by apply (Ha (inr k) (inr k')).
Qed.

Lemma pinv_init w : payload_init w -> PInv w ∅.
Proof.
  intros (Hf & Hst & Hn & Hl). split; [by intros t g; rewrite lookup_empty|]. exists []. split.
  { unfold records. by rewrite Hl. }
  split; [split|..]; unfold inodes, dir; rewrite ?Hf; cbn; try done; try (by intros [t|k]; cbn; rewrite ?lookup_empty).
  - intros n _ [i E]. by rewrite lookup_empty in E.
  - by rewrite Hst.
Qed.

Lemma payload_rules : InvariantRules payload_handle (payload_starts alg target_linux) payload_env (fun _ => restart) pre upd post PInv payload_init.
Proof.
  split.
  - apply pinv_init.
  - intros *. apply payload_task.
  - intros w γ t [] p Hp Ht (s & Hok & Hs)%starts_ok. exists (Some s). split; [done|]. by apply pinv_start.
  - apply pinv_env.
  - intros w γ u Hp. by apply pinv_restart.
Qed.
End intact.
