(* ===== verification/PayloadReads.v ===== *)
(** * Reading payloads back

    A file that holds a range is read back through the bounded reader, whatever the
    size of each read; with [PayloadIntact.v], every record's payload is. *)

From S2P Require Import Prelude ContentHash MountTypes Effects PayloadStore PayloadSystem PayloadOwners PayloadIntact.
From Stdlib Require Import ZArith Lia.

Section reads.
Context {H : HashCrates} {L : HashLaws H} (alg : VfsHashAlgorithm).
Abbreviation wp := (wp_prog payload_handle).
Abbreviation run := (prog_run payload_handle).

(** The result is right, or a system call failed. *)
Definition or_io {A} (r : PResult A) (a : A) : Prop := r = Ok a \/ exists what, r = Err (PIo what).

(** ** One file *)

Section file.
Context (w : PayloadWorld) (i : nat) (node : Inode).
Context (Hi : inodes w !! i = Some node) (Hreg : i_regular node = true).

(** The rest of a range, from a reader's position. *)
Definition rest_of (r : PayloadReader) : bytes := slice (Z.to_nat (rd_pos r)) (Z.to_nat (rd_remaining r)) (i_data node).

Definition reader_ok (r : PayloadReader) : Prop :=
  rd_file r = i /\ (0 <= rd_pos r)%Z /\ (0 <= rd_remaining r)%Z /\ (rd_pos r + rd_remaining r <= zlen (i_data node))%Z.

Definition advance (r : PayloadReader) (chunk : bytes) : PayloadReader :=
  MkReader (rd_file r) (rd_pos r + zlen chunk) (sat_sub (rd_remaining r) (zlen chunk)).

(** A chunk is the next part of the rest, and is not empty before the end. *)
Definition next_chunk (r : PayloadReader) (chunk : bytes) : Prop :=
  reader_ok (advance r chunk) /\ rest_of r = chunk ++ rest_of (advance r chunk) /\
  rd_remaining r = (zlen chunk + rd_remaining (advance r chunk))%Z.

Lemma take_next_chunk r k :
  reader_ok r -> (k <= Z.to_nat (rd_remaining r)) ->
  next_chunk r (slice (Z.to_nat (rd_pos r)) k (i_data node)) /\ zlen (slice (Z.to_nat (rd_pos r)) k (i_data node)) = Z.of_nat k.
Proof.
  intros (Hf & Hp & Hr & Hl) Hk. unfold zlen in Hl.
  assert (length (slice (Z.to_nat (rd_pos r)) k (i_data node)) = k) as Hlen by (rewrite length_slice; lia).
  unfold next_chunk, reader_ok, rest_of, advance, zlen. cbn. rewrite Hlen. unfold sat_sub.
  rewrite Z.max_r by lia. split_and!; try lia.
  unfold slice. replace (Z.to_nat (rd_pos r + Z.of_nat k)) with (Z.to_nat (rd_pos r) + k) by lia.
  replace (Z.to_nat (rd_remaining r)) with (k + Z.to_nat (rd_remaining r - Z.of_nat k)) by lia.
  by rewrite <- drop_drop, take_take_drop.
Qed.

Lemma read_chunk r want c a :
  reader_ok r -> (0 < rd_remaining r)%Z -> (0 < want <= rd_remaining r)%Z ->
  read_answer node (rd_pos r) want c = Some a ->
  (exists what, a = Err (PIo what)) \/ exists chunk, a = Ok chunk /\ chunk ≠ [] /\ next_chunk r chunk.
Proof.
  intros Hok Hrem Hw Ha. unfold read_answer in Ha. rewrite Hreg in Ha.
  assert (forall k, 0 < k <= Z.to_nat want -> exists chunk, @Ok PayloadError bytes (slice (Z.to_nat (rd_pos r)) k (i_data node)) = Ok chunk /\ chunk ≠ [] /\ next_chunk r chunk) as Hgive.
  { intros k Hk. destruct (take_next_chunk r k Hok) as [Hn Hl]; [lia|]. eexists. split_and!; [done| |done].
    intros E. rewrite E in Hl. unfold zlen in Hl. cbn in Hl. lia. }
  destruct c; try done; simplify_eq; [right; by apply Hgive; lia|left; by eexists|right].
  unfold bytes_at, slice. rewrite take_take. apply Hgive. lia.
Qed.

Lemma wp_reader_read r buffer :
  reader_ok r -> (0 < buffer)%Z ->
  wp (reader_read r buffer) (fun res w' => w' = w /\
    ((exists what, res = Err (PIo what)) \/ (rd_remaining r = 0%Z /\ res = Ok ([], r)) \/
     exists chunk, res = Ok (chunk, advance r chunk) /\ chunk ≠ [] /\ next_chunk r chunk)) w.
Proof.
  intros Hok Hb. unfold reader_read. destruct (_ || _) eqn:E.
  { cbn. split; [done|]. right. left. split; [|done]. apply orb_true_iff in E as [E|E]; apply Z.eqb_eq in E; lia. }
  apply orb_false_iff in E as [E _]. apply Z.eqb_neq in E. pose proof Hok as (Hf & ? & ? & ?).
  intros c a w'. cbn [payload_handle node_of]. rewrite Hf, Hi.
  destruct (read_answer _ _ _ _) as [a'|] eqn:Ea; [|done]. intros [= <- <-].
  destruct (read_chunk r (Z.min (rd_remaining r) buffer) c a' Hok ltac:(lia) ltac:(lia) Ea) as [[what ->]|(chunk & -> & Hne & Hn)]; cbn.
  - split; [done|]. left. by eexists.
  - split; [done|]. right. right. exists chunk. rewrite <- Hf. done.
Qed.

Lemma rest_empty r : rd_remaining r = 0%Z -> rest_of r = [].
Proof. intros E. unfold rest_of, slice. by rewrite E. Qed.

Lemma chunk_shrinks r chunk fuel :
  next_chunk r chunk -> chunk ≠ [] -> Z.to_nat (rd_remaining r) < S fuel -> Z.to_nat (rd_remaining (advance r chunk)) < fuel.
Proof.
  intros (Hok & _ & E) Hne Hf. destruct Hok as (_ & _ & Hr & _). destruct chunk; [done|]. unfold zlen in E. cbn [length] in E. lia.
Qed.

Lemma wp_read_to_end fuel r acc :
  reader_ok r -> Z.to_nat (rd_remaining r) < fuel ->
  wp (read_to_end fuel r acc) (fun res w' => w' = w /\ or_io res (acc ++ rest_of r)) w.
Proof.
  revert r acc; induction fuel as [|fuel IH]; intros r acc Hok Hf; [lia|]. cbn [read_to_end].
  destruct (decide (rd_remaining r = 0%Z)) as [E0|E0].
  { unfold reader_read. rewrite E0. cbn. split; [done|]. left. by rewrite rest_empty, app_nil_r. }
  apply wp_try_bind. eapply wp_prog_mono; [|apply wp_reader_read; [done|destruct Hok; lia]]. cbn.
  intros res w' [-> [[what ->]|[[? _]|(chunk & -> & Hne & Hn)]]]; [split; [done|]; right; by eexists|done|].
  destruct chunk as [|x chunk]; [done|]. eapply wp_prog_mono; [|apply IH; [apply Hn|by eapply chunk_shrinks]].
  cbn beta. destruct Hn as (_ & -> & _). by rewrite app_assoc.
Qed.

Lemma wp_verify_loop fuel r h b :
  reader_ok r -> Z.to_nat (rd_remaining r) < fuel -> hashed alg h b -> (zlen b + rd_remaining r <= U64_MAX)%Z ->
  wp (verify_loop fuel r h (zlen b))
    (fun res w' => w' = w /\ ((exists what, res = Err (PIo what)) \/
       exists h', res = Ok (h', (zlen b + rd_remaining r)%Z) /\ hashed alg h' (b ++ rest_of r))) w.
Proof.
  revert r h b; induction fuel as [|fuel IH]; intros r h b Hok Hf Hh Hb; [lia|]. cbn [verify_loop].
  destruct (decide (rd_remaining r = 0%Z)) as [E0|E0].
  { unfold reader_read. rewrite E0. cbn. split; [done|]. right. exists h. by rewrite rest_empty, app_nil_r, Z.add_0_r. }
  apply wp_try_bind. eapply wp_prog_mono; [|by apply wp_reader_read]. cbn beta.
  intros res w' [-> [[what ->]|[[? _]|(chunk & -> & Hne & Hn)]]]; [split; [done|]; left; by eexists|done|].
  destruct chunk as [|x chunk]; [done|]. pose proof Hn as ((_ & _ & ? & _) & Erest & Erem).
  rewrite sat_add_exact by lia. rewrite <- zlen_app.
  eapply wp_prog_mono; [|apply IH; [apply Hn|by eapply chunk_shrinks|by apply hashed_update|rewrite zlen_app; lia]].
  cbn beta. rewrite Erest, zlen_app, <- app_assoc. intros r0 w0 [-> [?|(h' & -> & ?)]]; (split; [done|]); [by left|right].
  exists h'. split; [|done]. do 2 f_equal. lia.
Qed.

(** Reads that return all they are asked for get through. *)
Lemma run_reader_read r buffer :
  reader_ok r -> (0 < buffer)%Z -> (0 < rd_remaining r)%Z ->
  exists chunk, run (reader_read r buffer) w [CcOk] = Some (Ok (chunk, advance r chunk), w) /\ chunk ≠ [] /\ next_chunk r chunk.
Proof.
  intros Hok Hb Hr. pose proof (wp_reader_read r buffer Hok Hb) as Hwp. unfold reader_read in *.
  rewrite (proj2 (Z.eqb_neq _ _)) in * by lia. rewrite (proj2 (Z.eqb_neq buffer 0)) in * by lia. cbn [orb] in *.
  cbn [try_bind perform mbind prog_mbind prog_bind wp_prog prog_run payload_handle node_of] in *.
  pose proof Hok as (Hf & _). rewrite Hf, Hi in *. unfold read_answer in *. rewrite Hreg in *.
  specialize (Hwp CcOk _ _ eq_refl) as [_ [[? [=]]|[[? _]|(chunk & E & ?)]]]; [lia|]. exists chunk. split; [|done].
  cbn in E |- *. by rewrite E.
Qed.

Lemma run_read_to_end fuel r acc :
  reader_ok r -> Z.to_nat (rd_remaining r) < fuel ->
  exists cs, run (read_to_end fuel r acc) w cs = Some (Ok (acc ++ rest_of r), w).
Proof.
  revert r acc; induction fuel as [|fuel IH]; intros r acc Hok Hf; [lia|]. cbn [read_to_end].
  destruct (decide (rd_remaining r = 0%Z)) as [E0|E0].
  { exists []. unfold reader_read. rewrite E0. cbn. by rewrite rest_empty, app_nil_r. }
  destruct (run_reader_read r (rd_remaining r)) as (chunk & Hrun & Hne & Hn); [done|destruct Hok; lia..|].
  destruct (IH (advance r chunk) (acc ++ chunk)) as [cs Hcs]; [apply Hn|by eapply chunk_shrinks|].
  exists (CcOk :: cs). unfold try_bind. change (CcOk :: cs) with ([CcOk] ++ cs). erewrite prog_run_seq by exact Hrun.
  destruct chunk as [|x chunk]; [done|]. rewrite Hcs. destruct Hn as (_ & -> & _). by rewrite app_assoc.
Qed.

Lemma run_verify_loop fuel r h b :
  reader_ok r -> Z.to_nat (rd_remaining r) < fuel -> hashed alg h b -> (zlen b + rd_remaining r <= U64_MAX)%Z ->
  exists cs h', run (verify_loop fuel r h (zlen b)) w cs = Some (Ok (h', (zlen b + rd_remaining r)%Z), w) /\ hashed alg h' (b ++ rest_of r).
Proof.
  revert r h b; induction fuel as [|fuel IH]; intros r h b Hok Hf Hh Hb; [lia|]. cbn [verify_loop].
  destruct (decide (rd_remaining r = 0%Z)) as [E0|E0].
  { exists [], h. unfold reader_read. rewrite E0. cbn. by rewrite rest_empty, app_nil_r, Z.add_0_r. }
  destruct (run_reader_read r COPY_BUFFER_BYTES) as (chunk & Hrun & Hne & Hn); [done|done|destruct Hok; lia|].
  pose proof Hn as ((_ & _ & ? & _) & Erest & Erem).
  destruct (IH (advance r chunk) (hasher_update h chunk) (b ++ chunk)) as (cs & h' & Hcs & Hh');
    [apply Hn|by eapply chunk_shrinks|by apply hashed_update|rewrite zlen_app; lia|].
  exists (CcOk :: cs), h'. unfold try_bind. change (CcOk :: cs) with ([CcOk] ++ cs). erewrite prog_run_seq by exact Hrun.
  destruct chunk as [|x chunk]; [done|]. rewrite sat_add_exact, <- zlen_app by lia. rewrite Hcs, Erest, app_assoc.
  split; [|done]. rewrite zlen_app, Erem. do 4 f_equal. lia.
Qed.
End file.

(** ** One payload *)

(** The bytes [p] refers to are there. *)
Record present (w : PayloadWorld) (p : PayloadRef) (data : bytes) : Prop := {
  pr_name : validate_payload_name (storage_file (storage p)) = Ok tt;
  pr_file : exists i node, dir w !! storage_file (storage p) = Some i /\ inodes w !! i = Some node /\ i_regular node = true /\
    (0 <= storage_offset (storage p))%Z /\ (storage_offset (storage p) + zlen data <= zlen (i_data node) <= U64_MAX)%Z /\
    slice (Z.to_nat (storage_offset (storage p))) (length data) (i_data node) = data;
  pr_describes : describes alg p data;
}.

Lemma open_present w p data :
  present w p data ->
  exists node, let r := MkReader (default 0 (dir w !! storage_file (storage p))) (storage_offset (storage p)) (length_ p) in
    inodes w !! rd_file r = Some node /\ i_regular node = true /\ reader_ok (rd_file r) node r /\ rest_of node r = data /\
    (length_ p <= U64_MAX)%Z /\
    wp (open_reader p) (fun res w' => w' = w /\ or_io res r) w /\ run (open_reader p) w [CcOk; CcOk] = Some (Ok r, w).
Proof.
  intros [Hn (i & node & Hd & Hi & Hr & Ho & Hl & Hs) (Hlen & _)]. exists node. cbn zeta. rewrite Hd. cbn [default rd_file].
  pose proof (zlen_nonneg data).
  assert (checked_add (storage_offset (storage p)) (length_ p) = Some (storage_offset (storage p) + length_ p)%Z) as Hc
    by (apply checked_add_exact; lia).
  assert ((zlen (i_data node) <? storage_offset (storage p) + length_ p)%Z = false) as Hb by (apply Z.ltb_ge; lia).
  split_and!; try done; try lia.
  - unfold reader_ok. cbn. split_and!; lia.
  - unfold rest_of. cbn. rewrite Hlen. unfold zlen. by rewrite Nat2Z.id.
  - unfold open_reader. rewrite Hn. cbn. intros c a w'. unfold call. unfold dir in Hd. rewrite Hd.
    destruct c; intros [= <- <-]; cbn; [|split; [done|right; by eexists]]. rewrite Hc. cbn. intros c a w'. rewrite Hi. unfold call.
    destruct c; intros [= <- <-]; cbn; [|split; [done|right; by eexists]]. rewrite Hb. cbn. split; [done|by left].
  - unfold open_reader. rewrite Hn. cbn. unfold dir in Hd. rewrite Hd. cbn. rewrite Hc. cbn. rewrite Hi. cbn. by rewrite Hb.
Qed.

Lemma read_present w p data :
  present w p data ->
  wp (read_all p) (fun res w' => w' = w /\ or_io res data) w /\ exists cs, run (read_all p) w cs = Some (Ok data, w).
Proof.
  intros Hp. pose proof (pr_describes _ _ _ Hp) as (Hlen & _).
  destruct (open_present _ _ _ Hp) as (node & Hi & Hr & Hok & Hrest & _ & Hwp & Hrun). cbn zeta in *.
  set (r := MkReader _ _ _) in *. assert (Z.to_nat (rd_remaining r) < S (Z.to_nat (length_ p))) as Hfuel by (cbn; lia).
  split.
  - unfold read_all. apply wp_try_bind. eapply wp_prog_mono; [|exact Hwp]. intros res w' [-> [->|[what ->]]]; [|split; [done|right; by eexists]].
    apply wp_try_bind. eapply wp_prog_mono; [|by apply (wp_read_to_end w (rd_file r) node)].
    rewrite Hrest, app_nil_l. intros res w' [-> [->|[what ->]]]; [|split; [done|right; by eexists]].
    rewrite Hlen, Z.eqb_refl. split; [done|by left].
  - destruct (run_read_to_end w (rd_file r) node Hi Hr (S (Z.to_nat (length_ p))) r []) as [cs Hcs]; [done..|].
    exists ([CcOk; CcOk] ++ cs ++ []). unfold read_all, try_bind. erewrite prog_run_seq by exact Hrun.
    cbn beta iota. erewrite prog_run_seq by exact Hcs. cbn beta iota. rewrite Hrest, app_nil_l, Hlen, Z.eqb_refl. done.
Qed.

Lemma verify_present w p data :
  present w p data ->
  wp (verify alg p) (fun res w' => w' = w /\ or_io res tt) w /\ exists cs, run (verify alg p) w cs = Some (Ok tt, w).
Proof.
  intros Hp. pose proof (pr_describes _ _ _ Hp) as (Hlen & Hhash & Halg).
  destruct (open_present _ _ _ Hp) as (node & Hi & Hr & Hok & Hrest & Hbound & Hwp & Hrun). cbn zeta in *.
  set (r := MkReader _ _ _) in *. assert (Z.to_nat (rd_remaining r) < S (Z.to_nat (length_ p))) as Hfuel by (cbn; lia).
  assert (forall h, hashed alg h data -> String.eqb (hasher_finalize h) (payload_hash p) = true) as Hfin.
  { intros h Hh. rewrite (hashed_finalize alg _ _ Hh), Hhash. apply String.eqb_refl. }
  unfold verify. rewrite Halg, String.eqb_refl. cbn [negb]. split.
  - apply wp_try_bind. eapply wp_prog_mono; [|exact Hwp]. intros res w' [-> [->|[what ->]]]; [|split; [done|right; by eexists]].
    apply wp_try_bind. eapply wp_prog_mono; [|by apply (wp_verify_loop w (rd_file r) node Hi Hr _ r (new_hasher alg) []); [..|apply hashed_new|]].
    rewrite Hrest, app_nil_l. intros res w' [-> [[what ->]|(h & -> & Hh)]]; [split; [done|right; by eexists]|].
    cbn [rd_remaining r]. rewrite Z.add_0_l, Z.eqb_refl. cbn [negb]. rewrite (Hfin _ Hh). split; [done|by left].
  - destruct (run_verify_loop w (rd_file r) node Hi Hr (S (Z.to_nat (length_ p))) r (new_hasher alg) []) as (cs & h & Hcs & Hh);
      [done..|apply hashed_new|done|].
    exists ([CcOk; CcOk] ++ cs ++ []). unfold try_bind. erewrite prog_run_seq by exact Hrun.
    cbn beta iota. erewrite prog_run_seq by exact Hcs. cbn beta iota. rewrite Hrest in Hh. cbn [rd_remaining r]. change (zlen []) with 0%Z.
    rewrite Z.add_0_l, Z.eqb_refl. cbn [negb]. rewrite (Hfin _ Hh). done.
Qed.

(** ** Every payload of the log *)

Lemma record_present target_linux s p :
  payload_reachable alg target_linux s -> p ∈ records (world s) -> storage_file (storage p) ∉ retired (world s) ->
  is_dedicated (storage p) = true \/ (0 < length_ p)%Z -> exists data, present (world s) p data.
Proof.
  intros Hr Hp Hret Hne. destruct (system_invariant _ _ _ _ _ _ _ _ _ s (payload_rules alg target_linux) Hr) as (γ & HI & _).
  destruct (pi_owners _ _ _ HI) as (ρ & Hρ & Ho). apply list_elem_of_lookup in Hp as [k Hk].
  destruct (Forall2_lookup_l _ _ _ _ _ Hρ Hk) as (st & Hst & Hrec). destruct Hrec as [?|i d Hd]; [done|].
  destruct (oo_stage _ _ Ho (inr k) _ Hst) as (Ho0 & _ & Hval & [(node & Hi & Hreg) He _] & Hs).
  specialize (Hs _ Hi). exists d. split; [done| |done]. exists i, node. split_and!; try done.
  - by destruct He.
  - destruct Hd as (Hlen & _). destruct Hne as [Hded|Hpos].
    + destruct (storage p); [done|]. cbn in *. apply (f_equal length) in Hs. rewrite length_slice in Hs. unfold zlen. lia.
    + apply (f_equal length) in Hs. rewrite length_slice in Hs. unfold zlen in *. lia.
  - by apply (wo_bound _ (oo_world _ _ Ho) i).
Qed.

(** C8: However captures, sync rounds, sealing, reclamation, guest writes and restarts
    interleave and fail, the payload of a record can be read back and verified until
    the log gives its file up: reading returns the bytes its hash is of, or reports a
    failed system call, and verification never finds a mismatch. The payload has a file
    of its own or is not empty: an empty range of a segment that was never written to is
    refused ([empty_payload_unreadable]). A file is given up by name and for good, so
    a record in a segment that takes the name of one given up is not covered. *)
Theorem payload_read_back target_linux s p :
  payload_reachable alg target_linux s -> p ∈ records (world s) -> storage_file (storage p) ∉ retired (world s) ->
  is_dedicated (storage p) = true \/ (0 < length_ p)%Z ->
  exists data, length_ p = zlen data /\ payload_hash p = content_hash_of alg data /\
    (forall cs r w', run (read_all p) (world s) cs = Some (r, w') -> or_io r data) /\
    (forall cs r w', run (verify alg p) (world s) cs = Some (r, w') -> or_io r tt) /\
    (exists cs, run (read_all p) (world s) cs = Some (Ok data, world s)) /\
    exists cs, run (verify alg p) (world s) cs = Some (Ok tt, world s).
Proof.
  intros Hr Hp Hret Hne. destruct (record_present _ _ _ Hr Hp Hret Hne) as [data Hd]. exists data.
  destruct (pr_describes _ _ _ Hd) as (? & ? & _). destruct (read_present _ _ _ Hd) as [Hrd Hrc].
  destruct (verify_present _ _ _ Hd) as [Hvd Hvc]. split_and!; try done.
  - intros cs r w' Hrun. by apply (wp_prog_run _ _ _ _ _ _ _ Hrd) in Hrun as [_ ?].
  - intros cs r w' Hrun. by apply (wp_prog_run _ _ _ _ _ _ _ Hvd) in Hrun as [_ ?].
Qed.
End reads.
