(* ===== verification/PayloadDurable.v ===== *)
(** * Payloads survive a power loss

    A sync round takes the set of files written since the last one, syncs them, and
    then the log; what it reports covers only records appended before it took the set.
    For payloads in files of their own that is enough: once the round reports a record,
    its payload is on the device. *)

From S2P Require Import Prelude ContentHash MountTypes Effects PayloadStore PayloadSystem PayloadOwners PayloadIntact.
From Stdlib Require Import ZArith Lia.

Section durable.
Context {H : HashCrates} {L : HashLaws H} (alg : VfsHashAlgorithm) (target_linux : bool).
Abbreviation describes := (describes alg).

(** ** The leader of a round *)

(** [todo] are the files it has yet to sync, [entry] whether the directory is. *)
Inductive Lead :=
| LNone
| LEntered
| LMarked (m : Z)
| LTaken (m : Z) (d : DirtyPayloads) (todo : gset string) (entry : bool)
| LOpened (m : Z) (d : DirtyPayloads) (todo : gset string) (entry : bool) (name : string) (ino : nat)
| LLogged (m : Z)
| LRestored.

Global Instance leads_dec (l : Lead) : Decision (l = LNone).
Proof. destruct l; [by left|by right..]. Defined.

Definition taken (l : Lead) : Prop := exists m d todo entry, l = LTaken m d todo entry.

Definition lead_pre (A : Type) (l : Lead) (e : PayloadE A) : Prop :=
  match e with
  | PTakeDirty => exists m, l = LMarked m
  | PExtendDirty d => exists m todo entry, l = LTaken m d todo entry
  | PWatermark => l = LEntered
  | PSyncLog n => exists d, l = LTaken n d ∅ false
  | PSyncLeave o =>
      match o with
      | Ok n => l = LLogged n
      | Err _ => l = LRestored \/ exists m d, l = LTaken m d ∅ false
      end
  | PSyncData i => l = LNone \/ exists m d todo entry name, l = LOpened m d todo entry name i
  | PSyncDir => l = LNone \/ taken l
  | POpen name => l = LNone \/ exists m d todo entry, l = LTaken m d todo entry /\ name ∈ files d
  | _ => l = LNone
  end.

Definition lead_upd (A : Type) (l : Lead) (e : PayloadE A) : A -> Lead :=
  match e in PayloadE A return A -> Lead with
  | PTakeDirty => fun d => match l with LMarked m => LTaken m d (files d) (directory_dirty d) | _ => l end
  | PExtendDirty _ => fun _ => LRestored
  | PWatermark => fun m => LMarked m
  | PSyncLog n => fun r => match r with Ok _ => LLogged n | Err _ => l end
  | PSyncEnter _ => fun r => match r with Some _ => LNone | None => LEntered end
  | PSyncLeave _ => fun _ => LNone
  | PSyncData i => fun r =>
      match l, r with
      | LOpened m d todo entry name _, Ok _ => LTaken m d (todo ∖ {[name]}) entry
      | LOpened m d todo entry _ _, Err _ => LTaken m d todo entry
      | _, _ => l
      end
  | PSyncDir => fun r => match l, r with LTaken m d todo _, Ok _ => LTaken m d todo false | _, _ => l end
  | POpen name => fun r => match l, r with LTaken m d todo entry, Ok i => LOpened m d todo entry name i | _, _ => l end
  | _ => fun _ => l
  end.

Definition left_of (l : Lead) : gset string :=
  match l with LTaken _ _ todo _ | LOpened _ _ todo _ _ _ => todo | _ => ∅ end.
Definition files_of (l : Lead) : gset string :=
  match l with LTaken _ d _ _ | LOpened _ d _ _ _ _ => files d | _ => ∅ end.
Definition entry_of (l : Lead) : bool :=
  match l with LTaken _ _ _ e | LOpened _ _ _ e _ _ => e | _ => false end.

(** ** What is on the device *)

Definition dur_data (w : PayloadWorld) (n : string) : Prop :=
  exists i node, dir w !! n = Some i /\ inodes w !! i = Some node /\ i_synced node = i_data node.
Definition dur_entry (w : PayloadWorld) (n : string) : Prop :=
  exists i, dir w !! n = Some i /\ fs_dir_synced (pw_fs w) !! n = Some i.
Definition on_device (w : PayloadWorld) (n : string) : Prop := dur_data w n /\ dur_entry w n.

Definition boot (w : PayloadWorld) : nat := lg_boot (pw_log w).
Definition store_dirty (w : PayloadWorld) : DirtyPayloads := dirty (pw_store w).
Global Arguments boot : simpl never.
Global Arguments store_dirty : simpl never.

Abbreviation Tasks := (gmap nat (unit * (option Stage * Lead))).

(** Record [k] is one of this process and refers to a file of its own that the log has
    not given up. *)
Definition rec_wanted (w : PayloadWorld) (k : nat) (p : PayloadRef) : Prop :=
  boot w <= k /\ records w !! k = Some p /\ storage_file (storage p) ∉ retired w /\ dedicated_name (storage_file (storage p)).

Inductive wanted (w : PayloadWorld) (γ : Tasks) (n : string) : Prop :=
| wanted_task t i o d l :
    n ∉ retired w -> dedicated_name n -> γ !! t = Some (tt, (Some (Written n i o d), l)) -> wanted w γ n
| wanted_record k p : rec_wanted w k p -> n = storage_file (storage p) -> wanted w γ n.

Definition some_lead (γ : Tasks) (Q : Lead -> Prop) : Prop := exists t g l, γ !! t = Some (tt, (g, l)) /\ Q l.

Definition covered (w : PayloadWorld) (γ : Tasks) (n : string) : Prop :=
  (dur_data w n \/ n ∈ files (store_dirty w) \/ some_lead γ (fun l => n ∈ left_of l)) /\
  (dur_entry w n \/ directory_dirty (store_dirty w) = true \/ some_lead γ (fun l => entry_of l = true)).

Definition below_mark (w : PayloadWorld) (m : Z) (Q : string -> Prop) : Prop :=
  forall k p, rec_wanted w k p -> (Z.of_nat k < m)%Z -> Q (storage_file (storage p)).

Definition lead_ok (w : PayloadWorld) (l : Lead) : Prop :=
  match l with
  | LMarked m => (m <= zlen (records w))%Z
  | LTaken m d todo e | LOpened m d todo e _ _ =>
      (m <= zlen (records w))%Z /\ todo ⊆ files d /\ (e = true -> directory_dirty d = true) /\
      below_mark w m (fun n => (dur_data w n \/ n ∈ todo) /\ (dur_entry w n \/ e = true)) /\
      match l with LOpened _ _ _ _ name i => name ∈ files d /\ (dir w !! name = Some i \/ name ∈ retired w) | _ => True end
  | LLogged m =>
      below_mark w m (on_device w) /\ (m <= zlen (records w))%Z /\ (m <= Z.of_nat (lg_synced (pw_log w)))%Z
  | _ => True
  end.

(** Names a sync round has, or will have, to sync; they are of files that are written. *)
Definition tracked (w : PayloadWorld) (γ : Tasks) (n : string) : Prop :=
  n ∈ files (store_dirty w) \/ some_lead γ (fun l => n ∈ files_of l).
Definition unowned (γ : Tasks) (n : string) : Prop :=
  forall t s l, γ !! t = Some (tt, (Some s, l)) -> own_name s ≠ Some n.

Record DInv (w : PayloadWorld) (γ : Tasks) : Prop := {
  di_one : forall t t' g g' l l', γ !! t = Some (tt, (g, l)) -> γ !! t' = Some (tt, (g', l')) ->
    l ≠ LNone -> l' ≠ LNone -> t = t';
  di_flight : forall t g l, γ !! t = Some (tt, (g, l)) -> l ≠ LNone -> lg_in_flight (pw_log w) = true;
  di_cover : forall n, wanted w γ n -> covered w γ n;
  di_lead : forall t g l, γ !! t = Some (tt, (g, l)) -> lead_ok w l;
  di_names : forall n, tracked w γ n -> dedicated_name n -> n ∈ minted w /\ unowned γ n;
  di_reported : below_mark w (lg_durable (pw_log w)) (on_device w);
  di_max : (lg_durable (pw_log w) <= zlen (records w))%Z;
  di_log : forall k, boot w <= k -> (Z.of_nat k < lg_durable (pw_log w))%Z -> k < lg_synced (pw_log w);
}.

(** ** The two bookkeepings together *)

Definition stages (γ : Tasks) : gmap nat (unit * option Stage) := (fun x => (x.1, x.2.1)) <$> γ.

Lemma stages_lookup γ t g l : γ !! t = Some (tt, (g, l)) -> stages γ !! t = Some (tt, g).
Proof. intros E. unfold stages. by rewrite lookup_fmap, E. Qed.

Lemma stages_inv γ t g : stages γ !! t = Some (tt, g) -> exists l, γ !! t = Some (tt, (g, l)).
Proof. unfold stages. rewrite lookup_fmap. destruct (γ !! t) as [[[] [g' l]]|]; [|done]. intros [= ->]. eauto. Qed.

Lemma stages_insert γ t g l : stages (<[t := (tt, (g, l))]> γ) = <[t := (tt, g)]> (stages γ).
Proof. unfold stages. by rewrite fmap_insert. Qed.

(** A wanted payload is in its file, and nobody may remove or change the file. *)
Record held (w : PayloadWorld) (γ : Tasks) (n : string) : Prop := {
  he_kept : n ∉ retired w;
  he_file : exists i node, dir w !! n = Some i /\ inodes w !! i = Some node /\
    forall t s l, γ !! t = Some (tt, (Some s, l)) -> own_ino s ≠ Some i /\ forall o len, own_range s ≠ Some (i, o, len);
  he_free : unowned γ n;
}.

Lemma owner_held w γ n i o d ρ x :
  owners_ok w (owners (stages γ) ρ) -> owners (stages γ) ρ x = Some (Written n i o d) -> n ∉ retired w -> dedicated_name n -> held w γ n.
Proof.
  intros Ho Hx Hr Hd. destruct (oo_stage _ _ Ho _ _ Hx) as (_ & _ & _ & [(node & Hi & _) He _] & _).
  assert (dir w !! n = Some i) as Hn by (by destruct He).
  assert (forall t s l, γ !! t = Some (tt, (Some s, l)) ->
    own_name s ≠ Some n /\ own_ino s ≠ Some i /\ forall o len, own_range s ≠ Some (i, o, len)) as Hall.
  { intros t s l Ht. apply stages_lookup in Ht. assert (owners (stages γ) ρ (inl t) = Some s) as Ht' by (cbn; by rewrite Ht).
    destruct (decide (x = inl t)) as [->|Hne]; [rewrite Hx in Ht'; by simplify_eq|].
    destruct (oo_apart _ _ Ho _ _ _ _ (not_eq_sym Hne) Ht' Hx) as [[_ _ Hc] _]. destruct (Hc _ _ _ _ eq_refl) as (? & ? & _).
    split_and!; try done. intros o' len E. destruct s; cbn in E; simplify_eq.
    destruct (oo_stage _ _ Ho _ _ Ht') as (_ & _ & Hnd & _ & [_ _ Honly]). by rewrite (Honly _ Hn) in Hd. }
  split; [done| |by intros t s l Ht; eapply Hall]. exists i, node. split_and!; try done. intros t s l Ht. by destruct (Hall _ _ _ Ht) as (_ & ? & ?).
Qed.

Lemma wanted_held w γ n : PInv alg w (stages γ) -> wanted w γ n -> held w γ n.
Proof.
  intros [_ (ρ & Hρ & Ho)] [t i o d l Hr Hd Ht|k p (Hk & Hp & Hr & Hd) ->].
  - apply stages_lookup in Ht. assert (owners (stages γ) ρ (inl t) = Some (Written n i o d)) as Hx by (cbn; by rewrite Ht).
    by eapply owner_held.
  - destruct (Forall2_lookup_l _ _ _ _ _ Hρ Hp) as (s & Hs & Hrec). destruct Hrec as [?|i d Hdes]; [done|].
    by eapply owner_held with (x := inr k).
Qed.

(** ** The device keeps what it has *)

Lemma step_retired A (e : PayloadE A) w c a w' : payload_handle A e w c = Some (a, w') -> retired w' = retired w.
Proof. destruct e; cbn; unfold create_new, call; intros; repeat (case_match; simplify_eq); simplify_eq; try done. Qed.

Lemma dir_create_kept n n' c fs r fs' i :
  create_new n' fs c = Some (r, fs') -> fs_dir fs !! n = Some i -> fs_dir fs' !! n = Some i.
Proof.
  unfold create_new. destruct c; try done; [destruct (fs_dir fs !! n') eqn:E|]; intros; simplify_eq; try done.
  cbn. rewrite lookup_insert_ne; congruence.
Qed.

(** The entry of a held name stays. *)
Lemma dir_kept w γ t s l A (e : PayloadE A) c a w' n i :
  PInv alg w (stages γ) -> γ !! t = Some (tt, (Some s, l)) -> stage_pre alg s A e -> n ∉ retired w -> unowned γ n ->
  payload_handle A e w c = Some (a, w') -> dir w !! n = Some i -> dir w' !! n = Some i.
Proof.
  intros Hp Ht Hpre Hret Hun E Hn. destruct e; try (cbn in E; unfold call in E; repeat (case_match; simplify_eq); simplify_eq; done).
  - cbn in E. destruct (rotates _ _); [|by destruct (reserve_segment _ _ _); simplify_eq].
    destruct (create_new _ _ _) as [[r fs']|] eqn:Ec; [|done]. destruct (reserve_segment _ _ _). simplify_eq.
    by eapply dir_create_kept.
  - cbn in E. destruct (create_new _ _ _) as [[r fs']|] eqn:Ec; [|done]. simplify_eq. by eapply dir_create_kept.
  - assert (name ≠ n) as Hne.
    { intros ->. destruct Hpre as [Hown|(cd & -> & Hin)]; [by destruct (Hun _ _ _ Ht)|].
      destruct (pi_owners _ _ _ Hp) as (ρ & _ & Ho). apply stages_lookup in Ht.
      assert (owners (stages γ) ρ (inl t) = Some (Reclaiming cd)) as Hx by (cbn; by rewrite Ht).
      pose proof (oo_stage _ _ Ho _ _ Hx) as Hsub. cbn in Hsub. by apply Hret, Hsub. }
    cbn in E. unfold call in E. unfold dir in *. repeat (case_match; simplify_eq); try done. cbn. by rewrite lookup_delete_ne.
Qed.

(** A file nobody owns keeps its content; what is synced of it changes only when it is
    synced. *)
Lemma file_kept s A (e : PayloadE A) w c a w' i node :
  stage_pre alg s A e -> own_ino s ≠ Some i -> (forall o len, own_range s ≠ Some (i, o, len)) ->
  payload_handle A e w c = Some (a, w') -> inodes w !! i = Some node ->
  exists node', inodes w' !! i = Some node' /\ i_data node' = i_data node /\
    (i_synced node' = i_synced node \/ i_synced node' = i_data node).
Proof.
  intros Hpre Hown Hrng E Hi. unfold inodes in *.
  assert (forall n fs' r, create_new n (pw_fs w) c = Some (r, fs') -> fs_inodes fs' !! i = Some node) as Hc.
  { intros n fs' r. unfold create_new. destruct c; try done; [case_match|]; intros; simplify_eq; try done. cbn.
    rewrite lookup_insert_ne; [done|]. intros <-. unfold fresh_ino in Hi. apply elem_of_dom_2 in Hi. by apply is_fresh in Hi. }
  assert (forall j d, j ≠ i -> fs_inodes (set_data j d (pw_fs w)) !! i = Some node) as Hs.
  { intros j d Hne. cbn. by rewrite lookup_alter_ne. }
  destruct e; cbn in E, Hpre; try (assert (ino ≠ i) as Hne by (intros ->; naive_solver));
    unfold call in E; repeat (case_match; simplify_eq); simplify_eq;
    try (eexists; split; [done|by auto]); try (eexists; split; [by apply Hs|by auto]); try (eexists; split; [by eapply Hc|by auto]).
  cbn. destruct (decide (i = ino)) as [->|]; [rewrite lookup_alter_eq, Hi|rewrite lookup_alter_ne, Hi by done];
    (eexists; split; [done|]); by auto.
Qed.

(** So does what the device has of the directory. *)
Lemma entries_kept A (e : PayloadE A) w c a w' :
  payload_handle A e w c = Some (a, w') ->
  fs_dir_synced (pw_fs w') = fs_dir_synced (pw_fs w) \/ (fs_dir_synced (pw_fs w') = fs_dir (pw_fs w) /\ dir w' = dir w).
Proof.
  intros E. destruct e; cbn in E; unfold call, create_new in E; repeat (case_match; simplify_eq); simplify_eq;
    try (by left); by right.
Qed.

(** *** The device after one step *)

Lemma device_step w γ t s l A (e : PayloadE A) c a w' n :
  PInv alg w (stages γ) -> γ !! t = Some (tt, (Some s, l)) -> stage_pre alg s A e -> held w γ n ->
  payload_handle A e w c = Some (a, w') ->
  (dur_data w n -> dur_data w' n) /\ (dur_entry w n -> dur_entry w' n).
Proof.
  intros Hp Ht Hpre Hh E. assert (forall i, dir w !! n = Some i -> dir w' !! n = Some i) as Hdir.
  { intros i. eapply dir_kept; [done..|apply Hh|apply Hh|done]. }
  split.
  - intros (i & node & Hn & Hi & Hs). destruct (he_file _ _ _ Hh) as (j & node2 & Hj & _ & Hfree).
    assert (j = i) as -> by congruence. destruct (Hfree _ _ _ Ht) as [Ho Hr].
    destruct (file_kept _ _ _ _ _ _ _ _ _ Hpre Ho Hr E Hi) as (node' & Hi' & Hd & Hs'). exists i, node'. split_and!; auto.
    rewrite Hd. destruct Hs' as [->|]; done.
  - intros (i & Hn & Hsn). exists i. split; [auto|]. destruct (entries_kept _ _ _ _ _ _ E) as [->|[-> _]]; done.
Qed.

(** ** Steps of tasks that lead no round *)

(** What a step may do to the log and to the set of dirty files. *)
Record plain_step (w w' : PayloadWorld) (γ γ' : Tasks) : Prop := {
  ps_retired : retired w ⊆ retired w';
  ps_files : files (store_dirty w) ⊆ files (store_dirty w');
  ps_directory : directory_dirty (store_dirty w) = true -> directory_dirty (store_dirty w') = true;
  ps_flight : lg_in_flight (pw_log w') = lg_in_flight (pw_log w);
  ps_durable : lg_durable (pw_log w') = lg_durable (pw_log w);
  ps_synced : lg_synced (pw_log w) <= lg_synced (pw_log w');
  ps_boot : boot w' = boot w;
  ps_records : exists more, records w' = records w ++ more;
  ps_leads : forall t g l, γ' !! t = Some (tt, (g, l)) -> l ≠ LNone -> exists g0, γ !! t = Some (tt, (g0, l));
  ps_leads_back : forall t g l, γ !! t = Some (tt, (g, l)) -> l ≠ LNone -> exists g', γ' !! t = Some (tt, (g', l));
  ps_device : forall n, wanted w γ n -> n ∉ retired w' -> (dur_data w n -> dur_data w' n) /\ (dur_entry w n -> dur_entry w' n);
  ps_dir : forall n i, tracked w γ n -> dir w !! n = Some i -> dir w' !! n = Some i \/ n ∈ retired w';
  ps_names : forall n, tracked w' γ' n -> dedicated_name n -> n ∈ minted w' /\ unowned γ' n;
  ps_wanted : forall n, wanted w' γ' n -> wanted w γ n \/ covered w' γ' n;
}.

Lemma rec_wanted_back w w' γ γ' k p m :
  plain_step w w' γ γ' -> rec_wanted w' k p -> (m <= zlen (records w))%Z -> (Z.of_nat k < m)%Z -> rec_wanted w k p.
Proof.
  intros Hs (Hb & Hk & Hr & Hd) Hm Hlt. destruct (ps_records _ _ _ _ Hs) as [more E]. split_and!; [..|done].
  - by rewrite <- (ps_boot _ _ _ _ Hs).
  - rewrite E, lookup_app_l in Hk; [done|]. unfold zlen in Hm. lia.
  - intros Hin. by apply Hr, (ps_retired _ _ _ _ Hs).
Qed.

(** A fact about the device below a mark goes on to hold. *)
Lemma below_mark_step w w' γ γ' m (Q Q' : string -> Prop) :
  plain_step w w' γ γ' -> (m <= zlen (records w))%Z ->
  (forall n, wanted w γ n -> n ∉ retired w' -> Q n -> Q' n) -> below_mark w m Q -> below_mark w' m Q'.
Proof.
  intros Hs Hm HQ Hb k p Hw Hlt. pose proof (rec_wanted_back _ _ _ _ _ _ _ Hs Hw Hm Hlt) as Hw0.
  apply HQ; [by eapply wanted_record|by destruct Hw as (_ & _ & ? & _)|by eapply Hb].
Qed.

Lemma on_device_step w w' γ γ' n :
  plain_step w w' γ γ' -> wanted w γ n -> n ∉ retired w' -> on_device w n -> on_device w' n.
Proof. intros Hs Hw Hr [Hd He]. destruct (ps_device _ _ _ _ Hs _ Hw Hr). split; auto. Qed.

Lemma records_grow w w' γ γ' : plain_step w w' γ γ' -> (zlen (records w) <= zlen (records w'))%Z.
Proof. intros Hs. destruct (ps_records _ _ _ _ Hs) as [more ->]. rewrite zlen_app. pose proof (zlen_nonneg more). lia. Qed.

Lemma lead_ok_step w w' γ γ' t g l :
  plain_step w w' γ γ' -> γ !! t = Some (tt, (g, l)) -> lead_ok w l -> lead_ok w' l.
Proof.
  intros Hs Ht. pose proof (records_grow _ _ _ _ Hs) as Hg.
  assert (forall m (todo : gset string) (e : bool), (m <= zlen (records w))%Z ->
    below_mark w m (fun n => (dur_data w n \/ n ∈ todo) /\ (dur_entry w n \/ e = true)) ->
    below_mark w' m (fun n => (dur_data w' n \/ n ∈ todo) /\ (dur_entry w' n \/ e = true))) as Hb.
  { intros m todo e Hm. eapply below_mark_step; [done..|]. intros n Hw Hr. cbn.
    destruct (ps_device _ _ _ _ Hs _ Hw Hr). naive_solver. }
  destruct l as [| |m|m d todo e|m d todo e name i|m|]; cbn; try done.
  - lia.
  - intros (? & ? & ? & ? & _). split_and!; auto; lia.
  - intros (? & ? & ? & ? & Hin & Hn). split_and!; auto; [lia|]. destruct Hn as [Hn|Hn].
    + apply (ps_dir _ _ _ _ Hs); [|done]. right. by exists t, g, (LOpened m d todo e name i).
    + right. by apply (ps_retired _ _ _ _ Hs).
  - intros (Hm & ? & ?). pose proof (ps_synced _ _ _ _ Hs). split_and!; [|lia..].
    eapply below_mark_step; [done|done| |exact Hm]. intros n Hw Hr. by apply (on_device_step _ _ _ _ _ Hs Hw).
Qed.

Lemma covered_step w w' γ γ' n : plain_step w w' γ γ' -> wanted w γ n -> n ∉ retired w' -> covered w γ n -> covered w' γ' n.
Proof.
  intros Hs Hw Hr [Hd He]. destruct (ps_device _ _ _ _ Hs _ Hw Hr) as [Hd' He'].
  assert (forall Q, (forall l, Q l -> l ≠ LNone) -> some_lead γ Q -> some_lead γ' Q) as Hl.
  { intros Q HQ (t & g & l & Ht & Hq). destruct (ps_leads_back _ _ _ _ Hs _ _ _ Ht (HQ _ Hq)) as [g' Ht']. by exists t, g', l. }
  split.
  - destruct Hd as [Hd|[Hd|Hd]]; [auto|right; left; by apply (ps_files _ _ _ _ Hs)|right; right].
    apply Hl; [|done]. intros [] Hq; done.
  - destruct He as [He|[He|He]]; [auto|right; left; by apply (ps_directory _ _ _ _ Hs)|right; right].
    apply Hl; [|done]. intros [] Hq; done.
Qed.

Lemma wanted_kept w γ n : wanted w γ n -> n ∉ retired w.
Proof. by intros [|k p (_ & _ & ? & _) ->]. Qed.

Lemma dinv_plain w w' γ γ' : plain_step w w' γ γ' -> DInv w γ -> DInv w' γ'.
Proof.
  intros Hs [Ho Hf Hc Hl Hn Hr Hm Hlg]. pose proof (records_grow _ _ _ _ Hs). split.
  - intros t t' g g' l l' Ht Ht' Hl1 Hl2. destruct (ps_leads _ _ _ _ Hs _ _ _ Ht Hl1), (ps_leads _ _ _ _ Hs _ _ _ Ht' Hl2). eauto.
  - intros t g l Ht Hl1. rewrite (ps_flight _ _ _ _ Hs). destruct (ps_leads _ _ _ _ Hs _ _ _ Ht Hl1). eauto.
  - intros n Hw. destruct (ps_wanted _ _ _ _ Hs _ Hw) as [Hw0|]; [|done].
    eapply covered_step; eauto. by eapply wanted_kept.
  - intros t g l Ht. destruct l as [| |m|m d todo e|m d todo e name i|m|] eqn:El; try done;
      (destruct (ps_leads _ _ _ _ Hs _ _ _ Ht) as [g0 Ht0]; [done|]; eapply lead_ok_step; [done..|by eapply Hl]).
  - apply Hs.
  - rewrite (ps_durable _ _ _ _ Hs). eapply below_mark_step; [done|done| |exact Hr].
    intros n Hw Hret. by apply (on_device_step _ _ _ _ _ Hs Hw).
  - rewrite (ps_durable _ _ _ _ Hs). lia.
  - rewrite (ps_durable _ _ _ _ Hs), (ps_boot _ _ _ _ Hs). intros k Hk Hlt. pose proof (ps_synced _ _ _ _ Hs). specialize (Hlg k Hk Hlt). lia.
Qed.

(** *** What each operation does to the parts *)

Ltac all_calls E := cbn in E; unfold call, create_new in E; repeat (case_match; simplify_eq); simplify_eq.

Lemma reserve_dirty w len c r w' :
  payload_handle _ (PReserveSegment len) w c = Some (r, w') ->
  store_dirty w' = store_dirty w \/
  exists g, current_segment (pw_store w') = Some g /\ files (store_dirty w') = {[as_name g]} ∪ files (store_dirty w) /\
    (directory_dirty (store_dirty w) = true -> directory_dirty (store_dirty w') = true).
Proof.
  unfold store_dirty. intros E. cbn in E. unfold create_new, reserve_segment in E.
  repeat (case_match; simplify_eq); simplify_eq; cbn in *; simplify_eq; try (by left); right; by eexists.
Qed.

Lemma dirty_step A (e : PayloadE A) w c a w' :
  lead_pre A LNone e -> payload_handle A e w c = Some (a, w') ->
  (files (store_dirty w) ⊆ files (store_dirty w') /\
   (directory_dirty (store_dirty w) = true -> directory_dirty (store_dirty w') = true)) /\
  forall n, n ∈ files (store_dirty w') ->
    n ∈ files (store_dirty w) \/ (exists g, current_segment (pw_store w') = Some g /\ n = as_name g) \/
    match e with PRegister m => m = n | _ => False end.
Proof.
  intros Hl E. destruct e; try (by destruct Hl); try (by destruct Hl as (? & ? & ? & ?));
    try (assert (store_dirty w' = store_dirty w) as -> by (all_calls E; done); split; [split; [reflexivity|done]|by auto]).
  - destruct (reserve_dirty _ _ _ _ _ E) as [->|(g & Hg & -> & Hd)]; (split; [set_solver|]); [by auto|].
    intros n [Hn|Hn]%elem_of_union; [|by auto]. right. left. exists g. set_solver.
  - all_calls E. unfold store_dirty. cbn. split; [set_solver|]. intros n. set_solver.
Qed.

Lemma log_step A (e : PayloadE A) w c a w' :
  lead_pre A LNone e -> payload_handle A e w c = Some (a, w') -> lead_upd A LNone e a = LNone ->
  lg_in_flight (pw_log w') = lg_in_flight (pw_log w) /\ lg_durable (pw_log w') = lg_durable (pw_log w) /\
  lg_synced (pw_log w') = lg_synced (pw_log w) /\ boot w' = boot w /\
  (records w' = records w \/ exists p, records w' = records w ++ [p] /\ pw_fs w' = pw_fs w /\ pw_store w' = pw_store w /\ match e with PAppendRecord q => q = p | _ => False end).
Proof.
  intros Hl E Hu. destruct e; try (by destruct Hl as (? & ?)); try (by destruct Hl as (? & ? & ? & ?)); try (all_calls E; split_and!; try done; by left); try done.
  - all_calls E; split_and!; try done; [right|by left]. by eexists.
  - destruct outcome; [done|]. by destruct Hl as [|(? & ? & ?)].
Qed.

Lemma own_name_step s A (e : PayloadE A) a s' n :
  stage_pre alg s A e -> stage_upd s A e a = Some s' -> own_name s' = Some n ->
  own_name s = Some n \/ match e in PayloadE A return A -> Prop with PUuid => fun u => n = mint_dedicated_name u | _ => fun _ => False end a.
Proof.
  intros Hp Hu Hn. destruct e; cbn in Hp, Hu; unfold known in Hu; repeat (case_match; simplify_eq); simplify_eq; cbn in *;
    simplify_eq; auto; naive_solver.
Qed.

Lemma written_step s A (e : PayloadE A) a n i o d :
  stage_pre alg s A e -> stage_upd s A e a = Some (Written n i o d) ->
  s = Written n i o d \/ (exists l, s = Ranged n i o l) \/ match e with PRegister m => m = n /\ s = Filling n i (Exactly d) | _ => False end.
Proof.
  intros Hp Hu. destruct e; cbn in Hp, Hu; unfold known in Hu; repeat (case_match; simplify_eq); simplify_eq; auto; naive_solver.
Qed.

Lemma lookup_move (γ : Tasks) t g l t' g' l' :
  <[t := (tt, (g, l))]> γ !! t' = Some (tt, (g', l')) -> (t' = t /\ g' = g /\ l' = l) \/ (t' ≠ t /\ γ !! t' = Some (tt, (g', l'))).
Proof. rewrite lookup_insert_Some. naive_solver. Qed.

(** A stage whose owner is task [t]. *)
Lemma task_stage w γ t s l : PInv alg w (stages γ) -> γ !! t = Some (tt, (Some s, l)) -> stage_ok w s.
Proof.
  intros Hp Ht. destruct (pi_owners _ _ _ Hp) as (ρ & _ & Ho). apply stages_lookup in Ht.
  apply (oo_stage _ _ Ho (inl t)). cbn. by rewrite Ht.
Qed.

Lemma unowned_move w w' γ t s l A (e : PayloadE A) c a s' l' n :
  PInv alg w (stages γ) -> γ !! t = Some (tt, (Some s, l)) -> stage_pre alg s A e -> payload_handle A e w c = Some (a, w') ->
  stage_upd s A e a = Some s' -> n ∈ minted w -> unowned γ n -> unowned (<[t := (tt, (Some s', l'))]> γ) n.
Proof.
  intros Hp Ht Hpre E Hu Hm Hun t' s2 l2 [(-> & [= ->] & _)|[_ Ht']]%lookup_move; [|eauto]. intros Hn.
  destruct (own_name_step _ _ _ _ _ _ Hpre Hu Hn) as [Hn'|Huu]; [by eapply Hun|].
  destruct e; try done. subst n. cbn in E. destruct c; try done. destruct (bool_decide _ || _) eqn:Eb; [done|]. simplify_eq.
  apply orb_false_iff in Eb as [Eb _]. by apply bool_decide_eq_false_1 in Eb.
Qed.

Lemma minted_grows A (e : PayloadE A) w c a w' : payload_handle A e w c = Some (a, w') -> minted w ⊆ minted w'.
Proof. intros E. destruct e; all_calls E; try done. cbn. unfold minted. cbn. set_solver. Qed.

(** A name the sync rounds track stays in the directory. *)
Lemma tracked_dir w γ t s l A (e : PayloadE A) c a w' n i :
  PInv alg w (stages γ) -> DInv w γ -> γ !! t = Some (tt, (Some s, l)) -> stage_pre alg s A e ->
  payload_handle A e w c = Some (a, w') -> tracked w γ n -> dir w !! n = Some i -> dir w' !! n = Some i \/ n ∈ retired w'.
Proof.
  intros Hp HD Ht Hpre E Htr Hn. rewrite (step_retired _ _ _ _ _ _ E).
  destruct (decide (n ∈ retired w)) as [|Hret]; [by right|left].
  eapply dir_kept; [done..| |done|done].
  destruct (decide (starts_with DEDICATED_PREFIX n = true)) as [Hd|Hd]; [by apply (di_names _ _ HD)|].
  intros t' s2 l2 Ht' Hown. pose proof (task_stage _ _ _ _ _ Hp Ht') as Hs2. destruct s2; cbn in *; simplify_eq; by destruct Hs2 as (? & _).
Qed.

Lemma dinv_task w γ t s A (e : PayloadE A) c a w' s' :
  PInv alg w (stages γ) -> PInv alg w' (stages (<[t := (tt, (Some s', LNone))]> γ)) -> DInv w γ ->
  γ !! t = Some (tt, (Some s, LNone)) -> stage_pre alg s A e -> lead_pre A LNone e ->
  payload_handle A e w c = Some (a, w') -> stage_upd s A e a = Some s' -> lead_upd A LNone e a = LNone ->
  DInv w' (<[t := (tt, (Some s', LNone))]> γ).
Proof.
  intros Hp Hp' HD Ht Hpre Hlp E Hu Hlu. pose proof (task_stage _ _ _ _ _ Hp Ht) as Hst.
  destruct (dirty_step _ _ _ _ _ _ Hlp E) as ((Hf & Hd) & Hnew). pose proof (step_retired _ _ _ _ _ _ E) as Hret.
  destruct (log_step _ _ _ _ _ _ Hlp E Hlu) as (Hfl & Hdu & Hsy & Hbo & Hrec).
  set (γ' := <[t := (tt, (Some s', LNone))]> γ) in *.
  assert (forall Q : Lead -> Prop, ~ Q LNone -> some_lead γ' Q -> some_lead γ Q) as Hsl.
  { intros Q HQ (t' & g & l & [(-> & -> & ->)|[_ Ht']]%lookup_move & Hq); [done|by exists t', g, l]. }
  apply (dinv_plain w w' γ γ'); [|done]. split; try done.
  - by rewrite Hret.
  - by rewrite Hsy.
  - destruct Hrec as [->|(p & -> & _)]; [exists []; by rewrite app_nil_r|by eexists].
  - intros t' g l [(-> & -> & ->)|[_ Ht']]%lookup_move Hl; [done|eauto].
  - intros t' g l Ht' Hl. exists g. unfold γ'. rewrite lookup_insert_ne; [done|]. intros <-. congruence.
  - intros n Hw _. eapply device_step; [done..|by eapply wanted_held|done].
  - intros n i. by eapply tracked_dir.
  - intros n Htr Hded. pose proof (minted_grows _ _ _ _ _ _ E) as Hmint.
    assert (tracked w γ n \/ match e with PRegister m => m = n | _ => False end) as Hold.
    { destruct Htr as [Htr|Htr]; [|left; right; apply Hsl; [set_solver|done]].
      destruct (Hnew _ Htr) as [?|[(g & Hg & ->)|?]]; [by left; left| |by right].
      destruct (pi_owners _ _ _ Hp') as (ρ & _ & Ho). by destruct (wo_segment _ (oo_world _ _ Ho) _ Hg) as (_ & ? & _). }
    destruct Hold as [Hold|Hreg].
    + destruct (di_names _ _ HD _ Hold Hded) as [Hm Hun]. split; [auto|]. by eapply unowned_move.
    + destruct e; try done. subst name. destruct Hpre as (i & b & ->). cbn in Hu. simplify_eq.
      destruct Hst as (_ & _ & Hm & _). split; [auto|]. intros t' s2 l2 [(-> & [= ->] & _)|[Hne Ht']]%lookup_move; [done|].
      destruct (pi_owners _ _ _ Hp) as (ρ & _ & Ho). apply stages_lookup in Ht, Ht'.
      assert (owners (stages γ) ρ (inl t) = Some (Filling n i (Exactly b))) as H1 by (cbn; by rewrite Ht).
      assert (owners (stages γ) ρ (inl t') = Some s2) as H2 by (cbn; by rewrite Ht').
      assert (@inl nat nat t ≠ inl t') as Hne' by congruence.
      destruct (oo_apart _ _ Ho _ _ _ _ Hne' H1 H2) as [[Hnm _ _] _]. by apply Hnm.
  - intros n Hw. destruct Hw as [t' i o d l Hr Hded [(-> & Es & ->)|[_ Ht']]%lookup_move|k p (Hb & Hk & Hr & Hded) ->].
    + injection Es as <-. destruct (written_step _ _ _ _ _ _ _ _ Hpre Hu) as [->|[[len ->]|Hreg]].
      * left. eapply wanted_task; [by rewrite <- Hret|done..].
      * by destruct Hst as (_ & _ & ? & _).
      * right. destruct e; try done. destruct Hreg as [-> ->]. all_calls E. split; right; left; unfold store_dirty; cbn; [set_solver|done].
    + left. eapply wanted_task; [by rewrite <- Hret|done..].
    + rewrite Hret in Hr. rewrite Hbo in Hb. destruct Hrec as [Hrec|(q & Hrec & Hfs & Hsto & He)]; rewrite Hrec in Hk.
      * left. by eapply wanted_record.
      * apply lookup_app_Some in Hk as [Hk|[_ Hk]]; [left; by eapply wanted_record|right].
        apply list_lookup_singleton_Some in Hk as [_ ->]. destruct e; try done. subst p0.
        destruct Hpre as (n & i & o & d & -> & <- & <- & Hdes).
        destruct (di_cover _ _ HD _ (wanted_task _ _ _ _ _ _ _ _ Hr Hded Ht)) as [Hcd Hce].
        assert (forall Q : Lead -> Prop, ~ Q LNone -> some_lead γ Q -> some_lead γ' Q) as Hsl'.
        { intros Q HQ (t' & g & l & Ht' & Hq). exists t', g, l. split; [|done]. unfold γ'. rewrite lookup_insert_ne; [done|]. intros <-. by simplify_eq. }
        unfold covered, dur_data, dur_entry, dir, inodes, store_dirty in *. rewrite Hfs, Hsto. split.
        -- destruct Hcd as [?|[?|?]]; [by left|by right; left|right; right; apply Hsl'; [set_solver|done]].
        -- destruct Hce as [?|[?|?]]; [by left|by right; left|right; right; by apply Hsl'].
Qed.

(** ** Steps of the leader *)

(** What the leader's steps leave alone. *)
Record lead_frame (w w' : PayloadWorld) (γ : Tasks) : Prop := {
  lf_retired : retired w' = retired w;
  lf_minted : minted w' = minted w;
  lf_records : records w' = records w;
  lf_boot : boot w' = boot w;
  lf_device : forall n, wanted w γ n -> (dur_data w n -> dur_data w' n) /\ (dur_entry w n -> dur_entry w' n);
}.

Definition leads_alone (γ : Tasks) (t : nat) : Prop := forall t' g l, t' ≠ t -> γ !! t' = Some (tt, (g, l)) -> l = LNone.

Lemma alone w γ t g l :
  DInv w γ -> γ !! t = Some (tt, (g, l)) -> l ≠ LNone \/ lg_in_flight (pw_log w) = false -> leads_alone γ t.
Proof.
  intros HD Ht Hl t' g' l' Hne Ht'. destruct (decide (l' = LNone)) as [|Hn]; [done|exfalso]. destruct Hl as [Hl|Hl].
  - apply Hne. eapply (di_one _ _ HD); eauto.
  - by rewrite (di_flight _ _ HD _ _ _ Ht' Hn) in Hl.
Qed.

Lemma rec_wanted_frame w w' γ k p : lead_frame w w' γ -> rec_wanted w' k p -> rec_wanted w k p.
Proof. intros Hf. unfold rec_wanted. by rewrite (lf_retired _ _ _ Hf), (lf_records _ _ _ Hf), (lf_boot _ _ _ Hf). Qed.

Lemma below_mark_frame w w' γ m (Q Q' : string -> Prop) :
  lead_frame w w' γ -> (forall n, wanted w γ n -> Q n -> Q' n) -> below_mark w m Q -> below_mark w' m Q'.
Proof.
  intros Hf HQ Hb k p Hw Hlt. apply (rec_wanted_frame _ _ _ _ _ Hf) in Hw. apply HQ; [by eapply wanted_record|by eapply Hb].
Qed.

Lemma on_device_frame w w' γ m : lead_frame w w' γ -> below_mark w m (on_device w) -> below_mark w' m (on_device w').
Proof. intros Hf. eapply below_mark_frame; [done|]. intros n Hw [? ?]. destruct (lf_device _ _ _ Hf _ Hw). split; auto. Qed.

(** The other tasks lead nothing; [l'] is right for the new world, covers what [l] did,
    and the report stays right. *)
Lemma dinv_lead w w' γ t s l s' l' :
  DInv w γ -> γ !! t = Some (tt, (Some s, l)) -> leads_alone γ t -> lead_frame w w' γ ->
  (forall n i o d, s' = Written n i o d -> s = s') -> (forall n, own_name s' = Some n -> own_name s = Some n) ->
  (l' ≠ LNone -> lg_in_flight (pw_log w') = true) -> lead_ok w' l' ->
  (forall n, wanted w γ n -> dur_data w' n \/ n ∈ files (store_dirty w') \/ n ∈ left_of l') ->
  (forall n, wanted w γ n -> dur_entry w' n \/ directory_dirty (store_dirty w') = true \/ entry_of l' = true) ->
  (forall n, n ∈ files (store_dirty w') \/ n ∈ files_of l' -> tracked w γ n) ->
  below_mark w (lg_durable (pw_log w')) (on_device w') -> (lg_durable (pw_log w') <= zlen (records w))%Z ->
  (forall k, boot w <= k -> (Z.of_nat k < lg_durable (pw_log w'))%Z -> k < lg_synced (pw_log w')) ->
  DInv w' (<[t := (tt, (Some s', l'))]> γ).
Proof.
  intros HD Ht Hal Hf Hwr Hown Hfl Hok Hcd Hce Htr Hrep Hmax Hlog. set (γ' := <[t := _]> γ).
  assert (γ' !! t = Some (tt, (Some s', l'))) as Ht' by (unfold γ'; by rewrite lookup_insert_eq).
  assert (forall t1 g1 l1, γ' !! t1 = Some (tt, (g1, l1)) -> l1 ≠ LNone -> t1 = t /\ l1 = l') as Honly.
  { intros t1 g1 l1 [(-> & _ & ->)|[Hne E]]%lookup_move Hl1; [done|]. by destruct Hl1, (Hal _ _ _ Hne E). }
  assert (forall n, wanted w' γ' n -> wanted w γ n) as Hw.
  { intros n [t1 i o d l1 Hr Hded [(-> & Es & ->)|[_ Ht1]]%lookup_move|k p Hrw ->].
    - injection Es as <-. rewrite (lf_retired _ _ _ Hf) in Hr. eapply wanted_task; [done..|]. rewrite Ht. by rewrite (Hwr _ _ _ _ eq_refl).
    - rewrite (lf_retired _ _ _ Hf) in Hr. by eapply wanted_task.
    - eapply wanted_record; [by eapply rec_wanted_frame|done]. }
  split.
  - intros t1 t2 g1 g2 l1 l2 H1 H2 Hn1 Hn2. by destruct (Honly _ _ _ H1 Hn1) as [-> _], (Honly _ _ _ H2 Hn2) as [-> _].
  - intros t1 g1 l1 H1 Hn1. destruct (Honly _ _ _ H1 Hn1) as [-> ->]. auto.
  - intros n HW. apply Hw in HW. split.
    + destruct (Hcd _ HW) as [?|[?|?]]; [by left|by right; left|right; right]. by exists t, (Some s'), l'.
    + destruct (Hce _ HW) as [?|[?|?]]; [by left|by right; left|right; right]. by exists t, (Some s'), l'.
  - intros t1 g1 l1 H1. destruct (decide (l1 = LNone)) as [->|Hn1]; [done|]. by destruct (Honly _ _ _ H1 Hn1) as [-> ->].
  - intros n Hn Hded. assert (tracked w γ n) as Htn.
    { apply Htr. destruct Hn as [Hn|(t1 & g1 & l1 & H1 & Hn)]; [by left|right].
      destruct (decide (l1 = LNone)) as [->|Hn1]; [set_solver|]. by destruct (Honly _ _ _ H1 Hn1) as [-> ->]. }
    destruct (di_names _ _ HD _ Htn Hded) as [Hm Hun]. rewrite (lf_minted _ _ _ Hf). split; [done|].
    intros t1 s1 l1 [(-> & [= ->] & _)|[_ H1]]%lookup_move; [|eauto]. intros Hs'. by eapply (Hun _ _ _ Ht), Hown.
  - intros k p Hrw Hlt. apply (rec_wanted_frame _ _ _ _ _ Hf) in Hrw. by eapply Hrep.
  - by rewrite (lf_records _ _ _ Hf).
  - by rewrite (lf_boot _ _ _ Hf).
Qed.

(** The leader alone covers what the store does not. *)
Lemma cover_alone w γ t g l n :
  DInv w γ -> γ !! t = Some (tt, (g, l)) -> leads_alone γ t -> wanted w γ n ->
  (dur_data w n \/ n ∈ files (store_dirty w) \/ n ∈ left_of l) /\
  (dur_entry w n \/ directory_dirty (store_dirty w) = true \/ entry_of l = true).
Proof.
  intros HD Ht Hal HW. destruct (di_cover _ _ HD _ HW) as [Hd He].
  assert (forall Q : Lead -> Prop, ~ Q LNone -> some_lead γ Q -> Q l) as Hl.
  { intros Q HQ (t1 & g1 & l1 & H1 & Hq). destruct (decide (t1 = t)) as [->|Hne]; [by simplify_eq|]. by rewrite (Hal _ _ _ Hne H1) in Hq. }
  split.
  - destruct Hd as [?|[?|Hd]]; [by left|by right; left|right; right]. apply Hl in Hd; [done|set_solver].
  - destruct He as [?|[?|He]]; [by left|by right; left|right; right]. by apply Hl in He.
Qed.

Lemma lead_frame_same w w' γ :
  pw_fs w' = pw_fs w -> pw_names w' = pw_names w -> records w' = records w -> boot w' = boot w -> lead_frame w w' γ.
Proof.
  intros Hfs Hn Hr Hb. split; unfold retired, minted, dur_data, dur_entry, dir, inodes; rewrite ?Hfs, ?Hn; done.
Qed.

Section leader.
Context (w : PayloadWorld) (γ : Tasks) (t : nat) (s : Stage).
Context (Hp : PInv alg w (stages γ)) (HD : DInv w γ).

Lemma lead_enter sequence c w' :
  γ !! t = Some (tt, (Some s, LNone)) -> payload_handle _ (PSyncEnter sequence) w c = Some (None, w') ->
  DInv w' (<[t := (tt, (Some s, LEntered))]> γ).
Proof.
  intros Ht E. cbn in E. destruct (_ <=? _)%Z; [done|]. destruct (lg_in_flight (pw_log w)) eqn:Ef; [done|]. simplify_eq.
  assert (leads_alone γ t) as Hal by (eapply alone; eauto).
  eapply dinv_lead; [exact HD|exact Ht|exact Hal|by apply lead_frame_same|by eauto|done|done|done|..]; try (intros n HW; destruct (cover_alone _ _ _ _ _ _ HD Ht Hal HW) as [? ?]; done).
  - intros n [?|?]; [by left|set_solver].
  - exact (di_reported _ _ HD).
  - apply HD.
  - apply HD.
Qed.

Lemma lead_mark c m w' :
  γ !! t = Some (tt, (Some s, LEntered)) -> payload_handle _ PWatermark w c = Some (m, w') ->
  DInv w' (<[t := (tt, (Some s, LMarked m))]> γ).
Proof.
  intros Ht E. cbn in E. simplify_eq.
  assert (leads_alone γ t) as Hal by (eapply alone; eauto).
  eapply dinv_lead; [exact HD|exact Ht|exact Hal|by apply lead_frame_same|by eauto|done| | |..]; try (intros n HW; destruct (cover_alone _ _ _ _ _ _ HD Ht Hal HW) as [? ?]; done); try apply HD.
  - intros _. by eapply (di_flight _ _ HD).
  - cbn. lia.
  - intros n [?|?]; [by left|set_solver].
Qed.

Lemma lead_take c m d w' :
  γ !! t = Some (tt, (Some s, LMarked m)) -> payload_handle _ PTakeDirty w c = Some (d, w') ->
  DInv w' (<[t := (tt, (Some s, LTaken m d (files d) (directory_dirty d)))]> γ).
Proof.
  intros Ht E. cbn in E. simplify_eq.
  assert (leads_alone γ t) as Hal by (eapply alone; eauto).
  assert (forall n, wanted w γ n -> (dur_data w n \/ n ∈ files (dirty (pw_store w))) /\ (dur_entry w n \/ directory_dirty (dirty (pw_store w)) = true)) as Hc.
  { intros n HW. destruct (cover_alone _ _ _ _ _ _ HD Ht Hal HW) as [Hd He]. split.
    - destruct Hd as [?|[?|?]]; [by left|by right|set_solver].
    - destruct He as [?|[?|?]]; [by left|by right|done]. }
  eapply dinv_lead; [exact HD|exact Ht|exact Hal|by apply lead_frame_same|by eauto|done| | |..].
  - intros _. by eapply (di_flight _ _ HD).
  - cbn. split_and!; try done; [by apply (di_lead _ _ HD _ _ _ Ht)|]. intros k p Hrw _. apply Hc. by eapply wanted_record.
  - intros n HW. destruct (Hc _ HW) as [[?|?] _]; [by left|by right; right].
  - intros n HW. destruct (Hc _ HW) as [_ [?|?]]; [by left|by right; right].
  - intros n [Hn|Hn]; [unfold store_dirty in Hn; cbn in Hn; set_solver|by left].
  - exact (di_reported _ _ HD).
  - apply HD.
  - apply HD.
Qed.

Lemma lead_open m d todo entry c name r w' s' :
  γ !! t = Some (tt, (Some s, LTaken m d todo entry)) -> name ∈ files d ->
  payload_handle _ (POpen name) w c = Some (r, w') -> stage_upd s _ (POpen name) r = Some s' ->
  DInv w' (<[t := (tt, (Some s', lead_upd _ (LTaken m d todo entry) (POpen name) r))]> γ).
Proof.
  intros Ht Hin E Hu.
  assert (leads_alone γ t) as Hal by (eapply alone; eauto).
  assert (w' = w /\ forall i, r = Ok i -> dir w !! name = Some i) as [-> Hr].
  { cbn in E. unfold call, failed in E. destruct c; simplify_eq; split; try done. unfold dir. intros i. by case_match; intros; simplify_eq. }
  pose proof (di_lead _ _ HD _ _ _ Ht) as (Hm & Hsub & Hed & Hb & _).
  eapply dinv_lead; [exact HD|exact Ht|exact Hal|by apply lead_frame_same|..]; try apply HD.
  - intros n i o x ->. cbn in Hu. destruct s; simplify_eq; try done; destruct r; simplify_eq; repeat case_match; simplify_eq.
  - intros n Hn. cbn in Hu. destruct s; simplify_eq; try done; destruct r; simplify_eq; repeat case_match; simplify_eq; done.
  - intros _. by eapply (di_flight _ _ HD).
  - destruct r as [i|e]; cbn; split_and!; auto.
  - intros n HW. destruct (cover_alone _ _ _ _ _ _ HD Ht Hal HW) as [Hd _]. by destruct r.
  - intros n HW. destruct (cover_alone _ _ _ _ _ _ HD Ht Hal HW) as [_ He]. by destruct r.
  - intros n [Hn|Hn]; [by left|right]. exists t, (Some s), (LTaken m d todo entry). split; [done|]. by destruct r.
Qed.

(** Syncing the file the leader opened. *)
Lemma lead_sync_file m d todo entry name i c r w' :
  γ !! t = Some (tt, (Some s, LOpened m d todo entry name i)) ->
  stage_pre alg s _ (PSyncData i) -> payload_handle _ (PSyncData i) w c = Some (r, w') ->
  DInv w' (<[t := (tt, (Some s, lead_upd _ (LOpened m d todo entry name i) (PSyncData i) r))]> γ).
Proof.
  intros Ht Hpre E. assert (leads_alone γ t) as Hal by (eapply alone; eauto).
  assert (forall n, wanted w γ n -> (dur_data w n -> dur_data w' n) /\ (dur_entry w n -> dur_entry w' n)) as Hdev.
  { intros n HW. eapply device_step; [done..|by eapply wanted_held|done]. }
  assert (pw_names w' = pw_names w /\ pw_log w' = pw_log w /\ pw_store w' = pw_store w /\ dir w' = dir w) as (Hnm & Hlg & Hst & Hdr).
  { cbn in E. unfold call in E. destruct c; by simplify_eq. }
  assert (lead_frame w w' γ) as Hf by (split; unfold retired, minted, records, boot; rewrite ?Hnm, ?Hlg; done).
  pose proof (di_lead _ _ HD _ _ _ Ht) as (Hm & Hsub & Hed & Hb & Hin & Hop).
  assert (r = Ok tt -> wanted w γ name -> dur_data w' name) as Hsync.
  { intros -> HW. destruct (wanted_held _ _ _ Hp HW) as [Hret (j & node & Hn & Hj & _) _].
    destruct Hop as [Hop|]; [|done]. assert (j = i) as -> by congruence.
    cbn in E. unfold call in E. destruct c; simplify_eq. eexists i, _. split; [exact Hop|].
    split; [unfold inodes in *; cbn; by rewrite lookup_alter_eq, Hj|done]. }
  assert (lead_upd _ (LOpened m d todo entry name i) (PSyncData i) r = LTaken m d (match r with Ok _ => todo ∖ {[name]} | Err _ => todo end) entry) as Hlu by (by destruct r).
  rewrite Hlu. set (todo' := match r with Ok _ => _ | Err _ => _ end) in *.
  assert (forall n, wanted w γ n -> n ∈ todo -> dur_data w' n \/ n ∈ todo') as Htodo.
  { intros n HW Hn. unfold todo'. destruct r as [[]|e]; [|by right]. destruct (decide (n = name)) as [->|]; [left; auto|right; set_solver]. }
  eapply dinv_lead; [exact HD|exact Ht|exact Hal|exact Hf|by eauto|done| | |..].
  - intros _. rewrite Hlg. by eapply (di_flight _ _ HD).
  - cbn. rewrite (lf_records _ _ _ Hf). split_and!; try done; [unfold todo'; destruct r; set_solver|].
    eapply below_mark_frame; [done| |exact Hb]. cbn. intros n HW [Hd He]. destruct (Hdev _ HW) as [Hd' He']. split; [|naive_solver].
    destruct Hd as [?|?]; [left; auto|by apply Htodo].
  - intros n HW. destruct (cover_alone _ _ _ _ _ _ HD Ht Hal HW) as [Hd _]. destruct (Hdev _ HW) as [Hd' _]. unfold store_dirty in *. rewrite Hst.
    destruct Hd as [?|[?|?]]; [left; auto|by right; left|]. destruct (Htodo _ HW ltac:(done)); [by left|by right; right].
  - intros n HW. destruct (cover_alone _ _ _ _ _ _ HD Ht Hal HW) as [_ He]. destruct (Hdev _ HW) as [_ He']. unfold store_dirty in *. rewrite Hst.
    destruct He as [?|[?|?]]; [left; auto|by right; left|by right; right].
  - intros n [Hn|Hn]; [left; unfold store_dirty in *; by rewrite Hst in Hn|right]. by exists t, (Some s), (LOpened m d todo entry name i).
  - rewrite Hlg. intros k p Hrw Hlt. destruct (di_reported _ _ HD k p Hrw Hlt) as [? ?]. assert (wanted w γ (storage_file (storage p))) as HW by (by eapply wanted_record).
    destruct (Hdev _ HW). split; auto.
  - rewrite Hlg. apply HD.
  - rewrite Hlg. apply HD.
Qed.

Lemma lead_sync_dir m d todo entry c r w' :
  γ !! t = Some (tt, (Some s, LTaken m d todo entry)) ->
  stage_pre alg s _ PSyncDir -> payload_handle _ PSyncDir w c = Some (r, w') ->
  DInv w' (<[t := (tt, (Some s, lead_upd _ (LTaken m d todo entry) PSyncDir r))]> γ).
Proof.
  intros Ht Hpre E. assert (leads_alone γ t) as Hal by (eapply alone; eauto).
  assert (forall n, wanted w γ n -> (dur_data w n -> dur_data w' n) /\ (dur_entry w n -> dur_entry w' n)) as Hdev.
  { intros n HW. eapply device_step; [done..|by eapply wanted_held|done]. }
  assert (pw_names w' = pw_names w /\ pw_log w' = pw_log w /\ pw_store w' = pw_store w) as (Hnm & Hlg & Hst).
  { cbn in E. unfold call in E. destruct c; by simplify_eq. }
  assert (lead_frame w w' γ) as Hf by (split; unfold retired, minted, records, boot; rewrite ?Hnm, ?Hlg; done).
  pose proof (di_lead _ _ HD _ _ _ Ht) as (Hm & Hsub & Hed & Hb & _).
  assert (r = Ok tt -> forall n, wanted w γ n -> dur_entry w' n) as Hsync.
  { intros -> n HW. destruct (wanted_held _ _ _ Hp HW) as [Hret (j & node & Hn & Hj & _) _].
    cbn in E. unfold call in E. destruct c; simplify_eq. by exists j. }
  assert (lead_upd _ (LTaken m d todo entry) PSyncDir r = LTaken m d todo (match r with Ok _ => false | Err _ => entry end)) as Hlu by (by destruct r).
  rewrite Hlu. set (entry' := match r with Ok _ => _ | Err _ => _ end) in *.
  assert (forall n, wanted w γ n -> entry = true -> dur_entry w' n \/ entry' = true) as Hent.
  { intros n HW He. unfold entry'. destruct r as [[]|e]; [left; by eapply Hsync|by right]. }
  eapply dinv_lead; [exact HD|exact Ht|exact Hal|exact Hf|by eauto|done| | |..].
  - intros _. rewrite Hlg. by eapply (di_flight _ _ HD).
  - cbn. rewrite (lf_records _ _ _ Hf). split_and!; try done; [unfold entry'; by destruct r|].
    eapply below_mark_frame; [done| |exact Hb]. cbn. intros n HW [Hd He]. destruct (Hdev _ HW) as [Hd' He']. split; [naive_solver|].
    destruct He as [?|?]; [left; auto|by eapply Hent].
  - intros n HW. destruct (cover_alone _ _ _ _ _ _ HD Ht Hal HW) as [Hd _]. destruct (Hdev _ HW) as [Hd' _]. unfold store_dirty in *. rewrite Hst.
    destruct Hd as [?|[?|?]]; [left; auto|by right; left|by right; right].
  - intros n HW. destruct (cover_alone _ _ _ _ _ _ HD Ht Hal HW) as [_ He]. destruct (Hdev _ HW) as [_ He']. unfold store_dirty in *. rewrite Hst.
    destruct He as [?|[?|?]]; [left; auto|by right; left|]. destruct (Hent _ HW ltac:(done)); [by left|by right; right].
  - intros n [Hn|Hn]; [left; unfold store_dirty in *; by rewrite Hst in Hn|right]. by exists t, (Some s), (LTaken m d todo entry).
  - rewrite Hlg. intros k p Hrw Hlt. destruct (di_reported _ _ HD k p Hrw Hlt) as [? ?]. assert (wanted w γ (storage_file (storage p))) as HW by (by eapply wanted_record).
    destruct (Hdev _ HW). split; auto.
  - rewrite Hlg. apply HD.
  - rewrite Hlg. apply HD.
Qed.

(** With nothing left to sync, only the store covers payloads. *)
Lemma cover_store l n :
  γ !! t = Some (tt, (Some s, l)) -> leads_alone γ t -> left_of l = ∅ -> entry_of l = false -> wanted w γ n ->
  (dur_data w n \/ n ∈ files (store_dirty w)) /\ (dur_entry w n \/ directory_dirty (store_dirty w) = true).
Proof.
  intros Ht Hal Hl He HW. destruct (cover_alone _ _ _ _ _ _ HD Ht Hal HW) as [Hd Hen]. rewrite Hl in Hd. rewrite He in Hen. split.
  - destruct Hd as [?|[?|?]]; [by left|by right|set_solver].
  - destruct Hen as [?|[?|?]]; [by left|by right|done].
Qed.

Lemma lead_sync_log m d c r w' :
  γ !! t = Some (tt, (Some s, LTaken m d ∅ false)) -> payload_handle _ (PSyncLog m) w c = Some (r, w') ->
  DInv w' (<[t := (tt, (Some s, lead_upd _ (LTaken m d ∅ false) (PSyncLog m) r))]> γ).
Proof.
  intros Ht E. assert (leads_alone γ t) as Hal by (eapply alone; eauto).
  pose proof (di_lead _ _ HD _ _ _ Ht) as (Hm & Hsub & Hed & Hb & _).
  assert (forall n, wanted w γ n -> (dur_data w n \/ n ∈ files (store_dirty w)) /\ (dur_entry w n \/ directory_dirty (store_dirty w) = true)) as Hc.
  { intros n. by eapply cover_store. }
  assert (below_mark w m (on_device w)) as Hdev.
  { intros k p Hrw Hlt. destruct (Hb k p Hrw Hlt) as [[?|?] [?|?]]; [by split|done|set_solver..]. }
  cbn in E. unfold call in E. destruct c; simplify_eq; cbn [lead_upd].
  - eapply dinv_lead; [exact HD|exact Ht|exact Hal|by apply lead_frame_same|by eauto|done| | |..].
    + intros _. by eapply (di_flight _ _ HD).
    + cbn. split_and!; [exact Hdev|done|exact Hm].
    + intros n HW. destruct (Hc _ HW) as [[?|?] _]; [by left|by right; left].
    + intros n HW. destruct (Hc _ HW) as [_ [?|?]]; [by left|by right; left].
    + intros n [?|?]; [by left|set_solver].
    + exact (di_reported _ _ HD).
    + apply HD.
    + cbn. intros k Hk Hlt. pose proof (di_max _ _ HD) as Hmx. unfold records, zlen in Hmx. lia.
  - eapply dinv_lead; [exact HD|exact Ht|exact Hal|by apply lead_frame_same|by eauto|done| | |..]; try apply HD.
    + intros _. by eapply (di_flight _ _ HD).
    + by apply (di_lead _ _ HD _ _ _ Ht).
    + intros n HW. destruct (Hc _ HW) as [[?|?] _]; [by left|by right; left].
    + intros n HW. destruct (Hc _ HW) as [_ [?|?]]; [by left|by right; left].
    + intros n [?|Hn]; [by left|right]. by exists t, (Some s), (LTaken m d ∅ false).
Qed.

Lemma lead_restore m d todo entry c w' :
  γ !! t = Some (tt, (Some s, LTaken m d todo entry)) -> payload_handle _ (PExtendDirty d) w c = Some (tt, w') ->
  DInv w' (<[t := (tt, (Some s, LRestored))]> γ).
Proof.
  intros Ht E. assert (leads_alone γ t) as Hal by (eapply alone; eauto). cbn in E. simplify_eq.
  pose proof (di_lead _ _ HD _ _ _ Ht) as (Hm & Hsub & Hed & Hb & _).
  eapply dinv_lead; [exact HD|exact Ht|exact Hal|by apply lead_frame_same|by eauto|done| |done|..]; unfold store_dirty; cbn; try apply HD.
  - intros _. by eapply (di_flight _ _ HD).
  - intros n HW. destruct (cover_alone _ _ _ _ _ _ HD Ht Hal HW) as [[?|[?|Hn]] _]; [by left|right; left; set_solver|right; left].
    cbn in Hn. set_solver.
  - intros n HW. destruct (cover_alone _ _ _ _ _ _ HD Ht Hal HW) as [_ [?|[?|He]]]; [by left|right; left..].
    + unfold store_dirty in *. by apply orb_true_iff; left.
    + cbn in He. apply orb_true_iff; right; auto.
  - intros n [[?|?]%elem_of_union|?]; [by left|right; by exists t, (Some s), (LTaken m d todo entry)|set_solver].
Qed.

Lemma lead_leave l outcome c r w' :
  γ !! t = Some (tt, (Some s, l)) -> lead_pre _ l (PSyncLeave outcome) -> payload_handle _ (PSyncLeave outcome) w c = Some (r, w') ->
  DInv w' (<[t := (tt, (Some s, LNone))]> γ).
Proof.
  intros Ht Hpre E.
  assert (l ≠ LNone /\ left_of l = ∅ /\ entry_of l = false) as (Hl & Hlf & Hen).
  { cbn in Hpre. destruct outcome as [n|e]; [by subst l|]. by destruct Hpre as [->|(m & d & ->)]. }
  assert (leads_alone γ t) as Hal by (eapply alone; eauto).
  assert (forall n, wanted w γ n -> (dur_data w n \/ n ∈ files (store_dirty w)) /\ (dur_entry w n \/ directory_dirty (store_dirty w) = true)) as Hc.
  { intros n. by eapply cover_store. }
  cbn in E. destruct outcome as [m|e]; simplify_eq.
  - cbn in Hpre. subst l. pose proof (di_lead _ _ HD _ _ _ Ht) as (Hdev & Hm & Hsy).
    eapply dinv_lead; [exact HD|exact Ht|exact Hal|by apply lead_frame_same|by eauto|done|done|done|..]; cbn.
    + intros n HW. destruct (Hc _ HW) as [[?|?] _]; [by left|by right; left].
    + intros n HW. destruct (Hc _ HW) as [_ [?|?]]; [by left|by right; left].
    + intros n [?|?]; [by left|set_solver].
    + intros k p Hrw Hlt. destruct (Z.max_spec (lg_durable (pw_log w)) m) as [[_ E]|[_ E]]; rewrite E in Hlt;
        [exact (Hdev k p Hrw Hlt)|exact (di_reported _ _ HD k p Hrw Hlt)].
    + pose proof (di_max _ _ HD). lia.
    + intros k Hk Hlt. pose proof (di_log _ _ HD k Hk). lia.
  - eapply dinv_lead; [exact HD|exact Ht|exact Hal|by apply lead_frame_same|by eauto|done|done|done|..]; cbn; try apply HD.
    + intros n HW. destruct (Hc _ HW) as [[?|?] _]; [by left|by right; left].
    + intros n HW. destruct (Hc _ HW) as [_ [?|?]]; [by left|by right; left].
    + intros n [?|?]; [by left|set_solver].
Qed.
End leader.

(** ** The invariant *)

Abbreviation pre_both := (fun A (g : option Stage * Lead) (e : PayloadE A) => pre alg A g.1 e /\ lead_pre A g.2 e).
Abbreviation upd_both := (fun A (g : option Stage * Lead) (e : PayloadE A) a => (upd A g.1 e a, lead_upd A g.2 e a)).
Definition Both (w : PayloadWorld) (γ : Tasks) : Prop := PInv alg w (stages γ) /\ DInv w γ.

Lemma both_task w γ t u g A (e : PayloadE A) c a w' :
  Both w γ -> γ !! t = Some (u, g) -> pre_both A g e -> payload_handle A e w c = Some (a, w') ->
  Both w' (<[t := (u, upd_both A g e a)]> γ).
Proof.
  intros [Hp HD] Ht [Hpre Hlp] E. destruct u, g as [g l]. cbn in Hpre, Hlp |- *.
  assert (PInv alg w' (<[t := (tt, upd A g e a)]> (stages γ))) as Hp'.
  { by eapply payload_task; [..|by eapply stages_lookup|done|done]. }
  destruct g as [s|]; [|by destruct (pi_possible _ _ _ Hp t None); [by eapply stages_lookup|]]. cbn [upd] in *.
  destruct (stage_upd s A e a) as [s'|] eqn:Hu.
  2: { exfalso. eapply (pi_possible _ _ _ Hp' t); [by rewrite lookup_insert_eq|done]. }
  split; [by rewrite stages_insert|].
  assert (l = LNone -> lead_upd A l e a = LNone -> DInv w' (<[t := (tt, (Some s', lead_upd A l e a))]> γ)) as Hplain.
  { intros -> Hlu. rewrite Hlu. eapply dinv_task; eauto. by rewrite stages_insert. }
  destruct e; cbn in Hlp; try (by apply Hplain; [done|cbn; by rewrite Hlp]).
  - destruct Hlp as [m ->]. cbn in Hu. simplify_eq. by eapply lead_take.
  - destruct Hlp as (m & todo & entry & ->). cbn in Hu. simplify_eq. destruct a. by eapply lead_restore.
  - destruct Hlp as [->|(m & d & todo & entry & -> & Hin)]; [by apply Hplain|]. by eapply lead_open.
  - destruct Hlp as [->|(m & d & todo & entry & ->)]; [by apply Hplain|]. cbn in Hu. simplify_eq. by eapply lead_sync_dir.
  - destruct Hlp as [->|(m & d & todo & entry & name & ->)]; [by apply Hplain|]. cbn in Hu. simplify_eq. by eapply lead_sync_file.
  - subst l. cbn in Hu. simplify_eq. by eapply lead_mark.
  - destruct Hlp as [d ->]. cbn in Hu. simplify_eq. by eapply lead_sync_log.
  - subst l. destruct a as [n|]; [by apply Hplain|]. cbn in Hu. simplify_eq. by eapply lead_enter.
  - cbn in Hu. simplify_eq. by eapply lead_leave.
Qed.

(** *** The programs *)

Definition calm {R} (p : Payload R) : Prop := prog_ok lead_pre lead_upd (fun l _ => l = LNone) LNone p.

Lemma calm_ret {R} (r : R) : calm (Ret r).
Proof. done. Qed.
Lemma calm_do {A R} (e : PayloadE A) (k : A -> Payload R) :
  lead_pre A LNone e -> (forall a, lead_upd A LNone e a = LNone) -> (forall a, calm (k a)) -> calm (Do e k).
Proof. intros Hp Hu Hk. split; [done|]. intros a. rewrite Hu. apply Hk. Qed.
Lemma calm_perform {A} (e : PayloadE A) : lead_pre A LNone e -> (forall a, lead_upd A LNone e a = LNone) -> calm (perform e).
Proof. intros Hp Hu. by apply calm_do. Qed.
Lemma calm_bind {A B} (m : Payload A) (f : A -> Payload B) : calm m -> (forall a, calm (f a)) -> calm (m ≫= f).
Proof. intros Hm Hf. eapply prog_ok_seq; [apply Hm|]. intros l a ->. apply Hf. Qed.
Lemma calm_try {A B} (m : Payload (PResult A)) (f : A -> Payload (PResult B)) : calm m -> (forall a, calm (f a)) -> calm (try_bind m f).
Proof. intros Hm Hf. apply calm_bind; [done|]. intros [a|e]; [apply Hf|done]. Qed.
Lemma calm_fold {A B} (f : B -> A -> Payload (PResult B)) acc (xs : list A) : (forall b x, calm (f b x)) -> calm (try_fold f acc xs).
Proof. intros Hf. revert acc; induction xs as [|x xs IH]; intros acc; [done|]. apply calm_try; [apply Hf|]. intros b. apply IH. Qed.

(** Follow a program that leads no round; loops are unfolded before. *)
Ltac calmly :=
  repeat first
    [ progress intros | assumption | apply calm_ret | (apply calm_perform; [done || (by left)|done]) | apply calm_try | apply calm_bind
    | apply calm_fold | case_match ].

Lemma calm_loops fuel :
  (forall src i len h, calm (stream_loop fuel src i len h)) /\ (forall i len h, calm (hash_loop fuel i len h)) /\
  (forall src i done_ len, calm (copy_loop fuel src i done_ len)) /\
  (forall src i b o len done_ h, calm (range_loop fuel src i b o len done_ h)) /\
  (forall r acc, calm (read_to_end fuel r acc)) /\ (forall r h len, calm (verify_loop fuel r h len)) /\
  (forall src o len done_ h, calm (hash_range_loop fuel src o len done_ h)).
Proof.
  induction fuel as [|fuel (I1 & I2 & I3 & I4 & I5 & I6 & I7)];
    repeat apply conj; intros; cbn [stream_loop hash_loop copy_loop range_loop read_to_end verify_loop hash_range_loop];
    calmly; unfold reader_read; calmly; apply I1 || apply I2 || apply I3 || apply I4 || apply I5 || apply I6 || apply I7.
Qed.

Lemma calm_capture fuel source : calm (capture alg target_linux fuel source).
Proof.
  destruct source; cbn [capture]; [unfold capture_bytes|unfold capture_file|unfold capture_range];
    calmly; unfold clone_or_copy_range, keep_capture; calmly; apply calm_loops.
Qed.

Lemma calm_snapshot source len : calm (with_snapshot alg source len).
Proof. unfold with_snapshot, capture_snapshot. calmly; apply calm_loops. Qed.

(** The leader syncs every file it took, in order. *)
Definition round_ok (m : Z) (d : DirtyPayloads) (l : Lead) (r : PResult unit) : Prop :=
  match r with Ok _ => l = LTaken m d ∅ false | Err _ => exists todo entry, l = LTaken m d todo entry end.

Lemma ok_sync_files m d entry names todo :
  (forall n, n ∈ names -> n ∈ files d) -> (forall n, n ∈ todo -> n ∈ names) ->
  prog_ok lead_pre lead_upd
    (fun l r => match r with Ok _ => l = LTaken m d ∅ entry | Err _ => exists todo, l = LTaken m d todo entry end)
    (LTaken m d todo entry) (try_each names sync_one).
Proof.
  revert todo; induction names as [|n names IH]; intros todo Hsub Htodo; cbn [try_each].
  { assert (todo = ∅) as ->; [|done]. apply set_eq. set_solver. }
  eapply (prog_ok_try _ _ (fun l r => match r with Ok _ => l = LTaken m d (todo ∖ {[n]}) entry | Err _ => exists todo, l = LTaken m d todo entry end)).
  - unfold sync_one. destruct (lift_name _) as [[]|e]; [|by eexists]. split.
    { right. eexists _, _, _, _. split; [done|]. apply Hsub. by left. }
    intros [i|e]; cbn; [|by eexists]. split; [right; by eexists _, _, _, _, _|]. intros [[]|e]; cbn; [done|by eexists].
  - intros l u ->. apply IH; set_solver.
  - intros l e [todo' ->]. by eexists.
Qed.

Lemma ok_sync_dirty m d :
  prog_ok lead_pre lead_upd (round_ok m d) (LTaken m d (files d) (directory_dirty d)) (sync_dirty d).
Proof.
  eapply prog_ok_try; [apply ok_sync_files; intros n; by rewrite elem_of_sorted_strings| |by intros l e [todo ->]; eexists _, _].
  intros l u ->. destruct (directory_dirty d) eqn:Ed; [|done].
  split; [right; by eexists _, _, _, _|]. intros [[]|e]; cbn; [done|by eexists _, _].
Qed.

Lemma ok_sync_to sequence : prog_ok lead_pre lead_upd (fun l _ => l = LNone) LNone (sync_to sequence).
Proof.
  split; [done|]. intros [n|]; cbn [lead_upd]; [done|].
  eapply (prog_ok_seq _ _ (fun l r => lead_pre _ l (PSyncLeave r))).
  2: { intros l r Hl. split; [exact Hl|done]. }
  split; [done|]. intros m. split; [by eexists|]. intros d.
  eapply (prog_ok_seq _ _ (fun l r => round_ok m d l r /\ (dirty_is_empty d = true -> r = Ok tt))).
  - cbn. destruct (dirty_is_empty d) eqn:Ee; [|eapply prog_ok_mono; [|apply ok_sync_dirty]; done].
    apply andb_true_iff in Ee as [E1 E2]. apply bool_decide_eq_true_1 in E1. apply negb_true_iff in E2. cbn. by rewrite E1, E2.
  - intros l [[]|e] [Hl He]; cbn in Hl.
    + subst l. split; [by eexists|]. intros [[]|e]; cbn; [done|right; by eexists _, _].
    + destruct Hl as (todo & entry & ->). unfold restore_dirty. destruct (dirty_is_empty d) eqn:Ee; [by specialize (He eq_refl)|].
      split; [by eexists _, _, _|]. intros []. by left.
Qed.

Lemma starts_lead t p w :
  payload_starts alg target_linux t p w -> prog_ok lead_pre lead_upd (fun _ _ => True) LNone p.
Proof.
  assert (forall A (m : Payload A), calm m -> prog_ok lead_pre lead_upd (fun _ _ => True) LNone (forget m)) as Hf.
  { intros A m Hm. eapply prog_ok_seq; [exact Hm|done]. }
  destruct 1 as [fuel source w|source len w|sequence w|w|p w|p w|w|w|h source offset len w|cd w Hc].
  - apply Hf, calm_try; [apply calm_capture|]. calmly.
  - apply Hf, calm_snapshot.
  - eapply prog_ok_seq; [apply ok_sync_to|done].
  - apply Hf. unfold seal_active_segment. calmly.
  - apply Hf. unfold verify, open_reader. calmly; unfold reader_read; calmly; apply calm_loops.
  - apply Hf. unfold read_all, open_reader. calmly; unfold reader_read; calmly; apply calm_loops.
  - apply Hf. unfold usage, scan_directory, scan_entry. calmly.
  - apply Hf. unfold persisted_names, scan_directory, scan_entry. calmly.
  - apply Hf. unfold hash_file_range. calmly; apply calm_loops.
  - apply Hf. unfold reclaim, reclaim_one. calmly.
Qed.

Lemma dinv_start w γ t s : DInv w γ -> γ !! t = None -> fresh_stage w s -> DInv w (<[t := (tt, (Some s, LNone))]> γ).
Proof.
  intros HD Ht Hs. set (γ' := <[t := _]> γ).
  assert (forall Q : Lead -> Prop, ~ Q LNone -> some_lead γ' Q -> some_lead γ Q) as Hsl.
  { intros Q HQ (t' & g & l & [(-> & -> & ->)|[_ Ht']]%lookup_move & Hq); [done|by exists t', g, l]. }
  apply (dinv_plain w w γ γ'); [|done]. split; try done.
  - exists []. by rewrite app_nil_r.
  - intros t' g l [(-> & -> & ->)|[_ Ht']]%lookup_move Hl; [done|eauto].
  - intros t' g l Ht' Hl. exists g. unfold γ'. rewrite lookup_insert_ne; [done|]. congruence.
  - intros n i _ Hn. by left.
  - intros n Hn Hded. assert (tracked w γ n) as Htr by (destruct Hn as [?|Hn]; [by left|right; apply Hsl; [set_solver|done]]).
    destruct (di_names _ _ HD _ Htr Hded) as [Hm Hun]. split; [done|].
    intros t' s2 l2 [(-> & [= ->] & _)|[_ H1]]%lookup_move; [|eauto]. by destruct Hs as [->|(c & -> & _)].
  - intros n [t' i o d l Hr Hded [(-> & Es & ->)|[_ Ht']]%lookup_move|k p Hrw ->]; left; [|by eapply wanted_task|by eapply wanted_record].
    injection Es as <-. by destruct Hs as [?|(c & ? & _)].
Qed.

Lemma dinv_env w γ w' : DInv w γ -> payload_env w w' -> DInv w' γ.
Proof.
  intros HD He. assert (retired w ⊆ retired w' /\ minted w' = minted w /\ pw_fs w' = pw_fs w /\ pw_store w' = pw_store w /\ pw_log w' = pw_log w)
    as (Hr & Hm & Hfs & Hst & Hlg) by (destruct He; split_and!; try done; unfold retired; set_solver).
  apply (dinv_plain w w' γ γ); [|done].
  split; unfold store_dirty, boot, records, dir, dur_data, dur_entry, inodes, dir; rewrite ?Hlg, ?Hst, ?Hfs; try done; eauto.
  - exists []. by rewrite app_nil_r.
  - intros n Hn. rewrite Hm. apply HD. destruct Hn as [Hn|?]; [left; unfold store_dirty in *; by rewrite Hst in Hn|by right].
  - intros n [t i o d l Hn Hded Ht|k p (Hb & Hk & Hn & Hded) ->]; left; [eapply wanted_task; [set_solver|done..]|].
    eapply wanted_record; [|done]. unfold rec_wanted, boot, records in *. rewrite Hlg in *. split_and!; try done. set_solver.
Qed.

Lemma dinv_restart w : DInv (restart w) ∅.
Proof.
  assert (forall k p, ~ rec_wanted (restart w) k p) as Hno.
  { intros k p (Hb & Hk & _). apply lookup_lt_Some in Hk. change (boot (restart w)) with (length (records w)) in Hb.
    change (records (restart w)) with (records w) in Hk. lia. }
  split; try (by intros *; rewrite lookup_empty).
  - intros n [t i o d l _ _ Ht|k p Hk _]; [by rewrite lookup_empty in Ht|by destruct (Hno k p)].
  - intros n [Hd|(t & g & l & Ht & _)]; [|by rewrite lookup_empty in Ht]. unfold store_dirty in Hd. cbn in Hd. set_solver.
  - intros k p Hk. by destruct (Hno k p).
  - change (records (restart w)) with (records w). cbn. lia.
  - intros k Hk. change (boot (restart w)) with (length (records w)) in Hk. cbn. unfold zlen. lia.
Qed.

Lemma dinv_init w : payload_init w -> DInv w ∅.
Proof.
  intros (_ & Hst & _ & Hl). assert (records w = []) as Hrec by (unfold records; by rewrite Hl).
  assert (forall k p, ~ rec_wanted w k p) as Hno by (intros k p (_ & Hk & _); by rewrite Hrec in Hk).
  split; try (by intros *; rewrite lookup_empty).
  - intros n [t i o d l _ _ Ht|k p Hk _]; [by rewrite lookup_empty in Ht|by destruct (Hno k p)].
  - intros n [Hd|(t & g & l & Ht & _)]; [|by rewrite lookup_empty in Ht]. unfold store_dirty in Hd. rewrite Hst in Hd. cbn in Hd. set_solver.
  - intros k p Hk. by destruct (Hno k p).
  - rewrite Hl. apply zlen_nonneg.
  - rewrite Hl. cbn. lia.
Qed.

Lemma both_rules :
  InvariantRules payload_handle (payload_starts alg target_linux) payload_env (fun _ => restart) pre_both upd_both
    (fun _ _ => True) Both payload_init.
Proof.
  pose proof (payload_rules alg target_linux) as [Hi _ _ He Hc]. split.
  - intros w Hw. split; [unfold stages; rewrite fmap_empty; by apply Hi|by apply dinv_init].
  - intros *. apply both_task.
  - intros w γ t [] p [Hp HD] Ht Hs. destruct (starts_ok alg target_linux _ _ _ Hs) as (s & Hok & Hfresh).
    exists (Some s, LNone). split.
    + eapply prog_ok_mono; [|eapply prog_ok_both; [exact Hok|by eapply starts_lead]]. done.
    + split; [rewrite stages_insert; apply pinv_start; [done| |done]; unfold stages; by rewrite lookup_fmap, Ht|].
      by apply dinv_start.
  - intros w γ w' [Hp HD] Henv. split; [by eapply He|by eapply dinv_env].
  - intros w γ t [Hp HD]. rewrite filter_unit. split; [|apply dinv_restart].
    unfold stages. rewrite fmap_empty. specialize (Hc w (stages γ) t Hp). by rewrite filter_unit in Hc.
Qed.

(** ** Power loss *)

(** Losing power keeps at least what was synced and not changed since. *)
Record power_loss (w w' : PayloadWorld) : Prop := {
  pl_entries : forall n i, fs_dir_synced (pw_fs w) !! n = Some i -> dir w !! n = Some i -> dir w' !! n = Some i;
  pl_files : forall i node, inodes w !! i = Some node -> exists node', inodes w' !! i = Some node' /\ i_regular node' = i_regular node /\
    forall k b, i_synced node !! k = Some b -> i_data node !! k = Some b -> i_data node' !! k = Some b;
  pl_log : take (lg_synced (pw_log w)) (records w) `prefix_of` records w';
}.

Lemma slice_agree (a b c d : bytes) :
  (forall k x, a !! k = Some x -> b !! k = Some x -> c !! k = Some x) ->
  slice 0 (length d) a = d -> slice 0 (length d) b = d -> slice 0 (length d) c = d.
Proof.
  intros Hab Ha Hb. apply list_eq. intros k.
  assert (forall y : bytes, slice 0 (length d) y !! k = if decide (k < length d) then y !! k else None) as Hs.
  { intros y. rewrite slice_lookup. done. }
  rewrite Hs. case_decide as Hk.
  - destruct (lookup_lt_is_Some_2 d k Hk) as [x Hx]. rewrite Hx. apply Hab.
    + pose proof (Hs a) as E. rewrite Ha in E. congruence.
    + pose proof (Hs b) as E. rewrite Hb in E. congruence.
  - by rewrite lookup_ge_None_2 by lia.
Qed.

(** C9: A record that a sync round reported durable survives losing power together
    with its payload, when the payload has a file of its own: however rounds, captures
    and reclamation interleave and fail, after the loss the log still holds the record
    and the file holds the bytes its hash is of. *)
Theorem reported_payload_survives s w' k p :
  payload_reachable alg target_linux s -> records (world s) !! k = Some p ->
  boot (world s) <= k -> (Z.of_nat k < lg_durable (pw_log (world s)))%Z ->
  dedicated_name (storage_file (storage p)) -> storage_file (storage p) ∉ retired (world s) -> power_loss (world s) w' ->
  records w' !! k = Some p /\
  exists i node d, dir w' !! storage_file (storage p) = Some i /\ inodes w' !! i = Some node /\
    slice 0 (length d) (i_data node) = d /\ length_ p = zlen d /\ payload_hash p = content_hash_of alg d.
Proof.
  intros Hr Hk Hb Hd Hded Hret [Hent Hfil Hlog].
  destruct (system_invariant _ _ _ _ _ _ _ _ _ s both_rules Hr) as (γ & [Hp HD] & _).
  assert (rec_wanted (world s) k p) as Hrw by done. set (w := world s) in *.
  destruct (di_reported _ _ HD k p Hrw Hd) as [(i & node & Hn & Hi & Hs) (j & Hj & Hsj)].
  assert (j = i) as -> by congruence. pose proof (di_log _ _ HD k Hb Hd) as Hkl. split.
  - destruct Hlog as [more ->]. rewrite lookup_app_l; [by rewrite lookup_take_lt|].
    rewrite length_take. apply lookup_lt_Some in Hk. lia.
  - destruct (Hfil _ _ Hi) as (node' & Hi' & _ & Hbytes). destruct (pi_owners _ _ _ Hp) as (ρ & Hρ & Ho).
    destruct (Forall2_lookup_l _ _ _ _ _ Hρ Hk) as (st & Hst & Hrec). destruct Hrec as [?|j2 d Hdes]; [done|].
    destruct (oo_stage _ _ Ho (inr k) _ Hst) as (_ & Hz & _ & [_ He _] & Hcur). destruct (Hz Hded) as [_ Hz0]. rewrite Hz0 in Hcur.
    destruct He as [He|]; [|done]. assert (j2 = i) as -> by congruence. specialize (Hcur _ Hi).
    destruct Hdes as (? & ? & _). exists i, node', d. split_and!; auto.
    apply (slice_agree (i_synced node) (i_data node)); [done|by rewrite Hs|done].
Qed.
End durable.
