(* ===== verification/PayloadScenarios.v ===== *)
(** * Runs of the payload store

    Concrete interleavings: that the theorems apply, and where the code does not do what
    its comments promise. *)

From S2P Require Import Prelude ContentHash MountTypes Effects PayloadStore PayloadSystem PayloadOwners PayloadIntact PayloadReads PayloadDurable.
From Stdlib Require Import ZArith Lia.

(** ** Scripts *)

(** What a caller may start. *)
Inductive Job :=
| JAppend (source : CaptureSource)
| JSync (sequence : Z)
| JSeal
| JReclaim (candidates : gset string).

Inductive Act :=
| Start (i : nat) (j : Job)
| Move (i : nat) (cs : list Choice)
| Retire (name : string)
| Restart.

#[local] Existing Instance toy_hashes.
#[local] Existing Instance toy_hashes_laws.
Definition fuel0 : nat := 4.

Definition job_prog (j : Job) : Payload unit :=
  match j with
  | JAppend source => forget (capture_and_append Sha256 true fuel0 source)
  | JSync sequence => forget (sync_to sequence)
  | JSeal => forget seal_active_segment
  | JReclaim candidates => forget (reclaim candidates)
  end.
Definition job_ok (j : Job) (w : PayloadWorld) : bool :=
  match j with JReclaim candidates => bool_decide (candidates ⊆ retired w) | _ => true end.

Abbreviation PSystem := (@System PayloadE PayloadWorld unit unit).

Definition act (s : PSystem) (a : Act) : option PSystem :=
  match a with
  | Start i j =>
      match tasks s !! i with
      | None => if job_ok j (world s) then Some (MkSystem (world s) (<[i := (tt, job_prog j)]> (tasks s))) else None
      | Some _ => None
      end
  | Move i cs => run_schedule payload_handle s (map (fun c => (i, c)) cs)
  | Retire name => Some (MkSystem (set_names (MkNames (minted (world s)) ({[name]} ∪ retired (world s))) (world s)) (tasks s))
  | Restart => Some (MkSystem (restart (world s)) ∅)
  end.
Fixpoint script (s : PSystem) (acts : list Act) : option PSystem :=
  match acts with
  | [] => Some s
  | a :: acts => match act s a with Some s => script s acts | None => None end
  end.

Abbreviation reachable := (payload_reachable Sha256 true).

Lemma act_reachable s a s' : reachable s -> act s a = Some s' -> reachable s'.
Proof.
  intros Hr E. destruct a as [i j|i cs|name|]; cbn in E.
  - destruct (tasks s !! i) eqn:Ei; [done|]. destruct (job_ok j (world s)) eqn:Ej; [|done]. simplify_eq.
    eapply reach_step; [done|]. eapply step_start; [done|]. destruct j; cbn in *; try constructor. by apply bool_decide_eq_true_1 in Ej.
  - by eapply run_schedule_reachable.
  - simplify_eq. eapply reach_step; [done|]. apply step_env. constructor.
  - simplify_eq. eapply reach_step; [done|].
    pose proof (step_crash payload_handle (payload_starts Sha256 true) payload_env (fun _ => restart) s tt) as Hc.
    by rewrite filter_unit in Hc.
Qed.

Lemma payload_script_reachable s acts s' : reachable s -> script s acts = Some s' -> reachable s'.
Proof.
  revert s; induction acts as [|a acts IH]; intros s Hr; cbn; [by intros [= <-]|].
  destruct (act s a) as [s1|] eqn:Ea; [|done]. intros Hs. eapply IH; [by eapply act_reachable|done].
Qed.

(** A new state directory, and one backing file of three bytes. *)
Definition source_bytes : bytes := [Byte.x01; Byte.x02; Byte.x03].
Definition world0 : PayloadWorld :=
  MkPW (MkFs ∅ ∅ ∅) (MkSources {[0 := MkInode true source_bytes source_bytes]} {["f" := 0]}) (open_store 0)
    (MkNames ∅ ∅) (MkLogWorld [] 0 0 false 0).
Definition system0 : PSystem := MkSystem world0 ∅.
Lemma system0_reachable : reachable system0.
Proof. by apply reach_init. Qed.

Definition ok (n : nat) : list Choice := replicate n CcOk.
Definition the {A} (d : A) (o : option A) : A := default d o.
Definition after (acts : list Act) : PSystem := the system0 (script system0 acts).

Lemma after_reachable acts : reachable (after acts).
Proof.
  unfold after, the. destruct (script system0 acts) as [s|] eqn:E; cbn; [|apply system0_reachable].
  eapply payload_script_reachable; [apply system0_reachable|done].
Qed.

(** ** A payload captured, synced and read *)

(** One small payload in a segment; three bytes of the backing file in a file of their
    own; a sync round. *)
Definition captured_and_synced : list Act :=
  [ Start 0 (JAppend (SourceBytes [Byte.x0a])); Move 0 (ok 3);
    Start 1 (JAppend (SourceRange "f" 0 3)); Move 1 ([CcUuid "u"] ++ ok 7);
    Start 2 (JSync 2); Move 2 (ok 10) ].

Definition synced_world : PayloadWorld := world (after captured_and_synced).
Definition payload_at (w : PayloadWorld) (k : nat) : PayloadRef :=
  the (MkPayloadRef (DedicatedFile "") 0 "" "") (records w !! k).

(** The first payload is in the segment, the second in a file of its own. *)
Lemma payload_read_back_witness :
  storage_file (storage (payload_at synced_world 0)) ∉ retired synced_world /\
  exists data : bytes, length_ (payload_at synced_world 0) = zlen data /\
    exists cs, prog_run payload_handle (verify Sha256 (payload_at synced_world 0)) synced_world cs = Some (Ok tt, synced_world).
Proof.
  assert (retired synced_world = ∅) as Hr by (vm_compute; reflexivity).
  assert (records synced_world !! 0 = Some (payload_at synced_world 0)) as Hk by (vm_compute; reflexivity).
  split; [rewrite Hr; apply not_elem_of_empty|].
  destruct (payload_read_back Sha256 true (after captured_and_synced) (payload_at synced_world 0)) as (data & Hl & _ & _ & _ & _ & Hv).
  - apply after_reachable.
  - eapply list_elem_of_lookup_2. exact Hk.
  - fold synced_world. rewrite Hr. apply not_elem_of_empty.
  - right. vm_compute. reflexivity.
  - exists data. split; [exact Hl|exact Hv].
Defined.

(** What is left when only synced bytes and entries survive. *)
Definition power_cut (w : PayloadWorld) : PayloadWorld :=
  MkPW (MkFs ((fun n => MkInode (i_regular n) (i_synced n) (i_synced n)) <$> inodes w) (fs_dir_synced (pw_fs w)) (fs_dir_synced (pw_fs w)))
    (pw_sources w) (pw_store w) (pw_names w)
    (MkLogWorld (take (lg_synced (pw_log w)) (records w)) (lg_synced (pw_log w)) (lg_durable (pw_log w)) false (lg_boot (pw_log w))).

Lemma power_cut_loss w : power_loss w (power_cut w).
Proof.
  split.
  - intros n i Hs _. exact Hs.
  - intros i node Hi. eexists. split; [unfold inodes at 1; cbn; by rewrite lookup_fmap, Hi|]. split; [done|]. intros k b Hs _. exact Hs.
  - exists []. by rewrite app_nil_r.
Qed.

Lemma reported_payload_survives_witness :
  (Z.of_nat 1 < lg_durable (pw_log synced_world))%Z /\ records (power_cut synced_world) !! 1 = Some (payload_at synced_world 1).
Proof.
  assert (lg_durable (pw_log synced_world) = 2%Z) as Hd by (vm_compute; reflexivity). rewrite Hd. split; [lia|].
  assert (retired synced_world = ∅) as Hr by (vm_compute; reflexivity).
  apply (reported_payload_survives Sha256 true (after captured_and_synced) (power_cut synced_world) 1 (payload_at synced_world 1)).
  - apply after_reachable.
  - vm_compute. reflexivity.
  - assert (boot synced_world = 0) as Hb by (vm_compute; reflexivity). fold synced_world. rewrite Hb. lia.
  - fold synced_world. rewrite Hd. lia.
  - vm_compute. reflexivity.
  - fold synced_world. rewrite Hr. apply not_elem_of_empty.
  - apply power_cut_loss.
Defined.

(** ** A sync round that takes a segment before its bytes are written *)

(** A payload is in the segment; another capture reserves the next range; a sync round
    runs; the reserved range is written and its record appended; a second sync round
    finds nothing to sync. *)
Definition reserved_during_sync : list Act :=
  [ Start 0 (JAppend (SourceBytes [Byte.x09])); Move 0 (ok 3);
    Start 1 (JAppend (SourceBytes [Byte.x0a])); Move 1 (ok 1);
    Start 2 (JSync 1); Move 2 (ok 8);
    Move 1 (ok 2);
    Start 3 (JSync 2); Move 3 (ok 5) ].

Definition lost_world : PayloadWorld := world (after reserved_during_sync).

(** The record [k] of the log, made in this run of the process, is reported to be
    durable and its payload is still referred to. *)
Definition reported (s : PSystem) (k : nat) (p : PayloadRef) : Prop :=
  records (world s) !! k = Some p /\ boot (world s) <= k /\ (Z.of_nat k < lg_durable (pw_log (world s)))%Z /\
  storage_file (storage p) ∉ retired (world s).

(** A record can be reported durable while its payload is not: a segment is marked
    for syncing when a range of it is reserved, so a sync round between the reservation
    and the write takes the mark away, and the round that covers the record syncs only
    the log. Losing power then leaves a record whose payload cannot be read. *)
Theorem reported_segment_lost :
  exists s p w', reachable s /\ reported s 1 p /\ power_loss (world s) w' /\ records w' !! 1 = Some p /\
    prog_run payload_handle (read_all p) w' [CcOk; CcOk] = Some (Err (PShorter (storage_file (storage p)) 1 2), w').
Proof.
  exists (after reserved_during_sync), (payload_at lost_world 1), (power_cut lost_world). fold lost_world.
  assert (retired lost_world = ∅) as Hr by (vm_compute; reflexivity).
  assert (lg_durable (pw_log lost_world) = 2%Z) as Hd by (vm_compute; reflexivity).
  assert (boot lost_world = 0) as Hb by (vm_compute; reflexivity).
  split; [apply after_reachable|]. split; [|split; [apply power_cut_loss|split; vm_compute; reflexivity]].
  unfold reported. fold lost_world. split; [vm_compute; reflexivity|]. split; [rewrite Hb; lia|]. split; [rewrite Hd; lia|].
  rewrite Hr. apply not_elem_of_empty.
Qed.

(** ** An empty payload after a failed write *)

Definition empty_after_failure : list Act :=
  [ Start 0 (JAppend (SourceBytes [Byte.x09; Byte.x0a])); Move 0 [CcOk; CcLanded 0];
    Start 1 (JAppend (SourceBytes [])); Move 1 (ok 3) ].
Definition empty_world : PayloadWorld := world (after empty_after_failure).

(** The range of an empty payload begins where the reservation before it ends, which is
    past the end of the file when that reservation was never written; reading the
    payload of an empty file is then refused. *)
Lemma empty_payload_unreadable :
  exists p, records empty_world !! 0 = Some p /\ length_ p = 0%Z /\
    prog_run payload_handle (read_all p) empty_world [CcOk; CcOk] = Some (Err (PShorter (storage_file (storage p)) 2 2), empty_world).
Proof. exists (payload_at empty_world 0). split; [vm_compute; reflexivity|]. split; vm_compute; reflexivity. Qed.

(** ** Segment names *)

Definition seg0 : string := "segment-00000000000000000000.bin".
Definition reclaimed_then_restarted : list Act :=
  [ Start 0 (JAppend (SourceBytes [Byte.x09])); Move 0 (ok 3);
    Start 1 (JSync 1); Move 1 (ok 8); Start 2 JSeal; Move 2 (ok 1);
    Retire seg0; Start 3 (JReclaim {[seg0]}); Move 3 (ok 4); Restart;
    Start 4 (JAppend (SourceBytes [Byte.x0a])); Move 4 (ok 3) ].

(** The counter is recovered from the files that are left, so the name of a reclaimed
    segment is used again: two records refer to the same range with different content. *)
Lemma segment_name_reused :
  let w := world (after reclaimed_then_restarted) in
  storage (payload_at w 0) = storage (payload_at w 1) /\ payload_hash (payload_at w 0) ≠ payload_hash (payload_at w 1) /\
  length (records w) = 2.
Proof. split; [vm_compute; reflexivity|]. split; [vm_compute; congruence|vm_compute; reflexivity]. Qed.

(** ** Reclaiming a segment that is being written *)

Definition reclaimed_while_reserved : list Act :=
  [ Start 0 (JAppend (SourceBytes [Byte.x09])); Move 0 (ok 3);
    Start 1 (JAppend (SourceBytes [Byte.x0a])); Move 1 (ok 1);
    Start 2 (JSync 1); Move 2 (ok 8); Start 3 JSeal; Move 3 (ok 1);
    Retire seg0; Start 4 (JReclaim {[seg0]}); Move 4 (ok 4);
    Move 1 (ok 2) ].

(** A reserved range does not protect a sealed and synced segment: the capture succeeds
    and its record refers to a file that is gone. *)
Lemma reservation_not_protected :
  let w := world (after reclaimed_while_reserved) in
  exists p, records w !! 1 = Some p /\ prog_run payload_handle (read_all p) w [CcOk] = Some (Err (PIo "not found"), w).
Proof. exists (payload_at (world (after reclaimed_while_reserved)) 1). split; vm_compute; reflexivity. Qed.

(** ** A restart reports what was never synced *)

Definition restarted_unsynced : list Act :=
  [ Start 0 (JAppend (SourceBytes [Byte.x09])); Move 0 (ok 3); Restart; Start 1 (JSync 1); Move 1 (ok 1) ].

(** After a restart every record of the log counts as durable; asking for it to be
    synced returns at once, and nothing of its payload is on the device. *)
Lemma restart_reports_unsynced :
  let s := after restarted_unsynced in
  tasks s !! 1 = Some (tt, Ret tt) /\ lg_durable (pw_log (world s)) = 1%Z /\ fs_dir_synced (pw_fs (world s)) = ∅ /\
  lg_synced (pw_log (world s)) = 0.
Proof. split; [vm_compute; reflexivity|]. split; [vm_compute; reflexivity|]. split; vm_compute; reflexivity. Qed.
