(* ===== verification/LazyTable.v ===== *)
(** * The table of placeholders

    Model of [LazyContent] (local_view/lazy.rs): the placeholders of a mount that still
    wait for their bytes. Each function below is one critical section under the mutex of
    the table; [ensure_round] is one pass of the loop an open waits in. The invariant
    [table_ok] ties the index by path to the members of the entries and the counter to
    their number, and every section keeps it. *)

From S2P Require Import Prelude.
From Stdlib Require Import ZArith Lia NArith Ascii String.

(** ** Data *)

Record Placeholder := MkPlaceholder { ph_size : Z; ph_hash : option string }.
Global Instance Placeholder_eq_dec : EqDecision Placeholder.
Proof. solve_decision. Defined.

Record PendingEntry := MkPending { members : list string; placeholder : Placeholder }.

Inductive FillStatus := Pending | Fetching | Failed (error : string).
Global Instance FillStatus_eq_dec : EqDecision FillStatus.
Proof. solve_decision. Defined.

Record LazyEntry := MkLazyEntry { le_pending : PendingEntry; le_status : FillStatus }.

(** [LazyContent]: its [State] and the counter of entries not filled yet. *)
Record LazyContent := MkLazy {
  lz_entries : gmap Z LazyEntry;
  lz_by_path : gmap string Z;
  lz_next_id : Z;
  lz_outstanding : Z;
}.

Definition lazy_new : LazyContent := MkLazy ∅ ∅ 0 0.

Definition set_status (st : FillStatus) (e : LazyEntry) : LazyEntry := MkLazyEntry (le_pending e) st.
Definition set_entries (es : gmap Z LazyEntry) (t : LazyContent) : LazyContent :=
  MkLazy es (lz_by_path t) (lz_next_id t) (lz_outstanding t).
Definition decrement (t : LazyContent) : LazyContent :=
  MkLazy (lz_entries t) (lz_by_path t) (lz_next_id t) (lz_outstanding t - 1).

Definition str_ltb (s t : string) : bool := negb (str_leb t s).

(** ** Sections *)

(** The names at or below [prefix]: its own, then a range of the ordered index. *)
Definition in_range (prefix path : string) : bool :=
  str_leb (prefix +:+ "/") path && str_ltb path (prefix +:+ "0").
Definition within (t : LazyContent) (prefix : string) : list string :=
  let names := sorted_strings (dom (lz_by_path t)) in
  if String.eqb prefix "" then names
  else (if decide (is_Some (lz_by_path t !! prefix)) then [prefix] else []) ++ List.filter (in_range prefix) names.

Definition ids_within (t : LazyContent) (prefix : string) : gset Z :=
  list_to_set (omap (fun p => lz_by_path t !! p) (within t prefix)).

Definition drop_member (path : string) (e : LazyEntry) : LazyEntry :=
  MkLazyEntry (MkPending (List.filter (fun m => negb (String.eqb m path)) (members (le_pending e)))
                 (placeholder (le_pending e))) (le_status e).

Definition detach (path : string) (t : LazyContent) : option Z * LazyContent :=
  match lz_by_path t !! path with
  | None => (None, t)
  | Some id =>
      (Some id, MkLazy (alter (drop_member path) id (lz_entries t)) (delete path (lz_by_path t))
                  (lz_next_id t) (lz_outstanding t))
  end.

Definition unnamed (e : LazyEntry) : bool :=
  match members (le_pending e) with [] => negb (bool_decide (le_status e = Fetching)) | _ => false end.

(** [drop_if_unnamed] and the decrement its callers make when it dropped something. *)
Definition drop_if_unnamed (id : Z) (t : LazyContent) : LazyContent :=
  match lz_entries t !! id with
  | Some e => if unnamed e then decrement (set_entries (delete id (lz_entries t)) t) else t
  | None => t
  end.

Definition forget_name (path : string) (t : LazyContent) : LazyContent :=
  match detach path t with
  | (Some id, t) => drop_if_unnamed id t
  | (None, t) => t
  end.

Definition register (ms : list string) (p : Placeholder) (t : LazyContent) : LazyContent :=
  let t := foldl (fun t m => forget_name m t) t ms in
  let id := lz_next_id t in
  MkLazy (<[id := MkLazyEntry (MkPending ms p) Pending]> (lz_entries t))
    (foldl (fun names m => <[m := id]> names) (lz_by_path t) ms) (id + 1) (lz_outstanding t + 1).

Definition clear (t : LazyContent) : LazyContent := MkLazy ∅ ∅ (lz_next_id t) 0.

Definition is_fetching (t : LazyContent) (path : string) : bool :=
  match lz_by_path t !! path with
  | Some id => match lz_entries t !! id with Some e => bool_decide (le_status e = Fetching) | None => false end
  | None => false
  end.

Definition forget_unless_fetching (path : string) (t : LazyContent) : bool * LazyContent :=
  if is_fetching t path then (false, t) else (true, forget_name path t).

Definition retry_failed (t : LazyContent) : LazyContent :=
  set_entries ((fun e => match le_status e with Failed _ => set_status Pending e | _ => e end) <$> lz_entries t) t.

Definition claim (id : Z) (t : LazyContent) : option PendingEntry * LazyContent :=
  match lz_entries t !! id with
  | Some e =>
      if bool_decide (le_status e = Pending)
      then (Some (le_pending e), set_entries (<[id := set_status Fetching e]> (lz_entries t)) t)
      else (None, t)
  | None => (None, t)
  end.

Definition snapshot (id : Z) (t : LazyContent) : option PendingEntry := le_pending <$> lz_entries t !! id.

Definition release (id : Z) (t : LazyContent) : LazyContent :=
  drop_if_unnamed id
    (set_entries (alter (fun e => if bool_decide (le_status e = Fetching) then set_status Pending e else e) id (lz_entries t)) t).

Definition unname (id : Z) (names : gmap string Z) (m : string) : gmap string Z :=
  if bool_decide (names !! m = Some id) then delete m names else names.

Definition complete (id : Z) (t : LazyContent) : LazyContent :=
  match lz_entries t !! id with
  | Some e =>
      MkLazy (delete id (lz_entries t)) (foldl (unname id) (lz_by_path t) (members (le_pending e)))
        (lz_next_id t) (lz_outstanding t - 1)
  | None => t
  end.

Definition fail (id : Z) (error : string) (t : LazyContent) : LazyContent :=
  drop_if_unnamed id (set_entries (alter (set_status (Failed error)) id (lz_entries t)) t).

(** Pending ids by the first name of their entry. *)
Definition first_name (e : LazyEntry) : string := default EmptyString (head (members (le_pending e))).
Definition name_id_le (a b : string * Z) : Prop :=
  if decide (a.1 = b.1) then (a.2 <= b.2)%Z else str_le a.1 b.1.
Global Instance name_id_le_dec : RelDecision name_id_le.
Proof. intros a b. unfold name_id_le. case_decide; apply _. Defined.
Definition pending_ids (t : LazyContent) : list Z :=
  snd <$> merge_sort name_id_le
    (omap (fun '(id, e) => if bool_decide (le_status e = Pending) then Some (first_name e, id) else None)
       (map_to_list (lz_entries t))).

(** One pass of [ensure_ids] over the ids: what to do next, the ids asked for so far, and
    the fetches started. [alive]: the hydrator is still there. *)
Inductive Round := RoundDone | RoundWaits | RoundFails (error : string).

Fixpoint ensure_round (alive : bool) (ids : list Z) (waiting : bool) (requested : gset Z) (t : LazyContent) :
    Round * gset Z * list Z * LazyContent :=
  match ids with
  | [] => (if waiting then RoundWaits else RoundDone, requested, [], t)
  | id :: ids =>
      match lz_entries t !! id with
      | None => ensure_round alive ids waiting requested t
      | Some e =>
          let start :=
            let requested := {[id]} ∪ requested in
            if alive then
              let '(r, requested, started, t) :=
                ensure_round alive ids true requested (set_entries (<[id := set_status Fetching e]> (lz_entries t)) t) in
              (r, requested, id :: started, t)
            else (RoundFails "the mount is shutting down", requested, [], t) in
          match le_status e with
          | Fetching => ensure_round alive ids true requested t
          | Failed error => if bool_decide (id ∈ requested) then (RoundFails error, requested, [], t) else start
          | Pending => start
          end
      end
  end.

(** ** What the range of names holds *)

Lemma slash_range_spec p : str_leb "/" p && negb (str_leb "0" p) = starts_with "/" p.
Proof.
  destruct p as [|c p]; [done|]. cbn. change (N_of_ascii "/") with 47%N. change (N_of_ascii "0") with 48%N.
  assert (Ascii.eqb "/" c = (N_of_ascii c =? 47)%N) as ->.
  { destruct (N.eqb_spec (N_of_ascii c) 47) as [E|E].
    - assert (c = "/"%char) as -> by (apply N_of_ascii_inj; done). done.
    - destruct (Ascii.eqb_spec "/" c) as [<-|]; [by destruct E|done]. }
  destruct (N.ltb_spec 47 (N_of_ascii c)), (N.eqb_spec 47 (N_of_ascii c)), (N.ltb_spec 48 (N_of_ascii c)),
    (N.eqb_spec 48 (N_of_ascii c)), (N.eqb_spec (N_of_ascii c) 47); try lia; by destruct p.
Qed.

(** The range of a directory is exactly what is below it. *)
Lemma in_range_spec prefix p : in_range prefix p = starts_with (prefix +:+ "/") p.
Proof.
  unfold in_range, str_ltb. revert p; induction prefix as [|a prefix IH]; intros p; [apply slash_range_spec|].
  destruct p as [|c p]; [done|]. rewrite !str_app_cons. cbn.
  destruct (N.ltb_spec (N_of_ascii a) (N_of_ascii c)) as [Hlt|Hge].
  - cbn. destruct (Ascii.eqb_spec a c) as [->|]; [lia|done].
  - destruct (N.eqb_spec (N_of_ascii a) (N_of_ascii c)) as [E|E].
    + apply N_of_ascii_inj in E as ->. rewrite Ascii.eqb_refl. cbn. apply IH.
    + destruct (Ascii.eqb_spec a c) as [->|]; done.
Qed.

Definition below (prefix path : string) : Prop :=
  prefix = "" \/ path = prefix \/ starts_with (prefix +:+ "/") path = true.

Lemma elem_of_within t prefix p : p ∈ within t prefix <-> is_Some (lz_by_path t !! p) /\ below prefix p.
Proof.
  unfold within, below. destruct (String.eqb_spec prefix "") as [->|Hne].
  - rewrite elem_of_sorted_strings, elem_of_dom. naive_solver.
  - rewrite elem_of_app, elem_of_List_filter, elem_of_sorted_strings, elem_of_dom, in_range_spec.
    case_decide as Hp; rewrite ?list_elem_of_singleton, ?elem_of_nil; naive_solver.
Qed.

(** ** The invariant of the table *)

Lemma map_size_alter {A} (f : A -> A) i (m : gmap Z A) : size (alter f i m) = size m.
Proof. by rewrite <- !size_dom, dom_alter_L. Qed.


Record table_ok (t : LazyContent) : Prop := {
  to_path : forall p id, lz_by_path t !! p = Some id <->
    exists e, lz_entries t !! id = Some e /\ p ∈ members (le_pending e);
  to_named : forall id e, lz_entries t !! id = Some e -> unnamed e = false;
  to_next : forall id, is_Some (lz_entries t !! id) -> (id < lz_next_id t)%Z;
  to_count : lz_outstanding t = Z.of_nat (size (lz_entries t));
}.

Lemma table_ok_new : table_ok lazy_new.
Proof.
  split; [intros p id; split; [|intros (e & He & _)]|intros id e He|intros id [e He]|done].
  all: cbn in *; rewrite ?lookup_empty in *; done.
Qed.

(** The pieces of a section: all of the invariant but that nobody is unnamed. *)
Record linked_ok (id : Z) (t : LazyContent) : Prop := {
  lo_path : forall p i, lz_by_path t !! p = Some i <->
    exists e, lz_entries t !! i = Some e /\ p ∈ members (le_pending e);
  lo_named : forall i e, i ≠ id -> lz_entries t !! i = Some e -> unnamed e = false;
  lo_next : forall i, is_Some (lz_entries t !! i) -> (i < lz_next_id t)%Z;
  lo_count : lz_outstanding t = Z.of_nat (size (lz_entries t));
}.

Lemma table_linked id t : table_ok t -> linked_ok id t.
Proof. intros [H1 H2 H3 H4]. split; eauto. Qed.

Lemma drop_if_unnamed_ok id t : linked_ok id t -> table_ok (drop_if_unnamed id t).
Proof.
  intros [H1 H2 H3 H4]. unfold drop_if_unnamed. destruct (lz_entries t !! id) as [e|] eqn:Ee.
  - destruct (unnamed e) eqn:Eu.
    + split; cbn.
      * intros p i. rewrite H1. split; intros (e' & He & Hp); exists e'; (split; [|done]).
        -- apply lookup_delete_Some. split; [|done]. intros <-. rewrite Ee in He. injection He as <-.
           unfold unnamed in Eu. destruct (members (le_pending e)) eqn:Em; [by apply elem_of_nil in Hp|done].
        -- by apply lookup_delete_Some in He as [_ He].
      * intros i e' [Hne He]%lookup_delete_Some. eauto.
      * intros i [e' [_ He]%lookup_delete_Some]. eauto.
      * rewrite H4, map_size_delete_Some by done. assert (size (lz_entries t) ≠ 0) by (intros E%map_size_empty_inv; by rewrite E, lookup_empty in Ee). lia.
    + split; [done| |done..]. intros i e' He. destruct (decide (i = id)) as [->|]; [by simplify_eq|eauto].
  - split; [done| |done..]. intros i e' He. destruct (decide (i = id)) as [->|]; [congruence|eauto].
Qed.

(** Changing the status of an entry. *)
Lemma restatus_linked id (f : LazyEntry -> LazyEntry) t :
  table_ok t -> (forall e, le_pending (f e) = le_pending e) -> linked_ok id (set_entries (alter f id (lz_entries t)) t).
Proof.
  intros [H1 H2 H3 H4] Hf. split; cbn.
  - intros p i. rewrite H1. destruct (decide (i = id)) as [->|Hne]; [|by rewrite lookup_alter_ne].
    rewrite lookup_alter_eq. destruct (lz_entries t !! id) as [e|]; cbn; [|by split; intros (? & ? & _)].
    split; intros (e' & [= <-] & Hp); eexists; (split; [done|]); by rewrite Hf in *.
  - intros i e Hne. rewrite lookup_alter_ne by done. apply H2.
  - intros i [e He]. apply H3. destruct (decide (i = id)) as [->|Hne]; [|rewrite lookup_alter_ne in He by done; eauto].
    rewrite lookup_alter_eq in He. by destruct (lz_entries t !! id).
  - by rewrite H4, map_size_alter.
Qed.

Lemma insert_as_alter (es : gmap Z LazyEntry) id e st :
  es !! id = Some e -> <[id := set_status st e]> es = alter (set_status st) id es.
Proof. intros He. apply map_eq. intros i. destruct (decide (i = id)) as [->|].
  - by rewrite lookup_insert_eq, lookup_alter_eq, He.
  - by rewrite lookup_insert_ne, lookup_alter_ne.
Qed.

Lemma fetching_ok id t : table_ok t -> is_Some (lz_entries t !! id) ->
  table_ok (set_entries (alter (set_status Fetching) id (lz_entries t)) t).
Proof.
  intros Ht [e He]. destruct (restatus_linked id (set_status Fetching) t Ht) as [H1 H2 H3 H4]; [done|].
  split; [done| |done..]. intros i e'. destruct (decide (i = id)) as [->|]; [|eauto]. cbn. rewrite lookup_alter_eq, He.
  cbn. intros [= <-]. unfold unnamed. cbn. by destruct (members (le_pending e)).
Qed.

Lemma forget_name_ok path t : table_ok t -> table_ok (forget_name path t).
Proof.
  intros Ht. unfold forget_name, detach. destruct (lz_by_path t !! path) as [id|] eqn:Ep; [|done].
  apply drop_if_unnamed_ok. destruct Ht as [H1 H2 H3 H4]. split; cbn.
  - intros p i. rewrite lookup_delete_Some, H1. destruct (decide (i = id)) as [->|Hne].
    + rewrite lookup_alter_eq. destruct (lz_entries t !! id) as [e|] eqn:Ee; cbn; [|by split; [intros (_ & ? & ? & _)|intros (? & ? & _)]].
      split.
      * intros (Hp & e' & [= <-] & Hm). eexists. split; [done|]. cbn. apply elem_of_List_filter.
        split; [done|]. apply negb_true_iff, String.eqb_neq. congruence.
      * intros (e' & [= <-] & Hm). cbn in Hm. apply elem_of_List_filter in Hm as [Hm Hb].
        apply negb_true_iff, String.eqb_neq in Hb. split; [congruence|eauto].
    + rewrite lookup_alter_ne by done. split; [by intros [_ ?]|]. intros (e & He & Hm). split; [|eauto].
      intros <-. apply Hne. assert (lz_by_path t !! path = Some i) by (apply H1; eauto). congruence.
  - intros i e Hne. rewrite lookup_alter_ne by done. apply H2.
  - intros i [e He]. apply H3. destruct (decide (i = id)) as [->|]; [|rewrite lookup_alter_ne in He by done; eauto].
    rewrite lookup_alter_eq in He. by destruct (lz_entries t !! id).
  - by rewrite H4, map_size_alter.
Qed.

Lemma forget_by_path path t : lz_by_path (forget_name path t) = delete path (lz_by_path t).
Proof.
  unfold forget_name, detach. destruct (lz_by_path t !! path) as [id|] eqn:Ep; [|by rewrite delete_id].
  unfold drop_if_unnamed. cbn. by repeat case_match.
Qed.

Lemma unname_lookup id ms : forall names p i,
  foldl (unname id) names ms !! p = Some i <-> names !! p = Some i /\ ~ (i = id /\ p ∈ ms).
Proof.
  induction ms as [|m ms IH]; intros names p i; cbn [foldl].
  - split; [|by intros [? _]]. intros H. split; [done|]. by intros [_ ?%elem_of_nil].
  - rewrite IH, elem_of_cons. unfold unname. case_bool_decide as Hm.
    + rewrite lookup_delete_Some. split; [|naive_solver]. intros [[Hne H] Hn]. split; [done|]. intros [-> [->|?]]; naive_solver.
    + split; [|naive_solver]. intros [H Hn]. split; [done|]. intros [-> [->|?]]; naive_solver.
Qed.

Lemma register_lookup id ms : forall names p i,
  foldl (fun (n : gmap string Z) m => <[m := id]> n) names ms !! p = Some i <-> (p ∈ ms /\ i = id) \/ (p ∉ ms /\ names !! p = Some i).
Proof.
  induction ms as [|m ms IH]; intros names p i; cbn [foldl].
  - split; [|by intros [[?%elem_of_nil _]|[_ ?]]]. intros H. right. split; [apply not_elem_of_nil|done].
  - rewrite IH, elem_of_cons. rewrite lookup_insert_Some. destruct (decide (m = p)) as [->|]; destruct (decide (p ∈ ms)); naive_solver.
Qed.

Lemma forget_all_ok ms : forall t, table_ok t -> table_ok (foldl (fun t m => forget_name m t) t ms).
Proof. induction ms as [|m ms IH]; intros t Ht; [done|]. by apply IH, forget_name_ok. Qed.

Lemma forget_all_by_path ms : forall t p i,
  lz_by_path (foldl (fun t m => forget_name m t) t ms) !! p = Some i <-> p ∉ ms /\ lz_by_path t !! p = Some i.
Proof.
  induction ms as [|m ms IH]; intros t p i; cbn [foldl].
  - split; [|by intros [_ ?]]. intros H. split; [apply not_elem_of_nil|done].
  - rewrite IH, forget_by_path, lookup_delete_Some, not_elem_of_cons. naive_solver.
Qed.

Lemma next_free t : table_ok t -> lz_entries t !! lz_next_id t = None.
Proof. intros Ht. apply eq_None_not_Some. intros H%(to_next _ Ht). lia. Qed.

Lemma register_ok ms p t : ms ≠ [] -> table_ok t -> table_ok (register ms p t).
Proof.
  intros Hms Ht. unfold register. cbn zeta. pose proof (forget_all_by_path ms t) as Hb.
  apply (forget_all_ok ms) in Ht. set (t1 := foldl _ t ms) in *. pose proof (next_free _ Ht) as Hn.
  destruct Ht as [H1 H2 H3 H4]. split; cbn.
  - intros q i. rewrite register_lookup, H1. split.
    + intros [[Hq ->]|[Hq (e & He & Hm)]].
      * exists (MkLazyEntry (MkPending ms p) Pending). by rewrite lookup_insert_eq.
      * exists e. split; [|done]. apply lookup_insert_Some. right. split; [|done]. intros <-. congruence.
    + intros (e & [[<- <-]|[Hne He]]%lookup_insert_Some & Hm); [by left|]. right. split; [|eauto].
      assert (lz_by_path t1 !! q = Some i) as Hq by (apply H1; eauto). by apply Hb in Hq as [? _].
  - intros i e [[<- <-]|[_ He]]%lookup_insert_Some; [|eauto]. unfold unnamed. cbn. by destruct ms.
  - intros i [e [[<- <-]|[_ He]]%lookup_insert_Some]; [lia|]. assert (i < lz_next_id t1)%Z by eauto. lia.
  - rewrite H4, map_size_insert_None by done. lia.
Qed.

Lemma clear_ok t : table_ok (clear t).
Proof.
  split; [intros p id; split; [|intros (e & He & _)]|intros id e He|intros id [e He]|done].
  all: cbn in *; rewrite ?lookup_empty in *; done.
Qed.

Lemma forget_unless_fetching_ok path t : table_ok t -> table_ok (forget_unless_fetching path t).2.
Proof. intros Ht. unfold forget_unless_fetching. case_match; [done|]. by apply forget_name_ok. Qed.

Lemma retry_failed_ok t : table_ok t -> table_ok (retry_failed t).
Proof.
  intros [H1 H2 H3 H4]. set (f e := match le_status e with Failed _ => set_status Pending e | _ => e end).
  assert (forall e, le_pending (f e) = le_pending e) as Hf by (intros e; unfold f; by case_match).
  split; cbn; fold f.
  - intros p i. rewrite H1. setoid_rewrite lookup_fmap_Some. split.
    + intros (e & He & Hm). exists (f e). rewrite Hf. eauto.
    + intros (? & (e & <- & He) & Hm). rewrite Hf in Hm. eauto.
  - intros i ? (e & <- & He)%lookup_fmap_Some. specialize (H2 _ _ He). unfold unnamed in *. rewrite Hf.
    destruct (members (le_pending e)); [|done]. unfold f. by destruct (le_status e) eqn:Es; rewrite ?Es.
  - intros i [? (e & <- & He)%lookup_fmap_Some]. eauto.
  - by rewrite H4, map_size_fmap.
Qed.

Lemma claim_ok id t : table_ok t -> table_ok (claim id t).2.
Proof.
  intros Ht. unfold claim. destruct (lz_entries t !! id) as [e|] eqn:Ee; [|done]. case_match; [|done]. cbn.
  rewrite (insert_as_alter _ _ _ _ Ee). by apply fetching_ok.
Qed.

Lemma release_entry_ok id t : table_ok t -> table_ok (release id t).
Proof. intros Ht. apply drop_if_unnamed_ok, restatus_linked; [done|]. intros e. by case_match. Qed.

Lemma fail_ok id error t : table_ok t -> table_ok (fail id error t).
Proof. intros Ht. by apply drop_if_unnamed_ok, restatus_linked. Qed.

Lemma complete_ok id t : table_ok t -> table_ok (complete id t).
Proof.
  intros [H1 H2 H3 H4]. unfold complete. destruct (lz_entries t !! id) as [e|] eqn:Ee; [|done]. split; cbn.
  - intros p i. rewrite unname_lookup, H1. split.
    + intros [(e' & He & Hm) Hn]. exists e'. split; [|done]. apply lookup_delete_Some. split; [|done].
      intros <-. apply Hn. rewrite Ee in He. by injection He as <-.
    + intros (e' & [Hne He]%lookup_delete_Some & Hm). split; [eauto|]. naive_solver.
  - intros i e' [_ He]%lookup_delete_Some. eauto.
  - intros i [e' [_ He]%lookup_delete_Some]. eauto.
  - rewrite H4, map_size_delete_Some by done. assert (size (lz_entries t) ≠ 0) by (intros E%map_size_empty_inv; by rewrite E, lookup_empty in Ee). lia.
Qed.

Lemma ensure_round_ok alive ids : forall waiting requested t r q st t',
  table_ok t -> ensure_round alive ids waiting requested t = (r, q, st, t') -> table_ok t'.
Proof.
  induction ids as [|id ids IH]; intros waiting requested t r q st t' Ht; cbn [ensure_round]; [by intros [= _ _ _ <-]|].
  destruct (lz_entries t !! id) as [e|] eqn:Ee; [|by eapply IH].
  assert ((if alive then
      let '(r, requested, started, t) := ensure_round alive ids true ({[id]} ∪ requested) (set_entries (<[id := set_status Fetching e]> (lz_entries t)) t) in
      (r, requested, id :: started, t)
    else (RoundFails "the mount is shutting down", {[id]} ∪ requested, [], t)) = (r, q, st, t') -> table_ok t') as Hs.
  { destruct alive; [|by intros [= _ _ _ <-]]. destruct (ensure_round _ _ _ _ _) as [[[r1 q1] st1] t1] eqn:E1.
    intros [= _ _ _ <-]. eapply IH; [|done]. rewrite (insert_as_alter _ _ _ _ Ee). by apply fetching_ok. }
  cbn zeta. destruct (le_status e); [done|by eapply IH|]. case_bool_decide; [by intros [= _ _ _ <-]|done].
Qed.

(** No entry is fetched twice in a pass. *)
Lemma pending_ids_NoDup t : NoDup (pending_ids t).
Proof.
  unfold pending_ids. rewrite merge_sort_Permutation. pose proof (NoDup_fst_map_to_list (lz_entries t)) as Hnd.
  induction (map_to_list (lz_entries t)) as [|[id e] l IH]; [constructor|]. cbn in Hnd. apply NoDup_cons in Hnd as [Hni Hnd].
  cbn. case_bool_decide; [|by apply IH]. cbn. constructor; [|by apply IH]. intros Hin. apply Hni.
  apply list_elem_of_fmap in Hin as ([s i] & -> & Hin). apply list_elem_of_omap in Hin as ([i' e'] & Hin & Heq).
  case_bool_decide; [|done]. simplify_eq. apply list_elem_of_fmap. by exists (i, e').
Qed.
