(* ===== verification/LazyFill.v ===== *)
(** * Filling placeholders, and the mount operations that wait for them

    The fetching side of [MountHydrator] (local_view/hydrate.rs), the waiting side of
    [LazyContent] (lazy.rs) and the operations of [MountLocalView] (mount.rs) that reach
    a file's content or its names, as programs. Each critical section of the table, each
    call on the backing tree and each request to the gateway is one operation, so opens,
    fills and namespace changes interleave between any two of them. What the mount does
    besides (its log, locks, dirty markers and append lineages) is a call that succeeds or
    fails. Times are not modelled, nor are the log lines. *)

From S2P Require Import Prelude ContentHash MountTypes Effects PayloadStore LazyTable.
From Stdlib Require Import ZArith Lia NArith Ascii String.

(** ** Errors and answers *)

Inductive Errno := ENOENT | ENOTDIR | EISDIR | ELOOP | EIO | EROFS | EINVAL | ENOSPC | ENOTSUP | EOTHER.
Global Instance Errno_eq_dec : EqDecision Errno.
Proof. solve_decision. Defined.

Inductive LazyError := Sys (e : Errno) | Bail (what : string).
Abbreviation LResult := (result LazyError).

(** An open file: its inode, and who opened it. *)
Inductive Opener := ByGuest | ByFill (id : Z).
Global Instance Opener_eq_dec : EqDecision Opener.
Proof. solve_decision. Defined.
Record MountFile := MkFile { mf_ino : nat; mf_opener : Opener }.

Record RemoteFile := MkRemoteFile {
  rf_path : string;
  rf_size : Z;
  rf_hash : option string;
  rf_mode : option Z;
  rf_executable : bool;
}.
Definition for_placeholder (path : string) (p : Placeholder) : RemoteFile := MkRemoteFile path (ph_size p) (ph_hash p) None false.

Inductive RangeRead := RangeBytes (b : bytes) | RangeNotFound | RangeStale.
Inductive StreamAttempt := StreamDone (written : Z) | StreamMoved.

(** The rest of the mount: calls that only succeed or fail here. *)
Inductive MountCall :=
| MWritable | MPressure | MObserve (paths : list string) | MPrepare (m : MountMutation)
| MCommit (m : MountMutation) | MAbort (m : MountMutation)
| MAcquire (keys : list DependencyKey) | MRelease (keys : list DependencyKey)
| MMarkDirty (path : string) | MClearDirty (path : string) | MRetargetDirty (old_path new_path : string)
| MSeal (path : string) | MForgetLineages (path : string) | MForgetSubtree (prefix : string)
| MNoteChange (path : string) (f : MountFile) | MLstat (path : string).

Inductive LazyE : Type -> Type :=
(* the scheduler of a task that does several things at once *)
| Schedule : LazyE bool
(* the table *)
| TbOutstanding : LazyE Z
| TbLookup (path : string) : LazyE (option Z)
| TbIdsWithin (prefix : string) : LazyE (list Z)
| TbNamesWithin (prefix : string) : LazyE (list string)
| TbRound (ids : list Z) (requested : gset Z) : LazyE (Round * gset Z)
| TbNextJob : LazyE Z
| TbClaim (id : Z) : LazyE (option PendingEntry)
| TbSnapshot (id : Z) : LazyE (option PendingEntry)
| TbRelease (id : Z) : LazyE unit
| TbComplete (id : Z) : LazyE unit
| TbFail (id : Z) (error : string) : LazyE unit
| TbForget (path : string) : LazyE unit
| TbForgetUnless (path : string) : LazyE bool
| TbRetryFailed : LazyE unit
| TbPendingIds : LazyE (list Z)
(* the backing tree *)
| BkOpen (who : Opener) (path : string) : LazyE (LResult MountFile)
| BkCreate (path : string) : LazyE (LResult MountFile)
| BkApply (m : MountMutation) : LazyE (LResult unit)
| BkMark (f : MountFile) : LazyE (LResult (option Placeholder))
| BkSize (f : MountFile) : LazyE (LResult Z)
| BkRead (f : MountFile) (offset want : Z) : LazyE (LResult bytes)
| BkWrite (f : MountFile) (b : bytes) (offset : Z) : LazyE (LResult Z)
| BkTruncate (f : MountFile) (size : Z) : LazyE (LResult unit)
| BkAllocate (f : MountFile) (offset length : Z) : LazyE (LResult unit)
| BkCopy (f source : MountFile) (source_offset offset length : Z) : LazyE (LResult Z)
| BkSetTimes (f : MountFile) : LazyE (LResult unit)
| BkClearMark (f : MountFile) : LazyE (LResult unit)
| BkSync (f : MountFile) : LazyE (LResult unit)
| BkSyncAll : LazyE (LResult unit)
| BkSetRoot (pending : bool) : LazyE (LResult unit)
| BkDirectories (prefix : string) : LazyE (list string)
| BkRemoveAll (path : string) : LazyE (LResult unit)
(* the gateway: each answer carries a namespace revision *)
| GwRead (path : string) : LazyE (LResult (Z * option bytes))
| GwStat (path : string) : LazyE (LResult (option (Z * option string)))
| GwRange (path : string) (offset length : Z) (hash : option string) : LazyE (LResult (Z * RangeRead))
| GwPrefetch (prefix : string) : LazyE (LResult (list (string * bytes)))
(* the rest of the mount *)
| Rest (c : MountCall) : LazyE (LResult unit)
| Asks (path : string) : LazyE (LResult bool).

Abbreviation Lazy := (prog LazyE).

Definition HYDRATE_INLINE_DOWNLOAD_LIMIT_BYTES : Z := 8 * 1024 * 1024.
Definition HYDRATE_STREAM_CHUNK_BYTES : Z := 4 * 1024 * 1024.
Definition HYDRATE_PREFETCH_MAX_ENTRIES : Z := 4096.
Definition STREAM_FILL_ATTEMPTS : nat := 3.
Definition BACKGROUND_FILL_BATCH : nat := 64.
Definition BACKGROUND_FILL_RETRIES : nat := 3.

Section Hash.
Context {H : HashCrates} (alg : VfsHashAlgorithm).

(** ** Downloading *)

Definition verify_downloaded (file : RemoteFile) (length : Z) (local_hash : string) : LResult unit :=
  match rf_hash file with
  | Some expected =>
      if String.eqb expected local_hash then Ok tt else Err (Bail "does not match the gateway content hash")
  | None => if (length =? rf_size file)%Z then Ok tt else Err (Bail "has another length than it was listed with")
  end.

Definition reconcile_revision (base_revision revision : Z) : LResult unit :=
  guard_err (negb ((base_revision =? 0) || (revision =? 0) || (revision =? base_revision))%Z)
    (Bail "vfs scope changed during hydration").

(** [write_all_at]: a call may write less than it was asked to. *)
Fixpoint write_all_loop (fuel : nat) (f : MountFile) (b : bytes) (offset : Z) : Lazy (LResult unit) :=
  match b, fuel with
  | [], _ => Ret (Ok tt)
  | _, O => Ret (Err (Bail "made no progress"))
  | _, S fuel =>
      written ←? perform (BkWrite f b offset);
      if (written =? 0)%Z then Ret (Err (Bail "made no progress"))
      else write_all_loop fuel f (drop (Z.to_nat written) b) (offset + written)
  end.
Definition write_all_at (f : MountFile) (b : bytes) (offset : Z) : Lazy (LResult unit) :=
  write_all_loop (List.length b) f b offset.

Definition verify_or_recheck (file : RemoteFile) (length : Z) (local_hash : string) : Lazy (LResult unit) :=
  match verify_downloaded file length local_hash with
  | Ok _ => Ret (Ok tt)
  | Err _ => _ ←? perform (GwStat (rf_path file)); Ret (Ok tt)
  end.

(** One pass of ranged reads; each range that is written carries at least one byte. *)
Fixpoint stream_loop (fuel : nat) (file : RemoteFile) (f : MountFile) (base_revision : Z)
    (h : ContentHasher) (offset : Z) : Lazy (LResult (option (ContentHasher * Z))) :=
  if (rf_size file <=? offset)%Z then Ret (Ok (Some (h, offset)))
  else match fuel with
  | O => Ret (Err (Bail "made no progress"))
  | S fuel =>
      let length := Z.min HYDRATE_STREAM_CHUNK_BYTES (rf_size file - offset) in
      answer ←? perform (GwRange (rf_path file) offset length (rf_hash file));
      _ ←? Ret (reconcile_revision base_revision (fst answer));
      match snd answer with
      | RangeBytes [] =>
          if (base_revision =? 0)%Z then Ret (Ok None) else Ret (Err (Bail "ended before its listed size"))
      | RangeBytes b =>
          _ ←? write_all_at f b offset;
          stream_loop fuel file f base_revision (hasher_update h b) (offset + zlen b)
      | RangeNotFound => Ret (Err (Bail "disappeared during hydration"))
      | RangeStale => Ret (Ok None)
      end
  end.

Definition stream_once (file : RemoteFile) (f : MountFile) (base_revision : Z) : Lazy (LResult StreamAttempt) :=
  ended ←? stream_loop (Z.to_nat (rf_size file)) file f base_revision (new_hasher alg) 0;
  match ended with
  | None => Ret (Ok StreamMoved)
  | Some (h, offset) =>
      match verify_downloaded file offset (hasher_finalize h) with
      | Ok _ => Ret (Ok (StreamDone offset))
      | Err e => if (base_revision =? 0)%Z then Ret (Ok StreamMoved) else Ret (Err e)
      end
  end.

Definition pin (file : RemoteFile) (size : Z) (hash : option string) : RemoteFile :=
  MkRemoteFile (rf_path file) size
    (match hash with
     | Some h => Some h
     | None => if (size =? rf_size file)%Z then rf_hash file else None
     end)
    (rf_mode file) (rf_executable file).

Fixpoint stream_attempts (attempts : nat) (file : RemoteFile) (f : MountFile) : Lazy (LResult Z) :=
  match attempts with
  | O => Ret (Err (Bail "kept changing while it was being filled"))
  | S attempts =>
      current ←? perform (GwStat (rf_path file));
      match current with
      | None => Ret (Err (Bail "the gateway no longer has it"))
      | Some (size, hash) =>
          attempt ←? stream_once (pin file size hash) f 0;
          match attempt with
          | StreamDone written => Ret (Ok written)
          | StreamMoved => stream_attempts attempts file f
          end
      end
  end.

Definition stream_file (file : RemoteFile) (f : MountFile) (base_revision : Z) : Lazy (LResult Z) :=
  if (base_revision =? 0)%Z then stream_attempts STREAM_FILL_ATTEMPTS file f
  else
    attempt ←? stream_once file f base_revision;
    match attempt with
    | StreamDone written => Ret (Ok written)
    | StreamMoved => Ret (Err (Bail "changed during hydration"))
    end.

Definition download_into (file : RemoteFile) (f : MountFile) (base_revision : Z) : Lazy (LResult (option Z)) :=
  if (rf_size file =? 0)%Z then
    _ ←? Ret (verify_downloaded file 0 (content_hash_of alg []));
    Ret (Ok (Some 0%Z))
  else if (rf_size file <=? HYDRATE_INLINE_DOWNLOAD_LIMIT_BYTES)%Z then
    answer ←? perform (GwRead (rf_path file));
    _ ←? Ret (reconcile_revision base_revision (fst answer));
    match snd answer with
    | None => Ret (Ok None)
    | Some b =>
        _ ←? verify_or_recheck file (zlen b) (content_hash_of alg b);
        _ ←? write_all_at f b 0;
        Ret (Ok (Some (zlen b)))
    end
  else
    written ←? stream_file file f base_revision;
    Ret (Ok (Some written)).

(** ** Filling one placeholder *)

Definition not_a_file (e : LazyError) : bool :=
  match e with Sys ENOENT | Sys ENOTDIR | Sys EISDIR | Sys ELOOP => true | _ => false end.

Definition open_placeholder (id : Z) (path : string) (p : Placeholder) : Lazy (LResult (option MountFile)) :=
  opened ← perform (BkOpen (ByFill id) path);
  match opened with
  | Err e => if not_a_file e then Ret (Ok None) else Ret (Err e)
  | Ok f =>
      mark ←? perform (BkMark f);
      if bool_decide (mark = Some p) then
        _ ←? perform (BkSize f);
        Ret (Ok (Some f))
      else Ret (Ok None)
  end.

Definition settle (f : MountFile) (written : Z) : Lazy (LResult unit) :=
  size ←? perform (BkSize f);
  _ ←? (if (size =? written)%Z then Ret (Ok tt) else perform (BkTruncate f written));
  perform (BkSetTimes f).

Definition retire_placeholder_mark (f : MountFile) : Lazy (LResult unit) :=
  cleared ← perform (BkClearMark f);
  match cleared with
  | Err (Sys ENOTSUP) => Ret (Ok tt)
  | cleared => Ret cleared
  end.

Definition retire_now (f : MountFile) : Lazy (LResult unit) :=
  _ ←? retire_placeholder_mark f; perform (BkSync f).

Fixpoint fetch_members (id : Z) (p : Placeholder) (ms : list string) : Lazy (LResult (option MountFile)) :=
  match ms with
  | [] => Ret (Ok None)
  | member :: ms =>
      target ←? open_placeholder id member p;
      match target with
      | None => fetch_members id p ms
      | Some f =>
          written ←? download_into (for_placeholder member p) f 0;
          match written with
          | None => Ret (Err (Bail "the gateway no longer has it"))
          | Some written => _ ←? settle f written; Ret (Ok (Some f))
          end
      end
  end.
Definition fetch_entry (id : Z) (e : PendingEntry) : Lazy (LResult (option MountFile)) :=
  fetch_members id (placeholder e) (members e).

Definition error_text (e : LazyError) : string := match e with Sys _ => "io error" | Bail what => what end.
Definition fill_failed (id : Z) (e : LazyError) : Lazy unit := perform (TbFail id (error_text e)).

Definition fill_claimed (id : Z) : Lazy unit :=
  entry ← perform (TbSnapshot id);
  match entry with
  | None => Ret tt
  | Some entry =>
      fetched ← fetch_entry id entry;
      filled ← match fetched with
               | Ok (Some f) => retire_now f
               | Ok None => Ret (Ok tt)
               | Err e => Ret (Err e)
               end;
      match filled with
      | Ok _ => perform (TbComplete id)
      | Err e => fill_failed id e
      end
  end.

(** The task that [spawn_fetch] gave to the runtime. *)
Definition spawned_fetch : Lazy unit := id ← perform TbNextJob; fill_claimed id.

(** ** Filling in the background *)

Definition write_packed (id : Z) (e : PendingEntry) (path : string) (b : bytes) : Lazy (LResult (option MountFile)) :=
  match verify_downloaded (for_placeholder path (placeholder e)) (zlen b) (content_hash_of alg b) with
  | Err _ => Ret (Ok None)
  | Ok _ =>
      target ←? open_placeholder id path (placeholder e);
      match target with
      | None => Ret (Ok None)
      | Some f => _ ←? write_all_at f b 0; _ ←? settle f (zlen b); Ret (Ok (Some f))
      end
  end.

Fixpoint retire_marks (written : list (Z * MountFile)) : Lazy (list Z) :=
  match written with
  | [] => Ret []
  | (id, f) :: written =>
      retired ← retire_placeholder_mark f;
      match retired with
      | Ok _ => ids ← retire_marks written; Ret (id :: ids)
      | Err e => _ ← fill_failed id e; retire_marks written
      end
  end.

Definition retire_batch (written : list (Z * MountFile)) : Lazy unit :=
  match written with
  | [] => Ret tt
  | _ =>
      synced ← perform BkSyncAll;
      match synced with
      | Err e => for_each written (fun '(id, _) => fill_failed id e)
      | Ok _ =>
          retired ← retire_marks written;
          synced ← perform BkSyncAll;
          match synced with
          | Err e => for_each retired (fun id => fill_failed id e)
          | Ok _ => for_each retired (fun id => perform (TbComplete id))
          end
      end
  end.

(** One fetch of a batch. *)
Definition fetch_claimed (id : Z) : Lazy (option (Z * MountFile)) :=
  entry ← perform (TbClaim id);
  match entry with
  | None => Ret None
  | Some entry =>
      fetched ← fetch_entry id entry;
      match fetched with
      | Ok (Some f) => Ret (Some (id, f))
      | Ok None => _ ← perform (TbComplete id); Ret None
      | Err e => _ ← fill_failed id e; Ret None
      end
  end.

(** The downloads of a batch run together, more of them than the code allows at once. *)
Definition fill_batch (ids : list Z) : Lazy unit :=
  results ← par_all Schedule (map fetch_claimed ids);
  retire_batch (omap id results).

Fixpoint chunks_of {A} (fuel n : nat) (l : list A) : list (list A) :=
  match l, fuel with
  | [], _ | _, O => []
  | _, S fuel => take n l :: chunks_of fuel n (drop n l)
  end.

(** The loop ends when nothing is pending, here at the latest after [fuel] passes. *)
Fixpoint fill_pending (fuel : nat) : Lazy unit :=
  match fuel with
  | O => Ret tt
  | S fuel =>
      ids ← perform TbPendingIds;
      match ids with
      | [] => Ret tt
      | _ => _ ← for_each (chunks_of (List.length ids) BACKGROUND_FILL_BATCH ids) fill_batch; fill_pending fuel
      end
  end.

Fixpoint fill_rounds (fuel rounds : nat) (first : bool) : Lazy unit :=
  match rounds with
  | O => Ret tt
  | S rounds =>
      outstanding ← (if first then Ret 1%Z else perform TbOutstanding);
      if (outstanding =? 0)%Z then Ret tt
      else
        _ ← (if first then Ret tt else perform TbRetryFailed);
        _ ← fill_pending fuel;
        fill_rounds fuel rounds false
  end.

Definition claim_path (path : string) : Lazy (option (Z * PendingEntry)) :=
  id ← perform (TbLookup path);
  match id with
  | None => Ret None
  | Some id => entry ← perform (TbClaim id); Ret (option_map (fun e => (id, e)) entry)
  end.

(** The files of one pack; [written] are the ones not retired yet. *)
Fixpoint fill_pack (files : list (string * bytes)) (written : list (Z * MountFile)) : Lazy unit :=
  match files with
  | [] => retire_batch written
  | (path, b) :: files =>
      entry ← claim_path path;
      match entry with
      | None => fill_pack files written
      | Some (id, e) =>
          packed ← write_packed id e path b;
          written ← match packed with
                    | Ok (Some f) => Ret (written ++ [(id, f)])
                    | Ok None => _ ← perform (TbRelease id); Ret written
                    | Err e => _ ← fill_failed id e; Ret written
                    end;
          if decide (BACKGROUND_FILL_BATCH <= List.length written) then _ ← retire_batch written; fill_pack files []
          else fill_pack files written
      end
  end.

Fixpoint prefetch_all (prefixes : list string) : Lazy (list (string * LResult (list (string * bytes)))) :=
  match prefixes with
  | [] => Ret []
  | prefix :: prefixes =>
      answer ← perform (GwPrefetch prefix);
      answers ← prefetch_all prefixes;
      Ret ((prefix, answer) :: answers)
  end.

Fixpoint fill_answers (answers : list (string * LResult (list (string * bytes)))) (next : list string) : Lazy (list string) :=
  match answers with
  | [] => Ret next
  | (_, Err _) :: answers => fill_answers answers next
  | (prefix, Ok files) :: answers =>
      _ ← fill_pack files [];
      below ← (if (HYDRATE_PREFETCH_MAX_ENTRIES <=? zlen files)%Z then perform (BkDirectories prefix) else Ret []);
      fill_answers answers (next ++ below)
  end.

(** The descent ends with the directories of the tree, here at the latest after [fuel]
    levels. *)
Fixpoint fill_from_packs (fuel : nat) (level : list string) : Lazy unit :=
  match level, fuel with
  | [], _ | _, O => Ret tt
  | _, S fuel =>
      outstanding ← perform TbOutstanding;
      if (0 <? outstanding)%Z then
        answers ← prefetch_all level;
        next ← fill_answers answers [];
        fill_from_packs fuel next
      else Ret tt
  end.

Definition fill_all (fuel : nat) : Lazy unit :=
  _ ← perform TbOutstanding;
  _ ← fill_from_packs fuel [""%string];
  _ ← fill_rounds fuel (S BACKGROUND_FILL_RETRIES) true;
  unfilled ← perform TbOutstanding;
  if (unfilled =? 0)%Z then _ ← perform (BkSetRoot false); Ret tt else Ret tt.
End Hash.

(** ** Waiting for a placeholder *)

(** [ensure_ids]: one pass over the ids, then a wait. [wakes] is how many times the wait
    ends before the deadline has passed. *)
Fixpoint ensure_ids (wakes : nat) (ids : list Z) (requested : gset Z) : Lazy (LResult unit) :=
  '(r, requested) ← perform (TbRound ids requested);
  match r with
  | RoundDone => Ret (Ok tt)
  | RoundFails _ => Ret (Err (Sys EIO))
  | RoundWaits =>
      match wakes with
      | O => Ret (Err (Sys EIO))
      | S wakes => ensure_ids wakes ids requested
      end
  end.

Section Mount.
Context (wakes : nat) (read_only : bool).

Definition ensure (path : string) : Lazy (LResult unit) :=
  outstanding ← perform TbOutstanding;
  if (outstanding =? 0)%Z then Ret (Ok tt)
  else
    id ← perform (TbLookup path);
    match id with
    | None => Ret (Ok tt)
    | Some id => ensure_ids wakes [id] ∅
    end.

Definition ensure_subtree (prefix : string) : Lazy (LResult unit) :=
  outstanding ← perform TbOutstanding;
  if (outstanding =? 0)%Z then Ret (Ok tt)
  else
    ids ← perform (TbIdsWithin prefix);
    match ids with
    | [] => Ret (Ok tt)
    | _ => ensure_ids wakes ids ∅
    end.

Definition forget_subtree (prefix : string) : Lazy unit :=
  outstanding ← perform TbOutstanding;
  if (outstanding =? 0)%Z then Ret tt
  else
    paths ← perform (TbNamesWithin prefix);
    for_each paths (fun path =>
      outstanding ← perform TbOutstanding;
      if (outstanding =? 0)%Z then Ret tt else perform (TbForget path)).

Definition forget_path (path : string) : Lazy unit :=
  outstanding ← perform TbOutstanding;
  if (outstanding =? 0)%Z then Ret tt else perform (TbForget path).

(** ** The operations of the mount *)

Definition writable_wal : Lazy (LResult unit) :=
  if read_only then Ret (Err (Sys EROFS)) else perform (Rest MWritable).
Definition reject_content_under_pressure : Lazy (LResult unit) := perform (Rest MPressure).

(** The guard of the dependency keys is dropped however the operation ends. *)
Definition with_keys {A} (keys : list DependencyKey) (m : Lazy (LResult A)) : Lazy (LResult A) :=
  _ ←? perform (Rest (MAcquire keys));
  r ← m;
  _ ← perform (Rest (MRelease keys));
  Ret r.

Definition validated (m : MountMutation) : LResult unit :=
  match validate m with Ok _ => Ok tt | Err _ => Err (Sys EINVAL) end.

Definition commit_mutation (m : MountMutation) : Lazy (LResult unit) :=
  _ ←? perform (Rest (MObserve (affected_paths m)));
  _ ←? perform (Rest (MPrepare m));
  applied ← perform (BkApply m);
  match applied with
  | Ok _ => perform (Rest (MCommit m))
  | Err e => _ ←? perform (Rest (MAbort m)); Ret (Err e)
  end.

Definition content_keys (path : string) (exclusive : bool) : list DependencyKey :=
  merge_dependency_keys (map (fun ancestor => MkKey ancestor false) (ancestors_of path) ++ [MkKey path exclusive]).

Definition create_directory (path : string) (mode : Z) : Lazy (LResult unit) :=
  let m := CreateDirectory path mode in
  _ ←? writable_wal;
  _ ←? Ret (validated m);
  with_keys (dependency_keys m)
    (_ ←? commit_mutation m; _ ←? perform (Rest (MForgetLineages path)); perform (Rest (MLstat path))).

Definition create_file (path : string) (mode : Z) : Lazy (LResult MountFile) :=
  let m := CreateFile path mode in
  _ ←? writable_wal;
  _ ←? ensure path;
  _ ←? Ret (validated m);
  with_keys (dependency_keys m)
    (_ ←? perform (Rest (MObserve (affected_paths m)));
     _ ←? perform (Rest (MPrepare m));
     created ← perform (BkCreate path);
     match created with
     | Err e => _ ←? perform (Rest (MAbort m)); Ret (Err e)
     | Ok f =>
         _ ←? perform (Rest (MCommit m));
         _ ←? perform (Rest (MForgetLineages path));
         _ ←? perform (Rest (MMarkDirty path));
         Ret (Ok f)
     end).

Definition create_symlink (path target : string) : Lazy (LResult unit) :=
  let m := CreateSymlink path target in
  _ ←? writable_wal;
  _ ←? Ret (validated m);
  with_keys (dependency_keys m)
    (_ ←? commit_mutation m; _ ←? perform (Rest (MForgetLineages path)); perform (Rest (MLstat path))).

Definition create_hard_link (existing_path new_path : string) : Lazy (LResult unit) :=
  let m := CreateHardLink existing_path new_path in
  _ ←? writable_wal;
  _ ←? ensure existing_path;
  _ ←? Ret (validated m);
  with_keys (dependency_keys m)
    (_ ←? commit_mutation m;
     _ ←? perform (Rest (MForgetLineages existing_path));
     _ ←? perform (Rest (MForgetLineages new_path));
     perform (Rest (MLstat new_path))).

Definition rename (old_path new_path : string) (flags : Z) : Lazy (LResult unit) :=
  let m := Rename old_path new_path flags in
  _ ←? writable_wal;
  if negb (Z.land flags (Z.lor RENAME_EXCHANGE RENAME_WHITEOUT) =? 0)%Z then Ret (Err (Sys EINVAL))
  else
    _ ←? ensure_subtree old_path;
    _ ←? Ret (validated m);
    with_keys (dependency_keys m)
      (_ ←? commit_mutation m;
       _ ← forget_path new_path;
       _ ←? perform (Rest (MRetargetDirty old_path new_path));
       _ ←? perform (Rest (MForgetSubtree old_path));
       perform (Rest (MForgetSubtree new_path))).

Definition remove_file (path : string) : Lazy (LResult unit) :=
  let m := RemoveFile path None in
  _ ←? writable_wal;
  dirty ←? perform (Asks path);
  _ ←? (if dirty : bool then perform (Rest (MSeal path)) else Ret (Ok tt));
  _ ←? Ret (validated m);
  with_keys (dependency_keys m)
    (_ ←? commit_mutation m;
     _ ← forget_path path;
     dirty ←? perform (Asks path);
     _ ←? (if dirty : bool then perform (Rest (MClearDirty path)) else Ret (Ok tt));
     perform (Rest (MForgetLineages path))).

Definition remove_directory (path : string) : Lazy (LResult unit) :=
  let m := RemoveDirectory path in
  _ ←? writable_wal;
  _ ←? Ret (validated m);
  with_keys (dependency_keys m) (_ ←? commit_mutation m; perform (Rest (MForgetSubtree path))).

(** [set_mode] and [set_owner]. *)
Definition set_attribute (m : MountMutation) : Lazy (LResult unit) :=
  _ ←? writable_wal;
  _ ←? Ret (validated m);
  with_keys (dependency_keys m) (_ ←? commit_mutation m; perform (Rest (MLstat (primary_path m)))).
Definition set_mode (path : string) (mode : Z) := set_attribute (SetMode path mode).
Definition set_owner (path : string) (uid gid : option Z) := set_attribute (SetOwner path uid gid).

Definition set_times (path : string) (atime mtime : option LocalTimestamp) : Lazy (LResult unit) :=
  let m := SetTimes path atime mtime in
  _ ←? writable_wal;
  _ ←? ensure path;
  _ ←? Ret (validated m);
  with_keys (dependency_keys m) (_ ←? commit_mutation m; perform (Rest (MLstat path))).

Definition open_file (path : string) (wants_write wants_truncate : bool) : Lazy (LResult MountFile) :=
  if read_only && (wants_write || wants_truncate) then Ret (Err (Sys EROFS))
  else
    _ ←? ensure path;
    f ←? perform (BkOpen ByGuest path);
    _ ←? (if wants_truncate then
            _ ←? writable_wal;
            _ ←? reject_content_under_pressure;
            with_keys (content_keys path false)
              (_ ←? perform (Rest (MNoteChange path f));
               _ ←? perform (Rest (MMarkDirty path));
               perform (BkTruncate f 0))
          else Ret (Ok tt));
    _ ←? perform (BkSize f);
    Ret (Ok f).

(** A change of content through an open file; [path] is the name the file has now. *)
Definition content_change {A} (path : string) (f : MountFile) (change : Lazy (LResult A)) : Lazy (LResult A) :=
  _ ←? writable_wal;
  _ ←? reject_content_under_pressure;
  with_keys (content_keys path false)
    (_ ←? perform (Rest (MNoteChange path f));
     _ ←? perform (Rest (MMarkDirty path));
     change).

Definition write (path : string) (f : MountFile) (b : bytes) (offset : Z) : Lazy (LResult Z) :=
  content_change path f (perform (BkWrite f b offset)).
Definition allocate (path : string) (f : MountFile) (offset length : Z) : Lazy (LResult unit) :=
  content_change path f (perform (BkAllocate f offset length)).
Definition copy_range (path : string) (f source : MountFile) (source_offset offset length : Z) : Lazy (LResult Z) :=
  content_change path f (perform (BkCopy f source source_offset offset length)).
Definition read (f : MountFile) (offset want : Z) : Lazy (LResult bytes) := perform (BkRead f offset want).

(** [truncate] reads the size before it notes the change. *)
Definition truncate_with (path : string) (f : MountFile) (size : Z) : Lazy (LResult Z) :=
  with_keys (content_keys path false)
    (_ ←? perform (BkSize f);
     _ ←? perform (Rest (MNoteChange path f));
     _ ←? perform (Rest (MMarkDirty path));
     _ ←? perform (BkTruncate f size);
     perform (BkSize f)).
Definition truncate (path : string) (f : MountFile) (size : Z) : Lazy (LResult Z) :=
  _ ←? writable_wal;
  _ ←? reject_content_under_pressure;
  truncate_with path f size.
Definition truncate_path (path : string) (size : Z) : Lazy (LResult Z) :=
  _ ←? writable_wal;
  _ ←? reject_content_under_pressure;
  _ ←? ensure path;
  f ←? perform (BkOpen ByGuest path);
  truncate_with path f size.
End Mount.

(** ** The follower of a read-only mount *)

(** [apply_remote_delete]: the change feed says [path] is gone. *)
Definition apply_remote_delete (synthetic : string -> bool) (path : string) : Lazy (LResult unit) :=
  if is_empty_str path || synthetic path then Ret (Ok tt)
  else _ ← forget_subtree path; perform (BkRemoveAll path).
