(* ===== verification/LazySystem.v ===== *)
(** * A mount with placeholders at work

    The world the programs of [LazyFill.v] act on: the table, the names and inodes of the
    backing tree with what of them reached the device, and the answers of the gateway.
    Opens, writes, namespace changes, fills on demand and the background fill interleave;
    every call may fail, the gateway may answer anything, and the process may stop and
    start again. *)

From S2P Require Import Prelude ContentHash MountTypes Effects PayloadStore LazyTable LazyFill.
From Stdlib Require Import ZArith Lia.

(** ** The world *)

(** A change of content. *)
Inductive Edit := EWrite (offset : Z) (b : bytes) | EResize (size : Z) | EExtend (size : Z).

Definition resize (size : Z) (data : bytes) : bytes :=
  take (Z.to_nat size) data ++ replicate (Z.to_nat size - length data) Byte.x00.
Definition apply_edit (data : bytes) (e : Edit) : bytes :=
  match e with
  | EWrite _ [] => data
  | EWrite offset b => write_at data (Z.to_nat offset) b
  | EResize size => resize size data
  | EExtend size => if (zlen data <? size)%Z then resize size data else data
  end.

(** [in_mark] is the extended attribute. [in_synced] and [in_mark_synced] say what of the
    inode is on the device. The rest is history: what the file was listed as, its content
    when its mark was dropped, and what guests did to it since. *)
Record LazyInode := MkInode {
  in_data : bytes;
  in_mark : option Placeholder;
  in_synced : bool;
  in_mark_synced : option Placeholder;
  in_origin : option Placeholder;
  in_base : bytes;
  in_edits : list Edit;
}.

Inductive Node := NFile (ino : nat) | NDirectory | NLink (target : string).

(** The answers the gateway gave, and which file each open of a fill reached. *)
Inductive Answer :=
| AWhole (path : string) (b : bytes)
| AStat (path : string) (size : Z) (hash : option string)
| ARange (path : string) (offset : Z) (b : bytes)
| APack (path : string) (b : bytes)
| AOpen (path : string) (ino : nat).

Record LazyWorld := MkLW {
  lw_table : LazyContent;
  lw_names : gmap string Node;
  lw_inodes : gmap nat LazyInode;
  lw_root : bool;                (** the root is marked as holding placeholders *)
  lw_alive : bool;               (** the hydrator still exists *)
  lw_jobs : list Z;              (** fetches handed to the runtime *)
  lw_guest : gset nat;           (** inodes a guest has open *)
  lw_log : list Answer;
}.

Definition set_table (t : LazyContent) (w : LazyWorld) :=
  MkLW t (lw_names w) (lw_inodes w) (lw_root w) (lw_alive w) (lw_jobs w) (lw_guest w) (lw_log w).
Definition set_names (n : gmap string Node) (w : LazyWorld) :=
  MkLW (lw_table w) n (lw_inodes w) (lw_root w) (lw_alive w) (lw_jobs w) (lw_guest w) (lw_log w).
Definition set_inodes (i : gmap nat LazyInode) (w : LazyWorld) :=
  MkLW (lw_table w) (lw_names w) i (lw_root w) (lw_alive w) (lw_jobs w) (lw_guest w) (lw_log w).
Definition set_root (b : bool) (w : LazyWorld) :=
  MkLW (lw_table w) (lw_names w) (lw_inodes w) b (lw_alive w) (lw_jobs w) (lw_guest w) (lw_log w).
Definition set_jobs (j : list Z) (w : LazyWorld) :=
  MkLW (lw_table w) (lw_names w) (lw_inodes w) (lw_root w) (lw_alive w) j (lw_guest w) (lw_log w).
Definition set_guest (g : gset nat) (w : LazyWorld) :=
  MkLW (lw_table w) (lw_names w) (lw_inodes w) (lw_root w) (lw_alive w) (lw_jobs w) g (lw_log w).
Definition add_answers (l : list Answer) (w : LazyWorld) :=
  MkLW (lw_table w) (lw_names w) (lw_inodes w) (lw_root w) (lw_alive w) (lw_jobs w) (lw_guest w) (l ++ lw_log w).
Definition set_alive (b : bool) (w : LazyWorld) :=
  MkLW (lw_table w) (lw_names w) (lw_inodes w) (lw_root w) b (lw_jobs w) (lw_guest w) (lw_log w).

(** ** Names *)

Definition is_at_or_under (path prefix : string) : bool :=
  is_empty_str prefix || String.eqb path prefix || starts_with (prefix +:+ "/") path.
Definition retarget_path (path old_prefix new_prefix : string) : string :=
  new_prefix +:+ str_drop (String.length old_prefix) path.

(** Opening follows a link to a name of its own directory. *)
Definition sibling (path target : string) : string :=
  let parent := parent_of path in if is_empty_str parent then target else parent +:+ "/" +:+ target.
Fixpoint follow (fuel : nat) (names : gmap string Node) (path : string) : LResult nat :=
  match names !! path, fuel with
  | Some (NFile ino), _ => Ok ino
  | Some NDirectory, _ => Err (Sys EISDIR)
  | None, _ => Err (Sys ENOENT)
  | Some (NLink _), O => Err (Sys ELOOP)
  | Some (NLink target), S fuel => follow fuel names (sibling path target)
  end.

Definition nothing_below (names : gmap string Node) (path : string) : bool :=
  forallb (fun p => String.eqb p path || negb (is_at_or_under p path)) (elements (dom names)).

Definition move_names (old_path new_path : string) (names : gmap string Node) : gmap string Node :=
  list_to_map
    ((fun kv => (retarget_path kv.1 old_path new_path, kv.2)) <$>
       map_to_list (filter (fun kv => is_at_or_under kv.1 old_path) names))
  ∪ filter (fun kv => ~ is_at_or_under kv.1 old_path /\ ~ is_at_or_under kv.1 new_path) names.

Definition is_directory (n : Node) : bool := match n with NDirectory => true | _ => false end.

(** What one namespace call does, where it succeeds. *)
Definition apply_names (m : MountMutation) (names : gmap string Node) : option (gmap string Node) :=
  let create p n := match names !! p with None => Some (<[p := n]> names) | Some _ => None end in
  match m with
  | CreateDirectory p _ => create p NDirectory
  | CreateSymlink p target => create p (NLink target)
  | CreateHardLink existing new =>
      match names !! existing with
      | Some NDirectory | None => None
      | Some n => create new n
      end
  | Rename old new flags =>
      match names !! old, names !! new with
      | None, _ => None
      | Some (NFile i), Some (NFile j) =>
          if negb (Z.land flags RENAME_NOREPLACE =? 0)%Z then None
          else if decide (i = j) then Some names else Some (move_names old new names)
      | Some n, Some n' =>
          if negb (Z.land flags RENAME_NOREPLACE =? 0)%Z then None
          else if bool_decide (is_directory n = is_directory n') && nothing_below names new && negb (is_at_or_under new old)
          then Some (move_names old new names) else None
      | Some n, None => if is_at_or_under new old then None else Some (move_names old new names)
      end
  | RemoveFile p _ =>
      match names !! p with Some (NFile _) | Some (NLink _) => Some (delete p names) | _ => None end
  | RemoveDirectory p =>
      match names !! p with Some NDirectory => if nothing_below names p then Some (delete p names) else None | _ => None end
  | CreateFile _ _ => None
  | _ => match names !! primary_path m with Some _ => Some names | None => None end
  end.

(** ** System calls *)

Inductive LazyChoice :=
| LcOk
| LcErr (e : Errno)
| LcCount (n : nat)
| LcLanded (n : nat) (e : Errno)
| LcBool (b : bool)
| LcId (id : Z)
| LcIds (l : list Z)
| LcNames (l : list string)
| LcRead (r : LResult (Z * option bytes))
| LcStat (r : LResult (option (Z * option string)))
| LcRange (r : LResult (Z * RangeRead))
| LcPack (r : LResult (list (string * bytes))).

Definition on_inode (f : MountFile) (g : LazyInode -> LazyInode) (w : LazyWorld) : LazyWorld :=
  set_inodes (alter g (mf_ino f) (lw_inodes w)) w.

Definition by_guest (f : MountFile) : bool := match mf_opener f with ByGuest => true | ByFill _ => false end.
Definition edited (guest : bool) (e : Edit) (n : LazyInode) : LazyInode :=
  MkInode (apply_edit (in_data n) e) (in_mark n) false (in_mark_synced n) (in_origin n) (in_base n)
    (if guest then in_edits n ++ [e] else in_edits n).
Definition edit (f : MountFile) (e : Edit) : LazyWorld -> LazyWorld := on_inode f (edited (by_guest f) e).

Definition unmark (n : LazyInode) : LazyInode :=
  match in_mark n with
  | None => n
  | Some _ => MkInode (in_data n) None (in_synced n) (in_mark_synced n) (in_origin n) (in_data n) []
  end.
Definition sync (n : LazyInode) : LazyInode :=
  MkInode (in_data n) (in_mark n) true (in_mark n) (in_origin n) (in_base n) (in_edits n).
Definition new_inode : LazyInode := MkInode [] None false None None [] [].

Definition calls {A} (c : LazyChoice) (w : LazyWorld) (ok : LResult A * LazyWorld) : option (LResult A * LazyWorld) :=
  match c with LcOk => Some ok | LcErr e => Some (Err (Sys e), w) | _ => None end.

(** What an answer of the gateway shows. *)
Definition read_answers (path : string) (r : LResult (Z * option bytes)) : list Answer :=
  match r with Ok (_, Some b) => [AWhole path b] | _ => [] end.
Definition stat_answers (path : string) (r : LResult (option (Z * option string))) : list Answer :=
  match r with Ok (Some (size, hash)) => [AStat path size hash] | _ => [] end.
Definition range_answers (path : string) (offset : Z) (r : LResult (Z * RangeRead)) : list Answer :=
  match r with Ok (_, RangeBytes b) => [ARange path offset b] | _ => [] end.
Definition pack_answers (r : LResult (list (string * bytes))) : list Answer :=
  match r with Ok l => (fun '(p, b) => APack p b) <$> l | Err _ => [] end.

Definition lazy_handle (A : Type) (e : LazyE A) (w : LazyWorld) (c : LazyChoice) : option (A * LazyWorld) :=
  let t := lw_table w in
  match e in LazyE A return option (A * LazyWorld) with
  | Schedule => match c with LcBool b => Some (b, w) | _ => None end
  | TbOutstanding => Some (lz_outstanding t, w)
  | TbLookup path => Some (lz_by_path t !! path, w)
  | TbIdsWithin prefix =>
      match c with
      | LcIds l => if bool_decide (l ≡ₚ elements (ids_within t prefix)) then Some (l, w) else None
      | _ => None
      end
  | TbNamesWithin prefix => Some (within t prefix, w)
  | TbRound ids requested =>
      let '(r, requested, started, t) := ensure_round (lw_alive w) ids false requested t in
      Some ((r, requested), set_jobs (lw_jobs w ++ started) (set_table t w))
  | TbNextJob =>
      match c with
      | LcId id => if bool_decide (id ∈ lw_jobs w) then Some (id, set_jobs (filter (fun j => j ≠ id) (lw_jobs w)) w) else None
      | _ => None
      end
  | TbClaim id => let '(r, t) := claim id t in Some (r, set_table t w)
  | TbSnapshot id => Some (snapshot id t, w)
  | TbRelease id => Some (tt, set_table (release id t) w)
  | TbComplete id => Some (tt, set_table (complete id t) w)
  | TbFail id error => Some (tt, set_table (fail id error t) w)
  | TbForget path => Some (tt, set_table (forget_name path t) w)
  | TbForgetUnless path => let '(r, t) := forget_unless_fetching path t in Some (r, set_table t w)
  | TbRetryFailed => Some (tt, set_table (retry_failed t) w)
  | TbPendingIds => Some (pending_ids t, w)
  | BkOpen who path =>
      match c with
      | LcErr e => if not_a_file (Sys e) then None else Some (Err (Sys e), w)
      | LcOk =>
          match follow 40 (lw_names w) path with
          | Err e => Some (Err e, w)
          | Ok ino =>
              Some (Ok (MkFile ino who),
                match who with ByGuest => set_guest ({[ino]} ∪ lw_guest w) w | ByFill _ => add_answers [AOpen path ino] w end)
          end
      | _ => None
      end
  | BkCreate path =>
      match lw_names w !! path, c with
      | _, LcErr e => Some (Err (Sys e), w)
      | Some _, LcOk => Some (Err (Sys EOTHER), w)
      | None, LcOk =>
          let ino := fresh (dom (lw_inodes w)) in
          Some (Ok (MkFile ino ByGuest),
            set_guest ({[ino]} ∪ lw_guest w)
              (set_names (<[path := NFile ino]> (lw_names w)) (set_inodes (<[ino := new_inode]> (lw_inodes w)) w)))
      | _, _ => None
      end
  | BkApply m =>
      match c, apply_names m (lw_names w) with
      | LcOk, Some names => Some (Ok tt, set_names names w)
      | LcErr e, _ => Some (Err (Sys e), w)
      | _, _ => None
      end
  | BkMark f =>
      match lw_inodes w !! mf_ino f with Some n => calls c w (Ok (in_mark n), w) | None => None end
  | BkSize f =>
      match lw_inodes w !! mf_ino f with Some n => calls c w (Ok (zlen (in_data n)), w) | None => None end
  | BkRead f offset want =>
      match lw_inodes w !! mf_ino f, c with
      | Some n, LcCount k => Some (Ok (take k (slice (Z.to_nat offset) (Z.to_nat want) (in_data n))), w)
      | Some n, LcErr e => Some (Err (Sys e), w)
      | _, _ => None
      end
  | BkWrite f b offset =>
      match c with
      | LcCount k => Some (Ok (zlen (take k b)), edit f (EWrite offset (take k b)) w)
      | LcErr e => Some (Err (Sys e), w)
      | _ => None
      end
  | BkTruncate f size => calls c w (Ok tt, edit f (EResize size) w)
  | BkAllocate f offset length => calls c w (Ok tt, edit f (EExtend (sat_add offset length)) w)
  | BkCopy f source source_offset offset length =>
      match lw_inodes w !! mf_ino source, c with
      | Some n, LcCount k =>
          let b := take k (slice (Z.to_nat source_offset) (Z.to_nat length) (in_data n)) in
          Some (Ok (zlen b), edit f (EWrite offset b) w)
      | Some n, LcLanded k e =>
          Some (Err (Sys e), edit f (EWrite offset (take k (slice (Z.to_nat source_offset) (Z.to_nat length) (in_data n)))) w)
      | Some n, LcErr e => Some (Err (Sys e), w)
      | _, _ => None
      end
  | BkSetTimes f => calls c w (Ok tt, w)
  | BkClearMark f =>
      match lw_inodes w !! mf_ino f, c with
      | Some n, LcOk => Some (Ok tt, on_inode f unmark w)
      | Some n, LcErr e => if bool_decide (e = ENOTSUP) && bool_decide (is_Some (in_mark n)) then None else Some (Err (Sys e), w)
      | _, _ => None
      end
  | BkSync f => calls c w (Ok tt, on_inode f sync w)
  | BkSyncAll => calls c w (Ok tt, set_inodes (sync <$> lw_inodes w) w)
  | BkSetRoot b => calls c w (Ok tt, set_root b w)
  | BkDirectories prefix => match c with LcNames l => Some (l, w) | _ => None end
  | BkRemoveAll path => calls c w (Ok tt, set_names (filter (fun kv => ~ is_at_or_under kv.1 path) (lw_names w)) w)
  | GwRead path =>
      match c with
      | LcRead r => Some (r, add_answers (read_answers path r) w)
      | _ => None
      end
  | GwStat path =>
      match c with
      | LcStat r => Some (r, add_answers (stat_answers path r) w)
      | _ => None
      end
  | GwRange path offset length hash =>
      match c with
      | LcRange r => Some (r, add_answers (range_answers path offset r) w)
      | _ => None
      end
  | GwPrefetch prefix => match c with LcPack r => Some (r, add_answers (pack_answers r) w) | _ => None end
  | Rest _ => calls c w (Ok tt, w)
  | Asks _ => match c with LcBool b => Some (Ok b, w) | LcErr e => Some (Err (Sys e), w) | _ => None end
  end.

(** ** Starting again *)

(** The names of an inode, and every marked inode with its names. *)
Definition names_of (names : gmap string Node) (ino : nat) : list string :=
  omap (fun '(p, n) => match n with NFile i => if decide (i = ino) then Some p else None | _ => None end) (map_to_list names).
Definition scan_one (names : gmap string Node) (ino : nat) (n : LazyInode) : option PendingEntry :=
  match in_mark n, names_of names ino with
  | Some p, m :: ms => Some (MkPending (m :: ms) p)
  | _, _ => None
  end.
Definition scan_placeholders (names : gmap string Node) (inodes : gmap nat LazyInode) : list PendingEntry :=
  omap (fun '(ino, n) => scan_one names ino n) (map_to_list inodes).

Definition resume_placeholders (w : LazyWorld) : LazyWorld :=
  if lw_root w then
    let entries := scan_placeholders (lw_names w) (lw_inodes w) in
    let w := set_table (foldl (fun t e => register (members e) (placeholder e) t) (lw_table w) entries) w in
    match entries with [] => set_root false w | _ => w end
  else w.

(** The process stops and starts again: its table, tasks and open files are gone. *)
Definition restart (w : LazyWorld) : LazyWorld :=
  resume_placeholders (MkLW lazy_new (lw_names w) (lw_inodes w) (lw_root w) true [] ∅ (lw_log w)).

(** ** The system *)

Inductive lazy_env : LazyWorld -> LazyWorld -> Prop :=
| env_shutdown w : lazy_env w (set_alive false w).

Definition forget {A} (m : Lazy A) : Lazy unit := _ ← m; Ret tt.

Section Starts.
Context {H : HashCrates} (alg : VfsHashAlgorithm) (links : bool).

(** A file a guest may use. *)
Definition guest_file (f : MountFile) (w : LazyWorld) : Prop := mf_opener f = ByGuest /\ mf_ino f ∈ lw_guest w.

Inductive lazy_starts : unit -> Lazy unit -> LazyWorld -> Prop :=
| starts_fetch w : lazy_starts tt (spawned_fetch alg) w
| starts_fill fuel w : lazy_starts tt (fill_all alg fuel) w
| starts_open wakes ro path wants_write wants_truncate w :
    lazy_starts tt (forget (open_file wakes ro path wants_write wants_truncate)) w
| starts_create wakes ro path mode w : lazy_starts tt (forget (create_file wakes ro path mode)) w
| starts_mkdir ro path mode w : lazy_starts tt (forget (create_directory ro path mode)) w
| starts_symlink ro path target w : links = true -> lazy_starts tt (forget (create_symlink ro path target)) w
| starts_link wakes ro existing new w : lazy_starts tt (forget (create_hard_link wakes ro existing new)) w
| starts_rename wakes ro old new flags w : lazy_starts tt (forget (rename wakes ro old new flags)) w
| starts_remove ro path w : lazy_starts tt (forget (remove_file ro path)) w
| starts_rmdir ro path w : lazy_starts tt (forget (remove_directory ro path)) w
| starts_chmod ro path mode w : lazy_starts tt (forget (set_mode ro path mode)) w
| starts_chown ro path uid gid w : lazy_starts tt (forget (set_owner ro path uid gid)) w
| starts_utimens wakes ro path atime mtime w : lazy_starts tt (forget (set_times wakes ro path atime mtime)) w
| starts_truncate_path wakes ro path size w : lazy_starts tt (forget (truncate_path wakes ro path size)) w
| starts_write ro path f b offset w : guest_file f w -> lazy_starts tt (forget (write ro path f b offset)) w
| starts_allocate ro path f offset length w : guest_file f w -> lazy_starts tt (forget (allocate ro path f offset length)) w
| starts_copy ro path f source source_offset offset length w :
    guest_file f w -> guest_file source w ->
    lazy_starts tt (forget (copy_range ro path f source source_offset offset length)) w
| starts_truncate ro path f size w : guest_file f w -> lazy_starts tt (forget (truncate ro path f size)) w
| starts_read f offset want w : guest_file f w -> lazy_starts tt (forget (read f offset want)) w.

(** A tree some earlier hydrate left: whatever is marked was listed so, and the root is
    marked if anything is. *)
Record lazy_init (w : LazyWorld) : Prop := {
  li_resumed : exists names inodes root log,
    w = restart (MkLW lazy_new names inodes root true [] ∅ log) /\
    (root = false -> forall p i n, names !! p = Some (NFile i) -> inodes !! i = Some n -> in_mark n = None);
  li_names : forall p i, lw_names w !! p = Some (NFile i) -> is_Some (lw_inodes w !! i);
  li_links : links = false -> forall p target, lw_names w !! p ≠ Some (NLink target);
  li_marked : forall i n p, lw_inodes w !! i = Some n -> in_mark n = Some p -> in_origin n = Some p;
  li_whole : forall i n, lw_inodes w !! i = Some n -> in_mark n = None ->
    in_origin n = None /\ in_base n = in_data n /\ in_edits n = [];
}.

Definition lazy_reachable : System -> Prop :=
  system_reachable lazy_handle lazy_starts lazy_env (fun _ => restart) lazy_init.
End Starts.

(** ** Fuel of the downloads *)

Lemma prog_run_ext {A B} (m : Lazy A) (f g : A -> Lazy B) : forall w cs,
  (forall a w cs, prog_run lazy_handle (f a) w cs = prog_run lazy_handle (g a) w cs) ->
  prog_run lazy_handle (m ≫= f) w cs = prog_run lazy_handle (m ≫= g) w cs.
Proof.
  induction m as [a|X e k IH]; intros w cs Hfg; [apply Hfg|]. destruct cs as [|c cs]; [done|]. cbn.
  destruct (lazy_handle X e w c) as [[x w']|]; [|done]. by apply IH.
Qed.

(** One turn per byte is enough to write a range: each call that does not end the loop
    writes at least one. *)
Lemma write_fuel_enough f n : forall b offset fuel fuel' w cs,
  length b <= n -> length b <= fuel -> length b <= fuel' ->
  prog_run lazy_handle (write_all_loop fuel f b offset) w cs = prog_run lazy_handle (write_all_loop fuel' f b offset) w cs.
Proof.
  induction n as [|n IH]; intros b offset fuel fuel' w cs Hn Hf Hf'; (destruct b as [|x b]; [by destruct fuel, fuel'|]); cbn in Hn, Hf, Hf'; [lia|].
  destruct fuel as [|fuel], fuel' as [|fuel']; [lia..|]. cbn [write_all_loop]. destruct cs as [|c cs]; [done|]. destruct c; try done.
  cbn [try_bind mbind prog_mbind perform prog_bind prog_run lazy_handle].
  destruct (Z.eqb_spec (zlen (take n0 (x :: b))) 0) as [|Hne]; [done|].
  assert (0 < length (take n0 (x :: b))) as Hpos by (unfold zlen in Hne; lia).
  apply IH; rewrite length_drop; unfold zlen; cbn [length]; lia.
Qed.

(** So is one per byte of the file for a pass of ranged reads. *)
Lemma stream_fuel_enough {H : HashCrates} file f rev : forall fuel fuel' h offset w cs,
  (Z.to_nat (rf_size file - offset) <= fuel) -> (Z.to_nat (rf_size file - offset) <= fuel') ->
  prog_run lazy_handle (stream_loop fuel file f rev h offset) w cs = prog_run lazy_handle (stream_loop fuel' file f rev h offset) w cs.
Proof.
  induction fuel as [|fuel IH]; intros fuel' h offset w cs Hf Hf'.
  { assert (rf_size file <= offset)%Z as Hs%Z.leb_le by lia. destruct fuel'; cbn [stream_loop]; by rewrite Hs. }
  destruct fuel' as [|fuel'].
  { assert (rf_size file <= offset)%Z as Hs%Z.leb_le by lia. cbn [stream_loop]; by rewrite Hs. }
  cbn [stream_loop]. destruct (Z.leb_spec (rf_size file) offset) as [|Hlt]; [done|]. apply prog_run_ext.
  intros [[rev' r]|x] w1 cs1; [|done]. apply prog_run_ext. intros [[]|x] w2 cs2; [|done].
  cbn [snd]. destruct r as [[|y b]| |]; [done| |done|done]. apply prog_run_ext.
  intros [[]|x] w3 cs3; [|done]. apply IH; unfold zlen; cbn [length]; lia.
Qed.
