(* ===== verification/LazyInvariant.v ===== *)
(** * What tasks know about a mount with placeholders

    The bookkeeping behind [LazySafety.v]. A task that fills a placeholder holds a claim on
    its entry, which says how far it is; every task collects facts that never become false
    again, such as that a name does not lead to a placeholder. *)

From S2P Require Import Prelude ContentHash MountTypes Effects PayloadStore LazyTable LazyFill LazySystem.
From Stdlib Require Import ZArith Lia.

(** ** Content a gateway served *)

Fixpoint ranges_from (log : list Answer) (path : string) (offset : Z) (chunks : list bytes) : Prop :=
  match chunks with
  | [] => True
  | b :: chunks => ARange path offset b ∈ log /\ ranges_from log path (offset + zlen b) chunks
  end.

Section Accepted.
Context {H : HashCrates} (alg : VfsHashAlgorithm).

(** [b] is what the gateway served for the file [i], a placeholder listed as [p], under a
    name by which a fill opened that very file: the answer to a whole read, a file of a
    pack that verifies against the listing, or consecutive ranges that verify against what
    the gateway said of the file then. *)
Inductive accepted (log : list Answer) (i : nat) (p : Placeholder) (b : bytes) : Prop :=
| accepted_whole path : AOpen path i ∈ log -> AWhole path b ∈ log -> accepted log i p b
| accepted_pack path :
    AOpen path i ∈ log -> APack path b ∈ log ->
    verify_downloaded (for_placeholder path p) (zlen b) (content_hash_of alg b) = Ok tt -> accepted log i p b
| accepted_stream path size hash chunks :
    AOpen path i ∈ log -> AStat path size hash ∈ log -> ranges_from log path 0 chunks -> b = concat chunks ->
    verify_downloaded (pin (for_placeholder path p) size hash) (zlen b) (content_hash_of alg b) = Ok tt ->
    accepted log i p b
| accepted_empty : ph_size p = 0%Z -> b = [] -> accepted log i p b.

Lemma ranges_from_mono log log' path chunks : forall offset,
  log ⊆ log' -> ranges_from log path offset chunks -> ranges_from log' path offset chunks.
Proof. induction chunks as [|b chunks IH]; intros offset Hl; cbn; [done|]. intros [? ?]. split; [by apply Hl|by apply IH]. Qed.

Lemma accepted_mono log log' i p b : log ⊆ log' -> accepted log i p b -> accepted log' i p b.
Proof.
  intros Hl [path Ho Hw|path Ho Hp Hv|path size hash chunks Ho Hs Hr -> Hv|Hz ->].
  - eapply accepted_whole; by apply Hl.
  - eapply accepted_pack; [by apply Hl..|done].
  - eapply accepted_stream; [by apply Hl..|by eapply ranges_from_mono|done|done].
  - by apply accepted_empty.
Qed.
End Accepted.

(** ** Claims and facts *)

Inductive Claim :=
| CNew
| CEntry (e : PendingEntry) (safe_names : list string)
| CHandle (e : PendingEntry) (safe_names : list string) (member : string) (f : MountFile)
| COpen (e : PendingEntry) (f : MountFile) (b : bytes) (whole : bool)
| CGone.

Inductive Fact :=
| FSafe (path : string)
| FNamed (path : string) (id : Z)
| FTree (prefix : string) (ids : list Z)
| FAway (id : Z)
| FNoMarks
| FAnswer (a : Answer)
| FGuest (f : MountFile).

Abbreviation Ghost := (option (gmap Z Claim * list Fact)).

Definition answers_in (fs : list Fact) : list Answer := omap (fun f => match f with FAnswer a => Some a | _ => None end) fs.

(** What the facts say of a name, and of all names at or below a prefix. *)
Definition knows_safe (fs : list Fact) (path : string) : Prop :=
  FSafe path ∈ fs \/ FNoMarks ∈ fs \/ exists id, FNamed path id ∈ fs /\ FAway id ∈ fs.
Definition knows_safe_tree (fs : list Fact) (prefix : string) : Prop :=
  FNoMarks ∈ fs \/ exists ids, FTree prefix ids ∈ fs /\ forall id, id ∈ ids -> FAway id ∈ fs.

Definition claimed (m : gmap Z Claim) (f : MountFile) : option (Z * Claim) :=
  match mf_opener f with
  | ByFill id => match m !! id with Some c => Some (id, c) | None => None end
  | ByGuest => None
  end.

Section Ghost.
Context {H : HashCrates} (alg : VfsHashAlgorithm) (links : bool).

Definition guest_or (fs : list Fact) (f : MountFile) (P : Prop) : Prop := FGuest f ∈ fs \/ P.

Definition lazy_pre (A : Type) (g : Ghost) (e : LazyE A) : Prop :=
  match g with
  | None => True
  | Some (m, fs) =>
      match e with
      | TbSnapshot id | TbRelease id | TbFail id _ => is_Some (m !! id)
      | TbComplete id =>
          m !! id = Some CGone \/ exists e sf, m !! id = Some (CEntry e sf) /\ forall p, p ∈ members e -> p ∈ sf
      | TbForget path => knows_safe fs path
      | TbForgetUnless _ | BkRemoveAll _ => False
      | BkOpen ByGuest path => knows_safe fs path
      | BkOpen (ByFill id) path =>
          exists e sf, m !! id = Some (CEntry e sf) /\ (path ∈ members e \/ FNamed path id ∈ fs)
      | BkApply mutation =>
          match mutation with
          | CreateHardLink existing _ => knows_safe fs existing
          | Rename old _ _ => knows_safe_tree fs old
          | CreateSymlink _ _ => links = true
          | _ => True
          end
      | BkMark f => exists id e sf p, claimed m f = Some (id, CHandle e sf p f)
      | BkWrite f b offset =>
          guest_or fs f (exists id e b0 whole, claimed m f = Some (id, COpen e f b0 whole) /\ (0 <= offset <= zlen b0)%Z)
      | BkTruncate f size =>
          guest_or fs f (exists id e b0 whole, claimed m f = Some (id, COpen e f b0 whole) /\ (0 <= size <= zlen b0)%Z)
      | BkAllocate f _ _ | BkCopy f _ _ _ _ => FGuest f ∈ fs
      | BkClearMark f =>
          exists id e b, claimed m f = Some (id, COpen e f b true) /\ accepted alg (answers_in fs) (mf_ino f) (placeholder e) b
      | BkSize f =>
          match claimed m f with
          | Some (_, CHandle _ _ _ f') | Some (_, COpen _ f' _ _) => f' = f
          | _ => True
          end
      | BkSetRoot b => b = false -> FNoMarks ∈ fs
      | _ => True
      end
  end.

Definition move_claim (g : Ghost) (m : gmap Z Claim) (fs : list Fact) (f : MountFile) (k : Z -> Claim -> option Claim) : Ghost :=
  match claimed m f with
  | Some (id, c) => (fun c' => (<[id := c']> m, fs)) <$> k id c
  | None => g
  end.

Definition lazy_upd (A : Type) (g : Ghost) (e : LazyE A) : A -> Ghost :=
  match g with
  | None => fun _ => None
  | Some (m, fs) =>
      let learn fs' : Ghost := Some (m, fs' ++ fs) in
      match e in LazyE A return A -> Ghost with
      | TbOutstanding => fun n => if (n =? 0)%Z then learn [FNoMarks] else g
      | TbLookup path => fun r => learn [match r with None => FSafe path | Some id => FNamed path id end]
      | TbIdsWithin prefix => fun ids => learn [FTree prefix ids]
      | TbRound ids _ => fun r => match fst r with RoundDone => learn (FAway <$> ids) | _ => g end
      | TbPendingIds => fun ids => if decide (NoDup ids) then g else None
      | TbNextJob => fun id => Some (<[id := CNew]> m, fs)
      | TbClaim id => fun r =>
          match r, m !! id with
          | Some e, None => Some (<[id := CEntry e []]> m, fs)
          | Some _, Some _ => None
          | None, _ => g
          end
      | TbSnapshot id => fun r =>
          match m !! id, r with
          | Some CNew, Some e => Some (<[id := CEntry e []]> m, fs)
          | Some CNew, None => None
          | _, _ => g
          end
      | TbRelease id | TbComplete id | TbFail id _ => fun _ => Some (delete id m, fs)
      | BkOpen ByGuest _ | BkCreate _ => fun r =>
          match r with
          | Ok f => if decide (mf_opener f = ByGuest) then learn [FGuest f] else None
          | Err _ => g
          end
      | BkOpen (ByFill id) path => fun r =>
          match m !! id with
          | Some (CEntry e sf) =>
              match r with
              | Ok f =>
                  if decide (mf_opener f = ByFill id)
                  then Some (<[id := CHandle e sf path f]> m, FAnswer (AOpen path (mf_ino f)) :: fs) else None
              | Err x => if not_a_file x then Some (<[id := CEntry e (path :: sf)]> m, fs) else g
              end
          | _ => g
          end
      | BkApply mutation => fun r =>
          match r, mutation with
          | Ok _, RemoveFile p _ => learn [FSafe p]
          | Ok _, Rename _ p _ => learn [FSafe p]
          | _, _ => g
          end
      | BkMark f => fun r =>
          move_claim g m fs f (fun _ c =>
            match c with
            | CHandle e sf p f' =>
                match r with
                | Ok (Some q) => if decide (q = placeholder e) then Some (COpen e f' [] false) else None
                | Ok None => Some (CEntry e (p :: sf))
                | Err _ => Some (CEntry e sf)
                end
            | c => Some c
            end)
      | BkSize f => fun r =>
          move_claim g m fs f (fun _ c =>
            match c, r with
            | COpen e f' b whole, Ok n => if (n <? zlen b)%Z then None else Some (COpen e f' b (whole || (n =? zlen b)%Z))
            | c, _ => Some c
            end)
      | BkWrite f b offset => fun r =>
          move_claim g m fs f (fun _ c =>
            match c, r with
            | COpen e f' b0 _, Ok n =>
                if decide (0 <= n <= zlen b)%Z
                then Some (COpen e f' (take (Z.to_nat offset) b0 ++ take (Z.to_nat n) b) false) else None
            | c, _ => Some c
            end)
      | BkTruncate f size => fun r =>
          move_claim g m fs f (fun _ c =>
            Some (match c, r with COpen e f' b _, Ok _ => COpen e f' (take (Z.to_nat size) b) true | c, _ => c end))
      | BkClearMark f => fun r =>
          move_claim g m fs f (fun _ c =>
            match r with
            | Ok _ => Some CGone
            | Err (Sys ENOTSUP) => None
            | Err _ => Some c
            end)
      | GwRead path => fun r => learn (FAnswer <$> read_answers path r)
      | GwStat path => fun r => learn (FAnswer <$> stat_answers path r)
      | GwRange path offset _ _ => fun r => learn (FAnswer <$> range_answers path offset r)
      | GwPrefetch _ => fun r => learn (FAnswer <$> pack_answers r)
      | _ => fun _ => g
      end
  end.

(** ** What they mean *)

Definition marked (w : LazyWorld) (i : nat) (p : Placeholder) : Prop :=
  exists n, lw_inodes w !! i = Some n /\ in_mark n = Some p.
Definition safe (w : LazyWorld) (path : string) : Prop :=
  forall i p, lw_names w !! path = Some (NFile i) -> ~ marked w i p.
Definition fetching (w : LazyWorld) (id : Z) : Prop :=
  exists e, lz_entries (lw_table w) !! id = Some e /\ le_status e = Fetching.
Definition named (w : LazyWorld) (path : string) (id : Z) : Prop := lz_by_path (lw_table w) !! path = Some id.

(** [owner]: the entry each marked inode belongs to. *)
Definition entry_of (w : LazyWorld) (id : Z) (e : PendingEntry) : Prop :=
  (forall p, named w p id -> p ∈ members e) /\
  (forall p, p ∈ members e -> named w p id \/ safe w p) /\
  (forall e', lz_entries (lw_table w) !! id = Some e' -> placeholder (le_pending e') = placeholder e).

Definition claim_ok (owner : nat -> Z) (w : LazyWorld) (id : Z) (c : Claim) : Prop :=
  match c with
  | CNew => True
  | CEntry e sf => entry_of w id e /\ forall p, p ∈ sf -> safe w p
  | CHandle e sf path f =>
      entry_of w id e /\ (forall p, p ∈ sf -> safe w p) /\ mf_opener f = ByFill id /\
      is_Some (lw_inodes w !! mf_ino f) /\
      (forall q, marked w (mf_ino f) q -> q = placeholder e /\ owner (mf_ino f) = id) /\
      ((exists q, marked w (mf_ino f) q) \/ safe w path)
  | COpen e f b whole =>
      entry_of w id e /\ mf_opener f = ByFill id /\ owner (mf_ino f) = id /\
      exists n, lw_inodes w !! mf_ino f = Some n /\ in_mark n = Some (placeholder e) /\
        take (length b) (in_data n) = b /\ (length b <= length (in_data n)) /\ (whole = true -> in_data n = b)
  | CGone => forall p, named w p id -> safe w p
  end.

Definition fact_ok (w : LazyWorld) (f : Fact) : Prop :=
  match f with
  | FSafe path => safe w path
  | FNamed path id => named w path id \/ safe w path
  | FTree prefix ids => forall p, below prefix p -> (exists id, id ∈ ids /\ named w p id) \/ safe w p
  | FAway id => forall p, ~ named w p id
  | FNoMarks => forall p, safe w p
  | FAnswer a => a ∈ lw_log w
  | FGuest f => guest_file f w
  end.

Record lazy_world_ok (owner : nat -> Z) (w : LazyWorld) : Prop := {
  lwo_table : table_ok (lw_table w);
  lwo_tracked : forall path i p, lw_names w !! path = Some (NFile i) -> marked w i p ->
    named w path (owner i) /\ exists e, lz_entries (lw_table w) !! owner i = Some e /\ placeholder (le_pending e) = p;
  lwo_owner : forall i j p q, marked w i p -> marked w j q -> owner i = owner j -> i = j;
  lwo_names : forall path i, lw_names w !! path = Some (NFile i) -> is_Some (lw_inodes w !! i);
  lwo_links : links = false -> forall path target, lw_names w !! path ≠ Some (NLink target);
  lwo_root : lw_root w = false -> forall path, safe w path;
  lwo_guest : forall i, i ∈ lw_guest w -> is_Some (lw_inodes w !! i) /\ forall p, ~ marked w i p;
  lwo_origin : forall i n p, lw_inodes w !! i = Some n -> in_mark n = Some p -> in_origin n = Some p;
  lwo_content : forall i n, lw_inodes w !! i = Some n -> in_mark n = None ->
    in_data n = foldl apply_edit (in_base n) (in_edits n) /\
    forall p, in_origin n = Some p -> accepted alg (lw_log w) i p (in_base n);
  lwo_jobs : NoDup (lw_jobs w) /\ forall id, id ∈ lw_jobs w -> fetching w id;
}.

Definition holds (owner : nat -> Z) (w : LazyWorld) (m : gmap Z Claim) (fs : list Fact) : Prop :=
  (forall id c, m !! id = Some c -> fetching w id /\ id ∉ lw_jobs w /\ claim_ok owner w id c) /\
  forall f, f ∈ fs -> fact_ok w f.

Definition lazy_inv (w : LazyWorld) (γ : gmap nat (unit * Ghost)) : Prop :=
  exists owner, lazy_world_ok owner w /\
    (forall i u g, γ !! i = Some (u, g) -> exists m fs, g = Some (m, fs) /\ holds owner w m fs) /\
    (forall i j u u' m m' fs fs' id, i ≠ j -> γ !! i = Some (u, Some (m, fs)) -> γ !! j = Some (u', Some (m', fs')) ->
       is_Some (m !! id) -> is_Some (m' !! id) -> False).
End Ghost.

(** ** What a step may do to others *)

(** From [w] to [w']: nothing that others rely on is lost. [mine] is the claim of the task
    that moves. *)
Record evolves (owner : nat -> Z) (mine : option Z) (w w' : LazyWorld) : Prop := {
  ev_named : forall p id, named w' p id -> named w p id;
  ev_unnamed : forall p id, named w p id -> named w' p id \/ safe w p;
  ev_entry : forall id e', lz_entries (lw_table w') !! id = Some e' ->
    exists e, lz_entries (lw_table w) !! id = Some e /\ placeholder (le_pending e') = placeholder (le_pending e);
  ev_marked : forall i p, marked w' i p -> marked w i p;
  ev_names : forall path i p, lw_names w' !! path = Some (NFile i) -> marked w' i p -> ~ safe w path;
  ev_inodes : forall i, is_Some (lw_inodes w !! i) -> is_Some (lw_inodes w' !! i);
  ev_keeps : forall i n p, lw_inodes w !! i = Some n -> in_mark n = Some p -> Some (owner i) ≠ mine ->
    exists n', lw_inodes w' !! i = Some n' /\ in_data n' = in_data n /\ in_mark n' = in_mark n;
  ev_log : forall a, a ∈ lw_log w -> a ∈ lw_log w';
  ev_guest : forall i, i ∈ lw_guest w -> i ∈ lw_guest w';
  ev_fetching : forall id, fetching w id -> Some id ≠ mine -> fetching w' id;
  ev_jobs : forall id, id ∈ lw_jobs w' -> id ∈ lw_jobs w \/ ~ fetching w id;
}.

Section Stable.
Context {H : HashCrates} (alg : VfsHashAlgorithm) (owner : nat -> Z) (mine : option Z) (w w' : LazyWorld).
Hypothesis Hev : evolves owner mine w w'.

Lemma safe_stable path : safe w path -> safe w' path.
Proof. intros Hs i p Hn Hm. by eapply (ev_names _ _ _ _ Hev). Qed.

Lemma named_or_safe path id : named w path id \/ safe w path -> named w' path id \/ safe w' path.
Proof.
  intros [Hn|Hs]; [|right; by apply safe_stable].
  destruct (ev_unnamed _ _ _ _ Hev _ _ Hn); [by left|right; by apply safe_stable].
Qed.

Lemma fact_stable f : fact_ok w f -> fact_ok w' f.
Proof.
  destruct f; cbn.
  - apply safe_stable.
  - apply named_or_safe.
  - intros Hf p Hp. destruct (Hf p Hp) as [(id & Hin & Hid)|Hs]; [|right; by apply safe_stable].
    destruct (named_or_safe p id (or_introl Hid)); [left; eauto|by right].
  - intros Hf p Hp. by eapply Hf, (ev_named _ _ _ _ Hev).
  - intros Hf p. apply safe_stable, Hf.
  - apply (ev_log _ _ _ _ Hev).
  - intros [Ho Hg]. split; [done|]. by apply (ev_guest _ _ _ _ Hev).
Qed.

Lemma entry_of_stable id e : entry_of w id e -> entry_of w' id e.
Proof.
  intros (H1 & H2 & H3). split; [|split].
  - intros p Hp. by apply H1, (ev_named _ _ _ _ Hev).
  - intros p Hp. by apply named_or_safe, H2.
  - intros e' He'. destruct (ev_entry _ _ _ _ Hev _ _ He') as (e0 & He0 & ->). by apply H3.
Qed.

Lemma claim_stable id c : Some id ≠ mine -> claim_ok owner w id c -> claim_ok owner w' id c.
Proof.
  intros Hid. destruct c as [|e sf|e sf p f|e f b whole|]; cbn.
  - done.
  - intros [He Hs]. split; [by apply entry_of_stable|]. intros p Hp. by apply safe_stable, Hs.
  - intros (He & Hs & Ho & Hi & Hm & Hq). repeat split.
    1-3: by apply entry_of_stable.
    + intros q Hp. by apply safe_stable, Hs.
    + done.
    + by apply (ev_inodes _ _ _ _ Hev).
    + by apply Hm, (ev_marked _ _ _ _ Hev).
    + by eapply Hm, (ev_marked _ _ _ _ Hev).
    + destruct Hq as [[q Hq]|Hq]; [|right; by apply safe_stable]. left. exists q.
      destruct Hq as (n & Hn & Hnm). destruct (ev_keeps _ _ _ _ Hev _ _ _ Hn Hnm) as (n' & Hn' & _ & Hm').
      { destruct (Hm q) as [_ ->]; [by exists n|done]. }
      exists n'. split; [done|congruence].
  - intros (He & Ho & Hw & n & Hn & Hm & Hb). split; [by apply entry_of_stable|]. split; [done|]. split; [done|].
    destruct (ev_keeps _ _ _ _ Hev _ _ _ Hn Hm) as (n' & Hn' & Hd' & Hm'); [by rewrite Hw|].
    exists n'. rewrite Hd', Hm'. done.
  - intros Hs p Hp. apply safe_stable, Hs, (ev_named _ _ _ _ Hev), Hp.
Qed.
End Stable.

Section Step.
Context {H : HashCrates} (alg : VfsHashAlgorithm) (links : bool).

Abbreviation Inv := (lazy_inv alg links).

(** A task moves: its claims and facts hold afterwards, and what it newly claims was
    nobody's. *)
Lemma lazy_inv_step w w' γ i u m fs m' fs' (mine : option Z) :
  Inv w γ -> γ !! i = Some (u, Some (m, fs)) ->
  (forall id, mine = Some id -> is_Some (m !! id) \/ id ∈ lw_jobs w \/ ~ fetching w id) ->
  (forall id, is_Some (m' !! id) -> is_Some (m !! id) \/ id ∈ lw_jobs w \/ ~ fetching w id) ->
  (forall owner, lazy_world_ok alg links owner w -> holds owner w m fs ->
     lazy_world_ok alg links owner w' /\ evolves owner mine w w' /\ holds owner w' m' fs') ->
  Inv w' (<[i := (u, Some (m', fs'))]> γ).
Proof.
  intros (owner & Hw & Hg & Hd) Hi Hmine Hm' Hstep. exists owner.
  destruct (Hg _ _ _ Hi) as (m0 & fs0 & [= <- <-] & Hown). destruct (Hstep owner Hw Hown) as (Hw' & Hev & Hown').
  assert (forall j uj mj fsj id, j ≠ i -> γ !! j = Some (uj, Some (mj, fsj)) -> is_Some (mj !! id) ->
    ~ (is_Some (m !! id) \/ id ∈ lw_jobs w \/ ~ fetching w id)) as Hfree.
  { intros j uj mj fsj id Hne Hj [c Hc] [Hin|[Hin|Hin]]; [by eapply (Hd j i)|..];
      destruct (Hg _ _ _ Hj) as (? & ? & [= <- <-] & Hh & _); by destruct (Hh _ _ Hc) as (? & ? & _). }
  split; [done|]. split.
  - intros j uj g. destruct (decide (j = i)) as [->|Hne]; [rewrite lookup_insert_eq|rewrite lookup_insert_ne by done].
    { intros [= <- <-]. eauto. }
    intros Hj. destruct (Hg _ _ _ Hj) as (mj & fsj & -> & Hc & Hf). exists mj, fsj. split; [done|]. split.
    + intros id c Hid. destruct (Hc _ _ Hid) as (Hfe & Hjob & Hok).
      assert (Some id ≠ mine) as Hnm.
      { intros <-. by eapply Hfree; [..|apply Hmine]. }
      split; [by apply (ev_fetching _ _ _ _ Hev)|]. split; [|by eapply claim_stable].
      intros Hin. by destruct (ev_jobs _ _ _ _ Hev _ Hin).
    + intros f Hin. eapply fact_stable; [done|by apply Hf].
  - assert (forall j uj mj fsj id, j ≠ i -> γ !! j = Some (uj, Some (mj, fsj)) -> is_Some (m' !! id) -> is_Some (mj !! id) -> False) as Hone.
    { intros j uj mj fsj id Hne Hj Hin Hj'. by eapply Hfree, Hm'. }
    intros j k uj uk mj mk fsj fsk id Hne. rewrite !lookup_insert_Some.
    intros [[<- [= <- <- <-]]|[Hj1 Hj]] [[<- [= <- <- <-]]|[Hk1 Hk]]; [done|..]; intros; [by eapply Hone|by eapply Hone|by eapply (Hd j k)].
Qed.

(** Nothing changed: the task learns facts or moves its claims along. *)
Lemma evolves_refl owner mine w : evolves owner mine w w.
Proof.
  split; eauto. intros path i p Hn Hm Hs. by eapply Hs.
Qed.

Lemma lazy_inv_same w γ i u m fs m' fs' :
  Inv w γ -> γ !! i = Some (u, Some (m, fs)) -> (forall id, is_Some (m' !! id) -> is_Some (m !! id)) ->
  (forall owner, lazy_world_ok alg links owner w -> holds owner w m fs -> holds owner w m' fs') ->
  Inv w (<[i := (u, Some (m', fs'))]> γ).
Proof.
  intros HI Hi Hm Hh. eapply (lazy_inv_step _ _ _ _ _ _ _ _ _ None HI Hi); [done|by eauto|].
  intros owner Hw Hown. split; [done|]. split; [apply evolves_refl|by apply Hh].
Qed.

Lemma lazy_inv_id w γ i u m fs : Inv w γ -> γ !! i = Some (u, Some (m, fs)) -> Inv w (<[i := (u, Some (m, fs))]> γ).
Proof. intros HI Hi. eapply lazy_inv_same; [done..|eauto|done]. Qed.

(** Learning facts. *)
Lemma lazy_inv_learn w γ i u m fs new :
  Inv w γ -> γ !! i = Some (u, Some (m, fs)) ->
  (forall owner, lazy_world_ok alg links owner w -> forall f, f ∈ new -> fact_ok w f) ->
  Inv w (<[i := (u, Some (m, new ++ fs))]> γ).
Proof.
  intros HI Hi Hn. eapply lazy_inv_same; [done..|eauto|]. intros owner Hw [Hc Hf]. split; [done|].
  intros f [Hin|Hin]%elem_of_app; [by eapply Hn|by apply Hf].
Qed.
End Step.
