(* ===== verification/LazyRules.v ===== *)
(** * Every step keeps what tasks know

    One lemma per kind of operation: a critical section of the table, a namespace call, a
    change of content, the end of a fill, an answer of the gateway. *)

From S2P Require Import Prelude ContentHash MountTypes Effects PayloadStore LazyTable LazyFill LazySystem LazyInvariant.
From Stdlib Require Import ZArith Lia.

(** ** Sections of the table *)

(** What a section on behalf of [mine] leaves to everyone else. *)
Record keeps (mine : option Z) (t t' : LazyContent) : Prop := {
  ke_named : forall p id, lz_by_path t' !! p = Some id -> lz_by_path t !! p = Some id;
  ke_entry : forall id e', lz_entries t' !! id = Some e' ->
    exists e, lz_entries t !! id = Some e /\ placeholder (le_pending e') = placeholder (le_pending e);
  ke_fetching : forall id e, lz_entries t !! id = Some e -> le_status e = Fetching -> Some id ≠ mine ->
    exists e', lz_entries t' !! id = Some e' /\ le_status e' = Fetching;
}.

Lemma keeps_refl mine t : keeps mine t t.
Proof. split; eauto. Qed.

Lemma keeps_table_trans mine t1 t2 t3 : keeps mine t1 t2 -> keeps mine t2 t3 -> keeps mine t1 t3.
Proof.
  intros [N1 E1 F1] [N2 E2 F2]. split; [eauto|..].
  - intros id e3 H3. destruct (E2 _ _ H3) as (e2 & H2 & ->). eauto.
  - intros id e1 H1 Hf Hm. destruct (F1 _ _ H1 Hf Hm) as (e2 & H2 & Hf2). eauto.
Qed.

Lemma keeps_drop mine id t : keeps mine t (drop_if_unnamed id t).
Proof.
  unfold drop_if_unnamed. destruct (lz_entries t !! id) as [e|] eqn:Ee; [|apply keeps_refl].
  destruct (unnamed e) eqn:Eu; [|apply keeps_refl]. split; cbn; [done|..].
  - intros i e' [_ He]%lookup_delete_Some. eauto.
  - intros i e' He Hf _. exists e'. split; [|done]. apply lookup_delete_Some. split; [|done]. intros <-. simplify_eq.
    unfold unnamed in Eu. rewrite Hf in Eu. by destruct (members (le_pending e)).
Qed.

Lemma keeps_alter mine (f : LazyEntry -> LazyEntry) id t :
  (forall e, placeholder (le_pending (f e)) = placeholder (le_pending e)) ->
  (forall e, Some id ≠ mine -> le_status e = Fetching -> le_status (f e) = Fetching) ->
  keeps mine t (set_entries (alter f id (lz_entries t)) t).
Proof.
  intros Hf Hs. split; cbn; [done|..].
  - intros i e' He. destruct (decide (i = id)) as [->|]; [rewrite lookup_alter_eq in He|rewrite lookup_alter_ne in He by done; eauto].
    destruct (lz_entries t !! id) as [e|]; [|done]. cbn in He. injection He as <-. eauto.
  - intros i e He Hfe Hm. destruct (decide (i = id)) as [->|]; [rewrite lookup_alter_eq|rewrite lookup_alter_ne by done; eauto].
    rewrite He. cbn. eauto.
Qed.

Lemma keeps_forget_name mine path t : keeps mine t (forget_name path t).
Proof.
  unfold forget_name, detach. destruct (lz_by_path t !! path) as [id|] eqn:Ep; [|apply keeps_refl].
  eapply keeps_table_trans; [|apply keeps_drop].
  eapply (keeps_table_trans _ _ (set_entries (alter (drop_member path) id (lz_entries t)) t)); [by apply keeps_alter|].
  split; cbn; [|by eauto|by eauto]. intros p i [_ Hp]%lookup_delete_Some. done.
Qed.

Lemma keeps_claim mine id t : keeps mine t (claim id t).2.
Proof.
  unfold claim. destruct (lz_entries t !! id) as [e|] eqn:Ee; [|apply keeps_refl]. case_match; [|apply keeps_refl].
  cbn. rewrite (insert_as_alter _ _ _ _ Ee). by apply keeps_alter.
Qed.

Lemma keeps_release id t : keeps (Some id) t (release id t).
Proof. eapply keeps_table_trans; [|apply keeps_drop]. apply keeps_alter; [intros e; by case_match|done]. Qed.

Lemma keeps_fail id error t : keeps (Some id) t (fail id error t).
Proof. eapply keeps_table_trans; [|apply keeps_drop]. by apply keeps_alter. Qed.

Lemma keeps_retry mine t : keeps mine t (retry_failed t).
Proof.
  split; cbn; [done|..].
  - intros id ? (e & <- & He)%lookup_fmap_Some. exists e. split; [done|]. by destruct (le_status e).
  - intros id e He Hf _. eexists. split; [apply lookup_fmap_Some; by exists e|]. by rewrite Hf.
Qed.

Lemma keeps_complete id t : keeps (Some id) t (complete id t).
Proof.
  unfold complete. destruct (lz_entries t !! id) as [e|] eqn:Ee; [|apply keeps_refl]. split; cbn.
  - intros p i Hp. by apply unname_lookup in Hp as [? _].
  - intros i e' [_ He]%lookup_delete_Some. eauto.
  - intros i e' He Hf Hm. exists e'. split; [|done]. apply lookup_delete_Some. split; [congruence|done].
Qed.

(** The fetches a round starts were nobody's; a round that is done found nothing. *)
Lemma ensure_round_spec alive ids : forall waiting requested t r q st t',
  ensure_round alive ids waiting requested t = (r, q, st, t') ->
  keeps None t t' /\ lz_by_path t' = lz_by_path t /\ NoDup st /\
  (forall id, id ∈ st -> (exists e, lz_entries t !! id = Some e /\ le_status e ≠ Fetching) /\
     exists e, lz_entries t' !! id = Some e /\ le_status e = Fetching) /\
  (waiting = true -> r ≠ RoundDone) /\
  (r = RoundDone -> forall id, id ∈ ids -> lz_entries t' !! id = None).
Proof.
  induction ids as [|id ids IH]; intros waiting requested t r q st t'; cbn [ensure_round].
  { intros [= <- _ <- <-]. split; [apply keeps_refl|]. split; [done|]. split; [constructor|].
    split; [by intros ? ?%elem_of_nil|]. split; [by intros ->|by intros _ ? ?%elem_of_nil]. }
  destruct (lz_entries t !! id) as [e|] eqn:Ee.
  2: { intros E. destruct (IH _ _ _ _ _ _ _ E) as (K & B & N & S & W & D). repeat (split; [done|]).
       intros Hr i [->|Hi]%elem_of_cons; [|by apply D]. destruct (lz_entries t' !! id) as [e'|] eqn:Ee'; [|done].
       apply (ke_entry _ _ _ K) in Ee' as (? & ? & _). congruence. }
  assert (le_status e ≠ Fetching -> (if alive then
      let '(r, requested, started, t) := ensure_round alive ids true ({[id]} ∪ requested) (set_entries (<[id := set_status Fetching e]> (lz_entries t)) t) in
      (r, requested, id :: started, t)
    else (RoundFails "the mount is shutting down", {[id]} ∪ requested, [], t)) = (r, q, st, t') ->
    keeps None t t' /\ lz_by_path t' = lz_by_path t /\ NoDup st /\
    (forall i, i ∈ st -> (exists e, lz_entries t !! i = Some e /\ le_status e ≠ Fetching) /\
       exists e, lz_entries t' !! i = Some e /\ le_status e = Fetching) /\ r ≠ RoundDone) as Hs.
  { intros Hne. destruct alive.
    2: { intros [= <- _ <- <-]. split; [apply keeps_refl|]. split; [done|]. split; [constructor|]. split; [by intros ? ?%elem_of_nil|done]. }
    destruct (ensure_round _ _ _ _ _) as [[[r1 q1] st1] t1] eqn:E1. intros [= <- _ <- <-].
    destruct (IH _ _ _ _ _ _ _ E1) as (K & B & N & S & W & D).
    assert (keeps None t t1) as K'.
    { eapply keeps_table_trans; [|exact K]. rewrite (insert_as_alter _ _ _ _ Ee). by apply keeps_alter. }
    assert (id ∉ st1) as Hni.
    { intros Hi. destruct (S _ Hi) as [(e' & He' & Hf) _]. cbn in He'. rewrite lookup_insert_eq in He'. by injection He' as <-. }
    split; [done|]. split; [done|]. split; [by constructor|]. split; [|by apply W].
    intros i [->|Hi]%elem_of_cons.
    - split; [by eauto|]. eapply (ke_fetching _ _ _ K); [cbn; apply lookup_insert_eq|done|done].
    - destruct (S _ Hi) as [(e' & He' & Hf) Hx]. split; [|done]. cbn in He'. rewrite lookup_insert_ne in He' by congruence. eauto. }
  cbn zeta. intros E. destruct (le_status e) eqn:Es; [| |case_bool_decide].
  - destruct (Hs ltac:(done) E) as (K & B & N & S & W). repeat (split; [done|]). intros Hr. by destruct (W Hr).
  - destruct (IH _ _ _ _ _ _ _ E) as (K & B & N & S & W & D). repeat (split; [done|]). split; [by intros _; apply W|].
    intros ->. by specialize (W eq_refl).
  - injection E as <- _ <- <-. split; [apply keeps_refl|]. split; [done|]. split; [constructor|].
    split; [by intros ? ?%elem_of_nil|]. split; [done|]. by intros.
  - destruct (Hs ltac:(done) E) as (K & B & N & S & W). repeat (split; [done|]). intros Hr. by destruct (W Hr).
Qed.

Section Rules.
Context {H : HashCrates} (alg : VfsHashAlgorithm) (links : bool).

Abbreviation Inv := (lazy_inv alg links).
Abbreviation wok := (lazy_world_ok alg links).

Lemma claims_stable owner mine w w' m fs m' :
  evolves owner mine w w' -> holds owner w m fs ->
  (forall id c, m' !! id = Some c -> m !! id = Some c /\ Some id ≠ mine) -> holds owner w' m' fs.
Proof.
  intros Hev [Hc Hf] Hm. split; [|intros f Hin; eapply fact_stable; [done|by apply Hf]].
  intros id c Hid. destruct (Hm _ _ Hid) as [Hid' Hne]. destruct (Hc _ _ Hid') as (Hfe & Hj & Hok).
  split; [by apply (ev_fetching _ _ _ _ Hev)|]. split; [|by eapply claim_stable].
  intros Hin. by destruct (ev_jobs _ _ _ _ Hev _ Hin).
Qed.

(** A claim moves, all else stays. *)
Lemma claim_moves owner w w' m fs id c' :
  evolves owner (Some id) w w' -> holds owner w m fs -> fetching w' id -> id ∉ lw_jobs w' -> claim_ok owner w' id c' ->
  holds owner w' (<[id := c']> m) fs.
Proof.
  intros Hev Hh Hfe Hj Hc'. destruct (claims_stable _ _ _ _ _ _ (delete id m) Hev Hh) as [Hc Hf].
  { intros i c [Hne Hi]%lookup_delete_Some. split; [done|congruence]. }
  split; [|done]. intros i c. destruct (decide (i = id)) as [->|Hne].
  - rewrite lookup_insert_eq. by intros [= <-].
  - rewrite lookup_insert_ne by done. intros Hi. apply Hc. by rewrite lookup_delete_ne.
Qed.

Lemma table_world owner mine t' w :
  wok owner w -> table_ok t' -> keeps mine (lw_table w) t' ->
  (forall p id, named w p id -> lz_by_path t' !! p = Some id \/ safe w p) ->
  (forall id, mine = Some id -> id ∉ lw_jobs w) ->
  wok owner (set_table t' w) /\ evolves owner mine w (set_table t' w).
Proof.
  intros [W1 W2 W3 W4 W5 W6 W7 W8 W9 [W10 W11]] Ht [K1 K2 K3] Hun Hj. split.
  - split; cbn; try done.
    + intros path i p Hp Hm. destruct (W2 _ _ _ Hp Hm) as (Hn & e & He & Hpe).
      assert (lz_by_path t' !! path = Some (owner i)) as Hn' by (destruct (Hun _ _ Hn) as [|Hs]; [done|by destruct (Hs _ _ Hp Hm)]).
      split; [done|]. destruct (proj1 (to_path _ Ht _ _) Hn') as (e' & He' & _).
      destruct (K2 _ _ He') as (e0 & He0 & Hp0). exists e'. split; [done|]. congruence.
    + split; [done|]. intros id Hid. destruct (W11 _ Hid) as (e & He & Hf). apply (K3 _ _ He Hf).
      intros E. by apply (Hj id).
  - split; cbn; try done; eauto.
    + intros path i p Hp Hm Hs. by eapply Hs.
    + intros id (e & He & Hf) Hm. by apply (K3 _ _ He Hf).
Qed.

(** A section that ends no claim. *)
Lemma step_table w γ i u m fs t' :
  Inv w γ -> γ !! i = Some (u, Some (m, fs)) ->
  (forall owner, wok owner w -> holds owner w m fs ->
     table_ok t' /\ keeps None (lw_table w) t' /\ forall p id, named w p id -> lz_by_path t' !! p = Some id \/ safe w p) ->
  Inv (set_table t' w) (<[i := (u, Some (m, fs))]> γ).
Proof.
  intros HI Hi Hall. eapply (lazy_inv_step _ _ _ _ _ _ _ _ _ _ _ None HI Hi); [done|by eauto|].
  intros owner Hw Hh. destruct (Hall owner Hw Hh) as (Ht & Hk & Hn).
  destruct (table_world owner None t' w Hw Ht Hk Hn) as [Hw' Hev]; [done|]. split; [done|]. split; [done|].
  eapply claims_stable; [done|done|]. intros id c Hid. by split.
Qed.

(** A section that ends a claim. *)
Lemma step_end_claim w γ i u m fs id t' :
  Inv w γ -> γ !! i = Some (u, Some (m, fs)) -> is_Some (m !! id) ->
  (forall owner, wok owner w -> holds owner w m fs ->
     table_ok t' /\ keeps (Some id) (lw_table w) t' /\ forall p j, named w p j -> lz_by_path t' !! p = Some j \/ safe w p) ->
  Inv (set_table t' w) (<[i := (u, Some (delete id m, fs))]> γ).
Proof.
  intros HI Hi Hid Hall. eapply (lazy_inv_step _ _ _ _ _ _ _ _ _ _ _ (Some id) HI Hi).
  - intros j [= <-]. by left.
  - intros j [c [_ Hj]%lookup_delete_Some]. left. eauto.
  - intros owner Hw Hh. destruct (Hall owner Hw Hh) as (Ht & Hk & Hn).
    destruct (table_world owner (Some id) t' w Hw Ht Hk Hn) as [Hw' Hev].
    { intros j [= <-]. destruct Hid as [c Hid]. by destruct (proj1 Hh _ _ Hid) as (_ & ? & _). }
    split; [done|]. split; [done|]. eapply claims_stable; [done|done|].
    intros j c [Hne Hj]%lookup_delete_Some. split; [done|congruence].
Qed.

Lemma facts_safe owner w m fs path : holds owner w m fs -> knows_safe fs path -> safe w path.
Proof.
  intros [_ Hf] [Hs|[Hs|(id & Hn & Ha)]]; [by apply (Hf _ Hs)|by apply (Hf _ Hs)|].
  destruct (Hf _ Hn) as [Hp|]; [|done]. by destruct (Hf _ Ha path).
Qed.

Lemma facts_safe_tree owner w m fs prefix path :
  holds owner w m fs -> knows_safe_tree fs prefix -> below prefix path -> safe w path.
Proof.
  intros [_ Hf] [Hs|(ids & Ht & Ha)] Hb; [by apply (Hf _ Hs)|].
  destruct (Hf _ Ht path Hb) as [(id & Hin & Hn)|]; [|done]. by destruct (Hf _ (Ha _ Hin) path).
Qed.

Lemma step_forget w γ i u m fs path :
  Inv w γ -> γ !! i = Some (u, Some (m, fs)) -> knows_safe fs path ->
  Inv (set_table (forget_name path (lw_table w)) w) (<[i := (u, Some (m, fs))]> γ).
Proof.
  intros HI Hi Hk. apply (step_table _ _ _ _ _ _ _ HI Hi). intros owner Hw Hh.
  split; [apply forget_name_ok, Hw|]. split; [apply keeps_forget_name|]. intros p id Hn. rewrite forget_by_path.
  destruct (decide (p = path)) as [->|]; [right; by eapply facts_safe|left; by rewrite lookup_delete_ne].
Qed.

Lemma step_retry w γ i u m fs :
  Inv w γ -> γ !! i = Some (u, Some (m, fs)) ->
  Inv (set_table (retry_failed (lw_table w)) w) (<[i := (u, Some (m, fs))]> γ).
Proof.
  intros HI Hi. apply (step_table _ _ _ _ _ _ _ HI Hi). intros owner Hw Hh.
  split; [apply retry_failed_ok, Hw|]. split; [apply keeps_retry|]. intros p id Hn. by left.
Qed.

Lemma drop_by_path id t : lz_by_path (drop_if_unnamed id t) = lz_by_path t.
Proof. unfold drop_if_unnamed. by repeat case_match. Qed.

Lemma step_release w γ i u m fs id :
  Inv w γ -> γ !! i = Some (u, Some (m, fs)) -> is_Some (m !! id) ->
  Inv (set_table (release id (lw_table w)) w) (<[i := (u, Some (delete id m, fs))]> γ).
Proof.
  intros HI Hi Hid. apply (step_end_claim _ _ _ _ _ _ _ _ HI Hi Hid). intros owner Hw Hh.
  split; [apply release_entry_ok, Hw|]. split; [apply keeps_release|]. intros p j Hn. left. unfold release. by rewrite drop_by_path.
Qed.

Lemma step_fail w γ i u m fs id error :
  Inv w γ -> γ !! i = Some (u, Some (m, fs)) -> is_Some (m !! id) ->
  Inv (set_table (fail id error (lw_table w)) w) (<[i := (u, Some (delete id m, fs))]> γ).
Proof.
  intros HI Hi Hid. apply (step_end_claim _ _ _ _ _ _ _ _ HI Hi Hid). intros owner Hw Hh.
  split; [apply fail_ok, Hw|]. split; [apply keeps_fail|]. intros p j Hn. left. unfold fail. by rewrite drop_by_path.
Qed.

(** An entry is taken away once none of its names leads to a placeholder. *)
Definition finished (m : gmap Z Claim) (id : Z) : Prop :=
  m !! id = Some CGone \/ exists e sf, m !! id = Some (CEntry e sf) /\ forall p, p ∈ members e -> p ∈ sf.

Lemma finished_safe owner w m fs id p : holds owner w m fs -> finished m id -> named w p id -> safe w p.
Proof.
  intros [Hc _] [Hg|(e & sf & He & Hall)] Hn.
  - destruct (Hc _ _ Hg) as (_ & _ & Hs). by apply Hs.
  - destruct (Hc _ _ He) as (_ & _ & (Hm & _ & _) & Hs). by apply Hs, Hall, Hm.
Qed.

Lemma step_complete w γ i u m fs id :
  Inv w γ -> γ !! i = Some (u, Some (m, fs)) -> finished m id ->
  Inv (set_table (complete id (lw_table w)) w) (<[i := (u, Some (delete id m, fs))]> γ).
Proof.
  intros HI Hi Hid. apply (step_end_claim _ _ _ _ _ _ _ _ HI Hi).
  { destruct Hid as [Hg|(e & sf & He & _)]; eauto. }
  intros owner Hw Hh. split; [apply complete_ok, Hw|]. split; [apply keeps_complete|]. intros p j Hn.
  destruct (decide (j = id)) as [->|Hne]; [right; by eapply finished_safe|left].
  unfold complete. case_match; [|done]. cbn. apply unname_lookup. split; [done|]. by intros [? _].
Qed.

(** A section that starts a claim. *)
Lemma fetching_alter t id e :
  lz_entries t !! id = Some e -> lz_entries (set_entries (<[id := set_status Fetching e]> (lz_entries t)) t) !! id = Some (set_status Fetching e).
Proof. intros _. cbn. by rewrite lookup_insert_eq. Qed.

Lemma entry_of_now w id e :
  table_ok (lw_table w) -> lz_entries (lw_table w) !! id = Some e -> entry_of w id (le_pending e).
Proof.
  intros Ht He. split; [|split].
  - intros p Hp. destruct (proj1 (to_path _ Ht _ _) Hp) as (e' & He' & Hm). congruence.
  - intros p Hp. left. apply (to_path _ Ht). eauto.
  - intros e' He'. congruence.
Qed.

Lemma step_claim w γ i u m fs id :
  Inv w γ -> γ !! i = Some (u, Some (m, fs)) ->
  Inv (set_table (claim id (lw_table w)).2 w)
    (<[i := (u, match (claim id (lw_table w)).1 with Some e => Some (<[id := CEntry e []]> m, fs) | None => Some (m, fs) end)]> γ).
Proof.
  intros HI Hi. unfold claim. destruct (lz_entries (lw_table w) !! id) as [e|] eqn:Ee.
  2: { cbn. destruct w; by apply lazy_inv_id. }
  case_bool_decide as Hs; cbn; [|destruct w; by apply lazy_inv_id].
  assert (~ fetching w id) as Hnf by (intros (e' & He' & Hf); congruence).
  eapply (lazy_inv_step _ _ _ _ _ _ _ _ _ _ _ (Some id) HI Hi).
  { intros j [= <-]. by right; right. }
  { intros j Hj. destruct (decide (j = id)) as [->|]; [by right; right|left]. by rewrite lookup_insert_ne in Hj. }
  intros owner Hw Hh. pose proof (keeps_claim None id (lw_table w)) as Hk. unfold claim in Hk. rewrite Ee in Hk.
  rewrite bool_decide_true in Hk by done. cbn in Hk.
  destruct (table_world owner (Some id) (set_entries (<[id := set_status Fetching e]> (lz_entries (lw_table w))) (lw_table w)) w Hw) as [Hw' Hev].
  { rewrite (insert_as_alter _ _ _ _ Ee). apply fetching_ok; [apply Hw|eauto]. }
  { destruct Hk as [K1 K2 K3]. split; [done..|]. intros j ej Hj Hf _. by eapply K3. }
  { intros p j Hn. by left. }
  { intros j [= <-] Hin. by apply Hnf, (lwo_jobs _ _ _ _ Hw). }
  split; [done|]. split; [done|]. apply (claim_moves _ w); [done|done| | |].
  - exists (set_status Fetching e). cbn. by rewrite lookup_insert_eq.
  - cbn. intros Hin. by apply Hnf, (lwo_jobs _ _ _ _ Hw).
  - split; [|by intros ? ?%elem_of_nil]. apply (entry_of_now _ _ (set_status Fetching e)); [apply Hw'|].
    cbn. by rewrite lookup_insert_eq.
Qed.

(** Fetches handed to the runtime, and taken from it. *)
Lemma step_round w γ i u m fs ids requested r q st t' :
  Inv w γ -> γ !! i = Some (u, Some (m, fs)) ->
  ensure_round (lw_alive w) ids false requested (lw_table w) = (r, q, st, t') ->
  Inv (set_jobs (lw_jobs w ++ st) (set_table t' w))
    (<[i := (u, Some (m, match r with RoundDone => FAway <$> ids | _ => [] end ++ fs))]> γ).
Proof.
  intros HI Hi Er. destruct (ensure_round_spec _ _ _ _ _ _ _ _ _ Er) as (Hk & Hb & Hnd & Hst & _ & Hdone).
  eapply (lazy_inv_step _ _ _ _ _ _ _ _ _ _ _ None HI Hi); [done|by eauto|]. intros owner Hw Hh.
  assert (table_ok t') as Ht by (by eapply ensure_round_ok; [apply Hw|]).
  destruct (table_world owner None t' w Hw Ht Hk) as [Hw' Hev]; [intros p id Hn; left; by rewrite Hb|done|].
  assert (forall id, id ∈ st -> ~ fetching w id) as Hnew.
  { intros id Hin (e & He & Hf). by destruct (Hst _ Hin) as [(e' & He' & Hne) _]; simplify_eq. }
  assert (evolves owner None w (set_jobs (lw_jobs w ++ st) (set_table t' w))) as Hev'.
  { destruct Hev. split; try done. cbn. intros id [Hin|Hin]%elem_of_app; [by left|by right; apply Hnew]. }
  split; [|split; [done|]].
  - destruct Hw' as [W1 W2 W3 W4 W5 W6 W7 W8 W9 [W10 W11]]. split; try done. cbn in *. split.
    + apply NoDup_app. split; [done|]. split; [|done]. intros id Hin Hs. by apply (Hnew id), (lwo_jobs _ _ _ _ Hw).
    + intros id [Hin|Hin]%elem_of_app; [by apply W11|]. by apply Hst.
  - destruct (claims_stable _ _ _ _ _ _ m Hev' Hh) as [Hc Hf]; [by intros id c ?|]. split; [done|].
    intros f [Hin|Hin]%elem_of_app; [|by apply Hf]. destruct r; [|by apply elem_of_nil in Hin..].
    apply list_elem_of_fmap in Hin as (id & -> & Hin). intros p Hn. unfold named in Hn. cbn in Hn.
    apply (to_path _ Ht) in Hn as (e & He & _). rewrite (Hdone eq_refl _ Hin) in He. done.
Qed.

Lemma step_next_job w γ i u m fs id :
  Inv w γ -> γ !! i = Some (u, Some (m, fs)) -> id ∈ lw_jobs w ->
  Inv (set_jobs (filter (fun j => j ≠ id) (lw_jobs w)) w) (<[i := (u, Some (<[id := CNew]> m, fs))]> γ).
Proof.
  intros HI Hi Hj. eapply (lazy_inv_step _ _ _ _ _ _ _ _ _ _ _ (Some id) HI Hi).
  { intros j [= <-]. by right; left. }
  { intros j Hin. destruct (decide (j = id)) as [->|]; [by right; left|left]. by rewrite lookup_insert_ne in Hin. }
  intros owner Hw Hh.
  assert (evolves owner (Some id) w (set_jobs (filter (fun j => j ≠ id) (lw_jobs w)) w)) as Hev.
  { destruct (evolves_refl owner (Some id) w). split; try done. cbn. intros j [_ Hin]%list_elem_of_filter. by left. }
  split; [|split; [done|]].
  - destruct Hw as [W1 W2 W3 W4 W5 W6 W7 W8 W9 [W10 W11]]. split; try done. cbn. split; [by apply NoDup_filter|].
    intros j [_ Hin]%list_elem_of_filter. by apply W11.
  - apply (claim_moves _ w); [done|done| | |done]; cbn; [by apply (lwo_jobs _ _ _ _ Hw)|].
    by intros [? _]%list_elem_of_filter.
Qed.

(** A task moves one of its claims along and the world stays. *)
Lemma step_claim_moves w γ i u m fs id c c' :
  Inv w γ -> γ !! i = Some (u, Some (m, fs)) -> m !! id = Some c ->
  (forall owner, wok owner w -> holds owner w m fs -> claim_ok owner w id c -> claim_ok owner w id c') ->
  Inv w (<[i := (u, Some (<[id := c']> m, fs))]> γ).
Proof.
  intros HI Hi Hc Hstep. eapply lazy_inv_same; [done..| |].
  - intros j Hj. destruct (decide (j = id)) as [->|]; [by eexists|by rewrite lookup_insert_ne in Hj].
  - intros owner Hw Hh. destruct (proj1 Hh _ _ Hc) as (Hf & Hn & Hok). apply (claim_moves _ w); [apply evolves_refl|done..|by apply Hstep].
Qed.

Lemma step_snapshot w γ i u m fs id e :
  Inv w γ -> γ !! i = Some (u, Some (m, fs)) -> m !! id = Some CNew -> snapshot id (lw_table w) = Some e ->
  Inv w (<[i := (u, Some (<[id := CEntry e []]> m, fs))]> γ).
Proof.
  intros HI Hi Hc He. eapply step_claim_moves; [done..|]. intros owner Hw Hh _.
  unfold snapshot in He. destruct (lz_entries (lw_table w) !! id) as [e0|] eqn:Ee; [|done]. cbn in He. injection He as <-.
  split; [by apply entry_of_now; [apply Hw|]|by intros ? ?%elem_of_nil].
Qed.

Lemma claim_fetching w γ i u m fs id c : Inv w γ -> γ !! i = Some (u, Some (m, fs)) -> m !! id = Some c -> fetching w id.
Proof. intros (owner & _ & Hg & _) Hi Hc. destruct (Hg _ _ _ Hi) as (? & ? & [= <- <-] & Hh & _). by destruct (Hh _ _ Hc). Qed.

(** Opening. *)
Lemma follow_name names fuel path ino :
  (forall p target, names !! p ≠ Some (NLink target)) -> follow fuel names path = Ok ino -> names !! path = Some (NFile ino).
Proof. intros Hl. destruct fuel; cbn; destruct (names !! path) as [[j| |t]|] eqn:En; try done; [by intros [= ->]|by intros [= ->]|by destruct (Hl path t)]. Qed.

Lemma follow_error names fuel path e :
  (forall p target, names !! p ≠ Some (NLink target)) -> follow fuel names path = Err e -> forall i, names !! path ≠ Some (NFile i).
Proof. intros Hl. destruct fuel; cbn; by destruct (names !! path) as [[j| |t]|] eqn:En. Qed.

Lemma step_guest_opens w γ i u m fs path ino :
  links = false ->
  Inv w γ -> γ !! i = Some (u, Some (m, fs)) -> knows_safe fs path -> follow 40 (lw_names w) path = Ok ino ->
  Inv (set_guest ({[ino]} ∪ lw_guest w) w) (<[i := (u, Some (m, FGuest (MkFile ino ByGuest) :: fs))]> γ).
Proof.
  intros Hl HI Hi Hk Hf. eapply (lazy_inv_step _ _ _ _ _ _ _ _ _ _ _ None HI Hi); [done|by eauto|]. intros owner Hw Hh.
  pose proof (follow_name _ _ _ _ (lwo_links _ _ _ _ Hw Hl) Hf) as Hn.
  assert (evolves owner None w (set_guest ({[ino]} ∪ lw_guest w) w)) as Hev.
  { destruct (evolves_refl owner None w). split; try done. cbn. intros j Hj. apply elem_of_union. by right. }
  split; [|split; [done|]].
  - pose proof (facts_safe _ _ _ _ _ Hh Hk) as Hs. destruct Hw as [W1 W2 W3 W4 W5 W6 W7 W8 W9 W10]. split; try done. cbn.
    intros j [->%elem_of_singleton|Hj]%elem_of_union; [|by apply W7]. split; [by eapply W4|]. intros p Hm. by eapply Hs.
  - destruct (claims_stable _ _ _ _ _ _ m Hev Hh) as [Hc Hfs]; [by intros id c ?|]. split; [done|].
    intros f [->|Hin]%elem_of_cons; [|by apply Hfs]. split; [done|]. cbn. apply elem_of_union. left. by apply elem_of_singleton.
Qed.

Lemma step_fill_opens w γ i u m fs id e sf path ino :
  links = false ->
  Inv w γ -> γ !! i = Some (u, Some (m, fs)) -> m !! id = Some (CEntry e sf) ->
  (path ∈ members e \/ FNamed path id ∈ fs) -> follow 40 (lw_names w) path = Ok ino ->
  Inv w (<[i := (u, Some (<[id := CHandle e sf path (MkFile ino (ByFill id))]> m, fs))]> γ).
Proof.
  intros Hl HI Hi Hc Hp Hf. eapply step_claim_moves; [done..|]. intros owner Hw Hh [He Hs].
  pose proof (follow_name _ _ _ _ (lwo_links _ _ _ _ Hw Hl) Hf) as Hn.
  assert (named w path id \/ safe w path) as Hns by (destruct Hp as [Hp|Hp]; [by apply He|by apply (proj2 Hh _ Hp)]).
  destruct (lwo_names _ _ _ _ Hw _ _ Hn) as [n Hin]. split; [done|]. split; [done|]. split; [done|]. split; [by eexists|].
  assert (forall q, marked w ino q -> q = placeholder e /\ owner ino = id) as Hq.
  { intros q Hm. destruct (lwo_tracked _ _ _ _ Hw _ _ _ Hn Hm) as (Hnm & e' & He' & Hpe).
    destruct Hns as [Hid|Hsafe]; [|by destruct (Hsafe _ _ Hn Hm)]. unfold named in *. assert (owner ino = id) as <- by congruence.
    split; [|done]. rewrite <- Hpe. by apply He. }
  split; [done|]. cbn. destruct (in_mark n) as [q|] eqn:Em; [left; exists q; by exists n|right].
  intros j p Hj (n' & Hn' & Hm'). congruence.
Qed.

Lemma step_fill_misses w γ i u m fs id e sf path x :
  links = false ->
  Inv w γ -> γ !! i = Some (u, Some (m, fs)) -> m !! id = Some (CEntry e sf) -> follow 40 (lw_names w) path = Err x ->
  Inv w (<[i := (u, Some (<[id := CEntry e (path :: sf)]> m, fs))]> γ).
Proof.
  intros Hl HI Hi Hc Hf. eapply step_claim_moves; [done..|]. intros owner Hw Hh [He Hs]. split; [done|].
  intros p [->|Hp]%elem_of_cons; [|by apply Hs]. intros j q Hj.
  by destruct (follow_error _ _ _ _ (lwo_links _ _ _ _ Hw Hl) Hf j).
Qed.

(** *** Content *)

Lemma on_inode_lookup f g w i n :
  lw_inodes (on_inode f g w) !! i = Some n <->
  (i ≠ mf_ino f /\ lw_inodes w !! i = Some n) \/ (i = mf_ino f /\ exists n0, lw_inodes w !! i = Some n0 /\ n = g n0).
Proof.
  cbn. destruct (decide (i = mf_ino f)) as [->|Hne].
  - rewrite lookup_alter_eq. destruct (lw_inodes w !! mf_ino f) as [n0|]; cbn; naive_solver.
  - rewrite lookup_alter_ne by done. naive_solver.
Qed.

(** A change that keeps the marks. *)
Lemma same_marks f g w i p :
  (forall n, in_mark (g n) = in_mark n) -> marked (on_inode f g w) i p <-> marked w i p.
Proof.
  intros Hg. unfold marked. setoid_rewrite on_inode_lookup. split.
  - intros (n & [[_ Hn]|[_ (n0 & Hn & ->)]] & Hm); [by exists n|]. exists n0. by rewrite Hg in Hm.
  - intros (n & Hn & Hm). destruct (decide (i = mf_ino f)) as [Hi|Hi]; [|exists n; eauto].
    exists (g n). rewrite Hg. split; [|done]. right. eauto.
Qed.

Lemma same_safe f g w path : (forall n, in_mark (g n) = in_mark n) -> safe (on_inode f g w) path <-> safe w path.
Proof. intros Hg. unfold safe. cbn. split; intros Hs i p Hn Hm; eapply Hs; eauto; by apply (same_marks f g). Qed.

Lemma on_inode_is_some f g w i : is_Some (lw_inodes (on_inode f g w) !! i) <-> is_Some (lw_inodes w !! i).
Proof. cbn. rewrite <- !elem_of_dom. by rewrite dom_alter_L. Qed.

(** A change of one inode that is not a placeholder of somebody else. *)
Lemma inode_evolves owner mine f g w :
  (forall n, in_mark (g n) = in_mark n) ->
  (forall p, marked w (mf_ino f) p -> Some (owner (mf_ino f)) = mine) -> evolves owner mine w (on_inode f g w).
Proof.
  intros Hg Hm. split; try done; eauto.
  - intros i p. by rewrite same_marks.
  - intros path i p Hn Hmk Hs. eapply Hs; [done|]. by apply (proj1 (same_marks f g w i p Hg)).
  - intros i. apply on_inode_is_some.
  - intros i n p Hn Hmk Ho. exists n. split; [|done]. cbn. rewrite lookup_alter_ne; [done|]. intros <-. apply Ho, (Hm p). by exists n.
Qed.

Lemma inode_world owner f g w :
  (forall n, in_mark (g n) = in_mark n /\ in_origin (g n) = in_origin n) ->
  (forall n, lw_inodes w !! mf_ino f = Some n -> in_mark n = None ->
     in_data n = foldl apply_edit (in_base n) (in_edits n) ->
     in_base (g n) = in_base n /\ in_data (g n) = foldl apply_edit (in_base (g n)) (in_edits (g n))) ->
  wok owner w -> wok owner (on_inode f g w).
Proof.
  intros Hg Hd [W1 W2 W3 W4 W5 W6 W7 W8 W9 W10].
  assert (forall n, in_mark (g n) = in_mark n) as Hgm by (intros n; apply Hg). split; try done.
  - intros path i p Hn Hm. apply (W2 path i p); [done|]. by apply (proj1 (same_marks f g w i p Hgm)).
  - intros i j p q Hi Hj. apply (proj1 (same_marks f g w _ _ Hgm)) in Hi, Hj. by eapply W3.
  - intros path i Hn. apply on_inode_is_some. by apply (W4 path).
  - intros Hr path. apply same_safe; [done|by apply W6].
  - intros i Hi. destruct (W7 _ Hi) as [Hs Hn]. split; [by apply on_inode_is_some|]. intros p. by rewrite same_marks.
  - intros i n p [[_ Hn]|[_ (n0 & Hn & ->)]]%on_inode_lookup Hm; [by eapply W8|].
    destruct (Hg n0) as [Hm0 ->]. eapply W8; [done|]. congruence.
  - intros i n [[_ Hn]|[-> (n0 & Hn & ->)]]%on_inode_lookup Hm; [by apply (W9 i)|]. rewrite Hgm in Hm.
    destruct (W9 _ _ Hn Hm) as [Hdata Hacc]. destruct (Hd _ Hn Hm Hdata) as [Hb Hdd]. split; [done|].
    intros p Hp. rewrite (proj2 (Hg n0)) in Hp. rewrite Hb. by apply Hacc.
Qed.

Lemma guest_unmarked owner w f fs m p : wok owner w -> holds owner w m fs -> FGuest f ∈ fs -> ~ marked w (mf_ino f) p.
Proof. intros Hw Hh Hf. destruct (proj2 Hh _ Hf) as [_ Hg]. by apply (lwo_guest _ _ _ _ Hw). Qed.

Lemma edited_mark guest e n : in_mark (edited guest e n) = in_mark n /\ in_origin (edited guest e n) = in_origin n.
Proof. done. Qed.

Lemma step_guest_edits w γ i u m fs f e :
  Inv w γ -> γ !! i = Some (u, Some (m, fs)) -> FGuest f ∈ fs -> Inv (edit f e w) (<[i := (u, Some (m, fs))]> γ).
Proof.
  intros HI Hi Hf. eapply (lazy_inv_step _ _ _ _ _ _ _ _ _ _ _ None HI Hi); [done|by eauto|]. intros owner Hw Hh.
  assert (evolves owner None w (edit f e w)) as Hev.
  { apply inode_evolves; [done|]. intros p Hp. by destruct (guest_unmarked _ _ _ _ _ _ Hw Hh Hf Hp). }
  split; [|split; [done|by eapply claims_stable; [..|intros id c ?]]].
  apply inode_world; [apply edited_mark| |done]. intros n Hn Hm Hd. split; [done|]. cbn.
  assert (by_guest f = true) as -> by (unfold by_guest; by rewrite (proj1 (proj2 Hh _ Hf))).
  rewrite foldl_app. cbn. by rewrite <- Hd.
Qed.

(** A fill writes into its placeholder. *)
Lemma step_fill_edits w γ i u m fs id e f b whole ed b' whole' :
  Inv w γ -> γ !! i = Some (u, Some (m, fs)) -> m !! id = Some (COpen e f b whole) ->
  (forall data, take (length b) data = b -> length b <= length data -> (whole = true -> data = b) ->
     let data' := apply_edit data ed in
     take (length b') data' = b' /\ length b' <= length data' /\ (whole' = true -> data' = b')) ->
  Inv (edit f ed w) (<[i := (u, Some (<[id := COpen e f b' whole']> m, fs))]> γ).
Proof.
  intros HI Hi Hc Hed. eapply (lazy_inv_step _ _ _ _ _ _ _ _ _ _ _ (Some id) HI Hi).
  { intros j [= <-]. left. by eexists. }
  { intros j Hj. left. destruct (decide (j = id)) as [->|]; [by eexists|by rewrite lookup_insert_ne in Hj]. }
  intros owner Hw Hh. destruct (proj1 Hh _ _ Hc) as (Hfe & Hjob & He & Ho & Hown & n & Hn & Hm & Hd1 & Hd2 & Hd3).
  assert (evolves owner (Some id) w (edit f ed w)) as Hev by (apply inode_evolves; [done|]; intros p _; by rewrite Hown).
  split; [|split; [done|]].
  - apply inode_world; [apply edited_mark| |done]. intros n' Hn' Hm'. congruence.
  - apply (claim_moves _ w); [done|done|by destruct Hfe as (x & Hx & Hy); exists x|done|].
    split; [by eapply entry_of_stable|]. split; [done|]. split; [done|]. exists (edited (by_guest f) ed n).
    split; [apply on_inode_lookup; right; eauto|]. split; [done|]. by apply Hed.
Qed.

(** The mark is dropped: the content is what was fetched. *)
Lemma unmark_mark n : in_mark (unmark n) = None.
Proof. unfold unmark. by destruct (in_mark n) eqn:E. Qed.
Lemma unmark_origin n : in_origin (unmark n) = in_origin n.
Proof. unfold unmark. by destruct (in_mark n). Qed.

Lemma unmark_marked f w i p : marked (on_inode f unmark w) i p <-> i ≠ mf_ino f /\ marked w i p.
Proof.
  unfold marked. setoid_rewrite on_inode_lookup. split.
  - intros (n & [[Hne Hn]|[_ (n0 & Hn & ->)]] & Hm); [eauto|]. by rewrite unmark_mark in Hm.
  - intros (Hne & n & Hn & Hm). exists n. eauto.
Qed.

Lemma answers_logged owner w m fs a : holds owner w m fs -> a ∈ answers_in fs -> a ∈ lw_log w.
Proof.
  intros [_ Hf] Ha. unfold answers_in in Ha. apply list_elem_of_omap in Ha as (f & Hin & Hfa).
  specialize (Hf _ Hin). destruct f; simplify_eq/=; done.
Qed.

Lemma step_retires w γ i u m fs id e f b :
  Inv w γ -> γ !! i = Some (u, Some (m, fs)) -> m !! id = Some (COpen e f b true) ->
  accepted alg (answers_in fs) (mf_ino f) (placeholder e) b ->
  Inv (on_inode f unmark w) (<[i := (u, Some (<[id := CGone]> m, fs))]> γ).
Proof.
  intros HI Hi Hc Hacc. eapply (lazy_inv_step _ _ _ _ _ _ _ _ _ _ _ (Some id) HI Hi).
  { intros j [= <-]. left. by eexists. }
  { intros j Hj. left. destruct (decide (j = id)) as [->|]; [by eexists|by rewrite lookup_insert_ne in Hj]. }
  intros owner Hw Hh. destruct (proj1 Hh _ _ Hc) as (Hfe & Hjob & He & Ho & Hown & n & Hn & Hm & _ & _ & Hd).
  assert (forall path, safe w path -> safe (on_inode f unmark w) path) as Hsafe.
  { intros path Hs j p Hj [_ Hmk]%unmark_marked. by eapply Hs. }
  assert (evolves owner (Some id) w (on_inode f unmark w)) as Hev.
  { split; try done; eauto.
    - intros j p. by rewrite unmark_marked; intros [_ ?].
    - intros path j p Hj [_ Hmk]%unmark_marked Hs. by eapply Hs.
    - intros j. apply on_inode_is_some.
    - intros j n' p Hn' Hmk Hne. exists n'. split; [|done]. cbn. rewrite lookup_alter_ne; [done|]. intros <-. by rewrite Hown in Hne. }
  split; [|split; [done|]].
  - destruct Hw as [W1 W2 W3 W4 W5 W6 W7 W8 W9 W10]. split; try done.
    + intros path j p Hj [_ Hmk]%unmark_marked. by apply (W2 path).
    + intros j k p q [_ Hj]%unmark_marked [_ Hk]%unmark_marked. by eapply W3.
    + intros path j Hj. apply on_inode_is_some. by eapply W4.
    + intros Hr path. by apply Hsafe, W6.
    + intros j Hj. destruct (W7 _ Hj) as [Hs Hnm]. split; [by apply on_inode_is_some|]. by intros p [_ ?%Hnm]%unmark_marked.
    + intros j n' p [[_ Hn']|[_ (n0 & Hn' & ->)]]%on_inode_lookup Hmk; [by eapply W8|]. by rewrite unmark_mark in Hmk.
    + intros j n' [[_ Hn']|[-> (n0 & Hn' & ->)]]%on_inode_lookup Hmk; [by apply (W9 j)|].
      rewrite Hn in Hn'. injection Hn' as <-. unfold unmark. rewrite Hm. cbn. split; [done|]. intros p Hp.
      rewrite (W8 _ _ _ Hn Hm) in Hp. injection Hp as <-. rewrite (Hd eq_refl). eapply accepted_mono; [|done].
      intros a. by eapply answers_logged.
  - apply (claim_moves _ w); [done|done|by destruct Hfe as (x & Hx & Hy); exists x|done|].
    intros p Hp j q Hj [Hne Hmk]%unmark_marked.
    destruct (lwo_tracked _ _ _ _ Hw _ _ _ Hj Hmk) as [Hnm _]. unfold named in *. cbn in Hp.
    apply Hne. eapply (lwo_owner _ _ _ _ Hw); [done|by exists n|]. congruence.
Qed.

(** *** Syncing *)

Lemma sync_world owner mine w (is' : gmap nat LazyInode) :
  (forall i, is' !! i = lw_inodes w !! i \/ is' !! i = sync <$> lw_inodes w !! i) ->
  wok owner w -> wok owner (set_inodes is' w) /\ evolves owner mine w (set_inodes is' w).
Proof.
  intros Hs [W1 W2 W3 W4 W5 W6 W7 W8 W9 W10].
  assert (forall i n', is' !! i = Some n' -> exists n, lw_inodes w !! i = Some n /\ in_data n' = in_data n /\ in_mark n' = in_mark n /\
    in_origin n' = in_origin n /\ in_base n' = in_base n /\ in_edits n' = in_edits n) as Hback.
  { intros i n' Hn'. destruct (Hs i) as [E|E]; rewrite E in Hn'; [by exists n'|].
    destruct (lw_inodes w !! i) as [n|]; [|done]. cbn in Hn'. injection Hn' as <-. by exists n. }
  assert (forall i n, lw_inodes w !! i = Some n -> exists n', is' !! i = Some n' /\ in_data n' = in_data n /\ in_mark n' = in_mark n) as Hforth.
  { intros i n Hn. destruct (Hs i) as [E|E]; rewrite Hn in E; [by exists n|]. by exists (sync n). }
  assert (forall i p, marked (set_inodes is' w) i p <-> marked w i p) as Hm.
  { intros i p. split.
    - intros (n' & Hn' & Hp). destruct (Hback _ _ Hn') as (n & Hn & _ & Hmk & _). exists n. split; [done|congruence].
    - intros (n & Hn & Hp). destruct (Hforth _ _ Hn) as (n' & Hn' & _ & Hmk). exists n'. split; [done|congruence]. }
  assert (forall path, safe w path -> safe (set_inodes is' w) path) as Hsafe.
  { intros path Hs' i p Hi Hp. apply Hm in Hp. by eapply Hs'. }
  split.
  - split; try done.
    + intros path i p Hn Hp. apply Hm in Hp. by apply (W2 path i p).
    + intros i j p q Hi Hj. apply Hm in Hi, Hj. by eapply W3.
    + intros path i Hn. destruct (W4 path i Hn) as [n Hin]. destruct (Hforth _ _ Hin) as (n' & Hn' & _). by exists n'.
    + intros Hr path. apply Hsafe, W6, Hr.
    + intros i Hi. destruct (W7 i Hi) as [[n Hin] Hnm]. destruct (Hforth _ _ Hin) as (n' & Hn' & _). split; [by exists n'|].
      intros p Hp%Hm. by apply (Hnm p).
    + intros i n' p Hn' Hp. destruct (Hback _ _ Hn') as (n & Hn & _ & Hmk & -> & _). eapply W8; [done|congruence].
    + intros i n' Hn' Hp. destruct (Hback _ _ Hn') as (n & Hn & -> & Hmk & -> & -> & ->). apply (W9 i); [done|congruence].
  - split; try done; eauto.
    + intros i p Hp. by apply Hm.
    + intros path i p Hn Hp Hs'. apply Hm in Hp. by eapply Hs'.
    + intros i [n Hn]. destruct (Hforth _ _ Hn) as (n' & Hn' & _). by exists n'.
Qed.

Lemma step_sync w γ i u m fs is' :
  Inv w γ -> γ !! i = Some (u, Some (m, fs)) ->
  (forall j, is' !! j = lw_inodes w !! j \/ is' !! j = sync <$> lw_inodes w !! j) ->
  Inv (set_inodes is' w) (<[i := (u, Some (m, fs))]> γ).
Proof.
  intros HI Hi Hs. eapply (lazy_inv_step _ _ _ _ _ _ _ _ _ _ _ None HI Hi); [done|by eauto|]. intros owner Hw Hh.
  destruct (sync_world owner None w is' Hs Hw) as [Hw' Hev]. split; [done|]. split; [done|].
  eapply claims_stable; [done|done|]. by intros id c ?.
Qed.

(** *** Answers, the mark of the root, shutting down *)

Lemma answers_evolve owner l w : wok owner w -> wok owner (add_answers l w) /\ evolves owner None w (add_answers l w).
Proof.
  intros [W1 W2 W3 W4 W5 W6 W7 W8 W9 W10]. split.
  - split; try done. intros i n Hn Hm. destruct (W9 i n Hn Hm) as [Hd Ha]. split; [done|]. intros p Hp.
    eapply accepted_mono; [|by apply Ha]. cbn. intros a Hin. apply elem_of_app. by right.
  - destruct (evolves_refl owner None w). split; try done. cbn. intros a Hin. apply elem_of_app. by right.
Qed.

Lemma step_answers w γ i u m fs l :
  Inv w γ -> γ !! i = Some (u, Some (m, fs)) -> Inv (add_answers l w) (<[i := (u, Some (m, (FAnswer <$> l) ++ fs))]> γ).
Proof.
  intros HI Hi. eapply (lazy_inv_step _ _ _ _ _ _ _ _ _ _ _ None HI Hi); [done|by eauto|]. intros owner Hw Hh.
  destruct (answers_evolve owner l w Hw) as [Hw' Hev]. split; [done|]. split; [done|].
  destruct (claims_stable _ _ _ _ _ _ m Hev Hh) as [Hc Hf]; [by intros id c ?|]. split; [done|].
  intros f [Hin|Hin]%elem_of_app; [|by apply Hf]. apply list_elem_of_fmap in Hin as (a & -> & Ha). cbn. apply elem_of_app. by left.
Qed.

(** A fill opens a file: which file the name led to is on record. *)
Lemma step_fill_opens_logged w γ i u m fs id e sf path ino :
  links = false ->
  Inv w γ -> γ !! i = Some (u, Some (m, fs)) -> m !! id = Some (CEntry e sf) ->
  (path ∈ members e \/ FNamed path id ∈ fs) -> follow 40 (lw_names w) path = Ok ino ->
  Inv (add_answers [AOpen path ino] w)
    (<[i := (u, Some (<[id := CHandle e sf path (MkFile ino (ByFill id))]> m, FAnswer (AOpen path ino) :: fs))]> γ).
Proof.
  intros Hl HI Hi Hc Hp Hf. pose proof (step_fill_opens _ _ _ _ _ _ _ _ _ _ _ Hl HI Hi Hc Hp Hf) as Ho.
  pose proof (step_answers _ _ _ _ _ _ [AOpen path ino] Ho (lookup_insert_eq _ _ _)) as Ha. by rewrite insert_insert_eq in Ha.
Qed.

Lemma step_root w γ i u m fs b :
  Inv w γ -> γ !! i = Some (u, Some (m, fs)) -> (b = false -> FNoMarks ∈ fs) ->
  Inv (set_root b w) (<[i := (u, Some (m, fs))]> γ).
Proof.
  intros HI Hi Hb. eapply (lazy_inv_step _ _ _ _ _ _ _ _ _ _ _ None HI Hi); [done|by eauto|]. intros owner Hw Hh.
  assert (evolves owner None w (set_root b w)) as Hev by (destruct (evolves_refl owner None w); by split).
  split; [|split; [done|by eapply claims_stable; [..|intros id c ?]]].
  destruct Hw as [W1 W2 W3 W4 W5 W6 W7 W8 W9 W10]. split; try done. cbn. intros E. by apply (proj2 Hh _ (Hb E)).
Qed.

(** *** Names *)

Lemma names_world owner names w :
  wok owner w ->
  (forall p i, names !! p = Some (NFile i) -> (exists q, lw_names w !! q = Some (NFile i)) /\
     (lw_names w !! p = Some (NFile i) \/ forall q, ~ marked w i q)) ->
  (links = false -> forall p target, names !! p ≠ Some (NLink target)) ->
  wok owner (set_names names w) /\ evolves owner None w (set_names names w).
Proof.
  intros [W1 W2 W3 W4 W5 W6 W7 W8 W9 W10] Hn Hl.
  assert (forall path, safe w path -> safe (set_names names w) path) as Hsafe.
  { intros path Hs i q Hi Hm. cbn in Hi. destruct (Hn _ _ Hi) as [_ [Ho|Ho]]; [by eapply Hs|by eapply Ho]. }
  split.
  - split; try done.
    + intros path i q Hi Hm. cbn in Hi. destruct (Hn _ _ Hi) as [_ [Ho|Ho]]; [by apply (W2 path i q)|by destruct (Ho q)].
    + intros path i Hi. cbn in Hi. destruct (Hn _ _ Hi) as [[q Hq] _]. by apply (W4 q).
    + intros Hr path. by apply Hsafe, W6.
  - destruct (evolves_refl owner None w). split; try done. intros path i q Hi Hm Hs. by eapply (Hsafe _ Hs).
Qed.

Lemma step_names w γ i u m fs names new :
  Inv w γ -> γ !! i = Some (u, Some (m, fs)) ->
  (forall owner, wok owner w -> holds owner w m fs ->
     (forall p j, names !! p = Some (NFile j) -> (exists q, lw_names w !! q = Some (NFile j)) /\
        (lw_names w !! p = Some (NFile j) \/ forall q, ~ marked w j q)) /\
     (links = false -> forall p target, names !! p ≠ Some (NLink target)) /\
     forall f, f ∈ new -> fact_ok (set_names names w) f) ->
  Inv (set_names names w) (<[i := (u, Some (m, new ++ fs))]> γ).
Proof.
  intros HI Hi Hall. eapply (lazy_inv_step _ _ _ _ _ _ _ _ _ _ _ None HI Hi); [done|by eauto|]. intros owner Hw Hh.
  destruct (Hall owner Hw Hh) as (Hn & Hl & Hnew). destruct (names_world owner names w Hw Hn Hl) as [Hw' Hev].
  split; [done|]. split; [done|]. destruct (claims_stable _ _ _ _ _ _ m Hev Hh) as [Hc Hf]; [by intros id c ?|].
  split; [done|]. intros f [Hin|Hin]%elem_of_app; [by apply Hnew|by apply Hf].
Qed.

Lemma at_or_under_below q old : is_at_or_under q old = true -> below old q.
Proof.
  unfold is_at_or_under, below. intros [[Ho|Ho]%orb_true_iff|Ho]%orb_true_iff.
  - left. by destruct old.
  - right. left. by apply String.eqb_eq.
  - by right; right.
Qed.

Lemma below_self path : below path path.
Proof. by right; left. Qed.

Lemma move_names_lookup old new names p n :
  move_names old new names !! p = Some n ->
  (exists q, names !! q = Some n /\ below old q) \/ (names !! p = Some n /\ is_at_or_under p new = false).
Proof.
  unfold move_names. intros [Hp|[_ Hp]]%lookup_union_Some_raw.
  - left. apply elem_of_list_to_map_2, list_elem_of_fmap in Hp as ([q n'] & [= -> ->] & Hq).
    apply elem_of_map_to_list, map_lookup_filter_Some in Hq as [Hq Hu]. exists q. split; [done|].
    apply at_or_under_below. by apply Is_true_true.
  - right. apply map_lookup_filter_Some in Hp as [Hp [_ Hu]]. split; [done|]. by apply Is_true_false.
Qed.

(** Where a file has its name from after a namespace call. *)
Lemma apply_names_spec mu names names' :
  apply_names mu names = Some names' ->
  (forall p n, names' !! p = Some n -> n ≠ NDirectory ->
     names !! p = Some n \/
     match mu with
     | CreateHardLink existing _ => names !! existing = Some n
     | Rename old _ _ => exists q, names !! q = Some n /\ below old q
     | CreateSymlink _ target => n = NLink target
     | _ => False
     end) /\
  match mu with
  | RemoveFile p _ => names' !! p = None
  | Rename old new _ => forall i, names' !! new = Some (NFile i) -> exists q, names !! q = Some (NFile i) /\ below old q
  | _ => True
  end.
Proof.
  destruct mu as [p mode|p mode|p|p|p target|existing new|old new flags|p fid|p|p mode|p at_ mt|p uid gid]; cbn.
  - destruct (names !! p); [done|]. intros [= <-]. split; [|done].
    intros q n [[<- <-]|[_ Hq]]%lookup_insert_Some Hn; [done|by left].
  - done.
  - destruct (names !! p); [|done]. intros [= <-]. split; [|done]. by left.
  - destruct (names !! p); [|done]. intros [= <-]. split; [|done]. by left.
  - destruct (names !! p); [done|]. intros [= <-]. split; [|done].
    intros q n [[<- <-]|[_ Hq]]%lookup_insert_Some Hn; [by right|by left].
  - destruct (names !! existing) as [[i| |t]|] eqn:Ee; try done; (destruct (names !! new); [done|]); intros [= <-]; (split; [|done]);
      (intros q n [[<- <-]|[_ Hq]]%lookup_insert_Some Hn; [by right|by left]).
  - assert (forall names', Some (move_names old new names) = Some names' ->
      (forall p n, names' !! p = Some n -> n ≠ NDirectory -> names !! p = Some n \/ exists q, names !! q = Some n /\ below old q) /\
      forall i, names' !! new = Some (NFile i) -> exists q, names !! q = Some (NFile i) /\ below old q) as Hmv.
    { intros names0 [= <-]. split.
      - intros p n Hp _. destruct (move_names_lookup _ _ _ _ _ Hp) as [Hq|[Hq _]]; [by right|by left].
      - intros i Hp. destruct (move_names_lookup _ _ _ _ _ Hp) as [Hq|[Hq Hu]]; [done|].
        unfold is_at_or_under in Hu. by rewrite String.eqb_refl, orb_true_r in Hu. }
    destruct (names !! old) as [n|] eqn:Eo; [|done].
    destruct n as [i| |t], (names !! new) as [[j| |t']|] eqn:En; repeat case_match; try done; try (by apply Hmv).
    intros [= <-]. split; [by left|]. intros k Hk. exists old. split; [congruence|apply below_self].
  - destruct (names !! p) as [[i| |t]|]; try done; intros [= <-]; (split; [|apply lookup_delete_eq]);
      intros q n [_ Hq]%lookup_delete_Some _; by left.
  - destruct (names !! p) as [[i| |t]|]; try done. case_match; [|done]. intros [= <-]. split; [|done].
    intros q n [_ Hq]%lookup_delete_Some _; by left.
  - destruct (names !! p); [|done]. intros [= <-]. split; [|done]. by left.
  - destruct (names !! p); [|done]. intros [= <-]. split; [|done]. by left.
  - destruct (names !! p); [|done]. intros [= <-]. split; [|done]. by left.
Qed.

Definition mutation_pre (fs : list Fact) (mu : MountMutation) : Prop :=
  match mu with
  | CreateHardLink existing _ => knows_safe fs existing
  | Rename old _ _ => knows_safe_tree fs old
  | CreateSymlink _ _ => links = true
  | _ => True
  end.
Definition mutation_facts (mu : MountMutation) : list Fact :=
  match mu with RemoveFile p _ => [FSafe p] | Rename _ p _ => [FSafe p] | _ => [] end.

Lemma step_apply w γ i u m fs mu names :
  Inv w γ -> γ !! i = Some (u, Some (m, fs)) -> mutation_pre fs mu -> apply_names mu (lw_names w) = Some names ->
  Inv (set_names names w) (<[i := (u, Some (m, mutation_facts mu ++ fs))]> γ).
Proof.
  intros HI Hi Hp Ha. destruct (apply_names_spec _ _ _ Ha) as [Hn Hpost]. apply (step_names _ _ _ _ _ _ _ _ HI Hi).
  intros owner Hw Hh.
  assert (forall p j, names !! p = Some (NFile j) -> (exists q, lw_names w !! q = Some (NFile j)) /\
    (lw_names w !! p = Some (NFile j) \/ forall q, ~ marked w j q)) as Hfiles.
  { intros p j Hj. destruct (Hn _ _ Hj) as [Hold|Hnew]; [done|by eauto|].
    destruct mu; try done.
    - split; [eauto|]. right. intros q. eapply (facts_safe _ _ _ _ _ Hh Hp); done.
    - destruct Hnew as (q & Hq & Hb). split; [eauto|]. right. intros r. eapply (facts_safe_tree _ _ _ _ _ _ Hh Hp Hb); done. }
  split; [done|]. split.
  - intros Hl p target Ht. destruct (Hn _ _ Ht) as [Hold|Hnew]; [done|by eapply (lwo_links _ _ _ _ Hw Hl)|].
    destruct mu; try done; cbn in Hp; [congruence|by eapply (lwo_links _ _ _ _ Hw Hl)|].
    destruct Hnew as (q & Hq & _). by eapply (lwo_links _ _ _ _ Hw Hl).
  - assert (forall j q, marked (set_names names w) j q <-> marked w j q) as Hmk by done.
    intros f Hf. destruct mu; cbn in Hf; try (by apply elem_of_nil in Hf); apply list_elem_of_singleton in Hf as ->; cbn in *.
    + intros j q Hj Hm. cbn in Hj. destruct (Hpost _ Hj) as (r & Hr & Hb). by eapply (facts_safe_tree _ _ _ _ _ _ Hh Hp Hb).
    + intros j q Hj. cbn in Hj. congruence.
Qed.

(** Creating a file. *)
Lemma step_creates w γ i u m fs path :
  Inv w γ -> γ !! i = Some (u, Some (m, fs)) -> lw_names w !! path = None ->
  let ino := fresh (dom (lw_inodes w)) in
  Inv (set_guest ({[ino]} ∪ lw_guest w)
         (set_names (<[path := NFile ino]> (lw_names w)) (set_inodes (<[ino := new_inode]> (lw_inodes w)) w)))
    (<[i := (u, Some (m, FGuest (MkFile ino ByGuest) :: fs))]> γ).
Proof.
  intros HI Hi Hpath ino.
  assert (lw_inodes w !! ino = None) as Hfresh by (apply not_elem_of_dom, is_fresh).
  eapply (lazy_inv_step _ _ _ _ _ _ _ _ _ _ _ None HI Hi); [done|by eauto|]. intros owner Hw Hh. set (w' := set_guest _ _).
  assert (forall j n, lw_inodes w' !! j = Some n -> (j = ino /\ n = new_inode) \/ (j ≠ ino /\ lw_inodes w !! j = Some n)) as Hin.
  { intros j n Hj. cbn in Hj. apply lookup_insert_Some in Hj as [[<- <-]|[Hne Hj]]; [by left|right]. split; [congruence|done]. }
  assert (forall j q, marked w' j q -> marked w j q) as Hmk.
  { intros j q (n & Hn & Hq). destruct (Hin _ _ Hn) as [[-> ->]|[_ Hn']]; [done|by exists n]. }
  assert (forall j n, lw_inodes w !! j = Some n -> lw_inodes w' !! j = Some n) as Hkeep.
  { intros j n Hj. cbn. rewrite lookup_insert_ne; [done|]. intros <-. congruence. }
  assert (forall p j, lw_names w' !! p = Some (NFile j) -> (p = path /\ j = ino) \/ lw_names w !! p = Some (NFile j)) as Hnm.
  { intros p j Hp. cbn in Hp. apply lookup_insert_Some in Hp as [[<- [= <-]]|[_ Hp]]; [by left|by right]. }
  assert (forall q, ~ marked w' ino q) as Hino.
  { intros q (n & Hn & Hq). destruct (Hin _ _ Hn) as [[_ ->]|[? _]]; done. }
  assert (evolves owner None w w') as Hev.
  { split; try done; eauto.
    - intros p j q Hp Hm Hs. destruct (Hnm _ _ Hp) as [[-> ->]|Hp']; [by destruct (Hino q)|]. by eapply Hs, Hmk.
    - intros j [n Hj]. exists n. by apply Hkeep.
    - intros j Hj. cbn. apply elem_of_union. by right. }
  split; [|split; [done|]].
  - destruct Hw as [W1 W2 W3 W4 W5 W6 W7 W8 W9 W10]. split; try done.
    + intros p j q Hp Hm. destruct (Hnm _ _ Hp) as [[-> ->]|Hp']; [by destruct (Hino q)|]. by apply (W2 p j q), Hmk.
    + intros j k p q Hj%Hmk Hk%Hmk. by eapply W3.
    + intros p j Hp. destruct (Hnm _ _ Hp) as [[-> ->]|Hp']; [exists new_inode; cbn; apply lookup_insert_eq|].
      destruct (W4 _ _ Hp') as [n Hn]. exists n. by apply Hkeep.
    + intros Hl p target Ht. cbn in Ht. apply lookup_insert_Some in Ht as [[_ [=]]|[_ Ht]]. by eapply W5.
    + intros Hr p j q Hp Hm. destruct (Hnm _ _ Hp) as [[-> ->]|Hp']; [by destruct (Hino q)|]. by eapply (W6 Hr p), Hmk.
    + cbn. intros j [->%elem_of_singleton|Hj]%elem_of_union; [split; [exists new_inode; apply lookup_insert_eq|apply Hino]|].
      destruct (W7 j Hj) as [[n Hn] Hnj]. split; [exists n; by apply Hkeep|]. intros q Hq%Hmk. by eapply Hnj.
    + intros j n q Hn Hq. destruct (Hin _ _ Hn) as [[-> ->]|[_ Hn']]; [done|by eapply W8].
    + intros j n Hn Hq. destruct (Hin _ _ Hn) as [[-> ->]|[_ Hn']]; [done|by apply (W9 j)].
  - destruct (claims_stable _ _ _ _ _ _ m Hev Hh) as [Hc Hfs]; [by intros id c ?|]. split; [done|].
    intros f [->|Hf]%elem_of_cons; [|by apply Hfs]. split; [done|]. cbn. apply elem_of_union. left. by apply elem_of_singleton.
Qed.
End Rules.
