(* ===== verification/LazyTasks.v ===== *)
(** * Steps and programs, with what a task knows

    Every operation keeps the bookkeeping of [LazyInvariant.v] ([lazy_task]). A program is
    checked against that bookkeeping alone, and programs with claims of their own may run
    at once within one task ([ok_par_all]), as the fetches of a batch do. *)

From S2P Require Import Prelude ContentHash MountTypes Effects PayloadStore LazyTable LazyFill LazySystem LazyInvariant LazyRules.
From Stdlib Require Import ZArith Lia.

Section Task.
Context {H : HashCrates} (alg : VfsHashAlgorithm).

Abbreviation Inv := (lazy_inv alg false).
Abbreviation pre := (lazy_pre alg false).

Lemma lazy_inv_ghost w γ t u g : Inv w γ -> γ !! t = Some (u, g) -> exists m fs, g = Some (m, fs).
Proof. intros (owner & _ & Hg & _) Ht. destruct (Hg _ _ _ Ht) as (m & fs & -> & _). eauto. Qed.

Lemma facts_of w γ t u m fs : Inv w γ -> γ !! t = Some (u, Some (m, fs)) ->
  exists owner, lazy_world_ok alg false owner w /\ holds owner w m fs.
Proof. intros (owner & Hw & Hg & _) Ht. destruct (Hg _ _ _ Ht) as (? & ? & [= <- <-] & Hh). eauto. Qed.

Lemma claimed_spec m f id c : claimed m f = Some (id, c) -> mf_opener f = ByFill id /\ m !! id = Some c.
Proof. unfold claimed. destruct (mf_opener f) as [|j]; [done|]. destruct (m !! j) eqn:E; [|done]. by intros [= <- <-]. Qed.

Lemma claimed_guest m fs f owner w : holds owner w m fs -> FGuest f ∈ fs -> claimed m f = None /\ by_guest f = true.
Proof. intros [_ Hf] Hin. destruct (Hf _ Hin) as [Ho _]. unfold claimed, by_guest. by rewrite Ho. Qed.

Lemma calls_inv {A} c w (ok : LResult A * LazyWorld) a w' :
  calls c w ok = Some (a, w') -> (a, w') = ok \/ (w' = w /\ exists e, a = Err (Sys e)).
Proof. unfold calls. destruct c; try done; intros [= <-]; [by left|right; eauto]. Qed.

(** Answers about a file that is being filled. *)
Lemma step_mark w γ t u m fs f id e sf p n :
  Inv w γ -> γ !! t = Some (u, Some (m, fs)) -> claimed m f = Some (id, CHandle e sf p f) ->
  lw_inodes w !! mf_ino f = Some n ->
  match in_mark n with
  | Some q => q = placeholder e /\ Inv w (<[t := (u, Some (<[id := COpen e f [] false]> m, fs))]> γ)
  | None => Inv w (<[t := (u, Some (<[id := CEntry e (p :: sf)]> m, fs))]> γ)
  end.
Proof.
  intros HI Ht Hc Hn. destruct (claimed_spec _ _ _ _ Hc) as [Ho Hm].
  assert (forall owner, holds owner w m fs -> claim_ok owner w id (CHandle e sf p f)) as Hok by (intros owner Hh; apply (proj1 Hh _ _ Hm)).
  destruct (in_mark n) as [q|] eqn:Eq.
  - destruct (facts_of _ _ _ _ _ _ HI Ht) as (owner & Hw & Hh). destruct (Hok _ Hh) as (_ & _ & _ & _ & Hq & _).
    split; [by apply (Hq q); exists n|]. eapply step_claim_moves; [done..|]. intros owner' Hw' Hh' (He & _ & _ & _ & Hq' & _).
    destruct (Hq' q) as [-> Howner]; [by exists n|]. split; [done|]. split; [done|]. split; [done|].
    exists n. split; [done|]. split; [done|]. split; [done|]. split; [cbn; lia|done].
  - eapply step_claim_moves; [done..|]. intros owner Hw Hh (He & Hs & _ & _ & _ & Hsafe). split; [done|].
    intros r [->|Hr]%elem_of_cons; [|by apply Hs]. destruct Hsafe as [(q & n' & Hn' & Hq)|]; [congruence|done].
Qed.

Lemma step_size w γ t u m fs f id e b whole n :
  Inv w γ -> γ !! t = Some (u, Some (m, fs)) -> claimed m f = Some (id, COpen e f b whole) -> lw_inodes w !! mf_ino f = Some n ->
  (zlen (in_data n) <? zlen b)%Z = false /\
  Inv w (<[t := (u, Some (<[id := COpen e f b (whole || (zlen (in_data n) =? zlen b)%Z)]> m, fs))]> γ).
Proof.
  intros HI Ht Hc Hn. destruct (claimed_spec _ _ _ _ Hc) as [Ho Hm]. split.
  { destruct (facts_of _ _ _ _ _ _ HI Ht) as (owner & _ & Hh). destruct (proj1 Hh _ _ Hm) as (_ & _ & _ & _ & _ & n' & Hn' & _ & _ & Hd & _).
    rewrite Hn in Hn'. injection Hn' as <-. apply Z.ltb_ge. unfold zlen. lia. }
  eapply step_claim_moves; [done..|].
  intros owner Hw Hh (He & _ & Hown & n' & Hn' & Hmk & Hd1 & Hd2 & Hd3). split; [done|]. split; [done|]. split; [done|].
  rewrite Hn in Hn'. injection Hn' as <-. exists n. split; [done|]. split; [done|]. split; [done|]. split; [done|].
  intros [Hwh|Hz]%orb_true_iff; [by apply Hd3|]. apply Z.eqb_eq in Hz. unfold zlen in Hz.
  rewrite <- Hd1. symmetry. apply take_ge. lia.
Qed.

(** Writing into a placeholder after the bytes already there. *)
Lemma write_prefix data (b b1 : bytes) (offset : nat) :
  take (length b) data = b -> length b <= length data -> offset <= length b ->
  let data' := apply_edit data (EWrite (Z.of_nat offset) b1) in
  take (length (take offset b ++ b1)) data' = take offset b ++ b1 /\ length (take offset b ++ b1) <= length data'.
Proof.
  intros Hb Hl Ho. cbn zeta.
  assert (take offset data = take offset b) as Hpre by (rewrite <- Hb at 1; rewrite take_take; f_equal; lia).
  rewrite length_app, length_take, (Nat.min_l offset) by lia. destruct b1 as [|x b1].
  - cbn. rewrite Nat.add_0_r, app_nil_r, Hpre. split; [done|lia].
  - cbn [apply_edit]. rewrite Nat2Z.id. unfold write_at. rewrite Hpre.
    replace (offset - length data) with 0 by lia. cbn [replicate]. rewrite app_nil_l, app_assoc. split.
    + rewrite take_app_length'; [done|]. rewrite length_app, length_take. lia.
    + rewrite !length_app, length_take. lia.
Qed.

Lemma step_fill_writes w γ t u m fs f id e b whole b1 offset k :
  Inv w γ -> γ !! t = Some (u, Some (m, fs)) -> claimed m f = Some (id, COpen e f b whole) -> (0 <= offset <= zlen b)%Z ->
  Inv (edit f (EWrite offset (take k b1)) w)
    (<[t := (u, Some (<[id := COpen e f (take (Z.to_nat offset) b ++ take (Z.to_nat (zlen (take k b1))) b1) false]> m, fs))]> γ).
Proof.
  intros HI Ht Hc Ho. destruct (claimed_spec _ _ _ _ Hc) as [_ Hm]. eapply step_fill_edits; [done..|].
  intros data Hd1 Hd2 _. cbn zeta.
  assert (take (Z.to_nat (zlen (take k b1))) b1 = take k b1) as ->.
  { unfold zlen. rewrite Nat2Z.id, length_take. destruct (decide (k <= length b1)); [by rewrite Nat.min_l|].
    rewrite Nat.min_r by lia. by rewrite !take_ge by lia. }
  unfold zlen in Ho. destruct (write_prefix data b (take k b1) (Z.to_nat offset) Hd1 Hd2) as [H1 H2]; [lia|].
  rewrite Z2Nat.id in H1, H2 by lia. done.
Qed.

Lemma step_fill_truncates w γ t u m fs f id e b whole size :
  Inv w γ -> γ !! t = Some (u, Some (m, fs)) -> claimed m f = Some (id, COpen e f b whole) -> (0 <= size <= zlen b)%Z ->
  Inv (edit f (EResize size) w) (<[t := (u, Some (<[id := COpen e f (take (Z.to_nat size) b) true]> m, fs))]> γ).
Proof.
  intros HI Ht Hc Hs. destruct (claimed_spec _ _ _ _ Hc) as [_ Hm]. eapply step_fill_edits; [done..|].
  intros data Hd1 Hd2 _. cbn. unfold resize, zlen in *.
  replace (Z.to_nat size - length data) with 0 by lia. cbn. rewrite app_nil_r.
  assert (take (Z.to_nat size) data = take (Z.to_nat size) b) as -> by (rewrite <- Hd1 at 1; rewrite take_take; f_equal; lia).
  split; [apply take_ge; lia|done].
Qed.

Ltac same := match goal with HI : Inv ?w ?γ, Ht : ?γ !! _ = Some _ |- lazy_inv _ _ ?w _ => exact (lazy_inv_id _ _ _ _ _ _ _ _ HI Ht) end.

(** Every operation keeps the bookkeeping. *)
Lemma lazy_task w γ t u g A (e : LazyE A) c a w' :
  Inv w γ -> γ !! t = Some (u, g) -> pre A g e -> lazy_handle A e w c = Some (a, w') ->
  Inv w' (<[t := (u, lazy_upd A g e a)]> γ).
Proof.
  intros HI Ht Hp Hh. destruct (lazy_inv_ghost _ _ _ _ _ HI Ht) as (m & fs & ->).
  destruct (facts_of _ _ _ _ _ _ HI Ht) as (owner & Hw & Hok).
  destruct e; cbn [lazy_handle] in Hh; cbn [lazy_pre] in Hp; cbn [lazy_upd].
  - destruct c; try done. simplify_eq. same.
  - simplify_eq. destruct (Z.eqb_spec (lz_outstanding (lw_table w')) 0) as [Hz|]; [|same].
    eapply lazy_inv_learn; [done..|]. intros o Hw' f ->%list_elem_of_singleton p i q Hi Hm.
    destruct (lwo_tracked _ _ _ _ Hw' _ _ _ Hi Hm) as (_ & e & He & _). pose proof (to_count _ (lwo_table _ _ _ _ Hw')) as Hc.
    rewrite Hz in Hc. assert (size (lz_entries (lw_table w')) = 0) as Hs%map_size_empty_inv by lia. by rewrite Hs, lookup_empty in He.
  - simplify_eq. eapply lazy_inv_learn; [done..|]. intros o Hw' f ->%list_elem_of_singleton.
    destruct (lz_by_path (lw_table w') !! path) as [id|] eqn:Ep; [by left|]. intros i q Hi Hm.
    destruct (lwo_tracked _ _ _ _ Hw' _ _ _ Hi Hm) as (Hn & _). unfold named in Hn. congruence.
  - destruct c; try done. case_bool_decide as Hl; [|done]. simplify_eq. eapply lazy_inv_learn; [done..|].
    intros o Hw' f ->%list_elem_of_singleton p Hb. destruct (lz_by_path (lw_table w') !! p) as [id|] eqn:Ep.
    + left. exists id. split; [|done]. rewrite Hl. apply elem_of_elements. unfold ids_within.
      apply elem_of_list_to_set, list_elem_of_omap. exists p. split; [|done]. apply elem_of_within. split; [by eexists|done].
    + right. intros i q Hi Hm. destruct (lwo_tracked _ _ _ _ Hw' _ _ _ Hi Hm) as (Hn & _). unfold named in Hn. congruence.
  - simplify_eq. same.
  - destruct (ensure_round (lw_alive w) ids false requested (lw_table w)) as [[[r q] st] t'] eqn:Er. simplify_eq.
    pose proof (step_round _ _ _ _ _ _ _ _ _ _ _ _ _ _ HI Ht Er) as Hs. cbn. by destruct r.
  - destruct c; try done. case_bool_decide as Hj; [|done]. simplify_eq. by apply step_next_job.
  - destruct (claim id (lw_table w)) as [r t'] eqn:Ec. simplify_eq.
    pose proof (step_claim alg false _ _ _ _ _ _ id HI Ht) as Hs. rewrite Ec in Hs. destruct a as [e|]; [|done].
    destruct (m !! id) as [cl|] eqn:Em; [|done]. destruct (proj1 Hok _ _ Em) as ((e' & He & Hst) & _).
    unfold claim in Ec. rewrite He, Hst in Ec. by destruct (bool_decide _) eqn:Eb in Ec.
  - simplify_eq. destruct (m !! id) as [[| | | |]|] eqn:Ec; try same.
    destruct (snapshot id (lw_table w')) as [e|] eqn:Es; [by eapply step_snapshot|].
    destruct (proj1 Hok _ _ Ec) as ((e & He & _) & _). unfold snapshot in Es. by rewrite He in Es.
  - simplify_eq. by apply step_release.
  - simplify_eq. by apply step_complete.
  - simplify_eq. by apply step_fail.
  - simplify_eq. by apply step_forget.
  - done.
  - simplify_eq. by apply step_retry.
  - simplify_eq. rewrite decide_True by apply pending_ids_NoDup. same.
  - destruct who as [|id].
    + destruct c; try done; [|destruct (not_a_file (Sys e)); simplify_eq; same].
      destruct (follow 40 (lw_names w) path) as [ino|x] eqn:Ef; simplify_eq; [|same].
      rewrite decide_True by done. by eapply step_guest_opens.
    + destruct Hp as (e & sf & Hc & Hpath). rewrite Hc. destruct c; try done.
      * destruct (follow 40 (lw_names w) path) as [ino|x] eqn:Ef; simplify_eq.
        -- rewrite decide_True by done. by eapply step_fill_opens_logged.
        -- destruct (not_a_file x); [by eapply step_fill_misses|same].
      * destruct (not_a_file (Sys e0)) eqn:En; [done|]. simplify_eq. rewrite En. same.
  - destruct (lw_names w !! path) eqn:En; destruct c; try done; simplify_eq; try same.
    rewrite decide_True by done. by apply step_creates.
  - destruct c; destruct (apply_names m0 (lw_names w)) as [names|] eqn:Ea; try done; simplify_eq; try same.
    pose proof (step_apply _ _ _ _ _ _ _ _ _ _ HI Ht Hp Ea) as Hs. by destruct m0.
  - destruct Hp as (id & e & sf & p & Hc). destruct (lw_inodes w !! mf_ino f) as [n|] eqn:En; [|done].
    pose proof (step_mark _ _ _ _ _ _ _ _ _ _ _ _ HI Ht Hc En) as Hs. unfold move_claim. rewrite Hc.
    apply calls_inv in Hh as [[= -> ->]|[-> [x ->]]].
    + destruct (in_mark n) as [q|]; [|done]. destruct Hs as [-> Hs]. by rewrite decide_True.
    + cbn. destruct (claimed_spec _ _ _ _ Hc) as [_ Hm]. eapply step_claim_moves; [done..|]. intros o _ _ (He & Hsf & _). done.
  - destruct (lw_inodes w !! mf_ino f) as [n|] eqn:En; [|done]. unfold move_claim. destruct (claimed m f) as [[id cl]|] eqn:Ec.
    2: { apply calls_inv in Hh as [[= -> ->]|[-> [x ->]]]; same. }
    destruct (claimed_spec _ _ _ _ Ec) as [_ Hm]. cbn.
    apply calls_inv in Hh as [[= -> ->]|[-> [x ->]]].
    + destruct cl; try (cbn; rewrite (insert_id _ _ _ Hm); same). subst f0.
      destruct (step_size _ _ _ _ _ _ _ _ _ _ _ _ HI Ht Ec En) as [E Hs]. by rewrite E.
    + destruct cl; cbn; rewrite (insert_id _ _ _ Hm); same.
  - destruct (lw_inodes w !! mf_ino f) as [n|]; [|done]. destruct c; try done; simplify_eq; same.
  - destruct Hp as [Hg|(id & e & b0 & whole & Hc & Ho)].
    + destruct (claimed_guest _ _ _ _ _ Hok Hg) as [Hc _]. unfold move_claim. rewrite Hc. destruct c; try done; simplify_eq; [same|].
      by apply step_guest_edits.
    + unfold move_claim. rewrite Hc. cbn. destruct c; try done; simplify_eq.
      * destruct (claimed_spec _ _ _ _ Hc) as [_ Hm]. cbn. rewrite (insert_id _ _ _ Hm). same.
      * cbn. rewrite decide_True by (unfold zlen; rewrite length_take; lia). by eapply step_fill_writes.
  - destruct Hp as [Hg|(id & e & b0 & whole & Hc & Hsz)].
    + destruct (claimed_guest _ _ _ _ _ Hok Hg) as [Hc _]. unfold move_claim. rewrite Hc.
      apply calls_inv in Hh as [[= -> ->]|[-> [x ->]]]; [|same]. by apply step_guest_edits.
    + unfold move_claim. rewrite Hc. cbn. apply calls_inv in Hh as [[= -> ->]|[-> [x ->]]].
      * by eapply step_fill_truncates.
      * destruct (claimed_spec _ _ _ _ Hc) as [_ Hm]. rewrite (insert_id _ _ _ Hm). same.
  - apply calls_inv in Hh as [[= -> ->]|[-> [x ->]]]; [|same]. by apply step_guest_edits.
  - destruct (lw_inodes w !! mf_ino source) as [n|]; [|done]. destruct c; try done; simplify_eq; [same|..]; by apply step_guest_edits.
  - apply calls_inv in Hh as [[= -> ->]|[-> [x ->]]]; same.
  - destruct Hp as (id & e & b & Hc & Hacc). unfold move_claim. rewrite Hc. destruct (claimed_spec _ _ _ _ Hc) as [_ Hm].
    destruct (lw_inodes w !! mf_ino f) as [n|] eqn:En; [|done]. destruct c; try done.
    + simplify_eq. cbn. by eapply step_retires.
    + destruct (proj1 Hok _ _ Hm) as (_ & _ & _ & _ & _ & n' & Hn' & Hmk & _). simplify_eq.
      rewrite (bool_decide_true (is_Some (in_mark n))) in Hh by (rewrite Hmk; by eexists). rewrite andb_true_r in Hh.
      case_bool_decide as Hx; [done|]. simplify_eq. destruct e0; try done; cbn; rewrite (insert_id _ _ _ Hm); same.
  - apply calls_inv in Hh as [[= -> ->]|[-> [x ->]]]; [|same]. apply step_sync; [done..|]. intros j.
    destruct (decide (j = mf_ino f)) as [->|]; [right; by rewrite lookup_alter_eq|left; by rewrite lookup_alter_ne].
  - apply calls_inv in Hh as [[= -> ->]|[-> [x ->]]]; [|same]. apply step_sync; [done..|]. intros j. right. apply lookup_fmap.
  - apply calls_inv in Hh as [[= -> ->]|[-> [x ->]]]; [|same]. by apply step_root.
  - destruct c; try done. simplify_eq. same.
  - done.
  - destruct c; try done. simplify_eq. by apply step_answers.
  - destruct c; try done. simplify_eq. by apply step_answers.
  - destruct c; try done. simplify_eq. by apply step_answers.
  - destruct c; try done. simplify_eq. by apply step_answers.
  - apply calls_inv in Hh as [[= -> ->]|[-> [x ->]]]; same.
  - destruct c; try done; simplify_eq; same.
Qed.
End Task.

(** ** Programs that touch only some claims *)

Definition effect_claim {A} (e : LazyE A) : option Z :=
  match e with
  | TbClaim id | TbSnapshot id | TbRelease id | TbComplete id | TbFail id _ => Some id
  | BkOpen (ByFill id) _ => Some id
  | BkMark f | BkSize f | BkWrite f _ _ | BkTruncate f _ | BkClearMark f =>
      match mf_opener f with ByFill id => Some id | ByGuest => None end
  | _ => None
  end.
Definition takes_job {A} (e : LazyE A) : bool := match e with TbNextJob => true | _ => false end.

Definition agree (D : Z -> Prop) (g g' : Ghost) : Prop :=
  match g, g' with
  | Some (m, fs), Some (m', fs') => (forall id, D id -> m !! id = m' !! id) /\ fs ⊆ fs'
  | None, None => True
  | _, _ => False
  end.

Section Local.
Context {H : HashCrates} (alg : VfsHashAlgorithm).

Abbreviation pre := (lazy_pre alg false).

Definition local_pre (D : Z -> Prop) (A : Type) (g : Ghost) (e : LazyE A) : Prop :=
  match g with
  | None => True
  | Some _ => pre A g e /\ takes_job e = false /\ forall id, effect_claim e = Some id -> D id
  end.

Definition okD (D : Z -> Prop) {R} (Q : Ghost -> R -> Prop) (g : Ghost) (p : prog LazyE R) : Prop :=
  prog_ok (local_pre D) lazy_upd Q g p.

Lemma claimed_agree D m m' f :
  (forall id, D id -> m !! id = m' !! id) -> (forall id, mf_opener f = ByFill id -> D id) -> claimed m f = claimed m' f.
Proof. intros Hm Hf. unfold claimed. destruct (mf_opener f) as [|id]; [done|]. by rewrite (Hm id (Hf id eq_refl)). Qed.

Lemma answers_in_mono fs fs' : fs ⊆ fs' -> answers_in fs ⊆ answers_in fs'.
Proof. intros Hs a. unfold answers_in. rewrite !list_elem_of_omap. intros (f & Hf & E). exists f. split; [by apply Hs|done]. Qed.

Lemma knows_safe_mono fs fs' path : fs ⊆ fs' -> knows_safe fs path -> knows_safe fs' path.
Proof. intros Hs [Hf|[Hf|(id & H1 & H2)]]; [by left; apply Hs|by right; left; apply Hs|right; right; exists id; auto]. Qed.

Lemma knows_safe_tree_mono fs fs' path : fs ⊆ fs' -> knows_safe_tree fs path -> knows_safe_tree fs' path.
Proof. intros Hs [Hf|(ids & H1 & H2)]; [by left; apply Hs|right; exists ids; auto]. Qed.

Lemma pre_agree D A (e : LazyE A) g g' : local_pre D A g e -> agree D g g' -> local_pre D A g' e.
Proof.
  destruct g as [[m fs]|], g' as [[m' fs']|]; try done. intros (Hp & Hj & Hd) [Hm Hs]. split; [|by split].
  assert (forall f, effect_claim e = match mf_opener f with ByFill id => Some id | ByGuest => None end -> claimed m f = claimed m' f) as Hcl.
  { intros f Hf. apply (claimed_agree D); [done|]. intros id Ho. apply Hd. by rewrite Hf, Ho. }
  destruct e; cbn in Hp, Hd |- *; try done.
  - by rewrite <- (Hm id) by auto.
  - by rewrite <- (Hm id) by auto.
  - by rewrite <- (Hm id) by auto.
  - by rewrite <- (Hm id) by auto.
  - by eapply knows_safe_mono.
  - destruct who as [|id]; [by eapply knows_safe_mono|]. destruct Hp as (e & sf & Hc & Hin). exists e, sf.
    rewrite <- (Hm id) by auto. split; [done|]. destruct Hin; [by left|right; by apply Hs].
  - destruct m0; try done; [by eapply knows_safe_mono|by eapply knows_safe_tree_mono].
  - by rewrite <- Hcl.
  - by rewrite <- Hcl.
  - rewrite <- Hcl by done. destruct Hp as [Hg|Hp]; [left; by apply Hs|by right].
  - rewrite <- Hcl by done. destruct Hp as [Hg|Hp]; [left; by apply Hs|by right].
  - by apply Hs.
  - by apply Hs.
  - rewrite <- Hcl by done. destruct Hp as (id & e & b & Hc & Hacc). exists id, e, b. split; [done|].
    by eapply accepted_mono; [apply answers_in_mono|].
  - intros E. by apply Hs, Hp.
Qed.

Lemma agree_refl D g : agree D g g.
Proof. destruct g as [[m fs]|]; [|done]. by split. Qed.

Lemma agree_learn (D : Z -> Prop) (m m' : gmap Z Claim) (fs fs' l : list Fact) :
  (forall id, D id -> m !! id = m' !! id) -> fs ⊆ fs' -> agree D (Some (m, l ++ fs)) (Some (m', l ++ fs')).
Proof. intros Hm Hs. split; [done|]. intros f [Hf|Hf]%elem_of_app; apply elem_of_app; [by left|right; by apply Hs]. Qed.

Lemma agree_insert (D : Z -> Prop) (m m' : gmap Z Claim) (fs fs' : list Fact) id c :
  (forall i, D i -> m !! i = m' !! i) -> fs ⊆ fs' -> agree D (Some (<[id := c]> m, fs)) (Some (<[id := c]> m', fs')).
Proof.
  intros Hm Hs. split; [|done]. intros i Hi. destruct (decide (i = id)) as [->|]; [by rewrite !lookup_insert_eq|].
  rewrite !lookup_insert_ne by done. by apply Hm.
Qed.

Lemma agree_delete (D : Z -> Prop) (m m' : gmap Z Claim) (fs fs' : list Fact) id :
  (forall i, D i -> m !! i = m' !! i) -> fs ⊆ fs' -> agree D (Some (delete id m, fs)) (Some (delete id m', fs')).
Proof.
  intros Hm Hs. split; [|done]. intros i Hi. destruct (decide (i = id)) as [->|]; [by rewrite !lookup_delete_eq|].
  rewrite !lookup_delete_ne by done. by apply Hm.
Qed.

Lemma move_claim_agree (D : Z -> Prop) m m' fs fs' f k :
  (forall i, D i -> m !! i = m' !! i) -> fs ⊆ fs' -> claimed m f = claimed m' f ->
  agree D (move_claim (Some (m, fs)) m fs f k) (move_claim (Some (m', fs')) m' fs' f k).
Proof.
  intros Hm Hs Hc. unfold move_claim. rewrite <- Hc. destruct (claimed m f) as [[id c]|]; [|by split].
  destruct (k id c) as [c'|]; [|done]. by apply agree_insert.
Qed.

Ltac learns := first [by apply agree_learn | by apply (agree_learn _ _ _ _ _ [_])].

Lemma upd_agree D A (e : LazyE A) a g g' : local_pre D A g e -> agree D g g' -> agree D (lazy_upd A g e a) (lazy_upd A g' e a).
Proof.
  destruct g as [[m fs]|], g' as [[m' fs']|]; try done. intros (Hp & Hj & Hd) Ha. pose proof Ha as [Hm Hs].
  assert (forall f, effect_claim e = match mf_opener f with ByFill id => Some id | ByGuest => None end -> claimed m f = claimed m' f) as Hcl.
  { intros f Hf. apply (claimed_agree D); [done|]. intros id Ho. apply Hd. by rewrite Hf, Ho. }
  destruct e; cbn in Hd, Hj |- *; try done; try (by apply agree_delete); try (learns);
    try (by apply move_claim_agree; [done|done|apply Hcl]).
  - destruct (a =? 0)%Z; [|done]. learns.
  - destruct (fst a); [|done|done]. learns.
  - rewrite <- (Hm id) by auto. destruct a; [|done]. destruct (m !! id); [done|]. by apply agree_insert.
  - rewrite <- (Hm id) by auto. destruct (m !! id) as [[]|]; try done. destruct a; [by apply agree_insert|done].
  - by destruct (decide (NoDup a)).
  - destruct who as [|id]; [destruct a as [f|]; [destruct (decide (mf_opener f = ByGuest)); [learns|done]|done]|].
    rewrite <- (Hm id) by auto. destruct (m !! id) as [[]|]; try done.
    destruct a as [f|x]; [destruct (decide (mf_opener f = ByFill id)); [|done]; apply agree_insert; [done|by apply list_subseteq_skip]|].
    destruct (not_a_file x); [by apply agree_insert|done].
  - destruct a as [f|]; [destruct (decide (mf_opener f = ByGuest)); [learns|done]|done].
  - destruct a, m0; try done; learns.
Qed.

(** A step leaves other claims alone. *)
Lemma upd_other D1 D2 A (e : LazyE A) a g :
  local_pre D1 A g e -> (forall id, D1 id -> ~ D2 id) -> lazy_upd A g e a = None \/ agree D2 g (lazy_upd A g e a).
Proof.
  destruct g as [[m fs]|]; [|by left]. intros (Hp & Hj & Hd) Hdis.
  assert (forall id c l, D1 id -> agree D2 (Some (m, fs)) (Some (<[id := c]> m, l ++ fs))) as Hlog.
  { intros id c l Hid. split; [|intros f Hf; apply elem_of_app; by right].
    intros i Hi. rewrite lookup_insert_ne; [done|]. intros <-. by eapply Hdis. }
  pose proof (fun id c => Hlog id c []) as Hins.
  assert (forall id, D1 id -> agree D2 (Some (m, fs)) (Some (delete id m, fs))) as Hdel.
  { intros id Hid. split; [|done]. intros i Hi. rewrite lookup_delete_ne; [done|]. intros <-. by eapply Hdis. }
  assert (forall l, agree D2 (Some (m, fs)) (Some (m, l ++ fs))) as Hl.
  { intros l. split; [done|]. intros f Hf. apply elem_of_app. by right. }
  assert (agree D2 (Some (m, fs)) (Some (m, fs))) as Hsame by (by split).
  assert (forall f k, effect_claim e = match mf_opener f with ByFill id => Some id | ByGuest => None end ->
    move_claim (Some (m, fs)) m fs f k = None \/ agree D2 (Some (m, fs)) (move_claim (Some (m, fs)) m fs f k)) as Hmv.
  { intros f k Hf. unfold move_claim. destruct (claimed m f) as [[id c]|] eqn:Ec; [|by right].
    destruct (k id c) as [c'|]; [|by left]. right. apply Hins, Hd. rewrite Hf. by destruct (claimed_spec _ _ _ _ Ec) as [-> _]. }
  destruct e; cbn in Hd, Hj |- *; try (by right; auto); try (by right; apply Hdel, Hd); try (by right; first [apply Hl | apply (Hl [_])]); try (by apply Hmv).
  - right. destruct (a =? 0)%Z; [apply (Hl [_])|done].
  - right. destruct (fst a); [apply Hl|done|done].
  - destruct a; [|by right]. destruct (m !! id); [by left|]. right. apply Hins. by apply Hd.
  - destruct (m !! id) as [[]|]; try by right. destruct a; [right; apply Hins; by apply Hd|by left].
  - destruct (decide (NoDup a)); [by right|by left].
  - destruct who as [|id].
    { destruct a as [f|]; [destruct (decide (mf_opener f = ByGuest)); [right; apply (Hl [_])|by left]|by right]. }
    destruct (m !! id) as [[]|]; try (by right).
    destruct a as [f|x]; [destruct (decide (mf_opener f = ByFill id)); [right; apply (Hlog _ _ [_]); by apply Hd|by left]|].
    right. destruct (not_a_file x); [apply Hins; by apply Hd|done].
  - destruct a as [f|]; [destruct (decide (mf_opener f = ByGuest)); [right; apply (Hl [_])|by left]|by right].
  - right. destruct a, m0; try done; apply (Hl [_]).
Qed.

Definition stable {R} (D : Z -> Prop) (Q : Ghost -> R -> Prop) : Prop := forall g g' r, agree D g g' -> Q g r -> Q g' r.

Lemma ok_agree {R} D (Q : Ghost -> R -> Prop) (p : prog LazyE R) : forall g g',
  stable D Q -> okD D Q g p -> agree D g g' -> okD D Q g' p.
Proof.
  induction p as [r|A e k IH]; intros g g' HQ; [intros Hq Ha; by eapply HQ|]. intros [Hp Hk] Ha.
  split; [by eapply pre_agree|]. intros a. eapply IH; [done|apply Hk|]. by eapply upd_agree.
Qed.

Lemma okD_void {R} D (Q : Ghost -> R -> Prop) (p : prog LazyE R) : (forall r, Q None r) -> okD D Q None p.
Proof. intros HQ. induction p as [r|A e k IH]; [apply HQ|]. split; [done|]. intros a. apply IH. Qed.

(** Two programs with claims of their own may run at once. *)
Section Par.
Context {A B : Type} (D1 D2 : Z -> Prop) (Q1 : Ghost -> A -> Prop) (Q2 : Ghost -> B -> Prop).
Hypothesis Hdis : forall id, D1 id -> ~ D2 id.
Hypothesis S1 : stable D1 Q1.
Hypothesis S2 : stable D2 Q2.
Hypothesis N1 : forall r, Q1 None r.
Hypothesis N2 : forall r, Q2 None r.

Let D12 (id : Z) : Prop := D1 id \/ D2 id.
Let Q12 (g : Ghost) (r : A * B) : Prop := Q1 g r.1 /\ Q2 g r.2.

Lemma local_sub D X (e : LazyE X) g : (forall id, D id -> D12 id) -> local_pre D X g e -> local_pre D12 X g e.
Proof. destruct g as [g|]; [|done]. intros HD (? & ? & Hd). split; [done|]. split; [done|]. intros id Hid. by apply HD, Hd. Qed.

Lemma void_12 (p : prog LazyE (A * B)) : okD D12 Q12 None p.
Proof. apply okD_void. by split. Qed.

(** After a step of one program the other is still in order. *)
Lemma other_2 {R} X (e : LazyE X) a g (Q : Ghost -> R -> Prop) (q : prog LazyE R) :
  stable D2 Q -> local_pre D1 X g e -> okD D2 Q g q -> lazy_upd X g e a = None \/ okD D2 Q (lazy_upd X g e a) q.
Proof. intros HQ Hp Hq. destruct (upd_other D1 D2 X e a g Hp Hdis) as [E|Ha]; [by left|right]. by eapply ok_agree. Qed.

Lemma other_1 {R} X (e : LazyE X) a g (Q : Ghost -> R -> Prop) (q : prog LazyE R) :
  stable D1 Q -> local_pre D2 X g e -> okD D1 Q g q -> lazy_upd X g e a = None \/ okD D1 Q (lazy_upd X g e a) q.
Proof.
  intros HQ Hp Hq. destruct (upd_other D2 D1 X e a g Hp) as [E|Ha]; [by intros id H2 H1; apply (Hdis id)|by left|right].
  by eapply ok_agree.
Qed.

Lemma ok_par_ret a (q : prog LazyE B) : forall g, Q1 g a -> okD D2 Q2 g q -> okD D12 Q12 g (b ← q; Ret (a, b)).
Proof.
  induction q as [b|X e k IH]; intros g Ha; [intros Hb; by split|]. intros [Hp Hk].
  split; [eapply local_sub; [|exact Hp]; by right|]. intros x.
  destruct (other_1 X e x g Q1 (Ret a) S1 Hp Ha) as [E|Ha']; [rewrite E; apply void_12|]. by apply IH.
Qed.

Lemma ok_par (p : prog LazyE A) : forall q g, okD D1 Q1 g p -> okD D2 Q2 g q -> okD D12 Q12 g (par Schedule p q).
Proof.
  induction p as [a|X e k IH]; intros q g Hp Hq; [by apply ok_par_ret|].
  revert g Hp Hq. induction q as [b|Y e' k' IHq]; intros g Hp Hq.
  - destruct Hp as [Hp Hk]. split; [eapply local_sub; [|exact Hp]; by left|]. intros x.
    destruct (other_2 X e x g Q2 (Ret b) S2 Hp Hq) as [E|Hq']; [rewrite E; apply void_12|]. by apply IH.
  - split; [by destruct g as [[m fs]|]|]. intros left.
    assert (lazy_upd bool g Schedule left = g) as -> by (by destruct g as [[m fs]|]). destruct left.
    + destruct Hp as [Hp Hk]. split; [eapply local_sub; [|exact Hp]; by left|]. intros x.
      destruct (other_2 X e x g Q2 _ S2 Hp Hq) as [E|Hq']; [rewrite E; apply void_12|]. by apply IH.
    + destruct Hq as [Hq Hk']. split; [eapply local_sub; [|exact Hq]; by right|]. intros x.
      destruct (other_1 Y e' x g Q1 _ S1 Hq Hp) as [E|Hp']; [rewrite E; apply void_12|]. by apply IHq.
Qed.
End Par.

Lemma okD_mono {R} (D D' : Z -> Prop) (Q Q' : Ghost -> R -> Prop) (p : prog LazyE R) : forall g,
  (forall id, D id -> D' id) -> (forall g r, Q g r -> Q' g r) -> okD D Q g p -> okD D' Q' g p.
Proof.
  induction p as [r|X e k IH]; intros g HD HQ; [apply HQ|]. intros [Hp Hk]. split; [|intros a; by apply IH].
  destruct g as [g|]; [|done]. destruct Hp as (? & ? & Hd). split; [done|]. split; [done|]. intros id Hid. by apply HD, Hd.
Qed.

(** What holds at the end, where the answers were ones the world gives. *)
Definition lift {R} (P : gmap Z Claim -> list Fact -> R -> Prop) (g : Ghost) (r : R) : Prop :=
  match g with Some (m, fs) => P m fs r | None => True end.

Lemma ok_par_all {A} (P : Z -> gmap Z Claim -> list Fact -> A -> Prop) (f : Z -> prog LazyE A) ids : forall g,
  NoDup ids -> (forall id, stable (eq id) (lift (P id))) ->
  (forall id, id ∈ ids -> okD (eq id) (lift (P id)) g (f id)) ->
  okD (fun id => id ∈ ids) (lift (fun m fs rs => Forall2 (fun id r => P id m fs r) ids rs)) g (par_all Schedule (map f ids)).
Proof.
  induction ids as [|id ids IH]; intros g Hnd HS Hf; [destruct g as [[m fs]|]; by constructor|].
  apply NoDup_cons in Hnd as [Hni Hnd]. cbn [map par_all]. apply prog_ok_bind.
  eapply okD_mono; [..|apply (ok_par (eq id) (fun i => i ∈ ids) (lift (P id))
    (lift (fun m fs rs => Forall2 (fun id r => P id m fs r) ids rs)))].
  - intros i [<-|Hi]; apply elem_of_cons; [by left|by right].
  - intros g' [r rs] [H1 H2]. destruct g' as [[m fs]|]; [|done]. by constructor.
  - by intros i <-.
  - apply HS.
  - intros [[m1 fs1]|] [[m2 fs2]|] rs; try done. intros [Hm Hs] HF. cbn in *.
    apply Forall2_same_length_lookup in HF as [Hl HF]. apply Forall2_same_length_lookup. split; [done|].
    intros k i r Hi Hr. apply (HS i (Some (m1, fs1)) (Some (m2, fs2))); [|by eapply HF]. split; [|done].
    intros i' <-. apply Hm. by eapply list_elem_of_lookup_2.
  - done.
  - done.
  - apply Hf, elem_of_cons. by left.
  - apply IH; [done|done|]. intros i Hi. apply Hf, elem_of_cons. by right.
Qed.
End Local.
