(* ===== verification/LazyPrograms.v ===== *)
(** * Every program asks only for what it knows

    The downloads, the fills (on demand, in batches and from packs) and the operations of
    the mount, checked against the bookkeeping of [LazyInvariant.v]: a fill drops a mark
    only after the bytes it had served are all in place, and a mount operation reaches a
    file only after it has learned that its name leads to no placeholder. *)

From S2P Require Import Prelude ContentHash MountTypes Effects PayloadStore LazyTable LazyFill LazySystem LazyInvariant LazyRules LazyTasks.
From Stdlib Require Import ZArith Lia.

(** ** Checking a program step by step *)

Section Checks.
Context {H : HashCrates} (alg : VfsHashAlgorithm) (D : Z -> Prop).

Definition ok {R} (P : gmap Z Claim -> list Fact -> R -> Prop) (m : gmap Z Claim) (fs : list Fact) (p : Lazy R) : Prop :=
  okD alg D (lift P) (Some (m, fs)) p.

Lemma ok_ret {R} P m fs (r : R) : P m fs r -> ok P m fs (Ret r).
Proof. done. Qed.

Lemma ok_seq {A B} P Q m fs (p : Lazy A) (f : A -> Lazy B) :
  ok P m fs p -> (forall m' fs' a, P m' fs' a -> ok Q m' fs' (f a)) -> ok Q m fs (p ≫= f).
Proof.
  intros Hp Hf. eapply prog_ok_seq; [exact Hp|]. intros [[m' fs']|] a; [apply Hf|]. intros _. by apply okD_void.
Qed.

Lemma ok_try {A B} P Q m fs (p : Lazy (LResult A)) (f : A -> Lazy (LResult B)) :
  ok P m fs p -> (forall m' fs' a, P m' fs' (Ok a) -> ok Q m' fs' (f a)) ->
  (forall m' fs' x, P m' fs' (Err x) -> Q m' fs' (Err x)) -> ok Q m fs (try_bind p f).
Proof. intros Hp Hf He. eapply ok_seq; [done|]. intros m' fs' [a|x]; [apply Hf|apply He]. Qed.

Lemma ok_mono {R} (P Q : gmap Z Claim -> list Fact -> R -> Prop) m fs p :
  (forall m' fs' r, P m' fs' r -> Q m' fs' r) -> ok P m fs p -> ok Q m fs p.
Proof. intros HPQ. apply prog_ok_mono. intros [[m' fs']|] r; [apply HPQ|done]. Qed.

(** What an operation needs. *)
Definition may {A} (m : gmap Z Claim) (fs : list Fact) (e : LazyE A) : Prop :=
  lazy_pre alg false A (Some (m, fs)) e /\ takes_job e = false /\ forall id, effect_claim e = Some id -> D id.

Lemma ok_op {A R} P m fs (e : LazyE A) (k : A -> Lazy R) :
  may m fs e -> (forall a m' fs', lazy_upd A (Some (m, fs)) e a = Some (m', fs') -> ok P m' fs' (k a)) ->
  ok P m fs (Do e k).
Proof.
  intros Hp Hk. split; [exact Hp|]. intros a. specialize (Hk a).
  destruct (lazy_upd A (Some (m, fs)) e a) as [[m' fs']|]; [by apply Hk|by apply okD_void].
Qed.

Lemma ok_perform {A} P m fs (e : LazyE A) :
  may m fs e -> (forall a m' fs', lazy_upd A (Some (m, fs)) e a = Some (m', fs') -> P m' fs' a) -> ok P m fs (perform e).
Proof. intros Hp Hk. apply ok_op; [done|]. intros a m' fs' Hu. by apply ok_ret, Hk. Qed.

Lemma ok_then {A R} P m fs (e : LazyE A) (k : A -> Lazy R) :
  may m fs e -> (forall a m' fs', lazy_upd A (Some (m, fs)) e a = Some (m', fs') -> ok P m' fs' (k a)) ->
  ok P m fs (perform e ≫= k).
Proof. apply ok_op. Qed.

Lemma ok_try_then {A B} P m fs (e : LazyE (LResult A)) (k : A -> Lazy (LResult B)) :
  may m fs e ->
  (forall a m' fs', lazy_upd _ (Some (m, fs)) e (Ok a) = Some (m', fs') -> ok P m' fs' (k a)) ->
  (forall x m' fs', lazy_upd _ (Some (m, fs)) e (Err x) = Some (m', fs') -> P m' fs' (Err x)) ->
  ok P m fs (try_bind (perform e) k).
Proof. intros Hp Hk Hx. apply ok_then; [done|]. intros [a|x] m' fs' Hu; [by apply Hk|by apply Hx]. Qed.

(** Facts are never lost. *)
Lemma upd_grows {A} (e : LazyE A) a m fs m' fs' : lazy_upd A (Some (m, fs)) e a = Some (m', fs') -> fs ⊆ fs'.
Proof.
  assert (forall l : list Fact, fs ⊆ l ++ fs) as Hl by (intros l f Hf; apply elem_of_app; by right).
  destruct e; cbn; unfold move_claim; intros Hu; repeat case_match; simplify_eq; try done; try apply Hl; try apply (Hl [_]);
    match type of Hu with fmap _ ?x = _ => destruct x; [|done]; by simplify_eq/= end.
Qed.

Lemma ok_grows {R} P m fs (p : Lazy R) : ok P m fs p -> ok (fun m' fs' r => P m' fs' r /\ fs ⊆ fs') m fs p.
Proof.
  revert m fs. induction p as [r|A e k IH]; intros m fs; [by split|]. intros [Hp Hk]. split; [exact Hp|]. intros a.
  specialize (Hk a). destruct (lazy_upd A (Some (m, fs)) e a) as [[m' fs']|] eqn:Eu; [|by apply okD_void].
  eapply ok_mono; [|by apply IH]. intros m2 fs2 r [HP Hs]. split; [done|]. etrans; [by eapply upd_grows|done].
Qed.

(** Operations that change nothing a task knows. *)
Definition quiet {A} (e : LazyE A) : bool :=
  match e with
  | Schedule | TbNamesWithin _ | TbRetryFailed | BkRead _ _ _ | BkSetTimes _ | BkSync _ | BkSyncAll | BkDirectories _
  | Rest _ | Asks _ => true
  | _ => false
  end.

Lemma quiet_spec {A} (e : LazyE A) m fs : quiet e = true -> may m fs e /\ forall a, lazy_upd A (Some (m, fs)) e a = Some (m, fs).
Proof. by destruct e. Qed.

Lemma ok_quiet {A R} P m fs (e : LazyE A) (k : A -> Lazy R) :
  quiet e = true -> (forall a, ok P m fs (k a)) -> ok P m fs (perform e ≫= k).
Proof.
  intros Hq Hk. destruct (quiet_spec e m fs Hq) as [Hp Hu]. apply ok_then; [done|]. intros a m' fs'. rewrite Hu. by intros [= <- <-].
Qed.

Lemma ok_try_quiet {A B} P m fs (e : LazyE (LResult A)) (k : A -> Lazy (LResult B)) :
  quiet e = true -> (forall a, ok P m fs (k a)) -> (forall x, P m fs (Err x)) -> ok P m fs (try_bind (perform e) k).
Proof. intros Hq Hk Hx. apply ok_quiet; [done|]. intros [a|x]; [apply Hk|apply Hx]. Qed.

Lemma ok_quiet_end {A} P m fs (e : LazyE A) : quiet e = true -> (forall a, P m fs a) -> ok P m fs (perform e).
Proof.
  intros Hq HP. destruct (quiet_spec e m fs Hq) as [Hp Hu]. apply ok_perform; [done|]. intros a m' fs'. rewrite Hu.
  intros [= <- <-]. apply HP.
Qed.

(** A pure step that may fail. *)
Lemma ok_try_pure {A B} P m fs (r : LResult A) (k : A -> Lazy (LResult B)) :
  (forall a, r = Ok a -> ok P m fs (k a)) -> (forall x, P m fs (Err x)) -> ok P m fs (try_bind (Ret r) k).
Proof. destruct r as [a|x]; intros Hk Hx; [by apply Hk|by apply Hx]. Qed.
End Checks.
Arguments ok : simpl never.

(** Only the claim on [id] has changed. *)
Definition same_but (id : Z) (m m' : gmap Z Claim) : Prop := forall i, i ≠ id -> m' !! i = m !! i.

Lemma same_but_refl id m : same_but id m m.
Proof. done. Qed.
Lemma same_but_trans id m1 m2 m3 : same_but id m1 m2 -> same_but id m2 m3 -> same_but id m1 m3.
Proof. intros H1 H2 i Hi. by rewrite H2, H1. Qed.
Lemma same_but_insert id c m m' : same_but id m m' -> same_but id m (<[id := c]> m').
Proof. intros Hs i Hi. rewrite lookup_insert_ne by done. by apply Hs. Qed.
Lemma same_but_delete id m m' : same_but id m m' -> same_but id m (delete id m').
Proof. intros Hs i Hi. rewrite lookup_delete_ne by done. by apply Hs. Qed.
#[export] Hint Resolve same_but_refl same_but_insert same_but_delete : lazy.

(** ** Downloads *)

Section Fill.
Context {H : HashCrates} {L : HashLaws H} (alg : VfsHashAlgorithm) (D : Z -> Prop) (id : Z).
Hypothesis HD : D id.

Abbreviation ok := (ok alg D).
Abbreviation may := (may alg D).

Lemma claimed_here m f c : mf_opener f = ByFill id -> m !! id = Some c -> claimed m f = Some (id, c).
Proof. unfold claimed. by intros -> ->. Qed.

Lemma may_here {A} m fs (e : LazyE A) :
  lazy_pre alg false A (Some (m, fs)) e -> takes_job e = false ->
  match effect_claim e with Some i => i = id | None => True end -> may m fs e.
Proof. intros Hp Ht He. split; [done|]. split; [done|]. intros i Hi. rewrite Hi in He. by subst. Qed.

(** The open file [f], with [b] written so far. *)
Definition writing (e : PendingEntry) (f : MountFile) (m0 m : gmap Z Claim) (b : bytes) : Prop :=
  same_but id m0 m /\ mf_opener f = ByFill id /\ exists whole, m !! id = Some (COpen e f b whole).

Lemma may_write e f m0 m fs b b0 offset :
  writing e f m0 m b0 -> (0 <= offset <= zlen b0)%Z -> may m fs (BkWrite f b offset).
Proof.
  intros (_ & Ho & whole & Hm) Hoff. apply may_here; [|done|cbn; by rewrite Ho].
  right. exists id, e, b0, whole. split; [by apply claimed_here|done].
Qed.

Lemma after_write e f m0 m fs b b0 offset r m' fs' :
  writing e f m0 m b0 -> lazy_upd _ (Some (m, fs)) (BkWrite f b offset) r = Some (m', fs') ->
  fs' = fs /\ match r with
  | Ok n => (0 <= n <= zlen b)%Z /\ writing e f m0 m' (take (Z.to_nat offset) b0 ++ take (Z.to_nat n) b)
  | Err _ => writing e f m0 m' b0
  end.
Proof.
  intros (Hs & Ho & whole & Hm). cbn. unfold move_claim. rewrite (claimed_here _ _ _ Ho Hm). destruct r as [n|x]; cbn.
  - destruct (decide _) as [Hn|]; [|done]. intros [= <- <-]. split; [done|]. split; [done|]. split; [auto with lazy|].
    split; [done|]. eexists. apply lookup_insert_eq.
  - intros [= <- <-]. split; [done|]. split; [auto with lazy|]. split; [done|]. eexists. apply lookup_insert_eq.
Qed.

(** Content written up to [offset], and what a write at its end makes of it. *)
Lemma prefix_here (b : bytes) n : take n b `prefix_of` b.
Proof. exists (drop n b). by rewrite take_drop. Qed.

Lemma prefix_cut (b b0 : bytes) : b `prefix_of` b0 -> take (length b) b0 = b.
Proof. intros [k ->]. by rewrite take_app_length. Qed.

Lemma written_on (b b0 : bytes) (offset n : Z) :
  (0 <= offset <= zlen b0)%Z -> (0 <= n <= zlen b)%Z ->
  let b1 := take (Z.to_nat offset) b0 ++ take (Z.to_nat n) b in
  (0 <= offset + n <= zlen b1)%Z /\
  take (Z.to_nat (offset + n)) b1 ++ drop (Z.to_nat n) b = take (Z.to_nat offset) b0 ++ b.
Proof.
  intros Ho Hn b1. unfold zlen in *. assert (length b1 = Z.to_nat (offset + n)) as Hl.
  { unfold b1. rewrite length_app, !length_take. lia. }
  split; [lia|]. rewrite take_ge by lia. unfold b1. by rewrite <- app_assoc, take_drop.
Qed.

Lemma ok_write_loop e f m0 fs fuel : forall b b0 m offset,
  writing e f m0 m b0 -> (0 <= offset <= zlen b0)%Z ->
  ok (fun m' fs' r => fs' = fs /\ exists b', writing e f m0 m' b' /\ (r = Ok tt -> (take (Z.to_nat offset) b0 ++ b) `prefix_of` b'))
    m fs (write_all_loop fuel f b offset).
Proof.
  induction fuel as [|fuel IH]; intros b b0 m offset Hw Hoff; destruct b as [|x b]; cbn [write_all_loop].
  1, 3: apply ok_ret; split; [done|]; exists b0; split; [done|]; intros _; rewrite app_nil_r; apply prefix_here.
  - apply ok_ret. split; [done|]. by exists b0.
  - apply ok_try_then; [by eapply may_write|..]; intros r m' fs' Hu; destruct (after_write _ _ _ _ _ _ _ _ _ _ _ Hw Hu) as [-> Hw'].
    + destruct Hw' as [Hr Hw']. destruct (written_on _ _ _ _ Hoff Hr) as [Ho Heq].
      destruct (r =? 0)%Z; [apply ok_ret; split; [done|]; by eexists|].
      eapply ok_mono; [|apply IH; [exact Hw'|done]]. intros m2 fs2 r2 [-> (b2 & Hw2 & Hp)]. split; [done|]. exists b2.
      split; [done|]. intros ->. rewrite <- Heq. by apply Hp.
    + split; [done|]. by exists b0.
Qed.

(** ** Streaming *)

Lemma ranges_from_app log path chunks b : forall offset,
  ranges_from log path offset chunks -> ARange path (offset + zlen (concat chunks)) b ∈ log ->
  ranges_from log path offset (chunks ++ [b]).
Proof.
  induction chunks as [|c chunks IH]; intros offset; cbn.
  - intros _. rewrite Z.add_0_r. done.
  - intros [Hc Hr] Hb. split; [done|]. apply IH; [done|]. unfold zlen in *. rewrite length_app, Nat2Z.inj_add in Hb.
    by rewrite <- Z.add_assoc.
Qed.

(** What a pass of ranged reads has written and hashed. *)
Definition streamed (path : string) (fs : list Fact) (b : bytes) (h : ContentHasher) (offset : Z) : Prop :=
  exists chunks, h = foldl hasher_update (new_hasher alg) chunks /\ offset = zlen (concat chunks) /\
    ranges_from (answers_in fs) path 0 chunks /\ concat chunks `prefix_of` b.

Lemma answered fs a : FAnswer a ∈ fs -> a ∈ answers_in fs.
Proof. intros Ha. apply list_elem_of_omap. by exists (FAnswer a). Qed.
Lemma answers_grow fs fs' : fs ⊆ fs' -> answers_in fs ⊆ answers_in fs'.
Proof. intros Hs a (f & Hf & Ha)%list_elem_of_omap. apply list_elem_of_omap. exists f. by auto. Qed.

Lemma streamed_more path fs fs' b b' c h offset :
  streamed path fs b h offset -> fs ⊆ fs' -> FAnswer (ARange path offset c) ∈ fs' ->
  (take (Z.to_nat offset) b ++ c) `prefix_of` b' -> streamed path fs' b' (hasher_update h c) (offset + zlen c).
Proof.
  intros (chunks & -> & -> & Hr & Hp) Hs Hc Hb. exists (chunks ++ [c]). rewrite foldl_app, concat_app. cbn. rewrite app_nil_r.
  split; [done|]. split; [by rewrite zlen_app|]. split.
  - apply ranges_from_app; [by eapply ranges_from_mono; [apply answers_grow|]|]. by apply answered.
  - unfold zlen in Hb. rewrite Nat2Z.id, (prefix_cut _ _ Hp) in Hb. done.
Qed.

Lemma streamed_offset path fs b h offset : streamed path fs b h offset -> (0 <= offset <= zlen b)%Z.
Proof. intros (chunks & _ & -> & _ & Hp). unfold zlen. apply prefix_length in Hp. lia. Qed.

Lemma stays_true {A} (fs l : list A) : fs ⊆ l ++ fs.
Proof. intros x Hx. apply elem_of_app. by right. Qed.

Lemma ok_ranges e f m0 file rev fuel : forall m fs h offset b,
  writing e f m0 m b -> streamed (rf_path file) fs b h offset ->
  ok (fun m' fs' r => fs ⊆ fs' /\ exists b', writing e f m0 m' b' /\
        match r with Ok (Some (h', offset')) => streamed (rf_path file) fs' b' h' offset' | _ => True end)
    m fs (stream_loop fuel file f rev h offset).
Proof.
  induction fuel as [|fuel IH]; intros m fs h offset b Hw Hs; cbn [stream_loop];
    (destruct (rf_size file <=? offset)%Z; [apply ok_ret; split; [done|]; by exists b|]).
  - apply ok_ret. split; [done|]. by exists b.
  - apply ok_try_then; [by apply may_here|..|intros x m' fs' [= <- <-]; split; [done|]; by exists b].
    intros [rev' r] m' fs' [= <- <-].
    apply ok_try_pure; [intros _ _|intros; split; [apply stays_true|]; by exists b]. destruct r as [c| |].
    2, 3: apply ok_ret; split; [apply stays_true|]; by exists b. destruct c as [|x c].
    + destruct (rev =? 0)%Z; apply ok_ret; (split; [apply stays_true|]); by exists b.
    + eapply ok_try; [apply ok_write_loop; [exact Hw|by eapply streamed_offset]|..].
      * intros m2 fs2 [] (-> & b2 & Hw2 & Hp). eapply ok_mono; [|apply (IH _ _ _ _ b2 Hw2)].
        -- intros m3 fs3 r3 (Hf & Hr). split; [|done]. etrans; [|exact Hf]. apply stays_true.
        -- eapply streamed_more; [exact Hs|apply stays_true|by left|by apply Hp].
      * intros m2 fs2 y (-> & b2 & Hw2 & _). split; [apply stays_true|]. by exists b2.
Qed.
Ltac grown :=
  match goal with
  | |- ?l ⊆ ?l => done
  | |- ?l ⊆ ?x :: ?l => apply (stays_true l [x])
  | |- ?l ⊆ ?l' ++ ?l => apply (stays_true l l')
  | Hf : ?l' ⊆ ?fs |- _ ⊆ ?fs => etrans; [|exact Hf]; grown
  end.

(** [n] bytes that the gateway served are in place. *)
Definition downloaded (i : nat) (p : Placeholder) (fs : list Fact) (b : bytes) (n : Z) : Prop :=
  exists content, content `prefix_of` b /\ n = zlen content /\ accepted alg (answers_in fs) i p content.

Definition fetches (e : PendingEntry) (f : MountFile) (m0 : gmap Z Claim) (fs : list Fact)
    {A} (Q : list Fact -> bytes -> A -> Prop) (m' : gmap Z Claim) (fs' : list Fact) (r : LResult A) : Prop :=
  fs ⊆ fs' /\ exists b', writing e f m0 m' b' /\ match r with Ok a => Q fs' b' a | Err _ => True end.

Lemma fetches_from {A} e f m0 fs fs1 (Q : list Fact -> bytes -> A -> Prop) m' fs' r :
  fs ⊆ fs1 -> fetches e f m0 fs1 Q m' fs' r -> fetches e f m0 fs Q m' fs' r.
Proof. intros Hs (Hf & Hr). split; [by etrans|done]. Qed.

Lemma fetches_stop {A B} e f m0 fs (Q : list Fact -> bytes -> A -> Prop) (Q' : list Fact -> bytes -> B -> Prop) m' fs' x :
  fetches e f m0 fs Q m' fs' (Err x) -> fetches e f m0 fs Q' m' fs' (Err x).
Proof. done. Qed.

Lemma fetches_err {A} e f m0 fs fs' (Q : list Fact -> bytes -> A -> Prop) m b x :
  writing e f m0 m b -> fs ⊆ fs' -> fetches e f m0 fs Q m fs' (Err x).
Proof. intros Hw Hs. split; [done|]. by exists b. Qed.

Lemma ok_stream_once e f m0 m fs b file rev :
  writing e f m0 m b ->
  ok (fetches e f m0 fs (fun fs' b' a =>
        match a with
        | StreamDone n => exists chunks, ranges_from (answers_in fs') (rf_path file) 0 chunks /\ concat chunks `prefix_of` b' /\
            n = zlen (concat chunks) /\ verify_downloaded file n (content_hash_of alg (concat chunks)) = Ok tt
        | StreamMoved => True
        end)) m fs (stream_once alg file f rev).
Proof.
  intros Hw. unfold stream_once. eapply ok_try.
  - apply (ok_ranges _ _ _ _ _ _ _ _ _ _ b Hw). exists []. split; [done|]. split; [done|]. split; [done|]. apply prefix_nil.
  - intros m' fs' [[h offset]|] (Hf & b' & Hw' & Hs); [|by apply ok_ret; split; [done|]; exists b'].
    destruct Hs as (chunks & -> & -> & Hr & Hp).
    assert (hasher_finalize (foldl hasher_update (new_hasher alg) chunks) = content_hash_of alg (concat chunks)) as Hh.
    { unfold content_hash_of. rewrite hash_bytes_fst. apply hasher_chunks. }
    rewrite Hh. destruct (verify_downloaded file _ _) as [[]|x] eqn:Ev.
    + apply ok_ret. split; [done|]. exists b'. split; [done|]. by exists chunks.
    + destruct (rev =? 0)%Z; apply ok_ret; (split; [done|]); by exists b'.
  - intros m' fs' x (Hf & b' & Hw' & _). by eapply fetches_err.
Qed.

Lemma ok_stream_attempts e f m0 path p attempts : forall m fs b,
  writing e f m0 m b -> FAnswer (AOpen path (mf_ino f)) ∈ fs ->
  ok (fetches e f m0 fs (downloaded (mf_ino f) p)) m fs (stream_attempts alg attempts (for_placeholder path p) f).
Proof.
  induction attempts as [|attempts IH]; intros m fs b Hw Ho; cbn [stream_attempts]; [apply ok_ret; by eapply fetches_err|].
  apply ok_try_then; [by apply may_here|..|intros x m' fs' [= <- <-]; by eapply fetches_err].
  intros [[size hash]|] m' fs' [= <- <-]; [|apply ok_ret; eapply fetches_err; [done|grown]].
  eapply ok_try; [by eapply ok_stream_once|..].
  - intros m2 fs2 [n|] (Hf & b2 & Hw2 & Hr).
    + destruct Hr as (chunks & Hr & Hp & -> & Hv). apply ok_ret. split; [grown|].
      exists b2. split; [done|]. exists (concat chunks). split; [done|]. split; [done|].
      eapply (accepted_stream alg _ _ _ _ path size hash chunks); [| |exact Hr|done|exact Hv].
      * apply answered, Hf. by right.
      * apply answered, Hf. by left.
    + eapply ok_mono; [|eapply IH; [done|apply Hf; by right]]. intros m3 fs3 r. apply fetches_from. grown.
  - intros m2 fs2 x Hx. eapply fetches_stop, fetches_from; [|exact Hx]. grown.
Qed.

Lemma ok_download e f m0 m fs b path p :
  writing e f m0 m b -> FAnswer (AOpen path (mf_ino f)) ∈ fs ->
  ok (fetches e f m0 fs (fun fs' b' a => match a with Some n => downloaded (mf_ino f) p fs' b' n | None => True end)) m fs
    (download_into alg (for_placeholder path p) f 0).
Proof.
  intros Hw Ho. unfold download_into. cbn [rf_size for_placeholder]. destruct (Z.eqb_spec (ph_size p) 0) as [Hz|_].
  { apply ok_try_pure; [|intros; by eapply fetches_err]. intros _ _. apply ok_ret. split; [done|]. exists b. split; [done|].
    exists []. split; [apply prefix_nil|]. split; [done|]. by apply accepted_empty. }
  destruct (ph_size p <=? HYDRATE_INLINE_DOWNLOAD_LIMIT_BYTES)%Z.
  - apply ok_try_then; [by apply may_here|..|intros x m' fs' [= <- <-]; by eapply fetches_err].
    intros [rev' [c|]] m' fs' [= <- <-]; cbn [fst snd];
      (apply ok_try_pure; [intros _ _|intros; eapply fetches_err; [done|grown]]).
    2: { apply ok_ret. split; [grown|]. by exists b. }
    assert (ok (fun m' fs' r => FAnswer (AWhole path c) :: fs ⊆ fs' /\ m' = m) m (FAnswer (AWhole path c) :: fs)
      (verify_or_recheck (for_placeholder path p) (zlen c) (content_hash_of alg c))) as Hv.
    { unfold verify_or_recheck. destruct (verify_downloaded _ _ _); [by apply ok_ret|].
      apply ok_try_then; [by apply may_here|..]; intros a m' fs' [= <- <-]; [apply ok_ret|]; (split; [grown|done]). }
    eapply ok_try; [exact Hv|..].
    + intros m2 fs2 _ (Hf & ->). eapply ok_try; [apply ok_write_loop; [exact Hw|unfold zlen; lia]|..].
      * intros m3 fs3 [] (-> & b3 & Hw3 & Hp). apply ok_ret. split; [grown|].
        exists b3. split; [done|]. exists c. split; [by apply Hp|]. split; [done|]. apply (accepted_whole _ _ _ _ _ path); apply answered, Hf; [by right|by left].
      * intros m3 fs3 x (-> & b3 & Hw3 & _). eapply fetches_err; [done|]. grown.
    + intros m2 fs2 x (Hf & ->). eapply fetches_err; [done|]. grown.
  - eapply ok_try; [unfold stream_file; by eapply ok_stream_attempts|..].
    + intros m2 fs2 n (Hf & b2 & Hw2 & Hd). apply ok_ret. split; [done|]. by exists b2.
    + intros m2 fs2 x. apply fetches_stop.
Qed.
(** ** One entry *)

(** The claim of a fill that has a name to open, and of one that is done. *)
Definition looking (e : PendingEntry) (m0 m : gmap Z Claim) (sf : list string) : Prop :=
  same_but id m0 m /\ m !! id = Some (CEntry e sf).
Definition ready (e : PendingEntry) (m : gmap Z Claim) (fs : list Fact) (f : MountFile) : Prop :=
  exists b, claimed m f = Some (id, COpen e f b true) /\ accepted alg (answers_in fs) (mf_ino f) (placeholder e) b.

(** How an attempt on a name ends. *)
Definition attempted (e : PendingEntry) (m0 : gmap Z Claim) (fs : list Fact) (sf : list string) (path : string)
    (Q : gmap Z Claim -> list Fact -> MountFile -> Prop)
    (m : gmap Z Claim) (fs' : list Fact) (r : LResult (option MountFile)) : Prop :=
  fs ⊆ fs' /\ same_but id m0 m /\
  match r with
  | Ok (Some f) => Q m fs' f
  | Ok None => looking e m0 m (path :: sf)
  | Err _ => is_Some (m !! id)
  end.

Lemma ok_open_placeholder e m0 m fs sf path :
  looking e m0 m sf -> path ∈ members e \/ FNamed path id ∈ fs ->
  ok (attempted e m0 fs sf path (fun m' fs' f => FAnswer (AOpen path (mf_ino f)) ∈ fs' /\ exists b, writing e f m0 m' b)) m fs (open_placeholder id path (placeholder e)).
Proof.
  intros [Hs Hm] Hp. unfold open_placeholder.
  apply ok_then; [apply may_here; [exists e, sf; by split|done|done]|].
  intros r m' fs'. cbn. rewrite Hm. destruct r as [f|x].
  2: { destruct (not_a_file x); intros [= <- <-]; apply ok_ret; (split; [done|]); (split; [auto with lazy|]).
       - split; [auto with lazy|apply lookup_insert_eq].
       - by rewrite Hm. }
  destruct (decide _) as [Ho|]; [|done]. intros [= <- <-]. set (a := FAnswer (AOpen path (mf_ino f))).
  assert (fs ⊆ a :: fs) as Hg by (by apply (stays_true fs [a])).
  assert (claimed (<[id := CHandle e sf path f]> m) f = Some (id, CHandle e sf path f)) as Hc.
  { apply claimed_here; [done|apply lookup_insert_eq]. }
  apply ok_try_then.
  - apply may_here; [by exists id, e, sf, path|done|cbn; by rewrite Ho].
  - intros q m' fs'. cbn. unfold move_claim. rewrite Hc. cbn. destruct q as [q|]; cbn.
    2: { intros [= <- <-]. rewrite bool_decide_false by done. apply ok_ret. split; [exact Hg|]. rewrite insert_insert_eq.
         split; [auto with lazy|]. split; [auto with lazy|apply lookup_insert_eq]. }
    destruct (decide (q = placeholder e)) as [->|]; [|done]. intros [= <- <-]. rewrite bool_decide_true by done.
    rewrite insert_insert_eq. set (m1 := <[id := COpen e f [] false]> m).
    assert (claimed m1 f = Some (id, COpen e f [] false)) as Hc1 by (apply claimed_here; [done|apply lookup_insert_eq]).
    apply ok_try_then.
    + apply may_here; [cbn; by rewrite Hc1|done|cbn; by rewrite Ho].
    + intros n m' fs'. cbn. unfold move_claim. rewrite Hc1. cbn. destruct (n <? _)%Z; [done|]. intros [= <- <-].
      apply ok_ret. split; [exact Hg|]. unfold m1. rewrite insert_insert_eq. split; [auto with lazy|]. split; [by left|]. exists [].
      split; [auto with lazy|]. split; [done|]. eexists. apply lookup_insert_eq.
    + intros x m' fs'. cbn. unfold move_claim. rewrite Hc1. cbn. intros [= <- <-]. split; [exact Hg|]. unfold m1.
      rewrite insert_insert_eq, lookup_insert_eq. split; [auto with lazy|done].
  - intros x m' fs'. cbn. unfold move_claim. rewrite Hc. cbn. intros [= <- <-]. split; [exact Hg|].
    rewrite insert_insert_eq, lookup_insert_eq. split; [auto with lazy|done].
Qed.

Lemma ok_settle e f m0 m fs b n :
  writing e f m0 m b -> downloaded (mf_ino f) (placeholder e) fs b n ->
  ok (fun m' fs' r => fs' = fs /\ same_but id m0 m' /\ is_Some (m' !! id) /\ (r = Ok tt -> ready e m' fs f)) m fs (settle f n).
Proof.
  intros (Hs & Ho & whole & Hm) (content & Hp & -> & Hacc). unfold settle. pose proof (claimed_here _ _ _ Ho Hm) as Hc.
  pose proof (prefix_length _ _ Hp) as Hl.
  apply ok_try_then; [apply may_here; [cbn; by rewrite Hc|done|cbn; by rewrite Ho]|..].
  - intros size m' fs'. cbn. unfold move_claim. rewrite Hc. cbn. destruct (Z.ltb_spec size (zlen b)) as [|Hsz]; [done|].
    intros [= <- <-]. set (m1 := <[id := COpen e f b (whole || (size =? zlen b)%Z)]> m).
    assert (claimed m1 f = Some (id, COpen e f b (whole || (size =? zlen b)%Z))) as Hc1.
    { apply claimed_here; [done|apply lookup_insert_eq]. }
    destruct (Z.eqb_spec size (zlen content)) as [->|_].
    + assert (b = content) as ->.
      { destruct Hp as [k ->]. unfold zlen in Hsz. rewrite length_app in Hsz. destruct k; [by rewrite app_nil_r|cbn in Hsz; lia]. }
      apply ok_quiet_end; [done|]. intros r. unfold m1. split; [done|]. split; [auto with lazy|].
      rewrite lookup_insert_eq. split; [done|]. intros _. exists content. split; [|done].
      apply claimed_here; [done|]. rewrite lookup_insert_eq, Z.eqb_refl. by rewrite orb_true_r.
    + apply ok_try_then.
      * apply may_here; [|done|cbn; by rewrite Ho]. right. exists id, e, b. eexists. split; [exact Hc1|]. unfold zlen. lia.
      * intros [] m' fs'. cbn. unfold move_claim. rewrite Hc1. cbn. intros [= <- <-]. apply ok_quiet_end; [done|]. intros r. split; [done|].
        unfold m1. rewrite insert_insert_eq, lookup_insert_eq. split; [auto with lazy|]. split; [done|]. intros _.
        exists content. split; [|done]. apply claimed_here; [done|]. rewrite lookup_insert_eq. unfold zlen.
        by rewrite Nat2Z.id, (prefix_cut _ _ Hp).
      * intros x m' fs'. cbn. unfold move_claim. rewrite Hc1. cbn. intros [= <- <-]. split; [done|].
        unfold m1. rewrite insert_insert_eq, lookup_insert_eq. by split; [auto with lazy|].
  - intros x m' fs'. cbn. unfold move_claim. rewrite Hc. cbn. intros [= <- <-]. split; [done|]. rewrite lookup_insert_eq.
    by split; [auto with lazy|].
Qed.
(** Fetching an entry by one of its names. *)
Definition entered (e : PendingEntry) (m0 : gmap Z Claim) (fs : list Fact)
    (m : gmap Z Claim) (fs' : list Fact) (r : LResult (option MountFile)) : Prop :=
  fs ⊆ fs' /\ same_but id m0 m /\ is_Some (m !! id) /\
  match r with
  | Ok (Some f) => ready e m fs' f
  | Ok None => exists sf, m !! id = Some (CEntry e sf) /\ forall p, p ∈ members e -> p ∈ sf
  | Err _ => True
  end.

(** The content of an open placeholder, downloaded and settled. *)
Lemma ok_fetch_file e f m0 m fs b path :
  writing e f m0 m b -> FAnswer (AOpen path (mf_ino f)) ∈ fs ->
  ok (fun m' fs' r => fs ⊆ fs' /\ same_but id m0 m' /\ is_Some (m' !! id) /\
        match r with Ok (Some f) => ready e m' fs' f | Ok None => False | Err _ => True end) m fs
    (written ←? download_into alg (for_placeholder path (placeholder e)) f 0;
     match written with
     | None => Ret (Err (Bail "the gateway no longer has it"))
     | Some written => _ ←? settle f written; Ret (Ok (Some f))
     end).
Proof.
  intros Hw Hopen. assert (forall e f b m m', writing e f m m' b -> same_but id m m' /\ is_Some (m' !! id)) as Hsome.
  { intros e1 f1 b1 m1 m2 (Hs & _ & whole & ->). done. }
  eapply ok_try; [by eapply ok_download|..].
  - intros m1 fs1 [n|] (Hf & b1 & Hw1 & Hd); [|apply ok_ret; split; [done|]; destruct (Hsome _ _ _ _ _ Hw1); done].
    eapply ok_try; [by eapply ok_settle|..].
    + intros m2 fs2 [] (-> & Hs & Hi & Hr). apply ok_ret. split; [done|]. split; [done|]. split; [done|]. by apply Hr.
    + intros m2 fs2 x (-> & Hs & Hi & _). done.
  - intros m1 fs1 x (Hf & b1 & Hw1 & _). split; [done|]. destruct (Hsome _ _ _ _ _ Hw1). done.
Qed.

Lemma ok_fetch_members e m0 ms : forall m fs sf,
  looking e m0 m sf -> (forall p, p ∈ ms -> p ∈ members e) -> (forall p, p ∈ members e -> p ∈ ms \/ p ∈ sf) ->
  ok (entered e m0 fs) m fs (fetch_members alg id (placeholder e) ms).
Proof.
  induction ms as [|member ms IH]; intros m fs sf Hl Hms Hsf; cbn [fetch_members].
  - destruct Hl as [Hs Hm]. apply ok_ret. split; [done|]. split; [done|]. split; [by rewrite Hm|]. exists sf. split; [done|].
    intros p Hp. destruct (Hsf p Hp) as [Hin|]; [by apply elem_of_nil in Hin|done].
  - eapply ok_try; [apply ok_open_placeholder; [exact Hl|left; apply Hms; by left]|..].
    + intros m1 fs1 [f|] (Hf & Hs & Hr).
      * destruct Hr as (Ho & b & Hw). eapply ok_mono; [|by eapply ok_fetch_file]. intros m2 fs2 r (Hf2 & Hs2 & Hi2 & Hr2).
        split; [by etrans|]. split; [done|]. split; [done|]. by destruct r as [[f2|]|].
      * eapply ok_mono; [|eapply (IH _ _ (member :: sf)); [exact Hr|intros p Hp; apply Hms; by right|]].
        -- intros m2 fs2 r (Hf2 & Hr2). split; [by etrans|done].
        -- intros p Hp. destruct (Hsf p Hp) as [[->|Hin]%elem_of_cons|Hin]; [right; by left|by left|right; by right].
    + intros m1 fs1 x (Hf & Hs & Hi). done.
Qed.

Lemma ok_fetch_entry e m0 m fs sf : looking e m0 m sf -> ok (entered e m0 fs) m fs (fetch_entry alg id e).
Proof. intros Hl. by eapply ok_fetch_members; [|intros p Hp|intros p Hp; left]. Qed.

(** Dropping the mark of a file whose bytes are all there. *)
Lemma ok_retire e m fs f :
  ready e m fs f ->
  ok (fun m' fs' r => fs' = fs /\ same_but id m m' /\ is_Some (m' !! id) /\ (r = Ok tt -> m' !! id = Some CGone))
    m fs (retire_placeholder_mark f).
Proof.
  intros (b & Hc & Hacc). destruct (claimed_spec _ _ _ _ Hc) as [Ho Hm]. unfold retire_placeholder_mark.
  apply ok_then; [apply may_here; [by exists id, e, b|done|cbn; by rewrite Ho]|].
  intros r m' fs'. cbn. unfold move_claim. rewrite Hc. cbn. destruct r as [[]|x].
  - intros [= <- <-]. apply ok_ret. rewrite lookup_insert_eq. by split; [|split; [auto with lazy|]].
  - destruct x as [[]|]; intros [= <- <-]; apply ok_ret; rewrite (insert_id _ _ _ Hm), Hm; by split; [|split].
Qed.

Lemma ok_fill_failed m fs x : is_Some (m !! id) ->
  ok (fun m' fs' _ => fs' = fs /\ m' = delete id m) m fs (fill_failed id x).
Proof. intros Hm. apply ok_perform; [by apply may_here|]. by intros [] m' fs' [= <- <-]. Qed.

Lemma ok_complete m fs :
  m !! id = Some CGone \/ (exists e sf, m !! id = Some (CEntry e sf) /\ forall p, p ∈ members e -> p ∈ sf) ->
  ok (fun m' fs' _ => fs' = fs /\ m' = delete id m) m fs (perform (TbComplete id)).
Proof. intros Hm. apply ok_perform; [by apply may_here|]. by intros [] m' fs' [= <- <-]. Qed.

Lemma ok_fill_claimed m fs : m !! id = Some CNew -> ok (fun _ _ _ => True) m fs (fill_claimed alg id).
Proof.
  intros Hm. unfold fill_claimed. apply ok_then; [apply may_here; [by cbn; rewrite Hm|done|done]|].
  intros [e|] m' fs'; cbn; rewrite Hm; [|done]. intros [= <- <-].
  eapply ok_seq; [eapply (ok_fetch_entry _ (<[id := CEntry e []]> m)); split; [done|apply lookup_insert_eq]|].
  intros m1 fs1 r (_ & _ & Hi & Hr).
  eapply (ok_seq _ _ (fun m' fs' r => is_Some (m' !! id) /\ (r = Ok tt -> m' !! id = Some CGone \/
    (exists e sf, m' !! id = Some (CEntry e sf) /\ forall p, p ∈ members e -> p ∈ sf)))).
  - destruct r as [[f|]|x].
    + eapply (ok_try _ _ _ _ _ _ (retire_placeholder_mark f) (fun _ => perform (BkSync f))); [by eapply ok_retire|..].
      * intros m2 fs2 [] (_ & _ & Hi2 & Hg). apply ok_quiet_end; [done|]. intros r. split; [done|]. intros _. left. by apply Hg.
      * intros m2 fs2 x (_ & _ & Hi2 & _). done.
    + apply ok_ret. split; [done|]. intros _. right. exists e. exact Hr.
    + by apply ok_ret.
  - intros m2 fs2 [[]|x] [Hi2 Hg]; (eapply ok_mono; [|first [by apply ok_complete, Hg|by apply ok_fill_failed]]); done.
Qed.

(** One fetch of a batch: what it returns is ready to be retired. *)
Definition fetched (m : gmap Z Claim) (fs : list Fact) (r : option (Z * MountFile)) : Prop :=
  match r with Some (i, f) => i = id /\ exists e, ready e m fs f | None => True end.

Lemma ok_fetch_claimed m fs : ok fetched m fs (fetch_claimed alg id).
Proof.
  unfold fetch_claimed. apply ok_then; [by apply may_here|].
  intros [e|] m' fs'; cbn [lazy_upd]; [|intros [= <- <-]; by apply ok_ret]. destruct (m !! id); [done|]. intros [= <- <-].
  eapply ok_seq; [eapply (ok_fetch_entry _ (<[id := CEntry e []]> m)); split; [done|apply lookup_insert_eq]|].
  intros m1 fs1 [[f|]|x] (_ & _ & Hi & Hr).
  - apply ok_ret. split; [done|]. by exists e.
  - eapply ok_seq; [apply ok_complete; right; exists e; exact Hr|]. intros. by apply ok_ret.
  - eapply ok_seq; [by apply ok_fill_failed|]. intros. by apply ok_ret.
Qed.
End Fill.
Arguments ready {H} alg id e m fs f.
Arguments fetched {H} alg id m fs r.

(** ** Batches *)

Section Batch.
Context {H : HashCrates} {L : HashLaws H} (alg : VfsHashAlgorithm).

Definition every (id : Z) : Prop := True.
Definition anything {R} (m : gmap Z Claim) (fs : list Fact) (r : R) : Prop := True.
Abbreviation ok := (ok alg every).

Lemma ok_anything {R} P m fs (p : Lazy R) : ok P m fs p -> ok anything m fs p.
Proof. by apply ok_mono. Qed.

Lemma ok_for_each {A} (body : A -> Lazy unit) xs :
  (forall x m fs, x ∈ xs -> ok anything m fs (body x)) -> forall m fs, ok anything m fs (for_each xs body).
Proof.
  induction xs as [|x xs IH]; intros Hb m fs; [by apply ok_ret|]. eapply ok_seq; [apply Hb; by left|].
  intros m' fs' _ _. apply IH. intros y m1 fs1 Hy. apply Hb. by right.
Qed.

(** Files of several entries that wait to be retired. *)
Definition awaiting (m : gmap Z Claim) (fs : list Fact) (written : list (Z * MountFile)) : Prop :=
  NoDup written.*1 /\ forall id f, (id, f) ∈ written -> exists e, ready alg id e m fs f.

Lemma ready_same id i e m m' fs fs' f :
  same_but id m m' -> i ≠ id -> fs ⊆ fs' -> ready alg i e m fs f -> ready alg i e m' fs' f.
Proof.
  intros Hs Hi Hf (b & Hc & Ha). destruct (claimed_spec _ _ _ _ Hc) as [Ho Hm]. exists b. split.
  - apply claimed_here; [done|]. by rewrite Hs.
  - eapply accepted_mono; [by apply answers_grow|done].
Qed.

Lemma ready_some id e m fs f : ready alg id e m fs f -> is_Some (m !! id).
Proof. intros (b & Hc & _). destruct (claimed_spec _ _ _ _ Hc) as [_ ->]. done. Qed.

Lemma awaiting_same id m m' fs fs' written :
  same_but id m m' -> fs ⊆ fs' -> id ∉ written.*1 -> awaiting m fs written -> awaiting m' fs' written.
Proof.
  intros Hs Hf Hni [Hnd Hr]. split; [done|]. intros i f Hin. destruct (Hr i f Hin) as [e He]. exists e.
  eapply ready_same; [exact Hs| |exact Hf|exact He]. intros ->. apply Hni. apply list_elem_of_fmap. by exists (id, f).
Qed.

Lemma awaiting_nil m fs : awaiting m fs [].
Proof. split; [constructor|]. by intros ? ? ?%elem_of_nil. Qed.

Lemma awaiting_cons id f written m fs :
  awaiting m fs ((id, f) :: written) -> (exists e, ready alg id e m fs f) /\ id ∉ written.*1 /\ awaiting m fs written.
Proof.
  intros [[Hni Hnd]%NoDup_cons Hr]. split; [apply Hr; by left|]. split; [done|]. split; [done|].
  intros i g Hin. apply Hr. by right.
Qed.

Lemma ok_fail_all x (written : list (Z * MountFile)) : forall m fs, NoDup written.*1 -> (forall id, id ∈ written.*1 -> is_Some (m !! id)) ->
  ok anything m fs (for_each written (fun '(id, _) => fill_failed id x)).
Proof.
  induction written as [|[id f] written IH]; intros m fs Hnd Hm; [by apply ok_ret|]. apply NoDup_cons in Hnd as [Hni Hnd].
  eapply ok_seq; [apply (ok_fill_failed alg every id I); apply Hm; by left|]. intros m' fs' _ [-> ->]. apply IH; [done|].
  intros i Hi. rewrite lookup_delete_ne by (intros ->; by apply Hni). apply Hm. by right.
Qed.

Lemma ok_end_all (finish : Z -> Lazy unit) (P : Claim -> Prop) ids :
  (forall id c m fs, m !! id = Some c -> P c -> ok (fun m' _ _ => m' = delete id m) m fs (finish id)) ->
  forall m fs, NoDup ids -> (forall id, id ∈ ids -> exists c, m !! id = Some c /\ P c) -> ok anything m fs (for_each ids finish).
Proof.
  intros Hfin. induction ids as [|id ids IH]; intros m fs Hnd Hm; [by apply ok_ret|]. apply NoDup_cons in Hnd as [Hni Hnd].
  destruct (Hm id) as (c & Hc & Hp); [by left|]. eapply ok_seq; [by eapply Hfin|]. intros m' fs' _ ->. apply IH; [done|].
  intros i Hi. rewrite lookup_delete_ne by (intros ->; by apply Hni). apply Hm. by right.
Qed.

Lemma ok_retire_marks written : forall m fs,
  awaiting m fs written ->
  ok (fun m' _ ids => NoDup ids /\ ids ⊆ written.*1 /\ (forall id, id ∈ ids -> m' !! id = Some CGone) /\
        forall i, i ∉ written.*1 -> m' !! i = m !! i) m fs (retire_marks written).
Proof.
  induction written as [|[id f] written IH]; intros m fs Hw; cbn [retire_marks].
  { apply ok_ret. split; [constructor|]. split; [done|]. split; [by intros ? ?%elem_of_nil|done]. }
  apply awaiting_cons in Hw as ([e Hr] & Hni & Hw).
  eapply ok_seq; [by apply (ok_retire alg every id I e)|]. intros m1 fs1 r (-> & Hs1 & Hi1 & Hg1).
  assert (forall m2, same_but id m m2 -> ok (fun m' _ ids => NoDup ids /\ ids ⊆ written.*1 /\ (forall i, i ∈ ids -> m' !! i = Some CGone) /\
        forall i, i ∉ written.*1 -> m' !! i = m2 !! i) m2 fs (retire_marks written)) as Hrest.
  { intros m2 Hs2. apply IH. by eapply awaiting_same. }
  destruct r as [[]|x].
  - eapply ok_seq; [by apply Hrest|]. intros m2 fs2 ids (Hnd & Hsub & Hg & Ho). apply ok_ret. split; [|split; [|split]].
    + constructor; [|done]. intros Hin. by apply Hni, Hsub.
    + intros i [->|Hin]%elem_of_cons; [by left|]. right. by apply Hsub.
    + intros i [->|Hin]%elem_of_cons; [|by apply Hg]. rewrite Ho by done. by apply Hg1.
    + intros i Hi. cbn in Hi. apply not_elem_of_cons in Hi as [Hi1' Hi2]. rewrite Ho by done. by apply Hs1.
  - eapply ok_seq; [by apply (ok_fill_failed alg every id I)|]. intros m2 fs2 _ [-> ->].
    eapply ok_mono; [|apply Hrest; auto with lazy]. intros m3 fs3 ids (Hnd & Hsub & Hg & Ho). split; [done|].
    split; [intros i Hi; right; by apply Hsub|]. split; [done|]. intros i Hi. cbn in Hi. apply not_elem_of_cons in Hi as [Hi1' Hi2].
    rewrite Ho, lookup_delete_ne by done. by apply Hs1.
Qed.

Lemma ok_retire_batch written m fs : awaiting m fs written -> ok anything m fs (retire_batch written).
Proof.
  intros Hw. unfold retire_batch. destruct written as [|y written]; [by apply ok_ret|]. set (l := y :: written) in *.
  apply ok_quiet; [done|]. intros [[]|x].
  - eapply ok_seq; [by apply ok_retire_marks|]. intros m1 fs1 ids (Hnd & _ & Hg & _).
    apply ok_quiet; [done|]. intros [[]|x].
    + apply (ok_end_all _ (fun c => c = CGone)); [|done|intros i Hi; exists CGone; by split; [apply Hg|]].
      intros i c m2 fs2 Hc ->. eapply ok_mono; [|apply (ok_complete alg every i I); by left]. by intros ? ? _ [_ ->].
    + apply (ok_end_all _ (fun c => c = CGone)); [|done|intros i Hi; exists CGone; by split; [apply Hg|]].
      intros i c m2 fs2 Hc ->. eapply ok_mono; [|apply (ok_fill_failed alg every i I); by rewrite Hc]. by intros ? ? _ [_ ->].
  - destruct Hw as [Hnd Hr]. apply ok_fail_all; [done|]. intros i ([j f] & -> & Hin)%list_elem_of_fmap.
    destruct (Hr _ _ Hin) as [e He]. by eapply ready_some.
Qed.

(** The fetches of a batch at once. *)
Lemma fetched_stable id : stable (eq id) (lift (fetched alg id)).
Proof.
  intros [[m fs]|] [[m' fs']|] r; try done. intros [Hm Hs]. destruct r as [[i f]|]; [|done]. cbn.
  intros (-> & e & b & Hc & Ha). split; [done|]. exists e, b. destruct (claimed_spec _ _ _ _ Hc) as [Ho Hl]. split.
  - apply claimed_here; [done|]. by rewrite <- Hm.
  - eapply accepted_mono; [by apply answers_grow|done].
Qed.

Lemma results_awaiting m fs ids rs :
  NoDup ids -> Forall2 (fun id r => fetched alg id m fs r) ids rs -> awaiting m fs (omap (fun r => r) rs).
Proof.
  intros Hnd HF. assert (awaiting m fs (omap (fun r => r) rs) /\ (omap (fun r => r) rs).*1 ⊆ ids) as [? _]; [|done].
  induction HF as [|id r ids rs Hr HF IH]; [split; [apply awaiting_nil|done]|]. apply NoDup_cons in Hnd as [Hni Hnd].
  destruct (IH Hnd) as [[Hn Ha] Hsub]. destruct r as [[i f]|]; cbn.
  - destruct Hr as [-> He]. split; [|by intros j [->|Hj]%elem_of_cons; [left|right; apply Hsub]]. split.
    + cbn. constructor; [|done]. intros Hin. by apply Hni, Hsub.
    + intros j g [[= -> ->]|Hj]%elem_of_cons; [done|by apply Ha].
  - split; [done|]. intros j Hj. right. by apply Hsub.
Qed.

Lemma ok_fill_batch ids m fs : NoDup ids -> ok anything m fs (fill_batch alg ids).
Proof.
  intros Hnd. unfold fill_batch. eapply (ok_seq _ _ (fun m' fs' rs => Forall2 (fun id r => fetched alg id m' fs' r) ids rs)).
  - eapply okD_mono; [..|apply (ok_par_all alg (fun id m' fs' r => fetched alg id m' fs' r)); [done|apply fetched_stable|]].
    + done.
    + done.
    + intros id _. by apply ok_fetch_claimed.
  - intros m' fs' rs HF. apply ok_retire_batch. by eapply results_awaiting.
Qed.
Lemma chunks_NoDup n fuel : forall l : list Z, NoDup l -> forall c, c ∈ chunks_of fuel n l -> NoDup c.
Proof.
  induction fuel as [|fuel IH]; intros [|x l] Hnd c; cbn; try by intros ?%elem_of_nil.
  rewrite elem_of_cons. rewrite <- (take_drop n (x :: l)) in Hnd. apply NoDup_app in Hnd as (H1 & _ & H2).
  intros [->|Hc]; [done|by eapply IH].
Qed.

Lemma ok_fill_pending fuel : forall m fs, ok anything m fs (fill_pending alg fuel).
Proof.
  induction fuel as [|fuel IH]; intros m fs; cbn [fill_pending]; [by apply ok_ret|].
  apply ok_then; [done|]. intros ids m' fs'. cbn [lazy_upd]. destruct (decide (NoDup ids)) as [Hnd|]; [|done].
  intros [= <- <-]. destruct ids as [|id ids]; [by apply ok_ret|]. eapply ok_seq; [|intros; apply IH].
  apply ok_for_each. intros c m1 fs1 Hc. apply ok_fill_batch. by eapply chunks_NoDup.
Qed.

Lemma ok_fill_rounds fuel rounds : forall first m fs, ok anything m fs (fill_rounds alg fuel rounds first).
Proof.
  induction rounds as [|rounds IH]; intros first m fs; cbn [fill_rounds]; [by apply ok_ret|].
  assert (forall m fs, ok anything m fs (_ ← fill_pending alg fuel; fill_rounds alg fuel rounds false)) as Hrest.
  { intros m1 fs1. eapply ok_seq; [apply ok_fill_pending|]. intros. apply IH. }
  destruct first; [apply Hrest|]. apply ok_then; [done|]. intros n m1 fs1 _. destruct (n =? 0)%Z; [by apply ok_ret|].
  apply ok_quiet; [done|]. intros _. apply Hrest.
Qed.

(** *** Packs *)

Lemma ok_claim_path path m fs :
  ok (fun m' fs' r => fs ⊆ fs' /\ match r with
      | None => m' = m
      | Some (id, e) => m !! id = None /\ m' = <[id := CEntry e []]> m /\ FNamed path id ∈ fs'
      end) m fs (claim_path path).
Proof.
  unfold claim_path. apply ok_then; [done|]. intros [id|] m' fs' [= <- <-]; [|by apply ok_ret; split; [apply (stays_true _ [_])|]].
  apply ok_then; [done|]. intros [e|] m' fs'; cbn [lazy_upd].
  - destruct (m !! id) eqn:Em; [done|]. intros [= <- <-]. apply ok_ret. split; [apply (stays_true _ [_])|]. split; [done|].
    split; [done|by left].
  - intros [= <- <-]. apply ok_ret. by split; [apply (stays_true _ [_])|].
Qed.

Lemma ok_write_packed id e path b m0 m fs :
  looking id e m0 m [] -> FNamed path id ∈ fs -> FAnswer (APack path b) ∈ fs ->
  ok (fun m' fs' r => same_but id m0 m' /\ is_Some (m' !! id) /\
        match r with Ok (Some f) => ready alg id e m' fs' f | _ => True end) m fs (write_packed alg id e path b).
Proof.
  intros Hl Hn Ha. unfold write_packed. destruct (verify_downloaded _ _ _) as [[]|x] eqn:Ev.
  2: { apply ok_ret. destruct Hl as [Hs Hm]. by rewrite Hm. }
  eapply ok_try; [by apply ok_open_placeholder; [|exact Hl|right]|..].
  2: { intros m1 fs1 x (Hf & Hs & Hi). done. }
  intros m1 fs1 [f|] (Hf & Hs & Hr); [|apply ok_ret; destruct Hr as [_ Hr]; by rewrite Hr]. destruct Hr as (Ho & b0 & Hw).
  assert (forall m b0, writing id e f m0 m b0 -> same_but id m0 m /\ is_Some (m !! id)) as Hsome.
  { intros m2 b2 (Hs2 & _ & whole & ->). done. }
  eapply ok_try; [apply (ok_write_loop alg every id I e f m0 fs1 _ b b0 m1 0 Hw); unfold zlen; lia|..].
  2: { intros m2 fs2 x (-> & b2 & Hw2 & _). by destruct (Hsome _ _ Hw2). }
  intros m2 fs2 [] (-> & b2 & Hw2 & Hp). eapply ok_try; [eapply (ok_settle alg every id I e f m0 m2 fs1 b2 _ Hw2)|..].
  - exists b. split; [by apply Hp|]. split; [done|]. eapply accepted_pack; [by apply answered|by apply answered, Hf|exact Ev].
  - intros m3 fs3 [] (-> & Hs3 & Hi3 & Hr3). apply ok_ret. split; [done|]. split; [done|]. by apply Hr3.
  - intros m3 fs3 x (-> & Hs3 & Hi3 & _). done.
Qed.

Definition served (fs : list Fact) (files : list (string * bytes)) : Prop :=
  forall p b, (p, b) ∈ files -> FAnswer (APack p b) ∈ fs.

Lemma served_grow fs fs' files : fs ⊆ fs' -> served fs files -> served fs' files.
Proof. intros Hs Hf p b Hin. by apply Hs, Hf. Qed.

Lemma awaiting_snoc id e f m fs written :
  awaiting m fs written -> id ∉ written.*1 -> ready alg id e m fs f -> awaiting m fs (written ++ [(id, f)]).
Proof.
  intros [Hnd Hw] Hni Hr. split.
  - rewrite fmap_app. apply NoDup_app. split; [done|]. split; [|apply NoDup_singleton]. intros i Hi Hin.
    apply list_elem_of_singleton in Hin as ->. by apply Hni.
  - intros i g [Hin|Hin]%elem_of_app; [by apply Hw|]. apply list_elem_of_singleton in Hin as [= -> ->]. by exists e.
Qed.

Lemma awaiting_not m fs written id : awaiting m fs written -> m !! id = None -> id ∉ written.*1.
Proof.
  intros [_ Hr] Hm ([j f] & -> & Hin)%list_elem_of_fmap. destruct (Hr _ _ Hin) as [e He%ready_some]. cbn in Hm. rewrite Hm in He. by destruct He.
Qed.

Lemma ok_fill_pack files : forall written m fs,
  served fs files -> awaiting m fs written -> ok anything m fs (fill_pack alg files written).
Proof.
  induction files as [|[path b] files IH]; intros written m fs Hf Hw; cbn [fill_pack]; [by apply ok_retire_batch|].
  assert (served fs files) as Hf' by (intros p c Hin; apply Hf; by right).
  eapply ok_seq; [apply ok_claim_path|]. intros m1 fs1 [[id e]|] [Hs Hr].
  2: { subst m1. apply IH; [by eapply served_grow|]. destruct Hw as [Hnd Hw]. split; [done|]. intros i f Hin.
       destruct (Hw _ _ Hin) as (e & c & Hc & Ha). exists e, c. split; [done|]. eapply accepted_mono; [by apply answers_grow|done]. }
  destruct Hr as (Hm & -> & Hn). assert (id ∉ written.*1) as Hni by (by eapply awaiting_not).
  eapply ok_seq.
  { apply ok_grows. eapply (ok_write_packed id e path b m _ fs1); [split; [auto with lazy|apply lookup_insert_eq]|done|].
    apply Hs, Hf. by left. }
  intros m2 fs2 r [(Hs2 & Hi2 & Hr2) Hg2]. assert (fs ⊆ fs2) as Hg by (by etrans).
  assert (forall m' fs', same_but id m m' -> fs ⊆ fs' -> served fs' files /\ awaiting m' fs' written) as Hkeep.
  { intros m' fs' Hs' Hg'. split; [by eapply served_grow|]. by eapply awaiting_same. }
  eapply (ok_seq _ _ (fun m' fs' written' => served fs' files /\ awaiting m' fs' written')).
  - destruct r as [[f|]|x].
    + apply ok_ret. destruct (Hkeep m2 fs2) as [? ?]; [done..|]. split; [done|]. by eapply awaiting_snoc.
    + apply ok_then; [by split|]. intros [] m' fs' [= <- <-]. apply ok_ret. apply Hkeep; [auto with lazy|done].
    + eapply ok_seq; [by apply (ok_fill_failed alg every id I)|]. intros m3 fs3 _ [-> ->]. apply ok_ret. apply Hkeep; [auto with lazy|done].
  - intros m3 fs3 written' [Hf3 Hw3]. destruct (decide _).
    + eapply ok_seq; [apply ok_grows, ok_retire_batch, Hw3|]. intros m4 fs4 _ [_ Hg4]. apply IH; [by eapply served_grow|apply awaiting_nil].
    + by apply IH.
Qed.

Lemma ok_prefetch_all prefixes : forall m fs,
  ok (fun _ fs' answers => forall prefix files, (prefix, Ok files) ∈ answers -> served fs' files) m fs (prefetch_all prefixes).
Proof.
  induction prefixes as [|prefix prefixes IH]; intros m fs; cbn [prefetch_all]; [apply ok_ret; by intros ? ? ?%elem_of_nil|].
  apply ok_then; [done|]. intros r m1 fs1 [= <- <-]. eapply ok_seq; [apply ok_grows, IH|]. intros m2 fs2 answers [Ha Hg].
  apply ok_ret. intros p files [[= -> <-]|Hin]%elem_of_cons; [|by eapply Ha]. intros q b Hin. apply Hg, elem_of_app. left.
  apply list_elem_of_fmap. exists (APack q b). split; [done|]. cbn. apply list_elem_of_fmap. by exists (q, b).
Qed.

Lemma ok_fill_answers answers : forall next m fs,
  (forall prefix files, (prefix, Ok files) ∈ answers -> served fs files) -> ok anything m fs (fill_answers alg answers next).
Proof.
  induction answers as [|[prefix [files|x]] answers IH]; intros next m fs Ha; cbn [fill_answers]; [by apply ok_ret|..].
  - eapply ok_seq; [apply ok_grows, ok_fill_pack; [eapply Ha; by left|apply awaiting_nil]|]. intros m1 fs1 _ [_ Hg].
    assert (forall next, ok anything m1 fs1 (fill_answers alg answers next)) as Hn.
    { intros next'. apply IH. intros p fl Hin. eapply served_grow; [done|]. eapply Ha. by right. }
    destruct (_ <=? _)%Z; [|apply Hn]. apply ok_quiet; [done|]. intros below. apply Hn.
  - apply IH. intros p fl Hin. eapply Ha. by right.
Qed.

Lemma ok_fill_from_packs fuel : forall level m fs, ok anything m fs (fill_from_packs alg fuel level).
Proof.
  induction fuel as [|fuel IH]; intros [|p level] m fs; cbn [fill_from_packs]; try by apply ok_ret.
  apply ok_then; [done|]. intros n m1 fs1 _. destruct (0 <? n)%Z; [|by apply ok_ret].
  eapply ok_seq; [apply ok_prefetch_all|]. intros m2 fs2 answers Ha. eapply ok_seq; [by apply ok_fill_answers|].
  intros m3 fs3 next _. apply IH.
Qed.

Lemma ok_fill_all fuel m fs : ok anything m fs (fill_all alg fuel).
Proof.
  unfold fill_all. apply ok_then; [done|]. intros _ m1 fs1 _. eapply ok_seq; [apply ok_fill_from_packs|].
  intros m2 fs2 _ _. eapply ok_seq; [apply ok_fill_rounds|]. intros m3 fs3 _ _. apply ok_then; [done|].
  intros n m4 fs4. cbn [lazy_upd]. destruct (n =? 0)%Z; [|intros _; by apply ok_ret]. intros [= <- <-].
  apply ok_then; [|intros; by apply ok_ret]. split; [by intros _; left|done].
Qed.

(** A fetch that was handed to the runtime. *)
Lemma okD_plain {R} D Q g (p : Lazy R) : okD alg D Q g p -> prog_ok (lazy_pre alg false) lazy_upd Q g p.
Proof.
  revert g. induction p as [r|A e k IH]; intros g; [done|]. intros [Hp Hk]. split; [|intros a; by apply IH].
  destruct g as [g|]; [by apply Hp|done].
Qed.

Lemma ok_spawned_fetch m fs : prog_ok (lazy_pre alg false) lazy_upd (lift anything) (Some (m, fs)) (spawned_fetch alg).
Proof.
  split; [done|]. intros id. eapply okD_plain, (ok_fill_claimed alg every id I). apply lookup_insert_eq.
Qed.
End Batch.

(** ** The operations of the mount *)

Section Mount.
Context {H : HashCrates} (alg : VfsHashAlgorithm) (wakes : nat) (ro : bool).
Abbreviation ok := (ok alg every).

Lemma ok_ensure_ids n ids : forall requested m fs,
  ok (fun _ fs' r => r = Ok tt -> forall id, id ∈ ids -> FAway id ∈ fs') m fs (ensure_ids n ids requested).
Proof.
  induction n as [|n IH]; intros requested m fs; cbn [ensure_ids]; (apply ok_then; [done|]);
    intros [[| |] requested'] m' fs' [= <- <-]; try (by apply ok_ret); try apply IH;
    apply ok_ret; intros _ id Hid; apply elem_of_app; left; apply list_elem_of_fmap; by exists id.
Qed.

Lemma ok_ensure path m fs : ok (fun _ fs' r => r = Ok tt -> knows_safe fs' path) m fs (ensure wakes path).
Proof.
  unfold ensure. apply ok_then; [done|]. intros n m1 fs1. cbn [lazy_upd]. destruct (n =? 0)%Z; intros [= <- <-].
  { apply ok_ret. intros _. right. left. by left. }
  apply ok_then; [done|]. intros [id|] m2 fs2 [= <- <-].
  - eapply ok_mono; [|apply ok_grows, ok_ensure_ids]. intros m3 fs3 r [Ha Hg] Hr. right. right. exists id.
    split; [apply Hg; by left|]. apply Ha; [done|by left].
  - apply ok_ret. intros _. left. by left.
Qed.

Lemma ok_ensure_subtree prefix m fs :
  ok (fun _ fs' r => r = Ok tt -> knows_safe_tree fs' prefix) m fs (ensure_subtree wakes prefix).
Proof.
  unfold ensure_subtree. apply ok_then; [done|]. intros n m1 fs1. cbn [lazy_upd]. destruct (n =? 0)%Z; intros [= <- <-].
  { apply ok_ret. intros _. left. by left. }
  apply ok_then; [done|]. intros ids m2 fs2 [= <- <-]. destruct ids as [|id ids].
  - apply ok_ret. intros _. right. exists []. split; [by left|]. by intros ? ?%elem_of_nil.
  - eapply ok_mono; [|apply ok_grows, ok_ensure_ids]. intros m3 fs3 r [Ha Hg] Hr. right. exists (id :: ids).
    split; [apply Hg; by left|]. by apply Ha.
Qed.

Lemma ok_forget_path path m fs : knows_safe fs path -> ok anything m fs (forget_path path).
Proof.
  intros Hs. unfold forget_path. apply ok_then; [done|]. intros n m1 fs1 Hu. destruct (n =? 0)%Z; [by apply ok_ret|].
  apply ok_perform; [|done]. split; [|done]. eapply knows_safe_mono; [by eapply upd_grows|done].
Qed.

Lemma ok_with_keys {A} keys m fs (p : Lazy (LResult A)) : ok anything m fs p -> ok anything m fs (with_keys keys p).
Proof.
  intros Hp. apply ok_try_quiet; [done|intros _|done]. eapply ok_seq; [exact Hp|]. intros m1 fs1 r _.
  apply ok_quiet; [done|]. intros _. by apply ok_ret.
Qed.

(** Calls on the rest of the mount, and answers that are handed on. *)
Ltac rest :=
  repeat first
    [ by apply ok_ret
    | progress intros
    | apply ok_quiet_end; [done|done]
    | apply ok_try_quiet; [done| |done]
    | apply ok_try_pure; [|done] ].

Lemma ok_writable m fs : ok (fun _ fs' r => fs ⊆ fs') m fs (writable_wal ro).
Proof. unfold writable_wal. destruct ro; [by apply ok_ret|by apply ok_quiet_end]. Qed.

Lemma ok_after_writable {A} m fs (k : unit -> Lazy (LResult A)) :
  (forall fs', fs ⊆ fs' -> forall m', ok anything m' fs' (k tt)) -> ok anything m fs (try_bind (writable_wal ro) k).
Proof. intros Hk. eapply ok_try; [apply ok_writable|intros m' fs' [] Hf; by apply Hk|done]. Qed.

Definition removed (mu : MountMutation) (fs : list Fact) : Prop :=
  match mu with RemoveFile p _ | Rename _ p _ => FSafe p ∈ fs | _ => True end.

Lemma ok_commit mu m fs :
  mutation_pre false fs mu ->
  ok (fun _ fs' r => r = Ok tt -> removed mu fs') m fs (commit_mutation mu).
Proof.
  intros Hp. unfold commit_mutation. apply ok_try_quiet; [done|intros _|done]. apply ok_try_quiet; [done|intros _|done].
  apply ok_then; [split; [by destruct mu|done]|]. intros [[]|x] m' fs' Hu.
  - apply ok_quiet_end; [done|]. intros r _. destruct mu; try done; cbn in Hu; injection Hu as <- <-; by left.
  - apply ok_try_quiet; [done|intros _|done]. by apply ok_ret.
Qed.

(** An operation of the namespace: a mutation under its keys, then [rest]. *)
Lemma ok_mutation {A} mu m fs (k : unit -> Lazy (LResult A)) :
  mutation_pre false fs mu -> (forall m' fs', removed mu fs' -> ok anything m' fs' (k tt)) ->
  ok anything m fs (_ ←? Ret (validated mu); with_keys (dependency_keys mu) (try_bind (commit_mutation mu) k)).
Proof.
  intros Hp Hk. apply ok_try_pure; [intros _ _|done]. apply ok_with_keys. eapply ok_try; [by apply ok_commit|..|done].
  intros m' fs' [] Hr. by apply Hk, Hr.
Qed.

(** The waiting of an operation, then the rest with what it learned. *)
Lemma ok_after_ensure {A} path m fs (k : unit -> Lazy (LResult A)) :
  (forall m' fs', fs ⊆ fs' -> knows_safe fs' path -> ok anything m' fs' (k tt)) -> ok anything m fs (try_bind (ensure wakes path) k).
Proof.
  intros Hk. eapply ok_try; [apply ok_grows, ok_ensure|intros m' fs' [] [Hs Hf]; by apply Hk, Hs|done].
Qed.

Lemma ok_create_directory path mode m fs : ok anything m fs (create_directory ro path mode).
Proof. apply ok_after_writable. intros fs' _ m'. apply ok_mutation; [done|]. rest. Qed.

Lemma ok_create_hard_link existing new m fs : ok anything m fs (create_hard_link wakes ro existing new).
Proof.
  apply ok_after_writable. intros fs' _ m'. apply ok_after_ensure. intros m2 fs2 _ Hs. apply ok_mutation; [done|]. rest.
Qed.

Lemma ok_rename old new flags m fs : ok anything m fs (rename wakes ro old new flags).
Proof.
  apply ok_after_writable. intros fs' _ m'. destruct (negb _); [by apply ok_ret|].
  eapply ok_try; [apply ok_ensure_subtree| |done]. intros m2 fs2 [] Hs. apply ok_mutation; [by apply Hs|].
  intros m3 fs3 Hr. eapply ok_seq; [apply ok_forget_path; by left|]. rest.
Qed.

Lemma ok_remove_file path m fs : ok anything m fs (remove_file ro path).
Proof.
  apply ok_after_writable. intros fs' _ m'. apply ok_try_quiet; [done| |done]. intros dirty.
  eapply (ok_try _ _ anything); [destruct dirty; [by apply ok_quiet_end|by apply ok_ret]| |done].
  intros m1 fs1 [] _. apply ok_mutation; [done|]. intros m2 fs2 Hr. eapply ok_seq; [apply ok_forget_path; by left|].
  intros m3 fs3 _ _. apply ok_try_quiet; [done| |done]. intros again.
  eapply (ok_try _ _ anything); [destruct again; [by apply ok_quiet_end|by apply ok_ret]| |done]. rest.
Qed.

Lemma ok_remove_directory path m fs : ok anything m fs (remove_directory ro path).
Proof. apply ok_after_writable. intros fs' _ m'. apply ok_mutation; [done|]. rest. Qed.

Lemma ok_set_attribute mu m fs : mutation_pre false fs mu -> ok anything m fs (set_attribute ro mu).
Proof.
  intros Hp. apply ok_after_writable. intros fs' Hs m'. apply ok_mutation; [|rest].
  destruct mu; cbn in *; try done; [by eapply knows_safe_mono|by eapply knows_safe_tree_mono].
Qed.

Lemma ok_set_times path atime mtime m fs : ok anything m fs (set_times wakes ro path atime mtime).
Proof.
  apply ok_after_writable. intros fs' _ m'. apply ok_after_ensure. intros m2 fs2 _ Hs. apply ok_mutation; [done|]. rest.
Qed.

Lemma ok_create_file path mode m fs : ok anything m fs (create_file wakes ro path mode).
Proof.
  apply ok_after_writable. intros fs' _ m'. apply ok_after_ensure. intros m2 fs2 _ _. apply ok_try_pure; [intros _ _|done].
  apply ok_with_keys. apply ok_try_quiet; [done|intros _|done]. apply ok_try_quiet; [done|intros _|done].
  apply ok_then; [done|]. intros [f|x] m3 fs3 _; rest.
Qed.

(** *** Content *)

Lemma guest_unclaimed f (m : gmap Z Claim) : mf_opener f = ByGuest -> claimed m f = None.
Proof. unfold claimed. by intros ->. Qed.

(** Every operation may ask for the size of a file a guest has open. *)
Lemma ok_guest_size {A} f m fs (k : Z -> Lazy (LResult A)) :
  mf_opener f = ByGuest -> (forall n, ok anything m fs (k n)) -> ok anything m fs (try_bind (perform (BkSize f)) k).
Proof.
  intros Ho Hk. apply ok_try_then; [|intros n m' fs'|done].
  - split; [cbn; by rewrite guest_unclaimed|]. split; [done|]. intros id. cbn. by rewrite Ho.
  - cbn. unfold move_claim. rewrite guest_unclaimed by done. intros [= <- <-]. apply Hk.
Qed.

(** What a guest may do to the content of an open file. *)
Definition guest_change {A} (f : MountFile) (e : LazyE A) : Prop :=
  match e with BkWrite g _ _ | BkTruncate g _ | BkAllocate g _ _ | BkCopy g _ _ _ _ => g = f | _ => False end.

Lemma ok_guest_change {A} f m fs (e : LazyE A) :
  mf_opener f = ByGuest -> FGuest f ∈ fs -> guest_change f e -> ok (fun m' fs' _ => m' = m /\ fs' = fs) m fs (perform e).
Proof.
  intros Ho Hf He. apply ok_perform.
  - destruct e; try done; cbn in He; subst f0; (split; [cbn; try done; by left|split; [done|cbn; rewrite ?Ho; done]]).
  - intros a m' fs'. destruct e; try done; cbn in He; subst f0; cbn; unfold move_claim; rewrite ?guest_unclaimed by done; by intros [= <- <-].
Qed.

Lemma ok_content_change {A} path f m fs (e : LazyE (LResult A)) :
  mf_opener f = ByGuest -> FGuest f ∈ fs -> guest_change f e -> ok anything m fs (content_change ro path f (perform e)).
Proof.
  intros Ho Hf He. apply ok_after_writable. intros fs' Hs m'. apply ok_try_quiet; [done|intros _|done].
  apply ok_with_keys. apply ok_try_quiet; [done|intros _|done]. apply ok_try_quiet; [done|intros _|done].
  eapply ok_mono; [|apply (ok_guest_change f); [done|by apply Hs|done]]. done.
Qed.

Lemma ok_truncate_with path f size m fs :
  mf_opener f = ByGuest -> FGuest f ∈ fs -> ok anything m fs (truncate_with path f size).
Proof.
  intros Ho Hf. apply ok_with_keys. apply ok_guest_size; [done|]. intros _.
  apply ok_try_quiet; [done|intros _|done]. apply ok_try_quiet; [done|intros _|done].
  eapply ok_try; [by apply (ok_guest_change f)| |done]. intros m' fs' [] [-> ->].
  apply ok_perform; [|done]. split; [cbn; by rewrite guest_unclaimed|]. split; [done|]. intros id. cbn. by rewrite Ho.
Qed.

Lemma ok_truncate path f size m fs : mf_opener f = ByGuest -> FGuest f ∈ fs -> ok anything m fs (truncate ro path f size).
Proof.
  intros Ho Hf. apply ok_after_writable. intros fs' Hs m'. apply ok_try_quiet; [done|intros _|done].
  apply ok_truncate_with; [done|by apply Hs].
Qed.

(** Opening a name that is known not to be a placeholder. *)
Lemma ok_guest_open {A} path m fs (k : MountFile -> Lazy (LResult A)) :
  knows_safe fs path -> (forall f, mf_opener f = ByGuest -> ok anything m (FGuest f :: fs) (k f)) ->
  ok anything m fs (try_bind (perform (BkOpen ByGuest path)) k).
Proof.
  intros Hs Hk. apply ok_try_then; [by split|intros f m' fs'|done]. cbn [lazy_upd].
  destruct (decide _); [|done]. intros [= <- <-]. by apply Hk.
Qed.

Lemma ok_truncate_path path size m fs : ok anything m fs (truncate_path wakes ro path size).
Proof.
  apply ok_after_writable. intros fs' _ m'. apply ok_try_quiet; [done|intros _|done]. apply ok_after_ensure.
  intros m2 fs2 _ Hs. apply ok_guest_open; [done|]. intros f Ho. apply ok_truncate_with; [done|by left].
Qed.

Lemma ok_open_file path w t m fs : ok anything m fs (open_file wakes ro path w t).
Proof.
  unfold open_file. destruct (ro && (w || t)); [by apply ok_ret|]. apply ok_after_ensure. intros m1 fs1 _ Hs.
  apply ok_guest_open; [done|]. intros f Ho. eapply (ok_try _ _ anything); [| |done].
  - destruct t; [|by apply ok_ret]. apply ok_after_writable. intros fs' Hf m'. apply ok_try_quiet; [done|intros _|done].
    apply ok_with_keys. apply ok_try_quiet; [done|intros _|done]. apply ok_try_quiet; [done|intros _|done].
    eapply ok_mono; [|apply (ok_guest_change f); [done|apply Hf; by left|done]]. done.
  - intros m2 fs2 [] _. apply ok_guest_size; [done|]. intros n. by apply ok_ret.
Qed.
End Mount.
