(* ===== verification/LazySafety.v ===== *)
(** * A placeholder is never seen

    Every program asks only for what it knows, and a restart finds every placeholder
    again. So a file a guest has open is never a placeholder: its content is what the
    gateway served for it, changed by what guests did since and by nothing else. *)

From S2P Require Import Prelude ContentHash MountTypes Effects PayloadStore LazyTable LazyFill LazySystem LazyInvariant LazyRules LazyTasks LazyPrograms.
From Stdlib Require Import ZArith Lia.

(** ** Starting again *)

Lemma elem_of_names_of names path i : path ∈ names_of names i <-> names !! path = Some (NFile i).
Proof.
  unfold names_of. rewrite list_elem_of_omap. split.
  - intros ([p n] & Hin%elem_of_map_to_list & Hp). destruct n as [j| |]; try done. case_decide; by simplify_eq.
  - intros Hn. exists (path, NFile i). split; [by apply elem_of_map_to_list|]. by rewrite decide_True.
Qed.

Lemma register_fresh ms p t :
  (forall m, m ∈ ms -> lz_by_path t !! m = None) ->
  let t' := register ms p t in
  lz_entries t' = <[lz_next_id t := MkLazyEntry (MkPending ms p) Pending]> (lz_entries t) /\
  lz_next_id t' = (lz_next_id t + 1)%Z /\
  forall q i, lz_by_path t' !! q = Some i <-> (q ∈ ms /\ i = lz_next_id t) \/ (q ∉ ms /\ lz_by_path t !! q = Some i).
Proof.
  intros Hf. assert (foldl (fun t m => forget_name m t) t ms = t) as Heq.
  { induction ms as [|m ms IH]; [done|]. cbn. unfold forget_name at 2, detach. rewrite Hf by (by left). apply IH.
    intros q Hq. apply Hf. by right. }
  cbn zeta. unfold register. rewrite Heq. cbn. split; [done|]. split; [done|]. intros q i. by rewrite register_lookup.
Qed.

Section Resume.
Context (names : gmap string Node).

(** What registering the inodes of [l] makes of the table; [o] is the entry of each. *)
Record resumed (l : list (nat * LazyInode)) (t : LazyContent) (o : gmap nat Z) : Prop := {
  rs_table : table_ok t;
  rs_next : (0 <= lz_next_id t)%Z;
  rs_ids : forall i z, o !! i = Some z -> (0 <= z < lz_next_id t)%Z /\ i ∈ l.*1;
  rs_one : forall i j z, o !! i = Some z -> o !! j = Some z -> i = j;
  rs_all : forall i n e, (i, n) ∈ l -> scan_one names i n = Some e -> exists z e', o !! i = Some z /\
    lz_entries t !! z = Some e' /\ le_pending e' = e /\ forall p, p ∈ members e -> lz_by_path t !! p = Some z;
  rs_names : forall p z, lz_by_path t !! p = Some z -> exists i, names !! p = Some (NFile i) /\ i ∈ l.*1;
}.

Lemma scan_one_members i n e : scan_one names i n = Some e -> members e = names_of names i /\ in_mark n = Some (placeholder e) /\ members e ≠ [].
Proof. unfold scan_one. destruct (in_mark n), (names_of names i) eqn:En; try done. by intros [= <-]. Qed.

Lemma resumed_skip l t o i n :
  resumed l t o -> scan_one names i n = None -> i ∉ l.*1 -> resumed (l ++ [(i, n)]) t o.
Proof.
  intros [H1 H2 H3 H4 H5 H6] Hn Hi. split; try done.
  - intros j z Hj. destruct (H3 _ _ Hj). rewrite fmap_app, elem_of_app. auto.
  - intros j m e [Hin|Hin]%elem_of_app He; [by eapply H5|]. apply list_elem_of_singleton in Hin as [= -> ->]. congruence.
  - intros p z Hp. destruct (H6 _ _ Hp) as (j & Hj & Hl). exists j. rewrite fmap_app, elem_of_app. auto.
Qed.

Lemma resumed_add l t o i n e :
  resumed l t o -> scan_one names i n = Some e -> i ∉ l.*1 ->
  resumed (l ++ [(i, n)]) (register (members e) (placeholder e) t) (<[i := lz_next_id t]> o).
Proof.
  intros [H1 H2 H3 H4 H5 H6] He Hi. destruct (scan_one_members _ _ _ He) as (Hm & Hmark & Hne).
  assert (forall m, m ∈ members e -> lz_by_path t !! m = None) as Hfresh.
  { intros m Hin. rewrite Hm, elem_of_names_of in Hin. destruct (lz_by_path t !! m) as [z|] eqn:Ez; [|done].
    destruct (H6 _ _ Ez) as (j & Hj & Hl). congruence. }
  destruct (register_fresh (members e) (placeholder e) t Hfresh) as (Hent & Hnext & Hpath). split.
  - by apply register_ok.
  - lia.
  - intros j z. rewrite Hnext, fmap_app, elem_of_app, lookup_insert_Some. intros [[<- <-]|[_ Hj]].
    + split; [lia|]. right. by left.
    + destruct (H3 _ _ Hj). split; [lia|]. by left.
  - intros j k z. rewrite !lookup_insert_Some. intros [[<- <-]|[Hj1 Hj]] [[<- Hz]|[Hk1 Hk]]; [done|..].
    + destruct (H3 _ _ Hk). lia.
    + subst z. destruct (H3 _ _ Hj). lia.
    + by eapply H4.
  - intros j m e' [Hin|Hin]%elem_of_app He'.
    + destruct (H5 _ _ _ Hin He') as (z & e1 & Hz & Hez & Hep & Hall). exists z, e1. destruct (H3 _ _ Hz) as [Hlt Hl].
      split; [rewrite lookup_insert_ne; [done|congruence]|]. split; [rewrite Hent, lookup_insert_ne; [done|lia]|].
      split; [done|]. intros p Hp. apply Hpath. right. split; [|by apply Hall]. intros Hp'.
      destruct (scan_one_members _ _ _ He') as (Hm' & _ & _). rewrite Hm', elem_of_names_of in Hp. rewrite Hm, elem_of_names_of in Hp'.
      congruence.
    + apply list_elem_of_singleton in Hin as [= -> ->]. rewrite He in He'. injection He' as <-. exists (lz_next_id t).
      eexists. split; [apply lookup_insert_eq|]. split; [rewrite Hent; apply lookup_insert_eq|]. split; [by destruct e|].
      intros p Hp. apply Hpath. by left.
  - intros p z [[Hp ->]|[Hp Hz]]%Hpath.
    + exists i. rewrite Hm, elem_of_names_of in Hp. split; [done|]. rewrite fmap_app, elem_of_app. right. by left.
    + destruct (H6 _ _ Hz) as (j & Hj & Hl). exists j. rewrite fmap_app, elem_of_app. auto.
Qed.

Lemma resumed_all l : forall seen t o,
  NoDup (seen ++ l).*1 -> resumed seen t o ->
  exists o', resumed (seen ++ l)
    (foldl (fun t e => register (members e) (placeholder e) t) t (omap (fun '(ino, n) => scan_one names ino n) l)) o'.
Proof.
  induction l as [|[i n] l IH]; intros seen t o Hnd Hr; [exists o; by rewrite app_nil_r|].
  replace (seen ++ (i, n) :: l) with ((seen ++ [(i, n)]) ++ l) in * by (by rewrite <- app_assoc).
  assert (i ∉ seen.*1) as Hi.
  { rewrite !fmap_app in Hnd. apply NoDup_app in Hnd as (Hnd & _). apply NoDup_app in Hnd as (_ & Hd & _).
    intros Hin. apply (Hd _ Hin). by left. }
  cbn. destruct (scan_one names i n) as [e|] eqn:Ee; cbn.
  - eapply IH; [done|]. by apply resumed_add.
  - eapply IH; [done|]. by apply resumed_skip.
Qed.

Lemma resumed_scan inodes : exists o, resumed (map_to_list inodes)
  (foldl (fun t e => register (members e) (placeholder e) t) lazy_new (scan_placeholders names inodes)) o.
Proof.
  apply (resumed_all _ [] lazy_new ∅); [apply NoDup_fst_map_to_list|]. split.
  - apply table_ok_new.
  - done.
  - intros i z Hi. by rewrite lookup_empty in Hi.
  - intros i j z Hi. by rewrite lookup_empty in Hi.
  - intros i n e Hin. by apply elem_of_nil in Hin.
  - intros p z Hp. cbn [lz_by_path lazy_new] in Hp. by rewrite lookup_empty in Hp.
Qed.
End Resume.

(** ** The system *)

Section Safety.
Context {H : HashCrates} {L : HashLaws H} (alg : VfsHashAlgorithm).

Abbreviation Inv := (lazy_inv alg false).

(** What of a world outlives the process. *)
Record durable_ok (w : LazyWorld) : Prop := {
  du_names : forall path i, lw_names w !! path = Some (NFile i) -> is_Some (lw_inodes w !! i);
  du_links : forall path target, lw_names w !! path ≠ Some (NLink target);
  du_root : lw_root w = false -> forall path, safe w path;
  du_origin : forall i n p, lw_inodes w !! i = Some n -> in_mark n = Some p -> in_origin n = Some p;
  du_content : forall i n, lw_inodes w !! i = Some n -> in_mark n = None ->
    in_data n = foldl apply_edit (in_base n) (in_edits n) /\
    forall p, in_origin n = Some p -> accepted alg (lw_log w) i p (in_base n);
}.

Lemma durable w owner : lazy_world_ok alg false owner w -> durable_ok w.
Proof. intros []. split; eauto. Qed.

(** A restart finds every placeholder again. *)
Lemma restart_ok w : durable_ok w -> exists owner, lazy_world_ok alg false owner (restart w).
Proof.
  intros [H1 H2 H3 H4 H5]. unfold restart, resume_placeholders. cbn [lw_root lw_names lw_inodes lw_table]. destruct (lw_root w) eqn:Eroot.
  2: { exists (fun i => Z.of_nat i). split; cbn; try done.
       - apply table_ok_new.
       - intros path i p Hn Hm. by destruct (H3 eq_refl path i p Hn).
       - intros i j p q _ _. lia.
       - split; [constructor|]. by intros id ?%elem_of_nil. }
  destruct (resumed_scan (lw_names w) (lw_inodes w)) as [o [R1 R2 R3 R4 R5 R6]].
  set (entries := scan_placeholders _ _) in *. set (t := foldl _ lazy_new entries) in *.
  set (w1 := MkLW lazy_new (lw_names w) (lw_inodes w) true true [] ∅ (lw_log w)).
  exists (fun i => default (- (1 + Z.of_nat i))%Z (o !! i)).
  assert (forall path i p, lw_names w !! path = Some (NFile i) -> marked w i p ->
    exists n e, lw_inodes w !! i = Some n /\ scan_one (lw_names w) i n = Some e /\ path ∈ members e /\ placeholder e = p) as Hscan.
  { intros path i p Hn (n & Hi & Hm). apply elem_of_names_of in Hn. destruct (scan_one (lw_names w) i n) as [e|] eqn:Ee.
    - exists n, e. destruct (scan_one_members _ _ _ _ Ee) as (Hme & Hmk & _). rewrite Hme. split; [done|]. split; [done|].
      split; [done|]. congruence.
    - unfold scan_one in Ee. rewrite Hm in Ee. destruct (names_of _ i); [by apply elem_of_nil in Hn|done]. }
  assert (forall b, (b = false -> entries = []) -> lazy_world_ok alg false (fun i => default (- (1 + Z.of_nat i))%Z (o !! i))
    (set_root b (set_table t w1))) as Hall.
  { intros b Hb. split; cbn; try done.
    - intros path i p Hn Hm. destruct (Hscan path i p Hn Hm) as (n & e & Hi & He & Hin & <-).
      destruct (R5 i n e) as (z & e' & Hz & Hez & Hep & Hp); [by apply elem_of_map_to_list|done|]. rewrite Hz. cbn. split; [by apply Hp|].
      exists e'. by rewrite Hep.
    - intros i j p q _ _. destruct (o !! i) as [x|] eqn:Ei, (o !! j) as [y|] eqn:Ej; cbn; intros Heq; subst.
      + by eapply R4.
      + destruct (R3 _ _ Ei). lia.
      + destruct (R3 _ _ Ej). lia.
      + lia.
    - intros -> path i p Hn Hm. destruct (Hscan path i p Hn Hm) as (n & e & Hi & He & _).
      assert (e ∈ entries) as Hin.
      { unfold entries, scan_placeholders. apply list_elem_of_omap. exists (i, n). split; [by apply elem_of_map_to_list|done]. }
      rewrite Hb in Hin by done. by apply elem_of_nil in Hin.
    - split; [constructor|]. by intros id ?%elem_of_nil. }
  clearbody entries t. destruct entries; [by apply Hall|by apply (Hall true)].
Qed.

Lemma lazy_inv_start owner w : lazy_world_ok alg false owner w -> Inv w ∅.
Proof. intros Hw. exists owner. split; [done|]. split; [intros i u g|intros i j u u' m m' fs fs' id _]; by rewrite lookup_empty. Qed.

Lemma lazy_inv_new w γ i u fs : Inv w γ -> γ !! i = None -> (forall f, f ∈ fs -> fact_ok w f) -> Inv w (<[i := (u, Some (∅, fs))]> γ).
Proof.
  intros (owner & Hw & Hg & Hd) Hi Hf. exists owner. split; [done|]. split.
  - intros j uj g [[<- [= <- <-]]|[_ Hj]]%lookup_insert_Some; [|by eapply Hg].
    exists ∅, fs. split; [done|]. split; [|done]. intros id c. by rewrite lookup_empty.
  - intros j k uj uk mj mk fsj fsk id Hne. rewrite !lookup_insert_Some.
    intros [[<- [= <- <- <-]]|[_ Hj]] [[<- [= <- <- <-]]|[_ Hk]]; try done; try (by rewrite lookup_empty; intros [? ?]).
    by eapply Hd.
Qed.

Lemma shutdown_ok b w γ : Inv w γ -> Inv (set_alive b w) γ.
Proof.
  intros (owner & [] & Hg & Hd). exists owner. split; [by split|]. split; [|done].
  intros i u g Hi. destruct (Hg _ _ _ Hi) as (m & fs & -> & Hc & Hf). exists m, fs. split; [done|]. split.
  - intros id c Hid. destruct (Hc _ _ Hid) as (? & ? & Hok). split; [done|]. split; [done|]. by destruct c.
  - intros f Hin. specialize (Hf _ Hin). by destruct f.
Qed.

Definition task_ok (g : Ghost) (p : Lazy unit) : Prop := prog_ok (lazy_pre alg false) lazy_upd (lift anything) g p.

Lemma task_forget {A} m fs (p : Lazy A) : ok alg every anything m fs p -> task_ok (Some (m, fs)) (LazySystem.forget p).
Proof. intros Hp. eapply okD_plain, ok_seq; [exact Hp|]. intros. by apply ok_ret. Qed.

Lemma ok_write ro path f b offset m fs :
  mf_opener f = ByGuest -> FGuest f ∈ fs -> ok alg every anything m fs (write ro path f b offset).
Proof. intros Ho Hf. by apply ok_content_change. Qed.
Lemma ok_allocate ro path f offset length m fs :
  mf_opener f = ByGuest -> FGuest f ∈ fs -> ok alg every anything m fs (allocate ro path f offset length).
Proof. intros Ho Hf. by apply ok_content_change. Qed.
Lemma ok_copy_range ro path f source source_offset offset length m fs :
  mf_opener f = ByGuest -> FGuest f ∈ fs ->
  ok alg every anything m fs (copy_range ro path f source source_offset offset length).
Proof. intros Ho Hf. by apply ok_content_change. Qed.
Lemma ok_read f offset want m fs : ok alg every anything m fs (read f offset want).
Proof. by apply ok_quiet_end. Qed.

Definition startable (w : LazyWorld) (p : Lazy unit) : Prop :=
  exists fs, (forall f, f ∈ fs -> fact_ok w f) /\ task_ok (Some (∅, fs)) p.

Lemma starts_knowing_nothing {A} w (p : Lazy A) : ok alg every anything ∅ [] p -> startable w (LazySystem.forget p).
Proof. intros Hp. exists []. split; [by intros f ?%elem_of_nil|by apply task_forget]. Qed.

Lemma starts_with_file {A} w f (p : Lazy A) :
  guest_file f w -> (mf_opener f = ByGuest -> FGuest f ∈ [FGuest f] -> ok alg every anything ∅ [FGuest f] p) ->
  startable w (LazySystem.forget p).
Proof.
  intros Hf Hp. exists [FGuest f]. split; [by intros g ->%list_elem_of_singleton|]. apply task_forget, Hp; [by destruct Hf|by left].
Qed.

(** Every program a task may run asks only for what it knows. *)
Lemma lazy_starts_ok p w : lazy_starts alg false tt p w -> startable w p.
Proof.
  destruct 1; try done.
  - exists []. split; [by intros f ?%elem_of_nil|]. apply ok_spawned_fetch.
  - exists []. split; [by intros f ?%elem_of_nil|]. eapply okD_plain, ok_fill_all.
  - apply starts_knowing_nothing, ok_open_file.
  - apply starts_knowing_nothing, ok_create_file.
  - apply starts_knowing_nothing, ok_create_directory.
  - apply starts_knowing_nothing, ok_create_hard_link.
  - apply starts_knowing_nothing, ok_rename.
  - apply starts_knowing_nothing, ok_remove_file.
  - apply starts_knowing_nothing, ok_remove_directory.
  - by apply starts_knowing_nothing, ok_set_attribute.
  - by apply starts_knowing_nothing, ok_set_attribute.
  - apply starts_knowing_nothing, ok_set_times.
  - apply starts_knowing_nothing, ok_truncate_path.
  - eapply starts_with_file; [done|]. intros. by apply ok_write.
  - eapply starts_with_file; [done|]. intros. by apply ok_allocate.
  - eapply (starts_with_file _ f); [done|]. intros. by apply ok_copy_range.
  - eapply starts_with_file; [done|]. intros. by apply ok_truncate.
  - apply starts_knowing_nothing, ok_read.
Qed.

Lemma init_durable names inodes root log :
  (root = false -> forall p i n, names !! p = Some (NFile i) -> inodes !! i = Some n -> in_mark n = None) ->
  let w := restart (MkLW lazy_new names inodes root true [] ∅ log) in
  lazy_init false w -> durable_ok (MkLW lazy_new names inodes root true [] ∅ log).
Proof.
  intros Hroot w [_ H1 H2 H3 H4].
  assert (lw_names w = names /\ lw_inodes w = inodes) as [En Ei].
  { unfold w, restart, resume_placeholders. cbn. destruct root; [|done]. by destruct (scan_placeholders names inodes). }
  rewrite En, Ei in *. split; cbn; try done.
  - intros path target. by apply H2.
  - intros Er p i q Hn (n & Hi & Hm). cbn in *. by rewrite (Hroot Er p i n Hn Hi) in Hm.
  - intros i n Hi Hm. destruct (H4 i n Hi Hm) as (Ho & -> & ->). split; [done|]. intros p. by rewrite Ho.
Qed.

Lemma lazy_rules : InvariantRules lazy_handle (lazy_starts alg false) lazy_env (fun _ => restart)
  (lazy_pre alg false) lazy_upd (lift anything) Inv (lazy_init false).
Proof.
  split.
  - intros w Hw. pose proof Hw as [(names & inodes & root & log & -> & Hroot) _ _ _ _].
    destruct (restart_ok _ (init_durable _ _ _ _ Hroot Hw)) as [owner Ho]. by eapply lazy_inv_start.
  - intros w γ i [] g A e c a w' HI Hi Hp Hh. by eapply lazy_task.
  - intros w γ i [] p HI Hi Hs. destruct (lazy_starts_ok _ _ Hs) as (fs & Hf & Hok). exists (Some (∅, fs)). split; [exact Hok|].
    by apply lazy_inv_new.
  - intros w γ w' HI Henv. destruct Henv. by apply shutdown_ok.
  - intros w γ [] (owner & Hw & _). destruct (restart_ok w) as [owner' Hw']; [by eapply durable|].
    rewrite filter_unit. by eapply lazy_inv_start.
Qed.

(** ** Properties *)

(** The inode [i] shows a guest what the gateway served for it, as guests changed it. *)
Definition shows_content (w : LazyWorld) (i : nat) : Prop :=
  exists n, lw_inodes w !! i = Some n /\ in_mark n = None /\
    in_data n = foldl apply_edit (in_base n) (in_edits n) /\
    forall p, in_origin n = Some p -> accepted alg (lw_log w) i p (in_base n).

(** C10: In a tree without symbolic links (an open through one is refuted by
    [open_through_a_link_shows_zeros]), and while the follower of a read-only mount deletes
    nothing: whatever opens, writes, renames, hard links, fills on demand, background fills
    and restarts interleave, and whatever fails, a file a guest has open is never a
    placeholder. Its content is what the gateway served, when the mark was dropped, for a
    name by which a fill opened that very file (a whole read, a pack member or consecutive
    ranges; a pack member verifies against the listing, ranges against what the gateway
    said of the file then), changed by the guests' writes and truncations since and by
    nothing else, no fill among them. *)
Theorem opened_file_is_never_a_placeholder s i :
  lazy_reachable alg false s -> i ∈ lw_guest (world s) -> shows_content (world s) i.
Proof.
  intros Hr Hi. destruct (system_invariant _ _ _ _ _ _ _ _ _ _ lazy_rules Hr) as (γ & (owner & Hw & _) & _).
  destruct (lwo_guest _ _ _ _ Hw i Hi) as [[n Hn] Hun]. exists n.
  assert (in_mark n = None) as Hm.
  { destruct (in_mark n) as [p|] eqn:Em; [|done]. destruct (Hun p). by exists n. }
  destruct (lwo_content _ _ _ _ Hw i n Hn Hm). done.
Qed.

(** The name is known to lead to content that is pending, and a restart would look for it. *)
Definition tracked (w : LazyWorld) (path : string) (p : Placeholder) : Prop :=
  lw_root w = true /\
  exists id e, lz_by_path (lw_table w) !! path = Some id /\ lz_entries (lw_table w) !! id = Some e /\
    placeholder (le_pending e) = p /\ path ∈ members (le_pending e).

(** C11: In a tree without symbolic links, and while the follower of a read-only mount
    deletes nothing (its delete forgets a name before it removes it,
    [remote_delete_shows_zeros]): every name that leads to a placeholder is in the table of
    pending content, under an entry with the placeholder's listing that has the name as a
    member, and the root of the backing tree is marked as long as there is such a name, so
    a restart, which looks for placeholders only below a marked root, finds them all. The
    entry is the one of the name's inode: names of one placeholder are under the same
    entry, names of different placeholders never are. *)
Theorem placeholders_stay_tracked s path i p :
  lazy_reachable alg false s ->
  lw_names (world s) !! path = Some (NFile i) -> marked (world s) i p ->
  tracked (world s) path p /\
  forall path' j q, lw_names (world s) !! path' = Some (NFile j) -> marked (world s) j q ->
    (lz_by_path (lw_table (world s)) !! path = lz_by_path (lw_table (world s)) !! path' <-> i = j).
Proof.
  intros Hr Hp Hm. destruct (system_invariant _ _ _ _ _ _ _ _ _ _ lazy_rules Hr) as (γ & (owner & Hw & _) & _).
  destruct (lwo_tracked _ _ _ _ Hw path i p Hp Hm) as (Hn & e & He & Hpl). unfold named in Hn. split; [split|].
  - destruct (lw_root (world s)) eqn:Er; [done|]. by destruct (lwo_root _ _ _ _ Hw Er path i p Hp).
  - exists (owner i), e. split; [done|]. split; [done|]. split; [done|].
    apply (to_path _ (lwo_table _ _ _ _ Hw)) in Hn as (e' & He' & Hin). by simplify_eq.
  - intros path' j q Hp' Hm'. destruct (lwo_tracked _ _ _ _ Hw path' j q Hp' Hm') as (Hn' & _). unfold named in Hn'.
    rewrite Hn, Hn'. split; [|by intros ->]. intros [= Ho]. by eapply (lwo_owner _ _ _ _ Hw).
Qed.
End Safety.
