(* ===== verification/LazyScenarios.v ===== *)
(** * Runs of a mount with placeholders

    Concrete interleavings: that the theorems of [LazySafety.v] apply, and what happens
    where a name is a symbolic link, or the follower of a read-only mount deletes. *)

From S2P Require Import Prelude ContentHash MountTypes Effects PayloadStore LazyTable LazyFill LazySystem LazyInvariant LazySafety.
From Stdlib Require Import ZArith Lia.

(** ** Scripts *)

(** What may start. *)
Inductive LazyJob :=
| JFetch
| JFill (fuel : nat)
| JOpen (path : string) (wants_write wants_truncate : bool)
| JWrite (path : string) (f : MountFile) (b : bytes) (offset : Z)
| JRename (old new : string)
| JLink (path target : string).

Inductive LazyAct :=
| LStart (i : nat) (j : LazyJob)
| LMove (i : nat) (cs : list LazyChoice)
| LRestart.

#[local] Existing Instance toy_hashes.
#[local] Existing Instance toy_hashes_laws.

Definition lazy_prog (j : LazyJob) : Lazy unit :=
  match j with
  | JFetch => spawned_fetch Sha256
  | JFill fuel => fill_all Sha256 fuel
  | JOpen path w t => forget (open_file 1 false path w t)
  | JWrite path f b offset => forget (write false path f b offset)
  | JRename old new => forget (rename 1 false old new 0)
  | JLink path target => forget (create_symlink false path target)
  end.
Definition may_start (links : bool) (j : LazyJob) (w : LazyWorld) : bool :=
  match j with
  | JWrite _ f _ _ => bool_decide (mf_opener f = ByGuest) && bool_decide (mf_ino f ∈ lw_guest w)
  | JLink _ _ => links
  | _ => true
  end.

Abbreviation LSystem := (@System LazyE LazyWorld unit unit).

Section Scripts.
Context (links : bool).
Abbreviation reachable := (lazy_reachable Sha256 links).

Definition lazy_act (s : LSystem) (a : LazyAct) : option LSystem :=
  match a with
  | LStart i j =>
      match tasks s !! i with
      | None => if may_start links j (world s) then Some (MkSystem (world s) (<[i := (tt, lazy_prog j)]> (tasks s))) else None
      | Some _ => None
      end
  | LMove i cs => run_schedule lazy_handle s (map (fun c => (i, c)) cs)
  | LRestart => Some (MkSystem (restart (world s)) ∅)
  end.
Fixpoint lazy_script (s : LSystem) (acts : list LazyAct) : option LSystem :=
  match acts with
  | [] => Some s
  | a :: acts => match lazy_act s a with Some s => lazy_script s acts | None => None end
  end.

Lemma lazy_act_reachable s a s' : reachable s -> lazy_act s a = Some s' -> reachable s'.
Proof.
  intros Hr E. destruct a as [i j|i cs|]; cbn in E.
  - destruct (tasks s !! i) eqn:Ei; [done|]. destruct (may_start links j (world s)) eqn:Ej; [|done]. simplify_eq.
    eapply reach_step; [done|]. eapply step_start; [done|]. destruct j; cbn [lazy_prog may_start] in *;
      [apply starts_fetch|apply starts_fill|apply starts_open|apply starts_write|apply starts_rename|by apply starts_symlink].
    apply andb_true_iff in Ej as [H1 H2]. split; [by apply bool_decide_eq_true_1 in H1|by apply bool_decide_eq_true_1 in H2].
  - by eapply run_schedule_reachable.
  - simplify_eq. eapply reach_step; [done|].
    pose proof (step_crash lazy_handle (lazy_starts Sha256 links) lazy_env (fun _ => restart) s tt) as Hc.
    by rewrite filter_unit in Hc.
Qed.

Lemma lazy_script_reachable s acts s' : reachable s -> lazy_script s acts = Some s' -> reachable s'.
Proof.
  revert s; induction acts as [|a acts IH]; intros s Hr; cbn; [by intros [= <-]|].
  destruct (lazy_act s a) as [s1|] eqn:Ea; [|done]. intros Hs. eapply IH; [by eapply lazy_act_reachable|done].
Qed.
End Scripts.

(** A tree with one placeholder of three bytes, as a hydrate leaves it. *)
Definition listed : Placeholder := MkPlaceholder 3 None.
Definition zeros3 : bytes := [Byte.x00; Byte.x00; Byte.x00].
Definition abc : bytes := [Byte.x61; Byte.x62; Byte.x63].
Definition hydrated : LazyWorld :=
  restart (MkLW lazy_new {["a.txt" := NFile 0]}
    {[0 := MkInode zeros3 (Some listed) true (Some listed) (Some listed) [] []]} true true [] ∅ []).
Definition lazy0 : LSystem := MkSystem hydrated ∅.
Definition lazy_after (links : bool) (acts : list LazyAct) : LSystem := default lazy0 (lazy_script links lazy0 acts).

Lemma hydrated_files p n : lw_names hydrated !! p = Some n -> n = NFile 0.
Proof.
  change (lw_names hydrated) with ({["a.txt" := NFile 0]} : gmap string Node). by intros [_ <-]%lookup_singleton_Some.
Qed.

Lemma lazy0_reachable links : lazy_reachable Sha256 links lazy0.
Proof.
  apply reach_init. split.
  - eexists _, _, true, []. split; [reflexivity|done].
  - intros p i Hp. pose proof (hydrated_files _ _ Hp) as [= ->]. by eexists.
  - intros _ p target Hp. by apply hydrated_files in Hp.
  - intros i n p. change (lw_inodes hydrated) with ({[0 := MkInode zeros3 (Some listed) true (Some listed) (Some listed) [] []]} : gmap nat LazyInode).
    by intros [_ <-]%lookup_singleton_Some.
  - intros i n. change (lw_inodes hydrated) with ({[0 := MkInode zeros3 (Some listed) true (Some listed) (Some listed) [] []]} : gmap nat LazyInode).
    by intros [_ <-]%lookup_singleton_Some.
Qed.

Lemma lazy_after_reachable links acts : lazy_reachable Sha256 links (lazy_after links acts).
Proof.
  unfold lazy_after. destruct (lazy_script links lazy0 acts) as [s|] eqn:E; cbn; [|apply lazy0_reachable].
  eapply lazy_script_reachable; [apply lazy0_reachable|done].
Qed.

(** ** An open that waits *)

Definition oks (n : nat) : list LazyChoice := replicate n LcOk.

(** An open finds the placeholder and waits; the fetch it started downloads the three
    bytes in two writes; the open goes on, and the guest writes one byte. *)
Definition fetched_on_open : list LazyAct :=
  [ LStart 0 (JOpen "a.txt" true false); LMove 0 (oks 3);
    LStart 1 JFetch; LMove 1 ([LcId 0] ++ oks 4 ++ [LcRead (Ok (0%Z, Some abc)); LcCount 1; LcCount 2] ++ oks 5);
    LMove 0 (oks 3);
    LStart 2 (JWrite "a.txt" (MkFile 0 ByGuest) [Byte.x7a] 1); LMove 2 (oks 5 ++ [LcCount 1] ++ oks 1) ].

Lemma opened_file_is_never_a_placeholder_witness :
  let w := world (lazy_after false fetched_on_open) in
  0 ∈ lw_guest w /\ (in_data <$> lw_inodes w !! 0) = Some [Byte.x61; Byte.x7a; Byte.x63] /\ shows_content Sha256 w 0.
Proof.
  split; [|split]; [by vm_compute|by vm_compute|].
  apply (opened_file_is_never_a_placeholder Sha256 (lazy_after false fetched_on_open)); [apply lazy_after_reachable|by vm_compute].
Defined.

(** While the fetch has the file open, and after a restart in the middle of it. *)
Definition stopped_in_fetch : list LazyAct :=
  [ LStart 0 (JOpen "a.txt" false false); LMove 0 (oks 3);
    LStart 1 JFetch; LMove 1 ([LcId 0] ++ oks 4 ++ [LcRead (Ok (0%Z, Some abc)); LcCount 2]); LRestart ].

Example still_tracked_after_a_stop :
  let w := world (lazy_after false stopped_in_fetch) in
  (in_data <$> lw_inodes w !! 0) = Some [Byte.x61; Byte.x62; Byte.x00] /\ lz_by_path (lw_table w) !! "a.txt" = Some 0%Z.
Proof. by vm_compute. Qed.

(** ** Two names of one placeholder, and another placeholder *)

Definition linked_names : gmap string Node := {["a.txt" := NFile 0; "b.txt" := NFile 0; "c.txt" := NFile 1]}.
Definition blank : LazyInode := MkInode zeros3 (Some listed) true (Some listed) (Some listed) [] [].
Definition linked_inodes : gmap nat LazyInode := {[0 := blank; 1 := blank]}.
Definition linked : LazyWorld := restart (MkLW lazy_new linked_names linked_inodes true true [] ∅ []).

Lemma linked_files p n : lw_names linked !! p = Some n -> n = NFile 0 \/ n = NFile 1.
Proof.
  change (lw_names linked) with linked_names. unfold linked_names.
  rewrite !lookup_insert_Some, lookup_singleton_Some. naive_solver.
Qed.

Lemma linked_blank i n : lw_inodes linked !! i = Some n -> n = blank.
Proof.
  change (lw_inodes linked) with linked_inodes. unfold linked_inodes. rewrite lookup_insert_Some, lookup_singleton_Some. naive_solver.
Qed.

Lemma linked_reachable links : lazy_reachable Sha256 links (MkSystem linked ∅).
Proof.
  apply reach_init. split.
  - eexists _, _, true, []. split; [reflexivity|done].
  - intros p i Hp. destruct (linked_files _ _ Hp) as [[= ->]|[= ->]]; by eexists.
  - intros _ p target Hp. by destruct (linked_files _ _ Hp).
  - intros i n p ->%linked_blank. done.
  - intros i n ->%linked_blank. done.
Qed.

Lemma linked_marked i : i < 2 -> marked linked i listed.
Proof. intros Hi. exists blank. destruct i as [|[|i]]; [by vm_compute..|lia]. Qed.

(** The second name shares the entry of the first, the third has its own. *)
Lemma placeholders_stay_tracked_witness :
  tracked linked "b.txt" listed /\
  lz_by_path (lw_table linked) !! "b.txt" = lz_by_path (lw_table linked) !! "a.txt" /\
  lz_by_path (lw_table linked) !! "b.txt" ≠ lz_by_path (lw_table linked) !! "c.txt".
Proof.
  destruct (placeholders_stay_tracked Sha256 (MkSystem linked ∅) "b.txt" 0 listed (linked_reachable false))
    as [Ht He]; [by vm_compute|by apply linked_marked; lia|].
  split; [exact Ht|]. split.
  - apply (He "a.txt" 0 listed); [by vm_compute|by apply linked_marked; lia|done].
  - intros E. apply (He "c.txt" 1 listed) in E; [done|by vm_compute|by apply linked_marked; lia].
Defined.

(** ** The background fill *)

(** The whole fill: no pack has the file, a batch of one fetches it, the marks go after a
    sync of the whole tree, and the root's mark goes last. *)
Definition filled : list LazyAct :=
  [ LStart 0 (JFill 1); LMove 0 (oks 2 ++ [LcPack (Ok [])] ++ oks 5 ++ [LcRead (Ok (0%Z, Some abc)); LcCount 3] ++ oks 9) ].

Example background_fill_ends :
  let w := world (lazy_after false filled) in
  lw_root w = false /\ lz_outstanding (lw_table w) = 0%Z /\
  lw_inodes w !! 0 = Some (MkInode abc None true None (Some listed) abc []).
Proof. by vm_compute. Qed.

(** ** Symbolic links *)

(** An open of a name that is a link reaches the file it leads to, and waits only for the
    name it was asked for: a guest has a placeholder open and reads its zeros. *)
Lemma open_through_a_link_shows_zeros : exists s,
  lazy_reachable Sha256 true s /\ 0 ∈ lw_guest (world s) /\
  exists n, lw_inodes (world s) !! 0 = Some n /\ in_mark n = Some listed /\ in_data n = zeros3.
Proof.
  exists (lazy_after true [ LStart 0 (JLink "b" "a.txt"); LMove 0 (oks 8); LStart 1 (JOpen "b" false false); LMove 1 (oks 4) ]).
  split; [apply lazy_after_reachable|]. split; [by vm_compute|]. eexists. split; [by vm_compute|done].
Qed.

(** ** The follower of a read-only mount *)

(** The follower forgets a placeholder before it removes the file; an open in between does
    not wait for it. *)
Lemma remote_delete_shows_zeros :
  let s := MkSystem hydrated
    {[0 := (tt, forget (apply_remote_delete (fun _ => false) "a.txt")); 1 := (tt, forget (open_file 1 true "a.txt" false false))]} in
  exists s', run_schedule lazy_handle s (map (pair 0) (oks 4) ++ map (pair 1) (oks 3)) = Some s' /\
    0 ∈ lw_guest (world s') /\
    exists n, lw_inodes (world s') !! 0 = Some n /\ in_mark n = Some listed /\ in_data n = zeros3.
Proof.
  eexists. split; [vm_compute; reflexivity|]. split; [by vm_compute|]. eexists. split; [by vm_compute|done].
Qed.

(** ** A download that matches nothing *)

(** Bytes of another hash than the listed one are kept, whatever the gateway says of the
    file now. *)
Lemma recheck_keeps_any_bytes file length h current :
  prog_run lazy_handle (verify_or_recheck file length h) hydrated
    (match verify_downloaded file length h with Ok _ => [] | Err _ => [LcStat (Ok current)] end)
  = Some (Ok tt, match verify_downloaded file length h with
                 | Ok _ => hydrated | Err _ => add_answers (stat_answers (rf_path file) (Ok current)) hydrated end).
Proof. unfold verify_or_recheck. by destruct (verify_downloaded file length h). Qed.
